(* ===== verification/_CoqProject ===== *)
-Q . S2P
Prelude.v
Runtime.v
Trace.v
Chain.v
Smooth.v
Power.v
PowerProofs.v
PowerProps.v
PowerDemo.v
Reward.v
RewardProps.v
Init.v
Singletons.v
Datacap.v
Multisig.v
Paych.v
Batch.v
MarketState.v
Market.v
MarketMaps.v
MarketInv.v
MarketWf.v
MarketProofs.v
MarketPublish.v
MarketChain.v
MarketProps.v
MarketDemo.v
Verifreg.v
VerifregProofs.v
VerifregChain.v
VerifregProps.v
VerifregDemo.v
EvmWord.v
EvmMachine.v
EvmSystem.v
Eam.v
SmallDemo.v
EvmReader.v
EvmBls.v
EvmPrecompiles.v
EvmInterp.v
EvmActor.v
EvmProofs.v
EvmStep.v
EvmProps.v
EvmReadonly.v
EvmCache.v
EvmAbi.v
EvmLife.v
EvmDemo.v
Collections.v
MinerBase.v
MinerQueues.v
MinerPartition.v
MinerDeadline.v
MinerFunds.v
MinerState.v
MinerCalls.v
MinerSectors.v
MinerActor.v
MinerEpochs.v
MinerVesting.v
MinerMoney.v
MinerPlan.v
MinerPlanOps.v
MinerPlanPop.v
MinerPlanRemove.v
MinerParts.v
MinerDeadlines.v
MinerStanding.v
MinerReplace.v
MinerChain.v
MinerClaims.v
MinerProps.v
MinerPower.v
MinerDemo.v
MinerClaimDemo.v
