(* ===== verification/Prelude.v ===== *)
(** * Built-in Filecoin actors: a verification development

    The repository implements the built-in actors of the Filecoin network:
    programs of the FVM that hold state, receive messages, and send messages to
    each other through the [Runtime] trait.  This library translates the actors
    and the parts of the runtime they use into Rocq functions, and proves what
    makes them correct.

    ** The program and its parts

    - src/runtime: the [Runtime] trait and its FVM implementation, errors,
      shared helpers, batch results, smoothed estimates, the policy.
    - src/actors/miner: storage providers.  A miner commits sectors, keeps them
      in the partitions of 48 deadlines, proves each deadline once a day, pays
      for faults and early terminations, and holds pledges and vesting rewards.
    - src/actors/power: the power claimed by each miner, its totals, and the
      deferred cron events.
    - src/actors/reward: minting of block rewards.
    - src/actors/market: the storage market.  Clients and miners lock funds in
      escrow, miners publish deals, prove them by activation, and are paid over
      time; cron processes deals that time out.
    - src/actors/verifreg and src/actors/datacap: the verified registry, and the
      token of data cap it governs.
    - src/actors/evm and src/actors/eam: Ethereum contracts and their addresses.
    - src/actors/multisig, src/actors/paych: wallets and payment channels.
    - src/actors/{init,cron,account,system,ethaccount}: creation of actors and
      singletons.

    Actors interact by messages.  Miners report power to the power actor, which
    runs their deadlines' ends at epochs they enrolled; they activate deals with
    the market and claim allocations of the registry; they receive rewards from
    the reward actor.  The market moves data cap and pays miners; the registry
    mints and burns data cap.  The address manager has the init actor create
    contracts.  Cron calls the power actor and the market at every epoch.

    ** How the code is modelled

    A w-bit integer is a [Z] whose range is explicit: the actors are compiled
    with overflow checks, so an operation that leaves its type panics.  Token
    amounts are unbounded in the code and here.  A [Result] that may also
    panic is [Res].  HAMTs, AMTs and KAMTs, which the code reaches through
    CIDs, are the finite maps they denote; loading and flushing them is the
    identity.  Bit fields are finite sets.  Code that mutates a structure and
    may return an error half-way runs in the monad [St], which keeps the
    changes made before the error.  A method of an actor runs in the runtime
    monad [M] over its world: its state, its balance, the rest of the network.

    What is not in the repository (the FVM kernel, other actors' replies, CBOR
    codecs, hash functions, curve arithmetic, the FRC-46 token library, FRC-42
    method numbers, HAMT iteration order) is a parameter: a field of [Env],
    [Ext] or another record or class.  Theorems that need more of them state it
    as a named hypothesis ([env_ok], [ext_ok], [burn_law], [confined], [aloof],
    ...), and a concrete instance shows that it can hold.

    Sends are re-entrant: a callee may call the sender back.  [reach]
    (Runtime.v) and [chain] (Chain.v, with the clock and the balance) define
    the states an actor goes through under any sequence and nesting of
    messages; the invariants hold in all of them.  [trace] (Trace.v) is the
    same with a record of what happened on the way, for properties of a whole
    message with all that is called back: that something happens once.

    ** Files

    Shared:
    - Prelude.v: machine integers, [Res], [St] with the total-correctness
      predicate [succeeds], sums over maps, tactics.
    - Runtime.v: addresses, exit codes, errors, the runtime monad and its
      inversion lemmas, invocation ([trampoline]), reachability.
    - Trace.v: runs that record the actions of an actor, refinement of an
      abstract actor by its methods, and what is done at most once.
    - Chain.v: runs of an actor on the chain and their induction principle.
    - Batch.v: batch results (src/runtime/src/util/batch_return.rs).
    - Smooth.v: smoothed estimates (src/runtime/src/builtin/reward).
    - Collections.v: bit fields, arrays, sums over sets.

    Power (src/actors/power): Power.v has the state and the methods,
    PowerProofs.v the accounting of claims, PowerProps.v the properties,
    PowerDemo.v a concrete run.

    Reward, init, cron, account, system, Ethereum account, data cap
    (src/actors/{reward,init,cron,account,system,ethaccount,datacap}): Reward.v,
    RewardProps.v, Init.v, Singletons.v, Datacap.v; SmallDemo.v has the concrete
    instances.

    Multisig.v (src/actors/multisig) and Paych.v (src/actors/paych), each also
    with an abstract actor, which the methods refine.

    Market (src/actors/market):
    - MarketState.v: deals, balance tables and the methods of [State]
      (deal.rs, policy.rs, balance_table.rs, state.rs).
    - Market.v: the methods and the dispatch (lib.rs).
    - MarketMaps.v, MarketInv.v, MarketWf.v: the tables, the accounting
      invariant, the invariant of the state at rest and inside the loops.
    - MarketProofs.v, MarketPublish.v: the methods keep the invariant.
    - MarketChain.v, MarketProps.v, MarketDemo.v: runs, properties, a run.

    Verified registry (src/actors/verifreg): Verifreg.v has the methods,
    VerifregProofs.v the tables as a transition system, VerifregChain.v runs,
    VerifregProps.v the properties, VerifregDemo.v a run.

    EVM (src/actors/evm) and address manager (src/actors/eam):
    - EvmWord.v: 256-bit words and their instructions.
    - EvmMachine.v: stack, memory, bytecode.
    - EvmSystem.v: addresses, the state of a contract, the [System].
    - EvmReader.v, EvmBls.v, EvmPrecompiles.v: precompiles.
    - EvmInterp.v: the instructions and the machine that runs them.
    - EvmActor.v: the methods of the actor.
    - EvmProofs.v, EvmStep.v: the operations of the system, the precompiles and
      every instruction keep the types of the machine.
    - EvmProps.v, EvmReadonly.v, EvmCache.v, EvmAbi.v, EvmLife.v: stack effects
      and memory, read-only execution, the storage cache, the native ABI, the
      life of a contract.  EvmDemo.v has the concrete instances.
    - Eam.v: the address manager, and its composition with the init actor.

    Miner (src/actors/miner), the model:
    - MinerBase.v: policy, epochs, deadlines, sector infos, power.
    - MinerQueues.v: bitfield_queue.rs, expiration_queue.rs.
    - MinerPartition.v: sectors.rs, sector_map.rs, partition_state.rs.
    - MinerDeadline.v: deadline_state.rs, deadline_assignment.rs, deadlines.rs.
    - MinerFunds.v: vesting_state.rs, monies.rs.
    - MinerState.v: state.rs.
    - MinerCalls.v, MinerSectors.v, MinerActor.v: ext.rs, commd.rs,
      notifications.rs and the methods and dispatch of lib.rs.
    Miner, the proofs:
    - MinerEpochs.v: the calendar of deadlines.
    - MinerVesting.v: the vesting table.
    - MinerMoney.v: the ledger of deposits, locked funds and sector numbers.
    - MinerPlan.v, MinerPlanOps.v, MinerPlanPop.v, MinerPlanRemove.v: the
      expiration queue refines a plan that gives each live sector the epoch at
      which it leaves.
    - MinerParts.v, MinerDeadlines.v: the invariants of partitions and of
      deadlines.
    - MinerStanding.v, MinerReplace.v: the invariant of the sectors of a miner;
      every transaction keeps it and returns the change of the active power.
      Every sector on record has a duration, so its power is defined.
      MinerReplace.v has the transactions that replace the infos of sectors.
    - MinerChain.v: solvency along every run.
    - MinerClaims.v: the power claimed along every run.
    - MinerProps.v: the properties.
    - MinerPower.v: the miner with the power actor of Power.v.
    - MinerDemo.v, MinerClaimDemo.v: runs that instantiate their hypotheses.

    ** What the theorems show

    Miner: along every run the balance covers deposits, locked funds and
    pledges, and the deposits and locked funds are those of the tables; a
    sector number is used once; rewards vest linearly; every epoch belongs to
    one deadline and the cron of the miner keeps up with it as long as there
    are deposits, pledges or locked funds.  The expiration queue of a partition
    refines a plan of its sectors.  Along the runs in which every dispute of a
    window PoSt finds the infos of the deadline's snapshot still in the table
    of sectors, the sets of sectors of partitions and deadlines nest, their
    memoized counts, powers and fees are exact, and the power claimed with the
    power actor is that of the active sectors, also when the power actor is
    that of Power.v and nothing else changes the claim (the power actor deletes
    it when a deferred cron call to the miner fails).  A run in
    MinerClaimDemo.v shows what happens when a dispute finds other infos.

    Power: totals and the count of consensus miners are the sums over the
    claims in every reachable state; due cron events are delivered once, in
    order.

    Reward: network time follows realized power and is at most the number of
    epochs since genesis; a block reward is paid once or burnt.

    Market: solvency and exact accounting in every reachable state; cron,
    settlement and termination never fail there; payments add up to the
    storage fee; the tables agree; the pending set covers the deals that are
    not activated.

    Verified registry and data cap: the registry's tokens cover the open
    allocations; an allocation is claimed at most once, by a request for its
    client, piece and size within its terms; identifiers are never reused; data
    cap is minted by the governor only and moves to or from it only.

    EVM: words compute the EVM's arithmetic; stack, memory, storage and program
    counter are well-formed in every state of a run; the stack effects and
    errors of all instructions; a read-only run changes nothing and sends no
    value; the write-back cache of storage refines a store written at once,
    over calls that re-enter; the encoding of native calls and of their
    results; self-destruction, and resurrection as a new contract.

    Multisig: messages refine an abstract multisig, in which signers act under
    the guards of the actor; a transaction is executed at most once, with a
    threshold of distinct signers, and never spends locked funds.  Payment
    channels: a voucher is redeemed at most once, also when the channel is
    called back while it redeems.  Init and address manager: an ID is allotted
    once, addresses stay mapped; a created contract is found under its Ethereum
    address.  Cron calls every entry whatever the callees answer.

    Some theorems exhibit behaviour the documentation of the code does not
    admit: a second publication of a deal
    proposal before its start, an overlap of expiration epochs, a count of
    miners that drifts, power that stays claimed for a sector that is faulty.

    ** Bounds and fuel

    Loops over finite data are structural folds.  Fuel is used where the
    recursion is not structural:
    - [execute] (EvmInterp.v) runs bytecode, which need not terminate; the
      theorems hold for every amount of fuel.
    - the loop of the reward actor that advances network time ([catch_up])
      gets as much fuel as the lag of the cumulative baseline divided by the
      current baseline, which is shown to be enough.
    - the iterator of a vesting schedule takes one step per [step_duration] of
      the vesting period, which is shown to be enough.
    - [fill_partitions] (MinerDeadline.v), which starts at the last partition,
      gets a step for each sector and two more: only the first step may find a
      full partition, every other one places at least one sector.
    The market's cron theorem assumes epochs below 2^62 and an update interval
    of at most 2^61, so that the schedule does not leave [i64].

    ** Not modelled

    - Gas, events and logs: no effect on the state.  The panics of event
      construction are kept where the code has them (emit.rs of the actors).
    - IPLD block storage and the persistent collections that wrap it
      (src/runtime/src/util, fvm_ipld_amt and hamt): the maps they denote are
      modelled, not their encoding.
    - The state checkers (testing.rs of the actors, src/state): they test
      states, no message runs them.
    - The dispatch macros of src/runtime/src/dispatch.rs: each actor's dispatch
      is written out.
    - The test runtime, the test VM and the integration tests.
    - The placeholder actor, which ignores every message. *)

From stdpp Require Export base gmap list fin_maps fin_map_dom strings.
From Stdlib Require Export ZArith Lia.

#[global] Open Scope Z_scope.

(** ** Machine integers

    The actors are compiled with [overflow-checks = true] (profile [wasm] of
    [src/Cargo.toml]): an arithmetic operation that leaves its machine type
    panics.  Values are kept in [Z] and the range of each type is explicit. *)

Definition I64_MIN : Z := - 2 ^ 63.
Definition I64_MAX : Z := 2 ^ 63 - 1.
Definition U64_MAX : Z := 2 ^ 64 - 1.

Definition in_i64 (x : Z) : bool := (I64_MIN <=? x) && (x <=? I64_MAX).
Definition in_u64 (x : Z) : bool := (0 <=? x) && (x <=? U64_MAX).

Lemma in_i64_spec x : in_i64 x = true <-> - 2 ^ 63 <= x <= 2 ^ 63 - 1.
Proof. unfold in_i64, I64_MIN, I64_MAX. rewrite andb_true_iff. lia. Qed.

Lemma in_u64_spec x : in_u64 x = true <-> 0 <= x <= 2 ^ 64 - 1.
Proof. unfold in_u64, U64_MAX. rewrite andb_true_iff. lia. Qed.

(** Rounded-up division as [num_integer::Integer::div_ceil] computes it:
    the quotient rounded towards plus infinity. *)
Definition div_ceil (a b : Z) : Z := - ((- a) / b).

Lemma div_ceil_bounds a b :
  0 < b -> a <= div_ceil a b * b < a + b.
Proof.
  intros Hb. unfold div_ceil.
  pose proof (Z.mod_pos_bound (- a) b Hb).
  pose proof (Z.div_mod (- a) b ltac:(lia)). nia.
Qed.

Lemma div_ceil_mono a a' b :
  0 < b -> a <= a' -> div_ceil a b <= div_ceil a' b.
Proof.
  intros Hb Ha. unfold div_ceil.
  pose proof (Z.div_le_mono (- a') (- a) b Hb ltac:(lia)). lia.
Qed.

Lemma div_ceil_nonneg a b : 0 < b -> 0 <= a -> 0 <= div_ceil a b.
Proof. intros Hb Ha. pose proof (div_ceil_bounds a b Hb). nia. Qed.

Lemma div_ceil_mul a b : 0 < b -> div_ceil (a * b) b = a.
Proof.
  intros Hb. unfold div_ceil.
  replace (- (a * b)) with (- a * b) by ring.
  rewrite Z.div_mul by lia. lia.
Qed.

(** ** Results

    Every fallible operation of the actors returns [Result<T, ActorError>]; a
    Rust panic (overflow, [expect] on [None], ...) is not an [Err]: the panic
    hook installed by the trampoline aborts the whole invocation, so code that
    inspects an [Err] cannot intercept it. *)

Inductive Res (E A : Type) : Type :=
| Ok (a : A)
| Err (e : E)
| Panic.
Arguments Ok {E A} a.
Arguments Err {E A} e.
Arguments Panic {E A}.

Definition rbind {E A B} (m : Res E A) (f : A -> Res E B) : Res E B :=
  match m with
  | Ok a => f a
  | Err e => Err e
  | Panic => Panic
  end.

Declare Scope res_scope.
Delimit Scope res_scope with res.
Notation "'let!' x := m 'in' k" := (rbind m (fun x => k))
  (at level 10, x pattern, m at level 100, k at level 200, format "'let!'  x  :=  m  'in' '//' k") : res_scope.
#[global] Open Scope res_scope.

Definition is_ok {E A} (r : Res E A) : bool :=
  match r with Ok _ => true | _ => false end.

Definition ok_or {E A} (o : option A) (e : E) : Res E A :=
  match o with Some a => Ok a | None => Err e end.

(** [Option::expect] and [Option::unwrap]. *)
Definition expect {E A} (o : option A) : Res E A :=
  match o with Some a => Ok a | None => Panic end.

Lemma rbind_ok {E A B} (m : Res E A) (f : A -> Res E B) b :
  rbind m f = Ok b <-> exists a, m = Ok a /\ f a = Ok b.
Proof. destruct m; naive_solver. Qed.

Lemma rbind_err {E A B} (m : Res E A) (f : A -> Res E B) e :
  rbind m f = Err e <-> m = Err e \/ exists a, m = Ok a /\ f a = Err e.
Proof. destruct m; naive_solver. Qed.

Lemma rbind_assoc {E A B C} (m : Res E A) (f : A -> Res E B) (g : B -> Res E C) :
  rbind (rbind m f) g = rbind m (fun a => rbind (f a) g).
Proof. by destruct m. Qed.

Lemma ok_or_ok {E A} (o : option A) (e : E) a : ok_or o e = Ok a <-> o = Some a.
Proof. destruct o; naive_solver. Qed.

Lemma expect_ok {E A} (o : option A) a : @expect E A o = Ok a <-> o = Some a.
Proof. destruct o; naive_solver. Qed.

(** Checked machine arithmetic. *)
Definition chk_i64 {E} (x : Z) : Res E Z := if in_i64 x then Ok x else Panic.
Definition chk_u64 {E} (x : Z) : Res E Z := if in_u64 x then Ok x else Panic.

Lemma chk_i64_ok {E} x y : @chk_i64 E x = Ok y <-> y = x /\ - 2 ^ 63 <= x <= 2 ^ 63 - 1.
Proof. unfold chk_i64. rewrite <- in_i64_spec. destruct (in_i64 x); naive_solver. Qed.

Lemma chk_u64_ok {E} x y : @chk_u64 E x = Ok y <-> y = x /\ 0 <= x <= 2 ^ 64 - 1.
Proof. unfold chk_u64. rewrite <- in_u64_spec. destruct (in_u64 x); naive_solver. Qed.

(** A fallible loop over a slice: [for x in xs { acc = f(acc, x)?; }]. *)
Fixpoint rfold {E A X} (f : A -> X -> Res E A) (acc : A) (xs : list X) : Res E A :=
  match xs with
  | [] => Ok acc
  | x :: xs' => let! acc' := f acc x in rfold f acc' xs'
  end.

Lemma rfold_inv {E A X} (f : A -> X -> Res E A) (P : A -> Prop) xs : forall acc acc',
  P acc ->
  (forall a x a', x ∈ xs -> P a -> f a x = Ok a' -> P a') ->
  rfold f acc xs = Ok acc' -> P acc'.
Proof.
  induction xs as [|x xs IH]; cbn; intros acc acc' HP Hstep H.
  - by injection H as <-.
  - apply rbind_ok in H as (a & Ha & H).
    eapply IH; [eapply Hstep; [left|..]; eassumption| |exact H].
    intros; eapply Hstep; [right|..]; eassumption.
Qed.

(** ** Tactics *)

(** Turns boolean tests on integers into propositions. *)
Ltac bool_prop :=
  repeat match goal with
  | H : _ && _ = true |- _ => apply andb_true_iff in H; destruct H
  | H : _ || _ = false |- _ => apply orb_false_iff in H; destruct H
  | H : negb _ = true |- _ => apply negb_true_iff in H
  | H : negb _ = false |- _ => apply negb_false_iff in H
  | H : (_ <? _) = true |- _ => apply Z.ltb_lt in H
  | H : (_ <? _) = false |- _ => apply Z.ltb_ge in H
  | H : (_ <=? _) = true |- _ => apply Z.leb_le in H
  | H : (_ <=? _) = false |- _ => apply Z.leb_gt in H
  | H : (_ =? _) = true |- _ => apply Z.eqb_eq in H
  | H : (_ =? _) = false |- _ => apply Z.eqb_neq in H
  | H : (_ >? _) = _ |- _ => rewrite Z.gtb_ltb in H
  | H : (_ >=? _) = _ |- _ => rewrite Z.geb_leb in H
  | H : bool_decide _ = true |- _ => apply bool_decide_eq_true in H
  | H : bool_decide _ = false |- _ => apply bool_decide_eq_false in H
  end.

(** Inverts a successful run: peels the binds, the early returns and the
    checked operations of a hypothesis [_ = Ok _]. *)
Ltac res_step :=
  match goal with
  | H : Ok _ = Ok _ |- _ => injection H as H; subst
  | H : Err _ = Ok _ |- _ => discriminate H
  | H : Panic = Ok _ |- _ => discriminate H
  | H : Ok _ = Err _ |- _ => discriminate H
  | H : (_, _) = (_, _) |- _ => injection H as H; subst
  | H : rbind _ _ = Ok _ |- _ =>
      apply rbind_ok in H; destruct H as (? & ? & H); cbn beta in H
  | H : ok_or _ _ = Ok _ |- _ => apply ok_or_ok in H
  | H : expect _ = Ok _ |- _ => apply expect_ok in H
  | H : chk_i64 _ = Ok _ |- _ => apply chk_i64_ok in H; destruct H as [-> ?]
  | H : chk_u64 _ = Ok _ |- _ => apply chk_u64_ok in H; destruct H as [-> ?]
  | H : (if ?b then Err _ else _) = Ok _ |- _ =>
      destruct b eqn:?; [discriminate H|]
  | H : (if ?b then Panic else _) = Ok _ |- _ =>
      destruct b eqn:?; [discriminate H|]
  | H : (if ?b then _ else Err _) = Ok _ |- _ =>
      destruct b eqn:?; [|discriminate H]
  | H : (let '(_, _) := ?p in _) = Ok _ |- _ => destruct p eqn:?
  end.
Ltac res_inv := repeat (res_step; bool_prop).

(** ** Sums over finite maps and lists *)

Definition sum_list_Z (l : list Z) : Z := foldr Z.add 0 l.

Lemma sum_list_Z_app l k : sum_list_Z (l ++ k) = sum_list_Z l + sum_list_Z k.
Proof. induction l; cbn; [done|]. unfold sum_list_Z in *. cbn. lia. Qed.

Lemma sum_list_Z_nonneg l : Forall (fun x => 0 <= x) l -> 0 <= sum_list_Z l.
Proof. induction 1; cbn; [done|]. unfold sum_list_Z in *. lia. Qed.

Section map_sum.
Context `{Countable K} {V : Type} (f : V -> Z).

Definition map_sum (m : gmap K V) : Z := map_fold (fun _ v acc => f v + acc) 0 m.

Lemma map_sum_empty : map_sum ∅ = 0.
Proof. apply map_fold_empty. Qed.

Lemma map_sum_insert_new k v (m : gmap K V) :
  m !! k = None -> map_sum (<[k := v]> m) = f v + map_sum m.
Proof.
  intros Hk. unfold map_sum. rewrite map_fold_insert_L; [done| |done].
  intros. lia.
Qed.

Lemma map_sum_delete k v (m : gmap K V) :
  m !! k = Some v -> map_sum m = f v + map_sum (delete k m).
Proof.
  intros Hk. rewrite <- (insert_delete_id m k v Hk) at 1.
  apply map_sum_insert_new, lookup_delete_eq.
Qed.

Definition lookup_sum (k : K) (m : gmap K V) : Z := default 0 (f <$> m !! k).

Lemma map_sum_delete_any k (m : gmap K V) :
  map_sum (delete k m) = map_sum m - lookup_sum k m.
Proof.
  unfold lookup_sum. destruct (m !! k) as [v|] eqn:Hk; cbn.
  - rewrite (map_sum_delete k v m Hk). lia.
  - rewrite delete_id by done. lia.
Qed.

Lemma map_sum_insert k v (m : gmap K V) :
  map_sum (<[k := v]> m) = map_sum m - lookup_sum k m + f v.
Proof.
  rewrite <- insert_delete_eq, map_sum_insert_new by apply lookup_delete_eq.
  rewrite map_sum_delete_any. lia.
Qed.

Lemma map_sum_nonneg (m : gmap K V) :
  (forall k v, m !! k = Some v -> 0 <= f v) -> 0 <= map_sum m.
Proof.
  induction m as [|k v m Hk Hfold IH] using map_first_key_ind; intros Hf.
  - by rewrite map_sum_empty.
  - rewrite map_sum_insert_new by done.
    assert (0 <= f v) by (apply (Hf k); apply lookup_insert_eq).
    assert (0 <= map_sum m).
    { apply IH. intros k' v' Hk'. apply (Hf k').
      rewrite lookup_insert_ne; [done|]. intros ->. congruence. }
    lia.
Qed.

Lemma map_sum_lookup_le k v (m : gmap K V) :
  (forall k v, m !! k = Some v -> 0 <= f v) ->
  m !! k = Some v -> f v <= map_sum m.
Proof.
  intros Hf Hk. rewrite (map_sum_delete k v m Hk).
  assert (0 <= map_sum (delete k m)); [|lia].
  apply map_sum_nonneg. intros k' v' Hk'.
  apply lookup_delete_Some in Hk' as [_ Hk']. by apply (Hf k').
Qed.
End map_sum.

Lemma map_sum_le `{Countable K} {V : Type} (f g : V -> Z) (m : gmap K V) :
  (forall k v, m !! k = Some v -> f v <= g v) -> map_sum f m <= map_sum g m.
Proof.
  induction m as [|k v m Hk Hfold IH] using map_first_key_ind; intros Hfg.
  - by rewrite !map_sum_empty.
  - rewrite !map_sum_insert_new by done.
    assert (f v <= g v) by (apply (Hfg k); apply lookup_insert_eq).
    assert (map_sum f m <= map_sum g m); [|lia].
    apply IH. intros k' v' Hk'. apply (Hfg k'). rewrite lookup_insert_ne; [done|]. congruence.
Qed.

(** Sums whose terms depend on the key as well. *)
Section map_sumk.
Context `{Countable K} {V : Type}.
Implicit Types (f g : K -> V -> Z) (m : gmap K V).

Definition map_sumk f m : Z := map_fold (fun k v acc => f k v + acc) 0 m.

Lemma map_sumk_empty f : map_sumk f ∅ = 0.
Proof. apply map_fold_empty. Qed.

Lemma map_sumk_insert_new f k v m :
  m !! k = None -> map_sumk f (<[k := v]> m) = f k v + map_sumk f m.
Proof.
  intros Hk. unfold map_sumk. rewrite map_fold_insert_L; [done| |done].
  intros. lia.
Qed.

Lemma map_sumk_delete f k v m :
  m !! k = Some v -> map_sumk f m = f k v + map_sumk f (delete k m).
Proof.
  intros Hk. rewrite <- (insert_delete_id m k v Hk) at 1.
  apply map_sumk_insert_new, lookup_delete_eq.
Qed.

Lemma map_sumk_ext f g m :
  (forall k v, m !! k = Some v -> f k v = g k v) -> map_sumk f m = map_sumk g m.
Proof.
  induction m as [|k v m Hk Hfold IH] using map_first_key_ind; intros Hfg.
  - by rewrite !map_sumk_empty.
  - rewrite !map_sumk_insert_new by done. rewrite (Hfg k v) by apply lookup_insert_eq.
    rewrite IH; [done|]. intros k' v' Hk'. apply Hfg.
    rewrite lookup_insert_ne; [done|]. intros ->. congruence.
Qed.

Lemma map_sumk_nonneg f m :
  (forall k v, m !! k = Some v -> 0 <= f k v) -> 0 <= map_sumk f m.
Proof.
  induction m as [|k v m Hk Hfold IH] using map_first_key_ind; intros Hf.
  - by rewrite map_sumk_empty.
  - rewrite map_sumk_insert_new by done.
    assert (0 <= f k v) by (apply Hf, lookup_insert_eq).
    assert (0 <= map_sumk f m); [|lia].
    apply IH. intros k' v' Hk'. apply Hf.
    rewrite lookup_insert_ne; [done|]. intros ->. congruence.
Qed.

(** One term of a sum of non-negative terms is at most the sum. *)
Lemma map_sumk_lookup_le f k v m :
  (forall k v, m !! k = Some v -> 0 <= f k v) -> m !! k = Some v -> f k v <= map_sumk f m.
Proof.
  intros Hf Hk. rewrite (map_sumk_delete f k v m Hk).
  assert (0 <= map_sumk f (delete k m)); [|lia].
  apply map_sumk_nonneg. intros k' v' [_ Hk']%lookup_delete_Some. by apply Hf.
Qed.

(** The sum changes with one term when the others agree. *)
Lemma map_sumk_update f g k v m :
  m !! k = Some v -> (forall k' v', k' <> k -> m !! k' = Some v' -> f k' v' = g k' v') ->
  map_sumk g m = map_sumk f m - f k v + g k v.
Proof.
  intros Hk Hfg. rewrite !(map_sumk_delete _ k v m Hk).
  rewrite (map_sumk_ext f g (delete k m)); [lia|].
  intros k' v' [? ?]%lookup_delete_Some. by apply Hfg.
Qed.
End map_sumk.

(** ** Stateful code that keeps its changes on an error

    A Rust method with a [&mut self] receiver that returns an [Err] has
    already made the changes that precede the error; a caller that handles the
    error sees them. *)

Section stateful.
Context {S E : Type}.

Definition St (A : Type) : Type := S -> Res E A * S.

Definition sret {A} (a : A) : St A := fun s => (Ok a, s).
Definition sfail {A} (e : E) : St A := fun s => (Err e, s).
Definition slift {A} (r : Res E A) : St A := fun s => (r, s).
Definition sget : St S := fun s => (Ok s, s).
Definition sput (s : S) : St unit := fun _ => (Ok tt, s).
Definition smodify (f : S -> S) : St unit := fun s => (Ok tt, f s).

Definition sbind {A B} (m : St A) (f : A -> St B) : St B := fun s =>
  match m s with
  | (Ok a, s') => f a s'
  | (Err e, s') => (Err e, s')
  | (Panic, s') => (Panic, s')
  end.

(** [match m { Ok(a) => .., Err(e) => .. }]. *)
Definition scatch {A} (m : St A) : St (A + E) := fun s =>
  match m s with
  | (Ok a, s') => (Ok (inl a), s')
  | (Err e, s') => (Ok (inr e), s')
  | (Panic, s') => (Panic, s')
  end.

(** [for x in xs { acc = f(acc, x)?; }]. *)
Fixpoint sfold {A X} (f : A -> X -> St A) (acc : A) (xs : list X) : St A :=
  match xs with
  | [] => sret acc
  | x :: xs' => sbind (f acc x) (fun acc' => sfold f acc' xs')
  end.

(** Runs the code and discards the state when it fails, as the VM does when
    the error aborts the message. *)
Definition run_st {A} (m : St A) (s : S) : Res E (A * S) :=
  match m s with
  | (Ok a, s') => Ok (a, s')
  | (Err e, _) => Err e
  | (Panic, _) => Panic
  end.

Lemma sbind_ok {A B} (m : St A) (f : A -> St B) s b s' :
  sbind m f s = (Ok b, s') <-> exists a s1, m s = (Ok a, s1) /\ f a s1 = (Ok b, s').
Proof. unfold sbind. destruct (m s) as [[]]; naive_solver. Qed.

Lemma run_st_ok {A} (m : St A) s a s' : run_st m s = Ok (a, s') <-> m s = (Ok a, s').
Proof. unfold run_st. destruct (m s) as [[]]; naive_solver. Qed.

(** The computation succeeds from [s], with a result and state in [Q]. *)
Definition succeeds {A} (m : St A) (s : S) (Q : A -> S -> Prop) : Prop :=
  exists a s', m s = (Ok a, s') /\ Q a s'.

Lemma succeeds_ret {A} (a : A) s (Q : A -> S -> Prop) : Q a s -> succeeds (sret a) s Q.
Proof. intros. exists a, s. done. Qed.

Lemma succeeds_bind {A B} (m : St A) (f : A -> St B) s Q R :
  succeeds m s Q -> (forall a s', Q a s' -> succeeds (f a) s' R) -> succeeds (sbind m f) s R.
Proof.
  intros (a & s1 & Hm & HQ) Hf. destruct (Hf a s1 HQ) as (b & s2 & Hb & HR).
  exists b, s2. split; [|done]. unfold sbind. by rewrite Hm.
Qed.

Lemma succeeds_lift {A B} (r : Res E A) a (f : A -> St B) s R :
  r = Ok a -> succeeds (f a) s R -> succeeds (sbind (slift r) f) s R.
Proof. intros -> H. exact H. Qed.

Lemma succeeds_run {A B} (m : St A) a s' (f : A -> St B) s R :
  m s = (Ok a, s') -> succeeds (f a) s' R -> succeeds (sbind m f) s R.
Proof. intros Hm (b & s2 & Hb & HR). exists b, s2. unfold sbind. by rewrite Hm. Qed.

Lemma succeeds_get {B} (f : S -> St B) s R :
  succeeds (f s) s R -> succeeds (sbind sget f) s R.
Proof. exact id. Qed.

Lemma succeeds_put {B} (f : unit -> St B) s s' R :
  succeeds (f tt) s' R -> succeeds (sbind (sput s') f) s R.
Proof. exact id. Qed.

Lemma succeeds_modify {B} g (f : unit -> St B) s R :
  succeeds (f tt) (g s) R -> succeeds (sbind (smodify g) f) s R.
Proof. exact id. Qed.

Lemma succeeds_skip {A B} (a : A) (f : A -> St B) s R :
  succeeds (f a) s R -> succeeds (sbind (sret a) f) s R.
Proof. exact id. Qed.

Lemma succeeds_assoc {A B C} (m : St A) (f : A -> St B) (g : B -> St C) s R :
  succeeds (sbind m (fun a => sbind (f a) g)) s R -> succeeds (sbind (sbind m f) g) s R.
Proof.
  intros (c & s' & H & HR). exists c, s'. split; [|done]. revert H.
  unfold sbind. destruct (m s) as [[]]; done.
Qed.

Lemma succeeds_mono {A} (m : St A) s (Q R : A -> S -> Prop) :
  succeeds m s Q -> (forall a s', Q a s' -> R a s') -> succeeds m s R.
Proof. intros (a & s' & ? & ?) HQR. exists a, s'. auto. Qed.

Lemma succeeds_catch {A} (m : St A) s Q :
  succeeds m s Q ->
  succeeds (scatch m) s (fun r s' => exists a, r = inl a /\ Q a s').
Proof.
  intros (a & s' & Hm & HQ). exists (inl a), s'. unfold scatch. rewrite Hm. eauto.
Qed.

(** A loop with an invariant over the elements still to process. *)
Lemma succeeds_fold {A X} (f : A -> X -> St A) (I : list X -> A -> S -> Prop) xs : forall acc s,
  I xs acc s ->
  (forall x xs' acc s, I (x :: xs') acc s -> succeeds (f acc x) s (I xs')) ->
  succeeds (sfold f acc xs) s (I []).
Proof.
  induction xs as [|x xs IH]; intros acc s HI Hstep; cbn.
  - by apply succeeds_ret.
  - eapply succeeds_bind; [by apply Hstep|]. intros acc' s' HI'. by apply IH.
Qed.

Lemma sfold_inv {A X} (f : A -> X -> St A) (I : A -> S -> Prop) xs : forall acc s acc' s',
  I acc s ->
  (forall x acc s acc' s', x ∈ xs -> I acc s -> f acc x s = (Ok acc', s') -> I acc' s') ->
  sfold f acc xs s = (Ok acc', s') -> I acc' s'.
Proof.
  induction xs as [|x xs IH]; intros acc s acc' s' HI Hstep H; cbn in H.
  - unfold sret in H. naive_solver.
  - apply sbind_ok in H as (a1 & s1 & H1 & H). eapply IH; [| |exact H].
    + eapply Hstep; [left|..]; eassumption.
    + intros; eapply Hstep; [right|..]; eassumption.
Qed.

(** The same with the elements still to process, for a successful run. *)
Lemma sfold_inv_rest {A X} (f : A -> X -> St A) (I : list X -> A -> S -> Prop) xs :
  forall acc s acc' s',
  I xs acc s ->
  (forall x xs' acc s acc' s', I (x :: xs') acc s -> f acc x s = (Ok acc', s') -> I xs' acc' s') ->
  sfold f acc xs s = (Ok acc', s') -> I [] acc' s'.
Proof.
  induction xs as [|x xs IH]; intros acc s acc' s' HI Hstep H; cbn in H.
  - unfold sret in H. naive_solver.
  - apply sbind_ok in H as (a1 & s1 & H1 & H). eapply IH; eauto.
Qed.
End stateful.
Arguments St S E A : clear implicits.

Notation "'let&' x := m 'in' k" := (sbind m (fun x => k))
  (at level 10, x pattern, m at level 100, k at level 200,
   format "'let&'  x  :=  m  'in' '//' k") : res_scope.

(** Inverts a successful run of stateful code. *)
Ltac st_step :=
  match goal with
  | H : sbind _ _ _ = (Ok _, _) |- _ =>
      apply sbind_ok in H; destruct H as (? & ? & ? & H); cbn beta in H
  | H : (sret _) _ = (Ok _, _) |- _ => unfold sret in H; injection H as ? ?; subst
  | H : (sfail _) _ = (Ok _, _) |- _ => unfold sfail in H; discriminate H
  | H : (slift _) _ = (Ok _, _) |- _ => unfold slift in H; injection H as H ?; subst
  | H : sget _ = (Ok _, _) |- _ => unfold sget in H; injection H as ? ?; subst
  | H : sput _ _ = (Ok _, _) |- _ => unfold sput in H; injection H as ? ?; subst
  | H : smodify _ _ = (Ok _, _) |- _ => unfold smodify in H; injection H as ? ?; subst
  | H : (if ?b then sfail _ else _) _ = (Ok _, _) |- _ =>
      destruct b eqn:?; [unfold sfail in H; discriminate H|]
  | H : (let '(_, _) := ?p in _) _ = (Ok _, _) |- _ => destruct p eqn:?
  | H : run_st _ _ = Ok (_, _) |- _ => apply run_st_ok in H
  end.
Ltac st_inv := repeat (first [st_step | res_step]; bool_prop).
