(* ===== verification/Runtime.v ===== *)
(** * The actors' runtime

    Models the [Runtime] trait (src/runtime/src/runtime/mod.rs) and its FVM
    implementation (fvm.rs), the error type (actor_error.rs) and the helpers
    of src/runtime/src/builtin/shared.rs, as a state and error monad over the
    executing actor's world: its own state, its balance, the rest of the
    network, the messages it sent and the caller-validation flag.

    What lies outside the repository (the FVM kernel, other actors' code,
    hash functions) is a field of the record [Env], an argument of everything
    that uses it.  The network state [Net] is opaque. *)

From S2P Require Import Prelude.

(** ** Addresses, exit codes, errors *)

(** An address is an ID address or an address of one of the other protocols
    (secp256k1, BLS, actor, delegated), which only resolution can turn into an
    ID. *)
Inductive Address : Type :=
| AddrId (id : Z)
| AddrOther (protocol : Z) (payload : list Z).

#[global] Instance Address_eq_dec : EqDecision Address.
Proof. solve_decision. Defined.

#[global] Instance Address_countable : Countable Address.
Proof.
  refine (inj_countable'
    (fun a => match a with AddrId i => inl i | AddrOther p l => inr (p, l) end)
    (fun x => match x with inl i => AddrId i | inr (p, l) => AddrOther p l end) _).
  by intros [].
Defined.

Definition addr_eqb (a b : Address) : bool := bool_decide (a = b).

(** [Address::id]: the ID of an ID address, an error for other protocols. *)
Definition addr_id (a : Address) : option Z :=
  match a with AddrId i => Some i | AddrOther _ _ => None end.

(** A content identifier. *)
Record Cid : Type := mkCid {
  cid_version : Z;
  cid_codec : Z;
  cid_hash_code : Z;
  cid_digest : list Z;
}.

#[global] Instance Cid_eq_dec : EqDecision Cid.
Proof. solve_decision. Defined.

#[global] Instance Cid_countable : Countable Cid.
Proof.
  refine (inj_countable'
    (fun c => (cid_version c, cid_codec c, cid_hash_code c, cid_digest c))
    (fun '(v, c, h, d) => mkCid v c h d) _).
  by intros [].
Defined.

Inductive ExitCode : Type :=
| EC_OK
| SYS_MISSING_RETURN
| SYS_ILLEGAL_INSTRUCTION
| SYS_ILLEGAL_EXIT_CODE
| SYS_OTHER (n : Z)
| USR_ILLEGAL_ARGUMENT
| USR_NOT_FOUND
| USR_FORBIDDEN
| USR_INSUFFICIENT_FUNDS
| USR_ILLEGAL_STATE
| USR_SERIALIZATION
| USR_UNHANDLED_MESSAGE
| USR_UNSPECIFIED
| USR_ASSERTION_FAILED
| USR_READ_ONLY
| USR_OTHER (n : Z).

#[global] Instance ExitCode_eq_dec : EqDecision ExitCode.
Proof. solve_decision. Defined.

Definition is_success (c : ExitCode) : bool :=
  match c with EC_OK => true | _ => false end.

Definition is_system_error (c : ExitCode) : bool :=
  match c with
  | SYS_MISSING_RETURN | SYS_ILLEGAL_INSTRUCTION | SYS_ILLEGAL_EXIT_CODE
  | SYS_OTHER _ => true
  | _ => false
  end.

(** Messages are for debugging only and are not kept. *)
Record ActorError (R : Type) : Type := mkErr {
  exit_code : ExitCode;
  err_data : option R;
}.
Arguments mkErr {R}.
Arguments exit_code {R}.
Arguments err_data {R}.

(** [ActorError::unchecked] and the shorthand constructors. *)
Definition err {R} (c : ExitCode) : ActorError R := mkErr c None.

(** [ActorError::checked]. *)
Definition checked {R} (code : ExitCode) (data : option R) : ActorError R :=
  let exit_code :=
    match code with
    | SYS_MISSING_RETURN | SYS_ILLEGAL_INSTRUCTION | SYS_ILLEGAL_EXIT_CODE =>
        USR_UNSPECIFIED
    | code => if is_system_error code then USR_ASSERTION_FAILED else code
    end in
  mkErr exit_code data.

(** Syscall error numbers the SDK may return from a send. *)
Inductive ErrorNumber : Type :=
| EN_IllegalOperation
| EN_NotFound
| EN_InsufficientFunds
| EN_LimitExceeded
| EN_ReadOnly
| EN_Other (n : Z).

(** [impl From<SendError> for ActorError]. *)
Definition send_error_to_actor_error {R} (s : ErrorNumber) : ActorError R :=
  match s with
  | EN_NotFound => err USR_UNSPECIFIED
  | EN_InsufficientFunds => err USR_INSUFFICIENT_FUNDS
  | EN_LimitExceeded => err USR_ASSERTION_FAILED
  | EN_ReadOnly => err USR_READ_ONLY
  | _ => err USR_ASSERTION_FAILED
  end.

(** Built-in actor types ([runtime/builtins.rs] re-exports the FVM's list). *)
Inductive ActorType : Type :=
| TSystem | TInit | TCron | TAccount | TPower | TMiner | TMarket
| TPaymentChannel | TMultisig | TReward | TVerifiedRegistry | TDataCap
| TPlaceholder | TEVM | TEAM | TEthAccount.

#[global] Instance ActorType_eq_dec : EqDecision ActorType.
Proof. solve_decision. Defined.

(** Singleton actors (builtin/singletons.rs). *)
Definition SYSTEM_ACTOR_ADDR := AddrId 0.
Definition INIT_ACTOR_ADDR := AddrId 1.
Definition REWARD_ACTOR_ADDR := AddrId 2.
Definition CRON_ACTOR_ADDR := AddrId 3.
Definition STORAGE_POWER_ACTOR_ADDR := AddrId 4.
Definition STORAGE_MARKET_ACTOR_ADDR := AddrId 5.
Definition VERIFIED_REGISTRY_ACTOR_ADDR := AddrId 6.
Definition DATACAP_TOKEN_ACTOR_ADDR := AddrId 7.
Definition EAM_ACTOR_ADDR := AddrId 10.
Definition BURNT_FUNDS_ACTOR_ADDR := AddrId 99.

(** builtin/network.rs *)
Definition EPOCH_DURATION_SECONDS : Z := 30.
Definition EPOCHS_IN_HOUR : Z := 3600 / EPOCH_DURATION_SECONDS.
Definition EPOCHS_IN_DAY : Z := 86400 / EPOCH_DURATION_SECONDS.
Definition EPOCHS_IN_YEAR : Z := 31556925 / EPOCH_DURATION_SECONDS.

Definition METHOD_SEND : Z := 0.
Definition FIRST_EXPORTED_METHOD_NUMBER : Z := Z.shiftl 1 24.

(** ** The executing actor's world *)

(** The message being executed; caller, origin and receiver are always ID
    addresses. *)
Record Ctx : Type := mkCtx {
  ctx_caller : Z;
  ctx_origin : Z;
  ctx_receiver : Z;
  ctx_value_received : Z;
  ctx_epoch : Z;
}.
(** What the VM guarantees of a message: token amounts and chain epochs are
    not negative, epochs fit in [i64]. *)
Definition ctx_ok (c : Ctx) : bool :=
  (0 <=? ctx_value_received c) && (0 <=? ctx_epoch c) && (ctx_epoch c <=? I64_MAX).

Definition caller (c : Ctx) : Address := AddrId (ctx_caller c).
Definition receiver (c : Ctx) : Address := AddrId (ctx_receiver c).

(** A message sent with [Runtime::send]; [P] is the type of its parameters. *)
Record SendReq (P : Type) : Type := mkSend {
  to_addr : Address;
  send_method : Z;
  send_params : P;
  send_value : Z;
  send_read_only : bool;
}.
Arguments mkSend {P}.
Arguments to_addr {P}.
Arguments send_method {P}.
Arguments send_params {P}.
Arguments send_value {P}.
Arguments send_read_only {P}.

Record Response (R : Type) : Type := mkResp {
  resp_code : ExitCode;
  resp_data : option R;
}.
Arguments mkResp {R}.
Arguments resp_code {R}.
Arguments resp_data {R}.

(** What an actor sees after a send: the response or the syscall error, and
    its own state (the callee may have called back), balance and the network
    as the call left them. *)
Record SendOut (Net S R : Type) : Type := mkSendOut {
  so_result : Response R + ErrorNumber;
  so_state : option S;
  so_balance : Z;
  so_net : Net;
}.
Arguments mkSendOut {Net S R}.
Arguments so_result {Net S R}.
Arguments so_state {Net S R}.
Arguments so_balance {Net S R}.
Arguments so_net {Net S R}.

(** The kernel and the other actors. *)
Record Env (Net S P R : Type) : Type := mkEnv {
  env_resolve_address : Net -> Address -> option Z;
  env_get_actor_code_cid : Net -> Z -> option Z;
  env_builtin_type : Z -> option ActorType;
  env_hash_blake2b : list Z -> list Z;
  env_send : SendReq P -> Net -> option S -> Z -> SendOut Net S R;
}.
Arguments mkEnv {Net S P R}.
Arguments env_resolve_address {Net S P R}.
Arguments env_get_actor_code_cid {Net S P R}.
Arguments env_builtin_type {Net S P R}.
Arguments env_hash_blake2b {Net S P R}.
Arguments env_send {Net S P R}.

Record World (Net S P : Type) : Type := mkWorld {
  w_state : option S;
  w_balance : Z;
  w_net : Net;
  w_validated : bool;
  w_deleted : bool;
  w_sent : list (SendReq P);
}.
Arguments mkWorld {Net S P}.
Arguments w_state {Net S P}.
Arguments w_balance {Net S P}.
Arguments w_net {Net S P}.
Arguments w_validated {Net S P}.
Arguments w_deleted {Net S P}.
Arguments w_sent {Net S P}.

Section runtime.
Context {Net S P R : Type} (env : Env Net S P R) (ctx : Ctx).

Notation World := (World Net S P).
Notation error := (ActorError R).

Definition set_state (s : S) (w : World) : World :=
  mkWorld (Some s) (w_balance w) (w_net w) (w_validated w) (w_deleted w) (w_sent w).

Definition set_validated (w : World) : World :=
  mkWorld (w_state w) (w_balance w) (w_net w) true (w_deleted w) (w_sent w).

(** An operation of the runtime: it may fail, and then the invocation aborts
    and every change of its world is reverted by the VM. *)
Definition M (A : Type) : Type := World -> Res error (A * World).

Definition ret {A} (a : A) : M A := fun w => Ok (a, w).
Definition bind {A B} (m : M A) (f : A -> M B) : M B :=
  fun w => rbind (m w) (fun '(a, w') => f a w').
Definition throw {A} (c : ExitCode) : M A := fun _ => Err (err c).
Definition lift {A} (r : Res error A) : M A :=
  fun w => rbind r (fun a => Ok (a, w)).
Definition get_world : M World := fun w => Ok (w, w).

(** ** State access *)

(** [Runtime::create]: only valid while the state root is still empty. *)
Definition create (s : S) : M unit := fun w =>
  match w_state w with
  | Some _ => Err (err USR_ILLEGAL_STATE)
  | None => Ok (tt, set_state s w)
  end.

(** [Runtime::state]. *)
Definition state : M S := fun w =>
  match w_state w with
  | Some s => Ok (s, w)
  | None => Err (err USR_ILLEGAL_ARGUMENT)
  end.

(** [FvmRuntime::transaction]: the closure gets a mutable copy of the state,
    which is written back when it returns [Ok].  Sends are refused inside, so
    the closure is a function of the state (and of what it reads of the
    runtime, passed to it explicitly). *)
Definition transaction {A} (f : S -> Res error (A * S)) : M A := fun w =>
  match w_state w with
  | None => Err (err USR_ILLEGAL_ARGUMENT)
  | Some s => let! (a, s') := f s in Ok (a, set_state s' w)
  end.

(** The same for a closure that also uses the runtime (caller validation,
    balance). *)
Definition transaction_rt {A} (f : S -> M (A * S)) : M A := fun w =>
  match w_state w with
  | None => Err (err USR_ILLEGAL_ARGUMENT)
  | Some s => let! (a, s', w') := f s w in Ok (a, set_state s' w')
  end.

(** ** Caller validation *)

Definition assert_not_validated : M unit := fun w =>
  if w_validated w then Err (err USR_ASSERTION_FAILED) else Ok (tt, w).

Definition validate_immediate_caller_accept_any : M unit := fun w =>
  let! (_, w) := assert_not_validated w in
  Ok (tt, set_validated w).

Definition validate_immediate_caller_is (addresses : list Address) : M unit := fun w =>
  let! (_, w) := assert_not_validated w in
  if existsb (fun a => addr_eqb a (caller ctx)) addresses
  then Ok (tt, set_validated w)
  else Err (err USR_FORBIDDEN).

Definition validate_immediate_caller_type (types : list ActorType) : M unit := fun w =>
  let! (_, w) := assert_not_validated w in
  let! caller_cid := expect (env_get_actor_code_cid env (w_net w) (ctx_caller ctx)) in
  match env_builtin_type env caller_cid with
  | Some typ =>
      if existsb (fun t => bool_decide (t = typ)) types
      then Ok (tt, set_validated w)
      else Err (err USR_FORBIDDEN)
  | None => Err (err USR_FORBIDDEN)
  end.

(** ** Sends *)

(** [Runtime::send] outside of a transaction. *)
Definition send (req : SendReq P) : M (Response R + ErrorNumber) := fun w =>
  let out := env_send env req (w_net w) (w_state w) (w_balance w) in
  Ok (so_result out,
      mkWorld (so_state out) (so_balance out) (so_net out)
        (w_validated w) (w_deleted w) (w_sent w ++ [req])).

(** [Runtime::send_simple]. *)
Definition send_simple (to : Address) (method : Z) (params : P) (value : Z) :=
  send (mkSend to method params value false).

Definition extract_send_result (res : Response R + ErrorNumber) : Res error (option R) :=
  match res with
  | inr e => Err (send_error_to_actor_error e)
  | inl ret =>
      if is_success (resp_code ret) then Ok (resp_data ret)
      else Err (checked (resp_code ret) (resp_data ret))
  end.

(** [deserialize_block]: a return block is expected and must decode. *)
Definition deserialize_block {T} (decode : R -> option T) (b : option R) : Res error T :=
  let! block := ok_or b (err USR_ASSERTION_FAILED) in
  ok_or (decode block) (err USR_SERIALIZATION).

Definition current_balance : M Z := fun w => Ok (w_balance w, w).

Definition resolve_address (a : Address) : M (option Z) := fun w =>
  Ok (env_resolve_address env (w_net w) a, w).

Definition get_actor_code_cid (id : Z) : M (option Z) := fun w =>
  Ok (env_get_actor_code_cid env (w_net w) id, w).

(** [FvmRuntime::delete_actor]; [self_destruct(false)] fails when the actor
    has an unspent balance. *)
Definition delete_actor : M unit := fun w =>
  if w_balance w =? 0
  then Ok (tt, mkWorld (w_state w) (w_balance w) (w_net w) (w_validated w) true (w_sent w))
  else Err (err USR_ILLEGAL_ARGUMENT).

End runtime.

Arguments M Net S P R A : clear implicits.

Notation "'let*' x := m 'in' k" := (bind m (fun x => k))
  (at level 10, x pattern, m at level 100, k at level 200,
   format "'let*'  x  :=  m  'in' '//' k") : res_scope.
Section helpers.
Context {Net S P R : Type} (env : Env Net S P R) (ctx : Ctx) (no_params : P).

(** [resolve_to_actor_id]: resolves an address, creating the account with a
    zero-value send when it does not resolve yet. *)
Definition resolve_to_actor_id (address : Address) (check_existence : bool)
  : M Net S P R Z :=
  let* r1 := resolve_address env address in
  let* actor_id :=
    match r1 with
    | Some id => ret (Some id)
    | None =>
        let* res := send_simple env address METHOD_SEND no_params 0 in
        let* _ := lift (extract_send_result res) in
        resolve_address env address
    end in
  match actor_id with
  | Some id =>
      if check_existence then
        let* code := get_actor_code_cid env id in
        match code with
        | None => throw USR_NOT_FOUND
        | Some _ => ret id
        end
      else ret id
  | None => throw USR_ILLEGAL_ARGUMENT
  end.

(** [restrict_internal_api]: methods below the FRC-42 range only accept
    built-in callers other than EVM actors. *)
Definition restrict_internal_api (method : Z) : M Net S P R unit :=
  if method >=? FIRST_EXPORTED_METHOD_NUMBER then ret tt
  else
    let* code_cid := get_actor_code_cid env (ctx_caller ctx) in
    match code_cid with
    | None => throw USR_FORBIDDEN
    | Some code_cid =>
        match env_builtin_type env code_cid with
        | None | Some TEVM => throw USR_FORBIDDEN
        | Some _ => ret tt
        end
    end.

End helpers.

(** ** Inversion of runtime operations *)

Section inversion.
Context {Net S P R : Type} (env : Env Net S P R) (ctx : Ctx).
Implicit Types w : World Net S P.

Lemma bind_ok {A B} (m : M Net S P R A) (f : A -> M Net S P R B) w r :
  bind m f w = Ok r <-> exists a w', m w = Ok (a, w') /\ f a w' = Ok r.
Proof.
  unfold bind. rewrite rbind_ok. split.
  - intros ([a w'] & ? & ?). eauto.
  - intros (a & w' & ? & ?). exists (a, w'). eauto.
Qed.

Lemma ret_ok {A} (a : A) w r : @ret Net S P R A a w = Ok r <-> r = (a, w).
Proof. unfold ret. naive_solver. Qed.

Lemma lift_ok {A} (m : Res (ActorError R) A) w a w' :
  @lift Net S P R A m w = Ok (a, w') <-> m = Ok a /\ w' = w.
Proof. unfold lift. rewrite rbind_ok. naive_solver. Qed.

Lemma throw_ok {A} c w r : @throw Net S P R A c w = Ok r <-> False.
Proof. unfold throw. naive_solver. Qed.

Lemma state_ok w s w' :
  @state Net S P R w = Ok (s, w') <-> w_state w = Some s /\ w' = w.
Proof. unfold state. destruct (w_state w); naive_solver. Qed.

Lemma create_ok s w u w' :
  @create Net S P R s w = Ok (u, w') <-> w_state w = None /\ w' = set_state s w.
Proof. unfold create. destruct (w_state w), u; naive_solver. Qed.

Lemma transaction_ok {A} (f : S -> Res (ActorError R) (A * S)) w a w' :
  @transaction Net S P R A f w = Ok (a, w') <->
  exists s s', w_state w = Some s /\ f s = Ok (a, s') /\ w' = set_state s' w.
Proof.
  unfold transaction. destruct (w_state w) as [s|]; [|naive_solver].
  rewrite rbind_ok. split.
  - intros ([a' s'] & ? & ?). naive_solver.
  - intros (s0 & s' & [= <-] & ? & ->). exists (a, s'). eauto.
Qed.

Lemma transaction_rt_ok {A} (f : S -> M Net S P R (A * S)) w a w' :
  @transaction_rt Net S P R A f w = Ok (a, w') <->
  exists s s' w1, w_state w = Some s /\ f s w = Ok (a, s', w1) /\ w' = set_state s' w1.
Proof.
  unfold transaction_rt. destruct (w_state w) as [s|]; [|naive_solver].
  rewrite rbind_ok. split.
  - intros ([[a' s'] w1] & ? & ?). naive_solver.
  - intros (s0 & s' & w1 & [= <-] & ? & ->). exists (a, s', w1). eauto.
Qed.

Lemma accept_any_ok w u w' :
  @validate_immediate_caller_accept_any Net S P R w = Ok (u, w') <->
  w_validated w = false /\ w' = set_validated w.
Proof.
  unfold validate_immediate_caller_accept_any, assert_not_validated.
  destruct (w_validated w), u; cbn; naive_solver.
Qed.

Lemma caller_is_ok addrs w u w' :
  @validate_immediate_caller_is Net S P R ctx addrs w = Ok (u, w') <->
  w_validated w = false /\ caller ctx ∈ addrs /\ w' = set_validated w.
Proof.
  unfold validate_immediate_caller_is, assert_not_validated.
  destruct (w_validated w), u; cbn; [naive_solver|].
  assert (existsb (fun a => addr_eqb a (caller ctx)) addrs = true
          <-> caller ctx ∈ addrs) as Hex.
  { rewrite existsb_exists. setoid_rewrite list_elem_of_In. unfold addr_eqb.
    split; [|eauto using bool_decide_eq_true_2].
    intros (x & Hx & Heq). bool_prop. by subst. }
  destruct existsb; naive_solver.
Qed.

Lemma caller_type_ok types w u w' :
  @validate_immediate_caller_type Net S P R env ctx types w = Ok (u, w') ->
  w_validated w = false /\ w' = set_validated w.
Proof.
  unfold validate_immediate_caller_type, assert_not_validated.
  destruct (w_validated w); cbn; [naive_solver|]. intros H. res_inv.
  repeat case_match; naive_solver.
Qed.

Lemma send_ok req w r w' :
  @send Net S P R env req w = Ok (r, w') <->
  let out := env_send env req (w_net w) (w_state w) (w_balance w) in
  r = so_result out /\
  w' = mkWorld (so_state out) (so_balance out) (so_net out)
         (w_validated w) (w_deleted w) (w_sent w ++ [req]).
Proof. unfold send. naive_solver. Qed.

Lemma extract_send_result_no_panic (r : Response R + ErrorNumber) :
  extract_send_result r <> Panic.
Proof. unfold extract_send_result. by repeat case_match. Qed.

Lemma balance_ok w b w' :
  @current_balance Net S P R w = Ok (b, w') <-> b = w_balance w /\ w' = w.
Proof. unfold current_balance. naive_solver. Qed.

Lemma resolve_address_ok a w o w' :
  @resolve_address Net S P R env a w = Ok (o, w') <->
  o = env_resolve_address env (w_net w) a /\ w' = w.
Proof. unfold resolve_address. naive_solver. Qed.

Lemma code_cid_ok i w o w' :
  @get_actor_code_cid Net S P R env i w = Ok (o, w') <->
  o = env_get_actor_code_cid env (w_net w) i /\ w' = w.
Proof. unfold get_actor_code_cid. naive_solver. Qed.

Lemma delete_ok w u w' :
  @delete_actor Net S P R w = Ok (u, w') ->
  w_balance w = 0 /\
  w' = mkWorld (w_state w) (w_balance w) (w_net w) (w_validated w) true (w_sent w).
Proof. unfold delete_actor. destruct (Z.eqb_spec (w_balance w) 0); naive_solver. Qed.

(** A send, seen as a change of the state of its sender, is in relation
    [Rel] to the state before it. *)
Definition send_respects (Rel : option S -> option S -> Prop) : Prop :=
  forall req net s bal, Rel s (so_state (env_send env req net s bal)).

(** Documented behaviour of the VM for a bare value transfer (method 0) to
    another actor: no code runs, so the sender's state does not change, and on
    success exactly the value leaves its balance. *)
Definition bare_send_law (self : Z) : Prop :=
  forall req net s bal, send_method req = METHOD_SEND -> to_addr req <> AddrId self ->
    let out := env_send env req net s bal in
    so_state out = s /\
    forall d, so_result out = inl (mkResp EC_OK d) ->
      0 <= send_value req <= bal /\ so_balance out = bal - send_value req.

Lemma resolve_to_actor_id_state (Rel : option S -> option S -> Prop)
    no_params a chk w i w' :
  (forall s, Rel s s) -> send_respects Rel ->
  resolve_to_actor_id env no_params a chk w = Ok (i, w') ->
  Rel (w_state w) (w_state w') /\ w_validated w' = w_validated w /\
  w_deleted w' = w_deleted w.
Proof.
  intros Hrefl Hsend H. unfold resolve_to_actor_id in H.
  apply bind_ok in H as (r1 & w1 & [-> ->]%resolve_address_ok & H).
  apply bind_ok in H as (r2 & w2 & H2 & H).
  assert (Rel (w_state w) (w_state w2) /\ w_validated w2 = w_validated w /\
          w_deleted w2 = w_deleted w) as Hw2.
  { destruct (env_resolve_address env (w_net w) a).
    - apply ret_ok in H2. naive_solver.
    - apply bind_ok in H2 as (r3 & w3 & H3 & H2).
      apply bind_ok in H2 as (? & ? & [_ ->]%lift_ok & [_ ->]%resolve_address_ok).
      apply send_ok in H3 as [-> ->]. cbn. auto. }
  enough (w' = w2) as -> by done.
  destruct r2 as [id|]; [|by apply throw_ok in H].
  destruct chk; [|apply ret_ok in H; naive_solver].
  apply bind_ok in H as (r4 & w4 & [-> ->]%code_cid_ok & H).
  destruct (env_get_actor_code_cid env (w_net w2) id).
  - apply ret_ok in H. naive_solver.
  - by apply throw_ok in H.
Qed.
End inversion.

(** Inverts a successful run of runtime operations. *)
Ltac run_step :=
  match goal with
  | H : bind _ _ _ = Ok _ |- _ => apply bind_ok in H; destruct H as (? & ? & ? & H)
  | H : ret _ _ = Ok _ |- _ => apply ret_ok in H; simplify_eq
  | H : throw _ _ = Ok _ |- _ => apply throw_ok in H; destruct H
  | H : lift _ _ = Ok (_, _) |- _ => apply lift_ok in H; destruct H as [H ->]
  | H : state _ = Ok (_, _) |- _ => apply state_ok in H; destruct H as [H ->]
  | H : create _ _ = Ok (_, _) |- _ => apply create_ok in H; destruct H as [H ->]
  | H : transaction _ _ = Ok (_, _) |- _ =>
      apply transaction_ok in H; destruct H as (? & ? & ? & H & ->)
  | H : transaction_rt _ _ = Ok (_, _) |- _ =>
      apply transaction_rt_ok in H; destruct H as (? & ? & ? & ? & H & ->)
  | H : validate_immediate_caller_accept_any _ = Ok (_, _) |- _ =>
      apply accept_any_ok in H; destruct H as [H ->]
  | H : validate_immediate_caller_is _ _ _ = Ok (_, _) |- _ =>
      apply caller_is_ok in H; destruct H as (? & H & ->)
  | H : validate_immediate_caller_type _ _ _ _ = Ok (_, _) |- _ =>
      apply caller_type_ok in H; destruct H as [H ->]
  | H : send _ _ _ = Ok (_, _) |- _ =>
      apply send_ok in H; cbv zeta in H; destruct H as [-> ->]
  | H : send_simple _ _ _ _ _ _ = Ok (_, _) |- _ => unfold send_simple in H
  | H : current_balance _ = Ok (_, _) |- _ => apply balance_ok in H; destruct H as [-> ->]
  | H : resolve_address _ _ _ = Ok (_, _) |- _ =>
      apply resolve_address_ok in H; destruct H as [-> ->]
  | H : get_actor_code_cid _ _ _ = Ok (_, _) |- _ =>
      apply code_cid_ok in H; destruct H as [-> ->]
  | H : delete_actor _ = Ok (_, _) |- _ => apply delete_ok in H; destruct H as [H ->]
  | H : (if ?b then throw _ else _) _ = Ok _ |- _ =>
      destruct b eqn:?; [apply throw_ok in H; destruct H|]
  | H : (let '(_, _) := ?p in _) _ = Ok _ |- _ => destruct p
  | x : unit |- _ => destruct x
  end.
Ltac run_inv :=
  repeat (first [run_step | res_step];
          cbn beta iota delta [w_state w_balance w_net w_validated w_deleted w_sent
            set_state set_validated] in *; bool_prop).

Section restrict.
Context {Net S P R : Type} (env : Env Net S P R) (ctx : Ctx).

Lemma restrict_state method w u w' :
  @restrict_internal_api Net S P R env ctx method w = Ok (u, w') -> w' = w.
Proof.
  unfold restrict_internal_api. destruct (_ >=? _); intros H; run_inv; try done.
  destruct (env_get_actor_code_cid _ _ _); run_inv.
  destruct (env_builtin_type _ _) as [[]|]; run_inv; done.
Qed.
End restrict.

(** ** Invocations and reachable states

    [invoke] is the dispatcher of an actor ([ActorCode::invoke_method]). *)

Inductive Exit (A W : Type) : Type :=
| Committed (a : A) (w : W)
| Aborted (c : ExitCode).
Arguments Committed {A W}.
Arguments Aborted {A W}.

Section invocations.
Context {Net S P R Msg Ret : Type}.
Context (invoke : Env Net S P R -> Ctx -> Msg -> M Net S P R Ret).

(** [trampoline] of fvm.rs: runs the method on a fresh runtime; an error or a
    panic aborts with its exit code, and so does a method that returns without
    having validated its caller.  An abort leaves the actor unchanged. *)
Definition trampoline (env : Env Net S P R) (ctx : Ctx) (msg : Msg)
    (s : option S) (bal : Z) (net : Net) : Exit Ret (World Net S P) :=
  match invoke env ctx msg (mkWorld s bal net false false []) with
  | Err e => Aborted (exit_code e)
  | Panic => Aborted USR_ASSERTION_FAILED
  | Ok (r, w) => if w_validated w then Committed r w else Aborted USR_ASSERTION_FAILED
  end.

(** The states an actor can go through: any sequence of messages from any
    callers, where every message the actor sends may in turn call it back,
    to any depth.  A callee can change the sender's state only by sending
    it messages, which is the premise on [env_send]. *)
Inductive reach : option S -> option S -> Prop :=
| reach_refl s : reach s s
| reach_msg env ctx msg s bal net r w s' :
    (forall req net s bal, reach s (so_state (env_send env req net s bal))) ->
    ctx_ok ctx = true ->
    trampoline env ctx msg s bal net = Committed r w ->
    w_deleted w = false ->
    reach (w_state w) s' ->
    reach s s'.

(** A property that every handler preserves, provided the sends it makes
    preserve it, holds in every reachable state. *)
Lemma reach_invariant (I : option S -> Prop) :
  (forall env ctx msg w r w',
     send_respects env (fun s s' => I s -> I s') -> ctx_ok ctx = true ->
     I (w_state w) -> invoke env ctx msg w = Ok (r, w') -> I (w_state w')) ->
  forall s s', reach s s' -> I s -> I s'.
Proof.
  intros Hstep s s' Hreach.
  induction Hreach as [|env ctx msg s bal net r w s' _ IHsend Hctx Hrun _ _ IH]; [done|].
  intros HI. apply IH. unfold trampoline in Hrun.
  destruct (invoke _ _ _ _) as [[r' w']| |] eqn:E; [|discriminate|discriminate].
  destruct (w_validated w'); [|discriminate]. injection Hrun as -> ->.
  eapply Hstep; [|exact Hctx|..|exact E]; [|exact HI]. intros req net' s0 bal'. apply IHsend.
Qed.
End invocations.

(** ** State changes as paths of an abstract transition system

    [initial] and [step] specify what an actor may do to its own state; a
    handler refines them when each of its committed runs moves the state along
    such steps and the sends it makes. *)

Section paths.
Context {Net S P R : Type} (initial : S -> Prop) (step : S -> S -> Prop).

Inductive obs (env : Env Net S P R) : option S -> option S -> Prop :=
| obs_create st : initial st -> obs env None (Some st)
| obs_step st st' : step st st' -> obs env (Some st) (Some st')
| obs_send req net s bal : obs env s (so_state (env_send env req net s bal)).

Lemma path_step env st st' s :
  step st st' -> rtc (obs env) (Some st') s -> rtc (obs env) (Some st) s.
Proof. intros. eapply rtc_l; [by apply obs_step|done]. Qed.

Lemma path_send env req net s bal :
  rtc (obs env) s (so_state (env_send env req net s bal)).
Proof. apply rtc_once, obs_send. Qed.

Lemma path_resolve env no_params a chk w i w' :
  resolve_to_actor_id env no_params a chk w = Ok (i, w') ->
  rtc (obs env) (w_state w) (w_state w').
Proof.
  intros Hr. eapply (resolve_to_actor_id_state _ (rtc (obs env))) in Hr as (? & _);
    [done|apply rtc_refl|]. intros req net s bal. apply path_send.
Qed.

Lemma path_invariant env (I : option S -> Prop) s s' :
  (forall s s', obs env s s' -> I s -> I s') -> rtc (obs env) s s' -> I s -> I s'.
Proof. intros Hobs. induction 1; eauto. Qed.

Context {Msg Ret : Type} (invoke : Env Net S P R -> Ctx -> Msg -> M Net S P R Ret).
Context (invoke_refines : forall env ctx msg w r w',
  ctx_ok ctx = true -> invoke env ctx msg w = Ok (r, w') ->
  rtc (obs env) (w_state w) (w_state w')).

(** An invariant of the abstract system holds in every reachable state. *)
Lemma reach_refined (I : option S -> Prop) :
  (forall st, initial st -> I None -> I (Some st)) ->
  (forall st st', step st st' -> I (Some st) -> I (Some st')) ->
  forall s s', reach invoke s s' -> I s -> I s'.
Proof.
  intros Hinit Hstep. apply reach_invariant.
  intros env ctx msg w r w' Hsend Hctx Hw H. apply invoke_refines in H; [|done].
  eapply (path_invariant env I); [|exact H|done].
  intros ?? [] HI; eauto.
Qed.
End paths.

(** ** Loops and handled errors *)

(** [Result::with_context_code]: any error becomes one with the given code. *)
Definition with_code {R A} (c : ExitCode) (r : Res (ActorError R) A) : Res (ActorError R) A :=
  match r with Err _ => Err (err c) | r => r end.

Section loops.
Context {Net S P R : Type}.
Notation M := (M Net S P R).
Notation error := (ActorError R).

(** [match r { Ok(a) => .., Err(e) => .. }]; a panic is not caught. *)
Definition caught {A} (r : Res error A) : M (A + error) := fun w =>
  match r with
  | Ok a => Ok (inl a, w)
  | Err e => Ok (inr e, w)
  | Panic => Panic
  end.

(** [for x in xs { acc = f(acc, x)?; }]. *)
Fixpoint mfold {A X} (f : A -> X -> M A) (acc : A) (xs : list X) : M A :=
  match xs with
  | [] => ret acc
  | x :: xs' => let* acc' := f acc x in mfold f acc' xs'
  end.

(** A transaction whose closure is stateful code. *)
Definition transaction_st {A} (f : St S error A) : M A := transaction (run_st f).

Lemma caught_ok {A} (r : Res error A) w x w' :
  caught r w = Ok (x, w') ->
  w' = w /\ match x with inl a => r = Ok a | inr e => r = Err e end.
Proof. unfold caught. destruct r; naive_solver. Qed.

Lemma mfold_rel {A X} (f : A -> X -> M A) (Rel : World Net S P -> World Net S P -> Prop)
    (Q : list X -> A -> World Net S P -> Prop) xs : forall acc w acc' w',
  (forall w, Rel w w) -> (forall w1 w2 w3, Rel w1 w2 -> Rel w2 w3 -> Rel w1 w3) ->
  Q xs acc w ->
  (forall x xs' acc w acc' w', Q (x :: xs') acc w -> f acc x w = Ok (acc', w') ->
     Q xs' acc' w' /\ Rel w w') ->
  mfold f acc xs w = Ok (acc', w') -> Q [] acc' w' /\ Rel w w'.
Proof.
  induction xs as [|x xs IH]; intros acc w acc' w' Hrefl Htrans HQ Hstep H; cbn in H.
  - apply ret_ok in H. naive_solver.
  - apply bind_ok in H as (a1 & w1 & H1 & H). destruct (Hstep _ _ _ _ _ _ HQ H1) as [HQ1 HR1].
    destruct (IH _ _ _ _ Hrefl Htrans HQ1 Hstep H). eauto.
Qed.

Lemma transaction_st_ok {A} (f : St S error A) w a w' :
  transaction_st f w = Ok (a, w') <->
  exists s s', w_state w = Some s /\ f s = (Ok a, s') /\ w' = set_state s' w.
Proof.
  unfold transaction_st. rewrite transaction_ok.
  split; intros (s & s' & ? & Hf & ?); exists s, s'; rewrite run_st_ok in *; done.
Qed.
End loops.
