(* ===== verification/Trace.v ===== *)
(** * Labelled runs of an actor

    Refines the reachability of Runtime.v with what happens on the way.  An
    actor is specified by the actions [act] it may take in a world: an action
    leads to another world, may emit labels (events worth counting, such as the
    execution of a transaction) and may then send one message from there.  [events] are the actions of one message, with the labels
    of the calls its sends make back to the actor put where they occur;
    [trace] is a sequence of messages with their labels, to any depth of
    re-entrancy. *)

From S2P Require Import Prelude Runtime.

Section events.
Context {Net S P R L : Type}.
Notation World := (World Net S P).

(** A world with another state of the actor. *)
Definition put (s : option S) (w : World) : World :=
  mkWorld s (w_balance w) (w_net w) (w_validated w) (w_deleted w) (w_sent w).

(** A world after a send. *)
Definition sent (env : Env Net S P R) (req : SendReq P) (w : World) : World :=
  let out := env_send env req (w_net w) (w_state w) (w_balance w) in
  mkWorld (so_state out) (so_balance out) (so_net out)
    (w_validated w) (w_deleted w) (w_sent w ++ [req]).

(** Worlds that differ in the bookkeeping of the runtime only. *)
Definition same_actor (w w' : World) : Prop :=
  w_state w' = w_state w /\ w_balance w' = w_balance w /\ w_net w' = w_net w /\
  w_sent w' = w_sent w.

Context (env : Env Net S P R).
(** The labels of the calls a send makes back to the actor. *)
Context (nested : SendReq P -> Net -> option S -> Z -> list L).
Context (act : World -> World -> option (SendReq P) -> list L -> Prop).

Inductive events : World -> list L -> World -> Prop :=
| ev_nil w : events w [] w
| ev_same w1 w2 l w3 : same_actor w1 w2 -> events w2 l w3 -> events w1 l w3
| ev_act w1 w2 l1 l w3 :
    act w1 w2 None l1 -> events w2 l w3 -> events w1 (l1 ++ l) w3
| ev_send w1 w2 req l1 l w3 :
    act w1 w2 (Some req) l1 -> events (sent env req w2) l w3 ->
    events w1 (l1 ++ nested req (w_net w2) (w_state w2) (w_balance w2) ++ l) w3.

Lemma events_trans w1 l1 w2 l2 w3 :
  events w1 l1 w2 -> events w2 l2 w3 -> events w1 (l1 ++ l2) w3.
Proof.
  intros H1 H2. induction H1; rewrite <- ?app_assoc; [done| | |].
  - eapply ev_same; eauto.
  - eapply ev_act; eauto.
  - eapply ev_send; eauto.
Qed.

Lemma events_act w1 w2 l w3 : act w1 w2 None l -> same_actor w2 w3 -> events w1 l w3.
Proof.
  intros Ha Hs. rewrite <- (app_nil_r l). eapply ev_act; [done|]. eapply ev_same; [done|]. constructor.
Qed.

Lemma events_send w1 w2 req l : act w1 w2 (Some req) l ->
  events w1 (l ++ nested req (w_net w2) (w_state w2) (w_balance w2)) (sent env req w2).
Proof.
  intros Ha. rewrite <- (app_nil_r (nested _ _ _ _)). eapply ev_send; [done|]. constructor.
Qed.

(** Some labels go with the actions from [w] to [w']. *)
Definition does (w w' : World) : Prop := exists l, events w l w'.

Lemma does_trans w1 w2 w3 : does w1 w2 -> does w2 w3 -> does w1 w3.
Proof. intros [l1 H1] [l2 H2]. eexists. by eapply events_trans. Qed.

Lemma does_same w1 w2 w3 : same_actor w1 w2 -> does w2 w3 -> does w1 w3.
Proof. intros Hs [l H]. exists l. by eapply ev_same. Qed.

Lemma does_nothing w w' : same_actor w w' -> does w w'.
Proof. intros Hs. exists []. eapply ev_same; [done|]. constructor. Qed.

Lemma does_act w1 w2 l w3 : act w1 w2 None l -> same_actor w2 w3 -> does w1 w3.
Proof. intros Ha Hs. exists l. by eapply events_act. Qed.

Lemma does_send w1 w2 req l : act w1 w2 (Some req) l -> does w1 (sent env req w2).
Proof. intros Ha. eexists. by apply events_send. Qed.

(** Resolving an address sends at most one empty message to it. *)
Lemma resolve_events no_params a chk w i w' :
  (forall w, act w w (Some (mkSend a METHOD_SEND no_params 0 false)) []) ->
  resolve_to_actor_id env no_params a chk w = Ok (i, w') ->
  does w w' /\ env_resolve_address env (w_net w') a = Some i.
Proof.
  intros Ha H. unfold resolve_to_actor_id in H.
  apply bind_ok in H as (r1 & w1 & [-> ->]%resolve_address_ok & H).
  apply bind_ok in H as (r2 & w2 & H2 & H).
  assert (w' = w2 /\ r2 = Some i) as [-> ->].
  { destruct r2 as [id|]; [|by apply throw_ok in H].
    destruct chk; [|apply ret_ok in H; naive_solver].
    apply bind_ok in H as (r4 & w4 & [-> ->]%code_cid_ok & H).
    destruct (env_get_actor_code_cid env (w_net w2) id); [apply ret_ok in H; naive_solver|].
    by apply throw_ok in H. }
  destruct (env_resolve_address env (w_net w) a) eqn:E.
  - apply ret_ok in H2 as [= -> ->]. split; [|done]. eexists. constructor.
  - apply bind_ok in H2 as (r3 & w3 & [_ ->]%send_ok & H2).
    apply bind_ok in H2 as (? & ? & [_ ->]%lift_ok & [Hi ->]%resolve_address_ok). split; [|done].
    exact (does_send w w _ _ (Ha w)).
Qed.
End events.

Section traces.
Context {Net S P R Msg Ret L : Type}.
Notation World := (World Net S P).
Context (invoke : Env Net S P R -> Ctx -> Msg -> M Net S P R Ret).
Context (act : Env Net S P R -> Ctx -> Msg -> World -> World -> option (SendReq P) -> list L -> Prop).

Inductive trace : option S -> list L -> option S -> Prop :=
| trace_nil s : trace s [] s
| trace_msg env nested ctx msg s bal net r w l l' s' :
    (forall req net s bal, trace s (nested req net s bal) (so_state (env_send env req net s bal))) ->
    ctx_ok ctx = true -> trampoline invoke env ctx msg s bal net = Committed r w ->
    w_deleted w = false ->
    events env nested (act env ctx msg) (mkWorld s bal net false false []) l w ->
    trace (w_state w) l' s' -> trace s (l ++ l') s'.

(** [nested] are labels of what the sends of [env] do to the actor. *)
Definition traced (env : Env Net S P R) (nested : SendReq P -> Net -> option S -> Z -> list L) : Prop :=
  forall req net s bal, trace s (nested req net s bal) (so_state (env_send env req net s bal)).

(** ** Relations on runs *)

Section relation.
Context (Rel : option S -> list L -> option S -> Prop).
Context (Rel_nil : forall s, Rel s [] s).
Context (Rel_app : forall s1 l1 s2 l2 s3, Rel s1 l1 s2 -> Rel s2 l2 s3 -> Rel s1 (l1 ++ l2) s3).
Context (Rel_act : forall env ctx msg w w' req l,
  ctx_ok ctx = true -> act env ctx msg w w' req l -> Rel (w_state w) l (w_state w')).

Lemma events_rel env nested ctx msg w l w' :
  (forall req net s bal, Rel s (nested req net s bal) (so_state (env_send env req net s bal))) ->
  ctx_ok ctx = true -> events env nested (act env ctx msg) w l w' -> Rel (w_state w) l (w_state w').
Proof.
  intros Hn Hctx. induction 1 as [|w1 w2 l w3 (E & _) _ IH|w1 w2 l1 l w3 Ha _ IH|w1 w2 req l1 l w3 Ha _ IH];
    [done| | |].
  - by rewrite <- E.
  - eapply Rel_app; [by eapply Rel_act|exact IH].
  - eapply Rel_app; [by eapply Rel_act|]. eapply Rel_app; [|exact IH]. apply Hn.
Qed.

Lemma trace_rel s l s' : trace s l s' -> Rel s l s'.
Proof.
  induction 1 as [|env nested ctx msg s bal net r w l l' s' _ IHn Hctx _ _ He _ IH]; [done|].
  eapply Rel_app; [|exact IH]. by apply (events_rel _ _ _ _ _ _ _ IHn Hctx He).
Qed.
End relation.

(** ** Labels that occur once

    [spent x s]: the label [x] can no longer be emitted in state [s].  When no
    action undoes this, and an action emits only labels that are not spent
    before and spent after, no label occurs twice in a run. *)
Section once.
Context (spent : L -> option S -> Prop) (good : option S -> Prop).
Context (act_good : forall env ctx msg w w' req l,
  ctx_ok ctx = true -> act env ctx msg w w' req l -> good (w_state w) -> good (w_state w')).
Context (act_spent : forall env ctx msg w w' req l x,
  ctx_ok ctx = true -> act env ctx msg w w' req l -> good (w_state w) ->
  spent x (w_state w) -> spent x (w_state w')).
Context (act_emits : forall env ctx msg w w' req l,
  ctx_ok ctx = true -> act env ctx msg w w' req l -> good (w_state w) ->
  NoDup l /\ forall x, x ∈ l -> ~ spent x (w_state w) /\ spent x (w_state w')).

(** What a run does to the labels. *)
Record used_once (s : option S) (l : list L) (s' : option S) : Prop := {
  uo_good : good s';
  uo_spent x : spent x s -> spent x s';
  uo_nodup : NoDup l;
  uo_new x : x ∈ l -> ~ spent x s /\ spent x s';
}.

Lemma used_once_nil s : good s -> used_once s [] s.
Proof. intros Hs. split; [done|done|constructor|]. intros x Hx. inversion Hx. Qed.

Lemma used_once_app s1 l1 s2 l2 s3 :
  used_once s1 l1 s2 -> used_once s2 l2 s3 -> used_once s1 (l1 ++ l2) s3.
Proof.
  intros [G1 M1 N1 E1] [G2 M2 N2 E2]. split; [done|auto| |].
  - apply NoDup_app. split; [done|]. split; [|done]. intros x [_ Hx]%E1 [Hx' _]%E2. auto.
  - intros x [[? ?]%E1|[Hx ?]%E2]%elem_of_app; [by auto|]. split; [|done]. intros Hs. by apply Hx, M1.
Qed.

Notation Rel := (fun s l s' => good s -> used_once s l s').

Lemma act_used_once env ctx msg w w' req l :
  ctx_ok ctx = true -> act env ctx msg w w' req l -> good (w_state w) ->
  used_once (w_state w) l (w_state w').
Proof. intros Hc Ha Hg. destruct (act_emits _ _ _ _ _ _ _ Hc Ha Hg). split; eauto. Qed.

Lemma rel_app s1 l1 s2 l2 s3 : Rel s1 l1 s2 -> Rel s2 l2 s3 -> Rel s1 (l1 ++ l2) s3.
Proof.
  intros H1 H2 Hg. specialize (H1 Hg). eapply used_once_app; [done|]. apply H2. by destruct H1.
Qed.

Lemma trace_once s l s' : trace s l s' -> good s -> used_once s l s'.
Proof.
  apply (trace_rel Rel); [exact used_once_nil|exact rel_app|].
  intros. by eapply act_used_once.
Qed.

Lemma events_once env nested ctx msg w l w' : traced env nested -> ctx_ok ctx = true ->
  events env nested (act env ctx msg) w l w' -> good (w_state w) -> used_once (w_state w) l (w_state w').
Proof.
  intros Ht. apply (events_rel Rel); [exact used_once_nil|exact rel_app| |].
  - intros. by eapply act_used_once.
  - intros. by apply trace_once.
Qed.
End once.

(** ** From reachability to traces *)

(** Every committed message has its events. *)
Definition refines : Prop := forall env nested ctx msg w r w',
  ctx_ok ctx = true -> invoke env ctx msg w = Ok (r, w') ->
  does env nested (act env ctx msg) w w'.

(** An invariant of the actions holds in every reachable state. *)
Lemma refines_invariant (I : option S -> Prop) : refines ->
  (forall env ctx msg w w' req l,
     ctx_ok ctx = true -> act env ctx msg w w' req l -> I (w_state w) -> I (w_state w')) ->
  forall s s', reach invoke s s' -> I s -> I s'.
Proof.
  intros Href Hact. apply reach_invariant. intros env ctx msg w r w' Hsend Hctx Hw H.
  destruct (Href env (fun _ _ _ _ => []) ctx msg w r w' Hctx H) as [l He].
  eapply (events_rel (fun s _ s' => I s -> I s')); [done|by auto|exact Hact| |exact Hctx|exact He|exact Hw].
  intros req net s bal. apply Hsend.
Qed.
End traces.
