(* ===== verification/Chain.v ===== *)
(** * Runs of an actor on the chain

    Refines the reachability of Runtime.v with what the chain adds to it: the
    clock and a resource of the actor, such as its balance.  A configuration is
    an epoch, a state and an amount of the resource.

    [bal] reads the resource off the actor's world; [cost] is what leaves it
    with a send, given the send's result; [gain] is what the rest of the system
    credits before it delivers a message.  For the actor's own funds these are
    the balance, the value of a successful send and the value of the message.
    The resource may also change without a message, by an amount that satisfies
    [credit]; epochs only grow.

    [adm] says which messages the rest of the system may deliver in a state
    (for instance that an actor runs its cron method last in an epoch), and
    [env_ok] what is known of the other actors. *)

From S2P Require Import Prelude Runtime.

Record Conf (S : Type) : Type := mkConf {
  c_epoch : Z;
  c_state : option S;
  c_balance : Z;
}.
Arguments mkConf {S}.
Arguments c_epoch {S}.
Arguments c_state {S}.
Arguments c_balance {S}.

(** What leaves the sender's balance with a send. *)
Definition debited {P R} (req : SendReq P) (res : Response R + ErrorNumber) : Z :=
  match res with
  | inl r => if is_success (resp_code r) then send_value req else 0
  | inr _ => 0
  end.

(** Deposits. *)
Definition deposited (v : Z) : Prop := 0 <= v.

Section chain.
Context {Net S P R Msg Ret : Type}.
Context (invoke : Env Net S P R -> Ctx -> Msg -> M Net S P R Ret).
Context (bal : World Net S P -> Z) (cost : SendReq P -> Response R + ErrorNumber -> Z).
Context (gain : Ctx -> Msg -> Z).
Context (adm : Ctx -> Msg -> option S -> Prop) (env_ok : Env Net S P R -> Prop).
Context (credit : Z -> Prop).

(** The configurations a send of the actor at epoch [e] leads to. *)
Definition send_moves (Rel : Conf S -> Conf S -> Prop) (env : Env Net S P R) (e : Z) : Prop :=
  forall req w r w', send env req w = Ok (r, w') ->
    Rel (mkConf e (w_state w) (bal w - cost req r)) (mkConf e (w_state w') (bal w')).

Inductive chain : Conf S -> Conf S -> Prop :=
| chain_refl c : chain c c
| chain_tick e e' s b c :
    e <= e' -> chain (mkConf e' s b) c -> chain (mkConf e s b) c
| chain_deposit e s b v c :
    credit v -> chain (mkConf e s (b + v)) c -> chain (mkConf e s b) c
| chain_msg env ctx msg e s b funds net r w c :
    env_ok env ->
    (forall req w r w', send env req w = Ok (r, w') ->
       chain (mkConf e (w_state w) (bal w - cost req r)) (mkConf e (w_state w') (bal w'))) ->
    ctx_ok ctx = true -> ctx_epoch ctx = e -> adm ctx msg s ->
    bal (mkWorld s funds net false false []) = b + gain ctx msg ->
    trampoline invoke env ctx msg s funds net = Committed r w ->
    w_deleted w = false ->
    chain (mkConf e (w_state w) (bal w)) c ->
    chain (mkConf e s b) c.

Lemma chain_trans c1 c2 c3 : chain c1 c2 -> chain c2 c3 -> chain c1 c3.
Proof.
  intros H1 H2. induction H1; [done| | |].
  - eapply chain_tick; eauto.
  - eapply chain_deposit; eauto.
  - eapply chain_msg; eauto.
Qed.

(** Any reflexive and transitive relation that contains the passing of time,
    deposits and the committed runs of the methods, for sends within the
    relation, contains the runs of the actor. *)
Lemma chain_rel (Rel : Conf S -> Conf S -> Prop) :
  (forall c, Rel c c) ->
  (forall c1 c2 c3, Rel c1 c2 -> Rel c2 c3 -> Rel c1 c3) ->
  (forall e e' s b, e <= e' -> Rel (mkConf e s b) (mkConf e' s b)) ->
  (forall e s b v, credit v -> Rel (mkConf e s b) (mkConf e s (b + v))) ->
  (forall env ctx msg w r w', env_ok env -> send_moves Rel env (ctx_epoch ctx) ->
     ctx_ok ctx = true -> adm ctx msg (w_state w) ->
     invoke env ctx msg w = Ok (r, w') ->
     Rel (mkConf (ctx_epoch ctx) (w_state w) (bal w - gain ctx msg))
         (mkConf (ctx_epoch ctx) (w_state w') (bal w'))) ->
  forall c c', chain c c' -> Rel c c'.
Proof.
  intros Hrefl Htrans Htick Hdep Hmsg c c' Hc.
  induction Hc as [|e e' s b c He Hc IH|e s b v c Hv Hc IH
    |env ctx msg e s b funds net r w c Henv Hsend IHsend Hctx He Hadm Hb Hrun Hdel Hc IH]; eauto.
  eapply Htrans; [|exact IH]. subst e. unfold trampoline in Hrun.
  destruct (invoke _ _ _ _) as [[r' w']| |] eqn:E; [|discriminate|discriminate].
  destruct (w_validated w'); [|discriminate]. injection Hrun as -> ->.
  eapply Hmsg in E; [|exact Henv|exact IHsend|exact Hctx|exact Hadm]. rewrite Hb in E. cbn in E.
  by replace (b + gain ctx msg - gain ctx msg) with b in E by lia.
Qed.
End chain.

(** ** Operations within a relation on worlds

    [quiet WR m]: every successful run of [m] is a step of [WR].  For a
    preorder that ignores the bookkeeping of the runtime, this is closed under
    the runtime's combinators. *)

Class WorldPre {Net S P} (WR : World Net S P -> World Net S P -> Prop) : Prop := {
  wp_same : forall w w', w_state w' = w_state w -> w_balance w' = w_balance w ->
    w_net w' = w_net w -> WR w w';
  wp_trans : forall w1 w2 w3, WR w1 w2 -> WR w2 w3 -> WR w1 w3;
}.

Definition quiet {Net S P R A} (WR : World Net S P -> World Net S P -> Prop)
    (m : M Net S P R A) : Prop :=
  forall w a w', m w = Ok (a, w') -> WR w w'.

Create HintDb quiet.

Section quiet.
Context {Net S P R : Type} (env : Env Net S P R) (ctx : Ctx).
Context (WR : World Net S P -> World Net S P -> Prop) `{!WorldPre WR}.
Notation M := (M Net S P R).
Notation quiet := (@quiet Net S P R _ WR).

Lemma quiet_bind {A B} (m : M A) (f : A -> M B) :
  quiet m -> (forall a, quiet (f a)) -> quiet (bind m f).
Proof.
  intros Hm Hf w b w' (a & w1 & H1 & H2)%bind_ok. eapply wp_trans; [by eapply Hm|].
  by eapply Hf.
Qed.

Lemma quiet_ret {A} (a : A) : quiet (ret a).
Proof. intros w b w' H. run_inv. by apply wp_same. Qed.
Lemma quiet_throw {A} c : quiet (@throw _ _ _ _ A c).
Proof. intros w b w' H. run_inv. Qed.
Lemma quiet_lift {A} (r : Res (ActorError R) A) : quiet (lift r).
Proof. intros w b w' H. run_inv. by apply wp_same. Qed.
Lemma quiet_state : quiet (@state Net S P R).
Proof. intros w b w' H. run_inv. by apply wp_same. Qed.
Lemma quiet_get_world : quiet (@get_world Net S P R).
Proof. intros w b w' H. injection H as <- <-. by apply wp_same. Qed.
Lemma quiet_accept_any : quiet (@validate_immediate_caller_accept_any Net S P R).
Proof. intros w b w' H. run_inv. by apply wp_same. Qed.
Lemma quiet_caller_is l : quiet (@validate_immediate_caller_is Net S P R ctx l).
Proof. intros w b w' H. run_inv. by apply wp_same. Qed.
Lemma quiet_caller_type l : quiet (validate_immediate_caller_type env ctx l).
Proof. intros w b w' H. run_inv. by apply wp_same. Qed.
Lemma quiet_resolve a : quiet (resolve_address env a).
Proof. intros w b w' H. run_inv. by apply wp_same. Qed.
Lemma quiet_code i : quiet (get_actor_code_cid env i).
Proof. intros w b w' H. run_inv. by apply wp_same. Qed.
Lemma quiet_caught {A} (r : Res (ActorError R) A) : quiet (caught r).
Proof. intros w b w' [-> _]%caught_ok. by apply wp_same. Qed.

Lemma quiet_mfold {A X} (f : A -> X -> M A) acc xs :
  (forall acc x, quiet (f acc x)) -> quiet (mfold f acc xs).
Proof.
  intros Hf. revert acc. induction xs as [|x xs IH]; intros acc; cbn; [apply quiet_ret|].
  by apply quiet_bind.
Qed.

Lemma quiet_resolve_to_actor_id no_params a chk :
  (forall a, quiet (send_simple env a METHOD_SEND no_params 0)) ->
  quiet (resolve_to_actor_id env no_params a chk).
Proof.
  intros Hsend. unfold resolve_to_actor_id. apply quiet_bind; [apply quiet_resolve|intros r].
  apply quiet_bind.
  - destruct r; [apply quiet_ret|]. apply quiet_bind; [done|intros r].
    apply quiet_bind; [apply quiet_lift|intros _]. apply quiet_resolve.
  - intros [id|]; [|apply quiet_throw]. destruct chk; [|apply quiet_ret].
    apply quiet_bind; [apply quiet_code|intros [c|]]; [apply quiet_ret|apply quiet_throw].
Qed.
End quiet.

#[export] Hint Resolve quiet_ret quiet_throw quiet_lift quiet_state quiet_get_world
  quiet_accept_any quiet_caller_is quiet_caller_type quiet_resolve quiet_code quiet_caught : quiet.

Ltac quiet_tac :=
  repeat first
    [ solve [eauto with quiet typeclass_instances]
    | apply quiet_bind; [apply _| |intros ?]
    | apply quiet_mfold; [apply _|intros ??]
    | match goal with |- context [match ?x with _ => _ end] => destruct x end ].
