(* ===== verification/Smooth.v ===== *)
(** * Smoothed estimates

    Models src/runtime/src/builtin/reward/{math,smooth/alpha_beta_filter,
    smooth/smooth_func}.rs: the alpha-beta filter that smooths network power
    and rewards, and the extrapolated cumulative ratio of two estimates.
    Numbers in Q.128 format are integers; [>>] on a big integer rounds down. *)

From S2P Require Import Prelude.

Definition PRECISION : Z := 128.

(** ** Polynomials *)

Definition poly_val (poly : list Z) (x : Z) : Z :=
  foldl (fun res coeff => Z.shiftr (res * x) PRECISION + coeff) 0 poly.

(** ** The filter *)

Record FilterEstimate : Type := mkEstimate {
  position : Z;
  velocity : Z;
}.

Definition estimate_new (position velocity : Z) : FilterEstimate :=
  mkEstimate (Z.shiftl position PRECISION) (Z.shiftl velocity PRECISION).

Definition estimate (f : FilterEstimate) : Z := Z.shiftr (position f) PRECISION.

Definition extrapolate (f : FilterEstimate) (delta : Z) : Z :=
  let delta_t := Z.shiftl delta PRECISION in
  let position := Z.shiftl (position f) PRECISION in
  velocity f * delta_t + position.

(** [AlphaBetaFilter], loaded from the previous estimate. *)
Record AlphaBetaFilter : Type := load {
  alpha : Z;
  beta : Z;
  prev_est : FilterEstimate;
}.

(** The position the previous estimate predicts. *)
Definition predicted (f : FilterEstimate) (epoch_delta : Z) : Z :=
  Z.shiftr (Z.shiftl epoch_delta PRECISION * velocity f) PRECISION + position f.

(** [div_floor] panics on a zero divisor. *)
Definition next_estimate {E} (self : AlphaBetaFilter) (obs epoch_delta : Z)
  : Res E FilterEstimate :=
  let delta_t := Z.shiftl epoch_delta PRECISION in
  let position := predicted (prev_est self) epoch_delta in
  let obs := Z.shiftl obs PRECISION in
  let residual := obs - position in
  let revision_x := Z.shiftr (alpha self * residual) PRECISION in
  let revision_v := residual * beta self in
  if delta_t =? 0 then Panic
  else Ok (mkEstimate (position + revision_x) (revision_v / delta_t + velocity (prev_est self))).

(** ** Cumulative ratios *)

Definition NUM : list Z :=
  [261417938209272870992496419296200268025;
   7266615505142943436908456158054846846897;
   32458783941900493142649393804518050491988;
   17078670566130897220338060387082146864806;
   -35150353308172866634071793531642638290419;
   -20351202052858059355702509232125230498980;
   -1563932590352680681114104005183375350999].
Definition DENOM : list Z :=
  [49928077726659937662124949977867279384;
   2508163877009111928787629628566491583994;
   21757751789594546643737445330202599887121;
   53400635271583923415775576342898617051826;
   41248834748603606604000911015235164348839;
   9015227820322455780436733526367238305537;
   340282366920938463463374607431768211456].
Definition DEFAULT_ALPHA : Z := 314760000000000000000000000000000000.
Definition DEFAULT_BETA : Z := 96640100000000000000000000000000.
Definition LN_2 : Z := 235865763225513294137944142764154484399.
Definition EPSILON : Z := 302231454903657293676544.

(** [BigInt::bits]: the bit length of the magnitude, 0 for 0. *)
Definition get_bit_len (z : Z) : Z := if z =? 0 then 0 else Z.log2 (Z.abs z) + 1.

Definition div_floor {E} (a b : Z) : Res E Z := if b =? 0 then Panic else Ok (a / b).

Definition ln_between_one_and_two {E} (x : Z) : Res E Z :=
  let num := Z.shiftl (poly_val NUM x) PRECISION in
  let denom := poly_val DENOM x in
  div_floor num denom.

Definition ln {E} (z : Z) : Res E Z :=
  let k := get_bit_len z - 1 - PRECISION in
  let x := if k >? 0 then Z.shiftr z k else Z.shiftl z (Z.abs k) in
  let! y := ln_between_one_and_two x in
  Ok (k * LN_2 + y).

Definition extrapolated_cum_sum_of_ratio {E} (delta relative_start : Z)
    (est_num est_denom : FilterEstimate) : Res E Z :=
  let delta_t := Z.shiftl delta PRECISION in
  let t0 := Z.shiftl relative_start PRECISION in
  let pos_1 := position est_num in
  let pos_2 := position est_denom in
  let velo_1 := velocity est_num in
  let velo_2 := velocity est_denom in
  let squared_velo_2 := Z.shiftr (velo_2 * velo_2) PRECISION in
  if squared_velo_2 >? EPSILON then
    let x2a := Z.shiftr (velo_2 * t0) PRECISION + pos_2 in
    let x2b := Z.shiftr (velo_2 * delta_t) PRECISION + x2a in
    let! x2a := ln x2a in
    let! x2b := ln x2b in
    let m1 := Z.shiftr ((x2b - x2a) * pos_1 * velo_2) PRECISION in
    let m2_l := (x2a - x2b) * pos_2 in
    let m2_r := velo_2 * delta_t in
    let m2 := Z.shiftr ((m2_l + m2_r) * velo_1) PRECISION in
    div_floor (m2 + m1) squared_velo_2
  else
    let half_delta := Z.shiftr delta_t 1 in
    let x1m := velo_1 * (t0 + half_delta) in
    let x1m := Z.shiftr x1m PRECISION + pos_1 in
    div_floor (x1m * delta_t) pos_2.

(** ** What the filter computes *)

Lemma estimate_new_id p v : estimate (estimate_new p v) = p.
Proof.
  unfold estimate, estimate_new. cbn. rewrite Z.shiftr_shiftl_l by done.
  by rewrite Z.sub_diag, Z.shiftl_0_r.
Qed.

Lemma shiftr_scaled_between a r :
  0 <= a <= 2 ^ PRECISION -> Z.min 0 r <= Z.shiftr (a * r) PRECISION <= Z.max 0 r.
Proof.
  intros Ha. rewrite Z.shiftr_div_pow2 by done.
  assert (0 < 2 ^ PRECISION) as Hp by (apply Z.pow_pos_nonneg; done).
  pose proof (Z.div_mod (a * r) (2 ^ PRECISION) ltac:(lia)).
  pose proof (Z.mod_pos_bound (a * r) (2 ^ PRECISION) Hp). nia.
Qed.

Lemma predicted_spec f d : predicted f d = position f + d * velocity f.
Proof.
  unfold predicted. rewrite Z.shiftl_mul_pow2, Z.shiftr_div_pow2 by done.
  replace (d * 2 ^ PRECISION * velocity f) with (d * velocity f * 2 ^ PRECISION) by ring.
  rewrite Z.div_mul by done. lia.
Qed.

(** Smoothing never overshoots.  For a gain between 0 and 1 and a positive
    number of epochs, the filter always produces an estimate; the new position
    lies between the position extrapolated from the previous estimate and the
    observation, and the velocity moves towards the observation (it does not
    decrease when the observation is above the extrapolation, and does not
    increase when it is below).  A confirmed prediction keeps the velocity. *)
Theorem next_estimate_between self obs d :
  0 <= alpha self <= 2 ^ PRECISION -> 0 <= beta self -> 0 < d ->
  let x := position (prev_est self) + d * velocity (prev_est self) in
  let y := Z.shiftl obs PRECISION in
  exists f, @next_estimate unit self obs d = Ok f /\
    Z.min x y <= position f <= Z.max x y /\
    (x <= y -> velocity (prev_est self) <= velocity f) /\
    (y <= x -> velocity f <= velocity (prev_est self)) /\
    (x = y -> f = mkEstimate x (velocity (prev_est self))).
Proof.
  intros Ha Hb Hd x y. unfold next_estimate. rewrite predicted_spec. fold x y.
  assert (0 < Z.shiftl d PRECISION) as Ht.
  { rewrite Z.shiftl_mul_pow2 by done. apply Z.mul_pos_pos; [done|]. by apply Z.pow_pos_nonneg. }
  rewrite (proj2 (Z.eqb_neq _ 0)) by lia. eexists. split; [done|]. cbn [position velocity].
  pose proof (shiftr_scaled_between (alpha self) (y - x) Ha) as Hr. split_and!; [lia|lia|..].
  - intros Hxy. pose proof (Z.div_pos ((y - x) * beta self) _ ltac:(nia) Ht). lia.
  - intros Hxy. pose proof (Z.div_le_upper_bound ((y - x) * beta self) _ 0 Ht ltac:(nia)). lia.
  - intros <-. rewrite Z.sub_diag, Z.mul_0_r, Z.mul_0_l, Z.shiftr_0_l, Z.div_0_l by lia.
    f_equal; lia.
Qed.

Lemma next_estimate_between_witness :
  exists f, @next_estimate unit (load DEFAULT_ALPHA DEFAULT_BETA (estimate_new 750000 3840)) 760000 1
    = Ok f /\ Z.shiftl 753840 PRECISION <= position f <= Z.shiftl 760000 PRECISION.
Proof.
  destruct (next_estimate_between (load DEFAULT_ALPHA DEFAULT_BETA (estimate_new 750000 3840))
    760000 1) as (f & Hf & Hb & _); [vm_compute; split; discriminate|vm_compute; discriminate|lia|].
  exists f. split; [exact Hf|]. exact Hb.
Defined.
