(* ===== verification/Power.v ===== *)
(** * The storage power actor: data and methods

    Models src/actors/power/src/{lib,state,types,policy}.rs: the table of
    power claimed per miner with its totals, the queue of deferred cron events
    and the end-of-epoch tick.  A HAMT is a finite map; the cron queue, a
    [Multimap] of AMTs, maps an epoch to its events in order.  The claims,
    loaded at the start of a transaction and saved at its end, are a field of
    the state; the unused field [proof_validation_batch] is left out. *)

From S2P Require Import Prelude Runtime Smooth.

Notation bytes := (list Z) (only parsing).
Notation error := (ActorError bytes).

(** ** Types *)

Inductive RegisteredPoStProof : Type :=
| StackedDRGWinning2KiBV1
| StackedDRGWinning8MiBV1
| StackedDRGWinning512MiBV1
| StackedDRGWinning32GiBV1
| StackedDRGWinning64GiBV1
| StackedDRGWindow2KiBV1P1
| StackedDRGWindow8MiBV1P1
| StackedDRGWindow512MiBV1P1
| StackedDRGWindow32GiBV1P1
| StackedDRGWindow64GiBV1P1
| InvalidPoStProof (i : Z).

Record Claim : Type := mkClaim {
  window_post_proof_type : RegisteredPoStProof;
  raw_byte_power : Z;
  quality_adj_power : Z;
}.

Record CronEvent : Type := mkCronEvent {
  ce_miner_addr : Address;
  ce_callback_payload : bytes;
}.

Record State : Type := mkState {
  total_raw_byte_power : Z;
  total_bytes_committed : Z;
  total_quality_adj_power : Z;
  total_qa_bytes_committed : Z;
  total_pledge_collateral : Z;
  this_epoch_raw_byte_power : Z;
  this_epoch_quality_adj_power : Z;
  this_epoch_pledge_collateral : Z;
  this_epoch_qa_power_smoothed : FilterEstimate;
  miner_count : Z;
  miner_above_min_power_count : Z;
  ramp_start_epoch : Z;
  ramp_duration_epochs : Z;
  cron_event_queue : gmap Z (list CronEvent);
  first_cron_epoch : Z;
  claims : gmap Address Claim;
}.

Definition INITIAL_QA_POWER_ESTIMATE_POSITION : Z := 750000 * 2 ^ 30.
Definition INITIAL_QA_POWER_ESTIMATE_VELOCITY : Z := 3840 * 2 ^ 30.
Definition CONSENSUS_MINER_MIN_MINERS : Z := 4.

Definition new_state : State :=
  mkState 0 0 0 0 0 0 0 0
    (estimate_new INITIAL_QA_POWER_ESTIMATE_POSITION INITIAL_QA_POWER_ESTIMATE_VELOCITY)
    0 0 0 0 ∅ 0 ∅.

(** Updates of groups of fields. *)
Definition set_committed (raw qa : Z) (st : State) : State :=
  mkState (total_raw_byte_power st) raw (total_quality_adj_power st) qa
    (total_pledge_collateral st) (this_epoch_raw_byte_power st) (this_epoch_quality_adj_power st)
    (this_epoch_pledge_collateral st) (this_epoch_qa_power_smoothed st) (miner_count st)
    (miner_above_min_power_count st) (ramp_start_epoch st) (ramp_duration_epochs st)
    (cron_event_queue st) (first_cron_epoch st) (claims st).
Definition set_consensus (raw qa count : Z) (st : State) : State :=
  mkState raw (total_bytes_committed st) qa (total_qa_bytes_committed st)
    (total_pledge_collateral st) (this_epoch_raw_byte_power st) (this_epoch_quality_adj_power st)
    (this_epoch_pledge_collateral st) (this_epoch_qa_power_smoothed st) (miner_count st)
    count (ramp_start_epoch st) (ramp_duration_epochs st)
    (cron_event_queue st) (first_cron_epoch st) (claims st).
Definition set_pledge (x : Z) (st : State) : State :=
  mkState (total_raw_byte_power st) (total_bytes_committed st) (total_quality_adj_power st)
    (total_qa_bytes_committed st) x (this_epoch_raw_byte_power st)
    (this_epoch_quality_adj_power st) (this_epoch_pledge_collateral st)
    (this_epoch_qa_power_smoothed st) (miner_count st) (miner_above_min_power_count st)
    (ramp_start_epoch st) (ramp_duration_epochs st) (cron_event_queue st) (first_cron_epoch st)
    (claims st).
Definition set_epoch (raw qa pledge : Z) (f : FilterEstimate) (st : State) : State :=
  mkState (total_raw_byte_power st) (total_bytes_committed st) (total_quality_adj_power st)
    (total_qa_bytes_committed st) (total_pledge_collateral st) raw qa pledge f (miner_count st)
    (miner_above_min_power_count st) (ramp_start_epoch st) (ramp_duration_epochs st)
    (cron_event_queue st) (first_cron_epoch st) (claims st).
Definition set_miner_count (x : Z) (st : State) : State :=
  mkState (total_raw_byte_power st) (total_bytes_committed st) (total_quality_adj_power st)
    (total_qa_bytes_committed st) (total_pledge_collateral st) (this_epoch_raw_byte_power st)
    (this_epoch_quality_adj_power st) (this_epoch_pledge_collateral st)
    (this_epoch_qa_power_smoothed st) x (miner_above_min_power_count st)
    (ramp_start_epoch st) (ramp_duration_epochs st) (cron_event_queue st) (first_cron_epoch st)
    (claims st).
Definition set_cron (queue : gmap Z (list CronEvent)) (first : Z) (st : State) : State :=
  mkState (total_raw_byte_power st) (total_bytes_committed st) (total_quality_adj_power st)
    (total_qa_bytes_committed st) (total_pledge_collateral st) (this_epoch_raw_byte_power st)
    (this_epoch_quality_adj_power st) (this_epoch_pledge_collateral st)
    (this_epoch_qa_power_smoothed st) (miner_count st) (miner_above_min_power_count st)
    (ramp_start_epoch st) (ramp_duration_epochs st) queue first (claims st).
Definition set_claims (x : gmap Address Claim) (st : State) : State :=
  mkState (total_raw_byte_power st) (total_bytes_committed st) (total_quality_adj_power st)
    (total_qa_bytes_committed st) (total_pledge_collateral st) (this_epoch_raw_byte_power st)
    (this_epoch_quality_adj_power st) (this_epoch_pledge_collateral st)
    (this_epoch_qa_power_smoothed st) (miner_count st) (miner_above_min_power_count st)
    (ramp_start_epoch st) (ramp_duration_epochs st) (cron_event_queue st) (first_cron_epoch st) x.

(** The field of [Policy] the actor reads. *)
Record Policy : Type := mkPolicy { minimum_consensus_power : Z }.

Definition default_policy : Policy := mkPolicy (10 * 2 ^ 40).

Record CreateMinerParams : Type := mkCreateMiner {
  cm_owner : Address;
  cm_worker : Address;
  cm_window_post_proof_type : RegisteredPoStProof;
  cm_peer : bytes;
  cm_multiaddrs : list bytes;
}.

Record MinerConstructorParams : Type := mkMinerCtor {
  mc_owner : Address;
  mc_worker : Address;
  mc_control_addresses : list Address;
  mc_window_post_proof_type : RegisteredPoStProof;
  mc_peer_id : bytes;
  mc_multi_addresses : list bytes;
}.

Record ThisEpochRewardReturn : Type := mkEpochReward {
  this_epoch_reward_smoothed : FilterEstimate;
  this_epoch_baseline_power : Z;
}.

(** Parameters of the messages the actor sends. *)
Inductive Params : Type :=
| PNone
| PExec (code_cid : Z) (constructor_params : MinerConstructorParams)
| PDeferredCron (event_payload : bytes) (reward_smoothed quality_adj_power_smoothed : FilterEstimate)
| PNetworkKPI (raw_byte_power : Z).

(** Code outside the repository: FRC-42 method numbers, CBOR codecs, and the
    code CID of miner actors. *)
Record Ext : Type := mkExt {
  method_hash : string -> Z;
  miner_code_cid : Z;
  decode_exec_return : bytes -> option (Address * Address);
  decode_epoch_reward : bytes -> option ThisEpochRewardReturn;
}.

Inductive Msg : Type :=
| Constructor
| CreateMiner (exported : bool) (p : CreateMinerParams)
| UpdateClaimedPower (raw_byte_delta quality_adjusted_delta : Z)
| EnrollCronEvent (event_epoch : Z) (payload : bytes)
| OnEpochTickEnd
| UpdatePledgeTotal (pledge_delta : Z)
| CurrentTotalPower
| NetworkRawPower
| MinerRawPower (miner : Z)
| MinerCount
| MinerConsensusCount
| MinerPower (miner : Z)
| OtherMethod (method : Z).

Inductive Ret : Type :=
| RUnit
| RCreateMiner (id_address robust_address : Address)
| RTotalPower (raw_byte_power quality_adj_power pledge_collateral : Z)
    (quality_adj_power_smoothed : FilterEstimate) (ramp_start_epoch ramp_duration_epochs : Z)
| RRawPower (raw_byte_power : Z)
| RMinerRawPower (raw_byte_power : Z) (meets_consensus_minimum : bool)
| RCount (n : Z)
| RMinerPower (raw_byte_power quality_adj_power : Z).

(** ** State methods *)

Notation SM := (St State error).

Definition consensus_miner_min_power (policy : Policy) (p : RegisteredPoStProof)
  : Res error Z :=
  match p with
  | InvalidPoStProof _ => Err (err USR_ILLEGAL_STATE)
  | _ => Ok (minimum_consensus_power policy)
  end.

Definition st_set_claim (a : Address) (claim : Claim) : SM unit :=
  if raw_byte_power claim <? 0 then sfail (err USR_ILLEGAL_STATE)
  else if quality_adj_power claim <? 0 then sfail (err USR_ILLEGAL_STATE)
  else smodify (fun st => set_claims (<[a := claim]> (claims st)) st).

Definition miner_nominal_power_meets_consensus_minimum (policy : Policy) (st : State) (miner : Z)
  : Res error (Z * bool) :=
  let! claim := ok_or (claims st !! AddrId miner) (err USR_ILLEGAL_ARGUMENT) in
  let miner_nominal_power := raw_byte_power claim in
  let! miner_min_power := consensus_miner_min_power policy (window_post_proof_type claim) in
  Ok (miner_nominal_power,
      if miner_nominal_power >=? miner_min_power then true
      else if miner_above_min_power_count st >=? CONSENSUS_MINER_MIN_MINERS then false
      else miner_nominal_power >? 0).

(** The changes made before an error stay, see [sbind]. *)
Definition add_to_claim (policy : Policy) (miner : Address) (power qa_power : Z) : SM unit :=
  let& st := sget in
  let& old_claim := slift (ok_or (claims st !! miner) (err USR_NOT_FOUND)) in
  let& _ := smodify (fun st => set_committed (total_bytes_committed st + power)
                                 (total_qa_bytes_committed st + qa_power) st) in
  let new_claim := mkClaim (window_post_proof_type old_claim) (raw_byte_power old_claim + power)
                     (quality_adj_power old_claim + qa_power) in
  let& min_power := slift (consensus_miner_min_power policy (window_post_proof_type old_claim)) in
  let prev_below := raw_byte_power old_claim <? min_power in
  let still_below := raw_byte_power new_claim <? min_power in
  let& _ :=
    if prev_below && negb still_below then
      let& count := slift (chk_i64 (miner_above_min_power_count st + 1)) in
      smodify (fun st => set_consensus (total_raw_byte_power st + raw_byte_power new_claim)
        (total_quality_adj_power st + quality_adj_power new_claim) count st)
    else if negb prev_below && still_below then
      let& count := slift (chk_i64 (miner_above_min_power_count st - 1)) in
      smodify (fun st => set_consensus (total_raw_byte_power st - raw_byte_power old_claim)
        (total_quality_adj_power st - quality_adj_power old_claim) count st)
    else if negb prev_below && negb still_below then
      smodify (fun st => set_consensus (total_raw_byte_power st + power)
        (total_quality_adj_power st + qa_power) (miner_above_min_power_count st) st)
    else sret tt in
  let& st := sget in
  if raw_byte_power new_claim <? 0 then sfail (err USR_ILLEGAL_STATE)
  else if quality_adj_power new_claim <? 0 then sfail (err USR_ILLEGAL_STATE)
  else if miner_above_min_power_count st <? 0 then sfail (err USR_ILLEGAL_STATE)
  else st_set_claim miner new_claim.

Definition add_pledge_total (amount : Z) : SM unit :=
  smodify (fun st => set_pledge (total_pledge_collateral st + amount) st).

(** [Multimap::add] appends to the events of the epoch. *)
Definition append_cron_event (epoch : Z) (event : CronEvent) : SM unit :=
  smodify (fun st =>
    set_cron (<[epoch := default [] (cron_event_queue st !! epoch) ++ [event]]> (cron_event_queue st))
      (if epoch <? first_cron_epoch st then epoch else first_cron_epoch st) st).

Definition st_current_total_power (st : State) : Z * Z :=
  if miner_above_min_power_count st <? CONSENSUS_MINER_MIN_MINERS
  then (total_bytes_committed st, total_qa_bytes_committed st)
  else (total_raw_byte_power st, total_quality_adj_power st).

Definition smoothed_estimate (st : State) (delta : Z) : Res error FilterEstimate :=
  next_estimate (load DEFAULT_ALPHA DEFAULT_BETA (this_epoch_qa_power_smoothed st))
    (this_epoch_quality_adj_power st) delta.

Definition update_smoothed_estimate (delta : Z) : SM unit :=
  let& st := sget in
  let& f := slift (smoothed_estimate st delta) in
  smodify (fun st => set_epoch (this_epoch_raw_byte_power st) (this_epoch_quality_adj_power st)
                       (this_epoch_pledge_collateral st) f st).

Definition update_stats_for_new_miner (policy : Policy) (window_post_proof : RegisteredPoStProof)
  : SM unit :=
  let& min_power := slift (consensus_miner_min_power policy window_post_proof) in
  if negb (min_power >? 0) then
    let& st := sget in
    let& count := slift (chk_i64 (miner_above_min_power_count st + 1)) in
    smodify (fun st => set_consensus (total_raw_byte_power st) (total_quality_adj_power st) count st)
  else sret tt.

Definition validate_miner_has_claim (st : State) (miner : Address) : Res error unit :=
  if bool_decide (is_Some (claims st !! miner)) then Ok tt else Err (err USR_FORBIDDEN).

Definition delete_claim (policy : Policy) (miner : Address) : SM unit :=
  let& st := sget in
  match claims st !! miner with
  | None => sret tt
  | Some claim =>
      let& _ := add_to_claim policy miner (- raw_byte_power claim) (- quality_adj_power claim) in
      smodify (fun st => set_claims (delete miner (claims st)) st)
  end.

Definition load_cron_events (queue : gmap Z (list CronEvent)) (epoch : Z) : list CronEvent :=
  default [] (queue !! epoch).

(** ** Methods *)

Section methods.
Context {Net : Type} (ext : Ext) (policy : Policy).
Context (env : Env Net State Params bytes) (ctx : Ctx).

Notation M := (M Net State Params bytes).

Definition constructor : M unit :=
  let* _ := validate_immediate_caller_is ctx [SYSTEM_ACTOR_ADDR] in
  create new_state.

(** The transaction of [create_miner]. *)
Definition register_miner (id_address : Address) (proof : RegisteredPoStProof) : SM unit :=
  let& _ := st_set_claim id_address (mkClaim proof 0 0) in
  let& st := sget in
  let& n := slift (chk_i64 (miner_count st + 1)) in
  let& _ := smodify (set_miner_count n) in
  update_stats_for_new_miner policy proof.

Definition create_miner (p : CreateMinerParams) : M (Address * Address) :=
  let* _ := validate_immediate_caller_accept_any in
  let value := ctx_value_received ctx in
  let constructor_params := mkMinerCtor (cm_owner p) (cm_worker p) []
    (cm_window_post_proof_type p) (cm_peer p) (cm_multiaddrs p) in
  let* res := send_simple env INIT_ACTOR_ADDR 2
                (PExec (miner_code_cid ext) constructor_params) value in
  let* (id_address, robust_address) :=
    lift (let! r := extract_send_result res in deserialize_block (decode_exec_return ext) r) in
  let* _ := transaction_st (register_miner id_address (cm_window_post_proof_type p)) in
  ret (id_address, robust_address).

Definition update_claimed_power (raw_byte_delta quality_adjusted_delta : Z) : M unit :=
  let* _ := validate_immediate_caller_type env ctx [TMiner] in
  let miner_addr := caller ctx in
  transaction_st (add_to_claim policy miner_addr raw_byte_delta quality_adjusted_delta).

Definition enroll_cron_event (event_epoch : Z) (payload : bytes) : M unit :=
  let* _ := validate_immediate_caller_type env ctx [TMiner] in
  let miner_event := mkCronEvent (caller ctx) payload in
  if event_epoch <? 0 then throw USR_ILLEGAL_ARGUMENT
  else transaction_st (append_cron_event event_epoch miner_event).

(** The first transaction of [process_deferred_cron_events]: takes the events
    up to the current epoch off the queue; those of miners with a claim are
    to be delivered. *)
Definition take_epoch (cs : gmap Address Claim)
    (acc : gmap Z (list CronEvent) * list CronEvent) (epoch : Z)
  : gmap Z (list CronEvent) * list CronEvent :=
  let '(events, cron_events) := acc in
  match load_cron_events events epoch with
  | [] => (events, cron_events)
  | epoch_events =>
      (delete epoch events,
       cron_events ++
         filter (fun evt => is_Some (cs !! ce_miner_addr evt)) epoch_events)
  end.

Definition take_cron_events (st : State) : Res error (list CronEvent * State) :=
  let rt_epoch := ctx_epoch ctx in
  let '(events, cron_events) :=
    foldl (take_epoch (claims st)) (cron_event_queue st, [])
      (seqZ (first_cron_epoch st) (rt_epoch + 1 - first_cron_epoch st)) in
  let! next := chk_i64 (rt_epoch + 1) in
  Ok (cron_events, set_cron events next st).

(** Calls a miner back; the miners whose callback fails are remembered. *)
Definition deliver (reward_smoothed qa_smoothed : FilterEstimate) (failed : list Address)
    (event : CronEvent) : M (list Address) :=
  let* res := send_simple env (ce_miner_addr event) 12
    (PDeferredCron (ce_callback_payload event) reward_smoothed qa_smoothed) 0 in
  let* r := caught (extract_send_result res) in
  match r with
  | inl _ => ret failed
  | inr _ => ret (failed ++ [ce_miner_addr event])
  end.

(** Removes the power of a miner that failed; an error is only logged. *)
Definition remove_failed (_ : unit) (miner_addr : Address) : SM unit :=
  let& r := scatch (delete_claim policy miner_addr) in
  match r with
  | inr _ => sret tt
  | inl _ =>
      let& st := sget in
      let& n := slift (chk_i64 (miner_count st - 1)) in
      smodify (set_miner_count n)
  end.

Definition process_deferred_cron_events (rewret : ThisEpochRewardReturn) : M unit :=
  let* st := state in
  let* cron_events := transaction take_cron_events in
  let* failed_miner_crons :=
    mfold (deliver (this_epoch_reward_smoothed rewret) (this_epoch_qa_power_smoothed st))
      [] cron_events in
  match failed_miner_crons with
  | [] => ret tt
  | _ => transaction_st (sfold remove_failed tt failed_miner_crons)
  end.

(** The transaction of [on_epoch_tick_end]. *)
Definition close_epoch : SM Z :=
  let& st := sget in
  let '(raw_byte_power, qa_power) := st_current_total_power st in
  let& _ := sput (set_epoch raw_byte_power qa_power (total_pledge_collateral st)
                    (this_epoch_qa_power_smoothed st) st) in
  let& _ := update_smoothed_estimate 1 in
  let& st := sget in
  sret (this_epoch_raw_byte_power st).

Definition on_epoch_tick_end : M unit :=
  let* _ := validate_immediate_caller_is ctx [CRON_ACTOR_ADDR] in
  let* res := send_simple env REWARD_ACTOR_ADDR 3 PNone 0 in
  let* rewret :=
    lift (let! r := extract_send_result res in deserialize_block (decode_epoch_reward ext) r) in
  let* _ := process_deferred_cron_events rewret in
  let* this_epoch_raw_byte_power := transaction_st close_epoch in
  let* res := send_simple env REWARD_ACTOR_ADDR 4 (PNetworkKPI this_epoch_raw_byte_power) 0 in
  let* _ := lift (extract_send_result res) in
  ret tt.

Definition update_pledge_total (pledge_delta : Z) : M unit :=
  let* _ := validate_immediate_caller_type env ctx [TMiner] in
  transaction_st (
    let& st := sget in
    let& _ := slift (validate_miner_has_claim st (caller ctx)) in
    let& _ := add_pledge_total pledge_delta in
    let& st := sget in
    if total_pledge_collateral st <? 0 then sfail (err USR_ILLEGAL_STATE) else sret tt).

(** *** Queries *)

Definition current_total_power : M Ret :=
  let* _ := validate_immediate_caller_accept_any in
  let* st := state in
  ret (RTotalPower (this_epoch_raw_byte_power st) (this_epoch_quality_adj_power st)
    (this_epoch_pledge_collateral st) (this_epoch_qa_power_smoothed st) (ramp_start_epoch st)
    (ramp_duration_epochs st)).

Definition network_raw_power : M Ret :=
  let* _ := validate_immediate_caller_accept_any in
  let* st := state in
  ret (RRawPower (this_epoch_raw_byte_power st)).

Definition miner_raw_power (miner : Z) : M Ret :=
  let* _ := validate_immediate_caller_accept_any in
  let* st := state in
  let* (p, b) := lift (miner_nominal_power_meets_consensus_minimum policy st miner) in
  ret (RMinerRawPower p b).

Definition get_miner_count : M Ret :=
  let* _ := validate_immediate_caller_accept_any in
  let* st := state in
  ret (RCount (miner_count st)).

Definition miner_consensus_count : M Ret :=
  let* _ := validate_immediate_caller_accept_any in
  let* st := state in
  ret (RCount (miner_above_min_power_count st)).

Definition miner_power (miner : Z) : M Ret :=
  let* _ := validate_immediate_caller_accept_any in
  let* st := state in
  match claims st !! AddrId miner with
  | Some claim => ret (RMinerPower (raw_byte_power claim) (quality_adj_power claim))
  | None => throw USR_NOT_FOUND
  end.

(** ** Dispatch *)

Definition method_num (m : Msg) : Z :=
  match m with
  | Constructor => 1
  | CreateMiner exported _ => if exported then method_hash ext "CreateMiner" else 2
  | UpdateClaimedPower _ _ => 3
  | EnrollCronEvent _ _ => 4
  | OnEpochTickEnd => 5
  | UpdatePledgeTotal _ => 6
  | CurrentTotalPower => 9
  | NetworkRawPower => method_hash ext "NetworkRawPower"
  | MinerRawPower _ => method_hash ext "MinerRawPower"
  | MinerCount => method_hash ext "MinerCount"
  | MinerConsensusCount => method_hash ext "MinerConsensusCount"
  | MinerPower _ => method_hash ext "MinerPower"
  | OtherMethod n => n
  end.

(** Integers of decoded parameters are within their types. *)
Definition decodes (m : Msg) : bool :=
  match m with
  | EnrollCronEvent e _ => in_i64 e
  | MinerRawPower miner | MinerPower miner => in_u64 miner
  | _ => true
  end.

Definition invoke_method (m : Msg) : M Ret :=
  let* _ := restrict_internal_api env ctx (method_num m) in
  if negb (decodes m) then throw USR_SERIALIZATION
  else
  match m with
  | Constructor => let* _ := constructor in ret RUnit
  | CreateMiner _ p => let* (i, r) := create_miner p in ret (RCreateMiner i r)
  | UpdateClaimedPower r q => let* _ := update_claimed_power r q in ret RUnit
  | EnrollCronEvent e p => let* _ := enroll_cron_event e p in ret RUnit
  | OnEpochTickEnd => let* _ := on_epoch_tick_end in ret RUnit
  | UpdatePledgeTotal d => let* _ := update_pledge_total d in ret RUnit
  | CurrentTotalPower => current_total_power
  | NetworkRawPower => network_raw_power
  | MinerRawPower i => miner_raw_power i
  | MinerCount => get_miner_count
  | MinerConsensusCount => miner_consensus_count
  | MinerPower i => miner_power i
  | OtherMethod _ => throw USR_UNHANDLED_MESSAGE
  end.

End methods.
