(* ===== verification/PowerProofs.v ===== *)
(** * The storage power actor: accounting of power

    The totals of the power actor are functions of its table of claims: the
    invariant that says so, and the operations on claims as updates of that
    table. *)

From S2P Require Import Prelude Runtime Smooth Power.

Implicit Types (st : State) (x : Claim).

Section accounting.
Context (policy : Policy).
Notation min_power := (minimum_consensus_power policy).

(** A miner counts for consensus from the minimum power on. *)
Definition above x : bool := min_power <=? raw_byte_power x.
Definition consensus_raw x : Z := if above x then raw_byte_power x else 0.
Definition consensus_qa x : Z := if above x then quality_adj_power x else 0.
Definition consensus_one x : Z := if above x then 1 else 0.

Definition valid_proof (p : RegisteredPoStProof) : bool :=
  match p with InvalidPoStProof _ => false | _ => true end.

(** The state with a table of claims and the totals this gives. *)
Definition retotal (cs : gmap Address Claim) st : State :=
  set_claims cs (set_consensus (map_sum consensus_raw cs) (map_sum consensus_qa cs)
    (map_sum consensus_one cs)
    (set_committed (map_sum raw_byte_power cs) (map_sum quality_adj_power cs) st)).

Record claim_ok x : Prop := {
  co_raw : 0 <= raw_byte_power x;
  co_qa : 0 <= quality_adj_power x;
  co_proof : valid_proof (window_post_proof_type x) = true;
}.

Record power_inv st : Prop := {
  pi_claims : forall a x, claims st !! a = Some x -> claim_ok x;
  pi_totals : retotal (claims st) st = st;
  pi_count : miner_above_min_power_count st <= 2 ^ 63 - 1;
  pi_pledge : 0 <= total_pledge_collateral st;
  pi_miners : miner_count st <= Z.of_nat (size (claims st));
  pi_first : 0 <= first_cron_epoch st;
  pi_cron : forall e l, cron_event_queue st !! e = Some l -> first_cron_epoch st <= e /\ l <> [];
}.

Context (Hmin : 0 < min_power).

Lemma min_power_ok p : valid_proof p = true -> consensus_miner_min_power policy p = Ok min_power.
Proof. by destruct p. Qed.

Lemma retotal_retotal cs cs' st : retotal cs (retotal cs' st) = retotal cs st.
Proof. done. Qed.

(** The totals, field by field. *)
Lemma totals_eq st : retotal (claims st) st = st <->
  total_raw_byte_power st = map_sum consensus_raw (claims st) /\
  total_quality_adj_power st = map_sum consensus_qa (claims st) /\
  miner_above_min_power_count st = map_sum consensus_one (claims st) /\
  total_bytes_committed st = map_sum raw_byte_power (claims st) /\
  total_qa_bytes_committed st = map_sum quality_adj_power (claims st).
Proof.
  split.
  - intros <-. done.
  - destruct st. unfold retotal. cbn. intros (-> & -> & -> & -> & ->). done.
Qed.

Lemma consensus_one_pos (cs : gmap Address Claim) a x :
  cs !! a = Some x -> above x = true -> 1 <= map_sum consensus_one cs.
Proof.
  intros Hx Ha. replace 1 with (consensus_one x) by (unfold consensus_one; by rewrite Ha).
  eapply map_sum_lookup_le; [|exact Hx]. intros k y _. unfold consensus_one. destruct (above y); lia.
Qed.

(** Replacing a claim, in terms of the totals before. *)
Lemma retotal_insert m x y st :
  retotal (claims st) st = st -> claims st !! m = Some x ->
  retotal (<[m := y]> (claims st)) st =
  set_claims (<[m := y]> (claims st))
    (set_consensus (total_raw_byte_power st - consensus_raw x + consensus_raw y)
      (total_quality_adj_power st - consensus_qa x + consensus_qa y)
      (miner_above_min_power_count st - consensus_one x + consensus_one y)
      (set_committed (total_bytes_committed st - raw_byte_power x + raw_byte_power y)
        (total_qa_bytes_committed st - quality_adj_power x + quality_adj_power y) st)).
Proof.
  intros (-> & -> & -> & -> & ->)%totals_eq Hx. unfold retotal.
  rewrite !map_sum_insert. unfold lookup_sum. by rewrite Hx.
Qed.

(** Adding to a claim replaces it and keeps the totals. *)
Lemma add_to_claim_ok st m p q u st' :
  power_inv st -> add_to_claim policy m p q st = (Ok u, st') ->
  exists x, claims st !! m = Some x /\
    let y := mkClaim (window_post_proof_type x) (raw_byte_power x + p) (quality_adj_power x + q) in
    claim_ok y /\ st' = retotal (<[m := y]> (claims st)) st /\
    miner_above_min_power_count st' <= 2 ^ 63 - 1.
Proof.
  intros Hinv H. unfold add_to_claim in H.
  apply sbind_ok in H as (st0 & s0 & Hg & H). injection Hg as <- <-.
  apply sbind_ok in H as (x & s0 & Hx & H). injection Hx as Hx <-. apply ok_or_ok in Hx.
  pose proof (pi_claims _ Hinv _ _ Hx) as [_ _ Hproof].
  apply sbind_ok in H as (u1 & s0 & Hm & H). injection Hm as _ <-.
  rewrite min_power_ok in H by done. apply sbind_ok in H as (mp & s0 & Hm & H).
  injection Hm as <- <-. exists x. split; [done|]. intros y. fold y in H.
  apply sbind_ok in H as (u2 & s1 & Hmid & H). cbn beta in H.
  apply sbind_ok in H as (s2 & s3 & Hg & H). injection Hg as <- <-. unfold st_set_claim in H. st_inv.
  split; [by constructor|].
  rewrite (retotal_insert m x y st (pi_totals _ Hinv) Hx).
  unfold consensus_raw, consensus_qa, consensus_one, above. rewrite !Z.leb_antisym.
  assert (raw_byte_power y = raw_byte_power x + p) as Hr by done.
  assert (quality_adj_power y = quality_adj_power x + q) as Hq by done. clearbody y.
  pose proof (pi_count _ Hinv). clear Hinv Hproof Hx.
  destruct (raw_byte_power x <? min_power), (raw_byte_power y <? min_power);
    cbn [andb negb] in *; st_inv; destruct st; unfold set_claims, set_consensus, set_committed;
    cbn in *; (split; [f_equal|]); lia.
Qed.

(** It succeeds when the new claim is not negative. *)
Lemma add_to_claim_run st m p q x :
  power_inv st -> claims st !! m = Some x ->
  let y := mkClaim (window_post_proof_type x) (raw_byte_power x + p) (quality_adj_power x + q) in
  0 <= raw_byte_power y -> 0 <= quality_adj_power y ->
  miner_above_min_power_count st < 2 ^ 63 - 1 \/ above y = false ->
  add_to_claim policy m p q st = (Ok tt, retotal (<[m := y]> (claims st)) st).
Proof.
  intros Hinv Hx y Hr Hq Hc. pose proof (pi_claims _ Hinv _ _ Hx) as [_ _ Hproof].
  pose proof (pi_count _ Hinv) as Hcount.
  assert (0 <= miner_above_min_power_count st) as Hpos.
  { destruct (proj1 (totals_eq st) (pi_totals _ Hinv)) as (_ & _ & -> & _).
    apply map_sum_nonneg. intros k z _. unfold consensus_one. destruct (above z); lia. }
  assert (above x = true -> 1 <= miner_above_min_power_count st) as Hone.
  { destruct (proj1 (totals_eq st) (pi_totals _ Hinv)) as (_ & _ & -> & _).
    intros. by eapply consensus_one_pos. }
  rewrite (retotal_insert m x y st (pi_totals _ Hinv) Hx).
  unfold consensus_raw, consensus_qa, consensus_one.
  unfold above in *. rewrite !Z.leb_antisym in *.
  assert (forall n, -1 <= n - miner_above_min_power_count st <= 1 -> 0 <= n <= 2 ^ 63 - 1 ->
    @chk_i64 error n = Ok n) as Hchk by (intros; apply chk_i64_ok; lia).
  unfold add_to_claim, sbind, sget, slift, smodify, sret, st_set_claim. rewrite Hx. cbn [ok_or].
  rewrite (min_power_ok _ Hproof). fold y.
  rewrite (proj2 (Z.ltb_ge (raw_byte_power y) 0) Hr), (proj2 (Z.ltb_ge (quality_adj_power y) 0) Hq).
  assert (raw_byte_power y = raw_byte_power x + p) as Hry by done.
  assert (quality_adj_power y = quality_adj_power x + q) as Hqy by done. clearbody y.
  destruct (raw_byte_power x <? min_power), (raw_byte_power y <? min_power);
    cbn [andb negb] in *; try specialize (Hone eq_refl);
    rewrite ?Hchk by (destruct Hc; [lia|first [done|lia]]);
    cbn [miner_above_min_power_count set_consensus set_committed set_claims];
    (rewrite (proj2 (Z.ltb_ge _ 0)) by lia); unfold smodify;
    destruct st; unfold set_claims, set_consensus, set_committed; cbn in *; f_equal; f_equal; lia.
Qed.

(** Deleting a claim never fails. *)
Lemma delete_claim_total st m :
  power_inv st -> delete_claim policy m st = (Ok tt, retotal (delete m (claims st)) st).
Proof.
  intros Hinv. unfold delete_claim, sbind at 1. cbn [sget].
  destruct (claims st !! m) as [x|] eqn:Hx.
  2: { cbn. rewrite delete_id by done. by rewrite (pi_totals _ Hinv). }
  set (y := mkClaim (window_post_proof_type x) (raw_byte_power x + - raw_byte_power x)
              (quality_adj_power x + - quality_adj_power x)).
  assert (raw_byte_power y = 0) as Hr by (cbn; lia).
  assert (quality_adj_power y = 0) as Hq by (cbn; lia).
  assert (above y = false) as Ha by (unfold above; lia).
  unfold sbind. rewrite (add_to_claim_run st m _ _ x Hinv Hx); fold y; [|lia|lia|by right].
  unfold smodify, retotal. f_equal. rewrite !map_sum_insert, !map_sum_delete_any.
  unfold consensus_raw, consensus_qa, consensus_one. rewrite Ha, Hr, Hq, !Z.add_0_r.
  cbn. by rewrite delete_insert_eq.
Qed.
(** ** The transactions keep the invariant *)

Lemma inv_retotal cs st :
  power_inv st -> (forall a x, cs !! a = Some x -> claim_ok x) ->
  map_sum consensus_one cs <= 2 ^ 63 - 1 -> miner_count st <= Z.of_nat (size cs) ->
  power_inv (retotal cs st).
Proof. intros [] Hcs Hc Hm. by constructor. Qed.

(** A change that keeps the invariant and makes no new claims. *)
Definition kept st st' : Prop := power_inv st' /\ dom (claims st') ⊆ dom (claims st).

Lemma add_to_claim_inv st m p q u st' :
  power_inv st -> add_to_claim policy m p q st = (Ok u, st') -> kept st st'.
Proof.
  intros Hinv H. destruct (add_to_claim_ok _ _ _ _ _ _ Hinv H) as (x & Hx & Hy & -> & Hc).
  split; [|cbn; apply elem_of_dom_2 in Hx; set_solver]. apply inv_retotal; [done| |done|].
  - intros a z Hz. apply lookup_insert_Some in Hz as [[_ <-]|[_ Hz]]; [done|by eapply pi_claims].
  - rewrite map_size_insert_Some by done. by apply pi_miners.
Qed.

Lemma delete_claim_inv st m :
  power_inv st ->
  exists st', delete_claim policy m st = (Ok tt, st') /\ claims st' = delete m (claims st) /\
    miner_count st' = miner_count st /\ power_inv (set_miner_count (miner_count st - 1) st').
Proof.
  intros Hinv. eexists. split; [by apply delete_claim_total|]. split_and!; [done|done|].
  destruct Hinv as [Hcl Ht Hc Hp Hm Hf Hq]. constructor; try done.
  - intros a x Hx. cbn in Hx. apply lookup_delete_Some in Hx as [_ Hx]. by eapply Hcl.
  - cbn. destruct (proj1 (totals_eq st) Ht) as (_ & _ & He & _). rewrite He in Hc.
    rewrite map_sum_delete_any. unfold lookup_sum. destruct (claims st !! m) as [x|]; cbn; [|lia].
    unfold consensus_one at 2. destruct (above x); lia.
  - cbn. destruct (claims st !! m) eqn:Hx.
    + rewrite map_size_delete_Some by eauto. lia.
    + rewrite map_size_delete_None by done. lia.
Qed.

Lemma remove_failed_inv st u m u' st' :
  power_inv st -> remove_failed policy u m st = (Ok u', st') -> kept st st'.
Proof.
  intros Hinv H. unfold remove_failed in H. apply sbind_ok in H as (r & st1 & Hd & H).
  destruct (delete_claim_inv st m Hinv) as (st2 & Hd2 & Hcl & Hm & Hinv2).
  unfold scatch in Hd. rewrite Hd2 in Hd. injection Hd as <- <-. st_inv. split; [by rewrite Hm|].
  cbn. rewrite Hcl. set_solver.
Qed.

Lemma register_miner_inv st a p u st' :
  power_inv st -> claims st !! a = None -> register_miner policy a p st = (Ok u, st') ->
  power_inv st' /\ claims st' = <[a := mkClaim p 0 0]> (claims st) /\
  miner_count st' = miner_count st + 1.
Proof.
  intros Hinv Ha H. unfold register_miner, update_stats_for_new_miner, st_set_claim in H. st_inv.
  assert (valid_proof p = true) as Hp by (destruct p; by res_inv).
  match goal with Hm : consensus_miner_min_power policy p = Ok _ |- _ =>
    rewrite min_power_ok in Hm by done; injection Hm as <- end.
  rewrite (proj2 (Z.gtb_gt _ 0)) in H by lia. cbn [negb] in H. st_inv. split_and!; [|done|done].
  assert (above (mkClaim p 0 0) = false) as Hab by (unfold above; cbn; lia).
  destruct Hinv as [Hcl Ht Hc Hpl Hm Hf Hq]. constructor; try done.
  - intros b x Hx. cbn in Hx. apply lookup_insert_Some in Hx as [[_ <-]|[_ Hx]]; [by constructor|by eapply Hcl].
  - apply totals_eq. apply totals_eq in Ht as (E1 & E2 & E3 & E4 & E5). cbn.
    rewrite !map_sum_insert_new by done. unfold consensus_raw, consensus_qa, consensus_one.
    rewrite Hab. cbn. split_and!; done.
  - cbn. rewrite map_size_insert_None by done. lia.
Qed.

Lemma append_cron_event_inv st e ev u st' :
  power_inv st -> 0 <= e -> append_cron_event e ev st = (Ok u, st') -> kept st st'.
Proof.
  intros [Hcl Ht Hc Hp Hm Hf Hq] He H. unfold append_cron_event in H. st_inv.
  split; [|done]. constructor; try done.
  - apply totals_eq. by apply totals_eq in Ht.
  - cbn. destruct (e <? _); lia.
  - cbn. intros k l Hl. destruct (Z.ltb_spec e (first_cron_epoch st));
      apply lookup_insert_Some in Hl as [[<- <-]|[_ Hl]]; try apply Hq in Hl as [? ?];
      (split; [lia|]); try done; by destruct (default _ _).
Qed.

Lemma close_epoch_inv st r st' :
  power_inv st -> close_epoch st = (Ok r, st') ->
  kept st st' /\ r = fst (st_current_total_power st) /\
  this_epoch_raw_byte_power st' = r /\
  this_epoch_quality_adj_power st' = snd (st_current_total_power st) /\
  this_epoch_pledge_collateral st' = total_pledge_collateral st.
Proof.
  intros [Hcl Ht Hc Hp Hm Hf Hq] H. unfold close_epoch in H.
  apply sbind_ok in H as (st0 & st1 & Hg & H). injection Hg as <- <-.
  destruct (st_current_total_power st) as [raw qa]. unfold update_smoothed_estimate in H. st_inv.
  split; [split; [|done]|done]. constructor; try done. apply totals_eq. by apply totals_eq in Ht.
Qed.
(** ** The cron queue *)

Definition claimed (cs : gmap Address Claim) (ev : CronEvent) : Prop :=
  is_Some (cs !! ce_miner_addr ev).
#[global] Instance claimed_dec cs ev : Decision (claimed cs ev).
Proof. unfold claimed. apply _. Defined.

(** The events due at an epoch, in the order of their epochs. *)
Definition due_at st (e : Z) : list CronEvent :=
  concat ((fun k => filter (claimed (claims st)) (load_cron_events (cron_event_queue st) k)) <$>
    seqZ (first_cron_epoch st) (e + 1 - first_cron_epoch st)).

Lemma take_fold cs es : forall queue acc,
  NoDup es -> (forall k l, queue !! k = Some l -> l <> []) ->
  exists queue', foldl (take_epoch cs) (queue, acc) es =
    (queue', acc ++ concat ((fun k => filter (claimed cs) (load_cron_events queue k)) <$> es)) /\
    forall k, queue' !! k = if bool_decide (k ∈ es) then None else queue !! k.
Proof.
  induction es as [|e es IH]; intros queue acc Hnd Hne.
  { exists queue. cbn. rewrite app_nil_r. split; [done|]. intros k.
    rewrite bool_decide_false; [done|]. apply not_elem_of_nil. }
  apply NoDup_cons in Hnd as [He Hnd]. cbn [foldl fmap list_fmap concat].
  assert (forall k, k ∈ es -> load_cron_events (delete e queue) k = load_cron_events queue k) as Hk.
  { intros k Hk. unfold load_cron_events. rewrite lookup_delete_ne; [done|]. by intros ->. }
  assert (take_epoch cs (queue, acc) e =
    (delete e queue, acc ++ filter (claimed cs) (load_cron_events queue e))) as ->.
  { unfold take_epoch. destruct (load_cron_events queue e) eqn:El; [|done].
    rewrite filter_nil, app_nil_r, delete_id; [done|]. unfold load_cron_events in El.
    destruct (queue !! e) eqn:Eq; [|done]. cbn in El. subst. by apply Hne in Eq. }
  destruct (IH (delete e queue) (acc ++ filter (claimed cs) (load_cron_events queue e)))
    as (queue' & -> & Hq).
  - done.
  - intros k l Hl. apply lookup_delete_Some in Hl as [_ Hl]. eauto.
  - exists queue'. split.
    + f_equal. rewrite <- app_assoc. f_equal. f_equal. f_equal. apply list_fmap_ext.
      intros i k Hi. by rewrite Hk by (by eapply list_elem_of_lookup_2).
    + intros k. rewrite Hq. destruct (decide (k = e)) as [->|Hke].
      * rewrite lookup_delete_eq, (bool_decide_true (_ ∈ e :: _)) by left. by case_bool_decide.
      * rewrite lookup_delete_ne by done. rewrite (bool_decide_ext _ (k ∈ e :: es)); [done|].
        rewrite elem_of_cons. naive_solver.
Qed.

Lemma take_cron_events_ok ctx st :
  power_inv st -> 0 <= ctx_epoch ctx < 2 ^ 63 - 1 ->
  exists st', take_cron_events ctx st = Ok (due_at st (ctx_epoch ctx), st') /\
    (forall k, cron_event_queue st' !! k =
       if k <=? ctx_epoch ctx then None else cron_event_queue st !! k) /\
    claims st' = claims st /\ power_inv st'.
Proof.
  intros [Hcl Ht Hc Hp Hm Hf Hq] He. unfold take_cron_events.
  destruct (take_fold (claims st)
    (seqZ (first_cron_epoch st) (ctx_epoch ctx + 1 - first_cron_epoch st)) (cron_event_queue st) [])
    as (queue' & -> & Hk).
  { apply NoDup_seqZ. }
  { intros k l Hl. apply Hq in Hl. tauto. }
  rewrite (proj2 (chk_i64_ok _ _)) by (split; [done|lia]). cbn. eexists. split; [done|].
  assert (forall k, queue' !! k = if k <=? ctx_epoch ctx then None else cron_event_queue st !! k) as Hk'.
  { intros k. rewrite Hk. case_bool_decide as Hin; rewrite elem_of_seqZ in Hin.
    - by rewrite (proj2 (Z.leb_le k (ctx_epoch ctx))) by lia.
    - destruct (Z.leb_spec k (ctx_epoch ctx)); [|done].
      destruct (cron_event_queue st !! k) eqn:Ek; [|done]. apply Hq in Ek. lia. }
  split_and!; [done|done|]. constructor; try done.
  - apply totals_eq. by apply totals_eq in Ht.
  - cbn. lia.
  - cbn. intros k l Hl. rewrite Hk' in Hl. destruct (Z.leb_spec k (ctx_epoch ctx)); [done|].
    apply Hq in Hl as [_ ?]. split; [lia|done].
Qed.

(** Every due event is found, and no other. *)
Lemma due_at_elem st e ev :
  power_inv st ->
  ev ∈ due_at st e <->
  claimed (claims st) ev /\ exists k l, cron_event_queue st !! k = Some l /\ k <= e /\ ev ∈ l.
Proof.
  intros Hinv. unfold due_at. rewrite list_elem_of_In, in_concat. setoid_rewrite <- list_elem_of_In.
  split.
  - intros (l & Hl & Hev). apply list_elem_of_fmap in Hl as (k & -> & Hk).
    apply list_elem_of_filter in Hev as [Hc Hev]. split; [done|].
    unfold load_cron_events in Hev. destruct (cron_event_queue st !! k) as [l|] eqn:Ek.
    + apply elem_of_seqZ in Hk. exists k, l. split_and!; [done|lia|done].
    + by apply not_elem_of_nil in Hev.
  - intros (Hc & k & l & Hk & Hle & Hev).
    exists (filter (claimed (claims st)) (load_cron_events (cron_event_queue st) k)). split.
    + apply list_elem_of_fmap. exists k. split; [done|]. apply elem_of_seqZ.
      apply (pi_cron _ Hinv) in Hk as [? _]. lia.
    + apply list_elem_of_filter. split; [done|]. unfold load_cron_events. by rewrite Hk.
Qed.
End accounting.
