(* ===== verification/PowerProps.v ===== *)
(** * The storage power actor: what the actor guarantees

    The accounting of power in every state the chain can bring the actor to,
    the delivery of deferred cron events, and a concrete run. *)

From S2P Require Import Prelude Runtime Chain Smooth Power PowerProofs.

Implicit Types (st : State) (x : Claim).

Section power.
Context {Net : Type} (ext : Ext) (policy : Policy).
Context (Hmin : 0 < minimum_consensus_power policy).

Notation World := (World Net State Params).
Notation Env := (Env Net State Params bytes).
Notation M := (M Net State Params bytes).
Implicit Types w : World.

(** The next identifier the init actor hands out. *)
Context (next_id : Net -> Z).

(** Every miner with a claim was created before. *)
Definition created_below (n : Z) st : Prop :=
  forall a x, claims st !! a = Some x -> exists i, a = AddrId i /\ i < n.

(** The init actor never hands out an identifier twice: the power actor has no
    claim for the miner that an [Exec] message just created. *)
Definition fresh_miners (env : Env) : Prop :=
  forall code p v net s b r data id robust st,
    let out := env_send env (mkSend INIT_ACTOR_ADDR 2 (PExec code p) v false) net s b in
    (forall st0, s = Some st0 -> created_below (next_id net) st0) ->
    so_result out = inl r -> is_success (resp_code r) = true -> resp_data r = Some data ->
    decode_exec_return ext data = Some (id, robust) -> so_state out = Some st ->
    claims st !! id = None /\ exists i, id = AddrId i /\ i < next_id (so_net out).

Definition bal w : Z := next_id (w_net w).

Definition good (c : Conf State) : Prop :=
  forall st, c_state c = Some st -> power_inv policy st /\ created_below (c_balance c) st.

Definition safe (c c' : Conf State) : Prop := good c -> good c'.

Section run.
Context (env : Env) (ctx : Ctx).
Notation e := (ctx_epoch ctx).
Context (Henv : fresh_miners env) (Hctx : ctx_ok ctx = true).
Context (Hsend : send_moves bal (fun _ _ => 0) safe env e).

Definition conf w : Conf State := mkConf e (w_state w) (bal w).
Definition keeps w w' : Prop := safe (conf w) (conf w').

#[local] Instance keeps_pre : WorldPre keeps.
Proof.
  constructor.
  - intros w w' Hs _ Hn. unfold keeps, conf, bal. unfold safe. by rewrite Hs, Hn.
  - unfold keeps, safe. eauto.
Qed.

Notation quiet := (quiet keeps).

Lemma keeps_send req : quiet (send env req).
Proof. intros w r w' H. pose proof (Hsend req w r w' H) as Hs. by rewrite Z.sub_0_r in Hs. Qed.

Lemma keeps_send_simple to m p v : quiet (send_simple env to m p v).
Proof. apply keeps_send. Qed.
#[local] Hint Resolve keeps_send keeps_send_simple : quiet.

(** A transaction that keeps the invariant and makes no new claims. *)
Lemma keeps_change w st st' :
  w_state w = Some st ->
  (power_inv policy st -> kept policy st st') ->
  keeps w (set_state st' w).
Proof.
  intros Hst Hf Hg x [= <-]. destruct (Hg st Hst) as [Hi Hb]. destruct (Hf Hi) as [Hi' Hc].
  split; [done|]. intros a y Hy%elem_of_dom_2%Hc. apply elem_of_dom in Hy as [z Hz]. eauto.
Qed.

Lemma keeps_transaction_st {A} (f : St State error A) :
  (forall st a st', power_inv policy st -> f st = (Ok a, st') -> kept policy st st') ->
  quiet (transaction_st f).
Proof.
  intros Hf w a w' (st & st' & Hst & H & ->)%transaction_st_ok.
  eapply keeps_change; [done|]. intros Hi. by eapply Hf.
Qed.

Lemma keeps_create_miner p : quiet (create_miner ext policy env ctx p).
Proof.
  intros w r w' H. unfold create_miner in H.
  apply bind_ok in H as (u & w1 & Hc & H). apply accept_any_ok in Hc as [_ ->].
  apply bind_ok in H as (res & w2 & Hs & H). pose proof (keeps_send_simple _ _ _ _ _ _ _ Hs) as Hk.
  apply send_ok in Hs. cbv zeta in Hs. destruct Hs as [-> ->].
  apply bind_ok in H as ([id robust] & w3 & Hl & H). apply lift_ok in Hl as [Hl ->].
  apply bind_ok in H as (u2 & w4 & Ht & H). apply ret_ok in H. simplify_eq.
  apply transaction_st_ok in Ht as (st & st' & Hst & Ht & ->). intros Hg.
  destruct (Hk Hg st Hst) as [Hi Hb].
  apply rbind_ok in Hl as (data & Hx & Hd). unfold extract_send_result in Hx.
  apply rbind_ok in Hd as (block & ->%ok_or_ok & Hd%ok_or_ok).
  destruct (so_result _) as [resp|] eqn:Hres; [|done].
  destruct (is_success (resp_code resp)) eqn:Hok; [|done]. injection Hx as Hx.
  edestruct (Henv _ _ _ _ _ _ _ _ _ _ _ ltac:(intros st0 Hst0; by apply Hg) Hres Hok Hx Hd Hst)
    as [Hn Hid].
  destruct (register_miner_inv policy Hmin _ _ _ _ _ Hi Hn Ht) as (Hi' & Hcl & _).
  intros x [= <-]. split; [done|]. intros a y Hy. rewrite Hcl in Hy.
  apply lookup_insert_Some in Hy as [[<- _]|[_ Hy]]; [done|by eapply Hb].
Qed.

Lemma keeps_update_claimed_power r q : quiet (update_claimed_power policy env ctx r q).
Proof.
  unfold update_claimed_power. apply quiet_bind; [apply _|quiet_tac|intros _].
  apply keeps_transaction_st. intros st a st' Hinv H. by eapply add_to_claim_inv.
Qed.

Lemma keeps_enroll_cron_event ep p : quiet (enroll_cron_event env ctx ep p).
Proof.
  unfold enroll_cron_event. apply quiet_bind; [apply _|quiet_tac|intros _].
  destruct (Z.ltb_spec ep 0); [quiet_tac|].
  apply keeps_transaction_st. intros st a st' Hinv Ha. by eapply append_cron_event_inv.
Qed.

Lemma keeps_update_pledge_total d : quiet (update_pledge_total env ctx d).
Proof.
  unfold update_pledge_total. apply quiet_bind; [apply _|quiet_tac|intros _].
  apply keeps_transaction_st. intros st a st' [Hcl Ht Hc Hp Hm Hf Hq] H.
  unfold add_pledge_total in H. st_inv. split; [|done]. constructor; try done.
  apply totals_eq. by apply totals_eq in Ht.
Qed.

Lemma keeps_take_cron_events : quiet (transaction (take_cron_events ctx)).
Proof.
  intros w a w' (st & st' & Hst & H & ->)%transaction_ok. eapply keeps_change; [done|]. intros Hg.
  assert (0 <= e < 2 ^ 63 - 1) as He.
  { unfold ctx_ok in Hctx. bool_prop. unfold take_cron_events in H.
    destruct (foldl _ _ _). res_inv. lia. }
  destruct (take_cron_events_ok policy ctx st Hg He) as (st1 & Ht & _ & Hcl & Hi).
  rewrite Ht in H. injection H as _ <-. split; [done|]. by rewrite Hcl.
Qed.

Lemma keeps_deliver r q l ev : quiet (deliver env r q l ev).
Proof. unfold deliver. quiet_tac. Qed.

Lemma keeps_remove_failed l : quiet (transaction_st (sfold (remove_failed policy) tt l)).
Proof.
  apply keeps_transaction_st. intros st a st' Hinv H.
  eapply (sfold_inv _ (fun _ s => kept policy st s)); [by split| |exact H].
  intros m acc s acc' s' _ [Hi Hd] Hr. eapply remove_failed_inv in Hr as [Hi' Hd']; [|done..].
  split; [done|]. set_solver.
Qed.

Lemma keeps_process_deferred r : quiet (process_deferred_cron_events policy env ctx r).
Proof.
  unfold process_deferred_cron_events. apply quiet_bind; [apply _|quiet_tac|intros st].
  apply quiet_bind; [apply _|apply keeps_take_cron_events|intros evs].
  apply quiet_bind; [apply _| |intros [|m l]; [quiet_tac|apply keeps_remove_failed]].
  apply quiet_mfold; [apply _|intros; apply keeps_deliver].
Qed.

Lemma keeps_tick : quiet (on_epoch_tick_end ext policy env ctx).
Proof.
  unfold on_epoch_tick_end. apply quiet_bind; [apply _|quiet_tac|intros _].
  apply quiet_bind; [apply _|quiet_tac|intros res].
  apply quiet_bind; [apply _|quiet_tac|intros rew].
  apply quiet_bind; [apply _|apply keeps_process_deferred|intros _].
  apply quiet_bind; [apply _| |intros p; quiet_tac].
  apply keeps_transaction_st. intros st a st' Hinv H. by eapply close_epoch_inv in H as [? _].
Qed.

Lemma keeps_constructor : quiet (constructor ctx).
Proof.
  intros w u w' H. unfold constructor in H. run_inv. intros _ st [= <-].
  split; [|intros a x Hx; cbn in Hx; by rewrite lookup_empty in Hx]. constructor; try done.
  all: cbn; intros; rewrite ?lookup_empty in *; try done.
Qed.

Lemma invoke_keeps m : quiet (invoke_method ext policy env ctx m).
Proof.
  unfold invoke_method. apply quiet_bind; [apply _| |intros _].
  { intros w u w' ->%restrict_state. by apply wp_same. }
  destruct (negb (decodes m)); [quiet_tac|].
  destruct m; first
    [ solve [unfold current_total_power, network_raw_power, miner_raw_power, get_miner_count,
        miner_consensus_count, miner_power; quiet_tac]
    | apply quiet_bind; [apply _| |intros ?; quiet_tac] ].
  - apply keeps_constructor.
  - apply keeps_create_miner.
  - apply keeps_update_claimed_power.
  - apply keeps_enroll_cron_event.
  - apply keeps_tick.
  - apply keeps_update_pledge_total.
Qed.
End run.

(** ** Runs of the actor *)

Definition run : Conf State -> Conf State -> Prop :=
  chain (invoke_method ext policy) bal (fun _ _ => 0) (fun _ _ => 0)
    (fun _ _ _ => True) fresh_miners deposited.

Lemma power_run_safe c c' : run c c' -> safe c c'.
Proof.
  apply chain_rel; unfold safe; [eauto..| |].
  - intros e s b v Hv Hg st Hst. unfold deposited in Hv. destruct (Hg st Hst) as [Hi Hb]. split; [done|].
    intros a x Hx. destruct (Hb a x Hx) as (i & -> & ?). exists i. cbn in *. split; [done|lia].
  - intros env ctx msg w r w' Henv Hsend Hctx _ H. rewrite Z.sub_0_r. by eapply invoke_keeps.
Qed.

(** The actor is in state [st] after any sequence of messages since it was
    created. *)
Definition deployed (e : Z) st : Prop :=
  exists e0 n0 n, run (mkConf e0 None n0) (mkConf e (Some st) n).

Lemma deployed_inv e st : deployed e st -> power_inv policy st.
Proof. intros (e0 & n0 & n & H). apply power_run_safe in H. by apply H. Qed.

(** C12: power is accounted for exactly.  In every state the chain can bring
    the actor to, no claim is negative; the committed totals are the sums over
    all claims; the totals used for consensus and the number of miners that
    count for it are the sums over exactly the claims of at least the minimum
    power; the pledge total is not negative; and no more miners are counted
    than have a claim. *)
Theorem power_accounting e st :
  deployed e st ->
  (forall a x, claims st !! a = Some x -> 0 <= raw_byte_power x /\ 0 <= quality_adj_power x) /\
  total_bytes_committed st = map_sum raw_byte_power (claims st) /\
  total_qa_bytes_committed st = map_sum quality_adj_power (claims st) /\
  total_raw_byte_power st = map_sum (consensus_raw policy) (claims st) /\
  total_quality_adj_power st = map_sum (consensus_qa policy) (claims st) /\
  miner_above_min_power_count st = map_sum (consensus_one policy) (claims st) /\
  total_raw_byte_power st <= total_bytes_committed st /\
  0 <= total_pledge_collateral st /\
  miner_count st <= Z.of_nat (size (claims st)).
Proof.
  intros [Hcl Ht Hc Hp Hm Hf Hq]%deployed_inv. apply totals_eq in Ht as (-> & -> & -> & -> & ->).
  split_and!; try done.
  - intros a x Hx. by apply Hcl in Hx as [? ? _].
  - apply map_sum_le. intros a x Hx. apply Hcl in Hx as [? _ _]. unfold consensus_raw.
    destruct (above policy x); lia.
Qed.

(** The message that delivers an event. *)
Definition callback (rew : ThisEpochRewardReturn) st (ev : CronEvent) : SendReq Params :=
  mkSend (ce_miner_addr ev) 12
    (PDeferredCron (ce_callback_payload ev) (this_epoch_reward_smoothed rew)
       (this_epoch_qa_power_smoothed st)) 0 false.

Lemma deliver_sent env r q evs : forall failed w failed' w',
  mfold (deliver env r q) failed evs w = Ok (failed', w') ->
  w_sent w' = w_sent w ++ ((fun ev => mkSend (ce_miner_addr ev) 12
    (PDeferredCron (ce_callback_payload ev) r q) 0 false) <$> evs).
Proof.
  induction evs as [|ev evs IH]; intros failed w failed' w' H; cbn [mfold] in H.
  - apply ret_ok in H. simplify_eq. by rewrite app_nil_r.
  - apply bind_ok in H as (l & w1 & Hd & H). apply IH in H. rewrite H. unfold deliver in Hd.
    apply bind_ok in Hd as (res & w2 & Hs & Hd). apply send_ok in Hs. cbv zeta in Hs.
    destruct Hs as [-> ->]. apply bind_ok in Hd as (c & w3 & Hca & Hd).
    apply caught_ok in Hca as [-> _]. assert (w_sent w1 = w_sent w ++ [mkSend (ce_miner_addr ev) 12
      (PDeferredCron (ce_callback_payload ev) r q) 0 false]) as ->.
    { destruct c; apply ret_ok in Hd; by simplify_eq. }
    by rewrite <- app_assoc.
Qed.

(** C29: every deferred event is delivered once.  When the end-of-epoch tick
    processes events in a state the chain can bring the actor to, it calls
    back, in the order of their epochs, exactly the events that are due and
    whose miner has a claim, one message per event, and the due events have
    left the queue before the first call; no due event can be missed, however
    far in the past it was enrolled. *)
Theorem power_cron_delivery env ctx rew w u w' e st :
  deployed e st -> w_state w = Some st -> 0 <= ctx_epoch ctx < 2 ^ 63 - 1 ->
  process_deferred_cron_events policy env ctx rew w = Ok (u, w') ->
  w_sent w' = w_sent w ++ (callback rew st <$> due_at st (ctx_epoch ctx)) /\
  (forall ev, ev ∈ due_at st (ctx_epoch ctx) <-> is_Some (claims st !! ce_miner_addr ev) /\
     exists k l, cron_event_queue st !! k = Some l /\ k <= ctx_epoch ctx /\ ev ∈ l) /\
  exists st1, take_cron_events ctx st = Ok (due_at st (ctx_epoch ctx), st1) /\
    forall k, cron_event_queue st1 !! k =
      if k <=? ctx_epoch ctx then None else cron_event_queue st !! k.
Proof.
  intros Hinv%deployed_inv Hw He H.
  destruct (take_cron_events_ok policy ctx st Hinv He) as (st1 & Ht & Hq & _ & _).
  split_and!; [|intros ev; by apply (due_at_elem policy)|eauto].
  unfold process_deferred_cron_events in H.
  apply bind_ok in H as (st0 & w0 & Hs & H). apply state_ok in Hs as [Hs ->].
  rewrite Hw in Hs. injection Hs as <-. apply bind_ok in H as (evs & w1 & Htr & H).
  apply transaction_ok in Htr as (s & s' & Hs & Htr & ->). rewrite Hw in Hs. injection Hs as <-.
  rewrite Ht in Htr. injection Htr as <- <-.
  apply bind_ok in H as (failed & w2 & Hd & H). apply deliver_sent in Hd.
  assert (w_sent w' = w_sent w2) as ->; [|done]. destruct failed.
  - apply ret_ok in H. by simplify_eq.
  - by apply transaction_st_ok in H as (? & ? & _ & _ & ->).
Qed.
End power.

(** ** The claim of one miner

    A miner's messages change its own claim, by what it reports, and no other. *)

Section one_claim.
Context {Net : Type} (ext : Ext) (policy : Policy).
Context (env : Env Net State Params bytes) (ctx : Ctx).

Lemma add_to_claim_claims m p q st u st' : add_to_claim policy m p q st = (Ok u, st') ->
  exists x, claims st !! m = Some x /\
    claims st' = <[m := mkClaim (window_post_proof_type x) (raw_byte_power x + p) (quality_adj_power x + q)]> (claims st).
Proof.
  intros H. unfold add_to_claim in H.
  apply sbind_ok in H as (st0 & s0 & Hg & H). injection Hg as <- <-.
  apply sbind_ok in H as (x & s0 & Hx & H). injection Hx as Hx <-. apply ok_or_ok in Hx. exists x. split; [done|].
  apply sbind_ok in H as (u1 & s0 & Hm & H). injection Hm as _ <-.
  apply sbind_ok in H as (mp & s0 & Hm & H). injection Hm as Hm <-.
  apply sbind_ok in H as (u2 & s1 & Hmid & H). apply sbind_ok in H as (s2 & s3 & Hg & H). injection Hg as <- <-.
  unfold st_set_claim in H. st_inv. cbn. f_equal.
  repeat match type of Hmid with context [if ?b then _ else _] => destruct b end; st_inv; done.
Qed.

(** The messages a miner sends. *)
Definition reports (m : Msg) : bool :=
  match m with EnrollCronEvent _ _ | UpdatePledgeTotal _ | CurrentTotalPower | OtherMethod _ => true | _ => false end.

Lemma report_keeps_claims m st b net r w : reports m = true ->
  trampoline (fun env => invoke_method ext policy env) env ctx m (Some st) b net = Committed r w ->
  exists st', w_state w = Some st' /\ claims st' = claims st.
Proof.
  intros Hm H. unfold trampoline in H. destruct (invoke_method _ _ _ _ _ _) as [[r0 w0]| |] eqn:E; [|done|done].
  destruct (w_validated w0); [|done]. injection H as <- <-.
  unfold invoke_method in E. apply bind_ok in E as (u & w1 & ->%restrict_state & E). destruct (negb _); [by run_inv|].
  destruct m; try done; apply bind_ok in E as (? & w2 & E & E') || idtac.
  - injection E' as <- <-. unfold enroll_cron_event in E. run_inv. apply transaction_st_ok in E as (s0 & s1 & Hs & Ht & ->).
    cbn in Hs. injection Hs as <-. exists s1. split; [done|]. unfold append_cron_event, smodify in Ht. by injection Ht as <-.
  - injection E' as <- <-. unfold update_pledge_total in E. run_inv.  apply transaction_st_ok in E as (s0 & s1 & Hs & Ht & ->).
    cbn in Hs. injection Hs as <-. exists s1. split; [done|]. apply sbind_ok in Ht as (? & ? & Hg & Ht). injection Hg as <- <-.
    apply sbind_ok in Ht as (? & ? & Hv & Ht). injection Hv as _ <-. apply sbind_ok in Ht as (? & ? & Hp & Ht).
    unfold add_pledge_total, smodify in Hp. injection Hp as _ <-. apply sbind_ok in Ht as (? & ? & Hg & Ht).
    injection Hg as <- <-. by destruct (_ <? 0); [discriminate|injection Ht as <-].
  - run_inv. by exists st.
Qed.

Lemma update_adds_claim p q st b net r w :
  trampoline (fun env => invoke_method ext policy env) env ctx (UpdateClaimedPower p q) (Some st) b net = Committed r w ->
  exists st' x, w_state w = Some st' /\ claims st !! caller ctx = Some x /\
    claims st' = <[caller ctx := mkClaim (window_post_proof_type x) (raw_byte_power x + p) (quality_adj_power x + q)]> (claims st).
Proof.
  intros H. unfold trampoline in H. destruct (invoke_method _ _ _ _ _ _) as [[r0 w0]| |] eqn:E; [|done|done].
  destruct (w_validated w0); [|done]. injection H as <- <-.
  unfold invoke_method in E. apply bind_ok in E as (u & w1 & ->%restrict_state & E).
  apply bind_ok in E as (? & w2 & E & [= <- <-]). unfold update_claimed_power in E. run_inv.
  apply transaction_st_ok in E as (s0 & s1 & Hs & Ht & ->). cbn in Hs. injection Hs as <-.
  apply add_to_claim_claims in Ht as (x & ? & ?). by exists s1, x.
Qed.
End one_claim.
