(* ===== verification/PowerDemo.v ===== *)
(** * The storage power actor: a concrete run

    Two miners claim power and enroll cron events; the callbacks of one of
    them fail.  The run instantiates the hypotheses of the theorems of
    PowerProps.v. *)

From S2P Require Import Prelude Runtime Chain Smooth Power PowerProofs PowerProps.

Module PowerDemo.

Definition ext : Ext :=
  mkExt (fun s => 16777216 + Z.of_nat (String.length s)) 401
    (fun b => match b with [i] => Some (AddrId i, AddrId i) | _ => None end)
    (fun _ => Some (mkEpochReward (estimate_new 0 0) 0)).

(** The network is the next identifier of the init actor; the callbacks of
    miner 201 fail. *)
Definition next_id (net : Z) : Z := net.

Definition env : Env Z State Params bytes :=
  mkEnv (fun _ a => addr_id a) (fun _ i => Some i)
    (fun c => Some (if c =? 0 then TSystem else if c =? 3 then TCron
                    else if 200 <=? c then TMiner else TAccount))
    (fun b => b)
    (fun req net s bal =>
       match send_params req with
       | PExec _ _ => mkSendOut (inl (mkResp EC_OK (Some [net]))) s bal (net + 1)
       | PDeferredCron _ _ _ =>
           if addr_eqb (to_addr req) (AddrId 201)
           then mkSendOut (inl (mkResp USR_ILLEGAL_STATE None)) s bal net
           else mkSendOut (inl (mkResp EC_OK None)) s bal net
       | _ => mkSendOut (inl (mkResp EC_OK (Some []))) s bal net
       end).

Definition ctx (from epoch : Z) : Ctx := mkCtx from from 4 0 epoch.

Lemma power_env_holds : fresh_miners ext next_id env.
Proof.
  intros code p v net s b r data id robust st out Hs. subst out. cbn. intros [= <-] _ [= <-] [= <- <-] [= ->].
  split; [|exists net; split; [done|unfold next_id; lia]].
  destruct (claims st !! AddrId net) eqn:E; [|done].
  destruct (Hs st eq_refl _ _ E) as (i & [= <-] & Hi). unfold next_id in Hi. lia.
Qed.

(** Runs a message; an aborted one changes nothing. *)
Definition step (epoch from : Z) (m : Msg) (c : Conf State) : Conf State :=
  match trampoline (invoke_method ext default_policy) env (ctx from epoch) m (c_state c) 0
          (c_balance c) with
  | Committed _ w => if w_deleted w then c else mkConf epoch (w_state w) (w_net w)
  | Aborted _ => c
  end.

Notation run := (run ext default_policy next_id).

Lemma power_run_step c0 epoch from m c c' :
  run c0 c -> c' = step epoch from m c -> c_epoch c <= epoch ->
  ctx_ok (ctx from epoch) = true -> run c0 c'.
Proof.
  intros Hc -> He Hctx. unfold step.
  destruct (trampoline _ _ _ _ _ _ _) as [r w|] eqn:Hrun; [|done].
  destruct (w_deleted w) eqn:Hdel; [done|]. eapply chain_trans; [exact Hc|].
  destruct c as [e s b]. cbn in *. eapply chain_tick; [exact He|].
  eapply (chain_msg _ _ _ _ _ _ _ env (ctx from epoch));
    [apply power_env_holds| |done|done|done| |exact Hrun|done|apply chain_refl];
    [|unfold bal, next_id; cbn; lia].
  intros req w1 r1 w2 H. run_inv. unfold bal, next_id, env. rewrite Z.sub_0_r.
  cbn. destruct (send_params req); cbn; [apply chain_refl| |destruct (addr_eqb _ _); apply chain_refl
    |apply chain_refl].
  eapply (chain_deposit _ _ _ _ _ _ _ _ _ _ 1); [done|apply chain_refl].
Qed.

Definition new_miner : Msg :=
  CreateMiner false (mkCreateMiner (AddrId 90) (AddrId 91) StackedDRGWindow32GiBV1P1 [] []).
Definition TiB : Z := 2 ^ 40.

Definition script : list (Z * Z * Msg) :=
  [(0, 0, Constructor); (1, 90, new_miner); (1, 90, new_miner);
   (2, 200, UpdateClaimedPower (12 * TiB) (12 * TiB));
   (2, 201, UpdateClaimedPower (4 * TiB) (40 * TiB));
   (3, 201, EnrollCronEvent 5 [1]); (3, 200, EnrollCronEvent 5 [2]);
   (3, 201, EnrollCronEvent 6 [3]); (3, 201, UpdatePledgeTotal 7)].

Definition genesis : Conf State := mkConf 0 None 200.
Definition play (l : list (Z * Z * Msg)) (c : Conf State) : Conf State :=
  foldl (fun c '(epoch, from, m) => step epoch from m c) c l.

(** A script with epochs that do not decrease is a run. *)
Fixpoint timed (e : Z) (l : list (Z * Z * Msg)) : bool :=
  match l with
  | [] => true
  | (epoch, from, _) :: l => (e <=? epoch) && ctx_ok (ctx from epoch) && timed epoch l
  end.

Lemma step_epoch epoch from m c : c_epoch c <= epoch -> c_epoch (step epoch from m c) <= epoch.
Proof. intros H. unfold step. by repeat case_match. Qed.

Lemma play_run l : forall c0 c e, run c0 c -> c_epoch c <= e -> timed e l = true -> run c0 (play l c).
Proof.
  induction l as [|[[epoch from] m] l IH]; intros c0 c e Hc He Ht; [done|].
  cbn in Ht. bool_prop. cbn. eapply (IH _ _ epoch); [|apply step_epoch; lia|done].
  eapply power_run_step; [exact Hc|done|lia|done].
Qed.

Definition enrolled : Conf State := Eval vm_compute in play script genesis.
Definition ticked : Conf State := Eval vm_compute in step 6 3 OnEpochTickEnd enrolled.

Lemma enrolled_run : run genesis enrolled.
Proof.
  replace enrolled with (play script genesis) by (vm_compute; reflexivity).
  apply (play_run _ _ _ 0); [apply chain_refl|done|done].
Qed.

Lemma ticked_run : run genesis ticked.
Proof.
  apply (power_run_step _ 6 3 OnEpochTickEnd enrolled);
    [apply enrolled_run|vm_compute; reflexivity|vm_compute; discriminate|done].
Qed.

Definition st_of (c : Conf State) : State := default new_state (c_state c).
Notation deployed := (deployed ext default_policy next_id).

Lemma enrolled_deployed : deployed 3 (st_of enrolled).
Proof. exists 0, 200, (c_balance enrolled). exact enrolled_run. Qed.

Lemma ticked_deployed : deployed 6 (st_of ticked).
Proof. exists 0, 200, (c_balance ticked). exact ticked_run. Qed.
End PowerDemo.

(** The number of miners is not the number of miners with a claim.  In
    this run two callbacks of the same miner fail in one tick; its claim is
    deleted once, but the miner is subtracted from the count twice. *)
Theorem power_miner_count_drift : exists e st,
  deployed PowerDemo.ext default_policy PowerDemo.next_id e st /\
  size (claims st) = 1%nat /\ miner_count st = 0.
Proof.
  exists 6, (PowerDemo.st_of PowerDemo.ticked). split; [apply PowerDemo.ticked_deployed|].
  vm_compute. done.
Qed.

Lemma power_accounting_witness :
  total_raw_byte_power (PowerDemo.st_of PowerDemo.enrolled) =
  map_sum (consensus_raw default_policy) (claims (PowerDemo.st_of PowerDemo.enrolled)).
Proof.
  destruct (power_accounting PowerDemo.ext default_policy ltac:(done) _ _ _
    PowerDemo.enrolled_deployed) as (_ & _ & _ & H & _). exact H.
Defined.

Lemma power_cron_delivery_witness :
  exists w', process_deferred_cron_events default_policy PowerDemo.env (PowerDemo.ctx 3 6)
      (mkEpochReward (estimate_new 0 0) 0)
      (mkWorld (Some (PowerDemo.st_of PowerDemo.enrolled)) 0 202 false false []) = Ok (tt, w') /\
    to_addr <$> w_sent w' = [AddrId 201; AddrId 200; AddrId 201].
Proof.
  eexists. split; [vm_compute; reflexivity|].
  edestruct (power_cron_delivery PowerDemo.ext default_policy ltac:(done) PowerDemo.next_id
    PowerDemo.env (PowerDemo.ctx 3 6) (mkEpochReward (estimate_new 0 0) 0)
    (mkWorld (Some (PowerDemo.st_of PowerDemo.enrolled)) 0 202 false false []) tt) as (H & _);
    [apply PowerDemo.enrolled_deployed|done|done|vm_compute; reflexivity|].
  rewrite H. vm_compute. reflexivity.
Defined.
