(* ===== verification/Reward.v ===== *)
(** * The reward actor

    Models src/actors/reward/src/{lib,state,logic,expneg,types}.rs: the
    minting schedule of block rewards, their payment, and the vesting helper.
    Numbers in Q.128 format are integers; [>>] on a big integer rounds down. *)

From S2P Require Import Prelude Runtime Smooth.

Notation error := (ActorError (list Z)).

Module Reward.

(** ** Schedule (logic.rs, expneg.rs) *)

Definition BASELINE_EXPONENT : Z := 340282591298641078465964189926313473653.
Definition BASELINE_INITIAL_VALUE : Z := 2888888880000000000.
Definition INIT_BASELINE_POWER : Z :=
  Z.shiftr (Z.quot (Z.shiftl BASELINE_INITIAL_VALUE (2 * PRECISION)) BASELINE_EXPONENT) PRECISION.
Definition TOKEN_PRECISION : Z := 10 ^ 18.
Definition SIMPLE_TOTAL : Z := 330000000 * TOKEN_PRECISION.
Definition BASELINE_TOTAL : Z := 770000000 * TOKEN_PRECISION.
Definition EXP_LAM_SUB_ONE : Z := 37396273494747879394193016954629.
Definition LAMBDA : Z := 37396271439864487274534522888786.

Definition EXP_NUM_COEF : list Z :=
  [-648770010757830093818553637600; 67469480939593786226847644286976;
   -3197587544499098424029388939001856; 89244641121992890118377641805348864;
   -1579656163641440567800982336819953664; 17685496037279256458459817590917169152;
   -115682590513835356866803355398940131328; 340282366920938463463374607431768211456].
Definition EXP_DENO_COEF : list Z :=
  [1225524182432722209606361; 114095592300906098243859450; 5665570424063336070530214243;
   194450132448609991765137938448; 5068267641632683791026134915072;
   104716890604972796896895427629056; 1748338658439454459487681798864896;
   23704654329841312470660182937960448; 259380097567996910282699886670381056;
   2250336698853390384720606936038375424; 14978272436876548034486263159246028800;
   72144088983913131323343765784380833792; 224599776407103106596571252037123047424;
   340282366920938463463374607431768211456].

(** [Integer::div_floor]; a zero divisor panics. *)
Definition div_floor {E} (a b : Z) : Res E Z := if b =? 0 then Panic else Ok (a / b).

Definition expneg {E} (x : Z) : Res E Z :=
  let num := poly_val EXP_NUM_COEF x in
  let deno := poly_val EXP_DENO_COEF x in
  div_floor (Z.shiftl num PRECISION) deno.

Definition baseline_power_from_prev (prev_power : Z) : Z :=
  Z.shiftr (prev_power * BASELINE_EXPONENT) PRECISION.

Definition compute_r_theta {E} (effective_network_time : Z)
    (baseline_power_at_effective_network_time cumsum_realized cumsum_baseline : Z) : Res E Z :=
  if negb (effective_network_time =? 0) then
    let reward_theta := Z.shiftl effective_network_time PRECISION in
    let! diff := div_floor (Z.shiftl (cumsum_baseline - cumsum_realized) PRECISION)
                   baseline_power_at_effective_network_time in
    Ok (reward_theta - diff)
  else Ok 0.

Definition compute_baseline_supply {E} (theta baseline_total : Z) : Res E Z :=
  let theta_lam := Z.shiftr (theta * LAMBDA) PRECISION in
  let! etl := expneg theta_lam in
  let one := Z.shiftl 1 PRECISION in
  let one_sub := one - etl in
  Ok (one_sub * baseline_total).

Definition compute_reward {E} (epoch prev_theta curr_theta simple_total baseline_total : Z)
  : Res E Z :=
  let simple_reward := simple_total * EXP_LAM_SUB_ONE in
  let epoch_lam := LAMBDA * epoch in
  let! e := expneg epoch_lam in
  let simple_reward := Z.shiftr (simple_reward * e) PRECISION in
  let! curr := compute_baseline_supply curr_theta baseline_total in
  let! prev := compute_baseline_supply prev_theta baseline_total in
  let baseline_reward := curr - prev in
  Ok (Z.shiftr (simple_reward + baseline_reward) PRECISION).

(** ** State (state.rs) *)

Record State : Type := mkState {
  cumsum_baseline : Z;
  cumsum_realized : Z;
  effective_network_time : Z;
  effective_baseline_power : Z;
  this_epoch_reward : Z;
  this_epoch_reward_smoothed : FilterEstimate;
  this_epoch_baseline_power : Z;
  epoch : Z;
  total_storage_power_reward : Z;
  simple_total : Z;
  baseline_total : Z;
}.

Definition set_baseline (cb t p : Z) (s : State) : State :=
  mkState cb (cumsum_realized s) t p (this_epoch_reward s) (this_epoch_reward_smoothed s)
    (this_epoch_baseline_power s) (epoch s) (total_storage_power_reward s) (simple_total s)
    (baseline_total s).
Definition set_realized (e p cr : Z) (s : State) : State :=
  mkState (cumsum_baseline s) cr (effective_network_time s) (effective_baseline_power s)
    (this_epoch_reward s) (this_epoch_reward_smoothed s) p e (total_storage_power_reward s)
    (simple_total s) (baseline_total s).
Definition set_reward (r : Z) (s : State) : State :=
  mkState (cumsum_baseline s) (cumsum_realized s) (effective_network_time s)
    (effective_baseline_power s) r (this_epoch_reward_smoothed s) (this_epoch_baseline_power s)
    (epoch s) (total_storage_power_reward s) (simple_total s) (baseline_total s).
Definition set_smoothed (f : FilterEstimate) (s : State) : State :=
  mkState (cumsum_baseline s) (cumsum_realized s) (effective_network_time s)
    (effective_baseline_power s) (this_epoch_reward s) f (this_epoch_baseline_power s)
    (epoch s) (total_storage_power_reward s) (simple_total s) (baseline_total s).
Definition set_total_reward (t : Z) (s : State) : State :=
  mkState (cumsum_baseline s) (cumsum_realized s) (effective_network_time s)
    (effective_baseline_power s) (this_epoch_reward s) (this_epoch_reward_smoothed s)
    (this_epoch_baseline_power s) (epoch s) t (simple_total s) (baseline_total s).

Definition INITIAL_REWARD_POSITION_ESTIMATE : Z := 36266260308195979333.
Definition INITIAL_REWARD_VELOCITY_ESTIMATE : Z := -109897758509.

(** The loop of [update_to_next_epoch].  Without enough fuel it is a panic: a
    loop that does not end is aborted when the gas is spent. *)
Fixpoint catch_up {E} (fuel : nat) (s : State) : Res E State :=
  if cumsum_realized s >? cumsum_baseline s then
    match fuel with
    | O => Panic
    | S fuel =>
        let! t := chk_i64 (effective_network_time s + 1) in
        let p := baseline_power_from_prev (effective_baseline_power s) in
        catch_up fuel (set_baseline (cumsum_baseline s + p) t p s)
    end
  else Ok s.

(** As the baseline power does not shrink, this many iterations suffice. *)
Definition catch_up_fuel (s : State) : nat :=
  Z.to_nat ((cumsum_realized s - cumsum_baseline s) / effective_baseline_power s + 1).

Definition update_to_next_epoch {E} (curr_realized_power : Z) (s : State) : Res E State :=
  let! e := chk_i64 (epoch s + 1) in
  let p := baseline_power_from_prev (this_epoch_baseline_power s) in
  let capped_realized_power := Z.min p curr_realized_power in
  let s := set_realized e p (cumsum_realized s + capped_realized_power) s in
  catch_up (catch_up_fuel s) s.

Definition theta {E} (s : State) : Res E Z :=
  compute_r_theta (effective_network_time s) (effective_baseline_power s) (cumsum_realized s)
    (cumsum_baseline s).

Definition update_to_next_epoch_with_reward {E} (curr_realized_power : Z) (s : State)
  : Res E State :=
  let! prev_reward_theta := theta s in
  let! s := update_to_next_epoch curr_realized_power s in
  let! curr_reward_theta := theta s in
  let! r := compute_reward (epoch s) prev_reward_theta curr_reward_theta (simple_total s)
              (baseline_total s) in
  Ok (set_reward r s).

Definition update_smoothed_estimates {E} (delta : Z) (s : State) : Res E State :=
  let filter_reward := load DEFAULT_ALPHA DEFAULT_BETA (this_epoch_reward_smoothed s) in
  let! f := next_estimate filter_reward (this_epoch_reward s) delta in
  Ok (set_smoothed f s).

Definition EPOCH_UNDEFINED : Z := -1.

Definition new_state {E} (curr_realized_power : Z) : Res E State :=
  update_to_next_epoch_with_reward curr_realized_power
    (mkState 0 0 0 BASELINE_INITIAL_VALUE 0
       (estimate_new INITIAL_REWARD_POSITION_ESTIMATE INITIAL_REWARD_VELOCITY_ESTIMATE)
       INIT_BASELINE_POWER EPOCH_UNDEFINED 0 SIMPLE_TOTAL BASELINE_TOTAL).

(** The vesting helper. *)
Inductive VestingFunction : Type := VNone | VLinear.

Record Vesting : Type := mkVesting {
  vesting_function : VestingFunction;
  v_start_epoch : Z;
  v_end_epoch : Z;
  v_value : Z;
  amount_withdrawn : Z;
}.

(** [elapsed as u64] wraps. *)
Definition amount_vested {E} (r : Vesting) (curr_epoch : Z) : Res E Z :=
  match vesting_function r with
  | VNone => Ok (v_value r)
  | VLinear =>
      let! elapsed := chk_i64 (curr_epoch - v_start_epoch r) in
      let! vest_duration := chk_i64 (v_end_epoch r - v_start_epoch r) in
      if elapsed >=? vest_duration then Ok (v_value r)
      else div_floor (v_value r * (elapsed mod 2 ^ 64)) vest_duration
  end.

(** ** Methods (lib.rs) *)

Definition PENALTY_MULTIPLIER : Z := 3.
Definition EXPECTED_LEADERS_PER_EPOCH : Z := 5.
Definition APPLY_REWARDS_METHOD : Z := 14.

Record AwardBlockRewardParams : Type := mkAward {
  aw_miner : Address;
  aw_penalty : Z;
  aw_gas_reward : Z;
  aw_win_count : Z;
}.

(** The parameters of the messages the actor sends. *)
Inductive Param : Type :=
| PNone
| PApplyReward (reward penalty : Z).

Inductive Msg : Type :=
| Constructor (power : option Z)
| AwardBlockReward (p : AwardBlockRewardParams)
| ThisEpochReward
| UpdateNetworkKPI (curr_realized_power : option Z)
| OtherMethod (n : Z).

Inductive Ret : Type :=
| RUnit
| RThisEpochReward (smoothed : FilterEstimate) (baseline_power : Z).

Section methods.
Context {Net : Type} (env : Env Net State Param (list Z)) (ctx : Ctx).

Notation M := (M Net State Param (list Z)).

Definition constructor (power : option Z) : M unit :=
  let* _ := validate_immediate_caller_is ctx [SYSTEM_ACTOR_ADDR] in
  match power with
  | Some power => let* s := lift (new_state power) in create s
  | None => throw USR_ILLEGAL_ARGUMENT
  end.

(** The transaction of [award_block_reward]. *)
Definition book_reward (p : AwardBlockRewardParams) (curr_balance : Z) (st : State)
  : Res error (Z * State) :=
  let block_reward := this_epoch_reward st * aw_win_count p / EXPECTED_LEADERS_PER_EPOCH in
  let total_reward := aw_gas_reward p + block_reward in
  if total_reward >? curr_balance then
    let total_reward := curr_balance in
    let block_reward := total_reward - aw_gas_reward p in
    if block_reward <? 0 then Err (err USR_ILLEGAL_STATE)
    else Ok (total_reward, set_total_reward (total_storage_power_reward st + block_reward) st)
  else Ok (total_reward, set_total_reward (total_storage_power_reward st + block_reward) st).

Definition award_block_reward (p : AwardBlockRewardParams) : M unit :=
  let* _ := validate_immediate_caller_is ctx [SYSTEM_ACTOR_ADDR] in
  let* prior_balance := current_balance in
  if aw_penalty p <? 0 then throw USR_ILLEGAL_ARGUMENT
  else if aw_gas_reward p <? 0 then throw USR_ILLEGAL_ARGUMENT
  else if prior_balance <? aw_gas_reward p then throw USR_ILLEGAL_STATE
  else if aw_win_count p <=? 0 then throw USR_ILLEGAL_ARGUMENT
  else
    let* miner_id := resolve_address env (aw_miner p) in
    let* miner_id := lift (ok_or miner_id (err USR_NOT_FOUND)) in
    let penalty := aw_penalty p * PENALTY_MULTIPLIER in
    let* curr_balance := current_balance in
    let* total_reward := transaction (book_reward p curr_balance) in
    if total_reward >? prior_balance then throw USR_ILLEGAL_STATE
    else
      let* res := send_simple env (AddrId miner_id) APPLY_REWARDS_METHOD
                    (PApplyReward total_reward penalty) total_reward in
      match extract_send_result res with
      | Ok _ => ret tt
      | _ =>
          let* _ := send_simple env BURNT_FUNDS_ACTOR_ADDR METHOD_SEND PNone total_reward in
          ret tt
      end.

Definition get_this_epoch_reward : M Ret :=
  let* _ := validate_immediate_caller_accept_any in
  let* st := state in
  ret (RThisEpochReward (this_epoch_reward_smoothed st) (this_epoch_baseline_power st)).

(** The null rounds since the last update. *)
Fixpoint null_rounds {E} (n : nat) (power : Z) (s : State) : Res E State :=
  match n with
  | O => Ok s
  | S n => let! s := update_to_next_epoch power s in null_rounds n power s
  end.

Definition update_kpi (curr_realized_power curr_epoch : Z) (st : State) : Res error (unit * State) :=
  let prev := epoch st in
  let! st := null_rounds (Z.to_nat (curr_epoch - epoch st)) curr_realized_power st in
  let! st := update_to_next_epoch_with_reward curr_realized_power st in
  let! delta := chk_i64 (epoch st - prev) in
  let! st := update_smoothed_estimates delta st in
  Ok (tt, st).

Definition update_network_kpi (curr_realized_power : option Z) : M unit :=
  let* _ := validate_immediate_caller_is ctx [STORAGE_POWER_ACTOR_ADDR] in
  let* power := lift (ok_or curr_realized_power (err USR_ILLEGAL_ARGUMENT)) in
  transaction (update_kpi power (ctx_epoch ctx)).

Definition method_num (m : Msg) : Z :=
  match m with
  | Constructor _ => 1
  | AwardBlockReward _ => 2
  | ThisEpochReward => 3
  | UpdateNetworkKPI _ => 4
  | OtherMethod n => n
  end.

Definition invoke_method (m : Msg) : M Ret :=
  let* _ := restrict_internal_api env ctx (method_num m) in
  match m with
  | Constructor p => let* _ := constructor p in ret RUnit
  | AwardBlockReward p =>
      if negb (in_i64 (aw_win_count p)) then throw USR_SERIALIZATION
      else let* _ := award_block_reward p in ret RUnit
  | ThisEpochReward => get_this_epoch_reward
  | UpdateNetworkKPI p => let* _ := update_network_kpi p in ret RUnit
  | OtherMethod _ => throw USR_UNHANDLED_MESSAGE
  end.
End methods.
End Reward.
