(* ===== verification/RewardProps.v ===== *)
(** * Properties of the reward actor

    Effective network time follows the realized power: the loop that advances
    it terminates, it never runs ahead of the chain, and the interpolated time
    from which rewards are computed stays within its last epoch.  A block
    reward is paid exactly once or burnt. *)

From S2P Require Import Prelude Runtime Chain Smooth Reward.
Import Reward.

(** ** The baseline *)

(** Baseline power and its sum at an effective time. *)
Definition baseline_at (n : nat) : Z := Nat.iter n baseline_power_from_prev BASELINE_INITIAL_VALUE.
Fixpoint cum_baseline (n : nat) : Z :=
  match n with O => 0 | S n => cum_baseline n + baseline_at (S n) end.
(** The baseline the network targets, from the epoch before the first on. *)
Definition target_at (n : nat) : Z := Nat.iter n baseline_power_from_prev INIT_BASELINE_POWER.

Lemma from_prev_spec x : baseline_power_from_prev x = x * BASELINE_EXPONENT / 2 ^ 128.
Proof. unfold baseline_power_from_prev, PRECISION. by rewrite Z.shiftr_div_pow2 by lia. Qed.

Lemma from_prev_mono x y : x <= y -> baseline_power_from_prev x <= baseline_power_from_prev y.
Proof.
  intros H. rewrite !from_prev_spec. apply Z.div_le_mono; [lia|]. unfold BASELINE_EXPONENT. lia.
Qed.

Lemma from_prev_grows x : 0 <= x -> x <= baseline_power_from_prev x.
Proof.
  intros H. rewrite from_prev_spec. apply Z.div_le_lower_bound; [lia|].
  unfold BASELINE_EXPONENT. change (2 ^ 128) with 340282366920938463463374607431768211456. lia.
Qed.

Lemma baseline_S n : baseline_at (S n) = baseline_power_from_prev (baseline_at n).
Proof. reflexivity. Qed.

Lemma target_S n : target_at (S n) = baseline_power_from_prev (target_at n).
Proof. reflexivity. Qed.

Lemma baseline_pos n : BASELINE_INITIAL_VALUE <= baseline_at n.
Proof.
  induction n as [|n IH]; [done|]. rewrite baseline_S.
  etrans; [exact IH|]. apply from_prev_grows. unfold BASELINE_INITIAL_VALUE in *. lia.
Qed.

Lemma baseline_step n : baseline_at n <= baseline_at (S n).
Proof.
  pose proof (baseline_pos n). rewrite baseline_S. apply from_prev_grows. unfold BASELINE_INITIAL_VALUE in *. lia.
Qed.

Lemma target_le n : target_at (S n) <= baseline_at n.
Proof.
  induction n as [|n IH]; [vm_compute; discriminate|].
  rewrite target_S, baseline_S. by apply from_prev_mono.
Qed.

Lemma cum_mono n m : (n <= m)%nat -> cum_baseline n <= cum_baseline m.
Proof.
  induction 1 as [|m _ IH]; [done|]. cbn [cum_baseline]. pose proof (baseline_pos (S m)).
  unfold BASELINE_INITIAL_VALUE in *. lia.
Qed.

(** ** The invariant *)

(** A state at the end of epoch [k - 1], before or after the effective time
    caught up with the realized power. *)
Record follows (t k : nat) (s : State) : Prop := {
  fo_time : effective_network_time s = Z.of_nat t;
  fo_power : effective_baseline_power s = baseline_at t;
  fo_cum : cumsum_baseline s = cum_baseline t;
  fo_epoch : epoch s + 1 = Z.of_nat k;
  fo_target : this_epoch_baseline_power s = target_at k;
  fo_le : (t <= k)%nat;
  fo_realized : cumsum_realized s <= cum_baseline k;
  fo_above : cumsum_baseline s - effective_baseline_power s < cumsum_realized s;
}.

Definition schedule_ok (s : State) : Prop :=
  (exists t k, follows t k s) /\ 0 <= epoch s /\ cumsum_realized s <= cumsum_baseline s.

Lemma catch_up_ok {E} fuel : forall t k s, follows t k s -> epoch s < I64_MAX ->
  cumsum_realized s - cumsum_baseline s <= Z.of_nat fuel * effective_baseline_power s ->
  exists t' s', @catch_up E fuel s = Ok s' /\ follows t' k s' /\
    cumsum_realized s' <= cumsum_baseline s' /\ cumsum_realized s' = cumsum_realized s /\
    epoch s' = epoch s.
Proof.
  induction fuel as [|fuel IH]; intros t k s Hf He Hb; cbn [catch_up];
    destruct (cumsum_realized s >? cumsum_baseline s) eqn:E'; bool_prop; try lia.
  1, 3: exists t, s; repeat apply conj; try done; lia.
  destruct Hf as [Ht Hp Hc Hk Hta Hle Hr Ha].
  assert (t < k)%nat as Hlt.
  { destruct (decide (t = k)) as [->|]; [lia|lia]. }
  assert (@chk_i64 E (effective_network_time s + 1) = Ok (Z.of_nat (S t))) as ->.
  { apply chk_i64_ok. unfold I64_MAX in He. split; [|lia]. lia. }
  cbn [rbind]. pose proof (baseline_step t) as Hst. pose proof (baseline_pos t) as Hpos.
  rewrite Hp. change (baseline_power_from_prev (baseline_at t)) with (baseline_at (S t)).
  set (s1 := set_baseline _ _ _ s).
  assert (follows (S t) k s1) as Hf1.
  { split; cbn; try done; rewrite ?Hc; lia. }
  destruct (IH (S t) k s1 Hf1) as (t' & s' & H1 & H2 & H3 & H4 & H5); [done| |].
  - cbn [s1 set_baseline cumsum_realized cumsum_baseline effective_baseline_power].
    assert (Z.of_nat fuel * baseline_at t <= Z.of_nat fuel * baseline_at (S t))
      by (apply Z.mul_le_mono_nonneg_l; lia).
    rewrite Nat2Z.inj_succ, Hp in Hb. lia.
  - exists t', s'. rewrite H1. done.
Qed.

(** The fuel suffices. *)
Lemma fuel_enough s : 0 < effective_baseline_power s ->
  cumsum_realized s - cumsum_baseline s <= Z.of_nat (catch_up_fuel s) * effective_baseline_power s.
Proof.
  intros Hp. unfold catch_up_fuel. set (d := cumsum_realized s - cumsum_baseline s).
  pose proof (Z.div_mod d (effective_baseline_power s) ltac:(lia)) as Hd.
  pose proof (Z.mod_pos_bound d (effective_baseline_power s) Hp).
  destruct (Z.le_gt_cases 0 d) as [H0|H0].
  - pose proof (Z.div_pos d (effective_baseline_power s) H0 Hp). rewrite Z2Nat.id by lia. nia.
  - lia.
Qed.

(** One epoch of the schedule, from a state that has caught up. *)
Lemma next_epoch_ok {E} t k s power : follows t k s -> cumsum_realized s <= cumsum_baseline s ->
  epoch s + 1 < I64_MAX -> 0 <= power ->
  exists t' s', @update_to_next_epoch E power s = Ok s' /\ follows t' (S k) s' /\
    cumsum_realized s' <= cumsum_baseline s' /\ epoch s' = epoch s + 1.
Proof.
  intros [Ht Hp Hc Hk Hta Hle Hr Ha] Hcu He Hpow. unfold update_to_next_epoch.
  assert (@chk_i64 E (epoch s + 1) = Ok (epoch s + 1)) as ->.
  { apply chk_i64_ok. unfold I64_MAX in He. split; [done|lia]. }
  cbn [rbind]. set (p := baseline_power_from_prev (this_epoch_baseline_power s)).
  assert (p = target_at (S k)) as Hpt by (unfold p; by rewrite Hta).
  set (s1 := set_realized _ _ _ s).
  pose proof (target_le k) as Htl. pose proof (baseline_step k) as Hbs.
  pose proof (baseline_pos t) as Hbp. unfold BASELINE_INITIAL_VALUE in Hbp.
  assert (0 <= target_at (S k)) as Htp.
  { clear. assert (forall n, 0 <= target_at n) as H; [|apply H].
    induction n as [|n IH]; [vm_compute; discriminate|]. rewrite target_S.
    etrans; [exact IH|]. by apply from_prev_grows. }
  assert (follows t (S k) s1) as Hf1.
  { split; cbn [s1 set_realized effective_network_time effective_baseline_power cumsum_baseline epoch
      this_epoch_baseline_power cumsum_realized]; try done; try lia. cbn [cum_baseline]. lia. }
  destruct (catch_up_ok (E := E) (catch_up_fuel s1) t (S k) s1 Hf1) as (t' & s' & H1 & H2 & H3 & _ & H5).
  - done.
  - apply fuel_enough. cbn. lia.
  - exists t', s'. done.
Qed.

(** Every committed update keeps the schedule, when epochs stay within [i64]. *)
Lemma catch_up_follows {E} fuel : forall t k s s', follows t k s ->
  @catch_up E fuel s = Ok s' ->
  exists t', follows t' k s' /\ cumsum_realized s' <= cumsum_baseline s' /\ epoch s' = epoch s.
Proof.
  induction fuel as [|fuel IH]; intros t k s s' Hf H; cbn [catch_up] in H;
    destruct (cumsum_realized s >? cumsum_baseline s) eqn:E'; bool_prop; try discriminate H.
  1, 3: apply (f_equal (fun r => match r with Ok x => Some x | _ => None end)) in H;
    injection H as <-; exists t; repeat apply conj; done || lia.
  destruct Hf as [Ht Hp Hc Hk Hta Hle Hr Ha].
  assert (t < k)%nat as Hlt by (destruct (decide (t = k)) as [->|]; [lia|lia]).
  apply rbind_ok in H as (n & [-> _]%chk_i64_ok & H). rewrite Ht, Hp in H.
  change (baseline_power_from_prev (baseline_at t)) with (baseline_at (S t)) in H.
  replace (Z.of_nat t + 1) with (Z.of_nat (S t)) in H by lia.
  pose proof (baseline_pos (S t)) as Hpos.
  eapply (IH (S t) k) in H; [exact H|]. split; cbn; try done; rewrite ?Hc; lia.
Qed.

Lemma target_pos n : 0 <= target_at n.
Proof.
  induction n as [|n IH]; [vm_compute; discriminate|]. rewrite target_S.
  etrans; [exact IH|]. by apply from_prev_grows.
Qed.

Lemma next_epoch_follows {E} t k s s' power : follows t k s -> cumsum_realized s <= cumsum_baseline s ->
  0 <= power -> @update_to_next_epoch E power s = Ok s' ->
  exists t', follows t' (S k) s' /\ cumsum_realized s' <= cumsum_baseline s' /\ epoch s' = epoch s + 1.
Proof.
  intros [Ht Hp Hc Hk Hta Hle Hr Ha] Hcu Hpow H. unfold update_to_next_epoch in H.
  apply rbind_ok in H as (n & [-> _]%chk_i64_ok & H).
  pose proof (target_le k) as Htl. pose proof (baseline_step k) as Hbs. pose proof (target_pos (S k)) as Htp.
  eapply (catch_up_follows _ t (S k)) in H; [exact H|].
  split; cbn [set_realized effective_network_time effective_baseline_power cumsum_baseline epoch
    this_epoch_baseline_power cumsum_realized]; rewrite ?Hta, <- ?target_S; try done; try lia.
  cbn [cum_baseline]. lia.
Qed.

Lemma with_reward_follows {E} t k s s' power : follows t k s -> cumsum_realized s <= cumsum_baseline s ->
  0 <= power -> @update_to_next_epoch_with_reward E power s = Ok s' ->
  exists t', follows t' (S k) s' /\ cumsum_realized s' <= cumsum_baseline s' /\ epoch s' = epoch s + 1.
Proof.
  intros Hf Hcu Hpow H. unfold update_to_next_epoch_with_reward in H.
  apply rbind_ok in H as (th & _ & H). apply rbind_ok in H as (s1 & H1 & H).
  apply rbind_ok in H as (th2 & _ & H). apply rbind_ok in H as (r & _ & H). injection H as <-.
  destruct (next_epoch_follows t k s s1 power Hf Hcu Hpow H1) as (t' & [] & Hle & He).
  exists t'. split; [by split|done].
Qed.

Lemma null_rounds_follows {E} power n : forall t k s s', follows t k s ->
  cumsum_realized s <= cumsum_baseline s -> 0 <= power -> @null_rounds E n power s = Ok s' ->
  exists t', follows t' (k + n) s' /\ cumsum_realized s' <= cumsum_baseline s' /\
    epoch s' = epoch s + Z.of_nat n.
Proof.
  induction n as [|n IH]; intros t k s s' Hf Hcu Hpow H; cbn [null_rounds] in H.
  - injection H as <-. exists t. rewrite Nat.add_0_r. repeat apply conj; done || lia.
  - apply rbind_ok in H as (s1 & H1 & H).
    destruct (next_epoch_follows t k s s1 power Hf Hcu Hpow H1) as (t1 & Hf1 & Hc1 & He1).
    destruct (IH t1 (S k) s1 s' Hf1 Hc1 Hpow H) as (t' & Hf' & Hc' & He').
    exists t'. rewrite Nat.add_succ_r. repeat apply conj; done || lia.
Qed.

Lemma update_kpi_ok power e s s' u : schedule_ok s -> 0 <= power ->
  update_kpi power e s = Ok (u, s') -> schedule_ok s'.
Proof.
  intros ((t & k & Hf) & He & Hcu) Hpow H. unfold update_kpi in H.
  apply rbind_ok in H as (s1 & H1 & H). apply rbind_ok in H as (s2 & H2 & H).
  apply rbind_ok in H as (d & _ & H). apply rbind_ok in H as (s3 & H3 & H). injection H as _ <-.
  destruct (null_rounds_follows _ _ t k s s1 Hf Hcu Hpow H1) as (t1 & Hf1 & Hc1 & He1).
  destruct (with_reward_follows t1 _ s1 s2 power Hf1 Hc1 Hpow H2) as (t2 & Hf2 & Hc2 & He2).
  unfold update_smoothed_estimates in H3. apply rbind_ok in H3 as (f & _ & H3). injection H3 as <-.
  split; [|split; [cbn; lia|exact Hc2]]. exists t2, (S (k + Z.to_nat (e - epoch s))). destruct Hf2. by split.
Qed.

Lemma new_state_ok {E} power s : 0 <= power -> @new_state E power = Ok s -> schedule_ok s.
Proof.
  intros Hp H. unfold new_state in H. eapply (with_reward_follows 0 0) in H; [|split; cbn; done || lia|done|done].
  destruct H as (t & Hf & Hc & He). split; [by exists t, 1%nat|]. split; [cbn in He; unfold EPOCH_UNDEFINED in He; lia|done].
Qed.

Lemma total_reward_ok st x : schedule_ok st -> schedule_ok (set_total_reward x st).
Proof. intros ((t & k & []) & He & Hc). split; [|done]. exists t, k. by split. Qed.

(** ** Awards *)

(** What an award amounts to: the gas reward and the block reward for the
    winning tickets, cut down to the balance. *)
Definition award_total (p : AwardBlockRewardParams) (balance : Z) (st : State) : Z :=
  Z.min (aw_gas_reward p + this_epoch_reward st * aw_win_count p / EXPECTED_LEADERS_PER_EPOCH) balance.

(** The state an award leaves: the part that is not gas is booked. *)
Definition awarded (p : AwardBlockRewardParams) (balance : Z) (st : State) : State :=
  set_total_reward (total_storage_power_reward st + (award_total p balance st - aw_gas_reward p)) st.

Definition award_req (p : AwardBlockRewardParams) (miner total : Z) : SendReq Param :=
  mkSend (AddrId miner) APPLY_REWARDS_METHOD
    (PApplyReward total (aw_penalty p * PENALTY_MULTIPLIER)) total false.

Definition burn_req (total : Z) : SendReq Param :=
  mkSend BURNT_FUNDS_ACTOR_ADDR METHOD_SEND PNone total false.

Definition succeeded {R} (r : Response R + ErrorNumber) : bool :=
  match r with inl r => is_success (resp_code r) | inr _ => false end.

Lemma book_reward_ok p balance st total st' :
  aw_gas_reward p <= balance -> book_reward p balance st = Ok (total, st') ->
  total = award_total p balance st /\ st' = awarded p balance st.
Proof.
  unfold book_reward, awarded, award_total. intros Hb H.
  set (block := this_epoch_reward st * _ / _) in *.
  destruct (_ >? _) eqn:E; res_inv.
  - rewrite Z.min_r by lia. done.
  - rewrite Z.min_l by lia. split; [done|]. f_equal. lia.
Qed.

(** The world after an award: the miner's send and, when it fails, the burn. *)
Lemma award_run {Net} (env : Env Net State Param (list Z)) ctx p w u w' :
  award_block_reward env ctx p w = Ok (u, w') ->
  exists st miner, caller ctx = SYSTEM_ACTOR_ADDR /\ w_state w = Some st /\
    env_resolve_address env (w_net w) (aw_miner p) = Some miner /\
    0 <= aw_penalty p /\ 0 <= aw_gas_reward p <= w_balance w /\ 0 < aw_win_count p /\
    let total := award_total p (w_balance w) st in
    let w0 := set_state (awarded p (w_balance w) st) (set_validated w) in
    exists r w1, send env (award_req p miner total) w0 = Ok (r, w1) /\
      if succeeded r then w' = w1
      else exists r2, send env (burn_req total) w1 = Ok (r2, w').
Proof.
  intros H. unfold award_block_reward in H.
  apply bind_ok in H as (? & ? & (_ & Hc & ->)%caller_is_ok & H).
  apply bind_ok in H as (? & ? & [-> ->]%balance_ok & H).
  destruct (aw_penalty p <? 0) eqn:E1; [by apply throw_ok in H|].
  destruct (aw_gas_reward p <? 0) eqn:E2; [by apply throw_ok in H|].
  destruct (_ <? aw_gas_reward p) eqn:E3; [by apply throw_ok in H|].
  destruct (aw_win_count p <=? 0) eqn:E4; [by apply throw_ok in H|].
  apply bind_ok in H as (? & ? & [-> ->]%resolve_address_ok & H).
  apply bind_ok in H as (miner & ? & [Hm%ok_or_ok ->]%lift_ok & H).
  apply bind_ok in H as (? & ? & [-> ->]%balance_ok & H).
  apply bind_ok in H as (total & ? & (st & st' & Hst & Hb & ->)%transaction_ok & H).
  destruct (total >? _); [by apply throw_ok in H|].
  apply bind_ok in H as (r & w1 & Hsend & H). cbn in E3, Hst, Hm, Hb. bool_prop.
  apply book_reward_ok in Hb as [-> ->]; [|done].
  exists st, miner. apply list_elem_of_singleton in Hc.
  do 5 (split; [done || lia|]). split; [lia|]. exists r, w1. split; [exact Hsend|].
  destruct r as [r|e]; cbn [extract_send_result succeeded] in H |- *; [destruct (is_success _)|].
  - by apply ret_ok in H as [= _ ->].
  - apply bind_ok in H as (r2 & w2 & H2 & [= _ ->]%ret_ok). by exists r2.
  - apply bind_ok in H as (r2 & w2 & H2 & [= _ ->]%ret_ok). by exists r2.
Qed.

(** ** Reachable states *)

(** The power actor reports a power that is not negative. *)
Definition kpi_nonneg (ctx : Ctx) (m : Msg) (s : option State) : Prop :=
  match m with
  | Constructor (Some p) | UpdateNetworkKPI (Some p) => 0 <= p
  | _ => True
  end.

Definition reward_chain {Net : Type} : Conf State -> Conf State -> Prop :=
  chain (Net := Net) invoke_method w_balance debited (fun ctx _ => ctx_value_received ctx) kpi_nonneg
    (fun _ => True) deposited.

Definition state_inv (s : option State) : Prop := forall st, s = Some st -> schedule_ok st.

Lemma reward_invoke_ok {Net : Type} (env : Env Net State Param (list Z)) ctx m w r w' :
  (forall req w r w', send env req w = Ok (r, w') -> state_inv (w_state w) -> state_inv (w_state w')) ->
  kpi_nonneg ctx m (w_state w) -> invoke_method env ctx m w = Ok (r, w') ->
  state_inv (w_state w) -> state_inv (w_state w').
Proof.
  intros Hsend Hadm H Hw. unfold invoke_method in H. apply bind_ok in H as (u & w1 & H1 & H).
  apply restrict_state in H1 as ->. destruct m as [p|p| |p|n].
  - unfold constructor in H. run_inv. destruct p as [p|]; run_inv. intros st [= <-].
    eapply new_state_ok; [exact Hadm|eassumption].
  - destruct (negb _); [by apply throw_ok in H|].
    apply bind_ok in H as (? & w1 & Ha & [= -> ->]%ret_ok).
    apply award_run in Ha as (st & miner & _ & Hst & _ & _ & _ & _ & r1 & w2 & H1 & H2).
    apply Hsend in H1; [|intros ? [= <-]; by apply total_reward_ok, Hw].
    destruct (succeeded r1); [by subst|]. destruct H2 as (r2 & H2). by apply Hsend in H2.
  - unfold get_this_epoch_reward in H. run_inv. exact Hw.
  - unfold update_network_kpi in H. run_inv. intros st [= <-].
    destruct p as [p|]; [|discriminate]. simplify_eq/=. eapply update_kpi_ok; [by apply Hw| |eassumption]. done.
  - run_inv.
Qed.

Lemma reward_chain_ok {Net} c c' : reward_chain (Net := Net) c c' ->
  state_inv (c_state c) -> state_inv (c_state c').
Proof.
  apply (chain_rel _ _ _ _ _ _ _ (fun c c' => state_inv (c_state c) -> state_inv (c_state c'))); eauto.
  intros env ctx m w r w' _ Hsend _ Hadm H. cbn. eapply reward_invoke_ok; [|exact Hadm|exact H].
  intros req w1 r1 w2 H1. exact (Hsend req w1 r1 w2 H1).
Qed.

(** The interpolated time lies in the last epoch of the effective time. *)
Lemma theta_bounds {E} s : schedule_ok s -> exists th, @theta E s = Ok th /\ 0 <= th /\
  (effective_network_time s - 1) * 2 ^ 128 < th <= effective_network_time s * 2 ^ 128.
Proof.
  intros ((t & k & []) & _ & Hcu). unfold theta, compute_r_theta.
  pose proof (baseline_pos t) as Hp. unfold BASELINE_INITIAL_VALUE in Hp.
  destruct (effective_network_time s =? 0) eqn:E0; bool_prop; cbn [negb].
  - exists 0. rewrite E0. repeat apply conj; done || lia.
  - set (d := cumsum_baseline s - cumsum_realized s). set (b := effective_baseline_power s) in *.
    unfold div_floor. rewrite (proj2 (Z.eqb_neq b 0)) by lia. cbn [rbind]. eexists. split; [done|].
    unfold PRECISION. rewrite !Z.shiftl_mul_pow2 by lia.
    assert (0 <= d * 2 ^ 128 / b < 2 ^ 128); [|lia].
    split; [apply Z.div_pos|apply Z.div_lt_upper_bound]; lia.
Qed.

(** C37: in every state the reward actor reaches, the effective network time is at
    most the number of epochs since genesis, which is one more than the epoch;
    the realized power it stands for lies in its last epoch, so does the time rewards are interpolated at, and the next
    epoch can be computed: the loop that advances the effective time ends. *)
Theorem reward_network_time {Net} e b c st :
  reward_chain (Net := Net) (mkConf e None b) c -> c_state c = Some st ->
  0 <= effective_network_time st <= epoch st + 1 /\
  cumsum_baseline st - effective_baseline_power st < cumsum_realized st <= cumsum_baseline st /\
  (exists th, theta (E := error) st = Ok th /\ 0 <= th /\
    (effective_network_time st - 1) * 2 ^ 128 < th <= effective_network_time st * 2 ^ 128) /\
  (forall power, 0 <= power -> epoch st + 1 < I64_MAX ->
    exists st', update_to_next_epoch (E := error) power st = Ok st' /\ schedule_ok st').
Proof.
  intros Hch Hst. apply reward_chain_ok in Hch; [|by intros ?]. apply Hch in Hst.
  pose proof Hst as ((t & k & Hf) & He & Hcu). split; [destruct Hf; lia|].
  split; [destruct Hf; lia|]. split; [by apply theta_bounds|].
  intros power Hp Hmax. destruct (next_epoch_ok (E := error) t k st power Hf Hcu Hmax Hp)
    as (t' & st' & H & Hf' & Hcu' & He'). exists st'. split; [done|].
  split; [by exists t', (S k)|]. split; [lia|done].
Qed.

(** An award reaches the miner in one message that carries the gas and block
    reward, cut down to the actor's balance, and three times the penalty; if
    that message fails, the same amount is burnt, and nothing else is sent.
    The part that is not gas is added to the total storage power reward. *)
Theorem award_block_reward_spec {Net} (env : Env Net State Param (list Z)) ctx p w u w' :
  award_block_reward env ctx p w = Ok (u, w') ->
  exists st miner, caller ctx = SYSTEM_ACTOR_ADDR /\ w_state w = Some st /\
    env_resolve_address env (w_net w) (aw_miner p) = Some miner /\
    let total := award_total p (w_balance w) st in
    let out := env_send env (award_req p miner total) (w_net w)
                 (Some (awarded p (w_balance w) st)) (w_balance w) in
    total <= w_balance w /\
    total_storage_power_reward (awarded p (w_balance w) st) + aw_gas_reward p =
      total_storage_power_reward st + total /\
    if succeeded (so_result out) then
      w_sent w' = w_sent w ++ [award_req p miner total] /\ w_state w' = so_state out
    else
      w_sent w' = w_sent w ++ [award_req p miner total; burn_req total] /\
      w_state w' = so_state (env_send env (burn_req total) (so_net out) (so_state out) (so_balance out)).
Proof.
  intros (st & miner & Hc & Hst & Hm & _ & Hg & _ & r & w1 & H1 & H2)%award_run.
  exists st, miner. apply send_ok in H1 as [-> ->]. do 3 (split; [done|]).
  split; [apply Z.le_min_r|]. split; [cbn; lia|].
  cbn [set_state set_validated w_net w_state w_balance] in H2 |- *.
  destruct (succeeded _); [by subst|]. destruct H2 as (r2 & [-> ->]%send_ok).
  cbn [w_sent w_state w_net w_balance]. split; [|done].
  cbn [set_state set_validated w_sent]. by rewrite <- app_assoc.
Qed.

(** Before its start, a linear vesting schedule reports more than its value. *)
Lemma amount_vested_early :
  amount_vested (E := error) (mkVesting VLinear 10 20 1000 0) 9 = Ok 1844674407370955161500.
Proof. vm_compute. reflexivity. Qed.
