(* ===== verification/Init.v ===== *)
(** * The init actor

    Models src/actors/init/src/lib.rs, state.rs and types.rs: the actor that
    allots IDs, maps addresses to them and creates other actors.

    The kernel's calls that only this actor uses (the next actor address, the
    creation of an actor, the code of a built-in type) and the constructor of
    delegated addresses are the record [Kernel]. *)

From S2P Require Import Prelude Runtime Trace.

Module Init.

Definition FIRST_NON_SINGLETON_ADDR : Z := 100.
Definition METHOD_CONSTRUCTOR : Z := 1.

(** The errors of the kernel's [create_actor] the runtime tells apart. *)
Inductive CreateError : Type := CE_IllegalArgument | CE_Forbidden | CE_Other.

Record Kernel (Net : Type) : Type := mkKernel {
  k_next_actor_address : Net -> Address;
  k_create_actor : Net -> Z -> Z -> option Address -> Net + CreateError;
  k_code_cid_for_type : ActorType -> Z;
  (** [Address::new_delegated]: fails on a subaddress that is too long. *)
  k_new_delegated : Z -> list Z -> option Address;
}.
Arguments k_next_actor_address {Net}.
Arguments k_create_actor {Net}.
Arguments k_code_cid_for_type {Net}.
Arguments k_new_delegated {Net}.

(** ** State (state.rs) *)

Record State : Type := mkState {
  address_map : gmap Address Z;
  next_id : Z;
  network_name : string;
}.

Definition new_state (network_name : string) : State :=
  mkState ∅ FIRST_NON_SINGLETON_ADDR network_name.

Notation error := (ActorError (list Z)).

Definition map_addresses_to_id (robust_addr : Address) (delegated_addr : option Address) (s : State)
  : Res error ((Z * bool) * State) :=
  let map := address_map s in
  let! (id, existing, map, next) :=
    match delegated_addr with
    | Some delegated_addr =>
        match map !! delegated_addr with
        | Some existing_id => Ok (existing_id, true, map, next_id s)
        | None =>
            let new_id := next_id s in
            let! next := chk_u64 (next_id s + 1) in
            Ok (new_id, false, <[delegated_addr := new_id]> map, next)
        end
    | None =>
        let new_id := next_id s in
        let! next := chk_u64 (next_id s + 1) in
        Ok (new_id, false, map, next)
    end in
  match map !! robust_addr with
  | Some _ => Err (err USR_FORBIDDEN)
  | None => Ok ((id, existing), mkState (<[robust_addr := id]> map) next (network_name s))
  end.

Definition resolve_address (s : State) (addr : Address) : option Address :=
  match addr with
  | AddrId _ => Some addr
  | _ => AddrId <$> address_map s !! addr
  end.

(** ** Methods (lib.rs) *)

Record ExecParams : Type := mkExec {
  ex_code_cid : Z;
  ex_constructor_params : list Z;
}.

Record Exec4Params : Type := mkExec4 {
  ex4_code_cid : Z;
  ex4_constructor_params : list Z;
  ex4_subaddress : list Z;
}.

Record ExecReturn : Type := mkExecReturn {
  id_address : Address;
  robust_address : Address;
}.

Inductive Msg : Type :=
| Constructor (name : string)
| Exec (p : ExecParams)
| Exec4 (p : Exec4Params)
| OtherMethod (n : Z).

Section methods.
Context {Net : Type} (k : Kernel Net) (env : Env Net State (list Z) (list Z)) (ctx : Ctx).

Notation M := (M Net State (list Z) (list Z)).

Definition new_actor_address : M Address := fun w => Ok (k_next_actor_address k (w_net w), w).

(** [FvmRuntime::create_actor]. *)
Definition create_actor (code_id actor_id : Z) (predictable_address : option Address) : M unit := fun w =>
  match k_create_actor k (w_net w) code_id actor_id predictable_address with
  | inl net => Ok (tt, mkWorld (w_state w) (w_balance w) net (w_validated w) (w_deleted w) (w_sent w))
  | inr CE_IllegalArgument => Err (err USR_ILLEGAL_ARGUMENT)
  | inr CE_Forbidden => Err (err USR_FORBIDDEN)
  | inr CE_Other => Err (err USR_ASSERTION_FAILED)
  end.

Definition can_exec (caller exec : Z) : bool :=
  match env_builtin_type env exec with
  | Some TMultisig | Some TPaymentChannel => true
  | Some TMiner => bool_decide (env_builtin_type env caller = Some TPower)
  | _ => false
  end.

Definition constructor (name : string) : M unit :=
  let* _ := validate_immediate_caller_is ctx [SYSTEM_ACTOR_ADDR] in
  create (new_state name).

(** The end of both methods: create the actor and run its constructor. *)
Definition construct (code id : Z) (addr : option Address) (params : list Z) : M unit :=
  let* _ := create_actor code id addr in
  let* res := send_simple env (AddrId id) METHOD_CONSTRUCTOR params (ctx_value_received ctx) in
  let* _ := lift (extract_send_result res) in
  ret tt.

Definition exec (p : ExecParams) : M ExecReturn :=
  let* _ := validate_immediate_caller_accept_any in
  let* caller_code := get_actor_code_cid env (ctx_caller ctx) in
  let* caller_code := lift (ok_or caller_code (err USR_ILLEGAL_STATE)) in
  if negb (can_exec caller_code (ex_code_cid p)) then throw USR_FORBIDDEN
  else
    let* robust_address := new_actor_address in
    let* (id, existing) := transaction (map_addresses_to_id robust_address None) in
    if (existing : bool) then throw USR_FORBIDDEN
    else
      let* _ := construct (ex_code_cid p) id None (ex_constructor_params p) in
      ret (mkExecReturn (AddrId id) robust_address).

Definition exec4 (p : Exec4Params) : M ExecReturn :=
  let* _ := validate_immediate_caller_is ctx [EAM_ACTOR_ADDR] in
  let* delegated_address :=
    lift (ok_or (k_new_delegated k (ctx_caller ctx) (ex4_subaddress p)) (err USR_ILLEGAL_ARGUMENT)) in
  let* robust_address := new_actor_address in
  let* (id, existing) := transaction (map_addresses_to_id robust_address (Some delegated_address)) in
  let* _ :=
    if (existing : bool) then
      let* code_cid := get_actor_code_cid env id in
      let* code_cid := lift (ok_or code_cid (err USR_FORBIDDEN)) in
      if code_cid =? k_code_cid_for_type k TPlaceholder then ret tt else throw USR_FORBIDDEN
    else ret tt in
  let* _ := construct (ex4_code_cid p) id (Some delegated_address) (ex4_constructor_params p) in
  ret (mkExecReturn (AddrId id) robust_address).

Definition method_num (m : Msg) : Z :=
  match m with Constructor _ => 1 | Exec _ => 2 | Exec4 _ => 3 | OtherMethod n => n end.

Definition invoke_method (m : Msg) : M (option ExecReturn) :=
  let* _ := restrict_internal_api env ctx (method_num m) in
  match m with
  | Constructor name => let* _ := constructor name in ret None
  | Exec p => let* r := exec p in ret (Some r)
  | Exec4 p => let* r := exec4 p in ret (Some r)
  | OtherMethod _ => throw USR_UNHANDLED_MESSAGE
  end.
End methods.

(** ** The address map *)

(** IDs below the next one, none of a singleton. *)
Definition wf (s : State) : Prop :=
  FIRST_NON_SINGLETON_ADDR <= next_id s /\
  forall a id, address_map s !! a = Some id -> FIRST_NON_SINGLETON_ADDR <= id < next_id s.

(** A later state: mappings are only added. *)
Definition extends (s s' : State) : Prop :=
  address_map s ⊆ address_map s' /\ next_id s <= next_id s'.

Lemma extends_refl s : extends s s.
Proof. split; [done|lia]. Qed.

Lemma extends_trans s1 s2 s3 : extends s1 s2 -> extends s2 s3 -> extends s1 s3.
Proof. intros [Hm1 Hn1] [Hm2 Hn2]. split; [by etrans|lia]. Qed.

(** An allotment: the robust address was free, and the ID is the one of the
    delegated address, if it had one, or the next ID. *)
Lemma map_addresses_ok robust delegated s id existing s' :
  map_addresses_to_id robust delegated s = Ok ((id, existing), s') ->
  (address_map s !! robust = None /\ delegated <> Some robust /\
   address_map s' = <[robust := id]> (match delegated with
     Some d => <[d := id]> (address_map s) | None => address_map s end)) /\
  if existing then next_id s' = next_id s /\ exists d, delegated = Some d /\ address_map s !! d = Some id
  else id = next_id s /\ next_id s' = next_id s + 1 /\ forall d, delegated = Some d -> address_map s !! d = None.
Proof.
  unfold map_addresses_to_id. intros H. apply rbind_ok in H as ([[[id0 ex0] m] n] & H1 & H).
  destruct (m !! robust) eqn:Hr; [discriminate|]. res_inv.
  destruct delegated as [d|]; [destruct (address_map s !! d) as [i|] eqn:Hd|]; res_inv; cbn.
  - rewrite (insert_id (address_map s) d) by done.
    refine (conj (conj Hr (conj _ _)) _); [congruence|done|eauto].
  - apply lookup_insert_None in Hr as [Hr Hne].
    refine (conj (conj Hr (conj _ _)) _); [congruence|done|naive_solver].
  - refine (conj (conj Hr (conj _ _)) _); [congruence|done|naive_solver].
Qed.

Lemma map_addresses_extends robust delegated s r s' :
  wf s -> map_addresses_to_id robust delegated s = Ok (r, s') -> wf s' /\ extends s s'.
Proof.
  destruct r as [id existing]. intros [Hn Hwf] [(Hr & _ & Hm) He]%map_addresses_ok.
  assert (FIRST_NON_SINGLETON_ADDR <= id < next_id s' /\ next_id s <= next_id s') as [Hid Hle].
  { destruct existing; [|lia]. destruct He as (-> & d & _ & Hd). pose proof (Hwf d id Hd). lia. }
  split; [split; [lia|]|split; [|lia]].
  - rewrite Hm. intros a i [[_ <-]|[_ H]]%lookup_insert_Some; [lia|].
    assert (i = id \/ address_map s !! a = Some i) as [->|Ha]; [|lia|pose proof (Hwf a i Ha); lia].
    destruct delegated as [d|]; [|by right]. apply lookup_insert_Some in H as [[_ <-]|[_ H]]; auto.
  - rewrite Hm. apply map_subseteq_spec. intros a i Ha.
    rewrite lookup_insert_ne by (intros ->; congruence).
    destruct delegated as [d|]; [|done].
    destruct (decide (d = a)) as [->|]; [|by rewrite lookup_insert_ne].
    rewrite lookup_insert_eq. destruct existing; destruct He as (? & He); [naive_solver|].
    destruct He as [_ He]. specialize (He a eq_refl). congruence.
Qed.

(** ** Runs *)

Section runs.
Context {Net : Type} (k : Kernel Net).

(** An earlier state a run of the actor has extended. *)
Definition since (s0 s : option State) : Prop :=
  match s with
  | Some st => wf st /\ forall st0, s0 = Some st0 -> extends st0 st
  | None => s0 = None
  end.

Lemma construct_state env ctx code i addr params w u w' :
  construct k env ctx code i addr params w = Ok (u, w') ->
  exists net out, k_create_actor k (w_net w) code i addr = inl net /\
    out = env_send env (mkSend (AddrId i) METHOD_CONSTRUCTOR params (ctx_value_received ctx) false)
            net (w_state w) (w_balance w) /\
    is_ok (extract_send_result (so_result out)) = true /\
    w_state w' = so_state out /\ w_net w' = so_net out /\ w_balance w' = so_balance out /\
    w_sent w' = w_sent w ++ [mkSend (AddrId i) METHOD_CONSTRUCTOR params (ctx_value_received ctx) false].
Proof.
  unfold construct. intros H. apply bind_ok in H as (? & w1 & Hc & H).
  unfold create_actor in Hc.
  destruct (k_create_actor k (w_net w) code i addr) as [net|[]]; [|discriminate..]. injection Hc as _ <-.
  run_inv. exists net. eexists. split; [done|]. split; [reflexivity|].
  match goal with H : extract_send_result _ = Ok _ |- _ => rewrite H end. done.
Qed.

Lemma map_addresses_since s0 st robust delegated r st' :
  since s0 (Some st) -> map_addresses_to_id robust delegated st = Ok (r, st') -> since s0 (Some st').
Proof.
  intros [Hwf Hext] H. apply map_addresses_extends in H as [Hwf' Hext']; [|done].
  split; [done|]. intros st0 H0. eapply extends_trans; eauto.
Qed.

(** What the two methods that create an actor do to the state: an allotment
    and the constructor's send. *)
Lemma exec_run env ctx p w r w' : exec k env ctx p w = Ok (r, w') ->
  exists st id st' net out, w_state w = Some st /\
    map_addresses_to_id (k_next_actor_address k (w_net w)) None st = Ok ((id, false), st') /\
    r = mkExecReturn (AddrId id) (k_next_actor_address k (w_net w)) /\
    k_create_actor k (w_net w) (ex_code_cid p) id None = inl net /\
    out = env_send env (mkSend (AddrId id) METHOD_CONSTRUCTOR (ex_constructor_params p)
            (ctx_value_received ctx) false) net (Some st') (w_balance w) /\
    is_ok (extract_send_result (so_result out)) = true /\ w_state w' = so_state out.
Proof.
  unfold exec. intros H. run_inv.
  match goal with H : new_actor_address _ _ = Ok _ |- _ => injection H as <- <- end.
  match goal with H : construct _ _ _ _ _ _ _ _ = Ok _ |- _ =>
    apply construct_state in H as (net & out & Hc & Hout & Hok & Hst & _) end.
  cbn in *. eauto 12.
Qed.

Lemma exec4_run env ctx p w r w' : exec4 k env ctx p w = Ok (r, w') ->
  exists st d id existing st' net out, caller ctx = EAM_ACTOR_ADDR /\ w_state w = Some st /\
    k_new_delegated k (ctx_caller ctx) (ex4_subaddress p) = Some d /\
    map_addresses_to_id (k_next_actor_address k (w_net w)) (Some d) st = Ok ((id, existing), st') /\
    (existing = true -> env_get_actor_code_cid env (w_net w) id = Some (k_code_cid_for_type k TPlaceholder)) /\
    r = mkExecReturn (AddrId id) (k_next_actor_address k (w_net w)) /\
    k_create_actor k (w_net w) (ex4_code_cid p) id (Some d) = inl net /\
    out = env_send env (mkSend (AddrId id) METHOD_CONSTRUCTOR (ex4_constructor_params p)
            (ctx_value_received ctx) false) net (Some st') (w_balance w) /\
    is_ok (extract_send_result (so_result out)) = true /\ w_state w' = so_state out.
Proof.
  unfold exec4. intros H.
  apply bind_ok in H as (? & w0 & (_ & Hcal & ->)%caller_is_ok & H).
  apply bind_ok in H as (d & w1 & [Hd%ok_or_ok ->]%lift_ok & H).
  apply bind_ok in H as (ra & w1 & Hra & H). injection Hra as <- <-.
  apply bind_ok in H as ([id existing] & w1 & (st & st' & Hst & Hm & ->)%transaction_ok & H).
  apply bind_ok in H as (? & w1 & Hex & H). apply bind_ok in H as (? & w2 & Hc & [= -> ->]%ret_ok).
  assert (w1 = set_state st' (set_validated w) /\
    (existing = true -> env_get_actor_code_cid env (w_net w) id = Some (k_code_cid_for_type k TPlaceholder)))
    as [-> Hpl].
  { destruct existing; [|by apply ret_ok in Hex as [= _ ->]]. run_inv.
    destruct (_ =? _) eqn:E; run_inv. split; [done|]. intros _. cbn in *. congruence. }
  apply construct_state in Hc as (net & out & Hc & Hout & Hok & Hst' & _). cbn in *.
  apply list_elem_of_singleton in Hcal. eauto 20.
Qed.

Lemma invoke_since s0 env ctx m w r w' :
  send_respects env (fun s s' => since s0 s -> since s0 s') ->
  since s0 (w_state w) -> invoke_method k env ctx m w = Ok (r, w') -> since s0 (w_state w').
Proof.
  intros Hsend Hw H. unfold invoke_method in H. apply bind_ok in H as (u & w1 & H1 & H).
  apply restrict_state in H1 as ->. destruct m as [name|p|p|n].
  - unfold constructor in H. run_inv.
    match goal with H : w_state w = None |- _ => rewrite H in Hw end.
    cbn in Hw |- *. split; [|by intros ? ->].
    split; [done|]. intros a i Ha. cbn in Ha. by rewrite lookup_empty in Ha.
  - apply bind_ok in H as (r1 & w1 & Hx & [= -> ->]%ret_ok).
    apply exec_run in Hx as (st & i & st' & net & out & Hst & Hm & _ & _ & -> & _ & ->).
    apply Hsend. rewrite Hst in Hw. by eapply map_addresses_since.
  - apply bind_ok in H as (r1 & w1 & Hx & [= -> ->]%ret_ok).
    apply exec4_run in Hx as (st & d & i & ex & st' & net & out & _ & Hst & _ & Hm & _ & _ & _ & -> & _ & ->).
    apply Hsend. rewrite Hst in Hw. by eapply map_addresses_since.
  - run_inv.
Qed.

Lemma reach_since s0 s : reach (invoke_method k) s0 s -> since s0 s0 -> since s0 s.
Proof.
  apply (reach_invariant _ (since s0)).
  intros env ctx m w r w' Hsend _ Hw H. exact (invoke_since s0 env ctx m w r w' Hsend Hw H).
Qed.

Lemma since_refl st : wf st -> since (Some st) (Some st).
Proof. intros H. split; [done|]. intros ? [= <-]. apply extends_refl. Qed.

(** ** Actions of the init actor

    The label of an action is the ID it allots.  [allot] is a new ID for a
    robust address that was free, and for a delegated address if there is one;
    [reuse] maps a free robust address to the ID that the delegated address
    has. *)

Definition allot (rob : Address) (delegated : option Address) (st st' : State) : Prop :=
  address_map st !! rob = None /\ delegated <> Some rob /\
  (forall d, delegated = Some d -> address_map st !! d = None) /\
  st' = mkState (<[rob := next_id st]> (match delegated with
    Some d => <[d := next_id st]> (address_map st) | None => address_map st end))
    (next_id st + 1) (network_name st).

Definition reuse (rob d : Address) (id : Z) (st st' : State) : Prop :=
  address_map st !! rob = None /\ address_map st !! d = Some id /\
  st' = mkState (<[rob := id]> (address_map st)) (next_id st) (network_name st).

(** The actor is created, with the new state in place, and then constructed by
    a message with the value the caller sent.  An ID that is in use gets a new
    actor only for the address manager, and only when the kernel says that a
    placeholder has it. *)
Definition in_place (st : State) (net : Net) (w : World Net State (list Z)) : World Net State (list Z) :=
  mkWorld (Some st) (w_balance w) net (w_validated w) (w_deleted w) (w_sent w).

Definition construction (ctx : Ctx) (id : Z) (params : list Z) : SendReq (list Z) :=
  mkSend (AddrId id) METHOD_CONSTRUCTOR params (ctx_value_received ctx) false.

Inductive act (env : Env Net State (list Z) (list Z)) (ctx : Ctx) (m : Msg) (w : World Net State (list Z))
  : World Net State (list Z) -> option (SendReq (list Z)) -> list Z -> Prop :=
| act_create name :
    m = Constructor name -> caller ctx = SYSTEM_ACTOR_ADDR -> w_state w = None ->
    act env ctx m w (put (Some (new_state name)) w) None []
| act_exec p code st st' net :
    m = Exec p -> w_state w = Some st ->
    env_get_actor_code_cid env (w_net w) (ctx_caller ctx) = Some code ->
    can_exec env code (ex_code_cid p) = true ->
    allot (k_next_actor_address k (w_net w)) None st st' ->
    k_create_actor k (w_net w) (ex_code_cid p) (next_id st) None = inl net ->
    act env ctx m w (in_place st' net w)
      (Some (construction ctx (next_id st) (ex_constructor_params p))) [next_id st]
| act_exec4 p d st st' net :
    m = Exec4 p -> caller ctx = EAM_ACTOR_ADDR -> w_state w = Some st ->
    k_new_delegated k (ctx_caller ctx) (ex4_subaddress p) = Some d ->
    allot (k_next_actor_address k (w_net w)) (Some d) st st' ->
    k_create_actor k (w_net w) (ex4_code_cid p) (next_id st) (Some d) = inl net ->
    act env ctx m w (in_place st' net w)
      (Some (construction ctx (next_id st) (ex4_constructor_params p))) [next_id st]
| act_placeholder p d id st st' net :
    m = Exec4 p -> caller ctx = EAM_ACTOR_ADDR -> w_state w = Some st ->
    k_new_delegated k (ctx_caller ctx) (ex4_subaddress p) = Some d ->
    reuse (k_next_actor_address k (w_net w)) d id st st' ->
    env_get_actor_code_cid env (w_net w) id = Some (k_code_cid_for_type k TPlaceholder) ->
    k_create_actor k (w_net w) (ex4_code_cid p) id (Some d) = inl net ->
    act env ctx m w (in_place st' net w)
      (Some (construction ctx id (ex4_constructor_params p))) [].

Lemma map_addresses_allot rob delegated st id st' :
  map_addresses_to_id rob delegated st = Ok ((id, false), st') ->
  id = next_id st /\ allot rob delegated st st'.
Proof.
  intros H. pose proof H as [(Hr & Hne & Hm) (-> & Hn & Hd)]%map_addresses_ok.
  split; [done|]. split; [done|]. split; [done|]. split; [done|].
  rewrite <- Hm, <- Hn. unfold map_addresses_to_id in H. res_inv. repeat case_match; by simplify_eq.
Qed.

Lemma map_addresses_reuse rob delegated st id st' :
  map_addresses_to_id rob delegated st = Ok ((id, true), st') ->
  exists d, delegated = Some d /\ reuse rob d id st st'.
Proof.
  intros H. pose proof H as [(Hr & Hne & Hm) (Hn & d & -> & Hd)]%map_addresses_ok.
  exists d. split; [done|]. split; [done|]. split; [done|].
  rewrite (insert_id (address_map st) d id Hd) in Hm. rewrite <- Hm, <- Hn.
  unfold map_addresses_to_id in H. res_inv. repeat case_match; by simplify_eq.
Qed.

Section message.
Context (env : Env Net State (list Z) (list Z)) (ctx : Ctx).
Context (nested : SendReq (list Z) -> Net -> option State -> Z -> list Z).

Notation does m w w' := (does env nested (act env ctx m) w w').

Lemma construct_does m w w1 code id addr params l u w' st' :
  w_state w1 = Some st' -> w_balance w1 = w_balance w -> w_net w1 = w_net w -> w_sent w1 = w_sent w ->
  (forall net, k_create_actor k (w_net w) code id addr = inl net ->
     act env ctx m w (in_place st' net w) (Some (construction ctx id params)) l) ->
  construct k env ctx code id addr params w1 = Ok (u, w') -> does m w w'.
Proof.
  intros Hst Hb Hn Hsent Hact H.
  apply construct_state in H as (net & out & Hc & Hout & _ & Hst' & Hn' & Hb' & Hs').
  rewrite Hn in Hc. apply Hact in Hc. eapply does_trans; [by eapply does_send|].
  apply does_nothing. unfold same_actor, in_place. cbn. rewrite Hst', Hn', Hb', Hs', Hout, Hst, Hb, Hsent.
  done.
Qed.

Lemma exec_does p w r w' : exec k env ctx p w = Ok (r, w') -> does (Exec p) w w'.
Proof.
  unfold exec. intros H. run_inv.
  match goal with H : new_actor_address _ _ = Ok _ |- _ => injection H as <- <- end.
  match goal with H : map_addresses_to_id _ _ _ = Ok _ |- _ => apply map_addresses_allot in H as [-> Hal] end.
  eapply construct_does; [..|eassumption]; try reflexivity. intros net Hc. by eapply act_exec.
Qed.

Lemma exec4_does p w r w' : exec4 k env ctx p w = Ok (r, w') -> does (Exec4 p) w w'.
Proof.
  unfold exec4. intros H.
  apply bind_ok in H as (? & w0 & (_ & Hcal%list_elem_of_singleton & ->)%caller_is_ok & H).
  apply bind_ok in H as (d & w1 & [Hd%ok_or_ok ->]%lift_ok & H).
  apply bind_ok in H as (ra & w1 & Hra & H). injection Hra as <- <-.
  apply bind_ok in H as ([id existing] & w1 & (st & st' & Hst & Hm & ->)%transaction_ok & H).
  apply bind_ok in H as (? & w1 & Hex & H). apply bind_ok in H as (? & w2 & Hc & [= -> ->]%ret_ok).
  destruct existing.
  - apply map_addresses_reuse in Hm as (d' & [= <-] & Hre). run_inv.
    destruct (_ =? _) eqn:E; run_inv.
    eapply construct_does; [..|exact Hc]; try reflexivity. intros net Hn.
    eapply act_placeholder; try done. cbn in *. congruence.
  - apply map_addresses_allot in Hm as [-> Hal]. apply ret_ok in Hex as [= _ ->].
    eapply construct_does; [..|exact Hc]; try reflexivity. intros net Hn. by eapply act_exec4.
Qed.

Lemma init_invoke_does m w r w' : invoke_method k env ctx m w = Ok (r, w') -> does m w w'.
Proof.
  intros H. unfold invoke_method in H. apply bind_ok in H as (u & w1 & H1 & H).
  apply restrict_state in H1 as ->. destruct m as [name|p|p|n].
  - unfold constructor in H. run_inv.
    match goal with H : caller ctx ∈ _ |- _ => apply list_elem_of_singleton in H end.
    eapply does_act; [by eapply act_create|done].
  - apply bind_ok in H as (r1 & w1 & Hx & [= -> ->]%ret_ok). by eapply exec_does.
  - apply bind_ok in H as (r1 & w1 & Hx & [= -> ->]%ret_ok). by eapply exec4_does.
  - run_inv.
Qed.
End message.

Lemma init_refines : refines (invoke_method k) act.
Proof. intros env nested ctx msg w r w' _ H. by eapply init_invoke_does. Qed.

(** ** IDs are allotted once *)

Definition wf_opt (s : option State) : Prop := match s with Some st => wf st | None => True end.

(** The ID has been allotted. *)
Definition taken (id : Z) (s : option State) : Prop := exists st, s = Some st /\ id < next_id st.

Lemma allot_wf rob delegated st st' : wf st -> allot rob delegated st st' -> wf st'.
Proof.
  intros [Hn Hwf] (_ & _ & _ & ->). split; cbn; [lia|].
  intros a i [[_ <-]|[_ H]]%lookup_insert_Some; [lia|].
  assert (i = next_id st \/ address_map st !! a = Some i) as [->|Ha]; [|lia|pose proof (Hwf a i Ha); lia].
  destruct delegated as [d|]; [|by right]. apply lookup_insert_Some in H as [[_ <-]|[_ H]]; auto.
Qed.

Lemma reuse_wf rob d id st st' : wf st -> reuse rob d id st st' -> wf st'.
Proof.
  intros [Hn Hwf] (_ & Hd & ->). split; cbn; [lia|].
  intros a i [[_ <-]|[_ H]]%lookup_insert_Some; eauto.
Qed.

Lemma act_init_wf env ctx m w w' req l :
  act env ctx m w w' req l -> wf_opt (w_state w) -> wf_opt (w_state w').
Proof.
  intros [name _ _ _|p code st st' net _ -> _ _ Ha _|p d st st' net _ _ -> _ Ha _|p d id st st' net _ _ -> _ Hr _ _] Hwf;
    cbn in *; [|by eapply allot_wf..|by eapply reuse_wf].
  split; [done|]. intros a i H. cbn in H. by rewrite lookup_empty in H.
Qed.

Lemma act_taken env ctx m w w' req l id :
  act env ctx m w w' req l -> taken id (w_state w) -> taken id (w_state w').
Proof.
  intros [name _ _ Hw|p code st st' net _ Hw _ _ Ha _|p d st st' net _ _ Hw _ Ha _
    |p d i st st' net _ _ Hw _ Hr _ _] (st0 & H0 & Hid); rewrite Hw in H0; simplify_eq; eexists; split; try done.
  - destruct Ha as (_ & _ & _ & ->). cbn. lia.
  - destruct Ha as (_ & _ & _ & ->). cbn. lia.
  - by destruct Hr as (_ & _ & ->).
Qed.

Lemma act_allots env ctx m w w' req l : act env ctx m w w' req l ->
  NoDup l /\ forall id, id ∈ l -> ~ taken id (w_state w) /\ taken id (w_state w').
Proof.
  intros [name _ _ Hw|p code st st' net _ Hw _ _ Ha _|p d st st' net _ _ Hw _ Ha _
    |p d i st st' net _ _ Hw _ Hr _ _];
    try (split; [constructor|]; intros x Hx; by inversion Hx);
    (split; [apply NoDup_singleton|]; intros x ->%list_elem_of_singleton; rewrite Hw;
     destruct Ha as (_ & _ & _ & ->); split;
     [intros (st0 & [= <-] & ?); lia|eexists; split; [done|cbn; lia]]).
Qed.

Lemma mapped_stays s s' st a i : reach (invoke_method k) s s' -> wf_opt s -> s = Some st ->
  address_map st !! a = Some i -> exists st', s' = Some st' /\ address_map st' !! a = Some i.
Proof.
  intros Hr Hwf -> Ha. apply reach_since in Hr; [|by apply since_refl].
  destruct s' as [st'|]; [|discriminate Hr]. destruct Hr as [_ Hext].
  destruct (Hext st eq_refl) as [Hsub _]. exists st'. split; [done|]. by eapply lookup_weaken.
Qed.

(** C38: addresses are stable and IDs are allotted once.  Take a message with
    everything its sends call back, to any depth, and the IDs allotted on the
    way: a committed message takes only actions of [act], so that a new address
    gets an allotted ID, or shares the ID of a delegated address that a
    placeholder has when the address manager creates a contract there; no ID
    is allotted twice, none was in use before or belongs to a singleton actor,
    none will be allotted later; and an address that is mapped resolves to the
    same ID for ever. *)
Theorem init_addresses_stable env nested ctx m w r w' :
  traced (invoke_method k) act env nested -> ctx_ok ctx = true -> wf_opt (w_state w) ->
  invoke_method k env ctx m w = Ok (r, w') ->
  exists ids, events env nested (act env ctx m) w ids w' /\ NoDup ids /\
    (forall id, id ∈ ids -> ~ taken id (w_state w)) /\
    (forall id s, id ∈ ids -> reach (invoke_method k) (w_state w') s -> taken id s) /\
    (forall st id, w_state w = Some st -> id ∈ ids ->
       FIRST_NON_SINGLETON_ADDR <= id /\ forall a, address_map st !! a <> Some id) /\
    forall st a id s, w_state w' = Some st -> address_map st !! a = Some id ->
      reach (invoke_method k) (w_state w') s ->
      exists st', s = Some st' /\ address_map st' !! a = Some id.
Proof.
  intros Ht Hc Hwf H. destruct (init_refines env nested ctx m w r w' Hc H) as [ids He].
  exists ids. split; [done|].
  apply (events_once (invoke_method k) act taken wf_opt) in He as [Hg _ Hnd Hnew];
    eauto using act_init_wf, act_taken, act_allots.
  split; [done|]. split; [intros id Hid; by apply Hnew|]. split; [|split].
  - intros id s Hid Hr. apply (refines_invariant _ _ (taken id) init_refines) in Hr; [done| |by apply Hnew].
    intros. by eapply act_taken.
  - intros st id Hst [Hid _]%Hnew. rewrite Hst in Hwf, Hid. destruct Hwf as [Hn Hm].
    assert (next_id st <= id) by (apply Z.nlt_ge; intros ?; apply Hid; by exists st).
    split; [lia|]. intros a Ha. pose proof (Hm a id Ha). lia.
  - intros st a id s Hst Ha Hr. by eapply mapped_stays.
Qed.

(** A contract created through [exec4] is reachable: once its constructor has
    run, calling the init actor back as it likes, both its delegated address
    and its robust address resolve to its ID, which is the ID of a placeholder
    that held the delegated address, or else new. *)
Theorem exec4_resolves env ctx p w r w' st :
  (forall req net s bal, reach (invoke_method k) s (so_state (env_send env req net s bal))) ->
  (forall net, addr_id (k_next_actor_address k net) = None) ->
  (forall ns sub d, k_new_delegated k ns sub = Some d -> addr_id d = None) ->
  w_state w = Some st -> wf st -> exec4 k env ctx p w = Ok (r, w') ->
  exists st' d, w_state w' = Some st' /\ k_new_delegated k (ctx_caller ctx) (ex4_subaddress p) = Some d /\
    resolve_address st (robust_address r) = None /\
    resolve_address st' (robust_address r) = Some (id_address r) /\
    resolve_address st' d = Some (id_address r) /\
    match resolve_address st d with
    | Some a => a = id_address r /\ exists i, a = AddrId i /\
        env_get_actor_code_cid env (w_net w) i = Some (k_code_cid_for_type k TPlaceholder)
    | None => id_address r = AddrId (next_id st)
    end.
Proof.
  intros Hsend Hk Hd Hst Hwf H.
  apply exec4_run in H as (st1 & d & i & ex & st2 & net & out & _ & Hst1 & Hnd & Hm & Hpl & -> & _ & Hout & _ & Hw').
  rewrite Hst in Hst1. injection Hst1 as <-. specialize (Hk (w_net w)). specialize (Hd _ _ _ Hnd).
  set (rob := k_next_actor_address k (w_net w)) in *.
  destruct (map_addresses_extends _ _ _ _ _ Hwf Hm) as [Hwf2 _].
  assert (since (Some st2) (w_state w')) as Hs.
  { rewrite Hw', Hout. exact (reach_since _ _ (Hsend _ net (Some st2) _) (since_refl st2 Hwf2)). }
  destruct (w_state w') as [st'|]; [|discriminate Hs].
  destruct Hs as [_ Hext]. destruct (Hext st2 eq_refl) as [Hsub _].
  apply map_addresses_ok in Hm as [(Hr & Hne & Hmap) Hex].
  assert (address_map st2 !! rob = Some i) as H1 by (rewrite Hmap; apply lookup_insert_eq).
  assert (address_map st2 !! d = Some i) as H2.
  { rewrite Hmap, lookup_insert_ne by congruence. apply lookup_insert_eq. }
  exists st', d. unfold resolve_address. cbn [id_address robust_address].
  destruct rob as [|rp rl]; [discriminate|]. destruct d as [|dp dl]; [discriminate|].
  do 2 (split; [done|]). rewrite Hr, (lookup_weaken _ _ _ _ H1 Hsub), (lookup_weaken _ _ _ _ H2 Hsub).
  do 3 (split; [done|]). destruct ex.
  - destruct Hex as (_ & d' & [= <-] & ->). split; [done|]. exists i. auto.
  - destruct Hex as (-> & _ & Hn). by rewrite (Hn _ eq_refl).
Qed.
End runs.
End Init.
