(* ===== verification/Singletons.v ===== *)
(** * The cron, account, system and Ethereum account actors

    Models src/actors/cron/src, src/actors/account/src, src/actors/system/src
    and src/actors/ethaccount/src.  Cron calls its entries at the end of every
    epoch and ignores their failures; an account holds the key address it was
    created with.

    The verification of signatures and the lookup of delegated addresses are
    the kernel's; the registry of built-in actors is stored by the kernel's
    block store, of which only the content identifier is kept. *)

From S2P Require Import Prelude Runtime.

Module Cron.

Record Entry : Type := mkEntry {
  receiver : Address;
  method_num : Z;
}.

Record State : Type := mkState { entries : list Entry }.

Inductive Msg : Type :=
| Constructor (entries : list Entry)
| EpochTick
| OtherMethod (n : Z).

Section methods.
Context {Net R : Type} (env : Env Net State unit R) (ctx : Ctx).

Notation M := (M Net State unit R).

Definition constructor (entries : list Entry) : M unit :=
  let* _ := validate_immediate_caller_is ctx [SYSTEM_ACTOR_ADDR] in
  create (mkState entries).

(** The body of the loop: an error of the send is only logged. *)
Definition tick_entry (_ : unit) (e : Entry) : M unit :=
  let* res := send_simple env (receiver e) (method_num e) tt 0 in
  match extract_send_result res with
  | Err _ => ret tt
  | Ok _ => ret tt
  | Panic => fun _ => Panic
  end.

Definition epoch_tick : M unit :=
  let* _ := validate_immediate_caller_is ctx [SYSTEM_ACTOR_ADDR] in
  let* st := state in
  mfold tick_entry tt (entries st).

Definition method (m : Msg) : Z :=
  match m with Constructor _ => 1 | EpochTick => 2 | OtherMethod n => n end.

Definition invoke_method (m : Msg) : M unit :=
  let* _ := restrict_internal_api env ctx (method m) in
  match m with
  | Constructor entries => constructor entries
  | EpochTick => epoch_tick
  | OtherMethod _ => throw USR_UNHANDLED_MESSAGE
  end.

(** ** A tick reaches every entry *)

Definition entry_req (e : Entry) : SendReq unit :=
  mkSend (receiver e) (method_num e) tt 0 false.

Lemma ticks l : forall w, exists w', mfold tick_entry tt l w = Ok (tt, w') /\
  w_sent w' = w_sent w ++ map entry_req l /\ w_validated w' = w_validated w.
Proof.
  induction l as [|e l IH]; intros w; cbn [mfold map].
  - exists w. rewrite app_nil_r. done.
  - unfold bind at 1, tick_entry at 1, bind at 1, send_simple, send. cbn [rbind].
    pose proof (extract_send_result_no_panic
      (so_result (env_send env (entry_req e) (w_net w) (w_state w) (w_balance w)))) as Hp.
    fold (entry_req e).
    destruct (extract_send_result _); [| |done]; cbn [ret rbind];
      match goal with |- context [mfold _ _ _ ?w1] => destruct (IH w1) as (w' & H1 & H2 & H3) end;
      exists w'; (split; [exact H1|]); (split; [|exact H3]); rewrite H2; cbn [w_sent]; by rewrite <- app_assoc.
Qed.

(** C39: the end of an epoch always succeeds: every entry is called exactly once,
    in order, without funds, whatever the calls before it did or returned. *)
Theorem cron_calls_every_entry w st :
  w_state w = Some st -> w_validated w = false -> caller ctx = SYSTEM_ACTOR_ADDR ->
  exists w', epoch_tick w = Ok (tt, w') /\
    w_sent w' = w_sent w ++ map entry_req (entries st).
Proof.
  intros Hst Hv Hc. destruct (ticks (entries st) (set_validated w)) as (w' & Hw' & Hs & _).
  exists w'. split; [|done]. unfold epoch_tick, bind at 1.
  unfold validate_immediate_caller_is, assert_not_validated. rewrite Hv, Hc. cbn [rbind].
  replace (existsb _ _) with true by done. cbn [rbind]. unfold bind, state. cbn [w_state set_validated].
  rewrite Hst. exact Hw'.
Qed.
End methods.
End Cron.

Module Account.

Definition PROTOCOL_SECP256K1 : Z := 1.
Definition PROTOCOL_BLS : Z := 3.

(** [Address::protocol]. *)
Definition protocol (a : Address) : Z :=
  match a with AddrId _ => 0 | AddrOther p _ => p end.

Inductive SignatureType : Type := Secp256k1 | BLS.

Record State : Type := mkState { address : Address }.

Inductive Msg : Type :=
| Constructor (address : Address)
| PubkeyAddress
| AuthenticateMessage (signature message : list Z)
| OtherMethod (n : Z).

Inductive Ret : Type :=
| RNone
| RAddress (a : Address)
| RAuthenticated (b : bool).

Section methods.
Context {Net R : Type} (env : Env Net State unit R) (ctx : Ctx).
(** The kernel's check of a signature. *)
Context (verify_signature : SignatureType -> list Z -> Address -> list Z -> bool).
(** [frc42_dispatch::method_hash!("AuthenticateMessage")]. *)
Context (AUTHENTICATE_MESSAGE : Z).

Notation M := (M Net State unit R).

Definition signature_type (a : Address) : option SignatureType :=
  if protocol a =? PROTOCOL_SECP256K1 then Some Secp256k1
  else if protocol a =? PROTOCOL_BLS then Some BLS
  else None.

Definition constructor (address : Address) : M unit :=
  let* _ := validate_immediate_caller_is ctx [SYSTEM_ACTOR_ADDR] in
  match signature_type address with
  | Some _ => create (mkState address)
  | None => throw USR_ILLEGAL_ARGUMENT
  end.

Definition pubkey_address : M Address :=
  let* _ := validate_immediate_caller_accept_any in
  let* st := state in
  ret (address st).

Definition authenticate_message (signature message : list Z) : M bool :=
  let* _ := validate_immediate_caller_accept_any in
  let* st := state in
  match signature_type (address st) with
  | Some sig_type =>
      if verify_signature sig_type signature (address st) message then ret true
      else throw USR_ILLEGAL_ARGUMENT
  | None => throw USR_ILLEGAL_STATE
  end.

Definition fallback (method : Z) : M unit :=
  let* _ := validate_immediate_caller_accept_any in
  if method >=? FIRST_EXPORTED_METHOD_NUMBER then ret tt else throw USR_UNHANDLED_MESSAGE.

Definition method (m : Msg) : Z :=
  match m with
  | Constructor _ => 1
  | PubkeyAddress => 2
  | AuthenticateMessage _ _ => AUTHENTICATE_MESSAGE
  | OtherMethod n => n
  end.

Definition invoke_method (m : Msg) : M Ret :=
  let* _ := restrict_internal_api env ctx (method m) in
  match m with
  | Constructor a => let* _ := constructor a in ret RNone
  | PubkeyAddress => let* a := pubkey_address in ret (RAddress a)
  | AuthenticateMessage s msg => let* b := authenticate_message s msg in ret (RAuthenticated b)
  | OtherMethod n => let* _ := fallback n in ret RNone
  end.

(** A method changes the state of an account only by creating it, with a key
    address. *)
Lemma account_invoke m w r w' : invoke_method m w = Ok (r, w') ->
  w_sent w' = w_sent w /\
  (w_state w' = w_state w \/ exists st, w_state w = None /\ w_state w' = Some st /\
    is_Some (signature_type (address st))).
Proof.
  intros H. unfold invoke_method in H. apply bind_ok in H as (u & w1 & H1 & H).
  apply restrict_state in H1 as ->. destruct m as [a| |s msg|n].
  - unfold constructor in H. run_inv. destruct (signature_type a) eqn:E; run_inv.
    split; [done|]. right. eexists. split; [done|]. split; [done|]. cbn. by rewrite E.
  - unfold pubkey_address in H. run_inv. auto.
  - unfold authenticate_message in H. run_inv. repeat case_match; run_inv; auto.
  - unfold fallback in H. run_inv. case_match; run_inv; auto.
Qed.
End methods.

Definition has_key (s : option State) : Prop :=
  forall st, s = Some st -> is_Some (signature_type (address st)).

(** An account keeps the key address it was created with, and it answers that
    a message is authentic exactly when the kernel accepts the signature for
    that address: it cannot be made to vouch for another key. *)
Theorem account_key_immutable {Net R} (vs : SignatureType -> list Z -> Address -> list Z -> bool) num
    (s : option State) :
  reach (fun env ctx => @invoke_method Net R env ctx vs num) None s ->
  forall st, s = Some st -> exists ty, signature_type (address st) = Some ty /\
    (forall s', reach (fun env ctx => @invoke_method Net R env ctx vs num) (Some st) s' -> s' = Some st) /\
    forall sg msg (w : World Net State unit), w_state w = Some st -> w_validated w = false ->
      authenticate_message (R := R) vs sg msg w =
      if vs ty sg (address st) msg then Ok (true, set_validated w) else Err (err USR_ILLEGAL_ARGUMENT).
Proof.
  intros Hr st ->.
  assert (is_Some (signature_type (address st))) as [ty Hty].
  { refine (reach_invariant _ has_key _ _ _ Hr _ st eq_refl); [|done].
    intros env ctx m w r w' _ _ Hw [_ [->|(st1 & _ & -> & ?)]]%account_invoke; [done|]. by intros ? [= <-]. }
  exists ty. split; [done|]. split.
  - intros s' Hs. refine (reach_invariant _ (fun s => s = Some st) _ _ _ Hs eq_refl).
    intros env ctx m w r w' _ _ Hw [_ [->|(? & H & _)]]%account_invoke; congruence.
  - intros sg msg w Hw Hv. unfold authenticate_message, bind, state,
      validate_immediate_caller_accept_any, assert_not_validated. rewrite Hv. cbn [rbind w_state set_validated].
    rewrite Hw. cbn [rbind]. rewrite Hty. by destruct (vs _ _ _ _).
Qed.
End Account.

Module System.

(** The content identifier of the registry. *)
Record State : Type := mkState { builtin_actors : Z }.

Section methods.
Context {Net R : Type} (env : Env Net State unit R) (ctx : Ctx).
(** The identifier the block store gives to the empty registry. *)
Context (put_empty : option Z).

Notation M := (M Net State unit R).

Definition new_state : Res (ActorError R) State :=
  let! c := ok_or put_empty (err USR_ILLEGAL_STATE) in Ok (mkState c).

Definition constructor : M unit :=
  let* _ := validate_immediate_caller_is ctx [SYSTEM_ACTOR_ADDR] in
  let* st := lift new_state in
  create st.

Definition invoke_method (method : Z) : M unit :=
  let* _ := restrict_internal_api env ctx method in
  if method =? 1 then constructor else throw USR_UNHANDLED_MESSAGE.
End methods.
End System.

Module EthAccount.

Definition EAM_NAMESPACE : Z := 10.

Section methods.
Context {Net R : Type} (env : Env Net unit unit R) (ctx : Ctx).
(** The kernel's lookup of an actor's delegated address. *)
Context (lookup_delegated_address : Net -> Z -> option Address).
(** [Payload::Delegated]'s namespace, when the address is a delegated one. *)
Context (namespace : Address -> option Z).

Notation M := (M Net unit unit R).

Definition constructor : M unit :=
  let* _ := validate_immediate_caller_is ctx [SYSTEM_ACTOR_ADDR] in
  let* w := get_world in
  match lookup_delegated_address (w_net w) (ctx_receiver ctx) with
  | Some a => if bool_decide (namespace a = Some EAM_NAMESPACE) then ret tt else throw USR_ILLEGAL_ARGUMENT
  | None => throw USR_ILLEGAL_ARGUMENT
  end.

Definition fallback (method : Z) : M unit :=
  let* _ := validate_immediate_caller_accept_any in
  if method >=? FIRST_EXPORTED_METHOD_NUMBER then ret tt else throw USR_UNHANDLED_MESSAGE.

Definition invoke_method (method : Z) : M unit :=
  let* _ := restrict_internal_api env ctx method in
  if method =? 1 then constructor else fallback method.

(** An Ethereum account has no state and sends nothing, whatever it is sent. *)
Lemma ethaccount_inert method w u w' : invoke_method method w = Ok (u, w') ->
  w_state w' = w_state w /\ w_balance w' = w_balance w /\ w_net w' = w_net w /\ w_sent w' = w_sent w.
Proof.
  unfold invoke_method. intros H. apply bind_ok in H as (? & w1 & H1 & H).
  apply restrict_state in H1 as ->. destruct (method =? 1).
  - unfold constructor in H. run_inv.
    match goal with H : get_world _ = Ok _ |- _ => injection H as <- <- end.
    repeat case_match; run_inv; done.
  - unfold fallback in H. run_inv. case_match; run_inv; done.
Qed.
End methods.
End EthAccount.
