(* ===== verification/Datacap.v ===== *)
(** * The data cap token actor

    Models src/actors/datacap/src/lib.rs, state.rs and types.rs: a fungible
    token whose holders cannot transfer it, except to and from its governor
    (the verified registry).

    The token itself is the library frc46_token, which the sources only call:
    it is the record [Token] of operations on an abstract token state, and what
    FRC-46 documents of them is the record [frc46].  An operation gets the
    kernel's address resolution; sends are refused inside a transaction, so it
    depends on nothing else.  Errors of the library are the exit codes it gives
    them. *)

From S2P Require Import Prelude Runtime Chain.

Module Datacap.

Definition TOKEN_PRECISION : Z := 10 ^ 18.
Definition DATACAP_GRANULARITY : Z := TOKEN_PRECISION.
Definition INFINITE_ALLOWANCE : Z := TOKEN_PRECISION * 1000000000000000000000.

(** ** The token library *)

Notation Resolver := (Address -> option Z).

Record Token (TS Hook Inter TRet : Type) : Type := mkToken {
  t_new : option TS;
  t_total_supply : TS -> Z;
  t_balance_of : Resolver -> TS -> Address -> Z + ExitCode;
  t_allowance : Resolver -> TS -> Address -> Address -> Z + ExitCode;
  t_mint : Resolver -> Address -> Address -> Z -> St TS ExitCode Hook;
  t_set_allowance : Resolver -> Address -> Address -> Z -> St TS ExitCode unit;
  t_burn : Resolver -> Address -> Z -> St TS ExitCode Z;
  t_burn_from : Resolver -> Address -> Address -> Z -> St TS ExitCode Z;
  t_transfer : Resolver -> Address -> Address -> Z -> list Z -> St TS ExitCode Hook;
  t_transfer_from : Resolver -> Address -> Address -> Address -> Z -> list Z ->
    St TS ExitCode Hook;
  t_increase_allowance : Resolver -> Address -> Address -> Z -> St TS ExitCode Z;
  t_decrease_allowance : Resolver -> Address -> Address -> Z -> St TS ExitCode Z;
  t_revoke_allowance : Resolver -> Address -> Address -> St TS ExitCode Z;
  (** The value a method returns after its hook has run. *)
  t_mint_return : TS -> Inter -> TRet + ExitCode;
  t_transfer_return : TS -> Inter -> TRet + ExitCode;
  t_transfer_from_return : TS -> Inter -> TRet + ExitCode;
}.
Arguments t_new {TS Hook Inter TRet}.
Arguments t_total_supply {TS Hook Inter TRet}.
Arguments t_balance_of {TS Hook Inter TRet}.
Arguments t_allowance {TS Hook Inter TRet}.
Arguments t_mint {TS Hook Inter TRet}.
Arguments t_set_allowance {TS Hook Inter TRet}.
Arguments t_burn {TS Hook Inter TRet}.
Arguments t_burn_from {TS Hook Inter TRet}.
Arguments t_transfer {TS Hook Inter TRet}.
Arguments t_transfer_from {TS Hook Inter TRet}.
Arguments t_increase_allowance {TS Hook Inter TRet}.
Arguments t_decrease_allowance {TS Hook Inter TRet}.
Arguments t_revoke_allowance {TS Hook Inter TRet}.
Arguments t_mint_return {TS Hook Inter TRet}.
Arguments t_transfer_return {TS Hook Inter TRet}.
Arguments t_transfer_from_return {TS Hook Inter TRet}.

(** ** State (state.rs) *)

Record State (TS : Type) : Type := mkState {
  governor : Address;
  token : TS;
}.
Arguments mkState {TS}.
Arguments governor {TS}.
Arguments token {TS}.

(** ** Methods (lib.rs) *)

Inductive Msg : Type :=
| Constructor (governor : Address)
| Mint (to : Address) (amount : Z) (operators : list Address)
| Destroy (owner : Address) (amount : Z)
| Name
| Symbol
| Granularity
| TotalSupply
| Balance (address : Address)
| Transfer (to : Address) (amount : Z) (operator_data : list Z)
| TransferFrom (from to : Address) (amount : Z) (operator_data : list Z)
| IncreaseAllowance (operator : Address) (increase : Z)
| DecreaseAllowance (operator : Address) (decrease : Z)
| RevokeAllowance (operator : Address)
| Burn (amount : Z)
| BurnFrom (owner : Address) (amount : Z)
| Allowance (owner operator : Address)
| OtherMethod (n : Z).

Inductive Ret (TRet : Type) : Type :=
| RUnit
| RText (s : string)
| RAmount (n : Z)
| RToken (r : TRet).
Arguments RUnit {TRet}.
Arguments RText {TRet}.
Arguments RAmount {TRet}.
Arguments RToken {TRet}.

Section methods.
Context {Net TS Hook Inter TRet P : Type} (tk : Token TS Hook Inter TRet).
Context (env : Env Net (State TS) P (list Z)) (ctx : Ctx).
(** [ReceiverHook::call], given the messenger's [send]. *)
Context (hook_call : forall W (send : SendReq P -> W -> Response (list Z) * W),
  Hook -> W -> (Inter + ExitCode) * W).
Context (method_hash : string -> Z).

Notation M := (M Net (State TS) P (list Z)).
Notation error := (ActorError (list Z)).
Notation State := (State TS).

(** [AsActorResult::actor_result]. *)
Definition actor_result {A} (r : A + ExitCode) : Res error A :=
  match r with inl a => Ok a | inr c => Err (err c) end.

(** A call of the wrapped token, with the state it leaves. *)
Definition on_token {A} (m : St TS ExitCode A) (st : State) : Res error (A * State) :=
  match m (token st) with
  | (Ok a, t) => Ok (a, mkState (governor st) t)
  | (Err c, _) => Err (err c)
  | (Panic, _) => Panic
  end.

(** [SyscallProvider::send]: failures become responses without data. *)
Definition provider_send (req : SendReq P) (w : World Net State P) : Response (list Z) * World Net State P :=
  match send env req w with
  | Ok (res, w') =>
      match extract_send_result res with
      | Ok d => (mkResp EC_OK d, w')
      | Err e => (mkResp (exit_code e) None, w')
      | Panic => (mkResp USR_ASSERTION_FAILED None, w')
      end
  | _ => (mkResp USR_ASSERTION_FAILED None, w)
  end.

(** The tail of the methods with a receiver hook: the state is read, the hook
    called, and the return value computed from the state. *)
Definition finish (f : TS -> Inter -> TRet + ExitCode) (hook : Hook) : M (Ret TRet) :=
  let* st := state in
  let* intermediate := fun w =>
    let (r, w') := hook_call _ provider_send hook w in
    let! i := actor_result r in Ok (i, w') in
  let* r := lift (actor_result (f (token st) intermediate)) in
  ret (RToken r).

Definition resolver (w : World Net State P) : Resolver := env_resolve_address env (w_net w).

Definition constructor (gov : Address) : M unit :=
  let* _ := validate_immediate_caller_is ctx [SYSTEM_ACTOR_ADDR] in
  let* id := resolve_address env gov in
  let* _ := lift (ok_or id (err USR_ILLEGAL_ARGUMENT)) in
  let* t := lift (ok_or (t_new tk) (err USR_ILLEGAL_STATE)) in
  create (mkState gov t).

Definition total_supply : M Z :=
  let* _ := validate_immediate_caller_accept_any in
  let* st := state in
  ret (t_total_supply tk (token st)).

Definition balance (a : Address) : M Z :=
  let* _ := validate_immediate_caller_accept_any in
  let* st := state in
  let* w := get_world in
  lift (actor_result (t_balance_of tk (resolver w) (token st) a)).

Definition allowance (owner operator : Address) : M Z :=
  let* _ := validate_immediate_caller_accept_any in
  let* st := state in
  let* w := get_world in
  lift (actor_result (t_allowance tk (resolver w) (token st) owner operator)).

(** The transaction of [mint]: a failed mint is returned after the allowances
    are set. *)
Definition mint_tokens (res : Resolver) (operator to : Address) (amount : Z) (operators : list Address)
  : St TS ExitCode Hook :=
  let& r := scatch (t_mint tk res operator to amount) in
  let& _ := sfold (fun _ delegate => t_set_allowance tk res to delegate INFINITE_ALLOWANCE) tt operators in
  match r with inl hook => sret hook | inr c => sfail c end.

Definition mint (to : Address) (amount : Z) (operators : list Address) : M (Ret TRet) :=
  let* hook := transaction_rt (fun st =>
    let* _ := validate_immediate_caller_is ctx [governor st] in
    let* w := get_world in
    lift (on_token (mint_tokens (resolver w) (governor st) to amount operators) st)) in
  finish (t_mint_return tk) hook.

Definition destroy (owner : Address) (amount : Z) : M Z :=
  transaction_rt (fun st =>
    let* _ := validate_immediate_caller_is ctx [governor st] in
    let* w := get_world in
    lift (on_token (t_burn tk (resolver w) owner amount) st)).

Definition transfer (to : Address) (amount : Z) (operator_data : list Z) : M (Ret TRet) :=
  let* _ := validate_immediate_caller_accept_any in
  let from := caller ctx in
  let* to := resolve_address env to in
  let* to := lift (ok_or to (err USR_ILLEGAL_ARGUMENT)) in
  let to_address := AddrId to in
  let* w := get_world in
  let* hook := transaction (fun st =>
    let allowed := addr_eqb to_address (governor st) || addr_eqb from (governor st) in
    if negb allowed then Err (err USR_FORBIDDEN)
    else on_token (t_transfer tk (resolver w) from to_address amount operator_data) st) in
  finish (t_transfer_return tk) hook.

Definition transfer_from (from to : Address) (amount : Z) (operator_data : list Z) : M (Ret TRet) :=
  let* _ := validate_immediate_caller_accept_any in
  let operator := caller ctx in
  let* to := resolve_address env to in
  let* to := lift (ok_or to (err USR_ILLEGAL_ARGUMENT)) in
  let to_address := AddrId to in
  let* w := get_world in
  let* hook := transaction (fun st =>
    let allowed := addr_eqb to_address (governor st) in
    if negb allowed then Err (err USR_FORBIDDEN)
    else on_token (t_transfer_from tk (resolver w) operator from to_address amount operator_data) st) in
  finish (t_transfer_from_return tk) hook.

(** The methods whose transaction is one call of the token. *)
Definition token_call {A} (m : Resolver -> St TS ExitCode A) : M A :=
  let* _ := validate_immediate_caller_accept_any in
  let* w := get_world in
  transaction (on_token (m (resolver w))).

Definition increase_allowance (operator : Address) (increase : Z) : M Z :=
  token_call (fun res => t_increase_allowance tk res (caller ctx) operator increase).
Definition decrease_allowance (operator : Address) (decrease : Z) : M Z :=
  token_call (fun res => t_decrease_allowance tk res (caller ctx) operator decrease).
Definition revoke_allowance (operator : Address) : M Z :=
  token_call (fun res => t_revoke_allowance tk res (caller ctx) operator).
Definition burn (amount : Z) : M Z :=
  token_call (fun res => t_burn tk res (caller ctx) amount).
Definition burn_from (owner : Address) (amount : Z) : M Z :=
  token_call (fun res => t_burn_from tk res (caller ctx) owner amount).

Definition constant (r : Ret TRet) : M (Ret TRet) :=
  let* _ := validate_immediate_caller_accept_any in
  ret r.

Definition method_num (m : Msg) : Z :=
  match m with
  | Constructor _ => 1
  | Mint _ _ _ => method_hash "Mint"
  | Destroy _ _ => method_hash "Destroy"
  | Name => method_hash "Name"
  | Symbol => method_hash "Symbol"
  | Granularity => method_hash "Granularity"
  | TotalSupply => method_hash "TotalSupply"
  | Balance _ => method_hash "Balance"
  | Transfer _ _ _ => method_hash "Transfer"
  | TransferFrom _ _ _ _ => method_hash "TransferFrom"
  | IncreaseAllowance _ _ => method_hash "IncreaseAllowance"
  | DecreaseAllowance _ _ => method_hash "DecreaseAllowance"
  | RevokeAllowance _ => method_hash "RevokeAllowance"
  | Burn _ => method_hash "Burn"
  | BurnFrom _ _ => method_hash "BurnFrom"
  | Allowance _ _ => method_hash "Allowance"
  | OtherMethod n => n
  end.

Definition amount (m : M Z) : M (Ret TRet) := let* n := m in ret (RAmount n).

Definition invoke_method (m : Msg) : M (Ret TRet) :=
  let* _ := restrict_internal_api env ctx (method_num m) in
  match m with
  | Constructor gov => let* _ := constructor gov in ret RUnit
  | Mint to amount operators => mint to amount operators
  | Destroy owner n => amount (destroy owner n)
  | Name => constant (RText "DataCap")
  | Symbol => constant (RText "DCAP")
  | Granularity => constant (RAmount DATACAP_GRANULARITY)
  | TotalSupply => amount total_supply
  | Balance a => amount (balance a)
  | Transfer to n data => transfer to n data
  | TransferFrom from to n data => transfer_from from to n data
  | IncreaseAllowance operator n => amount (increase_allowance operator n)
  | DecreaseAllowance operator n => amount (decrease_allowance operator n)
  | RevokeAllowance operator => amount (revoke_allowance operator)
  | Burn n => amount (burn n)
  | BurnFrom owner n => amount (burn_from owner n)
  | Allowance owner operator => amount (allowance owner operator)
  | OtherMethod _ => throw USR_UNHANDLED_MESSAGE
  end.
End methods.

(** ** The transfer policy *)

Section policy.
Context {TS Hook Inter TRet : Type} (tk : Token TS Hook Inter TRet).
(** The balance of an actor and the allowance of an operator over an owner. *)
Context (bal : TS -> Z -> Z) (alw : TS -> Z -> Z -> Z).

Definition only (i j amt : Z) : Z := if i =? j then amt else 0.

(** The allowances stay; no allowance grows; the operator [o] uses [amt] of its allowance over [f]. *)
Definition keeps (t t' : TS) : Prop := forall a p, alw t' a p = alw t a p.
Definition shrunk (t t' : TS) : Prop := forall a p, alw t' a p <= alw t a p.
Definition uses (t t' : TS) (f o amt : Z) : Prop :=
  amt <= alw t f o /\ alw t' f o = alw t f o - amt /\ shrunk t t'.
(** Only the allowances over [f] may change. *)
Definition grants (t t' : TS) (f : Z) : Prop := forall a p, a <> f -> alw t' a p = alw t a p.
(** The balances change by [d] and the supply by [n]. *)
Definition adds (t t' : TS) (d : Z -> Z) (n : Z) : Prop :=
  (forall j, bal t' j = bal t j + d j) /\ t_total_supply tk t' = t_total_supply tk t + n.

(** What FRC-46 says of the operations. *)
Record frc46 : Prop := {
  l_new t : t_new tk = Some t ->
    (forall i, bal t i = 0) /\ (forall i j, alw t i j = 0) /\ t_total_supply tk t = 0;
  l_mint res op to amt t hook t' : t_mint tk res op to amt t = (Ok hook, t') ->
    exists i, res to = Some i /\ 0 <= amt /\ keeps t t' /\ adds t t' (fun j => only i j amt) amt;
  l_transfer res from to amt data t hook t' : t_transfer tk res from to amt data t = (Ok hook, t') ->
    exists f i, res from = Some f /\ res to = Some i /\ 0 <= amt /\ keeps t t' /\
      adds t t' (fun j => only i j amt - only f j amt) 0;
  l_transfer_from res op from to amt data t hook t' :
    t_transfer_from tk res op from to amt data t = (Ok hook, t') ->
    exists o f i, res op = Some o /\ res from = Some f /\ res to = Some i /\ 0 <= amt /\
      uses t t' f o amt /\ adds t t' (fun j => only i j amt - only f j amt) 0;
  l_burn res owner amt t n t' : t_burn tk res owner amt t = (Ok n, t') ->
    exists f, res owner = Some f /\ 0 <= amt /\ keeps t t' /\ adds t t' (fun j => - only f j amt) (- amt);
  l_burn_from res op owner amt t n t' : t_burn_from tk res op owner amt t = (Ok n, t') ->
    exists o f, res op = Some o /\ res owner = Some f /\ 0 <= amt /\ uses t t' f o amt /\
      adds t t' (fun j => - only f j amt) (- amt);
  l_set res owner op n t u t' : t_set_allowance tk res owner op n t = (Ok u, t') ->
    exists f, res owner = Some f /\ grants t t' f /\ adds t t' (fun _ => 0) 0;
  l_increase res owner op n t u t' : t_increase_allowance tk res owner op n t = (Ok u, t') ->
    exists f, res owner = Some f /\ grants t t' f /\ adds t t' (fun _ => 0) 0;
  l_decrease res owner op n t u t' : t_decrease_allowance tk res owner op n t = (Ok u, t') ->
    exists f, res owner = Some f /\ grants t t' f /\ adds t t' (fun _ => 0) 0;
  l_revoke res owner op t u t' : t_revoke_allowance tk res owner op t = (Ok u, t') ->
    exists f, res owner = Some f /\ grants t t' f /\ adds t t' (fun _ => 0) 0;
}.

(** What a message of the actor [c] may do to the token: change the allowances
    over [c]; mint to [i] and set the allowances over [i], for the governor;
    transfer what [c] has, to or for the governor; transfer what [f] has to the
    governor, or burn it, using the allowance of [c] over [f]; burn what [c]
    has, or anyone has for the governor. *)
Inductive moves_token (c : Z) (gov : Address) (t t' : TS) : Prop :=
| mv_own : grants t t' c -> adds t t' (fun _ => 0) 0 -> moves_token c gov t t'
| mv_mint i amt :
    gov = AddrId c -> 0 <= amt -> grants t t' i -> adds t t' (fun j => only i j amt) amt ->
    moves_token c gov t t'
| mv_transfer i amt :
    gov = AddrId c \/ gov = AddrId i -> 0 <= amt -> keeps t t' ->
    adds t t' (fun j => only i j amt - only c j amt) 0 -> moves_token c gov t t'
| mv_transfer_from f i amt :
    gov = AddrId i -> 0 <= amt -> uses t t' f c amt ->
    adds t t' (fun j => only i j amt - only f j amt) 0 -> moves_token c gov t t'
| mv_burn f amt :
    f = c \/ gov = AddrId c -> 0 <= amt -> keeps t t' -> adds t t' (fun j => - only f j amt) (- amt) ->
    moves_token c gov t t'
| mv_burn_from f amt :
    0 <= amt -> uses t t' f c amt -> adds t t' (fun j => - only f j amt) (- amt) -> moves_token c gov t t'.

(** The same with the governor, which stays. *)
Definition moves (c : Z) (st st' : State TS) : Prop :=
  governor st' = governor st /\ moves_token c (governor st) (token st) (token st').

Definition initial (st : State TS) : Prop :=
  (forall i, bal (token st) i = 0) /\ (forall i j, alw (token st) i j = 0) /\ t_total_supply tk (token st) = 0.

Context (Hfrc : frc46).

Lemma on_token_ok {A} (m : St TS ExitCode A) st a st' : on_token m st = Ok (a, st') ->
  m (token st) = (Ok a, token st') /\ governor st' = governor st.
Proof. unfold on_token. intros H. destruct (m (token st)) as [[] t]; naive_solver. Qed.

Lemma mint_tokens_ok res op to amt ops t hook t' :
  mint_tokens tk res op to amt ops t = (Ok hook, t') ->
  exists i, res to = Some i /\ 0 <= amt /\ grants t t' i /\ adds t t' (fun j => only i j amt) amt.
Proof.
  unfold mint_tokens, sbind at 1, scatch. intros H.
  destruct (t_mint tk res op to amt t) as [[h|e|] t1] eqn:Hm; [| |discriminate].
  - apply (l_mint Hfrc) in Hm as (i & Hi & Hamt & Ha & Hb & Hs). exists i. split; [done|]. split; [done|].
    apply sbind_ok in H as (u & t2 & Hf & H). injection H as _ <-.
    enough (grants t1 t2 i /\ adds t1 t2 (fun _ => 0) 0) as [Ha2 [Hb2 Hs2]].
    { split; [intros a p Hne; by rewrite Ha2, Ha|]. split; [intros j; rewrite Hb2, Hb; lia|lia]. }
    clear -Hf Hfrc Hi. revert t1 Hf. generalize tt at 1. induction ops as [|o ops IH]; intros u1 t1 Hf; cbn in Hf.
    + injection Hf as _ <-. split; [done|]. split; [intros|]; lia.
    + apply sbind_ok in Hf as (u2 & t3 & H1 & H2). apply (l_set Hfrc) in H1 as (f & Hf & Ha & Hb & Hs).
      rewrite Hi in Hf. injection Hf as <-. destruct (IH _ _ H2) as [Ha2 [Hb2 Hs2]].
      split; [intros a p Hne; by rewrite Ha2, Ha|]. split; [intros j; rewrite Hb2, Hb; lia|lia].
  - apply sbind_ok in H as (u & t2 & _ & H). discriminate.
Qed.

Context {Net P : Type} (env : Env Net (State TS) P (list Z)) (ctx : Ctx).
Context (hook_call : forall W (send : SendReq P -> W -> Response (list Z) * W),
  Hook -> W -> (Inter + ExitCode) * W).
Context (method_hash : string -> Z).

(** An ID address resolves to itself. *)
Definition resolves_ids : Prop := forall net i, env_resolve_address env net (AddrId i) = Some i.

(** The receiver hook of the library does nothing but send messages. *)
Definition hook_sends : Prop := forall hook w r w',
  hook_call _ (provider_send env) hook w = (r, w') ->
  rtc (fun w1 w2 => exists req r, send env req w1 = Ok (r, w2)) w w'.

Context (Hids : resolves_ids) (Hhook : hook_sends).

Notation path := (rtc (obs initial (moves (ctx_caller ctx)) env)).

Lemma finish_path (f : TS -> Inter -> TRet + ExitCode) hook w r w' :
  finish env hook_call f hook w = Ok (r, w') -> path (w_state w) (w_state w').
Proof.
  unfold finish. intros H. apply bind_ok in H as (st & ? & [Hst ->]%state_ok & H).
  apply bind_ok in H as (i & w1 & Hh & H). apply bind_ok in H as (? & ? & [_ ->]%lift_ok & H).
  apply ret_ok in H as [= _ ->]. destruct (hook_call _ _ hook w) as [o w2] eqn:Hc.
  apply Hhook in Hc. destruct o; [|discriminate]. injection Hh as _ <-. clear -Hc.
  induction Hc as [|w1 w2 w3 (req & r & H) _ IH]; [apply rtc_refl|].
  apply send_ok in H as [-> ->]. eapply rtc_l; [apply obs_send|exact IH].
Qed.

(** ** The operations within the policy *)

Lemma mint_moves res to amt ops st hook st' : governor st = caller ctx ->
  on_token (mint_tokens tk res (governor st) to amt ops) st = Ok (hook, st') ->
  moves (ctx_caller ctx) st st'.
Proof.
  intros Hg [(i & Hi & Hamt & Ha & Hb)%mint_tokens_ok Hgov]%on_token_ok. split; [done|]. by apply (mv_mint _ _ _ _ i amt).
Qed.

Lemma burn_moves owner amt st n st' net :
  (owner = caller ctx \/ governor st = caller ctx) ->
  on_token (t_burn tk (env_resolve_address env net) owner amt) st = Ok (n, st') ->
  moves (ctx_caller ctx) st st'.
Proof.
  intros Hg [(f & Hf & Hamt & Ha & Hb)%(l_burn Hfrc) Hgov]%on_token_ok.
  split; [done|]. apply (mv_burn _ _ _ _ f amt); [|done..].
  destruct Hg as [->|Hg]; [left|by right]. unfold caller in Hf. rewrite Hids in Hf. congruence.
Qed.

Lemma burn_from_moves owner amt st n st' net :
  on_token (t_burn_from tk (env_resolve_address env net) (caller ctx) owner amt) st = Ok (n, st') ->
  moves (ctx_caller ctx) st st'.
Proof.
  intros [(o & f & Ho & Hf & Hamt & Hu & Hb)%(l_burn_from Hfrc) Hgov]%on_token_ok.
  unfold caller in Ho. rewrite Hids in Ho. injection Ho as <-. split; [done|]. by apply (mv_burn_from _ _ _ _ f amt).
Qed.

Lemma transfer_moves i amt data st hook st' net :
  AddrId i = governor st \/ caller ctx = governor st ->
  on_token (t_transfer tk (env_resolve_address env net) (caller ctx) (AddrId i) amt data) st = Ok (hook, st') ->
  moves (ctx_caller ctx) st st'.
Proof.
  intros Hg [(f & i' & Hf & Hi & Hamt & Ha & Hb)%(l_transfer Hfrc) Hgov]%on_token_ok.
  unfold caller in Hf. rewrite Hids in Hf, Hi. injection Hf as <-. injection Hi as <-.
  split; [done|]. apply (mv_transfer _ _ _ _ i amt); [|done..]. destruct Hg as [<-|<-]; [by right|by left].
Qed.

Lemma transfer_from_moves from i amt data st hook st' net :
  AddrId i = governor st ->
  on_token (t_transfer_from tk (env_resolve_address env net) (caller ctx) from (AddrId i) amt data) st
    = Ok (hook, st') ->
  moves (ctx_caller ctx) st st'.
Proof.
  intros Hg [(o & f & i' & Ho & Hf & Hi & Hamt & Hu & Hb)%(l_transfer_from Hfrc) Hgov]%on_token_ok.
  unfold caller in Ho. rewrite Hids in Ho, Hi. injection Ho as <-. injection Hi as <-.
  split; [done|]. by apply (mv_transfer_from _ _ _ _ f i amt).
Qed.

Lemma token_call_path {A} (m : Resolver -> St TS ExitCode A) w a w' :
  (forall net st a st', on_token (m (env_resolve_address env net)) st = Ok (a, st') ->
    moves (ctx_caller ctx) st st') ->
  token_call env m w = Ok (a, w') -> path (w_state w) (w_state w').
Proof.
  intros Hm H. unfold token_call in H. apply bind_ok in H as (? & ? & [_ ->]%accept_any_ok & H).
  apply bind_ok in H as (? & ? & Hw & H). injection Hw as <- <-.
  apply transaction_ok in H as (st & st' & Hst & H & ->). apply Hm in H. cbn in Hst |- *. rewrite Hst.
  apply rtc_once. by constructor.
Qed.

Lemma amount_ok (m : M Net (State TS) P (list Z) Z) w (r : Ret TRet) w' :
  amount m w = Ok (r, w') -> exists n, m w = Ok (n, w').
Proof. unfold amount. intros (n & w1 & H & [= _ ->]%ret_ok)%bind_ok. eauto. Qed.

Lemma mint_path to amt ops w r w' :
  mint tk env ctx hook_call to amt ops w = Ok (r, w') -> path (w_state w) (w_state w').
Proof.
  unfold mint. intros H. apply bind_ok in H as (hook & w1 & H1 & H2).
  apply transaction_rt_ok in H1 as (st & st' & w2 & Hst & H1 & ->). rewrite Hst.
  apply bind_ok in H1 as (? & ? & (_ & Hg%list_elem_of_singleton & ->)%caller_is_ok & H1).
  apply bind_ok in H1 as (? & ? & Hw & H1). injection Hw as <- <-. apply lift_ok in H1 as [H1 ->].
  apply mint_moves in H1; [|done]. apply finish_path in H2. eapply rtc_l; [by constructor|exact H2].
Qed.

Lemma destroy_path owner amt w r w' :
  destroy tk env ctx owner amt w = Ok (r, w') -> path (w_state w) (w_state w').
Proof.
  unfold destroy. intros H.
  apply transaction_rt_ok in H as (st & st' & w2 & Hst & H1 & ->). rewrite Hst.
  apply bind_ok in H1 as (? & ? & (_ & Hg%list_elem_of_singleton & ->)%caller_is_ok & H1).
  apply bind_ok in H1 as (? & ? & Hw & H1). injection Hw as <- <-. apply lift_ok in H1 as [H1 ->].
  apply burn_moves in H1; [|by right]. apply rtc_once. by constructor.
Qed.

Lemma transfer_path to amt data w r w' :
  transfer tk env ctx hook_call to amt data w = Ok (r, w') -> path (w_state w) (w_state w').
Proof.
  unfold transfer. intros H. apply bind_ok in H as (? & ? & [_ ->]%accept_any_ok & H).
  apply bind_ok in H as (? & ? & [-> ->]%resolve_address_ok & H).
  apply bind_ok in H as (i & ? & [_ ->]%lift_ok & H).
  apply bind_ok in H as (? & ? & Hw & H). injection Hw as <- <-.
  apply bind_ok in H as (hook & w1 & (st & st' & Hst & H1 & ->)%transaction_ok & H2).
  cbn in Hst. rewrite Hst. destruct (negb _) eqn:E; [discriminate|]. apply negb_false_iff, orb_true_iff in E.
  apply transfer_moves in H1; [|unfold addr_eqb in E; by rewrite !bool_decide_eq_true in E].
  apply finish_path in H2. eapply rtc_l; [by constructor|exact H2].
Qed.

Lemma transfer_from_path from to amt data w r w' :
  transfer_from tk env ctx hook_call from to amt data w = Ok (r, w') -> path (w_state w) (w_state w').
Proof.
  unfold transfer_from. intros H. apply bind_ok in H as (? & ? & [_ ->]%accept_any_ok & H).
  apply bind_ok in H as (? & ? & [-> ->]%resolve_address_ok & H).
  apply bind_ok in H as (i & ? & [_ ->]%lift_ok & H).
  apply bind_ok in H as (? & ? & Hw & H). injection Hw as <- <-.
  apply bind_ok in H as (hook & w1 & (st & st' & Hst & H1 & ->)%transaction_ok & H2).
  cbn in Hst. rewrite Hst. destruct (negb _) eqn:E; [discriminate|].
  apply transfer_from_moves in H1; [|unfold addr_eqb in E; by bool_prop].
  apply finish_path in H2. eapply rtc_l; [by constructor|exact H2].
Qed.

Lemma invoke_path m w r w' :
  invoke_method tk env ctx hook_call method_hash m w = Ok (r, w') -> path (w_state w) (w_state w').
Proof.
  intros H. unfold invoke_method in H. apply bind_ok in H as (u & w1 & H1 & H).
  apply restrict_state in H1 as ->.
  destruct m; try (apply amount_ok in H as (n' & H));
    try (by eauto using mint_path, destroy_path, transfer_path, transfer_from_path);
    try (eapply token_call_path; [|exact H]; intros net st a st' Hop).
  { unfold constructor in H. run_inv.
    match goal with H : w_state w = None |- _ => rewrite H end. apply rtc_once, obs_create.
    match goal with H : t_new tk = Some _ |- _ => by apply (l_new Hfrc) in H end. }
  1-3, 4, 5, 11: unfold constant, total_supply, balance, allowance in H; run_inv;
    repeat match goal with H : get_world _ = Ok _ |- _ => injection H as <- <- end; apply rtc_refl.
  4-5: eauto using burn_moves, burn_from_moves.
  all: pose proof Hop as [H1 Hg]%on_token_ok;
    first [apply (l_increase Hfrc) in H1|apply (l_decrease Hfrc) in H1|apply (l_revoke Hfrc) in H1];
    destruct H1 as (f & Hf & Ha & Hb); unfold caller in Hf; rewrite Hids in Hf; injection Hf as <-;
    split; [done|by apply mv_own].
Qed.
End policy.

(** ** Runs *)

Section runs.
Context {TS Hook Inter TRet : Type} (tk : Token TS Hook Inter TRet).
Context (bal : TS -> Z -> Z) (alw : TS -> Z -> Z -> Z).
Context {Net P : Type}.
Context (hook_call : forall W (send : SendReq P -> W -> Response (list Z) * W),
  Hook -> W -> (Inter + ExitCode) * W).
Context (method_hash : string -> Z).

(** Runs of the actor on the chain in which all messages come from the actors
    [A], ID addresses resolve to themselves and the receiver hook only sends
    messages; the resource of the runs is not used. *)
Definition datacap_chain (A : Z -> Prop) : Conf (State TS) -> Conf (State TS) -> Prop :=
  chain (fun env ctx => @invoke_method Net TS Hook Inter TRet P tk env ctx hook_call method_hash)
    (fun _ => 0) (fun _ _ => 0) (fun _ _ => 0) (fun ctx _ _ => A (ctx_caller ctx))
    (fun env => resolves_ids env /\ hook_sends env hook_call) (fun v => v = 0).

(** The steps of a run: the creation with no tokens, and the moves of the callers. *)
Inductive token_step (A : Z -> Prop) : option (State TS) -> option (State TS) -> Prop :=
| ts_create st : initial tk bal alw st -> token_step A None (Some st)
| ts_move c st st' : A c -> moves tk bal alw c st st' -> token_step A (Some st) (Some st').

(** C21: data cap is not transferable between its holders.  Along every run of
    the actor whose messages come from the actors [A], whatever the messages
    are and whatever the token's hooks call back, the token changes by moves of
    actors of [A] only.  The governor mints, with allowances over what it mints;
    it transfers what it holds and burns what anyone holds.  An actor transfers
    what it holds to the governor, burns it, and changes the allowances over it.
    An operator transfers to the governor or burns what another holds by using
    up its allowance.  The governor never changes.  Of the token library it is
    assumed what FRC-46 says of its operations. *)
Theorem datacap_policy A c c' :
  frc46 tk bal alw -> datacap_chain A c c' -> rtc (token_step A) (c_state c) (c_state c').
Proof.
  intros Hfrc. apply (chain_rel _ _ _ _ _ _ _ (fun c c' => rtc (token_step A) (c_state c) (c_state c'))).
  - intros. apply rtc_refl.
  - intros. by etrans.
  - intros. apply rtc_refl.
  - intros. apply rtc_refl.
  - intros env ctx m w r w' [Hids Hhook] Hsend _ HA H. cbn [c_state].
    apply (invoke_path tk bal alw Hfrc) in H; [|done..].
    induction H as [|s1 s2 s3 [st Hi|st st' Hm|req net s b] _ IH]; [apply rtc_refl|..|]; (etrans; [|exact IH]).
    + apply rtc_once. by constructor.
    + apply rtc_once. by econstructor.
    + exact (Hsend req (mkWorld s b net false false []) _ _ eq_refl).
Qed.
End runs.
End Datacap.
