(* ===== verification/Multisig.v ===== *)
(** * The multisig actor

    Models src/actors/multisig/src/{lib,state,types}.rs: the state, its linear
    unlock schedule, the pending transactions and every exported method.  The
    HAMT of pending transactions is the finite map its CID denotes.

    The theorems show: the handlers implement an abstract multisig whose
    actions carry their guards on caller, approvals and funds, sends included;
    the well-formedness invariant holds in every state the actor can reach,
    through any nesting of re-entrant calls; a transaction is sent only with a
    threshold of distinct signers behind it, at most once, after it was removed
    from the pending ones, and never spends locked funds; the unlock schedule;
    what purging a signer's approvals does. *)

From S2P Require Import Prelude Runtime Trace.

(** ** Data (types.rs, state.rs) *)

Definition SIGNERS_MAX : Z := 256.

Record Transaction : Type := mkTxn {
  to : Address;
  value : Z;
  method : Z;
  params : list Z;
  approved : list Address;
}.

#[global] Instance Transaction_eq_dec : EqDecision Transaction.
Proof. solve_decision. Defined.

Definition with_approved (l : list Address) (t : Transaction) : Transaction :=
  mkTxn (to t) (value t) (method t) (params t) l.

Record State : Type := mkState {
  signers : list Address;
  num_approvals_threshold : Z;
  next_tx_id : Z;
  initial_balance : Z;
  start_epoch : Z;
  unlock_duration : Z;
  pending_txs : gmap Z Transaction;
}.

Definition with_signers (l : list Address) (st : State) : State :=
  mkState l (num_approvals_threshold st) (next_tx_id st) (initial_balance st)
    (start_epoch st) (unlock_duration st) (pending_txs st).
Definition with_threshold (n : Z) (st : State) : State :=
  mkState (signers st) n (next_tx_id st) (initial_balance st)
    (start_epoch st) (unlock_duration st) (pending_txs st).
Definition with_next_tx_id (n : Z) (st : State) : State :=
  mkState (signers st) (num_approvals_threshold st) n (initial_balance st)
    (start_epoch st) (unlock_duration st) (pending_txs st).
Definition with_pending (m : gmap Z Transaction) (st : State) : State :=
  mkState (signers st) (num_approvals_threshold st) (next_tx_id st) (initial_balance st)
    (start_epoch st) (unlock_duration st) m.

Record ConstructorParams : Type := mkConstructor {
  cp_signers : list Address;
  cp_num_approvals_threshold : Z;
  cp_unlock_duration : Z;
  cp_start_epoch : Z;
}.
Record ProposeParams : Type := mkPropose {
  pp_to : Address;
  pp_value : Z;
  pp_method : Z;
  pp_params : list Z;
}.
Record TxnIDParams : Type := mkTxnID {
  ti_id : Z;
  ti_proposal_hash : list Z;
}.
Record AddSignerParams : Type := mkAddSigner { as_signer : Address; as_increase : bool }.
Record RemoveSignerParams : Type := mkRemoveSigner { rs_signer : Address; rs_decrease : bool }.
Record SwapSignerParams : Type := mkSwapSigner { ss_from : Address; ss_to : Address }.
Record LockBalanceParams : Type := mkLockBalance {
  lb_start_epoch : Z;
  lb_unlock_duration : Z;
  lb_amount : Z;
}.
Record ProposeReturn : Type := mkProposeReturn {
  pr_txn_id : Z;
  pr_applied : bool;
  pr_code : ExitCode;
  pr_ret : list Z;
}.
Record ApproveReturn : Type := mkApproveReturn {
  ar_applied : bool;
  ar_code : ExitCode;
  ar_ret : list Z;
}.

(** Parameters and return data of messages are raw bytes. *)
Notation bytes := (list Z).
Notation error := (ActorError bytes).

(** ** State methods (state.rs) *)

Definition is_signer (st : State) (address : Address) : bool :=
  existsb (addr_eqb address) (signers st).

Definition set_locked (se ud locked : Z) (st : State) : State :=
  mkState (signers st) (num_approvals_threshold st) (next_tx_id st) locked se ud
    (pending_txs st).

Definition amount_locked (st : State) (elapsed_epoch : Z) : Z :=
  if elapsed_epoch >=? unlock_duration st then 0
  else if elapsed_epoch <=? 0 then initial_balance st
  else
    let remaining_lock_duration := unlock_duration st - elapsed_epoch in
    let numerator := initial_balance st * remaining_lock_duration in
    let denominator := unlock_duration st in
    div_ceil numerator denominator.

(** One step of the second loop of [purge_approvals]. *)
Definition purge_one (addr : Address) (txns : gmap Z Transaction)
    (e : Z * Transaction) : gmap Z Transaction :=
  let '(tx_id, txn) := e in
  let remaining := List.filter (fun a => negb (addr_eqb a addr)) (approved txn) in
  match remaining with
  | [] => delete tx_id txns
  | _ => <[tx_id := with_approved remaining txn]> txns
  end.

Definition purge_approvals (addr : Address) (st : State) : State :=
  let txns := pending_txs st in
  let txn_ids_to_purge :=
    List.filter (fun e => existsb (fun a => addr_eqb a addr) (approved e.2))
      (map_to_list txns) in
  with_pending (foldl (purge_one addr) txns txn_ids_to_purge) st.

Definition check_available (st : State) (balance amount_to_spend curr_epoch : Z)
  : Res error unit :=
  if amount_to_spend <? 0 then Err (err USR_ILLEGAL_ARGUMENT)
  else if balance <? amount_to_spend then Err (err USR_INSUFFICIENT_FUNDS)
  else if amount_to_spend =? 0 then Ok tt
  else
    let remaining_balance := balance - amount_to_spend in
    let! elapsed := chk_i64 (curr_epoch - start_epoch st) in
    let locked := amount_locked st elapsed in
    if remaining_balance <? locked then Err (err USR_INSUFFICIENT_FUNDS)
    else Ok tt.

(** ** Methods (lib.rs) *)

Inductive Msg : Type :=
| Constructor (p : ConstructorParams)
| Propose (p : ProposeParams)
| Approve (p : TxnIDParams)
| Cancel (p : TxnIDParams)
| AddSigner (p : AddSignerParams)
| RemoveSigner (p : RemoveSignerParams)
| SwapSigner (p : SwapSignerParams)
| ChangeNumApprovalsThreshold (new_threshold : Z)
| LockBalance (p : LockBalanceParams)
| UniversalReceiverHook
| OtherMethod (method : Z).

Inductive Ret : Type :=
| RUnit
| RPropose (r : ProposeReturn)
| RApprove (r : ApproveReturn).

Section methods.
Context {Net : Type}.
(** CBOR encoding of [ProposalHashData]; it can fail. *)
Context (serialize_proposal : option Address -> Address -> Z -> Z -> bytes -> option bytes).
(** The FRC-42 hash of ["Receive"]. *)
Context (receive_method : Z).
Context (env : Env Net State bytes bytes) (ctx : Ctx).

Notation M := (M Net State bytes bytes).

Definition compute_proposal_hash (txn : Transaction) : option bytes :=
  match serialize_proposal (head (approved txn)) (to txn) (value txn) (method txn)
          (params txn) with
  | None => None
  | Some data => Some (env_hash_blake2b env data)
  end.

Definition get_transaction (ptx : gmap Z Transaction) (txn_id : Z) (proposal_hash : bytes)
  : Res error Transaction :=
  let! txn := ok_or (ptx !! txn_id) (err USR_NOT_FOUND) in
  if bool_decide (proposal_hash <> []) then
    let! calculated_hash := ok_or (compute_proposal_hash txn) (err USR_ILLEGAL_STATE) in
    if bool_decide (proposal_hash <> calculated_hash) then Err (err USR_ILLEGAL_ARGUMENT)
    else Ok txn
  else Ok txn.

Definition execute_transaction_if_approved (st : State) (txn_id : Z) (txn : Transaction)
  : M (bool * bytes * ExitCode) :=
  let threshold_met := Z.of_nat (length (approved txn)) >=? num_approvals_threshold st in
  if threshold_met then
    let* balance := current_balance in
    let* _ := lift (check_available st balance (value txn) (ctx_epoch ctx)) in
    let* _ := transaction (fun st =>
      Ok (tt, with_pending (delete txn_id (pending_txs st)) st)) in
    let* res := send_simple env (to txn) (method txn) (params txn) (value txn) in
    match extract_send_result res with
    | Ok (Some r) => ret (true, r, EC_OK)
    | Ok None => ret (true, [], EC_OK)
    | Err e => ret (true, default [] (err_data e), exit_code e)
    | Panic => fun _ => Panic
    end
  else ret (false, [], EC_OK).

Definition approve_transaction (tx_id : Z) (txn : Transaction)
  : M (bool * bytes * ExitCode) :=
  if existsb (fun previous_approver => addr_eqb previous_approver (caller ctx)) (approved txn)
  then throw USR_FORBIDDEN
  else
    let txn := with_approved (approved txn ++ [caller ctx]) txn in
    let* st := transaction (fun st =>
      let st := with_pending (<[tx_id := txn]> (pending_txs st)) st in
      Ok (st, st)) in
    execute_transaction_if_approved st tx_id txn.

(** The loop of [constructor] that resolves the signers and rejects
    duplicates. *)
Fixpoint resolve_signers (resolved : list Z) (l : list Address) : M (list Z) :=
  match l with
  | [] => ret resolved
  | signer :: l' =>
      let* id := resolve_to_actor_id env [] signer true in
      if existsb (Z.eqb id) resolved then throw USR_ILLEGAL_ARGUMENT
      else resolve_signers (resolved ++ [id]) l'
  end.

Definition constructor (p : ConstructorParams) : M unit :=
  let* _ := validate_immediate_caller_is ctx [INIT_ACTOR_ADDR] in
  if bool_decide (cp_signers p = []) then throw USR_ILLEGAL_ARGUMENT
  else if Z.of_nat (length (cp_signers p)) >? SIGNERS_MAX then throw USR_ILLEGAL_ARGUMENT
  else
    let* resolved := resolve_signers [] (cp_signers p) in
    if cp_num_approvals_threshold p >? Z.of_nat (length (cp_signers p))
    then throw USR_ILLEGAL_ARGUMENT
    else if cp_num_approvals_threshold p <? 1 then throw USR_ILLEGAL_ARGUMENT
    else if cp_unlock_duration p <? 0 then throw USR_ILLEGAL_ARGUMENT
    else
      let st := mkState (AddrId <$> resolved) (cp_num_approvals_threshold p) 0 0 0 0 ∅ in
      let st :=
        if negb (cp_unlock_duration p =? 0)
        then set_locked (cp_start_epoch p) (cp_unlock_duration p) (ctx_value_received ctx) st
        else st in
      create st.

Definition propose (p : ProposeParams) : M ProposeReturn :=
  let* _ := validate_immediate_caller_accept_any in
  let proposer := caller ctx in
  if pp_value p <? 0 then throw USR_ILLEGAL_ARGUMENT
  else
    let* (txn_id, txn) := transaction (fun st =>
      if negb (is_signer st proposer) then Err (err USR_FORBIDDEN)
      else
        let t_id := next_tx_id st in
        let! next := chk_i64 (t_id + 1) in
        let st := with_next_tx_id next st in
        let txn := mkTxn (pp_to p) (pp_value p) (pp_method p) (pp_params p) [] in
        let st := with_pending (<[t_id := txn]> (pending_txs st)) st in
        Ok ((t_id, txn), st)) in
    let* (applied, r, code) := approve_transaction txn_id txn in
    ret (mkProposeReturn txn_id applied code r).

Definition approve (p : TxnIDParams) : M ApproveReturn :=
  let* _ := validate_immediate_caller_accept_any in
  let approver := caller ctx in
  let id := ti_id p in
  let* (st, txn) := transaction (fun st =>
    if negb (is_signer st approver) then Err (err USR_FORBIDDEN)
    else
      let! txn := get_transaction (pending_txs st) (ti_id p) (ti_proposal_hash p) in
      Ok ((st, txn), st)) in
  let* (applied, r, code) := execute_transaction_if_approved st id txn in
  if negb applied then
    let* (applied, r, code) := approve_transaction id txn in
    ret (mkApproveReturn applied code r)
  else ret (mkApproveReturn applied code r).

Definition cancel (p : TxnIDParams) : M unit :=
  let* _ := validate_immediate_caller_accept_any in
  let caller_addr := caller ctx in
  transaction (fun st =>
    if negb (is_signer st caller_addr) then Err (err USR_FORBIDDEN)
    else
      let ptx := pending_txs st in
      let! tx := ok_or (ptx !! ti_id p) (err USR_NOT_FOUND) in
      let ptx := delete (ti_id p) ptx in
      if bool_decide (head (approved tx) <> Some caller_addr) then Err (err USR_FORBIDDEN)
      else
        let! calculated_hash := ok_or (compute_proposal_hash tx) (err USR_ILLEGAL_STATE) in
        if bool_decide (ti_proposal_hash p <> []) &&
           bool_decide (ti_proposal_hash p <> calculated_hash)
        then Err (err USR_ILLEGAL_STATE)
        else Ok (tt, with_pending ptx st)).

Definition add_signer (p : AddSignerParams) : M unit :=
  let* _ := validate_immediate_caller_is ctx [receiver ctx] in
  let* resolved_new_signer := resolve_to_actor_id env [] (as_signer p) true in
  transaction (fun st =>
    if Z.of_nat (length (signers st)) >=? SIGNERS_MAX then Err (err USR_FORBIDDEN)
    else if is_signer st (AddrId resolved_new_signer) then Err (err USR_FORBIDDEN)
    else
      let st := with_signers (signers st ++ [AddrId resolved_new_signer]) st in
      if as_increase p then
        let! n := chk_u64 (num_approvals_threshold st + 1) in
        Ok (tt, with_threshold n st)
      else Ok (tt, st)).

Definition remove_signer (p : RemoveSignerParams) : M unit :=
  let* _ := validate_immediate_caller_is ctx [receiver ctx] in
  let* resolved_old_signer := resolve_to_actor_id env [] (rs_signer p) false in
  let old := AddrId resolved_old_signer in
  transaction (fun st =>
    let n := Z.of_nat (length (signers st)) in
    if negb (is_signer st old) then Err (err USR_FORBIDDEN)
    else if n =? 1 then Err (err USR_FORBIDDEN)
    else if negb (rs_decrease p) && (n - 1 <? num_approvals_threshold st)
    then Err (err USR_ILLEGAL_ARGUMENT)
    else
      let! st :=
        if rs_decrease p then
          if num_approvals_threshold st <? 2 then Err (err USR_ILLEGAL_ARGUMENT)
          else Ok (with_threshold (num_approvals_threshold st - 1) st)
        else Ok st in
      let st := purge_approvals old st in
      let st := with_signers (List.filter (fun s => negb (addr_eqb s old)) (signers st)) st in
      Ok (tt, st)).

Definition swap_signer (p : SwapSignerParams) : M unit :=
  let* _ := validate_immediate_caller_is ctx [receiver ctx] in
  let* from_resolved := resolve_to_actor_id env [] (ss_from p) false in
  let* to_resolved := resolve_to_actor_id env [] (ss_to p) true in
  let from := AddrId from_resolved in
  transaction (fun st =>
    if negb (is_signer st from) then Err (err USR_FORBIDDEN)
    else if is_signer st (AddrId to_resolved) then Err (err USR_ILLEGAL_ARGUMENT)
    else
      let st := with_signers (List.filter (fun s => negb (addr_eqb s from)) (signers st)) st in
      let st := with_signers (signers st ++ [AddrId to_resolved]) st in
      Ok (tt, purge_approvals from st)).

Definition change_num_approvals_threshold (new_threshold : Z) : M unit :=
  let* _ := validate_immediate_caller_is ctx [receiver ctx] in
  transaction (fun st =>
    if (new_threshold =? 0) || (new_threshold >? Z.of_nat (length (signers st)))
    then Err (err USR_ILLEGAL_ARGUMENT)
    else Ok (tt, with_threshold new_threshold st)).

Definition lock_balance (p : LockBalanceParams) : M unit :=
  let* _ := validate_immediate_caller_is ctx [receiver ctx] in
  if lb_unlock_duration p <=? 0 then throw USR_ILLEGAL_ARGUMENT
  else if lb_amount p <? 0 then throw USR_ILLEGAL_ARGUMENT
  else
    transaction (fun st =>
      if negb (unlock_duration st =? 0) then Err (err USR_FORBIDDEN)
      else Ok (tt, set_locked (lb_start_epoch p) (lb_unlock_duration p) (lb_amount p) st)).

Definition universal_receiver_hook : M unit :=
  validate_immediate_caller_accept_any.

Definition fallback (method : Z) : M unit :=
  let* _ := validate_immediate_caller_accept_any in
  if method >=? FIRST_EXPORTED_METHOD_NUMBER then ret tt
  else throw USR_UNHANDLED_MESSAGE.

Definition method_num (m : Msg) : Z :=
  match m with
  | Constructor _ => 1
  | Propose _ => 2
  | Approve _ => 3
  | Cancel _ => 4
  | AddSigner _ => 5
  | RemoveSigner _ => 6
  | SwapSigner _ => 7
  | ChangeNumApprovalsThreshold _ => 8
  | LockBalance _ => 9
  | UniversalReceiverHook => receive_method
  | OtherMethod n => n
  end.

(** The parameters that decode: integers within their declared types. *)
Definition decodes (m : Msg) : bool :=
  match m with
  | Constructor p =>
      in_u64 (cp_num_approvals_threshold p) && in_i64 (cp_unlock_duration p) &&
      in_i64 (cp_start_epoch p)
  | Propose p => in_u64 (pp_method p)
  | Approve p | Cancel p => in_i64 (ti_id p)
  | ChangeNumApprovalsThreshold n => in_u64 n
  | LockBalance p => in_i64 (lb_start_epoch p) && in_i64 (lb_unlock_duration p)
  | _ => true
  end.

(** [actor_dispatch!]: the internal-API restriction, decoding, the method. *)
Definition invoke_method (m : Msg) : M Ret :=
  let* _ := restrict_internal_api env ctx (method_num m) in
  if negb (decodes m) then throw USR_SERIALIZATION
  else
  let unit_ret (h : M unit) : M Ret := let* _ := h in ret RUnit in
  match m with
  | Constructor p => unit_ret (constructor p)
  | Propose p => let* r := propose p in ret (RPropose r)
  | Approve p => let* r := approve p in ret (RApprove r)
  | Cancel p => unit_ret (cancel p)
  | AddSigner p => unit_ret (add_signer p)
  | RemoveSigner p => unit_ret (remove_signer p)
  | SwapSigner p => unit_ret (swap_signer p)
  | ChangeNumApprovalsThreshold n => unit_ret (change_num_approvals_threshold n)
  | LockBalance p => unit_ret (lock_balance p)
  | UniversalReceiverHook => unit_ret universal_receiver_hook
  | OtherMethod n => unit_ret (fallback n)
  end.

End methods.

(** ** The well-formedness invariant *)

Record txn_wf (st : State) (id : Z) (t : Transaction) : Prop := {
  txn_id_range : 0 <= id < next_tx_id st;
  txn_value : 0 <= value t;
  txn_approved : approved t <> [];
  txn_nodup : NoDup (approved t);
  txn_signers : forall a, a ∈ approved t -> a ∈ signers st;
}.

Record wf (st : State) : Prop := {
  wf_nodup : NoDup (signers st);
  wf_max : Z.of_nat (length (signers st)) <= SIGNERS_MAX;
  wf_threshold : 1 <= num_approvals_threshold st <= Z.of_nat (length (signers st));
  wf_next : 0 <= next_tx_id st;
  wf_lock : 0 <= initial_balance st /\ 0 <= unlock_duration st;
  wf_pending : forall id t, pending_txs st !! id = Some t -> txn_wf st id t;
}.

Definition wf_opt (s : option State) : Prop :=
  match s with Some st => wf st | None => True end.

(** ** State lemmas *)

Lemma existsb_addr l a : existsb (fun x => addr_eqb x a) l = true <-> a ∈ l.
Proof.
  rewrite existsb_exists. setoid_rewrite list_elem_of_In. unfold addr_eqb.
  split; [|eauto using bool_decide_eq_true_2].
  intros (x & Hx & Heq). bool_prop. by subst.
Qed.

Lemma is_signer_spec st a : is_signer st a = true <-> a ∈ signers st.
Proof.
  rewrite <- existsb_addr. unfold is_signer, addr_eqb.
  assert (existsb (fun b => bool_decide (a = b)) (signers st) =
          existsb (fun b => bool_decide (b = a)) (signers st)) as ->; [|done].
  induction (signers st) as [|x l IH]; cbn; [done|]. rewrite IH. f_equal.
  apply bool_decide_ext. naive_solver.
Qed.

Lemma is_signer_false st a : is_signer st a = false -> a ∉ signers st.
Proof. rewrite <- is_signer_spec. by intros ->. Qed.

Definition drop_addr (a : Address) (l : list Address) : list Address :=
  List.filter (fun x => negb (addr_eqb x a)) l.

Lemma elem_of_drop_addr a x l : x ∈ drop_addr a l <-> x ∈ l /\ x <> a.
Proof.
  unfold drop_addr. rewrite !list_elem_of_In, filter_In. unfold addr_eqb.
  rewrite negb_true_iff, bool_decide_eq_false. done.
Qed.

Lemma NoDup_drop_addr a l : NoDup l -> NoDup (drop_addr a l).
Proof. rewrite !NoDup_ListNoDup. apply List.NoDup_filter. Qed.

Lemma drop_addr_cons a x l :
  drop_addr a (x :: l) = if decide (x = a) then drop_addr a l else x :: drop_addr a l.
Proof.
  unfold drop_addr, addr_eqb. cbn. case_decide.
  - by rewrite bool_decide_eq_true_2.
  - by rewrite bool_decide_eq_false_2.
Qed.

Lemma drop_addr_notin a l : a ∉ l -> drop_addr a l = l.
Proof.
  induction l as [|x l IH]; [done|]. rewrite drop_addr_cons, not_elem_of_cons.
  intros [Hx Hn]. rewrite decide_False by done. f_equal. by apply IH.
Qed.

Lemma length_drop_addr a l :
  NoDup l -> a ∈ l -> Z.of_nat (length (drop_addr a l)) = Z.of_nat (length l) - 1.
Proof.
  induction 1 as [|x l Hx Hl IH]; [by intros ?%elem_of_nil|].
  rewrite drop_addr_cons. intros [->|Ha]%elem_of_cons.
  - rewrite decide_True, drop_addr_notin by done. cbn. lia.
  - rewrite decide_False by (intros ->; done). cbn. specialize (IH Ha). lia.
Qed.

(** The reference meaning of purging on one transaction. *)
Definition purge_txn (addr : Address) (t : Transaction) : option Transaction :=
  if bool_decide (addr ∈ approved t) then
    match drop_addr addr (approved t) with
    | [] => None
    | l => Some (with_approved l t)
    end
  else Some t.

Lemma purge_one_lookup addr m id t k :
  purge_one addr m (id, t) !! k =
  if decide (k = id)
  then match drop_addr addr (approved t) with
       | [] => None | l => Some (with_approved l t) end
  else m !! k.
Proof.
  unfold purge_one. fold (drop_addr addr (approved t)).
  destruct (drop_addr addr (approved t)); case_decide; subst;
    by rewrite ?lookup_delete_eq, ?lookup_insert_eq, ?lookup_delete_ne, ?lookup_insert_ne.
Qed.

Lemma purge_fold_lookup addr l : forall m k,
  NoDup l.*1 ->
  foldl (purge_one addr) m l !! k =
  match list_find (fun e => e.1 = k) l with
  | Some (_, (_, t)) =>
      match drop_addr addr (approved t) with
      | [] => None | l => Some (with_approved l t) end
  | None => m !! k
  end.
Proof.
  induction l as [|[id t] l IH]; intros m k Hnd; [done|].
  cbn [foldl fmap list_fmap fst] in *. apply NoDup_cons in Hnd as [Hid Hnd].
  rewrite IH by done. cbn [list_find fst]. rewrite purge_one_lookup.
  destruct (decide (id = k)) as [->|Hne].
  - rewrite decide_True by done.
    replace (list_find (fun e => e.1 = k) l) with (@None (nat * (Z * Transaction)));
      [done|]. symmetry. apply list_find_None. apply Forall_forall.
    intros [k' t'] Hin Heq. cbn in Heq. subst k'. apply Hid.
    apply list_elem_of_fmap. by exists (k, t').
  - rewrite decide_False by done.
    destruct (list_find _ l) as [[i [k' t']]|]; done.
Qed.

Lemma purge_candidates_find addr (m : gmap Z Transaction) k :
  list_find (fun e : Z * Transaction => e.1 = k)
    (List.filter (fun e => existsb (fun a => addr_eqb a addr) (approved e.2))
       (map_to_list m)) = None /\ (forall t, m !! k = Some t -> addr ∉ approved t) \/
  exists i t, list_find (fun e : Z * Transaction => e.1 = k)
    (List.filter (fun e => existsb (fun a => addr_eqb a addr) (approved e.2))
       (map_to_list m)) = Some (i, (k, t)) /\ m !! k = Some t /\ addr ∈ approved t.
Proof.
  destruct (list_find _ _) as [[i [k' t]]|] eqn:E.
  - right. apply list_find_Some in E as (E & Heq & _). cbn in Heq. subst k'.
    apply list_elem_of_lookup_2, list_elem_of_In, filter_In in E as [Hin Hap].
    apply list_elem_of_In, elem_of_map_to_list in Hin.
    apply existsb_addr in Hap. by exists i, t.
  - left. split; [done|]. intros t Hk Hap. apply list_find_None in E.
    rewrite Forall_forall in E. apply (E (k, t)); [|done].
    apply list_elem_of_In, filter_In. split.
    + by apply list_elem_of_In, elem_of_map_to_list.
    + by apply existsb_addr.
Qed.

Lemma purge_lookup addr st k :
  pending_txs (purge_approvals addr st) !! k = pending_txs st !! k ≫= purge_txn addr.
Proof.
  unfold purge_approvals. cbn [pending_txs with_pending].
  rewrite purge_fold_lookup.
  - destruct (purge_candidates_find addr (pending_txs st) k)
      as [[-> Hno]|(i & t & -> & Hk & Hap)].
    + destruct (pending_txs st !! k) as [t|] eqn:Hk; [|done]. cbn.
      unfold purge_txn. rewrite bool_decide_eq_false_2; [done|]. by apply Hno.
    + rewrite Hk. cbn. unfold purge_txn. by rewrite bool_decide_eq_true_2.
  - pose proof (NoDup_fst_map_to_list (pending_txs st)) as Hnd.
    induction (map_to_list (pending_txs st)) as [|e l IH]; cbn; [done|].
    cbn in Hnd. apply NoDup_cons in Hnd as [He Hnd].
    case_match; [|by apply IH]. cbn. apply NoDup_cons. split; [|by apply IH].
    intros (y & Hy & Hin)%list_elem_of_fmap. apply He. apply list_elem_of_fmap.
    exists y. split; [done|]. apply list_elem_of_In.
    by apply list_elem_of_In, filter_In in Hin as [? _].
Qed.

Lemma purge_threshold addr st :
  num_approvals_threshold (purge_approvals addr st) = num_approvals_threshold st.
Proof. done. Qed.

#[local] Arguments purge_approvals : simpl never.

(** ** The abstract multisig

    What the actor promises, as a transition system: the actions a message may
    take, each with its guard on the caller and the state.  The handlers below
    implement it, and the invariants are proved of it. *)

(** Spending [value] out of [balance] leaves the locked amount. *)
Definition spendable (st : State) (balance value epoch : Z) : Prop :=
  0 <= value <= balance /\
  (value = 0 \/ amount_locked st (epoch - start_epoch st) <= balance - value).

Definition remove_txn (id : Z) (st : State) : State := with_pending (delete id (pending_txs st)) st.

(** The message that executes a transaction. *)
Definition request (t : Transaction) : SendReq bytes :=
  mkSend (to t) (method t) (params t) (value t) false.

Section spec.
Context {Net : Type}.
Context (serialize_proposal : option Address -> Address -> Z -> Z -> bytes -> option bytes).
Context (env : Env Net State bytes bytes) (ctx : Ctx).

(** An ID that an address stood for at some point of the message. *)
Definition resolved (a : Address) (i : Z) : Prop :=
  exists net, env_resolve_address env net a = Some i.

(** The hash in a message is empty or that of the transaction. *)
Definition hash_ok (p : TxnIDParams) (t : Transaction) : Prop :=
  ti_proposal_hash p = [] \/
  compute_proposal_hash serialize_proposal env t = Some (ti_proposal_hash p).

(** A state the constructor may create. *)
Record initial (p : ConstructorParams) (st : State) : Prop := {
  init_signers : exists ids, Forall2 resolved (cp_signers p) ids /\ signers st = AddrId <$> ids;
  init_nodup : NoDup (signers st);
  init_max : Z.of_nat (length (signers st)) <= SIGNERS_MAX;
  init_threshold : num_approvals_threshold st = cp_num_approvals_threshold p /\
    1 <= num_approvals_threshold st <= Z.of_nat (length (signers st));
  init_lock : unlock_duration st = cp_unlock_duration p /\ 0 <= unlock_duration st /\
    if unlock_duration st =? 0 then start_epoch st = 0 /\ initial_balance st = 0
    else start_epoch st = cp_start_epoch p /\ initial_balance st = ctx_value_received ctx;
  init_next : next_tx_id st = 0;
  init_pending : pending_txs st = ∅;
}.

(** The changes of the state that send nothing: a signer proposes, approves or
    withdraws a proposal of their own; everything else is done by the actor
    itself, that is by a transaction it executes. *)
Inductive step (st : State) : Msg -> State -> Prop :=
| step_propose p :
    caller ctx ∈ signers st -> 0 <= pp_value p ->
    step st (Propose p)
      (with_pending (<[next_tx_id st :=
           mkTxn (pp_to p) (pp_value p) (pp_method p) (pp_params p) [caller ctx]]> (pending_txs st))
         (with_next_tx_id (next_tx_id st + 1) st))
| step_approve p t :
    caller ctx ∈ signers st -> pending_txs st !! ti_id p = Some t -> hash_ok p t ->
    caller ctx ∉ approved t -> Z.of_nat (length (approved t)) < num_approvals_threshold st ->
    step st (Approve p)
      (with_pending (<[ti_id p := with_approved (approved t ++ [caller ctx]) t]> (pending_txs st)) st)
| step_cancel p t :
    caller ctx ∈ signers st -> pending_txs st !! ti_id p = Some t -> hash_ok p t ->
    head (approved t) = Some (caller ctx) ->
    step st (Cancel p) (remove_txn (ti_id p) st)
| step_add_signer p i :
    caller ctx = receiver ctx -> resolved (as_signer p) i ->
    AddrId i ∉ signers st -> Z.of_nat (length (signers st)) < SIGNERS_MAX ->
    step st (AddSigner p)
      (with_threshold (num_approvals_threshold st + if as_increase p then 1 else 0)
         (with_signers (signers st ++ [AddrId i]) st))
| step_drop_signer p i :
    caller ctx = receiver ctx -> resolved (rs_signer p) i -> AddrId i ∈ signers st ->
    (if rs_decrease p then 2 <= num_approvals_threshold st
     else num_approvals_threshold st <= Z.of_nat (length (signers st)) - 1) ->
    step st (RemoveSigner p)
      (with_signers (drop_addr (AddrId i) (signers st)) (purge_approvals (AddrId i)
        (with_threshold (num_approvals_threshold st - if rs_decrease p then 1 else 0) st)))
| step_swap_signer p i j :
    caller ctx = receiver ctx -> resolved (ss_from p) i -> resolved (ss_to p) j ->
    AddrId i ∈ signers st -> AddrId j ∉ signers st ->
    step st (SwapSigner p)
      (purge_approvals (AddrId i) (with_signers (drop_addr (AddrId i) (signers st) ++ [AddrId j]) st))
| step_threshold n :
    caller ctx = receiver ctx -> 1 <= n <= Z.of_nat (length (signers st)) ->
    step st (ChangeNumApprovalsThreshold n) (with_threshold n st)
| step_lock p :
    caller ctx = receiver ctx -> unlock_duration st = 0 -> 0 < lb_unlock_duration p -> 0 <= lb_amount p ->
    step st (LockBalance p)
      (set_locked (lb_start_epoch p) (lb_unlock_duration p) (lb_amount p) st).

(** The transaction a message may execute: the one it just proposed, or the
    one it approves. *)
Definition subject (m : Msg) (st : State) (id : Z) (t : Transaction) : Prop :=
  match m with
  | Propose p => id = next_tx_id st - 1 /\
      t = mkTxn (pp_to p) (pp_value p) (pp_method p) (pp_params p) [caller ctx]
  | Approve p => id = ti_id p /\ (hash_ok p t \/ last (approved t) = Some (caller ctx))
  | _ => False
  end.

(** The actions of a message.  A pending transaction is executed for a signer,
    with as many approvals as the threshold asks for and without spending
    locked funds: it is removed, and then its message is sent, which is the
    label.  Besides, only the constructor and the methods the actor calls on
    itself send anything: an empty message to an address that may not exist
    yet. *)
Inductive act (m : Msg) (w : World Net State bytes)
  : World Net State bytes -> option (SendReq bytes) -> list Z -> Prop :=
| act_create p st :
    m = Constructor p -> caller ctx = INIT_ACTOR_ADDR -> w_state w = None -> initial p st ->
    act m w (put (Some st) w) None []
| act_step st st' :
    w_state w = Some st -> step st m st' -> act m w (put (Some st') w) None []
| act_execute st id t :
    w_state w = Some st -> pending_txs st !! id = Some t -> subject m st id t ->
    caller ctx ∈ signers st ->
    num_approvals_threshold st <= Z.of_nat (length (approved t)) ->
    spendable st (w_balance w) (value t) (ctx_epoch ctx) ->
    act m w (put (Some (remove_txn id st)) w) (Some (request t)) [id]
| act_resolve a :
    caller ctx = INIT_ACTOR_ADDR \/ caller ctx = receiver ctx ->
    act m w w (Some (mkSend a METHOD_SEND [] 0 false)) [].
End spec.

(** ** Invariants of the abstract multisig *)

Lemma wf_replace_signers st a l thr :
  wf st -> NoDup l ->
  1 <= thr <= Z.of_nat (length l) -> Z.of_nat (length l) <= SIGNERS_MAX ->
  (forall x, x ∈ signers st -> x <> a -> x ∈ l) ->
  wf (mkState l thr (next_tx_id st) (initial_balance st) (start_epoch st)
        (unlock_duration st) (pending_txs (purge_approvals a st))).
Proof.
  intros [] Hnd Hthr Hmax Hincl. constructor; cbn; try done.
  intros id t Ht. rewrite purge_lookup in Ht.
  apply bind_Some in Ht as (t0 & Ht0 & Hp). apply wf_pending0 in Ht0 as [? ? ? ? Hs].
  unfold purge_txn in Hp. case_bool_decide as Ha.
  - assert (forall x, x ∈ drop_addr a (approved t0) -> x ∈ l) as Hd.
    { intros x [Hx ?]%elem_of_drop_addr. eauto. }
    pose proof (NoDup_drop_addr a (approved t0) txn_nodup0).
    destruct (drop_addr a (approved t0)) as [|y k]; [done|]. injection Hp as <-.
    by constructor.
  - injection Hp as <-. constructor; cbn; try done.
    intros x Hx. apply Hincl; [by apply Hs|]. by intros ->.
Qed.

Lemma wf_delete st id : wf st -> wf (with_pending (delete id (pending_txs st)) st).
Proof.
  intros []. constructor; cbn; try done. intros k t [_ Hk]%lookup_delete_Some.
  apply wf_pending0 in Hk as []. by constructor.
Qed.

Lemma wf_insert st m id t :
  wf (with_pending m st) -> txn_wf st id t -> wf (with_pending (<[id := t]> m) st).
Proof.
  intros [] []. constructor; cbn in *; try done.
  intros k t' [[<- <-]|[_ Hk]]%lookup_insert_Some; [by constructor|].
  apply wf_pending0 in Hk as []. by constructor.
Qed.

Lemma wf_set_locked st se ud amt :
  wf st -> 0 <= ud -> 0 <= amt -> wf (set_locked se ud amt st).
Proof.
  intros [] ??. constructor; cbn; try done. intros k t Hk.
  apply wf_pending0 in Hk as []. by constructor.
Qed.

Lemma wf_with_threshold st n :
  wf st -> 1 <= n <= Z.of_nat (length (signers st)) -> wf (with_threshold n st).
Proof.
  intros [] ?. constructor; cbn; try done. intros k t Hk.
  apply wf_pending0 in Hk as []. by constructor.
Qed.

Lemma wf_add_signer st a (inc : bool) :
  wf st -> a ∉ signers st -> Z.of_nat (length (signers st)) < SIGNERS_MAX ->
  wf (with_threshold (num_approvals_threshold st + if inc then 1 else 0)
        (with_signers (signers st ++ [a]) st)).
Proof.
  intros [] Ha Hmax. constructor; cbn; try done.
  - apply NoDup_app. split; [done|]. split; [|apply NoDup_singleton].
    intros x Hx ->%list_elem_of_singleton. done.
  - rewrite length_app. cbn. lia.
  - rewrite length_app. cbn. destruct inc; lia.
  - intros k t Hk. apply wf_pending0 in Hk as []. constructor; cbn; try done.
    intros x Hx. apply elem_of_app. auto.
Qed.

Lemma wf_initial {Net} (env : Env Net State bytes bytes) ctx p st :
  ctx_ok ctx = true -> initial env ctx p st -> wf st.
Proof.
  intros Hc [_ ? ? [_ ?] (_ & ? & Hl) Hn Hp]. unfold ctx_ok in Hc. bool_prop.
  constructor; try done; [by rewrite Hn| |].
  - split; [|done]. destruct (_ =? 0); lia.
  - intros id t. by rewrite Hp.
Qed.

Lemma wf_propose st t a :
  wf st -> 0 <= value t -> approved t = [a] -> a ∈ signers st ->
  wf (with_pending (<[next_tx_id st := t]> (pending_txs st))
        (with_next_tx_id (next_tx_id st + 1) st)).
Proof.
  intros Hwf Hv Ha Hin. apply wf_insert.
  - destruct Hwf as [? ? ? ? ? Hp]. constructor; cbn; try done; [lia|].
    intros k t' Hk. apply Hp in Hk as [[] ? ? ? ?]. constructor; cbn; try done. lia.
  - pose proof (wf_next _ Hwf). constructor; cbn; rewrite ?Ha; try done; [lia|..].
    + apply NoDup_singleton.
    + by intros x ->%list_elem_of_singleton.
Qed.

Lemma NoDup_snoc {A} (l : list A) x : NoDup l -> x ∉ l -> NoDup (l ++ [x]).
Proof.
  intros Hl Hx. apply NoDup_app. split; [done|]. split; [|apply NoDup_singleton].
  intros y Hy ->%list_elem_of_singleton. done.
Qed.

Lemma step_wf {Net} ser (env : Env Net State bytes bytes) ctx st m st' :
  wf st -> step ser env ctx st m st' -> wf st'.
Proof.
  intros Hwf Hstep. pose proof (wf_max _ Hwf). pose proof (wf_threshold _ Hwf).
  destruct Hstep as [p Hin Hv|p t Ha Ht _ Hna _|p t _ _ _ _|p i _ _ Ha Hl
    |p i _ _ Ha Hn|p i j _ _ _ Ha Hb|n _ Hn|p _ _ Hud Hamt].
  - by eapply wf_propose.
  - pose proof (wf_pending _ Hwf _ _ Ht) as [? ? ? ? Hs].
    apply wf_insert; [by destruct st|]. constructor; cbn; try done.
    + by destruct (approved t).
    + by apply NoDup_snoc.
    + intros x [Hx| ->%list_elem_of_singleton]%elem_of_app; auto.
  - by apply wf_delete.
  - by apply wf_add_signer.
  - set (a := AddrId i) in *. pose proof (length_drop_addr a _ (wf_nodup _ Hwf) Ha).
    refine (wf_replace_signers st a (drop_addr a (signers st))
      (num_approvals_threshold st - if rs_decrease p then 1 else 0) Hwf _ _ _ _);
      try (destruct (rs_decrease p); lia).
    + by apply NoDup_drop_addr, wf_nodup.
    + intros. by apply elem_of_drop_addr.
  - set (a := AddrId i) in *. pose proof (length_drop_addr a _ (wf_nodup _ Hwf) Ha).
    refine (wf_replace_signers st a (drop_addr a (signers st) ++ [AddrId j]) _ Hwf _ _ _ _);
      rewrite ?length_app; cbn; try lia.
    + apply NoDup_snoc; [by apply NoDup_drop_addr, wf_nodup|].
      by intros [? _]%elem_of_drop_addr.
    + intros. apply elem_of_app. left. by apply elem_of_drop_addr.
  - by apply wf_with_threshold.
  - apply wf_set_locked; [done|lia..].
Qed.

Lemma act_wf {Net} ser (env : Env Net State bytes bytes) ctx m w w' req l :
  ctx_ok ctx = true -> act ser env ctx m w w' req l -> wf_opt (w_state w) -> wf_opt (w_state w').
Proof.
  intros Hc [p st _ _ _ Hi|st st' Hw Hs|st id t Hw _ _ _ _ _|a _]; [| | |done].
  - intros _. by eapply wf_initial.
  - rewrite Hw. intros Hwf. by eapply step_wf.
  - rewrite Hw. apply wf_delete.
Qed.

(** An allocated transaction id that is no longer pending. *)
Definition gone (id : Z) (st : State) : Prop :=
  0 <= id < next_tx_id st /\ pending_txs st !! id = None.

Definition gone_opt (id : Z) (s : option State) : Prop := exists st, s = Some st /\ gone id st.

Lemma step_gone {Net} ser (env : Env Net State bytes bytes) ctx id st m st' :
  gone id st -> step ser env ctx st m st' -> gone id st'.
Proof.
  intros [Hid Hnone] Hstep. destruct Hstep; split; cbn; try done; try lia.
  - rewrite lookup_insert_ne; [done|lia].
  - rewrite lookup_insert_ne; [done|congruence].
  - apply lookup_delete_None. by right.
  - by rewrite (purge_lookup _ (with_threshold _ st)); cbn; rewrite Hnone.
  - by rewrite purge_lookup; cbn; rewrite Hnone.
Qed.

Lemma act_gone {Net} ser (env : Env Net State bytes bytes) ctx m w w' req l id :
  act ser env ctx m w w' req l -> gone_opt id (w_state w) -> gone_opt id (w_state w').
Proof.
  intros [p st _ _ Hw _|st st' Hw Hs|st id' t Hw Ht _ _ _ _|a _] (st0 & H0 & Hg); [congruence| | |].
  - rewrite Hw in H0. injection H0 as <-. exists st'. split; [done|]. by eapply step_gone.
  - rewrite Hw in H0. injection H0 as <-. eexists. split; [done|].
    destruct Hg as [Hid Hn]. split; [done|]. cbn. apply lookup_delete_None. by right.
  - by exists st0.
Qed.

(** A transaction is pending before its execution and gone after. *)
Lemma act_executes {Net} ser (env : Env Net State bytes bytes) ctx m w w' req l :
  act ser env ctx m w w' req l -> wf_opt (w_state w) ->
  NoDup l /\ forall id, id ∈ l -> ~ gone_opt id (w_state w) /\ gone_opt id (w_state w').
Proof.
  intros [p st _ _ Hw _|st st' Hw Hs|st id t Hw Ht _ _ _ _|a _] Hwf;
    try (split; [constructor|]; intros x Hx; by inversion Hx).
  rewrite Hw in *. split; [apply NoDup_singleton|]. intros x ->%list_elem_of_singleton. split.
  - intros (st0 & [= <-] & _ & Hn). congruence.
  - eexists. split; [done|]. pose proof (wf_pending _ Hwf _ _ Ht) as [Hid _ _ _ _].
    split; [done|]. cbn. apply lookup_delete_eq.
Qed.

(** ** The handlers implement the abstract multisig *)

Section refinement.
Context {Net : Type}.
Context (serialize_proposal : option Address -> Address -> Z -> Z -> bytes -> option bytes).
Context (receive_method : Z).
Context (env : Env Net State bytes bytes) (ctx : Ctx).

(** What executing an approved transaction does, on every outcome. *)
Definition executed (st0 st : State) (id : Z) (txn : Transaction)
    (w w' : World Net State bytes) : Prop :=
  let req := mkSend (to txn) (method txn) (params txn) (value txn) false in
  let out := env_send env req (w_net w)
               (Some (with_pending (delete id (pending_txs st)) st)) (w_balance w) in
  num_approvals_threshold st0 <= Z.of_nat (length (approved txn)) /\
  check_available st0 (w_balance w) (value txn) (ctx_epoch ctx) = Ok tt /\
  w' = mkWorld (so_state out) (so_balance out) (so_net out)
         (w_validated w) (w_deleted w) (w_sent w ++ [req]).

Lemma execute_ok st0 st id txn w applied out code w' :
  w_state w = Some st ->
  execute_transaction_if_approved env ctx st0 id txn w = Ok (applied, out, code, w') ->
  (applied = true /\ executed st0 st id txn w w') \/
  (applied = false /\ w' = w /\
   Z.of_nat (length (approved txn)) < num_approvals_threshold st0).
Proof.
  intros Hst H. unfold execute_transaction_if_approved in H.
  destruct (_ >=? _) eqn:Hthr; bool_prop; [left|right; run_inv; done].
  apply bind_ok in H as (bal & w1 & [-> ->]%balance_ok & H).
  apply bind_ok in H as ([] & w2 & [Hav ->]%lift_ok & H).
  apply bind_ok in H as (? & w3 & (s & s' & Hs & Htx & ->)%transaction_ok & H).
  rewrite Hst in Hs. injection Hs as <-. injection Htx as <- <-.
  apply bind_ok in H as (res & w4 & Hsend & H).
  unfold send_simple in Hsend. apply send_ok in Hsend as [-> ->]. cbn in H.
  assert (applied = true /\ w' = mkWorld
    (so_state (env_send env (mkSend (to txn) (method txn) (params txn) (value txn) false)
       (w_net w) (Some (with_pending (delete id (pending_txs st)) st)) (w_balance w)))
    (so_balance (env_send env (mkSend (to txn) (method txn) (params txn) (value txn) false)
       (w_net w) (Some (with_pending (delete id (pending_txs st)) st)) (w_balance w)))
    (so_net (env_send env (mkSend (to txn) (method txn) (params txn) (value txn) false)
       (w_net w) (Some (with_pending (delete id (pending_txs st)) st)) (w_balance w)))
    (w_validated w) (w_deleted w)
    (w_sent w ++ [mkSend (to txn) (method txn) (params txn) (value txn) false]))
    as [-> ->].
  { repeat case_match; unfold ret in H; naive_solver. }
  split; [done|]. split; [lia|]. done.
Qed.

Lemma approve_transaction_ok st id txn w applied out code w' :
  w_state w = Some st ->
  approve_transaction env ctx id txn w = Ok (applied, out, code, w') ->
  let txn' := with_approved (approved txn ++ [caller ctx]) txn in
  let st' := with_pending (<[id := txn']> (pending_txs st)) st in
  caller ctx ∉ approved txn /\
  ((applied = true /\ executed st' st' id txn' (set_state st' w) w') \/
   (applied = false /\ w' = set_state st' w /\
    Z.of_nat (length (approved txn')) < num_approvals_threshold st)).
Proof.
  intros Hst H txn' st'. unfold approve_transaction in H.
  destruct (existsb _ _) eqn:Hex; [by apply throw_ok in H|].
  assert (caller ctx ∉ approved txn) as Hnot.
  { rewrite <- existsb_addr. by rewrite Hex. }
  split; [done|].
  apply bind_ok in H as (st1 & w1 & (s & s' & Hs & Htx & ->)%transaction_ok & H).
  rewrite Hst in Hs. injection Hs as <-. injection Htx as <- <-.
  by apply (execute_ok st' st') in H.
Qed.

Lemma get_transaction_ok ptx id h t :
  get_transaction serialize_proposal env ptx id h = Ok t -> ptx !! id = Some t.
Proof.
  unfold get_transaction. intros H. res_inv. case_bool_decide; res_inv; done.
Qed.

Section message.
Context (nested : SendReq bytes -> Net -> option State -> Z -> list Z).

(** The message [m] takes the actions that lead from [w] to [w']. *)
Notation does m w w' := (does env nested (act serialize_proposal env ctx m) w w').

Lemma does_step m w1 st st' w2 w3 : w_state w1 = Some st ->
  step serialize_proposal env ctx st m st' -> same_actor (set_state st' w1) w2 -> does m w2 w3 -> does m w1 w3.
Proof.
  intros Hw Hs Hsame [l H]. exists ([] ++ l). eapply events_trans; [|exact H].
  eapply events_act; [by eapply act_step|done].
Qed.

Lemma check_available_ok st bal v e :
  check_available st bal v e = Ok tt -> spendable st bal v e.
Proof.
  unfold check_available, spendable. intros H. res_inv.
  destruct (v =? 0) eqn:?; res_inv; lia.
Qed.

Lemma executed_does m st id txn w w' :
  w_state w = Some st -> pending_txs st !! id = Some txn ->
  subject serialize_proposal env ctx m st id txn -> caller ctx ∈ signers st ->
  executed st st id txn w w' -> does m w w'.
Proof.
  intros Hw Ht Hsub Hc (Hthr & Hav%check_available_ok & ->). eexists.
  exact (events_send env nested _ w _ _ _ (act_execute _ _ _ m w st id txn Hw Ht Hsub Hc Hthr Hav)).
Qed.

Lemma propose_does p w r w' :
  propose env ctx p w = Ok (r, w') -> does (Propose p) w w'.
Proof.
  intros H. unfold propose in H. run_inv.
  match goal with Hs : w_state w = Some ?s |- _ => rename s into st; rename Hs into Hw end.
  match goal with Hs : is_signer _ _ = true |- _ => apply is_signer_spec in Hs; rename Hs into Hsig end.
  match goal with Ha : approve_transaction _ _ _ _ _ = _ |- _ =>
    eapply approve_transaction_ok in Ha as [_ Ha]; [|reflexivity];
    cbn [approved app] in Ha; unfold with_pending, with_approved in Ha;
    cbn [to value method params pending_txs signers num_approvals_threshold next_tx_id
      initial_balance start_epoch unlock_duration] in Ha;
    rewrite insert_insert_eq in Ha; rename Ha into Hap end.
  destruct Hap as [[_ He]|(_ & -> & _)];
    (eapply does_step; [exact Hw|by apply step_propose| |]; cycle 1).
  - eapply executed_does; [..|exact He]; [reflexivity|apply lookup_insert_eq| |exact Hsig].
    cbn. split; [lia|done].
  - done.
  - by apply does_nothing.
  - done.
Qed.

Lemma get_transaction_hash ptx p t :
  get_transaction serialize_proposal env ptx (ti_id p) (ti_proposal_hash p) = Ok t ->
  ptx !! ti_id p = Some t /\ hash_ok serialize_proposal env p t.
Proof.
  unfold get_transaction, hash_ok. intros H. res_inv.
  case_bool_decide as Hne; res_inv; (split; [done|]); [right|left].
  - match goal with Hd : ~ (_ <> _) |- _ => apply dec_stable in Hd; by rewrite Hd end.
  - done.
Qed.

Lemma approve_does p w r w' :
  approve serialize_proposal env ctx p w = Ok (r, w') -> does (Approve p) w w'.
Proof.
  intros H. unfold approve in H. run_inv.
  match goal with Hs : w_state w = Some ?s |- _ => rename s into st; rename Hs into Hw end.
  match goal with Hs : is_signer _ _ = true |- _ => apply is_signer_spec in Hs; rename Hs into Hsig end.
  match goal with Hg : get_transaction _ _ _ _ _ = _ |- _ =>
    apply get_transaction_hash in Hg as [Hget Hh] end.
  match goal with He : execute_transaction_if_approved _ _ _ _ _ _ = _ |- _ =>
    eapply execute_ok in He as [[-> He]|(-> & -> & Hlt)]; [..|reflexivity] end;
    cbn in H; run_inv.
  - eapply does_same; [|eapply executed_does; [..|eassumption]; [reflexivity|done| |done]]; [done|].
    cbn. eauto.
  - match goal with Ha : approve_transaction _ _ _ _ _ = _ |- _ =>
      eapply approve_transaction_ok in Ha as [Hnot Ha]; [|reflexivity]; rename Ha into Hap end.
    destruct Hap as [[_ He]|(_ & -> & _)];
      (eapply does_step; [exact Hw|by eapply step_approve| |]; cycle 1).
    + eapply executed_does; [..|exact He]; [reflexivity|apply lookup_insert_eq| |done].
      cbn. split; [done|]. right. apply last_snoc.
    + done.
    + by apply does_nothing.
    + done.
Qed.

Lemma resolve_does m a chk w i w' :
  caller ctx = INIT_ACTOR_ADDR \/ caller ctx = receiver ctx ->
  resolve_to_actor_id env [] a chk w = Ok (i, w') ->
  does m w w' /\ resolved env a i.
Proof.
  intros Hc H. eapply (resolve_events env nested (act serialize_proposal env ctx m)) in H as [He Hr].
  - split; [done|]. by eexists.
  - intros w0. by apply act_resolve.
Qed.

Lemma resolve_signers_does m l : forall acc w ids w',
  caller ctx = INIT_ACTOR_ADDR -> NoDup acc -> resolve_signers env acc l w = Ok (ids, w') ->
  NoDup ids /\ (exists new, ids = acc ++ new /\ Forall2 (resolved env) l new) /\ does m w w'.
Proof.
  induction l as [|a l IH]; cbn; intros acc w ids w' Hc Hnd H.
  - run_inv. split; [done|]. split; [exists []; by rewrite app_nil_r|by apply does_nothing].
  - apply bind_ok in H as (id & w1 & Hr & H). apply (resolve_does m) in Hr as [Hd Hr]; [|by left].
    destruct (existsb _ _) eqn:Hex; [by apply throw_ok in H|].
    apply IH in H as (? & (new & -> & ?) & ?); [|done|].
    + split; [done|]. split; [|by eapply does_trans].
      exists (id :: new). rewrite <- app_assoc. split; [done|]. by constructor.
    + apply NoDup_snoc; [done|]. intros Hx.
      assert (existsb (Z.eqb id) acc = true); [|congruence].
      apply existsb_exists. exists id. by rewrite <- list_elem_of_In, Z.eqb_refl.
Qed.

Lemma constructor_does p w w' :
  in_u64 (cp_num_approvals_threshold p) = true ->
  constructor env ctx p w = Ok (tt, w') -> does (Constructor p) w w'.
Proof.
  intros Hu%in_u64_spec H. unfold constructor in H. run_inv.
  match goal with Hc : caller ctx ∈ _ |- _ => apply list_elem_of_singleton in Hc; rename Hc into Hc end.
  match goal with Hr : resolve_signers _ _ _ _ = _ |- _ =>
    apply (resolve_signers_does (Constructor p)) in Hr as (Hnd & (ids & -> & Hids) & Hd); [|done|constructor] end.
  eapply does_trans; [eapply does_same; [|exact Hd]; done|].
  eexists. eapply events_act; [|done]. eapply act_create; [done..|].
  apply Forall2_length in Hids as Hlen.
  destruct (Z.eqb_spec (cp_unlock_duration p) 0) as [E|E]; cbn [negb];
    (constructor; cbn; rewrite ?length_fmap, <- ?Hlen, ?E; try done; try lia; try (by eexists);
      try (by apply NoDup_fmap_2; [intros ?? [= ->]|]));
    split; try done; try lia.
  all: destruct (Z.eqb_spec (cp_unlock_duration p) 0); try done; split; try done; lia.
Qed.

Ltac admin_method :=
  run_inv;
  match goal with Hc : caller ctx ∈ _ |- _ => apply list_elem_of_singleton in Hc end;
  match goal with |- does ?m ?w _ => apply (does_same env nested (act serialize_proposal env ctx m) w (set_validated w)); [done|] end;
  repeat match goal with Hr : resolve_to_actor_id _ _ _ _ ?w = _ |- does ?m ?w _ =>
    apply (resolve_does m) in Hr as [? ?]; [|by right]; eapply does_trans; [eassumption|] end;
  match goal with Hs : w_state _ = Some ?s |- _ => rename s into st; rename Hs into Hst end;
  repeat match goal with
  | Hs : is_signer _ _ = true |- _ => apply is_signer_spec in Hs
  | Hs : is_signer _ _ = false |- _ => apply is_signer_false in Hs
  end.

Lemma cancel_does p w w' :
  cancel serialize_proposal env ctx p w = Ok (tt, w') -> does (Cancel p) w w'.
Proof.
  intros H. unfold cancel in H. run_inv.
  match goal with Hs : is_signer _ _ = true |- _ => apply is_signer_spec in Hs end.
  match goal with Hd : ~ (head _ <> _) |- _ => apply dec_stable in Hd end.
  eapply does_step; [eassumption| |done|by apply does_nothing]. eapply step_cancel; try eassumption.
  unfold hash_ok. match goal with Hh : _ && _ = false |- _ =>
    apply andb_false_iff in Hh as [Hh|Hh]; apply bool_decide_eq_false in Hh; apply dec_stable in Hh end;
    [by left|right; congruence].
Qed.

Lemma add_signer_does p w w' :
  add_signer env ctx p w = Ok (tt, w') -> does (AddSigner p) w w'.
Proof.
  intros H. unfold add_signer in H. admin_method.
  pose proof (step_add_signer serialize_proposal env ctx st p) as Ha.
  destruct (as_increase p); run_inv; rewrite ?Z.add_0_r in Ha;
    (eapply does_step; [eassumption|by eapply Ha|done|by apply does_nothing]).
Qed.

Lemma remove_signer_does p w w' :
  remove_signer env ctx p w = Ok (tt, w') -> does (RemoveSigner p) w w'.
Proof.
  intros H. unfold remove_signer in H. admin_method.
  pose proof (step_drop_signer serialize_proposal env ctx st p) as Hd.
  destruct (rs_decrease p); cbn in *; run_inv; rewrite ?Z.sub_0_r in Hd;
    (eapply does_step; [eassumption|eapply Hd; try eassumption; lia|done|by apply does_nothing]).
Qed.

Lemma swap_signer_does p w w' :
  swap_signer env ctx p w = Ok (tt, w') -> does (SwapSigner p) w w'.
Proof.
  intros H. unfold swap_signer in H. admin_method.
  eapply does_step; [eassumption|by eapply step_swap_signer|done|by apply does_nothing].
Qed.

Lemma change_threshold_does n w w' :
  in_u64 n = true -> change_num_approvals_threshold (Net:=Net) ctx n w = Ok (tt, w') ->
  does (ChangeNumApprovalsThreshold n) w w'.
Proof.
  intros Hn%in_u64_spec H. unfold change_num_approvals_threshold in H. admin_method.
  eapply does_step; [eassumption|apply step_threshold; [done|lia]|done|by apply does_nothing].
Qed.

Lemma lock_balance_does p w w' :
  lock_balance (Net:=Net) ctx p w = Ok (tt, w') -> does (LockBalance p) w w'.
Proof.
  intros H. unfold lock_balance in H. admin_method.
  eapply does_step; [eassumption|by apply step_lock|done|by apply does_nothing].
Qed.

Lemma invoke_does m w r w' :
  invoke_method serialize_proposal receive_method env ctx m w = Ok (r, w') -> does m w w'.
Proof.
  intros H. unfold invoke_method in H. run_inv.
  match goal with Hr : restrict_internal_api _ _ _ _ = _ |- _ =>
    apply restrict_state in Hr as -> end.
  destruct m; cbn [decodes] in *; run_inv;
    eauto using propose_does, approve_does, cancel_does, add_signer_does,
      remove_signer_does, swap_signer_does, change_threshold_does, lock_balance_does,
      constructor_does.
  - unfold universal_receiver_hook in *. run_inv. by apply does_nothing.
  - unfold fallback in *. run_inv. destruct (_ >=? _); run_inv. by apply does_nothing.
Qed.
End message.
End refinement.

Lemma multisig_refines {Net} ser recv :
  refines (@invoke_method Net ser recv) (act ser).
Proof. intros env nested ctx msg w r w' _ H. by eapply invoke_does. Qed.


(** ** Properties *)

(** Distinct current signers, as many as the threshold requires. *)
Definition authorised (st : State) (approvers : list Address) : Prop :=
  NoDup approvers /\ (forall a, a ∈ approvers -> a ∈ signers st) /\
  num_approvals_threshold st <= Z.of_nat (length approvers).

(** The world after sending [req] with the actor's state set to [st]. *)
Definition after_send {Net} (env : Env Net State bytes bytes) (req : SendReq bytes)
    (st : State) (w : World Net State bytes) : World Net State bytes :=
  let out := env_send env req (w_net w) (Some st) (w_balance w) in
  mkWorld (so_state out) (so_balance out) (so_net out)
    (w_validated w) (w_deleted w) (w_sent w ++ [req]).

Section properties.
Context {Net : Type}.
Context (serialize_proposal : option Address -> Address -> Z -> Z -> bytes -> option bytes).
Context (receive_method : Z).

(** C19: in every state the multisig actor can reach from its creation, by
    any sequence of messages from any callers and any nesting of re-entrant
    calls made by the transactions it executes, the signers are distinct and
    at most 256, the threshold lies between one and their number, the lock
    is not negative, and every pending transaction has an allocated id, a
    non-negative value and a non-empty list of distinct approvers who are
    all current signers. *)
Theorem multisig_reachable_wf s :
  reach (@invoke_method Net serialize_proposal receive_method) None s -> wf_opt s.
Proof.
  intros Hr. eapply (refines_invariant _ _ _ (multisig_refines _ _)); [|exact Hr|done].
  intros. by eapply act_wf.
Qed.

(** C10: every committed message takes actions of the abstract multisig, under
    their guards, and does nothing else: a signer proposes, approves or cancels
    a proposal of their own; a pending transaction is executed for a signer
    once its approvals reach the threshold and without spending locked funds,
    by removing it and then sending its message; only the actor itself changes
    signers, threshold and lock; and nothing else is sent, but empty messages
    to addresses that are being resolved for the actor itself or at its
    creation. *)
Theorem multisig_refines_spec (env : Env Net State bytes bytes) nested ctx m w r w' :
  ctx_ok ctx = true ->
  invoke_method serialize_proposal receive_method env ctx m w = Ok (r, w') ->
  exists ids, events env nested (act serialize_proposal env ctx m) w ids w'.
Proof. apply multisig_refines. Qed.

(** C22: a transaction is executed at most once.  Take a message with
    everything its sends call back, to any depth, and the ids of the
    transactions executed on the way, each at the moment its message is sent:
    no id occurs twice, none had been executed, cancelled or purged before,
    and whatever messages follow, none is ever pending again. *)
Theorem txn_executed_once (env : Env Net State bytes bytes) nested ctx m w r w' :
  let invoke := @invoke_method Net serialize_proposal receive_method in
  traced invoke (act serialize_proposal) env nested -> ctx_ok ctx = true -> wf_opt (w_state w) ->
  invoke env ctx m w = Ok (r, w') ->
  exists ids, events env nested (act serialize_proposal env ctx m) w ids w' /\ NoDup ids /\
    (forall id, id ∈ ids -> ~ gone_opt id (w_state w)) /\
    forall id s, id ∈ ids \/ gone_opt id (w_state w) -> reach invoke (w_state w') s -> gone_opt id s.
Proof.
  intros invoke Ht Hc Hwf H. destruct (multisig_refines _ _ env nested ctx m w r w' Hc H) as [ids He].
  exists ids. split; [done|].
  apply (events_once invoke (act serialize_proposal) gone_opt wf_opt) in He as [_ Hm Hnd Hnew];
    eauto using act_wf, act_gone, act_executes.
  split; [done|]. split; [intros id Hid; by apply Hnew|].
  intros id s Hid Hr. apply (refines_invariant _ _ (gone_opt id) (multisig_refines _ _)) in Hr;
    [done|intros; by eapply act_gone|]. destruct Hid as [Hid|Hid]; [by apply Hnew|by apply Hm].
Qed.

(** C27: approving a transaction either records the caller's approval and
    sends nothing, or executes the transaction exactly once: then the
    approvals behind it, the caller's included when it was needed, are from
    distinct current signers and reach the threshold, the locked amount is
    left untouched, and the callee is called with the transaction already
    removed from the pending ones. *)
Theorem approve_safety (env : Env Net State bytes bytes) ctx p st w r w' :
  wf st -> w_state w = Some st ->
  approve serialize_proposal env ctx p w = Ok (r, w') ->
  exists txn, pending_txs st !! ti_id p = Some txn /\ caller ctx ∈ signers st /\
    ((ar_applied r = true /\
      (authorised st (approved txn) \/ authorised st (approved txn ++ [caller ctx])) /\
      spendable st (w_balance w) (value txn) (ctx_epoch ctx) /\
      w' = after_send env (mkSend (to txn) (method txn) (params txn) (value txn) false)
             (with_pending (delete (ti_id p) (pending_txs st)) st) (set_validated w)) \/
     (ar_applied r = false /\ caller ctx ∉ approved txn /\
      Z.of_nat (length (approved txn)) + 1 < num_approvals_threshold st /\
      w' = set_state (with_pending (<[ti_id p :=
             with_approved (approved txn ++ [caller ctx]) txn]> (pending_txs st)) st)
             (set_validated w))).
Proof.
  intros Hwf Hw H. unfold approve in H.
  apply bind_ok in H as (? & w1 & [Hv ->]%accept_any_ok & H).
  apply bind_ok in H as ([st1 txn] & w2 & (s & s' & Hs & Htx & ->)%transaction_ok & H).
  cbn in Hs. rewrite Hw in Hs. injection Hs as <-. res_inv.
  match goal with Hg : get_transaction _ _ _ _ _ = _ |- _ =>
    apply get_transaction_ok in Hg; rename Hg into Hget end.
  match goal with Hs : is_signer _ _ = true |- _ =>
    apply is_signer_spec in Hs; rename Hs into Hsig end.
  pose proof (wf_pending _ Hwf _ _ Hget) as [Hid Hval Hne Hnd Hsub].
  exists txn. split; [done|]. split; [done|].
  apply bind_ok in H as ([[applied out] code] & w3 & He & H).
  eapply (execute_ok env ctx _ s') in He as [[-> He]|(-> & -> & Hlt)]; [..|reflexivity];
    cbn in H.
  - run_inv. left. split; [done|]. destruct He as (Hthr & Hav & ->).
    split; [left; by split_and!|]. split; [by apply check_available_ok|done].
  - run_inv. match goal with Ha : approve_transaction _ _ _ _ _ = _ |- _ =>
      eapply (approve_transaction_ok env ctx s') in Ha as [Hnot Ha]; [|reflexivity];
      destruct Ha as [[-> (Hthr & Hav & ->)]|(-> & -> & Hlt')] end.
    + left. split; [done|]. cbn in Hthr, Hav. split; [right; split_and!; [|..|done]|].
      * apply NoDup_app. split; [done|]. split; [|apply NoDup_singleton].
        intros x Hx ->%list_elem_of_singleton. done.
      * intros a [Ha| ->%list_elem_of_singleton]%elem_of_app; auto.
      * split; [by apply check_available_ok in Hav|].
        unfold after_send, with_pending. cbn. by rewrite !delete_insert_eq.
    + right. cbn in Hlt'. rewrite length_app in Hlt'. cbn in Hlt'.
      split; [done|]. split; [done|]. split; [lia|done].
Qed.

(** A proposal takes the next transaction id and the proposer's
    approval; it is executed at once exactly when the threshold is one, and
    then under the same spending rule, the callee seeing no trace of it
    among the pending transactions. *)
Theorem propose_safety (env : Env Net State bytes bytes) ctx p st w r w' :
  wf st -> w_state w = Some st -> propose env ctx p w = Ok (r, w') ->
  let st1 := with_next_tx_id (next_tx_id st + 1) st in
  caller ctx ∈ signers st /\ 0 <= pp_value p /\ pr_txn_id r = next_tx_id st /\
  ((pr_applied r = true /\ num_approvals_threshold st = 1 /\
    spendable st (w_balance w) (pp_value p) (ctx_epoch ctx) /\
    w' = after_send env (mkSend (pp_to p) (pp_method p) (pp_params p) (pp_value p) false)
           st1 (set_validated w)) \/
   (pr_applied r = false /\ 1 < num_approvals_threshold st /\
    w' = set_state (with_pending (<[next_tx_id st :=
           mkTxn (pp_to p) (pp_value p) (pp_method p) (pp_params p) [caller ctx]]>
           (pending_txs st)) st1) (set_validated w))).
Proof.
  intros Hwf Hw H st1. unfold propose in H.
  apply bind_ok in H as (? & w1 & [Hv ->]%accept_any_ok & H).
  destruct (_ <? _) eqn:Hval; [by apply throw_ok in H|].
  apply bind_ok in H as ([id txn] & w2 & (s & s' & Hs & Htx & ->)%transaction_ok & H).
  cbn in Hs. rewrite Hw in Hs. injection Hs as <-. res_inv. run_inv.
  match goal with Hs : is_signer _ _ = true |- _ =>
    apply is_signer_spec in Hs; rename Hs into Hsig end.
  assert (pending_txs st !! next_tx_id st = None) as Hfresh.
  { destruct (pending_txs st !! next_tx_id st) eqn:E; [|done].
    apply (wf_pending _ Hwf) in E as [[]]. lia. }
  split; [done|]. split; [done|]. split; [done|]. pose proof (wf_threshold _ Hwf).
  match goal with Ha : approve_transaction _ _ _ _ _ = _ |- _ =>
    eapply approve_transaction_ok in Ha as [_ Ha]; [|reflexivity];
    destruct Ha as [[-> (Hthr & Hav & ->)]|(-> & -> & Hlt)] end; [left|right].
  - cbn in Hthr, Hav. split; [done|]. split; [lia|].
    split; [by apply check_available_ok in Hav|].
    unfold after_send, with_pending, st1, with_next_tx_id. cbn.
    rewrite !delete_insert_eq, !(delete_id _ _ Hfresh). by destruct st.
  - cbn in Hlt. split; [done|]. split; [lia|].
    unfold set_state, with_pending, st1, with_next_tx_id, with_approved. cbn.
    by rewrite insert_insert_eq.
Qed.
(** Approval by a signer who has not approved yet goes through: with
    the last missing approval and enough unlocked funds the transaction is
    applied, before that the approval is recorded; no other outcome. *)
Theorem approve_succeeds (env : Env Net State bytes bytes) ctx id txn st w :
  wf st -> w_state w = Some st -> w_validated w = false ->
  pending_txs st !! id = Some txn -> caller ctx ∈ signers st -> caller ctx ∉ approved txn ->
  Z.of_nat (length (approved txn)) < num_approvals_threshold st ->
  check_available st (w_balance w) (value txn) (ctx_epoch ctx) = Ok tt ->
  exists r w', approve serialize_proposal env ctx (mkTxnID id []) w = Ok (r, w') /\
    ar_applied r = (num_approvals_threshold st =? Z.of_nat (length (approved txn)) + 1).
Proof.
  intros Hwf Hw Hv Hid Hsig Hnot Hlt Hav.
  assert (is_signer st (caller ctx) = true) as Hs by by apply is_signer_spec.
  assert (existsb (fun a => addr_eqb a (caller ctx)) (approved txn) = false) as Hex.
  { apply not_true_iff_false. by rewrite existsb_addr. }
  unfold approve, bind at 1, validate_immediate_caller_accept_any, assert_not_validated.
  rewrite Hv. cbn [rbind]. unfold bind at 1, transaction at 1. cbn [w_state set_validated].
  rewrite Hw. cbn [ti_id ti_proposal_hash]. rewrite Hs. cbn [negb].
  unfold get_transaction. rewrite Hid. cbn [ok_or rbind].
  rewrite bool_decide_eq_false_2 by naive_solver. cbn [rbind].
  unfold bind at 1, execute_transaction_if_approved.
  destruct (Z.geb_spec (Z.of_nat (length (approved txn))) (num_approvals_threshold st));
    [lia|]. unfold ret at 1. cbn [rbind negb].
  unfold bind at 1, approve_transaction. rewrite Hex.
  unfold bind at 1, transaction at 1. cbn [w_state set_state set_validated rbind].
  unfold execute_transaction_if_approved. cbn [approved with_approved].
  rewrite length_app. cbn [length num_approvals_threshold with_pending].
  destruct (Z.geb_spec (Z.of_nat (length (approved txn) + 1)) (num_approvals_threshold st)).
  - cbn. change (check_available _ _ _ _) with
      (check_available st (w_balance w) (value txn) (ctx_epoch ctx)).
    unfold bind, lift. cbn. rewrite Hav. cbn.
    destruct (extract_send_result _) as [[]| |] eqn:He;
      [..|by apply extract_send_result_no_panic in He]; cbn;
      (eexists _, _; split; [reflexivity|]; cbn; symmetry; apply Z.eqb_eq; lia).
  - cbn. eexists _, _. split; [reflexivity|]. cbn. symmetry. apply Z.eqb_neq. lia.
Qed.

(** Cancelling succeeds only for the proposer (the first remaining
    approver) of a pending transaction who is still a signer, and it removes
    that transaction and nothing else. *)
Theorem cancel_only_proposer (env : Env Net State bytes bytes) ctx p st w w' :
  w_state w = Some st -> cancel serialize_proposal env ctx p w = Ok (tt, w') ->
  exists txn, pending_txs st !! ti_id p = Some txn /\
    head (approved txn) = Some (caller ctx) /\ caller ctx ∈ signers st /\
    w' = set_state (with_pending (delete (ti_id p) (pending_txs st)) st) (set_validated w).
Proof.
  intros Hw H. unfold cancel in H.
  apply bind_ok in H as (? & w1 & [Hv ->]%accept_any_ok & H).
  apply transaction_ok in H as (s & s' & Hs & H & ->). cbn in Hs.
  rewrite Hw in Hs. injection Hs as <-. res_inv.
  match goal with Hs : is_signer _ _ = true |- _ => apply is_signer_spec in Hs end.
  match goal with Hd : ~ (_ <> _) |- _ => apply dec_stable in Hd end. eauto.
Qed.

End properties.

(** The linear unlock: nothing is released before the start, everything
    after the duration, in between the locked part of the initial balance is
    its remaining share rounded up, so at most one atto above it, and the
    locked amount never grows with time. *)
Theorem amount_locked_schedule st e e' :
  0 <= initial_balance st -> 0 <= unlock_duration st -> e <= e' ->
  0 <= amount_locked st e <= initial_balance st /\
  amount_locked st e' <= amount_locked st e /\
  (e <= 0 < unlock_duration st -> amount_locked st e = initial_balance st) /\
  (unlock_duration st <= e -> amount_locked st e = 0) /\
  (0 < e < unlock_duration st ->
   initial_balance st * (unlock_duration st - e) <= amount_locked st e * unlock_duration st
     < initial_balance st * (unlock_duration st - e) + unlock_duration st).
Proof.
  intros Hib Hud Hle. unfold amount_locked.
  set (b := initial_balance st) in *. set (d := unlock_duration st) in *.
  assert (forall x, 0 < x < d -> 0 <= div_ceil (b * (d - x)) d <= b) as Hb.
  { intros x Hx. split; [apply div_ceil_nonneg; nia|].
    rewrite <- (div_ceil_mul b d) at 2 by lia. apply div_ceil_mono; nia. }
  pose proof (Hb e). pose proof (Hb e').
  assert (0 < e <= e' -> e' < d -> div_ceil (b * (d - e')) d <= div_ceil (b * (d - e)) d).
  { intros. apply div_ceil_mono; nia. }
  repeat split; try intros;
    repeat match goal with |- context [?x >=? ?y] => destruct (Z.geb_spec x y)
    | |- context [?x <=? ?y] => destruct (Z.leb_spec x y) end; try lia;
    apply div_ceil_bounds; lia.
Qed.

(** Purging the approvals of an address is the pointwise reference: each
    pending transaction loses that address from its approvals, and disappears
    when it was its only approver; the rest of the state is unchanged. *)
Theorem purge_approvals_spec addr st :
  purge_approvals addr st = with_pending (omap (purge_txn addr) (pending_txs st)) st.
Proof.
  transitivity (with_pending (pending_txs (purge_approvals addr st)) st); [done|].
  f_equal. apply map_eq. intros k. by rewrite purge_lookup, lookup_omap.
Qed.

(** ** Witnesses

    A concrete network: ID addresses resolve to themselves, every actor is an
    account, hashing is the identity, a send succeeds and moves its value.  In
    [self_env] a message to the actor itself adds a signer, re-entering it. *)
Module Demo.

Definition ser (_ : option Address) (_ : Address) (v m : Z) (p : bytes) : option bytes :=
  Some (v :: m :: p).
Definition RECEIVE : Z := 3726118371.
Definition invoke := @invoke_method unit ser RECEIVE.

Definition env : Env unit State bytes bytes :=
  mkEnv (fun _ a => addr_id a) (fun _ _ => Some 1) (fun _ => Some TAccount) (fun d => d)
    (fun req net s bal =>
       mkSendOut (inl (mkResp EC_OK None)) s (bal - send_value req) net).

Definition msg_ctx (from : Z) : Ctx := mkCtx from from 100 1000 10.

Definition self_env : Env unit State bytes bytes :=
  mkEnv (fun _ a => addr_id a) (fun _ _ => Some 1) (fun _ => Some TAccount) (fun d => d)
    (fun req net s bal =>
       match trampoline invoke env (msg_ctx 100)
               (AddSigner (mkAddSigner (AddrId 203) true)) s bal net with
       | Committed _ w =>
           if w_deleted w then mkSendOut (inl (mkResp USR_UNSPECIFIED None)) s bal net
           else mkSendOut (inl (mkResp EC_OK None)) (w_state w) (w_balance w) (w_net w)
       | Aborted c => mkSendOut (inl (mkResp c None)) s bal net
       end).

Definition constructor_msg (n : Z) : Msg :=
  Constructor (mkConstructor [AddrId 201; AddrId 202] n 100 5).
Definition add_signer_proposal : Msg := Propose (mkPropose (AddrId 100) 0 5 []).

Definition state0 : State :=
  mkState [AddrId 201; AddrId 202] 1 0 1000 5 100 ∅.
Definition state1 : State :=
  mkState [AddrId 201; AddrId 202; AddrId 203] 2 1 1000 5 100 ∅.
Definition pending_txn : Transaction := mkTxn (AddrId 300) 50 0 [] [AddrId 201].
Definition state2 : State :=
  mkState [AddrId 201; AddrId 202] 2 1 1000 5 100 {[0 := pending_txn]}.

Lemma env_reach req net s bal :
  reach invoke s (so_state (env_send env req net s bal)).
Proof. apply reach_refl. Qed.

Lemma self_env_reach req net s bal :
  reach invoke s (so_state (env_send self_env req net s bal)).
Proof.
  cbn. destruct (trampoline _ _ _ _ _ _ _) as [r w|] eqn:E; [|apply reach_refl].
  destruct (w_deleted w) eqn:Hd; [apply reach_refl|].
  by eapply reach_msg; [apply env_reach|..|exact E|done|apply reach_refl].
Qed.

Lemma state0_reach : reach invoke None (Some state0).
Proof.
  eapply (reach_msg invoke env (msg_ctx 1) (constructor_msg 1) None 1000 tt);
    [apply env_reach|reflexivity|vm_compute; reflexivity|reflexivity|apply reach_refl].
Qed.

Lemma state1_reach s : reach invoke (Some state1) s -> reach invoke (Some state0) s.
Proof.
  intros H.
  eapply (reach_msg invoke self_env (msg_ctx 201) add_signer_proposal (Some state0) 1000 tt);
    [apply self_env_reach|reflexivity|vm_compute; reflexivity|reflexivity|exact H].
Qed.

Lemma state2_wf : wf state2.
Proof.
  constructor; cbn; try lia.
  - repeat constructor; set_solver.
  - unfold SIGNERS_MAX. lia.
  - intros id t [<- <-]%lookup_singleton_Some. constructor; cbn; try lia; try done.
    + apply NoDup_singleton.
    + set_solver.
Qed.

Definition world0 : World unit State bytes := mkWorld (Some state0) 1000 tt false false [].
Definition world1 : World unit State bytes :=
  mkWorld (Some state1) 1000 tt true false [mkSend (AddrId 100) 5 [] 0 false].

(** No nested execution. *)
Definition none (_ : SendReq bytes) (_ : unit) (_ : option State) (_ : Z) : list Z := [].

Lemma add_signer_silent e c p w l w' :
  events e none (act ser e c (AddSigner p)) w l w' -> l = [].
Proof.
  induction 1 as [|? ? ? ? _ _ IH|? ? l1 ? ? Ha _ IH|? ? ? l1 ? ? Ha _ IH]; [done|done| |];
    subst; unfold none; rewrite !app_nil_r;
    inversion Ha; try done; by match goal with Hs : subject _ _ _ _ _ _ _ |- _ => destruct Hs end.
Qed.

Lemma env_traced : traced invoke (act ser) env none.
Proof. intros req net s bal. apply trace_nil. Qed.

Lemma self_env_traced : traced invoke (act ser) self_env none.
Proof.
  intros req net s bal. cbn. destruct (trampoline _ _ _ _ _ _ _) as [r w|] eqn:E; [|apply trace_nil].
  destruct (w_deleted w) eqn:Hd; [apply trace_nil|]. pose proof E as H. unfold trampoline in H.
  destruct (invoke _ _ _ _) as [[r' w']| |] eqn:Hi; try discriminate.
  destruct (w_validated w') eqn:Hv; [|discriminate]. injection H as <- <-.
  destruct (multisig_refines ser RECEIVE env none (msg_ctx 100) _ _ r' w' eq_refl Hi) as [l He].
  pose proof (add_signer_silent _ _ _ _ _ _ He) as ->. rewrite <- (app_nil_r (none _ _ _ _)).
  eapply (trace_msg _ _ env none (msg_ctx 100));
    [apply env_traced|reflexivity|exact E|exact Hd|exact He|apply trace_nil].
Qed.

Lemma state0_wf : wf state0.
Proof.
  constructor; cbn; try lia.
  - repeat constructor; set_solver.
  - unfold SIGNERS_MAX. lia.
  - intros id t. by rewrite lookup_empty.
Qed.

Definition world2 : World unit State bytes := mkWorld (Some state2) 2000 tt false false [].

End Demo.

Lemma multisig_reachable_wf_witness : wf_opt (Some Demo.state1).
Proof.
  apply (multisig_reachable_wf (Net:=unit) Demo.ser Demo.RECEIVE (Some Demo.state1)).
  eapply (reach_msg Demo.invoke Demo.env (Demo.msg_ctx 1) (Demo.constructor_msg 1)
            None 1000 tt);
    [apply Demo.env_reach|reflexivity|vm_compute; reflexivity|reflexivity|].
  apply Demo.state1_reach, reach_refl.
Defined.

Lemma multisig_refines_spec_witness :
  exists ids, events Demo.self_env Demo.none (act Demo.ser Demo.self_env (Demo.msg_ctx 201)
    Demo.add_signer_proposal) Demo.world0 ids Demo.world1.
Proof.
  eapply (multisig_refines_spec Demo.ser Demo.RECEIVE Demo.self_env Demo.none (Demo.msg_ctx 201)
    Demo.add_signer_proposal Demo.world0 _ Demo.world1); [reflexivity|vm_compute; reflexivity].
Defined.

Lemma txn_executed_once_witness :
  exists ids, events Demo.self_env Demo.none (act Demo.ser Demo.self_env (Demo.msg_ctx 201)
    Demo.add_signer_proposal) Demo.world0 ids Demo.world1 /\ NoDup ids.
Proof.
  destruct (txn_executed_once Demo.ser Demo.RECEIVE Demo.self_env Demo.none (Demo.msg_ctx 201)
    Demo.add_signer_proposal Demo.world0 (RPropose (mkProposeReturn 0 true EC_OK [])) Demo.world1) as (ids & He & Hnd & _);
    [exact Demo.self_env_traced|reflexivity|exact Demo.state0_wf|vm_compute; reflexivity|].
  exists ids. split; [exact He|exact Hnd].
Defined.

Lemma approve_safety_witness :
  exists txn r w', approve Demo.ser Demo.env (Demo.msg_ctx 202) (mkTxnID 0 []) Demo.world2
    = Ok (r, w') /\ ar_applied r = true /\
    pending_txs Demo.state2 !! 0 = Some txn /\ AddrId 202 ∈ signers Demo.state2.
Proof.
  destruct (approve_safety Demo.ser Demo.env (Demo.msg_ctx 202) (mkTxnID 0 []) Demo.state2
    Demo.world2 (mkApproveReturn true EC_OK [])
    (mkWorld (Some (with_pending ∅ Demo.state2)) 1950 tt true false
       [mkSend (AddrId 300) 0 [] 50 false])) as (txn & Ht & Hc & _);
    [apply Demo.state2_wf|reflexivity|vm_compute; reflexivity|].
  eexists txn, _, _. split; [vm_compute; reflexivity|]. split; [reflexivity|].
  split; [exact Ht|exact Hc].
Defined.

Lemma propose_safety_witness :
  exists r w', propose Demo.env (Demo.msg_ctx 201) (mkPropose (AddrId 300) 50 0 [])
    (mkWorld (Some Demo.state2) 2000 tt false false []) = Ok (r, w') /\
    pr_txn_id r = 1 /\ pr_applied r = false.
Proof.
  eexists _, _. split; [vm_compute; reflexivity|].
  edestruct (propose_safety Demo.env (Demo.msg_ctx 201) (mkPropose (AddrId 300) 50 0 [])
    Demo.state2 Demo.world2) as (_ & _ & Hid & _);
    [apply Demo.state2_wf|reflexivity|vm_compute; reflexivity|].
  split; [exact Hid|reflexivity].
Defined.

Lemma approve_succeeds_witness :
  exists r w', approve Demo.ser Demo.env (Demo.msg_ctx 202) (mkTxnID 0 []) Demo.world2
    = Ok (r, w') /\ ar_applied r = true.
Proof.
  apply (approve_succeeds Demo.ser Demo.env (Demo.msg_ctx 202) 0 Demo.pending_txn
    Demo.state2); [apply Demo.state2_wf|reflexivity..| | |cbn; lia|reflexivity];
    vm_compute; set_solver.
Defined.

Lemma cancel_only_proposer_witness :
  exists txn, pending_txs Demo.state2 !! 0 = Some txn /\ head (approved txn) = Some (AddrId 201).
Proof.
  edestruct (cancel_only_proposer Demo.ser Demo.env (Demo.msg_ctx 201) (mkTxnID 0 [])
    Demo.state2 Demo.world2) as (txn & Ht & Hh & _);
    [reflexivity|vm_compute; reflexivity|]. by exists txn.
Defined.

Lemma amount_locked_schedule_witness :
  amount_locked Demo.state2 33 = 670 /\ amount_locked Demo.state2 34 <= 670.
Proof.
  destruct (amount_locked_schedule Demo.state2 33 34) as (_ & Hm & _);
    [cbn; lia..|]. split; [reflexivity|exact Hm].
Defined.
