(* ===== verification/Paych.v ===== *)
(** * The payment channel actor

    Models src/actors/paych/src/{lib,state,types}.rs: lanes, vouchers with
    merges, settling and collection.  The AMT of lane states is a finite map.

    The theorems show: what redeeming a voucher checks and how it changes the
    channel; that a voucher is redeemed at most once, in any later state of the
    channel, re-entrant calls included; that without merges the amount to send
    is the sum of what the lanes redeemed; the settling invariant; that
    collection pays exactly the redeemed amount and returns the rest. *)

From S2P Require Import Prelude Runtime Trace.

(** ** Data *)

Definition MAX_LANE : Z := I64_MAX.
Definition SETTLE_DELAY : Z := EPOCHS_IN_HOUR * 12.
Definition MAX_SECRET_SIZE : Z := 256.
Definition ERR_CHANNEL_STATE_UPDATE_AFTER_SETTLED : ExitCode := USR_OTHER 32.

Notation bytes := (list Z).
Notation error := (ActorError bytes).

Record LaneState : Type := mkLane { redeemed : Z; nonce : Z }.
Record Merge : Type := mkMerge { merge_lane : Z; merge_nonce : Z }.

Definition lane_default : LaneState := mkLane 0 0.

Record State : Type := mkState {
  from : Address;
  to : Address;
  to_send : Z;
  settling_at : Z;
  min_settle_height : Z;
  lane_states : gmap Z LaneState;
}.

Definition new_state (f t : Address) : State := mkState f t 0 0 0 ∅.

Record ModVerifyParams : Type := mkModVerify {
  mv_actor : Address;
  mv_method : Z;
  mv_data : bytes;
}.

Record SignedVoucher : Type := mkVoucher {
  channel_addr : Address;
  time_lock_min : Z;
  time_lock_max : Z;
  secret_pre_image : bytes;
  extra : option ModVerifyParams;
  lane : Z;
  sv_nonce : Z;
  amount : Z;
  sv_min_settle_height : Z;
  merges : list Merge;
  signature : option bytes;
}.

Record ConstructorParams : Type := mkConstructor { cp_from : Address; cp_to : Address }.
Record UpdateChannelStateParams : Type := mkUpdate { sv : SignedVoucher; secret : bytes }.

(** Parameters of the messages the channel sends. *)
Inductive Params : Type :=
| PNone
| PAuthenticate (signature message : bytes)
| PCbor (data : bytes).

(** ** Lanes *)

Definition find_lane (ls : gmap Z LaneState) (id : Z) : Res error (option LaneState) :=
  if id >? MAX_LANE then Err (err USR_ILLEGAL_ARGUMENT) else Ok (ls !! id).

(** One iteration of the loop over the merges of a voucher. *)
Definition apply_merge (sv_lane : Z) (acc : Z * gmap Z LaneState) (m : Merge)
  : Res error (Z * gmap Z LaneState) :=
  let '(redeemed_from_others, l_states) := acc in
  if merge_lane m =? sv_lane then Err (err USR_ILLEGAL_ARGUMENT)
  else
    let! found := find_lane l_states (merge_lane m) in
    let! other_ls := ok_or found (err USR_ILLEGAL_ARGUMENT) in
    if nonce other_ls >=? merge_nonce m then Err (err USR_ILLEGAL_ARGUMENT)
    else Ok (redeemed_from_others + redeemed other_ls,
             <[merge_lane m := mkLane (redeemed other_ls) (merge_nonce m)]> l_states).

(** The transaction that redeems a voucher. *)
Definition redeem (v : SignedVoucher) (current_balance : Z) (st : State)
  : Res error (unit * State) :=
  let l_states := lane_states st in
  let lane_id := lane v in
  let! found := find_lane l_states lane_id in
  let! lane_state :=
    match found with
    | Some s => if nonce s >=? sv_nonce v then Err (err USR_ILLEGAL_ARGUMENT) else Ok s
    | None => Ok lane_default
    end in
  let! (redeemed_from_others, l_states) := rfold (apply_merge (lane v)) (0, l_states) (merges v) in
  let balance_delta := amount v - (redeemed_from_others + redeemed lane_state) in
  let lane_state := mkLane (amount v) (sv_nonce v) in
  let new_send_balance := balance_delta + to_send st in
  if new_send_balance <? 0 then Err (err USR_ILLEGAL_ARGUMENT)
  else if new_send_balance >? current_balance then Err (err USR_ILLEGAL_ARGUMENT)
  else
    let '(settling, min_settle) :=
      if negb (sv_min_settle_height v =? 0) then
        ((if negb (settling_at st =? 0) && (settling_at st <? sv_min_settle_height v)
          then sv_min_settle_height v else settling_at st),
         (if min_settle_height st <? sv_min_settle_height v
          then sv_min_settle_height v else min_settle_height st))
      else (settling_at st, min_settle_height st) in
    let l_states := <[lane_id := lane_state]> l_states in
    Ok (tt, mkState (from st) (to st) new_send_balance settling min_settle l_states).

(** ** Methods *)

Inductive Msg : Type :=
| Constructor (p : ConstructorParams)
| UpdateChannelState (p : UpdateChannelStateParams)
| Settle
| Collect
| OtherMethod (method : Z).

Section methods.
Context {Net : Type}.
(** CBOR encoding of the unsigned voucher, CBOR decoding of a boolean, and
    the FRC-42 hash of ["AuthenticateMessage"]. *)
Context (to_vec : SignedVoucher -> option bytes).
Context (decode_bool : bytes -> option bool).
Context (AUTHENTICATE_MESSAGE_METHOD : Z).
Context (env : Env Net State Params bytes) (ctx : Ctx).

Notation M := (M Net State Params bytes).

(** The signed bytes cover every field of the voucher but the signature. *)
Definition signing_bytes (v : SignedVoucher) : option bytes :=
  to_vec (mkVoucher (channel_addr v) (time_lock_min v) (time_lock_max v)
    (secret_pre_image v) (extra v) (lane v) (sv_nonce v) (amount v)
    (sv_min_settle_height v) (merges v) None).

Definition constructor (p : ConstructorParams) : M unit :=
  let* _ := validate_immediate_caller_type env ctx [TInit] in
  let* to_id := resolve_to_actor_id env PNone (cp_to p) true in
  let* from_id := resolve_to_actor_id env PNone (cp_from p) true in
  create (new_state (AddrId from_id) (AddrId to_id)).

Definition update_channel_state (p : UpdateChannelStateParams) : M unit :=
  let* st := state in
  let* _ := validate_immediate_caller_is ctx [from st; to st] in
  let signer := if addr_eqb (caller ctx) (from st) then to st else from st in
  let v := sv p in
  let* sig := lift (ok_or (signature v) (err USR_ILLEGAL_ARGUMENT)) in
  if negb (settling_at st =? 0) && (ctx_epoch ctx >=? settling_at st)
  then throw ERR_CHANNEL_STATE_UPDATE_AFTER_SETTLED
  else if Z.of_nat (length (secret p)) >? MAX_SECRET_SIZE then throw USR_ILLEGAL_ARGUMENT
  else
    let* sv_bz := lift (ok_or (signing_bytes v) (err USR_SERIALIZATION)) in
    let* res := send env (mkSend signer AUTHENTICATE_MESSAGE_METHOD
                            (PAuthenticate sig sv_bz) 0 true) in
    let* authenticated := lift (let! r := extract_send_result res in
                                deserialize_block decode_bool r) in
    if negb authenticated then throw USR_ILLEGAL_ARGUMENT
    else
      let* resolved := resolve_address env (channel_addr v) in
      let* svpch_id := lift (ok_or resolved (err USR_ILLEGAL_ARGUMENT)) in
      if negb (addr_eqb (receiver ctx) (AddrId svpch_id)) then throw USR_ILLEGAL_ARGUMENT
      else if ctx_epoch ctx <? time_lock_min v then throw USR_ILLEGAL_ARGUMENT
      else if negb (time_lock_max v =? 0) && (ctx_epoch ctx >? time_lock_max v)
      then throw USR_ILLEGAL_ARGUMENT
      else if amount v <? 0 then throw USR_ILLEGAL_ARGUMENT
      else if bool_decide (secret_pre_image v <> []) &&
              bool_decide (env_hash_blake2b env (secret p) <> secret_pre_image v)
      then throw USR_ILLEGAL_ARGUMENT
      else
        let* _ :=
          match extra v with
          | Some e =>
              let* res := send_simple env (mv_actor e) (mv_method e) (PCbor (mv_data e)) 0 in
              let* _ := lift (extract_send_result res) in
              ret tt
          | None => ret tt
          end in
        let* balance := current_balance in
        transaction (redeem v balance).

Definition settle : M unit :=
  transaction_rt (fun st =>
    let* _ := validate_immediate_caller_is ctx [from st; to st] in
    if negb (settling_at st =? 0) then throw USR_ILLEGAL_STATE
    else
      let* at_epoch := lift (chk_i64 (ctx_epoch ctx + SETTLE_DELAY)) in
      let at_epoch := if at_epoch <? min_settle_height st then min_settle_height st
                      else at_epoch in
      ret (tt, mkState (from st) (to st) (to_send st) at_epoch (min_settle_height st)
                 (lane_states st))).

Definition collect : M unit :=
  let* st := state in
  let* _ := validate_immediate_caller_is ctx [from st; to st] in
  if (settling_at st =? 0) || (ctx_epoch ctx <? settling_at st) then throw USR_FORBIDDEN
  else
    let* res := send_simple env (to st) METHOD_SEND PNone (to_send st) in
    let* _ := lift (extract_send_result res) in
    let* balance := current_balance in
    let* res := send_simple env (from st) METHOD_SEND PNone balance in
    let* _ := lift (extract_send_result res) in
    delete_actor.

Definition method_num (m : Msg) : Z :=
  match m with
  | Constructor _ => 1
  | UpdateChannelState _ => 2
  | Settle => 3
  | Collect => 4
  | OtherMethod n => n
  end.

(** Integers of a decoded voucher are within their types. *)
Definition decodes (m : Msg) : bool :=
  match m with
  | UpdateChannelState p =>
      in_u64 (lane (sv p)) && in_u64 (sv_nonce (sv p)) &&
      in_i64 (time_lock_min (sv p)) && in_i64 (time_lock_max (sv p)) &&
      in_i64 (sv_min_settle_height (sv p)) &&
      forallb (fun m => in_u64 (merge_lane m) && in_u64 (merge_nonce m)) (merges (sv p))
  | _ => true
  end.

Definition invoke_method (m : Msg) : M unit :=
  let* _ := restrict_internal_api env ctx (method_num m) in
  if negb (decodes m) then throw USR_SERIALIZATION
  else
  match m with
  | Constructor p => constructor p
  | UpdateChannelState p => update_channel_state p
  | Settle => settle
  | Collect => collect
  | OtherMethod _ => throw USR_UNHANDLED_MESSAGE
  end.

End methods.

(** ** Redemption *)

Definition lane_redeemed (ls : gmap Z LaneState) (id : Z) : Z :=
  default 0 (redeemed <$> ls !! id).

(** What the merged lanes had redeemed. *)
Definition merged_total (ls : gmap Z LaneState) (ms : list Merge) : Z :=
  sum_list_Z ((fun m => lane_redeemed ls (merge_lane m)) <$> ms).

(** Every lane survives, with a nonce at least as high. *)
Definition lanes_le (ls ls' : gmap Z LaneState) : Prop :=
  forall id l, ls !! id = Some l -> exists l', ls' !! id = Some l' /\ nonce l <= nonce l'.

#[global] Instance lanes_le_preorder : PreOrder lanes_le.
Proof.
  split; [intros ls id l Hl; exists l; split; [done|lia]|].
  intros l1 l2 l3 H12 H23 id l Hl. apply H12 in Hl as (l' & Hl' & ?).
  apply H23 in Hl' as (l'' & ? & ?). exists l''. split; [done|lia].
Qed.

Lemma lanes_le_insert ls id l :
  (forall l0, ls !! id = Some l0 -> nonce l0 <= nonce l) -> lanes_le ls (<[id := l]> ls).
Proof.
  intros Hl k l0 Hk. destruct (decide (k = id)) as [->|Hne].
  - exists l. rewrite lookup_insert_eq. eauto.
  - exists l0. rewrite lookup_insert_ne by done. split; [done|lia].
Qed.

Lemma apply_merge_ok sl r ls m r' ls' :
  apply_merge sl (r, ls) m = Ok (r', ls') ->
  merge_lane m <> sl /\ r' = r + lane_redeemed ls (merge_lane m) /\ lanes_le ls ls' /\
  ls' !! sl = ls !! sl /\ (forall id, lane_redeemed ls' id = lane_redeemed ls id) /\
  (forall id, is_Some (ls' !! id) -> is_Some (ls !! id)).
Proof.
  unfold apply_merge, find_lane. intros H. res_inv.
  match goal with Hl : ls !! _ = Some _ |- _ => rename Hl into H end. split; [done|].
  unfold lane_redeemed. rewrite H. cbn. split; [done|]. split_and!.
  - apply lanes_le_insert. intros l0 Hl0. rewrite H in Hl0. injection Hl0 as <-. cbn. lia.
  - by rewrite lookup_insert_ne.
  - intros id. destruct (decide (id = merge_lane m)) as [->|Hne].
    + by rewrite lookup_insert_eq, H.
    + by rewrite lookup_insert_ne.
  - intros id [l [[<- _]|[_ ?]]%lookup_insert_Some]; eauto.
Qed.

Lemma merged_total_ext ls ls' ms :
  (forall id, lane_redeemed ls' id = lane_redeemed ls id) ->
  merged_total ls' ms = merged_total ls ms.
Proof.
  intros H. unfold merged_total, sum_list_Z. induction ms; cbn; [done|].
  by rewrite H, IHms.
Qed.

Lemma merges_ok sl ms : forall r ls r' ls',
  rfold (apply_merge sl) (r, ls) ms = Ok (r', ls') ->
  r' = r + merged_total ls ms /\ lanes_le ls ls' /\ ls' !! sl = ls !! sl /\
  (forall id, lane_redeemed ls' id = lane_redeemed ls id) /\
  (forall id, is_Some (ls' !! id) -> is_Some (ls !! id)).
Proof.
  induction ms as [|m ms IH]; cbn; intros r ls r' ls' H.
  - injection H as <- <-. split; [unfold merged_total; cbn; lia|]. split_and!; try done.
  - apply rbind_ok in H as ([r1 ls1] & H1 & H).
    apply apply_merge_ok in H1 as (Hne & -> & Hle & Hsl & Hred & Hdom).
    apply IH in H as (-> & Hle' & Hsl' & Hred' & Hdom').
    split_and!; [|by etrans|congruence|intros id; by rewrite Hred'|eauto].
    rewrite (merged_total_ext ls ls1) by done.
    unfold merged_total, sum_list_Z. cbn. lia.
Qed.

(** The effect of a redemption, as the code computes it. *)
Record redeemed_by (v : SignedVoucher) (bal : Z) (st st' : State) : Prop := {
  rb_lane : lane v <= MAX_LANE;
  rb_nonce : forall l, lane_states st !! lane v = Some l -> nonce l < sv_nonce v;
  rb_to_send : to_send st' = to_send st + amount v -
    lane_redeemed (lane_states st) (lane v) - merged_total (lane_states st) (merges v);
  rb_covered : 0 <= to_send st' <= bal;
  rb_lanes : lane_states st' !! lane v = Some (mkLane (amount v) (sv_nonce v));
  rb_mono : lanes_le (lane_states st) (lane_states st');
  rb_others : forall id, id <> lane v ->
    lane_redeemed (lane_states st') id = lane_redeemed (lane_states st) id;
  rb_parties : from st' = from st /\ to st' = to st;
  rb_settling : settling_at st' =
    if settling_at st =? 0 then 0
    else if sv_min_settle_height v =? 0 then settling_at st
    else Z.max (settling_at st) (sv_min_settle_height v);
  rb_min_settle : min_settle_height st' =
    if sv_min_settle_height v =? 0 then min_settle_height st
    else Z.max (min_settle_height st) (sv_min_settle_height v);
}.

Lemma redeem_ok v bal st u st' : redeem v bal st = Ok (u, st') -> redeemed_by v bal st st'.
Proof.
  unfold redeem, find_lane. intros H. res_inv.
  match goal with Hm : rfold _ _ _ = Ok _ |- _ =>
    apply merges_ok in Hm as (-> & Hle & Hsl & Hred & _) end.
  assert (forall l, lane_states st !! lane v = Some l -> nonce l < sv_nonce v) as Hn.
  { intros l Hl. rewrite Hl in *. res_inv. lia. }
  assert (redeemed x0 = lane_redeemed (lane_states st) (lane v)) as Hx.
  { unfold lane_redeemed. destruct (lane_states st !! lane v); res_inv; done. }
  destruct (if negb (sv_min_settle_height v =? 0) then _ else _) as [settling mins] eqn:Hs.
  res_inv. constructor; cbn; try done; try lia.
  - apply lookup_insert_eq.
  - etrans; [exact Hle|]. apply lanes_le_insert. intros l Hl. rewrite Hsl in Hl.
    apply Hn in Hl. cbn. lia.
  - intros id Hid. unfold lane_redeemed. rewrite lookup_insert_ne by done. apply Hred.
  - destruct (sv_min_settle_height v =? 0), (settling_at st =? 0) eqn:?; cbn in Hs;
      [..|destruct (_ <? _) eqn:?]; simplify_eq; bool_prop; lia.
  - destruct (sv_min_settle_height v =? 0); cbn in Hs; [by simplify_eq|].
    destruct (min_settle_height st <? _) eqn:?; simplify_eq; bool_prop; lia.
Qed.

(** ** The abstract channel *)

(** The changes of its state. *)
Inductive step (st : State) : State -> Prop :=
| step_redeem v bal st' :
    0 <= amount v -> redeemed_by v bal st st' -> step st st'
| step_settle e :
    settling_at st = 0 -> SETTLE_DELAY <= e -> min_settle_height st <= e ->
    step st (mkState (from st) (to st) (to_send st) e (min_settle_height st)
               (lane_states st)).

Record wf (st : State) : Prop := {
  wf_to_send : 0 <= to_send st;
  wf_min_settle : 0 <= min_settle_height st;
  wf_settling : settling_at st = 0 \/
    SETTLE_DELAY <= settling_at st /\ min_settle_height st <= settling_at st;
  wf_lanes : forall id, 0 <= lane_redeemed (lane_states st) id;
}.

Lemma channel_step_wf st st' : wf st -> step st st' -> wf st'.
Proof.
  intros [? ? Hs Hl] [v bal st1 Hv []|e ? ? ?]; constructor; cbn; try done; try lia.
  - rewrite rb_min_settle0. clear - wf_min_settle0. destruct (sv_min_settle_height v =? 0); lia.
  - rewrite rb_settling0, rb_min_settle0.
    destruct (settling_at st =? 0) eqn:?, (sv_min_settle_height v =? 0); bool_prop; lia.
  - intros id. destruct (decide (id = lane v)) as [->|Hne].
    + unfold lane_redeemed. by rewrite rb_lanes0.
    + rewrite rb_others0 by done. apply Hl.
Qed.

(** A lane whose nonce has reached [n]. *)
Definition used (id n : Z) (s : option State) : Prop :=
  exists st l, s = Some st /\ lane_states st !! id = Some l /\ n <= nonce l.

Lemma step_used id n st st' : step st st' -> used id n (Some st) -> used id n (Some st').
Proof.
  intros Hstep (s & l & [= <-] & Hl & Hn). destruct Hstep as [v bal st1 Hv []|].
  - apply rb_mono0 in Hl as (l' & ? & ?). exists st1, l'. split_and!; [done..|lia].
  - eexists _, l. split_and!; [reflexivity|done..].
Qed.

(** A channel that is settling, no earlier than [e]. *)
Definition settling_after (e : Z) (s : option State) : Prop :=
  exists st, s = Some st /\ 0 < settling_at st /\ e <= settling_at st.

Lemma step_settling_after e st st' :
  step st st' -> settling_after e (Some st) -> settling_after e (Some st').
Proof.
  intros Hstep (s & [= <-] & Hne & He).
  destruct Hstep as [v bal st1 Hv []|]; eexists; (split; [reflexivity|]); cbn; [|lia].
  rewrite rb_settling0. clear - Hne He.
  destruct (settling_at st =? 0) eqn:?, (sv_min_settle_height v =? 0); bool_prop; lia.
Qed.

(** ** Actions of the channel *)

Section refinement.
Context {Net : Type}.
Context (to_vec : SignedVoucher -> option bytes).
Context (decode_bool : bytes -> option bool).
Context (AUTH : Z).
Context (env : Env Net State Params bytes) (ctx : Ctx).

(** The actions of a message.  The label of a redemption is its lane and nonce;
    it happens in the state, and within the balance, that the channel has at
    that moment, after the calls an update makes to authenticate the voucher
    and to run its plug-in. *)
Inductive act (m : Msg) (w : World Net State Params)
  : World Net State Params -> option (SendReq Params) -> list (Z * Z) -> Prop :=
| act_create p f t :
    m = Constructor p -> w_state w = None -> act m w (put (Some (new_state f t)) w) None []
| act_resolve p a :
    m = Constructor p -> act m w w (Some (mkSend a METHOD_SEND PNone 0 false)) []
| act_authenticate p st sig bz :
    m = UpdateChannelState p -> w_state w = Some st ->
    caller ctx = from st \/ caller ctx = to st ->
    settling_at st = 0 \/ ctx_epoch ctx < settling_at st ->
    signature (sv p) = Some sig -> signing_bytes to_vec (sv p) = Some bz ->
    act m w w
      (Some (mkSend (if addr_eqb (caller ctx) (from st) then to st else from st) AUTH
               (PAuthenticate sig bz) 0 true)) []
| act_plugin p e :
    m = UpdateChannelState p -> extra (sv p) = Some e ->
    act m w w (Some (mkSend (mv_actor e) (mv_method e) (PCbor (mv_data e)) 0 false)) []
| act_redeem p st st' :
    m = UpdateChannelState p -> w_state w = Some st -> 0 <= amount (sv p) ->
    redeemed_by (sv p) (w_balance w) st st' ->
    act m w (put (Some st') w) None [(lane (sv p), sv_nonce (sv p))]
| act_settle st e :
    m = Settle -> w_state w = Some st -> caller ctx = from st \/ caller ctx = to st ->
    settling_at st = 0 -> e = Z.max (ctx_epoch ctx + SETTLE_DELAY) (min_settle_height st) ->
    act m w (put (Some (mkState (from st) (to st) (to_send st) e (min_settle_height st)
                          (lane_states st))) w) None []
| act_pay st :
    m = Collect -> w_state w = Some st -> settling_at st <> 0 -> settling_at st <= ctx_epoch ctx ->
    act m w w (Some (mkSend (to st) METHOD_SEND PNone (to_send st) false)) []
| act_return a :
    m = Collect ->
    act m w w (Some (mkSend a METHOD_SEND PNone (w_balance w) false)) [].

Lemma act_steps m w w' req l : ctx_ok ctx = true -> act m w w' req l ->
  w_state w' = w_state w \/ (exists f t, w_state w = None /\ w_state w' = Some (new_state f t)) \/
  exists st st', w_state w = Some st /\ w_state w' = Some st' /\ step st st'.
Proof.
  unfold ctx_ok. intros Hc Ha. bool_prop.
  destruct Ha as [p f t _ ?| | | |p st st' _ ? ? Hr|st e _ ? _ ? ->| |]; auto.
  - right. left. by exists f, t.
  - right. right. exists st, st'. split_and!; [done..|]. by eapply step_redeem.
  - right. right. eexists _, _. split_and!; [done..|]. apply step_settle; lia.
Qed.

Context (nested : SendReq Params -> Net -> option State -> Z -> list (Z * Z)).

Notation does m w w' := (does env nested (act m) w w').

Lemma channel_constructor_does p w u w' :
  constructor env ctx p w = Ok (u, w') -> does (Constructor p) w w'.
Proof.
  intros H. unfold constructor in H. run_inv.
  apply (does_same _ _ _ w (set_validated w)); [done|].
  repeat match goal with Hr : resolve_to_actor_id _ _ _ _ ?w = _ |- does _ ?w _ =>
    apply (resolve_events env nested (act (Constructor p))) in Hr as [? _];
      [|intros ?; by eapply act_resolve]; eapply does_trans; [eassumption|] end.
  eapply does_act; [by eapply act_create|done].
Qed.

Lemma caller_party a b : caller ctx ∈ [a; b] -> caller ctx = a \/ caller ctx = b.
Proof. intros [?| ->%list_elem_of_singleton]%elem_of_cons; auto. Qed.

Lemma settle_does w u w' :
  settle (Net:=Net) ctx w = Ok (u, w') -> does Settle w w'.
Proof.
  intros H. unfold settle in H. run_inv.
  match goal with Hc : caller ctx ∈ _ |- _ => apply caller_party in Hc end.
  eapply does_act; [eapply act_settle; try eassumption; [done|reflexivity]|].
  unfold same_actor. cbn. split_and!; try done. do 2 f_equal. destruct (_ <? _) eqn:?; bool_prop; lia.
Qed.

Lemma collect_does w u w' :
  collect env ctx w = Ok (u, w') -> does Collect w w'.
Proof.
  intros H. unfold collect in H. run_inv.
  match goal with Hs : w_state w = Some ?s |- _ => rename s into st; rename Hs into Hst end.
  apply (does_same _ _ _ w (set_validated w)); [done|].
  eapply does_trans; [eapply (does_send _ _ _ (set_validated w) (set_validated w)); by apply (act_pay _ _ st)|].
  eapply does_trans; [eapply does_send; by apply (act_return _ _ (from st))|]. by apply does_nothing.
Qed.

(** What a successful update has checked, on the state it started from. *)
Record update_checks (p : UpdateChannelStateParams) (st : State)
    (w : World Net State Params) : Prop := {
  uc_caller : caller ctx = from st \/ caller ctx = to st;
  uc_open : settling_at st = 0 \/ ctx_epoch ctx < settling_at st;
  uc_authenticated :
    let other := if addr_eqb (caller ctx) (from st) then to st else from st in
    exists sig bz r, signature (sv p) = Some sig /\ signing_bytes to_vec (sv p) = Some bz /\
      let out := env_send env (mkSend other AUTH (PAuthenticate sig bz) 0 true)
                   (w_net w) (Some st) (w_balance w) in
      decode_bool r = Some true /\ so_result out = inl (mkResp EC_OK (Some r)) /\
      env_resolve_address env (so_net out) (channel_addr (sv p)) = Some (ctx_receiver ctx);
  uc_time : time_lock_min (sv p) <= ctx_epoch ctx /\
    (time_lock_max (sv p) = 0 \/ ctx_epoch ctx <= time_lock_max (sv p));
  uc_amount : 0 <= amount (sv p);
  uc_secret : Z.of_nat (length (secret p)) <= MAX_SECRET_SIZE /\
    (secret_pre_image (sv p) = [] \/ env_hash_blake2b env (secret p) = secret_pre_image (sv p));
}.

Lemma extract_success (res : Response bytes + ErrorNumber) r :
  extract_send_result res = Ok r -> res = inl (mkResp EC_OK r).
Proof.
  unfold extract_send_result. destruct res as [[c d]|]; [|done]. cbn.
  destruct c; cbn; intros; by simplify_eq.
Qed.

Lemma update_ok p w u w' :
  update_channel_state to_vec decode_bool AUTH env ctx p w = Ok (u, w') ->
  exists st w1 st1 st2, w_state w = Some st /\ update_checks p st w /\
    does (UpdateChannelState p) w w1 /\ w_state w1 = Some st1 /\
    redeem (sv p) (w_balance w1) st1 = Ok (tt, st2) /\ w' = set_state st2 w1.
Proof.
  intros H. unfold update_channel_state in H. run_inv.
  match goal with Hs : w_state w = Some ?s |- _ => rename s into st; rename Hs into Hst end.
  match goal with Hc : caller ctx ∈ _ |- _ => apply caller_party in Hc; rename Hc into Hparty end.
  match goal with Hb : _ && (_ >=? _) = false |- _ => rename Hb into Hopen end.
  assert (settling_at st = 0 \/ ctx_epoch ctx < settling_at st) as Hopen'.
  { destruct (settling_at st =? 0) eqn:?; bool_prop; [by left|right].
    destruct (ctx_epoch ctx >=? settling_at st) eqn:?; bool_prop; [done|lia]. }
  unfold deserialize_block in *. res_inv.
  match goal with Hs : signature (sv p) = Some ?g, Hb : signing_bytes _ _ = Some ?z |- _ =>
    pose proof (act_authenticate (UpdateChannelState p) (set_validated w) p st g z eq_refl
      Hst Hparty Hopen' Hs Hb) as Hact%(does_send env nested) end.
  match goal with Hx : extract_send_result _ = Ok _ |- _ =>
    apply extract_success in Hx; rename Hx into Hres end. subst.
  match goal with Hm : match extra _ with _ => _ end ?w0 = Ok (_, ?x) |- _ =>
    assert (does (UpdateChannelState p) w x) as Hdoes end.
  { apply (does_same _ _ _ w (set_validated w)); [done|]. eapply does_trans; [exact Hact|].
    destruct (extra (sv p)) eqn:Hex; run_inv; [|by apply does_nothing].
    match goal with |- does _ ?w1 _ => exact (does_send _ _ _ w1 w1 _ _ (act_plugin _ w1 p _ eq_refl Hex)) end. }
  rewrite Hst in *.
  match goal with Hw : w_state ?x = Some ?s, Hr : redeem _ (w_balance ?x) ?s = Ok (_, ?s2) |- _ =>
    exists st, x, s, s2 end.
  split; [done|]. split; [|split_and!; done].
  constructor; try done.
  + cbn zeta. eexists _, _, _. split_and!; [eassumption..|].
    match goal with Hb : addr_eqb (receiver ctx) _ = true |- _ =>
      apply bool_decide_eq_true in Hb; injection Hb as -> end. done.
  + split; [done|]. destruct (time_lock_max (sv p) =? 0) eqn:?; bool_prop; [by left|right].
    destruct (ctx_epoch ctx >? _) eqn:?; bool_prop; [done|lia].
  + split; [done|].
    match goal with Hb : bool_decide _ && _ = false |- _ =>
      apply andb_false_iff in Hb as [Hb|Hb] end; bool_prop; [left|right]; by apply dec_stable.
Qed.

Lemma update_does p w u w' :
  update_channel_state to_vec decode_bool AUTH env ctx p w = Ok (u, w') ->
  does (UpdateChannelState p) w w'.
Proof.
  intros (st & w1 & st1 & st2 & _ & [] & Hd & Hw1 & Hr%redeem_ok & ->)%update_ok.
  eapply does_trans; [exact Hd|]. eapply does_act; [by eapply act_redeem|done].
Qed.

Lemma channel_invoke_does m w r w' :
  invoke_method to_vec decode_bool AUTH env ctx m w = Ok (r, w') -> does m w w'.
Proof.
  intros H. unfold invoke_method in H. run_inv.
  match goal with Hr : restrict_internal_api _ _ _ _ = _ |- _ =>
    apply restrict_state in Hr as -> end.
  destruct m; [..|by apply throw_ok in H];
    eauto using channel_constructor_does, update_does, settle_does, collect_does.
Qed.

End refinement.

Lemma channel_refines {Net} to_vec decode_bool AUTH :
  refines (@invoke_method Net to_vec decode_bool AUTH) (fun env ctx => act to_vec AUTH ctx).
Proof. intros env nested ctx msg w r w' _ H. by eapply channel_invoke_does. Qed.

(** An invariant of the steps holds in every reachable state. *)
Lemma channel_invariant {Net} to_vec decode_bool AUTH (I : option State -> Prop) :
  (forall f t, I None -> I (Some (new_state f t))) ->
  (forall st st', step st st' -> I (Some st) -> I (Some st')) ->
  forall s s', reach (@invoke_method Net to_vec decode_bool AUTH) s s' -> I s -> I s'.
Proof.
  intros Hinit Hstep. apply (refines_invariant _ _ _ (channel_refines _ _ _)).
  intros env ctx m w w' req l Hc [->|[(f & t & Hw & ->)|(st & st' & Hw & -> & Hs)]]%act_steps HI;
    [done|rewrite Hw in HI; eauto..|done].
Qed.

(** ** Properties *)

Section properties.
Context {Net : Type}.
Context (to_vec : SignedVoucher -> option bytes).
Context (decode_bool : bytes -> option bool).
Context (AUTH : Z).

Notation invoke := (@invoke_method Net to_vec decode_bool AUTH).
Notation reach := (reach invoke).

Definition wf_opt (s : option State) : Prop :=
  match s with Some st => wf st | None => True end.

(** In every reachable state of a channel the amount to send and what
    each lane redeemed are not negative, and a channel that is settling does
    so at least twelve hours after genesis and never before the minimum
    settle height its vouchers demanded. *)
Theorem paych_reachable_wf s : reach None s -> wf_opt s.
Proof.
  intros Hr. eapply (channel_invariant _ _ _ wf_opt); [..|exact Hr|done]; cbn; [|eauto using channel_step_wf].
  intros f t _. constructor; cbn; try lia. intros id. by unfold lane_redeemed; rewrite lookup_empty.
Qed.

(** A voucher is redeemed only for a party of the channel, with the
    other party's authentication of the signed bytes, for this channel, within
    its time locks and before the channel settled; the redemption raises the
    lane nonce, moves the amount to send by the voucher amount less what its
    lane and the merged lanes had redeemed, and never beyond the balance. *)
Theorem update_channel_state_spec (env : Env Net State Params bytes) ctx p w u w' :
  update_channel_state to_vec decode_bool AUTH env ctx p w = Ok (u, w') ->
  exists st w1 st1 st2, w_state w = Some st /\
    update_checks to_vec decode_bool AUTH env ctx p st w /\
    w_state w1 = Some st1 /\ w' = set_state st2 w1 /\ redeemed_by (sv p) (w_balance w1) st1 st2.
Proof.
  intros (st & w1 & st1 & st2 & ? & ? & _ & ? & Hr%redeem_ok & ?)%(update_ok _ _ _ _ _ (fun _ _ _ _ => [])).
  by exists st, w1, st1, st2.
Qed.

Definition used_label (x : Z * Z) (s : option State) : Prop := used x.1 x.2 s.

Lemma act_used m ctx w w' req l x : ctx_ok ctx = true ->
  act (Net:=Net) to_vec AUTH ctx m w w' req l -> used_label x (w_state w) -> used_label x (w_state w').
Proof.
  intros Hc [->|[(f & t & Hw & ->)|(st & st' & Hw & -> & Hs)]]%act_steps Hu; [done|..|done];
    rewrite Hw in Hu; [by destruct Hu as (? & ? & ? & _)|]. by eapply step_used.
Qed.

(** A redemption raises the nonce of its lane. *)
Lemma act_redeems m ctx w w' req l : act (Net:=Net) to_vec AUTH ctx m w w' req l ->
  NoDup l /\ forall x, x ∈ l -> ~ used_label x (w_state w) /\ used_label x (w_state w').
Proof.
  intros [| | | |p st st' _ Hw _ Hr| | |]; try (split; [constructor|]; intros x Hx; by inversion Hx).
  split; [apply NoDup_singleton|]. intros x ->%list_elem_of_singleton. rewrite Hw. split.
  - intros (s0 & ls & [= <-] & Hl & Hn). apply (rb_nonce _ _ _ _ Hr) in Hl. cbn in Hn. lia.
  - eexists _, _. split_and!; [done|apply (rb_lanes _ _ _ _ Hr)|done].
Qed.

Lemma used_reach id n s s' : reach s s' -> used id n s -> used id n s'.
Proof.
  apply (channel_invariant _ _ _ (used id n)); [by intros ? ? (? & ? & ? & _)|apply step_used].
Qed.

(** A voucher whose nonce has been reached is refused, even when the channel
    is called back meanwhile. *)
Lemma used_refused (env : Env Net State Params bytes) ctx p w r :
  (forall req net s bal, reach s (so_state (env_send env req net s bal))) ->
  used (lane (sv p)) (sv_nonce (sv p)) (w_state w) ->
  ctx_ok ctx = true -> update_channel_state to_vec decode_bool AUTH env ctx p w <> Ok r.
Proof.
  intros Hsend Hu Hc H. destruct r as [u w'].
  apply (update_ok _ _ _ _ _ (fun _ _ _ _ => [])) in H as (st & w1 & st1 & st2 & _ & _ & [l He] & Hw1 & Hr%redeem_ok & _).
  eapply (events_rel (fun _ ctx => act to_vec AUTH ctx)
    (fun s _ s' => used (lane (sv p)) (sv_nonce (sv p)) s -> used (lane (sv p)) (sv_nonce (sv p)) s'))
    in He; [|done|by auto| |by eauto using used_reach|done|done].
  2:{ intros _ ctx' m w0 s req l0 Hc' Ha Hx. exact (act_used m ctx' w0 s req l0 (_, _) Hc' Ha Hx). }
  rewrite Hw1 in He. destruct He as (? & lst & [= <-] & Hl & Hn).
  apply (rb_nonce _ _ _ _ Hr) in Hl. lia.
Qed.

(** C15: a voucher is redeemed at most once.  Take a message with everything its
    sends call back, to any depth, and the lanes and nonces redeemed on the
    way: no pair of lane and nonce occurs twice, none had been redeemed before,
    and no update in any later state of the channel, itself called back while
    it runs, redeems a voucher of one of these lanes with the same or a lower
    nonce. *)
Theorem voucher_single_use (env : Env Net State Params bytes) nested ctx m w r w' :
  traced invoke (fun env ctx => act to_vec AUTH ctx) env nested -> ctx_ok ctx = true ->
  invoke env ctx m w = Ok (r, w') ->
  exists l, events env nested (act to_vec AUTH ctx m) w l w' /\ NoDup l /\
    (forall id n, (id, n) ∈ l -> ~ used id n (w_state w)) /\
    forall id n (env' : Env Net State Params bytes) ctx' p' w2 r2, (id, n) ∈ l -> reach (w_state w') (w_state w2) ->
      (forall req net s bal, reach s (so_state (env_send env' req net s bal))) ->
      ctx_ok ctx' = true -> lane (sv p') = id -> sv_nonce (sv p') <= n ->
      update_channel_state to_vec decode_bool AUTH env' ctx' p' w2 <> Ok r2.
Proof.
  intros Ht Hc H. destruct (channel_refines _ _ _ env nested ctx m w r w' Hc H) as [l He].
  exists l. split; [done|].
  apply (events_once invoke (fun env ctx => act to_vec AUTH ctx) used_label (fun _ => True)) in He
    as [_ _ Hnd Hnew]; eauto using act_used, act_redeems.
  split; [done|]. split; [intros id n Hl; by apply (Hnew (id, n))|].
  intros id n env' ctx' p' w2 r2 Hl Hr Hsend Hc' <- Hn. apply used_refused; [done| |done].
  eapply used_reach; [exact Hr|]. apply Hnew in Hl as [_ (st & ls & ? & ? & ?)].
  exists st, ls. cbn in *. split_and!; [done..|lia].
Qed.

(** A settling channel cannot be collected early: once settling was
    requested the settling epoch never moves back, and collection before it
    (or without settling) is refused. *)
Theorem no_early_collect (env' : Env Net State Params bytes) ctx ctx' w u w' w2 r :
  ctx_ok ctx = true -> settle (Net:=Net) ctx w = Ok (u, w') ->
  reach (w_state w') (w_state w2) -> ctx_epoch ctx' < ctx_epoch ctx + SETTLE_DELAY ->
  collect env' ctx' w2 <> Ok r.
Proof.
  intros Hctx Hs Hreach Hlt H. unfold ctx_ok in Hctx. unfold settle in Hs. run_inv.
  assert (settling_after (ctx_epoch ctx + SETTLE_DELAY) (w_state w2)) as Ha.
  { eapply (channel_invariant _ _ _ (settling_after _)); [..|exact Hreach|].
    - by intros ? ? (? & ? & _).
    - apply step_settling_after.
    - cbn. eexists. split; [reflexivity|]. cbn. unfold SETTLE_DELAY in *.
      assert (0 < EPOCHS_IN_HOUR) by reflexivity. destruct (_ <? _) eqn:?; bool_prop; lia. }
  destruct r as [u' w3]. unfold collect in H.
  apply bind_ok in H as (st2 & ? & [Hst ->]%state_ok & H). rewrite Hst in Ha.
  destruct Ha as (? & [= <-] & ? & ?). run_inv. lia.
Qed.

(** Without merges, the amount to send is exactly the sum of what the
    lanes redeemed: the equality is kept by every redemption of a voucher that
    merges no lanes. *)
Theorem unmerged_accounting v bal st st' :
  merges v = [] -> to_send st = map_sum redeemed (lane_states st) ->
  redeem v bal st = Ok (tt, st') -> to_send st' = map_sum redeemed (lane_states st').
Proof.
  intros Hm Hsum H. pose proof (redeem_ok _ _ _ _ _ H) as Hr.
  rewrite (rb_to_send _ _ _ _ Hr), Hm, Hsum. cbn.
  unfold redeem, find_lane in H. rewrite Hm in H. cbn in H. res_inv.
  destruct (if negb _ then _ else _) as [? ?]. res_inv. cbn.
  rewrite map_sum_insert. unfold lookup_sum, lane_redeemed, merged_total. cbn. lia.
Qed.

(** Collection happens only at or after the settling epoch; it pays the
    recipient exactly the redeemed amount, returns everything else to the
    payer, and deletes the empty channel. *)
Theorem collect_pays (env : Env Net State Params bytes) ctx st w u w' :
  bare_send_law env (ctx_receiver ctx) ->
  from st <> receiver ctx -> to st <> receiver ctx ->
  w_state w = Some st -> collect env ctx w = Ok (u, w') ->
  settling_at st <> 0 /\ settling_at st <= ctx_epoch ctx /\
  0 <= to_send st <= w_balance w /\
  w_sent w' = w_sent w ++
    [mkSend (to st) METHOD_SEND PNone (to_send st) false;
     mkSend (from st) METHOD_SEND PNone (w_balance w - to_send st) false] /\
  w_balance w' = 0 /\ w_deleted w' = true.
Proof.
  intros Hlaw Hf Ht Hst H. unfold collect in H. run_inv.
  match goal with Hs : w_state w = Some ?s |- _ => rewrite Hst in Hs; injection Hs as <- end.
  repeat match goal with Hx : extract_send_result _ = Ok _ |- _ => apply extract_success in Hx end.
  match goal with Hx : so_result (env_send _ (mkSend (to st) _ _ _ _) _ _ _) = _ |- _ =>
    apply Hlaw in Hx as [? Hb1]; [|done..] end.
  match goal with Hx : so_result (env_send _ (mkSend (from st) _ _ _ _) _ _ _) = _ |- _ =>
    apply Hlaw in Hx as [_ Hb2]; [|done..] end.
  cbn [send_value] in *. split_and!; try done; try lia.
  rewrite <- app_assoc. cbn. by rewrite Hb1.
Qed.

End properties.

(** ** Witnesses *)
Module Demo.

Definition vec (v : SignedVoucher) : option bytes := Some [lane v; sv_nonce v; amount v].
Definition dec (b : bytes) : option bool := Some (bool_decide (b = [1])).
Definition AUTH : Z := 2643134072.

Definition env : Env unit State Params bytes :=
  mkEnv (fun _ a => addr_id a) (fun _ _ => Some 1) (fun c => Some TInit) (fun d => d)
    (fun req net s bal =>
       if (0 <=? send_value req) && (send_value req <=? bal)
       then mkSendOut (inl (mkResp EC_OK (Some [1]))) s (bal - send_value req) net
       else mkSendOut (inr EN_InsufficientFunds) s bal net).

Lemma env_bare_send : bare_send_law env 100.
Proof.
  intros req net s bal _ _ out. unfold out. cbn.
  destruct (_ && _) eqn:Hb; (split; [done|]); intros d Hd; [|done].
  bool_prop. split; [lia|done].
Qed.

Lemma demo_env_reach req net s bal :
  reach (@invoke_method unit vec dec AUTH) s (so_state (env_send env req net s bal)).
Proof. cbn. case_match; apply reach_refl. Qed.

(** No nested redemption. *)
Definition none (_ : SendReq Params) (_ : unit) (_ : option State) (_ : Z) : list (Z * Z) := [].

Lemma channel_traced : traced (@invoke_method unit vec dec AUTH) (fun env ctx => act vec AUTH ctx) env none.
Proof. intros req net s bal. cbn. case_match; apply trace_nil. Qed.

Definition ctx (from epoch : Z) : Ctx := mkCtx from from 100 0 epoch.

Definition voucher (l n amt : Z) (ms : list Merge) : SignedVoucher :=
  mkVoucher (AddrId 100) 0 0 [] None l n amt 0 ms (Some [7]).

Definition state0 : State := new_state (AddrId 201) (AddrId 202).
Definition state1 : State :=
  mkState (AddrId 201) (AddrId 202) 30 0 0 {[3 := mkLane 30 1]}.
Definition settled : State :=
  mkState (AddrId 201) (AddrId 202) 30 1450 0 {[3 := mkLane 30 1]}.

Definition w0 : World unit State Params := mkWorld (Some state0) 100 tt false false [].
Definition w1 : World unit State Params := mkWorld (Some state1) 100 tt false false [].
Definition w_settled : World unit State Params := mkWorld (Some settled) 100 tt false false [].

End Demo.

Lemma paych_reachable_wf_witness : wf_opt (Some Demo.state0).
Proof.
  apply (paych_reachable_wf (Net:=unit) Demo.vec Demo.dec Demo.AUTH).
  eapply (reach_msg _ Demo.env (Demo.ctx 1 10)
    (Constructor (mkConstructor (AddrId 201) (AddrId 202))) None 0 tt);
    [apply Demo.demo_env_reach|reflexivity|vm_compute; reflexivity|reflexivity|apply reach_refl].
Defined.

Lemma update_channel_state_spec_witness :
  exists st st1 st2 bal, Some Demo.state0 = Some st /\
    redeemed_by (Demo.voucher 3 1 30 []) bal st1 st2.
Proof.
  edestruct (update_channel_state_spec Demo.vec Demo.dec Demo.AUTH Demo.env
    (Demo.ctx 202 10) (mkUpdate (Demo.voucher 3 1 30 []) []) Demo.w0)
    as (st & w1 & st1 & st2 & ? & _ & ? & ? & ?); [vm_compute; reflexivity|].
  by exists st, st1, st2, (w_balance w1).
Defined.

Lemma voucher_single_use_witness :
  exists l w', events Demo.env Demo.none (act Demo.vec Demo.AUTH (Demo.ctx 202 10)
    (UpdateChannelState (mkUpdate (Demo.voucher 3 1 30 []) []))) Demo.w0 l w' /\ NoDup l.
Proof.
  destruct (invoke_method Demo.vec Demo.dec Demo.AUTH Demo.env (Demo.ctx 202 10)
    (UpdateChannelState (mkUpdate (Demo.voucher 3 1 30 []) [])) Demo.w0) as [[r w']| |] eqn:E;
    [|vm_compute in E; discriminate E..].
  destruct (voucher_single_use Demo.vec Demo.dec Demo.AUTH Demo.env Demo.none (Demo.ctx 202 10)
    (UpdateChannelState (mkUpdate (Demo.voucher 3 1 30 []) [])) Demo.w0 r w')
    as (l & He & Hnd & _); [exact Demo.channel_traced|reflexivity|exact E|].
  exists l, w'. split; [exact He|exact Hnd].
Defined.

Lemma no_early_collect_witness :
  ~ exists r, collect Demo.env (Demo.ctx 202 1449) Demo.w_settled = Ok r.
Proof.
  intros [r Hr]. revert Hr. eapply (no_early_collect Demo.vec Demo.dec Demo.AUTH Demo.env (Demo.ctx 201 10)
    (Demo.ctx 202 1449) Demo.w1);
    [reflexivity|vm_compute; reflexivity|apply reach_refl|vm_compute; reflexivity].
Defined.

Lemma unmerged_accounting_witness :
  to_send Demo.state1 = map_sum redeemed (lane_states Demo.state1).
Proof.
  apply (unmerged_accounting (Demo.voucher 3 1 30 []) 100 Demo.state0);
    [reflexivity|vm_compute; reflexivity|vm_compute; reflexivity].
Defined.

Lemma collect_pays_witness :
  exists w', collect Demo.env (Demo.ctx 202 1450) Demo.w_settled = Ok (tt, w') /\
    w_balance w' = 0 /\ w_deleted w' = true.
Proof.
  eexists. split; [vm_compute; reflexivity|].
  edestruct (collect_pays Demo.env (Demo.ctx 202 1450) Demo.settled Demo.w_settled)
    as (_ & _ & _ & _ & ? & ?);
    [apply Demo.env_bare_send|done..|vm_compute; reflexivity|]. done.
Defined.
