(* ===== verification/Batch.v ===== *)
(** * Batch results

    Models src/runtime/src/util/batch_return.rs: the compact encoding of the
    exit codes of a batch, its generator, and the stacking of the results of
    successive batches.  Indices are [u32] in the encoding and [usize] in the
    generator, the same type on wasm32, and are natural numbers here. *)

From stdpp Require Import sorting.
From S2P Require Import Prelude Runtime.

Record FailCode : Type := mkFail { idx : nat; code : ExitCode }.

Record BatchReturn : Type := mkBatch {
  success_count : nat;
  fail_codes : list FailCode;
}.

Definition batch_empty : BatchReturn := mkBatch 0 [].
Definition batch_ok (n : nat) : BatchReturn := mkBatch n [].
Definition batch_size (b : BatchReturn) : nat := (success_count b + length (fail_codes b))%nat.
Definition all_ok (b : BatchReturn) : bool :=
  match fail_codes b with [] => true | _ => false end.

(** ** The generator *)

Record BatchReturnGen : Type := mkGen {
  gen_success_count : nat;
  gen_fail_codes : list FailCode;
  expect_count : nat;
}.

Definition new_gen (expect_count : nat) : BatchReturnGen := mkGen 0 [] expect_count.

Definition add_successes (count : nat) (g : BatchReturnGen) : BatchReturnGen :=
  mkGen (gen_success_count g + count) (gen_fail_codes g) (expect_count g).

Definition add_success : BatchReturnGen -> BatchReturnGen := add_successes 1.

Definition add_fail (c : ExitCode) (g : BatchReturnGen) : BatchReturnGen :=
  mkGen (gen_success_count g)
    (gen_fail_codes g ++ [mkFail (gen_success_count g + length (gen_fail_codes g)) c])
    (expect_count g).

Definition gen_add (c : ExitCode) (g : BatchReturnGen) : BatchReturnGen :=
  if is_success c then add_success g else add_fail c g.

Definition generate {E} (g : BatchReturnGen) : Res E BatchReturn :=
  if Nat.eqb (expect_count g) (gen_success_count g + length (gen_fail_codes g))
  then Ok (mkBatch (gen_success_count g) (gen_fail_codes g))
  else Panic.

Definition batch_of {E} (codes : list ExitCode) : Res E BatchReturn :=
  generate (foldl (fun g c => gen_add c g) (new_gen (length codes)) codes).

(** ** Reading a batch *)

Definition push_code (ret : list ExitCode) (f : FailCode) : list ExitCode :=
  ret ++ replicate (idx f - length ret) EC_OK ++ [code f].

Definition codes (b : BatchReturn) : list ExitCode :=
  let ret := foldl push_code [] (fail_codes b) in
  ret ++ replicate (batch_size b - length ret) EC_OK.

Fixpoint successes_from {T} (i : nat) (fails : list FailCode) (items : list T) : list T :=
  match items with
  | [] => []
  | item :: items' =>
      match fails with
      | f :: fails' =>
          if Nat.eqb i (idx f) then successes_from (S i) fails' items'
          else item :: successes_from (S i) fails items'
      | [] => item :: successes_from (S i) [] items'
      end
  end.

Definition successes {E T} (b : BatchReturn) (items : list T) : Res E (list T) :=
  if Nat.eqb (length items) (batch_size b) then Ok (successes_from 0 (fail_codes b) items)
  else Panic.

(** ** Stacking *)

(** [while base_fail.next_if(|f| f.idx <= bound + offset).is_some() { offset += 1 }] *)
Fixpoint skip_fails (bound offset : nat) (base_fail : list FailCode) : nat * list FailCode :=
  match base_fail with
  | f :: rest =>
      if Nat.leb (idx f) (bound + offset) then skip_fails bound (S offset) rest
      else (offset, base_fail)
  | [] => (offset, [])
  end.

Fixpoint shift_fails (offset : nat) (base_fail nxt_fails : list FailCode) : list FailCode :=
  match nxt_fails with
  | [] => []
  | nxt_fail :: rest =>
      let '(offset, base_fail) := skip_fails (idx nxt_fail) offset base_fail in
      mkFail (idx nxt_fail + offset) (code nxt_fail) :: shift_fails offset base_fail rest
  end.

Definition idx_le (f g : FailCode) : Prop := (idx f <= idx g)%nat.
#[global] Instance idx_le_dec : RelDecision idx_le.
Proof. intros f g. unfold idx_le. apply _. Defined.

Definition stack_on {E} (base nxt : BatchReturn) : Res E BatchReturn :=
  if Nat.eqb (success_count base) (batch_size nxt) then
    let new_fail_codes := shift_fails 0 (fail_codes base) (fail_codes nxt) in
    Ok (mkBatch (success_count nxt)
          (merge_sort idx_le (fail_codes base ++ new_fail_codes)))
  else Panic.

Definition stack {E} (batch_returns : list BatchReturn) : Res E BatchReturn :=
  match batch_returns with
  | [] => Ok batch_empty
  | b0 :: rest =>
      let! base := rfold stack_on b0 rest in
      if Nat.eqb (batch_size base) (batch_size b0) &&
         Nat.eqb (success_count base) (success_count (List.last (b0 :: rest) b0))
      then Ok base else Panic
  end.

(** ** Batches as lists of exit codes *)

Fixpoint fails_from (i : nat) (cs : list ExitCode) : list FailCode :=
  match cs with
  | [] => []
  | c :: cs' => if is_success c then fails_from (S i) cs' else mkFail i c :: fails_from (S i) cs'
  end.

Definition count_ok (cs : list ExitCode) : nat := length (filter (fun c => is_success c) cs).

(** The batch that encodes the codes [cs]. *)
Definition encode (cs : list ExitCode) : BatchReturn := mkBatch (count_ok cs) (fails_from 0 cs).

(** Replaces the successes of a batch by the codes of the next one. *)
Fixpoint overlay (base nxt : list ExitCode) : list ExitCode :=
  match base with
  | [] => []
  | c :: base' =>
      if is_success c then
        match nxt with
        | n :: nxt' => n :: overlay base' nxt'
        | [] => c :: overlay base' []
        end
      else c :: overlay base' nxt
  end.

Lemma is_success_ok c : is_success c = true -> c = EC_OK.
Proof. by destruct c. Qed.

Lemma count_ok_cons c cs :
  count_ok (c :: cs) = ((if is_success c then 1 else 0) + count_ok cs)%nat.
Proof. unfold count_ok. rewrite filter_cons. destruct (is_success c); by case_decide. Qed.

Lemma fails_length i cs : (count_ok cs + length (fails_from i cs))%nat = length cs.
Proof.
  revert i. induction cs as [|c cs IH]; intros i; [done|].
  rewrite count_ok_cons. cbn. specialize (IH (S i)). destruct (is_success c); cbn; lia.
Qed.

Lemma size_encode cs : batch_size (encode cs) = length cs.
Proof. apply fails_length. Qed.

Lemma gen_fold cs : forall i k fs n, (k + length fs = i)%nat ->
  foldl (fun g c => gen_add c g) (mkGen k fs n) cs =
  mkGen (k + count_ok cs) (fs ++ fails_from i cs) n.
Proof.
  induction cs as [|c cs IH]; intros i k fs n Hi; cbn [foldl].
  - cbn. f_equal; [unfold count_ok; cbn; lia|by rewrite app_nil_r].
  - rewrite count_ok_cons. unfold gen_add at 2. destruct (is_success c) eqn:Hc; cbn [fails_from].
    + rewrite Hc. unfold add_success, add_successes. cbn. rewrite (IH (S i)) by lia.
      f_equal. lia.
    + rewrite Hc. unfold add_fail. cbn. rewrite (IH (S i)) by (rewrite length_app; cbn; lia).
      rewrite <- (app_assoc fs). cbn. by rewrite Hi.
Qed.

(** The generator never trips its assertion on the codes it was sized for. *)
Lemma of_encode {E} cs : @batch_of E cs = Ok (encode cs).
Proof.
  unfold batch_of. unfold new_gen. rewrite (gen_fold cs 0 0 []) by done. unfold generate. cbn.
  pose proof (fails_length 0 cs). by rewrite (proj2 (Nat.eqb_eq _ _)) by lia.
Qed.

Lemma replicate_snoc (k : nat) (cs : list ExitCode) :
  replicate k EC_OK ++ EC_OK :: cs = replicate (S k) EC_OK ++ cs.
Proof. induction k; cbn; [done|]. by rewrite IHk. Qed.

Lemma codes_fold cs : forall pre (k : nat),
  let ret := foldl push_code pre (fails_from (length pre + k) cs) in
  ret ++ replicate (length pre + k + length cs - length ret) EC_OK =
  pre ++ replicate k EC_OK ++ cs.
Proof.
  induction cs as [|c cs IH]; intros pre k; cbn [fails_from foldl length].
  - cbn. rewrite app_nil_r. f_equal. f_equal. lia.
  - destruct (is_success c) eqn:Hc.
    + apply is_success_ok in Hc as ->. specialize (IH pre (S k)). cbn in IH.
      rewrite <- Nat.add_succ_r. rewrite <- (Nat.add_succ_comm (length pre + k)).
      replace (S (length pre + k))%nat with (length pre + S k)%nat by lia.
      cbv zeta in IH. rewrite IH, replicate_snoc. done.
    + cbn [foldl]. unfold push_code at 2 4. cbn [idx code].
      replace (length pre + k - length pre)%nat with k by lia.
      specialize (IH (pre ++ replicate k EC_OK ++ [c]) 0%nat). cbv zeta in IH.
      rewrite !length_app, length_replicate in IH. cbn [length] in IH.
      replace (length pre + (k + 1) + 0)%nat with (S (length pre + k)) in IH by lia.
      replace (S (length pre + k) + length cs)%nat
        with (length pre + k + S (length cs))%nat in IH by lia.
      rewrite IH. by rewrite <- !app_assoc.
Qed.

Lemma codes_encode cs : codes (encode cs) = cs.
Proof.
  unfold codes. rewrite size_encode. exact (codes_fold cs [] 0).
Qed.

Lemma skip_fails_lt bound off i cs :
  (bound + off < i)%nat -> skip_fails bound off (fails_from i cs) = (off, fails_from i cs).
Proof.
  revert i. induction cs as [|c cs IH]; intros i Hi; [done|].
  cbn. destruct (is_success c); [apply IH; lia|]. cbn.
  by rewrite (proj2 (Nat.leb_gt _ _)).
Qed.

(** The positions in the base of the failures of the next batch. *)
Fixpoint overlay_fails (i : nat) (base nxt : list ExitCode) : list FailCode :=
  match base with
  | [] => []
  | c :: base' =>
      if is_success c then
        match nxt with
        | n :: nxt' =>
            (if is_success n then [] else [mkFail i n]) ++ overlay_fails (S i) base' nxt'
        | [] => []
        end
      else overlay_fails (S i) base' nxt
  end.

Lemma shift_fails_spec base : forall nxt i j off,
  count_ok base = length nxt -> i = (j + off)%nat ->
  shift_fails off (fails_from i base) (fails_from j nxt) = overlay_fails i base nxt.
Proof.
  induction base as [|c base IH]; intros nxt i j off Hn Hi.
  - destruct nxt; [done|]. by unfold count_ok in Hn.
  - rewrite count_ok_cons in Hn. cbn [fails_from overlay_fails].
    destruct (is_success c) eqn:Hc.
    + destruct nxt as [|n nxt]; [discriminate|]. cbn [fails_from].
      destruct (is_success n); cbn [app].
      * apply IH; [cbn in Hn; lia|lia].
      * cbn [shift_fails idx code]. rewrite skip_fails_lt by lia. subst i. f_equal.
        apply IH; [cbn in Hn; lia|lia].
    + rewrite <- (IH nxt (S i) j (S off)) by (cbn in *; lia).
      assert (forall k, (j <= k)%nat ->
        skip_fails k off (mkFail i c :: fails_from (S i) base) =
        skip_fails k (S off) (fails_from (S i) base)) as Hskip.
      { intros k Hk. cbn [skip_fails idx]. by rewrite (proj2 (Nat.leb_le _ _)) by lia. }
      clear Hn. revert j Hi Hskip. induction nxt as [|n nxt IHn]; intros j Hi Hskip; [done|].
      cbn [fails_from]. destruct (is_success n).
      * clear IHn. revert Hskip.
        assert (forall k, (j <= k)%nat -> forall nxt,
          (forall m, (j <= m)%nat ->
            skip_fails m off (mkFail i c :: fails_from (S i) base) =
            skip_fails m (S off) (fails_from (S i) base)) ->
          shift_fails off (mkFail i c :: fails_from (S i) base) (fails_from k nxt) =
          shift_fails (S off) (fails_from (S i) base) (fails_from k nxt)) as Hgen.
        { clear. intros k Hk nxt. revert k Hk.
          induction nxt as [|n nxt IHn]; intros k Hk Hs; [done|].
          cbn [fails_from]. destruct (is_success n); [apply IHn; [lia|done]|].
          cbn [shift_fails idx]. by rewrite Hs by lia. }
        intros Hskip. apply Hgen; [lia|done].
      * cbn [shift_fails idx]. by rewrite Hskip by lia.
Qed.

Lemma overlay_perm base : forall nxt i, count_ok base = length nxt ->
  fails_from i (overlay base nxt) ≡ₚ fails_from i base ++ overlay_fails i base nxt.
Proof.
  induction base as [|c base IH]; intros nxt i Hn; [done|].
  rewrite count_ok_cons in Hn. cbn [overlay overlay_fails fails_from].
  destruct (is_success c) eqn:Hc.
  - destruct nxt as [|n nxt]; [discriminate|]. cbn [fails_from].
    destruct (is_success n); cbn [app]; rewrite IH by (cbn in Hn; lia); [done|].
    apply Permutation_middle.
  - cbn [fails_from]. rewrite Hc. cbn [app]. by rewrite IH by (cbn in Hn; lia).
Qed.

Lemma fails_from_sorted cs : forall i,
  StronglySorted idx_le (fails_from i cs) /\ Forall (fun f => (i <= idx f)%nat) (fails_from i cs).
Proof.
  induction cs as [|c cs IH]; intros i; cbn; [split; constructor|].
  destruct (IH (S i)) as [Hs Hf]. destruct (is_success c).
  - split; [done|]. eapply Forall_impl; [exact Hf|]. cbn. lia.
  - split.
    + constructor; [done|]. eapply Forall_impl; [exact Hf|]. unfold idx_le. cbn. lia.
    + constructor; [done|]. eapply Forall_impl; [exact Hf|]. cbn. lia.
Qed.

Lemma fails_from_nodup cs : forall i, NoDup (idx <$> fails_from i cs).
Proof.
  induction cs as [|c cs IH]; intros i; cbn; [constructor|].
  destruct (is_success c); [done|]. cbn. constructor; [|done].
  intros Hin. apply list_elem_of_fmap in Hin as (f & Hf & Hin).
  pose proof (proj2 (fails_from_sorted cs (S i))) as Hall.
  rewrite Forall_forall in Hall. apply Hall in Hin. lia.
Qed.

(** A list sorted by pairwise distinct keys is determined by its elements. *)
Lemma sorted_perm_unique (l k : list FailCode) :
  StronglySorted idx_le l -> StronglySorted idx_le k -> NoDup (idx <$> l) -> l ≡ₚ k -> l = k.
Proof.
  revert k. induction l as [|f l IH]; intros k Hl Hk Hnd Hp.
  - by apply Permutation_nil_l in Hp.
  - destruct k as [|g k]; [by apply Permutation_sym, Permutation_nil_cons in Hp|].
    cbn in Hnd. apply NoDup_cons in Hnd as [Hf Hnd].
    apply StronglySorted_inv in Hl as [Hl Hfl]. apply StronglySorted_inv in Hk as [Hk Hgk].
    assert (f = g) as ->.
    { assert (f ∈ g :: k) as Hin by (rewrite <- Hp; left).
      assert (g ∈ f :: l) as Hin' by (rewrite Hp; left).
      apply elem_of_cons in Hin as [?|Hin]; [done|].
      apply elem_of_cons in Hin' as [?|Hin']; [done|]. exfalso.
      rewrite Forall_forall in Hfl, Hgk. specialize (Hfl g Hin'). specialize (Hgk f Hin).
      apply Hf. apply list_elem_of_fmap. exists g. split; [|done]. unfold idx_le in *. lia. }
    f_equal. apply IH; [done..|]. by apply Permutation_cons_inv in Hp.
Qed.

Lemma overlay_count base : forall nxt, count_ok base = length nxt ->
  count_ok (overlay base nxt) = count_ok nxt.
Proof.
  induction base as [|c base IH]; intros nxt Hn.
  - destruct nxt; [done|]. by unfold count_ok in Hn.
  - rewrite count_ok_cons in Hn. cbn [overlay]. destruct (is_success c) eqn:Hc.
    + destruct nxt as [|n nxt]; [discriminate|]. rewrite !count_ok_cons.
      rewrite IH; [done|]. cbn in Hn. lia.
    + rewrite count_ok_cons, Hc. rewrite IH; [done|]. cbn in Hn. lia.
Qed.

Lemma overlay_length base nxt : length (overlay base nxt) = length base.
Proof.
  revert nxt. induction base as [|c base IH]; intros nxt; [done|].
  cbn. destruct (is_success c); [destruct nxt|]; cbn; by rewrite IH.
Qed.

Lemma stack_on_encode {E} base nxt : count_ok base = length nxt ->
  @stack_on E (encode base) (encode nxt) = Ok (encode (overlay base nxt)).
Proof.
  intros Hn. unfold stack_on. rewrite size_encode. cbn [success_count encode].
  rewrite Hn, Nat.eqb_refl. unfold encode. cbn [fail_codes].
  rewrite (shift_fails_spec base nxt 0 0 0) by done. f_equal. f_equal.
  - by rewrite overlay_count.
  - apply sorted_perm_unique.
    + apply StronglySorted_merge_sort; [intros ????; unfold idx_le in *; lia|].
      intros f g. unfold idx_le. lia.
    + apply fails_from_sorted.
    + rewrite merge_sort_Permutation. rewrite <- overlay_perm by done. apply fails_from_nodup.
    + rewrite merge_sort_Permutation. by rewrite overlay_perm.
Qed.

(** Each batch runs over the successes of the one before. *)
Fixpoint stackable (base : list ExitCode) (rest : list (list ExitCode)) : Prop :=
  match rest with
  | [] => True
  | nxt :: rest' => count_ok base = length nxt /\ stackable (overlay base nxt) rest'
  end.

Lemma stack_fold {E} rest : forall base, stackable base rest ->
  @rfold E _ _ stack_on (encode base) (encode <$> rest) = Ok (encode (foldl overlay base rest)) /\
  length (foldl overlay base rest) = length base /\
  count_ok (foldl overlay base rest) = count_ok (List.last (base :: rest) base).
Proof.
  induction rest as [|nxt rest IH]; intros base Hs; [done|].
  destruct Hs as [Hn Hs]. cbn [rfold fmap list_fmap foldl]. rewrite stack_on_encode by done.
  cbn [rbind]. destruct (IH _ Hs) as (Hf & Hl & Hc). split_and!; [done|..].
  - by rewrite Hl, overlay_length.
  - rewrite Hc. destruct rest as [|r rest]; [cbn; by apply overlay_count|].
    cbn [List.last]. f_equal. clear. revert r. induction rest; intros; [done|]. apply IHrest.
Qed.

Lemma last_encode base rest : List.last (encode base :: (encode <$> rest)) (encode base) =
  encode (List.last (base :: rest) base).
Proof.
  cut (forall d, List.last (encode base :: (encode <$> rest)) (encode d) =
                 encode (List.last (base :: rest) d)); [auto|].
  revert base. induction rest as [|r rest IH]; intros base d; [done|]. apply (IH r d).
Qed.

(** [BatchReturn::stack] of batches of exit codes, each run over the
    successes of the ones before it, never trips one of its assertions, and
    decodes to the codes obtained by substituting, batch after batch, the new
    codes for the successes; the offset bookkeeping over the sorted failure
    indices computes exactly this overlay.  Encoding and decoding are inverse
    to each other. *)
Theorem stack_spec base rest :
  stackable base rest ->
  exists bs b, @rfold unit _ _ (fun acc cs => let! x := batch_of cs in Ok (acc ++ [x])) [] (base :: rest)
               = Ok bs /\
    stack bs = @Ok unit _ b /\ codes b = foldl overlay base rest /\
    batch_of (codes b) = @Ok unit _ b.
Proof.
  intros Hs. exists (encode <$> (base :: rest)), (encode (foldl overlay base rest)).
  split.
  { cut (forall acc l, @rfold unit _ _ (fun acc cs => let! x := batch_of cs in Ok (acc ++ [x])) acc l =
           Ok (acc ++ (encode <$> l))); [intros Hc; apply Hc|].
    intros acc l. revert acc. induction l as [|x l IH]; intros acc; cbn.
    - by rewrite app_nil_r.
    - rewrite of_encode. cbn. rewrite IH, <- app_assoc. done. }
  destruct (@stack_fold unit rest base Hs) as (Hf & Hl & Hc).
  split_and!; [|apply codes_encode|by rewrite codes_encode, of_encode].
  unfold stack. cbn [fmap list_fmap]. rewrite Hf. cbn [rbind].
  rewrite last_encode, !size_encode, Hl, Nat.eqb_refl. cbn [success_count encode].
  by rewrite Hc, Nat.eqb_refl.
Qed.

(** The example of the source's comment. *)
Lemma stack_spec_witness :
  let E1 := USR_OTHER 1 in let E2 := USR_OTHER 2 in
  let E3 := USR_OTHER 3 in let E4 := USR_OTHER 4 in
  let base := [EC_OK; E1; EC_OK; E2] in let rest := [[EC_OK; E3]; [E4]] in
  stackable base rest /\ foldl overlay base rest = [E4; E1; E3; E2] /\
  exists bs b, @rfold unit _ _ (fun acc cs => let! x := batch_of cs in Ok (acc ++ [x])) [] (base :: rest)
               = Ok bs /\
    stack bs = @Ok unit _ b /\ codes b = foldl overlay base rest /\
    batch_of (codes b) = @Ok unit _ b.
Proof.
  cbv zeta. split; [repeat split|]. split; [reflexivity|].
  apply stack_spec. repeat split.
Defined.
