(* ===== verification/MarketState.v ===== *)
(** * Storage market: deals, balances and the actor's state

    Models src/actors/market/src/deal.rs, policy.rs, balance_table.rs and
    state.rs.  The HAMTs and AMTs of the state are finite maps, loading and
    flushing them is the identity; [SetMultimap] is a map to finite sets.
    Methods of [State] run in the monad [St], which keeps the changes a method
    made before it returned an error: [settle_deal_payments] handles such
    errors and goes on. *)

From stdpp Require Import sorting.
From S2P Require Import Prelude Runtime.

Notation bytes := (list Z) (only parsing).
Notation error := (ActorError bytes).

Definition EPOCH_UNDEFINED : Z := -1.
Definition NO_ALLOCATION_ID : Z := 0.
(** [FIRST_ACTOR_SPECIFIC_EXIT_CODE] and its successor. *)
Definition EX_DEAL_EXPIRED : ExitCode := USR_OTHER 32.
Definition EX_DEAL_NOT_ACTIVATED : ExitCode := USR_OTHER 33.

(** ** Policy *)

(** The fields of [Policy] the market reads, with their default values. *)
Record Policy : Type := mkPolicy {
  deal_updates_interval : Z;
  prov_collateral_percent_supply_num : Z;
  prov_collateral_percent_supply_denom : Z;
  market_default_allocation_term_buffer : Z;
  maximum_verified_allocation_term : Z;
  maximum_verified_allocation_expiration : Z;
}.

Definition DEAL_UPDATES_INTERVAL : Z := 30 * EPOCHS_IN_DAY.
Definition MARKET_DEFAULT_ALLOCATION_TERM_BUFFER : Z := 90 * EPOCHS_IN_DAY.
Definition MAXIMUM_VERIFIED_ALLOCATION_TERM : Z := 5 * EPOCHS_IN_YEAR.
Definition MAXIMUM_VERIFIED_ALLOCATION_EXPIRATION : Z := 60 * EPOCHS_IN_DAY.

Definition default_policy : Policy :=
  mkPolicy DEAL_UPDATES_INTERVAL 1 100 MARKET_DEFAULT_ALLOCATION_TERM_BUFFER
    MAXIMUM_VERIFIED_ALLOCATION_TERM MAXIMUM_VERIFIED_ALLOCATION_EXPIRATION.

(** ** Deals *)

Inductive Label : Type :=
| LString (utf8 : bytes)
| LBytes (b : bytes).

#[global] Instance Label_eq_dec : EqDecision Label.
Proof. solve_decision. Defined.

Definition label_len (l : Label) : Z :=
  match l with
  | LString s => Z.of_nat (length s)
  | LBytes b => Z.of_nat (length b)
  end.

Record DealProposal : Type := mkProposal {
  piece_cid : Cid;
  piece_size : Z;
  verified_deal : bool;
  client : Address;
  provider : Address;
  label : Label;
  start_epoch : Z;
  end_epoch : Z;
  storage_price_per_epoch : Z;
  provider_collateral : Z;
  client_collateral : Z;
}.

#[global] Instance DealProposal_eq_dec : EqDecision DealProposal.
Proof. solve_decision. Defined.

(** [as u64] on an [i64]: reinterpretation modulo 2^64. *)
Definition as_u64 (x : Z) : Z := x mod 2 ^ 64.
(** [as i64] on a [u64]. *)
Definition as_i64 (x : Z) : Z := if x <=? I64_MAX then x else x - 2 ^ 64.

Definition duration (d : DealProposal) : Res error Z :=
  chk_i64 (end_epoch d - start_epoch d).

Definition total_storage_fee (d : DealProposal) : Res error Z :=
  let! n := duration d in
  Ok (storage_price_per_epoch d * as_u64 n).

Definition client_balance_requirement (d : DealProposal) : Res error Z :=
  let! fee := total_storage_fee d in
  Ok (client_collateral d + fee).

Definition provider_balance_requirement (d : DealProposal) : Z := provider_collateral d.

Record ClientDealProposal : Type := mkClientProposal {
  proposal : DealProposal;
  client_signature : bytes;
}.

Record DealState : Type := mkDealState {
  sector_number : Z;
  sector_start_epoch : Z;
  last_updated_epoch : Z;
  slash_epoch : Z;
}.

#[global] Instance DealState_eq_dec : EqDecision DealState.
Proof. solve_decision. Defined.

(** ** Deal policy *)

Definition DEAL_MAX_LABEL_SIZE : Z := 256.
(** [TokenAmount::from_whole]: 10^18 atto per whole token. *)
Definition from_whole (n : Z) : Z := n * 10 ^ 18.
Definition TOTAL_FILECOIN : Z := from_whole 2000000000.

Definition deal_duration_bounds : Z * Z := (180 * EPOCHS_IN_DAY, 1278 * EPOCHS_IN_DAY).
Definition deal_price_per_epoch_bounds : Z * Z := (0, TOTAL_FILECOIN).

(** [BigInt::div_floor] panics on a zero divisor. *)
Definition deal_provider_collateral_bounds (policy : Policy)
    (size network_raw_power baseline_power network_circulating_supply : Z) : Res error (Z * Z) :=
  let lock_target_num := network_circulating_supply * prov_collateral_percent_supply_num policy in
  let power_share_num := size in
  let power_share_denom := Z.max (Z.max network_raw_power baseline_power) power_share_num in
  let num := power_share_num * lock_target_num in
  let denom := power_share_denom * prov_collateral_percent_supply_denom policy in
  if denom =? 0 then Panic else Ok (num / denom, TOTAL_FILECOIN).

Definition deal_client_collateral_bounds : Z * Z := (0, TOTAL_FILECOIN).

Definition collateral_penalty_for_deal_activation_missed (provider_collateral : Z) : Z :=
  provider_collateral.

(** ** Balance tables *)

Notation BalanceTable := (gmap Address Z).

Definition bt_get (t : BalanceTable) (key : Address) : Z := default 0 (t !! key).

Definition bt_add (t : BalanceTable) (key : Address) (value : Z) : Res error BalanceTable :=
  let prev := bt_get t key in
  let sum := prev + value in
  if sum <? 0 then Err (err USR_ILLEGAL_ARGUMENT)
  else if (sum =? 0) && negb (prev =? 0) then Ok (delete key t)
  else Ok (<[key := sum]> t).

Definition bt_subtract_with_minimum (t : BalanceTable) (key : Address) (req floor : Z)
  : Res error (Z * BalanceTable) :=
  let prev := bt_get t key in
  let available := Z.max 0 (prev - floor) in
  let sub := Z.min available req in
  if sub >? 0 then let! t' := bt_add t key (- sub) in Ok (sub, t')
  else Ok (sub, t).

Definition bt_must_subtract (t : BalanceTable) (key : Address) (req : Z)
  : Res error BalanceTable :=
  let prev := bt_get t key in
  if req >? prev then Err (err USR_ILLEGAL_ARGUMENT)
  else bt_add t key (- req).

Definition bt_total (t : BalanceTable) : Z := map_sum id t.

(** ** State *)

Inductive Reason : Type := ClientCollateral | ClientStorageFee | ProviderCollateral.

Record State : Type := mkState {
  proposals : gmap Z DealProposal;
  states : gmap Z DealState;
  pending_proposals : gset Cid;
  escrow_table : BalanceTable;
  locked_table : BalanceTable;
  next_id : Z;
  deal_ops_by_epoch : gmap Z (gset Z);
  last_cron : Z;
  total_client_locked_collateral : Z;
  total_provider_locked_collateral : Z;
  total_client_storage_fee : Z;
  pending_deal_allocation_ids : gmap Z Z;
  provider_sectors : gmap Z (gmap Z (list Z));
}.

Definition new_state : State :=
  mkState ∅ ∅ ∅ ∅ ∅ 0 ∅ EPOCH_UNDEFINED 0 0 0 ∅ ∅.

Definition set_proposals (x : gmap Z DealProposal) (s : State) : State :=
  mkState x (states s) (pending_proposals s) (escrow_table s) (locked_table s)
    (next_id s) (deal_ops_by_epoch s) (last_cron s) (total_client_locked_collateral s)
    (total_provider_locked_collateral s) (total_client_storage_fee s)
    (pending_deal_allocation_ids s) (provider_sectors s).
Definition set_states (x : gmap Z DealState) (s : State) : State :=
  mkState (proposals s) x (pending_proposals s) (escrow_table s) (locked_table s)
    (next_id s) (deal_ops_by_epoch s) (last_cron s) (total_client_locked_collateral s)
    (total_provider_locked_collateral s) (total_client_storage_fee s)
    (pending_deal_allocation_ids s) (provider_sectors s).
Definition set_pending_proposals (x : gset Cid) (s : State) : State :=
  mkState (proposals s) (states s) x (escrow_table s) (locked_table s) (next_id s)
    (deal_ops_by_epoch s) (last_cron s) (total_client_locked_collateral s)
    (total_provider_locked_collateral s) (total_client_storage_fee s)
    (pending_deal_allocation_ids s) (provider_sectors s).
Definition set_escrow_table (x : BalanceTable) (s : State) : State :=
  mkState (proposals s) (states s) (pending_proposals s) x (locked_table s) (next_id s)
    (deal_ops_by_epoch s) (last_cron s) (total_client_locked_collateral s)
    (total_provider_locked_collateral s) (total_client_storage_fee s)
    (pending_deal_allocation_ids s) (provider_sectors s).
Definition set_locked_table (x : BalanceTable) (s : State) : State :=
  mkState (proposals s) (states s) (pending_proposals s) (escrow_table s) x (next_id s)
    (deal_ops_by_epoch s) (last_cron s) (total_client_locked_collateral s)
    (total_provider_locked_collateral s) (total_client_storage_fee s)
    (pending_deal_allocation_ids s) (provider_sectors s).
Definition set_next_id (x : Z) (s : State) : State :=
  mkState (proposals s) (states s) (pending_proposals s) (escrow_table s)
    (locked_table s) x (deal_ops_by_epoch s) (last_cron s)
    (total_client_locked_collateral s) (total_provider_locked_collateral s)
    (total_client_storage_fee s) (pending_deal_allocation_ids s) (provider_sectors s).
Definition set_deal_ops_by_epoch (x : gmap Z (gset Z)) (s : State) : State :=
  mkState (proposals s) (states s) (pending_proposals s) (escrow_table s)
    (locked_table s) (next_id s) x (last_cron s) (total_client_locked_collateral s)
    (total_provider_locked_collateral s) (total_client_storage_fee s)
    (pending_deal_allocation_ids s) (provider_sectors s).
Definition set_last_cron (x : Z) (s : State) : State :=
  mkState (proposals s) (states s) (pending_proposals s) (escrow_table s)
    (locked_table s) (next_id s) (deal_ops_by_epoch s) x
    (total_client_locked_collateral s) (total_provider_locked_collateral s)
    (total_client_storage_fee s) (pending_deal_allocation_ids s) (provider_sectors s).
Definition set_total_client_locked_collateral (x : Z) (s : State) : State :=
  mkState (proposals s) (states s) (pending_proposals s) (escrow_table s)
    (locked_table s) (next_id s) (deal_ops_by_epoch s) (last_cron s) x
    (total_provider_locked_collateral s) (total_client_storage_fee s)
    (pending_deal_allocation_ids s) (provider_sectors s).
Definition set_total_provider_locked_collateral (x : Z) (s : State) : State :=
  mkState (proposals s) (states s) (pending_proposals s) (escrow_table s)
    (locked_table s) (next_id s) (deal_ops_by_epoch s) (last_cron s)
    (total_client_locked_collateral s) x (total_client_storage_fee s)
    (pending_deal_allocation_ids s) (provider_sectors s).
Definition set_total_client_storage_fee (x : Z) (s : State) : State :=
  mkState (proposals s) (states s) (pending_proposals s) (escrow_table s)
    (locked_table s) (next_id s) (deal_ops_by_epoch s) (last_cron s)
    (total_client_locked_collateral s) (total_provider_locked_collateral s) x
    (pending_deal_allocation_ids s) (provider_sectors s).
Definition set_pending_deal_allocation_ids (x : gmap Z Z) (s : State) : State :=
  mkState (proposals s) (states s) (pending_proposals s) (escrow_table s)
    (locked_table s) (next_id s) (deal_ops_by_epoch s) (last_cron s)
    (total_client_locked_collateral s) (total_provider_locked_collateral s)
    (total_client_storage_fee s) x (provider_sectors s).
Definition set_provider_sectors (x : gmap Z (gmap Z (list Z))) (s : State) : State :=
  mkState (proposals s) (states s) (pending_proposals s) (escrow_table s)
    (locked_table s) (next_id s) (deal_ops_by_epoch s) (last_cron s)
    (total_client_locked_collateral s) (total_provider_locked_collateral s)
    (total_client_storage_fee s) (pending_deal_allocation_ids s) x.

Notation SM := (St State error).

Definition get_total_locked (st : State) : Z :=
  total_client_locked_collateral st + total_provider_locked_collateral st +
  total_client_storage_fee st.

(** [BTreeMap] iteration is in the order of the keys. *)
Definition key_le {V} (p q : Z * V) : Prop := p.1 <= q.1.
#[global] Instance key_le_dec {V} : RelDecision (@key_le V).
Proof. intros p q. unfold key_le. apply _. Defined.
Definition btree_iter {V} (m : gmap Z V) : list (Z * V) := merge_sort key_le (map_to_list m).

(** *** Deal states and proposals *)

Definition find_deal_state (deal_id : Z) (st : State) : option DealState := states st !! deal_id.

Definition put_deal_states (new_deal_states : list (Z * DealState)) : SM unit :=
  smodify (fun st =>
    set_states (foldl (fun m '(id, s) => <[id := s]> m) (states st) new_deal_states) st).

Definition remove_deal_state (deal_id : Z) : SM (option DealState) :=
  let& st := sget in
  let& _ := sput (set_states (delete deal_id (states st)) st) in
  sret (states st !! deal_id).

Definition find_proposal (deal_id : Z) (st : State) : option DealProposal :=
  proposals st !! deal_id.

Definition get_proposal (proposals : gmap Z DealProposal) (id next_id : Z)
  : Res error DealProposal :=
  match proposals !! id with
  | Some p => Ok p
  | None => if id <? next_id then Err (err EX_DEAL_EXPIRED) else Err (err USR_NOT_FOUND)
  end.

Definition st_get_proposal (st : State) (id : Z) : Res error DealProposal :=
  get_proposal (proposals st) id (next_id st).

Definition remove_proposal (deal_id : Z) : SM (option DealProposal) :=
  let& st := sget in
  let& _ := sput (set_proposals (delete deal_id (proposals st)) st) in
  sret (proposals st !! deal_id).

Definition put_deal_proposals (new_deal_proposals : list (Z * DealProposal)) : SM unit :=
  smodify (fun st =>
    set_proposals (foldl (fun m '(id, p) => <[id := p]> m) (proposals st) new_deal_proposals) st).

(** *** Pending allocations *)

Definition put_pending_deal_allocation_ids (new_ids : list (Z * Z)) : SM unit :=
  smodify (fun st =>
    set_pending_deal_allocation_ids
      (foldl (fun m '(id, a) => <[id := a]> m) (pending_deal_allocation_ids st) new_ids) st).

Definition get_pending_deal_allocation_ids (deal_id_keys : list Z) (st : State)
  : Res error (list Z) :=
  rfold (fun allocation_ids deal_id =>
    let! allocation_id := ok_or (pending_deal_allocation_ids st !! deal_id)
                            (err USR_NOT_FOUND) in
    Ok (allocation_ids ++ [allocation_id])) [] deal_id_keys.

Definition remove_pending_deal_allocation_id (deal_id : Z) : SM (option Z) :=
  let& st := sget in
  let& _ := sput (set_pending_deal_allocation_ids
                    (delete deal_id (pending_deal_allocation_ids st)) st) in
  sret (pending_deal_allocation_ids st !! deal_id).

(** *** Deals by epoch *)

(** [SetMultimap::put_many]. *)
Definition put_many (ops : gmap Z (gset Z)) (epoch : Z) (deals : list Z) : gmap Z (gset Z) :=
  <[epoch := foldl (fun s v => {[v]} ∪ s) (default ∅ (ops !! epoch)) deals]> ops.

Definition put_deals_by_epoch (new_deals_by_epoch : list (Z * Z)) : SM unit :=
  smodify (fun st =>
    set_deal_ops_by_epoch
      (foldl (fun ops '(epoch, id) => put_many ops epoch [id]) (deal_ops_by_epoch st)
         new_deals_by_epoch) st).

Definition put_batch_deals_by_epoch (new_deals_by_epoch : gmap Z (list Z)) : SM unit :=
  smodify (fun st =>
    set_deal_ops_by_epoch
      (foldl (fun ops '(epoch, deals) => put_many ops epoch deals) (deal_ops_by_epoch st)
         (btree_iter new_deals_by_epoch)) st).

Definition remove_deals_by_epoch (epochs_to_remove : list Z) : SM unit :=
  smodify (fun st =>
    set_deal_ops_by_epoch
      (foldl (fun ops epoch => delete epoch ops) (deal_ops_by_epoch st) epochs_to_remove) st).

(** *** Escrow *)

Definition add_balance_to_escrow_table (addr : Address) (amount : Z) : SM unit :=
  let& st := sget in
  let& escrow := slift (bt_add (escrow_table st) addr amount) in
  smodify (set_escrow_table escrow).

Definition withdraw_balance_from_escrow_table (addr : Address) (amount : Z) : SM Z :=
  let& st := sget in
  let min_balance := bt_get (locked_table st) addr in
  let& (ex, escrow) := slift (bt_subtract_with_minimum (escrow_table st) addr amount min_balance) in
  let& _ := smodify (set_escrow_table escrow) in
  sret ex.

(** *** Pending proposals *)

Definition has_pending_deal (key : Cid) (st : State) : bool :=
  bool_decide (key ∈ pending_proposals st).

Definition put_pending_deals (new_pending_deals : list Cid) : SM unit :=
  smodify (fun st =>
    set_pending_proposals (foldl (fun s c => {[c]} ∪ s) (pending_proposals st)
                             new_pending_deals) st).

Definition remove_pending_deal (key : Cid) : SM (option unit) :=
  let& st := sget in
  let& _ := sput (set_pending_proposals (pending_proposals st ∖ {[key]}) st) in
  sret (if has_pending_deal key st then Some tt else None).

(** *** Deals by provider and sector *)

(** [Vec::dedup]: removes consecutive repetitions. *)
Fixpoint dedup (l : list Z) : list Z :=
  match l with
  | x :: l' =>
      match l' with
      | y :: _ => if x =? y then dedup l' else x :: dedup l'
      | [] => [x]
      end
  | [] => []
  end.

Definition load_provider_sector_deals (ps : gmap Z (gmap Z (list Z))) (provider : Z)
  : gmap Z (list Z) := default ∅ (ps !! provider).

Definition save_provider_sector_deals (ps : gmap Z (gmap Z (list Z))) (provider : Z)
    (sector_deals : gmap Z (list Z)) : gmap Z (gmap Z (list Z)) :=
  if bool_decide (sector_deals = ∅) then delete provider ps
  else <[provider := sector_deals]> ps.

Definition put_sector_deals (sector_deals : gmap Z (list Z)) (e : Z * list Z)
  : gmap Z (list Z) :=
  let '(sector_number, deals) := e in
  let new_deals := deals ++ default [] (sector_deals !! sector_number) in
  <[sector_number := dedup (merge_sort Z.le new_deals)]> sector_deals.

Definition put_sector_deal_ids (provider : Z) (sector_deal_ids : list (Z * list Z)) : SM unit :=
  smodify (fun st =>
    let sector_deals := load_provider_sector_deals (provider_sectors st) provider in
    let sector_deals := foldl put_sector_deals sector_deals sector_deal_ids in
    set_provider_sectors
      (save_provider_sector_deals (provider_sectors st) provider sector_deals) st).

Definition pop_sector (acc : gmap Z (list Z) * list Z * bool) (sector_number : Z)
  : gmap Z (list Z) * list Z * bool :=
  let '(sector_deals, popped, flush) := acc in
  match sector_deals !! sector_number with
  | Some deals => (delete sector_number sector_deals, popped ++ deals, true)
  | None => (sector_deals, popped, flush)
  end.

Definition pop_sector_deal_ids (provider : Z) (sector_numbers : list Z) : SM (list Z) :=
  let& st := sget in
  let sector_deals := load_provider_sector_deals (provider_sectors st) provider in
  let '(sector_deals, popped, flush) := foldl pop_sector (sector_deals, [], false)
                                          sector_numbers in
  let& _ :=
    if flush then
      smodify (set_provider_sectors
                 (save_provider_sector_deals (provider_sectors st) provider sector_deals))
    else sret tt in
  sret popped.

Definition remove_sector_deals (acc : gmap Z (list Z) * bool) (e : Z * list Z)
  : gmap Z (list Z) * bool :=
  let '(sector_deals, flush) := acc in
  let '(sector_number, deals_to_remove) := e in
  match sector_deals !! sector_number with
  | Some existing_deal_ids =>
      let new_deals := filter (fun id => id ∉ deals_to_remove) existing_deal_ids in
      (match new_deals with
       | [] => delete sector_number sector_deals
       | _ => <[sector_number := new_deals]> sector_deals
       end, true)
  | None => (sector_deals, flush)
  end.

Definition remove_provider_sector_deals (ps : gmap Z (gmap Z (list Z)))
    (e : Z * gmap Z (list Z)) : gmap Z (gmap Z (list Z)) :=
  let '(provider, sector_deal_ids) := e in
  let sector_deals := load_provider_sector_deals ps provider in
  let '(sector_deals, flush) := foldl remove_sector_deals (sector_deals, false)
                                  (btree_iter sector_deal_ids) in
  if flush then save_provider_sector_deals ps provider sector_deals else ps.

Definition remove_sector_deal_ids (to_remove : gmap Z (gmap Z (list Z))) : SM unit :=
  smodify (fun st =>
    set_provider_sectors
      (foldl remove_provider_sector_deals (provider_sectors st) (btree_iter to_remove)) st).

(** *** Completing and timing out deals *)

Definition remove_completed_deal (deal_id : Z) : SM unit :=
  let& state := remove_deal_state deal_id in
  if bool_decide (state = None) then sfail (err USR_ILLEGAL_STATE)
  else
    let& proposal := remove_proposal deal_id in
    if bool_decide (proposal = None) then sfail (err USR_ILLEGAL_STATE)
    else sret tt.

Definition deal_get_payment_remaining (deal : DealProposal) (slash_epoch : Z) : Res error Z :=
  if slash_epoch >? end_epoch deal then Err (err USR_ILLEGAL_STATE)
  else
    let slash_epoch := Z.max slash_epoch (start_epoch deal) in
    let! duration_remaining := chk_i64 (end_epoch deal - slash_epoch) in
    if duration_remaining <? 0 then Err (err USR_ILLEGAL_STATE)
    else Ok (storage_price_per_epoch deal * as_u64 duration_remaining).

(** *** Locking and unlocking *)

Definition generate_storage_deal_id : SM Z :=
  let& st := sget in
  let& n := slift (chk_u64 (next_id st + 1)) in
  let& _ := smodify (set_next_id n) in
  sret (next_id st).

Definition balance_covered (addr : Address) (amount_to_lock : Z) (st : State) : bool :=
  let escrow_balance := bt_get (escrow_table st) addr in
  let prev_locked := bt_get (locked_table st) addr in
  prev_locked + amount_to_lock <=? escrow_balance.

Definition maybe_lock_balance (addr : Address) (amount : Z) : SM unit :=
  if amount <? 0 then sfail (err USR_ILLEGAL_STATE)
  else
    let& st := sget in
    let prev_locked := bt_get (locked_table st) addr in
    let escrow_balance := bt_get (escrow_table st) addr in
    if prev_locked + amount >? escrow_balance then sfail (err USR_INSUFFICIENT_FUNDS)
    else
      let& locked := slift (bt_add (locked_table st) addr amount) in
      smodify (set_locked_table locked).

Definition lock_client_and_provider_balances (proposal : DealProposal) : SM unit :=
  let& requirement := slift (client_balance_requirement proposal) in
  let& _ := maybe_lock_balance (client proposal) requirement in
  let& _ := maybe_lock_balance (provider proposal) (provider_collateral proposal) in
  let& st := sget in
  let& _ := smodify (set_total_client_locked_collateral
              (total_client_locked_collateral st + client_collateral proposal)) in
  let& fee := slift (total_storage_fee proposal) in
  let& _ := smodify (set_total_client_storage_fee (total_client_storage_fee st + fee)) in
  smodify (set_total_provider_locked_collateral
    (total_provider_locked_collateral st + provider_collateral proposal)).

Definition unlock_balance (addr : Address) (amount : Z) (lock_reason : Reason) : SM unit :=
  if amount <? 0 then sfail (err USR_ILLEGAL_STATE)
  else
    let& st := sget in
    let& locked := slift (bt_must_subtract (locked_table st) addr amount) in
    let& _ :=
      smodify (match lock_reason with
      | ClientCollateral =>
          set_total_client_locked_collateral (total_client_locked_collateral st - amount)
      | ClientStorageFee =>
          set_total_client_storage_fee (total_client_storage_fee st - amount)
      | ProviderCollateral =>
          set_total_provider_locked_collateral (total_provider_locked_collateral st - amount)
      end) in
    smodify (set_locked_table locked).

(** Moves funds from locked in the client to available in the provider. *)
Definition transfer_balance (from_addr to_addr : Address) (amount : Z) : SM unit :=
  if amount <? 0 then sfail (err USR_ILLEGAL_STATE)
  else
    let& st := sget in
    let& escrow := slift (bt_must_subtract (escrow_table st) from_addr amount) in
    let& _ := unlock_balance from_addr amount ClientStorageFee in
    let& escrow := slift (bt_add escrow to_addr amount) in
    smodify (set_escrow_table escrow).

Definition slash_balance (addr : Address) (amount : Z) (lock_reason : Reason) : SM unit :=
  if amount <? 0 then sfail (err USR_ILLEGAL_STATE)
  else
    let& st := sget in
    let& escrow := slift (bt_must_subtract (escrow_table st) addr amount) in
    let& _ := smodify (set_escrow_table escrow) in
    unlock_balance addr amount lock_reason.

(** *** Deal state transitions *)

(** The deal's start passed without the deal appearing in a proven sector. *)
Definition process_deal_init_timed_out (deal : DealProposal) : SM Z :=
  let& fee := slift (total_storage_fee deal) in
  let& _ := unlock_balance (client deal) fee ClientStorageFee in
  let& _ := unlock_balance (client deal) (client_collateral deal) ClientCollateral in
  let amount_slashed :=
    collateral_penalty_for_deal_activation_missed (provider_collateral deal) in
  let amount_remaining := provider_balance_requirement deal - amount_slashed in
  let& _ := slash_balance (provider deal) amount_slashed ProviderCollateral in
  let& _ := unlock_balance (provider deal) amount_remaining ProviderCollateral in
  sret amount_slashed.

Inductive LoadDealState : Type :=
| TooEarly
| ProposalExpired (slashed_amount : Z)
| Loaded (s : DealState).

Definition get_active_deal_or_process_timeout (curr_epoch deal_id : Z)
    (deal_proposal : DealProposal) (dcid : Cid) : SM LoadDealState :=
  let& st := sget in
  match find_deal_state deal_id st with
  | Some deal_state => sret (Loaded deal_state)
  | None =>
      if curr_epoch <? start_epoch deal_proposal then sret TooEarly
      else
        let& slashed := process_deal_init_timed_out deal_proposal in
        let& deleted := remove_proposal deal_id in
        if bool_decide (deleted = None) then sfail (err USR_ILLEGAL_STATE)
        else
          let& removed := remove_pending_deal dcid in
          let& _ := slift (ok_or removed (err USR_ILLEGAL_STATE)) in
          let& _ := remove_pending_deal_allocation_id deal_id in
          sret (ProposalExpired slashed)
  end.

(** Normal expiration. *)
Definition process_deal_expired (deal : DealProposal) (state : DealState) : SM unit :=
  if sector_start_epoch state =? EPOCH_UNDEFINED then sfail (err USR_ILLEGAL_STATE)
  else
    let& _ := unlock_balance (provider deal) (provider_collateral deal) ProviderCollateral in
    unlock_balance (client deal) (client_collateral deal) ClientCollateral.

(** Slashed amount, payment, whether the deal is completed, whether to remove
    it. *)
Definition process_deal_update (state : DealState) (deal : DealProposal) (deal_cid : Cid)
    (epoch : Z) : SM (Z * Z * bool * bool) :=
  let ever_updated := negb (last_updated_epoch state =? EPOCH_UNDEFINED) in
  let ever_slashed := negb (slash_epoch state =? EPOCH_UNDEFINED) in
  let& _ := if negb ever_updated
            then let& _ := remove_pending_deal deal_cid in sret tt
            else sret tt in
  if ever_updated && (last_updated_epoch state >? epoch) then sfail (err USR_ILLEGAL_STATE)
  else if start_epoch deal >? epoch then sret (0, 0, false, false)
  else
    let& payment_end_epoch :=
      if ever_slashed then
        if epoch <? slash_epoch state then sfail (err USR_ILLEGAL_STATE)
        else if slash_epoch state >? end_epoch deal then sfail (err USR_ILLEGAL_STATE)
        else sret (slash_epoch state)
      else sret (Z.min (end_epoch deal) epoch) in
    let payment_start_epoch :=
      if ever_updated && (last_updated_epoch state >? start_epoch deal)
      then last_updated_epoch state else start_epoch deal in
    let& num_epochs_elapsed := slift (chk_i64 (payment_end_epoch - payment_start_epoch)) in
    let elapsed_payment := storage_price_per_epoch deal * num_epochs_elapsed in
    let& _ := if elapsed_payment >? 0
              then transfer_balance (client deal) (provider deal) elapsed_payment
              else sret tt in
    if ever_slashed then
      let& payment_remaining := slift (deal_get_payment_remaining deal (slash_epoch state)) in
      let& _ := unlock_balance (client deal) payment_remaining ClientStorageFee in
      let& _ := unlock_balance (client deal) (client_collateral deal) ClientCollateral in
      let slashed := provider_collateral deal in
      let& _ := slash_balance (provider deal) slashed ProviderCollateral in
      sret (slashed, payment_remaining + elapsed_payment, false, true)
    else if epoch >=? end_epoch deal then
      let& _ := process_deal_expired deal state in
      sret (0, elapsed_payment, true, true)
    else sret (0, elapsed_payment, false, false).

Definition process_slashed_deal (proposal : DealProposal) (state : DealState) : SM Z :=
  let payment_start_epoch := Z.max (start_epoch proposal) (last_updated_epoch state) in
  let payment_end_epoch := Z.min (end_epoch proposal) (slash_epoch state) in
  let& elapsed := slift (chk_i64 (payment_end_epoch - payment_start_epoch)) in
  let num_epochs_elapsed := Z.max 0 elapsed in
  let total_payment := storage_price_per_epoch proposal * num_epochs_elapsed in
  let& _ := if total_payment >? 0
            then transfer_balance (client proposal) (provider proposal) total_payment
            else sret tt in
  let& payment_remaining := slift (deal_get_payment_remaining proposal (slash_epoch state)) in
  let& _ := unlock_balance (client proposal) payment_remaining ClientStorageFee in
  let& _ := unlock_balance (client proposal) (client_collateral proposal) ClientCollateral in
  let slashed := provider_collateral proposal in
  let& _ := slash_balance (provider proposal) slashed ProviderCollateral in
  sret slashed.
