(* ===== verification/Market.v ===== *)
(** * Storage market: methods

    Models src/actors/market/src/lib.rs: every method of the actor, the
    helpers they share and the dispatch.  What the code takes from outside
    the repository (CBOR codecs, FRC-42 method numbers, multicodec constants,
    the sector sizes of proof types, the unsealed-CID syscall, the iteration
    order of a HAMT) is a field of [Ext]. *)

From stdpp Require Import sorting.
From S2P Require Import Prelude Runtime Batch MarketState.

Record AllocationRequest : Type := mkAllocReq {
  ar_provider : Z;
  ar_data : Cid;
  ar_size : Z;
  ar_term_min : Z;
  ar_term_max : Z;
  ar_expiration : Z;
}.

Record TransferFromParams : Type := mkTransferFrom {
  tf_from : Address;
  tf_to : Address;
  tf_amount : Z;
  tf_operator_data : list AllocationRequest;
}.

(** Parameters of the messages the market sends. *)
Inductive Params : Type :=
| PNone
| PAuthenticate (signature message : bytes)
| PIsControlling (address : Address)
| PBalanceOf (owner : Address)
| PTransferFrom (p : TransferFromParams)
| PNotifyDeal (proposal : bytes) (deal_id : Z).

Record Ext : Type := mkExt {
  FIL_COMMITMENT_UNSEALED : Z;
  SHA2_256_TRUNC254_PADDED : Z;
  DAG_CBOR : Z;
  BLAKE2B_256 : Z;
  (** [frc42_dispatch::method_hash!] *)
  method_hash : string -> Z;
  (** [PaddedPieceSize::validate] *)
  piece_size_valid : Z -> bool;
  (** [RegisteredSealProof::sector_size] *)
  sector_size : Z -> option Z;
  compute_unsealed_sector_cid : Z -> list (Cid * Z) -> option Cid;
  serialize_proposal : DealProposal -> option bytes;
  decode_bool : bytes -> option bool;
  decode_control_addresses : bytes -> option (Address * Address * list Address);
  decode_baseline_power : bytes -> option Z;
  decode_network_power : bytes -> option (Z * Z);
  decode_balance : bytes -> option Z;
  (** [TransferFromReturn::recipient_data] *)
  decode_transfer_from : bytes -> option bytes;
  (** [AllocationsResponse::new_allocations] *)
  decode_allocations : bytes -> option (list Z);
  decode_deal_id : bytes -> option Z;
  (** The order in which a HAMT visits the keys of a set. *)
  hamt_order : gset Z -> list Z;
}.

(** ** Parameters and returns *)

Record SectorDeals : Type := mkSectorDeals {
  sd_sector_number : Z;
  sd_sector_type : Z;
  sd_sector_expiry : Z;
  sd_deal_ids : list Z;
}.

Record ActivatedDeal : Type := mkActivatedDeal {
  ad_client : Z;
  ad_allocation_id : Z;
  ad_data : Cid;
  ad_size : Z;
}.

Record SectorDealActivation : Type := mkActivation {
  activated : list ActivatedDeal;
  unsealed_cid : option Cid;
}.

Record PieceChange : Type := mkPieceChange {
  pc_data : Cid;
  pc_size : Z;
  pc_payload : bytes;
}.

Record SectorChanges : Type := mkSectorChanges {
  sc_sector : Z;
  sc_minimum_commitment_epoch : Z;
  sc_added : list PieceChange;
}.

Record DealSettlementSummary : Type := mkSettlement {
  payment : Z;
  completed : bool;
}.

(** A [BitField] is the ascending list of its members. *)
Notation BitField := (list Z) (only parsing).

Inductive Msg : Type :=
| Constructor
| AddBalance (exported : bool) (provider_or_client : Address)
| WithdrawBalance (exported : bool) (provider_or_client : Address) (amount : Z)
| PublishStorageDeals (exported : bool) (deals : list ClientDealProposal)
| VerifyDealsForActivation (sectors : list SectorDeals)
| BatchActivateDeals (sectors : list SectorDeals) (compute_cid : bool)
| OnMinerSectorsTerminate (epoch : Z) (sectors : BitField)
| CronTick
| GetBalance (account : Address)
| GetDealDataCommitment (id : Z)
| GetDealClient (id : Z)
| GetDealProvider (id : Z)
| GetDealLabel (id : Z)
| GetDealTerm (id : Z)
| GetDealTotalPrice (id : Z)
| GetDealClientCollateral (id : Z)
| GetDealProviderCollateral (id : Z)
| GetDealVerified (id : Z)
| GetDealActivation (id : Z)
| GetDealSector (id : Z)
| SettleDealPayments (deal_ids : BitField)
| SectorContentChanged (sectors : list SectorChanges)
| OtherMethod (method : Z).

Inductive Ret : Type :=
| RUnit
| RWithdraw (amount_withdrawn : Z)
| RPublish (ids : list Z) (valid_deals : BitField)
| RVerify (unsealed_cids : list (option Cid))
| RActivate (activation_results : BatchReturn) (activations : list SectorDealActivation)
| RBalance (balance locked : Z)
| RDataCommitment (data : Cid) (size : Z)
| RId (id : Z)
| RLabel (l : Label)
| RTerm (start duration : Z)
| RAmount (a : Z)
| RVerified (b : bool)
| RActivation (activated terminated : Z)
| RSettle (results : BatchReturn) (settlements : list DealSettlementSummary)
| RSectors (sectors : list (list bool)).

(** ** Helpers *)

(** [%] and [/] on [i64]. *)
Definition rem_i64 (a b : Z) : Res error Z :=
  if b =? 0 then Panic else let! _ := chk_i64 (Z.quot a b) in Ok (Z.rem a b).
Definition div_i64 (a b : Z) : Res error Z :=
  if b =? 0 then Panic else chk_i64 (Z.quot a b).

(** The first update epoch for a deal that is no sooner than [earliest]. *)
Definition next_update_epoch (id interval earliest : Z) : Res error Z :=
  let! offset := rem_i64 (as_i64 id) interval in
  let! delta := chk_i64 (earliest - offset) in
  let! remainder := rem_i64 delta interval in
  let! quotient := div_i64 delta interval in
  let! quotient :=
    if (remainder =? 0) || (delta <? 0) then Ok quotient else chk_i64 (quotient + 1) in
  let! base := chk_i64 (interval * quotient) in
  chk_i64 (base + offset).

(** The parties of a deal in an event; the emitted event itself has no effect
    on state. *)
Definition emit_parties (d : DealProposal) : Res error (Z * Z) :=
  let! c := expect (addr_id (client d)) in
  let! p := expect (addr_id (provider d)) in
  Ok (c, p).

Definition get_proposals (proposal_array : gmap Z DealProposal) (deal_ids : list Z)
    (next_id : Z) : Res error (list (Z * DealProposal)) :=
  let! (props, _) :=
    rfold (fun '(props, seen) deal_id =>
      if bool_decide (deal_id ∈ (seen : gset Z)) then Err (err USR_ILLEGAL_ARGUMENT)
      else
        let! p := get_proposal proposal_array deal_id next_id in
        Ok (props ++ [(deal_id, p)], {[deal_id]} ∪ seen)) ([], ∅) deal_ids in
  Ok props.

Definition validate_deal_can_activate (proposal : DealProposal) (miner_addr : Address)
    (sector_expiration curr_epoch : Z) : Res error unit :=
  if negb (addr_eqb (provider proposal) miner_addr) then Err (err USR_FORBIDDEN)
  else if curr_epoch >? start_epoch proposal then Err (err EX_DEAL_EXPIRED)
  else if end_epoch proposal >? sector_expiration then Err (err USR_ILLEGAL_ARGUMENT)
  else Ok tt.

Definition validate_deals_for_sector (props : list (Z * DealProposal)) (miner_addr : Address)
    (sector_expiry sector_activation : Z) (sector_size : option Z) : Res error unit :=
  let! (deal_space, verified_deal_space) :=
    rfold (fun '(ds, vs) '(_, proposal) =>
      let! _ := validate_deal_can_activate proposal miner_addr sector_expiry
                  sector_activation in
      if verified_deal proposal then Ok (ds, vs + piece_size proposal)
      else Ok (ds + piece_size proposal, vs)) (0, 0) props in
  match sector_size with
  | Some sz =>
      if deal_space + verified_deal_space >? sz then Err (err USR_ILLEGAL_ARGUMENT) else Ok tt
  | None => Ok tt
  end.

Definition alloc_request_for_deal (deal : DealProposal) (policy : Policy) (curr_epoch : Z)
  : Res error AllocationRequest :=
  let! alloc_term_min := chk_i64 (end_epoch deal - start_epoch deal) in
  let! with_buffer := chk_i64 (alloc_term_min + market_default_allocation_term_buffer policy) in
  let alloc_term_max := Z.min with_buffer (maximum_verified_allocation_term policy) in
  let! latest := chk_i64 (curr_epoch + maximum_verified_allocation_expiration policy) in
  let alloc_expiration := Z.min (start_epoch deal) latest in
  let! provider := expect (addr_id (provider deal)) in
  Ok (mkAllocReq provider (piece_cid deal) (piece_size deal) alloc_term_min alloc_term_max
        alloc_expiration).

Definition datacap_transfer_request (client : Address) (alloc_reqs : list AllocationRequest)
  : Res error TransferFromParams :=
  let! datacap_required := rfold (fun sum r => chk_u64 (sum + ar_size r)) 0 alloc_reqs in
  Ok (mkTransferFrom client VERIFIED_REGISTRY_ACTOR_ADDR (from_whole datacap_required)
        alloc_reqs).

(** [provider_deals_to_remove.entry(p).or_default().entry(s).or_default().push(id)] *)
Definition push_deal (m : gmap Z (gmap Z (list Z))) (provider sector id : Z)
  : gmap Z (gmap Z (list Z)) :=
  let by_sector := default ∅ (m !! provider) in
  <[provider := <[sector := default [] (by_sector !! sector) ++ [id]]> by_sector]> m.

Section methods.
Context {Net : Type} (ext : Ext) (policy : Policy) (total_fil_circ_supply : Net -> Z).
Context (env : Env Net State Params bytes) (ctx : Ctx).

Notation M := (M Net State Params bytes).

Definition serialized_deal_cid (data : bytes) : Cid :=
  mkCid 1 (DAG_CBOR ext) (BLAKE2B_256 ext) (env_hash_blake2b env data).

Definition deal_cid (p : DealProposal) : Res error Cid :=
  let! data := ok_or (serialize_proposal ext p) (err USR_SERIALIZATION) in
  Ok (serialized_deal_cid data).

Definition is_piece_cid (c : Cid) : bool :=
  (cid_version c =? 1) && (cid_codec c =? FIL_COMMITMENT_UNSEALED ext) &&
  (cid_hash_code c =? SHA2_256_TRUNC254_PADDED ext) &&
  (Z.of_nat (length (cid_digest c)) =? 32).

Definition compute_data_commitment (props : list DealProposal) (sector_type : Z)
  : Res error Cid :=
  let pieces := (fun d => (piece_cid d, piece_size d)) <$> props in
  ok_or (compute_unsealed_sector_cid ext sector_type pieces) (err USR_ILLEGAL_ARGUMENT).

Definition request_miner_control_addrs (miner_id : Z) : M (Address * Address * list Address) :=
  let* res := send_simple env (AddrId miner_id) 2 PNone 0 in
  lift (let! r := extract_send_result res in
        deserialize_block (decode_control_addresses ext) r).

(** The canonical address of a party, the recipient of its withdrawals, and
    the addresses that may withdraw. *)
Definition escrow_address (addr : Address) : M (Address * Address * list Address) :=
  let* resolved := resolve_address env addr in
  let* nominal := lift (ok_or resolved (err USR_ILLEGAL_ARGUMENT)) in
  let* code := get_actor_code_cid env nominal in
  let* code_id := lift (ok_or code (err USR_ILLEGAL_ARGUMENT)) in
  let nominal_addr := AddrId nominal in
  if bool_decide (env_builtin_type env code_id = Some TMiner) then
    let* (owner_addr, worker_addr, _) := request_miner_control_addrs nominal in
    ret (nominal_addr, owner_addr, [owner_addr; worker_addr])
  else ret (nominal_addr, nominal_addr, [nominal_addr]).

Definition request_current_baseline_power : M Z :=
  let* res := send_simple env REWARD_ACTOR_ADDR 3 PNone 0 in
  lift (let! r := extract_send_result res in deserialize_block (decode_baseline_power ext) r).

Definition request_current_network_power : M (Z * Z) :=
  let* res := send_simple env STORAGE_POWER_ACTOR_ADDR 9 PNone 0 in
  lift (let! r := extract_send_result res in deserialize_block (decode_network_power ext) r).

Definition balance_of (owner : Address) : M (Res error Z) :=
  let* res := send_simple env DATACAP_TOKEN_ACTOR_ADDR (method_hash ext "Balance")
                (PBalanceOf owner) 0 in
  ret (let! r := extract_send_result res in
       let! r := ok_or r (err USR_ASSERTION_FAILED) in
       ok_or (decode_balance ext r) (err USR_SERIALIZATION)).

Definition transfer_from (params : TransferFromParams) : M (Res error (list Z)) :=
  let* res := send_simple env DATACAP_TOKEN_ACTOR_ADDR (method_hash ext "TransferFrom")
                (PTransferFrom params) 0 in
  ret (let! r := extract_send_result res in
       let! r := ok_or r (err USR_ASSERTION_FAILED) in
       let! recipient_data := ok_or (decode_transfer_from ext r) (err USR_SERIALIZATION) in
       ok_or (decode_allocations ext recipient_data) (err USR_SERIALIZATION)).

(** ** Validation of proposals *)

Definition deal_proposal_is_internally_valid (p : ClientDealProposal) : M (Res error unit) :=
  match serialize_proposal ext (proposal p) with
  | None => ret (Err (err USR_SERIALIZATION))
  | Some proposal_bytes =>
      let* res := send env (mkSend (client (proposal p))
                    (method_hash ext "AuthenticateMessage")
                    (PAuthenticate (client_signature p) proposal_bytes) 0 true) in
      ret (let! r := extract_send_result res in
           let! ok := deserialize_block (decode_bool ext) r in
           if negb ok then Err (err USR_ILLEGAL_ARGUMENT) else Ok tt)
  end.

(** The checks of [validate_deal] that follow the authentication. *)
Definition validate_deal_terms (p : DealProposal)
    (network_raw_power baseline_power circ_supply : Z) : Res error unit :=
  if label_len (label p) >? DEAL_MAX_LABEL_SIZE then Err (err USR_ILLEGAL_ARGUMENT)
  else if negb (piece_size_valid ext (piece_size p)) then Err (err USR_ILLEGAL_ARGUMENT)
  else if negb (is_piece_cid (piece_cid p)) then Err (err USR_ILLEGAL_ARGUMENT)
  else if end_epoch p <=? start_epoch p then Err (err USR_ILLEGAL_ARGUMENT)
  else if ctx_epoch ctx >? start_epoch p then Err (err USR_ILLEGAL_ARGUMENT)
  else
    let '(min_dur, max_dur) := deal_duration_bounds in
    let! dur := duration p in
    if (dur <? min_dur) || (dur >? max_dur) then Err (err USR_ILLEGAL_ARGUMENT)
    else
      let '(min_price, max_price) := deal_price_per_epoch_bounds in
      if (storage_price_per_epoch p <? min_price) || (storage_price_per_epoch p >? max_price)
      then Err (err USR_ILLEGAL_ARGUMENT)
      else
        let! (min_pc, max_pc) := deal_provider_collateral_bounds policy (piece_size p)
                                   network_raw_power baseline_power circ_supply in
        if (provider_collateral p <? min_pc) || (provider_collateral p >? max_pc)
        then Err (err USR_ILLEGAL_ARGUMENT)
        else
          let '(min_cc, max_cc) := deal_client_collateral_bounds in
          if (client_collateral p <? min_cc) || (client_collateral p >? max_cc)
          then Err (err USR_ILLEGAL_ARGUMENT) else Ok tt.

Definition validate_deal (deal : ClientDealProposal) (network_raw_power baseline_power : Z)
  : M (Res error unit) :=
  let* authentic := deal_proposal_is_internally_valid deal in
  let* w := get_world in
  ret (let! _ := authentic in
       validate_deal_terms (proposal deal) network_raw_power baseline_power
         (total_fil_circ_supply (w_net w))).

(** ** Balances *)

Definition constructor : M unit :=
  let* _ := validate_immediate_caller_is ctx [SYSTEM_ACTOR_ADDR] in
  create new_state.

Definition add_balance (provider_or_client : Address) : M unit :=
  let msg_value := ctx_value_received ctx in
  if msg_value <=? 0 then throw USR_ILLEGAL_ARGUMENT
  else
    let* _ := validate_immediate_caller_accept_any in
    let* (nominal, _, _) := escrow_address provider_or_client in
    transaction_st (add_balance_to_escrow_table nominal msg_value).

Definition withdraw_balance (provider_or_client : Address) (amount : Z) : M Z :=
  if amount <? 0 then throw USR_ILLEGAL_ARGUMENT
  else
    let* (nominal, recipient, approved) := escrow_address provider_or_client in
    let* _ := validate_immediate_caller_is ctx approved in
    let* amount_extracted :=
      transaction_st (withdraw_balance_from_escrow_table nominal amount) in
    let* res := send_simple env recipient METHOD_SEND PNone amount_extracted in
    let* _ := lift (extract_send_result res) in
    ret amount_extracted.

Definition get_balance (account : Address) : M (Z * Z) :=
  let* _ := validate_immediate_caller_accept_any in
  let* resolved := resolve_address env account in
  let* nominal := lift (ok_or resolved (err USR_ILLEGAL_ARGUMENT)) in
  let account := AddrId nominal in
  let* st := state in
  ret (bt_get (escrow_table st) account, bt_get (locked_table st) account).

(** ** Publishing *)

Record ValidDeal : Type := mkValidDeal {
  vd_proposal : DealProposal;
  vd_serialized_proposal : bytes;
  vd_cid : Cid;
}.

(** The variables of the loop that selects the valid deals. *)
Record Selection : Type := mkSelection {
  valid_deals : list ValidDeal;
  proposal_cid_lookup : gset Cid;
  total_client_lockup : gmap Z Z;
  client_datacap_remaining : gmap Z Z;
  client_alloc_reqs : gmap Z (list (Cid * AllocationRequest));
  total_provider_lockup : Z;
  valid_input_bf : BitField;
}.

Definition normalize (p : DealProposal) (provider_id client_id : Z) : DealProposal :=
  mkProposal (piece_cid p) (piece_size p) (verified_deal p) (AddrId client_id)
    (AddrId provider_id) (label p) (start_epoch p) (end_epoch p)
    (storage_price_per_epoch p) (provider_collateral p) (client_collateral p).

(** The datacap part of an iteration; [false] drops the deal. *)
Definition reserve_datacap (acc : Selection) (p : DealProposal) (client_id : Z) (pcid : Cid)
  : M (Selection * bool) :=
  if negb (verified_deal p) then ret (acc, true)
  else
    let* remaining_datacap :=
      match client_datacap_remaining acc !! client_id with
      | None =>
          let* r := balance_of (AddrId client_id) in
          lift (with_code USR_NOT_FOUND r)
      | Some client_data => ret client_data
      end in
    let piece_datacap_required := from_whole (as_i64 (piece_size p)) in
    if remaining_datacap <? piece_datacap_required then
      ret (mkSelection (valid_deals acc) (proposal_cid_lookup acc) (total_client_lockup acc)
             (<[client_id := remaining_datacap]> (client_datacap_remaining acc))
             (client_alloc_reqs acc) (total_provider_lockup acc) (valid_input_bf acc), false)
    else
      let* req := lift (alloc_request_for_deal p policy (ctx_epoch ctx)) in
      ret (mkSelection (valid_deals acc) (proposal_cid_lookup acc) (total_client_lockup acc)
             (<[client_id := remaining_datacap - piece_datacap_required]>
                (client_datacap_remaining acc))
             (<[client_id := default [] (client_alloc_reqs acc !! client_id) ++ [(pcid, req)]]>
                (client_alloc_reqs acc))
             (total_provider_lockup acc) (valid_input_bf acc), true).

(** One iteration of the selection; a skipped deal leaves the accumulators. *)
Definition select_deal (provider_id : Z) (provider_raw : Address) (st : State)
    (validity_index : list bool) (acc : Selection) (entry : nat * ClientDealProposal)
  : M Selection :=
  let '(di, deal) := entry in
  let p := proposal deal in
  let* valid := lift (ok_or (validity_index !! di) (err USR_ASSERTION_FAILED)) in
  if negb valid then ret acc
  else if negb (addr_eqb (provider p) (AddrId provider_id)) &&
          negb (addr_eqb (provider p) provider_raw) then ret acc
  else
    let* resolved := resolve_address env (client p) in
    match resolved with
    | None => ret acc
    | Some client_id =>
        let* requirement := lift (client_balance_requirement p) in
        let client_lockup := default 0 (total_client_lockup acc !! client_id) + requirement in
        if negb (balance_covered (AddrId client_id) client_lockup st) then ret acc
        else
          let provider_lockup := total_provider_lockup acc + provider_collateral p in
          if negb (balance_covered (AddrId provider_id) provider_lockup st) then ret acc
          else
            let p := normalize p provider_id client_id in
            let* serialized := lift (ok_or (serialize_proposal ext p) (err USR_SERIALIZATION)) in
            let pcid := serialized_deal_cid serialized in
            let duplicate_in_state := has_pending_deal pcid st in
            let duplicate_in_message := bool_decide (pcid ∈ proposal_cid_lookup acc) in
            if duplicate_in_state || duplicate_in_message then ret acc
            else
              let* (acc, keep) := reserve_datacap acc p client_id pcid in
              if negb keep then ret acc
              else
                ret (mkSelection (valid_deals acc ++ [mkValidDeal p serialized pcid])
                       ({[pcid]} ∪ proposal_cid_lookup acc)
                       (<[client_id := client_lockup]> (total_client_lockup acc))
                       (client_datacap_remaining acc) (client_alloc_reqs acc) provider_lockup
                       (valid_input_bf acc ++ [Z.of_nat di]))
    end.

(** One datacap transfer, for all the verified deals of a client. *)
Definition transfer_datacap (deal_allocation_ids : gmap Cid Z)
    (e : Z * list (Cid * AllocationRequest)) : M (gmap Cid Z) :=
  let '(client_id, cids_and_reqs) := e in
  let* params := lift (datacap_transfer_request (AddrId client_id) (snd <$> cids_and_reqs)) in
  let* r := transfer_from params in
  let* alloc_ids := lift (with_code USR_ILLEGAL_STATE r) in
  if negb (Nat.eqb (length alloc_ids) (length cids_and_reqs)) then throw USR_ILLEGAL_STATE
  else
    ret (foldl (fun m '(c, _, a) => <[c := a]> m) deal_allocation_ids
           (zip cids_and_reqs alloc_ids)).

(** The variables of the publishing transaction. *)
Record NewDeals : Type := mkNewDeals {
  pending_deals : list Cid;
  deal_proposals : list (Z * DealProposal);
  deals_by_epoch : list (Z * Z);
  new_allocation_ids : list (Z * Z);
  new_deal_ids : list Z;
}.

Definition publish_deal (deal_allocation_ids : gmap Cid Z) (acc : NewDeals) (vd : ValidDeal)
  : SM NewDeals :=
  let& _ := lock_client_and_provider_balances (vd_proposal vd) in
  let& deal_id := generate_storage_deal_id in
  let allocs :=
    match deal_allocation_ids !! vd_cid vd with
    | Some alloc_id => new_allocation_ids acc ++ [(deal_id, alloc_id)]
    | None => new_allocation_ids acc
    end in
  let& epoch := slift (next_update_epoch deal_id (deal_updates_interval policy)
                         (start_epoch (vd_proposal vd))) in
  sret (mkNewDeals (pending_deals acc ++ [vd_cid vd])
          (deal_proposals acc ++ [(deal_id, vd_proposal vd)])
          (deals_by_epoch acc ++ [(epoch, deal_id)])
          allocs (new_deal_ids acc ++ [deal_id])).

Definition publish_deals (deal_allocation_ids : gmap Cid Z) (vds : list ValidDeal)
  : SM (list Z) :=
  let& acc := sfold (publish_deal deal_allocation_ids) (mkNewDeals [] [] [] [] []) vds in
  let& _ := put_pending_deals (pending_deals acc) in
  let& _ := put_deal_proposals (deal_proposals acc) in
  let& _ := put_pending_deal_allocation_ids (new_allocation_ids acc) in
  let& _ := put_deals_by_epoch (deals_by_epoch acc) in
  sret (new_deal_ids acc).

Definition notify_deal (_ : unit) (e : ValidDeal * Z) : M unit :=
  let '(vd, deal_id) := e in
  let* res := send_simple env (client (vd_proposal vd)) (method_hash ext "MarketNotifyDeal")
                (PNotifyDeal (vd_serialized_proposal vd) deal_id) 0 in
  let* _ := lift (with_code USR_ILLEGAL_ARGUMENT (extract_send_result res)) in
  let* _ := lift (emit_parties (vd_proposal vd)) in
  ret tt.

(** The caller must control the provider of the first deal. *)
Definition publisher_checks (provider_raw : Address) : M Z :=
  let* resolved := resolve_address env provider_raw in
  let* provider_id := lift (ok_or resolved (err USR_NOT_FOUND)) in
  let* code := get_actor_code_cid env provider_id in
  let* code_id := lift (ok_or code (err USR_NOT_FOUND)) in
  if negb (bool_decide (env_builtin_type env code_id = Some TMiner))
  then throw USR_ILLEGAL_ARGUMENT
  else
    let* res := send_simple env (AddrId provider_id) (method_hash ext "IsControllingAddress")
                  (PIsControlling (caller ctx)) 0 in
    let* is_controlling := lift (let! r := extract_send_result res in
                                 deserialize_block (decode_bool ext) r) in
    if negb is_controlling then throw USR_FORBIDDEN else ret provider_id.

Definition publish_storage_deals (deals : list ClientDealProposal) : M (list Z * BitField) :=
  let* _ := validate_immediate_caller_accept_any in
  match deals with
  | [] => throw USR_ILLEGAL_ARGUMENT
  | d0 :: _ =>
      let provider_raw := provider (proposal d0) in
      let* provider_id := publisher_checks provider_raw in
      let* baseline_power := request_current_baseline_power in
      let* (network_raw_power, _) := request_current_network_power in
      let* validity_index :=
        mfold (fun acc deal =>
          let* r := validate_deal deal network_raw_power baseline_power in
          let* r := caught r in
          ret (acc ++ [match r with inl _ => true | inr _ => false end])) [] deals in
      let* st := state in
      let* sel := mfold (select_deal provider_id provider_raw st validity_index)
                    (mkSelection [] ∅ ∅ ∅ ∅ 0 []) (zip (seq 0 (length deals)) deals) in
      let* deal_allocation_ids := mfold transfer_datacap ∅ (btree_iter (client_alloc_reqs sel)) in
      let valid_deal_count := length (valid_input_bf sel) in
      if negb (Nat.eqb valid_deal_count (length (valid_deals sel))) then throw USR_ILLEGAL_STATE
      else if Nat.eqb valid_deal_count 0 then throw USR_ILLEGAL_ARGUMENT
      else
        let* new_deal_ids :=
          transaction_st (publish_deals deal_allocation_ids (valid_deals sel)) in
        let* _ := mfold notify_deal tt (zip (valid_deals sel) new_deal_ids) in
        ret (new_deal_ids, valid_input_bf sel)
  end.

(** ** Activation *)

Definition verify_sector (st : State) (unsealed_cids : list (option Cid)) (sector : SectorDeals)
  : Res error (list (option Cid)) :=
  let! sector_proposals := get_proposals (proposals st) (sd_deal_ids sector) (next_id st) in
  let! size := ok_or (sector_size ext (sd_sector_type sector)) (err USR_ILLEGAL_ARGUMENT) in
  let! _ := validate_deals_for_sector sector_proposals (caller ctx) (sd_sector_expiry sector)
              (ctx_epoch ctx) (Some size) in
  let! commd :=
    match sd_deal_ids sector with
    | [] => Ok None
    | _ =>
        let! c := compute_data_commitment (snd <$> sector_proposals) (sd_sector_type sector) in
        Ok (Some c)
    end in
  Ok (unsealed_cids ++ [commd]).

Definition verify_deals_for_activation (sectors : list SectorDeals) : M (list (option Cid)) :=
  let* _ := validate_immediate_caller_type env ctx [TMiner] in
  let* st := state in
  lift (rfold (verify_sector st) [] sectors).

(** The outer result aborts the message, an inner error only fails the deal. *)
Definition preactivate_deal (deal_id : Z) (props : gmap Z DealProposal)
    (deal_states : gmap Z DealState) (pending : gset Cid) (provider : Address)
    (sector_commitment curr_epoch next_id : Z) : Res error (DealProposal + error) :=
  match get_proposal props deal_id next_id with
  | Panic => Panic
  | Err e =>
      if bool_decide (exit_code e = USR_NOT_FOUND) || bool_decide (exit_code e = EX_DEAL_EXPIRED)
      then Ok (inr e) else Err e
  | Ok p =>
      match validate_deal_can_activate p provider sector_commitment curr_epoch with
      | Panic => Panic
      | Err e => Ok (inr e)
      | Ok _ =>
          if bool_decide (is_Some (deal_states !! deal_id))
          then Ok (inr (err USR_ILLEGAL_ARGUMENT))
          else
            let! c := deal_cid p in
            if negb (bool_decide (c ∈ pending)) then Ok (inr (err USR_ILLEGAL_STATE))
            else Ok (inl p)
      end
  end.

(** The variables of the activation loops. *)
Record Activations : Type := mkActivations {
  new_states : list (Z * DealState);
  batch_gen : BatchReturnGen;
  activations : list SectorDealActivation;
  activated_deals : gset Z;
  sectors_deals : list (Z * list Z);
  remaining_allocation_ids : gmap Z Z;
}.

Definition initial_deal_state (sector : Z) : DealState :=
  mkDealState sector (ctx_epoch ctx) EPOCH_UNDEFINED EPOCH_UNDEFINED.

(** [sector_deal_ids.sort(); .windows(2).any(|w| w[0] == w[1])] *)
Fixpoint adjacent_equal (l : list Z) : bool :=
  match l with
  | x :: l' =>
      match l' with
      | y :: _ => (x =? y) || adjacent_equal l'
      | [] => false
      end
  | [] => false
  end.
Definition has_duplicates (l : list Z) : bool := adjacent_equal (merge_sort Z.le l).

(** Validates the deals of a sector, until one fails. *)
Definition validate_sector_deals (st : State) (acc : Activations) (sector : SectorDeals)
  : Res error (list DealProposal + ExitCode) :=
  rfold (fun r deal_id =>
    match r with
    | inr c => Ok (inr c)
    | inl validated =>
        if bool_decide (deal_id ∈ activated_deals acc) then Ok (inr USR_ILLEGAL_ARGUMENT)
        else
          let! p := preactivate_deal deal_id (proposals st) (states st)
                      (pending_proposals st) (caller ctx) (sd_sector_expiry sector)
                      (ctx_epoch ctx) (next_id st) in
          Ok (match p with
              | inl p => inl (validated ++ [p])
              | inr e => inr (exit_code e)
              end)
    end) (inl []) (sd_deal_ids sector).

(** The state updates for one validated deal. *)
Definition activate_deal (sector : Z) (acc : Activations * list ActivatedDeal)
    (e : Z * DealProposal) : Res error (Activations * list ActivatedDeal) :=
  let '(acc, acts) := acc in
  let '(deal_id, p) := e in
  let alloc_id := default NO_ALLOCATION_ID (remaining_allocation_ids acc !! deal_id) in
  let! client := expect (addr_id (client p)) in
  Ok (mkActivations (new_states acc ++ [(deal_id, initial_deal_state sector)]) (batch_gen acc)
        (activations acc) ({[deal_id]} ∪ activated_deals acc) (sectors_deals acc)
        (delete deal_id (remaining_allocation_ids acc)),
      acts ++ [mkActivatedDeal client alloc_id (piece_cid p) (piece_size p)]).

Definition set_batch_gen (g : BatchReturnGen) (acc : Activations) : Activations :=
  mkActivations (new_states acc) g (activations acc) (activated_deals acc) (sectors_deals acc)
    (remaining_allocation_ids acc).

Definition activate_sector (st : State) (compute_cid : bool) (acc : Activations)
    (sector : SectorDeals) : Res error Activations :=
  if has_duplicates (sd_deal_ids sector)
  then Ok (set_batch_gen (add_fail USR_ILLEGAL_ARGUMENT (batch_gen acc)) acc)
  else
    let! r := validate_sector_deals st acc sector in
    match r with
    | inr c => Ok (set_batch_gen (add_fail c (batch_gen acc)) acc)
    | inl validated =>
        let! (acc, acts) := rfold (activate_deal (sd_sector_number sector)) (acc, [])
                              (zip (sd_deal_ids sector) validated) in
        let! data_commitment :=
          if compute_cid && bool_decide (sd_deal_ids sector <> [])
          then let! c := compute_data_commitment validated (sd_sector_type sector) in
               Ok (Some c)
          else Ok None in
        let! _ := rfold (fun _ p => let! _ := emit_parties p in Ok tt) tt validated in
        Ok (mkActivations (new_states acc) (add_success (batch_gen acc))
              (activations acc ++ [mkActivation acts data_commitment])
              (activated_deals acc)
              (sectors_deals acc ++ [(sd_sector_number sector, sd_deal_ids sector)])
              (remaining_allocation_ids acc))
    end.

Definition activate_deals (sectors : list SectorDeals) (compute_cid : bool)
  : SM (list SectorDealActivation * BatchReturn) :=
  let& st := sget in
  let& acc := slift (rfold (activate_sector st compute_cid)
                (mkActivations [] (new_gen (length sectors)) [] ∅ []
                   (pending_deal_allocation_ids st)) sectors) in
  let& _ := put_deal_states (new_states acc) in
  let& _ := put_sector_deal_ids (ctx_caller ctx) (sectors_deals acc) in
  let& _ := smodify (set_pending_deal_allocation_ids (remaining_allocation_ids acc)) in
  let& b := slift (generate (batch_gen acc)) in
  sret (activations acc, b).

Definition batch_activate_deals (sectors : list SectorDeals) (compute_cid : bool)
  : M (list SectorDealActivation * BatchReturn) :=
  let* _ := validate_immediate_caller_type env ctx [TMiner] in
  transaction_st (activate_deals sectors compute_cid).

(** One piece of a changed sector: the deal ids of the sector so far, whether
    each piece was accepted. *)
Definition activate_piece (st : State) (sector : SectorChanges)
    (acc : Activations * list Z * list bool) (piece : PieceChange)
  : Res error (Activations * list Z * list bool) :=
  let '(acc, sector_deal_ids, accepted) := acc in
  let rejected := Ok (acc, sector_deal_ids, accepted ++ [false]) in
  match decode_deal_id ext (pc_payload piece) with
  | None => rejected
  | Some deal_id =>
      if bool_decide (deal_id ∈ activated_deals acc) then rejected
      else
        let! p := preactivate_deal deal_id (proposals st) (states st) (pending_proposals st)
                    (caller ctx) (sc_minimum_commitment_epoch sector) (ctx_epoch ctx)
                    (next_id st) in
        match p with
        | inr _ => rejected
        | inl p =>
            if negb (bool_decide (pc_data piece = piece_cid p)) then rejected
            else if negb (pc_size piece =? piece_size p) then rejected
            else
              let! _ := emit_parties p in
              Ok (mkActivations
                    (new_states acc ++ [(deal_id, initial_deal_state (sc_sector sector))])
                    (batch_gen acc) (activations acc) ({[deal_id]} ∪ activated_deals acc)
                    (sectors_deals acc) (delete deal_id (remaining_allocation_ids acc)),
                  sector_deal_ids ++ [deal_id], accepted ++ [true])
        end
  end.

Definition change_sector (st : State) (acc : Activations * list (list bool))
    (sector : SectorChanges) : Res error (Activations * list (list bool)) :=
  let '(acc, sectors_ret) := acc in
  let! (acc, sector_deal_ids, accepted) :=
    rfold (activate_piece st sector) (acc, [], []) (sc_added sector) in
  if negb (Nat.eqb (length accepted) (length (sc_added sector))) then Panic
  else
    Ok (mkActivations (new_states acc) (batch_gen acc) (activations acc) (activated_deals acc)
          (sectors_deals acc ++ [(sc_sector sector, sector_deal_ids)])
          (remaining_allocation_ids acc), sectors_ret ++ [accepted]).

Definition change_sectors (sectors : list SectorChanges) : SM (list (list bool)) :=
  let& st := sget in
  let& (acc, sectors_ret) := slift (rfold (change_sector st)
    (mkActivations [] (new_gen 0) [] ∅ [] (pending_deal_allocation_ids st), []) sectors) in
  let& _ := put_deal_states (new_states acc) in
  let& _ := put_sector_deal_ids (ctx_caller ctx) (sectors_deals acc) in
  let& _ := smodify (set_pending_deal_allocation_ids (remaining_allocation_ids acc)) in
  if negb (Nat.eqb (length sectors_ret) (length sectors)) then slift Panic
  else sret sectors_ret.

Definition sector_content_changed (sectors : list SectorChanges) : M (list (list bool)) :=
  let* _ := validate_immediate_caller_type env ctx [TMiner] in
  transaction_st (change_sectors sectors).

(** ** Termination *)

Definition terminate_deal (epoch : Z) (props : gmap Z DealProposal)
    (deal_states : gmap Z DealState) (total_slashed id : Z) : SM Z :=
  match props !! id with
  | None => sret total_slashed
  | Some deal =>
      if negb (addr_eqb (provider deal) (caller ctx)) then sfail (err USR_ILLEGAL_STATE)
      else if end_epoch deal <=? epoch then sret total_slashed
      else
        let& state := slift (ok_or (deal_states !! id) (err USR_ILLEGAL_ARGUMENT)) in
        let& _ :=
          if last_updated_epoch state =? EPOCH_UNDEFINED then
            let& dcid := slift (deal_cid deal) in
            let& _ := remove_pending_deal dcid in sret tt
          else sret tt in
        let state := mkDealState (sector_number state) (sector_start_epoch state)
                       (last_updated_epoch state) epoch in
        let& slashed := process_slashed_deal deal state in
        let& _ := remove_completed_deal id in
        let& _ := slift (emit_parties deal) in
        sret (total_slashed + slashed)
  end.

Definition terminate_sectors (epoch : Z) (sectors : BitField) : SM Z :=
  let& st := sget in
  let& all_deal_ids := pop_sector_deal_ids (ctx_caller ctx) sectors in
  sfold (terminate_deal epoch (proposals st) (states st)) 0 all_deal_ids.

Definition on_miner_sectors_terminate (epoch : Z) (sectors : BitField) : M unit :=
  let* _ := validate_immediate_caller_type env ctx [TMiner] in
  let* burn_amount := transaction_st (terminate_sectors epoch sectors) in
  if burn_amount >? 0 then
    let* res := send_simple env BURNT_FUNDS_ACTOR_ADDR METHOD_SEND PNone burn_amount in
    let* _ := lift (extract_send_result res) in
    ret tt
  else ret tt.

(** ** Cron *)

(** The variables of the cron loops. *)
Record CronAcc : Type := mkCronAcc {
  amount_slashed : Z;
  provider_deals_to_remove : gmap Z (gmap Z (list Z));
  new_updates_scheduled : gmap Z (list Z);
}.

Definition set_last_updated (epoch : Z) (s : DealState) : DealState :=
  mkDealState (sector_number s) (sector_start_epoch s) epoch (slash_epoch s).

Definition cron_deal (acc : CronAcc) (deal_id : Z) : SM CronAcc :=
  let curr_epoch := ctx_epoch ctx in
  let& st := sget in
  match find_proposal deal_id st with
  | None => sret acc
  | Some deal_proposal =>
      let& dcid := slift (deal_cid deal_proposal) in
      let& loaded := get_active_deal_or_process_timeout curr_epoch deal_id deal_proposal dcid in
      match loaded with
      | ProposalExpired expiration_penalty =>
          sret (mkCronAcc (amount_slashed acc + expiration_penalty)
                  (provider_deals_to_remove acc) (new_updates_scheduled acc))
      | TooEarly => sfail (err USR_ILLEGAL_STATE)
      | Loaded state =>
          if last_updated_epoch state =? EPOCH_UNDEFINED then
            let& removed := remove_pending_deal dcid in
            let& _ := slift (ok_or removed (err USR_ILLEGAL_STATE)) in
            sret acc
          else
            let& (slash_amount, _, completed, remove_deal) :=
              process_deal_update state deal_proposal dcid curr_epoch in
            let& acc :=
              if remove_deal then
                let& _ := remove_completed_deal deal_id in
                let& provider := slift (expect (addr_id (provider deal_proposal))) in
                let& _ := if negb completed
                          then let& _ := slift (emit_parties deal_proposal) in sret tt
                          else sret tt in
                sret (mkCronAcc (amount_slashed acc + slash_amount)
                        (push_deal (provider_deals_to_remove acc) provider
                           (sector_number state) deal_id)
                        (new_updates_scheduled acc))
              else if negb (slash_amount =? 0) then sfail (err USR_ILLEGAL_STATE)
              else
                let& _ := put_deal_states [(deal_id, set_last_updated curr_epoch state)] in
                let& next := slift (chk_i64 (curr_epoch + 1)) in
                let& next_epoch := slift (next_update_epoch deal_id
                                            (deal_updates_interval policy) next) in
                sret (mkCronAcc (amount_slashed acc) (provider_deals_to_remove acc)
                        (<[next_epoch := default [] (new_updates_scheduled acc !! next_epoch)
                                           ++ [deal_id]]> (new_updates_scheduled acc))) in
            let& _ := if completed
                      then let& _ := slift (emit_parties deal_proposal) in sret tt
                      else sret tt in
            sret acc
      end
  end.

Definition cron_epoch (acc : CronAcc) (i : Z) : SM CronAcc :=
  let& st := sget in
  let deal_ids := hamt_order ext (default ∅ (deal_ops_by_epoch st !! i)) in
  sfold cron_deal acc deal_ids.

(** The epochs [(last_cron + 1)..=curr_epoch]. *)
Definition cron_epochs (st : State) : list Z :=
  seqZ (last_cron st + 1) (ctx_epoch ctx - last_cron st).

Definition process_cron : SM Z :=
  let& st := sget in
  let& _ := slift (chk_i64 (last_cron st + 1)) in
  let epochs_completed := cron_epochs st in
  let& acc := sfold cron_epoch (mkCronAcc 0 ∅ ∅) epochs_completed in
  let& _ := remove_sector_deal_ids (provider_deals_to_remove acc) in
  let& _ := remove_deals_by_epoch epochs_completed in
  let& _ := put_batch_deals_by_epoch (new_updates_scheduled acc) in
  let& _ := smodify (set_last_cron (ctx_epoch ctx)) in
  sret (amount_slashed acc).

Definition burn (amount : Z) : M unit :=
  if negb (amount =? 0) then
    let* res := send_simple env BURNT_FUNDS_ACTOR_ADDR METHOD_SEND PNone amount in
    let* _ := lift (extract_send_result res) in
    ret tt
  else ret tt.

Definition cron_tick : M unit :=
  let* _ := validate_immediate_caller_is ctx [CRON_ACTOR_ADDR] in
  let* amount_slashed := transaction_st process_cron in
  burn amount_slashed.

(** ** Settlement *)

(** The variables of the settlement loop. *)
Record SettleAcc : Type := mkSettleAcc {
  settle_gen : BatchReturnGen;
  settlements : list DealSettlementSummary;
  total_slashed : Z;
  settled_states : list (Z * DealState);
  settled_to_remove : gmap Z (gmap Z (list Z));
}.

Definition settle_fail (c : ExitCode) (acc : SettleAcc) : SettleAcc :=
  mkSettleAcc (add_fail c (settle_gen acc)) (settlements acc) (total_slashed acc)
    (settled_states acc) (settled_to_remove acc).

(** A deal that is loaded and not slashed. *)
Definition settle_loaded (acc : SettleAcc) (deal_id : Z) (deal_proposal : DealProposal)
    (dcid : Cid) (deal_state : DealState) : SM SettleAcc :=
  let curr_epoch := ctx_epoch ctx in
  let& r := scatch (process_deal_update deal_state deal_proposal dcid curr_epoch) in
  match r with
  | inr e => sret (settle_fail (exit_code e) acc)
  | inl (_, payment_amount, completed, remove_deal) =>
      let& (new_states, to_remove) :=
        if remove_deal then
          let& _ := remove_completed_deal deal_id in
          let& provider := slift (expect (addr_id (provider deal_proposal))) in
          let& _ := if negb completed
                    then let& _ := slift (emit_parties deal_proposal) in sret tt
                    else sret tt in
          sret (settled_states acc,
                push_deal (settled_to_remove acc) provider (sector_number deal_state) deal_id)
        else
          sret (settled_states acc ++ [(deal_id, set_last_updated curr_epoch deal_state)],
                settled_to_remove acc) in
      let& _ := if completed
                then let& _ := slift (emit_parties deal_proposal) in sret tt
                else sret tt in
      sret (mkSettleAcc (add_success (settle_gen acc))
              (settlements acc ++ [mkSettlement payment_amount remove_deal])
              (total_slashed acc) new_states to_remove)
  end.

Definition settle_deal (acc : SettleAcc) (deal_id : Z) : SM SettleAcc :=
  let curr_epoch := ctx_epoch ctx in
  let& st := sget in
  let& found := scatch (slift (st_get_proposal st deal_id)) in
  match found with
  | inr _ => sret (settle_fail EX_DEAL_EXPIRED acc)
  | inl deal_proposal =>
      let& dcid := scatch (slift (deal_cid deal_proposal)) in
      match dcid with
      | inr e => sret (settle_fail (exit_code e) acc)
      | inl dcid =>
          let& loaded_deal := scatch (get_active_deal_or_process_timeout curr_epoch deal_id
                                        deal_proposal dcid) in
          match loaded_deal with
          | inr e => sret (settle_fail (exit_code e) acc)
          | inl TooEarly =>
              sret (mkSettleAcc (add_success (settle_gen acc))
                      (settlements acc ++ [mkSettlement 0 false]) (total_slashed acc)
                      (settled_states acc) (settled_to_remove acc))
          | inl (ProposalExpired penalty) =>
              sret (settle_fail EX_DEAL_EXPIRED
                      (mkSettleAcc (settle_gen acc) (settlements acc)
                         (total_slashed acc + penalty) (settled_states acc)
                         (settled_to_remove acc)))
          | inl (Loaded deal_state) =>
              if negb (slash_epoch deal_state =? EPOCH_UNDEFINED)
              then sfail (err USR_ILLEGAL_ARGUMENT)
              else settle_loaded acc deal_id deal_proposal dcid deal_state
          end
      end
  end.

Definition settle_deals (deal_ids : BitField) : SM SettleAcc :=
  let& acc := sfold settle_deal (mkSettleAcc (new_gen (length deal_ids)) [] 0 [] ∅) deal_ids in
  let& _ := put_deal_states (settled_states acc) in
  let& _ := remove_sector_deal_ids (settled_to_remove acc) in
  sret acc.

Definition settle_deal_payments (deal_ids : BitField)
  : M (BatchReturn * list DealSettlementSummary) :=
  let* _ := validate_immediate_caller_accept_any in
  let* acc := transaction_st (settle_deals deal_ids) in
  let* _ := burn (total_slashed acc) in
  let* results := lift (generate (settle_gen acc)) in
  ret (results, settlements acc).

(** ** Queries *)

Definition query {A} (id : Z) (f : DealProposal -> Res error A) : M A :=
  let* _ := validate_immediate_caller_accept_any in
  let* st := state in
  lift (let! found := st_get_proposal st id in f found).

Definition get_deal_data_commitment (id : Z) : M (Cid * Z) :=
  query id (fun d => Ok (piece_cid d, piece_size d)).
Definition get_deal_client (id : Z) : M Z := query id (fun d => expect (addr_id (client d))).
Definition get_deal_provider (id : Z) : M Z := query id (fun d => expect (addr_id (provider d))).
Definition get_deal_label (id : Z) : M Label := query id (fun d => Ok (label d)).
Definition get_deal_term (id : Z) : M (Z * Z) :=
  query id (fun d => let! n := duration d in Ok (start_epoch d, n)).
Definition get_deal_total_price (id : Z) : M Z := query id total_storage_fee.
Definition get_deal_client_collateral (id : Z) : M Z := query id (fun d => Ok (client_collateral d)).
Definition get_deal_provider_collateral (id : Z) : M Z :=
  query id (fun d => Ok (provider_collateral d)).
Definition get_deal_verified (id : Z) : M bool := query id (fun d => Ok (verified_deal d)).

Definition get_deal_activation (id : Z) : M (Z * Z) :=
  let* _ := validate_immediate_caller_accept_any in
  let* st := state in
  match find_deal_state id st with
  | Some s =>
      if negb (slash_epoch s =? EPOCH_UNDEFINED) then throw EX_DEAL_EXPIRED
      else ret (sector_start_epoch s, slash_epoch s)
  | None =>
      let* _ := lift (st_get_proposal st id) in
      ret (EPOCH_UNDEFINED, EPOCH_UNDEFINED)
  end.

Definition get_deal_sector (id : Z) : M Z :=
  let* _ := validate_immediate_caller_accept_any in
  let* st := state in
  match find_deal_state id st with
  | Some s =>
      if negb (slash_epoch s =? EPOCH_UNDEFINED) then throw EX_DEAL_EXPIRED
      else ret (sector_number s)
  | None =>
      let* _ := lift (st_get_proposal st id) in
      throw EX_DEAL_NOT_ACTIVATED
  end.

(** ** Dispatch *)

Definition method_num (m : Msg) : Z :=
  match m with
  | Constructor => 1
  | AddBalance exported _ => if exported then method_hash ext "AddBalance" else 2
  | WithdrawBalance exported _ _ => if exported then method_hash ext "WithdrawBalance" else 3
  | PublishStorageDeals exported _ =>
      if exported then method_hash ext "PublishStorageDeals" else 4
  | VerifyDealsForActivation _ => 5
  | BatchActivateDeals _ _ => 6
  | OnMinerSectorsTerminate _ _ => 7
  | CronTick => 9
  | GetBalance _ => method_hash ext "GetBalance"
  | GetDealDataCommitment _ => method_hash ext "GetDealDataCommitment"
  | GetDealClient _ => method_hash ext "GetDealClient"
  | GetDealProvider _ => method_hash ext "GetDealProvider"
  | GetDealLabel _ => method_hash ext "GetDealLabel"
  | GetDealTerm _ => method_hash ext "GetDealTerm"
  | GetDealTotalPrice _ => method_hash ext "GetDealTotalPrice"
  | GetDealClientCollateral _ => method_hash ext "GetDealClientCollateral"
  | GetDealProviderCollateral _ => method_hash ext "GetDealProviderCollateral"
  | GetDealVerified _ => method_hash ext "GetDealVerified"
  | GetDealActivation _ => method_hash ext "GetDealActivation"
  | GetDealSector _ => method_hash ext "GetDealSector"
  | SettleDealPayments _ => method_hash ext "SettleDealPayments"
  | SectorContentChanged _ => method_hash ext "SectorContentChanged"
  | OtherMethod n => n
  end.

(** A bit field decodes to distinct members in ascending order. *)
Definition bitfield_ok (l : BitField) : bool :=
  bool_decide (StronglySorted Z.lt l) && forallb in_u64 l.

(** Integers of decoded parameters are within their types. *)
Definition decodes (m : Msg) : bool :=
  match m with
  | PublishStorageDeals _ ds =>
      forallb (fun d => in_i64 (start_epoch (proposal d)) && in_i64 (end_epoch (proposal d)) &&
                        in_u64 (piece_size (proposal d))) ds
  | VerifyDealsForActivation ss | BatchActivateDeals ss _ =>
      forallb (fun s => in_u64 (sd_sector_number s) && in_i64 (sd_sector_expiry s) &&
                        forallb in_u64 (sd_deal_ids s)) ss
  | OnMinerSectorsTerminate e ss => in_i64 e && bitfield_ok ss
  | SettleDealPayments ids => bitfield_ok ids
  | SectorContentChanged ss =>
      forallb (fun s => in_u64 (sc_sector s) && in_i64 (sc_minimum_commitment_epoch s)) ss
  | GetDealDataCommitment id | GetDealClient id | GetDealProvider id | GetDealLabel id
  | GetDealTerm id | GetDealTotalPrice id | GetDealClientCollateral id
  | GetDealProviderCollateral id | GetDealVerified id | GetDealActivation id
  | GetDealSector id => in_u64 id
  | _ => true
  end.

Definition invoke_method (m : Msg) : M Ret :=
  let* _ := restrict_internal_api env ctx (method_num m) in
  if negb (decodes m) then throw USR_SERIALIZATION
  else
  let unit_ret (h : M unit) : M Ret := let* _ := h in ret RUnit in
  let amount_ret (h : M Z) : M Ret := let* a := h in ret (RAmount a) in
  let id_ret (h : M Z) : M Ret := let* a := h in ret (RId a) in
  match m with
  | Constructor => unit_ret constructor
  | AddBalance _ a => unit_ret (add_balance a)
  | WithdrawBalance _ a n => let* r := withdraw_balance a n in ret (RWithdraw r)
  | PublishStorageDeals _ ds =>
      let* (ids, valid) := publish_storage_deals ds in ret (RPublish ids valid)
  | VerifyDealsForActivation ss =>
      let* r := verify_deals_for_activation ss in ret (RVerify r)
  | BatchActivateDeals ss c =>
      let* (acts, b) := batch_activate_deals ss c in ret (RActivate b acts)
  | OnMinerSectorsTerminate e ss => unit_ret (on_miner_sectors_terminate e ss)
  | CronTick => unit_ret cron_tick
  | GetBalance a => let* (b, l) := get_balance a in ret (RBalance b l)
  | GetDealDataCommitment id =>
      let* (c, n) := get_deal_data_commitment id in ret (RDataCommitment c n)
  | GetDealClient id => id_ret (get_deal_client id)
  | GetDealProvider id => id_ret (get_deal_provider id)
  | GetDealLabel id => let* l := get_deal_label id in ret (RLabel l)
  | GetDealTerm id => let* (s, n) := get_deal_term id in ret (RTerm s n)
  | GetDealTotalPrice id => amount_ret (get_deal_total_price id)
  | GetDealClientCollateral id => amount_ret (get_deal_client_collateral id)
  | GetDealProviderCollateral id => amount_ret (get_deal_provider_collateral id)
  | GetDealVerified id => let* b := get_deal_verified id in ret (RVerified b)
  | GetDealActivation id => let* (a, t) := get_deal_activation id in ret (RActivation a t)
  | GetDealSector id => id_ret (get_deal_sector id)
  | SettleDealPayments ids =>
      let* (b, s) := settle_deal_payments ids in ret (RSettle b s)
  | SectorContentChanged ss => let* r := sector_content_changed ss in ret (RSectors r)
  | OtherMethod _ => throw USR_UNHANDLED_MESSAGE
  end.

End methods.

(** ** The update schedule *)

(** The epoch [next_update_epoch] computes, when nothing overflows. *)
Definition next_update (id interval earliest : Z) : Z :=
  let offset := Z.rem (as_i64 id) interval in
  let delta := earliest - offset in
  if (Z.rem delta interval =? 0) || (delta <? 0)
  then interval * Z.quot delta interval + offset
  else interval * (Z.quot delta interval + 1) + offset.

Lemma next_update_bounds id interval earliest :
  0 < interval -> 0 <= earliest ->
  earliest <= next_update id interval earliest < earliest + interval.
Proof.
  intros Hi He. unfold next_update. set (off := Z.rem (as_i64 id) interval).
  assert (- interval < off < interval) as Hoff.
  { unfold off. pose proof (Z.rem_bound_abs (as_i64 id) interval ltac:(lia)). lia. }
  set (delta := earliest - off).
  pose proof (Z.quot_rem' delta interval) as Hqr.
  destruct (delta <? 0) eqn:Hneg; rewrite ?orb_true_r, ?orb_false_r; bool_prop.
  - assert (Z.quot delta interval = 0) as Hq by (apply Z.quot_small_iff; unfold delta in *; lia).
    rewrite Hq. unfold delta in *. lia.
  - pose proof (Z.rem_bound_pos delta interval Hneg Hi).
    destruct (Z.eqb_spec (Z.rem delta interval) 0); unfold delta in *; nia.
Qed.

Lemma next_update_epoch_inv id interval earliest r :
  next_update_epoch id interval earliest = Ok r -> r = next_update id interval earliest.
Proof.
  unfold next_update_epoch, next_update, rem_i64, div_i64. intros H. res_inv.
  destruct (_ || _); res_inv; done.
Qed.

Lemma next_update_epoch_ok id interval earliest :
  0 < interval <= 2 ^ 61 -> 0 <= earliest <= 2 ^ 62 -> 0 <= id <= U64_MAX ->
  next_update_epoch id interval earliest = Ok (next_update id interval earliest).
Proof.
  intros Hi He Hid. pose proof (next_update_bounds id interval earliest ltac:(lia) ltac:(lia)) as Hb.
  unfold next_update_epoch, rem_i64, div_i64. rewrite (proj2 (Z.eqb_neq interval 0)) by lia.
  assert (- 2 ^ 63 <= as_i64 id <= 2 ^ 63 - 1) as Has.
  { unfold as_i64, I64_MAX, U64_MAX in *. destruct (_ <=? _) eqn:?; bool_prop; lia. }
  assert (forall x, - 2 ^ 63 <= x <= 2 ^ 63 - 1 ->
    @chk_i64 error (Z.quot x interval) = Ok (Z.quot x interval)) as Hq.
  { intros x Hx. unfold chk_i64. rewrite (proj2 (in_i64_spec _)); [done|].
    destruct (Z.le_gt_cases 0 x).
    - pose proof (Z.quot_pos x interval). pose proof (Z.quot_le_upper_bound x interval x). nia.
    - pose proof (Z.quot_pos (- x) interval).
      pose proof (Z.quot_le_upper_bound (- x) interval (- x)).
      rewrite Z.quot_opp_l in * by lia. nia. }
  rewrite Hq by done. cbn [rbind]. unfold next_update in Hb |- *.
  set (off := Z.rem (as_i64 id) interval) in *.
  assert (- interval < off < interval) as Hoff.
  { unfold off. pose proof (Z.rem_bound_abs (as_i64 id) interval ltac:(lia)). lia. }
  unfold chk_i64 at 1. rewrite (proj2 (in_i64_spec _)) by lia. cbn [rbind].
  rewrite Hq by lia. cbn [rbind]. set (delta := earliest - off) in *.
  pose proof (Z.quot_rem' delta interval) as Hqr.
  destruct (_ || _); cbn [rbind].
  - unfold chk_i64. rewrite !(proj2 (in_i64_spec _)) by lia. cbn [rbind].
    by rewrite (proj2 (in_i64_spec _)) by lia.
  - unfold chk_i64. rewrite (proj2 (in_i64_spec (_ + 1))).
    + cbn [rbind]. rewrite (proj2 (in_i64_spec (interval * _))) by lia. cbn [rbind].
      by rewrite (proj2 (in_i64_spec _)) by lia.
    + assert (Z.abs (interval * (delta ÷ interval + 1)) < 2 ^ 63) by lia. nia.
Qed.

(** The epoch computed for a deal's next update is the first one not
    before [earliest] that is congruent to the deal's id modulo the update
    interval; the computation neither overflows nor divides by zero. *)
Theorem next_update_epoch_spec id interval earliest :
  0 < interval <= 2 ^ 61 -> 0 <= earliest <= 2 ^ 62 -> 0 <= id <= U64_MAX ->
  exists r, next_update_epoch id interval earliest = Ok r /\
    earliest <= r < earliest + interval /\ (r - as_i64 id) mod interval = 0.
Proof.
  intros Hi He Hid. exists (next_update id interval earliest).
  split; [by apply next_update_epoch_ok|]. split; [apply next_update_bounds; lia|].
  unfold next_update. pose proof (Z.quot_rem' (as_i64 id) interval) as Hq.
  set (q := Z.quot (earliest - Z.rem (as_i64 id) interval) interval).
  set (q0 := Z.quot (as_i64 id) interval) in *. set (r := Z.rem (as_i64 id) interval) in *.
  destruct (_ || _).
  - replace (_ - _) with ((q - q0) * interval) by lia. apply Z.mod_mul. lia.
  - replace (_ - _) with ((q + 1 - q0) * interval) by lia. apply Z.mod_mul. lia.
Qed.

Lemma next_update_epoch_spec_witness :
  exists r, next_update_epoch 7 86400 1000 = Ok r /\ 1000 <= r < 87400.
Proof.
  destruct (next_update_epoch_spec 7 86400 1000) as (r & H & Hr & _);
    [lia|lia|unfold U64_MAX; lia|]. exists r. split; [done|lia].
Defined.
