(* ===== verification/MarketMaps.v ===== *)
(** * Storage market: the indexes of the state

    What the operations on the deal schedule and on the deals of each sector
    do to membership. *)

From stdpp Require Import sorting.
From S2P Require Import Prelude Runtime MarketState Market.

Implicit Types (st : State).

(** [id] is scheduled for processing at epoch [ep]. *)
Definition in_ops st (ep id : Z) : Prop := id ∈ default ∅ (deal_ops_by_epoch st !! ep).

(** The deals recorded for a sector of a provider. *)
Definition sector_list st (p sec : Z) : list Z :=
  default [] (load_provider_sector_deals (provider_sectors st) p !! sec).

(** [id] is among the deals to remove from a sector. *)
Definition to_remove_of (t : gmap Z (gmap Z (list Z))) (p sec id : Z) : Prop :=
  id ∈ default [] (default ∅ (t !! p) !! sec).

Lemma filter_nothing (P : Z -> Prop) `{forall x, Decision (P x)} (l : list Z) :
  (forall x, P x) -> filter P l = l.
Proof. intros HP. induction l; [done|]. rewrite filter_cons_True by done. by rewrite IHl. Qed.

(** ** Iteration in key order *)

Lemma btree_iter_perm {V} (m : gmap Z V) : btree_iter m ≡ₚ map_to_list m.
Proof. apply merge_sort_Permutation. Qed.

Lemma elem_of_btree_iter {V} (m : gmap Z V) k v : (k, v) ∈ btree_iter m <-> m !! k = Some v.
Proof. rewrite btree_iter_perm. apply elem_of_map_to_list. Qed.

Lemma NoDup_btree_iter {V} (m : gmap Z V) : NoDup (btree_iter m).*1.
Proof. rewrite btree_iter_perm. apply NoDup_fst_map_to_list. Qed.

Section keyed.
Context {M V X : Type} (get : M -> Z -> X) (step : M -> Z * V -> M) (f : V -> X -> X).
Context (Hstep : forall m k v k', get (step m (k, v)) k' =
  if decide (k' = k) then f v (get m k) else get m k').

Lemma foldl_keyed_not l : forall m k, k ∉ l.*1 -> get (foldl step m l) k = get m k.
Proof.
  induction l as [|[k' v] l IH]; intros m k Hk; [done|]. cbn in *.
  apply not_elem_of_cons in Hk as [Hne Hk]. rewrite IH by done. rewrite Hstep.
  by rewrite decide_False.
Qed.

Lemma foldl_keyed_in l : forall m k v, NoDup l.*1 -> (k, v) ∈ l ->
  get (foldl step m l) k = f v (get m k).
Proof.
  induction l as [|[k' v'] l IH]; intros m k v Hnd Hk; [by apply not_elem_of_nil in Hk|].
  cbn in *. apply NoDup_cons in Hnd as [Hk' Hnd]. apply elem_of_cons in Hk as [[= -> ->]|Hk].
  - rewrite foldl_keyed_not by done. rewrite Hstep. by rewrite decide_True.
  - rewrite (IH _ _ v) by done. rewrite Hstep, decide_False; [done|].
    intros ->. apply Hk'. apply list_elem_of_fmap. by exists (k', v).
Qed.

(** A loop over a [BTreeMap] whose body only touches the entry of its key. *)
Lemma foldl_btree (t : gmap Z V) m k :
  get (foldl step m (btree_iter t)) k =
  match t !! k with Some v => f v (get m k) | None => get m k end.
Proof.
  destruct (t !! k) as [v|] eqn:Hk.
  - apply foldl_keyed_in; [apply NoDup_btree_iter|]. by apply elem_of_btree_iter.
  - apply foldl_keyed_not. intros Hin. apply list_elem_of_fmap in Hin as ([k' v] & -> & Hin).
    apply elem_of_btree_iter in Hin. cbn in Hk. congruence.
Qed.
End keyed.

(** ** Deals by sector *)

Lemma load_save ps p sd p' :
  load_provider_sector_deals (save_provider_sector_deals ps p sd) p' =
  if decide (p' = p) then sd else load_provider_sector_deals ps p'.
Proof.
  unfold load_provider_sector_deals, save_provider_sector_deals.
  case_bool_decide as Hsd; destruct (decide (p' = p)) as [->|Hne].
  - by rewrite lookup_delete_eq.
  - by rewrite lookup_delete_ne.
  - by rewrite lookup_insert_eq.
  - by rewrite lookup_insert_ne.
Qed.

Lemma remove_sector_deals_get acc sec ids sec' :
  default [] ((remove_sector_deals acc (sec, ids)).1 !! sec') =
  if decide (sec' = sec) then filter (fun id => id ∉ ids) (default [] (acc.1 !! sec))
  else default [] (acc.1 !! sec').
Proof.
  destruct acc as [sd fl]. unfold remove_sector_deals. cbn.
  destruct (sd !! sec) as [l|] eqn:Hl; cbn.
  - destruct (filter _ l) as [|x k] eqn:Hf; destruct (decide (sec' = sec)) as [->|Hne].
    + rewrite lookup_delete_eq. cbn. done.
    + by rewrite lookup_delete_ne.
    + rewrite lookup_insert_eq. cbn. done.
    + by rewrite lookup_insert_ne.
  - destruct (decide (sec' = sec)) as [->|Hne]; [|done]. by rewrite Hl.
Qed.

Lemma remove_sector_deals_flush l : forall acc,
  (foldl remove_sector_deals acc l).2 = false ->
  acc.2 = false /\ (foldl remove_sector_deals acc l).1 = acc.1.
Proof.
  induction l as [|[sec ids] l IH]; intros acc H; [done|]. cbn [foldl] in *.
  apply IH in H as [H1 H2]. rewrite H2. destruct acc as [sd fl].
  unfold remove_sector_deals in *. destruct (sd !! sec); [discriminate|done].
Qed.

Lemma remove_provider_get ps p sdi p' sec :
  default [] (load_provider_sector_deals (remove_provider_sector_deals ps (p, sdi)) p' !! sec) =
  if decide (p' = p)
  then filter (fun id => id ∉ default [] (sdi !! sec))
         (default [] (load_provider_sector_deals ps p !! sec))
  else default [] (load_provider_sector_deals ps p' !! sec).
Proof.
  unfold remove_provider_sector_deals.
  pose proof (foldl_btree (fun acc sec => default [] (acc.1 !! sec)) remove_sector_deals
    (fun ids l => filter (fun id => id ∉ ids) l)
    (fun acc k v k' => remove_sector_deals_get acc k v k') sdi
    (load_provider_sector_deals ps p, false) sec) as Hget.
  pose proof (remove_sector_deals_flush (btree_iter sdi) (load_provider_sector_deals ps p, false))
    as Hfl.
  destruct (foldl _ _ _) as [sd fl]. cbn in Hget, Hfl.
  assert (default [] (sd !! sec) = filter (fun id => id ∉ default [] (sdi !! sec))
    (default [] (load_provider_sector_deals ps p !! sec))) as Hsd.
  { rewrite Hget. destruct (sdi !! sec); cbn; [done|].
    symmetry. apply filter_nothing. intros x. apply not_elem_of_nil. }
  destruct fl.
  - rewrite load_save. by case_decide.
  - destruct (Hfl eq_refl) as [_ ->]. rewrite <- Hsd. destruct (decide (p' = p)) as [->|?]; done.
Qed.

(** Exactly the deals to remove leave the sectors. *)
Lemma remove_all_spec t ps p sec :
  default [] (load_provider_sector_deals
    (foldl remove_provider_sector_deals ps (btree_iter t)) p !! sec) =
  filter (fun id => id ∉ default [] (default ∅ (t !! p) !! sec))
    (default [] (load_provider_sector_deals ps p !! sec)).
Proof.
  rewrite (foldl_btree (fun ps p => default [] (load_provider_sector_deals ps p !! sec))
    remove_provider_sector_deals
    (fun sdi l => filter (fun id => id ∉ default [] (sdi !! sec)) l)
    (fun ps k v k' => remove_provider_get ps k v k' sec)).
  destruct (t !! p); cbn; [done|]. symmetry. apply filter_nothing.
  intros x. rewrite lookup_empty. apply not_elem_of_nil.
Qed.

Lemma elem_of_dedup x l : x ∈ dedup l <-> x ∈ l.
Proof.
  induction l as [|y l IH]; [done|]. destruct l as [|z l]; [done|].
  change (dedup (y :: z :: l)) with (if y =? z then dedup (z :: l) else y :: dedup (z :: l)).
  destruct (y =? z) eqn:Hyz.
  - apply Z.eqb_eq in Hyz as ->. rewrite IH. set_solver.
  - rewrite elem_of_cons, IH. by rewrite (elem_of_cons _ x y).
Qed.

Lemma NoDup_dedup l : StronglySorted Z.le l -> NoDup (dedup l).
Proof.
  induction l as [|y l IH]; intros Hs; [constructor|].
  apply StronglySorted_inv in Hs as [Hs Hall]. specialize (IH Hs).
  destruct l as [|z l]; [cbn; apply NoDup_singleton|].
  change (dedup (y :: z :: l)) with (if y =? z then dedup (z :: l) else y :: dedup (z :: l)).
  destruct (y =? z) eqn:Hyz; [done|]. constructor; [|done]. rewrite elem_of_dedup.
  intros Hin. apply Z.eqb_neq in Hyz. apply Hyz.
  apply StronglySorted_inv in Hs as [_ Hz]. rewrite Forall_forall in Hall, Hz.
  specialize (Hall z ltac:(left)). apply elem_of_cons in Hin as [?|Hin]; [done|].
  specialize (Hz y Hin). lia.
Qed.

Lemma sorted_merge_sort (l : list Z) : StronglySorted Z.le (merge_sort Z.le l).
Proof. apply StronglySorted_merge_sort; [intros ????; lia|intros ??; lia]. Qed.

Lemma put_sector_deals_get sd sec ids sec' :
  (forall x, x ∈ default [] (put_sector_deals sd (sec, ids) !! sec') <->
     x ∈ default [] (sd !! sec') \/ sec' = sec /\ x ∈ ids) /\
  (NoDup (default [] (sd !! sec')) -> NoDup (default [] (put_sector_deals sd (sec, ids) !! sec'))).
Proof.
  unfold put_sector_deals. destruct (decide (sec' = sec)) as [->|Hne].
  - rewrite lookup_insert_eq. cbn [default]. split.
    + intros x. cbn. rewrite elem_of_dedup, merge_sort_Permutation, elem_of_app. naive_solver.
    + intros _. apply NoDup_dedup, sorted_merge_sort.
  - rewrite lookup_insert_ne by done. split; [naive_solver|done].
Qed.

Lemma put_all_get l : forall sd sec,
  (forall x, x ∈ default [] (foldl put_sector_deals sd l !! sec) <->
     x ∈ default [] (sd !! sec) \/ exists ids, (sec, ids) ∈ l /\ x ∈ ids) /\
  (NoDup (default [] (sd !! sec)) -> NoDup (default [] (foldl put_sector_deals sd l !! sec))).
Proof.
  induction l as [|[sec' ids] l IH]; intros sd sec; cbn [foldl].
  - split; [|done]. intros x. split; [by left|]. intros [?|(ids & H & _)]; [done|].
    by apply not_elem_of_nil in H.
  - destruct (IH (put_sector_deals sd (sec', ids)) sec) as [IH1 IH2].
    destruct (put_sector_deals_get sd sec' ids sec) as [Hp1 Hp2]. split; [|auto].
    intros x. rewrite IH1, Hp1. setoid_rewrite elem_of_cons. split.
    + intros [[?|[-> ?]]|(ids' & ? & ?)]; [by left|right; exists ids; auto|right; eauto].
    + intros [?|(ids' & [[= -> ->]|?] & ?)]; [by left; left|left; right; auto|right; eauto].
Qed.

(** ** Popping sectors *)

Lemma pop_sector_fold secs : forall sd popped fl,
  let '(sd', popped', fl') := foldl pop_sector (sd, popped, fl) secs in
  (forall sec, default [] (sd' !! sec) = if decide (sec ∈ secs) then [] else default [] (sd !! sec)) /\
  (exists more, popped' = popped ++ more /\
     (forall x, x ∈ more <-> exists sec, sec ∈ secs /\ x ∈ default [] (sd !! sec)) /\
     (NoDup secs -> (forall sec, NoDup (default [] (sd !! sec))) ->
      (forall x sec sec', x ∈ default [] (sd !! sec) -> x ∈ default [] (sd !! sec') -> sec = sec') ->
      NoDup more)) /\
  (fl' = false -> sd' = sd).
Proof.
  induction secs as [|s secs IH]; intros sd popped fl; cbn [foldl].
  - split_and!; [|exists []; rewrite app_nil_r; split_and!; [done| |intros; constructor]|done].
    + intros sec. by rewrite decide_False by apply not_elem_of_nil.
    + intros x. split; [by intros ?%not_elem_of_nil|]. intros (sec & H & _).
      by apply not_elem_of_nil in H.
  - cbn [pop_sector]. destruct (sd !! s) as [l|] eqn:Hl.
    + specialize (IH (delete s sd) (popped ++ l) true).
      destruct (foldl pop_sector _ secs) as [[sd' popped'] fl'] eqn:Hf.
      destruct IH as (H1 & (more & -> & Hin & Hnd) & H3).
      assert (forall sec, default [] (delete s sd !! sec) =
        if decide (sec = s) then [] else default [] (sd !! sec)) as Hdel.
      { intros sec. destruct (decide (sec = s)) as [->|?]; [by rewrite lookup_delete_eq|].
        by rewrite lookup_delete_ne. }
      split_and!.
      * intros sec. rewrite H1, Hdel. repeat case_decide; set_solver.
      * exists (l ++ more). rewrite app_assoc. split_and!; [done|..].
        -- intros x. rewrite elem_of_app, Hin. setoid_rewrite elem_of_cons. setoid_rewrite Hdel.
           split.
           ++ intros [?|(sec & ? & Hx)]; [exists s; rewrite Hl; auto|].
              destruct (decide (sec = s)) as [->|?]; [by apply not_elem_of_nil in Hx|eauto].
           ++ intros (sec & [->|?] & Hx); [rewrite Hl in Hx; auto|].
              destruct (decide (sec = s)) as [->|?]; [rewrite Hl in Hx; auto|].
              right. exists sec. by rewrite decide_False.
        -- intros [Hs Hnds]%NoDup_cons Hnd1 Huniq. apply NoDup_app. split_and!.
           ++ specialize (Hnd1 s). by rewrite Hl in Hnd1.
           ++ intros x Hx. rewrite Hin. setoid_rewrite Hdel. intros (sec & ? & Hx').
              destruct (decide (sec = s)) as [->|Hne]; [done|]. apply Hne.
              apply (Huniq x); [done|]. by rewrite Hl.
           ++ apply Hnd; [done|..].
              ** intros sec. rewrite Hdel. case_decide; [constructor|done].
              ** intros x sec sec'. rewrite !Hdel. repeat case_decide;
                   try by intros ?%not_elem_of_nil. { by intros ? ?%not_elem_of_nil. } eauto.
      * intros ->. exfalso. clear - Hf. revert Hf.
        assert (forall secs sd popped, (foldl pop_sector (sd, popped, true) secs).2 = true) as Ht.
        { clear. induction secs as [|s secs IH]; intros sd popped; [done|]. cbn.
          destruct (sd !! s); apply IH. }
        intros Hf. specialize (Ht secs (delete s sd) (popped ++ l)). by rewrite Hf in Ht.
    + specialize (IH sd popped fl). destruct (foldl pop_sector _ secs) as [[sd' popped'] fl'].
      destruct IH as (H1 & (more & -> & Hin & Hnd) & H3). split_and!; [| |done].
      * intros sec. rewrite H1. destruct (decide (sec = s)) as [->|?].
        -- rewrite (decide_True (P := s ∈ s :: secs)) by set_solver. rewrite Hl. by case_decide.
        -- repeat case_decide; set_solver.
      * exists more. split_and!; [done|..].
        -- intros x. rewrite Hin. setoid_rewrite elem_of_cons. split; [naive_solver|].
           intros (sec & [->|?] & Hx); [|eauto]. rewrite Hl in Hx. by apply not_elem_of_nil in Hx.
        -- intros [_ ?]%NoDup_cons ? ?. auto.
Qed.

(** ** The schedule *)

Lemma elem_of_fold_union (x : Z) l (s : gset Z) :
  x ∈ foldl (fun s v => {[v]} ∪ s) s l <-> x ∈ s \/ x ∈ l.
Proof.
  revert s. induction l as [|v l IH]; intros s; cbn; [set_solver|]. rewrite IH. set_solver.
Qed.

Lemma put_many_get ops ep l ep' x :
  x ∈ default ∅ (put_many ops ep l !! ep') <->
  x ∈ default (∅ : gset Z) (ops !! ep') \/ ep' = ep /\ x ∈ l.
Proof.
  unfold put_many. destruct (decide (ep' = ep)) as [->|Hne].
  - rewrite lookup_insert_eq. cbn. rewrite elem_of_fold_union. naive_solver.
  - rewrite lookup_insert_ne by done. naive_solver.
Qed.

Lemma put_many_fold (l : list (Z * list Z)) : forall ops ep x,
  x ∈ default (∅ : gset Z)
    (foldl (fun ops '(epoch, deals) => put_many ops epoch deals) ops l !! ep) <->
  x ∈ default (∅ : gset Z) (ops !! ep) \/ exists deals, (ep, deals) ∈ l /\ x ∈ deals.
Proof.
  induction l as [|[ep' ds] l IH]; intros ops ep x; cbn [foldl].
  - split; [by left|]. intros [?|(ds & H & _)]; [done|]. by apply not_elem_of_nil in H.
  - rewrite IH, put_many_get. setoid_rewrite elem_of_cons. split.
    + intros [[?|[-> ?]]|(ds' & ? & ?)]; [by left|right; exists ds; auto|right; eauto].
    + intros [?|(ds' & [[= -> ->]|?] & ?)]; [by left; left|left; right; auto|right; eauto].
Qed.

Lemma delete_all_get (l : list Z) : forall (ops : gmap Z (gset Z)) ep,
  foldl (fun ops epoch => delete epoch ops) ops l !! ep =
  if decide (ep ∈ l) then None else ops !! ep.
Proof.
  induction l as [|ep' l IH]; intros ops ep; cbn [foldl].
  - by rewrite decide_False by apply not_elem_of_nil.
  - rewrite IH. destruct (decide (ep = ep')) as [->|Hne].
    + rewrite lookup_delete_eq. rewrite (decide_True (P := ep' ∈ ep' :: l)) by set_solver.
      by case_decide.
    + rewrite lookup_delete_ne by done. repeat case_decide; set_solver.
Qed.

Lemma to_remove_push t p sec id p' sec' id' :
  to_remove_of (push_deal t p sec id) p' sec' id' <->
  to_remove_of t p' sec' id' \/ (p', sec', id') = (p, sec, id).
Proof.
  unfold to_remove_of, push_deal. destruct (decide (p' = p)) as [->|Hp].
  - rewrite lookup_insert_eq. cbn. destruct (decide (sec' = sec)) as [->|Hs].
    + rewrite lookup_insert_eq. cbn. rewrite elem_of_app, list_elem_of_singleton. naive_solver.
    + rewrite lookup_insert_ne by done. naive_solver.
  - rewrite lookup_insert_ne by done. naive_solver.
Qed.
