(* ===== verification/MarketInv.v ===== *)
(** * Storage market: accounting of the state operations

    What the operations of MarketState.v do to balances, and the accounting
    invariant they keep: the locked balance of every party is exactly what its
    deals still owe, and it is covered by the party's escrow. *)

From stdpp Require Import sorting.
From S2P Require Import Prelude Runtime MarketState.

Implicit Types (st : State) (d : DealProposal) (s : DealState) (a b : Address).

(** ** Balance tables *)

(** [amt] at address [a], nothing elsewhere. *)
Definition at_addr a (amt : Z) b : Z := if addr_eqb a b then amt else 0.

Lemma at_addr_eq a amt : at_addr a amt a = amt.
Proof. unfold at_addr, addr_eqb. by rewrite bool_decide_true. Qed.

Lemma bt_get_insert (t : BalanceTable) a v b :
  bt_get (<[a := v]> t) b = if addr_eqb a b then v else bt_get t b.
Proof.
  unfold bt_get, addr_eqb in *. case_bool_decide as Hab.
  - subst. by rewrite lookup_insert_eq.
  - by rewrite lookup_insert_ne.
Qed.

Lemma bt_get_delete (t : BalanceTable) a b :
  bt_get (delete a t) b = if addr_eqb a b then 0 else bt_get t b.
Proof.
  unfold bt_get, addr_eqb in *. case_bool_decide as Hab.
  - subst. by rewrite lookup_delete_eq.
  - by rewrite lookup_delete_ne.
Qed.

Lemma bt_get_lookup_sum (t : BalanceTable) a : lookup_sum id a t = bt_get t a.
Proof. unfold lookup_sum, bt_get. by destruct (t !! a). Qed.

Lemma bt_add_spec t a v :
  0 <= bt_get t a + v ->
  exists t', bt_add t a v = Ok t' /\
    (forall b, bt_get t' b = bt_get t b + at_addr a v b) /\ bt_total t' = bt_total t + v.
Proof.
  intros Hv. unfold bt_add. rewrite (proj2 (Z.ltb_ge _ _)) by lia.
  destruct (_ && _) eqn:Hz; eexists; (split; [reflexivity|]); bool_prop; split.
  - intros b. rewrite bt_get_delete. unfold at_addr. destruct (addr_eqb a b) eqn:Hab; [|lia].
    apply bool_decide_eq_true in Hab as <-. lia.
  - unfold bt_total. rewrite map_sum_delete_any, bt_get_lookup_sum. lia.
  - intros b. rewrite bt_get_insert. unfold at_addr. destruct (addr_eqb a b) eqn:Hab; [|lia].
    by apply bool_decide_eq_true in Hab as <-.
  - unfold bt_total. rewrite map_sum_insert, bt_get_lookup_sum. unfold id. lia.
Qed.

Lemma bt_must_subtract_spec t a v :
  v <= bt_get t a ->
  exists t', bt_must_subtract t a v = Ok t' /\
    (forall b, bt_get t' b = bt_get t b - at_addr a v b) /\ bt_total t' = bt_total t - v.
Proof.
  intros Hv. unfold bt_must_subtract. rewrite Z.gtb_ltb, (proj2 (Z.ltb_ge _ _)) by lia.
  destruct (bt_add_spec t a (- v)) as (t' & Ht & Hg & Htot); [lia|].
  exists t'. split_and!; [done| |lia]. intros b. rewrite Hg. unfold at_addr.
  destruct (addr_eqb a b); lia.
Qed.

Lemma bt_must_subtract_inv t a v t' : bt_must_subtract t a v = Ok t' -> v <= bt_get t a.
Proof. unfold bt_must_subtract. intros H. res_inv. lia. Qed.

Lemma bt_add_inv t a v t' : bt_add t a v = Ok t' -> 0 <= bt_get t a + v.
Proof. unfold bt_add. intros H. res_inv. lia. Qed.

(** ** Movements of funds *)

(** The state without its balances. *)
Definition strip st : State :=
  mkState (proposals st) (states st) (pending_proposals st) ∅ ∅ (next_id st)
    (deal_ops_by_epoch st) (last_cron st) 0 0 0 (pending_deal_allocation_ids st)
    (provider_sectors st).

(** Differences of locked and escrow balances by address, of the total in
    escrow, and of the three totals of locked funds; nothing else changes. *)
Record moved st st' (dl de : Address -> Z) (tot dcc dpc dfee : Z) : Prop := {
  mv_frame : strip st' = strip st;
  mv_locked : forall a, bt_get (locked_table st') a = bt_get (locked_table st) a + dl a;
  mv_escrow : forall a, bt_get (escrow_table st') a = bt_get (escrow_table st) a + de a;
  mv_total : bt_total (escrow_table st') = bt_total (escrow_table st) + tot;
  mv_cc : total_client_locked_collateral st' = total_client_locked_collateral st + dcc;
  mv_pc : total_provider_locked_collateral st' = total_provider_locked_collateral st + dpc;
  mv_fee : total_client_storage_fee st' = total_client_storage_fee st + dfee;
}.

Lemma moved_refl st : moved st st (fun _ => 0) (fun _ => 0) 0 0 0 0.
Proof. constructor; intros; try lia; done. Qed.

Lemma moved_trans st1 st2 st3 dl1 de1 t1 c1 p1 f1 dl2 de2 t2 c2 p2 f2 :
  moved st1 st2 dl1 de1 t1 c1 p1 f1 -> moved st2 st3 dl2 de2 t2 c2 p2 f2 ->
  moved st1 st3 (fun a => dl1 a + dl2 a) (fun a => de1 a + de2 a)
    (t1 + t2) (c1 + c2) (p1 + p2) (f1 + f2).
Proof.
  intros [] []. constructor; intros; try congruence;
    repeat match goal with H : forall _, _ = _ |- _ => rewrite H; clear H end; lia.
Qed.

Lemma moved_ext st st' dl de t c p f dl' de' t' c' p' f' :
  moved st st' dl de t c p f ->
  (forall a, dl a = dl' a) -> (forall a, de a = de' a) ->
  t = t' -> c = c' -> p = p' -> f = f' -> moved st st' dl' de' t' c' p' f'.
Proof.
  intros [] Hl He -> -> -> ->. constructor; intros; try done.
  - rewrite <- Hl. auto.
  - rewrite <- He. auto.
Qed.

(** What an unlocking for [r] takes from each total. *)
Definition by_reason (r : Reason) (amt : Z) : Z * Z * Z :=
  match r with
  | ClientCollateral => (amt, 0, 0)
  | ProviderCollateral => (0, amt, 0)
  | ClientStorageFee => (0, 0, amt)
  end.

Lemma unlock_balance_spec a amt r st :
  0 <= amt <= bt_get (locked_table st) a ->
  succeeds (unlock_balance a amt r) st (fun _ st' =>
    moved st st' (fun b => - at_addr a amt b) (fun _ => 0) 0
      (- (by_reason r amt).1.1) (- (by_reason r amt).1.2) (- (by_reason r amt).2)).
Proof.
  intros Hamt. unfold unlock_balance. rewrite (proj2 (Z.ltb_ge _ _)) by lia.
  destruct (bt_must_subtract_spec (locked_table st) a amt) as (t' & Ht & Hg & _); [lia|].
  eexists tt, _. split.
  { unfold sbind, sget, slift, smodify. rewrite Ht. reflexivity. }
  destruct r; constructor; cbn; intros; rewrite ?Hg; try lia; done.
Qed.

Lemma transfer_balance_spec a b amt st :
  0 <= amt <= bt_get (locked_table st) a -> amt <= bt_get (escrow_table st) a ->
  0 <= bt_get (escrow_table st) b ->
  succeeds (transfer_balance a b amt) st (fun _ st' =>
    moved st st' (fun c => - at_addr a amt c) (fun c => at_addr b amt c - at_addr a amt c)
      0 0 0 (- amt)).
Proof.
  intros Hamt He Hb. unfold transfer_balance. rewrite (proj2 (Z.ltb_ge _ _)) by lia.
  destruct (bt_must_subtract_spec (escrow_table st) a amt) as (t1 & Ht1 & Hg1 & Htot1); [lia|].
  destruct (bt_add_spec t1 b amt) as (t2 & Ht2 & Hg2 & Htot2).
  { rewrite Hg1. unfold at_addr. destruct (addr_eqb a b) eqn:Hab; [|lia].
    apply bool_decide_eq_true in Hab as <-. lia. }
  destruct (unlock_balance_spec a amt ClientStorageFee st Hamt) as ([] & st1 & Hu & Hmv).
  eexists tt, _. split.
  { unfold sbind, sget, slift, smodify. rewrite Ht1, Hu, Ht2. reflexivity. }
  destruct Hmv. cbn in *. constructor; cbn; intros; try lia; try congruence.
  - by rewrite <- mv_frame0.
  - rewrite Hg2, Hg1. lia.
Qed.

Lemma slash_balance_spec a amt r st :
  0 <= amt <= bt_get (locked_table st) a -> amt <= bt_get (escrow_table st) a ->
  succeeds (slash_balance a amt r) st (fun _ st' =>
    moved st st' (fun b => - at_addr a amt b) (fun b => - at_addr a amt b) (- amt)
      (- (by_reason r amt).1.1) (- (by_reason r amt).1.2) (- (by_reason r amt).2)).
Proof.
  intros Hamt He. unfold slash_balance. rewrite (proj2 (Z.ltb_ge _ _)) by lia.
  destruct (bt_must_subtract_spec (escrow_table st) a amt) as (t1 & Ht1 & Hg1 & Htot1); [lia|].
  destruct (unlock_balance_spec a amt r (set_escrow_table t1 st)) as ([] & st1 & Hu & Hmv);
    [done|].
  exists tt, st1. split.
  { unfold sbind, sget, slift, smodify. by rewrite Ht1. }
  destruct Hmv. cbn in *. constructor; cbn; intros; try lia; try congruence.
  - by rewrite mv_frame0.
  - rewrite mv_escrow0, Hg1. lia.
Qed.

(** ** Deals and what they owe *)

Lemma addr_eqb_refl a : addr_eqb a a = true.
Proof. by apply bool_decide_eq_true. Qed.

Lemma addr_eqb_sym a b : addr_eqb a b = addr_eqb b a.
Proof. unfold addr_eqb. apply bool_decide_ext. split; congruence. Qed.

Record deal_wf d : Prop := {
  dw_term : 0 <= start_epoch d < end_epoch d /\ end_epoch d <= I64_MAX;
  dw_price : 0 <= storage_price_per_epoch d;
  dw_pc : 0 <= provider_collateral d;
  dw_cc : 0 <= client_collateral d;
  dw_client : exists c, client d = AddrId c;
  dw_provider : exists p, provider d = AddrId p;
}.

(** An activated deal: never marked for termination, settled at most up to
    the present and before its end. *)
Record state_wf (e : Z) d s : Prop := {
  sw_slash : slash_epoch s = EPOCH_UNDEFINED;
  sw_start : 0 <= sector_start_epoch s;
  sw_updated : last_updated_epoch s = EPOCH_UNDEFINED \/
    0 <= last_updated_epoch s <= e /\ last_updated_epoch s < end_epoch d;
}.

(** The epoch up to which the storage fee has been paid, the fee still due. *)
Definition paid_until d (os : option DealState) : Z :=
  match os with
  | None => start_epoch d
  | Some s => Z.max (start_epoch d) (last_updated_epoch s)
  end.
Definition unpaid d os : Z := storage_price_per_epoch d * (end_epoch d - paid_until d os).

(** What a deal locks of the balance of [a]. *)
Definition owed d os a : Z :=
  at_addr (client d) (client_collateral d + unpaid d os) a +
  at_addr (provider d) (provider_collateral d) a.

Lemma paid_until_bounds e d os :
  deal_wf d -> (forall s, os = Some s -> state_wf e d s) ->
  start_epoch d <= paid_until d os < end_epoch d.
Proof.
  intros Hd Hs. destruct (dw_term d Hd). destruct os as [s|]; cbn; [|lia].
  destruct (sw_updated e d s (Hs s eq_refl)) as [->|?]; unfold EPOCH_UNDEFINED; lia.
Qed.

Lemma unpaid_nonneg e d os :
  deal_wf d -> (forall s, os = Some s -> state_wf e d s) -> 0 <= unpaid d os.
Proof.
  intros Hd Hs. pose proof (paid_until_bounds e d os Hd Hs). pose proof (dw_price d Hd).
  unfold unpaid. nia.
Qed.

Lemma owed_nonneg e d os a :
  deal_wf d -> (forall s, os = Some s -> state_wf e d s) -> 0 <= owed d os a.
Proof.
  intros Hd Hs. pose proof (unpaid_nonneg e d os Hd Hs). destruct Hd.
  unfold owed, at_addr. repeat case_match; lia.
Qed.

Lemma total_storage_fee_wf d : deal_wf d -> total_storage_fee d = Ok (unpaid d None).
Proof.
  intros Hd. destruct (dw_term d Hd). unfold total_storage_fee, duration, I64_MAX in *.
  unfold chk_i64. rewrite (proj2 (in_i64_spec _)) by lia. cbn. unfold unpaid, as_u64. cbn.
  by rewrite Z.mod_small by lia.
Qed.

Lemma payment_remaining_wf d ep :
  deal_wf d -> ep <= end_epoch d ->
  deal_get_payment_remaining d ep =
  Ok (storage_price_per_epoch d * (end_epoch d - Z.max ep (start_epoch d))).
Proof.
  intros Hd He. destruct (dw_term d Hd). unfold deal_get_payment_remaining, I64_MAX in *.
  rewrite Z.gtb_ltb, (proj2 (Z.ltb_ge _ _)) by lia.
  unfold chk_i64. rewrite (proj2 (in_i64_spec _)) by lia. cbn.
  rewrite (proj2 (Z.ltb_ge _ _)) by lia. unfold as_u64. by rewrite Z.mod_small by lia.
Qed.

(** The deal's share is locked, and locked funds are in escrow. *)
Definition covers st d os : Prop :=
  (forall a, owed d os a <= bt_get (locked_table st) a) /\
  (forall a, 0 <= bt_get (locked_table st) a <= bt_get (escrow_table st) a).

Ltac addr_cases d :=
  unfold owed, at_addr in *; rewrite ?addr_eqb_refl, ?(addr_eqb_sym (provider d) (client d)) in *;
  destruct (addr_eqb (client d) (provider d)) eqn:?.

(** A deal that timed out unlocks everything it locked; the provider's
    collateral is slashed. *)
Lemma timed_out_spec st d :
  deal_wf d -> covers st d None ->
  succeeds (process_deal_init_timed_out d) st (fun slashed st' =>
    slashed = provider_collateral d /\
    moved st st' (fun a => - owed d None a) (fun a => - at_addr (provider d) (provider_collateral d) a)
      (- provider_collateral d) (- client_collateral d) (- provider_collateral d)
      (- unpaid d None)).
Proof.
  intros Hd [Hl He]. pose proof (unpaid_nonneg 0 d None Hd ltac:(done)) as Hu.
  pose proof (Hl (client d)) as Hc. pose proof (Hl (provider d)) as Hp.
  pose proof (He (client d)). pose proof (He (provider d)). pose proof (dw_cc d Hd).
  pose proof (dw_pc d Hd).
  unfold process_deal_init_timed_out. rewrite total_storage_fee_wf by done.
  unfold collateral_penalty_for_deal_activation_missed, provider_balance_requirement.
  eapply succeeds_lift; [reflexivity|].
  eapply succeeds_bind.
  { apply (unlock_balance_spec (client d) (unpaid d None)). addr_cases d; lia. }
  cbn. intros _ st1 M1.
  eapply succeeds_bind.
  { apply (unlock_balance_spec (client d) (client_collateral d)).
    rewrite (mv_locked _ _ _ _ _ _ _ _ M1). addr_cases d; lia. }
  cbn. intros _ st2 M2. pose proof (moved_trans _ _ _ _ _ _ _ _ _ _ _ _ _ _ _ M1 M2) as M12.
  eapply succeeds_bind.
  { apply (slash_balance_spec (provider d) (provider_collateral d)).
    - rewrite (mv_locked _ _ _ _ _ _ _ _ M12). addr_cases d; lia.
    - rewrite (mv_escrow _ _ _ _ _ _ _ _ M12). addr_cases d; lia. }
  cbn. intros _ st3 M3. pose proof (moved_trans _ _ _ _ _ _ _ _ _ _ _ _ _ _ _ M12 M3) as M13.
  eapply succeeds_bind.
  { apply (unlock_balance_spec (provider d)).
    rewrite (mv_locked _ _ _ _ _ _ _ _ M13). addr_cases d; lia. }
  cbn. intros _ st4 M4. pose proof (moved_trans _ _ _ _ _ _ _ _ _ _ _ _ _ _ _ M13 M4) as M14.
  apply succeeds_ret. split; [done|].
  eapply moved_ext; [exact M14|cbn; intros; unfold owed, at_addr; repeat case_match; lia..].
Qed.

(** The first update of a deal takes its proposal out of the pending set. *)
Definition unpend (c : Cid) s st : State :=
  if last_updated_epoch s =? EPOCH_UNDEFINED
  then set_pending_proposals (pending_proposals st ∖ {[c]}) st else st.

(** The fee a settlement at [e] pays. *)
Definition payment_due (e : Z) d s : Z :=
  storage_price_per_epoch d * Z.max 0 (Z.min (end_epoch d) e - paid_until d (Some s)).

Lemma payment_due_bounds e d s :
  deal_wf d -> state_wf e d s -> 0 <= payment_due e d s <= unpaid d (Some s).
Proof.
  intros Hd Hs. destruct (dw_term d Hd). pose proof (dw_price d Hd).
  pose proof (paid_until_bounds e d (Some s) Hd ltac:(naive_solver)).
  unfold payment_due, unpaid. nia.
Qed.

Lemma unpend_covers c s st d os : covers st d os -> covers (unpend c s st) d os.
Proof. unfold unpend. by destruct (_ =? _). Qed.

(** The expiry of a deal whose fee is paid in full. *)
Lemma expired_spec st d s :
  deal_wf d -> 0 <= sector_start_epoch s ->
  (forall a, at_addr (client d) (client_collateral d) a +
             at_addr (provider d) (provider_collateral d) a <= bt_get (locked_table st) a) ->
  succeeds (process_deal_expired d s) st (fun _ st' =>
    moved st st' (fun a => - (at_addr (client d) (client_collateral d) a +
                              at_addr (provider d) (provider_collateral d) a))
      (fun _ => 0) 0 (- client_collateral d) (- provider_collateral d) 0).
Proof.
  intros Hd Hs Hl. pose proof (Hl (client d)) as Hc. pose proof (Hl (provider d)) as Hp.
  pose proof (dw_cc d Hd). pose proof (dw_pc d Hd). unfold process_deal_expired, EPOCH_UNDEFINED.
  rewrite (proj2 (Z.eqb_neq _ _)) by lia.
  eapply succeeds_bind.
  { apply (unlock_balance_spec (provider d) (provider_collateral d)). addr_cases d; lia. }
  cbn. intros _ st1 M1. eapply succeeds_mono.
  { apply (unlock_balance_spec (client d) (client_collateral d)).
    rewrite (mv_locked _ _ _ _ _ _ _ _ M1). addr_cases d; lia. }
  cbn. intros _ st2 M2. pose proof (moved_trans _ _ _ _ _ _ _ _ _ _ _ _ _ _ _ M1 M2) as M12.
  eapply moved_ext; [exact M12|cbn; intros; lia..].
Qed.

Lemma payment_spec st d pay os :
  0 <= pay <= unpaid d os -> deal_wf d -> covers st d os ->
  succeeds (if pay >? 0 then transfer_balance (client d) (provider d) pay else sret tt) st
    (fun _ st' => moved st st' (fun a => - at_addr (client d) pay a)
       (fun a => at_addr (provider d) pay a - at_addr (client d) pay a) 0 0 0 (- pay)).
Proof.
  intros Hpay Hd [Hl He]. pose proof (Hl (client d)) as Hc.
  pose proof (He (client d)). pose proof (He (provider d)).
  pose proof (dw_cc d Hd). pose proof (dw_pc d Hd). destruct (pay >? 0) eqn:Hp.
  - apply transfer_balance_spec; [addr_cases d; lia|addr_cases d; lia|lia].
  - apply succeeds_ret. bool_prop. assert (pay = 0) as -> by lia.
    eapply moved_ext; [apply moved_refl|..]; try done; intros; unfold at_addr;
      repeat case_match; lia.
Qed.

(** The effect of updating a deal: the fee due is paid; at the deal's end
    everything it locked is unlocked and the deal is to be removed. *)
Lemma process_deal_update_spec st d s c e :
  deal_wf d -> state_wf e d s -> covers st d (Some s) ->
  succeeds (process_deal_update s d c e) st (fun '(slashed, pay, completed, remove) st' =>
    let fin := end_epoch d <=? e in
    slashed = 0 /\ pay = payment_due e d s /\ completed = fin /\ remove = fin /\
    (fin = true -> pay = unpaid d (Some s)) /\
    moved (unpend c s st) st'
      (fun a => if fin then - owed d (Some s) a else - at_addr (client d) pay a)
      (fun a => at_addr (provider d) pay a - at_addr (client d) pay a) 0
      (if fin then - client_collateral d else 0) (if fin then - provider_collateral d else 0)
      (- pay)).
Proof.
  intros Hd Hs Hcov. pose proof (payment_due_bounds e d s Hd Hs) as Hpay.
  pose proof (paid_until_bounds e d (Some s) Hd ltac:(naive_solver)) as Hpu.
  destruct (dw_term d Hd) as [Ht Hmax]. unfold I64_MAX in Hmax.
  unfold process_deal_update. rewrite (sw_slash e d s Hs), Z.eqb_refl. cbn [negb].
  rewrite negb_involutive.
  apply (unpend_covers c s) in Hcov.
  eapply (succeeds_bind _ _ _ (fun _ x => x = unpend c s st)).
  { exists tt, (unpend c s st). split; [|done]. unfold unpend.
    by destruct (last_updated_epoch s =? EPOCH_UNDEFINED). }
  intros _ ? ->. remember (unpend c s st) as st0 eqn:Hst0. clear Hst0 st.
  assert ((if negb (last_updated_epoch s =? EPOCH_UNDEFINED) &&
              (last_updated_epoch s >? start_epoch d)
           then last_updated_epoch s else start_epoch d) = paid_until d (Some s)) as ->.
  { cbn. destruct (sw_updated e d s Hs) as [->|?]; cbn; unfold EPOCH_UNDEFINED in *; [lia|].
    rewrite (proj2 (Z.eqb_neq _ _)) by lia. cbn. destruct (_ >? _) eqn:?; bool_prop; lia. }
  assert (negb (last_updated_epoch s =? EPOCH_UNDEFINED) &&
               (last_updated_epoch s >? e) = false) as ->.
  { destruct (sw_updated e d s Hs) as [->|?]; [done|].
    apply andb_false_intro2. rewrite Z.gtb_ltb. apply Z.ltb_ge. lia. }
  destruct (start_epoch d >? e) eqn:Hse; bool_prop.
  { apply succeeds_ret. rewrite (proj2 (Z.leb_gt _ _)) by lia.
    assert (payment_due e d s = 0) as Hz by (unfold payment_due; rewrite Z.max_l by lia; lia).
    split_and!; try done.
    eapply moved_ext; [apply moved_refl|..]; try done; intros; unfold at_addr;
      repeat case_match; lia. }
  assert (payment_due e d s = storage_price_per_epoch d *
            (Z.min (end_epoch d) e - paid_until d (Some s))) as Hdue.
  { unfold payment_due. destruct (sw_updated e d s Hs) as [Hlu|Hlu];
      rewrite Z.max_r; try done; cbn in *; [rewrite Hlu; unfold EPOCH_UNDEFINED|]; lia. }
  eapply succeeds_skip, succeeds_lift.
  { unfold chk_i64. rewrite (proj2 (in_i64_spec _)) by lia. done. }
  rewrite <- Hdue. eapply succeeds_bind; [by apply (payment_spec st0 d _ (Some s))|].
  intros [] st1 M1. cbn beta in M1. rewrite Z.geb_leb.
  destruct (end_epoch d <=? e) eqn:Hfin; bool_prop; cycle 1.
  { apply succeeds_ret. split_and!; try done. }
  assert (payment_due e d s = unpaid d (Some s)) as Hfull
    by (rewrite Hdue; unfold unpaid; rewrite Z.min_l by lia; done).
  eapply succeeds_bind.
  { apply (expired_spec st1 d s); [done|apply Hs|]. intros a.
    rewrite (mv_locked _ _ _ _ _ _ _ _ M1), Hfull. destruct Hcov as [Hl _].
    specialize (Hl a). unfold owed, at_addr in *. repeat case_match; lia. }
  intros [] st2 M2. cbn beta in M2. apply succeeds_ret. split_and!; try done.
  pose proof (moved_trans _ _ _ _ _ _ _ _ _ _ _ _ _ _ _ M1 M2) as M12.
  eapply moved_ext; [exact M12|..]; cbn; intros; rewrite ?Hfull; try lia.
  unfold owed, at_addr. repeat case_match; lia.
Qed.

(** Terminating a deal at the present epoch: the fee up to now is paid, the
    rest of the fee and the client's collateral are unlocked, the provider's
    collateral is slashed. *)
Lemma process_slashed_deal_spec st d s e :
  deal_wf d -> state_wf e d s -> 0 <= e < end_epoch d -> covers st d (Some s) ->
  succeeds (process_slashed_deal d (mkDealState (sector_number s) (sector_start_epoch s)
              (last_updated_epoch s) e)) st (fun slashed st' =>
    let pay := payment_due e d s in
    slashed = provider_collateral d /\
    moved st st' (fun a => - owed d (Some s) a)
      (fun a => at_addr (provider d) pay a - at_addr (client d) pay a -
                at_addr (provider d) (provider_collateral d) a)
      (- provider_collateral d) (- client_collateral d) (- provider_collateral d)
      (- unpaid d (Some s))).
Proof.
  intros Hd Hs He Hcov. pose proof (payment_due_bounds e d s Hd Hs) as Hpay.
  pose proof (paid_until_bounds e d (Some s) Hd ltac:(naive_solver)) as Hpu.
  destruct (dw_term d Hd) as [Ht Hmax]. unfold I64_MAX in Hmax.
  unfold process_slashed_deal. cbn [last_updated_epoch slash_epoch].
  change (Z.max (start_epoch d) (last_updated_epoch s)) with (paid_until d (Some s)).
  eapply succeeds_lift.
  { unfold chk_i64. rewrite (proj2 (in_i64_spec _)) by lia. done. }
  change (storage_price_per_epoch d * Z.max 0 (Z.min (end_epoch d) e - paid_until d (Some s)))
    with (payment_due e d s).
  eapply succeeds_bind; [by apply (payment_spec st d _ (Some s))|].
  intros [] st1 M1. cbn beta in M1.
  rewrite payment_remaining_wf by (done || lia). eapply succeeds_lift; [reflexivity|].
  set (rem := storage_price_per_epoch d * _).
  assert (rem = unpaid d (Some s) - payment_due e d s) as Hrem.
  { unfold rem, unpaid, payment_due. rewrite Z.min_r by lia.
    rewrite <- Z.mul_sub_distr_l. f_equal.
    destruct (sw_updated e d s Hs) as [Hlu|Hlu]; cbn in *; unfold EPOCH_UNDEFINED in *; lia. }
  destruct Hcov as [Hl He']. pose proof (Hl (client d)) as Hc. pose proof (Hl (provider d)) as Hp.
  pose proof (He' (client d)). pose proof (He' (provider d)).
  pose proof (dw_cc d Hd). pose proof (dw_pc d Hd).
  eapply succeeds_bind.
  { apply (unlock_balance_spec (client d) rem).
    rewrite (mv_locked _ _ _ _ _ _ _ _ M1). addr_cases d; lia. }
  cbn. intros _ st2 M2. pose proof (moved_trans _ _ _ _ _ _ _ _ _ _ _ _ _ _ _ M1 M2) as M12.
  eapply succeeds_bind.
  { apply (unlock_balance_spec (client d) (client_collateral d)).
    rewrite (mv_locked _ _ _ _ _ _ _ _ M12). addr_cases d; lia. }
  cbn. intros _ st3 M3. pose proof (moved_trans _ _ _ _ _ _ _ _ _ _ _ _ _ _ _ M12 M3) as M13.
  eapply succeeds_bind.
  { apply (slash_balance_spec (provider d) (provider_collateral d)).
    - rewrite (mv_locked _ _ _ _ _ _ _ _ M13). addr_cases d; lia.
    - rewrite (mv_escrow _ _ _ _ _ _ _ _ M13). addr_cases d; lia. }
  cbn. intros _ st4 M4. pose proof (moved_trans _ _ _ _ _ _ _ _ _ _ _ _ _ _ _ M13 M4) as M14.
  apply succeeds_ret. split; [done|].
  eapply moved_ext; [exact M14|..]; cbn; intros; unfold owed, at_addr; rewrite ?Hrem;
    repeat case_match; lia.
Qed.

(** ** The accounting invariant *)

(** [ss] are the deal states the balances account for; in a state at rest
    they are the stored ones. *)
Record money_ok (ss : gmap Z DealState) st : Prop := {
  mo_locked : forall a, bt_get (locked_table st) a =
    map_sumk (fun id d => owed d (ss !! id) a) (proposals st);
  mo_cover : forall a, bt_get (locked_table st) a <= bt_get (escrow_table st) a;
  mo_cc : total_client_locked_collateral st =
    map_sumk (fun _ d => client_collateral d) (proposals st);
  mo_pc : total_provider_locked_collateral st =
    map_sumk (fun _ d => provider_collateral d) (proposals st);
  mo_fee : total_client_storage_fee st =
    map_sumk (fun id d => unpaid d (ss !! id)) (proposals st);
}.

(** Deals have fresh identifiers and are well formed, and so are the states of
    the activated ones. *)
Record deals_ok (e : Z) (ss : gmap Z DealState) st : Prop := {
  do_next : 0 <= next_id st <= U64_MAX;
  do_range : forall id d, proposals st !! id = Some d -> 0 <= id < next_id st;
  do_deal : forall id d, proposals st !! id = Some d -> deal_wf d;
  do_state : forall id s, ss !! id = Some s ->
    exists d, proposals st !! id = Some d /\ state_wf e d s;
}.

Lemma deals_ok_state e ss st id d :
  deals_ok e ss st -> proposals st !! id = Some d ->
  forall s, ss !! id = Some s -> state_wf e d s.
Proof. intros Hok Hd s Hs. apply (do_state e ss st Hok) in Hs as (d' & ? & ?). congruence. Qed.

Lemma locked_nonneg e ss st a :
  deals_ok e ss st -> money_ok ss st -> 0 <= bt_get (locked_table st) a.
Proof.
  intros Hok Hm. rewrite (mo_locked ss st Hm). apply map_sumk_nonneg. intros k v Hk.
  eapply owed_nonneg; [by eapply do_deal|by eapply deals_ok_state].
Qed.

Lemma money_covers e ss st id d :
  deals_ok e ss st -> money_ok ss st -> proposals st !! id = Some d -> covers st d (ss !! id).
Proof.
  intros Hok Hm Hd.
  assert (forall a k v, proposals st !! k = Some v -> 0 <= owed v (ss !! k) a) as Hnn.
  { intros a k v Hk. eapply owed_nonneg; [by eapply do_deal|by eapply deals_ok_state]. }
  split; intros a; rewrite ?(mo_locked ss st Hm).
  - apply (map_sumk_lookup_le (fun id d => owed d (ss !! id) a) id d); eauto.
  - split; [apply map_sumk_nonneg; eauto|]. rewrite <- (mo_locked ss st Hm). apply Hm.
Qed.

Lemma strip_proposals st st' : strip st' = strip st -> proposals st' = proposals st.
Proof. intros H. by apply (f_equal proposals) in H. Qed.

(** A deal's state is replaced, and its share of the balances with it. *)
Lemma money_update ss st st' id d s' dl de tot dcc dpc dfee :
  money_ok ss st -> proposals st !! id = Some d ->
  moved st st' dl de tot dcc dpc dfee ->
  (forall a, dl a = owed d (Some s') a - owed d (ss !! id) a) -> (forall a, dl a <= de a) ->
  dcc = 0 -> dpc = 0 -> dfee = unpaid d (Some s') - unpaid d (ss !! id) ->
  money_ok (<[id := s']> ss) st'.
Proof.
  intros [] Hd [] Hdl Hde -> -> ->. apply strip_proposals in mv_frame0.
  assert (forall k, k <> id -> <[id:=s']> ss !! k = ss !! k) as Hss
    by (intros; by apply lookup_insert_ne).
  constructor; intros; rewrite ?mv_frame0.
  - rewrite mv_locked0, mo_locked0, Hdl.
    rewrite (map_sumk_update (fun id d => owed d (ss !! id) a)
               (fun k d => owed d (<[id:=s']> ss !! k) a) id d); [|done|].
    + rewrite lookup_insert_eq. lia.
    + intros k v Hk _. by rewrite Hss.
  - rewrite mv_locked0, mv_escrow0. specialize (mo_cover0 a). specialize (Hde a). lia.
  - lia.
  - lia.
  - rewrite mv_fee0, mo_fee0.
    rewrite (map_sumk_update (fun id d => unpaid d (ss !! id))
               (fun k d => unpaid d (<[id:=s']> ss !! k)) id d); [|done|].
    + rewrite lookup_insert_eq. lia.
    + intros k v Hk _. by rewrite Hss.
Qed.

(** A deal goes, with its share of the balances. *)
Lemma money_remove ss ss' st st' id d dl de tot dcc dpc dfee :
  money_ok ss st -> proposals st !! id = Some d ->
  moved st st' dl de tot dcc dpc dfee ->
  (forall a, dl a = - owed d (ss !! id) a) -> (forall a, dl a <= de a) ->
  dcc = - client_collateral d -> dpc = - provider_collateral d ->
  dfee = - unpaid d (ss !! id) ->
  (forall k, k <> id -> ss' !! k = ss !! k) ->
  money_ok ss' (set_proposals (delete id (proposals st)) st').
Proof.
  intros [] Hd [] Hdl Hde -> -> -> Hss.
  assert (forall f g : Z -> DealProposal -> Z, (forall k v, k <> id -> f k v = g k v) ->
    map_sumk g (delete id (proposals st)) = map_sumk f (proposals st) - f id d) as Hsum.
  { intros f g Hfg. rewrite (map_sumk_delete f id d _ Hd).
    rewrite (map_sumk_ext g f (delete id (proposals st))); [lia|].
    intros k v [Hk _]%lookup_delete_Some. symmetry. apply Hfg. done. }
  constructor; intros; cbn.
  - rewrite mv_locked0, mo_locked0, Hdl.
    rewrite (Hsum (fun id d => owed d (ss !! id) a)); [lia|]. intros k v Hk. by rewrite Hss.
  - rewrite mv_locked0, mv_escrow0. specialize (mo_cover0 a). specialize (Hde a). lia.
  - rewrite mv_cc0, mo_cc0. rewrite (Hsum (fun _ d => client_collateral d)); [lia|done].
  - rewrite mv_pc0, mo_pc0. rewrite (Hsum (fun _ d => provider_collateral d)); [lia|done].
  - rewrite mv_fee0, mo_fee0. rewrite (Hsum (fun id d => unpaid d (ss !! id))); [lia|].
    intros k v Hk. by rewrite Hss.
Qed.

(** A new deal comes, with the funds it locks. *)
Lemma money_add ss st st' id d dl de tot dcc dpc dfee :
  money_ok ss st -> proposals st !! id = None -> ss !! id = None ->
  moved st st' dl de tot dcc dpc dfee ->
  (forall a, dl a = owed d None a) ->
  (forall a, bt_get (locked_table st') a <= bt_get (escrow_table st') a) ->
  dcc = client_collateral d -> dpc = provider_collateral d -> dfee = unpaid d None ->
  money_ok ss (set_proposals (<[id := d]> (proposals st)) st').
Proof.
  intros [] Hd Hs [] Hdl Hcov -> -> ->.
  constructor; intros; cbn; rewrite ?map_sumk_insert_new by done; rewrite ?Hs.
  - rewrite mv_locked0, mo_locked0, Hdl. lia.
  - apply Hcov.
  - lia.
  - lia.
  - lia.
Qed.
