(* ===== verification/MarketWf.v ===== *)
(** * Storage market: the invariant of the actor's state

    Well-formedness of deals, accounting, pending proposals, the update
    schedule and the deals of each sector, for the state at rest and for the
    states inside the settlement and cron loops, and the effect of one deal's
    transition on it. *)

From stdpp Require Import sorting.
From S2P Require Import Prelude Runtime MarketState Market MarketMaps MarketInv.

Implicit Types (st : State) (d : DealProposal) (s : DealState) (ss : gmap Z DealState).

(** Never settled: the deal's proposal may still be pending. *)
Definition unsettled ss (id : Z) : Prop :=
  forall s, ss !! id = Some s -> last_updated_epoch s = EPOCH_UNDEFINED.

Section invariant.
(** The CID of a proposal. *)
Context (cid : DealProposal -> option Cid).
Context (cid_inj : forall d d' c, cid d = Some c -> cid d' = Some c -> d = d').

(** Every scheduled deal that was never settled is in the pending set; no two
    such deals have the same proposal; those no longer scheduled are active
    and their start has passed ([lc] bounds the epochs cron went through). *)
Record pending_ok ss (sch : Z -> Z -> Prop) (lc : Z) st : Prop := {
  pe_cid : forall id d, proposals st !! id = Some d -> is_Some (cid d);
  pe_claim : forall id d c ep, proposals st !! id = Some d -> unsettled ss id -> sch ep id ->
    cid d = Some c -> c ∈ pending_proposals st;
  pe_unique : forall id id' d, proposals st !! id = Some d -> proposals st !! id' = Some d ->
    unsettled ss id -> unsettled ss id' -> id = id';
  pe_passed : forall id d, proposals st !! id = Some d -> unsettled ss id ->
    (exists ep, sch ep id) \/ is_Some (ss !! id) /\ start_epoch d <= lc;
}.

Record sched_ok (sch : Z -> Z -> Prop) (lo : Z) st : Prop := {
  sc_after : forall ep id, sch ep id -> lo < ep;
  sc_start : forall ep id d, sch ep id -> proposals st !! id = Some d -> start_epoch d <= ep;
  sc_once : forall ep ep' id, sch ep id -> sch ep' id -> ep = ep';
  sc_range : forall ep id, sch ep id -> 0 <= id < next_id st;
}.

(** [rm] are the deals that the loop still has to take out of their sectors. *)
Record sectors_ok ss (rm : Z -> Z -> Z -> Prop) st : Prop := {
  se_deal : forall p sec id, id ∈ sector_list st p sec -> rm p sec id \/
    exists d s, proposals st !! id = Some d /\ provider d = AddrId p /\
      ss !! id = Some s /\ sector_number s = sec;
  se_nodup : forall p sec, NoDup (sector_list st p sec);
}.

Record mid (e : Z) ss (sch : Z -> Z -> Prop) (lc lo : Z) (rm : Z -> Z -> Z -> Prop) st : Prop := {
  mi_deals : deals_ok e ss st;
  mi_money : money_ok ss st;
  mi_pending : pending_ok ss sch lc st;
  mi_sched : sched_ok sch lo st;
  mi_sectors : sectors_ok ss rm st;
}.

(** The invariant of the state at rest at epoch [e]. *)
Record Inv (e : Z) st : Prop := {
  in_cron : -1 <= last_cron st <= e;
  in_mid : mid e (states st) (in_ops st) (last_cron st) (last_cron st) (fun _ _ _ => False) st;
}.

Record frame st st' : Prop := {
  fr_next : next_id st' = next_id st;
  fr_ops : deal_ops_by_epoch st' = deal_ops_by_epoch st;
  fr_cron : last_cron st' = last_cron st;
  fr_sectors : provider_sectors st' = provider_sectors st;
}.

#[local] Instance frame_refl : Reflexive frame.
Proof. by constructor. Qed.
#[local] Instance frame_trans : Transitive frame.
Proof. intros ??? [] []. constructor; congruence. Qed.

Lemma strip_frame st st' : strip st' = strip st -> frame st st'.
Proof.
  intros H. constructor.
  - by apply (f_equal next_id) in H.
  - by apply (f_equal deal_ops_by_epoch) in H.
  - by apply (f_equal last_cron) in H.
  - by apply (f_equal provider_sectors) in H.
Qed.

Lemma strip_states st st' : strip st' = strip st -> states st' = states st.
Proof. intros H. by apply (f_equal states) in H. Qed.
Lemma strip_pending st st' : strip st' = strip st -> pending_proposals st' = pending_proposals st.
Proof. intros H. by apply (f_equal pending_proposals) in H. Qed.

Lemma frame_in_ops st st' ep id : frame st st' -> in_ops st' ep id <-> in_ops st ep id.
Proof. intros []. unfold in_ops. by rewrite fr_ops0. Qed.

Lemma frame_sector_list st st' p sec : frame st st' -> sector_list st' p sec = sector_list st p sec.
Proof. intros []. unfold sector_list. by rewrite fr_sectors0. Qed.

(** *** Changing one deal *)

(** Removing a deal, and at most its proposal from the pending set. *)
Lemma pending_remove ss ss' sch lc st st' id d :
  pending_ok ss sch lc st -> proposals st !! id = Some d ->
  proposals st' = delete id (proposals st) -> (forall k, k <> id -> ss' !! k = ss !! k) ->
  (forall c, c ∈ pending_proposals st -> cid d <> Some c \/ ~ unsettled ss id ->
     c ∈ pending_proposals st') ->
  pending_ok ss' sch lc st'.
Proof.
  intros [] Hd Hp Hss Hpe.
  assert (forall k d', proposals st' !! k = Some d' -> k <> id /\ proposals st !! k = Some d')
    as Hk. { intros k d'. rewrite Hp. intros [? ?]%lookup_delete_Some. auto. }
  assert (forall k, k <> id -> unsettled ss' k <-> unsettled ss k) as Hu.
  { intros k Hne. unfold unsettled. by rewrite (Hss k Hne). }
  constructor.
  - intros k d' [? ?]%Hk. eauto.
  - intros k d' c ep [Hne Hk']%Hk Huk Hs Hc. apply Hu in Huk; [|done].
    apply Hpe; [by eapply pe_claim0|]. destruct (decide (cid d = Some c)) as [Hdc|]; [|by left].
    right. intros Hui. assert (d' = d) as -> by (eapply cid_inj; done). eauto.
  - intros k k' d' [? ?]%Hk [? ?]%Hk ?%Hu ?%Hu; eauto.
  - intros k d' [Hne Hk']%Hk Huk. rewrite Hss by done. apply pe_passed0; [done|by apply Hu].
Qed.

(** Settling a deal: it leaves the deals that claim a pending proposal. *)
Lemma pending_settle ss sch lc st st' id d s' :
  pending_ok ss sch lc st -> proposals st !! id = Some d -> proposals st' = proposals st ->
  last_updated_epoch s' <> EPOCH_UNDEFINED ->
  (forall c, c ∈ pending_proposals st -> cid d <> Some c \/ ~ unsettled ss id ->
     c ∈ pending_proposals st') ->
  pending_ok (<[id := s']> ss) sch lc st'.
Proof.
  intros [] Hd Hp Hs' Hpe.
  assert (forall k, unsettled (<[id := s']> ss) k -> k <> id /\ unsettled ss k) as Hu.
  { intros k Huk. destruct (decide (k = id)) as [->|Hne].
    - specialize (Huk s'). rewrite lookup_insert_eq in Huk. naive_solver.
    - split; [done|]. unfold unsettled in *. by rewrite lookup_insert_ne in Huk. }
  constructor; rewrite ?Hp.
  - done.
  - intros k d' c ep Hk [Hne Huk]%Hu Hs Hc. apply Hpe; [by eapply pe_claim0|].
    destruct (decide (cid d = Some c)) as [Hdc|]; [|by left].
    right. intros Hui. assert (d' = d) as -> by (eapply cid_inj; done). eauto.
  - intros k k' d' ? ? [? ?]%Hu [? ?]%Hu; eauto.
  - intros k d' Hk [Hne Huk]%Hu. rewrite lookup_insert_ne by done. eauto.
Qed.

Lemma sched_sub sch sch' lo lo' st st' :
  sched_ok sch lo st -> (forall ep id, sch' ep id -> sch ep id /\ lo' < ep) ->
  (forall id d, proposals st' !! id = Some d -> proposals st !! id = Some d) ->
  next_id st' = next_id st -> sched_ok sch' lo' st'.
Proof.
  intros [] Hsub Hp Hn. constructor.
  - by intros ep id [_ ?]%Hsub.
  - intros ep id d [H _]%Hsub Hd. eauto.
  - intros ep ep' id [? _]%Hsub [? _]%Hsub. eauto.
  - intros ep id [? _]%Hsub. rewrite Hn. eauto.
Qed.

Lemma sectors_change ss ss' (rm rm' : Z -> Z -> Z -> Prop) st st' id :
  sectors_ok ss rm st -> provider_sectors st' = provider_sectors st ->
  (forall k, k <> id -> ss' !! k = ss !! k) ->
  (forall k, k <> id -> proposals st' !! k = proposals st !! k) ->
  (forall p sec k, rm p sec k -> rm' p sec k) ->
  (forall p d s, proposals st !! id = Some d -> provider d = AddrId p -> ss !! id = Some s ->
     rm' p (sector_number s) id \/
     exists d' s', proposals st' !! id = Some d' /\ provider d' = AddrId p /\
       ss' !! id = Some s' /\ sector_number s' = sector_number s) ->
  sectors_ok ss' rm' st'.
Proof.
  intros [] Hps Hss Hp Hrm Hid.
  assert (forall p sec, sector_list st' p sec = sector_list st p sec) as Hsl
    by (intros; unfold sector_list; by rewrite Hps).
  constructor; intros p sec; rewrite Hsl; [|done].
  intros k [?|(d & s & Hd & Hpr & Hs & <-)]%se_deal0; [by left; apply Hrm|].
  destruct (decide (k = id)) as [->|Hne]; [by eapply Hid|].
  right. exists d, s. rewrite Hp, Hss by done. done.
Qed.

(** *** Transitions of one deal *)

(** A published deal that was not activated in time. *)
Lemma timeout_step e ss sch lc lo rm st id d c :
  mid e ss sch lc lo rm st -> proposals st !! id = Some d -> cid d = Some c ->
  ss !! id = None -> states st !! id = None -> start_epoch d <= e ->
  succeeds (get_active_deal_or_process_timeout e id d c) st (fun r st' =>
    r = ProposalExpired (provider_collateral d) /\ mid e ss sch lc lo rm st' /\ frame st st' /\
    states st' = states st /\
    bt_total (escrow_table st') = bt_total (escrow_table st) - provider_collateral d /\
    proposals st' = delete id (proposals st)).
Proof.
  intros [Hdl Hm Hpe Hsc Hse] Hd Hc Hss Hst He.
  pose proof (do_deal e ss st Hdl id d Hd) as Hwf.
  pose proof (money_covers e ss st id d Hdl Hm Hd) as Hcov. rewrite Hss in Hcov.
  assert (unsettled ss id) as Hu by (intros s; rewrite Hss; discriminate).
  assert (c ∈ pending_proposals st) as Hin.
  { destruct (pe_passed ss sch lc st Hpe id d Hd Hu) as [[ep Hep]|[[s Hs] _]]; [|congruence].
    by eapply pe_claim. }
  unfold get_active_deal_or_process_timeout, find_deal_state. apply succeeds_get. rewrite Hst.
  rewrite (proj2 (Z.ltb_ge _ _)) by lia.
  eapply succeeds_bind; [by apply timed_out_spec|]. intros slashed st1 [-> M].
  pose proof (strip_frame _ _ (mv_frame _ _ _ _ _ _ _ _ M)) as Hfr.
  pose proof (strip_proposals _ _ (mv_frame _ _ _ _ _ _ _ _ M)) as Hprops.
  pose proof (strip_pending _ _ (mv_frame _ _ _ _ _ _ _ _ M)) as Hpend.
  pose proof (strip_states _ _ (mv_frame _ _ _ _ _ _ _ _ M)) as Hstates.
  unfold remove_proposal. apply succeeds_assoc, succeeds_get, succeeds_assoc, succeeds_put.
  apply succeeds_skip. rewrite Hprops, Hd. cbn [bool_decide decide_rel].
  rewrite bool_decide_false by done.
  unfold remove_pending_deal. apply succeeds_assoc, succeeds_get, succeeds_assoc, succeeds_put.
  apply succeeds_skip. cbn [pending_proposals set_proposals]. unfold has_pending_deal. cbn.
  rewrite Hpend, bool_decide_true by done. eapply succeeds_lift; [reflexivity|].
  unfold remove_pending_deal_allocation_id.
  apply succeeds_assoc, succeeds_get, succeeds_assoc, succeeds_put, succeeds_skip, succeeds_ret.
  set (st' := set_pending_deal_allocation_ids _ _).
  assert (frame st st') as Hfr' by (destruct Hfr; by constructor).
  assert (proposals st' = delete id (proposals st)) as Hp' by done.
  split_and!; [done| |done|done|exact (mv_total _ _ _ _ _ _ _ _ M)|done]. constructor.
  - destruct Hdl. constructor; rewrite ?Hp', ?(fr_next _ _ Hfr').
    + done.
    + intros k v [? ?]%lookup_delete_Some. eauto.
    + intros k v [? ?]%lookup_delete_Some. eauto.
    + intros k s Hk. destruct (decide (k = id)) as [->|Hne]; [congruence|].
      rewrite lookup_delete_ne by done. eauto.
  - assert (money_ok ss (set_proposals (delete id (proposals st)) st1)) as [].
    { eapply (money_remove ss ss st st1 id d); rewrite ?Hss; try done.
      intros a. cbn. pose proof (unpaid_nonneg e d None Hwf ltac:(done)).
      pose proof (dw_cc d Hwf). unfold owed, at_addr. repeat case_match; lia. }
    by constructor.
  - eapply (pending_remove ss ss); [done|exact Hd|done|done|].
    intros c' Hc' Hor. cbn. rewrite ?Hpend. set_solver.
  - eapply sched_sub; [done| | |apply Hfr'].
    + intros ep k Hk. split; [done|]. by eapply sc_after.
    + intros k v. rewrite Hp'. by intros [_ ?]%lookup_delete_Some.
  - eapply (sectors_change ss ss rm rm st st' id); [done|apply Hfr'|done| |done|].
    + intros k Hk. rewrite Hp'. by apply lookup_delete_ne.
    + intros p d' s _ _ Hs. congruence.
Qed.

Lemma unpend_proposals c s st : proposals (unpend c s st) = proposals st.
Proof. unfold unpend. by destruct (_ =? _). Qed.
Lemma unpend_money ss c s st : money_ok ss st -> money_ok ss (unpend c s st).
Proof. intros []. unfold unpend. by destruct (_ =? _). Qed.
Lemma unpend_frame c s st st' : frame (unpend c s st) st' -> frame st st'.
Proof. intros []. unfold unpend in *. destruct (_ =? _); by constructor. Qed.

Lemma unpend_pending ss c s st d id c' :
  ss !! id = Some s -> cid d = Some c -> c' ∈ pending_proposals st ->
  cid d <> Some c' \/ ~ unsettled ss id -> c' ∈ pending_proposals (unpend c s st).
Proof.
  intros Hs Hc Hc' Hor. unfold unpend.
  destruct (last_updated_epoch s =? EPOCH_UNDEFINED) eqn:Hlu; [|done].
  cbn. apply Z.eqb_eq in Hlu. destruct Hor as [Hor|Hor]; [set_solver|].
  destruct Hor. intros s' Hs'. congruence.
Qed.

(** The state without deal [id]. *)
Definition drop_deal (id : Z) st : State :=
  set_proposals (delete id (proposals st)) (set_states (delete id (states st)) st).

Lemma remove_completed_deal_spec id st d s :
  proposals st !! id = Some d -> states st !! id = Some s ->
  remove_completed_deal id st = (Ok tt, drop_deal id st).
Proof.
  intros Hd Hs. unfold remove_completed_deal, remove_deal_state, remove_proposal, drop_deal.
  unfold sbind, sget, sput, sret, sfail. cbn. rewrite Hs, bool_decide_false by done. cbn.
  by rewrite Hd, bool_decide_false by done.
Qed.

(** A deal that is removed from proposals and states. *)
Lemma drop_step e ss sch lc lo (rm : Z -> Z -> Z -> Prop) st st' id d s c p de tot :
  mid e ss sch lc lo rm st -> proposals st !! id = Some d -> ss !! id = Some s ->
  cid d = Some c -> provider d = AddrId p ->
  moved (unpend c s st) st' (fun a => - owed d (Some s) a) de tot (- client_collateral d)
    (- provider_collateral d) (- unpaid d (Some s)) ->
  (forall a, - owed d (Some s) a <= de a) ->
  mid e (delete id ss) sch lc lo
    (fun p' sec' id' => rm p' sec' id' \/ (p', sec', id') = (p, sector_number s, id))
    (drop_deal id st').
Proof.
  intros [Hdl Hm Hpe Hsc Hse] Hd Hs Hc Hp M Hde.
  assert (frame st st') as Hfr.
  { apply mv_frame, strip_frame, unpend_frame in M. done. }
  assert (proposals st' = proposals st) as Hprops.
  { apply mv_frame, strip_proposals in M. by rewrite M, unpend_proposals. }
  assert (proposals (drop_deal id st') = delete id (proposals st)) as Hp'
    by (cbn; by rewrite Hprops).
  assert (next_id (drop_deal id st') = next_id st) as Hn by apply Hfr.
  constructor.
  - destruct Hdl. constructor; rewrite ?Hp', ?Hn.
    + done.
    + intros k v [? ?]%lookup_delete_Some. eauto.
    + intros k v [? ?]%lookup_delete_Some. eauto.
    + intros k v [? Hk]%lookup_delete_Some. rewrite lookup_delete_ne by done. eauto.
  - assert (money_ok (delete id ss) (set_proposals (delete id (proposals st)) st')) as [].
    { rewrite <- (unpend_proposals c s st).
      eapply (money_remove ss _ (unpend c s st) st' id d);
        rewrite ?Hs, ?unpend_proposals; try done.
      - by apply unpend_money.
      - intros k Hk. by apply lookup_delete_ne. }
    constructor; cbn in *; rewrite ?Hprops; done.
  - eapply (pending_remove ss); [exact Hpe|exact Hd|done|intros; by apply lookup_delete_ne|].
    intros c' Hc' Hor. cbn. rewrite (strip_pending _ _ (mv_frame _ _ _ _ _ _ _ _ M)).
    by eapply unpend_pending.
  - eapply sched_sub; [done| | |done].
    + intros ep k Hk. split; [done|]. by eapply sc_after.
    + intros k v. rewrite Hp'. by intros [_ ?]%lookup_delete_Some.
  - eapply (sectors_change ss _ rm _ st _ id); [done|apply Hfr|..].
    + intros. by apply lookup_delete_ne.
    + intros k Hk. rewrite Hp'. by apply lookup_delete_ne.
    + auto.
    + intros p' d' s' Hd' Hpr Hs'. left. right. congruence.
Qed.

Lemma unpaid_settled e d s :
  deal_wf d -> state_wf e d s -> 0 <= e < end_epoch d ->
  unpaid d (Some (set_last_updated e s)) = unpaid d (Some s) - payment_due e d s.
Proof.
  intros Hd Hs He. unfold unpaid, payment_due. rewrite Z.min_r by lia.
  rewrite <- Z.mul_sub_distr_l. f_equal. pose proof (dw_term d Hd).
  destruct (sw_updated e d s Hs) as [Hlu|Hlu]; cbn in *; unfold EPOCH_UNDEFINED in *; lia.
Qed.

(** Updating an active deal. *)
Lemma update_step e ss sch lc lo (rm : Z -> Z -> Z -> Prop) st id d s c p :
  mid e ss sch lc lo rm st -> 0 <= e -> proposals st !! id = Some d -> ss !! id = Some s ->
  cid d = Some c -> provider d = AddrId p ->
  succeeds (process_deal_update s d c e) st (fun '(slashed, pay, completed, remove) st' =>
    slashed = 0 /\ pay = payment_due e d s /\ completed = (end_epoch d <=? e) /\
    remove = (end_epoch d <=? e) /\ frame st st' /\ states st' = states st /\
    proposals st' = proposals st /\
    bt_total (escrow_table st') = bt_total (escrow_table st) /\
    if remove then
      mid e (delete id ss) sch lc lo
        (fun p' sec' id' => rm p' sec' id' \/ (p', sec', id') = (p, sector_number s, id))
        (drop_deal id st')
    else mid e (<[id := set_last_updated e s]> ss) sch lc lo rm st').
Proof.
  intros Hmid He Hd Hs Hc Hp. pose proof Hmid as [Hdl Hm Hpe Hsc Hse].
  pose proof (do_deal e ss st Hdl id d Hd) as Hwf.
  pose proof (deals_ok_state e ss st id d Hdl Hd s Hs) as Hsw.
  pose proof (money_covers e ss st id d Hdl Hm Hd) as Hcov. rewrite Hs in Hcov.
  pose proof (payment_due_bounds e d s Hwf Hsw) as Hb.
  pose proof (dw_cc d Hwf) as Hcc. pose proof (dw_pc d Hwf) as Hpc.
  eapply succeeds_mono; [by apply (process_deal_update_spec st d s c e)|].
  intros [[[slashed pay] completed] remove] st' (-> & Hpay & -> & -> & Hfull & M).
  assert (frame st st') as Hfr.
  { apply mv_frame, strip_frame, unpend_frame in M. done. }
  assert (proposals st' = proposals st /\ states st' = states st) as [Hprops Hstates].
  { apply mv_frame in M. split; [apply strip_proposals in M|apply strip_states in M];
      rewrite M; unfold unpend; by destruct (_ =? _). }
  split_and!; try done.
  { apply mv_total in M. rewrite M. unfold unpend. destruct (_ =? _); cbn; lia. }
  destruct (end_epoch d <=? e) eqn:Hfin; cbn in M.
  { eapply drop_step; try done.
    - rewrite <- Hfull; done.
    - intros a. rewrite Hfull by done. unfold owed, at_addr. repeat case_match; lia. }
  bool_prop. constructor.
  - destruct Hdl. constructor; rewrite ?Hprops, ?(fr_next _ _ Hfr); try done.
    intros k s'. intros [[<- <-]|[Hne Hk]]%lookup_insert_Some; [|eauto].
    exists d. split; [done|]. destruct Hsw. constructor; cbn; try done. right. lia.
  - eapply (money_update ss (unpend c s st) st' id d); try exact M; rewrite ?Hs; try done.
    + by apply unpend_money.
    + by rewrite unpend_proposals.
    + intros a. cbn. unfold owed, at_addr. rewrite unpaid_settled by done.
      repeat case_match; lia.
    + intros a. cbn. rewrite Hpay. unfold at_addr. repeat case_match; lia.
    + rewrite unpaid_settled by done. lia.
  - eapply (pending_settle ss sch lc st st' id d); try done.
    + cbn. unfold EPOCH_UNDEFINED. lia.
    + intros c' Hc' Hor. rewrite (strip_pending _ _ (mv_frame _ _ _ _ _ _ _ _ M)).
      by eapply unpend_pending.
  - eapply sched_sub; [done| | |apply Hfr].
    + intros ep k Hk. split; [done|]. by eapply sc_after.
    + by rewrite Hprops.
  - eapply (sectors_change ss _ rm rm st st' id); [done|apply Hfr|..]; try done.
    + intros. by apply lookup_insert_ne.
    + intros. by rewrite Hprops.
    + intros p' d' s' Hd' Hpr Hs'. right. exists d', (set_last_updated e s).
      rewrite Hprops, lookup_insert_eq. split_and!; try done. cbn. congruence.
Qed.

(** Cron passes a deal that is active and was never settled: the deal is not
    scheduled again and its proposal is no longer pending. *)
Lemma pass_step e ss sch lc lo rm st id d c ep :
  mid e ss sch lc lo rm st -> proposals st !! id = Some d -> is_Some (ss !! id) ->
  unsettled ss id -> cid d = Some c -> sch ep id -> start_epoch d <= lc ->
  c ∈ pending_proposals st /\
  mid e ss (fun ep' k => sch ep' k /\ k <> id) lc lo rm
    (set_pending_proposals (pending_proposals st ∖ {[c]}) st).
Proof.
  intros [Hdl Hm Hpe Hsc Hse] Hd Hs Hu Hc Hsch Hst.
  split; [by eapply pe_claim|]. constructor.
  - by destruct Hdl.
  - by destruct Hm.
  - destruct Hpe. constructor; cbn; try done.
    + intros k d' c' ep' Hk Huk [Hsk Hne] Hc'. apply elem_of_difference.
      split; [by eapply pe_claim0|]. intros ->%elem_of_singleton. apply Hne.
      assert (d' = d) as -> by (eapply cid_inj; done). eauto.
    + intros k d' Hk Huk. destruct (decide (k = id)) as [->|Hne].
      * right. split; [done|]. congruence.
      * destruct (pe_passed0 k d' Hk Huk) as [[ep' ?]|?]; [left|right]; eauto.
  - eapply sched_sub; [done| |done|done]. intros ep' k [? _]. split; [done|]. by eapply sc_after.
  - by destruct Hse.
Qed.

(** Activating a deal. *)
Lemma activate_step e ss sch lc lo rm st id d s :
  mid e ss sch lc lo rm st -> proposals st !! id = Some d -> ss !! id = None ->
  slash_epoch s = EPOCH_UNDEFINED -> 0 <= sector_start_epoch s ->
  last_updated_epoch s = EPOCH_UNDEFINED ->
  mid e (<[id := s]> ss) sch lc lo rm st.
Proof.
  intros [Hdl Hm Hpe Hsc Hse] Hd Hn Hsl Hss Hlu.
  pose proof (do_deal e ss st Hdl id d Hd) as Hwf.
  assert (forall k, unsettled (<[id := s]> ss) k <-> unsettled ss k) as Hu.
  { intros k. unfold unsettled. destruct (decide (k = id)) as [->|Hne].
    - rewrite lookup_insert_eq, Hn. naive_solver.
    - by rewrite lookup_insert_ne. }
  assert (unpaid d (Some s) = unpaid d None) as Hup.
  { unfold unpaid. cbn. rewrite Hlu. do 2 f_equal. pose proof (dw_term d Hwf).
    unfold EPOCH_UNDEFINED. lia. }
  constructor; [| | |done|].
  - destruct Hdl. constructor; try done.
    intros k s' [[<- <-]|[_ Hk]]%lookup_insert_Some; [|eauto].
    exists d. split; [done|]. constructor; auto.
  - eapply (money_update ss st st id d); [done|done|apply moved_refl|..]; rewrite ?Hn; try done.
    + intros a. unfold owed. rewrite Hup. lia.
    + lia.
  - destruct Hpe. constructor; try done.
    + intros k d' c ep Hk Huk. eapply pe_claim0; [done|by apply Hu].
    + intros k k' d' Hk Hk' ?%Hu ?%Hu. eauto.
    + intros k d' Hk Huk%Hu. destruct (pe_passed0 k d' Hk Huk) as [?|[? ?]]; [by left|right].
      split; [|done]. destruct (decide (k = id)) as [->|Hne]; [|by rewrite lookup_insert_ne].
      by rewrite lookup_insert_eq.
  - destruct Hse. constructor; [|done]. intros p sec k [?|(d' & s' & ? & ? & Hk & ?)]%se_deal0;
      [by left|]. right. exists d', s'. rewrite lookup_insert_ne by congruence. done.
Qed.

(** Publishing a deal. *)
Lemma publish_step e ss sch lc lo rm st st' d c ep :
  let id := next_id st in
  mid e ss sch lc lo rm st -> money_ok ss st' ->
  deal_wf d -> cid d = Some c -> c ∉ pending_proposals st ->
  lc < start_epoch d -> start_epoch d <= ep -> lo < ep ->
  proposals st' = <[id := d]> (proposals st) -> next_id st' = id + 1 -> id + 1 <= U64_MAX ->
  pending_proposals st' = {[c]} ∪ pending_proposals st ->
  provider_sectors st' = provider_sectors st ->
  mid e ss (fun ep' k => sch ep' k \/ ep' = ep /\ k = id) lc lo rm st'.
Proof.
  intros id [Hdl Hm Hpe Hsc Hse] Hm' Hwf Hc Hfresh Hlc Hep Hlo Hp Hn Hmax Hpend Hps.
  assert (id = next_id st) as Hid by done. clearbody id.
  assert (proposals st !! id = None) as Hnone.
  { destruct (proposals st !! id) eqn:Hx; [|done]. apply (do_range e ss st Hdl) in Hx. lia. }
  assert (ss !! id = None) as Hsn.
  { destruct (ss !! id) eqn:Hx; [|done]. apply (do_state e ss st Hdl) in Hx as (? & ? & _).
    congruence. }
  assert (forall ep' k, sch ep' k -> k <> id) as Hne.
  { intros ep' k Hk. apply (sc_range sch lo st Hsc) in Hk. lia. }
  assert (forall k, proposals st !! k = Some d -> ~ unsettled ss k) as Hdup.
  { intros k Hk Huk. destruct (pe_passed ss sch lc st Hpe k d Hk Huk) as [[ep' Hk']|[_ ?]]; [|lia].
    apply Hfresh. by eapply pe_claim. }
  constructor; [| done| | |].
  - pose proof (do_next e ss st Hdl) as Hnn.
    constructor; rewrite ?Hp, ?Hn.
    + lia.
    + intros k v [[<- <-]|[_ Hk]]%lookup_insert_Some; [lia|].
      apply (do_range e ss st Hdl) in Hk.  lia.
    + intros k v [[<- <-]|[_ Hk]]%lookup_insert_Some; [done|]. by eapply do_deal.
    + intros k s Hk. rewrite lookup_insert_ne by congruence. by eapply do_state.
  - destruct Hpe. constructor; rewrite ?Hp, ?Hpend.
    + intros k v [[<- <-]|[_ Hk]]%lookup_insert_Some; eauto.
    + intros k v c' ep' [[<- <-]|[_ Hk]]%lookup_insert_Some Huk Hsk Hc'; [set_solver|].
      apply elem_of_union_r. destruct Hsk as [Hsk|[_ ->]]; [by eapply pe_claim0|].
      congruence.
    + intros k k' v [[<- <-]|[_ Hk]]%lookup_insert_Some [[<- Hv]|[_ Hk']]%lookup_insert_Some;
        subst; try done; intros Huk Huk'; [by destruct (Hdup k' Hk')|by destruct (Hdup k Hk)|].
      eauto.
    + intros k v [[<- <-]|[_ Hk]]%lookup_insert_Some Huk; [left; eauto|].
      destruct (pe_passed0 k v Hk Huk) as [[ep' ?]|?]; [left|right]; eauto.
  - destruct Hsc. constructor; rewrite ?Hp, ?Hn.
    + intros ep' k [?|[-> _]]; eauto.
    + intros ep' k v Hk Hv. destruct Hk as [Hk|[-> ->]].
      * rewrite lookup_insert_ne in Hv by (intros <-; by eapply Hne). eauto.
      * rewrite lookup_insert_eq in Hv. by simplify_eq.
    + intros ep1 ep2 k [H1|[-> Hk1]] [H2|[-> Hk2]]; [by eapply sc_once0| | |done]; exfalso;
        [by apply (Hne _ _ H1)|by apply (Hne _ _ H2)].
    + intros ep' k [Hk|[_ ->]]; [apply sc_range0 in Hk; lia|].
      pose proof (do_next e ss st Hdl). lia.
  - eapply (sectors_change ss ss rm rm st st' id); try done; [|congruence].
    intros k Hk. rewrite Hp. by apply lookup_insert_ne.
Qed.

(** Forgetting removals that are done. *)
Lemma mid_forget e ss sch lc lo (rm rm' : Z -> Z -> Z -> Prop) st :
  mid e ss sch lc lo rm st ->
  (forall p sec id, rm p sec id -> id ∈ sector_list st p sec -> rm' p sec id) ->
  mid e ss sch lc lo rm' st.
Proof.
  intros [Hdl Hm Hpe Hsc [Hde Hnd]] Hrm. constructor; try done. constructor; [|done].
  intros p sec id Hin. destruct (Hde p sec id Hin) as [?|?]; eauto.
Qed.

(** The schedule may be replaced by an equivalent one. *)
Lemma mid_sched e ss sch sch' lc lo rm st :
  mid e ss sch lc lo rm st -> (forall ep id, sch ep id <-> sch' ep id) ->
  mid e ss sch' lc lo rm st.
Proof.
  intros [Hdl Hm [] [] Hse] Hs. constructor; try done.
  - constructor; try done.
    + intros id d c ep ?? ?%Hs. eauto.
    + intros id d Hd Hu. destruct (pe_passed0 id d Hd Hu) as [[ep ?%Hs]|?]; eauto.
  - constructor; intros; repeat match goal with H : sch' _ _ |- _ => apply Hs in H end; eauto.
Qed.

Lemma mid_mono e e' ss sch lc lc' lo rm st :
  e <= e' -> lc <= lc' -> mid e ss sch lc lo rm st -> mid e' ss sch lc' lo rm st.
Proof.
  intros He Hlc [Hdl Hm [] Hsc Hse]. constructor; try done.
  - destruct Hdl as [? ? ? Hst]. constructor; try done.
    intros id s Hs. apply Hst in Hs as (d & ? & [? ? Hlu]).
    exists d. split; [done|]. constructor; try done. lia.
  - constructor; try done. intros id d Hd Hu.
    destruct (pe_passed0 id d Hd Hu) as [?|[? ?]]; [by left|right]. split; [done|lia].
Qed.

(** Storing the deal states the balances account for. *)
Lemma mid_set_states e ss sch lc lo rm st x :
  mid e ss sch lc lo rm st -> mid e ss sch lc lo rm (set_states x st).
Proof. intros [[] [] [] [] []]. constructor; by constructor. Qed.

(** Changing the schedule of one deal that is gone or was settled. *)
Lemma mid_resched e ss sch sch' lc lo rm st id :
  mid e ss sch lc lo rm st ->
  (forall ep k, k <> id -> sch' ep k <-> sch ep k) ->
  (forall ep, sch' ep id -> lo < ep /\ 0 <= id < next_id st /\
     forall d, proposals st !! id = Some d -> start_epoch d <= ep) ->
  (forall ep ep', sch' ep id -> sch' ep' id -> ep = ep') ->
  (forall d, proposals st !! id = Some d -> ~ unsettled ss id) ->
  mid e ss sch' lc lo rm st.
Proof.
  intros [Hdl Hm [] [] Hse] Hs Hid Honce Hset. constructor; try done.
  - constructor; try done.
    + intros k d c ep Hk Huk Hsk. destruct (decide (k = id)) as [->|Hne].
      { by destruct (Hset d Hk). }
      apply Hs in Hsk; eauto.
    + intros k d Hk Huk. destruct (decide (k = id)) as [->|Hne]; [by destruct (Hset d Hk)|].
      destruct (pe_passed0 k d Hk Huk) as [[ep ?]|?]; [|by right]. left. exists ep. by apply Hs.
  - constructor.
    + intros ep k Hk. destruct (decide (k = id)) as [->|Hne]; [by apply Hid|].
      apply Hs in Hk; eauto.
    + intros ep k d Hk Hd. destruct (decide (k = id)) as [->|Hne].
      { apply Hid in Hk as (_ & _ & Hst). by apply Hst. }
      apply Hs in Hk; eauto.
    + intros ep ep' k Hk Hk'. destruct (decide (k = id)) as [->|Hne]; [by apply Honce|].
      apply Hs in Hk, Hk'; eauto.
    + intros ep k Hk. destruct (decide (k = id)) as [->|Hne]; [by apply Hid in Hk as (_ & ? & _)|].
      apply Hs in Hk; eauto.
Qed.

Lemma Inv_mono e e' st : e <= e' -> Inv e st -> Inv e' st.
Proof. intros He [? Hm]. constructor; [lia|]. by eapply mid_mono in Hm. Qed.

Lemma Inv_frame e st st' :
  Inv e st -> frame st st' ->
  mid e (states st') (in_ops st) (last_cron st) (last_cron st) (fun _ _ _ => False) st' ->
  Inv e st'.
Proof.
  intros [Hc _] Hfr Hm. pose proof (fr_cron _ _ Hfr) as Hlc. constructor; rewrite Hlc; [done|].
  eapply mid_sched; [exact Hm|]. intros. symmetry. by apply frame_in_ops.
Qed.
End invariant.
