(* ===== verification/MarketProofs.v ===== *)
(** * Storage market: the methods keep the invariant

    Terminations, settlements and cron runs succeed from any state that
    satisfies the invariant and re-establish it; activations and publications
    re-establish it when they succeed. *)

From stdpp Require Import sorting.
From S2P Require Import Prelude Runtime Batch MarketState Market MarketMaps MarketInv MarketWf.

Implicit Types (st : State) (d : DealProposal) (s : DealState) (ss : gmap Z DealState).

(** The CID of a proposal for the hash function [hash]. *)
Definition proposal_cid (ext : Ext) (hash : bytes -> bytes) d : option Cid :=
  b ← serialize_proposal ext d; Some (mkCid 1 (DAG_CBOR ext) (BLAKE2B_256 ext) (hash b)).

(** The updates of deal states that a loop has yet to store. *)
Definition overlaid (l : list (Z * DealState)) ss : gmap Z DealState :=
  foldl (fun m '(id, s) => <[id := s]> m) ss l.

Lemma overlaid_ne l : forall ss id, id ∉ l.*1 -> overlaid l ss !! id = ss !! id.
Proof.
  induction l as [|[k s] l IH]; intros ss id Hid; [done|].
  apply not_elem_of_cons in Hid as [Hne Hid]. cbn in Hne.
  change (overlaid ((k, s) :: l) ss) with (overlaid l (<[k := s]> ss)).
  rewrite IH by done. by rewrite lookup_insert_ne.
Qed.

Lemma overlaid_delete l : forall ss id, id ∉ l.*1 ->
  overlaid l (delete id ss) = delete id (overlaid l ss).
Proof.
  induction l as [|[k s] l IH]; intros ss id Hid; [done|].
  apply not_elem_of_cons in Hid as [Hne Hid]. cbn in Hne.
  change (overlaid l (<[k := s]> (delete id ss)) = delete id (overlaid l (<[k := s]> ss))).
  rewrite <- IH by done. by rewrite delete_insert_ne.
Qed.

Lemma overlaid_snoc l ss id s : overlaid (l ++ [(id, s)]) ss = <[id := s]> (overlaid l ss).
Proof. unfold overlaid. by rewrite foldl_app. Qed.

(** The items a batch generator has seen. *)
Definition seen (g : BatchReturnGen) : nat := (gen_success_count g + length (gen_fail_codes g))%nat.

Lemma seen_success g : seen (add_success g) = S (seen g).
Proof. unfold seen. cbn. lia. Qed.
Lemma seen_fail c g : seen (add_fail c g) = S (seen g).
Proof. unfold seen. cbn. rewrite length_app. cbn. lia. Qed.

Section methods.
Context {Net : Type} (ext : Ext) (policy : Policy) (total_fil_circ_supply : Net -> Z).
Context (env : Env Net State Params bytes) (ctx : Ctx).
Context (hash : bytes -> bytes).

Notation cid := (proposal_cid ext hash).
Notation e := (ctx_epoch ctx).

Context (Hhash : env_hash_blake2b env = hash).
Context (cid_inj : forall d d' c, cid d = Some c -> cid d' = Some c -> d = d').
Context (He : 0 <= e).

Lemma deal_cid_ok d c : cid d = Some c -> deal_cid ext env d = Ok c.
Proof.
  unfold proposal_cid, deal_cid, serialized_deal_cid. rewrite Hhash.
  destruct (serialize_proposal ext d); cbn; congruence.
Qed.

Lemma Inv_cid st id d : Inv cid e st -> proposals st !! id = Some d ->
  exists c, cid d = Some c /\ deal_cid ext env d = Ok c.
Proof.
  intros [_ [_ _ Hpe _ _]] Hd. destruct (pe_cid _ _ _ _ _ Hpe id d Hd) as [c Hc].
  exists c. split; [done|by apply deal_cid_ok].
Qed.

Lemma emit_parties_ok d : deal_wf d -> exists cp, emit_parties d = Ok cp.
Proof.
  intros []. destruct dw_client as [c Hc], dw_provider as [p Hp].
  exists (c, p). unfold emit_parties. by rewrite Hc, Hp.
Qed.

(** ** Termination *)

Record term_inv (props : gmap Z DealProposal) (sts : gmap Z DealState) (tot : Z)
    (ids : list Z) (acc : Z) st : Prop := {
  ti_inv : Inv cid e st;
  ti_total : bt_total (escrow_table st) + acc = tot;
  ti_acc : 0 <= acc;
  ti_nodup : NoDup ids;
  ti_ids : forall id, id ∈ ids -> exists d s, props !! id = Some d /\ sts !! id = Some s /\
    provider d = caller ctx /\ proposals st !! id = Some d /\ states st !! id = Some s /\
    forall p sec, id ∉ sector_list st p sec;
}.

Lemma remove_pending_st c st :
  remove_pending_deal c st =
  (Ok (if has_pending_deal c st then Some tt else None),
   set_pending_proposals (pending_proposals st ∖ {[c]}) st).
Proof. done. Qed.

Lemma terminate_deal_step props sts tot id ids acc st :
  term_inv props sts tot (id :: ids) acc st ->
  succeeds (terminate_deal ext env ctx e props sts acc id) st (term_inv props sts tot ids).
Proof.
  intros [Hinv Htot Hacc [Hid Hnd]%NoDup_cons Hids].
  destruct (Hids id ltac:(left)) as (d & s & Hpd & Hss & Hpr & Hd & Hs & Hsec).
  unfold terminate_deal. rewrite Hpd, Hpr, addr_eqb_refl. cbn [negb].
  destruct (end_epoch d <=? e) eqn:Hend.
  { apply succeeds_ret. constructor; try done. intros k Hk. apply Hids. by right. }
  apply Z.leb_gt in Hend. rewrite Hss. eapply succeeds_lift; [reflexivity|].
  destruct (Inv_cid st id d Hinv Hd) as (c & Hc & Hdc).
  pose proof Hinv as [Hlc Hmid]. pose proof Hmid as [Hdl Hm _ _ _].
  pose proof (do_deal _ _ _ Hdl id d Hd) as Hwf.
  pose proof (deals_ok_state _ _ _ id d Hdl Hd s Hs) as Hsw.
  pose proof (money_covers _ _ _ id d Hdl Hm Hd) as Hcov. rewrite Hs in Hcov.
  eapply (succeeds_run _ tt (unpend c s st)).
  { unfold unpend. rewrite Hdc. by destruct (last_updated_epoch s =? EPOCH_UNDEFINED). }
  eapply succeeds_bind; [by apply process_slashed_deal_spec, unpend_covers|].
  intros slashed st1 [-> M].
  assert (proposals st1 = proposals st /\ states st1 = states st) as [Hp1 Hs1].
  { apply mv_frame in M. split; [apply strip_proposals in M|apply strip_states in M];
      rewrite M; unfold unpend; by destruct (_ =? _). }
  assert (frame st st1) as Hfr by (apply mv_frame, strip_frame, unpend_frame in M; done).
  eapply succeeds_run.
  { by eapply (remove_completed_deal_spec id st1 d s); rewrite ?Hp1, ?Hs1. }
  destruct (emit_parties_ok d Hwf) as [cp Hcp].
  eapply succeeds_lift; [exact Hcp|]. apply succeeds_ret.
  pose proof (dw_pc d Hwf) as Hpc. destruct (dw_provider d Hwf) as [p Hp].
  pose proof (payment_due_bounds e d s Hwf Hsw) as Hb. pose proof (dw_cc d Hwf) as Hcc.
  eapply drop_step in M as Hmid'; [|exact cid_inj|exact Hmid|done..|].
  2: { intros a. cbn. unfold owed, at_addr. repeat case_match; lia. }
  constructor; try done.
  - eapply Inv_frame; [exact Hinv|destruct Hfr; by constructor|]. cbn. rewrite Hs1.
    eapply mid_forget; [exact Hmid'|]. intros p' sec' k [[]|[= -> -> ->]] Hin.
    destruct (Hsec p (sector_number s)). unfold sector_list in *. cbn in Hin.
    by rewrite (fr_sectors _ _ Hfr) in Hin.
  - cbn. rewrite (mv_total _ _ _ _ _ _ _ _ M). unfold unpend. destruct (_ =? _); cbn; lia.
  - lia.
  - intros k Hk. destruct (Hids k ltac:(by right)) as (d' & s' & ? & ? & ? & ? & ? & Hsec').
    assert (k <> id) by (by intros ->). exists d', s'. cbn. rewrite Hp1, Hs1.
    rewrite !lookup_delete_ne by done. split_and!; try done. intros p' sec'.
    unfold sector_list. cbn. rewrite (fr_sectors _ _ Hfr). apply Hsec'.
Qed.

(** Dropping deals from the sectors' index keeps the invariant. *)
Lemma Inv_sectors st ps :
  Inv cid e st ->
  (forall p sec id, id ∈ sector_list (set_provider_sectors ps st) p sec -> id ∈ sector_list st p sec) ->
  (forall p sec, NoDup (sector_list (set_provider_sectors ps st) p sec)) ->
  Inv cid e (set_provider_sectors ps st).
Proof.
  intros [Hlc [Hdl Hm Hpe Hsc [Hde Hnd]]] Hsub Hnd'. constructor; [done|]. constructor.
  - by destruct Hdl.
  - by destruct Hm.
  - by destruct Hpe.
  - by destruct Hsc.
  - constructor; [|done]. intros p sec id Hin. eauto.
Qed.

Lemma pop_spec st p secs :
  Inv cid e st -> NoDup secs ->
  exists popped ps, pop_sector_deal_ids p secs st = (Ok popped, set_provider_sectors ps st) /\
    Inv cid e (set_provider_sectors ps st) /\ NoDup popped /\
    forall id, id ∈ popped ->
      (exists sec, id ∈ sector_list st p sec) /\
      forall p' sec, id ∉ sector_list (set_provider_sectors ps st) p' sec.
Proof.
  intros Hinv Hsecs. pose proof Hinv as [Hlc [_ _ _ _ [Hde Hnd]]].
  unfold pop_sector_deal_ids.
  pose proof (pop_sector_fold secs (load_provider_sector_deals (provider_sectors st) p) [] false)
    as Hpop.
  destruct (foldl _ _ _) as [[sd popped] fl] eqn:Hf.
  destruct Hpop as (Hget & (more & -> & Hin & Hmore) & Hfl). cbn [app] in *.
  assert (forall x sec sec', x ∈ sector_list st p sec -> x ∈ sector_list st p sec' -> sec = sec')
    as Huniq.
  { intros x sec sec' [[]|(d & s & _ & _ & Hs & <-)]%Hde [[]|(d' & s' & _ & _ & Hs' & <-)]%Hde.
    congruence. }
  exists more, (if fl then save_provider_sector_deals (provider_sectors st) p sd
                else provider_sectors st).
  assert (forall p' sec, sector_list (set_provider_sectors
    (if fl then save_provider_sector_deals (provider_sectors st) p sd else provider_sectors st) st)
    p' sec = if decide (p' = p) then default [] (sd !! sec) else sector_list st p' sec) as Hsl.
  { intros p' sec. unfold sector_list. destruct fl; cbn.
    - rewrite load_save. by case_decide.
    - rewrite (Hfl eq_refl). by destruct (decide (p' = p)) as [->|]. }
  split_and!.
  - unfold sbind, sget. cbn. rewrite Hf. destruct fl; [done|]. by destruct st.
  - apply Inv_sectors; [done|..].
    + intros p' sec id. rewrite Hsl, Hget. repeat case_decide; subst;
        [by intros ?%not_elem_of_nil|done..].
    + intros p' sec. rewrite Hsl, Hget. repeat case_decide; [constructor|apply Hnd..].
  - apply Hmore; [done|intros; apply Hnd|exact Huniq].
  - intros id (sec & Hsec & Hid)%Hin. split; [by exists sec|]. intros p' sec'. rewrite Hsl, Hget.
    repeat case_decide; subst; [apply not_elem_of_nil| |].
    + intros Hid'. assert (sec = sec') as -> by (by eapply Huniq). done.
    + intros Hid'. apply Hde in Hid' as [[]|(d & s & Hd & Hp & _)].
      apply Hde in Hid as [[]|(d' & s' & Hd' & Hp' & _)]. congruence.
Qed.

(** Terminating the deals of sectors at the present epoch always succeeds; the
    slashed collateral is what leaves the escrow. *)
Lemma terminate_sectors_spec st secs :
  Inv cid e st -> NoDup secs ->
  succeeds (terminate_sectors ext env ctx e secs) st (fun slashed st' =>
    Inv cid e st' /\ 0 <= slashed /\
    bt_total (escrow_table st') + slashed = bt_total (escrow_table st)).
Proof.
  intros Hinv Hsecs. unfold terminate_sectors. apply succeeds_get.
  destruct (pop_spec st (ctx_caller ctx) secs Hinv Hsecs)
    as (popped & ps & Hpop & Hinv' & Hnd & Hids).
  eapply succeeds_run; [exact Hpop|].
  eapply succeeds_mono.
  - apply (succeeds_fold _ (term_inv (proposals st) (states st) (bt_total (escrow_table st)))).
    + constructor; try done; [cbn; lia|]. intros id Hid. apply Hids in Hid as [[sec Hsec] Hno].
      pose proof Hinv as [_ [_ _ _ _ [Hde _]]].
      apply Hde in Hsec as [[]|(d & s & Hd & Hp & Hs & _)]. exists d, s. by split_and!.
    + intros. by apply terminate_deal_step.
  - intros slashed st' []. auto.
Qed.

(** ** Settlement *)

Record settle_inv (tot n : Z) (ids : list Z) (acc : SettleAcc) st : Prop := {
  si_cron : -1 <= last_cron st <= e;
  si_mid : mid cid e (overlaid (settled_states acc) (states st)) (in_ops st) (last_cron st)
    (last_cron st) (to_remove_of (settled_to_remove acc)) st;
  si_total : bt_total (escrow_table st) + total_slashed acc = tot;
  si_slashed : 0 <= total_slashed acc;
  si_nodup : NoDup ids;
  si_fresh : forall id, id ∈ ids -> id ∉ (settled_states acc).*1;
  si_expect : Z.of_nat (expect_count (settle_gen acc)) = n;
  si_seen : Z.of_nat (seen (settle_gen acc)) + Z.of_nat (length ids) = n;
  si_fails : Forall (fun f => code f = EX_DEAL_EXPIRED) (gen_fail_codes (settle_gen acc));
}.

Lemma settle_fail_inv tot n id ids acc st slashed st' :
  settle_inv tot n (id :: ids) acc st ->
  -1 <= last_cron st' <= e -> 0 <= slashed ->
  mid cid e (overlaid (settled_states acc) (states st')) (in_ops st') (last_cron st')
    (last_cron st') (to_remove_of (settled_to_remove acc)) st' ->
  bt_total (escrow_table st') = bt_total (escrow_table st) - slashed ->
  settle_inv tot n ids (settle_fail EX_DEAL_EXPIRED
    (mkSettleAcc (settle_gen acc) (settlements acc) (total_slashed acc + slashed)
       (settled_states acc) (settled_to_remove acc))) st'.
Proof.
  intros [] Hlc Hsl Hmid Htot. apply NoDup_cons in si_nodup0 as [_ ?].
  constructor; cbn [settle_fail settle_gen settlements total_slashed settled_states
    settled_to_remove]; try done.
  - lia.
  - lia.
  - intros k Hk. apply si_fresh0. by right.
  - rewrite seen_fail. cbn in *. lia.
  - cbn. apply Forall_app. split; [done|]. by constructor.
Qed.

Lemma settle_skip_inv tot n id ids acc st :
  settle_inv tot n (id :: ids) acc st ->
  settle_inv tot n ids (settle_fail EX_DEAL_EXPIRED acc) st.
Proof.
  intros H. pose proof H as [].
  apply (settle_fail_inv tot n id ids acc st 0 st) in H; [|done..|lia].
  by rewrite Z.add_0_r in H; destruct acc.
Qed.

Lemma settle_loaded_step tot n id ids acc st d s c :
  settle_inv tot n (id :: ids) acc st -> proposals st !! id = Some d ->
  states st !! id = Some s -> cid d = Some c ->
  succeeds (settle_loaded ctx acc id d c s) st (settle_inv tot n ids).
Proof.
  intros [Hlc Hmid Htot Hsl [Hid Hnd]%NoDup_cons Hfr Hex Hseen Hf] Hd Hs Hc.
  assert (id ∉ (settled_states acc).*1) as Hfresh by (apply Hfr; left).
  assert (overlaid (settled_states acc) (states st) !! id = Some s) as Hs'
    by (by rewrite overlaid_ne).
  pose proof Hmid as [Hdl _ _ _ _]. pose proof (do_deal _ _ _ Hdl id d Hd) as Hwf.
  destruct (dw_provider d Hwf) as [p Hp]. destruct (emit_parties_ok d Hwf) as [cp Hcp].
  unfold settle_loaded.
  eapply succeeds_bind; [by eapply succeeds_catch, (update_step cid cid_inj e)|].
  intros r st1 ([[[slashed pay] completed] remove] & -> & -> & -> & -> & -> & Hframe & Hs1 & Hp1
    & Htot1 & Hmid1).
  pose proof (fr_cron _ _ Hframe) as Hlc1.
  assert (forall ep k, in_ops st ep k <-> in_ops st1 ep k) as Hops
    by (intros; symmetry; by apply frame_in_ops).
  destruct (end_epoch d <=? e) eqn:Hend; cbn [negb].
  - apply succeeds_assoc. eapply succeeds_run.
    { by eapply (remove_completed_deal_spec id st1 d s); rewrite ?Hp1, ?Hs1. }
    apply succeeds_assoc. rewrite Hp. eapply succeeds_lift; [reflexivity|].
    apply succeeds_assoc, succeeds_skip, succeeds_skip. rewrite Hcp.
    apply succeeds_assoc. eapply succeeds_lift; [reflexivity|]. apply succeeds_skip, succeeds_ret.
    constructor; cbn [settle_gen settlements total_slashed settled_states settled_to_remove];
      try done; cbn [last_cron drop_deal set_proposals set_states escrow_table]; rewrite ?Hlc1.
    + done.
    + cbn. rewrite overlaid_delete, Hs1 by done.
      eapply mid_sched; [|exact Hops]. eapply mid_forget; [exact Hmid1|].
      intros p' sec' k Hk _. apply to_remove_push. done.
    + lia.
    + intros k Hk. apply Hfr. by right.
    + rewrite seen_success. cbn in *. lia.
  - apply succeeds_skip, succeeds_skip, succeeds_ret.
    constructor; cbn [settle_gen settlements total_slashed settled_states settled_to_remove];
      try done; rewrite ?Hlc1.
    + done.
    + rewrite overlaid_snoc, Hs1. by eapply mid_sched.
    + lia.
    + intros k Hk. rewrite fmap_app, not_elem_of_app. split; [apply Hfr; by right|].
      cbn. rewrite not_elem_of_cons. split; [by intros ->|apply not_elem_of_nil].
    + rewrite seen_success. cbn in *. lia.
Qed.

Lemma settle_deal_step tot n id ids acc st :
  settle_inv tot n (id :: ids) acc st ->
  succeeds (settle_deal ext env ctx acc id) st (settle_inv tot n ids).
Proof.
  intros Hsi. pose proof Hsi as [Hlc Hmid Htot Hsl [Hid Hnd]%NoDup_cons Hfr Hex Hseen Hf].
  assert (id ∉ (settled_states acc).*1) as Hfresh by (apply Hfr; left).
  unfold settle_deal, st_get_proposal, get_proposal. apply succeeds_get.
  destruct (proposals st !! id) as [d|] eqn:Hd; cycle 1.
  { destruct (id <? next_id st); (eapply succeeds_run; [reflexivity|]); cbn;
    apply succeeds_ret; by eapply settle_skip_inv. }
  eapply (succeeds_run _ (inl d)); [done|].
  pose proof Hmid as [Hdl _ Hpe _ _]. destruct (pe_cid _ _ _ _ _ Hpe id d Hd) as [c Hc].
  pose proof (do_deal _ _ _ Hdl id d Hd) as Hwf.
  eapply (succeeds_run _ (inl c)); [unfold scatch, slift; by rewrite (deal_cid_ok d c Hc)|].
  pose proof (overlaid_ne (settled_states acc) (states st) id Hfresh) as Hov.
  destruct (states st !! id) as [s|] eqn:Hs.
  - eapply (succeeds_run _ (inl (Loaded s))).
    { unfold scatch, get_active_deal_or_process_timeout, sbind, sget, find_deal_state.
      by rewrite Hs. }
    pose proof (deals_ok_state _ _ _ id d Hdl Hd s Hov) as Hsw.
    rewrite (sw_slash _ _ _ Hsw), Z.eqb_refl. cbn [negb]. by apply settle_loaded_step.
  - destruct (Z.ltb_spec e (start_epoch d)) as [Hlt|Hge].
    + eapply (succeeds_run _ (inl TooEarly)).
      { unfold scatch, get_active_deal_or_process_timeout, sbind, sget, find_deal_state.
        rewrite Hs. by rewrite (proj2 (Z.ltb_lt _ _) Hlt). }
      apply succeeds_ret. constructor; cbn [settle_gen settlements total_slashed settled_states
        settled_to_remove]; try done.
      * intros k Hk. apply Hfr. by right.
      * rewrite seen_success. cbn in *. lia.
    + eapply succeeds_bind.
      { eapply succeeds_catch, (timeout_step cid cid_inj e); try done. }
      intros r st1 (l & -> & -> & Hmid1 & Hframe & Hs1 & Htot1 & _). apply succeeds_ret.
      pose proof (fr_cron _ _ Hframe) as Hlc1.
      eapply settle_fail_inv; [exact Hsi|..]; rewrite ?Hlc1, ?Hs1; try done; [apply Hwf|].
      eapply mid_sched; [exact Hmid1|]. intros. symmetry. by apply frame_in_ops.
Qed.

Lemma set_states_same st : set_states (states st) st = st.
Proof. by destruct st. Qed.

(** Once the pending removals are done, the loops' invariant is the
    invariant of the state at rest. *)
Lemma mid_finish st ss sch lc lo t :
  mid cid e ss sch lc lo (to_remove_of t) st ->
  mid cid e ss sch lc lo (fun _ _ _ => False) (set_provider_sectors
    (foldl remove_provider_sector_deals (provider_sectors st) (btree_iter t)) st).
Proof.
  intros [Hdl Hm Hpe Hsc [Hde Hnd]]. constructor.
  - by destruct Hdl.
  - by destruct Hm.
  - by destruct Hpe.
  - by destruct Hsc.
  - constructor.
    + intros p sec id Hin. right. unfold sector_list in Hin. cbn in Hin.
      rewrite remove_all_spec in Hin. apply list_elem_of_filter in Hin as [Hno Hin].
      destruct (Hde p sec id Hin) as [Hrm|?]; [by destruct Hno|done].
    + intros p sec. unfold sector_list. cbn. rewrite remove_all_spec.
      apply NoDup_filter. apply Hnd.
Qed.

(** Settling any set of deals succeeds; the only failures it reports are
    those of deals that are gone or timed out. *)
Lemma settle_deals_spec st ids :
  Inv cid e st -> NoDup ids ->
  succeeds (settle_deals ext env ctx ids) st (fun acc st' =>
    Inv cid e st' /\ 0 <= total_slashed acc /\
    bt_total (escrow_table st') + total_slashed acc = bt_total (escrow_table st) /\
    exists b, generate (settle_gen acc) = @Ok error _ b /\ batch_size b = length ids /\
      Forall (fun f => code f = EX_DEAL_EXPIRED) (fail_codes b)).
Proof.
  intros [Hlc Hmid] Hnd. unfold settle_deals. eapply succeeds_bind.
  - apply (succeeds_fold _ (settle_inv (bt_total (escrow_table st)) (Z.of_nat (length ids)))).
    + constructor; cbn; try done; try lia.
      * eapply mid_forget; [exact Hmid|]. done.
      * intros. apply not_elem_of_nil.
    + intros. by apply settle_deal_step.
  - intros acc st1 []. unfold put_deal_states, remove_sector_deal_ids.
    apply succeeds_modify, succeeds_modify, succeeds_ret. cbn [provider_sectors set_states].
    split_and!; try done.
    + constructor; [done|]. apply (mid_set_states _ _ _ _ _ _ _ _ (overlaid (settled_states acc)
        (states st1))), mid_finish in si_mid0. exact si_mid0.
    + exists (mkBatch (gen_success_count (settle_gen acc)) (gen_fail_codes (settle_gen acc))).
      unfold generate, seen, batch_size in *. cbn in *. split_and!; try done; [|lia].
      by rewrite (proj2 (Nat.eqb_eq _ _)) by lia.
Qed.

(** ** Activation *)

(** The deals of the caller that are being activated, and their sectors. *)
Record act_inv st (acc : Activations) : Prop := {
  ac_nodup : NoDup (new_states acc).*1;
  ac_states : forall id s, (id, s) ∈ new_states acc ->
    id ∈ activated_deals acc /\ s = initial_deal_state ctx (sector_number s) /\
    states st !! id = None /\
    exists d, proposals st !! id = Some d /\ provider d = caller ctx;
  ac_sectors : forall sec ids id, (sec, ids) ∈ sectors_deals acc -> id ∈ ids ->
    (id, initial_deal_state ctx sec) ∈ new_states acc;
}.

Lemma overlaid_activate st sch lc lo rm l : forall ss,
  mid cid e ss sch lc lo rm st -> NoDup l.*1 ->
  (forall id s, (id, s) ∈ l -> s = initial_deal_state ctx (sector_number s) /\
     ss !! id = None /\ is_Some (proposals st !! id)) ->
  mid cid e (overlaid l ss) sch lc lo rm st.
Proof.
  induction l as [|[id s] l IH]; intros ss Hmid Hnd Hl; [done|].
  apply NoDup_cons in Hnd as [Hid Hnd]. cbn in Hid.
  destruct (Hl id s ltac:(left)) as (Hs & Hn & [d Hd]).
  change (overlaid ((id, s) :: l) ss) with (overlaid l (<[id := s]> ss)). apply IH.
  - eapply activate_step; try done; by rewrite Hs.
  - done.
  - intros k s' Hk. destruct (Hl k s' ltac:(by right)) as (? & ? & ?). split_and!; try done.
    rewrite lookup_insert_ne; [done|]. intros ->. apply Hid. apply list_elem_of_fmap.
    by exists (k, s').
Qed.

Lemma overlaid_in l : forall ss id s, NoDup l.*1 -> (id, s) ∈ l -> overlaid l ss !! id = Some s.
Proof.
  induction l as [|[k s'] l IH]; intros ss id s Hnd Hin; [by apply not_elem_of_nil in Hin|].
  apply NoDup_cons in Hnd as [Hk Hnd].
  change (overlaid ((k, s') :: l) ss) with (overlaid l (<[k := s']> ss)).
  apply elem_of_cons in Hin as [[= -> ->]|Hin]; [|by apply IH].
  rewrite overlaid_ne by done. by rewrite lookup_insert_eq.
Qed.

Lemma Inv_activate st acc allocs :
  Inv cid e st -> act_inv st acc ->
  Inv cid e (set_pending_deal_allocation_ids allocs
    (set_provider_sectors (save_provider_sector_deals (provider_sectors st) (ctx_caller ctx)
       (foldl put_sector_deals (load_provider_sector_deals (provider_sectors st) (ctx_caller ctx))
          (sectors_deals acc)))
       (set_states (overlaid (new_states acc) (states st)) st))).
Proof.
  intros [Hlc Hmid] [Hnd Hst Hse]. constructor; [done|].
  apply (overlaid_activate _ _ _ _ _ (new_states acc)) in Hmid as Hmid'; [|done|].
  2: { intros id s Hin. destruct (Hst id s Hin) as (_ & ? & ? & d & ? & _). eauto. }
  destruct Hmid' as [Hdl Hm Hpe Hsc [Hde Hnd']]. constructor.
  - by destruct Hdl.
  - by destruct Hm.
  - by destruct Hpe.
  - by destruct Hsc.
  - assert (forall p sec, sector_list (set_pending_deal_allocation_ids allocs
      (set_provider_sectors (save_provider_sector_deals (provider_sectors st) (ctx_caller ctx)
         (foldl put_sector_deals (load_provider_sector_deals (provider_sectors st) (ctx_caller ctx))
            (sectors_deals acc))) (set_states (overlaid (new_states acc) (states st)) st))) p sec =
      if decide (p = ctx_caller ctx) then
        default [] (foldl put_sector_deals
          (load_provider_sector_deals (provider_sectors st) (ctx_caller ctx)) (sectors_deals acc) !! sec)
      else sector_list st p sec) as Hsl.
    { intros p sec. unfold sector_list. cbn. rewrite load_save. by case_decide. }
    constructor; intros p sec; rewrite Hsl;
      pose proof (put_all_get (sectors_deals acc)
        (load_provider_sector_deals (provider_sectors st) (ctx_caller ctx)) sec) as [Hget Hgnd].
    + intros id. destruct (decide (p = ctx_caller ctx)) as [->|]; [|apply Hde].
      rewrite Hget. intros [Hold|(ids & Hin & Hid)]; [by apply Hde|]. right.
      pose proof (Hse sec ids id Hin Hid) as Hnew. destruct (Hst _ _ Hnew) as (_ & _ & _ & d & ? & Hp).
      exists d, (initial_deal_state ctx sec). split_and!; try done. by apply overlaid_in.
    + case_decide; [|apply Hnd']. subst p. apply Hgnd, Hnd'.
Qed.

Lemma adjacent_equal_nodup l : StronglySorted Z.le l -> adjacent_equal l = false -> NoDup l.
Proof.
  induction l as [|x l IH]; intros Hs Hadj; [constructor|].
  apply StronglySorted_inv in Hs as [Hs Hall]. destruct l as [|y l]; [apply NoDup_singleton|].
  cbn [adjacent_equal] in Hadj. bool_prop. constructor; [|by apply IH].
  intros Hin. apply StronglySorted_inv in Hs as [_ Hy]. rewrite Forall_forall in Hall, Hy.
  specialize (Hall y ltac:(left)). apply elem_of_cons in Hin as [?|Hin]; [done|].
  specialize (Hy x Hin). lia.
Qed.

Lemma has_duplicates_nodup l : has_duplicates l = false -> NoDup l.
Proof.
  unfold has_duplicates. intros H%adjacent_equal_nodup; [|apply sorted_merge_sort].
  by rewrite merge_sort_Permutation in H.
Qed.

(** A deal that may be activated by the caller. *)
Definition activatable st id d : Prop :=
  proposals st !! id = Some d /\ provider d = caller ctx /\ states st !! id = None.

Lemma preactivate_deal_ok st id exp p :
  preactivate_deal ext env id (proposals st) (states st) (pending_proposals st) (caller ctx)
    exp e (next_id st) = Ok (inl p) -> activatable st id p.
Proof.
  unfold preactivate_deal, get_proposal, validate_deal_can_activate. intros H.
  destruct (proposals st !! id) as [d|] eqn:Hd; cycle 1.
  { destruct (id <? next_id st); cbn in H; by repeat (case_bool_decide; cbn in H). }
  destruct (addr_eqb (provider d) (caller ctx)) eqn:Hp; [|discriminate]. cbn [negb] in H.
  destruct (e >? start_epoch d); [discriminate|]. destruct (end_epoch d >? exp); [discriminate|].
  case_bool_decide as Hs; [discriminate|]. apply rbind_ok in H as (c & _ & H).
  destruct (negb _); simplify_eq. split_and!; [done|by apply bool_decide_eq_true in Hp|].
  destruct (states st !! id); [|done]. by destruct Hs.
Qed.

Lemma validate_sector_deals_ok st acc sector validated :
  validate_sector_deals ext env ctx st acc sector = Ok (inl validated) ->
  Forall2 (fun id p => id ∉ activated_deals acc /\ activatable st id p)
    (sd_deal_ids sector) validated.
Proof.
  unfold validate_sector_deals. set (f := fun r deal_id => _).
  assert (forall ids c v, rfold f (inr c) ids = Ok (inl v) -> False) as Hstop.
  { induction ids as [|id ids IH]; intros c v H; cbn in H; [discriminate|]. eauto. }
  cut (forall ids pre v, rfold f (inl pre) ids = Ok (inl v) -> exists v', v = pre ++ v' /\
    Forall2 (fun id p => id ∉ activated_deals acc /\ activatable st id p) ids v').
  { intros Hcut H. apply Hcut in H as (v' & -> & ?). done. }
  induction ids as [|id ids IH]; intros pre v H; cbn in H.
  - exists []. rewrite app_nil_r. split; [congruence|constructor].
  - apply rbind_ok in H as (r & Hr & H). case_bool_decide as Hact.
    { injection Hr as <-. by apply Hstop in H. }
    apply rbind_ok in Hr as ([p|er] & Hp & Hr); injection Hr as <-; [|by apply Hstop in H].
    apply preactivate_deal_ok in Hp. apply IH in H as (v' & -> & Hv').
    exists (p :: v'). rewrite <- app_assoc. split; [done|]. by constructor.
Qed.

(** One more activated deal. *)
Lemma act_inv_add st acc id p sec :
  act_inv st acc -> id ∉ activated_deals acc -> activatable st id p ->
  act_inv st (mkActivations (new_states acc ++ [(id, initial_deal_state ctx sec)]) (batch_gen acc)
    (activations acc) ({[id]} ∪ activated_deals acc) (sectors_deals acc)
    (delete id (remaining_allocation_ids acc))).
Proof.
  intros [Hnd Hst Hse] Hid (Hd & Hp & Hs). constructor; cbn.
  - rewrite fmap_app. apply NoDup_app. split_and!; [done| |apply NoDup_singleton].
    intros k Hk Hk'. cbn in Hk'. apply list_elem_of_singleton in Hk' as ->.
    apply list_elem_of_fmap in Hk as ([k s] & -> & Hk). by apply Hst in Hk as (? & _).
  - intros k s [Hk|Hk]%elem_of_app.
    + apply Hst in Hk as (? & ? & ? & ?). split_and!; [set_solver|done..].
    + apply list_elem_of_singleton in Hk as [= -> ->]. split_and!; [set_solver|done..|eauto].
  - intros sec' ids k Hin Hk. apply elem_of_app. left. eauto.
Qed.

Lemma activate_deals_fold st sec l : forall acc acts acc' acts',
  act_inv st acc -> NoDup l.*1 ->
  (forall id p, (id, p) ∈ l -> id ∉ activated_deals acc /\ activatable st id p) ->
  rfold (activate_deal ctx sec) (acc, acts) l = Ok (acc', acts') ->
  act_inv st acc' /\ sectors_deals acc' = sectors_deals acc /\
  (forall x, x ∈ new_states acc -> x ∈ new_states acc') /\
  (forall id, id ∈ l.*1 -> (id, initial_deal_state ctx sec) ∈ new_states acc').
Proof.
  induction l as [|[id p] l IH]; intros acc acts acc' acts' Hai Hnd Hl H.
  - injection H as <- <-. split_and!; try done. by intros id ?%not_elem_of_nil.
  - cbn [rfold] in H. apply rbind_ok in H as ([acc1 acts1] & H1 & H).
    unfold activate_deal in H1. apply rbind_ok in H1 as (cl & _ & H1). injection H1 as <- <-.
    apply NoDup_cons in Hnd as [Hid Hnd]. destruct (Hl id p ltac:(left)) as [Hna Hact].
    apply IH in H as (Hai' & Hsd & Hmono & Hin); [|by eapply act_inv_add|done|].
    + split_and!; [done|done| |].
      * intros x Hx. apply Hmono. cbn. apply elem_of_app. by left.
      * intros k [->|Hk]%elem_of_cons; [|by apply Hin]. apply Hmono. cbn.
        apply elem_of_app. right. by left.
    + intros k q Hk. destruct (Hl k q ltac:(by right)) as [? ?]. split; [|done]. cbn.
      assert (k <> id); [|set_solver]. intros ->. apply Hid, list_elem_of_fmap. by exists (id, q).
Qed.

Lemma act_inv_sectors st acc g acts l :
  act_inv st acc ->
  (forall sec ids id, (sec, ids) ∈ l -> id ∈ ids -> (id, initial_deal_state ctx sec) ∈ new_states acc) ->
  act_inv st (mkActivations (new_states acc) g acts (activated_deals acc)
    (sectors_deals acc ++ l) (remaining_allocation_ids acc)).
Proof.
  intros [] Hl. constructor; cbn; try done.
  intros sec ids id [Hin|Hin]%elem_of_app Hid; eauto.
Qed.

Lemma activate_sector_ok st compute_cid acc sector acc' :
  act_inv st acc -> activate_sector ext env ctx st compute_cid acc sector = Ok acc' ->
  act_inv st acc'.
Proof.
  intros Hai H. unfold activate_sector in H.
  destruct (has_duplicates _) eqn:Hdup; [injection H as <-; by destruct Hai|].
  apply has_duplicates_nodup in Hdup.
  apply rbind_ok in H as ([validated|c] & Hv & H); [|injection H as <-; by destruct Hai].
  apply validate_sector_deals_ok in Hv.
  apply rbind_ok in H as ([acc1 acts] & Hf & H). apply rbind_ok in H as (dc & _ & H).
  apply rbind_ok in H as (u & _ & H). injection H as <-.
  assert ((zip (sd_deal_ids sector) validated).*1 = sd_deal_ids sector) as Hfst
    by (apply fst_zip; rewrite (Forall2_length _ _ _ Hv); done).
  apply (activate_deals_fold st) in Hf as (Hai' & Hsd & Hmono & Hin); [|done|by rewrite Hfst|].
  - apply act_inv_sectors; [done|]. intros sec ids id [= -> ->]%list_elem_of_singleton Hid.
    apply Hin. by rewrite Hfst.
  - intros id p [k Hk]%list_elem_of_lookup.
    apply lookup_zip_with_Some in Hk as (? & ? & [= -> ->] & Hi & Hp).
    exact (Forall2_lookup_lr _ _ _ _ _ _ Hv Hi Hp).
Qed.

Lemma act_inv_nil st g allocs : act_inv st (mkActivations [] g [] ∅ [] allocs).
Proof. constructor; cbn; [constructor|by intros ? ? ?%not_elem_of_nil|by intros ? ? ? ?%not_elem_of_nil]. Qed.

Lemma activate_deals_Inv st sectors compute_cid r st' :
  Inv cid e st -> activate_deals ext env ctx sectors compute_cid st = (Ok r, st') ->
  Inv cid e st' /\ escrow_table st' = escrow_table st.
Proof.
  intros Hinv H. unfold activate_deals in H.
  apply sbind_ok in H as (x & s1 & Hg & H). injection Hg as <- <-.
  apply sbind_ok in H as (acc & s2 & Hf & H). injection Hf as Hf <-.
  assert (act_inv st acc) as Hai.
  { eapply (rfold_inv _ (act_inv st)); [apply act_inv_nil| |exact Hf].
    intros acc0 sector acc' _ ? ?. by eapply activate_sector_ok. }
  unfold sbind, put_deal_states, put_sector_deal_ids, smodify, slift, sret in H.
  destruct (generate (batch_gen acc)); [|discriminate..]. injection H as <- <-.
  split; [|done]. by apply (Inv_activate st acc).
Qed.

Lemma activate_piece_ok st sector acc ids flags piece acc' ids' flags' :
  act_inv st acc -> (forall id, id ∈ ids -> (id, initial_deal_state ctx (sc_sector sector)) ∈ new_states acc) ->
  activate_piece ext env ctx st sector (acc, ids, flags) piece = Ok (acc', ids', flags') ->
  act_inv st acc' /\
  (forall id, id ∈ ids' -> (id, initial_deal_state ctx (sc_sector sector)) ∈ new_states acc').
Proof.
  intros Hai Hids' H. unfold activate_piece in H.
  destruct (decode_deal_id ext (pc_payload piece)) as [id|]; [|by simplify_eq].
  case_bool_decide as Hid; [by simplify_eq|]. apply rbind_ok in H as ([p|er] & Hp & H);
    [|by simplify_eq]. apply preactivate_deal_ok in Hp.
  destruct (negb (bool_decide _)); [by simplify_eq|].
  destruct (negb (_ =? _)); [by simplify_eq|]. apply rbind_ok in H as (cp & _ & H).
  injection H as <- <- <-. split; [by eapply act_inv_add|].
  intros k [Hk|Hk]%elem_of_app; cbn; apply elem_of_app; [left; auto|right].
  apply list_elem_of_singleton in Hk as ->. left.
Qed.

Lemma change_sector_ok st acc r sector acc' r' :
  act_inv st acc -> change_sector ext env ctx st (acc, r) sector = Ok (acc', r') ->
  act_inv st acc'.
Proof.
  intros Hai H. unfold change_sector in H.
  apply rbind_ok in H as ([[acc1 ids] flags] & Hf & H).
  destruct (negb _); [discriminate|]. injection H as <- <-.
  eapply (rfold_inv _ (fun '(acc, ids, _) => act_inv st acc /\ forall id, id ∈ ids ->
    (id, initial_deal_state ctx (sc_sector sector)) ∈ new_states acc)) in Hf as [Hai1 Hin1].
  - apply act_inv_sectors; [done|]. intros sec ids' id [= -> ->]%list_elem_of_singleton. auto.
  - split; [done|]. by intros id ?%not_elem_of_nil.
  - intros [[a l] fl] piece [[a' l'] fl'] _ [? ?] Hp. by eapply activate_piece_ok.
Qed.

Lemma change_sectors_Inv st sectors r st' :
  Inv cid e st -> change_sectors ext env ctx sectors st = (Ok r, st') ->
  Inv cid e st' /\ escrow_table st' = escrow_table st.
Proof.
  intros Hinv H. unfold change_sectors in H.
  apply sbind_ok in H as (x & s1 & Hg & H). injection Hg as <- <-.
  apply sbind_ok in H as ([acc rets] & s2 & Hf & H). injection Hf as Hf <-.
  assert (act_inv st acc) as Hai.
  { eapply (rfold_inv _ (fun '(acc, _) => act_inv st acc)) in Hf; [exact Hf|apply act_inv_nil|].
    intros [a l] sector [a' l'] _ ? ?. by eapply change_sector_ok. }
  unfold sbind, put_deal_states, put_sector_deal_ids, smodify, slift, sret in H.
  destruct (negb _); [discriminate|]. injection H as <- <-.
  split; [|done]. by apply (Inv_activate st acc).
Qed.
(** ** Cron *)

Context (Hinterval : 0 < deal_updates_interval policy <= 2 ^ 61).
Context (Hepoch : e < 2 ^ 62).
Context (Hids : forall s : gset Z, hamt_order ext s ≡ₚ elements s).

(** What is left of the schedule while cron processes [ids] at epoch [i]. *)
Definition cron_sch st (i : Z) (ids : list Z) (acc : CronAcc) (ep k : Z) : Prop :=
  in_ops st ep k /\ i < ep \/ ep = i /\ k ∈ ids \/
  k ∈ default [] (new_updates_scheduled acc !! ep).

Record cron_inv (lc tot i : Z) (ids : list Z) (acc : CronAcc) st : Prop := {
  ci_last : last_cron st = lc;
  ci_cron : -1 <= last_cron st < e;
  ci_epoch : last_cron st <= i <= e;
  ci_mid : mid cid e (states st) (cron_sch st i ids acc) e (last_cron st)
    (to_remove_of (provider_deals_to_remove acc)) st;
  ci_total : bt_total (escrow_table st) + amount_slashed acc = tot;
  ci_slashed : 0 <= amount_slashed acc;
  ci_nodup : NoDup ids;
  ci_raw : forall ep k, in_ops st ep k -> last_cron st < ep;
  ci_new : forall ep k, k ∈ default [] (new_updates_scheduled acc !! ep) -> e < ep;
}.

(** The invariant after one deal, for a deal that is gone or settled. *)
Lemma cron_next lc tot i id ids acc acc' st st' rm :
  cron_inv lc tot i (id :: ids) acc st -> frame st st' ->
  mid cid e (states st') (cron_sch st i (id :: ids) acc) e (last_cron st) rm st' ->
  (forall d, proposals st' !! id = Some d -> ~ unsettled (states st') id) ->
  (forall p sec k, rm p sec k -> to_remove_of (provider_deals_to_remove acc') p sec k) ->
  bt_total (escrow_table st') + amount_slashed acc' = tot -> 0 <= amount_slashed acc' ->
  (forall ep k, k ∈ default [] (new_updates_scheduled acc' !! ep) <->
     k ∈ default [] (new_updates_scheduled acc !! ep) \/
     k = id /\ is_Some (proposals st' !! id) /\
     ep = next_update id (deal_updates_interval policy) (e + 1)) ->
  cron_inv lc tot i ids acc' st'.
Proof.
  intros [] Hfr Hmid Hset Hrm Htot Hsl Hnew. apply NoDup_cons in ci_nodup0 as [Hid Hnd].
  pose proof (fr_cron _ _ Hfr) as Hlc. pose proof (fr_next _ _ Hfr) as Hn.
  pose proof (next_update_bounds id (deal_updates_interval policy) (e + 1) ltac:(lia) ltac:(lia))
    as Hb.
  assert (forall ep k, in_ops st' ep k <-> in_ops st ep k) as Hops
    by (intros; by apply frame_in_ops).
  pose proof (mi_sched _ _ _ _ _ _ _ _ Hmid) as Hsc.
  assert (cron_sch st i (id :: ids) acc i id) as Hnow by (right; left; split; [done|left]).
  assert (forall ep, in_ops st ep id -> i < ep -> False) as Hno.
  { intros ep H1 H2. pose proof (sc_once _ _ _ Hsc ep i id (or_introl (conj H1 H2)) Hnow). lia. }
  assert (forall ep, id ∈ default [] (new_updates_scheduled acc !! ep) -> False) as Hno'.
  { intros ep H1. pose proof (sc_once _ _ _ Hsc ep i id (or_intror (or_intror H1)) Hnow).
    apply ci_new0 in H1. lia. }
  constructor; rewrite ?Hlc, ?Hn; try done.
  - eapply mid_forget; [|intros p sec k Hk _; exact (Hrm p sec k Hk)].
    eapply (mid_resched _ _ _ (cron_sch st i (id :: ids) acc) _ _ _ _ _ id); [exact Hmid|..].
    + intros ep k Hk. unfold cron_sch. rewrite Hops, Hnew, elem_of_cons. naive_solver.
    + intros ep Hsch. unfold cron_sch in Hsch. rewrite Hops, Hnew in Hsch.
      assert (ep = next_update id (deal_updates_interval policy) (e + 1)) as ->.
      { destruct Hsch as [[? ?]|[[_ ?]|[?|(_ & _ & ?)]]]; try done; exfalso; eauto. }
      split_and!; [lia|by apply (sc_range _ _ _ Hsc i id)..|].
      intros d Hd. pose proof (sc_start _ _ _ Hsc i id d Hnow Hd). lia.
    + assert (forall ep, cron_sch st' i ids acc' ep id ->
        ep = next_update id (deal_updates_interval policy) (e + 1)) as Hone.
      { intros ep Hsch. unfold cron_sch in Hsch. rewrite Hops, Hnew in Hsch.
        destruct Hsch as [[? ?]|[[_ ?]|[?|(_ & _ & ?)]]]; try done; exfalso; eauto. }
      intros ep ep' ?%Hone ?%Hone. congruence.
    + done.
  - intros ep k. rewrite Hops. apply ci_raw0.
  - intros ep k [?|(_ & _ & ->)]%Hnew; [eauto|lia].
Qed.

Lemma cron_update_step lc tot i id ids acc st d s c :
  cron_inv lc tot i (id :: ids) acc st -> proposals st !! id = Some d -> cid d = Some c ->
  states st !! id = Some s -> last_updated_epoch s <> EPOCH_UNDEFINED ->
  succeeds (let& (slash_amount, _, completed, remove_deal) := process_deal_update s d c e in
            let& acc :=
              if remove_deal then
                let& _ := remove_completed_deal id in
                let& provider := slift (expect (addr_id (provider d))) in
                let& _ := if negb completed
                          then let& _ := slift (emit_parties d) in sret tt
                          else sret tt in
                sret (mkCronAcc (amount_slashed acc + slash_amount)
                        (push_deal (provider_deals_to_remove acc) provider
                           (sector_number s) id)
                        (new_updates_scheduled acc))
              else if negb (slash_amount =? 0) then sfail (err USR_ILLEGAL_STATE)
              else
                let& _ := put_deal_states [(id, set_last_updated e s)] in
                let& next := slift (chk_i64 (e + 1)) in
                let& next_epoch := slift (next_update_epoch id
                                            (deal_updates_interval policy) next) in
                sret (mkCronAcc (amount_slashed acc) (provider_deals_to_remove acc)
                        (<[next_epoch := default [] (new_updates_scheduled acc !! next_epoch)
                                           ++ [id]]> (new_updates_scheduled acc))) in
            let& _ := if completed
                      then let& _ := slift (emit_parties d) in sret tt
                      else sret tt in
            sret acc) st (cron_inv lc tot i ids).
Proof.
  intros Hci Hd Hc Hs Hlu. pose proof Hci as [Hlast Hlc Hi Hmid Htot Hsl Hnd Hraw Hnew].
  pose proof Hmid as [Hdl _ _ Hsc _]. pose proof (do_deal _ _ _ Hdl id d Hd) as Hwf.
  pose proof (do_next _ _ _ Hdl) as Hn. pose proof (do_range _ _ _ Hdl id d Hd) as Hr.
  destruct (dw_provider d Hwf) as [p Hp]. destruct (emit_parties_ok d Hwf) as [cp Hcp].
  eapply succeeds_bind; [by eapply (update_step cid cid_inj e)|].
  intros [[[slashed pay] completed] remove] st1
    (-> & -> & -> & -> & Hframe & Hs1 & Hp1 & Htot1 & Hmid1).
  destruct (end_epoch d <=? e) eqn:Hend; cbn [negb].
  - apply succeeds_assoc. eapply succeeds_run.
    { by eapply (remove_completed_deal_spec id st1 d s); rewrite ?Hp1, ?Hs1. }
    rewrite Hp. apply succeeds_assoc. eapply succeeds_lift; [reflexivity|].
    apply succeeds_assoc, succeeds_skip, succeeds_skip. rewrite Hcp.
    apply succeeds_assoc. eapply succeeds_lift; [reflexivity|]. apply succeeds_skip, succeeds_ret.
    eapply cron_next; [exact Hci| |rewrite <- Hs1 in Hmid1; exact Hmid1|..]; cbn.
    + destruct Hframe. by constructor.
    + rewrite Hp1, lookup_delete_eq. discriminate.
    + intros p' sec k. by rewrite to_remove_push.
    + rewrite Htot1. lia.
    + lia.
    + intros ep k. rewrite Hp1, lookup_delete_eq. split; [by left|].
      intros [?|(_ & [? ?] & _)]; [done|discriminate].
  - rewrite Z.eqb_refl. cbn [negb]. unfold put_deal_states.
    apply succeeds_assoc, succeeds_modify, succeeds_assoc.
    eapply succeeds_lift; [unfold chk_i64; by rewrite (proj2 (in_i64_spec _)) by lia|].
    apply succeeds_assoc.
    eapply succeeds_lift; [apply next_update_epoch_ok; lia|]. apply succeeds_skip, succeeds_skip.
    apply succeeds_ret. cbn [foldl].
    eapply (cron_next lc tot i id ids acc _ st _ (to_remove_of (provider_deals_to_remove acc)));
      [exact Hci|..]; cbn.
    + destruct Hframe. by constructor.
    + rewrite Hs1. by apply mid_set_states.
    + intros d' _ Hu. specialize (Hu (set_last_updated e s)).
      rewrite lookup_insert_eq in Hu. specialize (Hu eq_refl). cbn in Hu.
      unfold EPOCH_UNDEFINED in Hu. lia.
    + done.
    + rewrite Htot1. lia.
    + lia.
    + intros ep k. set (nx := next_update id (deal_updates_interval policy) (e + 1)).
      rewrite Hp1, Hd. destruct (decide (ep = nx)) as [->|Hne].
      * rewrite lookup_insert_eq. cbn. rewrite elem_of_app, list_elem_of_singleton. naive_solver.
      * rewrite lookup_insert_ne by done. naive_solver.
Qed.

Lemma cron_pass_step lc tot i id ids acc st d s c :
  cron_inv lc tot i (id :: ids) acc st -> proposals st !! id = Some d -> cid d = Some c ->
  states st !! id = Some s -> last_updated_epoch s = EPOCH_UNDEFINED ->
  c ∈ pending_proposals st /\
  cron_inv lc tot i ids acc (set_pending_proposals (pending_proposals st ∖ {[c]}) st).
Proof.
  intros [] Hd Hc Hs Hlu. apply NoDup_cons in ci_nodup0 as [Hid Hnd].
  pose proof (mi_sched _ _ _ _ _ _ _ _ ci_mid0) as Hsc.
  assert (cron_sch st i (id :: ids) acc i id) as Hnow by (right; left; split; [done|left]).
  pose proof (sc_start _ _ _ Hsc i id d Hnow Hd) as Hst.
  destruct (pass_step cid cid_inj _ _ _ _ _ _ st id d c i ci_mid0 Hd) as [Hin Hmid];
    [by eexists|intros s' Hs'; congruence|done|done|lia|].
  split; [done|]. constructor; try done.
  eapply mid_sched; [exact Hmid|]. intros ep k. unfold cron_sch. rewrite elem_of_cons.
  split; [naive_solver|]. intros Hsch.
  assert (k <> id) as Hne; [|naive_solver]. intros ->.
  assert (cron_sch st i (id :: ids) acc ep id) as Hsch'.
  { unfold cron_sch. rewrite elem_of_cons. naive_solver. }
  pose proof (sc_once _ _ _ Hsc ep i id Hsch' Hnow) as ->.
  destruct Hsch as [[_ ?]|[[_ ?]|Hk]]; [lia|done|]. apply ci_new0 in Hk. lia.
Qed.

Lemma cron_deal_step lc tot i id ids acc st :
  cron_inv lc tot i (id :: ids) acc st ->
  succeeds (cron_deal ext policy env ctx acc id) st (cron_inv lc tot i ids).
Proof.
  intros Hci. pose proof Hci as [Hlast Hlc Hi Hmid Htot Hsl Hnd Hraw Hnew].
  pose proof Hmid as [Hdl _ Hpe Hsc _].
  assert (cron_sch st i (id :: ids) acc i id) as Hnow by (right; left; split; [done|left]).
  unfold cron_deal. apply succeeds_get. unfold find_proposal.
  destruct (proposals st !! id) as [d|] eqn:Hd; cycle 1.
  { apply succeeds_ret. eapply cron_next; [exact Hci|done|exact Hmid|..]; try done.
    - by rewrite Hd.
    - intros ep k. rewrite Hd. split; [by left|]. intros [?|(_ & [? ?] & _)]; done. }
  destruct (pe_cid _ _ _ _ _ Hpe id d Hd) as [c Hc].
  pose proof (sc_start _ _ _ Hsc i id d Hnow Hd) as Hst.
  eapply succeeds_lift; [by apply deal_cid_ok|].
  destruct (states st !! id) as [s|] eqn:Hs.
  - eapply (succeeds_run _ (Loaded s)).
    { unfold get_active_deal_or_process_timeout, sbind, sget, find_deal_state. by rewrite Hs. }
    destruct (last_updated_epoch s =? EPOCH_UNDEFINED) eqn:Hlu; bool_prop.
    + destruct (cron_pass_step lc tot i id ids acc st d s c Hci Hd Hc Hs Hlu) as [Hin Hci'].
      eapply succeeds_run; [apply remove_pending_st|]. unfold has_pending_deal.
      rewrite bool_decide_true by done. eapply succeeds_lift; [reflexivity|]. by apply succeeds_ret.
    + by apply cron_update_step.
  - eapply succeeds_bind; [eapply (timeout_step cid cid_inj e); try done; lia|].
    intros r st1 (-> & Hmid1 & Hframe & Hs1 & Htot1 & Hp1). apply succeeds_ret.
    pose proof (dw_pc d (do_deal _ _ _ Hdl id d Hd)).
    eapply cron_next; [exact Hci|exact Hframe|rewrite <- Hs1 in Hmid1; exact Hmid1|..]; cbn.
    + rewrite Hp1, lookup_delete_eq. discriminate.
    + done.
    + rewrite Htot1. lia.
    + lia.
    + intros ep k. rewrite Hp1, lookup_delete_eq. split; [by left|].
      intros [?|(_ & [? ?] & _)]; [done|discriminate].
Qed.

Lemma cron_epoch_step lc tot i acc st :
  cron_inv lc tot i [] acc st -> i < e ->
  succeeds (cron_epoch ext policy env ctx acc (i + 1)) st (cron_inv lc tot (i + 1) []).
Proof.
  intros [] Hi. unfold cron_epoch. apply succeeds_get.
  apply (succeeds_fold _ (cron_inv lc tot (i + 1))); [|intros; by apply cron_deal_step].
  constructor; try done; try lia.
  - eapply mid_sched; [exact ci_mid0|]. intros ep k. unfold cron_sch, in_ops.
    rewrite Hids, elem_of_elements. split.
    + intros [[? ?]|[[_ ?%not_elem_of_nil]|?]]; [|done|by right; right].
      destruct (decide (ep = i + 1)) as [->|]; [right; left; auto|left; split; [done|lia]].
    + intros [[? ?]|[[-> ?]|?]]; [left; split; [done|lia]|left; split; [done|lia]|auto].
  - rewrite Hids. apply NoDup_elements.
Qed.

Lemma seqZ_cons i n : 0 < n -> seqZ i n = i :: seqZ (i + 1) (n - 1).
Proof. intros Hn. by rewrite seqZ_cons by lia. Qed.

Lemma cron_loop lc tot n : forall i acc st,
  n = e - i -> cron_inv lc tot i [] acc st ->
  succeeds (sfold (cron_epoch ext policy env ctx) acc (seqZ (i + 1) n)) st (cron_inv lc tot e []).
Proof.
  intros i acc st Hn Hci. assert (0 <= n) as Hpos by (destruct Hci; lia).
  revert i acc st Hn Hci. pattern n. apply natlike_ind; [| |done].
  - intros i acc st Hn Hci. rewrite seqZ_nil by lia. apply succeeds_ret.
    by replace e with i by lia.
  - intros m Hm IH i acc st Hn Hci. rewrite seqZ_cons by lia. cbn [sfold].
    eapply succeeds_bind; [apply (cron_epoch_step lc tot i); [done|lia]|].
    intros acc' st' Hci'. replace (Z.succ m - 1) with m by lia. apply IH; [lia|done].
Qed.

(** A cron run succeeds from any state at rest in which cron has not run at
    the present epoch yet. *)
Lemma process_cron_spec st :
  Inv cid e st -> last_cron st < e ->
  succeeds (process_cron ext policy env ctx) st (fun slashed st' =>
    Inv cid e st' /\ 0 <= slashed /\ last_cron st' = e /\
    bt_total (escrow_table st') + slashed = bt_total (escrow_table st)).
Proof.
  intros [Hlc Hmid] Hlt. unfold process_cron. apply succeeds_get.
  eapply succeeds_lift; [unfold chk_i64; by rewrite (proj2 (in_i64_spec _)) by lia|].
  eapply succeeds_bind.
  { unfold cron_epochs. apply (cron_loop (last_cron st) (bt_total (escrow_table st))); [done|].
    constructor; cbn; try done; try lia.
    - eapply mid_sched; [|intros ep k].
      + eapply mid_forget; [eapply mid_mono; [| |exact Hmid]; lia|]. done.
      + unfold cron_sch. cbn [new_updates_scheduled]. rewrite lookup_empty. cbn. split.
        * intros Hk. left. split; [done|]. eapply sc_after; [apply Hmid|done].
        * intros [[? _]|[[_ ?%not_elem_of_nil]|?%not_elem_of_nil]]; done.
    - constructor.
    - intros ep k Hk. eapply sc_after; [apply Hmid|done].
    - intros ep k. rewrite lookup_empty. by intros ?%not_elem_of_nil. }
  intros acc st1 [Hlast Hlc1 Hi Hmid1 Htot Hsl _ Hraw Hnew].
  unfold remove_sector_deal_ids, remove_deals_by_epoch, put_batch_deals_by_epoch.
  apply succeeds_modify, succeeds_modify, succeeds_modify, succeeds_modify, succeeds_ret.
  split_and!; try done. set (st2 := set_last_cron _ _).
  assert (forall ep k, in_ops st2 ep k <-> cron_sch st1 e [] acc ep k) as Hops.
  { intros ep k. unfold in_ops at 1. cbn. rewrite put_many_fold, delete_all_get.
    unfold cron_sch, cron_epochs.
    assert ((exists ds, (ep, ds) ∈ btree_iter (new_updates_scheduled acc) /\ k ∈ ds) <->
            k ∈ default [] (new_updates_scheduled acc !! ep)) as ->.
    { setoid_rewrite elem_of_btree_iter. destruct (new_updates_scheduled acc !! ep) as [ds|]; cbn.
      - split; [by intros (? & [= <-] & ?)|eauto].
      - split; [by intros (? & ? & ?)|by intros ?%not_elem_of_nil]. }
    split.
    - intros [Hk|?]; [left|by right; right]. case_decide as Hep; [by apply not_elem_of_empty in Hk|].
      split; [done|]. apply Hraw in Hk. rewrite elem_of_seqZ in Hep. lia.
    - intros [[Hk ?]|[[_ ?%not_elem_of_nil]|?]]; [left|done|by right].
      rewrite decide_False; [done|]. rewrite elem_of_seqZ. lia. }
  apply mid_finish in Hmid1. constructor; [cbn; lia|].
  eapply mid_sched; [|intros; symmetry; apply Hops].
  destruct Hmid1 as [Hdl Hm Hpe Hsc Hse]. constructor.
  - by destruct Hdl.
  - by destruct Hm.
  - by destruct Hpe.
  - eapply sched_sub; [exact Hsc| |done|done]. intros ep k Hk. split; [done|].
    destruct Hk as [[_ ?]|[[_ ?%not_elem_of_nil]|?]]; [done..|eauto].
  - by destruct Hse.
Qed.

End methods.
