(* ===== verification/MarketPublish.v ===== *)
(** * Storage market: publication

    The publishing transaction re-establishes the invariant when it succeeds,
    for the deals the selection loop lets through. *)

From S2P Require Import Prelude Runtime MarketState Market MarketMaps MarketInv MarketWf.
From S2P Require Import MarketProofs.

Implicit Types (st : State) (d : DealProposal) (s : DealState) (ss : gmap Z DealState).

(** ** Locking *)

Lemma maybe_lock_inv a amt st u st' :
  maybe_lock_balance a amt st = (Ok u, st') ->
  0 <= amt /\ moved st st' (at_addr a amt) (fun _ => 0) 0 0 0 0 /\
  forall b, bt_get (locked_table st) b <= bt_get (escrow_table st) b ->
    bt_get (locked_table st') b <= bt_get (escrow_table st') b.
Proof.
  unfold maybe_lock_balance. intros H. st_inv.
  match goal with Hb : bt_add ?t _ _ = Ok _ |- _ =>
    destruct (bt_add_spec t a amt (bt_add_inv _ _ _ _ Hb)) as (t' & Ht & Hg & _);
    rewrite Ht in Hb; injection Hb as <- end.
  split_and!; [lia|constructor; cbn; intros; rewrite ?Hg; try lia; done|].
  cbn. intros b Hb. rewrite Hg. unfold at_addr. destruct (addr_eqb a b) eqn:Hab; [|lia].
  apply bool_decide_eq_true in Hab as <-. lia.
Qed.

(** The terms of a deal, before its funds are locked. *)
Record terms_ok (e : Z) d : Prop := {
  to_term : e <= start_epoch d < end_epoch d /\ end_epoch d <= I64_MAX;
  to_price : 0 <= storage_price_per_epoch d;
  to_cc : 0 <= client_collateral d;
  to_client : exists c, client d = AddrId c;
  to_provider : exists p, provider d = AddrId p;
}.

Lemma lock_inv e d st u st' :
  0 <= e -> terms_ok e d -> lock_client_and_provider_balances d st = (Ok u, st') ->
  deal_wf d /\
  moved st st' (owed d None) (fun _ => 0) 0 (client_collateral d) (provider_collateral d)
    (unpaid d None) /\
  ((forall b, bt_get (locked_table st) b <= bt_get (escrow_table st) b) ->
   forall b, bt_get (locked_table st') b <= bt_get (escrow_table st') b).
Proof.
  intros He [] H. unfold lock_client_and_provider_balances, client_balance_requirement in H.
  assert (total_storage_fee d = Ok (unpaid d None)) as Hfee.
  { unfold total_storage_fee, duration, I64_MAX in *.
    unfold chk_i64. rewrite (proj2 (in_i64_spec _)) by lia. cbn. unfold unpaid, as_u64. cbn.
    by rewrite Z.mod_small by lia. }
  rewrite Hfee in H. cbn [rbind] in H.
  apply sbind_ok in H as (r & s1 & Hr & H). injection Hr as <- <-.
  apply sbind_ok in H as (u1 & st1 & H1 & H). apply maybe_lock_inv in H1 as (_ & M1 & Hc1).
  apply sbind_ok in H as (u2 & st2 & H2 & H). apply maybe_lock_inv in H2 as (Hpc & M2 & Hc2).
  unfold sbind, sget, smodify, slift in H. injection H as <- <-.
  assert (deal_wf d) as Hwf by (constructor; done || lia).
  split_and!; [done| |intros Hc b; cbn; by apply Hc2, Hc1].
  pose proof (moved_trans _ _ _ _ _ _ _ _ _ _ _ _ _ _ _ M1 M2) as [].
  constructor; cbn in *; intros; try lia; try done.
Qed.

Lemma generate_id_inv st id st' :
  generate_storage_deal_id st = (Ok id, st') ->
  id = next_id st /\ st' = set_next_id (id + 1) st /\ id + 1 <= U64_MAX.
Proof.
  unfold generate_storage_deal_id. intros H. st_inv. unfold U64_MAX. split_and!; try done. lia.
Qed.

(** ** The transaction *)

Section publish.
Context (ext : Ext) (policy : Policy) (e : Z) (hash : bytes -> bytes).
Notation cid := (proposal_cid ext hash).
Context (cid_inj : forall d d' c, cid d = Some c -> cid d' = Some c -> d = d').
Context (He : 0 <= e) (Hinterval : 0 < deal_updates_interval policy).

(** What the selection guarantees of a deal. *)
Record vd_ok st (vd : ValidDeal) : Prop := {
  vo_terms : terms_ok e (vd_proposal vd);
  vo_cid : cid (vd_proposal vd) = Some (vd_cid vd);
  vo_fresh : vd_cid vd ∉ pending_proposals st;
}.

(** The state once the accumulated deals are stored. *)
Definition stored (acc : NewDeals) st : State :=
  set_deal_ops_by_epoch
    (foldl (fun ops '(epoch, id) => put_many ops epoch [id]) (deal_ops_by_epoch st)
       (deals_by_epoch acc))
  (set_pending_deal_allocation_ids
    (foldl (fun m '(id, a) => <[id := a]> m) (pending_deal_allocation_ids st)
       (new_allocation_ids acc))
  (set_proposals
    (foldl (fun m '(id, p) => <[id := p]> m) (proposals st) (deal_proposals acc))
  (set_pending_proposals
    (foldl (fun x c => {[c]} ∪ x) (pending_proposals st) (pending_deals acc)) st))).

Record pub_inv (tot : Z) (vds : list ValidDeal) (acc : NewDeals) st : Prop := {
  pb_cron : -1 <= last_cron st < e;
  pb_inv : mid cid e (states st) (in_ops (stored acc st)) (last_cron st) (last_cron st)
    (fun _ _ _ => False) (stored acc st);
  pb_total : bt_total (escrow_table st) = tot;
  pb_vds : Forall (vd_ok (stored acc st)) vds;
  pb_nodup : NoDup (vd_cid <$> vds);
}.

Lemma publish_deal_step allocs tot vd vds acc st acc' st' :
  pub_inv tot (vd :: vds) acc st -> publish_deal policy allocs acc vd st = (Ok acc', st') ->
  pub_inv tot vds acc' st'.
Proof.
  intros [Hlc Hmid Htot [Hvd Hvds]%Forall_cons [Hnin Hnd]%NoDup_cons] H.
  destruct Hvd as [Hterms Hcid Hfresh].
  unfold publish_deal in H. apply sbind_ok in H as (u & st1 & Hlock & H).
  apply (lock_inv e _ st u st1 He Hterms) in Hlock as (Hwf & M & Hcov).
  apply sbind_ok in H as (id & st2 & Hgen & H).
  apply generate_id_inv in Hgen as (Hid & -> & Hmax).
  apply sbind_ok in H as (ep & st3 & Hep & H). injection Hep as Hep <-.
  apply next_update_epoch_inv in Hep.
  injection H as <- <-. set (d := vd_proposal vd) in *.
  destruct (to_term e d Hterms) as [Hterm _].
  pose proof (next_update_bounds id _ (start_epoch d) Hinterval ltac:(lia)) as Hb.
  rewrite <- Hep in Hb. clear Hep.
  pose proof (strip_frame _ _ (mv_frame _ _ _ _ _ _ _ _ M)) as [Hn Hops Hcron Hsec].
  pose proof (strip_proposals _ _ (mv_frame _ _ _ _ _ _ _ _ M)) as Hprops.
  pose proof (strip_pending _ _ (mv_frame _ _ _ _ _ _ _ _ M)) as Hpend.
  pose proof (strip_states _ _ (mv_frame _ _ _ _ _ _ _ _ M)) as Hstates.
  set (acc' := mkNewDeals _ _ _ _ _). set (st' := set_next_id (id + 1) st1).
  assert (proposals (stored acc' st') = <[id := d]> (proposals (stored acc st))) as Hp'.
  { cbn. by rewrite foldl_app, Hprops. }
  assert (pending_proposals (stored acc' st') =
    {[vd_cid vd]} ∪ pending_proposals (stored acc st)) as Hpe'.
  { cbn. by rewrite foldl_app, Hpend. }
  assert (forall ep' k, in_ops (stored acc' st') ep' k <->
    in_ops (stored acc st) ep' k \/ ep' = ep /\ k = id) as Hops'.
  { intros ep' k. unfold in_ops. cbn. rewrite foldl_app, Hops. cbn. rewrite put_many_get.
    by rewrite list_elem_of_singleton. }
  assert (id = next_id (stored acc st)) as Hid' by (cbn; congruence).
  assert (money_ok (states st) (stored acc' st')) as Hm'.
  { pose proof (mi_money _ _ _ _ _ _ _ _ Hmid) as Hm.
    assert (moved (stored acc st) (stored acc st1) (owed d None) (fun _ => 0) 0
      (client_collateral d) (provider_collateral d) (unpaid d None)) as M'.
    { destruct M. constructor; try done. pose proof (f_equal pending_deal_allocation_ids mv_frame)
        as Hpa. unfold strip in Hpa |- *. cbn in Hpa |- *.
      by rewrite Hprops, Hstates, Hpend, Hn, Hops, Hcron, Hsec, Hpa. }
    eapply (money_add _ _ _ id d) in M' as Hm2; [|done| | | | |done..].
    - destruct Hm2. constructor; cbn in *; rewrite ?foldl_app, ?Hprops; done.
    - destruct (proposals (stored acc st) !! id) eqn:Hx; [|done].
      apply (do_range _ _ _ (mi_deals _ _ _ _ _ _ _ _ Hmid)) in Hx. lia.
    - destruct (states st !! id) eqn:Hx; [|done].
      apply (do_state _ _ _ (mi_deals _ _ _ _ _ _ _ _ Hmid)) in Hx as (d' & Hx & _).
      apply (do_range _ _ _ (mi_deals _ _ _ _ _ _ _ _ Hmid)) in Hx. lia.
    - done.
    - apply Hcov. apply (mo_cover _ _ Hm). }
  constructor.
  - cbn. by rewrite Hcron.
  - cbn. rewrite Hstates, Hcron. eapply mid_sched; [|intros; symmetry; apply Hops'].
    rewrite Hid'. eapply publish_step; rewrite <- ?Hid'; try done; try lia.
  - cbn. rewrite (mv_total _ _ _ _ _ _ _ _ M). lia.
  - rewrite Forall_forall in Hvds |- *. intros v Hv. destruct (Hvds v Hv) as [? ? Hf].
    constructor; try done. rewrite Hpe'. apply not_elem_of_union. split; [|done].
    intros Heq%elem_of_singleton. apply Hnin, list_elem_of_fmap. by exists v.
  - done.
Qed.

Lemma publish_deals_Inv allocs vds st ids st' :
  Inv cid e st -> last_cron st < e -> Forall (vd_ok st) vds -> NoDup (vd_cid <$> vds) ->
  publish_deals policy allocs vds st = (Ok ids, st') ->
  Inv cid e st' /\ bt_total (escrow_table st') = bt_total (escrow_table st).
Proof.
  intros [Hlc Hmid] Hlt Hvds Hnd H. unfold publish_deals in H.
  apply sbind_ok in H as (acc & st1 & Hf & H).
  assert (pub_inv (bt_total (escrow_table st)) [] acc st1) as [].
  { eapply (sfold_inv_rest _ (pub_inv _)); [| |exact Hf].
    - assert (stored (mkNewDeals [] [] [] [] []) st = st) as Hst by (by destruct st).
      constructor; rewrite ?Hst; done || lia.
    - intros vd vds' a x a' x' ? ?. by eapply publish_deal_step. }
  unfold sbind, put_pending_deals, put_deal_proposals, put_pending_deal_allocation_ids,
    put_deals_by_epoch, smodify, sret in H. injection H as <- <-.
  split; [|done]. constructor; [cbn; lia|]. exact pb_inv0.
Qed.
End publish.
