(* ===== verification/MarketChain.v ===== *)
(** * Storage market: the actor on the chain

    Every message keeps the market's invariant and never lowers the surplus of
    its balance over the funds in escrow.  What the rest of the system
    contributes is stated in [env_ok] and [adm]. *)

From S2P Require Import Prelude Runtime Chain MarketState Market MarketMaps MarketInv MarketWf.
From S2P Require Import MarketProofs MarketPublish.

Implicit Types (st : State) (d : DealProposal).

Section market.
Context {Net : Type} (ext : Ext) (policy : Policy) (total_fil_circ_supply : Net -> Z).
Context (hash : bytes -> bytes).
Notation cid := (proposal_cid ext hash).
Context (cid_inj : forall d d' c, cid d = Some c -> cid d' = Some c -> d = d').
Context (Hinterval : 0 < deal_updates_interval policy <= 2 ^ 61).
Context (Hids : forall s : gset Z, hamt_order ext s ≡ₚ elements s).

Definition escrowed (s : option State) : Z :=
  match s with None => 0 | Some st => bt_total (escrow_table st) end.
Definition cron_at (s : option State) : Z :=
  match s with None => EPOCH_UNDEFINED | Some st => last_cron st end.
Definition surplus (c : Conf State) : Z := c_balance c - escrowed (c_state c).
Definition good (c : Conf State) : Prop :=
  match c_state c with None => True | Some st => Inv cid (c_epoch c) st end.
Definition safe (c c' : Conf State) : Prop := good c -> good c' /\ surplus c <= surplus c'.

(** What the market relies on: the hash function of the VM is one function;
    the datacap actor, which only calls the verified registry's hook, does not
    call the market back; the market's cron method, which only the cron actor
    may call, is not run by a message the market sends. *)
Record env_ok (env : Env Net State Params bytes) : Prop := {
  ev_hash : env_hash_blake2b env = hash;
  ev_datacap : forall req net s bal, to_addr req = DATACAP_TOKEN_ACTOR_ADDR ->
    so_state (env_send env req net s bal) = s;
  ev_cron : forall req net s bal, cron_at (so_state (env_send env req net s bal)) = cron_at s;
}.

(** Cron runs last in an epoch, and a miner reports terminations at the
    current epoch. *)
Definition adm (ctx : Ctx) (m : Msg) (s : option State) : Prop :=
  match m with
  | PublishStorageDeals _ _ => cron_at s < ctx_epoch ctx
  | CronTick => cron_at s < ctx_epoch ctx < 2 ^ 62
  | OnMinerSectorsTerminate epoch _ => epoch = ctx_epoch ctx
  | _ => True
  end.

Lemma safe_refl c : safe c c.
Proof. intros ?. split; [done|lia]. Qed.

Lemma safe_trans c1 c2 c3 : safe c1 c2 -> safe c2 c3 -> safe c1 c3.
Proof. intros H1 H2 H. destruct (H1 H) as [Hg ?]. destruct (H2 Hg). split; [done|lia]. Qed.

Lemma safe_tick e e' s bal : e <= e' -> safe (mkConf e s bal) (mkConf e' s bal).
Proof.
  intros He Hg. split; [|unfold surplus; cbn; lia]. destruct s as [st|]; [|done]. by eapply Inv_mono.
Qed.

Lemma safe_more e s bal bal' : bal <= bal' -> safe (mkConf e s bal) (mkConf e s bal').
Proof. intros Hb Hg. split; [done|]. unfold surplus. cbn. lia. Qed.

(** ** Deposits and withdrawals *)

Lemma Inv_escrow e st t :
  Inv cid e st -> (forall a, bt_get (locked_table st) a <= bt_get t a) ->
  Inv cid e (set_escrow_table t st).
Proof.
  intros [Hlc [Hd Hm Hp Hs Hse]] Ht. constructor; [done|]. constructor.
  - by destruct Hd.
  - destruct Hm. by constructor.
  - by destruct Hp.
  - by destruct Hs.
  - by destruct Hse.
Qed.

Lemma Inv_new e : 0 <= e -> Inv cid e new_state.
Proof.
  intros He. constructor; [cbn; unfold EPOCH_UNDEFINED; lia|].
  assert (forall ep id, ~ in_ops new_state ep id) as Hops.
  { intros ep id H. change (id ∈ (∅ : gset Z)) in H. set_solver. }
  assert (forall p sec, sector_list new_state p sec = []) as Hsec by done.
  repeat constructor; intros; try (cbn; unfold U64_MAX; lia);
    first
    [ done
    | exfalso; by eapply Hops
    | match goal with H : _ ∈ sector_list _ _ _ |- _ => by apply elem_of_nil in H end
    | rewrite Hsec; constructor ].
Qed.

Lemma add_balance_spec e st a v u st' :
  Inv cid e st -> 0 <= v -> add_balance_to_escrow_table a v st = (Ok u, st') ->
  Inv cid e st' /\ bt_total (escrow_table st') = bt_total (escrow_table st) + v.
Proof.
  intros Hinv Hv H. unfold add_balance_to_escrow_table in H. st_inv.
  match goal with Hb : bt_add ?t _ _ = Ok _ |- _ =>
    destruct (bt_add_spec t a v (bt_add_inv _ _ _ _ Hb)) as (t' & Ht & Hg & Htot);
    rewrite Ht in Hb; injection Hb as <- end.
  split; [|done]. apply Inv_escrow; [done|]. intros b. rewrite Hg.
  pose proof (mo_cover _ _ (mi_money _ _ _ _ _ _ _ _ (in_mid _ _ _ Hinv)) b).
  unfold at_addr. destruct (addr_eqb a b); lia.
Qed.

(** A withdrawal takes what is asked for, up to what is not locked. *)
Lemma withdraw_spec e st a v :
  Inv cid e st -> 0 <= v ->
  let ex := Z.min (bt_get (escrow_table st) a - bt_get (locked_table st) a) v in
  succeeds (withdraw_balance_from_escrow_table a v) st (fun r st' =>
    r = ex /\ 0 <= ex /\ Inv cid e st' /\
    bt_get (escrow_table st') a = bt_get (escrow_table st) a - ex /\
    bt_total (escrow_table st') = bt_total (escrow_table st) - ex).
Proof.
  intros Hinv Hv ex. unfold withdraw_balance_from_escrow_table. apply succeeds_get.
  pose proof (mo_cover _ _ (mi_money _ _ _ _ _ _ _ _ (in_mid _ _ _ Hinv))) as Hc.
  pose proof (Hc a). pose proof (locked_nonneg _ _ _ a (mi_deals _ _ _ _ _ _ _ _ (in_mid _ _ _ Hinv))
    (mi_money _ _ _ _ _ _ _ _ (in_mid _ _ _ Hinv))).
  unfold bt_subtract_with_minimum.
  rewrite Z.max_r by lia. fold ex. destruct (Z.gtb_spec ex 0).
  - destruct (bt_add_spec (escrow_table st) a (- ex)) as (t & Ht & Hg & Htot); [lia|].
    eapply succeeds_lift; [by rewrite Ht|]. cbn. eapply succeeds_modify, succeeds_ret.
    split_and!; cbn [escrow_table set_escrow_table]; [done|lia| |rewrite Hg; unfold at_addr|lia].
    + apply Inv_escrow; [done|]. intros b. rewrite Hg. pose proof (Hc b).
      unfold at_addr. destruct (addr_eqb a b) eqn:Hab; [|lia].
      apply bool_decide_eq_true in Hab as <-. lia.
    + unfold addr_eqb. rewrite bool_decide_true by done. lia.
  - eapply succeeds_lift; [done|]. cbn. eapply succeeds_modify, succeeds_ret.
    split_and!; cbn [escrow_table set_escrow_table]; [done|lia| |lia|lia]. by apply Inv_escrow.
Qed.

(** ** Messages the market sends *)

Section run.
Context (env : Env Net State Params bytes) (ctx : Ctx).
Notation e := (ctx_epoch ctx).
Notation M := (M Net State Params bytes).
Notation World := (World Net State Params).
Context (Henv : env_ok env) (Hsend : send_moves w_balance debited safe env e) (Hctx : ctx_ok ctx = true).
Implicit Types w : World.

Definition conf w : Conf State := mkConf e (w_state w) (w_balance w).

Definition wsafe w w' : Prop :=
  safe (conf w) (conf w') /\ cron_at (w_state w') = cron_at (w_state w).

Lemma wsafe_refl w w' : w_state w' = w_state w -> w_balance w' = w_balance w -> wsafe w w'.
Proof. intros Hs Hb. unfold wsafe, conf. rewrite Hs, Hb. split; [apply safe_refl|done]. Qed.

Lemma wsafe_trans w1 w2 w3 : wsafe w1 w2 -> wsafe w2 w3 -> wsafe w1 w3.
Proof. intros [] []. split; [by eapply safe_trans|congruence]. Qed.

#[local] Instance wsafe_pre : WorldPre wsafe.
Proof. constructor; [intros; by apply wsafe_refl|apply wsafe_trans]. Qed.

(** An operation that changes nothing but through the free messages it sends. *)
Notation quiet := (quiet wsafe).

Lemma quiet_send req : send_value req = 0 -> quiet (send env req).
Proof.
  intros Hv w r w' H. split.
  - eapply safe_trans; [|exact (Hsend req w r w' H)].
    apply safe_more. unfold debited. rewrite Hv. repeat case_match; lia.
  - run_inv. apply (ev_cron _ Henv).
Qed.

Lemma quiet_send_simple to m p : quiet (send_simple env to m p 0).
Proof. by apply quiet_send. Qed.

(** A paid message that succeeded. *)
Lemma send_paid to m p v w r w' x :
  send_simple env to m p v w = Ok (r, w') -> extract_send_result r = @Ok error _ x ->
  safe (mkConf e (w_state w) (w_balance w - v)) (conf w').
Proof.
  intros H Hx. pose proof (Hsend _ _ _ _ H) as Hs.
  unfold debited, extract_send_result in *. cbn in *.
  repeat case_match; simplify_eq; done.
Qed.

(** A transaction that adds [delta] to the funds in escrow. *)
Lemma transaction_safe {A} (f : SM A) delta w a w' :
  transaction_st f w = Ok (a, w') ->
  (forall st st', w_state w = Some st -> Inv cid e st -> f st = (Ok a, st') ->
     Inv cid e st' /\ bt_total (escrow_table st') = bt_total (escrow_table st) + delta) ->
  safe (conf w) (mkConf e (w_state w') (w_balance w' + delta)).
Proof.
  intros (st & st' & Hst & Hf & ->)%transaction_st_ok Hstep Hg.
  unfold good, surplus in *. cbn in *. rewrite Hst in *. cbn in *.
  destruct (Hstep st st' eq_refl Hg Hf). split; [done|lia].
Qed.

#[local] Hint Resolve quiet_send_simple : quiet.

Lemma quiet_control_addrs i : quiet (request_miner_control_addrs ext env i).
Proof. unfold request_miner_control_addrs. quiet_tac. Qed.
#[local] Hint Resolve quiet_control_addrs : quiet.

Lemma quiet_escrow_address a : quiet (escrow_address ext env a).
Proof. unfold escrow_address. quiet_tac. Qed.

Lemma quiet_publisher_checks a : quiet (publisher_checks ext env ctx a).
Proof. unfold publisher_checks. quiet_tac. Qed.

Lemma quiet_baseline : quiet (request_current_baseline_power ext env).
Proof. unfold request_current_baseline_power. quiet_tac. Qed.

Lemma quiet_power : quiet (request_current_network_power ext env).
Proof. unfold request_current_network_power. quiet_tac. Qed.

Lemma quiet_validate_deal deal p b :
  quiet (validate_deal ext policy total_fil_circ_supply env ctx deal p b).
Proof.
  unfold validate_deal, deal_proposal_is_internally_valid.
  repeat first [by apply quiet_send | progress quiet_tac].
Qed.

Lemma quiet_balance_of a : quiet (balance_of ext env a).
Proof. unfold balance_of. quiet_tac. Qed.

Lemma quiet_transfer_from p : quiet (transfer_from ext env p).
Proof. unfold transfer_from. quiet_tac. Qed.

Lemma quiet_notify u x : quiet (notify_deal ext env u x).
Proof. unfold notify_deal. quiet_tac. Qed.
#[local] Hint Resolve quiet_escrow_address quiet_publisher_checks quiet_baseline quiet_power
  quiet_validate_deal quiet_balance_of quiet_transfer_from quiet_notify : quiet.

(** ** Handlers *)

Lemma safe_total_eq st st' : escrow_table st' = escrow_table st ->
  bt_total (escrow_table st') = bt_total (escrow_table st) + 0.
Proof. intros ->. lia. Qed.

Lemma safe_frame w w' : w_state w' = w_state w -> w_balance w' = w_balance w ->
  safe (conf w) (conf w').
Proof. intros Hs Hb. by apply wsafe_refl. Qed.

(** The outcome of a stateful operation that succeeds. *)
Lemma succeeds_elim {A} (f : SM A) st Q a st' : succeeds f st Q -> f st = (Ok a, st') -> Q a st'.
Proof. intros (b & x & Hf & HQ) H. rewrite Hf in H. by injection H as <- <-. Qed.

Lemma burn_safe amt w u w' :
  0 <= amt -> burn env amt w = Ok (u, w') ->
  safe (mkConf e (w_state w) (w_balance w - amt)) (conf w').
Proof.
  intros Hamt H. unfold burn in H. destruct (Z.eqb_spec amt 0) as [->|Hne]; cbn [negb] in H.
  - run_inv. unfold conf. rewrite Z.sub_0_r. apply safe_refl.
  - apply bind_ok in H as (r & w1 & Hs & H). apply bind_ok in H as (x & w2 & Hx & H).
    apply lift_ok in Hx as [Hx ->]. apply ret_ok in H. injection H as -> ->. by eapply send_paid.
Qed.

Lemma add_balance_safe a w u w' :
  add_balance ext env ctx a w = Ok (u, w') ->
  safe (mkConf e (w_state w) (w_balance w - ctx_value_received ctx)) (conf w').
Proof.
  intros H. unfold add_balance in H. run_step. bool_prop.
  apply bind_ok in H as (u0 & w0 & Ha & H). apply accept_any_ok in Ha as [_ ->].
  apply bind_ok in H as ([[nominal ?] ?] & w1 & Hesc & H). apply quiet_escrow_address in Hesc.
  destruct Hesc as [Hesc _].
  eapply (transaction_safe _ (ctx_value_received ctx)) in H.
  2: { intros st st' _ Hinv Hf. eapply add_balance_spec; [done| |done]. lia. }
  intros Hg. destruct (Hesc Hg) as [Hg1 Hs1]. destruct (H Hg1) as [Hg2 Hs2].
  split; [done|]. unfold surplus in *. cbn in *. lia.
Qed.

Lemma withdraw_balance_safe a v w r w' :
  withdraw_balance ext env ctx a v w = Ok (r, w') -> safe (conf w) (conf w').
Proof.
  intros H. unfold withdraw_balance in H. run_step. bool_prop.
  apply bind_ok in H as ([[nominal recipient] approved] & w1 & Hesc & H).
  apply quiet_escrow_address in Hesc as [Hesc _].
  apply bind_ok in H as (u & w2 & Hc & H). apply caller_is_ok in Hc as (_ & _ & ->).
  apply bind_ok in H as (ex & w3 & Ht & H).
  apply bind_ok in H as (res & w4 & Hs & H). apply bind_ok in H as (x & w5 & Hx & H).
  apply lift_ok in Hx as [Hx ->]. apply ret_ok in H. injection H as -> ->.
  eapply send_paid in Hs; [|done].
  eapply (transaction_safe _ (- ex)) in Ht.
  2: { intros st st' _ Hinv Hf.
       eapply succeeds_elim in Hf; [|by apply (withdraw_spec (ctx_epoch ctx))].
       destruct Hf as (-> & _ & ? & _ & ->). split; [done|lia]. }
  eapply safe_trans; [exact Hesc|]. eapply safe_trans; [exact Ht|]. exact Hs.
Qed.

Lemma epoch_nonneg : 0 <= e.
Proof. unfold ctx_ok in Hctx. bool_prop. lia. Qed.

Lemma constructor_safe w u w' :
  constructor ctx w = Ok (u, w') -> safe (conf w) (conf w').
Proof.
  intros H. unfold constructor in H. run_inv. intros _. unfold good, surplus, conf. cbn.
  rewrite H. cbn. split; [apply Inv_new, epoch_nonneg|]. unfold bt_total. rewrite map_sum_empty. lia.
Qed.

Lemma batch_activate_safe sectors c w r w' :
  batch_activate_deals ext env ctx sectors c w = Ok (r, w') -> safe (conf w) (conf w').
Proof.
  intros H. unfold batch_activate_deals in H.
  apply bind_ok in H as (u & w1 & Hc & H). apply caller_type_ok in Hc as [_ ->].
  eapply (transaction_safe _ 0) in H; [by rewrite Z.add_0_r in H|].
  intros st st' _ Hinv Hf.
  eapply activate_deals_Inv in Hf; [|apply Henv|apply cid_inj|apply epoch_nonneg|done].
  destruct Hf as [? ->]. split; [done|lia].
Qed.

Lemma sector_content_safe sectors w r w' :
  sector_content_changed ext env ctx sectors w = Ok (r, w') -> safe (conf w) (conf w').
Proof.
  intros H. unfold sector_content_changed in H.
  apply bind_ok in H as (u & w1 & Hc & H). apply caller_type_ok in Hc as [_ ->].
  eapply (transaction_safe _ 0) in H; [by rewrite Z.add_0_r in H|].
  intros st st' _ Hinv Hf.
  eapply change_sectors_Inv in Hf; [|apply Henv|apply cid_inj|apply epoch_nonneg|done].
  destruct Hf as [? ->]. split; [done|lia].
Qed.

Lemma bitfield_nodup l : bitfield_ok l = true -> NoDup l.
Proof.
  unfold bitfield_ok. intros [H _]%andb_prop. apply bool_decide_eq_true in H.
  induction H as [|x l Hs IH Hx]; constructor; [|done].
  intros Hin. rewrite Forall_forall in Hx. apply Hx in Hin. lia.
Qed.

(** A transaction that takes an amount out of escrow, which is then burnt. *)
Lemma transaction_burn {A} (f : SM A) (amt : A -> Z) w a w1 c :
  transaction_st f w = Ok (a, w1) ->
  (forall st, w_state w = Some st -> Inv cid e st -> succeeds f st (fun a st' =>
     Inv cid e st' /\ 0 <= amt a /\
     bt_total (escrow_table st') + amt a = bt_total (escrow_table st))) ->
  (0 <= amt a -> safe (mkConf e (w_state w1) (w_balance w1 - amt a)) c) ->
  safe (conf w) c.
Proof.
  intros Ht Hf Hburn Hg.
  pose proof Ht as (st & st' & Hst & Hrun & _)%transaction_st_ok.
  pose proof Hg as Hinv. unfold good, conf in Hinv. cbn in Hinv. rewrite Hst in Hinv.
  pose proof (succeeds_elim _ _ _ _ _ (Hf st Hst Hinv) Hrun) as (_ & Hamt & _).
  revert Hg. eapply safe_trans; [|by apply Hburn].
  eapply (transaction_safe _ (- amt a)); [exact Ht|]. intros x x' Hx Hi Hr.
  pose proof (succeeds_elim _ _ _ _ _ (Hf x Hx Hi) Hr) as (? & _ & ?). split; [done|lia].
Qed.

Lemma terminate_safe sectors w u w' :
  bitfield_ok sectors = true -> on_miner_sectors_terminate ext env ctx e sectors w = Ok (u, w') ->
  safe (conf w) (conf w').
Proof.
  intros Hbf H. unfold on_miner_sectors_terminate in H.
  apply bind_ok in H as (u1 & w1 & Hc & H). apply caller_type_ok in Hc as [_ ->].
  apply bind_ok in H as (slashed & w2 & Ht & H).
  change (safe (conf (set_validated w)) (conf w')). eapply (transaction_burn _ id); [exact Ht| |].
  - intros st _ Hinv. eapply terminate_sectors_spec;
      [apply Henv|apply cid_inj|apply epoch_nonneg|done|by apply bitfield_nodup].
  - intros Hs. eapply burn_safe; [done|]. rewrite <- H. unfold burn, id in *.
    destruct (Z.gtb_spec slashed 0), (Z.eqb_spec slashed 0); cbn; done || lia.
Qed.

Lemma cron_safe w u w' :
  cron_at (w_state w) < e < 2 ^ 62 -> cron_tick ext policy env ctx w = Ok (u, w') ->
  safe (conf w) (conf w').
Proof.
  intros [Hlc He] H. unfold cron_tick in H.
  apply bind_ok in H as (u1 & w1 & Hc & H). apply caller_is_ok in Hc as (_ & _ & ->).
  apply bind_ok in H as (slashed & w2 & Ht & H).
  change (safe (conf (set_validated w)) (conf w')). eapply (transaction_burn _ id); [exact Ht| |intros; by eapply burn_safe].
  cbn. intros st Hst Hinv. rewrite Hst in Hlc. eapply succeeds_mono.
  - eapply process_cron_spec; [apply Henv|apply cid_inj|apply epoch_nonneg|done..].
  - intros a st' (? & ? & _ & ?). done.
Qed.

Lemma settle_safe ids w r w' :
  bitfield_ok ids = true -> settle_deal_payments ext env ctx ids w = Ok (r, w') ->
  safe (conf w) (conf w').
Proof.
  intros Hbf H. unfold settle_deal_payments in H.
  apply bind_ok in H as (u1 & w1 & Hc & H). apply accept_any_ok in Hc as (_ & ->).
  apply bind_ok in H as (acc & w2 & Ht & H). apply bind_ok in H as (u2 & w3 & Hb & H).
  apply bind_ok in H as (b & w4 & Hl & H). apply lift_ok in Hl as [_ ->].
  apply ret_ok in H. injection H as -> ->.
  change (safe (conf (set_validated w)) (conf w3)). eapply (transaction_burn _ total_slashed); [exact Ht| |intros; by eapply burn_safe].
  cbn. intros st Hst Hinv. eapply succeeds_mono.
  - eapply settle_deals_spec; [apply Henv|apply cid_inj|apply epoch_nonneg|done|].
    by apply bitfield_nodup.
  - intros a st' (? & ? & ? & _). done.
Qed.

(** *** Publication *)

(** What [validate_deal] guarantees of the terms of a proposal. *)
Definition terms_valid d : Prop :=
  e <= start_epoch d < end_epoch d /\ 0 <= storage_price_per_epoch d /\ 0 <= client_collateral d.

Lemma validate_deal_terms_ok d p b s u :
  validate_deal_terms ext policy ctx d p b s = Ok u -> terms_valid d.
Proof.
  unfold validate_deal_terms, deal_duration_bounds, deal_price_per_epoch_bounds,
    deal_client_collateral_bounds. intros H.
  repeat match goal with H : (if ?b then Err _ else _) = Ok _ |- _ =>
    destruct b eqn:?; [discriminate|] end.
  apply rbind_ok in H as (dur & _ & H).
  repeat match goal with H : (if ?b then Err _ else _) = Ok _ |- _ =>
    destruct b eqn:?; [discriminate|] end.
  apply rbind_ok in H as ([lo hi] & _ & H).
  repeat match goal with H : (if ?b then Err _ else _) = Ok _ |- _ =>
    destruct b eqn:?; [discriminate|] end.
  bool_prop. repeat match goal with H : _ || _ = false |- _ => apply orb_false_elim in H as [] end.
  bool_prop. unfold terms_valid. lia.
Qed.

Definition flag_ok (flags : list bool) (entry : nat * ClientDealProposal) : Prop :=
  flags !! fst entry = Some true -> terms_valid (proposal (snd entry)).

Lemma validity_loop deals p b w flags w' :
  mfold (fun acc deal =>
    let* r := validate_deal ext policy total_fil_circ_supply env ctx deal p b in
    let* r := caught r in
    ret (acc ++ [match r with inl _ => true | inr _ => false end])) [] deals w = Ok (flags, w') ->
  Forall (flag_ok flags) (zip (seq 0 (length deals)) deals) /\ wsafe w w'.
Proof.
  intros H. eapply (mfold_rel _ wsafe (fun rest acc _ => exists front, deals = front ++ rest /\
    length acc = length front /\
    forall i p, front !! i = Some p -> acc !! i = Some true -> terms_valid (proposal p)))
    in H as [(front & Heq & Hlen & HQ) Hw].
  - split; [|done]. rewrite app_nil_r in Heq. subst front. apply Forall_lookup. intros i [j d] Hi.
    apply lookup_zip_with_Some in Hi as (j' & d' & [= <- <-] & Hj & Hd).
    apply lookup_seq in Hj as [-> _]. intros Hf. by eapply HQ.
  - intros. by apply wsafe_refl.
  - apply wsafe_trans.
  - exists []. split_and!; done.
  - intros d rest acc w0 acc' w1 (front & -> & Hlen & HQ) Hs.
    apply bind_ok in Hs as (r & w2 & Hv & Hs). apply bind_ok in Hs as (r' & w3 & Hc & Hs).
    apply caught_ok in Hc as [-> Hr]. apply ret_ok in Hs. injection Hs as -> ->.
    pose proof Hv as Hq. apply quiet_validate_deal in Hq. split; [|done].
    exists (front ++ [d]). split_and!; [by rewrite <- app_assoc|rewrite !length_app; cbn; lia|].
    intros i d' [[_ Hi]|[-> <-]]%lookup_snoc_Some Hf.
    { apply HQ with i; [done|]. rewrite lookup_app_l in Hf; [done|].
      apply lookup_lt_Some in Hi. lia. }
    rewrite <- Hlen, lookup_app_r, Nat.sub_diag in Hf by lia. cbn in Hf.
    destruct r' as [u|]; [|discriminate]. subst r. unfold validate_deal in Hv.
    apply bind_ok in Hv as (au & w3 & _ & Hv). apply bind_ok in Hv as (w4 & w5 & _ & Hv).
    apply ret_ok in Hv. injection Hv as Hv _. symmetry in Hv.
    apply rbind_ok in Hv as (? & _ & Hv). by apply validate_deal_terms_ok in Hv.
Qed.

(** An operation that only calls the datacap actor. *)
Definition still w w' : Prop := wsafe w w' /\ w_state w' = w_state w.

Lemma still_refl w : still w w.
Proof. split; [by apply wsafe_refl|done]. Qed.

Lemma still_trans w1 w2 w3 : still w1 w2 -> still w2 w3 -> still w1 w3.
Proof. intros [] []. split; [by eapply wsafe_trans|congruence]. Qed.

Lemma balance_of_still a w r w' : balance_of ext env a w = Ok (r, w') -> still w w'.
Proof.
  intros H. split; [by eapply quiet_balance_of|]. unfold balance_of in H. run_inv.
  by apply (ev_datacap _ Henv).
Qed.

Lemma transfer_from_still p w r w' : transfer_from ext env p w = Ok (r, w') -> still w w'.
Proof.
  intros H. split; [by eapply quiet_transfer_from|]. unfold transfer_from in H. run_inv.
  by apply (ev_datacap _ Henv).
Qed.

Lemma reserve_datacap_ok acc p c pcid w acc' keep w' :
  reserve_datacap ext policy env ctx acc p c pcid w = Ok ((acc', keep), w') ->
  valid_deals acc' = valid_deals acc /\
  proposal_cid_lookup acc' = proposal_cid_lookup acc /\ still w w'.
Proof.
  intros H. unfold reserve_datacap in H. destruct (negb _).
  { run_inv. split_and!; [done..|apply still_refl]. }
  apply bind_ok in H as (rem & w1 & H1 & H).
  assert (still w w1) as Hs.
  { destruct (client_datacap_remaining acc !! c); [run_inv; apply still_refl|].
    apply bind_ok in H1 as (r & w2 & H2 & H1). apply lift_ok in H1 as [_ ->].
    by eapply balance_of_still. }
  destruct (_ <? _); run_inv; by split_and!.
Qed.

Record sel_ok st (acc : Selection) : Prop := {
  sl_vds : Forall (vd_ok ext e hash st) (valid_deals acc);
  sl_nodup : NoDup (vd_cid <$> valid_deals acc);
  sl_lookup : forall vd, vd ∈ valid_deals acc -> vd_cid vd ∈ proposal_cid_lookup acc;
}.

Lemma select_deal_ok i a st flags acc entry w acc' w' :
  flag_ok flags entry -> end_epoch (proposal (snd entry)) <= I64_MAX ->
  sel_ok st acc -> select_deal ext policy env ctx i a st flags acc entry w = Ok (acc', w') ->
  sel_ok st acc' /\ still w w'.
Proof.
  destruct entry as [di deal]. cbn [fst snd]. intros Hflag Hmax Hsel H.
  assert (sel_ok st acc /\ still w w) as Hskip by (split; [done|apply still_refl]).
  unfold select_deal in H.
  apply bind_ok in H as (valid & w1 & Hv & H). apply lift_ok in Hv as [Hv ->].
  destruct valid; cbn [negb] in H; [|by run_inv].
  destruct (_ && _); [by run_inv|].
  apply bind_ok in H as (res & w1 & Hr & H). apply resolve_address_ok in Hr as [_ ->].
  destruct res as [client_id|]; [|by run_inv].
  apply bind_ok in H as (req & w1 & Hr & H). apply lift_ok in Hr as [_ ->].
  destruct (negb _); [by run_inv|]. destruct (negb _); [by run_inv|].
  set (p := normalize (proposal deal) i client_id) in *.
  apply bind_ok in H as (ser & w1 & Hser & H). apply lift_ok in Hser as [Hser ->].
  set (pcid := serialized_deal_cid ext env ser) in *.
  destruct (_ || _) eqn:Hdup; [by run_inv|]. apply orb_false_elim in Hdup as [Hd1 Hd2].
  apply bool_decide_eq_false in Hd1, Hd2.
  apply bind_ok in H as ([acc1 keep] & w1 & Hres & H).
  apply reserve_datacap_ok in Hres as (Hvd & Hlk & Hst).
  destruct Hsel as [Hs1 Hs2 Hs3].
  destruct keep; cbn [negb] in H; run_inv; (split; [|done]).
  2: by constructor; rewrite ?Hvd, ?Hlk.
  assert (terms_valid (proposal deal)) as (Ht & Hp & Hc).
  { apply Hflag. cbn [fst]. destruct (flags !! di); [|discriminate]. by injection Hv as ->. }
  constructor; cbn; rewrite ?Hvd, ?Hlk.
  - apply Forall_app. split; [done|]. apply Forall_singleton. constructor; cbn; [|subst pcid|done].
    + constructor; cbn; eauto.
    + unfold proposal_cid. destruct (serialize_proposal ext p); [|discriminate].
      injection Hser as ->. unfold serialized_deal_cid. by rewrite (ev_hash _ Henv).
  - rewrite fmap_app. apply NoDup_app. split_and!; [done| |apply NoDup_singleton].
    intros c (vd & -> & Hin)%list_elem_of_fmap. cbn. rewrite list_elem_of_singleton. intros <-.
    by apply Hd2, Hs3.
  - intros vd [Hin| ->%list_elem_of_singleton]%elem_of_app; [apply Hs3 in Hin|]; set_solver.
Qed.

Lemma transfer_datacap_still m x w m' w' :
  transfer_datacap ext env m x w = Ok (m', w') -> still w w'.
Proof.
  intros H. unfold transfer_datacap in H. destruct x as [c l].
  apply bind_ok in H as (p & w1 & Hp & H). apply lift_ok in Hp as [_ ->].
  apply bind_ok in H as (r & w1 & Hr & H). apply transfer_from_still in Hr. by run_inv.
Qed.

Lemma publish_safe deals w r w' :
  Forall (fun p => end_epoch (proposal p) <= I64_MAX) deals -> cron_at (w_state w) < e ->
  publish_storage_deals ext policy total_fil_circ_supply env ctx deals w = Ok (r, w') ->
  safe (conf w) (conf w').
Proof.
  intros Hmax Hlc H. unfold publish_storage_deals in H.
  apply bind_ok in H as (u & w1 & H1 & H). apply (quiet_accept_any wsafe) in H1.
  destruct deals as [|d0 ds] eqn:Hds; [run_inv|]. rewrite <- Hds in *. clear Hds.
  apply bind_ok in H as (pid & w2 & H2 & H). apply quiet_publisher_checks in H2.
  apply bind_ok in H as (bp & w3 & H3 & H). apply quiet_baseline in H3.
  apply bind_ok in H as ([np ?] & w4 & H4 & H). apply quiet_power in H4.
  apply bind_ok in H as (flags & w5 & H5 & H). apply validity_loop in H5 as [Hflags H5].
  assert (wsafe w w5) as Hw by eauto using wsafe_trans.
  clear H1 H2 H3 H4 H5.
  apply bind_ok in H as (st & w6 & H6 & H). apply state_ok in H6 as [Hst ->].
  apply bind_ok in H as (sel & w6 & H6 & H).
  eapply (mfold_rel _ still (fun rest acc _ => Forall (flag_ok flags) rest /\
      Forall (fun x => end_epoch (proposal (snd x)) <= I64_MAX) rest /\ sel_ok st acc))
    in H6 as [(_ & _ & Hsel) H6]; [|apply still_refl|apply still_trans| |].
  2: { split_and!; [done| |by repeat constructor; try inversion 1].
       apply Forall_lookup. intros k [j p] Hk.
       apply lookup_zip_with_Some in Hk as (? & ? & [= <- <-] & _ & Hd).
       eapply (Forall_lookup_1 _ deals) in Hd; [|exact Hmax]. done. }
  2: { intros x xs acc x1 acc' x2 (HF1 & HF2 & Hs) Hstep. inversion HF1; inversion HF2; subst.
       eapply select_deal_ok in Hstep as [? ?]; [|done..]. done. }
  apply bind_ok in H as (allocs & w7 & H7 & H).
  eapply (mfold_rel _ still (fun _ _ _ => True)) in H7 as [_ H7];
    [|apply still_refl|apply still_trans|done|intros; split; [done|by eapply transfer_datacap_still]].
  destruct (still_trans _ _ _ H6 H7) as [Hw7 Hst7]. rewrite Hst in Hst7.
  destruct (negb _); [run_inv|]. destruct (Nat.eqb _ _); [run_inv|].
  apply bind_ok in H as (ids & w8 & H8 & H). apply bind_ok in H as (u1 & w9 & H9 & H).
  apply ret_ok in H. injection H as -> ->.
  apply (quiet_mfold wsafe) in H9; [|intros; apply quiet_notify].
  pose proof (wsafe_trans _ _ _ Hw Hw7) as [Hsafe Hcron].
  rewrite Hst7 in Hcron. cbn [cron_at] in Hcron.
  eapply safe_trans; [exact Hsafe|]. eapply safe_trans; [|apply H9].
  eapply (transaction_safe _ 0) in H8; [by rewrite Z.add_0_r in H8|].
  intros x x' Hx Hinv Hrun. rewrite Hst7 in Hx. injection Hx as <-.
  eapply publish_deals_Inv in Hrun; [|apply cid_inj|apply epoch_nonneg|lia|done|lia|apply Hsel..].
  destruct Hrun as [? ->]. split; [done|lia].
Qed.

Lemma quiet_query {A} id (f : DealProposal -> Res error A) : quiet (query id f).
Proof. unfold query. quiet_tac. Qed.

Lemma quiet_queries :
  (forall a, quiet (get_balance env a)) /\ (forall id, quiet (get_deal_activation id)) /\
  (forall id, quiet (get_deal_sector id)) /\
  (forall ss, quiet (verify_deals_for_activation ext env ctx ss)).
Proof.
  split_and!; intros; [unfold get_balance|unfold get_deal_activation|unfold get_deal_sector
    |unfold verify_deals_for_activation]; quiet_tac.
Qed.

Lemma invoke_safe m w r w' :
  adm ctx m (w_state w) ->
  invoke_method ext policy total_fil_circ_supply env ctx m w = Ok (r, w') ->
  safe (mkConf e (w_state w) (w_balance w - ctx_value_received ctx)) (conf w').
Proof.
  intros Hadm H. unfold invoke_method in H.
  apply bind_ok in H as (u & w1 & Hr & H). apply restrict_state in Hr as ->.
  destruct (decodes m) eqn:Hdec; cbn [negb] in H; [|run_inv].
  assert (safe (mkConf e (w_state w) (w_balance w - ctx_value_received ctx)) (conf w)) as Hval.
  { apply safe_more. unfold ctx_ok in Hctx. bool_prop. lia. }
  destruct quiet_queries as (Q1 & Q2 & Q3 & Q4).
  destruct m; cbn [adm decodes] in *;
    try (apply bind_ok in H as (x & w2 & Hx & H));
    try (destruct x as [? ?]); try apply ret_ok in H; simplify_eq;
    try (by eapply add_balance_safe);
    try (eapply safe_trans; [exact Hval|]);
    first
    [ by eapply constructor_safe
    | by eapply withdraw_balance_safe
    | by eapply batch_activate_safe
    | by eapply terminate_safe, Hx; bool_prop
    | by eapply cron_safe
    | by eapply settle_safe
    | by eapply sector_content_safe
    | by apply (quiet_query _ _ _ _ _ Hx)
    | by apply (Q1 _ _ _ _ Hx)
    | by apply (Q2 _ _ _ _ Hx)
    | by apply (Q3 _ _ _ _ Hx)
    | by apply (Q4 _ _ _ _ Hx)
    | eapply publish_safe; [|done|exact Hx] ].
  apply Forall_forall. intros p Hp. apply forallb_forall with (x := p) in Hdec;
    [|by apply list_elem_of_In].
  bool_prop. match goal with H : in_i64 (end_epoch _) = true |- _ => apply in_i64_spec in H end.
  unfold I64_MAX. lia.
Qed.

End run.

(** ** The actor on the chain *)

Notation invoke := (invoke_method ext policy total_fil_circ_supply).
Notation market_chain :=
  (chain invoke w_balance debited (fun ctx _ => ctx_value_received ctx) adm env_ok deposited).

Lemma market_chain_safe c c' : market_chain c c' -> safe c c'.
Proof.
  apply chain_rel.
  - apply safe_refl.
  - apply safe_trans.
  - apply safe_tick.
  - intros e s b v Hv. apply safe_more. unfold deposited in Hv. lia.
  - intros. by eapply invoke_safe.
Qed.

(** From an actor that is not constructed yet. *)
Lemma market_reachable e0 bal0 e st bal :
  0 <= bal0 -> market_chain (mkConf e0 None bal0) (mkConf e (Some st) bal) ->
  Inv cid e st /\ bt_total (escrow_table st) <= bal.
Proof.
  intros Hb Hc. destruct (market_chain_safe _ _ Hc I) as [Hg Hs].
  unfold surplus in Hs. cbn in Hs. split; [exact Hg|lia].
Qed.
End market.
