(* ===== verification/MarketProps.v ===== *)
(** * Storage market: what the actor guarantees

    The properties of the market in every state the chain can bring it to,
    and the methods that can not fail there. *)

From Stdlib Require Import Sorted.
From S2P Require Import Prelude Runtime Chain Batch MarketState Market MarketMaps MarketInv.
From S2P Require Import MarketWf MarketProofs MarketPublish MarketChain.

Implicit Types (st : State) (d : DealProposal).

(** What the market relies on of its libraries and its configuration: no two
    proposals have the same CID, the update interval is positive and not
    absurd, a HAMT visits each of its keys once. *)
Record ext_ok (ext : Ext) (policy : Policy) (hash : bytes -> bytes) : Prop := {
  xo_cid : forall d d' c, proposal_cid ext hash d = Some c ->
    proposal_cid ext hash d' = Some c -> d = d';
  xo_interval : 0 < deal_updates_interval policy <= 2 ^ 61;
  xo_hamt : forall x : gset Z, hamt_order ext x ≡ₚ elements x;
}.

(** The burnt-funds actor is an account: a transfer to it that the balance
    covers succeeds, moves the amount and runs no code. *)
Definition burn_law {Net} (env : Env Net State Params bytes) : Prop :=
  forall net s bal v, 0 <= v <= bal ->
    let out := env_send env (mkSend BURNT_FUNDS_ACTOR_ADDR METHOD_SEND PNone v false) net s bal in
    so_state out = s /\ so_balance out = bal - v /\
    exists data, so_result out = inl (mkResp EC_OK data).

(** The caller is an actor of the given type. *)
Definition caller_has_type {Net} (env : Env Net State Params bytes) (net : Net) (ctx : Ctx)
    (t : ActorType) : Prop :=
  exists code, env_get_actor_code_cid env net (ctx_caller ctx) = Some code /\
    env_builtin_type env code = Some t.

Section props.
Context {Net : Type} (ext : Ext) (policy : Policy) (total_fil_circ_supply : Net -> Z).
Context (hash : bytes -> bytes).
Notation cid := (proposal_cid ext hash).
Notation invoke := (invoke_method ext policy total_fil_circ_supply).

(** The market holds state [st] at epoch [e] with balance [bal], after any
    sequence of messages since it was created. *)
Definition reachable (e : Z) st (bal : Z) : Prop :=
  exists e0 bal0, 0 <= bal0 /\
    chain invoke w_balance debited (fun ctx _ => ctx_value_received ctx) adm (env_ok hash) deposited
      (mkConf e0 None bal0) (mkConf e (Some st) bal).

Lemma reachable_inv e st bal :
  ext_ok ext policy hash -> reachable e st bal ->
  Inv cid e st /\ bt_total (escrow_table st) <= bal.
Proof.
  intros [] (e0 & bal0 & Hb & Hc). by eapply market_reachable in Hc.
Qed.

(** ** Funds *)

(** C3: the market is solvent.  In every state the chain can bring it to, the
    actor's balance covers the sum of all escrow balances, and no party has
    more locked than it has in escrow. *)
Theorem market_solvent e st bal :
  ext_ok ext policy hash -> reachable e st bal ->
  bt_total (escrow_table st) <= bal /\
  forall a, 0 <= bt_get (locked_table st) a <= bt_get (escrow_table st) a.
Proof.
  intros Hx Hr. destruct (reachable_inv _ _ _ Hx Hr) as [[_ []] Hs]. split; [done|]. intros a.
  split; [by eapply locked_nonneg|]. by apply (mo_cover _ _ mi_money).
Qed.

(** C11: locked funds are exactly what the deals require.  In every
    reachable state the locked balance of an address is the sum, over all
    deals, of the client's collateral and unpaid storage fee and of the
    provider's collateral, and the three totals kept in the state are the
    corresponding sums over all deals. *)
Theorem market_accounting e st bal :
  ext_ok ext policy hash -> reachable e st bal ->
  (forall a, bt_get (locked_table st) a =
     map_sumk (fun id d => owed d (states st !! id) a) (proposals st)) /\
  total_client_locked_collateral st = map_sumk (fun _ d => client_collateral d) (proposals st) /\
  total_provider_locked_collateral st =
    map_sumk (fun _ d => provider_collateral d) (proposals st) /\
  total_client_storage_fee st = map_sumk (fun id d => unpaid d (states st !! id)) (proposals st).
Proof.
  intros Hx Hr. destruct (reachable_inv _ _ _ Hx Hr) as [[_ [_ [] _ _ _]] _]. by split_and!.
Qed.

(** In every reachable state a withdrawal succeeds and takes out of
    escrow the amount asked for, or all that is not locked if that is less;
    locked funds stay covered and no deal changes. *)
Theorem market_withdraw_exact e st bal a v :
  ext_ok ext policy hash -> reachable e st bal -> 0 <= v ->
  let ex := Z.min (bt_get (escrow_table st) a - bt_get (locked_table st) a) v in
  exists st', withdraw_balance_from_escrow_table a v st = (Ok ex, st') /\ 0 <= ex /\
    bt_get (escrow_table st') a = bt_get (escrow_table st) a - ex /\
    bt_get (locked_table st) a <= bt_get (escrow_table st') a /\
    locked_table st' = locked_table st /\ proposals st' = proposals st.
Proof.
  intros Hx Hr Hv ex. destruct (reachable_inv _ _ _ Hx Hr) as [Hinv Hs].
  destruct (withdraw_spec ext hash e st a v Hinv Hv) as (r & st' & Hrun & -> & Hex & Hi & Hg & _).
  fold ex in Hrun, Hg, Hex. exists st'.
  assert (locked_table st' = locked_table st /\ proposals st' = proposals st) as [Hl Hp].
  { unfold withdraw_balance_from_escrow_table in Hrun. clear -Hrun. by st_inv. }
  split_and!; try done. rewrite <- Hl.
  by apply (mo_cover _ _ (mi_money _ _ _ _ _ _ _ _ (in_mid _ _ _ Hi))).
Qed.

(** ** The deal tables *)

(** C33: in every reachable state a deal that is not activated is still
    scheduled for processing, its proposal is in the pending set (so it can not
    be published again), and no other deal that is not activated has the same
    proposal. *)
Theorem market_unactivated_pending e st bal id d :
  ext_ok ext policy hash -> reachable e st bal ->
  proposals st !! id = Some d -> states st !! id = None ->
  (exists c, cid d = Some c /\ c ∈ pending_proposals st) /\
  (exists ep, in_ops st ep id) /\
  forall id', proposals st !! id' = Some d -> states st !! id' = None -> id' = id.
Proof.
  intros Hx Hr Hd Hs. destruct (reachable_inv _ _ _ Hx Hr) as [[_ [_ _ Hp _ _]] _].
  assert (forall k, states st !! k = None -> unsettled (states st) k) as Hu.
  { intros k Hk s Hs'. congruence. }
  destruct (pe_passed _ _ _ _ _ Hp id d Hd (Hu _ Hs)) as [[ep Hep]|[[? ?] _]]; [|congruence].
  split_and!.
  - destruct (pe_cid _ _ _ _ _ Hp id d Hd) as [c Hc]. exists c. split; [done|].
    eapply (pe_claim _ _ _ _ _ Hp); eauto.
  - by exists ep.
  - intros id' Hd' Hs'. eapply (pe_unique _ _ _ _ _ Hp); eauto.
Qed.

(** The tables of every reachable state agree: activated deals have a
    proposal, deal ids are below the next id, a deal is scheduled at most once
    and after the last epoch cron processed, and the deals listed for a sector
    are distinct, exist, belong to that provider and are activated in that
    sector. *)
Theorem market_tables_agree e st bal :
  ext_ok ext policy hash -> reachable e st bal ->
  (forall id, is_Some (states st !! id) -> is_Some (proposals st !! id)) /\
  (forall id, is_Some (proposals st !! id) -> 0 <= id < next_id st) /\
  (forall ep id, in_ops st ep id -> last_cron st < ep /\
     forall ep', in_ops st ep' id -> ep' = ep) /\
  (forall p sec, NoDup (sector_list st p sec)) /\
  (forall p sec id, id ∈ sector_list st p sec ->
     exists d s, proposals st !! id = Some d /\ provider d = AddrId p /\
       states st !! id = Some s /\ sector_number s = sec).
Proof.
  intros Hx Hr. destruct (reachable_inv _ _ _ Hx Hr) as [[_ [Hd _ _ Hs Hse]] _]. split_and!.
  - intros id [s Hid]. apply (do_state _ _ _ Hd) in Hid as (d & -> & _). done.
  - intros id [d Hid]. by eapply do_range.
  - intros ep id Hin. split; [by eapply sc_after|]. intros. by eapply sc_once.
  - apply Hse.
  - intros p sec id Hin. by apply (se_deal _ _ _ Hse) in Hin as [[]|?].
Qed.

(** ** Burning *)

Section run.
Context (env : Env Net State Params bytes) (ctx : Ctx).
Notation World := (World Net State Params).
Implicit Types w : World.

Lemma bt_total_nonneg (t : BalanceTable) : (forall a, 0 <= bt_get t a) -> 0 <= bt_total t.
Proof.
  intros Ht. apply map_sum_nonneg. intros a v Ha. specialize (Ht a). unfold bt_get in Ht.
  by rewrite Ha in Ht.
Qed.

Lemma burn_runs amt w :
  burn_law env -> 0 <= amt <= w_balance w ->
  exists w', burn env amt w = Ok (tt, w') /\ w_state w' = w_state w /\
    w_balance w' = w_balance w - amt /\ w_validated w' = w_validated w.
Proof.
  intros Hb Hamt. unfold burn. destruct (Z.eqb_spec amt 0) as [->|Hne]; cbn [negb].
  { exists w. split_and!; try done. lia. }
  destruct (Hb (w_net w) (w_state w) (w_balance w) amt Hamt) as (Hs & Hbal & data & Hres).
  unfold bind, send_simple, send. cbn. rewrite Hres. cbn. eexists. split_and!; [done|done|done|done].
Qed.

(** A transaction of the market followed by the burning of what it slashed. *)
Lemma transaction_burn_runs {A} (f : SM A) (amt : A -> Z) st w Q :
  burn_law env -> w_state w = Some st -> bt_total (escrow_table st) <= w_balance w ->
  succeeds f st (fun a st' => (Inv cid (ctx_epoch ctx) st' /\ 0 <= amt a /\
    bt_total (escrow_table st') + amt a = bt_total (escrow_table st)) /\ Q a st') ->
  exists a st' w1 w', transaction_st f w = Ok (a, w1) /\ burn env (amt a) w1 = Ok (tt, w') /\
    w_state w' = Some st' /\ Q a st' /\ w_validated w' = w_validated w /\
    w_balance w' = w_balance w - amt a /\
    bt_total (escrow_table st') = bt_total (escrow_table st) - amt a.
Proof.
  intros Hb Hst Hbal (a & st' & Hf & (Hinv & Hamt & Htot) & HQ).
  assert (0 <= bt_total (escrow_table st')) as H0.
  { apply bt_total_nonneg. intros b. destruct Hinv as [_ []].
    pose proof (locked_nonneg _ _ _ b mi_deals mi_money). pose proof (mo_cover _ _ mi_money b). lia. }
  destruct (burn_runs (amt a) (set_state st' w) Hb) as (w' & Hw & Hs & Hbal' & Hv); [cbn; lia|].
  exists a, st', (set_state st' w), w'. split_and!; try done; [|lia].
  apply transaction_st_ok. by exists st, st'.
Qed.
Lemma internal_call method w t :
  caller_has_type env (w_net w) ctx t -> t <> TEVM ->
  restrict_internal_api env ctx method w = Ok (tt, w).
Proof.
  intros (code & Hc & Ht) Hne. unfold restrict_internal_api. destruct (_ >=? _); [done|].
  unfold bind, get_actor_code_cid. cbn. rewrite Hc, Ht. by destruct t.
Qed.

Lemma caller_type_runs w t :
  caller_has_type env (w_net w) ctx t -> w_validated w = false ->
  validate_immediate_caller_type env ctx [t] w = Ok (tt, set_validated w).
Proof.
  intros (code & Hc & Ht) Hv. unfold validate_immediate_caller_type, assert_not_validated.
  rewrite Hv. cbn. rewrite Hc. cbn. rewrite Ht. by rewrite bool_decide_true.
Qed.

Lemma bind_run {A B} (m : M Net State Params bytes A) (f : A -> M Net State Params bytes B) w a w' :
  m w = Ok (a, w') -> bind m f w = f a w'.
Proof. intros H. unfold bind. by rewrite H. Qed.

Lemma start_funds st bal :
  ctx_ok ctx = true -> bt_total (escrow_table st) <= bal ->
  bt_total (escrow_table st) <= bal + ctx_value_received ctx.
Proof. unfold ctx_ok. intros Hc Hb. bool_prop. lia. Qed.

(** C23: in every reachable state where cron did not run in this epoch yet,
    the cron method succeeds.  Afterwards nothing is scheduled up to the
    current epoch, and the amount that left escrow is the amount that left the
    balance (it was burnt). *)
Theorem market_cron_never_fails st bal net :
  ext_ok ext policy hash -> reachable (ctx_epoch ctx) st bal ->
  env_hash_blake2b env = hash -> burn_law env -> ctx_ok ctx = true ->
  caller ctx = CRON_ACTOR_ADDR -> caller_has_type env net ctx TCron ->
  last_cron st < ctx_epoch ctx < 2 ^ 62 ->
  exists w st' slashed,
    trampoline invoke env ctx CronTick (Some st) (bal + ctx_value_received ctx) net =
      Committed RUnit w /\
    w_state w = Some st' /\ last_cron st' = ctx_epoch ctx /\
    (forall ep id, in_ops st' ep id -> ctx_epoch ctx < ep) /\
    w_balance w = bal + ctx_value_received ctx - slashed /\
    bt_total (escrow_table st') = bt_total (escrow_table st) - slashed.
Proof.
  intros Hx Hr Hh Hb Hctx Hcaller Htype Hlc.
  destruct (reachable_inv _ _ _ Hx Hr) as [Hinv Hs].
  set (w0 := @mkWorld Net State Params (Some st) (bal + ctx_value_received ctx) net false false []).
  destruct (transaction_burn_runs (process_cron ext policy env ctx) id st (set_validated w0)
    (fun _ st' => last_cron st' = ctx_epoch ctx /\
       forall ep id, in_ops st' ep id -> ctx_epoch ctx < ep))
    as (slashed & st' & w1 & w' & Ht & Hbr & Hst & [Hq Hq'] & Hv & Hbal & Htot); try done.
  - by apply start_funds.
  - eapply succeeds_mono.
    + apply (process_cron_spec ext policy env ctx hash); try done; try apply Hx; [|lia|lia].
      unfold ctx_ok in Hctx. bool_prop. lia.
    + intros a st' (Hi & ? & Hl & ?). split_and!; try done. intros ep k Hk.
      rewrite <- Hl. eapply sc_after; [apply Hi|done].
  - exists w', st', slashed. split_and!; try done. unfold trampoline. fold w0.
    unfold invoke_method. erewrite bind_run by (by eapply (internal_call _ w0)).
    cbn [decodes negb].
    erewrite bind_run; [|unfold cron_tick; erewrite bind_run; [erewrite bind_run; [exact Hbr|exact Ht]|]].
    + unfold ret. by rewrite Hv.
    + unfold validate_immediate_caller_is. cbn. unfold addr_eqb.
      by rewrite bool_decide_true by done.
Qed.

(** C30: in every reachable state the settlement of any set of deal ids, by
    any caller, succeeds.  Its batch result has an entry for each id, the only
    failure it reports is that a deal expired, and what leaves escrow is burnt. *)
Theorem market_settle_never_fails st bal net ids :
  ext_ok ext policy hash -> reachable (ctx_epoch ctx) st bal ->
  env_hash_blake2b env = hash -> burn_law env -> ctx_ok ctx = true ->
  method_hash ext "SettleDealPayments" >= FIRST_EXPORTED_METHOD_NUMBER -> bitfield_ok ids = true ->
  exists w st' slashed results settlements,
    trampoline invoke env ctx (SettleDealPayments ids) (Some st)
      (bal + ctx_value_received ctx) net = Committed (RSettle results settlements) w /\
    w_state w = Some st' /\ batch_size results = length ids /\
    Forall (fun f => code f = EX_DEAL_EXPIRED) (fail_codes results) /\
    w_balance w = bal + ctx_value_received ctx - slashed /\
    bt_total (escrow_table st') = bt_total (escrow_table st) - slashed.
Proof.
  intros Hx Hr Hh Hb Hctx Hm Hbf.
  destruct (reachable_inv _ _ _ Hx Hr) as [Hinv Hs].
  set (w0 := @mkWorld Net State Params (Some st) (bal + ctx_value_received ctx) net false false []).
  destruct (transaction_burn_runs (settle_deals ext env ctx ids) total_slashed st
    (set_validated w0) (fun acc _ => exists b, generate (settle_gen acc) = @Ok error _ b /\
       batch_size b = length ids /\ Forall (fun f => code f = EX_DEAL_EXPIRED) (fail_codes b)))
    as (acc & st' & w1 & w' & Ht & Hbr & Hst & (b & Hgen & Hq) & Hv & Hbal & Htot); try done.
  - by apply start_funds.
  - eapply succeeds_mono.
    + apply (settle_deals_spec ext env ctx hash); try done; try apply Hx; [|by apply bitfield_nodup].
      unfold ctx_ok in Hctx. bool_prop. lia.
    + intros a st' (? & ? & ? & ?). by split_and!.
  - exists w', st', (total_slashed acc), b, (settlements acc). split_and!; try done; try apply Hq.
    unfold trampoline. fold w0. unfold invoke_method.
    erewrite bind_run by (unfold restrict_internal_api; cbn [method_num];
      rewrite (proj2 (Z.geb_le _ _)) by lia; reflexivity).
    cbn [decodes]. rewrite Hbf. cbn [negb].
    erewrite bind_run; [|unfold settle_deal_payments; erewrite bind_run by reflexivity;
      erewrite bind_run by exact Ht; erewrite bind_run by exact Hbr;
      erewrite bind_run by (unfold lift; rewrite Hgen; reflexivity); reflexivity].
    unfold ret. by rewrite Hv.
Qed.

(** C31: in every reachable state a miner's report of terminated sectors
    succeeds, whatever the sectors, and what leaves escrow is burnt. *)
Theorem market_terminate_never_fails st bal net sectors :
  ext_ok ext policy hash -> reachable (ctx_epoch ctx) st bal ->
  env_hash_blake2b env = hash -> burn_law env -> ctx_ok ctx = true ->
  caller_has_type env net ctx TMiner -> bitfield_ok sectors = true ->
  exists w st' slashed,
    trampoline invoke env ctx (OnMinerSectorsTerminate (ctx_epoch ctx) sectors) (Some st)
      (bal + ctx_value_received ctx) net = Committed RUnit w /\
    w_state w = Some st' /\ 0 <= slashed /\
    w_balance w = bal + ctx_value_received ctx - slashed /\
    bt_total (escrow_table st') = bt_total (escrow_table st) - slashed.
Proof.
  intros Hx Hr Hh Hb Hctx Htype Hbf.
  destruct (reachable_inv _ _ _ Hx Hr) as [Hinv Hs].
  set (w0 := @mkWorld Net State Params (Some st) (bal + ctx_value_received ctx) net false false []).
  destruct (transaction_burn_runs (terminate_sectors ext env ctx (ctx_epoch ctx) sectors) id st
    (set_validated w0) (fun slashed _ => 0 <= slashed))
    as (slashed & st' & w1 & w' & Ht & Hbr & Hst & Hq & Hv & Hbal & Htot); try done.
  - by apply start_funds.
  - eapply succeeds_mono.
    + apply (terminate_sectors_spec ext env ctx hash); try done; try apply Hx;
        [|by apply bitfield_nodup]. unfold ctx_ok in Hctx. bool_prop. lia.
    + intros a st' (? & ? & ?). by split_and!.
  - exists w', st', slashed. split_and!; try done. unfold trampoline. fold w0.
    unfold invoke_method. erewrite bind_run by (by eapply (internal_call _ w0)).
    cbn [decodes]. rewrite Hbf.
    assert (in_i64 (ctx_epoch ctx) = true) as ->.
    { apply in_i64_spec. unfold ctx_ok, I64_MAX in Hctx. bool_prop. lia. }
    cbn [andb negb].
    erewrite bind_run; [unfold ret; by rewrite Hv|]. unfold on_miner_sectors_terminate.
    erewrite bind_run by (by eapply (caller_type_runs w0)). erewrite bind_run by exact Ht.
    rewrite <- Hbr. unfold burn, id.
    destruct (Z.gtb_spec slashed 0), (Z.eqb_spec slashed 0); cbn; done || lia.
Qed.

End run.
End props.

(** ** Payments *)

(** The settlements of one deal at the given epochs, as [settle_deal_payments]
    makes them: the payments made, until the deal is removed. *)
Fixpoint settle_at d (c : Cid) (s : DealState) (epochs : list Z) : SM (list Z) :=
  match epochs with
  | [] => sret []
  | e :: epochs' =>
      let& (_, pay, _, removed) := process_deal_update s d c e in
      if removed then sret [pay]
      else let& rest := settle_at d c (set_last_updated e s) epochs' in sret (pay :: rest)
  end.

Lemma settled_state_wf e e' d s :
  state_wf e d s -> 0 <= e <= e' -> e' < end_epoch d -> state_wf e' d (set_last_updated e' s).
Proof. intros [] He Hlt. constructor; cbn; try done. right. lia. Qed.

Lemma settled_unpaid e e' d s :
  deal_wf d -> state_wf e d s -> 0 <= e <= e' -> e' < end_epoch d ->
  unpaid d (Some (set_last_updated e' s)) = unpaid d (Some s) - payment_due e' d s.
Proof.
  intros Hd [] He Hlt. destruct (dw_term d Hd). unfold unpaid, payment_due, paid_until. cbn.
  rewrite <- Z.mul_sub_distr_l. f_equal. unfold EPOCH_UNDEFINED in *. lia.
Qed.

Lemma settled_covers e e' d s st st' :
  deal_wf d -> state_wf e d s -> 0 <= e <= e' -> e' < end_epoch d ->
  covers st d (Some s) ->
  (forall a, bt_get (locked_table st') a =
     bt_get (locked_table st) a - at_addr (client d) (payment_due e' d s) a) ->
  (forall a, bt_get (escrow_table st') a = bt_get (escrow_table st) a +
     (at_addr (provider d) (payment_due e' d s) a - at_addr (client d) (payment_due e' d s) a)) ->
  covers st' d (Some (set_last_updated e' s)).
Proof.
  intros Hd Hs He Hlt [Hl Hc] Hlock Hesc.
  assert (state_wf e' d s) as Hs'.
  { destruct Hs. constructor; try done. lia. }
  pose proof (payment_due_bounds e' d s Hd Hs').
  pose proof (dw_cc d Hd). pose proof (dw_pc d Hd).
  split; intros a; specialize (Hl a); specialize (Hc a); rewrite ?Hlock, ?Hesc;
    unfold owed in *; rewrite ?(settled_unpaid e e' d s) by done;
    unfold at_addr in *; repeat case_match; lia.
Qed.

(** C26: the payments of a deal add up.  Settled at any ascending sequence
    of epochs of which one is past the deal's end, an activated deal transfers
    in total exactly the storage fee that was unpaid, in payments that are not
    negative, from its client to its provider, and releases all it locked. *)
Theorem deal_fee_paid_in_full d c : forall epochs st s e,
  deal_wf d -> state_wf e d s -> covers st d (Some s) -> 0 <= e ->
  StronglySorted Z.le (e :: epochs) -> Exists (fun e' => end_epoch d <= e') epochs ->
  succeeds (settle_at d c s epochs) st (fun pays st' =>
    sum_list_Z pays = unpaid d (Some s) /\ Forall (fun p => 0 <= p) pays /\
    (forall a, bt_get (locked_table st') a = bt_get (locked_table st) a - owed d (Some s) a) /\
    (forall a, bt_get (escrow_table st') a = bt_get (escrow_table st) a +
       at_addr (provider d) (unpaid d (Some s)) a - at_addr (client d) (unpaid d (Some s)) a)).
Proof.
  induction epochs as [|e' epochs IH]; intros st s e Hd Hs Hcov He Hsort Hex.
  { by apply Exists_nil in Hex. }
  apply StronglySorted_inv in Hsort as [Hsort Hle]. apply Forall_cons in Hle as [Hle _].
  assert (state_wf e' d s) as Hs'.
  { destruct Hs. constructor; try done. lia. }
  pose proof (payment_due_bounds e' d s Hd Hs') as Hb.
  cbn [settle_at]. eapply succeeds_bind; [by apply (process_deal_update_spec st d s c e')|].
  intros [[[slashed pay] completed] removed] st1 (_ & -> & _ & -> & Hfull & M).
  assert (locked_table (unpend c s st) = locked_table st /\
          escrow_table (unpend c s st) = escrow_table st) as [Hul Hue].
  { unfold unpend. by destruct (_ =? _). }
  destruct M. rewrite Hul in mv_locked. rewrite Hue in mv_escrow.
  destruct (Z.leb_spec (end_epoch d) e') as [Hend|Hend].
  - apply succeeds_ret. rewrite (Hfull eq_refl) in *. split_and!.
    + cbn. lia.
    + repeat constructor. lia.
    + intros a. rewrite mv_locked. lia.
    + intros a. rewrite mv_escrow. lia.
  - eapply succeeds_bind.
    + apply (IH st1 (set_last_updated e' s) e'); try done; try lia.
      * eapply settled_state_wf; [exact Hs|lia|lia].
      * eapply (settled_covers e); try done; try lia; intros a; rewrite ?mv_locked, ?mv_escrow; lia.
      * apply Exists_cons in Hex as [?|?]; [lia|done].
    + intros pays st2 (Hsum & Hnn & Hlock & Hesc). apply succeeds_ret.
      rewrite (settled_unpaid e e' d s) in Hsum by (done || lia). split_and!.
      * change (payment_due e' d s + sum_list_Z pays = unpaid d (Some s)). lia.
      * constructor; [lia|done].
      * intros a. rewrite Hlock, mv_locked. unfold owed.
        rewrite (settled_unpaid e e' d s) by (done || lia). unfold at_addr. repeat case_match; lia.
      * intros a. rewrite Hesc, mv_escrow, (settled_unpaid e e' d s) by (done || lia).
        unfold at_addr. repeat case_match; lia.
Qed.
