(* ===== verification/MarketDemo.v ===== *)
(** * Storage market: a concrete run

    A client and a miner publish, activate, settle and republish a deal on a
    concrete network.  The run instantiates the hypotheses of the theorems of
    MarketProps.v. *)

From stdpp Require Import sorting.
From S2P Require Import Prelude Runtime Chain Batch MarketState Market MarketMaps MarketInv.
From S2P Require Import MarketWf MarketProofs MarketPublish MarketChain MarketProps.

(** ** A serialization of proposals *)

Definition ser_bytes (b : bytes) : bytes := Z.of_nat (length b) :: b.
Definition ser_addr (a : Address) : bytes :=
  match a with AddrId i => [0; i] | AddrOther p b => 1 :: p :: ser_bytes b end.
Definition ser_label (l : Label) : bytes :=
  match l with LString b => 0 :: ser_bytes b | LBytes b => 1 :: ser_bytes b end.
Definition ser_proposal (d : DealProposal) : bytes :=
  ser_bytes (cid_digest (piece_cid d)) ++ ser_addr (client d) ++ ser_addr (provider d) ++
  ser_label (label d) ++
  [cid_version (piece_cid d); cid_codec (piece_cid d); cid_hash_code (piece_cid d);
   piece_size d; Z.b2z (verified_deal d); start_epoch d; end_epoch d;
   storage_price_per_epoch d; provider_collateral d; client_collateral d].

Lemma ser_bytes_inj b b' r r' : ser_bytes b ++ r = ser_bytes b' ++ r' -> b = b' /\ r = r'.
Proof.
  unfold ser_bytes. cbn. intros [= Hl%Nat2Z.inj H]. by apply app_inj_1 in H.
Qed.

Lemma ser_addr_inj a a' r r' : ser_addr a ++ r = ser_addr a' ++ r' -> a = a' /\ r = r'.
Proof.
  destruct a, a'; cbn; intros H; simplify_eq; [done|].
  match goal with H : _ ++ _ = _ |- _ => apply app_inj_1 in H as [-> ->]; [done|lia] end.
Qed.

Lemma ser_label_inj l l' r r' : ser_label l ++ r = ser_label l' ++ r' -> l = l' /\ r = r'.
Proof.
  destruct l, l'; cbn; intros H; simplify_eq;
    match goal with H : _ ++ _ = _ |- _ => apply app_inj_1 in H as [-> ->]; [done|lia] end.
Qed.

Lemma ser_proposal_inj d d' : ser_proposal d = ser_proposal d' -> d = d'.
Proof.
  unfold ser_proposal. intros H. apply ser_bytes_inj in H as [H1 H].
  apply ser_addr_inj in H as [H2 H]. apply ser_addr_inj in H as [H3 H].
  apply ser_label_inj in H as [H4 H]. injection H as ? ? ? ? H5 ? ? ? ? ?.
  destruct d as [[] ? b], d' as [[] ? b']. destruct b, b'; cbn in *; congruence.
Qed.

Module Demo.

Definition piece : Cid := mkCid 1 61697 4114 (replicate 32 0).

Definition head (b : bytes) : option Z := match b with x :: _ => Some x | [] => None end.

Definition ext : Ext :=
  mkExt 61697 4114 113 45600 (fun s => 16777216 + Z.of_nat (String.length s))
    (fun n => (128 <=? n) && (n =? 2 ^ Z.log2 n)) (fun _ => Some 34359738368)
    (fun _ _ => None) (fun d => Some (ser_proposal d))
    (fun b => Some (bool_decide (b = [1]))) (fun _ => Some (AddrId 300, AddrId 300, []))
    head (fun b => match head b with Some x => Some (x, x) | None => None end) head
    (fun b => Some b) (fun b => Some b) head elements.

Definition supply (_ : unit) : Z := 0.

Definition env : Env unit State Params bytes :=
  mkEnv (fun _ a => addr_id a) (fun _ i => Some i)
    (fun c => Some (if c =? 0 then TSystem else if c =? 3 then TCron
                    else if c =? 301 then TMiner else TAccount))
    (fun b => b)
    (fun req net s bal =>
       if (0 <=? send_value req) && (send_value req <=? bal)
       then mkSendOut (inl (mkResp EC_OK (Some [1]))) s (bal - send_value req) net
       else mkSendOut (inr EN_InsufficientFunds) s bal net).

Definition ctx (from value epoch : Z) : Ctx := mkCtx from from 5 value epoch.

Definition invoke := invoke_method ext default_policy supply.

Lemma ext_holds : ext_ok ext default_policy (fun b => b).
Proof.
  constructor; [|vm_compute; done|done]. intros d d' c H H'. apply ser_proposal_inj.
  rewrite <- H' in H. exact (f_equal (fun x => cid_digest (default piece x)) H).
Qed.

Lemma env_holds : env_ok (fun b => b) env.
Proof. constructor; [done|..]; intros; cbn; by destruct (_ && _). Qed.

Lemma burns : burn_law env.
Proof.
  intros net s bal v Hv. cbn. rewrite (proj2 (Z.leb_le 0 v)), (proj2 (Z.leb_le v bal)) by lia.
  cbn. split_and!; eauto.
Qed.

(** Runs a message; an aborted one changes nothing. *)
Definition step (epoch from value : Z) (m : Msg) (c : Conf State) : Conf State :=
  match trampoline invoke env (ctx from value epoch) m (c_state c) (c_balance c + value) tt with
  | Committed _ w =>
      if w_deleted w then c else mkConf epoch (w_state w) (w_balance w)
  | Aborted _ => c
  end.

Notation chain := (chain invoke w_balance debited (fun ctx _ => ctx_value_received ctx) adm
  (env_ok (fun b => b)) deposited).

Lemma step_chain c0 epoch from value m c :
  chain c0 c -> c_epoch c <= epoch -> ctx_ok (ctx from value epoch) = true ->
  adm (ctx from value epoch) m (c_state c) -> chain c0 (step epoch from value m c).
Proof.
  intros Hc He Hctx Hadm. unfold step.
  destruct (trampoline _ _ _ _ _ _ _) as [r w|] eqn:Hrun; [|done].
  destruct (w_deleted w) eqn:Hdel; [done|]. eapply chain_trans; [exact Hc|].
  destruct c as [e s bal]. cbn in *. eapply chain_tick; [exact He|].
  eapply (chain_msg _ _ _ _ _ _ _ env (ctx from value epoch));
    [apply env_holds| |done|done|done|reflexivity|exact Hrun|done|apply chain_refl].
  intros req w1 r1 w2 H. run_inv. cbn. destruct (_ && _); cbn; [|rewrite Z.sub_0_r]; apply chain_refl.
Qed.
Definition deal : DealProposal :=
  mkProposal piece 2048 false (AddrId 201) (AddrId 301) (LString []) 100 600100 3 7 11.
Definition fee : Z := 3 * 600000.

Definition genesis : Conf State := mkConf 0 None 0.
Definition created : Conf State := Eval vm_compute in step 0 0 0 Constructor genesis.
Definition client_funded : Conf State :=
  Eval vm_compute in step 1 201 (2 * (fee + 11) + 5) (AddBalance false (AddrId 201)) created.
Definition funded : Conf State :=
  Eval vm_compute in step 1 300 20 (AddBalance false (AddrId 301)) client_funded.
Definition published : Conf State :=
  Eval vm_compute in step 2 300 0 (PublishStorageDeals false [mkClientProposal deal []]) funded.
Definition active : Conf State :=
  Eval vm_compute in
    step 10 301 0 (BatchActivateDeals [mkSectorDeals 4 3 700000 [0]] false) published.
Definition settled_early : Conf State :=
  Eval vm_compute in step 20 201 0 (SettleDealPayments [0]) active.
Definition republished : Conf State :=
  Eval vm_compute in
    step 20 300 0 (PublishStorageDeals false [mkClientProposal deal []]) settled_early.

Lemma run_step_chain epoch from value m c c' :
  chain genesis c -> c' = step epoch from value m c -> c_epoch c <= epoch ->
  ctx_ok (ctx from value epoch) = true -> adm (ctx from value epoch) m (c_state c) ->
  chain genesis c'.
Proof. intros Hc -> He Hctx Hadm. by apply step_chain. Qed.

Lemma active_chain : chain genesis active.
Proof.
  apply (run_step_chain 10 301 0 (BatchActivateDeals [mkSectorDeals 4 3 700000 [0]] false)
    published); [|vm_compute; reflexivity|done|done|exact I].
  apply (run_step_chain 2 300 0 (PublishStorageDeals false [mkClientProposal deal []])
    funded); [|vm_compute; reflexivity|done|done|done].
  apply (run_step_chain 1 300 20 (AddBalance false (AddrId 301)) client_funded);
    [|vm_compute; reflexivity|done|done|exact I].
  apply (run_step_chain 1 201 (2 * (fee + 11) + 5) (AddBalance false (AddrId 201)) created);
    [|vm_compute; reflexivity|done|done|exact I].
  apply (run_step_chain 0 0 0 Constructor genesis);
    [apply chain_refl|vm_compute; reflexivity|done|done|exact I].
Qed.

Lemma republished_chain : chain genesis republished.
Proof.
  apply (run_step_chain 20 300 0 (PublishStorageDeals false [mkClientProposal deal []])
    settled_early); [|vm_compute; reflexivity|done|done|done].
  apply (run_step_chain 20 201 0 (SettleDealPayments [0]) active);
    [apply active_chain|vm_compute; reflexivity|done|done|exact I].
Qed.

Definition st_of (c : Conf State) : State := default new_state (c_state c).

Notation reachable := (reachable ext default_policy supply (fun b => b)).

Lemma active_reachable : reachable 10 (st_of active) (c_balance active).
Proof. exists 0, 0. split; [done|]. exact active_chain. Qed.

Lemma republished_reachable : reachable 20 (st_of republished) (c_balance republished).
Proof. exists 0, 0. split; [done|]. exact republished_chain. Qed.
End Demo.

(** The pending set does not prevent a second publication.  In this
    run an activated deal is settled before its start epoch, which takes its
    proposal out of the pending set, and the same proposal is then published
    again: two deals hold it before it starts, and the client's funds are
    locked twice. *)
Theorem market_republish_before_start : exists st bal,
  reachable Demo.ext default_policy Demo.supply (fun b => b) 20 st bal /\
  20 < start_epoch Demo.deal /\
  proposals st !! 0 = Some Demo.deal /\ proposals st !! 1 = Some Demo.deal /\
  is_Some (states st !! 0) /\ states st !! 1 = None /\
  bt_get (locked_table st) (AddrId 201) = 2 * owed Demo.deal None (AddrId 201).
Proof.
  eexists _, _. split; [apply Demo.republished_reachable|].
  vm_compute. split_and!; eauto.
Qed.

Lemma market_solvent_witness :
  bt_total (escrow_table (Demo.st_of Demo.active)) <= c_balance Demo.active.
Proof.
  destruct (market_solvent _ _ _ _ _ _ _ Demo.ext_holds Demo.active_reachable) as [H _].
  exact H.
Defined.

Lemma market_accounting_witness :
  bt_get (locked_table (Demo.st_of Demo.active)) (AddrId 201) =
  map_sumk (fun id d => owed d (states (Demo.st_of Demo.active) !! id) (AddrId 201))
    (proposals (Demo.st_of Demo.active)).
Proof.
  destruct (market_accounting _ _ _ _ _ _ _ Demo.ext_holds Demo.active_reachable) as [H _].
  apply H.
Defined.

Lemma market_withdraw_exact_witness :
  exists st', withdraw_balance_from_escrow_table (AddrId 201) 10000000
    (Demo.st_of Demo.active) = (Ok (Demo.fee + 16), st').
Proof.
  destruct (market_withdraw_exact _ _ _ _ _ _ _ (AddrId 201) 10000000 Demo.ext_holds
    Demo.active_reachable ltac:(lia)) as (st' & H & _). exists st'. rewrite H. by vm_compute.
Defined.

Lemma market_unactivated_pending_witness :
  exists c, proposal_cid Demo.ext (fun b => b) Demo.deal = Some c /\
    c ∈ pending_proposals (Demo.st_of Demo.republished).
Proof.
  destruct (market_unactivated_pending _ _ _ _ _ _ _ 1 Demo.deal Demo.ext_holds
    Demo.republished_reachable) as (H & _); [vm_compute; reflexivity..|exact H].
Defined.

Lemma market_tables_agree_witness :
  exists d, proposals (Demo.st_of Demo.active) !! 0 = Some d /\ provider d = AddrId 301.
Proof.
  destruct (market_tables_agree _ _ _ _ _ _ _ Demo.ext_holds Demo.active_reachable)
    as (_ & _ & _ & _ & H).
  destruct (H 301 4 0) as (d & s & Hd & Hp & _).
  - replace (sector_list _ _ _) with [0] by (vm_compute; reflexivity). left.
  - by exists d.
Defined.

Lemma market_cron_never_fails_witness :
  exists w, trampoline Demo.invoke Demo.env (Demo.ctx 3 0 10) CronTick
    (Some (Demo.st_of Demo.active)) (c_balance Demo.active + 0) tt = Committed RUnit w.
Proof.
  destruct (market_cron_never_fails _ _ _ _ Demo.env (Demo.ctx 3 0 10) _ _ tt Demo.ext_holds
    Demo.active_reachable) as (w & _ & _ & H & _); try done.
  - apply Demo.burns.
  - by exists 3.
  - by exists w.
Defined.

Lemma market_settle_never_fails_witness :
  exists r p w, trampoline Demo.invoke Demo.env (Demo.ctx 201 0 10) (SettleDealPayments [0; 8])
    (Some (Demo.st_of Demo.active)) (c_balance Demo.active + 0) tt = Committed (RSettle r p) w.
Proof.
  destruct (market_settle_never_fails _ _ _ _ Demo.env (Demo.ctx 201 0 10) _ _ tt [0; 8]
    Demo.ext_holds Demo.active_reachable) as (w & _ & _ & r & p & H & _); try done.
  - apply Demo.burns.
  - by exists r, p, w.
Defined.

Lemma market_terminate_never_fails_witness :
  exists w, trampoline Demo.invoke Demo.env (Demo.ctx 301 0 10) (OnMinerSectorsTerminate 10 [4; 5])
    (Some (Demo.st_of Demo.active)) (c_balance Demo.active + 0) tt = Committed RUnit w.
Proof.
  destruct (market_terminate_never_fails _ _ _ _ Demo.env (Demo.ctx 301 0 10) _ _ tt [4; 5]
    Demo.ext_holds Demo.active_reachable) as (w & _ & _ & H & _); try done.
  - apply Demo.burns.
  - by exists 301.
  - by exists w.
Defined.

Lemma deal_fee_paid_in_full_witness :
  exists pays st', settle_at Demo.deal Demo.piece
    (mkDealState 4 10 (-1) (-1)) [50; 200; 300000; 700000] (Demo.st_of Demo.active) =
      (Ok pays, st') /\ sum_list_Z pays = Demo.fee.
Proof.
  destruct (deal_fee_paid_in_full Demo.deal Demo.piece [50; 200; 300000; 700000]
    (Demo.st_of Demo.active) (mkDealState 4 10 (-1) (-1)) 10) as (pays & st' & H & Hsum & _).
  - constructor; cbn; unfold I64_MAX; try lia; eauto.
  - constructor; cbn; [done|lia|by left].
  - destruct (reachable_inv _ _ _ _ _ _ _ Demo.ext_holds Demo.active_reachable) as [[_ []] _].
    exact (money_covers _ _ _ 0 Demo.deal mi_deals mi_money eq_refl).
  - lia.
  - repeat constructor; lia.
  - do 3 right. left. cbn. lia.
  - exists pays, st'. split; [exact H|]. rewrite Hsum. reflexivity.
Defined.
