(* ===== verification/Verifreg.v ===== *)
(** * The verified registry: data and methods

    Models src/actors/verifreg/src/{lib,state,types,expiration}.rs.  Verifiers
    grant datacap to clients; a client's datacap tokens, sent to the registry,
    become allocations; a provider that committed the data claims them.  A
    [MapMap] is a finite map over pairs of keys.  The datacap actor, which
    keeps the token balances, is reached by messages.  Events have no effect
    on the state and are left out. *)

From S2P Require Import Prelude Runtime Batch.

Notation bytes := (list Z) (only parsing).
Notation error := (ActorError bytes).

(** ** Types *)

Record Claim : Type := mkClaim {
  cl_provider : Z;
  cl_client : Z;
  cl_data : Cid;
  cl_size : Z;
  cl_term_min : Z;
  cl_term_max : Z;
  cl_term_start : Z;
  cl_sector : Z;
}.

Record Allocation : Type := mkAlloc {
  al_client : Z;
  al_provider : Z;
  al_data : Cid;
  al_size : Z;
  al_term_min : Z;
  al_term_max : Z;
  al_expiration : Z;
}.

Record State : Type := mkState {
  root_key : Address;
  verifiers : gmap Address Z;
  remove_data_cap_proposal_ids : gmap (Address * Address) Z;
  allocations : gmap (Z * Z) Allocation;
  next_allocation_id : Z;
  claims : gmap (Z * Z) Claim;
}.

Definition new_state (root_key : Address) : State := mkState root_key ∅ ∅ ∅ 1 ∅.

Definition set_verifiers (x : gmap Address Z) (st : State) : State :=
  mkState (root_key st) x (remove_data_cap_proposal_ids st) (allocations st)
    (next_allocation_id st) (claims st).
Definition set_proposal_ids (x : gmap (Address * Address) Z) (st : State) : State :=
  mkState (root_key st) (verifiers st) x (allocations st) (next_allocation_id st) (claims st).
Definition set_allocations (x : gmap (Z * Z) Allocation) (st : State) : State :=
  mkState (root_key st) (verifiers st) (remove_data_cap_proposal_ids st) x
    (next_allocation_id st) (claims st).
Definition set_next_allocation_id (x : Z) (st : State) : State :=
  mkState (root_key st) (verifiers st) (remove_data_cap_proposal_ids st) (allocations st) x
    (claims st).
Definition set_claims (x : gmap (Z * Z) Claim) (st : State) : State :=
  mkState (root_key st) (verifiers st) (remove_data_cap_proposal_ids st) (allocations st)
    (next_allocation_id st) x.

Record AllocationRequest : Type := mkAllocReq {
  ar_provider : Z;
  ar_data : Cid;
  ar_size : Z;
  ar_term_min : Z;
  ar_term_max : Z;
  ar_expiration : Z;
}.

Record ClaimExtensionRequest : Type := mkExtReq {
  er_provider : Z;
  er_claim : Z;
  er_term_max : Z;
}.

Record AllocationRequests : Type := mkAllocReqs {
  ars_allocations : list AllocationRequest;
  ars_extensions : list ClaimExtensionRequest;
}.

Record AllocationClaim : Type := mkAllocClaim {
  ac_client : Z;
  ac_allocation_id : Z;
  ac_data : Cid;
  ac_size : Z;
}.

Record SectorAllocationClaims : Type := mkSectorClaims {
  sa_sector : Z;
  sa_expiry : Z;
  sa_claims : list AllocationClaim;
}.

Record ClaimTerm : Type := mkClaimTerm {
  ct_provider : Z;
  ct_claim_id : Z;
  ct_term_max : Z;
}.

Record RemoveDataCapRequest : Type := mkRemoveRequest {
  rr_verifier : Address;
  rr_signature : bytes;
}.

Record RemoveDataCapParams : Type := mkRemoveParams {
  rd_client : Address;
  rd_amount : Z;
  rd_request_1 : RemoveDataCapRequest;
  rd_request_2 : RemoveDataCapRequest;
}.

(** The FRC-46 token receipt the receiver hook is called with. *)
Record TokenReceived : Type := mkReceived {
  tr_from : Z;
  tr_to : Z;
  tr_operator : Z;
  tr_amount : Z;
  tr_operator_data : bytes;
  tr_token_data : bytes;
}.

(** The fields of [Policy] the registry reads. *)
Record Policy : Type := mkPolicy {
  minimum_verified_allocation_size : Z;
  minimum_verified_allocation_term : Z;
  maximum_verified_allocation_term : Z;
  maximum_verified_allocation_expiration : Z;
}.

Definition default_policy : Policy :=
  mkPolicy (Z.shiftl 1 20) (180 * EPOCHS_IN_DAY) (5 * EPOCHS_IN_YEAR) (60 * EPOCHS_IN_DAY).

(** Parameters of the messages the registry sends. *)
Inductive Params : Type :=
| PNone
| PBalance (owner : Address)
| PMint (to : Address) (amount : Z) (operators : list Address)
| PDestroy (owner : Address) (amount : Z)
| PTransfer (to : Address) (amount : Z)
| PBurn (amount : Z)
| PAuthenticate (signature message : bytes).

(** Code outside the repository: FRC-42 method numbers, the token standard's
    constants and CBOR codecs, HAMT iteration order. *)
Record Ext : Type := mkExt {
  method_hash : string -> Z;
  TOKEN_PRECISION : Z;
  FRC46_TOKEN_TYPE : Z;
  decode_token_received : bytes -> option TokenReceived;
  decode_allocation_requests : bytes -> option AllocationRequests;
  (** [RawBytes::serialize] of a [RemoveDataCapProposal]. *)
  serialize_proposal : Address -> Z -> Z -> option bytes;
  decode_bool : bytes -> option bool;
  decode_balance : bytes -> option Z;
  hamt_order : gset Z -> list Z;
}.

Inductive Msg : Type :=
| Constructor (root_key : Address)
| AddVerifier (address : Address) (allowance : Z)
| RemoveVerifier (verifier : Address)
| AddVerifiedClient (exported : bool) (address : Address) (allowance : Z)
| RemoveVerifiedClientDataCap (p : RemoveDataCapParams)
| RemoveExpiredAllocations (exported : bool) (client : Z) (allocation_ids : list Z)
| ClaimAllocations (sectors : list SectorAllocationClaims) (all_or_nothing : bool)
| GetClaims (exported : bool) (provider : Z) (claim_ids : list Z)
| ExtendClaimTerms (exported : bool) (terms : list ClaimTerm)
| RemoveExpiredClaims (exported : bool) (provider : Z) (claim_ids : list Z)
| UniversalReceiverHook (type : Z) (payload : bytes)
| OtherMethod (method : Z).

Inductive Ret : Type :=
| RUnit
| RRemoveDataCap (verified_client : Address) (data_cap_removed : Z)
| RRemoveAllocations (considered : list Z) (results : BatchReturn) (datacap_recovered : Z)
| RClaim (sector_results : BatchReturn) (sector_claims : list Z)
| RClaims (batch_info : BatchReturn) (found : list Claim)
| RExtend (results : BatchReturn)
| RRemoveClaims (considered : list Z) (results : BatchReturn)
| RAllocations (allocation_results extension_results : BatchReturn) (new_allocations : list Z).

(** ** State methods *)

Definition put_verifier (verifier : Address) (cap : Z) (st : State) : State :=
  set_verifiers (<[verifier := cap]> (verifiers st)) st.

Definition st_remove_verifier (verifier : Address) (st : State) : Res error State :=
  let! _ := ok_or (verifiers st !! verifier) (err USR_ILLEGAL_ARGUMENT) in
  Ok (set_verifiers (delete verifier (verifiers st)) st).

Definition get_verifier_cap (st : State) (verifier : Address) : option Z :=
  verifiers st !! verifier.

(** [put_many] under one client, with sequential ids. *)
Fixpoint put_allocations (client first_id : Z) (new_allocs : list Allocation)
    (allocs : gmap (Z * Z) Allocation) : Res error (gmap (Z * Z) Allocation) :=
  match new_allocs with
  | [] => Ok allocs
  | a :: rest =>
      let! id := chk_u64 first_id in
      put_allocations client (id + 1) rest (<[(client, id) := a]> allocs)
  end.

Definition insert_allocations (client : Z) (new_allocs : list Allocation) (st : State)
  : Res error (list Z * State) :=
  match new_allocs with
  | [] => Ok ([], st)
  | _ =>
      let first_id := next_allocation_id st in
      let count := Z.of_nat (length new_allocs) in
      let! allocs := put_allocations client first_id new_allocs (allocations st) in
      let! next := chk_u64 (first_id + count) in
      Ok (seqZ first_id count, set_next_allocation_id next (set_allocations allocs st))
  end.

Definition put_claims (new : list (Z * Claim)) (st : State) : State :=
  match new with
  | [] => st
  | _ => set_claims (foldl (fun m '(id, c) => <[(cl_provider c, id) := c]> m) (claims st) new) st
  end.

(** ** Expiration *)

(** The trait [Expires]. *)
Class Expires (T : Type) : Type := expiration : T -> Res error Z.
#[global] Instance Allocation_expires : Expires Allocation := fun a => Ok (al_expiration a).
#[global] Instance Claim_expires : Expires Claim := fun c =>
  chk_i64 (cl_term_start c + cl_term_max c).

Section expiration.
Context {T : Type} `{!Expires T}.

(** The inner keys of an outer key. *)
Definition inner_keys (collection : gmap (Z * Z) T) (owner : Z) : gset Z :=
  set_map snd (filter (fun k : Z * Z => fst k = owner) (dom collection)).

Definition find_expired (hamt_order : gset Z -> list Z) (collection : gmap (Z * Z) T)
    (owner curr_epoch : Z) : Res error (list Z) :=
  rfold (fun found id =>
    match collection !! (owner, id) with
    | None => Ok found
    | Some record =>
        let! e := expiration record in
        Ok (if curr_epoch >=? e then found ++ [id] else found)
    end) [] (hamt_order (inner_keys collection owner)).

Definition check_expired (collection : gmap (Z * Z) T) (candidates : list Z)
    (owner curr_epoch : Z) : Res error BatchReturn :=
  let! ret_gen := rfold (fun g id =>
    match collection !! (owner, id) with
    | Some record =>
        let! e := expiration record in
        Ok (if curr_epoch >=? e then add_success g else add_fail USR_FORBIDDEN g)
    | None => Ok (add_fail USR_NOT_FOUND g)
    end) (new_gen (length candidates)) candidates in
  generate ret_gen.

(** The part common to the removal of expired allocations and claims: what was
    considered, the batch result and the ids to remove. *)
Definition select_expired (hamt_order : gset Z -> list Z) (collection : gmap (Z * Z) T)
    (owner : Z) (ids : list Z) (curr_epoch : Z) : Res error (list Z * BatchReturn * list Z) :=
  match ids with
  | [] =>
      let! considered := find_expired hamt_order collection owner curr_epoch in
      Ok (considered, batch_ok (length considered), considered)
  | _ =>
      let! batch_ret := check_expired collection ids owner curr_epoch in
      let! to_remove := successes batch_ret ids in
      Ok (ids, batch_ret, to_remove)
  end.
End expiration.

(** ** Validation *)

Definition validate_new_allocation (req : AllocationRequest) (policy : Policy) (curr_epoch : Z)
  : Res error unit :=
  if ar_size req <? minimum_verified_allocation_size policy then Err (err USR_ILLEGAL_ARGUMENT)
  else if ar_term_min req <? minimum_verified_allocation_term policy
  then Err (err USR_ILLEGAL_ARGUMENT)
  else if ar_term_max req >? maximum_verified_allocation_term policy
  then Err (err USR_ILLEGAL_ARGUMENT)
  else if ar_term_min req >? ar_term_max req then Err (err USR_ILLEGAL_ARGUMENT)
  else if ar_expiration req <? curr_epoch then Err (err USR_ILLEGAL_ARGUMENT)
  else
    let! max_expiration := chk_i64 (curr_epoch + maximum_verified_allocation_expiration policy) in
    if ar_expiration req >? max_expiration then Err (err USR_ILLEGAL_ARGUMENT) else Ok tt.

Definition validate_claim_extension (req : ClaimExtensionRequest) (claim : Claim)
    (policy : Policy) (curr_epoch : Z) : Res error unit :=
  let! term_limit_absolute := chk_i64 (curr_epoch + maximum_verified_allocation_term policy) in
  let! term_limit_relative := chk_i64 (term_limit_absolute - cl_term_start claim) in
  if er_term_max req >? term_limit_relative then Err (err USR_ILLEGAL_ARGUMENT)
  else if er_term_max req <=? cl_term_max claim then Err (err USR_ILLEGAL_ARGUMENT)
  else
    let! claim_expiration := chk_i64 (cl_term_start claim + cl_term_max claim) in
    if curr_epoch >? claim_expiration then Err (err USR_FORBIDDEN) else Ok tt.

Definition can_claim_alloc (c : AllocationClaim) (provider : Z) (alloc : Allocation)
    (curr_epoch sector_expiry : Z) : Res error bool :=
  let! sector_lifetime := chk_i64 (sector_expiry - curr_epoch) in
  Ok ((provider =? al_provider alloc) && (ac_client c =? al_client alloc) &&
      bool_decide (ac_data c = al_data alloc) && (ac_size c =? al_size alloc) &&
      (curr_epoch <=? al_expiration alloc) && (sector_lifetime >=? al_term_min alloc) &&
      (sector_lifetime <=? al_term_max alloc)).

Definition with_term_max (term_max : Z) (c : Claim) : Claim :=
  mkClaim (cl_provider c) (cl_client c) (cl_data c) (cl_size c) (cl_term_min c) term_max
    (cl_term_start c) (cl_sector c).

(** [u64] addition in [curr_id.id + 1]. *)
Definition use_proposal_id (verifier client : Address) (ids : gmap (Address * Address) Z)
  : Res error (Z * gmap (Address * Address) Z) :=
  let curr_id := default 0 (ids !! (verifier, client)) in
  let! next_id := chk_u64 (curr_id + 1) in
  Ok (curr_id, <[(verifier, client) := next_id]> ids).

Definition is_verifier (st : State) (a : Address) : bool :=
  bool_decide (is_Some (verifiers st !! a)).

(** ** Methods *)

Section methods.
Context {Net : Type} (ext : Ext) (policy : Policy).
Context (env : Env Net State Params bytes) (ctx : Ctx).

Notation M := (M Net State Params bytes).

Definition datacap_to_tokens (amount : Z) : Z := amount * TOKEN_PRECISION ext.
Definition tokens_to_datacap (amount : Z) : Z := Z.quot amount (TOKEN_PRECISION ext).

(** *** Calls to the datacap actor *)

Definition call_datacap (method : string) (params : Params) : M (option bytes) :=
  let* res := send_simple env DATACAP_TOKEN_ACTOR_ADDR (method_hash ext method) params 0 in
  lift (extract_send_result res).

Definition balance (owner : Address) : M Z :=
  let* res := send env (mkSend DATACAP_TOKEN_ACTOR_ADDR (method_hash ext "Balance")
                          (PBalance owner) 0 true) in
  let* x := lift (let! r := extract_send_result res in deserialize_block (decode_balance ext) r) in
  ret (tokens_to_datacap x).

Definition mint (to : Address) (amount : Z) (operators : list Address) : M unit :=
  let* _ := call_datacap "Mint" (PMint to (datacap_to_tokens amount) operators) in ret tt.

Definition burn (amount : Z) : M unit :=
  if amount =? 0 then ret tt
  else let* _ := call_datacap "Burn" (PBurn (datacap_to_tokens amount)) in ret tt.

Definition destroy (owner : Address) (amount : Z) : M unit :=
  if amount =? 0 then ret tt
  else let* _ := call_datacap "Destroy" (PDestroy owner (datacap_to_tokens amount)) in ret tt.

Definition transfer (to : Z) (amount : Z) : M unit :=
  let* _ := call_datacap "Transfer" (PTransfer (AddrId to) (datacap_to_tokens amount)) in ret tt.

(** *** Verifiers and clients *)

Definition constructor (root : Address) : M unit :=
  let* _ := validate_immediate_caller_is ctx [SYSTEM_ACTOR_ADDR] in
  let* resolved := resolve_address env root in
  let* id_addr := lift (ok_or resolved (err USR_ILLEGAL_ARGUMENT)) in
  create (new_state (AddrId id_addr)).

Definition add_verifier (address : Address) (allowance : Z) : M unit :=
  if allowance <? minimum_verified_allocation_size policy then throw USR_ILLEGAL_ARGUMENT
  else
    let* verifier := resolve_to_actor_id env PNone address true in
    let verifier_addr := AddrId verifier in
    let* st := state in
    let* _ := validate_immediate_caller_is ctx [root_key st] in
    if addr_eqb verifier_addr (root_key st) then throw USR_ILLEGAL_ARGUMENT
    else
      let* token_balance := balance verifier_addr in
      if token_balance >? 0 then throw USR_ILLEGAL_ARGUMENT
      else transaction (fun st => Ok (tt, put_verifier verifier_addr allowance st)).

Definition remove_verifier (verifier : Address) : M unit :=
  let* verifier := resolve_to_actor_id env PNone verifier false in
  transaction_rt (fun st =>
    let* _ := validate_immediate_caller_is ctx [root_key st] in
    let* st := lift (st_remove_verifier (AddrId verifier) st) in
    ret (tt, st)).

(** The transaction of [add_verified_client]. *)
Definition spend_allowance (client : Address) (allowance : Z) (st : State)
  : Res error (unit * State) :=
  if addr_eqb client (root_key st) then Err (err USR_ILLEGAL_ARGUMENT)
  else
    let verifier_addr := caller ctx in
    let! verifier_cap := ok_or (get_verifier_cap st verifier_addr) (err USR_NOT_FOUND) in
    if bool_decide (is_Some (get_verifier_cap st client)) then Err (err USR_ILLEGAL_ARGUMENT)
    else if verifier_cap <? allowance then Err (err USR_ILLEGAL_ARGUMENT)
    else Ok (tt, put_verifier verifier_addr (verifier_cap - allowance) st).

Definition add_verified_client (address : Address) (allowance : Z) : M unit :=
  let* _ := validate_immediate_caller_accept_any in
  if allowance <? minimum_verified_allocation_size policy then throw USR_ILLEGAL_ARGUMENT
  else
    let* client_id := resolve_to_actor_id env PNone address true in
    let client := AddrId client_id in
    let* _ := transaction (spend_allowance client allowance) in
    mint client allowance [STORAGE_MARKET_ACTOR_ADDR].

Definition remove_data_cap_request_is_valid (request : RemoveDataCapRequest)
    (id to_remove : Z) (client : Address) : M unit :=
  let* b := lift (ok_or (serialize_proposal ext client to_remove id) (err USR_SERIALIZATION)) in
  let payload := [102; 105; 108; 95; 114; 101; 109; 111; 118; 101; 100; 97; 116; 97; 99; 97;
                  112; 58] ++ b in
  let* res := send env (mkSend (rr_verifier request) (method_hash ext "AuthenticateMessage")
                (PAuthenticate (rr_signature request) payload) 0 true) in
  let* ok := lift (let! r := extract_send_result res in deserialize_block (decode_bool ext) r) in
  if negb ok then throw USR_ILLEGAL_ARGUMENT else ret tt.

(** The transaction of [remove_verified_client_data_cap]. *)
Definition use_proposal_ids (p : RemoveDataCapParams) (verifier_1 verifier_2 client : Address)
    (st : State) : M ((Z * Z) * State) :=
  let* _ := validate_immediate_caller_is ctx [root_key st] in
  if addr_eqb (rd_client p) VERIFIED_REGISTRY_ACTOR_ADDR then throw USR_ILLEGAL_ARGUMENT
  else if negb (is_verifier st verifier_1) then throw USR_NOT_FOUND
  else if negb (is_verifier st verifier_2) then throw USR_NOT_FOUND
  else lift (
    let! (id_1, ids) := use_proposal_id verifier_1 client (remove_data_cap_proposal_ids st) in
    let! (id_2, ids) := use_proposal_id verifier_2 client ids in
    Ok ((id_1, id_2), set_proposal_ids ids st)).

Definition remove_verified_client_data_cap (p : RemoveDataCapParams) : M (Address * Z) :=
  let* client := resolve_to_actor_id env PNone (rd_client p) false in
  let client := AddrId client in
  let* verifier_1 := resolve_to_actor_id env PNone (rr_verifier (rd_request_1 p)) true in
  let verifier_1 := AddrId verifier_1 in
  let* verifier_2 := resolve_to_actor_id env PNone (rr_verifier (rd_request_2 p)) true in
  let verifier_2 := AddrId verifier_2 in
  if addr_eqb verifier_1 verifier_2 then throw USR_ILLEGAL_ARGUMENT
  else
    let* (id_1, id_2) := transaction_rt (use_proposal_ids p verifier_1 verifier_2 client) in
    let* _ := remove_data_cap_request_is_valid (rd_request_1 p) id_1 (rd_amount p) client in
    let* _ := remove_data_cap_request_is_valid (rd_request_2 p) id_2 (rd_amount p) client in
    let* bal := balance client in
    let burnt := Z.min bal (rd_amount p) in
    let* _ := destroy client burnt in
    ret (client, burnt).

(** *** Allocations *)

(** The transaction of [remove_expired_allocations]. *)
Definition remove_expired_allocations_st (client : Z) (ids : list Z) (st : State)
  : Res error ((list Z * BatchReturn * Z) * State) :=
  let! (considered, batch_ret, to_remove) :=
    select_expired (hamt_order ext) (allocations st) client ids (ctx_epoch ctx) in
  let! (allocs, recovered) := rfold (fun '(allocs, recovered) id =>
    let! existing := expect (allocs !! (client, id)) in
    Ok (delete (client, id) allocs, recovered + al_size existing))
      (allocations st, 0) to_remove in
  Ok ((considered, batch_ret, recovered), set_allocations allocs st).

Definition remove_expired_allocations (client : Z) (ids : list Z)
  : M (list Z * BatchReturn * Z) :=
  let* _ := validate_immediate_caller_accept_any in
  let* (considered, batch_ret, recovered) :=
    transaction (remove_expired_allocations_st client ids) in
  let* _ := transfer client recovered in
  ret (considered, batch_ret, recovered).

(** The variables of the claim loop. *)
Record Claiming : Type := mkClaiming {
  claim_gen : BatchReturnGen;
  sector_results : list Z;
  total_claimed_space : Z;
  new_claims : gmap (Z * Z) Claim;
  left_allocs : gmap (Z * Z) Allocation;
}.

(** Validates the claims of a sector, until one fails. *)
Definition validate_sector_claims (provider : Z) (allocs : gmap (Z * Z) Allocation)
    (sector : SectorAllocationClaims) : Res error (list (Z * Claim) + ExitCode) :=
  rfold (fun r c =>
    match r with
    | inr code => Ok (inr code)
    | inl sector_new_claims =>
        match allocs !! (ac_client c, ac_allocation_id c) with
        | Some alloc =>
            let! ok := can_claim_alloc c provider alloc (ctx_epoch ctx) (sa_expiry sector) in
            Ok (if negb ok then inr USR_FORBIDDEN
                else inl (sector_new_claims ++
                  [(ac_allocation_id c,
                    mkClaim provider (al_client alloc) (al_data alloc) (al_size alloc)
                      (al_term_min alloc) (al_term_max alloc) (ctx_epoch ctx)
                      (sa_sector sector))]))
        | None => Ok (inr USR_NOT_FOUND)
        end
    end) (inl []) (sa_claims sector).

Definition apply_claim (provider : Z)
    (acc : gmap (Z * Z) Claim * gmap (Z * Z) Allocation * Z) (entry : Z * Claim)
  : Res error (gmap (Z * Z) Claim * gmap (Z * Z) Allocation * Z) :=
  let '(cs, allocs, space) := acc in
  let '(id, new_claim) := entry in
  if bool_decide (is_Some (cs !! (provider, id))) then Err (err USR_ILLEGAL_ARGUMENT)
  else Ok (<[(provider, id) := new_claim]> cs, delete (cl_client new_claim, id) allocs,
           space + cl_size new_claim).

Definition claim_sector (provider : Z) (acc : Claiming) (sector : SectorAllocationClaims)
  : Res error Claiming :=
  let! r := validate_sector_claims provider (left_allocs acc) sector in
  match r with
  | inr code =>
      Ok (mkClaiming (add_fail code (claim_gen acc)) (sector_results acc)
            (total_claimed_space acc) (new_claims acc) (left_allocs acc))
  | inl sector_new_claims =>
      let! (cs, allocs, space) :=
        rfold (apply_claim provider) (new_claims acc, left_allocs acc, 0) sector_new_claims in
      Ok (mkClaiming (add_success (claim_gen acc)) (sector_results acc ++ [space])
            (total_claimed_space acc + space) cs allocs)
  end.

Definition claim_sectors (provider : Z) (sectors : list SectorAllocationClaims) (st : State)
  : Res error (Claiming * State) :=
  let! acc := rfold (claim_sector provider)
    (mkClaiming (new_gen (length sectors)) [] 0 (claims st) (allocations st)) sectors in
  Ok (acc, set_claims (new_claims acc) (set_allocations (left_allocs acc) st)).

Definition claim_allocations (sectors : list SectorAllocationClaims) (all_or_nothing : bool)
  : M (BatchReturn * list Z) :=
  let* _ := validate_immediate_caller_type env ctx [TMiner] in
  let provider := ctx_caller ctx in
  match sectors with
  | [] => throw USR_ILLEGAL_ARGUMENT
  | _ =>
      let* acc := transaction (claim_sectors provider sectors) in
      let* batch_info := lift (generate (claim_gen acc)) in
      if all_or_nothing && negb (all_ok batch_info) then throw USR_ILLEGAL_ARGUMENT
      else
        let* _ := burn (total_claimed_space acc) in
        ret (batch_info, sector_results acc)
  end.

(** *** Claims *)

Definition get_claims (provider : Z) (claim_ids : list Z) : M (BatchReturn * list Claim) :=
  let* _ := validate_immediate_caller_accept_any in
  let* st := state in
  let '(g, found) := foldl (fun '(g, found) id =>
    match claims st !! (provider, id) with
    | None => (add_fail USR_NOT_FOUND g, found)
    | Some c => (add_success g, found ++ [c])
    end) (new_gen (length claim_ids), []) claim_ids in
  let* b := lift (generate g) in
  ret (b, found).

Definition extend_claim_term (acc : BatchReturnGen * gmap (Z * Z) Claim) (term : ClaimTerm)
  : BatchReturnGen * gmap (Z * Z) Claim :=
  let '(g, cs) := acc in
  if ct_term_max term >? maximum_verified_allocation_term policy
  then (add_fail USR_ILLEGAL_ARGUMENT g, cs)
  else
    match cs !! (ct_provider term, ct_claim_id term) with
    | None => (add_fail USR_NOT_FOUND g, cs)
    | Some c =>
        if negb (cl_client c =? ctx_caller ctx) then (add_fail USR_FORBIDDEN g, cs)
        else if ct_term_max term <? cl_term_max c then (add_fail USR_ILLEGAL_ARGUMENT g, cs)
        else
          (add_success g,
           <[(ct_provider term, ct_claim_id term) := with_term_max (ct_term_max term) c]> cs)
    end.

Definition extend_claim_terms (terms : list ClaimTerm) : M BatchReturn :=
  let* _ := validate_immediate_caller_accept_any in
  let* g := transaction (fun st =>
    let '(g, cs) := foldl extend_claim_term (new_gen (length terms), claims st) terms in
    Ok (g, set_claims cs st)) in
  lift (generate g).

Definition remove_expired_claims_st (provider : Z) (ids : list Z) (st : State)
  : Res error ((list Z * BatchReturn) * State) :=
  let! (considered, batch_ret, to_remove) :=
    select_expired (hamt_order ext) (claims st) provider ids (ctx_epoch ctx) in
  let! cs := rfold (fun cs id =>
    let! _ := expect (cs !! (provider, id)) in
    Ok (delete (provider, id) cs)) (claims st) to_remove in
  Ok ((considered, batch_ret), set_claims cs st).

Definition remove_expired_claims (provider : Z) (ids : list Z) : M (list Z * BatchReturn) :=
  let* _ := validate_immediate_caller_accept_any in
  transaction (remove_expired_claims_st provider ids).

(** *** The receiver hook *)

Definition validate_tokens_received (type : Z) (payload : bytes) : Res error TokenReceived :=
  if negb (type =? FRC46_TOKEN_TYPE ext) then Err (err USR_ILLEGAL_ARGUMENT)
  else
    let! p := ok_or (decode_token_received ext payload) (err USR_SERIALIZATION) in
    if negb (tr_to p =? ctx_receiver ctx) then Err (err USR_ILLEGAL_ARGUMENT) else Ok p.

Definition check_miner_id (id : Z) : M unit :=
  let* code := get_actor_code_cid env id in
  let* code_cid := lift (ok_or code (err USR_ILLEGAL_ARGUMENT)) in
  let* provider_type := lift (ok_or (env_builtin_type env code_cid) (err USR_ILLEGAL_ARGUMENT)) in
  if negb (bool_decide (provider_type = TMiner)) then throw USR_ILLEGAL_ARGUMENT else ret tt.

Definition new_allocation (client : Z) (acc : list Allocation * Z) (req : AllocationRequest)
  : M (list Allocation * Z) :=
  let '(new_allocs, datacap_total) := acc in
  let* _ := lift (validate_new_allocation req policy (ctx_epoch ctx)) in
  let* _ := check_miner_id (ar_provider req) in
  ret (new_allocs ++ [mkAlloc client (ar_provider req) (ar_data req) (ar_size req)
                        (ar_term_min req) (ar_term_max req) (ar_expiration req)],
       datacap_total + ar_size req).

Definition extend_claim (cs : gmap (Z * Z) Claim) (acc : list (Z * Claim) * Z)
    (req : ClaimExtensionRequest) : Res error (list (Z * Claim) * Z) :=
  let '(updated_claims, extension_total) := acc in
  let! c := ok_or (cs !! (er_provider req, er_claim req)) (err USR_NOT_FOUND) in
  let! _ := validate_claim_extension req c policy (ctx_epoch ctx) in
  Ok (updated_claims ++ [(er_claim req, with_term_max (er_term_max req) c)],
      extension_total + cl_size c).

Definition universal_receiver_hook (type : Z) (payload : bytes)
  : M (BatchReturn * BatchReturn * list Z) :=
  let* _ := validate_immediate_caller_is ctx [DATACAP_TOKEN_ACTOR_ADDR] in
  let* tokens_received := lift (validate_tokens_received type payload) in
  let client := tr_from tokens_received in
  let* reqs := lift (ok_or (decode_allocation_requests ext (tr_operator_data tokens_received))
                       (err USR_SERIALIZATION)) in
  let* (new_allocs, allocation_total) :=
    mfold (new_allocation client) ([], 0) (ars_allocations reqs) in
  let* st := state in
  let* (updated_claims, extension_total) :=
    lift (rfold (extend_claim (claims st)) ([], 0) (ars_extensions reqs)) in
  let datacap_total := allocation_total + extension_total in
  if negb (datacap_total =? tokens_to_datacap (tr_amount tokens_received))
  then throw USR_ILLEGAL_ARGUMENT
  else
    let* _ := burn extension_total in
    let* ids := transaction (fun st =>
      let! (ids, st) := insert_allocations client new_allocs st in
      Ok (ids, put_claims updated_claims st)) in
    ret (batch_ok (length new_allocs), batch_ok (length updated_claims), ids).

(** ** Dispatch *)

Definition method_num (m : Msg) : Z :=
  match m with
  | Constructor _ => 1
  | AddVerifier _ _ => 2
  | RemoveVerifier _ => 3
  | AddVerifiedClient exported _ _ => if exported then method_hash ext "AddVerifiedClient" else 4
  | RemoveVerifiedClientDataCap _ => 7
  | RemoveExpiredAllocations exported _ _ =>
      if exported then method_hash ext "RemoveExpiredAllocations" else 8
  | ClaimAllocations _ _ => 9
  | GetClaims exported _ _ => if exported then method_hash ext "GetClaims" else 10
  | ExtendClaimTerms exported _ => if exported then method_hash ext "ExtendClaimTerms" else 11
  | RemoveExpiredClaims exported _ _ =>
      if exported then method_hash ext "RemoveExpiredClaims" else 12
  | UniversalReceiverHook _ _ => method_hash ext "Receive"
  | OtherMethod n => n
  end.

(** Integers of decoded parameters are within their types. *)
Definition decodes (m : Msg) : bool :=
  match m with
  | RemoveExpiredAllocations _ owner ids | RemoveExpiredClaims _ owner ids | GetClaims _ owner ids =>
      in_u64 owner && forallb in_u64 ids
  | ClaimAllocations sectors _ =>
      forallb (fun s => in_i64 (sa_expiry s) && in_u64 (sa_sector s) &&
        forallb (fun c => in_u64 (ac_client c) && in_u64 (ac_allocation_id c) &&
                          in_u64 (ac_size c)) (sa_claims s)) sectors
  | ExtendClaimTerms _ terms =>
      forallb (fun t => in_i64 (ct_term_max t) && in_u64 (ct_provider t) &&
                        in_u64 (ct_claim_id t)) terms
  | UniversalReceiverHook type _ => in_u64 type
  | _ => true
  end.

Definition invoke_method (m : Msg) : M Ret :=
  let* _ := restrict_internal_api env ctx (method_num m) in
  if negb (decodes m) then throw USR_SERIALIZATION
  else
  match m with
  | Constructor root => let* _ := constructor root in ret RUnit
  | AddVerifier a n => let* _ := add_verifier a n in ret RUnit
  | RemoveVerifier a => let* _ := remove_verifier a in ret RUnit
  | AddVerifiedClient _ a n => let* _ := add_verified_client a n in ret RUnit
  | RemoveVerifiedClientDataCap p =>
      let* (c, n) := remove_verified_client_data_cap p in ret (RRemoveDataCap c n)
  | RemoveExpiredAllocations _ c ids =>
      let* (considered, b, n) := remove_expired_allocations c ids in
      ret (RRemoveAllocations considered b n)
  | ClaimAllocations sectors all =>
      let* (b, spaces) := claim_allocations sectors all in ret (RClaim b spaces)
  | GetClaims _ p ids => let* (b, cs) := get_claims p ids in ret (RClaims b cs)
  | ExtendClaimTerms _ terms => let* b := extend_claim_terms terms in ret (RExtend b)
  | RemoveExpiredClaims _ p ids =>
      let* (considered, b) := remove_expired_claims p ids in ret (RRemoveClaims considered b)
  | UniversalReceiverHook type payload =>
      let* (a, e, ids) := universal_receiver_hook type payload in ret (RAllocations a e ids)
  | OtherMethod _ => throw USR_UNHANDLED_MESSAGE
  end.

End methods.
