(* ===== verification/VerifregProofs.v ===== *)
(** * The verified registry: allocations and claims

    The tables of the registry as a transition system: the invariant of its
    tables, how they may evolve, and that each transaction of the registry
    moves them accordingly and accounts for the datacap it frees or takes. *)

From S2P Require Import Prelude Runtime Batch Verifreg.

Implicit Types (a : Allocation) (x : Claim).

(** ** Tables *)

Record Tab : Type := mkTab {
  t_al : gmap (Z * Z) Allocation;
  t_next : Z;
  t_cl : gmap (Z * Z) Claim;
}.
Implicit Types T : Tab.

Definition tab (st : State) : Tab := mkTab (allocations st) (next_allocation_id st) (claims st).

(** The datacap held by allocations. *)
Definition held T : Z := map_sum al_size (t_al T).

(** Every identifier was handed out, and is at most one allocation or one
    claim, of one client or provider. *)
Record wf T : Prop := {
  w_next : 1 <= t_next T;
  w_al : forall c id a, t_al T !! (c, id) = Some a ->
    al_client a = c /\ 1 <= id < t_next T /\ 0 <= al_size a;
  w_al_unique : forall c c' id, is_Some (t_al T !! (c, id)) -> is_Some (t_al T !! (c', id)) -> c = c';
  w_cl : forall p id x, t_cl T !! (p, id) = Some x -> cl_provider x = p /\ 1 <= id < t_next T;
  w_cl_unique : forall p p' id, is_Some (t_cl T !! (p, id)) -> is_Some (t_cl T !! (p', id)) -> p = p';
  w_disjoint : forall c p id, is_Some (t_al T !! (c, id)) -> is_Some (t_cl T !! (p, id)) -> False;
}.

(** A claim made from an allocation, its term possibly extended since. *)
Record from_alloc a x : Prop := {
  fa_provider : cl_provider x = al_provider a;
  fa_client : cl_client x = al_client a;
  fa_data : cl_data x = al_data a;
  fa_size : cl_size x = al_size a;
  fa_term_min : cl_term_min x = al_term_min a;
  fa_term_max : al_term_max a <= cl_term_max x;
}.

(** How the tables may change: an allocation never comes back, a claim comes
    from an allocation to its provider and only ever has its term extended. *)
Record evolves T T' : Prop := {
  ev_next : t_next T <= t_next T';
  ev_al : forall c id a, t_al T' !! (c, id) = Some a -> id < t_next T ->
    t_al T !! (c, id) = Some a;
  ev_cl_new : forall p id x, t_cl T' !! (p, id) = Some x -> id < t_next T ->
    is_Some (t_cl T !! (p, id)) \/
    exists c a, t_al T !! (c, id) = Some a /\ from_alloc a x;
  ev_cl_same : forall k x x', t_cl T !! k = Some x -> t_cl T' !! k = Some x' ->
    exists t, cl_term_max x <= t /\ x' = with_term_max t x;
}.

(** The change keeps the invariant, is one the registry may make, and adds
    [d] to the datacap held. *)
Definition tstep T T' (d : Z) : Prop :=
  wf T -> wf T' /\ evolves T T' /\ held T' = held T + d.

Lemma with_term_max_id x : with_term_max (cl_term_max x) x = x.
Proof. by destruct x. Qed.

Lemma evolves_refl T : evolves T T.
Proof.
  constructor; [lia|done|intros; left; eauto|].
  intros k x x' Hx Hx'. exists (cl_term_max x). rewrite with_term_max_id. split; [lia|congruence].
Qed.

Lemma from_alloc_extend a x t : from_alloc a x -> cl_term_max x <= t -> from_alloc a (with_term_max t x).
Proof. intros [] Ht. constructor; cbn; try done. lia. Qed.

Lemma evolves_trans T1 T2 T3 : wf T1 -> evolves T1 T2 -> evolves T2 T3 -> evolves T1 T3.
Proof.
  intros Hwf E1 E2. pose proof (ev_next _ _ E1). pose proof (ev_next _ _ E2). constructor.
  - lia.
  - intros c id a Ha Hid. eapply (ev_al _ _ E1); [|lia]. eapply (ev_al _ _ E2); [done|lia].
  - intros p id x Hx Hid. destruct (ev_cl_new _ _ E2 p id x Hx) as [[x' Hx']|(c & a & Ha & Hf)].
    + lia.
    + destruct (ev_cl_same _ _ E2 _ _ _ Hx' Hx) as (t & Ht & ->).
      destruct (ev_cl_new _ _ E1 p id x' Hx') as [?|(c & a & Ha & Hf)]; [lia|by left|].
      right. exists c, a. split; [done|]. by apply from_alloc_extend.
    + right. exists c, a. split; [|done]. by eapply (ev_al _ _ E1).
  - intros [p id] x x' Hx Hx'.
    destruct (w_cl _ Hwf _ _ _ Hx) as [_ Hid].
    destruct (ev_cl_new _ _ E2 p id x' Hx') as [[y Hy]|(c & a & Ha & _)]; [lia| |].
    + destruct (ev_cl_same _ _ E1 _ _ _ Hx Hy) as (t & Ht & ->).
      destruct (ev_cl_same _ _ E2 _ _ _ Hy Hx') as (t' & Ht' & ->).
      exists t'. cbn in Ht'. split; [lia|done].
    + exfalso. eapply (w_disjoint _ Hwf c p id); [|by eexists]. eexists. eapply (ev_al _ _ E1); [done|lia].
Qed.

Lemma tstep_refl T : tstep T T 0.
Proof. intros Hwf. split_and!; [done|apply evolves_refl|lia]. Qed.

Lemma tstep_trans T1 T2 T3 d d' : tstep T1 T2 d -> tstep T2 T3 d' -> tstep T1 T3 (d + d').
Proof.
  intros H1 H2 Hwf. destruct (H1 Hwf) as (Hwf2 & E1 & Hh1). destruct (H2 Hwf2) as (Hwf3 & E2 & Hh2).
  split_and!; [done|by eapply evolves_trans|lia].
Qed.

Lemma tstep_eq T T' d d' : tstep T T' d -> d = d' -> tstep T T' d'.
Proof. by intros ? <-. Qed.

(** ** Single changes *)

Ltac lookup_cases :=
  repeat match goal with
  | H : <[_ := _]> _ !! _ = Some _ |- _ =>
      apply lookup_insert_Some in H as [[? ?]|[? ?]]; simplify_eq
  | H : is_Some (<[_ := _]> _ !! _) |- _ =>
      apply lookup_insert_is_Some in H as [?|[? ?]]; simplify_eq
  | H : delete _ _ !! _ = Some _ |- _ => apply lookup_delete_Some in H as [? ?]
  | H : is_Some (delete _ _ !! _) |- _ => apply lookup_delete_is_Some in H as [? ?]
  end.

Ltac none_absurd Hn :=
  match goal with H : is_Some _ |- _ => rewrite Hn in H; destruct H as [? H]; discriminate H end.

Lemma t_insert T c a :
  al_client a = c -> 0 <= al_size a ->
  tstep T (mkTab (<[(c, t_next T) := a]> (t_al T)) (t_next T + 1) (t_cl T)) (al_size a).
Proof.
  intros Hc Hsz [Hn Ha Hau Hcl Hcu Hd].
  assert (forall c', t_al T !! (c', t_next T) = None) as Hfresh.
  { intros c'. destruct (t_al T !! (c', t_next T)) eqn:E; [|done]. apply Ha in E. lia. }
  assert (forall p, t_cl T !! (p, t_next T) = None) as Hfresh'.
  { intros p. destruct (t_cl T !! (p, t_next T)) eqn:E; [|done]. apply Hcl in E. lia. }
  split_and!.
  - constructor; cbn.
    + lia.
    + intros c' id a' H. lookup_cases; [split_and!; lia|]. apply Ha in H0. intuition lia.
    + intros c1 c2 id H1 H2. lookup_cases; first [done|none_absurd Hfresh|by eauto].
    + intros p id x Hx. apply Hcl in Hx. intuition lia.
    + done.
    + intros c' p id H1 H2. lookup_cases; [none_absurd Hfresh'|eauto].
  - constructor; cbn.
    + lia.
    + intros c' id a' H Hid. lookup_cases; [lia|done].
    + intros. left. eauto.
    + intros k x x' Hx Hx'. exists (cl_term_max x). rewrite with_term_max_id. split; [lia|congruence].
  - unfold held. cbn. rewrite map_sum_insert_new by done. lia.
Qed.

Lemma t_drop_alloc T k a :
  t_al T !! k = Some a ->
  tstep T (mkTab (delete k (t_al T)) (t_next T) (t_cl T)) (- al_size a).
Proof.
  intros Hk [Hn Ha Hau Hcl Hcu Hd]. split_and!.
  - constructor; cbn; try done.
    + intros c id a' H. lookup_cases. eauto.
    + intros c c' id H1 H2. lookup_cases. eauto.
    + intros c p id H1 H2. lookup_cases. eauto.
  - constructor; cbn; [lia| | |].
    + intros c id a' H _. by lookup_cases.
    + intros. left. eauto.
    + intros k' x x' Hx Hx'. exists (cl_term_max x). rewrite with_term_max_id. split; [lia|congruence].
  - unfold held. cbn. rewrite (map_sum_delete _ k a (t_al T) Hk). lia.
Qed.

Lemma t_claim T c p id a x :
  t_al T !! (c, id) = Some a -> from_alloc a x -> cl_provider x = p ->
  tstep T (mkTab (delete (c, id) (t_al T)) (t_next T) (<[(p, id) := x]> (t_cl T))) (- al_size a).
Proof.
  intros Hk Hf Hp [Hn Ha Hau Hcl Hcu Hd].
  assert (forall c', is_Some (delete (c, id) (t_al T) !! (c', id)) -> False) as Hgone.
  { intros c' H. lookup_cases. assert (c = c') as -> by eauto. done. }
  assert (forall p', t_cl T !! (p', id) = None) as Hfresh.
  { intros p'. destruct (t_cl T !! (p', id)) eqn:E; [|done]. exfalso. eapply (Hd c p' id); eauto. }
  split_and!.
  - constructor; cbn.
    + done.
    + intros c' id' a' H. lookup_cases. eauto.
    + intros c1 c2 id' H1 H2. lookup_cases. eauto.
    + intros p' id' x' H. lookup_cases; [split; [done|]|eauto]. apply Ha in Hk. lia.
    + intros p1 p2 id' H1 H2.
      lookup_cases; first [done|none_absurd Hfresh|by eauto].
    + intros c' p' id' H1 H2. lookup_cases; [|eauto].
      by apply (Hgone c'), lookup_delete_is_Some.
  - constructor; cbn; [lia| | |].
    + intros c' id' a' H _. by lookup_cases.
    + intros p' id' x' H _. lookup_cases; [right; eauto|left; eauto].
    + intros k x1 x2 H1 H2. lookup_cases; [by rewrite Hfresh in H1|].
      exists (cl_term_max x1). rewrite with_term_max_id. split; [lia|congruence].
  - unfold held. cbn. rewrite (map_sum_delete _ (c, id) a (t_al T) Hk). lia.
Qed.

(** Every claim keeps its value or has its term extended. *)
Definition extended (cl cl' : gmap (Z * Z) Claim) : Prop :=
  forall k, cl' !! k = cl !! k \/
    exists x t, cl !! k = Some x /\ cl_term_max x <= t /\ cl' !! k = Some (with_term_max t x).

Lemma t_extend T cl' :
  extended (t_cl T) cl' -> tstep T (mkTab (t_al T) (t_next T) cl') 0.
Proof.
  intros Hx [Hn Ha Hau Hcl Hcu Hd].
  assert (forall k, is_Some (cl' !! k) -> is_Some (t_cl T !! k)) as Hsame.
  { intros k Hk. destruct (Hx k) as [<-|(x & t & -> & _)]; eauto. }
  split_and!.
  - constructor; cbn; eauto.
    intros p id x' H. destruct (Hx (p, id)) as [Heq|(x & t & Hk & Ht & Heq)].
    + rewrite Heq in H. eauto.
    + apply Hcl in Hk. rewrite Heq in H. by simplify_eq.
  - constructor; cbn; [lia|done| |].
    + intros p id x' H _. left. apply Hsame. eauto.
    + intros k x1 x2 H1 H2. destruct (Hx k) as [Heq|(x & t & Hk & Ht & Heq)].
      * exists (cl_term_max x1). rewrite with_term_max_id. split; [lia|congruence].
      * exists t. split; [|congruence]. congruence.
  - unfold held. cbn. lia.
Qed.

Lemma t_drop_claim T k :
  tstep T (mkTab (t_al T) (t_next T) (delete k (t_cl T))) 0.
Proof.
  intros [Hn Ha Hau Hcl Hcu Hd]. split_and!.
  - constructor; cbn; try done.
    + intros p id x H. lookup_cases. eauto.
    + intros p p' id H1 H2. lookup_cases. eauto.
    + intros c p id H1 H2. lookup_cases. eauto.
  - constructor; cbn; [lia|done| |].
    + intros p id x H _. lookup_cases. left. eauto.
    + intros k' x1 x2 H1 H2. lookup_cases.
      exists (cl_term_max x1). rewrite with_term_max_id. split; [lia|congruence].
  - unfold held. cbn. lia.
Qed.

(** ** Transactions *)

Lemma put_allocations_step c new : forall first al al' cl,
  Forall (fun a => al_client a = c /\ 0 <= al_size a) new ->
  put_allocations c first new al = Ok al' ->
  tstep (mkTab al first cl) (mkTab al' (first + Z.of_nat (length new)) cl)
    (sum_list_Z (al_size <$> new)).
Proof.
  induction new as [|a new IH]; intros first al al' cl Hnew H; cbn in H; res_inv.
  - cbn. rewrite Z.add_0_r. apply tstep_refl.
  - apply Forall_cons in Hnew as [[Hc Hsz] Hnew].
    assert (first + Z.of_nat (length (a :: new)) = first + 1 + Z.of_nat (length new)) as ->
      by (cbn [length]; lia).
    exact (tstep_trans _ _ _ _ _ (t_insert (mkTab al first cl) c a Hc Hsz) (IH _ _ _ cl Hnew H)).
Qed.

Lemma insert_allocations_step c new st ids st' :
  Forall (fun a => al_client a = c /\ 0 <= al_size a) new ->
  insert_allocations c new st = Ok (ids, st') ->
  tstep (tab st) (tab st') (sum_list_Z (al_size <$> new)) /\ claims st' = claims st /\
  verifiers st' = verifiers st.
Proof.
  intros Hnew H. unfold insert_allocations in H. destruct new as [|a new]; res_inv.
  - split_and!; [apply tstep_refl|done..].
  - split_and!; [|done..]. by eapply put_allocations_step.
Qed.

Lemma drop_allocs_step c ids : forall al rec al' rec' nx cl,
  rfold (fun '(allocs, recovered) id =>
    let! existing := expect (allocs !! (c, id)) in
    Ok (delete (c, id) allocs, recovered + al_size existing)) (al, rec) ids
    = @Ok error _ (al', rec') ->
  tstep (mkTab al nx cl) (mkTab al' nx cl) (rec - rec').
Proof.
  induction ids as [|id ids IH]; intros al rec al' rec' nx cl H; cbn in H; res_inv.
  - rewrite Z.sub_diag. apply tstep_refl.
  - eapply tstep_eq; [eapply tstep_trans; [by apply (t_drop_alloc (mkTab al nx cl))|by apply IH]|].
    lia.
Qed.

Lemma drop_claims_step p ids : forall cl cl' al nx,
  rfold (fun cs id => let! _ := expect (cs !! (p, id)) in Ok (delete (p, id) cs)) cl ids
    = @Ok error _ cl' ->
  tstep (mkTab al nx cl) (mkTab al nx cl') 0.
Proof.
  induction ids as [|id ids IH]; intros cl cl' al nx H; cbn in H; res_inv.
  - apply tstep_refl.
  - eapply tstep_eq; [eapply tstep_trans; [apply (t_drop_claim (mkTab al nx cl) (p, id))|by apply IH]|].
    lia.
Qed.

Lemma extended_refl cl : extended cl cl.
Proof. by left. Qed.

Lemma extended_insert cl cl' k x t :
  extended cl cl' -> cl !! k = Some x -> cl_term_max x <= t ->
  extended cl (<[k := with_term_max t x]> cl').
Proof.
  intros Hx Hk Ht k'. destruct (decide (k = k')) as [<-|Hne].
  - right. exists x, t. by rewrite lookup_insert_eq.
  - rewrite lookup_insert_ne by done. apply Hx.
Qed.

Lemma extended_again cl cl' k x t :
  extended cl cl' -> cl' !! k = Some x -> cl_term_max x <= t ->
  extended cl (<[k := with_term_max t x]> cl').
Proof.
  intros Hx Hk Ht. destruct (Hx k) as [Heq|(y & t0 & Hy & Ht0 & Heq)]; rewrite Hk in Heq.
  - by apply extended_insert.
  - simplify_eq. change (with_term_max t (with_term_max t0 y)) with (with_term_max t y).
    apply extended_insert; [done|done|]. cbn in Ht. lia.
Qed.

Lemma extend_claim_term_extended policy ctx terms : forall cl g cl' g' cl'',
  extended cl cl' -> foldl (extend_claim_term policy ctx) (g, cl') terms = (g', cl'') ->
  extended cl cl''.
Proof.
  induction terms as [|term terms IH]; intros cl g cl' g' cl'' Hx H; cbn [foldl] in H.
  { by simplify_eq. }
  destruct (extend_claim_term policy ctx (g, cl') term) as [g1 cl1] eqn:E.
  eapply IH; [|exact H]. unfold extend_claim_term in E.
  repeat case_match; simplify_eq; try done. bool_prop. by apply extended_again.
Qed.

(** The updates of claims by paid extensions. *)
Definition extension (cl : gmap (Z * Z) Claim) (entry : Z * Claim) : Prop :=
  exists x t, cl !! (cl_provider (snd entry), fst entry) = Some x /\
    cl_term_max x <= t /\ snd entry = with_term_max t x.

Lemma extend_claims_ok policy ctx T reqs l total l' total' :
  wf T -> Forall (extension (t_cl T)) l ->
  rfold (extend_claim policy ctx (t_cl T)) (l, total) reqs = Ok (l', total') ->
  Forall (extension (t_cl T)) l'.
Proof.
  intros Hwf Hl H.
  refine (rfold_inv _ (fun acc => Forall (extension (t_cl T)) (fst acc)) _ _ _ _ _ H); [done|].
  intros [l0 n] req [l1 n1] _ Hacc Hstep. unfold extend_claim in Hstep. res_inv.
  apply Forall_app. split; [done|]. apply Forall_singleton.
  match goal with Hc : _ !! _ = Some ?c |- _ => destruct (w_cl _ Hwf _ _ _ Hc) as [Hp _];
    exists c, (er_term_max req); cbn; rewrite Hp end.
  unfold validate_claim_extension in *. res_inv. split_and!; [done|lia|done].
Qed.

Lemma put_claims_extended new st :
  Forall (extension (claims st)) new ->
  put_claims new st = set_claims (claims (put_claims new st)) st /\
  extended (claims st) (claims (put_claims new st)).
Proof.
  intros Hnew. split; [by destruct new, st|].
  assert (forall cl', extended (claims st) cl' ->
    extended (claims st) (foldl (fun m '(id, c) => <[(cl_provider c, id) := c]> m) cl' new)) as H.
  { induction Hnew as [|[id c] new (x & t & Hx & Ht & Heq) _ IH]; intros cl' Hcl; [done|].
    cbn in Heq, Hx |- *. apply IH. rewrite Heq. rewrite Heq in Hx. by apply extended_insert. }
  destruct new; [apply extended_refl|apply H, extended_refl].
Qed.

(** The transaction of the receiver hook. *)
Lemma hook_step policy ctx c new reqs upd total st ids st1 :
  wf (tab st) ->
  Forall (fun a => al_client a = c /\ 0 <= al_size a) new ->
  rfold (extend_claim policy ctx (claims st)) ([], 0) reqs = Ok (upd, total) ->
  insert_allocations c new st = Ok (ids, st1) ->
  tstep (tab st) (tab (put_claims upd st1)) (sum_list_Z (al_size <$> new)) /\
  verifiers (put_claims upd st1) = verifiers st /\
  remove_data_cap_proposal_ids (put_claims upd st1) = remove_data_cap_proposal_ids st /\
  root_key (put_claims upd st1) = root_key st.
Proof.
  intros Hwf Hnew Hx Hi. eapply (extend_claims_ok _ _ (tab st)) in Hx; [|done|constructor].
  pose proof (insert_allocations_step _ _ _ _ _ Hnew Hi) as (Hstep & Hcl & Hv).
  cbn in Hx. rewrite <- Hcl in Hx. destruct (put_claims_extended upd st1 Hx) as [Heq Hext].
  split_and!.
  - eapply tstep_eq; [eapply tstep_trans; [exact Hstep|]|apply Z.add_0_r].
    rewrite Heq. by apply (t_extend (tab st1)).
  - by rewrite Heq.
  - rewrite Heq. unfold insert_allocations in Hi. destruct new; by res_inv.
  - rewrite Heq. unfold insert_allocations in Hi. destruct new; by res_inv.
Qed.

(** ** Claiming *)

Section claiming.
Context (ctx : Ctx) (p : Z).
Notation e := (ctx_epoch ctx).

(** The claim of an allocation for a sector. *)
Definition claim_of (sector : SectorAllocationClaims) (a : Allocation) : Claim :=
  mkClaim p (al_client a) (al_data a) (al_size a) (al_term_min a) (al_term_max a) e (sa_sector sector).

(** A request for an allocation that exists, that names its client, piece and
    size, and that the allocation allows: for this provider, in time, and for
    a sector whose remaining life is within the terms. *)
Record valid_request (al : gmap (Z * Z) Allocation) (sector : SectorAllocationClaims) (c : AllocationClaim)
    (a : Allocation) : Prop := {
  vr_alloc : al !! (al_client a, ac_allocation_id c) = Some a;
  vr_client : ac_client c = al_client a;
  vr_data : ac_data c = al_data a;
  vr_size : ac_size c = al_size a;
  vr_provider : al_provider a = p;
  vr_time : e <= al_expiration a;
  vr_term : al_term_min a <= sa_expiry sector - e <= al_term_max a;
}.

(** All requests of a sector are valid. *)
Definition granted (al : gmap (Z * Z) Allocation) (sector : SectorAllocationClaims) : Prop :=
  forall c, c ∈ sa_claims sector -> exists a, valid_request al sector c a.

(** The claim [x] with identifier [id] answers a request of the sector. *)
Record made_from (al : gmap (Z * Z) Allocation) (sector : SectorAllocationClaims) (id : Z) a x : Prop := {
  mf_claim : x = claim_of sector a;
  mf_request : exists c, c ∈ sa_claims sector /\ ac_allocation_id c = id /\ valid_request al sector c a;
}.

Lemma made_from_alloc al sector id a x : made_from al sector id a x -> from_alloc a x.
Proof. intros [-> (c & _ & _ & [])]. by constructor. Qed.

Lemma valid_request_sub al al' sector c a :
  al ⊆ al' -> valid_request al sector c a -> valid_request al' sector c a.
Proof. intros Hs []. constructor; try done. by eapply lookup_weaken. Qed.

Lemma made_from_sub al al' sector id a x :
  al ⊆ al' -> made_from al sector id a x -> made_from al' sector id a x.
Proof. intros Hs [-> (c & ? & ? & ?)]. constructor; [done|]. eauto using valid_request_sub. Qed.

Lemma granted_sub al al' sector : al ⊆ al' -> granted al sector -> granted al' sector.
Proof. intros Hs Hg c Hc. destruct (Hg c Hc). eauto using valid_request_sub. Qed.

Lemma can_claim_ok c a ex al : al !! (ac_client c, ac_allocation_id c) = Some a ->
  can_claim_alloc c p a e (sa_expiry ex) = Ok true -> valid_request al ex c a.
Proof.
  unfold can_claim_alloc. intros Ha H. apply rbind_ok in H as (n & Hn & [= H]). res_inv. bool_prop.
  constructor; try done; try lia. congruence.
Qed.

Lemma can_claim_valid c a ex al b : valid_request al ex c a ->
  can_claim_alloc c p a e (sa_expiry ex) = Ok b -> b = true.
Proof.
  unfold can_claim_alloc. intros [_ -> -> -> -> ? ?] H. res_inv.
  rewrite !Z.eqb_refl, bool_decide_eq_true_2 by done. cbn.
  repeat (apply andb_true_iff; split); try apply Z.geb_le; try apply Z.leb_le; lia.
Qed.

(** The entries a valid sector leads to: one per request, in order. *)
Definition entry_of (al : gmap (Z * Z) Allocation) (sector : SectorAllocationClaims) (c : AllocationClaim)
    (entry : Z * Claim) : Prop :=
  exists a, valid_request al sector c a /\ entry = (ac_allocation_id c, claim_of sector a).

Lemma validate_sector_claims_ok al sector r :
  validate_sector_claims ctx p al sector = Ok r ->
  match r with
  | inl l => Forall2 (entry_of al sector) (sa_claims sector) l
  | inr _ => ~ granted al sector
  end.
Proof.
  unfold validate_sector_claims, granted. intros H.
  match type of H with rfold ?g _ _ = _ => set (f := g) in * end.
  assert (forall cs code r, rfold f (inr code) cs = Ok r -> r = inr code) as Hstuck.
  { induction cs as [|c cs IH]; cbn; intros code r' H'; res_inv; eauto. }
  enough (forall cs done r, rfold f (inl done) cs = Ok r -> match r with
    | inl l => exists l', l = done ++ l' /\ Forall2 (entry_of al sector) cs l'
    | inr _ => exists c, c ∈ cs /\ ~ exists a, valid_request al sector c a end) as Hgen.
  { apply Hgen in H. destruct r as [l|code]; [by destruct H as (l' & -> & ?)|].
    destruct H as (c & Hc & Hn). intros Hg. by apply Hn, Hg. }
  clear r H. induction cs as [|c cs IH]; cbn [rfold]; intros l0 r H.
  { res_inv. exists []. rewrite app_nil_r. split; [done|constructor]. }
  apply rbind_ok in H as (r1 & H1 & H). unfold f in H1.
  destruct (al !! (ac_client c, ac_allocation_id c)) as [a|] eqn:Ha.
  - apply rbind_ok in H1 as (b & Hb & [= <-]). destruct b; cbn [negb] in H.
    + pose proof (can_claim_ok _ _ _ _ Ha Hb) as Hv. apply IH in H. destruct r as [l|code].
      * destruct H as (l' & -> & Hl'). eexists. rewrite <- app_assoc. split; [done|]. constructor; [|done].
        exists a. split; [done|]. unfold claim_of. done.
      * destruct H as (c' & ? & ?). exists c'. split; [by right|done].
    + apply Hstuck in H as ->. exists c. split; [left|]. intros (a' & Hv). pose proof Hv as [Ha' Hcl _ _ _ _ _].
      rewrite <- Hcl, Ha in Ha'. injection Ha' as <-. by pose proof (can_claim_valid _ _ _ _ _ Hv Hb).
  - injection H1 as <-. apply Hstuck in H as ->. exists c. split; [left|].
    intros (a' & [Ha' Hcl _ _ _ _ _]). rewrite <- Hcl in Ha'. congruence.
Qed.

Definition claimable (sector : SectorAllocationClaims) (al : gmap (Z * Z) Allocation) (entry : Z * Claim) : Prop :=
  exists a, al !! (cl_client (snd entry), fst entry) = Some a /\ made_from al sector (fst entry) a (snd entry).

Lemma entries_claimable al sector l : Forall2 (entry_of al sector) (sa_claims sector) l ->
  granted al sector /\ Forall (claimable sector al) l.
Proof.
  intros Hl. split.
  - intros c Hc. apply list_elem_of_lookup in Hc as [i Hi].
    destruct (Forall2_lookup_l _ _ _ _ _ Hl Hi) as (x & _ & a & ? & _). eauto.
  - apply Forall_lookup. intros i x Hx.
    destruct (Forall2_lookup_r _ _ _ _ _ Hl Hx) as (c & Hc & a & Hv & ->).
    exists a. cbn [fst snd]. split; [by destruct Hv|]. constructor; [done|].
    exists c. split; [by eapply list_elem_of_lookup_2|done].
Qed.

(** One claim's update. *)
Record claim_inv (sectors : list SectorAllocationClaims) (al0 : gmap (Z * Z) Allocation)
    (cl0 : gmap (Z * Z) Claim) (al : gmap (Z * Z) Allocation) (cl : gmap (Z * Z) Claim) : Prop := {
  ci_sub : al ⊆ al0;
  ci_old : cl0 ⊆ cl;
  ci_new : forall k x, cl !! k = Some x -> cl0 !! k = Some x \/
    exists sector id a, k = (p, id) /\ sector ∈ sectors /\ granted al0 sector /\
      made_from al0 sector id a x;
  ci_gone : forall c id a, al0 !! (c, id) = Some a -> al !! (c, id) = Some a \/
    exists sector x, sector ∈ sectors /\ granted al0 sector /\ cl !! (p, id) = Some x /\
      made_from al0 sector id a x;
}.

Lemma claimable_delete sector al entry k : k <> (cl_client (snd entry), fst entry) ->
  snd k <> fst entry -> claimable sector al entry -> claimable sector (delete k al) entry.
Proof.
  intros Hk Hid (a & Ha & [Hx (c & Hc & Hi & [])]). exists a. rewrite lookup_delete_ne by done. split; [done|].
  constructor; [done|]. exists c. split; [done|]. split; [done|]. constructor; try done.
  rewrite lookup_delete_ne; [done|]. intros ->. by apply Hid.
Qed.

Lemma apply_claim_step sectors al0 cl0 sector l : forall cs al sp cs' al' sp' nx,
  sector ∈ sectors -> granted al0 sector -> claim_inv sectors al0 cl0 al cs ->
  Forall (fun entry => claimable sector al entry \/ is_Some (cs !! (p, fst entry))) l ->
  rfold (apply_claim p) (cs, al, sp) l = Ok (cs', al', sp') ->
  tstep (mkTab al nx cs) (mkTab al' nx cs') (sp - sp') /\ claim_inv sectors al0 cl0 al' cs'.
Proof.
  induction l as [|[id x] l IH]; intros cs al sp cs' al' sp' nx Hin Hgr Hinv Hl H; cbn in H; res_inv.
  { rewrite Z.sub_diag. split; [apply tstep_refl|done]. }
  apply Forall_cons in Hl as [Hx Hl]. cbn [fst] in Hx.
  match goal with H : ~ is_Some _ |- _ => rename H into Hnone end.
  destruct Hx as [(a & Ha & Hm)|?]; [|done]. cbn [fst snd] in Ha, Hm.
  pose proof (made_from_alloc _ _ _ _ _ Hm) as Hf.
  eapply (IH _ _ _ _ _ _ nx Hin Hgr) in H as [Ht Hinv'].
  - split; [|done]. eapply tstep_eq.
    + eapply tstep_trans; [|exact Ht].
      eapply (t_claim (mkTab al nx cs) (cl_client x) p id a x Ha Hf). rewrite (mf_claim _ _ _ _ _ Hm). done.
    + rewrite (fa_size _ _ Hf). lia.
  - destruct Hinv as [Hsub Hold Hnew Hgone].
    pose proof (made_from_sub _ _ _ _ _ _ Hsub Hm) as Hm0. constructor.
    + etransitivity; [apply delete_subseteq|done].
    + etransitivity; [exact Hold|]. by apply insert_subseteq, eq_None_not_Some.
    + intros k y Hy. lookup_cases; [|by apply Hnew]. right. exists sector, id, a. by split_and!.
    + intros c id' a' Ha'. destruct (Hgone c id' a' Ha') as [Hstay|(sec & y & ? & ? & Hy & ?)].
      * destruct (decide ((cl_client x, id) = (c, id'))) as [Heq|Hne].
        -- right. exists sector, x. simplify_eq. rewrite lookup_insert_eq. by split_and!.
        -- left. by rewrite lookup_delete_ne.
      * right. exists sec, y. split_and!; [done|done| |done]. rewrite lookup_insert_ne; [done|].
        intros [=]. subst. apply Hnone. eauto.
  - eapply Forall_impl; [exact Hl|]. intros [id' x'] [Hc|Hs]; cbn [fst snd] in *.
    + destruct (decide (id = id')) as [<-|Hne]; [right; rewrite lookup_insert_eq; eauto|].
      left. apply claimable_delete; [|done|done]. cbn. congruence.
    + right. apply lookup_insert_is_Some. destruct (decide ((p, id) = (p, id'))); auto.
Qed.

Lemma claim_sectors_step sectors st acc st' :
  claim_sectors ctx p sectors st = Ok (acc, st') ->
  tstep (tab st) (tab st') (- total_claimed_space acc) /\
  claim_inv sectors (allocations st) (claims st) (allocations st') (claims st') /\
  total_claimed_space acc = sum_list_Z (sector_results acc) /\ verifiers st' = verifiers st.
Proof.
  intros H. unfold claim_sectors in H. apply rbind_ok in H as (acc0 & Hf & H). res_inv.
  set (nx := next_allocation_id st).
  eapply (rfold_inv _ (fun acc =>
    tstep (tab st) (mkTab (left_allocs acc) nx (new_claims acc)) (- total_claimed_space acc) /\
    claim_inv sectors (allocations st) (claims st) (left_allocs acc) (new_claims acc) /\
    total_claimed_space acc = sum_list_Z (sector_results acc))) in Hf.
  - destruct Hf as (? & ? & ?). by split_and!.
  - split_and!; [apply tstep_refl| |done]. constructor; [done|done|by left|by left].
  - clear. intros acc sector acc' Hin (Ht & Hinv & Htot) H. unfold claim_sector in H.
    apply rbind_ok in H as ([l|code] & Hv & H); res_inv; [|by split_and!].
    apply validate_sector_claims_ok, entries_claimable in Hv as [Hgr Hv].
    apply (granted_sub _ (allocations st)) in Hgr; [|by destruct Hinv].
    match goal with H : rfold _ _ _ = Ok _ |- _ =>
      eapply (apply_claim_step sectors _ _ sector l _ _ _ _ _ _ nx) in H as [Ht' Hinv'] end;
      [|done|done|done|eapply Forall_impl; [exact Hv|]; by left].
    cbn. split_and!; [|done|].
    + eapply tstep_eq; [eapply tstep_trans; [exact Ht|exact Ht']|]. lia.
    + rewrite sum_list_Z_app. cbn. lia.
Qed.

(** ** Valid requests are answered *)

Definition request_ids (sector : SectorAllocationClaims) : list Z := ac_allocation_id <$> sa_claims sector.

Lemma apply_claims_ok l : forall cs al sp cs' al' sp',
  rfold (apply_claim p) (cs, al, sp) l = Ok (cs', al', sp') ->
  cs ⊆ cs' /\ (forall id x, (id, x) ∈ l -> cs' !! (p, id) = Some x) /\
  forall k, snd k ∉ l.*1 -> al' !! k = al !! k.
Proof.
  induction l as [|[id x] l IH]; intros cs al sp cs' al' sp' H; cbn in H; res_inv.
  { split; [done|]. split; [|done]. intros id x Hx. by inversion Hx. }
  match goal with H : ~ is_Some _ |- _ => apply eq_None_not_Some in H; rename H into Hnone end.
  apply IH in H as (Hsub & Hin & Hal). split_and!.
  - etransitivity; [by apply insert_subseteq|exact Hsub].
  - intros id' x' [[= -> ->]|Hx]%elem_of_cons; [|by apply Hin].
    eapply lookup_weaken; [|exact Hsub]. apply lookup_insert_eq.
  - intros k Hk. cbn in Hk. apply not_elem_of_cons in Hk as [Hne Hk]. rewrite Hal by done.
    rewrite lookup_delete_ne; [done|]. intros <-. by apply Hne.
Qed.

Lemma claim_sector_granted acc sector acc' : claim_sector ctx p acc sector = Ok acc' ->
  new_claims acc ⊆ new_claims acc' /\
  (forall k, snd k ∉ request_ids sector -> left_allocs acc' !! k = left_allocs acc !! k) /\
  (granted (left_allocs acc) sector -> forall c, c ∈ sa_claims sector ->
     exists a, valid_request (left_allocs acc) sector c a /\
       new_claims acc' !! (p, ac_allocation_id c) = Some (claim_of sector a)).
Proof.
  intros H. unfold claim_sector in H. apply rbind_ok in H as ([l|code] & Hv & H); res_inv;
    apply validate_sector_claims_ok in Hv; [|by split_and!].
  match goal with H : rfold _ _ _ = Ok _ |- _ => apply apply_claims_ok in H as (Hsub & Hin & Hal) end.
  cbn. split; [done|]. split.
  - intros k Hk. apply Hal. intros Hk'. apply Hk. apply list_elem_of_fmap in Hk' as ([id x] & -> & Hx).
    apply list_elem_of_lookup in Hx as [i Hi].
    destruct (Forall2_lookup_r _ _ _ _ _ Hv Hi) as (c & Hc & a & _ & [= -> _]).
    apply list_elem_of_fmap. exists c. split; [done|]. by eapply list_elem_of_lookup_2.
  - intros _ c Hc. apply list_elem_of_lookup in Hc as [i Hi].
    destruct (Forall2_lookup_l _ _ _ _ _ Hv Hi) as (x & Hx & a & Ha & ->).
    exists a. split; [done|]. apply Hin. by eapply list_elem_of_lookup_2.
Qed.

Lemma granted_kept al al' sector (ids : list Z) : (forall k, snd k ∉ ids -> al' !! k = al !! k) ->
  (forall id, id ∈ request_ids sector -> id ∉ ids) -> granted al sector -> granted al' sector.
Proof.
  intros Hal Hids Hg c Hc. destruct (Hg c Hc) as (a & []). exists a. constructor; try done.
  rewrite Hal; [done|]. apply Hids, list_elem_of_fmap. eauto.
Qed.

(** When the sectors of a batch ask for distinct allocations and every request
    is valid, all are claimed. *)
Lemma claim_sectors_complete sectors : forall acc acc',
  NoDup (sectors ≫= request_ids) -> (forall sector, sector ∈ sectors -> granted (left_allocs acc) sector) ->
  rfold (claim_sector ctx p) acc sectors = Ok acc' -> new_claims acc ⊆ new_claims acc' /\
  forall sector c, sector ∈ sectors -> c ∈ sa_claims sector ->
    exists a, valid_request (left_allocs acc) sector c a /\
      new_claims acc' !! (p, ac_allocation_id c) = Some (claim_of sector a).
Proof.
  induction sectors as [|sector sectors IH]; intros acc acc' Hnd Hg H; cbn in H; res_inv.
  { split; [done|]. intros ? ? Hs. by inversion Hs. }
  cbn in Hnd. apply NoDup_app in Hnd as (_ & Hdis & Hnd).
  match goal with H1 : claim_sector _ _ _ _ = Ok ?x |- _ =>
    apply claim_sector_granted in H1 as (Hsub & Hal & Hall); rename x into acc1 end.
  apply IH in H as [Hsub' Hin]; [|done|].
  - split; [by etrans|]. intros s c [->|Hs]%elem_of_cons Hc.
    + destruct (Hall (Hg sector (list_elem_of_here _ _)) c Hc) as (a & ? & ?). exists a. split; [done|].
      by eapply lookup_weaken.
    + destruct (Hin s c Hs Hc) as (a & [] & Hn). exists a. split; [|done]. constructor; try done.
      rewrite <- Hal; [done|]. intros Hx. apply Hdis in Hx. apply Hx, list_elem_of_bind.
      exists s. split; [apply list_elem_of_fmap; eauto|done].
  - intros s Hs. eapply granted_kept; [exact Hal| |apply Hg; by right].
    intros id Hid Hx. apply Hdis in Hx. apply Hx, list_elem_of_bind. eauto.
Qed.
End claiming.
