(* ===== verification/VerifregChain.v ===== *)
(** * The verified registry on the chain

    What every run of the registry keeps, over any sequence of messages and
    re-entrant calls: the invariant of its tables, how they evolve, and that
    the datacap tokens it owns cover its open allocations.  The resource of
    Chain.v is here the registry's balance of datacap tokens. *)

From S2P Require Import Prelude Runtime Chain Batch Verifreg VerifregProofs.

Implicit Types st : State.

(** The parts of the state other than the tables: allowances are never
    negative. *)
Definition caps_ok (v : gmap Address Z) : Prop := forall a cap, v !! a = Some cap -> 0 <= cap.

Definition proposals_used st (k : Address * Address) : Z :=
  default 0 (remove_data_cap_proposal_ids st !! k).

(** How the state may change. *)
Record grows st st' : Prop := {
  gr_tab : evolves (tab st) (tab st');
  gr_ids : forall k, proposals_used st k <= proposals_used st' k;
  gr_root : root_key st' = root_key st;
}.

Section verifreg.
Context {Net : Type} (ext : Ext) (policy : Policy).
(** The registry's balance in the ledger of the datacap actor. *)
Context (tokens : Net -> Z).
Context (Hprec : 0 < TOKEN_PRECISION ext).
Context (Hmin : 0 <= minimum_verified_allocation_size policy).

Notation World := (World Net State Params).
Notation Env := (Env Net State Params bytes).
Notation M := (M Net State Params bytes).
Implicit Types w : World.

Definition bal w : Z := tokens (w_net w).

(** What the registry spends of its own tokens with a message: what it burns
    or transfers, and what it destroys of its own as the governor of the
    ledger. *)
Definition spent (req : SendReq Params) : Z :=
  if addr_eqb (to_addr req) DATACAP_TOKEN_ACTOR_ADDR then
    match send_params req with
    | PBurn amount => amount
    | PTransfer _ amount => amount
    | PDestroy owner amount =>
        if addr_eqb owner VERIFIED_REGISTRY_ACTOR_ADDR then amount else 0
    | _ => 0
    end
  else 0.

Definition cost (req : SendReq Params) (res : Response bytes + ErrorNumber) : Z :=
  match res with
  | inl r => if is_success (resp_code r) then spent req else 0
  | inr _ => 0
  end.

(** The ledger credits the registry before it calls its receiver hook. *)
Definition received (ctx : Ctx) (m : Msg) : option TokenReceived :=
  match m with
  | UniversalReceiverHook _ payload =>
      if addr_eqb (caller ctx) DATACAP_TOKEN_ACTOR_ADDR
      then decode_token_received ext payload else None
  | _ => None
  end.

Definition gain (ctx : Ctx) (m : Msg) : Z :=
  match received ctx m with Some r => tr_amount r | None => 0 end.

(** The ledger moves no negative amounts. *)
Definition adm (ctx : Ctx) (m : Msg) (_ : option State) : Prop := 0 <= gain ctx m.

Record env_ok (env : Env) : Prop := {
  (** Burning tokens calls no other actor. *)
  ev_burn : forall amount net s b,
    so_state (env_send env (mkSend DATACAP_TOKEN_ACTOR_ADDR (method_hash ext "Burn")
      (PBurn amount) 0 false) net s b) = s;
  (** The registry has no address but its identifier. *)
  ev_registry : forall net a,
    env_resolve_address env net a = Some 6 -> a = VERIFIED_REGISTRY_ACTOR_ADDR;
}.

Definition held_by (s : option State) : Z :=
  match s with Some st => held (tab st) | None => 0 end.

Definition good (s : option State) : Prop :=
  match s with Some st => wf (tab st) /\ caps_ok (verifiers st) | None => True end.

Definition grows_opt (s s' : option State) : Prop :=
  forall st, s = Some st -> exists st', s' = Some st' /\ grows st st'.

Definition surplus (c : Conf State) : Z :=
  c_balance c - TOKEN_PRECISION ext * held_by (c_state c).

Definition safe (c c' : Conf State) : Prop :=
  good (c_state c) -> good (c_state c') /\ grows_opt (c_state c) (c_state c') /\
    surplus c <= surplus c'.

Lemma grows_refl st : grows st st.
Proof. constructor; [apply evolves_refl|lia|done]. Qed.

Lemma grows_trans st1 st2 st3 : wf (tab st1) -> grows st1 st2 -> grows st2 st3 -> grows st1 st3.
Proof.
  intros Hwf [E1 I1 R1] [E2 I2 R2]. constructor; [by eapply evolves_trans| |congruence].
  intros k. specialize (I1 k). specialize (I2 k). lia.
Qed.

Lemma reg_safe_refl c : safe c c.
Proof.
  intros Hg. split_and!; [done| |lia]. intros st Hst. eexists. split; [done|apply grows_refl].
Qed.

Lemma reg_safe_trans c1 c2 c3 : safe c1 c2 -> safe c2 c3 -> safe c1 c3.
Proof.
  intros H12 H23 Hg. destruct (H12 Hg) as (Hg2 & G1 & S1). destruct (H23 Hg2) as (Hg3 & G2 & S2).
  split_and!; [done| |lia]. intros st Hst. destruct (G1 st Hst) as (st2 & Hst2 & ?).
  destruct (G2 st2 Hst2) as (st3 & ? & ?). exists st3. split; [done|]. eapply grows_trans; [|done..].
  rewrite Hst in Hg. apply Hg.
Qed.

Lemma reg_safe_more e s b b' e' : b <= b' -> safe (mkConf e s b) (mkConf e' s b').
Proof.
  intros Hb Hg. split_and!; [done| |unfold surplus; cbn; lia].
  intros st Hst. cbn in *. eexists. split; [done|apply grows_refl].
Qed.

(** ** Messages the registry sends *)

Section run.
Context (env : Env) (ctx : Ctx).
Notation e := (ctx_epoch ctx).
Context (Henv : env_ok env) (Hsend : send_moves bal cost safe env e) (Hctx : ctx_ok ctx = true).

Definition conf w : Conf State := mkConf e (w_state w) (bal w).
Definition wsafe w w' : Prop := safe (conf w) (conf w').

#[local] Instance reg_wsafe_pre : WorldPre wsafe.
Proof.
  constructor.
  - intros w w' Hs _ Hn. unfold wsafe, conf, bal. rewrite Hs, Hn. apply reg_safe_refl.
  - intros w1 w2 w3. apply reg_safe_trans.
Qed.

(** An operation that changes nothing but through the free messages it sends. *)
Notation quiet := (quiet wsafe).

Lemma reg_quiet_send req : spent req = 0 -> quiet (send env req).
Proof.
  intros Hv w r w' H. eapply reg_safe_trans; [|exact (Hsend req w r w' H)].
  apply reg_safe_more. unfold cost. rewrite Hv. repeat case_match; lia.
Qed.

Lemma quiet_resolve_id a chk : quiet (resolve_to_actor_id env PNone a chk).
Proof.
  apply quiet_resolve_to_actor_id; [apply _|]. intros a'. apply reg_quiet_send.
  unfold spent. cbn. by case_match.
Qed.

Lemma quiet_balance a : quiet (balance ext env a).
Proof. unfold balance. repeat first [by apply reg_quiet_send|progress quiet_tac]. Qed.

Lemma quiet_mint to n ops : quiet (mint ext env to n ops).
Proof.
  unfold mint, call_datacap, send_simple. repeat first [by apply reg_quiet_send|progress quiet_tac].
Qed.

Lemma quiet_destroy o n : o <> VERIFIED_REGISTRY_ACTOR_ADDR -> quiet (destroy ext env o n).
Proof.
  intros Ho. unfold destroy, call_datacap, send_simple. destruct (n =? 0); [quiet_tac|].
  apply quiet_bind; [apply _| |intros ?; quiet_tac]. apply quiet_bind; [apply _| |intros ?; quiet_tac].
  apply reg_quiet_send. unfold spent, addr_eqb. cbn. by repeat case_bool_decide.
Qed.

Lemma quiet_authenticate r i n c : quiet (remove_data_cap_request_is_valid ext env r i n c).
Proof.
  unfold remove_data_cap_request_is_valid.
  repeat first [apply reg_quiet_send; unfold spent; cbn; by case_match|progress quiet_tac].
Qed.

Lemma quiet_check_miner i : quiet (check_miner_id env i).
Proof. unfold check_miner_id. quiet_tac. Qed.
#[local] Hint Resolve quiet_resolve_id quiet_balance quiet_mint quiet_authenticate
  quiet_check_miner : quiet.

(** A call of the ledger that succeeded. *)
Lemma call_datacap_spends m p w r w' :
  call_datacap ext env m p w = Ok (r, w') ->
  safe (mkConf e (w_state w)
          (bal w - spent (mkSend DATACAP_TOKEN_ACTOR_ADDR (method_hash ext m) p 0 false)))
       (conf w').
Proof.
  intros H. unfold call_datacap in H. apply bind_ok in H as (x & w1 & Hs & H).
  apply lift_ok in H as [Hx ->]. pose proof (Hsend _ _ _ _ Hs) as Hm.
  unfold cost, extract_send_result in *. repeat case_match; simplify_eq. done.
Qed.

Lemma reg_burn_safe n w u w' :
  burn ext env n w = Ok (u, w') ->
  safe (mkConf e (w_state w) (bal w - TOKEN_PRECISION ext * n)) (conf w').
Proof.
  intros H. unfold burn in H. destruct (Z.eqb_spec n 0) as [->|Hne].
  - apply ret_ok in H. simplify_eq. apply reg_safe_more. lia.
  - apply bind_ok in H as (x & w1 & Hs & H). apply ret_ok in H. simplify_eq.
    apply call_datacap_spends in Hs. cbn in Hs. unfold datacap_to_tokens in Hs.
    by rewrite (Z.mul_comm n) in Hs.
Qed.

Lemma burn_state n w u w' : burn ext env n w = Ok (u, w') -> w_state w' = w_state w.
Proof.
  intros H. unfold burn, call_datacap in H. destruct (n =? 0); run_inv; [done|]. apply (ev_burn _ Henv).
Qed.

Lemma transfer_safe to n w u w' :
  transfer ext env to n w = Ok (u, w') ->
  safe (mkConf e (w_state w) (bal w - TOKEN_PRECISION ext * n)) (conf w').
Proof.
  intros H. unfold transfer in H. apply bind_ok in H as (x & w1 & Hs & H). apply ret_ok in H.
  simplify_eq. apply call_datacap_spends in Hs. cbn in Hs. unfold datacap_to_tokens in Hs.
  by rewrite (Z.mul_comm n) in Hs.
Qed.

(** A resolved client is the registry only under the registry's address. *)
Lemma resolve_id_registry a chk w i w' :
  resolve_to_actor_id env PNone a chk w = Ok (i, w') ->
  AddrId i = VERIFIED_REGISTRY_ACTOR_ADDR -> a = VERIFIED_REGISTRY_ACTOR_ADDR.
Proof.
  intros H [= ->]. unfold resolve_to_actor_id in H.
  apply bind_ok in H as (r1 & w1 & Hr & H). apply resolve_address_ok in Hr as [-> ->].
  apply bind_ok in H as (r2 & w2 & H2 & H).
  assert (exists net, r2 = env_resolve_address env net a) as [net ->].
  { destruct (env_resolve_address env (w_net w) a) eqn:E; run_inv; eauto. }
  destruct (env_resolve_address env net a) eqn:E; [|run_inv].
  assert (z = 6) as ->; [|by eapply (ev_registry _ Henv)].
  destruct chk; run_inv; [|done]. destruct (env_get_actor_code_cid _ _ _); by run_inv.
Qed.

(** ** Transactions *)

Lemma change_safe st st' e' d b :
  tstep (tab st) (tab st') d -> (caps_ok (verifiers st) -> caps_ok (verifiers st')) ->
  (forall k, proposals_used st k <= proposals_used st' k) -> root_key st' = root_key st ->
  safe (mkConf e' (Some st) b) (mkConf e' (Some st') (b + TOKEN_PRECISION ext * d)).
Proof.
  intros Ht Hc Hi Hr [Hwf Hcaps]. destruct (Ht Hwf) as (Hwf' & Hev & Hh). split_and!.
  - split; [done|by apply Hc].
  - intros x [= <-]. eexists. split; [done|by constructor].
  - unfold surplus. cbn. rewrite Hh. lia.
Qed.

Lemma reg_transaction_safe {A} (f : State -> Res error (A * State)) d w a w' :
  transaction f w = Ok (a, w') ->
  (forall st st', w_state w = Some st -> f st = Ok (a, st') ->
     good (Some st) ->
     tstep (tab st) (tab st') d /\ verifiers st' = verifiers st /\
     remove_data_cap_proposal_ids st' = remove_data_cap_proposal_ids st /\
     root_key st' = root_key st) ->
  safe (conf w) (mkConf e (w_state w') (bal w' + TOKEN_PRECISION ext * d)).
Proof.
  intros (st & st' & Hst & Hf & ->)%transaction_ok Hstep Hg. unfold conf in *. cbn in *.
  rewrite Hst in *. destruct (Hstep st st' eq_refl Hf Hg) as (Ht & Hv & Hp & Hr).
  eapply change_safe; [done|by rewrite Hv| |done|done].
  intros k. unfold proposals_used. rewrite Hp. lia.
Qed.

(** ** Handlers *)

Lemma safe_shift k s b s' b' :
  safe (mkConf e s b) (mkConf e s' b') -> safe (mkConf e s (b + k)) (mkConf e s' (b' + k)).
Proof.
  intros H Hg. destruct (H Hg) as (? & ? & Hs). split_and!; [done..|].
  unfold surplus in *. cbn in *. lia.
Qed.

Lemma wsafe_validated w w' : wsafe (set_validated w) w' -> wsafe w w'.
Proof. done. Qed.

Lemma reg_constructor_safe a w u w' : constructor env ctx a w = Ok (u, w') -> wsafe w w'.
Proof.
  intros H. unfold constructor in H. run_inv. intros _. unfold grows_opt. cbn. rewrite H.
  split; [|split; [done|]].
  - split; [|intros a0 cap Ha; cbn in Ha; by rewrite lookup_empty in Ha]. constructor; cbn; try lia;
      intros; rewrite ?lookup_empty in *; naive_solver.
  - unfold surplus, conf. cbn [c_state c_balance w_state set_state set_validated]. rewrite H.
    unfold held_by, held, bal. cbn. rewrite map_sum_empty. lia.
Qed.

(** A change of the verifiers only. *)
Lemma verifiers_safe st v w w1 :
  w_state w = Some st -> w_net w1 = w_net w -> (caps_ok (verifiers st) -> caps_ok v) ->
  wsafe w (set_state (set_verifiers v st) w1).
Proof.
  intros Hst Hn Hv. unfold wsafe, conf, bal. rewrite Hst. cbn. rewrite Hn.
  replace (tokens (w_net w)) with (tokens (w_net w) + TOKEN_PRECISION ext * 0) at 2 by lia.
  apply change_safe; [apply tstep_refl|done|done|done].
Qed.

Lemma caps_insert v a cap : caps_ok v -> 0 <= cap -> caps_ok (<[a := cap]> v).
Proof. intros Hv Hc b x Hx. lookup_cases; [done|eauto]. Qed.

Lemma add_verifier_safe a n w u w' : add_verifier ext policy env ctx a n w = Ok (u, w') -> wsafe w w'.
Proof.
  intros H. unfold add_verifier in H. run_step. bool_prop.
  apply bind_ok in H as (v & w1 & Hr & H). apply quiet_resolve_id in Hr.
  apply bind_ok in H as (st & w2 & Hst & H). apply state_ok in Hst as [Hst ->].
  apply bind_ok in H as (u1 & w2 & Hc & H). apply caller_is_ok in Hc as (_ & _ & ->).
  run_step. apply bind_ok in H as (tb & w3 & Hb & H). apply quiet_balance in Hb.
  run_step. apply transaction_ok in H as (st3 & st4 & Hst3 & H & ->).
  eapply reg_safe_trans; [exact Hr|]. eapply reg_safe_trans; [exact (wsafe_validated _ _ Hb)|].
  injection H as _ <-. apply verifiers_safe; [done|done|].
  intros Hcaps. apply caps_insert; [done|lia].
Qed.

Lemma remove_verifier_safe a w u w' : remove_verifier env ctx a w = Ok (u, w') -> wsafe w w'.
Proof.
  intros H. unfold remove_verifier in H. apply bind_ok in H as (v & w1 & Hr & H).
  apply quiet_resolve_id in Hr. eapply reg_safe_trans; [exact Hr|].
  unfold st_remove_verifier in H. run_inv. apply verifiers_safe; [done|done|].
  intros Hcaps b cap Hb. lookup_cases. eauto.
Qed.

Lemma add_verified_client_safe a n w u w' :
  add_verified_client ext policy env ctx a n w = Ok (u, w') -> wsafe w w'.
Proof.
  intros H. unfold add_verified_client in H.
  apply bind_ok in H as (u1 & w1 & Hc & H). apply accept_any_ok in Hc as [_ ->]. run_step.
  apply bind_ok in H as (c & w2 & Hr & H). apply quiet_resolve_id in Hr.
  apply bind_ok in H as (u2 & w3 & Ht & H). apply quiet_mint in H.
  eapply reg_safe_trans; [exact (wsafe_validated _ _ Hr)|]. eapply reg_safe_trans; [|exact H].
  apply transaction_ok in Ht as (st & st' & Hst & Ht & ->). unfold spend_allowance in Ht. res_inv.
  bool_prop. apply verifiers_safe; [done|done|]. intros Hcaps. apply caps_insert; [done|]. lia.
Qed.

(** Using a proposal identifier retires it. *)
Lemma use_proposal_id_mono v c ids i ids' k :
  use_proposal_id v c ids = Ok (i, ids') ->
  default 0 (ids !! k) <= default 0 (ids' !! k).
Proof.
  intros H. unfold use_proposal_id in H. res_inv.
  destruct (decide (k = (v, c))) as [->|Hne].
  - rewrite lookup_insert_eq. cbn. lia.
  - by rewrite lookup_insert_ne by done.
Qed.

Lemma use_proposal_ids_safe p v1 v2 c w r w' :
  transaction_rt (use_proposal_ids ctx p v1 v2 c) w = Ok (r, w') ->
  wsafe w w' /\ rd_client p <> VERIFIED_REGISTRY_ACTOR_ADDR.
Proof.
  intros (st & st' & w1 & Hst & H & ->)%transaction_rt_ok. unfold use_proposal_ids in H.
  apply bind_ok in H as (u & w2 & Hc & H). apply caller_is_ok in Hc as (_ & _ & ->).
  destruct (addr_eqb _ _) eqn:Hreg; [by apply throw_ok in H|]. split.
  - destruct (negb _); [by apply throw_ok in H|]. destruct (negb _); [by apply throw_ok in H|].
    apply lift_ok in H as [H ->]. res_inv. unfold wsafe, conf, bal. rewrite Hst. cbn.
    replace (tokens (w_net w)) with (tokens (w_net w) + TOKEN_PRECISION ext * 0) at 2 by lia.
    apply change_safe; [apply tstep_refl|done| |done].
    intros k. unfold proposals_used. cbn. etransitivity; eapply use_proposal_id_mono; eassumption.
  - unfold addr_eqb in Hreg. by bool_prop.
Qed.

Lemma remove_data_cap_safe p w r w' :
  remove_verified_client_data_cap ext env ctx p w = Ok (r, w') -> wsafe w w'.
Proof.
  intros H. unfold remove_verified_client_data_cap in H.
  apply bind_ok in H as (c & w1 & Hc & H). pose proof (resolve_id_registry _ _ _ _ _ Hc) as Hreg.
  apply quiet_resolve_id in Hc.
  apply bind_ok in H as (v1 & w2 & H1 & H). apply quiet_resolve_id in H1.
  apply bind_ok in H as (v2 & w3 & H2 & H). apply quiet_resolve_id in H2. run_step.
  apply bind_ok in H as ([i1 i2] & w4 & Ht & H). apply use_proposal_ids_safe in Ht as [Ht Hne].
  apply bind_ok in H as (u1 & w5 & H5 & H). apply quiet_authenticate in H5.
  apply bind_ok in H as (u2 & w6 & H6 & H). apply quiet_authenticate in H6.
  apply bind_ok in H as (b & w7 & H7 & H). apply quiet_balance in H7.
  apply bind_ok in H as (u3 & w8 & H8 & H). apply quiet_destroy in H8; [|naive_solver].
  apply ret_ok in H. simplify_eq. unfold wsafe in *. eauto 12 using reg_safe_trans.
Qed.

Lemma remove_expired_allocations_safe c ids w r w' :
  remove_expired_allocations ext env ctx c ids w = Ok (r, w') -> wsafe w w'.
Proof.
  intros H. unfold remove_expired_allocations in H.
  apply bind_ok in H as (u & w1 & Hc & H). apply accept_any_ok in Hc as [_ ->].
  apply bind_ok in H as ([[considered b] n] & w2 & Ht & H).
  apply bind_ok in H as (u2 & w3 & Htr & H). apply ret_ok in H. simplify_eq.
  apply transfer_safe in Htr. eapply (reg_transaction_safe _ (- n)) in Ht.
  - apply wsafe_validated. eapply reg_safe_trans; [exact Ht|]. eapply reg_safe_trans; [|exact Htr].
    apply reg_safe_more. lia.
  - intros st st' _ Hf _. unfold remove_expired_allocations_st in Hf. res_inv.
    split_and!; [|done..]. eapply tstep_eq; [by eapply drop_allocs_step|lia].
Qed.

Lemma claim_allocations_safe sectors all w r w' :
  claim_allocations ext env ctx sectors all w = Ok (r, w') -> wsafe w w'.
Proof.
  intros H. unfold claim_allocations in H.
  apply bind_ok in H as (u & w1 & Hc & H). apply caller_type_ok in Hc as [_ ->].
  destruct sectors as [|s0 sectors]; [by apply throw_ok in H|].
  apply bind_ok in H as (acc & w2 & Ht & H). apply bind_ok in H as (b & w3 & Hg & H).
  apply lift_ok in Hg as [_ ->]. destruct (all && _); [by apply throw_ok in H|].
  apply bind_ok in H as (u2 & w4 & Hb & H).
  apply ret_ok in H. simplify_eq. apply reg_burn_safe in Hb.
  eapply (reg_transaction_safe _ (- total_claimed_space acc)) in Ht.
  - apply wsafe_validated. eapply reg_safe_trans; [exact Ht|]. eapply reg_safe_trans; [|exact Hb].
    apply reg_safe_more. lia.
  - intros st st' _ Hf _. pose proof (claim_sectors_step _ _ _ _ _ _ Hf) as (? & _ & _ & ?).
    unfold claim_sectors in Hf. res_inv. by split_and!.
Qed.

Lemma quiet_get_claims p ids : quiet (get_claims p ids).
Proof.
  unfold get_claims. apply quiet_bind; [apply _|quiet_tac|intros _].
  apply quiet_bind; [apply _|quiet_tac|intros st].
  destruct (foldl _ _ _) as [g found]. quiet_tac.
Qed.

Lemma extend_claim_terms_safe terms w r w' :
  extend_claim_terms policy ctx terms w = Ok (r, w') -> wsafe w w'.
Proof.
  intros H. unfold extend_claim_terms in H.
  apply bind_ok in H as (u & w1 & Hc & H). apply accept_any_ok in Hc as [_ ->].
  apply bind_ok in H as (g & w2 & Ht & H). apply lift_ok in H as [_ ->].
  eapply (reg_transaction_safe _ 0) in Ht.
  - apply wsafe_validated. eapply reg_safe_trans; [exact Ht|]. apply reg_safe_more. lia.
  - intros st st' _ Hf _. destruct (foldl _ _ _) as [g' cs] eqn:E. res_inv. split_and!; [|done..].
    apply (t_extend (tab st)). eapply extend_claim_term_extended; [apply extended_refl|exact E].
Qed.

Lemma remove_expired_claims_safe p ids w r w' :
  remove_expired_claims ext ctx p ids w = Ok (r, w') -> wsafe w w'.
Proof.
  intros H. unfold remove_expired_claims in H.
  apply bind_ok in H as (u & w1 & Hc & H). apply accept_any_ok in Hc as [_ ->].
  eapply (reg_transaction_safe _ 0) in H.
  - apply wsafe_validated. eapply reg_safe_trans; [exact H|]. apply reg_safe_more. lia.
  - intros st st' _ Hf _. unfold remove_expired_claims_st in Hf. res_inv. split_and!; [|done..].
    by eapply drop_claims_step.
Qed.

Lemma quiet_new_allocation c acc req : quiet (new_allocation policy env ctx c acc req).
Proof. unfold new_allocation. destruct acc. quiet_tac. Qed.

(** The allocations made of a batch of requests. *)
Lemma new_allocations_ok c reqs w new total w' :
  mfold (new_allocation policy env ctx c) ([], 0) reqs w = Ok ((new, total), w') ->
  Forall (fun a => al_client a = c /\ 0 <= al_size a) new /\ total = sum_list_Z (al_size <$> new).
Proof.
  intros H. eapply (mfold_rel _ (fun _ _ => True) (fun _ acc _ =>
    Forall (fun a => al_client a = c /\ 0 <= al_size a) (fst acc) /\
    snd acc = sum_list_Z (al_size <$> fst acc))) in H as [? _]; [done|done|done|done|].
  intros req reqs' [l n] w1 [l' n'] w2 [Hl Hn] Hs. unfold new_allocation in Hs.
  apply bind_ok in Hs as (u & w3 & Hv & Hs). apply lift_ok in Hv as [Hv ->].
  apply bind_ok in Hs as (u2 & w4 & _ & Hs). apply ret_ok in Hs. simplify_eq.
  unfold validate_new_allocation in Hv. res_inv. cbn [fst snd] in *. split; [|done]. split.
  - apply Forall_app. split; [done|]. apply Forall_singleton. cbn. split; [done|lia].
  - rewrite fmap_app, sum_list_Z_app. cbn. lia.
Qed.

Lemma universal_receiver_hook_safe type payload w r w' :
  adm ctx (UniversalReceiverHook type payload) (w_state w) ->
  universal_receiver_hook ext policy env ctx type payload w = Ok (r, w') ->
  safe (mkConf e (w_state w) (bal w - gain ctx (UniversalReceiverHook type payload))) (conf w').
Proof.
  intros Hadm H. unfold universal_receiver_hook in H.
  apply bind_ok in H as (u & w1 & Hc & H). apply caller_is_ok in Hc as (_ & Hc & ->).
  apply bind_ok in H as (tr & w1 & Htr & H). apply lift_ok in Htr as [Htr ->].
  assert (gain ctx (UniversalReceiverHook type payload) = tr_amount tr) as Hgain.
  { apply list_elem_of_singleton in Hc. unfold gain, received, addr_eqb. rewrite Hc.
    rewrite bool_decide_true by done. unfold validate_tokens_received in Htr. res_inv. 
    match goal with Hd : decode_token_received _ _ = _ |- _ => by rewrite Hd end. }
  unfold adm in Hadm. rewrite Hgain in *. clear Hgain Hc Htr.
  apply bind_ok in H as (reqs & w1 & Hd & H). apply lift_ok in Hd as [_ ->].
  apply bind_ok in H as ([new n] & w2 & Hn & H).
  pose proof (new_allocations_ok _ _ _ _ _ _ Hn) as [Hnew Htot].
  apply (quiet_mfold wsafe) in Hn; [|intros; apply quiet_new_allocation].
  apply bind_ok in H as (st & w3 & Hst & H). apply state_ok in Hst as [Hst ->].
  apply bind_ok in H as ([upd n2] & w3 & Hx & H). apply lift_ok in Hx as [Hx ->].
  run_step. bool_prop. apply bind_ok in H as (u2 & w4 & Hb & H).
  pose proof (burn_state _ _ _ _ Hb) as Hst4. apply reg_burn_safe in Hb.
  apply bind_ok in H as (ids & w5 & Ht & H). apply ret_ok in H. simplify_eq.
  assert (TOKEN_PRECISION ext * (sum_list_Z (al_size <$> new) + n2) <= tr_amount tr) as Hpaid.
  { rewrite Heqb. unfold tokens_to_datacap. apply Z.mul_quot_le; [done|lia]. }
  eapply (reg_transaction_safe _ (sum_list_Z (al_size <$> new))) in Ht.
  - apply (safe_shift (- tr_amount tr)) in Hn. eapply reg_safe_trans; [exact Hn|].
    apply (safe_shift (TOKEN_PRECISION ext * n2 - tr_amount tr)) in Hb.
    apply (safe_shift (TOKEN_PRECISION ext * n2 - tr_amount tr)) in Ht.
    eapply reg_safe_trans; [|eapply reg_safe_trans; [exact Hb|]]; [apply reg_safe_more; lia|].
    eapply reg_safe_trans; [exact Ht|]. apply reg_safe_more. lia.
  - intros st4 st5 Hst5 Hf Hg. rewrite Hst4, Hst in Hst5. injection Hst5 as <-. res_inv.
    eapply hook_step; [apply Hg|done..].
Qed.

Lemma reg_invoke_safe m w r w' :
  adm ctx m (w_state w) -> invoke_method ext policy env ctx m w = Ok (r, w') ->
  safe (mkConf e (w_state w) (bal w - gain ctx m)) (conf w').
Proof.
  intros Hadm H. unfold invoke_method in H.
  apply bind_ok in H as (u & w1 & Hr & H). apply restrict_state in Hr as ->.
  destruct (decodes m); cbn [negb] in H; [|by apply throw_ok in H].
  destruct m; try (apply bind_ok in H as (x & w1 & Hx & H); repeat case_match;
    apply ret_ok in H; simplify_eq).
  all: try by apply throw_ok in H.
  all: try (replace (bal w - gain ctx _) with (bal w) by (unfold gain; cbn; lia);
    change (wsafe w w1)).
  - by eapply reg_constructor_safe.
  - by eapply add_verifier_safe.
  - by eapply remove_verifier_safe.
  - by eapply add_verified_client_safe.
  - by eapply remove_data_cap_safe.
  - by eapply remove_expired_allocations_safe.
  - by eapply claim_allocations_safe.
  - by eapply quiet_get_claims.
  - by eapply extend_claim_terms_safe.
  - by eapply remove_expired_claims_safe.
  - by eapply universal_receiver_hook_safe.
Qed.
End run.

(** ** Runs of the registry *)

Definition run : Conf State -> Conf State -> Prop :=
  chain (invoke_method ext policy) bal cost gain adm env_ok deposited.

Lemma run_safe c c' : run c c' -> safe c c'.
Proof.
  apply chain_rel.
  - apply reg_safe_refl.
  - apply reg_safe_trans.
  - intros. apply reg_safe_more. lia.
  - intros e s b v Hv. apply reg_safe_more. unfold deposited in Hv. lia.
  - intros env ctx msg w r w' Henv Hsend Hctx Hadm H. by eapply reg_invoke_safe.
Qed.
End verifreg.
