(* ===== verification/VerifregProps.v ===== *)
(** * The verified registry: what the actor guarantees

    The properties of the registry in every configuration the chain can bring
    it to, the specification of its batch operations, and a concrete run that
    instantiates their hypotheses. *)

From S2P Require Import Prelude Runtime Chain Batch Verifreg VerifregProofs VerifregChain.

Implicit Types (st : State) (a : Allocation) (x : Claim).

(** What the registry relies on of the token library and its configuration. *)
Record registry_ext_ok (ext : Ext) (policy : Policy) : Prop := {
  ro_precision : 0 < TOKEN_PRECISION ext;
  ro_minimum : 0 <= minimum_verified_allocation_size policy;
}.

Section props.
Context {Net : Type} (ext : Ext) (policy : Policy) (tokens : Net -> Z).
Notation run := (run ext policy tokens).

(** The registry is in state [st], with the given balance of datacap tokens,
    after any sequence of messages since it was created. *)
Definition deployed (e : Z) st (balance : Z) : Prop :=
  exists e0 balance0, 0 <= balance0 /\
    run (mkConf e0 None balance0) (mkConf e (Some st) balance).

Lemma deployed_safe e st b :
  registry_ext_ok ext policy -> deployed e st b ->
  wf (tab st) /\ caps_ok (verifiers st) /\ TOKEN_PRECISION ext * held (tab st) <= b.
Proof.
  intros [Hp Hm] (e0 & b0 & Hb & Hr). apply run_safe in Hr; [|done..].
  destruct Hr as ([Hwf Hc] & _ & Hs); [done|]. unfold surplus in Hs. cbn in Hs.
  split_and!; [done..|lia].
Qed.

Lemma deployed_grows e st b e' st' b' :
  registry_ext_ok ext policy -> deployed e st b ->
  run (mkConf e (Some st) b) (mkConf e' (Some st') b') -> grows st st'.
Proof.
  intros Hok Hd Hr. destruct (deployed_safe _ _ _ Hok Hd) as (Hwf & Hc & _).
  apply run_safe in Hr; [|apply Hok..]. destruct Hr as (_ & Hg & _); [done|].
  destruct (Hg st eq_refl) as (x & [= <-] & ?). done.
Qed.

(** C8: open allocations are backed.  In every configuration the chain can
    bring the registry to, its balance of datacap tokens covers the sizes of
    all open allocations together: every allocation can be claimed (and its
    tokens burnt) or expire (and its tokens be returned).  No verifier's
    allowance is negative. *)
Theorem registry_backed e st b :
  registry_ext_ok ext policy -> deployed e st b ->
  TOKEN_PRECISION ext * map_sum al_size (allocations st) <= b /\
  forall v cap, verifiers st !! v = Some cap -> 0 <= cap.
Proof. intros Hok Hd. destruct (deployed_safe _ _ _ Hok Hd) as (_ & ? & ?). done. Qed.

(** C34: an identifier stands for at most one allocation or one claim.  In
    every configuration, allocations and claims are filed under their client
    and provider, their identifiers were handed out before, and no identifier
    is used twice, neither within a table nor across the two. *)
Theorem registry_ids_unique e st b :
  registry_ext_ok ext policy -> deployed e st b ->
  (forall c id a, allocations st !! (c, id) = Some a ->
     al_client a = c /\ 1 <= id < next_allocation_id st) /\
  (forall p id x, claims st !! (p, id) = Some x ->
     cl_provider x = p /\ 1 <= id < next_allocation_id st) /\
  (forall c c' id a a', allocations st !! (c, id) = Some a ->
     allocations st !! (c', id) = Some a' -> c = c') /\
  (forall p p' id x x', claims st !! (p, id) = Some x ->
     claims st !! (p', id) = Some x' -> p = p') /\
  (forall c p id a x, allocations st !! (c, id) = Some a -> claims st !! (p, id) = Some x -> False).
Proof.
  intros Hok Hd. destruct (deployed_safe _ _ _ Hok Hd) as ([_ Ha Hau Hc Hcu Hdj] & _).
  cbn in *. split_and!.
  - intros c id a H. by apply Ha in H as (? & ? & _).
  - intros p id x H. by apply Hc in H.
  - eauto.
  - eauto.
  - eauto.
Qed.

(** C14: an allocation is claimed at most once, as it was made.  Over any run,
    a claim found under the identifier of an earlier allocation is by the
    provider, for the client, data, size and minimum term of that allocation,
    with at least its maximum term, and the allocation is gone; a claim never
    changes but for its maximum term, which only grows; and neither an
    identifier used for a claim nor one that was given up becomes an
    allocation again. *)
Theorem registry_claimed_once e st b e' st' b' :
  registry_ext_ok ext policy -> deployed e st b ->
  run (mkConf e (Some st) b) (mkConf e' (Some st') b') ->
  (forall c p id a x, allocations st !! (c, id) = Some a -> claims st' !! (p, id) = Some x ->
     p = al_provider a /\ from_alloc a x /\ forall c', allocations st' !! (c', id) = None) /\
  (forall k x x', claims st !! k = Some x -> claims st' !! k = Some x' ->
     exists t, cl_term_max x <= t /\ x' = with_term_max t x) /\
  (forall c id a, allocations st' !! (c, id) = Some a -> id < next_allocation_id st ->
     allocations st !! (c, id) = Some a).
Proof.
  intros Hok Hd Hr. destruct (deployed_grows _ _ _ _ _ _ Hok Hd Hr) as [[Hn Hal Hnew Hsame] _ _].
  destruct (deployed_safe _ _ _ Hok Hd) as ([_ Ha Hau Hc Hcu Hdj] & _ & _).
  assert (deployed e' st' b') as Hd'.
  { destruct Hd as (e0 & b0 & ? & ?). exists e0, b0. split; [done|]. by eapply chain_trans. }
  destruct (deployed_safe _ _ _ Hok Hd') as ([_ _ _ Hc' _ Hdj'] & _ & _). cbn in *.
  split_and!; [|done|done]. intros c p id a x Hax Hx.
  pose proof (Ha _ _ _ Hax) as (_ & Hid & _).
  destruct (Hnew p id x Hx) as [[y Hy]|(c' & a' & Ha' & Hf)]; [lia|exfalso; eauto|].
  assert (c = c') as <- by eauto. rewrite Hax in Ha'. injection Ha' as <-. split_and!; [|done|].
  - rewrite <- (fa_provider _ _ Hf). symmetry. by apply (Hc' _ _ _ Hx).
  - intros c'. destruct (allocations st' !! (c', id)) eqn:E; [exfalso; eauto|done].
Qed.

(** The identifiers a removal uses, and what is left of the state. *)
Lemma use_proposal_ids_ok ctx p v1 v2 c st w i1 i2 st1 w1 :
  v1 <> v2 -> @use_proposal_ids Net ctx p v1 v2 c st w = Ok ((i1, i2), st1, w1) ->
  i1 = proposals_used st (v1, c) /\ i2 = proposals_used st (v2, c) /\
  proposals_used st1 (v1, c) = i1 + 1 /\ proposals_used st1 (v2, c) = i2 + 1 /\
  tab st1 = tab st /\ verifiers st1 = verifiers st.
Proof.
  intros Hv H. unfold use_proposal_ids in H.
  apply bind_ok in H as (u & w2 & _ & H). do 3 (case_match; [by apply throw_ok in H|]).
  apply lift_ok in H as [H _]. unfold use_proposal_id in H. res_inv. unfold proposals_used. cbn.
  rewrite lookup_insert_ne by congruence. rewrite lookup_insert_eq.
  rewrite lookup_insert_ne by congruence. by rewrite lookup_insert_eq.
Qed.

(** A signed removal of datacap is accepted at most once.  The proposal
    identifiers that two verifiers must have signed for the removal of a
    client's datacap are fresh each time: whatever happens after a removal
    took its identifiers, the ones that a later removal takes for the same
    verifier and client are strictly greater. *)
Theorem removal_ids_fresh e st b ctx p v1 v2 c w i1 i2 st1 w1 b1 e' st2 b2
    ctx' p' v1' v2' w' j1 j2 st3 w3 :
  registry_ext_ok ext policy -> deployed e st b -> v1 <> v2 -> v1' <> v2' ->
  @use_proposal_ids Net ctx p v1 v2 c st w = Ok ((i1, i2), st1, w1) ->
  run (mkConf e (Some st1) b1) (mkConf e' (Some st2) b2) ->
  @use_proposal_ids Net ctx' p' v1' v2' c st2 w' = Ok ((j1, j2), st3, w3) ->
  (v1 = v1' -> i1 < j1) /\ (v1 = v2' -> i1 < j2) /\ (v2 = v1' -> i2 < j1) /\ (v2 = v2' -> i2 < j2).
Proof.
  intros Hok Hd Hv Hv' H1 Hr H2. destruct (deployed_safe _ _ _ Hok Hd) as (Hwf & Hc & _).
  apply use_proposal_ids_ok in H1 as (-> & -> & U1 & U2 & Htab & Hver); [|done].
  apply use_proposal_ids_ok in H2 as (-> & -> & _); [|done].
  apply run_safe in Hr; [|apply Hok..]. destruct Hr as (_ & Hg & _).
  { cbn. by rewrite Htab, Hver. }
  destruct (Hg st1 eq_refl) as (y & [= <-] & [_ Hids _]).
  pose proof (Hids (v1, c)). pose proof (Hids (v2, c)).
  split_and!; intros <-; lia.
Qed.
End props.

(** ** Batch operations *)

Section batch.
Context (ext : Ext) (ctx : Ctx).
Notation e := (ctx_epoch ctx).

(** C35: claiming takes exactly the allocations asked for.  Whatever sectors a
    provider submits, an allocation of the registry is either left alone or
    turned into a claim of that provider with the allocation's client, data,
    size and terms, starting now, because a sector of the batch asked for it by
    identifier, client, piece and size, with a lifetime within the allocation's
    terms and before the allocation expired, and all requests of that sector
    were as good; all other claims are unchanged, and there are no others.
    Conversely, when every request of the batch is good and no allocation is
    asked for twice, all are claimed.  The datacap to be burnt is the sum of the
    sizes reported per sector, which is what the open allocations shrink by. *)
Theorem claim_sectors_spec provider sectors st acc st' :
  wf (tab st) -> claim_sectors ctx provider sectors st = Ok (acc, st') ->
  (forall k a, allocations st !! k = Some a -> allocations st' !! k = Some a \/
     allocations st' !! k = None /\
     exists sector x, sector ∈ sectors /\ granted ctx provider (allocations st) sector /\
       claims st' !! (provider, snd k) = Some x /\
       made_from ctx provider (allocations st) sector (snd k) a x) /\
  (forall k x, claims st !! k = Some x -> claims st' !! k = Some x) /\
  (forall k x, claims st' !! k = Some x -> claims st !! k = Some x \/
     exists sector id a, k = (provider, id) /\ sector ∈ sectors /\
       granted ctx provider (allocations st) sector /\
       made_from ctx provider (allocations st) sector id a x) /\
  (forall k a, allocations st' !! k = Some a -> allocations st !! k = Some a) /\
  (NoDup (sectors ≫= request_ids) ->
   (forall sector, sector ∈ sectors -> granted ctx provider (allocations st) sector) ->
   forall sector c, sector ∈ sectors -> c ∈ sa_claims sector ->
     exists a, valid_request ctx provider (allocations st) sector c a /\
       allocations st' !! (al_client a, ac_allocation_id c) = None /\
       claims st' !! (provider, ac_allocation_id c) = Some (claim_of ctx provider sector a)) /\
  total_claimed_space acc = sum_list_Z (sector_results acc) /\
  map_sum al_size (allocations st') = map_sum al_size (allocations st) - total_claimed_space acc.
Proof.
  intros Hwf H. destruct (claim_sectors_step _ _ _ _ _ _ H) as (Ht & [Hsub Hold Hnew Hgone] & Htot & _).
  destruct (Ht Hwf) as (Hwf' & Hev & Hheld).
  assert (forall c id x, claims st' !! (provider, id) = Some x -> allocations st' !! (c, id) = None) as Hexcl.
  { intros c id x Hx. destruct (allocations st' !! (c, id)) eqn:E; [|done].
    exfalso. by eapply (w_disjoint _ Hwf' c provider id). }
  split_and!.
  - intros [c id] a Ha. destruct (Hgone c id a Ha) as [|(sector & x & ? & ? & Hx & ?)]; [by left|].
    right. split; [by eapply Hexcl|eauto 10].
  - intros k x Hx. by eapply lookup_weaken.
  - done.
  - intros k a Ha. by eapply lookup_weaken.
  - intros Hnd Hg sector c Hs Hc. unfold claim_sectors in H. apply rbind_ok in H as (acc0 & Hf & H). res_inv.
    apply claim_sectors_complete in Hf as [_ Hf]; [|done..]. destruct (Hf sector c Hs Hc) as (a & Hv & Hx).
    exists a. split; [done|]. split; [by eapply Hexcl|done].
  - done.
  - unfold held in Hheld. cbn in Hheld. lia.
Qed.

(** The allocations of a client that have expired. *)
Definition expired (al : gmap (Z * Z) Allocation) (c : Z) (k : Z * Z) : bool :=
  match al !! k with
  | Some a => (fst k =? c) && (al_expiration a <=? e)
  | None => false
  end.

Lemma expired_id al c id :
  expired al c (c, id) = match al !! (c, id) with Some a => al_expiration a <=? e | None => false end.
Proof. unfold expired. cbn. by rewrite Z.eqb_refl. Qed.

Lemma find_expired_ok order al c :
  find_expired order al c e =
    Ok (filter (fun id => expired al c (c, id) = true) (order (inner_keys al c))).
Proof.
  unfold find_expired. generalize (order (inner_keys al c)) as l. intros l.
  assert (forall l found, rfold (fun found id =>
    match al !! (c, id) with
    | Some record => let! e0 := expiration record in Ok (if e >=? e0 then found ++ [id] else found)
    | None => Ok found
    end) found l = @Ok error _ (found ++ filter (fun id => expired al c (c, id) = true) l)) as H;
    [|apply (H l [])].
  clear l. induction l as [|id l IH]; intros found; cbn [rfold]; [by rewrite app_nil_r|].
  rewrite filter_cons, expired_id. destruct (al !! (c, id)) as [a|] eqn:Ha; cbn [rbind].
  - change (expiration a) with (@Ok error Z (al_expiration a)). cbn [rbind]. rewrite Z.geb_leb, IH.
    destruct (al_expiration a <=? e); cbn; [by rewrite <- app_assoc|done].
  - by rewrite IH.
Qed.

Lemma drop_allocs_total (c : Z) (ids : list Z) : forall (al : gmap (Z * Z) Allocation) (n : Z),
  NoDup ids -> (forall id, id ∈ ids -> is_Some (al !! (c, id))) ->
  exists al' n', rfold (fun '(allocs, recovered) id =>
    let! existing := expect (allocs !! (c, id)) in
    Ok (delete (c, id) allocs, recovered + al_size existing)) (al, n) ids
      = @Ok error _ (al', n') /\
    (forall k : Z * Z, al' !! k = if bool_decide (fst k = c /\ snd k ∈ ids) then None else al !! k) /\
    map_sum al_size al = map_sum al_size al' + (n' - n).
Proof.
  induction ids as [|id ids IH]; intros al n Hnd Hin; cbn [rfold].
  { exists al, n. split_and!; [done| |lia]. intros k. rewrite bool_decide_false; [done|].
    intros [_ H]. by apply not_elem_of_nil in H. }
  apply NoDup_cons in Hnd as [Hid Hnd]. destruct (Hin id) as [a Ha]; [left|]. rewrite Ha. cbn.
  destruct (IH (delete (c, id) al) (n + al_size a)) as (al' & n' & Hf & Hk & Hs).
  - done.
  - intros i Hi. rewrite lookup_delete_ne; [apply Hin; by right|]. intros [= ->]. done.
  - exists al', n'. split_and!; [done| |].
    + intros k. rewrite Hk. destruct (decide (k = (c, id))) as [->|Hne].
      * rewrite lookup_delete_eq, (bool_decide_true (_ /\ _ ∈ id :: _)); [by case_bool_decide|].
        split; [done|left].
      * rewrite lookup_delete_ne by done. rewrite (bool_decide_ext _ (fst k = c /\ snd k ∈ id :: ids));
          [done|]. destruct k as [k1 k2]. cbn. rewrite elem_of_cons. naive_solver.
    + rewrite (map_sum_delete _ _ _ _ Ha). lia.
Qed.
(** Expired allocations are returned, all and only those.  Called without
    identifiers, the removal for a client succeeds in every state, removes
    exactly the allocations of the client whose expiration has been reached,
    and recovers for the client the sum of their sizes. *)
Theorem remove_expired_allocations_spec c st :
  (forall s : gset Z, hamt_order ext s ≡ₚ elements s) ->
  exists considered recovered st',
    remove_expired_allocations_st ext ctx c [] st
      = Ok ((considered, batch_ok (length considered), recovered), st') /\
    (forall k, allocations st' !! k =
       if expired (allocations st) c k then None else allocations st !! k) /\
    (forall id, id ∈ considered <-> expired (allocations st) c (c, id) = true) /\
    recovered = map_sum al_size (allocations st) - map_sum al_size (allocations st') /\
    claims st' = claims st /\ next_allocation_id st' = next_allocation_id st.
Proof.
  intros Horder. set (al := allocations st).
  set (ids := filter (fun id => expired al c (c, id) = true) (hamt_order ext (inner_keys al c))).
  assert (forall id, id ∈ ids <-> expired al c (c, id) = true) as Hids.
  { intros id. unfold ids. rewrite list_elem_of_filter, Horder, elem_of_elements.
    split; [by intros []|]. intros Hx. split; [done|]. unfold inner_keys. apply elem_of_map.
    exists (c, id). split; [done|]. apply elem_of_filter. split; [done|]. apply elem_of_dom.
    unfold expired in Hx. destruct (al !! (c, id)); [eauto|done]. }
  destruct (drop_allocs_total c ids al 0) as (al' & n & Hf & Hk & Hs).
  - apply NoDup_filter. rewrite Horder. apply NoDup_elements.
  - intros id Hx%Hids. unfold expired in Hx. destruct (al !! (c, id)); [eauto|done].
  - exists ids, n, (set_allocations al' st).
    unfold remove_expired_allocations_st, select_expired. rewrite find_expired_ok. cbn [rbind].
    fold al. fold ids. rewrite Hf. cbn. split_and!; [done| |done|lia|done|done].
    intros [k1 k2]. rewrite Hk. cbn. destruct (Z.eqb_spec k1 c) as [->|Hne].
    + destruct (expired al c (c, k2)) eqn:E.
      * rewrite bool_decide_true; [done|]. split; [done|by apply Hids].
      * rewrite bool_decide_false; [done|]. intros [_ Hx%Hids]. congruence.
    + rewrite bool_decide_false by naive_solver. unfold expired. cbn.
      rewrite (proj2 (Z.eqb_neq k1 c) Hne). by destruct (al !! (k1, k2)).
Qed.

(** In the epoch of its expiration an allocation can be claimed, and can
    also be removed by anyone.  Claims are accepted up to and including the
    expiration epoch of the allocation, and removal from that epoch on. *)
Theorem expiration_epoch_overlap c id a st :
  wf (tab st) -> allocations st !! (c, id) = Some a -> al_expiration a = e ->
  al_term_min a <= al_term_max a -> -2 ^ 63 <= e <= 2 ^ 63 - 1 ->
  -2 ^ 63 <= al_term_min a <= 2 ^ 63 - 1 ->
  can_claim_alloc (mkAllocClaim c id (al_data a) (al_size a)) (al_provider a) a e
    (e + al_term_min a) = Ok true /\
  exists r st', remove_expired_allocations_st ext ctx c [id] st = Ok (r, st') /\
    allocations st' = delete (c, id) (allocations st).
Proof.
  intros Hwf Ha He Ht Hr Hr'. destruct (w_al _ Hwf _ _ _ Ha) as (Hc & _ & _). split.
  - unfold can_claim_alloc. replace (e + al_term_min a - e) with (al_term_min a) by lia.
    rewrite (proj2 (chk_i64_ok _ _) (conj eq_refl Hr')). cbn. f_equal.
    repeat (apply andb_true_intro; split);
      first [apply bool_decide_eq_true; done|rewrite ?Z.geb_leb; lia].
  - unfold remove_expired_allocations_st, select_expired, check_expired. cbn [rfold]. rewrite Ha.
    change (expiration a) with (@Ok error Z (al_expiration a)). cbn [rbind].
    rewrite He, Z.geb_leb, Z.leb_refl. cbn. rewrite Ha. cbn. eauto.
Qed.
End batch.
