(* ===== verification/VerifregDemo.v ===== *)
(** * The verified registry: a concrete run

    A root key appoints verifiers, one of them grants datacap to a client, the
    client allocates it to a miner in two pieces, and the miner claims one.
    The run instantiates the hypotheses of the theorems of VerifregProps.v. *)

From S2P Require Import Prelude Runtime Chain Batch Verifreg VerifregProofs VerifregChain VerifregProps.

Module RegistryDemo.

Definition piece : Cid := mkCid 1 61697 4114 (replicate 32 0).
Definition size : Z := 2 ^ 20.
Definition precision : Z := 10 ^ 18.

Definition decode_receipt (b : bytes) : option TokenReceived :=
  match b with
  | from :: amount :: data => Some (mkReceived from 6 from amount data [])
  | _ => None
  end.

Definition decode_requests (b : bytes) : option AllocationRequests :=
  match b with
  | [provider; sz; tmin; tmax; exp] =>
      Some (mkAllocReqs [mkAllocReq provider piece sz tmin tmax exp] [])
  | [provider; claim; tmax] => Some (mkAllocReqs [] [mkExtReq provider claim tmax])
  | _ => None
  end.

Definition ext : Ext :=
  mkExt (fun s => 16777216 + Z.of_nat (String.length s)) precision 9 decode_receipt decode_requests
    (fun _ amount id => Some [amount; id]) (fun _ => Some true) (fun _ => Some 0) elements.

(** The network is the registry's own balance of tokens. *)
Definition tokens (net : Z) : Z := net.

Definition env : Env Z State Params bytes :=
  mkEnv (fun _ a => addr_id a) (fun _ i => Some i)
    (fun c => Some (if c =? 0 then TSystem else if c =? 401 then TMiner else TAccount))
    (fun b => b)
    (fun req net s bal =>
       if (0 <=? spent req) && (spent req <=? net)
       then mkSendOut (inl (mkResp EC_OK (Some [0]))) s bal (net - spent req)
       else mkSendOut (inr EN_InsufficientFunds) s bal net).

Definition ctx (from epoch : Z) : Ctx := mkCtx from from 6 0 epoch.

Lemma registry_ext_holds : registry_ext_ok ext default_policy.
Proof. by constructor. Qed.

Lemma registry_env_holds : env_ok ext env.
Proof.
  constructor.
  - intros. cbn. by destruct (_ && _).
  - intros net [i|p b]; cbn; [by intros [= ->]|done].
Qed.

(** Runs a message; an aborted one changes nothing. *)
Definition step (epoch from : Z) (m : Msg) (c : Conf State) : Conf State :=
  match trampoline (invoke_method ext default_policy) env (ctx from epoch) m (c_state c) 0
          (c_balance c + gain ext (ctx from epoch) m) with
  | Committed _ w => if w_deleted w then c else mkConf epoch (w_state w) (w_net w)
  | Aborted _ => c
  end.

Notation run := (run ext default_policy tokens).

Lemma run_step c0 epoch from m c c' :
  run c0 c -> c' = step epoch from m c -> c_epoch c <= epoch ->
  ctx_ok (ctx from epoch) = true -> adm ext (ctx from epoch) m (c_state c) -> run c0 c'.
Proof.
  intros Hc -> He Hctx Hadm. unfold step.
  destruct (trampoline _ _ _ _ _ _ _) as [r w|] eqn:Hrun; [|done].
  destruct (w_deleted w) eqn:Hdel; [done|]. eapply chain_trans; [exact Hc|].
  destruct c as [e s b]. cbn in *. eapply chain_tick; [exact He|].
  eapply (chain_msg _ _ _ _ _ _ _ env (ctx from epoch));
    [apply registry_env_holds| |done|done|done| |exact Hrun|done|apply chain_refl]; [|done].
  intros req w1 r1 w2 H. run_inv. unfold bal, tokens, env. cbn. destruct (_ && _); cbn.
  - apply chain_refl.
  - rewrite Z.sub_0_r. apply chain_refl.
Qed.

Definition allocate : Msg :=
  UniversalReceiverHook 9 [301; size * precision; 401; size; 518400; 600000; 5000].
Definition claim_first : Msg :=
  ClaimAllocations [mkSectorClaims 8 530000 [mkAllocClaim 301 1 piece size]] true.

Definition genesis : Conf State := mkConf 0 None 0.
Definition created : Conf State := Eval vm_compute in step 0 0 (Constructor (AddrId 80)) genesis.
Definition verifier_1 : Conf State :=
  Eval vm_compute in step 1 80 (AddVerifier (AddrId 201) (2 ^ 40)) created.
Definition verifier_2 : Conf State :=
  Eval vm_compute in step 1 80 (AddVerifier (AddrId 202) (2 ^ 40)) verifier_1.
Definition granted : Conf State :=
  Eval vm_compute in step 2 201 (AddVerifiedClient false (AddrId 301) (2 ^ 30)) verifier_2.
Definition allocated_1 : Conf State := Eval vm_compute in step 3 7 allocate granted.
Definition allocated : Conf State := Eval vm_compute in step 3 7 allocate allocated_1.
Definition claimed : Conf State := Eval vm_compute in step 10 401 claim_first allocated.

Definition st_of (c : Conf State) : State := default (new_state (AddrId 80)) (c_state c).

Lemma allocated_run : run genesis allocated.
Proof.
  apply (run_step _ 3 7 allocate allocated_1); [|vm_compute; reflexivity|done|done|done].
  apply (run_step _ 3 7 allocate granted); [|vm_compute; reflexivity|done|done|done].
  apply (run_step _ 2 201 (AddVerifiedClient false (AddrId 301) (2 ^ 30)) verifier_2);
    [|vm_compute; reflexivity|done|done|done].
  apply (run_step _ 1 80 (AddVerifier (AddrId 202) (2 ^ 40)) verifier_1);
    [|vm_compute; reflexivity|done|done|done].
  apply (run_step _ 1 80 (AddVerifier (AddrId 201) (2 ^ 40)) created);
    [|vm_compute; reflexivity|done|done|done].
  apply (run_step _ 0 0 (Constructor (AddrId 80)) genesis);
    [apply chain_refl|vm_compute; reflexivity|done|done|done].
Qed.

Lemma claimed_run : run allocated claimed.
Proof.
  apply (run_step _ 10 401 claim_first allocated);
    [apply chain_refl|vm_compute; reflexivity|done|done|done].
Qed.

Notation deployed := (deployed ext default_policy tokens).

Lemma allocated_deployed : deployed 3 (st_of allocated) (c_balance allocated).
Proof. exists 0, 0. split; [done|]. exact allocated_run. Qed.

Lemma claimed_deployed : deployed 10 (st_of claimed) (c_balance claimed).
Proof.
  exists 0, 0. split; [done|]. eapply chain_trans; [exact allocated_run|exact claimed_run].
Qed.
End RegistryDemo.

Import RegistryDemo.

Lemma registry_backed_witness :
  precision * map_sum al_size (allocations (st_of claimed)) <= c_balance claimed.
Proof.
  destruct (registry_backed _ _ _ _ _ _ registry_ext_holds claimed_deployed) as [H _]. exact H.
Defined.

Lemma registry_ids_unique_witness :
  exists x, claims (st_of claimed) !! (401, 1) = Some x /\ cl_provider x = 401.
Proof.
  destruct (registry_ids_unique _ _ _ _ _ _ registry_ext_holds claimed_deployed) as (_ & H & _).
  eexists. split; [vm_compute; reflexivity|]. eapply (H 401 1). vm_compute. reflexivity.
Defined.

Lemma registry_claimed_once_witness :
  exists a, allocations (st_of allocated) !! (301, 1) = Some a /\
    forall c, allocations (st_of claimed) !! (c, 1) = None.
Proof.
  destruct (registry_claimed_once _ _ _ _ _ _ _ _ _ registry_ext_holds allocated_deployed claimed_run)
    as (H & _).
  eexists. split; [vm_compute; reflexivity|].
  eapply (H 301 401 1); vm_compute; reflexivity.
Defined.

Module RemovalDemo.
Definition p : RemoveDataCapParams :=
  mkRemoveParams (AddrId 301) 100 (mkRemoveRequest (AddrId 201) []) (mkRemoveRequest (AddrId 202) []).
Definition w : World Z State Params := mkWorld None 0 0 false false [].
Definition take (v1 v2 : Address) (st : State) :=
  @use_proposal_ids Z (ctx 80 10) p v1 v2 (AddrId 301) st w.
Definition st1 : State :=
  set_proposal_ids {[ (AddrId 201, AddrId 301) := 1; (AddrId 202, AddrId 301) := 1 ]} (st_of claimed).
Definition st2 : State :=
  set_proposal_ids {[ (AddrId 201, AddrId 301) := 2; (AddrId 202, AddrId 301) := 2 ]} (st_of claimed).
End RemovalDemo.

Lemma removal_ids_fresh_witness :
  exists i1 i2 j1 j2 w' w'',
    RemovalDemo.take (AddrId 201) (AddrId 202) (st_of claimed) = Ok (i1, i2, RemovalDemo.st1, w') /\
    RemovalDemo.take (AddrId 202) (AddrId 201) RemovalDemo.st1 = Ok (j1, j2, RemovalDemo.st2, w'') /\
    i1 < j2 /\ i2 < j1.
Proof.
  eexists _, _, _, _, _, _. split; [vm_compute; reflexivity|]. split; [vm_compute; reflexivity|].
  destruct (removal_ids_fresh ext default_policy tokens 10 (st_of claimed) (c_balance claimed)
    (ctx 80 10) RemovalDemo.p (AddrId 201) (AddrId 202) (AddrId 301) RemovalDemo.w 0 0
    RemovalDemo.st1 (set_validated RemovalDemo.w) 0 10 RemovalDemo.st1 0
    (ctx 80 10) RemovalDemo.p (AddrId 202) (AddrId 201) RemovalDemo.w 1 1 RemovalDemo.st2
    (set_validated RemovalDemo.w) registry_ext_holds claimed_deployed) as (_ & H1 & H2 & _).
  - done.
  - done.
  - vm_compute. reflexivity.
  - apply chain_refl.
  - vm_compute. reflexivity.
  - split; [by apply H1|by apply H2].
Defined.

Lemma claim_sectors_spec_witness :
  exists acc st', claim_sectors (ctx 401 10) 401
      [mkSectorClaims 8 530000 [mkAllocClaim 301 1 piece size; mkAllocClaim 301 2 piece size];
       mkSectorClaims 9 530000 [mkAllocClaim 301 7 piece size]] (st_of allocated) = Ok (acc, st') /\
    total_claimed_space acc = 2 * size /\ map_sum al_size (allocations st') = 0.
Proof.
  eexists _, _. split; [vm_compute; reflexivity|].
  destruct (deployed_safe _ _ _ _ _ _ registry_ext_holds allocated_deployed) as [Hwf _].
  edestruct (claim_sectors_spec (ctx 401 10) 401
      [mkSectorClaims 8 530000 [mkAllocClaim 301 1 piece size; mkAllocClaim 301 2 piece size];
       mkSectorClaims 9 530000 [mkAllocClaim 301 7 piece size]] (st_of allocated))
    as (_ & _ & _ & _ & _ & H1 & H2); [exact Hwf|vm_compute; reflexivity|].
  split; [rewrite H1; vm_compute; reflexivity|rewrite H2; vm_compute; reflexivity].
Defined.

Lemma remove_expired_allocations_spec_witness :
  exists considered recovered st', remove_expired_allocations_st ext (ctx 1 5000) 301 []
    (st_of allocated) = Ok ((considered, batch_ok (length considered), recovered), st') /\
    2 ∈ considered.
Proof.
  destruct (remove_expired_allocations_spec ext (ctx 1 5000) 301 (st_of allocated))
    as (considered & n & st' & H & _ & Hin & _); [done|].
  exists considered, n, st'. split; [exact H|]. apply Hin. vm_compute. reflexivity.
Defined.

Lemma expiration_epoch_overlap_witness :
  exists r st', remove_expired_allocations_st ext (ctx 1 5000) 301 [1] (st_of allocated) = Ok (r, st').
Proof.
  destruct (deployed_safe _ _ _ _ _ _ registry_ext_holds allocated_deployed) as [Hwf _].
  edestruct (expiration_epoch_overlap ext (ctx 1 5000) 301 1) as (_ & r & st' & H & _);
    [exact Hwf|vm_compute; reflexivity|cbn; lia..|]. by exists r, st'.
Defined.
