(* ===== verification/EvmWord.v ===== *)
(** * The EVM word

    Models the 256-bit integer of the EVM actor
    (src/actors/evm/shared/src/uints.rs) and the instructions that are pure
    functions of words (src/actors/evm/src/interpreter/instructions/
    {arithmetic,bitwise,boolean}.rs), and shows that they compute the
    arithmetic of the EVM: unsigned operations modulo [2^256], signed ones on
    the two's complement value.  A [U256] is a [Z] between [0] and [2^256 - 1];
    the operators of the [uint] crate panic when they leave that range, and the
    lemmas show that no operator used here does. *)

From S2P Require Import Prelude.

(** ** Words and their limbs *)

Definition U256_MOD : Z := 2 ^ 256.
Definition U256_MAX : Z := 2 ^ 256 - 1.

(** The words. *)
Definition word (x : Z) : Prop := 0 <= x < 2 ^ 256.

(** The little-endian 64-bit limbs, the field [0] of [U256]. *)
Definition limb (i : Z) (x : Z) : Z := Z.land (Z.shiftr x (64 * i)) (Z.ones 64).

(** [x as i64] of a [u64]. *)
Definition as_i64 (x : Z) : Z := if x <? 2 ^ 63 then x else x - 2 ^ 64.

(** [!x] of the [uint] crate. *)
Definition lnot256 (x : Z) : Z := Z.lxor x U256_MAX.

(** [overflowing_add] and the like, first component. *)
Definition wrap (x : Z) : Z := x mod U256_MOD.

(** [U256::bits]: the position of the highest set bit, [0] for zero. *)
Definition bits (x : Z) : Z := if x =? 0 then 0 else Z.log2 x + 1.

(** [U256::leading_zeros]. *)
Definition leading_zeros (x : Z) : Z := 256 - bits x.

Module U256.
Definition I256_MIN : Z := Z.shiftl (2 ^ 63) 192.

(** [impl PartialOrd<u64> for U256]. *)
Definition partial_cmp (self other : Z) : comparison :=
  if (limb 3 self >? 0) || (limb 2 self >? 0) || (limb 1 self >? 0) then Gt
  else Z.compare (limb 0 self) other.

(** [impl PartialEq<u64> for U256]. *)
Definition eq_u64 (self other : Z) : bool :=
  (limb 0 self =? other) && (limb 1 self =? 0) && (limb 2 self =? 0) && (limb 3 self =? 0).

Definition lt_u64 (self other : Z) : bool :=
  match partial_cmp self other with Lt => true | _ => false end.
Definition ge_u64 (self other : Z) : bool :=
  match partial_cmp self other with Lt => false | _ => true end.

Definition i256_is_negative (self : Z) : bool := as_i64 (limb 3 self) <? 0.

Definition i256_neg (self : Z) : Z :=
  if self =? 0 then 0 else lnot256 self + 1.

(** [bool::cmp]. *)
Definition bool_cmp (a b : bool) : comparison :=
  match a, b with
  | false, true => Lt
  | true, false => Gt
  | _, _ => Eq
  end.

Definition i256_cmp (self other : Z) : comparison :=
  match bool_cmp (i256_is_negative other) (i256_is_negative self) with
  | Eq => Z.compare self other
  | sign_cmp => sign_cmp
  end.

Definition i256_div (self other : Z) : Z :=
  if (self =? 0) || (other =? 0) then 0
  else
    let first_neg := i256_is_negative self in
    let second_neg := i256_is_negative other in
    let first := if first_neg then i256_neg self else self in
    let second := if second_neg then i256_neg other else other in
    let d := first / second in
    if (d =? 0) || Bool.eqb first_neg second_neg then d else i256_neg d.

Definition i256_mod (self other : Z) : Z :=
  if (self =? 0) || (other =? 0) then 0
  else
    let negative := i256_is_negative self in
    let first := if negative then i256_neg self else self in
    let second := if i256_is_negative other then i256_neg other else other in
    let r := first mod second in
    if negative && negb (r =? 0) then i256_neg r else r.

Definition to_u64_saturating (self : Z) : Z :=
  if bits self >? 64 then U64_MAX else limb 0 self.

(** [U512::low_u256]. *)
Definition low_u256 (x : Z) : Z :=
  Z.lor (limb 0 x) (Z.lor (Z.shiftl (limb 1 x) 64)
    (Z.lor (Z.shiftl (limb 2 x) 128) (Z.shiftl (limb 3 x) 192))).

Definition low_u64 (x : Z) : Z := limb 0 x.
Definition low_u32 (x : Z) : Z := Z.land x (Z.ones 32).

(** [TryFrom<U256>] for [u32] and, on the 32-bit target, [usize]. *)
Definition try_into_u32 (x : Z) : option Z := if x <? 2 ^ 32 then Some x else None.
End U256.

(** ** Bytes *)

(** The [n] low bytes of a number, most significant first. *)
Fixpoint be_bytes (n : nat) (x : Z) : list Z :=
  match n with
  | O => []
  | S n => be_bytes n (x / 256) ++ [x mod 256]
  end.

(** [U256::from_big_endian]; the crate asserts at most 32 bytes. *)
Definition from_big_endian (l : list Z) : Z := foldl (fun acc b => acc * 256 + b) 0 l.

(** [U256::to_big_endian]. *)
Definition to_big_endian (x : Z) : list Z := be_bytes 32 x.

(** A list of [u8]. *)
Definition is_byte (b : Z) : Prop := 0 <= b < 256.
Definition bytes (l : list Z) : Prop := Forall is_byte l.

(** [zeroless_view]: the bytes from the first non-zero one on. *)
Fixpoint zeroless_view (v : list Z) : list Z :=
  match v with
  | b :: v' => if b =? 0 then zeroless_view v' else v
  | [] => []
  end.

(** [impl Serialize for U256]: the byte string handed to the serializer. *)
Definition serialize (x : Z) : list Z := zeroless_view (to_big_endian x).

(** [Visitor::visit_bytes] of [impl Deserialize for U256]. *)
Definition visit_bytes (v : list Z) : option Z :=
  if (32 <? length v)%nat then None else Some (from_big_endian v).

(** [impl From<&TokenAmount> for U256]: the magnitude of the amount, which
    must have at most 32 bytes. *)
Definition from_token_amount {E} (amount : Z) : Res E Z :=
  if Z.abs amount <? 2 ^ 256 then Ok (Z.abs amount) else Panic.

(** ** Instructions *)

Module Arithmetic.
Definition add (a b : Z) : Z := wrap (a + b).
Definition mul (a b : Z) : Z := wrap (a * b).
Definition sub (a b : Z) : Z := wrap (a - b).
Definition div (a b : Z) : Z := if negb (b =? 0) then a / b else b.
Definition sdiv (a b : Z) : Z := U256.i256_div a b.
Definition modulo (a b : Z) : Z := if negb (b =? 0) then a mod b else b.
Definition smod (a b : Z) : Z := U256.i256_mod a b.

Definition addmod (a b c : Z) : Z :=
  if negb (c =? 0) then U256.low_u256 ((a + b) mod c) else c.

Definition mulmod (a b c : Z) : Z :=
  if negb (c =? 0) then U256.low_u256 ((a * b) mod c) else c.

Definition signextend (a b : Z) : Z :=
  if U256.lt_u64 a 32 then
    let bit_index := 8 * U256.low_u32 a + 7 in
    let mask := Z.shiftr U256_MAX (256 - bit_index) in
    if Z.testbit b bit_index then Z.lor b (lnot256 mask) else Z.land b mask
  else b.

(** The inner loop of [exp]: [n] bits of a limb. *)
Fixpoint exp_word (n : nat) (word v base : Z) : Z * Z :=
  match n with
  | O => (v, base)
  | S n =>
      exp_word n (Z.shiftr word 1)
        (if negb (Z.land word 1 =? 0) then wrap (v * base) else v)
        (wrap (base * base))
  end.

(** The body of the outer loop: one limb. *)
Definition exp_step (st : Z * Z * Z) (word : Z) : Z * Z * Z :=
  let '(v, base, remaining_bits) := st in
  let '(v, base) := exp_word (Z.to_nat (Z.min 64 remaining_bits)) word v base in
  (v, base, Z.max 0 (remaining_bits - 64)).

Definition exp (base power : Z) : Z :=
  let '(v, _, _) :=
    foldl exp_step (1, base, 256 - leading_zeros power)
      [limb 0 power; limb 1 power; limb 2 power; limb 3 power] in
  v.
End Arithmetic.

Module Bitwise.
Definition byte (i x : Z) : Z :=
  if U256.ge_u64 i 32 then 0
  else Z.land (Z.shiftr x (8 * (31 - U256.low_u64 i))) 255.

Definition shl (shift value : Z) : Z :=
  if (value =? 0) || U256.ge_u64 shift 256 then 0 else wrap (Z.shiftl value shift).

Definition shr (shift value : Z) : Z :=
  if (value =? 0) || U256.ge_u64 shift 256 then 0 else Z.shiftr value shift.

Definition sar (shift value : Z) : Z :=
  let negative := U256.i256_is_negative value in
  let value := if negative then U256.i256_neg value else value in
  if (value =? 0) || U256.ge_u64 shift 256 then
    if negative then U256_MAX else 0
  else
    let shift := U256.low_u32 shift in
    if negative then
      let shifted := wrap (Z.shiftr (wrap (value - 1)) shift + 1) in
      U256.i256_neg shifted
    else Z.shiftr value shift.
End Bitwise.

Module Boolean.
Definition lt (a b : Z) : Z := Z.b2z (a <? b).
Definition gt (a b : Z) : Z := Z.b2z (a >? b).
Definition slt (a b : Z) : Z :=
  Z.b2z (match U256.i256_cmp a b with Lt => true | _ => false end).
Definition sgt (a b : Z) : Z :=
  Z.b2z (match U256.i256_cmp a b with Gt => true | _ => false end).
Definition eq (a b : Z) : Z := Z.b2z (a =? b).
Definition iszero (a : Z) : Z := Z.b2z (a =? 0).
Definition and (a b : Z) : Z := Z.land a b.
Definition or (a b : Z) : Z := Z.lor a b.
Definition xor (a b : Z) : Z := Z.lxor a b.
Definition not (v : Z) : Z := lnot256 v.
End Boolean.

(** ** Reference semantics *)

(** The two's complement value of a word. *)
Definition signed (x : Z) : Z := if x <? 2 ^ 255 then x else x - 2 ^ 256.

(** ** Lemmas *)

(** Evaluates the powers of two that occur with a constant exponent. *)
Ltac pow2 :=
  change (2 ^ 256) with 115792089237316195423570985008687907853269984665640564039457584007913129639936 in *;
  change (2 ^ 255) with 57896044618658097711785492504343953926634992332820282019728792003956564819968 in *;
  change (2 ^ 192) with 6277101735386680763835789423207666416102355444464034512896 in *;
  change (2 ^ 128) with 340282366920938463463374607431768211456 in *;
  change (2 ^ 64) with 18446744073709551616 in *;
  change (2 ^ 63) with 9223372036854775808 in *;
  change (2 ^ 32) with 4294967296 in *.

Lemma limb_spec i x : 0 <= i -> limb i x = (x / 2 ^ (64 * i)) mod 2 ^ 64.
Proof. intros Hi. unfold limb. rewrite Z.land_ones, Z.shiftr_div_pow2 by lia. done. Qed.

Lemma limb_range i x : 0 <= i -> 0 <= limb i x < 2 ^ 64.
Proof. intros Hi. rewrite limb_spec by done. apply Z.mod_pos_bound. lia. Qed.

Lemma limb0 x : limb 0 x = x mod 2 ^ 64.
Proof. rewrite limb_spec by lia. cbn [Z.mul]. by rewrite Z.pow_0_r, Z.div_1_r. Qed.

(** A word is made of its four limbs. *)
Lemma limbs_word x : word x ->
  x = limb 0 x + 2 ^ 64 * (limb 1 x + 2 ^ 64 * (limb 2 x + 2 ^ 64 * limb 3 x)).
Proof.
  intros [H0 H1]. rewrite limb0, !limb_spec by lia.
  rewrite (Z.mod_small (x / 2 ^ (64 * 3))).
  2:{ split; [apply Z.div_pos; lia|]. apply Z.div_lt_upper_bound; [lia|].
      rewrite <- Z.pow_add_r by lia. exact H1. }
  replace (x / 2 ^ (64 * 2)) with (x / 2 ^ 64 / 2 ^ 64)
    by (rewrite Z.div_div by lia; by rewrite <- Z.pow_add_r by lia).
  replace (x / 2 ^ (64 * 3)) with (x / 2 ^ 64 / 2 ^ 64 / 2 ^ 64)
    by (rewrite !Z.div_div by lia; by rewrite <- !Z.pow_add_r by lia).
  change (2 ^ (64 * 1)) with (2 ^ 64).
  pose proof (Z.div_mod x (2 ^ 64)) as E0.
  pose proof (Z.div_mod (x / 2 ^ 64) (2 ^ 64)) as E1.
  pose proof (Z.div_mod (x / 2 ^ 64 / 2 ^ 64) (2 ^ 64)) as E2.
  lia.
Qed.

Lemma partial_cmp_spec x y : word x -> 0 <= y < 2 ^ 64 ->
  U256.partial_cmp x y = Z.compare x y.
Proof.
  intros Hx Hy. unfold U256.partial_cmp.
  pose proof (limbs_word x Hx) as E.
  pose proof (limb_range 0 x ltac:(lia)). pose proof (limb_range 1 x ltac:(lia)).
  pose proof (limb_range 2 x ltac:(lia)). pose proof (limb_range 3 x ltac:(lia)).
  destruct (limb 3 x >? 0) eqn:E3; cbn [orb]; bool_prop.
  { symmetry. apply Z.compare_gt_iff. pow2. lia. }
  destruct (limb 2 x >? 0) eqn:E2; cbn [orb]; bool_prop.
  { symmetry. apply Z.compare_gt_iff. pow2. lia. }
  destruct (limb 1 x >? 0) eqn:E1; cbn [orb]; bool_prop.
  { symmetry. apply Z.compare_gt_iff. pow2. lia. }
  replace (limb 0 x) with x; [done|]. pow2. lia.
Qed.

Lemma lt_u64_spec x y : word x -> 0 <= y < 2 ^ 64 -> U256.lt_u64 x y = (x <? y).
Proof. intros. unfold U256.lt_u64. by rewrite partial_cmp_spec. Qed.

Lemma ge_u64_spec x y : word x -> 0 <= y < 2 ^ 64 -> U256.ge_u64 x y = negb (x <? y).
Proof.
  intros. unfold U256.ge_u64. rewrite partial_cmp_spec by done. unfold Z.ltb.
  by destruct (x ?= y).
Qed.

Lemma eq_u64_spec x y : word x -> 0 <= y < 2 ^ 64 -> U256.eq_u64 x y = (x =? y).
Proof.
  intros Hx Hy. pose proof (limbs_word x Hx) as E. unfold U256.eq_u64.
  pose proof (limb_range 0 x ltac:(lia)). pose proof (limb_range 1 x ltac:(lia)).
  pose proof (limb_range 2 x ltac:(lia)). pose proof (limb_range 3 x ltac:(lia)).
  apply eq_true_iff_eq. rewrite !andb_true_iff, !Z.eqb_eq. pow2. lia.
Qed.

(** ** Signs *)

Lemma is_negative_spec x : word x -> U256.i256_is_negative x = negb (x <? 2 ^ 255).
Proof.
  intros Hx. unfold U256.i256_is_negative, as_i64.
  pose proof (limbs_word x Hx) as E.
  pose proof (limb_range 0 x ltac:(lia)). pose proof (limb_range 1 x ltac:(lia)).
  pose proof (limb_range 2 x ltac:(lia)). pose proof (limb_range 3 x ltac:(lia)).
  apply eq_true_iff_eq. rewrite negb_true_iff.
  destruct (limb 3 x <? 2 ^ 63) eqn:E3; bool_prop; rewrite Z.ltb_lt, Z.ltb_ge; pow2; lia.
Qed.

Lemma is_negative_signed x : word x -> U256.i256_is_negative x = (signed x <? 0).
Proof.
  intros Hx. rewrite is_negative_spec by done. unfold signed, word in *.
  destruct (x <? 2 ^ 255) eqn:E; bool_prop; cbn; symmetry; [apply Z.ltb_ge|apply Z.ltb_lt]; lia.
Qed.

Lemma lnot256_spec x : word x -> lnot256 x = U256_MAX - x.
Proof.
  intros [H0 H1]. unfold lnot256, U256_MAX.
  assert (Z.land x (Z.lxor x (Z.ones 256)) = 0) as Hd.
  { apply Z.bits_inj'. intros n Hn. rewrite Z.land_spec, Z.lxor_spec, Z.bits_0.
    destruct (Z.ltb_spec n 256).
    - rewrite Z.ones_spec_low by lia. by destruct (Z.testbit x n).
    - rewrite Z.ones_spec_high by lia. rewrite (Z.bits_above_log2 x n); [done|lia|].
      destruct (Z.eq_dec x 0) as [->|]; [cbn; lia|]. apply Z.log2_lt_pow2; [lia|].
      eapply Z.lt_le_trans; [exact H1|]. apply Z.pow_le_mono_r; lia. }
  pose proof (Z.add_nocarry_lxor _ _ Hd) as E.
  change (2 ^ 256 - 1) with (Z.ones 256).
  rewrite <- Z.lxor_assoc, Z.lxor_nilpotent, Z.lxor_0_l in E. lia.
Qed.

Lemma wrap_word x : word (wrap x).
Proof. unfold word, wrap, U256_MOD. apply Z.mod_pos_bound. lia. Qed.

Lemma wrap_id x : word x -> wrap x = x.
Proof. intros Hx. unfold wrap, U256_MOD. by apply Z.mod_small. Qed.

Lemma wrap_add_mod x k : wrap (x + k * 2 ^ 256) = wrap x.
Proof. unfold wrap, U256_MOD. by rewrite Z.mod_add by lia. Qed.

Lemma wrap_signed x : word x -> wrap (signed x) = x.
Proof.
  intros Hx. unfold signed. destruct (x <? 2 ^ 255); [by apply wrap_id|].
  replace (x - 2 ^ 256) with (x + (-1) * 2 ^ 256) by lia.
  rewrite wrap_add_mod. by apply wrap_id.
Qed.

Lemma signed_range x : word x -> - 2 ^ 255 <= signed x < 2 ^ 255.
Proof. unfold word, signed. destruct (x <? 2 ^ 255) eqn:E; bool_prop; pow2; lia. Qed.

Lemma signed_inj x y : word x -> word y -> signed x = signed y -> x = y.
Proof. intros Hx Hy E. rewrite <- (wrap_signed x), <- (wrap_signed y) by done. by rewrite E. Qed.

Lemma i256_neg_spec x : word x -> U256.i256_neg x = wrap (- x).
Proof.
  intros Hx. unfold U256.i256_neg. destruct (x =? 0) eqn:E; bool_prop; [by subst|].
  rewrite lnot256_spec by done. unfold U256_MAX.
  replace (- x) with (2 ^ 256 - x + (-1) * 2 ^ 256) by lia. rewrite wrap_add_mod, wrap_id; [lia|].
  unfold word in *. lia.
Qed.

(** Stripping the sign gives the absolute value. *)
Lemma strip_sign x : word x ->
  (if U256.i256_is_negative x then U256.i256_neg x else x) = Z.abs (signed x).
Proof.
  intros Hx. rewrite is_negative_spec, i256_neg_spec by done. unfold signed, word in *.
  destruct (x <? 2 ^ 255) eqn:E; bool_prop; cbn [negb]; [lia|].
  replace (- x) with (2 ^ 256 - x + (-1) * 2 ^ 256) by lia.
  rewrite wrap_add_mod, wrap_id; unfold word in *; pow2; lia.
Qed.

Lemma abs_signed_word x : word x -> word (Z.abs (signed x)).
Proof. intros Hx. pose proof (signed_range x Hx). unfold word. pow2. lia. Qed.

(** Restoring a sign. *)
Lemma restore_sign (s : bool) d : word d ->
  (if s then U256.i256_neg d else d) = wrap (if s then - d else d).
Proof. intros Hd. destruct s; [by apply i256_neg_spec|by rewrite wrap_id]. Qed.

Lemma signed_zero x : word x -> signed x = 0 <-> x = 0.
Proof.
  intros Hx. unfold signed, word in *. destruct (x <? 2 ^ 255) eqn:E; bool_prop; [done|].
  pow2. lia.
Qed.

Lemma quot_abs a b : b <> 0 ->
  Z.quot a b = if Bool.eqb (a <? 0) (b <? 0) then Z.abs a / Z.abs b else - (Z.abs a / Z.abs b).
Proof.
  intros Hb.
  destruct (a <? 0) eqn:Ea, (b <? 0) eqn:Eb; bool_prop; cbn [Bool.eqb].
  - rewrite <- Z.quot_opp_opp by done. rewrite Z.quot_div_nonneg by lia. by rewrite !Z.abs_neq by lia.
  - replace a with (- - a) at 1 by lia. rewrite Z.quot_opp_l by lia. rewrite Z.quot_div_nonneg by lia.
    by rewrite Z.abs_neq, Z.abs_eq by lia.
  - replace b with (- - b) at 1 by lia. rewrite Z.quot_opp_r by lia. rewrite Z.quot_div_nonneg by lia.
    by rewrite Z.abs_eq, Z.abs_neq by lia.
  - rewrite Z.quot_div_nonneg by lia. by rewrite !Z.abs_eq by lia.
Qed.

Lemma rem_abs a b : b <> 0 ->
  Z.rem a b = if a <? 0 then - (Z.abs a mod Z.abs b) else Z.abs a mod Z.abs b.
Proof.
  intros Hb. rewrite <- Z.rem_abs_r by done. destruct (a <? 0) eqn:Ea; bool_prop.
  - replace a with (- - a) at 1 by lia. rewrite Z.rem_opp_l, Z.rem_mod_nonneg by lia.
    by rewrite (Z.abs_neq a) by lia.
  - rewrite Z.rem_mod_nonneg by lia. by rewrite (Z.abs_eq a) by lia.
Qed.

(** ** The signed instructions *)

Lemma sdiv_spec a b : word a -> word b ->
  Arithmetic.sdiv a b = wrap (if b =? 0 then 0 else Z.quot (signed a) (signed b)).
Proof.
  intros Ha Hb. unfold Arithmetic.sdiv, U256.i256_div.
  destruct (b =? 0) eqn:Eb; [by rewrite orb_true_r|]. bool_prop. rewrite orb_false_r.
  destruct (a =? 0) eqn:Ea; bool_prop; [by subst|].
  rewrite !strip_sign, !is_negative_signed by done.
  assert (signed b <> 0) by (by rewrite signed_zero).
  rewrite quot_abs by done. set (d := Z.abs (signed a) / Z.abs (signed b)).
  assert (word d).
  { pose proof (abs_signed_word a Ha). unfold word, d in *. split; [apply Z.div_pos; lia|].
    eapply Z.le_lt_trans; [apply Z.div_le_upper_bound with (q := Z.abs (signed a)); nia|lia]. }
  destruct (Bool.eqb _ _).
  - rewrite orb_true_r. by rewrite wrap_id.
  - rewrite orb_false_r. destruct (d =? 0) eqn:Ed; bool_prop.
    + by rewrite Ed.
    + by apply i256_neg_spec.
Qed.

Lemma smod_spec a b : word a -> word b ->
  Arithmetic.smod a b = wrap (if b =? 0 then 0 else Z.rem (signed a) (signed b)).
Proof.
  intros Ha Hb. unfold Arithmetic.smod, U256.i256_mod.
  destruct (b =? 0) eqn:Eb; [by rewrite orb_true_r|]. bool_prop. rewrite orb_false_r.
  destruct (a =? 0) eqn:Ea; bool_prop; [by subst|].
  rewrite !strip_sign, is_negative_signed by done.
  assert (signed b <> 0) by (by rewrite signed_zero).
  rewrite rem_abs by done. set (r := Z.abs (signed a) mod Z.abs (signed b)).
  assert (word r).
  { pose proof (abs_signed_word b Hb). unfold word, r in *.
    pose proof (Z.mod_pos_bound (Z.abs (signed a)) (Z.abs (signed b))). lia. }
  destruct (signed a <? 0); cbn [andb]; [|by rewrite wrap_id].
  destruct (r =? 0) eqn:Er; bool_prop; cbn [negb]; [by rewrite Er|by apply i256_neg_spec].
Qed.

Lemma i256_cmp_spec a b : word a -> word b -> U256.i256_cmp a b = Z.compare (signed a) (signed b).
Proof.
  intros Ha Hb. unfold U256.i256_cmp. rewrite !is_negative_spec by done.
  unfold signed, word in *.
  destruct (a <? 2 ^ 255) eqn:Ea, (b <? 2 ^ 255) eqn:Eb; bool_prop; cbn.
  - done.
  - symmetry. apply Z.compare_gt_iff. lia.
  - symmetry. apply Z.compare_lt_iff. lia.
  - rewrite <- !Z.add_opp_r, !(Z.add_comm _ (- 2 ^ 256)). by rewrite Z.add_compare_mono_l.
Qed.

Lemma shiftr_signed_high x s : word x -> 256 <= s ->
  Z.shiftr (signed x) s = if signed x <? 0 then -1 else 0.
Proof.
  intros Hx Hs. pose proof (signed_range x Hx) as Hr.
  rewrite Z.shiftr_div_pow2 by lia.
  assert (2 ^ 256 <= 2 ^ s) by (apply Z.pow_le_mono_r; lia).
  destruct (signed x <? 0) eqn:E; bool_prop.
  - symmetry. apply Z.div_unique with (r := signed x + 2 ^ s); [|lia]. left.
    change (2 ^ 256) with (2 * 2 ^ 255) in *. lia.
  - apply Z.div_small. change (2 ^ 256) with (2 * 2 ^ 255) in *. lia.
Qed.

Lemma sar_spec s x : word s -> word x -> Bitwise.sar s x = wrap (Z.shiftr (signed x) s).
Proof.
  intros Hs Hx. unfold Bitwise.sar.
  rewrite strip_sign, is_negative_signed, ge_u64_spec by (try done; lia).
  pose proof (signed_range x Hx) as Hr.
  destruct (Z.abs (signed x) =? 0) eqn:E0; cbn [orb]; bool_prop.
  { assert (signed x = 0) as -> by lia. cbn [Z.ltb Z.compare]. by rewrite Z.shiftr_0_l. }
  destruct (s <? 256) eqn:Es; cbn [negb]; bool_prop.
  2:{ rewrite shiftr_signed_high by done. by destruct (signed x <? 0). }
  assert (U256.low_u32 s = s) as ->.
  { unfold U256.low_u32, word in *. rewrite Z.land_ones by lia. apply Z.mod_small. pow2. lia. }
  assert (0 <= s) by apply Hs. rewrite !Z.shiftr_div_pow2 by lia.
  assert (0 < 2 ^ s) by (apply Z.pow_pos_nonneg; lia).
  destruct (signed x <? 0) eqn:En; bool_prop.
  - rewrite Z.abs_neq by lia.
    assert (word (- signed x - 1)) by (unfold word; pow2; lia).
    rewrite (wrap_id (- signed x - 1)) by done.
    assert (0 <= (- signed x - 1) / 2 ^ s <= - signed x - 1).
    { split; [apply Z.div_pos; lia|]. apply Z.div_le_upper_bound; nia. }
    assert (word ((- signed x - 1) / 2 ^ s + 1)) by (unfold word; pow2; lia).
    rewrite wrap_id, i256_neg_spec by done. f_equal.
    replace (- signed x - 1) with (Z.lnot (signed x)) by (unfold Z.lnot; lia).
    rewrite <- !Z.shiftr_div_pow2 by lia. rewrite <- Z.lnot_shiftr by lia. unfold Z.lnot. lia.
  - rewrite Z.abs_eq by lia. rewrite wrap_id; [done|].
    unfold word. split; [apply Z.div_pos; lia|].
    apply Z.le_lt_trans with (signed x); [apply Z.div_le_upper_bound; nia|pow2; lia].
Qed.

(** ** Bits *)

Lemma testbit_high x n : word x -> 256 <= n -> Z.testbit x n = false.
Proof.
  intros [H0 H1] Hn. destruct (Z.eq_dec x 0) as [->|]; [apply Z.bits_0|].
  apply Z.bits_above_log2; [lia|]. apply Z.log2_lt_pow2; [lia|].
  eapply Z.lt_le_trans; [exact H1|]. apply Z.pow_le_mono_r; lia.
Qed.

(** The sign extension of the low [n] bits of [x]. *)
Definition sext (n x : Z) : Z :=
  let l := x mod 2 ^ n in if l <? 2 ^ (n - 1) then l else l - 2 ^ n.

Lemma low_bits_top x n : 0 < n ->
  Z.testbit x (n - 1) = negb (x mod 2 ^ n <? 2 ^ (n - 1)).
Proof.
  intros Hn. rewrite <- (Z.mod_pow2_bits_low x n) by lia.
  pose proof (Z.mod_pos_bound x (2 ^ n) ltac:(lia)) as Hb.
  assert (2 ^ n = 2 * 2 ^ (n - 1)) as E.
  { rewrite <- Z.pow_succ_r by lia. f_equal. lia. }
  destruct (x mod 2 ^ n <? 2 ^ (n - 1)) eqn:El; bool_prop; cbn.
  - destruct (Z.eq_dec (x mod 2 ^ n) 0) as [->|]; [apply Z.bits_0|].
    apply Z.bits_above_log2; [lia|]. apply Z.log2_lt_pow2; lia.
  - apply Z.testbit_true; [lia|].
    rewrite <- (Z.div_unique (x mod 2 ^ n) (2 ^ (n - 1)) 1 (x mod 2 ^ n - 2 ^ (n - 1))); [done|lia|lia].
Qed.

Lemma signextend_spec a b : word a -> word b ->
  Arithmetic.signextend a b = if a <? 32 then wrap (sext (8 * (a + 1)) b) else b.
Proof.
  intros Ha Hb. unfold Arithmetic.signextend. rewrite lt_u64_spec by (try done; lia).
  destruct (a <? 32) eqn:Ea; [|done]. bool_prop. destruct Ha as [Ha0 _].
  assert (U256.low_u32 a = a) as ->.
  { unfold U256.low_u32. rewrite Z.land_ones by lia. apply Z.mod_small. pow2. lia. }
  set (n := 8 * (a + 1)). replace (8 * a + 7) with (n - 1) by lia.
  assert (8 <= n <= 256) as Hn by lia.
  assert (Z.shiftr U256_MAX (256 - (n - 1)) = Z.ones (n - 1)) as ->.
  { change U256_MAX with (Z.ones 256). rewrite Z.shiftr_div_pow2 by lia.
    rewrite Z.ones_div_pow2 by lia. f_equal. lia. }
  rewrite low_bits_top by lia. unfold sext.
  pose proof (Z.mod_pos_bound b (2 ^ n) ltac:(lia)) as Hl.
  assert (2 ^ n = 2 * 2 ^ (n - 1)) as E2.
  { rewrite <- Z.pow_succ_r by lia. f_equal. lia. }
  assert (2 ^ n <= 2 ^ 256) by (apply Z.pow_le_mono_r; lia).
  assert (b mod 2 ^ (n - 1) = b mod 2 ^ n mod 2 ^ (n - 1)) as Emod.
  { apply Znumtheory.Zmod_div_mod; [lia..|]. exists 2. lia. }
  destruct (b mod 2 ^ n <? 2 ^ (n - 1)) eqn:El; bool_prop; cbn [negb].
  - rewrite Z.land_ones, Emod, (Z.mod_small (b mod 2 ^ n)) by lia. rewrite wrap_id; [done|].
    unfold word. lia.
  - apply Z.bits_inj'. intros i Hi. rewrite Z.lor_spec. unfold lnot256. rewrite Z.lxor_spec.
    replace (b mod 2 ^ n - 2 ^ n) with (b mod 2 ^ n + (-1) * 2 ^ n) by lia.
    unfold wrap, U256_MOD. change U256_MAX with (Z.ones 256).
    destruct (Z.ltb_spec i 256).
    2:{ rewrite testbit_high, !Z.ones_spec_high by (done || lia).
        by rewrite Z.mod_pow2_bits_high by lia. }
    rewrite Z.mod_pow2_bits_low, (Z.ones_spec_low 256) by lia.
    destruct (Z.ltb_spec i (n - 1)).
    + rewrite Z.ones_spec_low by lia. rewrite orb_false_r.
      rewrite <- (Z.mod_pow2_bits_low (b mod 2 ^ n + -1 * 2 ^ n) n) by lia.
      rewrite Z.mod_add, Z.mod_mod by lia. by rewrite Z.mod_pow2_bits_low by lia.
    + rewrite Z.ones_spec_high by lia. rewrite orb_true_r. symmetry.
      assert (Z.testbit (Z.lnot (b mod 2 ^ n + -1 * 2 ^ n)) i = false) as Hnot.
      { unfold Z.lnot. set (y := Z.pred _). destruct (Z.eq_dec y 0) as [->|]; [apply Z.bits_0|].
        apply Z.bits_above_log2; [lia|].
        apply Z.lt_le_trans with (n - 1); [|lia]. apply Z.log2_lt_pow2; lia. }
      rewrite Z.lnot_spec in Hnot by lia. by apply negb_false_iff in Hnot.
Qed.

(** ** Modular arithmetic *)

Lemma testbit_limb i x n : 0 <= i -> 0 <= n ->
  Z.testbit (Z.shiftl (limb i x) (64 * i)) n
  = ((64 * i <=? n) && (n <? 64 * (i + 1))) && Z.testbit x n.
Proof.
  intros Hi Hn. unfold limb. rewrite Z.shiftl_spec, Z.land_spec by lia.
  destruct (Z.leb_spec (64 * i) n); cbn [andb].
  - rewrite Z.shiftr_spec by lia. replace (n - 64 * i + 64 * i) with n by lia.
    destruct (Z.ltb_spec n (64 * (i + 1))).
    + rewrite Z.ones_spec_low by lia. by rewrite andb_true_r.
    + rewrite Z.ones_spec_high by lia. by rewrite andb_false_r.
  - by rewrite !Z.testbit_neg_r by lia.
Qed.

Lemma low_u256_word x : word x -> U256.low_u256 x = x.
Proof.
  intros Hx. unfold U256.low_u256. apply Z.bits_inj'. intros n Hn. rewrite !Z.lor_spec.
  rewrite <- (Z.shiftl_0_r (limb 0 x)).
  rewrite (testbit_limb 0), (testbit_limb 1), (testbit_limb 2), (testbit_limb 3) by lia.
  destruct (Z.ltb_spec n 256) as [Hn'|Hn'].
  - destruct (Z.testbit x n); rewrite ?andb_false_r; [|done]. rewrite !andb_true_r.
    apply orb_true_iff. rewrite !orb_true_iff, !andb_true_iff. lia.
  - rewrite (testbit_high x n) by done. by rewrite !andb_false_r.
Qed.

Lemma mod_word x c : 0 < c -> word c -> word (x mod c).
Proof. intros Hc [_ Hw]. pose proof (Z.mod_pos_bound x c Hc). unfold word. lia. Qed.

Lemma addmod_spec a b c : word c ->
  Arithmetic.addmod a b c = if c =? 0 then 0 else (a + b) mod c.
Proof.
  intros Hc. unfold Arithmetic.addmod. destruct (c =? 0) eqn:E; bool_prop; [done|]. cbn [negb].
  apply low_u256_word, mod_word; [unfold word in Hc; lia|done].
Qed.

Lemma mulmod_spec a b c : word c ->
  Arithmetic.mulmod a b c = if c =? 0 then 0 else (a * b) mod c.
Proof.
  intros Hc. unfold Arithmetic.mulmod. destruct (c =? 0) eqn:E; bool_prop; [done|]. cbn [negb].
  apply low_u256_word, mod_word; [unfold word in Hc; lia|done].
Qed.

(** ** Exponentiation *)

Lemma wrap_mul_l a b : wrap (wrap a * b) = wrap (a * b).
Proof. unfold wrap, U256_MOD. by rewrite Z.mul_mod_idemp_l by lia. Qed.

Lemma wrap_mul_r a b : wrap (a * wrap b) = wrap (a * b).
Proof. unfold wrap, U256_MOD. by rewrite Z.mul_mod_idemp_r by lia. Qed.

Lemma wrap_wrap a : wrap (wrap a) = wrap a.
Proof. apply wrap_id, wrap_word. Qed.

Lemma wrap_pow a n : wrap (wrap a ^ Z.of_nat n) = wrap (a ^ Z.of_nat n).
Proof.
  induction n as [|n IH]; [done|].
  rewrite Nat2Z.inj_succ, !Z.pow_succ_r by lia.
  rewrite wrap_mul_l, <- wrap_mul_r, IH. by rewrite wrap_mul_r.
Qed.

Lemma wrap_pow' a n : 0 <= n -> wrap (wrap a ^ n) = wrap (a ^ n).
Proof. intros Hn. rewrite <- (Z2Nat.id n) by lia. apply wrap_pow. Qed.

(** The inner loop multiplies [v] by [base] to the [n] low bits of [w], and
    squares [base] [n] times. *)
Lemma exp_word_spec n : forall w v base, 0 <= w ->
  wrap (fst (Arithmetic.exp_word n w v base)) = wrap (v * base ^ (w mod 2 ^ Z.of_nat n)) /\
  wrap (snd (Arithmetic.exp_word n w v base)) = wrap (base ^ (2 ^ Z.of_nat n)).
Proof.
  induction n as [|n IH]; intros w v base Hw.
  - cbn [Arithmetic.exp_word fst snd]. change (2 ^ Z.of_nat 0) with 1. rewrite Z.mod_1_r, Z.pow_0_r, Z.pow_1_r.
    by rewrite Z.mul_1_r.
  - cbn [Arithmetic.exp_word].
    destruct (IH (Z.shiftr w 1) (if negb (Z.land w 1 =? 0) then wrap (v * base) else v)
      (wrap (base * base))) as [IH1 IH2]; [by apply Z.shiftr_nonneg|].
    rewrite IH1, IH2. clear IH IH1 IH2.
    rewrite Nat2Z.inj_succ, Z.pow_succ_r by lia. set (p := 2 ^ Z.of_nat n).
    assert (0 < p) by (apply Z.pow_pos_nonneg; lia).
    split.
    + rewrite Z.shiftr_div_pow2 by lia. change (2 ^ 1) with 2.
      assert (w mod (2 * p) = w mod 2 + 2 * ((w / 2) mod p)) as ->.
      { apply Z.rem_mul_r; lia. }
      pose proof (Z.mod_pos_bound (w / 2) p ltac:(lia)) as Hq.
      rewrite Z.pow_add_r, Z.pow_mul_r by (pose proof (Z.mod_pos_bound w 2); lia).
      change (Z.land w 1) with (Z.land w (Z.ones 1)). rewrite Z.land_ones by lia.
      change (2 ^ 1) with 2. set (q := (w / 2) mod p) in *.
      rewrite <- wrap_mul_r, wrap_pow', wrap_mul_r by lia.
      replace (base ^ 2) with (base * base) by lia.
      pose proof (Z.mod_pos_bound w 2 ltac:(lia)).
      destruct (w mod 2 =? 0) eqn:Ew; bool_prop; cbn [negb].
      * rewrite Ew, Z.pow_0_r. f_equal. ring.
      * replace (w mod 2) with 1 by lia. rewrite Z.pow_1_r, wrap_mul_l. f_equal. ring.
    + rewrite wrap_pow', Z.pow_mul_r by lia. by replace (base ^ 2) with (base * base) by lia.
Qed.

Lemma exp_word_word n : forall w v base, word v -> word (fst (Arithmetic.exp_word n w v base)).
Proof.
  induction n as [|n IH]; intros w v base Hv; cbn [Arithmetic.exp_word]; [done|].
  apply IH. destruct (negb _); [apply wrap_word|done].
Qed.

(** What the outer loop of [exp] has computed after the bits below [p]. *)
Definition exp_inv (b0 power p : Z) (st : Z * Z) : Prop :=
  word (fst st) /\ wrap (fst st) = wrap (b0 ^ (power mod 2 ^ p)) /\ wrap (snd st) = wrap (b0 ^ (2 ^ p)).

Lemma exp_word_inv b0 power p c w v base : 0 <= power -> 0 <= p -> 0 <= w -> 0 <= c ->
  w mod 2 ^ c = (power / 2 ^ p) mod 2 ^ c ->
  exp_inv b0 power p (v, base) ->
  exp_inv b0 power (p + c) (Arithmetic.exp_word (Z.to_nat c) w v base).
Proof.
  intros Hpow Hp Hw Hc Hbits (Hvw & Hv & Hb). cbn [fst snd] in *.
  destruct (exp_word_spec (Z.to_nat c) w v base Hw) as [E1 E2].
  rewrite Z2Nat.id in E1, E2 by lia.
  assert (0 < 2 ^ p) by (apply Z.pow_pos_nonneg; lia).
  assert (0 < 2 ^ c) by (apply Z.pow_pos_nonneg; lia).
  split; [by apply exp_word_word|]. split.
  - rewrite E1, Hbits, Z.pow_add_r, Z.rem_mul_r by lia.
    pose proof (Z.mod_pos_bound power (2 ^ p)). pose proof (Z.mod_pos_bound (power / 2 ^ p) (2 ^ c)).
    rewrite Z.pow_add_r, Z.pow_mul_r by lia.
    rewrite <- wrap_mul_l, Hv, wrap_mul_l, <- wrap_mul_r, <- wrap_pow', Hb, wrap_pow', wrap_mul_r
      by lia. done.
  - rewrite E2, Z.pow_add_r, Z.pow_mul_r by lia.
    rewrite <- wrap_pow', Hb, wrap_pow' by lia. done.
Qed.

Lemma bits_bound x : 0 <= x -> x < 2 ^ bits x.
Proof.
  intros Hx. unfold bits. destruct (x =? 0) eqn:E; bool_prop; [subst; done|].
  pose proof (Z.log2_spec x ltac:(lia)). rewrite <- Z.add_1_r in *. lia.
Qed.

Lemma bits_range x : word x -> 0 <= bits x <= 256.
Proof.
  intros [H0 H1]. unfold bits. destruct (x =? 0) eqn:E; bool_prop; [lia|].
  pose proof (Z.log2_nonneg x). pose proof (Z.log2_lt_pow2 x 256 ltac:(lia)). lia.
Qed.

Lemma exp_step_inv b0 power rb i v base : 0 <= power -> 0 <= rb -> 0 <= i ->
  exp_inv b0 power (Z.min (64 * i) rb) (v, base) ->
  exists v' base',
    Arithmetic.exp_step (v, base, Z.max 0 (rb - 64 * i)) (limb i power)
      = (v', base', Z.max 0 (rb - 64 * (i + 1))) /\
    exp_inv b0 power (Z.min (64 * (i + 1)) rb) (v', base').
Proof.
  intros Hpow Hrb Hi Hinv. unfold Arithmetic.exp_step. set (c := Z.min 64 (Z.max 0 (rb - 64 * i))).
  assert (exp_inv b0 power (Z.min (64 * i) rb + c)
    (Arithmetic.exp_word (Z.to_nat c) (limb i power) v base)) as H.
  { apply exp_word_inv; try lia; [apply limb_range; lia| |done].
    rewrite limb_spec by lia. destruct (Z.le_gt_cases rb (64 * i)) as [Hle|Hgt].
    - replace c with 0 by lia. by rewrite !Z.mod_1_r.
    - replace (Z.min (64 * i) rb) with (64 * i) by lia. symmetry.
      apply Znumtheory.Zmod_div_mod; [apply Z.pow_pos_nonneg; lia..|].
      exists (2 ^ (64 - c)). rewrite <- Z.pow_add_r by lia. f_equal. lia. }
  destruct (Arithmetic.exp_word _ _ _ _) as [v' base']. exists v', base'.
  replace (Z.min (64 * (i + 1)) rb) with (Z.min (64 * i) rb + c) by lia.
  split; [|done]. f_equal. lia.
Qed.

Lemma exp_spec base power : word base -> word power ->
  Arithmetic.exp base power = wrap (base ^ power).
Proof.
  intros Hb Hp. unfold Arithmetic.exp, leading_zeros.
  replace (256 - (256 - bits power)) with (Z.max 0 (bits power - 64 * 0))
    by (pose proof (bits_range power Hp); lia).
  cbn [foldl].
  pose proof (bits_range power Hp). assert (0 <= power) by apply Hp.
  destruct (exp_step_inv base power (bits power) 0 1 base) as (v1 & b1 & -> & H1); try lia.
  { replace (Z.min (64 * 0) (bits power)) with 0 by lia. split; [done|]. split; cbn [fst snd].
    - by rewrite Z.mod_1_r, Z.pow_0_r.
    - by rewrite Z.pow_0_r, Z.pow_1_r. }
  change (0 + 1) with 1 in *.
  destruct (exp_step_inv base power (bits power) 1 v1 b1) as (v2 & b2 & -> & H2); try lia; [done|].
  change (1 + 1) with 2 in *.
  destruct (exp_step_inv base power (bits power) 2 v2 b2) as (v3 & b3 & -> & H3); try lia; [done|].
  change (2 + 1) with 3 in *.
  destruct (exp_step_inv base power (bits power) 3 v3 b3) as (v4 & b4 & -> & H4); try lia; [done|].
  replace (Z.min (64 * (3 + 1)) (bits power)) with (bits power) in H4 by lia.
  destruct H4 as (Hw & H4 & _). cbn [fst] in Hw, H4.
  rewrite Z.mod_small in H4 by (split; [lia|by apply bits_bound]). by rewrite <- H4, wrap_id.
Qed.

(** ** Bytes *)

Lemma be_bytes_length n x : length (be_bytes n x) = n.
Proof.
  revert x. induction n as [|n IH]; intros x; [done|].
  cbn [be_bytes]. rewrite length_app, IH. cbn. lia.
Qed.

Lemma be_bytes_bytes n x : bytes (be_bytes n x).
Proof.
  revert x. induction n as [|n IH]; intros x; cbn [be_bytes]; [constructor|].
  apply Forall_app. split; [apply IH|]. repeat constructor; apply Z.mod_pos_bound; lia.
Qed.

Lemma from_big_endian_snoc l b : from_big_endian (l ++ [b]) = from_big_endian l * 256 + b.
Proof. unfold from_big_endian. by rewrite foldl_app. Qed.

(** Decoding the low bytes of [x] gives the low part of [x]. *)
Lemma from_be_bytes n x : from_big_endian (be_bytes n x) = x mod 256 ^ Z.of_nat n.
Proof.
  revert x. induction n as [|n IH]; intros x.
  - cbn [be_bytes]. by rewrite Z.mod_1_r.
  - cbn [be_bytes]. rewrite from_big_endian_snoc, IH.
    assert (0 < 256 ^ Z.of_nat n) by (apply Z.pow_pos_nonneg; lia).
    rewrite Nat2Z.inj_succ, Z.pow_succ_r, Z.rem_mul_r by lia. lia.
Qed.

Lemma from_big_endian_range l : bytes l ->
  0 <= from_big_endian l < 256 ^ Z.of_nat (length l).
Proof.
  induction l as [|b l IH] using rev_ind; intros Hl; [done|].
  apply Forall_app in Hl as [Hl [Hb _]%Forall_cons]. specialize (IH Hl).
  rewrite from_big_endian_snoc, length_app, Nat2Z.inj_add, Z.pow_add_r by lia.
  change (256 ^ Z.of_nat (length [b])) with 256. unfold is_byte in Hb. lia.
Qed.

(** Encoding the value of a byte string of the right length gives it back. *)
Lemma be_bytes_from l : bytes l -> be_bytes (length l) (from_big_endian l) = l.
Proof.
  induction l as [|b l IH] using rev_ind; intros Hl; [done|].
  apply Forall_app in Hl as [Hl [Hb _]%Forall_cons]. unfold is_byte in Hb.
  rewrite length_app, Nat.add_1_r. cbn [be_bytes length].
  rewrite from_big_endian_snoc, Z.add_comm, Z.div_add, Z.mod_add by lia.
  rewrite Z.div_small, Z.mod_small by lia. by rewrite Z.add_0_l, IH.
Qed.

Lemma pow_256_32 : 256 ^ Z.of_nat 32 = 2 ^ 256.
Proof. reflexivity. Qed.

Lemma from_to_big_endian x : word x -> from_big_endian (to_big_endian x) = x.
Proof.
  intros Hx. unfold to_big_endian. rewrite from_be_bytes, pow_256_32. by apply Z.mod_small.
Qed.

Lemma to_from_big_endian l : bytes l -> length l = 32%nat ->
  to_big_endian (from_big_endian l) = l.
Proof. intros Hl Hn. unfold to_big_endian. rewrite <- Hn. by apply be_bytes_from. Qed.

Lemma from_big_endian_word l : bytes l -> (length l <= 32)%nat -> word (from_big_endian l).
Proof.
  intros Hl Hn. pose proof (from_big_endian_range l Hl) as [H0 H1]. split; [done|].
  eapply Z.lt_le_trans; [exact H1|]. rewrite <- pow_256_32. apply Z.pow_le_mono_r; lia.
Qed.

Lemma foldl_be l acc :
  foldl (fun acc b => acc * 256 + b) acc l = acc * 256 ^ Z.of_nat (length l) + from_big_endian l.
Proof.
  revert acc. induction l as [|b l IH] using rev_ind; intros acc; [cbn; lia|].
  rewrite foldl_app, IH, from_big_endian_snoc, length_app, Nat2Z.inj_add, Z.pow_add_r by lia.
  cbn. lia.
Qed.

Lemma from_big_endian_cons b l :
  from_big_endian (b :: l) = b * 256 ^ Z.of_nat (length l) + from_big_endian l.
Proof. unfold from_big_endian at 1. cbn [foldl]. by rewrite foldl_be. Qed.

Lemma zeroless_value l : from_big_endian (zeroless_view l) = from_big_endian l.
Proof.
  induction l as [|b l IH]; cbn [zeroless_view]; [done|].
  destruct (b =? 0) eqn:E; bool_prop; [|done]. subst. rewrite IH, from_big_endian_cons. lia.
Qed.

Lemma zeroless_length l : (length (zeroless_view l) <= length l)%nat.
Proof. induction l as [|b l IH]; cbn; [done|]. destruct (b =? 0); cbn; lia. Qed.

Lemma zeroless_head l : head (zeroless_view l) <> Some 0.
Proof.
  induction l as [|b l IH]; cbn [zeroless_view]; [done|].
  destruct (b =? 0) eqn:E; bool_prop; [done|]. cbn. congruence.
Qed.

Lemma zeroless_bytes l : bytes l -> bytes (zeroless_view l).
Proof.
  induction 1 as [|b l Hb Hl IH]; cbn [zeroless_view]; [constructor|].
  destruct (b =? 0); [done|by constructor].
Qed.

(** Byte strings without a leading zero are determined by their value. *)
Lemma zeroless_unique l k : bytes l -> bytes k -> head l <> Some 0 -> head k <> Some 0 ->
  from_big_endian l = from_big_endian k -> l = k.
Proof.
  intros Hl Hk Hl0 Hk0 E.
  assert (forall l, bytes l -> head l <> Some 0 -> l <> [] ->
    256 ^ (Z.of_nat (length l) - 1) <= from_big_endian l) as Hlow.
  { intros [|b l'] Hb H0 Hn; [done|]. apply Forall_cons in Hb as [Hb Hb']. unfold is_byte in Hb.
    rewrite from_big_endian_cons. pose proof (from_big_endian_range l' Hb').
    assert (b <> 0) by (intros ->; by apply H0). cbn [length].
    replace (Z.of_nat (S (length l')) - 1) with (Z.of_nat (length l')) by lia. nia. }
  assert (forall l k, bytes l -> bytes k -> head l <> Some 0 -> (length k < length l)%nat ->
    from_big_endian l <> from_big_endian k) as Hlen.
  { intros l' k' Hl' Hk' H0 Hn E'. specialize (Hlow l' Hl' H0 ltac:(by destruct l'; cbn in *; [lia|])).
    pose proof (from_big_endian_range k' Hk') as [_ Hr].
    pose proof (Z.pow_le_mono_r 256 (Z.of_nat (length k')) (Z.of_nat (length l') - 1)). lia. }
  destruct (Nat.lt_trichotomy (length l) (length k)) as [Hn|[Hn|Hn]].
  - exfalso. by apply (Hlen k l).
  - rewrite <- (be_bytes_from l), <- (be_bytes_from k) by done. by rewrite Hn, E.
  - exfalso. by apply (Hlen l k).
Qed.

Lemma be_bytes_lookup n x i : (i < n)%nat ->
  be_bytes n x !! i = Some ((x / 256 ^ Z.of_nat (n - 1 - i)) mod 256).
Proof.
  revert x i. induction n as [|n IH]; intros x i Hi; [lia|]. cbn [be_bytes].
  destruct (decide (i < n)%nat) as [Hlt|Hge].
  - rewrite lookup_app_l by (rewrite be_bytes_length; lia). rewrite IH by done. do 2 f_equal.
    rewrite Z.div_div, <- Z.pow_succ_r by (try apply Z.pow_pos_nonneg; lia). do 2 f_equal. lia.
  - assert (i = n) as -> by lia. rewrite lookup_app_r; rewrite be_bytes_length; [|lia].
    rewrite Nat.sub_diag. cbn. replace (n - 0 - n)%nat with 0%nat by lia.
    by rewrite Z.pow_0_r, Z.div_1_r.
Qed.

Lemma byte_spec i x : word i -> word x ->
  Bitwise.byte i x =
    if i <? 32 then default 0 (to_big_endian x !! Z.to_nat i) else 0.
Proof.
  intros Hi Hx. unfold Bitwise.byte, U256.low_u64. rewrite ge_u64_spec by (try done; lia).
  destruct (i <? 32) eqn:E; [|done]. bool_prop. cbn [negb]. destruct Hi as [Hi _].
  rewrite limb0, (Z.mod_small i) by (pow2; lia).
  unfold to_big_endian. rewrite be_bytes_lookup by lia. cbn [default].
  change 255 with (Z.ones 8). rewrite Z.land_ones, Z.shiftr_div_pow2 by lia.
  rewrite Z.pow_mul_r by lia. change (2 ^ 8) with 256. unfold id. do 3 f_equal. lia.
Qed.

Lemma shl_spec s x : word s -> word x -> Bitwise.shl s x = wrap (x * 2 ^ s).
Proof.
  intros Hs Hx. unfold Bitwise.shl. rewrite ge_u64_spec by (try done; lia).
  destruct (x =? 0) eqn:E0; bool_prop; cbn [orb]; [by subst|].
  assert (0 <= s) by apply Hs.
  destruct (s <? 256) eqn:Es; bool_prop; cbn [negb]; [by rewrite Z.shiftl_mul_pow2|].
  replace s with (s - 256 + 256) by lia. rewrite Z.pow_add_r, Z.mul_assoc by lia.
  unfold wrap, U256_MOD. by rewrite Z.mod_mul.
Qed.

Lemma shr_spec s x : word s -> word x -> Bitwise.shr s x = x / 2 ^ s.
Proof.
  intros Hs Hx. unfold Bitwise.shr. rewrite ge_u64_spec by (try done; lia).
  assert (0 <= s) by apply Hs.
  destruct (x =? 0) eqn:E0; bool_prop; cbn [orb]; [subst; by rewrite Z.div_0_l by lia|].
  destruct (s <? 256) eqn:Es; bool_prop; cbn [negb]; [by rewrite Z.shiftr_div_pow2|].
  symmetry. apply Z.div_small. unfold word in *.
  assert (2 ^ 256 <= 2 ^ s) by (apply Z.pow_le_mono_r; lia). lia.
Qed.

(** ** The pure instructions produce words *)

Lemma word_b2z b : word (Z.b2z b).
Proof. by destruct b. Qed.

Lemma word_bitop (f : Z -> Z -> Z) a b :
  (forall n, 256 <= n -> Z.testbit (f a b) n = false) -> 0 <= f a b -> word (f a b).
Proof.
  intros Hf H0. split; [done|]. destruct (Z.eq_dec (f a b) 0) as [->|]; [done|].
  apply Z.log2_lt_pow2; [lia|]. apply Z.nle_gt. intros Hl.
  pose proof (Z.bit_log2 (f a b) ltac:(lia)) as Hb. rewrite Hf in Hb; done.
Qed.

Lemma word_and a b : word a -> word b -> word (Boolean.and a b).
Proof.
  intros Ha Hb. apply (word_bitop Z.land).
  - intros n Hn. rewrite Z.land_spec, (testbit_high a) by done. done.
  - apply Z.land_nonneg. left. apply Ha.
Qed.

Lemma word_or a b : word a -> word b -> word (Boolean.or a b).
Proof.
  intros Ha Hb. apply (word_bitop Z.lor).
  - intros n Hn. by rewrite Z.lor_spec, !testbit_high by done.
  - apply Z.lor_nonneg. split; [apply Ha|apply Hb].
Qed.

Lemma word_xor a b : word a -> word b -> word (Boolean.xor a b).
Proof.
  intros Ha Hb. apply (word_bitop Z.lxor).
  - intros n Hn. by rewrite Z.lxor_spec, !testbit_high by done.
  - apply Z.lxor_nonneg. split; intros; [apply Hb|apply Ha].
Qed.

Lemma word_not a : word a -> word (Boolean.not a).
Proof. intros Ha. unfold Boolean.not. rewrite lnot256_spec by done. unfold word, U256_MAX in *. lia. Qed.

Lemma word_div a b : word a -> word b -> word (Arithmetic.div a b).
Proof.
  intros Ha Hb. unfold Arithmetic.div. destruct (b =? 0) eqn:E; cbn; [done|]. bool_prop.
  unfold word in *. split; [apply Z.div_pos; lia|].
  apply Z.le_lt_trans with a; [apply Z.div_le_upper_bound; nia|lia].
Qed.

Lemma word_modulo a b : word a -> word b -> word (Arithmetic.modulo a b).
Proof.
  intros Ha Hb. unfold Arithmetic.modulo. destruct (b =? 0) eqn:E; cbn; [done|]. bool_prop.
  apply mod_word; [unfold word in Hb; lia|done].
Qed.

Lemma word_addmod a b c : word c -> word (Arithmetic.addmod a b c).
Proof.
  intros Hc. rewrite addmod_spec by done. destruct (c =? 0) eqn:E; [done|]. bool_prop.
  apply mod_word; [unfold word in Hc; lia|done].
Qed.

Lemma word_mulmod a b c : word c -> word (Arithmetic.mulmod a b c).
Proof.
  intros Hc. rewrite mulmod_spec by done. destruct (c =? 0) eqn:E; [done|]. bool_prop.
  apply mod_word; [unfold word in Hc; lia|done].
Qed.

Lemma word_sdiv a b : word a -> word b -> word (Arithmetic.sdiv a b).
Proof. intros. rewrite sdiv_spec by done. apply wrap_word. Qed.

Lemma word_smod a b : word a -> word b -> word (Arithmetic.smod a b).
Proof. intros. rewrite smod_spec by done. apply wrap_word. Qed.

Lemma word_exp a b : word a -> word b -> word (Arithmetic.exp a b).
Proof. intros. rewrite exp_spec by done. apply wrap_word. Qed.

Lemma word_signextend a b : word a -> word b -> word (Arithmetic.signextend a b).
Proof. intros. rewrite signextend_spec by done. destruct (a <? 32); [apply wrap_word|done]. Qed.

Lemma word_sar a b : word a -> word b -> word (Bitwise.sar a b).
Proof. intros. rewrite sar_spec by done. apply wrap_word. Qed.

Lemma word_shl a b : word a -> word b -> word (Bitwise.shl a b).
Proof. intros. rewrite shl_spec by done. apply wrap_word. Qed.

Lemma word_shr a b : word a -> word b -> word (Bitwise.shr a b).
Proof.
  intros Ha Hb. rewrite shr_spec by done. unfold word in *.
  assert (0 < 2 ^ a) by (apply Z.pow_pos_nonneg; lia).
  split; [apply Z.div_pos; lia|]. apply Z.le_lt_trans with b; [apply Z.div_le_upper_bound; nia|lia].
Qed.

Lemma word_byte a b : word a -> word b -> word (Bitwise.byte a b).
Proof.
  intros Ha Hb. rewrite byte_spec by done. destruct (a <? 32); [|done].
  destruct (to_big_endian b !! Z.to_nat a) as [v|] eqn:E; cbn; [|done].
  pose proof (be_bytes_bytes 32 b) as Hbs. eapply Forall_lookup_1 in Hbs; [|exact E].
  unfold is_byte, word in *. pow2. lia.
Qed.

Lemma word_add a b : word (Arithmetic.add a b).
Proof. apply wrap_word. Qed.

Lemma word_mul a b : word (Arithmetic.mul a b).
Proof. apply wrap_word. Qed.

Lemma word_sub a b : word (Arithmetic.sub a b).
Proof. apply wrap_word. Qed.

Lemma word_cmp a b : word (Boolean.lt a b) /\ word (Boolean.gt a b) /\ word (Boolean.slt a b) /\
  word (Boolean.sgt a b) /\ word (Boolean.eq a b) /\ word (Boolean.iszero a).
Proof. repeat apply conj; apply word_b2z. Qed.

(** The hints apply to the instructions by name, without computing them. *)
Create HintDb words discriminated.
#[export] Hint Constants Opaque : words.
#[export] Hint Resolve word_add word_mul word_sub word_and word_or word_xor word_not word_div
  word_modulo word_addmod word_mulmod word_sdiv word_smod word_exp word_signextend word_sar word_shl
  word_shr word_byte : words.

(** ** Properties *)

(** C17: the arithmetic instructions of the interpreter compute the EVM's
    arithmetic.  On words, the signed ones (SDIV, SMOD, SLT, SGT, SAR,
    SIGNEXTEND) agree with truncated division, remainder, comparison,
    arithmetic shift and sign extension of the two's complement values, at
    the boundary [-2^255 / -1] too; ADDMOD and MULMOD do not wrap in between;
    the limb-by-limb square-and-multiply loop of EXP computes the power modulo
    [2^256]. *)
Theorem evm_arithmetic_spec a b c : word a -> word b -> word c ->
  Arithmetic.sdiv a b = wrap (if b =? 0 then 0 else Z.quot (signed a) (signed b)) /\
  Arithmetic.smod a b = wrap (if b =? 0 then 0 else Z.rem (signed a) (signed b)) /\
  Boolean.slt a b = Z.b2z (signed a <? signed b) /\
  Boolean.sgt a b = Z.b2z (signed a >? signed b) /\
  Bitwise.sar a b = wrap (Z.shiftr (signed b) a) /\
  Arithmetic.signextend a b = (if a <? 32 then wrap (sext (8 * (a + 1)) b) else b) /\
  Arithmetic.addmod a b c = (if c =? 0 then 0 else (a + b) mod c) /\
  Arithmetic.mulmod a b c = (if c =? 0 then 0 else (a * b) mod c) /\
  Arithmetic.exp a b = wrap (a ^ b) /\
  Bitwise.byte a b = (if a <? 32 then default 0 (to_big_endian b !! Z.to_nat a) else 0) /\
  Bitwise.shl a b = wrap (b * 2 ^ a) /\
  Bitwise.shr a b = b / 2 ^ a.
Proof.
  intros Ha Hb Hc. unfold Boolean.slt, Boolean.sgt, Z.ltb, Z.gtb.
  rewrite !i256_cmp_spec by done.
  repeat split; eauto using sdiv_spec, smod_spec, sar_spec, signextend_spec, addmod_spec,
    mulmod_spec, exp_spec, byte_spec, shl_spec, shr_spec.
Qed.

Lemma evm_arithmetic_spec_witness :
  Arithmetic.sdiv (2 ^ 255) U256_MAX = 2 ^ 255 /\ Arithmetic.exp 3 (2 ^ 255 + 1) = wrap (3 ^ (2 ^ 255 + 1)).
Proof.
  split.
  - rewrite (proj1 (evm_arithmetic_spec (2 ^ 255) U256_MAX 0 ltac:(done) ltac:(done) ltac:(done))).
    reflexivity.
  - assert (word (2 ^ 255 + 1)) as H2 by done.
    destruct (evm_arithmetic_spec 3 (2 ^ 255 + 1) 0 ltac:(done) H2 ltac:(done))
      as (_ & _ & _ & _ & _ & _ & _ & _ & H & _).
    exact H.
Defined.

(** The serialization of a storage word is a canonical round trip:
    every word is read back from the byte string that is written for it, every
    byte string of at most 32 bytes is read as a word, longer ones are
    refused, and a byte string is what would be written for the word read from
    it exactly when it has no leading zero. *)
Theorem u256_serde_roundtrip :
  (forall x, word x -> visit_bytes (serialize x) = Some x) /\
  (forall v, bytes v ->
     match visit_bytes v with
     | Some x => (length v <= 32)%nat /\ word x /\ (serialize x = v <-> head v <> Some 0)
     | None => (32 < length v)%nat
     end).
Proof.
  split.
  - intros x Hx. unfold visit_bytes, serialize.
    pose proof (zeroless_length (to_big_endian x)) as Hl. unfold to_big_endian in *.
    rewrite be_bytes_length in Hl. destruct (_ <? _)%nat eqn:E; [apply Nat.ltb_lt in E; lia|].
    rewrite zeroless_value. f_equal. by apply from_to_big_endian.
  - intros v Hv. unfold visit_bytes. destruct (_ <? _)%nat eqn:E.
    { by apply Nat.ltb_lt in E. }
    apply Nat.ltb_ge in E. pose proof (from_big_endian_word v Hv E) as Hw.
    split; [done|]. split; [done|]. unfold serialize. split.
    + intros <-. apply zeroless_head.
    + intros Hh. apply zeroless_unique; [apply zeroless_bytes, be_bytes_bytes|done| |done|].
      * apply zeroless_head.
      * by rewrite zeroless_value, from_to_big_endian.
Qed.
