(* ===== verification/EvmMachine.v ===== *)
(** * The EVM's stack, memory and bytecode

    Models src/actors/evm/src/interpreter/{stack,memory,bytecode,output}.rs and
    the helpers of interpreter/instructions/memory.rs that address memory.
    The target is 32-bit WebAssembly: [usize] is a 32-bit integer.  A [Vec<u8>]
    is a list of bytes; the stack is a list with its top first (the source
    keeps the top at the end of a [Vec]).  Capacities are not modelled. *)

From S2P Require Import Prelude Runtime EvmWord.

(** ** Exit codes of the actor (lib.rs) *)

Definition EVM_CONTRACT_REVERTED : ExitCode := USR_OTHER 33.
Definition EVM_CONTRACT_INVALID_INSTRUCTION : ExitCode := USR_OTHER 34.
Definition EVM_CONTRACT_UNDEFINED_INSTRUCTION : ExitCode := USR_OTHER 35.
Definition EVM_CONTRACT_STACK_UNDERFLOW : ExitCode := USR_OTHER 36.
Definition EVM_CONTRACT_STACK_OVERFLOW : ExitCode := USR_OTHER 37.
Definition EVM_CONTRACT_ILLEGAL_MEMORY_ACCESS : ExitCode := USR_OTHER 38.
Definition EVM_CONTRACT_BAD_JUMPDEST : ExitCode := USR_OTHER 39.
Definition EVM_CONTRACT_SELFDESTRUCT_FAILED : ExitCode := USR_OTHER 40.

Definition EVM_WORD_SIZE : Z := 32.

(** A block of data with its codec. *)
Record IpldBlock : Type := mkBlock {
  blk_codec : Z;
  blk_data : list Z;
}.

(** The results of this actor's code: errors may carry a block. *)
Notation Rs := (Res (ActorError IpldBlock)).

Definition fail {A} (c : ExitCode) : Rs A := Err (err c).

(** Checked [usize] arithmetic. *)
Definition chk_usize (x : Z) : Rs Z := if (0 <=? x) && (x <? 2 ^ 32) then Ok x else Panic.

(** [v.len()]. *)
Definition len {A} (l : list A) : Z := Z.of_nat (length l).

(** ** Slices *)

(** [&l[a..b]]. *)
Definition slice (l : list Z) (a b : Z) : Rs (list Z) :=
  if (0 <=? a) && (a <=? b) && (b <=? len l)
  then Ok (take (Z.to_nat (b - a)) (drop (Z.to_nat a) l)) else Panic.

(** [l[a..a + data.len()].copy_from_slice(data)]. *)
Definition write_slice (l : list Z) (a : Z) (data : list Z) : Rs (list Z) :=
  if (0 <=? a) && (a + len data <=? len l)
  then Ok (take (Z.to_nat a) l ++ data ++ drop (Z.to_nat (a + len data)) l) else Panic.

(** [Vec::resize] with zeros: it cuts or fills. *)
Definition resize_zero (l : list Z) (n : Z) : list Z :=
  take (Z.to_nat n) l ++ replicate (Z.to_nat (n - len l)) 0.

(** ** Stack *)

Module Stack.
Definition STACK_SIZE : Z := 1024.

Definition push (value : Z) (stack : list Z) : Rs (list Z) :=
  if len stack >=? STACK_SIZE then fail EVM_CONTRACT_STACK_OVERFLOW
  else Ok (value :: stack).

Definition push_unchecked (value : Z) (stack : list Z) : list Z := value :: stack.

(** The popped values, the top of the stack first (the callers bind them
    through the macro [rev!]). *)
Definition pop_many (S : nat) (stack : list Z) : Rs (list Z * list Z) :=
  if len stack <? Z.of_nat S then fail EVM_CONTRACT_STACK_UNDERFLOW
  else Ok (take S stack, drop S stack).

Definition ensure_one (stack : list Z) : Rs unit :=
  if len stack >=? STACK_SIZE then fail EVM_CONTRACT_STACK_OVERFLOW else Ok tt.

Definition dup (i : nat) (stack : list Z) : Rs (list Z) :=
  match i with
  | O => Panic
  | S j =>
      if len stack >=? STACK_SIZE then fail EVM_CONTRACT_STACK_OVERFLOW
      else match stack !! j with
           | None => fail EVM_CONTRACT_STACK_UNDERFLOW
           | Some v => Ok (v :: stack)
           end
  end.

Definition swap_top (i : nat) (stack : list Z) : Rs (list Z) :=
  match stack !! 0%nat, stack !! i with
  | Some top, Some v => Ok (<[i := top]> (<[0%nat := v]> stack))
  | _, _ => fail EVM_CONTRACT_STACK_UNDERFLOW
  end.

Definition pop (stack : list Z) : Rs (Z * list Z) :=
  match stack with
  | v :: rest => Ok (v, rest)
  | [] => fail EVM_CONTRACT_STACK_UNDERFLOW
  end.

Definition drop (stack : list Z) : Rs (list Z) :=
  match stack with
  | _ :: rest => Ok rest
  | [] => fail EVM_CONTRACT_STACK_UNDERFLOW
  end.
End Stack.

(** ** Memory *)

Definition grow (mem : list Z) (new_size : Z) : Rs (list Z) :=
  if new_size <=? len mem then Ok mem
  else
    let alignment := new_size mod EVM_WORD_SIZE in
    let! new_size :=
      if alignment >? 0 then chk_usize (new_size + (EVM_WORD_SIZE - alignment))
      else Ok new_size in
    Ok (resize_zero mem new_size).

Record MemoryRegion : Type := mkRegion {
  r_offset : Z;
  r_size : Z;
}.

(** Grows the memory to contain the region and returns it with the memory;
    [None] for an empty one. *)
Definition get_memory_region (mem : list Z) (offset size : Z)
  : Rs (option MemoryRegion * list Z) :=
  match U256.try_into_u32 size with
  | None => fail EVM_CONTRACT_ILLEGAL_MEMORY_ACCESS
  | Some size =>
      if size =? 0 then Ok (None, mem)
      else
        match U256.try_into_u32 offset with
        | None => fail EVM_CONTRACT_ILLEGAL_MEMORY_ACCESS
        | Some offset =>
            if offset + size <? 2 ^ 32 then
              let! mem := grow mem (offset + size) in
              Ok (Some (mkRegion offset size), mem)
            else fail EVM_CONTRACT_ILLEGAL_MEMORY_ACCESS
        end
  end.

(** The bytes of a region, none for an empty one. *)
Definition region_bytes (mem : list Z) (region : option MemoryRegion) : Rs (list Z) :=
  match region with
  | Some r => slice mem (r_offset r) (r_offset r + r_size r)
  | None => Ok []
  end.

Definition copy_within_memory (mem : list Z) (dest_index src_index size : Z) : Rs (list Z) :=
  let! (src_region, mem) := get_memory_region mem src_index size in
  let! src_region := expect src_region in
  let! (destination_region, mem) := get_memory_region mem dest_index size in
  let! destination_region := expect destination_region in
  let! data := slice mem (r_offset src_region) (r_offset src_region + r_size src_region) in
  write_slice mem (r_offset destination_region) data.

(** The local function [min] of [copy_to_memory]. *)
Definition min_usize (a b : Z) : Z := if U256.lt_u64 a b then U256.low_u64 a else b.

Definition copy_to_memory (mem : list Z) (dest_offset dest_size data_offset : Z)
    (data : list Z) (zero_fill : bool) : Rs (list Z) :=
  let! (region, mem) := get_memory_region mem dest_offset dest_size in
  match region with
  | None => Ok mem
  | Some region =>
      let data_len := len data in
      let data_offset := min_usize data_offset data_len in
      let copy_size := min_usize dest_size (data_len - data_offset) in
      let! mem :=
        if copy_size >? 0 then
          let! chunk := slice data data_offset (data_offset + copy_size) in
          write_slice mem (r_offset region) chunk
        else Ok mem in
      if zero_fill && (r_size region >? copy_size) then
        write_slice mem (r_offset region + copy_size)
          (replicate (Z.to_nat (r_size region - copy_size)) 0)
      else Ok mem
  end.

(** ** Bytecode *)

Definition JUMPDEST_BYTE : Z := 0x5b.
Definition PUSH1_BYTE : Z := 0x60.
Definition PUSH32_BYTE : Z := 0x7f.

Record Bytecode : Type := mkBytecode {
  code : list Z;
  jumpdest : list bool;
}.

(** The loop of [Bytecode::new] over the position [i]; [None] when the fuel
    runs out. *)
Fixpoint scan_jumpdests (fuel : nat) (bytecode : list Z) (i : nat) (jumpdest : list bool)
  : option (list bool) :=
  match fuel with
  | O => None
  | S fuel =>
      match bytecode !! i with
      | None => Some jumpdest
      | Some b =>
          if b =? JUMPDEST_BYTE then
            scan_jumpdests fuel bytecode (i + 1) (<[i := true]> jumpdest)
          else if (b >=? PUSH1_BYTE) && (b <=? PUSH32_BYTE) then
            scan_jumpdests fuel bytecode (i + (Z.to_nat (b - PUSH1_BYTE) + 2)) jumpdest
          else scan_jumpdests fuel bytecode (i + 1) jumpdest
      end
  end.

(** [Bytecode::new]; the loop ends within one iteration more than there are
    bytes. *)
Definition new_bytecode (bytecode : list Z) : option Bytecode :=
  mkBytecode bytecode <$>
    scan_jumpdests (S (length bytecode)) bytecode 0 (replicate (length bytecode) false).

Definition valid_jump_destination (b : Bytecode) (offset : Z) : bool :=
  (offset <? len (jumpdest b)) && default false (jumpdest b !! Z.to_nat offset).

(** ** Output *)

Inductive Outcome : Type := Return | Revert.

Record Output : Type := mkOutput {
  outcome : Outcome;
  return_data : list Z;
  out_pc : Z;
}.

Definition default_output : Output := mkOutput Return [] 0.

(** ** Instructions on the stack and on the program counter *)

(** [be_u64!]: big-endian bytes as a [u64]. *)
Fixpoint be_u64 (l : list Z) : Z :=
  match l with
  | [] => 0
  | b :: l => Z.shiftl b (8 * len l) + be_u64 l
  end.

(** instructions/stack.rs, [push::<LEN>] on the code after the opcode; at most
    32 bytes, as [U256::from_big_endian] asserts. *)
Definition push_code (LEN : nat) (stack code : list Z) : Rs (nat * list Z) :=
  let! stack :=
    if (length code <? LEN)%nat then
      let padded := resize_zero code (Z.of_nat LEN) in
      if (32 <? LEN)%nat then Panic else Stack.push (from_big_endian padded) stack
    else if (LEN =? 0)%nat then Stack.push 0 stack
    else if (LEN <=? 8)%nat then Stack.push (be_u64 (take LEN code)) stack
    else if (32 <? LEN)%nat then Panic
    else Stack.push (from_big_endian (take LEN code)) stack in
  Ok (LEN, stack).

(** instructions/control.rs *)
Definition jump (bytecode : Bytecode) (pc dest : Z) : Rs Z :=
  match U256.try_into_u32 dest with
  | None => fail EVM_CONTRACT_BAD_JUMPDEST
  | Some dst =>
      if negb (valid_jump_destination bytecode dst) then fail EVM_CONTRACT_BAD_JUMPDEST
      else Ok (dst + 1)
  end.

Definition jumpi (bytecode : Bytecode) (pc dest test : Z) : Rs Z :=
  if negb (test =? 0) then
    match U256.try_into_u32 dest with
    | None => fail EVM_CONTRACT_BAD_JUMPDEST
    | Some dst =>
        if negb (valid_jump_destination bytecode dst) then fail EVM_CONTRACT_BAD_JUMPDEST
        else Ok (dst + 1)
    end
  else Ok (pc + 1).

(** [exit]: the memory may grow. *)
Definition exit (mem : list Z) (pc offset size : Z) (status : Outcome) : Rs (Output * list Z) :=
  let! (region, mem) := get_memory_region mem offset size in
  let! data := region_bytes mem region in
  Ok (mkOutput status data pc, mem).

(** ** Lemmas: slices *)

(** Inverts a successful run of code guarded by a range check. *)
Ltac guard_inv :=
  repeat match goal with
  | H : (if ?b then _ else Panic) = Ok _ |- _ => destruct b eqn:?; [|discriminate H]
  end; res_inv.

Lemma len_nonneg {A} (l : list A) : 0 <= len l.
Proof. unfold len. lia. Qed.

Lemma len_app {A} (l k : list A) : len (l ++ k) = len l + len k.
Proof. unfold len. rewrite length_app. lia. Qed.

Lemma len_replicate {A} n (x : A) : 0 <= n -> len (replicate (Z.to_nat n) x) = n.
Proof. intros. unfold len. rewrite length_replicate. lia. Qed.

Lemma slice_ok l a b : 0 <= a -> a <= b -> b <= len l ->
  slice l a b = Ok (take (Z.to_nat (b - a)) (drop (Z.to_nat a) l)).
Proof.
  intros. unfold slice. rewrite !(proj2 (Z.leb_le _ _)) by done. done.
Qed.

Lemma slice_len l a b d : slice l a b = Ok d -> len d = b - a.
Proof.
  unfold slice, len. intros H. guard_inv. rewrite length_take, length_drop. lia.
Qed.

Lemma slice_bytes l a b d : bytes l -> slice l a b = Ok d -> bytes d.
Proof. unfold slice. intros Hl H. guard_inv. by apply Forall_take, Forall_drop. Qed.

Lemma write_slice_ok l a data : 0 <= a -> a + len data <= len l ->
  write_slice l a data
  = Ok (take (Z.to_nat a) l ++ data ++ drop (Z.to_nat (a + len data)) l).
Proof. intros. unfold write_slice. rewrite !(proj2 (Z.leb_le _ _)) by done. done. Qed.

Lemma write_slice_len l a data l' : write_slice l a data = Ok l' -> len l' = len l.
Proof.
  unfold write_slice, len. intros H. guard_inv. rewrite !length_app, length_take, length_drop. lia.
Qed.

Lemma write_slice_bytes l a data l' :
  bytes l -> bytes data -> write_slice l a data = Ok l' -> bytes l'.
Proof.
  unfold write_slice. intros Hl Hd H. guard_inv.
  apply Forall_app. split; [by apply Forall_take|]. apply Forall_app. split; [done|by apply Forall_drop].
Qed.

(** The memory read as if it were followed by infinitely many zeros. *)
Definition mget (mem : list Z) (i : Z) : Z := default 0 (mem !! Z.to_nat i).

Lemma mget_above mem i : len mem <= i -> mget mem i = 0.
Proof. unfold len, mget. intros. by rewrite lookup_ge_None_2 by lia. Qed.

Lemma write_slice_mget l a data l' i : 0 <= i ->
  write_slice l a data = Ok l' ->
  mget l' i = if (a <=? i) && (i <? a + len data) then mget data (i - a) else mget l i.
Proof.
  unfold write_slice. intros Hi H. guard_inv.
  unfold mget, len in *.
  destruct (Z.leb_spec a i) as [Hai|Hai]; cbn [andb].
  - rewrite lookup_app_r by (rewrite length_take; lia). rewrite length_take.
    replace (Z.to_nat i - (Z.to_nat a `min` length l))%nat with (Z.to_nat (i - a)) by lia.
    destruct (Z.ltb_spec i (a + Z.of_nat (length data))).
    + by rewrite lookup_app_l by lia.
    + rewrite lookup_app_r by lia. rewrite lookup_drop. do 2 f_equal. lia.
  - rewrite lookup_app_l by (rewrite length_take; lia). rewrite lookup_take. by rewrite decide_True by lia.
Qed.

Lemma slice_mget l a b d i : slice l a b = Ok d -> 0 <= i < b - a -> mget d i = mget l (a + i).
Proof.
  unfold slice. intros H Hi. guard_inv. unfold mget. rewrite lookup_take, lookup_drop.
  rewrite decide_True by lia. do 2 f_equal. lia.
Qed.

Lemma mget_replicate n i : mget (replicate n 0) i = 0.
Proof.
  unfold mget. destruct (replicate n 0 !! Z.to_nat i) eqn:E; [|done].
  by apply lookup_replicate in E as [-> _].
Qed.

(** ** Lemmas: memory *)

(** What holds of a memory: bytes, a whole number of words, below 4 GiB. *)
Definition mem_ok (mem : list Z) : Prop :=
  bytes mem /\ len mem mod 32 = 0 /\ len mem < 2 ^ 32.

Lemma mem_ok_bytes mem : mem_ok mem -> bytes mem.
Proof. by intros [? _]. Qed.

Lemma resize_zero_fill l n : len l <= n -> resize_zero l n = l ++ replicate (Z.to_nat (n - len l)) 0.
Proof. intros H. unfold resize_zero. rewrite take_ge; [done|]. unfold len in H. lia. Qed.

Lemma resize_zero_len l n : len l <= n -> len (resize_zero l n) = n.
Proof. intros. rewrite resize_zero_fill by done. rewrite len_app, len_replicate; lia. Qed.

Lemma resize_zero_mget l n i : len l <= n -> 0 <= i -> mget (resize_zero l n) i = mget l i.
Proof.
  intros Hn Hi. rewrite resize_zero_fill by done. unfold mget. destruct (decide (Z.to_nat i < length l)%nat) as [Hlt|Hge].
  - by rewrite lookup_app_l.
  - rewrite lookup_app_r by lia. rewrite (lookup_ge_None_2 l) by lia.
    destruct (replicate _ 0 !! _) eqn:E; [|done]. by apply lookup_replicate in E as [-> _].
Qed.

Lemma resize_zero_bytes l n : bytes l -> bytes (resize_zero l n).
Proof. intros Hl. apply Forall_app. split; [by apply Forall_take|]. by apply Forall_replicate. Qed.

(** Growing: to the next multiple of 32, filling with zeros. *)
Lemma grow_ok mem n mem' : mem_ok mem -> 0 <= n < 2 ^ 32 -> grow mem n = Ok mem' ->
  mem_ok mem' /\ n <= len mem' /\
  len mem' = Z.max (len mem) (32 * ((n + 31) / 32)) /\
  (forall i, 0 <= i -> mget mem' i = mget mem i).
Proof.
  intros (Hb & Ha & Hm) Hn H. unfold grow, EVM_WORD_SIZE in H.
  destruct (n <=? len mem) eqn:E; bool_prop.
  { injection H as <-. pose proof (Z.div_mod (len mem) 32). pose proof (Z.div_mod (n + 31) 32).
    pose proof (Z.mod_pos_bound (n + 31) 32). unfold mem_ok. repeat split; try done; lia. }
  apply rbind_ok in H as (k & Hk & H). injection H as <-.
  assert (k = 32 * ((n + 31) / 32) /\ k < 2 ^ 32) as [-> Hk32].
  { pose proof (Z.div_mod n 32 ltac:(lia)). pose proof (Z.mod_pos_bound n 32 ltac:(lia)).
    pose proof (Z.div_mod (n + 31) 32 ltac:(lia)). pose proof (Z.mod_pos_bound (n + 31) 32 ltac:(lia)).
    destruct (n mod 32 >? 0) eqn:Em; bool_prop.
    - unfold chk_usize in Hk. guard_inv. lia.
    - injection Hk as <-. lia. }
  pose proof (Z.div_mod (n + 31) 32 ltac:(lia)). pose proof (Z.mod_pos_bound (n + 31) 32 ltac:(lia)).
  rewrite resize_zero_len by lia. repeat split; try lia.
  - by apply resize_zero_bytes.
  - rewrite resize_zero_len by lia. rewrite Z.mul_comm. apply Z.mod_mul. lia.
  - rewrite resize_zero_len by lia. done.
  - intros i Hi. apply resize_zero_mget; lia.
Qed.

(** Growing only fails where the rounding leaves the 32-bit [usize]. *)
Lemma grow_total mem n : n <= 2 ^ 32 - 32 -> exists mem', grow mem n = Ok mem'.
Proof.
  intros Hn. unfold grow, EVM_WORD_SIZE. destruct (n <=? len mem) eqn:E; [eauto|]. bool_prop.
  pose proof (len_nonneg mem).
  destruct (n mod 32 >? 0) eqn:Em; cbn [rbind]; [|eauto]. bool_prop.
  unfold chk_usize. pose proof (Z.div_mod n 32 ltac:(lia)).
  pose proof (Z.mod_pos_bound n 32 ltac:(lia)).
  rewrite (proj2 (Z.leb_le _ _)), (proj2 (Z.ltb_lt _ _)) by lia. cbn. eauto.
Qed.

Lemma region_ok mem off size r mem' : mem_ok mem -> 0 <= off -> 0 <= size ->
  get_memory_region mem off size = Ok (r, mem') ->
  mem_ok mem' /\ (forall i, 0 <= i -> mget mem' i = mget mem i) /\
  (if size =? 0 then r = None /\ mem' = mem
   else r = Some (mkRegion off size) /\ off + size <= len mem' /\
        len mem' = Z.max (len mem) (32 * ((off + size + 31) / 32))).
Proof.
  intros Hm Ho Hs H. unfold get_memory_region, U256.try_into_u32 in H.
  destruct (size <? 2 ^ 32) eqn:Es; [|discriminate H].
  destruct (size =? 0) eqn:E0; [by injection H as <- <-|]. bool_prop.
  destruct (off <? 2 ^ 32) eqn:Eo; [|discriminate H].
  destruct (off + size <? 2 ^ 32) eqn:En; [|discriminate H]. bool_prop.
  apply rbind_ok in H as (m & Hg & H). injection H as <- <-.
  destruct (grow_ok mem (off + size) m Hm ltac:(lia) Hg) as (Hm' & Hle & Hl & Hget).
  done.
Qed.

(** A region is refused exactly when it does not end below 4 GiB, whatever
    the offset of an empty one. *)
Lemma region_err mem off size : 0 <= off -> 0 <= size -> mem_ok mem ->
  match get_memory_region mem off size with
  | Ok _ => size = 0 \/ off + size < 2 ^ 32
  | Err e => e = err EVM_CONTRACT_ILLEGAL_MEMORY_ACCESS /\ 2 ^ 32 <= off + size /\ size <> 0
  | Panic => 2 ^ 32 - 32 < off + size < 2 ^ 32
  end.
Proof.
  intros Ho Hs (Hb & Ha & Hm). unfold get_memory_region, U256.try_into_u32.
  destruct (size <? 2 ^ 32) eqn:Es; bool_prop; [|cbn; pow2; lia || (split; [done|lia])].
  destruct (size =? 0) eqn:E0; bool_prop; [by left|].
  destruct (off <? 2 ^ 32) eqn:Eo; bool_prop; [|cbn; split; [done|lia]].
  destruct (off + size <? 2 ^ 32) eqn:En; bool_prop; [|cbn; split; [done|lia]].
  unfold grow, EVM_WORD_SIZE. destruct (off + size <=? len mem) eqn:El; cbn [rbind]; [by right|].
  destruct ((off + size) mod 32 >? 0) eqn:Em; cbn [rbind]; [|by right]. bool_prop.
  unfold chk_usize. destruct (_ && _) eqn:Ec; cbn [rbind]; [by right|].
  apply andb_false_iff in Ec.
  pose proof (Z.mod_pos_bound (off + size) 32 ltac:(lia)).
  rewrite Z.leb_gt, Z.ltb_ge in Ec. lia.
Qed.

(** ** Lemmas: copying *)

Lemma min_usize_spec a b : word a -> 0 <= b < 2 ^ 64 -> min_usize a b = Z.min a b.
Proof.
  intros Ha Hb. unfold min_usize. rewrite lt_u64_spec by done.
  destruct (a <? b) eqn:E; bool_prop; [|lia]. unfold U256.low_u64. rewrite limb0, Z.mod_small.
  - lia.
  - unfold word in Ha. lia.
Qed.

Lemma write_slice_mem_ok mem a data mem' :
  mem_ok mem -> bytes data -> write_slice mem a data = Ok mem' -> mem_ok mem'.
Proof.
  intros (Hb & Ha & Hl) Hd H. unfold mem_ok. rewrite (write_slice_len _ _ _ _ H).
  split; [by apply (write_slice_bytes _ _ _ _ Hb Hd H)|done].
Qed.

(** The first half of [copy_to_memory]: [c] bytes of the data. *)
Lemma copy_chunk_ok mem dest data o c mem' :
  mem_ok mem -> bytes data -> 0 <= dest -> 0 <= o -> 0 <= c ->
  (if c >? 0 then
     let! chunk := slice data o (o + c) in write_slice mem dest chunk
   else Ok mem) = Ok mem' ->
  mem_ok mem' /\ forall i, 0 <= i ->
    mget mem' i = if (dest <=? i) && (i <? dest + c) then mget data (o + (i - dest)) else mget mem i.
Proof.
  intros Hm Hd Hde Ho Hc H. destruct (c >? 0) eqn:Ec; bool_prop.
  - apply rbind_ok in H as (chunk & Hchunk & H). split.
    + eapply write_slice_mem_ok; [exact Hm| |exact H]. by eapply slice_bytes.
    + intros i Hi. rewrite (write_slice_mget _ _ _ _ i Hi H), (slice_len _ _ _ _ Hchunk).
      replace (o + c - o) with c by lia.
      destruct (Z.leb_spec dest i), (Z.ltb_spec i (dest + c)); cbn [andb]; try done.
      by rewrite (slice_mget _ _ _ _ _ Hchunk) by lia.
  - injection H as <-. split; [done|]. intros i Hi.
    destruct (Z.leb_spec dest i), (Z.ltb_spec i (dest + c)); cbn [andb]; lia || done.
Qed.

(** The data read as if it were followed by zeros, copied over a region of
    memory; without [zero_fill] only the part that exists. *)
Lemma copy_to_memory_ok mem dest size off data zf mem' :
  mem_ok mem -> bytes data -> len data < 2 ^ 32 -> word dest -> word size -> word off ->
  copy_to_memory mem dest size off data zf = Ok mem' ->
  mem_ok mem' /\
  forall i, 0 <= i ->
    mget mem' i =
      if (dest <=? i) && (i <? dest + size) && (zf || (off + (i - dest) <? len data))
      then mget data (off + (i - dest)) else mget mem i.
Proof.
  intros Hm Hd Hdl Hdest Hsize Hoff H. unfold copy_to_memory in H.
  apply rbind_ok in H as ([r m1] & Hr & H).
  destruct (region_ok mem dest size r m1 Hm (proj1 Hdest) (proj1 Hsize) Hr) as (Hm1 & Hget & Hcase).
  destruct (size =? 0) eqn:E0; bool_prop.
  { destruct Hcase as [-> ->]. injection H as <-. split; [done|]. intros i Hi. subst.
    destruct (Z.leb_spec dest i), (Z.ltb_spec i (dest + 0)); cbn; done || lia. }
  destruct Hcase as (-> & Hle & _). pose proof (len_nonneg data) as Hdn. cbn [r_offset r_size] in H.
  rewrite (min_usize_spec off) in H by (done || lia).
  assert (0 <= off /\ 0 <= dest /\ 0 <= size) as (Ho0 & Hde0 & Hsz0) by (unfold word in *; lia).
  rewrite (min_usize_spec size) in H by (done || lia).
  set (o := Z.min off (len data)) in *. set (c := Z.min size (len data - o)) in *.
  apply rbind_ok in H as (m2 & H2 & H).
  destruct (copy_chunk_ok m1 dest data o c m2 Hm1 Hd Hde0 ltac:(lia) ltac:(lia) H2) as (Hm2 & Hg2).
  assert (forall i, dest + c <= i < dest + size -> mget data (off + (i - dest)) = 0) as Hz.
  { intros i Hr'. apply mget_above. lia. }
  assert (forall i, dest <= i < dest + c -> o + (i - dest) = off + (i - dest)) as Heq by lia.
  destruct (zf && (size >? c)) eqn:Ez.
  - apply andb_true_iff in Ez as [-> Ez]. bool_prop. split.
    + eapply write_slice_mem_ok; [exact Hm2| |exact H]. by apply Forall_replicate.
    + intros i Hi. rewrite (write_slice_mget _ _ _ _ i Hi H), len_replicate, mget_replicate by lia.
      rewrite (Hg2 i Hi), (Hget i Hi). cbn [orb]. rewrite andb_true_r.
      destruct (Z.leb_spec (dest + c) i), (Z.ltb_spec i (dest + c + (size - c))),
        (Z.leb_spec dest i), (Z.ltb_spec i (dest + c)), (Z.ltb_spec i (dest + size)); cbn [andb];
        try lia; try done; [by rewrite Hz by lia|by rewrite Heq by lia].
  - injection H as <-. split; [done|]. intros i Hi. rewrite (Hg2 i Hi), (Hget i Hi).
    apply andb_false_iff in Ez.
    destruct (Z.leb_spec dest i), (Z.ltb_spec i (dest + c)), (Z.ltb_spec i (dest + size)); cbn [andb];
      try lia; try done.
    + rewrite (proj2 (Z.ltb_lt (off + (i - dest)) (len data))) by lia. rewrite orb_true_r.
      by rewrite Heq by lia.
    + destruct Ez as [->|Ez]; [|bool_prop; lia]. cbn [orb].
      destruct (Z.ltb_spec (off + (i - dest)) (len data)); [|done]. lia.
Qed.

(** MCOPY: the destination gets what the source held before. *)
Lemma copy_within_ok mem dest src size mem' :
  mem_ok mem -> word dest -> word src -> word size -> 0 < size ->
  copy_within_memory mem dest src size = Ok mem' ->
  mem_ok mem' /\
  forall i, 0 <= i ->
    mget mem' i =
      if (dest <=? i) && (i <? dest + size) then mget mem (src + (i - dest)) else mget mem i.
Proof.
  intros Hm Hdest Hsrc Hsize Hs H. unfold copy_within_memory in H.
  assert (0 <= src /\ 0 <= dest) as [Hsrc0 Hdest0] by (unfold word in *; lia).
  apply rbind_ok in H as ([r1 m1] & Hr1 & H).
  destruct (region_ok mem src size r1 m1 Hm Hsrc0 ltac:(lia) Hr1) as (Hm1 & Hg1 & Hc1).
  rewrite (proj2 (Z.eqb_neq size 0)) in Hc1 by lia. destruct Hc1 as (-> & Hle1 & _).
  cbn [expect rbind] in H. apply rbind_ok in H as ([r2 m2] & Hr2 & H).
  destruct (region_ok m1 dest size r2 m2 Hm1 Hdest0 ltac:(lia) Hr2) as (Hm2 & Hg2 & Hc2).
  rewrite (proj2 (Z.eqb_neq size 0)) in Hc2 by lia. destruct Hc2 as (-> & Hle2 & _).
  cbn [expect rbind r_offset r_size] in H. apply rbind_ok in H as (d & Hd & H).
  pose proof (slice_len _ _ _ _ Hd) as Hdl. split.
  - eapply write_slice_mem_ok; [exact Hm2| |exact H]. eapply slice_bytes; [apply Hm2|exact Hd].
  - intros i Hi. rewrite (write_slice_mget _ _ _ _ i Hi H), Hdl.
    replace (dest + (src + size - src)) with (dest + size) by lia.
    destruct (Z.leb_spec dest i), (Z.ltb_spec i (dest + size)); cbn [andb];
      try (by rewrite Hg2, Hg1 by lia).
    rewrite (slice_mget _ _ _ _ _ Hd) by lia. by rewrite Hg2, Hg1 by lia.
Qed.

(** ** Lemmas: jump destinations *)

(** The length of the instruction that starts with byte [b]. *)
Definition ins_len (b : Z) : nat :=
  if (b >=? PUSH1_BYTE) && (b <=? PUSH32_BYTE) then Z.to_nat (b - PUSH1_BYTE) + 2 else 1.

(** The positions where an instruction starts when the code is read from its
    beginning. *)
Inductive boundary (bytecode : list Z) : nat -> Prop :=
| boundary_start : boundary bytecode 0
| boundary_next i b : boundary bytecode i -> bytecode !! i = Some b ->
    boundary bytecode (i + ins_len b).

(** The same, from a given boundary on. *)
Inductive from_boundary (bytecode : list Z) : nat -> nat -> Prop :=
| from_here i : from_boundary bytecode i i
| from_next i j b : bytecode !! i = Some b -> from_boundary bytecode (i + ins_len b) j ->
    from_boundary bytecode i j.

Lemma boundary_from code i j : boundary code i -> from_boundary code i j -> boundary code j.
Proof. intros Hi Hf. induction Hf; [done|]. apply IHHf. by econstructor. Qed.

Lemma from_boundary_trans code i j b : from_boundary code i j -> code !! j = Some b ->
  from_boundary code i (j + ins_len b).
Proof. intros Hf Hj. induction Hf; [by eapply from_next, from_here|by eapply from_next; eauto]. Qed.

Lemma from_start code j : boundary code j <-> from_boundary code 0 j.
Proof.
  split; [|apply boundary_from; constructor].
  induction 1; [constructor|by eapply from_boundary_trans].
Qed.

Lemma ins_len_pos b : (1 <= ins_len b)%nat.
Proof. unfold ins_len. destruct (_ && _); lia. Qed.

Lemma from_boundary_le code i j : from_boundary code i j -> (i <= j)%nat.
Proof. induction 1 as [|i j b]; [lia|]. pose proof (ins_len_pos b). lia. Qed.

(** The positions the scan marks, on top of those already marked; it does not
    run out of fuel. *)
Lemma scan_spec code : forall fuel i jd,
  (0 < fuel)%nat -> (length code < i + fuel)%nat -> length jd = length code ->
  exists jd', scan_jumpdests fuel code i jd = Some jd' /\ length jd' = length code /\
    forall j, jd' !! j = Some true <->
      jd !! j = Some true \/ from_boundary code i j /\ code !! j = Some JUMPDEST_BYTE.
Proof.
  induction fuel as [|fuel IH]; intros i jd H0 Hf Hl; [lia|]. cbn [scan_jumpdests].
  destruct (code !! i) as [b|] eqn:Hb.
  2:{ exists jd. split; [done|]. split; [done|]. intros j. split; [by left|].
      intros [?|[Hfrom Hj]]; [done|]. apply from_boundary_le in Hfrom.
      apply lookup_ge_None in Hb. apply lookup_lt_Some in Hj. lia. }
  pose proof (lookup_lt_Some _ _ _ Hb) as Hi. pose proof (ins_len_pos b) as Hpos.
  assert (forall j, from_boundary code i j <-> i = j \/ from_boundary code (i + ins_len b) j) as Hfrom.
  { intros j. split.
    - inversion 1 as [|? ? b' Hb' Hr]; subst; [by left|]. right. congruence.
    - intros [<-|Hr]; [constructor|by econstructor]. }
  destruct (b =? JUMPDEST_BYTE) eqn:Ej; bool_prop.
  - subst b. change (i + 1)%nat with (i + ins_len JUMPDEST_BYTE)%nat.
    destruct (IH (i + ins_len JUMPDEST_BYTE)%nat (<[i := true]> jd)) as (jd' & -> & Hl' & Hjd');
      [lia|lia|by rewrite length_insert|].
    exists jd'. split; [done|]. split; [done|]. intros j. rewrite Hjd', Hfrom.
    rewrite list_lookup_insert. destruct (decide (i = j /\ (i < length jd)%nat)) as [[<- _]|Hne].
    + naive_solver.
    + assert (i <> j) by (intros ->; apply Hne; split; [done|lia]). naive_solver.
  - assert (scan_jumpdests fuel code (i + ins_len b) jd =
      (if (b >=? PUSH1_BYTE) && (b <=? PUSH32_BYTE)
       then scan_jumpdests fuel code (i + (Z.to_nat (b - PUSH1_BYTE) + 2)) jd
       else scan_jumpdests fuel code (i + 1) jd)) as <-.
    { unfold ins_len. by destruct (_ && _). }
    destruct (IH (i + ins_len b)%nat jd) as (jd' & -> & Hl' & Hjd'); [lia|lia|done|].
    exists jd'. split; [done|]. split; [done|]. intros j. rewrite Hjd', Hfrom. naive_solver.
Qed.

Lemma new_bytecode_total bytecode : exists b, new_bytecode bytecode = Some b.
Proof.
  destruct (scan_spec bytecode (S (length bytecode)) 0 (replicate (length bytecode) false))
    as (jd & Hscan & _); [lia|lia|apply length_replicate|].
  exists (mkBytecode bytecode jd). unfold new_bytecode. by rewrite Hscan.
Qed.

Lemma new_bytecode_valid bytecode b : new_bytecode bytecode = Some b ->
  code b = bytecode /\
  forall d, 0 <= d ->
    valid_jump_destination b d = true <->
    boundary bytecode (Z.to_nat d) /\ bytecode !! Z.to_nat d = Some JUMPDEST_BYTE.
Proof.
  destruct (scan_spec bytecode (S (length bytecode)) 0 (replicate (length bytecode) false))
    as (jd & Hscan & Hl & Hjd); [lia|lia|apply length_replicate|].
  unfold new_bytecode. rewrite Hscan. cbn. intros [= <-]. split; [done|].
  intros d Hd. unfold valid_jump_destination. cbn [jumpdest].
  rewrite from_start. rewrite andb_true_iff, Z.ltb_lt. unfold len.
  specialize (Hjd (Z.to_nat d)). split.
  - intros [Hlt Hdef]. destruct (jd !! Z.to_nat d) as [[]|] eqn:E; try done.
    destruct Hjd as [Hjd _]. destruct (Hjd eq_refl) as [Hr|Hr]; [|done].
    by apply lookup_replicate in Hr as [? _].
  - intros Hr. pose proof (lookup_lt_Some _ _ _ (proj2 Hr)).
    rewrite (proj2 Hjd (or_intror Hr)). cbn. split; [lia|done].
Qed.

(** C24: the jump-destination analysis terminates on every code and marks
    exactly the JUMPDEST bytes that are instructions: those at positions where
    an instruction starts when the code is read from its beginning, not the
    ones inside the immediate data of a PUSH. *)
Theorem jumpdest_analysis_exact bytecode :
  exists b, new_bytecode bytecode = Some b /\ code b = bytecode /\
    forall d, 0 <= d ->
      valid_jump_destination b d = true <->
      boundary bytecode (Z.to_nat d) /\ bytecode !! Z.to_nat d = Some JUMPDEST_BYTE.
Proof.
  destruct (new_bytecode_total bytecode) as [b Hb]. exists b. split; [done|].
  by apply new_bytecode_valid.
Qed.

(** ** Lemmas: pushes *)

Lemma be_u64_spec l : be_u64 l = from_big_endian l.
Proof.
  induction l as [|b l IH]; [done|]. cbn [be_u64]. rewrite from_big_endian_cons, IH.
  unfold len. rewrite Z.shiftl_mul_pow2 by lia. rewrite Z.pow_mul_r by lia. done.
Qed.

(** PUSH pushes the immediate bytes, padded with zeros past the end. *)
Lemma push_code_spec n stack code : (n <= 32)%nat ->
  push_code n stack code =
    let! stack := Stack.push (from_big_endian (take n (code ++ replicate n 0))) stack in
    Ok (n, stack).
Proof.
  intros Hn. unfold push_code.
  assert ((32 <? n)%nat = false) as -> by (apply Nat.ltb_ge; lia).
  destruct (length code <? n)%nat eqn:E.
  - apply Nat.ltb_lt in E. rewrite resize_zero_fill by (unfold len; lia). unfold len.
    replace (take n (code ++ replicate n 0))
      with (code ++ replicate (Z.to_nat (Z.of_nat n - Z.of_nat (length code))) 0); [done|].
    rewrite take_app_ge by lia. rewrite take_replicate. do 2 f_equal. lia.
  - apply Nat.ltb_ge in E. rewrite take_app_le by lia. destruct (n =? 0)%nat eqn:E0.
    + apply Nat.eqb_eq in E0 as ->. done.
    + rewrite be_u64_spec. by destruct (n <=? 8)%nat.
Qed.

(** ** The stack *)

(** What holds of a stack: words, at most 1024 of them. *)
Definition stack_ok (stack : list Z) : Prop := Forall word stack /\ len stack <= 1024.

Lemma push_ok v stack stack' : word v -> stack_ok stack -> Stack.push v stack = Ok stack' ->
  stack_ok stack'.
Proof.
  unfold Stack.push, Stack.STACK_SIZE, stack_ok, len. intros Hv [Hw Hl] H.
  destruct (_ >=? _) eqn:E; [discriminate H|]. bool_prop. injection H as <-.
  split; [by constructor|]. cbn [length]. lia.
Qed.

Lemma pop_many_ok n stack args rest : stack_ok stack -> Stack.pop_many n stack = Ok (args, rest) ->
  stack = args ++ rest /\ length args = n /\ Forall word args /\ stack_ok rest /\
  len rest = len stack - Z.of_nat n.
Proof.
  unfold Stack.pop_many, stack_ok, len. intros [Hw Hl] H.
  destruct (_ <? _) eqn:E; [discriminate H|]. bool_prop. injection H as <- <-.
  rewrite take_drop, length_take, length_drop. split; [done|].
  split; [lia|]. split; [by apply Forall_take|]. split; [split; [by apply Forall_drop|lia]|lia].
Qed.

Lemma dup_ok i stack stack' : stack_ok stack -> Stack.dup i stack = Ok stack' -> stack_ok stack'.
Proof.
  unfold Stack.dup, Stack.STACK_SIZE, stack_ok, len. intros [Hw Hl] H.
  destruct i as [|i]; [discriminate H|]. destruct (_ >=? _) eqn:E; [discriminate H|]. bool_prop.
  destruct (stack !! i) as [v|] eqn:Hv; [|discriminate H]. injection H as <-.
  split; [|cbn [length]; lia]. constructor; [by eapply Forall_lookup_1|done].
Qed.

Lemma swap_top_ok i stack stack' : stack_ok stack -> Stack.swap_top i stack = Ok stack' ->
  stack_ok stack' /\ len stack' = len stack.
Proof.
  unfold Stack.swap_top, stack_ok, len. intros [Hw Hl] H.
  destruct (stack !! 0%nat) as [a|] eqn:Ha; [|discriminate H].
  destruct (stack !! i) as [b|] eqn:Hb; [|discriminate H]. injection H as <-.
  rewrite !length_insert. split; [split; [|done]|done].
  apply Forall_insert; [apply Forall_insert; [done|]|]; by eapply Forall_lookup_1.
Qed.
