(* ===== verification/EvmSystem.v ===== *)
(** * The EVM actor's platform layer

    Models Ethereum-style addresses (src/actors/evm/shared/src/address.rs), the
    state of a contract (src/actors/evm/src/state.rs) and the [System]
    (interpreter/system.rs) that holds the contract's state in memory while its
    code runs and writes it back before control leaves the contract.

    A CID stands for the content it addresses: the state root is the [State],
    the root of a KAMT is the map, the CID of bytecode is the code.  Comparing
    roots is comparing states.  Loading and flushing a KAMT cannot fail.  The
    kernel, the hash functions and the CBOR codecs are fields of [EvmExt]. *)

From S2P Require Import Prelude Runtime EvmWord EvmMachine.

(** ** Addresses *)

Definition EAM_ACTOR_ID : Z := 10.

(** A delegated address: protocol 4, the namespace before the subaddress. *)
Definition delegated (namespace : Z) (subaddress : list Z) : Address :=
  AddrOther 4 (namespace :: subaddress).

(** 20 bytes. *)
Notation EthAddress := (list Z).

Module Eth.
(** [impl From<U256> for EthAddress]. *)
Definition from_word (v : Z) : EthAddress := drop 12 (to_big_endian v).

Definition from_id (id : Z) : EthAddress := 0xff :: replicate 11 0 ++ be_bytes 8 id.

Definition is_id (a : EthAddress) : bool :=
  match a with
  | b :: rest => (b =? 0xff) && forallb (Z.eqb 0) (take 11 rest)
  | [] => false
  end.

Definition as_id (a : EthAddress) : option Z :=
  if negb (is_id a) then None else Some (from_big_endian (drop 12 a)).

Definition as_evm_word (a : EthAddress) : Z := from_big_endian a.

Definition is_null (a : EthAddress) : bool := bool_decide (a = replicate 20 0).

(** [is_precompile] of address.rs: an address the EAM does not assign. *)
Definition is_precompile (a : EthAddress) : bool :=
  match a with
  | prefix :: rest =>
      ((prefix =? 0xfe) || (prefix =? 0x00)) && bool_decide (take 18 rest = replicate 18 0)
  | [] => false
  end.

(** [impl From<EthAddress> for Address]. *)
Definition to_address (a : EthAddress) : Address :=
  match as_id a with
  | Some id => AddrId id
  | None => delegated EAM_ACTOR_ID a
  end.
End Eth.

(** ** The state of a contract *)

Record Tombstone : Type := mkTombstone {
  tomb_origin : Z;
  tomb_nonce : Z;
}.

Record TransientDataLifespan : Type := mkLifespan {
  life_origin : Z;
  life_nonce : Z;
}.

Record TransientData : Type := mkTransient {
  transient_data_state : gmap Z Z;
  transient_data_lifespan : TransientDataLifespan;
}.

Record State : Type := mkState {
  st_bytecode : list Z;
  st_bytecode_hash : list Z;
  contract_state : gmap Z Z;
  transient_data : option TransientData;
  st_nonce : Z;
  st_tombstone : option Tombstone;
}.

#[global] Instance Tombstone_eq_dec : EqDecision Tombstone.
Proof. solve_decision. Defined.
#[global] Instance Lifespan_eq_dec : EqDecision TransientDataLifespan.
Proof. solve_decision. Defined.
#[global] Instance TransientData_eq_dec : EqDecision TransientData.
Proof. solve_decision. Defined.
#[global] Instance EvmState_eq_dec : EqDecision State.
Proof. solve_decision. Defined.

(** ** Outside of the repository *)

(** The parameters of a send: the block and the gas limit. *)
Record SendParams : Type := mkParams {
  p_block : option IpldBlock;
  p_gas_limit : option Z;
}.

(** The kernel's queries, the primitives and the codecs. *)
Record EvmExt (Net : Type) : Type := mkExt {
  (** the message and the chain *)
  ext_msg_nonce : Z;
  ext_gas_premium : Z;
  ext_read_only : bool;
  ext_base_fee : Z;
  ext_chain_id : Z;
  ext_timestamp : Z;
  (** the gas available at the n-th time it is read *)
  ext_gas : nat -> Z;
  ext_tipset_cid : Z -> option (list Z);
  (** the beacon value of an epoch, or the exit code of the failure *)
  ext_beacon : Z -> list Z + ExitCode;
  (** the state tree *)
  ext_actor_balance : Net -> Z -> option Z;
  ext_lookup_delegated_address : Net -> Z -> option Address;
  (** whether an event (keys and values) is accepted *)
  ext_emit : list (list Z * list Z) -> bool;
  (** primitives *)
  ext_keccak256 : list Z -> list Z;
  ext_sha256 : list Z -> list Z;
  ext_ripemd160 : list Z -> list Z;
  ext_recover_secp : list Z -> list Z -> option (list Z);
  (** codecs: CBOR, addresses, the numbers of errors *)
  ext_address_from_bytes : list Z -> option Address;
  ext_address_to_bytes : Address -> list Z;
  ext_enc_create : list Z -> Z -> IpldBlock;
  ext_enc_create2 : list Z -> list Z -> IpldBlock;
  ext_enc_delegate : list Z -> list Z -> EthAddress -> Z -> IpldBlock;
  ext_enc_bytes : list Z -> IpldBlock;
  ext_dec_bytes : IpldBlock -> option (list Z);
  ext_dec_create_return : IpldBlock -> option EthAddress;
  ext_dec_bytecode : IpldBlock -> option (option (list Z));
  ext_dec_hash : IpldBlock -> option (list Z);
  ext_errno : ErrorNumber -> Z;
  ext_exit_value : ExitCode -> Z;
  ext_exit_code : Z -> ExitCode;
  (** FRC-42 hash of InvokeEVM *)
  ext_InvokeContract : Z;
}.
Arguments ext_msg_nonce {Net}.
Arguments ext_gas_premium {Net}.
Arguments ext_read_only {Net}.
Arguments ext_base_fee {Net}.
Arguments ext_chain_id {Net}.
Arguments ext_timestamp {Net}.
Arguments ext_gas {Net}.
Arguments ext_tipset_cid {Net}.
Arguments ext_beacon {Net}.
Arguments ext_actor_balance {Net}.
Arguments ext_lookup_delegated_address {Net}.
Arguments ext_emit {Net}.
Arguments ext_keccak256 {Net}.
Arguments ext_sha256 {Net}.
Arguments ext_ripemd160 {Net}.
Arguments ext_recover_secp {Net}.
Arguments ext_address_from_bytes {Net}.
Arguments ext_address_to_bytes {Net}.
Arguments ext_enc_create {Net}.
Arguments ext_enc_create2 {Net}.
Arguments ext_enc_delegate {Net}.
Arguments ext_enc_bytes {Net}.
Arguments ext_dec_bytes {Net}.
Arguments ext_dec_create_return {Net}.
Arguments ext_dec_bytecode {Net}.
Arguments ext_dec_hash {Net}.
Arguments ext_errno {Net}.
Arguments ext_exit_value {Net}.
Arguments ext_exit_code {Net}.
Arguments ext_InvokeContract {Net}.

(** ** The system *)

Definition MAX_CODE_SIZE : Z := Z.shiftl 24 10.

Record EvmBytecode : Type := mkEvmBytecode {
  eb_code : list Z;
  evm_hash : list Z;
}.

Record System : Type := mkSystem {
  sys_bytecode : option EvmBytecode;
  sys_slots : gmap Z Z;
  sys_transient_slots : gmap Z Z;
  sys_lifespan : TransientDataLifespan;
  sys_nonce : Z;
  saved_state_root : option State;
  readonly : bool;
  randomness : option (list Z);
  sys_tombstone : option Tombstone;
}.

Definition set_saved (r : option State) (s : System) : System :=
  mkSystem (sys_bytecode s) (sys_slots s) (sys_transient_slots s) (sys_lifespan s) (sys_nonce s)
    r (readonly s) (randomness s) (sys_tombstone s).
Definition set_sys_bytecode (b : option EvmBytecode) (s : System) : System :=
  mkSystem b (sys_slots s) (sys_transient_slots s) (sys_lifespan s) (sys_nonce s)
    (saved_state_root s) (readonly s) (randomness s) (sys_tombstone s).
Definition set_slots (m : gmap Z Z) (s : System) : System :=
  mkSystem (sys_bytecode s) m (sys_transient_slots s) (sys_lifespan s) (sys_nonce s)
    (saved_state_root s) (readonly s) (randomness s) (sys_tombstone s).
Definition set_transient_slots (m : gmap Z Z) (s : System) : System :=
  mkSystem (sys_bytecode s) (sys_slots s) m (sys_lifespan s) (sys_nonce s)
    (saved_state_root s) (readonly s) (randomness s) (sys_tombstone s).
Definition set_sys_nonce (n : Z) (s : System) : System :=
  mkSystem (sys_bytecode s) (sys_slots s) (sys_transient_slots s) (sys_lifespan s) n
    (saved_state_root s) (readonly s) (randomness s) (sys_tombstone s).
Definition set_randomness (r : option (list Z)) (s : System) : System :=
  mkSystem (sys_bytecode s) (sys_slots s) (sys_transient_slots s) (sys_lifespan s) (sys_nonce s)
    (saved_state_root s) (readonly s) r (sys_tombstone s).
Definition set_sys_tombstone (t : option Tombstone) (s : System) : System :=
  mkSystem (sys_bytecode s) (sys_slots s) (sys_transient_slots s) (sys_lifespan s) (sys_nonce s)
    (saved_state_root s) (readonly s) (randomness s) t.

Section system.
Context {Net : Type} (env : Env Net State SendParams IpldBlock) (ctx : Ctx) (ext : EvmExt Net).

Notation W := (World Net State SendParams).
Notation RM := (M Net State SendParams IpldBlock).

(** What the code of a contract changes: the system, the actor's world and
    the number of times the gas was read. *)
Record Vm : Type := mkVm {
  vm_sys : System;
  vm_world : W;
  vm_tick : nat;
}.

(** Errors of a callee are handled by the interpreter, so the changes made
    before an error are kept. *)
Notation EM := (St Vm (ActorError IpldBlock)).

(** A call of the runtime. *)
Definition rt {A} (m : RM A) : EM A := fun vm =>
  match m (vm_world vm) with
  | Ok (a, w) => (Ok a, mkVm (vm_sys vm) w (vm_tick vm))
  | Err e => (Err e, vm)
  | Panic => (Panic, vm)
  end.

Definition raise {A} (c : ExitCode) : EM A := sfail (err c).
Definition get_sys : EM System := fun vm => (Ok (vm_sys vm), vm).
Definition put_sys (s : System) : EM unit := fun vm =>
  (Ok tt, mkVm s (vm_world vm) (vm_tick vm)).
Definition mod_sys (f : System -> System) : EM unit := fun vm =>
  (Ok tt, mkVm (f (vm_sys vm)) (vm_world vm) (vm_tick vm)).

(** [Runtime::get_state_root], [set_state_root]. *)
Definition get_state_root : EM (option State) := fun vm => (Ok (w_state (vm_world vm)), vm).
Definition set_state_root (s : State) : EM unit := fun vm =>
  (Ok tt, mkVm (vm_sys vm) (set_state s (vm_world vm)) (vm_tick vm)).

(** [Runtime::gas_available]. *)
Definition gas_available : EM Z := fun vm =>
  (Ok (ext_gas ext (vm_tick vm)), mkVm (vm_sys vm) (vm_world vm) (S (vm_tick vm))).

Definition current_tombstone : Tombstone := mkTombstone (ctx_origin ctx) (ext_msg_nonce ext).

Definition is_dead (state : State) : bool :=
  match st_tombstone state with
  | Some t => negb (bool_decide (t = current_tombstone))
  | None => false
  end.

Definition get_current_transient_data_lifespan : TransientDataLifespan :=
  mkLifespan (ctx_origin ctx) (ext_msg_nonce ext).

Definition new_system (readonly : bool) : System :=
  mkSystem None ∅ ∅ get_current_transient_data_lifespan 1 None readonly None None.

(** The state at the root, or the error of decoding the empty object. *)
Definition root_state (w : W) : Rs State := ok_or (w_state w) (err USR_SERIALIZATION).

Definition resurrect_system (w : W) : Rs System :=
  let! state := root_state w in
  if negb (is_dead state) then fail USR_FORBIDDEN
  else Ok (new_system (ext_read_only ext)).

Definition create_system (w : W) : Rs System :=
  match w_state w with
  | Some _ => fail USR_ILLEGAL_STATE
  | None => Ok (new_system (ext_read_only ext))
  end.

(** The transient slots a state gives to the current message. *)
Definition live_transient (lifespan : TransientDataLifespan) (state : State) : gmap Z Z :=
  match transient_data state with
  | Some td =>
      if bool_decide (transient_data_lifespan td = lifespan) then transient_data_state td else ∅
  | None => ∅
  end.

Definition load_system (w : W) : Rs System :=
  let! state := root_state w in
  if is_dead state then Ok (new_system true)
  else
    let lifespan := get_current_transient_data_lifespan in
    Ok (mkSystem (Some (mkEvmBytecode (st_bytecode state) (st_bytecode_hash state)))
          (contract_state state) (live_transient lifespan state) lifespan (st_nonce state)
          (Some state) (ext_read_only ext) None (st_tombstone state)).

Definition increment_nonce : EM unit :=
  let& s := get_sys in
  let& n := slift (chk_u64 (sys_nonce s + 1)) in
  put_sys (set_sys_nonce n (set_saved None s)).

Definition set_bytecode (bytecode : list Z) : EM EvmBytecode :=
  let& _ := mod_sys (set_saved None) in
  if len bytecode >? MAX_CODE_SIZE then raise USR_ILLEGAL_ARGUMENT
  else if bool_decide (head bytecode = Some 0xEF) then raise USR_ILLEGAL_ARGUMENT
  else
    let code_hash := ext_keccak256 ext bytecode in
    if negb (len code_hash =? 32) then raise USR_ASSERTION_FAILED
    else
      let bytecode := mkEvmBytecode bytecode code_hash in
      let& _ := mod_sys (set_sys_bytecode (Some bytecode)) in
      sret bytecode.

Definition flush : EM unit :=
  let& s := get_sys in
  match saved_state_root s with
  | Some _ => sret tt
  | None =>
      if readonly s then raise USR_FORBIDDEN
      else
        let& b := match sys_bytecode s with
                  | Some b => sret b
                  | None => set_bytecode []
                  end in
        let& s := get_sys in
        let transient_data :=
          if bool_decide (sys_transient_slots s = ∅) then None
          else Some (mkTransient (sys_transient_slots s) (sys_lifespan s)) in
        let new_root :=
          mkState (eb_code b) (evm_hash b) (sys_slots s) transient_data (sys_nonce s)
            (sys_tombstone s) in
        let& _ := set_state_root new_root in
        mod_sys (set_saved (Some new_root))
  end.

Definition reload : EM unit :=
  let& s := get_sys in
  if readonly s then sret tt
  else
    let& root := get_state_root in
    if bool_decide (saved_state_root s = root) && bool_decide (root <> None) then sret tt
    else
      let& state := slift (ok_or root (err USR_SERIALIZATION)) in
      put_sys (mkSystem (Some (mkEvmBytecode (st_bytecode state) (st_bytecode_hash state)))
        (contract_state state) (live_transient (sys_lifespan s) state) (sys_lifespan s)
        (st_nonce state) (Some state) (readonly s) (randomness s) (st_tombstone state)).

Definition transfer (to : Address) (value : Z) : EM unit :=
  let& res := rt (send env (mkSend to METHOD_SEND (mkParams None None) value false)) in
  let& _ := slift (extract_send_result res) in
  sret tt.

Definition send_raw (to : Address) (method : Z) (params : option IpldBlock) (value : Z)
    (gas_limit : option Z) (read_only : bool) : EM (Response IpldBlock + ErrorNumber) :=
  let& _ := flush in
  let& result := rt (send env (mkSend to method (mkParams params gas_limit) value read_only)) in
  let& _ :=
    match result with
    | inl r => if is_success (resp_code r) then reload else sret tt
    | inr _ => sret tt
    end in
  sret result.

Definition sys_send (to : Address) (method : Z) (params : option IpldBlock) (value : Z)
    (gas_limit : option Z) (read_only : bool) : EM (option IpldBlock) :=
  let& result := send_raw to method params value gas_limit read_only in
  match result with
  | inr _ => raise USR_UNSPECIFIED
  | inl r =>
      if negb (is_success (resp_code r))
      then sfail (checked (resp_code r) (resp_data r))
      else sret (resp_data r)
  end.

Definition get_bytecode : EM (option (list Z)) :=
  let& s := get_sys in sret (eb_code <$> sys_bytecode s).

(** ** Storage *)

Definition get_storage (key : Z) : EM Z :=
  let& s := get_sys in sret (default 0 (sys_slots s !! key)).

(** Writing a slot: the new map and whether it changed. *)
Definition update_slot (slots : gmap Z Z) (key value : Z) : gmap Z Z * bool :=
  if value =? 0 then (delete key slots, bool_decide (is_Some (slots !! key)))
  else (<[key := value]> slots, negb (bool_decide (slots !! key = Some value))).

Definition set_storage (key value : Z) : EM unit :=
  let& s := get_sys in
  let '(slots, changed) := update_slot (sys_slots s) key value in
  let s := set_slots slots s in
  put_sys (if changed then set_saved None s else s).

Definition get_transient_storage (key : Z) : EM Z :=
  let& s := get_sys in sret (default 0 (sys_transient_slots s !! key)).

Definition set_transient_storage (key value : Z) : EM unit :=
  let& s := get_sys in
  let '(slots, changed) := update_slot (sys_transient_slots s) key value in
  let s := set_transient_slots slots s in
  put_sys (if changed then set_saved None s else s).

(** ** Addresses, randomness, gas *)

(** The Ethereum address a delegated address of the EAM holds. *)
Definition eam_subaddress (a : Address) : option (list Z) :=
  match a with
  | AddrOther p (ns :: sub) => if (p =? 4) && (ns =? EAM_ACTOR_ID) then Some sub else None
  | _ => None
  end.

Definition resolve_ethereum_address (addr : Address) : EM EthAddress :=
  match eam_subaddress addr with
  | Some sub => if len sub =? 20 then sret sub else raise USR_ILLEGAL_STATE
  | None =>
      let& actor_id := rt (resolve_address env addr) in
      match actor_id with
      | None => raise USR_ILLEGAL_STATE
      | Some actor_id =>
          let& w := rt get_world in
          match ext_lookup_delegated_address ext (w_net w) actor_id with
          | Some a =>
              match eam_subaddress a with
              | Some sub => if len sub =? 20 then sret sub else raise USR_ILLEGAL_STATE
              | None => sret (Eth.from_id actor_id)
              end
          | None => sret (Eth.from_id actor_id)
          end
      end
  end.

(** [draw_randomness] (runtime/randomness.rs). *)
Definition draw_randomness (hasher : list Z -> list Z) (rbase : list Z) (pers round : Z)
    (entropy : list Z) : list Z :=
  hasher (be_bytes 8 pers ++ rbase ++ be_bytes 8 round ++ entropy).

Definition EvmPrevRandao : Z := 10.

(** [b"prevrandao"]. *)
Definition ENTROPY : list Z := [112; 114; 101; 118; 114; 97; 110; 100; 97; 111].

(** [Runtime::get_randomness_from_beacon]. *)
Definition get_randomness_from_beacon (pers epoch : Z) (entropy : list Z) : Rs (list Z) :=
  match ext_beacon ext epoch with
  | inr c => fail c
  | inl digest => Ok (draw_randomness (env_hash_blake2b env) digest pers epoch entropy)
  end.

Definition get_randomness : EM (list Z) :=
  let& s := get_sys in
  match randomness s with
  | Some rand => sret rand
  | None =>
      let& rand := slift (get_randomness_from_beacon EvmPrevRandao (ctx_epoch ctx) ENTROPY) in
      let& _ := put_sys (set_randomness (Some rand) s) in
      sret rand
  end.

Definition mark_selfdestructed : EM unit :=
  mod_sys (fun s => set_sys_tombstone (Some current_tombstone) (set_saved None s)).

(** 63/64 of the available gas. *)
Definition gas_reserve : EM Z :=
  let& g := gas_available in
  let& p := slift (chk_u64 (63 * g)) in
  sret (p / 64).

Definition call_gas_limit (gas : Z) : EM Z :=
  let& gas_rsvp := gas_reserve in
  sret (Z.min (U256.to_u64_saturating gas) gas_rsvp).
End system.

Arguments Vm : clear implicits.
Arguments mkVm {Net}.
Arguments vm_sys {Net}.
Arguments vm_world {Net}.
Arguments vm_tick {Net}.
