(* ===== verification/Eam.v ===== *)
(** * The Ethereum address manager

    Models src/actors/eam/src/lib.rs and ext.rs: the actor that computes the
    address of a new contract by Ethereum's rules and has the init actor create
    it, or has the EVM actor resurrect it.  The last section composes it with
    the init actor of Init.v.

    The RLP encoding, Keccak-256, the bytes of an address, the CBOR decoding of
    the two return values it reads, the kernel's lookup of delegated addresses
    and the code of a built-in type are arguments. *)

From S2P Require Import Prelude Runtime Init EvmWord EvmMachine EvmSystem.

Module Eam.

(** What the sources only call. *)
Record Ext (Net : Type) : Type := mkExt {
  (** The stream of a two-element list: an address and a nonce. *)
  x_rlp : EthAddress -> Z -> list Z;
  x_keccak : list Z -> list Z;
  x_address_bytes : Address -> list Z;
  x_lookup_delegated : Net -> Z -> option Address;
  x_code_cid_for_type : ActorType -> Z;
  x_dec_exec4 : list Z -> option (Address * Address);
  x_dec_address : list Z -> option Address;
}.
Arguments x_rlp {Net}.
Arguments x_keccak {Net}.
Arguments x_address_bytes {Net}.
Arguments x_lookup_delegated {Net}.
Arguments x_code_cid_for_type {Net}.
Arguments x_dec_exec4 {Net}.
Arguments x_dec_address {Net}.

(** ext.rs *)
Definition EXEC4_METHOD : Z := 3.
Definition RESURRECT_METHOD : Z := 2.
Definition PUBKEY_ADDRESS_METHOD : Z := 2.

Record ConstructorParams : Type := mkCP {
  cp_creator : EthAddress;
  cp_initcode : list Z;
}.

(** The parameters of the messages the actor sends. *)
Inductive Param : Type :=
| PNone
| PConstruct (p : ConstructorParams)
| PExec4 (code_cid : Z) (p : ConstructorParams) (subaddress : list Z).

Record Return : Type := mkReturn {
  actor_id : Z;
  ret_robust_address : option Address;
  eth_address : EthAddress;
}.

Inductive Msg : Type :=
| Constructor
| Create (initcode : list Z) (nonce : Z)
| Create2 (initcode salt : list Z)
| CreateExternal (initcode : list Z)
| OtherMethod (n : Z).

Definition can_assign_address (a : EthAddress) : bool :=
  negb (Eth.is_precompile a) && negb (Eth.is_id a) && negb (Eth.is_null a).

Section methods.
Context {Net S : Type} (x : Ext Net) (env : Env Net S Param (list Z)) (ctx : Ctx) (msg_nonce : Z).

Notation M := (M Net S Param (list Z)).
Notation error := (ActorError (list Z)).

(** A slice of fewer than 32 bytes panics. *)
Definition hash_20 (data : list Z) : Res error EthAddress :=
  let h := x_keccak x data in
  if (length h <? 32)%nat then Panic else Ok (take 20 (drop 12 h)).

Definition compute_address_create (from : EthAddress) (nonce : Z) : Res error EthAddress :=
  hash_20 (x_rlp x from nonce).

Definition compute_address_create2 (from salt initcode : list Z) : Res error EthAddress :=
  let inithash := x_keccak x initcode in
  hash_20 ([0xff] ++ from ++ salt ++ inithash).

Definition compute_address_create_external (from : EthAddress) : Res error EthAddress :=
  compute_address_create from msg_nonce.

Definition from_exec4 (r : Address * Address) (eth : EthAddress) : Res error Return :=
  let! id := expect (addr_id (fst r)) in
  Ok (mkReturn id (Some (snd r)) eth).

(** The last part: the init actor creates the contract. *)
Definition create_by_init (params : ConstructorParams) (new_addr : EthAddress) : M Return :=
  let* res := send_simple env INIT_ACTOR_ADDR EXEC4_METHOD
                (PExec4 (x_code_cid_for_type x TEVM) params new_addr) (ctx_value_received ctx) in
  let* data := lift (extract_send_result res) in
  let* r := lift (deserialize_block (x_dec_exec4 x) data) in
  lift (from_exec4 r new_addr).

Definition create_actor (creator new_addr : EthAddress) (initcode : list Z) : M Return :=
  if negb (can_assign_address new_addr) then throw USR_FORBIDDEN
  else
    let params := mkCP creator initcode in
    let f4_addr := delegated EAM_ACTOR_ID new_addr in
    let* resolved := resolve_address env f4_addr in
    match resolved with
    | Some id =>
        let* code := get_actor_code_cid env id in
        let* code := lift (expect code) in
        match env_builtin_type env code with
        | Some TEVM =>
            let* res := send_simple env (AddrId id) RESURRECT_METHOD (PConstruct params)
                          (ctx_value_received ctx) in
            let* _ := lift (extract_send_result res) in
            ret (mkReturn id None new_addr)
        | Some TPlaceholder => create_by_init params new_addr
        | _ => throw USR_FORBIDDEN
        end
    | None => create_by_init params new_addr
    end.

Definition resolve_eth_address (id : Z) : M EthAddress := fun w =>
  match x_lookup_delegated x (w_net w) id with
  | Some a =>
      match eam_subaddress a with
      | Some sub => if len sub =? 20 then Ok (sub, w) else Err (err USR_FORBIDDEN)
      | None => Err (err USR_FORBIDDEN)
      end
  | None => Err (err USR_FORBIDDEN)
  end.

Definition resolve_caller_external : M (EthAddress * EthAddress) :=
  let* code := get_actor_code_cid env (ctx_caller ctx) in
  let* code := lift (expect code) in
  match env_builtin_type env code with
  | Some TAccount =>
      let* res := send env (mkSend (caller ctx) PUBKEY_ADDRESS_METHOD PNone 0 true) in
      match res with
      | inr _ => throw USR_ASSERTION_FAILED
      | inl r =>
          if negb (is_success (resp_code r)) then fun _ => Err (checked (resp_code r) None)
          else
            let* robust_addr := lift (deserialize_block (x_dec_address x) (resp_data r)) in
            let* robust_eth := lift (hash_20 (x_address_bytes x robust_addr)) in
            ret (Eth.from_id (ctx_caller ctx), robust_eth)
      end
  | Some TEthAccount =>
      let* addr := resolve_eth_address (ctx_caller ctx) in
      ret (addr, addr)
  | _ => throw USR_FORBIDDEN
  end.

Definition constructor : M unit :=
  let* id := resolve_address env (receiver ctx) in
  let* id := lift (expect id) in
  if negb (id =? EAM_ACTOR_ID) then throw USR_FORBIDDEN
  else validate_immediate_caller_is ctx [SYSTEM_ACTOR_ADDR].

Definition create (initcode : list Z) (nonce : Z) : M Return :=
  let* _ := validate_immediate_caller_type env ctx [TEVM] in
  let* caller_addr := resolve_eth_address (ctx_caller ctx) in
  let* eth_addr := lift (compute_address_create caller_addr nonce) in
  create_actor caller_addr eth_addr initcode.

Definition create2 (initcode salt : list Z) : M Return :=
  let* _ := validate_immediate_caller_type env ctx [TEVM] in
  let* caller_addr := resolve_eth_address (ctx_caller ctx) in
  let* eth_addr := lift (compute_address_create2 caller_addr salt initcode) in
  create_actor caller_addr eth_addr initcode.

Definition create_external (initcode : list Z) : M Return :=
  let* _ := validate_immediate_caller_is ctx [AddrId (ctx_origin ctx)] in
  let* (owner_addr, stable_addr) := resolve_caller_external in
  let* eth_addr := lift (compute_address_create_external stable_addr) in
  create_actor owner_addr eth_addr initcode.

(** [actor_dispatch_unrestricted!]; parameters that do not decode are refused. *)
Definition invoke_method (m : Msg) : M (option Return) :=
  match m with
  | Constructor => let* _ := constructor in ret None
  | Create initcode nonce =>
      if negb (in_u64 nonce) then throw USR_SERIALIZATION
      else let* r := create initcode nonce in ret (Some r)
  | Create2 initcode salt =>
      if negb (len salt =? 32) then throw USR_SERIALIZATION
      else let* r := create2 initcode salt in ret (Some r)
  | CreateExternal initcode => let* r := create_external initcode in ret (Some r)
  | OtherMethod _ => throw USR_UNHANDLED_MESSAGE
  end.
End methods.

(** ** Composition with the init actor *)

Section with_init.
Context {Net S : Type} (x : Ext Net) (env : Env Net S Param (list Z)) (ctx : Ctx).
Context {INet : Type} (k : Init.Kernel INet) (ienv : Env INet Init.State (list Z) (list Z)).
(** The init actor's part of the network, and the bytes of its parameters. *)
Context (init_state : Net -> option Init.State) (enc : ConstructorParams -> list Z).

(** The init actor behaves as Init.v says: an [Exec4] from the address manager
    that succeeds is a run of [Init.exec4], and returns its result. *)
Definition init_law : Prop := forall code p sub v net s bal d,
  let out := env_send env (mkSend INIT_ACTOR_ADDR EXEC4_METHOD (PExec4 code p sub) v false) net s bal in
  so_result out = inl (mkResp EC_OK d) ->
  exists ictx w r w', ctx_caller ictx = EAM_ACTOR_ID /\
    Init.exec4 k ienv ictx (Init.mkExec4 code (enc p) sub) w = Ok (r, w') /\
    init_state net = w_state w /\ init_state (so_net out) = w_state w' /\
    forall data, d = Some data ->
      x_dec_exec4 x data = Some (Init.id_address r, Init.robust_address r).

(** The init actor keeps its state well formed and only calls back into
    itself; addresses of the kernel have the form it documents. *)
Record init_ok : Prop := {
  io_reach : forall req net s bal,
    reach (Init.invoke_method k) s (so_state (env_send ienv req net s bal));
  io_actor : forall net, addr_id (Init.k_next_actor_address k net) = None;
  io_delegated : forall ns sub d, Init.k_new_delegated k ns sub = Some d -> d = delegated ns sub;
}.

Lemma create_by_init_run params new_addr w r w' :
  create_by_init x env ctx params new_addr w = Ok (r, w') ->
  exists d data ids, let out := env_send env (mkSend INIT_ACTOR_ADDR EXEC4_METHOD
      (PExec4 (x_code_cid_for_type x TEVM) params new_addr) (ctx_value_received ctx) false)
      (w_net w) (w_state w) (w_balance w) in
    so_result out = inl (mkResp EC_OK d) /\ d = Some data /\ x_dec_exec4 x data = Some ids /\
    addr_id (fst ids) = Some (actor_id r) /\ ret_robust_address r = Some (snd ids) /\
    eth_address r = new_addr /\ w_net w' = so_net out.
Proof.
  unfold create_by_init. intros H. run_inv.
  match goal with H : deserialize_block _ ?d = Ok _ |- _ => destruct d as [data|] eqn:Hd; [|discriminate];
    unfold deserialize_block in H; cbn [ok_or rbind] in H; apply ok_or_ok in H end.
  unfold from_exec4 in *. res_inv.
  match goal with H : extract_send_result ?r = Ok _ |- _ => destruct r as [[c d]|] eqn:Hr; [|discriminate];
    unfold extract_send_result in H; cbn [resp_code resp_data] in H; destruct c; try discriminate H;
    cbn in H; injection H as -> end.
  match goal with H : addr_id (fst ?ids) = Some _ |- _ => exists (Some data), data, ids end. done.
Qed.

(** C40: contract creation, across both actors: when the address manager returns a
    contract it had created, the contract's Ethereum address is not reserved,
    and the init actor resolves the contract's delegated address and its
    robust address to the ID the caller is given. *)
Theorem eam_contract_resolves creator new_addr initcode w r w' ist :
  init_law -> init_ok -> init_state (w_net w) = Some ist -> Init.wf ist ->
  create_actor x env ctx creator new_addr initcode w = Ok (r, w') ->
  can_assign_address new_addr = true /\ eth_address r = new_addr /\
  match ret_robust_address r with
  | Some robust => exists ist', init_state (w_net w') = Some ist' /\
      Init.resolve_address ist robust = None /\
      Init.resolve_address ist' robust = Some (AddrId (actor_id r)) /\
      Init.resolve_address ist' (delegated EAM_ACTOR_ID new_addr) = Some (AddrId (actor_id r))
  | None => env_resolve_address env (w_net w) (delegated EAM_ACTOR_ID new_addr) = Some (actor_id r)
  end.
Proof.
  intros Hlaw Hio Hist Hwf H. unfold create_actor in H.
  destruct (negb (can_assign_address new_addr)) eqn:Hcan; [by apply throw_ok in H|]. bool_prop.
  split; [done|]. apply bind_ok in H as (res & ? & [-> ->]%resolve_address_ok & H).
  assert (create_by_init x env ctx (mkCP creator initcode) new_addr w = Ok (r, w') \/
    (eth_address r = new_addr /\ ret_robust_address r = None /\
     env_resolve_address env (w_net w) (delegated EAM_ACTOR_ID new_addr) = Some (actor_id r)))
    as [Hi|(-> & -> & ?)]; [|clear H|done].
  { destruct (env_resolve_address _ _ _) as [i|]; [|by left]. run_inv.
    destruct (env_builtin_type env _) as [[]|]; run_inv; [by left|right; done]. }
  apply create_by_init_run in Hi as (d & data & ids & Hr & -> & Hdec & Hid & Hrob & -> & Hnet).
  split; [done|]. rewrite Hrob.
  apply Hlaw in Hr as (ictx & iw & ir & iw' & Hcal & Hrun & Hs & Hs' & Hdec').
  rewrite (Hdec' data eq_refl) in Hdec. injection Hdec as <-. rewrite Hist in Hs.
  apply (Init.exec4_resolves k ienv ictx _ iw ir iw' ist (io_reach Hio) (io_actor Hio)) in Hrun
    as (ist' & dd & Hst' & Hdd & H1 & H2 & H3 & _); [| |done|done].
  2: { intros ns sub dd ->%(io_delegated Hio). done. }
  rewrite Hcal in Hdd. apply (io_delegated Hio) in Hdd as ->.
  exists ist'. rewrite Hnet, Hs'. cbn [fst snd] in *.
  destruct (Init.id_address ir) as [i|]; [|discriminate]. injection Hid as <-. done.
Qed.
End with_init.
End Eam.
