(* ===== verification/SmallDemo.v ===== *)
(** * Runs of the smaller actors

    Concrete environments in which the hypotheses of the theorems on the
    reward, init, address manager, cron, account and data cap actors hold, and
    the theorems at them. *)

From S2P Require Import Prelude Runtime Trace Chain Smooth Reward RewardProps Init Singletons Datacap EvmWord EvmMachine EvmSystem Eam.

Module SmallDemo.

(** Every send succeeds and changes nothing; callers are system actors. *)
Definition quiet_env {S P : Type} : Env unit S P (list Z) :=
  mkEnv (fun _ a => addr_id a) (fun _ _ => Some 0) (fun _ => Some TSystem) (fun l => l)
    (fun req net s bal => mkSendOut (inl (mkResp EC_OK None)) s (bal - send_value req) net).

Definition system_ctx : Ctx := mkCtx 0 0 2 0 5.

(** ** The reward actor *)

Definition reward_run : Exit Reward.Ret (World unit Reward.State Reward.Param) :=
  trampoline Reward.invoke_method quiet_env system_ctx (Reward.Constructor (Some (10 ^ 18))) None 1000 tt.

Definition reward_world : World unit Reward.State Reward.Param :=
  match reward_run with
  | Committed _ w => w
  | Aborted _ => mkWorld None 0 tt false false []
  end.

Definition reward_state : Reward.State :=
  default (Reward.mkState 0 0 0 0 0 (estimate_new 0 0) 0 0 0 0 0) (w_state reward_world).

Lemma reward_reached : reward_chain (Net := unit) (mkConf 5 None 1000) (mkConf 5 (Some reward_state) 1000).
Proof.
  eapply (chain_msg _ _ _ _ _ _ _ quiet_env system_ctx (Reward.Constructor (Some (10 ^ 18))) 5 None 1000 1000 tt
    Reward.RUnit reward_world); [exact I| |reflexivity|reflexivity|cbn; lia|reflexivity|vm_compute; reflexivity|vm_compute; reflexivity|].
  - intros req w r w' [-> ->]%send_ok. cbn. apply chain_refl.
  - replace (mkConf 5 (w_state reward_world) (w_balance reward_world))
      with (mkConf 5 (Some reward_state) 1000) by (vm_compute; reflexivity).
    apply chain_refl.
Defined.

Lemma reward_network_time_witness :
  0 <= Reward.effective_network_time reward_state <= Reward.epoch reward_state + 1.
Proof. exact (proj1 (reward_network_time 5 1000 _ _ reward_reached eq_refl)). Defined.

Definition award : Reward.AwardBlockRewardParams := Reward.mkAward (AddrId 1000) 2 30 1.
Definition award_world : World unit Reward.State Reward.Param :=
  mkWorld (Some reward_state) 1000 tt false false [].

Lemma award_block_reward_spec_witness : exists w' st miner,
  Reward.award_block_reward quiet_env system_ctx award award_world = Ok (tt, w') /\
  w_state award_world = Some st /\
  env_resolve_address (quiet_env (S := Reward.State) (P := Reward.Param)) tt (Reward.aw_miner award) = Some miner.
Proof.
  assert (Reward.award_block_reward quiet_env system_ctx award award_world = Ok (tt, _)) as H
    by (vm_compute; reflexivity).
  destruct (award_block_reward_spec quiet_env system_ctx award award_world tt _ H)
    as (st & miner & _ & Hst & Hm & _).
  eexists _, st, miner. split; [exact H|]. split; [exact Hst|exact Hm].
Defined.

(** ** Cron *)

Definition cron_state : Cron.State := Cron.mkState [Cron.mkEntry (AddrId 4) 5; Cron.mkEntry (AddrId 5) 9].
Definition cron_world : World unit Cron.State unit := mkWorld (Some cron_state) 0 tt false false [].

Lemma cron_calls_every_entry_witness : exists w',
  Cron.epoch_tick quiet_env system_ctx cron_world = Ok (tt, w') /\
  w_sent w' = [] ++ map Cron.entry_req (Cron.entries cron_state).
Proof. exact (Cron.cron_calls_every_entry quiet_env system_ctx cron_world cron_state eq_refl eq_refl eq_refl). Defined.

(** ** Accounts *)

Definition key : Address := AddrOther 1 [7; 7].
Definition accepts (_ : Account.SignatureType) (s : list Z) (_ : Address) (m : list Z) : bool :=
  bool_decide (s = m).
Definition account_invoke (env : Env unit Account.State unit (list Z)) (ctx : Ctx) :=
  Account.invoke_method env ctx accepts 2643134072.

Lemma account_reached : reach account_invoke None (Some (Account.mkState key)).
Proof.
  eapply (reach_msg _ quiet_env system_ctx (Account.Constructor key) None 0 tt).
  - intros req net s bal. apply reach_refl.
  - reflexivity.
  - vm_compute. reflexivity.
  - reflexivity.
  - apply reach_refl.
Defined.

Lemma account_key_immutable_witness : exists ty,
  Account.signature_type (Account.address (Account.mkState key)) = Some ty /\
  forall s', reach account_invoke (Some (Account.mkState key)) s' -> s' = Some (Account.mkState key).
Proof.
  destruct (Account.account_key_immutable accepts 2643134072 _ account_reached (Account.mkState key) eq_refl)
    as (ty & H & Hs & _). eauto.
Defined.

(** ** The init actor *)

Definition toy_kernel : Init.Kernel unit :=
  Init.mkKernel unit (fun _ => AddrOther 2 [0]) (fun net _ _ _ => inl net)
    (fun t => if decide (t = TPlaceholder) then 5 else 6) (fun ns sub => Some (delegated ns sub)).

(** Code 1 is the multisig's. *)
Definition init_env : Env unit Init.State (list Z) (list Z) :=
  mkEnv (fun _ a => addr_id a) (fun _ _ => Some 0)
    (fun c => if c =? 1 then Some TMultisig else Some TSystem) (fun l => l)
    (fun req net s bal => mkSendOut (inl (mkResp EC_OK None)) s (bal - send_value req) net).

Definition init_state : Init.State := Init.new_state "net".
Definition init_state' : Init.State := Init.mkState {[AddrOther 2 [0] := 100]} 101 "net".

Definition init_world : World unit Init.State (list Z) := mkWorld (Some init_state) 0 tt false false [].
Definition init_world' : World unit Init.State (list Z) :=
  mkWorld (Some init_state') 0 tt true false [mkSend (AddrId 100) 1 [] 0 false].
Definition create_multisig : Init.Msg := Init.Exec (Init.mkExec 1 []).

(** No nested allotment. *)
Definition none_allotted (_ : SendReq (list Z)) (_ : unit) (_ : option Init.State) (_ : Z) : list Z := [].

Lemma init_env_traced : traced (Init.invoke_method toy_kernel) (Init.act toy_kernel) init_env none_allotted.
Proof. intros req net s bal. apply trace_nil. Qed.

Lemma init_state_wf : Init.wf init_state.
Proof. split; [done|]. intros a id H. cbn in H. by rewrite lookup_empty in H. Qed.

Lemma init_addresses_stable_witness : exists ids,
  events init_env none_allotted (Init.act toy_kernel init_env system_ctx create_multisig) init_world ids init_world' /\
  NoDup ids.
Proof.
  destruct (Init.init_addresses_stable toy_kernel init_env none_allotted system_ctx create_multisig init_world
    (Some (Init.mkExecReturn (AddrId 100) (AddrOther 2 [0]))) init_world') as (ids & He & Hnd & _);
    [exact init_env_traced|reflexivity|exact init_state_wf|vm_compute; reflexivity|].
  exists ids. split; [exact He|exact Hnd].
Defined.

(** ** The address manager and the init actor together *)

Definition eam_ext : Eam.Ext (option Init.State) :=
  Eam.mkExt _ (fun a n => n :: a) (fun l => replicate 32 9) (fun _ => []) (fun _ _ => None) (fun _ => 6)
    (fun d => match d with [i] => Some (AddrId i, AddrOther 2 [0]) | _ => None end) (fun _ => None).

Definition eam_ctx : Ctx := mkCtx 500 500 10 0 5.
(** The message the init actor receives. *)
Definition from_eam : Ctx := mkCtx 10 500 1 0 5.
Definition enc_params (p : Eam.ConstructorParams) : list Z := Eam.cp_creator p ++ Eam.cp_initcode p.

Definition id_or_0 (r : Init.ExecReturn) : Z := default 0 (addr_id (Init.id_address r)).

Definition run_init (code : Z) (p : Eam.ConstructorParams) (sub : list Z) (ist : option Init.State) :=
  Init.exec4 toy_kernel init_env from_eam (Init.mkExec4 code (enc_params p) sub)
    (mkWorld ist 0 tt false false []).

Definition eam_env : Env (option Init.State) unit Eam.Param (list Z) :=
  mkEnv (fun _ a => addr_id a) (fun _ _ => Some 0) (fun _ => Some TEVM) (fun l => l)
    (fun req net s bal =>
       match send_params req with
       | Eam.PExec4 code p sub =>
           match run_init code p sub net with
           | Ok (r, w) => mkSendOut (inl (mkResp EC_OK (Some [id_or_0 r]))) s bal (w_state w)
           | _ => mkSendOut (inl (mkResp USR_UNSPECIFIED None)) s bal net
           end
       | _ => mkSendOut (inl (mkResp USR_UNSPECIFIED None)) s bal net
       end).

Lemma toy_init_law : Eam.init_law eam_ext eam_env toy_kernel init_env id enc_params.
Proof.
  intros code p sub v net s bal d. cbn [eam_env env_send send_params].
  destruct (run_init code p sub net) as [[r w]| |] eqn:E; [|discriminate|discriminate].
  cbn. intros [= <-]. eexists from_eam, _, r, w. split; [done|]. split; [exact E|].
  split; [done|]. split; [done|]. intros data [= <-].
  apply Init.exec4_run in E as (st & dd & i & ex & st' & net' & out & _ & _ & _ & _ & _ & -> & _). done.
Defined.

Lemma toy_init_ok : Eam.init_ok toy_kernel init_env.
Proof.
  split; [intros; apply reach_refl|done|]. intros ns sub d H. vm_compute in H. by injection H.
Defined.

Definition contract : EthAddress := replicate 20 9.
Definition eam_world : World (option Init.State) unit Eam.Param :=
  mkWorld None 0 (Some init_state) false false [].

Lemma eam_contract_resolves_witness : exists r w',
  Eam.create_actor eam_ext eam_env eam_ctx [] contract [] eam_world = Ok (r, w') /\
  Eam.can_assign_address contract = true /\ Eam.eth_address r = contract.
Proof.
  assert (Eam.create_actor eam_ext eam_env eam_ctx [] contract [] eam_world = Ok (_, _)) as H
    by (vm_compute; reflexivity).
  eexists _, _. split; [exact H|].
  destruct (Eam.eam_contract_resolves eam_ext eam_env eam_ctx toy_kernel init_env id enc_params
    [] contract [] eam_world _ _ init_state toy_init_law toy_init_ok eq_refl init_state_wf H)
    as (H1 & H2 & _).
  split; [exact H1|exact H2].
Defined.

(** ** Data cap *)

Record Ledger : Type := mkLedger {
  balances : Z -> Z;
  supply : Z;
  allowances : Z -> Z -> Z;
}.

Definition credit (i amt : Z) (t : Ledger) : Ledger :=
  mkLedger (fun j => balances t j + Datacap.only i j amt) (supply t) (allowances t).
Definition with_supply (n : Z) (t : Ledger) : Ledger := mkLedger (balances t) n (allowances t).
Definition with_allowance (o p n : Z) (t : Ledger) : Ledger :=
  mkLedger (balances t) (supply t)
    (fun i j => if (i =? o) && (j =? p) then n else allowances t i j).

Definition use_allowance (o p amt : Z) (t : Ledger) : Ledger := with_allowance o p (allowances t o p - amt) t.

(** A token that keeps its books in functions. *)
Definition guarded {A} (b : bool) (a : A) (f : Ledger -> Ledger) : St Ledger ExitCode A :=
  fun t => if b then (Ok a, f t) else (Err USR_ILLEGAL_ARGUMENT, t).

Definition on1 {A} (res : Address -> option Z) (a : Address) (k : Z -> St Ledger ExitCode A)
  : St Ledger ExitCode A :=
  match res a with Some i => k i | None => sfail USR_NOT_FOUND end.

Definition toy_token : Datacap.Token Ledger unit unit unit := {|
  Datacap.t_new := Some (mkLedger (fun _ => 0) 0 (fun _ _ => 0));
  Datacap.t_total_supply := supply;
  Datacap.t_balance_of res t a := inl (from_option (balances t) 0 (res a));
  Datacap.t_allowance _ _ _ _ := inl 0;
  Datacap.t_mint res _ to amt := on1 res to (fun i =>
    guarded (0 <=? amt) tt (fun t => credit i amt (with_supply (supply t + amt) t)));
  Datacap.t_set_allowance res owner op n := on1 res owner (fun o => on1 res op (fun p =>
    guarded true tt (with_allowance o p n)));
  Datacap.t_burn res owner amt := on1 res owner (fun i =>
    guarded (0 <=? amt) 0 (fun t => credit i (- amt) (with_supply (supply t - amt) t)));
  Datacap.t_burn_from res op owner amt := on1 res op (fun p => on1 res owner (fun o => fun t =>
    guarded ((0 <=? amt) && (amt <=? allowances t o p)) 0
      (fun t => credit o (- amt) (with_supply (supply t - amt) (use_allowance o p amt t))) t));
  Datacap.t_transfer res from to amt _ := on1 res from (fun f => on1 res to (fun i =>
    guarded (0 <=? amt) tt (fun t => credit i amt (credit f (- amt) t))));
  Datacap.t_transfer_from res op from to amt _ := on1 res op (fun p => on1 res from (fun f =>
    on1 res to (fun i => fun t => guarded ((0 <=? amt) && (amt <=? allowances t f p)) tt
      (fun t => credit i amt (credit f (- amt) (use_allowance f p amt t))) t)));
  Datacap.t_increase_allowance res owner op n := on1 res owner (fun o => on1 res op (fun p =>
    guarded true 0 (fun t => with_allowance o p (allowances t o p + n) t)));
  Datacap.t_decrease_allowance res owner op n := on1 res owner (fun o => on1 res op (fun p =>
    guarded true 0 (fun t => with_allowance o p (Z.max 0 (allowances t o p - n)) t)));
  Datacap.t_revoke_allowance res owner op := on1 res owner (fun o => on1 res op (fun p =>
    guarded true 0 (with_allowance o p 0)));
  Datacap.t_mint_return _ _ := inl tt;
  Datacap.t_transfer_return _ _ := inl tt;
  Datacap.t_transfer_from_return _ _ := inl tt;
|}.

Lemma only_neg i j amt : Datacap.only i j (- amt) = - Datacap.only i j amt.
Proof. unfold Datacap.only. by destruct (i =? j). Qed.

Ltac ledger :=
  unfold on1, guarded in *; cbn [fst snd] in *;
  repeat match goal with
  | H : context [match ?r ?a with Some _ => _ | None => _ end] |- _ => destruct (r a) eqn:?
  | H : (if ?b then _ else _) = _ |- _ => destruct b eqn:?
  | H : sfail _ _ = _ |- _ => discriminate H
  | H : (Err _, _) = _ |- _ => discriminate H
  | H : (Ok _, _) = (Ok _, _) |- _ => injection H as <- <-
  end; bool_prop.

Lemma use_uses o p amt t t' : 0 <= amt -> amt <= allowances t o p ->
  allowances t' = allowances (use_allowance o p amt t) -> Datacap.uses allowances t t' o p amt.
Proof.
  intros H0 Hamt E. split; [done|]. rewrite E. cbn. rewrite !Z.eqb_refl. split; [done|].
  intros a q. rewrite E. cbn. destruct (Z.eqb_spec a o), (Z.eqb_spec q p); cbn; subst; lia.
Qed.

Lemma with_grants o p n t : Datacap.grants allowances t (with_allowance o p n t) o.
Proof. intros a q Hne. cbn. by destruct (Z.eqb_spec a o). Qed.

Lemma toy_frc46 : Datacap.frc46 toy_token balances allowances.
Proof.
  assert (forall t o p n, Datacap.adds toy_token balances t (with_allowance o p n t) (fun _ => 0) 0) as Hw
    by (intros; split; [intros j|]; cbn; lia).
  split; cbn [toy_token Datacap.t_new Datacap.t_total_supply Datacap.t_mint Datacap.t_transfer
    Datacap.t_transfer_from Datacap.t_burn Datacap.t_burn_from Datacap.t_set_allowance
    Datacap.t_increase_allowance Datacap.t_decrease_allowance Datacap.t_revoke_allowance].
  - by intros t [= <-].
  - intros. ledger. eexists. repeat split; done || lia.
  - intros. ledger. do 2 eexists. repeat split; try done; [|cbn; lia]. intros j. cbn. rewrite only_neg. lia.
  - intros. ledger. do 3 eexists. split_and!; try done; [by apply use_uses|]. split; [|cbn; lia]. intros j. cbn. rewrite only_neg. lia.
  - intros. ledger. eexists. repeat split; try done. intros j. cbn. rewrite only_neg. lia.
  - intros. ledger. do 2 eexists. split_and!; try done; [by apply use_uses|]. split; [|done]. intros j. cbn. rewrite only_neg. lia.
  - intros. ledger. eexists. split; [done|]. split; [apply with_grants|apply Hw].
  - intros. ledger. eexists. split; [done|]. split; [apply with_grants|apply Hw].
  - intros. ledger. eexists. split; [done|]. split; [apply with_grants|apply Hw].
  - intros. ledger. eexists. split; [done|]. split; [apply with_grants|apply Hw].
Defined.

(** A hook that sends nothing. *)
Definition no_hook (W : Type) (_ : SendReq unit -> W -> Response (list Z) * W) (_ : unit) (w : W)
  : (unit + ExitCode) * W := (inl tt, w).

Definition dc_ctx : Ctx := mkCtx 6 6 7 0 5.
Definition dc_state : Datacap.State Ledger :=
  Datacap.mkState (AddrId 6) (mkLedger (fun _ => 0) 0 (fun _ _ => 0)).
Definition dc_world : World unit (Datacap.State Ledger) unit := mkWorld (Some dc_state) 0 tt false false [].

Definition dc_minted : option (Datacap.State Ledger) :=
  match Datacap.invoke_method toy_token quiet_env dc_ctx no_hook (fun _ => 2 ^ 30)
          (Datacap.Mint (AddrId 9) 50 []) dc_world with
  | Ok (_, w) => w_state w
  | _ => None
  end.

(** In a run of messages of the governor, it mints. *)
Lemma datacap_policy_witness :
  rtc (Datacap.token_step toy_token balances allowances (fun a => a = 6)) (Some dc_state) dc_minted.
Proof.
  apply (Datacap.datacap_policy toy_token balances allowances (Net := unit) no_hook (fun _ => 2 ^ 30)
    (fun a => a = 6) (mkConf 5 (Some dc_state) 0) (mkConf 5 dc_minted 0) toy_frc46).
  eapply (chain_msg _ _ _ _ _ _ _ quiet_env dc_ctx (Datacap.Mint (AddrId 9) 50 []) 5 (Some dc_state) 0 0 tt);
    [| |reflexivity|reflexivity|reflexivity|reflexivity|vm_compute; reflexivity|reflexivity|apply chain_refl].
  - split; [intros net i; reflexivity|]. intros hook w r w' Hh. injection Hh as _ <-. apply rtc_refl.
  - intros req w r w' Hs. injection Hs as _ <-. apply chain_refl.
Defined.
End SmallDemo.
