(* ===== verification/EvmReader.v ===== *)
(** * Reading ABI-encoded values

    Models src/actors/evm/src/reader.rs: a reader that treats its input as if
    it were followed by infinitely many zeros, and the error type of the
    precompiles (interpreter/precompiles/mod.rs). *)

From S2P Require Import Prelude Runtime EvmWord EvmMachine.

Inductive PrecompileError : Type :=
| EcErr
| IncorrectInputSize
| InvalidInput
| CallForbidden
| TransferFailed
| VMError (e : ActorError IpldBlock).

Notation Rp := (Res PrecompileError).

Record ValueReader : Type := mkReader {
  rd_full : list Z;
  rd_slice : list Z;
}.

Definition new_reader (slice : list Z) : ValueReader := mkReader slice slice.

Definition seek (offset : Z) (r : ValueReader) : ValueReader :=
  if offset >? len (rd_full r) then mkReader (rd_full r) []
  else mkReader (rd_full r) (drop (Z.to_nat offset) (rd_full r)).

(** [false] is the [OverflowError]; the bytes are dropped in any case. *)
Definition drop_zeros (S : nat) (r : ValueReader) : bool * ValueReader :=
  (forallb (Z.eqb 0) (take S (rd_slice r)), mkReader (rd_full r) (drop S (rd_slice r))).

Definition read_byte (r : ValueReader) : Z * ValueReader :=
  match rd_slice r with
  | first :: rest => (first, mkReader (rd_full r) rest)
  | [] => (0, r)
  end.

Definition read_fixed (S : nat) (r : ValueReader) : list Z * ValueReader :=
  (resize_zero (take S (rd_slice r)) (Z.of_nat S), mkReader (rd_full r) (drop S (rd_slice r))).

Definition read_padded (n : nat) (r : ValueReader) : list Z * ValueReader :=
  if (n <=? length (rd_slice r))%nat
  then (take n (rd_slice r), mkReader (rd_full r) (drop n (rd_slice r)))
  else (resize_zero (rd_slice r) (Z.of_nat n), mkReader (rd_full r) []).

(** The shift amount is a product in [u32], which panics on overflow. *)
Definition read_biguint {E} (n : Z) (r : ValueReader) : Res E Z * ValueReader :=
  let split := Z.min n (len (rd_slice r)) in
  let a := take (Z.to_nat split) (rd_slice r) in
  let r := mkReader (rd_full r) (drop (Z.to_nat split) (rd_slice r)) in
  let int := from_big_endian a in
  if split <? n then
    let shift := (n - split) * 8 in
    if shift <? 2 ^ 32 then (Ok (Z.shiftl int shift), r) else (Panic, r)
  else (Ok int, r).

(** [impl Value for u8]. *)
Definition read_u8 (r : ValueReader) : option Z * ValueReader :=
  let '(ok, r) := drop_zeros 31 r in
  if ok then let '(b, r) := read_byte r in (Some b, r) else (None, r).

(** [impl_value_int!] for an unsigned integer of [n] bytes. *)
Definition read_uint (n : nat) (r : ValueReader) : option Z * ValueReader :=
  let '(ok, r) := drop_zeros (32 - n) r in
  if ok then let '(b, r) := read_fixed n r in (Some (from_big_endian b), r) else (None, r).

(** [impl_value_int!] for [i64]. *)
Definition read_i64 (r : ValueReader) : option Z * ValueReader :=
  let '(x, r) := read_uint 8 r in (as_i64 <$> x, r).

(** [impl Value for U256]. *)
Definition read_u256 (r : ValueReader) : Z * ValueReader :=
  let '(b, r) := read_fixed 32 r in (from_big_endian b, r).

(** A reading function as a step of code with errors of type [E]. *)
Definition reads {E A} (f : ValueReader -> A * ValueReader) : St ValueReader E A :=
  fun r => let '(a, r) := f r in (Ok a, r).
Definition read_or {E A} (e : E) (f : ValueReader -> option A * ValueReader) : St ValueReader E A :=
  fun r => let '(a, r) := f r in (ok_or a e, r).

(** ** Code that does not panic *)

Definition no_panic {E A} (r : Res E A) : Prop := r <> Panic.

Lemma safe_ok {E A} (a : A) : no_panic (E := E) (Ok a).
Proof. done. Qed.

Lemma safe_err {E A} (e : E) : no_panic (A := A) (Err e).
Proof. done. Qed.

Lemma safe_bind {E A B} (m : Res E A) (f : A -> Res E B) :
  no_panic m -> (forall a, no_panic (f a)) -> no_panic (rbind m f).
Proof. intros H1 H2. destruct m; cbn; [by apply H2|done|by destruct H1]. Qed.

Lemma rfold_safe {E A X} (f : A -> X -> Res E A) xs : forall acc,
  (forall acc x, no_panic (f acc x)) -> no_panic (rfold f acc xs).
Proof.
  induction xs as [|x xs IH]; intros acc Hf; cbn [rfold]; [apply safe_ok|].
  apply safe_bind; auto.
Qed.

Create HintDb safe.
#[export] Hint Resolve safe_ok safe_err : safe.

(** Proves that code made of binds, tests and safe calls is safe. *)
Ltac safe_tac :=
  repeat first
    [ progress auto with safe
    | apply safe_bind; [|intros ?]
    | match goal with
      | |- no_panic (if ?b then _ else _) => destruct b
      | |- no_panic (let '(_, _) := ?p in _) => destruct p
      | |- no_panic (match ?p with (_, _) => _ end) => destruct p
      end ].

(** ** Lemmas *)

Lemma be_bytes_zero k : be_bytes k 0 = replicate k 0.
Proof.
  induction k as [|k IH]; [done|]. cbn [be_bytes]. rewrite Z.div_0_l, Z.mod_0_l, IH by lia.
  by rewrite <- replicate_S_end.
Qed.

(** A small number has leading zeros. *)
Lemma be_bytes_pad k n x : 0 <= x < 256 ^ Z.of_nat n ->
  be_bytes (k + n) x = replicate k 0 ++ be_bytes n x.
Proof.
  revert x. induction n as [|n IH]; intros x Hx.
  - assert (x = 0) as -> by (cbn in Hx; lia). rewrite Nat.add_0_r, be_bytes_zero, app_nil_r. done.
  - rewrite Nat.add_succ_r. cbn [be_bytes]. rewrite IH, app_assoc; [done|].
    rewrite Nat2Z.inj_succ, Z.pow_succ_r in Hx by lia.
    split; [apply Z.div_pos; lia|]. apply Z.div_lt_upper_bound; lia.
Qed.

Lemma forallb_replicate k : forallb (Z.eqb 0) (replicate k 0) = true.
Proof. by induction k. Qed.

(** Reading a word that encodes a number of at most [n] bytes. *)
Lemma read_uint_word n x full rest : (n <= 32)%nat -> 0 <= x < 256 ^ Z.of_nat n ->
  read_uint n (mkReader full (to_big_endian x ++ rest)) = (Some x, mkReader full rest).
Proof.
  intros Hn Hx. unfold read_uint, drop_zeros, to_big_endian. cbn [rd_slice rd_full].
  assert (be_bytes 32 x = replicate (32 - n) 0 ++ be_bytes n x) as ->
    by (rewrite <- be_bytes_pad by done; f_equal; lia).
  rewrite <- app_assoc.
  rewrite take_app_length', drop_app_length', forallb_replicate by (by rewrite length_replicate).
  unfold read_fixed. cbn [rd_slice rd_full].
  rewrite take_app_length', drop_app_length' by (by rewrite be_bytes_length).
  rewrite resize_zero_fill; unfold len; rewrite be_bytes_length; [|done]. rewrite Z.sub_diag. cbn [Z.to_nat replicate].
  rewrite app_nil_r, from_be_bytes, Z.mod_small by done. done.
Qed.

(** Bytes followed by padding are read back. *)
Lemma read_padded_app n d full rest : length d = n ->
  read_padded n (mkReader full (d ++ rest)) = (d, mkReader full rest).
Proof.
  intros <-. unfold read_padded. cbn [rd_slice rd_full].
  rewrite (proj2 (Nat.leb_le _ _)) by (rewrite length_app; lia).
  by rewrite take_app_length, drop_app_length.
Qed.

Lemma seek_app pre post : seek (len pre) (mkReader (pre ++ post) post) = mkReader (pre ++ post) post.
Proof.
  unfold seek. cbn [rd_full]. destruct (_ >? _) eqn:E; bool_prop.
  - rewrite len_app in E. pose proof (len_nonneg post). lia.
  - unfold len. by rewrite Nat2Z.id, drop_app_length.
Qed.
