(* ===== verification/EvmBls.v ===== *)
(** * The BLS12-381 precompiles

    Models interpreter/precompiles/bls_util.rs and precompiles/bls12_381/*.rs
    of src/actors/evm: the decoding and validation of field elements and
    points, and the seven precompiles.  The arithmetic of the curve is the
    [blst] library, the class [Blst]; what the theorems need of it is the
    class [BlstLaws]. *)

From S2P Require Import Prelude Runtime EvmWord EvmMachine EvmReader.

(** ** The curve library *)

Class Blst : Type := {
  blst_fp : Type;
  blst_scalar : Type;
  blst_p1 : Type;
  blst_p2 : Type;
  blst_fp12 : Type;
  blst_fp_from_bendian : list Z -> blst_fp;
  blst_bendian_from_fp : blst_fp -> list Z;
  blst_scalar_from_bendian : list Z -> blst_scalar;
  (** affine points are pairs of coordinates *)
  blst_p1_affine_on_curve : blst_fp * blst_fp -> bool;
  blst_p1_affine_in_g1 : blst_fp * blst_fp -> bool;
  blst_p1_affine_is_inf : blst_fp * blst_fp -> bool;
  blst_p1_from_affine : blst_fp * blst_fp -> blst_p1;
  blst_p1_to_affine : blst_p1 -> blst_fp * blst_fp;
  blst_p1_mult : blst_p1 -> blst_scalar -> blst_p1;
  blst_p1_add_or_double_affine : blst_p1 -> blst_fp * blst_fp -> blst_p1;
  blst_p1_multi : list (blst_fp * blst_fp) -> list blst_scalar -> blst_p1;
  blst_map_to_g1 : blst_fp -> blst_p1;
  blst_p2_affine_on_curve : (blst_fp * blst_fp) * (blst_fp * blst_fp) -> bool;
  blst_p2_affine_in_g2 : (blst_fp * blst_fp) * (blst_fp * blst_fp) -> bool;
  blst_p2_affine_is_inf : (blst_fp * blst_fp) * (blst_fp * blst_fp) -> bool;
  blst_p2_from_affine : (blst_fp * blst_fp) * (blst_fp * blst_fp) -> blst_p2;
  blst_p2_to_affine : blst_p2 -> (blst_fp * blst_fp) * (blst_fp * blst_fp);
  blst_p2_mult : blst_p2 -> blst_scalar -> blst_p2;
  blst_p2_add_or_double_affine : blst_p2 -> (blst_fp * blst_fp) * (blst_fp * blst_fp) -> blst_p2;
  blst_p2_multi : list ((blst_fp * blst_fp) * (blst_fp * blst_fp)) -> list blst_scalar -> blst_p2;
  blst_map_to_g2 : blst_fp * blst_fp -> blst_p2;
  blst_miller_loop : (blst_fp * blst_fp) * (blst_fp * blst_fp) -> blst_fp * blst_fp -> blst_fp12;
  blst_fp12_mul : blst_fp12 -> blst_fp12 -> blst_fp12;
  blst_final_exp : blst_fp12 -> blst_fp12;
  blst_fp12_is_one : blst_fp12 -> bool;
}.

Definition PADDING_LENGTH : nat := 16.
Definition FP_LENGTH : nat := 48.
Definition SCALAR_LENGTH : nat := 32.
Definition PADDED_FP_LENGTH : nat := 64.
Definition PADDED_FP2_LENGTH : nat := 2 * PADDED_FP_LENGTH.
Definition PADDED_G1_LENGTH : nat := 2 * PADDED_FP_LENGTH.
Definition PADDED_G2_LENGTH : nat := 2 * PADDED_FP2_LENGTH.
Definition G1_ADD_INPUT_LENGTH : nat := PADDED_G1_LENGTH * 2.
Definition G1_OUTPUT_LENGTH : nat := 128.
Definition G1_MSM_INPUT_LENGTH : nat := 160.
Definition G2_ADD_INPUT_LENGTH : nat := 512.
Definition G2_OUTPUT_LENGTH : nat := 256.
Definition G2_MSM_INPUT_LENGTH : nat := 288.
Definition PAIRING_INPUT_LENGTH : nat := PADDED_G1_LENGTH + PADDED_G2_LENGTH.

Definition MODULUS_REPR : list Z :=
  [0x1a; 0x01; 0x11; 0xea; 0x39; 0x7f; 0xe6; 0x9a; 0x4b; 0x1b; 0xa7; 0xb6; 0x43; 0x4b; 0xac; 0xd7;
   0x64; 0x77; 0x4b; 0x84; 0xf3; 0x85; 0x12; 0xbf; 0x67; 0x30; 0xd2; 0xa0; 0xf6; 0xb0; 0xf6; 0x24;
   0x1e; 0xab; 0xff; 0xfe; 0xb1; 0x53; 0xff; 0xff; 0xb9; 0xfe; 0xff; 0xff; 0xff; 0xff; 0xaa; 0xab].

(** The order of byte arrays: lexicographic. *)
Fixpoint bytes_lt (a b : list Z) : bool :=
  match a, b with
  | [], _ :: _ => true
  | x :: a, y :: b => (x <? y) || ((x =? y) && bytes_lt a b)
  | _, [] => false
  end.

Definition is_valid_be (input : list Z) : bool := bytes_lt input MODULUS_REPR.

(** [chunks_exact]: the whole chunks of [n] bytes. *)
Fixpoint chunks_exact (k n : nat) (l : list Z) : list (list Z) :=
  match k with
  | O => []
  | S k => take n l :: chunks_exact k n (drop n l)
  end.

Section bls.
Context {B : Blst}.

Notation P1 := (blst_fp * blst_fp)%type.
Notation P2 := ((blst_fp * blst_fp) * (blst_fp * blst_fp))%type.

Definition remove_padding (input : list Z) : Rp (list Z) :=
  if negb (length input =? PADDED_FP_LENGTH)%nat then Err IncorrectInputSize
  else if negb (forallb (Z.eqb 0) (take PADDING_LENGTH input)) then Err InvalidInput
  else Ok (drop PADDING_LENGTH input).

Definition read_fp (input : list Z) : Rp blst_fp :=
  if negb (is_valid_be input) then Err EcErr else Ok (blst_fp_from_bendian input).

Definition read_fp2 (input_1 input_2 : list Z) : Rp (blst_fp * blst_fp) :=
  let! fp_1 := read_fp input_1 in
  let! fp_2 := read_fp input_2 in
  Ok (fp_1, fp_2).

Definition read_scalar (input : list Z) : Rp blst_scalar :=
  if negb (length input =? SCALAR_LENGTH)%nat then Err IncorrectInputSize
  else Ok (blst_scalar_from_bendian input).

Definition remove_g1_padding (input : list Z) : Rp (list Z * list Z) :=
  if negb (length input =? PADDED_G1_LENGTH)%nat then Err IncorrectInputSize
  else
    let! x := remove_padding (take PADDED_FP_LENGTH input) in
    let! y := remove_padding (take PADDED_FP_LENGTH (drop PADDED_FP_LENGTH input)) in
    Ok (x, y).

Definition decode_g1_on_curve (p0_x p0_y : list Z) : Rp P1 :=
  let! x := read_fp p0_x in
  let! y := read_fp p0_y in
  if negb (blst_p1_affine_on_curve (x, y)) then Err EcErr else Ok (x, y).

Definition extract_g1_input (input : list Z) (subgroup_check : bool) : Rp P1 :=
  if negb (length input =? PADDED_G1_LENGTH)%nat then Err IncorrectInputSize
  else
    let! (x_bytes, y_bytes) := remove_g1_padding input in
    let! point := decode_g1_on_curve x_bytes y_bytes in
    if subgroup_check && negb (blst_p1_affine_in_g1 point) then Err InvalidInput else Ok point.

(** The loop over the four field elements of a G2 point. *)
Definition remove_g2_padding (input : list Z) : Rp (list Z * list Z * list Z * list Z) :=
  if negb (length input =? PADDED_G2_LENGTH)%nat then Err IncorrectInputSize
  else
    let part i := take PADDED_FP_LENGTH (drop (i * PADDED_FP_LENGTH) input) in
    let! a := remove_padding (part 0%nat) in
    let! b := remove_padding (part 1%nat) in
    let! c := remove_padding (part 2%nat) in
    let! d := remove_padding (part 3%nat) in
    Ok (a, b, c, d).

Definition decode_g2_on_curve (x1 x2 y1 y2 : list Z) : Rp P2 :=
  let! x := read_fp2 x1 x2 in
  let! y := read_fp2 y1 y2 in
  if negb (blst_p2_affine_on_curve (x, y)) then Err EcErr else Ok (x, y).

Definition extract_g2_input (input : list Z) (subgroup_check : bool) : Rp P2 :=
  if negb (length input =? PADDED_G2_LENGTH)%nat then Err IncorrectInputSize
  else
    let! (x_re, x_im, y_re, y_im) := remove_g2_padding input in
    let! point := decode_g2_on_curve x_re x_im y_re y_im in
    if subgroup_check && negb (blst_p2_affine_in_g2 point) then Err InvalidInput else Ok point.

(** [fp_to_bytes] into a slice of [PADDED_FP_LENGTH] bytes. *)
Definition fp_to_bytes (input : blst_fp) : list Z :=
  replicate PADDING_LENGTH 0 ++ blst_bendian_from_fp input.

Definition encode_g1_point (p : P1) : list Z := fp_to_bytes (fst p) ++ fp_to_bytes (snd p).

Definition encode_g2_point (p : P2) : list Z :=
  let '((x0, x1), (y0, y1)) := p in
  fp_to_bytes x0 ++ fp_to_bytes x1 ++ fp_to_bytes y0 ++ fp_to_bytes y1.

Definition p1_scalar_mul (p : P1) (scalar : blst_scalar) : P1 :=
  blst_p1_to_affine (blst_p1_mult (blst_p1_from_affine p) scalar).

Definition p2_scalar_mul (p : P2) (scalar : blst_scalar) : P2 :=
  blst_p2_to_affine (blst_p2_mult (blst_p2_from_affine p) scalar).

(** ** The precompiles *)

Definition p1_add_affine (a b : P1) : P1 :=
  blst_p1_to_affine (blst_p1_add_or_double_affine (blst_p1_from_affine a) b).

Definition bls12_g1add (input : list Z) : Rp (list Z) :=
  if negb (length input =? G1_ADD_INPUT_LENGTH)%nat then Err IncorrectInputSize
  else
    let! a_aff := extract_g1_input (take PADDED_G1_LENGTH input) false in
    let! b_aff := extract_g1_input (drop PADDED_G1_LENGTH input) false in
    if blst_p1_affine_is_inf a_aff then Ok (encode_g1_point b_aff)
    else if blst_p1_affine_is_inf b_aff then Ok (encode_g1_point a_aff)
    else Ok (encode_g1_point (p1_add_affine a_aff b_aff)).

Definition p1_msm (g1_points : list P1) (scalars : list blst_scalar) : Rp P1 :=
  if negb (length g1_points =? length scalars)%nat then Panic
  else match g1_points, scalars with
       | [p], [s] => Ok (p1_scalar_mul p s)
       | _, _ => Ok (blst_p1_to_affine (blst_p1_multi g1_points scalars))
       end.

(** One (point, scalar) pair of the loop. *)
Definition g1msm_step (acc : list P1 * list blst_scalar) (chunk : list Z)
  : Rp (list P1 * list blst_scalar) :=
  let '(g1_points, scalars) := acc in
  let encoded_scalar := drop PADDED_G1_LENGTH chunk in
  let! point_aff := extract_g1_input (take PADDED_G1_LENGTH chunk) true in
  if blst_p1_affine_is_inf point_aff then Ok acc
  else if forallb (Z.eqb 0) encoded_scalar then Ok acc
  else
    let! s := read_scalar encoded_scalar in
    Ok (g1_points ++ [point_aff], scalars ++ [s]).

Definition bls12_g1msm (input : list Z) : Rp (list Z) :=
  if (length input =? 0)%nat || negb (length input mod G1_MSM_INPUT_LENGTH =? 0)%nat
  then Err IncorrectInputSize
  else
    let! (g1_points, scalars) :=
      rfold g1msm_step ([], [])
        (chunks_exact (length input / G1_MSM_INPUT_LENGTH) G1_MSM_INPUT_LENGTH input) in
    match g1_points with
    | [] => Ok (replicate G1_OUTPUT_LENGTH 0)
    | _ => let! result_aff := p1_msm g1_points scalars in Ok (encode_g1_point result_aff)
    end.

Definition p2_add_affine (a b : P2) : P2 :=
  blst_p2_to_affine (blst_p2_add_or_double_affine (blst_p2_from_affine a) b).

Definition bls12_g2add (input : list Z) : Rp (list Z) :=
  if negb (length input =? G2_ADD_INPUT_LENGTH)%nat then Err IncorrectInputSize
  else
    let! a_aff := extract_g2_input (take PADDED_G2_LENGTH input) false in
    let! b_aff := extract_g2_input (drop PADDED_G2_LENGTH input) false in
    if blst_p2_affine_is_inf a_aff then Ok (encode_g2_point b_aff)
    else if blst_p2_affine_is_inf b_aff then Ok (encode_g2_point a_aff)
    else Ok (encode_g2_point (p2_add_affine a_aff b_aff)).

Definition p2_msm (g2_points : list P2) (scalars : list blst_scalar) : Rp P2 :=
  if negb (length g2_points =? length scalars)%nat then Panic
  else match g2_points, scalars with
       | [p], [s] => Ok (p2_scalar_mul p s)
       | _, _ => Ok (blst_p2_to_affine (blst_p2_multi g2_points scalars))
       end.

Definition g2msm_step (acc : list P2 * list blst_scalar) (chunk : list Z)
  : Rp (list P2 * list blst_scalar) :=
  let '(g2_points, scalars) := acc in
  let encoded_scalar := drop PADDED_G2_LENGTH chunk in
  let! point_aff := extract_g2_input (take PADDED_G2_LENGTH chunk) true in
  if blst_p2_affine_is_inf point_aff then Ok acc
  else if forallb (Z.eqb 0) encoded_scalar then Ok acc
  else
    let! s := read_scalar encoded_scalar in
    Ok (g2_points ++ [point_aff], scalars ++ [s]).

Definition bls12_g2msm (input : list Z) : Rp (list Z) :=
  if (length input =? 0)%nat || negb (length input mod G2_MSM_INPUT_LENGTH =? 0)%nat
  then Err IncorrectInputSize
  else
    let! (g2_points, scalars) :=
      rfold g2msm_step ([], [])
        (chunks_exact (length input / G2_MSM_INPUT_LENGTH) G2_MSM_INPUT_LENGTH input) in
    match g2_points with
    | [] => Ok (replicate G2_OUTPUT_LENGTH 0)
    | _ => let! result_aff := p2_msm g2_points scalars in Ok (encode_g2_point result_aff)
    end.

Definition bls12_map_fp_to_g1 (input : list Z) : Rp (list Z) :=
  if negb (length input =? PADDED_FP_LENGTH)%nat then Err IncorrectInputSize
  else
    let! unpadded := remove_padding input in
    let! fp := read_fp unpadded in
    Ok (encode_g1_point (blst_p1_to_affine (blst_map_to_g1 fp))).

Definition bls12_map_fp2_to_g2 (input : list Z) : Rp (list Z) :=
  if negb (length input =? PADDED_FP2_LENGTH)%nat then Err IncorrectInputSize
  else
    let! c0_bytes := remove_padding (take PADDED_FP_LENGTH input) in
    let! c1_bytes := remove_padding (take PADDED_FP_LENGTH (drop PADDED_FP_LENGTH input)) in
    let! fp2 := read_fp2 c0_bytes c1_bytes in
    Ok (encode_g2_point (blst_p2_to_affine (blst_map_to_g2 fp2))).

Definition pairing_check (pairs : list (P1 * P2)) : bool :=
  match pairs with
  | [] => true
  | (g1_head, g2_head) :: rest =>
      let acc :=
        foldl (fun acc '(g1, g2) => blst_fp12_mul acc (blst_miller_loop g2 g1))
          (blst_miller_loop g2_head g1_head) rest in
      blst_fp12_is_one (blst_final_exp acc)
  end.

Definition pairing_step (pairs : list (P1 * P2)) (chunk : list Z) : Rp (list (P1 * P2)) :=
  let! p1_aff := extract_g1_input (take PADDED_G1_LENGTH chunk) true in
  let! p2_aff := extract_g2_input (drop PADDED_G1_LENGTH chunk) true in
  if negb (blst_p1_affine_is_inf p1_aff) && negb (blst_p2_affine_is_inf p2_aff)
  then Ok (pairs ++ [(p1_aff, p2_aff)]) else Ok pairs.

Definition bls12_pairing (input : list Z) : Rp (list Z) :=
  if (length input =? 0)%nat || negb (length input mod PAIRING_INPUT_LENGTH =? 0)%nat
  then Err IncorrectInputSize
  else
    let! pairs :=
      rfold pairing_step []
        (chunks_exact (length input / PAIRING_INPUT_LENGTH) PAIRING_INPUT_LENGTH input) in
    Ok (replicate 31 0 ++ [if pairing_check pairs then 1 else 0]).
End bls.

(** ** What the theorems need of the library

    A canonical big-endian field element is read and written back unchanged,
    and a field element is written as 48 bytes. *)
Class BlstLaws (B : Blst) : Prop := {
  fp_bendian_roundtrip b : bytes b -> length b = FP_LENGTH ->
    from_big_endian b < from_big_endian MODULUS_REPR ->
    blst_bendian_from_fp (blst_fp_from_bendian b) = b;
  fp_bendian_length f : length (blst_bendian_from_fp f) = FP_LENGTH;
  fp_bendian_bytes f : bytes (blst_bendian_from_fp f);
}.

(** The order of byte arrays of the same length is that of their values. *)
Lemma bytes_lt_spec a b : bytes a -> bytes b -> length a = length b ->
  bytes_lt a b = (from_big_endian a <? from_big_endian b).
Proof.
  revert b. induction a as [|x a IH]; intros [|y b] Ha Hb Hl; try discriminate Hl; [done|].
  apply Forall_cons in Ha as [Hx Ha]. apply Forall_cons in Hb as [Hy Hb]. injection Hl as Hl.
  cbn [bytes_lt]. rewrite (IH b Ha Hb Hl), !from_big_endian_cons, Hl.
  pose proof (from_big_endian_range a Ha) as Hra. pose proof (from_big_endian_range b Hb) as Hrb.
  rewrite Hl in Hra. set (p := 256 ^ Z.of_nat (length b)) in *.
  apply eq_true_iff_eq. rewrite orb_true_iff, andb_true_iff, !Z.ltb_lt, Z.eqb_eq. nia.
Qed.

Lemma forallb_zero l : forallb (Z.eqb 0) l = true -> l = replicate (length l) 0.
Proof.
  induction l as [|x l IH]; cbn [forallb length replicate]; [done|].
  intros [E%Z.eqb_eq H]%andb_true_iff. subst. f_equal. by apply IH.
Qed.

Section bls_laws.
Context {B : Blst} {HL : BlstLaws B}.

Lemma remove_padding_ok input x : remove_padding input = Ok x ->
  input = replicate PADDING_LENGTH 0 ++ x /\ length x = FP_LENGTH.
Proof.
  unfold remove_padding. intros Hr. res_inv. apply Nat.eqb_eq in Heqb.
  apply forallb_zero in Heqb0. rewrite length_take, Heqb in Heqb0.
  rewrite length_drop, Heqb. split; [|done].
  rewrite <- (take_drop PADDING_LENGTH input) at 1. by rewrite Heqb0.
Qed.

Lemma read_fp_ok input f : bytes input -> length input = FP_LENGTH -> read_fp input = Ok f ->
  blst_bendian_from_fp f = input.
Proof.
  unfold read_fp, is_valid_be. intros Hb Hl Hr. res_inv.
  apply fp_bendian_roundtrip; [done|done|].
  rewrite bytes_lt_spec in Heqb; [by apply Z.ltb_lt|done| |by rewrite Hl].
  unfold MODULUS_REPR. repeat constructor; done.
Qed.

(** A padded field element is written back as it was read. *)
Lemma padded_fp_canonical input x f : bytes input ->
  remove_padding input = Ok x -> read_fp x = Ok f -> fp_to_bytes f = input.
Proof.
  intros Hb Hr Hf. apply remove_padding_ok in Hr as [-> Hl]. unfold fp_to_bytes. f_equal.
  apply (read_fp_ok x f); [|done|done]. by apply Forall_app in Hb as [_ Hb].
Qed.

Lemma bytes_take n l : bytes l -> bytes (take n l).
Proof. apply Forall_take. Qed.

Lemma bytes_drop n l : bytes l -> bytes (drop n l).
Proof. apply Forall_drop. Qed.


Lemma split_fp (l : list Z) n : length l = (n + PADDED_FP_LENGTH)%nat ->
  take PADDED_FP_LENGTH (drop n l) = drop n l.
Proof. intros Hl. apply take_ge. rewrite length_drop. lia. Qed.

Lemma extract_g1_canonical input c p : bytes input ->
  extract_g1_input input c = Ok p -> encode_g1_point p = input.
Proof.
  intros Hb. unfold extract_g1_input, remove_g1_padding, decode_g1_on_curve. intros Hr.
  destruct (length input =? PADDED_G1_LENGTH)%nat eqn:El; [|discriminate Hr]. cbn [negb] in Hr.
  apply Nat.eqb_eq in El.
  apply rbind_ok in Hr as ([x y] & Hr1 & Hr).
  apply rbind_ok in Hr1 as (x' & Hx & Hr1). apply rbind_ok in Hr1 as (y' & Hy & Hr1).
  injection Hr1 as -> ->. apply rbind_ok in Hr as (q & Hq & Hr).
  apply rbind_ok in Hq as (fx & Hfx & Hq). apply rbind_ok in Hq as (fy & Hfy & Hq).
  destruct (blst_p1_affine_on_curve _); [|discriminate Hq]. injection Hq as <-.
  destruct (_ && _); [discriminate Hr|]. injection Hr as <-.
  unfold encode_g1_point. cbn [fst snd].
  rewrite (padded_fp_canonical _ _ _ (bytes_take _ _ Hb) Hx Hfx).
  rewrite (padded_fp_canonical _ _ _ (bytes_take _ _ (bytes_drop _ _ Hb)) Hy Hfy).
  rewrite split_fp by done. apply take_drop.
Qed.

Lemma extract_g2_canonical input c p : bytes input ->
  extract_g2_input input c = Ok p -> encode_g2_point p = input.
Proof.
  intros Hb. unfold extract_g2_input, remove_g2_padding, decode_g2_on_curve, read_fp2. intros Hr.
  destruct (length input =? PADDED_G2_LENGTH)%nat eqn:El; [|discriminate Hr]. cbn [negb] in Hr.
  apply Nat.eqb_eq in El. apply rbind_ok in Hr as ([[[b1 b2] b3] b4] & Hr1 & Hr).
  apply rbind_ok in Hr1 as (c1 & H1 & Hr1). apply rbind_ok in Hr1 as (c2 & H2 & Hr1).
  apply rbind_ok in Hr1 as (c3 & H3 & Hr1). apply rbind_ok in Hr1 as (c4 & H4 & Hr1).
  injection Hr1 as -> -> -> ->. apply rbind_ok in Hr as (q & Hq & Hr).
  apply rbind_ok in Hq as (x & Hx & Hq). apply rbind_ok in Hx as (f1 & F1 & Hx).
  apply rbind_ok in Hx as (f2 & F2 & Hx). injection Hx as <-.
  apply rbind_ok in Hq as (y & Hy & Hq). apply rbind_ok in Hy as (f3 & F3 & Hy).
  apply rbind_ok in Hy as (f4 & F4 & Hy). injection Hy as <-.
  destruct (blst_p2_affine_on_curve _); [|discriminate Hq]. injection Hq as <-.
  destruct (_ && _); [discriminate Hr|]. injection Hr as <-. unfold encode_g2_point.
  rewrite (padded_fp_canonical _ _ _ (bytes_take _ _ (bytes_drop _ _ Hb)) H1 F1), (padded_fp_canonical _ _ _ (bytes_take _ _ (bytes_drop _ _ Hb)) H2 F2),
    (padded_fp_canonical _ _ _ (bytes_take _ _ (bytes_drop _ _ Hb)) H3 F3), (padded_fp_canonical _ _ _ (bytes_take _ _ (bytes_drop _ _ Hb)) H4 F4).
  rewrite (split_fp input (3 * PADDED_FP_LENGTH)) by done.
  change (3 * PADDED_FP_LENGTH)%nat with (2 * PADDED_FP_LENGTH + PADDED_FP_LENGTH)%nat.
  rewrite <- drop_drop, take_drop.
  change (2 * PADDED_FP_LENGTH)%nat with (1 * PADDED_FP_LENGTH + PADDED_FP_LENGTH)%nat.
  rewrite <- drop_drop, take_drop. apply take_drop.
Qed.

(** C36: the encodings of curve points that the BLS12-381 precompiles accept
    are canonical: decoding an input and encoding the point gives the input
    back, so no two inputs denote the same point. *)
Theorem bls_points_canonical input c :
  bytes input ->
  (forall p, extract_g1_input input c = Ok p -> encode_g1_point p = input) /\
  (forall p, extract_g2_input input c = Ok p -> encode_g2_point p = input).
Proof.
  intros Hb. split; intros p; [by apply extract_g1_canonical|by apply extract_g2_canonical].
Qed.

(** ** The precompiles' outputs *)

Lemma encode_g1_length p : length (encode_g1_point p) = 128%nat.
Proof.
  unfold encode_g1_point, fp_to_bytes. rewrite !length_app, !length_replicate, !fp_bendian_length. done.
Qed.

Lemma encode_g2_length p : length (encode_g2_point p) = 256%nat.
Proof.
  destruct p as [[? ?] [? ?]]. unfold encode_g2_point, fp_to_bytes.
  rewrite !length_app, !length_replicate, !fp_bendian_length. done.
Qed.

(** The points and the scalars of a multi-scalar multiplication go together. *)
Lemma g1msm_lengths cs ps ss : rfold g1msm_step ([], []) cs = Ok (ps, ss) ->
  length ps = length ss.
Proof.
  intros Hr. refine (rfold_inv g1msm_step (fun '(p, s) => length p = length s) cs _ _ _ _ Hr); [done|].
  intros [p s] ch [p' s'] _ Hl Hs. unfold g1msm_step in Hs.
  apply rbind_ok in Hs as (pt & _ & Hs).
  destruct (blst_p1_affine_is_inf pt); [by injection Hs as <- <-|].
  destruct (forallb _ _); [by injection Hs as <- <-|].
  apply rbind_ok in Hs as (sc & _ & Hs). injection Hs as <- <-. rewrite !length_app. cbn. lia.
Qed.

Lemma g2msm_lengths cs ps ss : rfold g2msm_step ([], []) cs = Ok (ps, ss) ->
  length ps = length ss.
Proof.
  intros Hr. refine (rfold_inv g2msm_step (fun '(p, s) => length p = length s) cs _ _ _ _ Hr); [done|].
  intros [p s] ch [p' s'] _ Hl Hs. unfold g2msm_step in Hs.
  apply rbind_ok in Hs as (pt & _ & Hs).
  destruct (blst_p2_affine_is_inf pt); [by injection Hs as <- <-|].
  destruct (forallb _ _); [by injection Hs as <- <-|].
  apply rbind_ok in Hs as (sc & _ & Hs). injection Hs as <- <-. rewrite !length_app. cbn. lia.
Qed.

Lemma remove_padding_safe input : no_panic (remove_padding input).
Proof. unfold remove_padding. by repeat destruct (negb _). Qed.

Lemma read_fp_safe input : no_panic (read_fp input).
Proof. unfold read_fp. by destruct (negb _). Qed.

Lemma read_scalar_safe input : no_panic (read_scalar input).
Proof. unfold read_scalar. by destruct (negb _). Qed.

Hint Resolve remove_padding_safe read_fp_safe read_scalar_safe : safe.

Lemma extract_g1_safe input c : no_panic (extract_g1_input input c).
Proof. unfold extract_g1_input, remove_g1_padding, decode_g1_on_curve. safe_tac. Qed.

Lemma extract_g2_safe input c : no_panic (extract_g2_input input c).
Proof. unfold extract_g2_input, remove_g2_padding, decode_g2_on_curve, read_fp2. safe_tac. Qed.

Hint Resolve extract_g1_safe extract_g2_safe : safe.

Lemma g1msm_steps_safe acc cs : no_panic (rfold g1msm_step acc cs).
Proof. apply rfold_safe. intros [p s] ch. unfold g1msm_step. safe_tac. Qed.

Lemma g2msm_steps_safe acc cs : no_panic (rfold g2msm_step acc cs).
Proof. apply rfold_safe. intros [p s] ch. unfold g2msm_step. safe_tac. Qed.

Lemma pairing_steps_safe acc cs : no_panic (rfold pairing_step acc cs).
Proof. apply rfold_safe. intros p ch. unfold pairing_step. safe_tac. Qed.

(** A result that is an error, or bytes of a known number. *)
Definition returns_bytes (n : nat) (r : Rp (list Z)) : Prop :=
  match r with Ok out => length out = n | Err _ => True | Panic => False end.

Lemma returns_bind {A} n (m : Rp A) f : no_panic m -> (forall a, m = Ok a -> returns_bytes n (f a)) ->
  returns_bytes n (rbind m f).
Proof. intros H1 H2. destruct m; cbn; [by apply H2|done|by destruct H1]. Qed.

Lemma g1msm_returns input : returns_bytes 128 (bls12_g1msm input).
Proof.
  unfold bls12_g1msm. destruct (_ || _); [done|].
  apply returns_bind; [apply g1msm_steps_safe|]. intros [ps ss] Hl%g1msm_lengths.
  destruct ps as [|p ps]; [done|]. unfold p1_msm. rewrite Hl, Nat.eqb_refl. cbn [negb].
  destruct ps, ss as [|s [|s' ss]]; try discriminate Hl; cbn [rbind returns_bytes];
    apply encode_g1_length.
Qed.

Lemma g2msm_returns input : returns_bytes 256 (bls12_g2msm input).
Proof.
  unfold bls12_g2msm. destruct (_ || _); [done|].
  apply returns_bind; [apply g2msm_steps_safe|]. intros [ps ss] Hl%g2msm_lengths.
  destruct ps as [|p ps]; [done|]. unfold p2_msm. rewrite Hl, Nat.eqb_refl. cbn [negb].
  destruct ps, ss as [|s [|s' ss]]; try discriminate Hl; cbn [rbind returns_bytes];
    apply encode_g2_length.
Qed.

(** The BLS12-381 precompiles never panic, whatever their input, and
    return 128 bytes for points of G1, 256 bytes for points of G2 (also for
    the map from Fp2, which is documented to return 128) and 32 bytes for the
    pairing check. *)
Theorem bls_precompiles_total input :
  returns_bytes 128 (bls12_g1add input) /\ returns_bytes 128 (bls12_g1msm input) /\
  returns_bytes 256 (bls12_g2add input) /\ returns_bytes 256 (bls12_g2msm input) /\
  returns_bytes 128 (bls12_map_fp_to_g1 input) /\ returns_bytes 256 (bls12_map_fp2_to_g2 input) /\
  returns_bytes 32 (bls12_pairing input).
Proof.
  repeat split; try apply g1msm_returns; try apply g2msm_returns.
  - unfold bls12_g1add. destruct (negb _); [done|].
    do 2 (apply returns_bind; [auto with safe|intros ? _]).
    repeat destruct (blst_p1_affine_is_inf _); apply encode_g1_length.
  - unfold bls12_g2add. destruct (negb _); [done|].
    do 2 (apply returns_bind; [auto with safe|intros ? _]).
    repeat destruct (blst_p2_affine_is_inf _); apply encode_g2_length.
  - unfold bls12_map_fp_to_g1. destruct (negb _); [done|].
    do 2 (apply returns_bind; [auto with safe|intros ? _]). apply encode_g1_length.
  - unfold bls12_map_fp2_to_g2, read_fp2. destruct (negb _); [done|].
    do 2 (apply returns_bind; [auto with safe|intros ? _]).
    apply returns_bind; [safe_tac|intros ? _]. apply encode_g2_length.
  - unfold bls12_pairing. destruct (_ || _); [done|].
    apply returns_bind; [apply pairing_steps_safe|intros ? _]. done.
Qed.
End bls_laws.

(** ** An instance

    A stand-in for the curve library that satisfies the laws: field elements
    are their 48 bytes, every pair of them is a point. *)

Definition fit48 (l : list Z) : list Z :=
  map (fun b => b mod 256) (take 48 (l ++ replicate 48 0)).

Definition toy_blst : Blst := {|
  blst_fp := list Z; blst_scalar := list Z; blst_p1 := list Z * list Z;
  blst_p2 := (list Z * list Z) * (list Z * list Z); blst_fp12 := unit;
  blst_fp_from_bendian := id; blst_bendian_from_fp := fit48; blst_scalar_from_bendian := id;
  blst_p1_affine_on_curve := fun _ => true; blst_p1_affine_in_g1 := fun _ => true;
  blst_p1_affine_is_inf := fun _ => false; blst_p1_from_affine := id; blst_p1_to_affine := id;
  blst_p1_mult := fun p _ => p; blst_p1_add_or_double_affine := fun p _ => p;
  blst_p1_multi := fun ps _ => default ([], []) (head ps); blst_map_to_g1 := fun x => (x, x);
  blst_p2_affine_on_curve := fun _ => true; blst_p2_affine_in_g2 := fun _ => true;
  blst_p2_affine_is_inf := fun _ => false; blst_p2_from_affine := id; blst_p2_to_affine := id;
  blst_p2_mult := fun p _ => p; blst_p2_add_or_double_affine := fun p _ => p;
  blst_p2_multi := fun ps _ => default (([], []), ([], [])) (head ps);
  blst_map_to_g2 := fun x => (x, x); blst_miller_loop := fun _ _ => tt;
  blst_fp12_mul := fun _ _ => tt; blst_final_exp := id; blst_fp12_is_one := fun _ => true;
|}.

#[global] Instance toy_blst_laws : BlstLaws toy_blst.
Proof.
  split.
  - intros b Hb Hl _. cbn. unfold fit48, id. rewrite take_app_le by (rewrite Hl; done).
    rewrite take_ge by (rewrite Hl; done). clear Hl.
    induction Hb as [|x l Hx _ IH]; [done|]. cbn [map]. by rewrite Z.mod_small, IH.
  - intros f. cbn. unfold fit48. rewrite length_map, length_take, length_app, length_replicate.
    unfold FP_LENGTH. lia.
  - intros f. apply Forall_map, Forall_true. intros x. apply Z.mod_pos_bound. lia.
Qed.

Lemma bls_points_canonical_witness :
  exists p, extract_g1_input (B := toy_blst) (replicate 127 0 ++ [5]) true = Ok p /\
    encode_g1_point (B := toy_blst) p = replicate 127 0 ++ [5].
Proof.
  eexists. split; [reflexivity|].
  apply (bls_points_canonical (B := toy_blst) (replicate 127 0 ++ [5]) true); [|reflexivity].
  apply Forall_app. split; [by apply Forall_replicate|by repeat constructor].
Defined.

Lemma bls_precompiles_total_witness :
  match bls12_map_fp2_to_g2 (B := toy_blst) (replicate 128 0) with
  | Ok out => length out = 256%nat
  | _ => False
  end.
Proof.
  destruct (bls_precompiles_total (B := toy_blst) (replicate 128 0)) as (_ & _ & _ & _ & _ & H & _).
  exact H.
Defined.
