(* ===== verification/EvmPrecompiles.v ===== *)
(** * The EVM actor's precompiles

    Models the precompiled contracts of src/actors/evm/src/interpreter/
    precompiles/{mod,evm,fvm,blake2f_impl}.rs.  The arithmetic of the BN254
    curve (crate [substrate_bn]) is the class [Bn]; hashes, signatures and the
    codec of addresses are fields of [EvmExt]. *)

From S2P Require Import Prelude Runtime EvmWord EvmMachine EvmSystem EvmReader EvmBls.

(** The constants of the IPLD codecs the code names. *)
Definition CBOR : Z := 0x51.
Definition IPLD_RAW : Z := 0x55.

Definition EVM_MAX_RESERVED_METHOD : Z := 1023.

(** interpreter/mod.rs *)
Inductive CallKind : Type := Call | DelegateCall | StaticCall.

#[global] Instance CallKind_eq_dec : EqDecision CallKind.
Proof. solve_decision. Defined.

Record PrecompileContext : Type := mkPctx {
  call_type : CallKind;
  pc_gas : Z;
  pc_value : Z;
}.

(** ** blake2f *)

Module Blake2f.
Definition SIGMA : list (list nat) :=
  [[0; 1; 2; 3; 4; 5; 6; 7; 8; 9; 10; 11; 12; 13; 14; 15];
   [14; 10; 4; 8; 9; 15; 13; 6; 1; 12; 0; 2; 11; 7; 5; 3];
   [11; 8; 12; 0; 5; 2; 15; 13; 10; 14; 3; 6; 7; 1; 9; 4];
   [7; 9; 3; 1; 13; 12; 11; 14; 2; 6; 5; 10; 4; 0; 15; 8];
   [9; 0; 5; 7; 2; 4; 10; 15; 14; 1; 11; 12; 6; 8; 3; 13];
   [2; 12; 6; 10; 0; 11; 8; 3; 4; 13; 7; 5; 15; 14; 1; 9];
   [12; 5; 1; 15; 14; 13; 4; 10; 0; 7; 6; 3; 9; 2; 8; 11];
   [13; 11; 7; 14; 12; 1; 3; 9; 5; 0; 15; 4; 8; 6; 2; 10];
   [6; 15; 14; 9; 11; 3; 0; 8; 12; 2; 13; 7; 1; 4; 10; 5];
   [10; 2; 8; 4; 7; 6; 1; 5; 15; 11; 9; 14; 3; 12; 13; 0]]%nat.

Definition IV : list Z :=
  [0x6a09e667f3bcc908; 0xbb67ae8584caa73b; 0x3c6ef372fe94f82b; 0xa54ff53a5f1d36f1;
   0x510e527fade682d1; 0x9b05688c2b3e6c1f; 0x1f83d9abfb41bd6b; 0x5be0cd19137e2179].

Definition wrapping_add (a b : Z) : Z := (a + b) mod 2 ^ 64.
Definition rotate_right (x n : Z) : Z :=
  Z.lor (Z.shiftr x n) (Z.shiftl x (64 - n) mod 2 ^ 64).

(** [v[i]], in range for every use. *)
Definition at_ (v : list Z) (i : nat) : Z := default 0 (v !! i).

Definition g (v : list Z) (a b c d : nat) (x y : Z) : list Z :=
  let v := <[a := wrapping_add (wrapping_add (at_ v a) (at_ v b)) x]> v in
  let v := <[d := rotate_right (Z.lxor (at_ v d) (at_ v a)) 32]> v in
  let v := <[c := wrapping_add (at_ v c) (at_ v d)]> v in
  let v := <[b := rotate_right (Z.lxor (at_ v b) (at_ v c)) 24]> v in
  let v := <[a := wrapping_add (wrapping_add (at_ v a) (at_ v b)) y]> v in
  let v := <[d := rotate_right (Z.lxor (at_ v d) (at_ v a)) 16]> v in
  let v := <[c := wrapping_add (at_ v c) (at_ v d)]> v in
  <[b := rotate_right (Z.lxor (at_ v b) (at_ v c)) 63]> v.

Definition round (m : list Z) (v : list Z) (i : nat) : list Z :=
  let s := default [] (SIGMA !! (i mod 10)%nat) in
  let w k := at_ m (default 0%nat (s !! k)) in
  let v := g v 0 4 8 12 (w 0%nat) (w 1%nat) in
  let v := g v 1 5 9 13 (w 2%nat) (w 3%nat) in
  let v := g v 2 6 10 14 (w 4%nat) (w 5%nat) in
  let v := g v 3 7 11 15 (w 6%nat) (w 7%nat) in
  let v := g v 0 5 10 15 (w 8%nat) (w 9%nat) in
  let v := g v 1 6 11 12 (w 10%nat) (w 11%nat) in
  let v := g v 2 7 8 13 (w 12%nat) (w 13%nat) in
  g v 3 4 9 14 (w 14%nat) (w 15%nat).

Definition compress (h m t : list Z) (f : bool) (rounds : nat) : list Z :=
  let v := h ++ IV in
  let v := <[12%nat := Z.lxor (at_ v 12) (at_ t 0)]> v in
  let v := <[13%nat := Z.lxor (at_ v 13) (at_ t 1)]> v in
  let v := if f then <[14%nat := Z.lxor (at_ v 14) (2 ^ 64 - 1)]> v else v in
  let v := foldl (round m) v (seq 0 rounds) in
  imap (fun i x => Z.lxor x (Z.lxor (at_ v i) (at_ v (i + 8)))) h.
End Blake2f.

(** [LE::read_u64_into], [LE::write_u64_into]. *)
Fixpoint read_u64s (n : nat) (l : list Z) : list Z :=
  match n with
  | O => []
  | S n => from_big_endian (rev (take 8 l)) :: read_u64s n (drop 8 l)
  end.
Definition write_u64s (h : list Z) : list Z := h ≫= (fun x => rev (be_bytes 8 x)).

(** ** The pure precompiles *)

Class Bn : Type := {
  bn_fq : Type;
  bn_fr : Type;
  bn_g1 : Type;
  bn_g2 : Type;
  fq_from_slice : list Z -> option bn_fq;
  fq_is_zero : bn_fq -> bool;
  fr_from_slice : list Z -> option bn_fr;
  g1_zero : bn_g1;
  affine_g1_new : bn_fq -> bn_fq -> option bn_g1;
  g1_add : bn_g1 -> bn_g1 -> bn_g1;
  g1_mul : bn_g1 -> bn_fr -> bn_g1;
  (** the coordinates as 32 bytes each, none at infinity *)
  g1_to_affine : bn_g1 -> option (list Z * list Z);
  fq2_is_zero : bn_fq * bn_fq -> bool;
  g2_zero : bn_g2;
  affine_g2_new : bn_fq * bn_fq -> bn_fq * bn_fq -> option bn_g2;
  pairing_batch_is_one : list (bn_g1 * bn_g2) -> bool;
}.

Section pure.
Context {BN : Bn} {BL : Blst}.

Notation RP := (St ValueReader PrecompileError).

(** [impl Value] for the curve's types. *)
Definition read_fq : RP bn_fq :=
  let& b := reads (read_fixed 32) in slift (ok_or (fq_from_slice b) EcErr).
Definition read_fr : RP bn_fr :=
  let& b := reads (read_fixed 32) in slift (ok_or (fr_from_slice b) EcErr).
Definition read_g1 : RP bn_g1 :=
  let& x := read_fq in
  let& y := read_fq in
  if fq_is_zero x && fq_is_zero y then sret g1_zero
  else slift (ok_or (affine_g1_new x y) EcErr).

(** Runs code that reads from an input. *)
Definition on_input {E A} (m : St ValueReader E A) (input : list Z) : Res E A :=
  fst (m (new_reader input)).

Definition identity (input : list Z) : Rp (list Z) := Ok input.

Definition modexp (input : list Z) : Rp (list Z) :=
  on_input
    (let& base_len := read_or InvalidInput (read_uint 4) in
     let& exponent_len := read_or InvalidInput (read_uint 4) in
     let& mod_len := read_or InvalidInput (read_uint 4) in
     if (base_len =? 0) && (mod_len =? 0) then sret []
     else
       let& base := read_biguint base_len in
       let& exponent := read_biguint exponent_len in
       let& modulus := read_biguint mod_len in
       if (modulus =? 0) || (modulus =? 1) then sret (replicate (Z.to_nat mod_len) 0)
       else
         let output := zeroless_view (be_bytes (Z.to_nat mod_len) (Z.pow base exponent mod modulus)) in
         sret (if len output <? mod_len
               then replicate (Z.to_nat (mod_len - len output)) 0 ++ output else output))
    input.

Definition curve_to_vec (curve : bn_g1) : list Z :=
  match g1_to_affine curve with
  | Some (x, y) => x ++ y
  | None => replicate 64 0
  end.

Definition ec_add (input : list Z) : Rp (list Z) :=
  on_input
    (let& point1 := read_g1 in
     let& point2 := read_g1 in
     sret (curve_to_vec (g1_add point1 point2))) input.

Definition ec_mul (input : list Z) : Rp (list Z) :=
  on_input
    (let& point := read_g1 in
     let& scalar := read_fr in
     sret (curve_to_vec (g1_mul point scalar))) input.

Definition read_group (input : list Z) : Rp (bn_g1 * bn_g2) :=
  on_input
    (let& x := read_fq in
     let& y := read_fq in
     let& xb := read_fq in
     let& xa := read_fq in
     let& yb := read_fq in
     let& ya := read_fq in
     let& twisted :=
       if fq2_is_zero (xa, xb) && fq2_is_zero (ya, yb) then sret g2_zero
       else slift (ok_or (affine_g2_new (xa, xb) (ya, yb)) EcErr) in
     let& a :=
       if fq_is_zero x && fq_is_zero y then sret g1_zero
       else slift (ok_or (affine_g1_new x y) EcErr) in
     sret (a, twisted)) input.

Definition GROUP_BYTE_LEN : nat := 192.

Definition ec_pairing (input : list Z) : Rp (list Z) :=
  if negb (length input mod GROUP_BYTE_LEN =? 0)%nat then Err IncorrectInputSize
  else
    let! groups :=
      rfold (fun groups chunk => let! p := read_group chunk in Ok (groups ++ [p])) []
        (chunks_exact (length input / GROUP_BYTE_LEN) GROUP_BYTE_LEN input) in
    Ok (to_big_endian (Z.b2z (pairing_batch_is_one groups))).

Definition blake2f (input : list Z) : Rp (list Z) :=
  if negb (length input =? 213)%nat then Err IncorrectInputSize
  else
    let rounds := take 4 input in
    let h := take 64 (drop 4 input) in
    let m := take 128 (drop 68 input) in
    let t := take 16 (drop 196 input) in
    let! f :=
      match input !! 212%nat with
      | Some 0 => Ok false
      | Some 1 => Ok true
      | _ => Err IncorrectInputSize
      end in
    Ok (write_u64s
          (Blake2f.compress (read_u64s 8 h) (read_u64s 16 m) (read_u64s 2 t) f
             (Z.to_nat (from_big_endian rounds)))).
End pure.

(** ** The precompiles that use the runtime *)

Definition SECP256K1_N : Z :=
  Z.shiftl 0xfffffffffffffffffffffffffffffffe 128 + 0xbaaedce6af48a03bbfd25e8cd0364141.

Definition NATIVE_PRECOMPILE_ADDRESS_PREFIX : Z := 0xFE.

Definition is_reserved_precompile_address (addr : EthAddress) : bool :=
  match addr with
  | prefix :: rest =>
      ((prefix =? 0x00) || (prefix =? NATIVE_PRECOMPILE_ADDRESS_PREFIX))
      && bool_decide (take 18 rest = replicate 18 0)
      && (default 0 (rest !! 18%nat) >? 0)
  | [] => false
  end.

(** The second half of [call_actor_shared]: the exit code and the returned
    block in the Solidity ABI. *)
Definition encode_call_output (exit_code : Z) (ret_blk : IpldBlock) : list Z :=
  let output := to_big_endian exit_code in
  let output := output ++ to_big_endian (blk_codec ret_blk) in
  let output := output ++ to_big_endian (len output + EVM_WORD_SIZE) in
  let output := output ++ to_big_endian (len (blk_data ret_blk)) in
  let output := output ++ blk_data ret_blk in
  let offset := len output mod EVM_WORD_SIZE in
  if offset >? 0 then resize_zero output (len output - offset + EVM_WORD_SIZE) else output.

Section precompiles.
Context {BN : Bn} {BL : Blst}.
Context {Net : Type} (env : Env Net State SendParams IpldBlock) (ctx : Ctx) (ext : EvmExt Net).

Notation VM := (Vm Net).
Notation EM := (St VM (ActorError IpldBlock)).
Notation PM := (St VM PrecompileError).

(** [?] of an [ActorError] in a precompile. *)
Definition vm_error {A} (m : EM A) : PM A := fun vm =>
  match m vm with
  | (Ok a, vm) => (Ok a, vm)
  | (Err e, vm) => (Err (VMError e), vm)
  | (Panic, vm) => (Panic, vm)
  end.

(** A precompile that only computes. *)
Definition pure (f : list Z -> Rp (list Z)) (input : list Z) (_ : PrecompileContext) : PM (list Z) :=
  slift (f input).

Definition ec_recover_internal (input : list Z) : Rp (list Z) :=
  let! (hash, recovery_byte, r, s) :=
    on_input
      (let& hash := reads (read_fixed 32) in
       let& recovery_byte := read_or InvalidInput read_u8 in
       let& r := reads read_u256 in
       let& s := reads read_u256 in
       sret (hash, recovery_byte, r, s)) input in
  if recovery_byte <? 27 then Err InvalidInput
  else
    let v := recovery_byte - 27 in
    let in_range x := (1 <=? x) && (x <? SECP256K1_N) in
    if (v >? 1) || negb (in_range r) || negb (in_range s) then Err InvalidInput
    else
      let sig := to_big_endian r ++ to_big_endian s ++ [v] in
      match ext_recover_secp ext hash sig with
      | None => Err InvalidInput
      | Some pubkey =>
          let address := ext_keccak256 ext (drop 1 pubkey) in
          Ok (replicate 12 0 ++ drop 12 address)
      end.

Definition ec_recover (input : list Z) : Rp (list Z) :=
  match ec_recover_internal input with
  | Ok address => Ok address
  | Err _ => Ok []
  | Panic => Panic
  end.

Definition sha256 (input : list Z) : Rp (list Z) := Ok (ext_sha256 ext input).

Definition ripemd160 (input : list Z) : Rp (list Z) :=
  Ok (replicate 12 0 ++ ext_ripemd160 ext input).

Definition p_lookup_delegated_address (input : list Z) (_ : PrecompileContext) : PM (list Z) :=
  let& id := slift (on_input (read_or InvalidInput (read_uint 8)) input) in
  let& w := vm_error (rt get_world) in
  sret (match ext_lookup_delegated_address ext (w_net w) id with
        | Some a => ext_address_to_bytes ext a
        | None => []
        end).

Definition p_resolve_address (input : list Z) (_ : PrecompileContext) : PM (list Z) :=
  match ext_address_from_bytes ext input with
  | None => sfail InvalidInput
  | Some addr =>
      let& id := vm_error (rt (resolve_address env addr)) in
      sret (match id with Some a => to_big_endian a | None => [] end)
  end.

(** The arguments of [call_actor]. *)
Record CallActorArgs : Type := mkCallArgs {
  ca_method : Z;
  ca_value : Z;
  ca_read_only : bool;
  ca_codec : Z;
  ca_params : list Z;
  ca_address : Address;
}.

Definition read_call_actor (by_id : bool) : St ValueReader PrecompileError CallActorArgs :=
  let& method := read_or InvalidInput (read_uint 8) in
  let& value := reads read_u256 in
  let& flags := read_or InvalidInput (read_uint 8) in
  if flags >? 1 then sfail InvalidInput
  else
    let& codec := read_or InvalidInput (read_uint 8) in
    let& params_off := read_or InvalidInput (read_uint 4) in
    let& id_or_addr_off := read_or InvalidInput (read_uint 8) in
    let& _ := smodify (seek params_off) in
    let& params_len := read_or InvalidInput (read_uint 4) in
    let& params := reads (read_padded (Z.to_nat params_len)) in
    let& address :=
      if by_id then sret (AddrId id_or_addr_off)
      else
        let& off := slift (ok_or (U256.try_into_u32 id_or_addr_off) InvalidInput) in
        let& _ := smodify (seek off) in
        let& addr_len := read_or InvalidInput (read_uint 4) in
        let& addr_bytes := reads (read_padded (Z.to_nat addr_len)) in
        slift (ok_or (ext_address_from_bytes ext addr_bytes) InvalidInput) in
    sret (mkCallArgs method value (flags =? 1) codec params address).

(** The output of [call_actor]. *)
Definition call_actor_output (result : Response IpldBlock + ErrorNumber) : list Z :=
  let '(exit_code, data) :=
    match result with
    | inr errno => (U256.i256_neg (ext_errno ext errno), None)
    | inl resp => (ext_exit_value ext (resp_code resp), resp_data resp)
    end in
  encode_call_output exit_code (default (mkBlock 0 []) data).

Definition call_actor_shared (by_id : bool) (input : list Z) (pctx : PrecompileContext)
  : PM (list Z) :=
  if negb (bool_decide (call_type pctx = DelegateCall)) then sfail CallForbidden
  else
    let& args := slift (on_input (read_call_actor by_id) input) in
    if (ca_method args <=? EVM_MAX_RESERVED_METHOD) && negb (ca_method args =? METHOD_SEND)
    then sfail InvalidInput
    else
      let& params :=
        if ca_codec args =? CBOR then sret (Some (mkBlock (ca_codec args) (ca_params args)))
        else if (ca_codec args =? 0) && (len (ca_params args) =? 0) then sret None
        else sfail InvalidInput in
      let& gas := vm_error (call_gas_limit ext (pc_gas pctx)) in
      let& result :=
        vm_error (send_raw env ext (ca_address args) (ca_method args) params (ca_value args)
          (Some gas) (ca_read_only args)) in
      sret (call_actor_output result).

Definition p_get_randomness (input : list Z) (_ : PrecompileContext) : PM (list Z) :=
  let& epoch := slift (on_input (read_or InvalidInput read_i64) input) in
  match ext_beacon ext epoch with
  | inl r => sret r
  | inr _ => sfail InvalidInput
  end.

(** ** The tables *)

Notation PrecompileFn := (list Z -> PrecompileContext -> PM (list Z)).

Definition NATIVE_PRECOMPILES : list (option PrecompileFn) :=
  [Some p_resolve_address; Some p_lookup_delegated_address; Some (call_actor_shared false); None;
   Some (call_actor_shared true); Some p_get_randomness].

Definition EVM_PRECOMPILES : list (option PrecompileFn) :=
  [Some (pure ec_recover); Some (pure sha256); Some (pure ripemd160); Some (pure identity);
   Some (pure modexp); Some (pure ec_add); Some (pure ec_mul); Some (pure ec_pairing);
   Some (pure blake2f); None; Some (pure bls12_g1add); Some (pure bls12_g1msm);
   Some (pure bls12_g2add); Some (pure bls12_g2msm); Some (pure bls12_pairing);
   Some (pure bls12_map_fp_to_g1); Some (pure bls12_map_fp2_to_g2)].

Definition lookup_precompile (addr : EthAddress) : option PrecompileFn :=
  if is_reserved_precompile_address addr then
    match addr with
    | prefix :: rest =>
        let index := Nat.pred (Z.to_nat (default 0 (rest !! 18%nat))) in
        if prefix =? NATIVE_PRECOMPILE_ADDRESS_PREFIX then mjoin (NATIVE_PRECOMPILES !! index)
        else if prefix =? 0x00 then mjoin (EVM_PRECOMPILES !! index)
        else None
    | [] => None
    end
  else None.

Definition call_precompile (precompile_addr : EthAddress) (input : list Z)
    (context : PrecompileContext) : PM (list Z) :=
  let& result :=
    match lookup_precompile precompile_addr with
    | Some f => f input context
    | None => sret []
    end in
  if negb (pc_value context =? 0) then
    let& r := scatch (vm_error (transfer env (Eth.to_address precompile_addr) (pc_value context))) in
    match r with
    | inl _ => sret result
    | inr _ => sfail TransferFailed
    end
  else sret result.

Definition is_precompile (addr : EthAddress) : bool :=
  negb (Eth.is_null addr) &&
  match lookup_precompile addr with Some _ => true | None => false end.
End precompiles.

(** ** Lemmas *)

Lemma to_big_endian_len x : len (to_big_endian x) = 32.
Proof. unfold len, to_big_endian. by rewrite be_bytes_length. Qed.

(** The output of [call_actor]: four words, the data, and padding. *)
Lemma encode_call_output_shape c blk : exists k, (k < 32)%nat /\
  encode_call_output c blk =
    to_big_endian c ++ to_big_endian (blk_codec blk) ++ to_big_endian 96 ++
    to_big_endian (len (blk_data blk)) ++ blk_data blk ++ replicate k 0.
Proof.
  unfold encode_call_output, EVM_WORD_SIZE. cbv zeta.
  rewrite !len_app, !to_big_endian_len. change (32 + 32 + 32) with 96.
  set (n := 96 + 32 + len (blk_data blk)).
  pose proof (Z.mod_pos_bound n 32 ltac:(lia)). destruct (n mod 32 >? 0) eqn:E; bool_prop.
  - exists (Z.to_nat (32 - n mod 32)). split; [lia|].
    rewrite resize_zero_fill; rewrite !len_app, !to_big_endian_len; [|lia]. rewrite <- !app_assoc. do 5 f_equal. do 2 f_equal. lia.
  - exists 0%nat. split; [lia|]. by rewrite app_nil_r, <- !app_assoc.
Qed.
