(* ===== verification/EvmInterp.v ===== *)
(** * The EVM interpreter

    Models the instructions (src/actors/evm/src/interpreter/instructions/
    {mod,stack,control,memory,hash,context,state,storage,log_event,ext,call,
    lifecycle}.rs) and the machine that runs them (interpreter/execution.rs).
    An instruction is a function of the machine in the monad of the system:
    the macros that define the instructions are the combinators [primop],
    [stackop], [stdfun], [stdproc], ... *)

From S2P Require Import Prelude Runtime EvmWord EvmMachine EvmSystem EvmReader EvmBls EvmPrecompiles.

Record ExecutionState : Type := mkExec {
  stack : list Z;
  memory : list Z;
  input_data : list Z;
  ret_data : list Z;
  xs_caller : EthAddress;
  xs_receiver : EthAddress;
  value_received : Z;
}.

Definition set_stack (s : list Z) (x : ExecutionState) : ExecutionState :=
  mkExec s (memory x) (input_data x) (ret_data x) (xs_caller x) (xs_receiver x) (value_received x).
Definition set_memory (m : list Z) (x : ExecutionState) : ExecutionState :=
  mkExec (stack x) m (input_data x) (ret_data x) (xs_caller x) (xs_receiver x) (value_received x).
Definition set_ret_data (d : list Z) (x : ExecutionState) : ExecutionState :=
  mkExec (stack x) (memory x) (input_data x) d (xs_caller x) (xs_receiver x) (value_received x).

(** [ExecutionState::new]. *)
Definition new_exec (caller receiver : EthAddress) (value_received : Z) (input_data : list Z)
  : ExecutionState :=
  mkExec [] [] input_data [] caller receiver value_received.

Record Machine : Type := mkMachine {
  m_state : ExecutionState;
  m_pc : Z;
  m_output : Output;
}.

(** ** Opcodes (execution.rs, [def_opcodes!]) *)

Inductive Op : Type :=
| STOP | ADD | MUL | SUB | DIV | SDIV | MOD | SMOD | ADDMOD | MULMOD | EXP | SIGNEXTEND
| LT | GT | SLT | SGT | EQ | ISZERO | AND | OR | XOR | NOT | BYTE | SHL | SHR | SAR
| KECCAK256
| ADDRESS | BALANCE | ORIGIN | CALLER | CALLVALUE | CALLDATALOAD | CALLDATASIZE | CALLDATACOPY
| CODESIZE | CODECOPY | GASPRICE | EXTCODESIZE | EXTCODECOPY | RETURNDATASIZE | RETURNDATACOPY
| EXTCODEHASH
| BLOCKHASH | COINBASE | TIMESTAMP | NUMBER | PREVRANDAO | GASLIMIT | CHAINID | SELFBALANCE | BASEFEE
| POP | MLOAD | MSTORE | MSTORE8 | SLOAD | SSTORE | JUMP | JUMPI | PC | MSIZE | GAS | JUMPDEST
| TLOAD | TSTORE | MCOPY
| PUSH (n : nat) | DUP (n : nat) | SWAP (n : nat) | LOG (n : nat)
| CREATE | CALL | RETURN | DELEGATECALL | CREATE2 | STATICCALL | REVERT | INVALID | SELFDESTRUCT.

(** The jump table; [None] is the undefined instruction. *)
Definition opcode (b : Z) : option Op :=
  match b with
  | 0x00 => Some STOP | 0x01 => Some ADD | 0x02 => Some MUL | 0x03 => Some SUB
  | 0x04 => Some DIV | 0x05 => Some SDIV | 0x06 => Some MOD | 0x07 => Some SMOD
  | 0x08 => Some ADDMOD | 0x09 => Some MULMOD | 0x0a => Some EXP | 0x0b => Some SIGNEXTEND
  | 0x10 => Some LT | 0x11 => Some GT | 0x12 => Some SLT | 0x13 => Some SGT
  | 0x14 => Some EQ | 0x15 => Some ISZERO | 0x16 => Some AND | 0x17 => Some OR
  | 0x18 => Some XOR | 0x19 => Some NOT | 0x1a => Some BYTE | 0x1b => Some SHL
  | 0x1c => Some SHR | 0x1d => Some SAR | 0x20 => Some KECCAK256
  | 0x30 => Some ADDRESS | 0x31 => Some BALANCE | 0x32 => Some ORIGIN | 0x33 => Some CALLER
  | 0x34 => Some CALLVALUE | 0x35 => Some CALLDATALOAD | 0x36 => Some CALLDATASIZE
  | 0x37 => Some CALLDATACOPY | 0x38 => Some CODESIZE | 0x39 => Some CODECOPY
  | 0x3a => Some GASPRICE | 0x3b => Some EXTCODESIZE | 0x3c => Some EXTCODECOPY
  | 0x3d => Some RETURNDATASIZE | 0x3e => Some RETURNDATACOPY | 0x3f => Some EXTCODEHASH
  | 0x40 => Some BLOCKHASH | 0x41 => Some COINBASE | 0x42 => Some TIMESTAMP | 0x43 => Some NUMBER
  | 0x44 => Some PREVRANDAO | 0x45 => Some GASLIMIT | 0x46 => Some CHAINID
  | 0x47 => Some SELFBALANCE | 0x48 => Some BASEFEE
  | 0x50 => Some POP | 0x51 => Some MLOAD | 0x52 => Some MSTORE | 0x53 => Some MSTORE8
  | 0x54 => Some SLOAD | 0x55 => Some SSTORE | 0x56 => Some JUMP | 0x57 => Some JUMPI
  | 0x58 => Some PC | 0x59 => Some MSIZE | 0x5a => Some GAS | 0x5b => Some JUMPDEST
  | 0x5c => Some TLOAD | 0x5d => Some TSTORE | 0x5e => Some MCOPY
  | 0xf0 => Some CREATE | 0xf1 => Some CALL | 0xf3 => Some RETURN | 0xf4 => Some DELEGATECALL
  | 0xf5 => Some CREATE2 | 0xfa => Some STATICCALL | 0xfd => Some REVERT | 0xfe => Some INVALID
  | 0xff => Some SELFDESTRUCT
  | b =>
      if (0x5f <=? b) && (b <=? 0x7f) then Some (PUSH (Z.to_nat (b - 0x5f)))
      else if (0x80 <=? b) && (b <=? 0x8f) then Some (DUP (Z.to_nat (b - 0x7f)))
      else if (0x90 <=? b) && (b <=? 0x9f) then Some (SWAP (Z.to_nat (b - 0x8f)))
      else if (0xa0 <=? b) && (b <=? 0xa4) then Some (LOG (Z.to_nat (b - 0xa0)))
      else None
  end.

(** ** Instructions without the runtime *)

(** instructions/memory.rs *)
Definition mload (x : ExecutionState) (index : Z) : Rs (Z * ExecutionState) :=
  let! (region, mem) := get_memory_region (memory x) index EVM_WORD_SIZE in
  let! region := expect region in
  let! b := slice mem (r_offset region) (r_offset region + r_size region) in
  Ok (from_big_endian b, set_memory mem x).

Definition mstore (x : ExecutionState) (index value : Z) : Rs ExecutionState :=
  let! (region, mem) := get_memory_region (memory x) index EVM_WORD_SIZE in
  let! region := expect region in
  let! mem := write_slice mem (r_offset region) (to_big_endian value) in
  Ok (set_memory mem x).

Definition mstore8 (x : ExecutionState) (index value : Z) : Rs ExecutionState :=
  let! (region, mem) := get_memory_region (memory x) index 1 in
  let! region := expect region in
  let value := Z.land (U256.low_u32 value) 0xff in
  let! mem := write_slice mem (r_offset region) [value] in
  Ok (set_memory mem x).

Definition msize (x : ExecutionState) : Z := len (memory x).

Definition mcopy (x : ExecutionState) (dest_index src_index size : Z) : Rs ExecutionState :=
  if size >? 0 then
    let! mem := copy_within_memory (memory x) dest_index src_index size in
    Ok (set_memory mem x)
  else Ok x.

(** instructions/control.rs *)
Definition returndatacopy (x : ExecutionState) (mem_index input_index size : Z)
  : Rs ExecutionState :=
  let! (region, mem) := get_memory_region (memory x) mem_index size in
  match U256.try_into_u32 input_index with
  | None => fail EVM_CONTRACT_ILLEGAL_MEMORY_ACCESS
  | Some src =>
      if src >? len (ret_data x) then fail EVM_CONTRACT_ILLEGAL_MEMORY_ACCESS
      else
        let fin := src + match region with Some r => r_size r | None => 0 end in
        if fin >=? 2 ^ 32 then fail EVM_CONTRACT_ILLEGAL_MEMORY_ACCESS
        else if fin >? len (ret_data x) then fail EVM_CONTRACT_ILLEGAL_MEMORY_ACCESS
        else
          match region with
          | Some region =>
              let! d := slice (ret_data x) src (src + r_size region) in
              let! mem := write_slice mem (r_offset region) d in
              Ok (set_memory mem x)
          | None => Ok (set_memory mem x)
          end
  end.

(** instructions/call.rs *)
Definition calldataload (x : ExecutionState) (index : Z) : Rs Z :=
  let input_len := len (input_data x) in
  match U256.try_into_u32 index with
  | None => Ok 0
  | Some start =>
      if start <? input_len then
        let fin := Z.min (Z.min (start + EVM_WORD_SIZE) (2 ^ 32 - 1)) input_len in
        let! d := slice (input_data x) start fin in
        Ok (from_big_endian (resize_zero d EVM_WORD_SIZE))
      else Ok 0
  end.

Definition calldatacopy (x : ExecutionState) (mem_index input_index size : Z) : Rs ExecutionState :=
  let! mem := copy_to_memory (memory x) mem_index size input_index (input_data x) true in
  Ok (set_memory mem x).

Definition codecopy (x : ExecutionState) (code : list Z) (mem_index input_index size : Z)
  : Rs ExecutionState :=
  let! mem := copy_to_memory (memory x) mem_index size input_index code true in
  Ok (set_memory mem x).

(** ** Instructions that use the system *)

(** state.rs: the constants of [BytecodeHash]. *)
Definition NATIVE_ACTOR_HASH : Z :=
  0xbcc90f2d6dada5b18e155c17a1c0a55920aae94f39857d39d0d8ed07ae8f228b.
Definition EMPTY_HASH : Z :=
  0xc5d2460186f7233c927e7db2dcc703c0e500b653ca82273b7bfad8045d85a470.

(** The methods of the actor (lib.rs); the number of [InvokeContract] is an
    FRC-42 hash, a field of [EvmExt]. *)
Definition GetBytecode : Z := 3.
Definition GetBytecodeHash : Z := 4.
Definition InvokeContractDelegate : Z := 6.

(** ext.rs *)
Definition CREATE_METHOD_NUM : Z := 2.
Definition CREATE2_METHOD_NUM : Z := 3.

Definition TRANSFER_GAS_LIMIT : Z := 10000000.
Definition BLOCK_GAS_LIMIT : Z := 10000000000.

(** instructions/ext.rs *)
Inductive ContractType : Type :=
| CTPrecompile
| CTEVM (addr : Address)
| CTNative (cid : Z)
| CTAccount
| CTNotFound.

Section interp.
Context {BN : Bn} {BL : Blst}.
Context {Net : Type} (env : Env Net State SendParams IpldBlock) (ctx : Ctx) (ext : EvmExt Net).

Notation VM := (Vm Net).
Notation EM := (St VM (ActorError IpldBlock)).

(** instructions/hash.rs *)
Definition keccak256 (x : ExecutionState) (index size : Z) : Rs (Z * ExecutionState) :=
  let! (region, mem) := get_memory_region (memory x) index size in
  let! d := region_bytes mem region in
  let h := ext_keccak256 ext d in
  if len h >? 32 then Panic else Ok (from_big_endian h, set_memory mem x).

(** instructions/state.rs *)
Definition balance (actor : Z) : EM Z :=
  let addr := Eth.to_address (Eth.from_word actor) in
  let& id := rt (resolve_address env addr) in
  let& w := rt get_world in
  match (id ≫= ext_actor_balance ext (w_net w)) with
  | Some b => slift (from_token_amount b)
  | None => sret 0
  end.

Definition selfbalance : EM Z :=
  let& b := rt current_balance in slift (from_token_amount b).

(** instructions/context.rs *)
Definition blockhash (bn : Z) : EM Z :=
  sret
    (if bn <=? I64_MAX then
       if (bn >=? ctx_epoch ctx - 256) && (bn <? ctx_epoch ctx) then
         match ext_tipset_cid ext bn with
         | Some hash => from_big_endian (take 32 hash)
         | None => 0
         end
       else 0
     else 0).

Definition origin : EM Z :=
  let& r := scatch (resolve_ethereum_address env ext (AddrId (ctx_origin ctx))) in
  match r with
  | inl a => sret (Eth.as_evm_word a)
  | inr _ => slift Panic
  end.

Definition gas_price : EM Z := slift (from_token_amount (ext_base_fee ext + ext_gas_premium ext)).

Definition gas : EM Z := gas_available ext.

Definition block_number : EM Z :=
  if ctx_epoch ctx <? 0 then slift Panic else sret (ctx_epoch ctx).

Definition prevrandao : EM Z :=
  let& v := get_randomness env ctx ext in sret (from_big_endian v).

Definition base_fee : EM Z := slift (from_token_amount (ext_base_fee ext)).

(** instructions/storage.rs *)
Definition sload (location : Z) : EM Z := get_storage location.

Definition sstore (key value : Z) : EM unit :=
  let& s := get_sys in
  if readonly s then raise USR_READ_ONLY else set_storage key value.

Definition tload (location : Z) : EM Z := get_transient_storage location.

Definition tstore (key value : Z) : EM unit :=
  let& s := get_sys in
  if readonly s then raise USR_READ_ONLY else set_transient_storage key value.

(** instructions/log_event.rs *)
Definition EVENT_DATA_KEY : list Z := [100].
Definition EVENT_TOPIC_KEYS : list (list Z) := [[116; 49]; [116; 50]; [116; 51]; [116; 52]].

Definition log (x : ExecutionState) (mem_index size : Z) (topics : list Z) : EM ExecutionState :=
  let& s := get_sys in
  if readonly s then raise USR_READ_ONLY
  else
    let& (region, mem) := slift (get_memory_region (memory x) mem_index size) in
    let entries := zip EVENT_TOPIC_KEYS (map to_big_endian topics) in
    let& data := slift (region_bytes mem region) in
    let entries :=
      match region with Some _ => entries ++ [(EVENT_DATA_KEY, data)] | None => entries end in
    if ext_emit ext entries then sret (set_memory mem x) else raise USR_ASSERTION_FAILED.

(** instructions/ext.rs *)
Definition get_contract_type (addr : EthAddress) : EM ContractType :=
  if is_precompile env ext addr then sret CTPrecompile
  else
    let& id := rt (resolve_address env (Eth.to_address addr)) in
    match id with
    | None => sret CTNotFound
    | Some id =>
        let& cid := rt (get_actor_code_cid env id) in
        match cid with
        | None => sret CTNotFound
        | Some cid =>
            sret (match env_builtin_type env cid with
                  | Some (TAccount | TPlaceholder | TEthAccount) => CTAccount
                  | Some TEVM => CTEVM (AddrId id)
                  | _ => CTNative cid
                  end)
        end
    end.

Definition get_evm_bytecode_cid (addr : Address) : EM (option (list Z)) :=
  let& r := sys_send env ext addr GetBytecode None 0 None true in
  slift (deserialize_block (ext_dec_bytecode ext) r).

Definition get_evm_bytecode (addr : Address) : EM (list Z) :=
  let& cid := get_evm_bytecode_cid addr in sret (default [] cid).

Definition extcodesize (addr : Z) : EM Z :=
  let& t := get_contract_type (Eth.from_word addr) in
  match t with
  | CTEVM a => let& c := get_evm_bytecode a in sret (len c)
  | CTNative _ => sret 1
  | _ => sret 0
  end.

Definition extcodehash (addr : Z) : EM Z :=
  let& t := get_contract_type (Eth.from_word addr) in
  match t with
  | CTEVM a =>
      let& r := sys_send env ext a GetBytecodeHash None 0 None true in
      let& h := slift (deserialize_block (ext_dec_hash ext) r) in
      sret (from_big_endian h)
  | CTNative _ => sret NATIVE_ACTOR_HASH
  | CTPrecompile => sret EMPTY_HASH
  | CTAccount => sret EMPTY_HASH
  | CTNotFound => sret 0
  end.

Definition extcodecopy (x : ExecutionState) (addr dest_offset data_offset size : Z)
  : EM ExecutionState :=
  let& t := get_contract_type (Eth.from_word addr) in
  let& bytecode :=
    match t with
    | CTEVM a => get_evm_bytecode a
    | CTNotFound | CTAccount | CTPrecompile => sret []
    | CTNative _ => sret [0xFE]
    end in
  let& mem := slift (copy_to_memory (memory x) dest_offset size data_offset bytecode true) in
  sret (set_memory mem x).

(** ** Calls (instructions/call.rs) *)

(** What the callee of CALL or STATICCALL returned, from the result of the
    send: [inl] is success. *)
Definition call_outcome (kind : CallKind) (readonly : bool) (result : Response IpldBlock + ErrorNumber)
  : option IpldBlock + option IpldBlock :=
  match result with
  | inl resp => if is_success (resp_code resp) then inl (resp_data resp) else inr (resp_data resp)
  | inr EN_NotFound => inl None
  | inr EN_ReadOnly =>
      if readonly || bool_decide (kind = StaticCall) then inl None else inr None
  | inr _ => inr None
  end.

(** CALL and STATICCALL of an address that is not a precompile's. *)
Definition call_send (kind : CallKind) (gas : Z) (dst : EthAddress) (value : Z) (input : list Z)
  : EM (option IpldBlock + option IpldBlock) :=
  let gas := if (U256.eq_u64 gas 0 && (value >? 0)) || (U256.eq_u64 gas 2300 && U256.eq_u64 value 0)
             then TRANSFER_GAS_LIMIT else gas in
  let params := match input with [] => None | _ => Some (mkBlock IPLD_RAW input) end in
  let& gas_limit := call_gas_limit ext gas in
  let& result :=
    send_raw env ext (Eth.to_address dst) (ext_InvokeContract ext) params value (Some gas_limit)
      (bool_decide (kind = StaticCall)) in
  let& s := get_sys in
  sret (call_outcome kind (readonly s) result).

(** DELEGATECALL of an address that is not a precompile's. *)
Definition call_delegate (x : ExecutionState) (gas : Z) (dst : EthAddress) (value : Z)
    (input : list Z) : EM (option IpldBlock + option IpldBlock) :=
  let& t := get_contract_type dst in
  match t with
  | CTEVM dst_addr =>
      let& code := get_evm_bytecode_cid dst_addr in
      match code with
      | Some code =>
          let params := ext_enc_delegate ext code input (xs_caller x) (value_received x) in
          let& gas_limit := call_gas_limit ext gas in
          let& r :=
            scatch (sys_send env ext (receiver ctx) InvokeContractDelegate (Some params) value
              (Some gas_limit) false) in
          sret (match r with inl d => inl d | inr e => inr (err_data e) end)
      | None => sret (inl None)
      end
  | CTAccount | CTNotFound => sret (inl None)
  | CTNative _ => sret (inr None)
  | CTPrecompile => sret (inr None)
  end.

(** The bytes of a returned block: decoded if it is a byte string, raw
    otherwise. *)
Definition returned_bytes (data : option IpldBlock) : list Z :=
  match data with
  | None => []
  | Some r => default (blk_data r) (ext_dec_bytes ext r)
  end.

Definition call_generic (x : ExecutionState) (kind : CallKind)
    (gas dst value input_offset input_size output_offset output_size : Z)
  : EM (Z * ExecutionState) :=
  let& s := get_sys in
  if readonly s && (value >? 0) then raise USR_READ_ONLY
  else
    let& (input_region, mem) := slift (get_memory_region (memory x) input_offset input_size) in
    let& input := slift (region_bytes mem input_region) in
    let dst := Eth.from_word dst in
    let& (call_result, return_data) :=
      if is_reserved_precompile_address dst then
        let& r := (fun vm =>
          match call_precompile env ext dst input (mkPctx kind gas value) vm with
          | (Ok d, vm) => (Ok (1, d), vm)
          | (Err _, vm) => (Ok (0, []), vm)
          | (Panic, vm) => (Panic, vm)
          end) in
        sret r
      else
        let& call_result :=
          match kind with
          | Call | StaticCall => call_send kind gas dst value input
          | DelegateCall => call_delegate x gas dst value input
          end in
        sret (match call_result with
              | inl d => (1, returned_bytes d)
              | inr d => (0, returned_bytes d)
              end) in
    let& mem := slift (copy_to_memory mem output_offset output_size 0 return_data false) in
    sret (call_result, set_memory mem (set_ret_data return_data x)).

(** ** Creation and self-destruction (instructions/lifecycle.rs) *)

Definition create_common (x : ExecutionState) (params : IpldBlock) (method endowment : Z)
  : EM (Z * ExecutionState) :=
  let x := set_ret_data [] x in
  let& b := rt current_balance in
  if endowment >? b then sret (0, x)
  else
    let& _ := increment_nonce in
    let& gas_limit := gas_reserve ext in
    let& ret :=
      scatch (sys_send env ext EAM_ACTOR_ADDR method (Some params) endowment (Some gas_limit) false) in
    match ret with
    | inl eam_ret =>
        let& a := slift (deserialize_block (ext_dec_create_return ext) eam_ret) in
        sret (Eth.as_evm_word a, x)
    | inr e =>
        sret (0, match err_data e with
                 | Some r => set_ret_data (returned_bytes (Some r)) x
                 | None => x
                 end)
    end.

Definition create (x : ExecutionState) (endowment offset size : Z) : EM (Z * ExecutionState) :=
  let& s := get_sys in
  if readonly s then raise USR_READ_ONLY
  else
    let x := set_ret_data [] x in
    let& (input_region, mem) := slift (get_memory_region (memory x) offset size) in
    let& input := slift (region_bytes mem input_region) in
    create_common (set_memory mem x) (ext_enc_create ext input (sys_nonce s)) CREATE_METHOD_NUM
      endowment.

Definition create2 (x : ExecutionState) (endowment offset size salt : Z) : EM (Z * ExecutionState) :=
  let& s := get_sys in
  if readonly s then raise USR_READ_ONLY
  else
    let& (input_region, mem) := slift (get_memory_region (memory x) offset size) in
    let& input := slift (region_bytes mem input_region) in
    create_common (set_memory mem x) (ext_enc_create2 ext input (to_big_endian salt))
      CREATE2_METHOD_NUM endowment.

Definition selfdestruct (pc beneficiary : Z) : EM Output :=
  let& s := get_sys in
  if readonly s then raise USR_READ_ONLY
  else
    let beneficiary := Eth.to_address (Eth.from_word beneficiary) in
    let& balance := rt current_balance in
    let& res :=
      rt (send env (mkSend beneficiary METHOD_SEND (mkParams None None) balance false)) in
    match extract_send_result res with
    | Ok _ =>
        let& _ := mark_selfdestructed ctx ext in
        sret (mkOutput Return [] pc)
    | _ => raise EVM_CONTRACT_SELFDESTRUCT_FAILED
    end.

(** ** The machine (instructions/mod.rs, execution.rs) *)

Context (bytecode : Bytecode).

(** The arguments popped from the stack, the top first. *)
Definition arg1 {A} (d : A) (f : Z -> A) (l : list Z) : A :=
  match l with [a] => f a | _ => d end.
Definition arg2 {A} (d : A) (f : Z -> Z -> A) (l : list Z) : A :=
  match l with [a; b] => f a b | _ => d end.
Definition arg3 {A} (d : A) (f : Z -> Z -> Z -> A) (l : list Z) : A :=
  match l with [a; b; c] => f a b c | _ => d end.
Definition arg4 {A} (d : A) (f : Z -> Z -> Z -> Z -> A) (l : list Z) : A :=
  match l with [a; b; c; e] => f a b c e | _ => d end.
Definition arg6 {A} (d : A) (f : Z -> Z -> Z -> Z -> Z -> Z -> A) (l : list Z) : A :=
  match l with [a; b; c; e; g; h] => f a b c e g h | _ => d end.
Definition arg7 {A} (d : A) (f : Z -> Z -> Z -> Z -> Z -> Z -> Z -> A) (l : list Z) : A :=
  match l with [a; b; c; e; g; h; i] => f a b c e g h i | _ => d end.

(** The machine after an instruction that leaves [x] and goes on at the next
    byte. *)
Definition next (m : Machine) (x : ExecutionState) : Machine :=
  mkMachine x (m_pc m + 1) (m_output m).

(** [pop_many] on the machine: the arguments and the state without them. *)
Definition pop_args (n : nat) (m : Machine) : EM (list Z * ExecutionState) :=
  let& (args, rest) := slift (Stack.pop_many n (stack (m_state m))) in
  sret (args, set_stack rest (m_state m)).

Definition push_result (v : Z) (x : ExecutionState) : ExecutionState :=
  set_stack (Stack.push_unchecked v (stack x)) x.

(** [def_primop!] *)
Definition primop (n : nat) (impl : list Z -> Z) (m : Machine) : EM Machine :=
  let& (args, x) := pop_args n m in
  sret (next m (push_result (impl args) x)).

(** [def_stackop!] *)
Definition stackop (impl : list Z -> Rs (list Z)) (m : Machine) : EM Machine :=
  let& s := slift (impl (stack (m_state m))) in
  sret (next m (set_stack s (m_state m))).

(** [def_push!] *)
Definition pushop (n : nat) (m : Machine) : EM Machine :=
  let pc := m_pc m + 1 in
  let code := drop (Z.to_nat pc) (code bytecode) in
  let& (k, s) := slift (push_code n (stack (m_state m)) code) in
  sret (mkMachine (set_stack s (m_state m)) (pc + Z.of_nat k) (m_output m)).

(** [def_stdfun!], [def_stdfun_code!] with arguments *)
Definition stdfun (n : nat) (impl : ExecutionState -> list Z -> EM (Z * ExecutionState))
    (m : Machine) : EM Machine :=
  let& (args, x) := pop_args n m in
  let& (result, x) := impl x args in
  sret (next m (push_result result x)).

(** [def_stdfun!], [def_stdfun_code!] without arguments *)
Definition stdfun0 (impl : ExecutionState -> EM Z) (m : Machine) : EM Machine :=
  let& _ := slift (Stack.ensure_one (stack (m_state m))) in
  let& result := impl (m_state m) in
  sret (next m (push_result result (m_state m))).

(** [def_stdproc!], [def_stdproc_code!], [def_stdlog!] *)
Definition stdproc (n : nat) (impl : ExecutionState -> list Z -> EM ExecutionState)
    (m : Machine) : EM Machine :=
  let& (args, x) := pop_args n m in
  let& x := impl x args in
  sret (next m x).

(** [def_jmp!] *)
Definition jmp (n : nat) (impl : Z -> list Z -> Rs Z) (m : Machine) : EM Machine :=
  let& (args, x) := pop_args n m in
  let& pc := slift (impl (m_pc m) args) in
  sret (mkMachine x pc (m_output m)).

(** [def_exit!] *)
Definition exitop (n : nat) (impl : ExecutionState -> Z -> list Z -> EM (Output * ExecutionState))
    (m : Machine) : EM Machine :=
  let& (args, x) := pop_args n m in
  let& (output, x) := impl x (m_pc m) args in
  sret (mkMachine x (len (code bytecode)) output).

(** [def_special!] *)
Definition special (value : Z) (m : Machine) : EM Machine :=
  let& s := slift (Stack.push value (stack (m_state m))) in
  sret (next m (set_stack s (m_state m))).

(** Functions that do not change the execution state, or have no effect on
    the system. *)
Definition keep (x : ExecutionState) (m : EM Z) : EM (Z * ExecutionState) :=
  let& v := m in sret (v, x).
Definition proc (x : ExecutionState) (m : EM unit) : EM ExecutionState :=
  let& _ := m in sret x.

(** The table of instructions. *)
Definition instruction (op : Op) : Machine -> EM Machine :=
  match op with
  | ADD => primop 2 (arg2 0 Arithmetic.add)
  | MUL => primop 2 (arg2 0 Arithmetic.mul)
  | SUB => primop 2 (arg2 0 Arithmetic.sub)
  | DIV => primop 2 (arg2 0 Arithmetic.div)
  | SDIV => primop 2 (arg2 0 Arithmetic.sdiv)
  | MOD => primop 2 (arg2 0 Arithmetic.modulo)
  | SMOD => primop 2 (arg2 0 Arithmetic.smod)
  | ADDMOD => primop 3 (arg3 0 Arithmetic.addmod)
  | MULMOD => primop 3 (arg3 0 Arithmetic.mulmod)
  | EXP => primop 2 (arg2 0 Arithmetic.exp)
  | SIGNEXTEND => primop 2 (arg2 0 Arithmetic.signextend)
  | LT => primop 2 (arg2 0 Boolean.lt)
  | GT => primop 2 (arg2 0 Boolean.gt)
  | SLT => primop 2 (arg2 0 Boolean.slt)
  | SGT => primop 2 (arg2 0 Boolean.sgt)
  | EQ => primop 2 (arg2 0 Boolean.eq)
  | ISZERO => primop 1 (arg1 0 Boolean.iszero)
  | AND => primop 2 (arg2 0 Boolean.and)
  | OR => primop 2 (arg2 0 Boolean.or)
  | XOR => primop 2 (arg2 0 Boolean.xor)
  | NOT => primop 1 (arg1 0 Boolean.not)
  | BYTE => primop 2 (arg2 0 Bitwise.byte)
  | SHL => primop 2 (arg2 0 Bitwise.shl)
  | SHR => primop 2 (arg2 0 Bitwise.shr)
  | SAR => primop 2 (arg2 0 Bitwise.sar)
  | DUP n => stackop (Stack.dup n)
  | SWAP n => stackop (Stack.swap_top n)
  | POP => stackop Stack.drop
  | PUSH n => pushop n
  | KECCAK256 => stdfun 2 (fun x => arg2 (slift Panic) (fun a b => slift (keccak256 x a b)))
  | ADDRESS => stdfun0 (fun x => sret (Eth.as_evm_word (xs_receiver x)))
  | BALANCE => stdfun 1 (fun x => arg1 (slift Panic) (fun a => keep x (balance a)))
  | ORIGIN => stdfun0 (fun _ => origin)
  | CALLER => stdfun0 (fun x => sret (Eth.as_evm_word (xs_caller x)))
  | CALLVALUE => stdfun0 (fun x => slift (from_token_amount (value_received x)))
  | CALLDATALOAD =>
      stdfun 1 (fun x => arg1 (slift Panic) (fun a => keep x (slift (calldataload x a))))
  | CALLDATASIZE => stdfun0 (fun x => sret (len (input_data x)))
  | CALLDATACOPY =>
      stdproc 3 (fun x => arg3 (slift Panic) (fun a b c => slift (calldatacopy x a b c)))
  | GASPRICE => stdfun0 (fun _ => gas_price)
  | EXTCODESIZE => stdfun 1 (fun x => arg1 (slift Panic) (fun a => keep x (extcodesize a)))
  | EXTCODECOPY => stdproc 4 (fun x => arg4 (slift Panic) (extcodecopy x))
  | EXTCODEHASH => stdfun 1 (fun x => arg1 (slift Panic) (fun a => keep x (extcodehash a)))
  | RETURNDATASIZE => stdfun0 (fun x => sret (len (ret_data x)))
  | RETURNDATACOPY =>
      stdproc 3 (fun x => arg3 (slift Panic) (fun a b c => slift (returndatacopy x a b c)))
  | BLOCKHASH => stdfun 1 (fun x => arg1 (slift Panic) (fun a => keep x (blockhash a)))
  | COINBASE => stdfun0 (fun _ => sret 0)
  | TIMESTAMP => stdfun0 (fun _ => sret (ext_timestamp ext))
  | NUMBER => stdfun0 (fun _ => block_number)
  | PREVRANDAO => stdfun0 (fun _ => prevrandao)
  | GASLIMIT => stdfun0 (fun _ => sret BLOCK_GAS_LIMIT)
  | CHAINID => stdfun0 (fun _ => sret (ext_chain_id ext))
  | BASEFEE => stdfun0 (fun _ => base_fee)
  | SELFBALANCE => stdfun0 (fun _ => selfbalance)
  | MLOAD => stdfun 1 (fun x => arg1 (slift Panic) (fun a => slift (mload x a)))
  | MSTORE => stdproc 2 (fun x => arg2 (slift Panic) (fun a b => slift (mstore x a b)))
  | MSTORE8 => stdproc 2 (fun x => arg2 (slift Panic) (fun a b => slift (mstore8 x a b)))
  | SLOAD => stdfun 1 (fun x => arg1 (slift Panic) (fun a => keep x (sload a)))
  | SSTORE => stdproc 2 (fun x => arg2 (slift Panic) (fun a b => proc x (sstore a b)))
  | TLOAD => stdfun 1 (fun x => arg1 (slift Panic) (fun a => keep x (tload a)))
  | TSTORE => stdproc 2 (fun x => arg2 (slift Panic) (fun a b => proc x (tstore a b)))
  | MSIZE => stdfun0 (fun x => sret (msize x))
  | GAS => stdfun0 (fun _ => gas)
  | LOG n =>
      stdproc (2 + n) (fun x args =>
        match args with
        | a :: b :: topics => log x a b topics
        | _ => slift Panic
        end)
  | CALL => stdfun 7 (fun x => arg7 (slift Panic) (call_generic x Call))
  | DELEGATECALL =>
      stdfun 6 (fun x => arg6 (slift Panic) (fun gas dst ioff isz ooff osz =>
        call_generic x DelegateCall gas dst 0 ioff isz ooff osz))
  | STATICCALL =>
      stdfun 6 (fun x => arg6 (slift Panic) (fun gas dst ioff isz ooff osz =>
        call_generic x StaticCall gas dst 0 ioff isz ooff osz))
  | CODESIZE => stdfun0 (fun _ => sret (len (code bytecode)))
  | CODECOPY =>
      stdproc 3 (fun x => arg3 (slift Panic) (fun a b c => slift (codecopy x (code bytecode) a b c)))
  | CREATE => stdfun 3 (fun x => arg3 (slift Panic) (create x))
  | CREATE2 => stdfun 4 (fun x => arg4 (slift Panic) (create2 x))
  | MCOPY => stdproc 3 (fun x => arg3 (slift Panic) (fun a b c => slift (mcopy x a b c)))
  | JUMPDEST => stdproc 0 (fun x _ => sret x)
  | INVALID => stdproc 0 (fun _ _ => raise EVM_CONTRACT_INVALID_INSTRUCTION)
  | RETURN =>
      exitop 2 (fun x pc => arg2 (slift Panic) (fun a b =>
        let& (o, mem) := slift (exit (memory x) pc a b Return) in sret (o, set_memory mem x)))
  | REVERT =>
      exitop 2 (fun x pc => arg2 (slift Panic) (fun a b =>
        let& (o, mem) := slift (exit (memory x) pc a b Revert) in sret (o, set_memory mem x)))
  | STOP => exitop 0 (fun x pc _ => sret (mkOutput Return [] pc, x))
  | SELFDESTRUCT =>
      exitop 1 (fun x pc => arg1 (slift Panic) (fun a =>
        let& o := selfdestruct pc a in sret (o, x)))
  | JUMP => jmp 1 (fun pc => arg1 Panic (jump bytecode pc))
  | JUMPI => jmp 2 (fun pc => arg2 Panic (jumpi bytecode pc))
  | PC => fun m => special (m_pc m) m
  end.

(** [Machine::step]. *)
Definition step (m : Machine) : EM Machine :=
  match code bytecode !! Z.to_nat (m_pc m) with
  | None => slift Panic
  | Some b =>
      match opcode b with
      | Some op => instruction op m
      | None => raise EVM_CONTRACT_UNDEFINED_INSTRUCTION
      end
  end.

(** [Machine::execute]; [None] when the fuel runs out.  A contract may loop
    until the gas, which is not modelled, is exhausted. *)
Fixpoint execute (fuel : nat) (m : Machine) : EM (option Output) :=
  match fuel with
  | O => sret None
  | S fuel =>
      if m_pc m <? len (code bytecode) then
        let& m := step m in execute fuel m
      else sret (Some (m_output m))
  end.
End interp.
