(* ===== verification/EvmActor.v ===== *)
(** * The EVM actor

    Models the methods of src/actors/evm/src/lib.rs: construction and
    resurrection of a contract, its invocation, the delegated invocation that
    implements DELEGATECALL, the queries, and the handler of native Filecoin
    methods with its ABI encoding.  Running the bytecode takes fuel; [None] is
    a run that is not over when the fuel is spent. *)

From S2P Require Import Prelude Runtime EvmWord EvmMachine EvmSystem EvmReader EvmBls EvmPrecompiles EvmInterp.

(** ** Native methods *)

Definition NATIVE_METHOD_SELECTOR : list Z := [0x86; 0x8e; 0x10; 0xc4].

(** [handle_filecoin_method_input]. *)
Definition handle_filecoin_method_input (method codec : Z) (params : list Z) : list Z :=
  let static_args := [method; codec; EVM_WORD_SIZE * 3; len params] in
  let total_words :=
    len static_args + len params / EVM_WORD_SIZE + Z.b2z (len params mod 32 >? 0) in
  let n := 4 + total_words * EVM_WORD_SIZE in
  let buf := NATIVE_METHOD_SELECTOR ++ (static_args ≫= (fun n => replicate 24 0 ++ be_bytes 8 n)) in
  resize_zero (buf ++ params) n.

Section actor.
Context {BN : Bn} {BL : Blst}.
Context {Net : Type} (env : Env Net State SendParams IpldBlock) (ctx : Ctx) (ext : EvmExt Net).
Context (fuel : nat).

Notation W := (World Net State SendParams).
Notation RM := (M Net State SendParams IpldBlock).
Notation VM := (Vm Net).
Notation EM := (St VM (ActorError IpldBlock)).
Notation RA := (St ValueReader (ActorError IpldBlock)).

(** [handle_filecoin_method_output]. *)
Definition handle_filecoin_method_output (output : list Z) : Rs (option IpldBlock) :=
  match output with
  | [] => Ok None
  | _ =>
      let! (exit_code, codec, length, return_data) :=
        on_input
          ((let& exit_code := read_or (err USR_SERIALIZATION) (read_uint 4) in
            let& codec := read_or (err USR_SERIALIZATION) (read_uint 8) in
            let& len_offset := read_or (err USR_SERIALIZATION) (read_uint 4) in
            let& _ := smodify (seek len_offset) in
            let& length := read_or (err USR_SERIALIZATION) (read_uint 4) in
            let& return_data := reads (read_padded (Z.to_nat length)) in
            sret (exit_code, codec, length, return_data)) : RA _) output in
      let! return_block :=
        if codec =? 0 then if length =? 0 then Ok None else fail USR_SERIALIZATION
        else if codec =? CBOR then Ok (Some (mkBlock codec return_data))
        else fail USR_SERIALIZATION in
      let exit_code := ext_exit_code ext exit_code in
      if is_success exit_code then Ok return_block else Err (mkErr exit_code return_block)
  end.

(** ** Running code *)

Definition load_bytecode (bytecode : list Z) : EM (option Bytecode) :=
  match bytecode with
  | [] => sret None
  | _ => let& b := slift (expect (new_bytecode bytecode)) in sret (Some b)
  end.

(** [interpreter::execute]. *)
Definition run_code (bytecode : Bytecode) (x : ExecutionState) : EM (option Output) :=
  execute env ctx ext bytecode fuel (mkMachine x 0 default_output).

(** [context_code] and [unwrap] on a result of the system. *)
Definition with_exit_code {A} (c : ExitCode) (m : EM A) : EM A :=
  let& r := scatch m in
  match r with inl a => sret a | inr _ => raise c end.
Definition unwrap {A} (m : EM A) : EM A :=
  let& r := scatch m in
  match r with inl a => sret a | inr _ => slift Panic end.

Definition reverted {A} (data : list Z) : EM A :=
  sfail (mkErr EVM_CONTRACT_REVERTED (Some (ext_enc_bytes ext data))).

Definition initialize_evm_contract (caller : EthAddress) (initcode : list Z) : EM (option unit) :=
  let& receiver_eth_addr :=
    with_exit_code USR_ASSERTION_FAILED (resolve_ethereum_address env ext (receiver ctx)) in
  if Eth.is_id receiver_eth_addr then raise USR_FORBIDDEN
  else
    match initcode with
    | [] => let& _ := flush ext in sret (Some tt)
    | _ =>
        let exec_state := new_exec caller receiver_eth_addr (ctx_value_received ctx) [] in
        let& initcode := slift (expect (new_bytecode initcode)) in
        let& output := run_code initcode exec_state in
        match output with
        | None => sret None
        | Some output =>
            match outcome output with
            | Return =>
                let& _ := set_bytecode ext (return_data output) in
                let& _ := flush ext in
                sret (Some tt)
            | Revert => reverted (return_data output)
            end
        end
    end.

Definition invoke_contract_inner (input_data bytecode_cid : list Z) (caller : EthAddress)
    (value_received : Z) : EM (option (list Z)) :=
  let& bytecode := load_bytecode bytecode_cid in
  match bytecode with
  | None => sret (Some [])
  | Some bytecode =>
      let& receiver_eth_addr := unwrap (resolve_ethereum_address env ext (receiver ctx)) in
      let exec_state := new_exec caller receiver_eth_addr value_received input_data in
      let& output := run_code bytecode exec_state in
      match output with
      | None => sret None
      | Some output =>
          match outcome output with
          | Return => let& _ := flush ext in sret (Some (return_data output))
          | Revert => reverted (return_data output)
          end
      end
  end.

(** ** Methods *)

(** Runs code of the system on the actor's world. *)
Definition with_system {A} (s : Rs System) (m : EM A) : RM A := fun w =>
  let! s := s in
  match m (mkVm s w 0) with
  | (Ok a, vm) => Ok (a, vm_world vm)
  | (Err e, _) => Err e
  | (Panic, _) => Panic
  end.

(** [System::load] with its errors replaced. *)
Definition load_or_unspecified (w : W) : Rs System :=
  match load_system ctx ext w with
  | Err _ => fail USR_UNSPECIFIED
  | r => r
  end.

Definition constructor (creator : EthAddress) (initcode : list Z) : RM (option unit) :=
  let* _ := validate_immediate_caller_is ctx [INIT_ACTOR_ADDR] in
  let* w := get_world in
  with_system (create_system ctx ext w) (initialize_evm_contract creator initcode).

Definition resurrect (creator : EthAddress) (initcode : list Z) : RM (option unit) :=
  let* _ := validate_immediate_caller_is ctx [EAM_ACTOR_ADDR] in
  let* w := get_world in
  with_system (resurrect_system ctx ext w) (initialize_evm_contract creator initcode).

Definition invoke_contract_delegate (code input : list Z) (caller : EthAddress) (value : Z)
  : RM (option (list Z)) :=
  let* _ := validate_immediate_caller_is ctx [receiver ctx] in
  let* w := get_world in
  with_system (load_or_unspecified w) (invoke_contract_inner input code caller value).

Definition invoke_contract (input_data : list Z) : RM (option (list Z)) :=
  let* _ := validate_immediate_caller_accept_any in
  let* w := get_world in
  with_system (load_or_unspecified w)
    (let& bytecode_cid := get_bytecode in
     match bytecode_cid with
     | None => sret (Some [])
     | Some bytecode_cid =>
         let& caller := unwrap (resolve_ethereum_address env ext (Runtime.caller ctx)) in
         invoke_contract_inner input_data bytecode_cid caller (ctx_value_received ctx)
     end).

Definition handle_filecoin_method (method : Z) (args : option IpldBlock)
  : RM (option (option IpldBlock)) :=
  if method <=? EVM_MAX_RESERVED_METHOD then throw USR_UNHANDLED_MESSAGE
  else
    let params := default (mkBlock 0 []) args in
    let input := handle_filecoin_method_input method (blk_codec params) (blk_data params) in
    let* output := invoke_contract input in
    match output with
    | None => Runtime.ret None
    | Some output =>
        let* r := lift (handle_filecoin_method_output output) in
        Runtime.ret (Some r)
    end.

Definition bytecode : RM (option (list Z)) :=
  let* _ := validate_immediate_caller_accept_any in
  let* state := Runtime.state in
  Runtime.ret (if is_dead ctx ext state then None else Some (st_bytecode state)).

Definition bytecode_hash : RM (list Z) :=
  let* _ := validate_immediate_caller_accept_any in
  let* state := Runtime.state in
  Runtime.ret (if is_dead ctx ext state then to_big_endian EMPTY_HASH else st_bytecode_hash state).

Definition storage_at (storage_key : Z) : RM Z :=
  let* _ := validate_immediate_caller_is ctx [AddrId 0] in
  let* w := get_world in
  with_system (load_system ctx ext w) (with_exit_code USR_ASSERTION_FAILED (get_storage storage_key)).

(** ** Dispatch *)

Inductive Msg : Type :=
| MConstructor (creator : EthAddress) (initcode : list Z)
| MResurrect (creator : EthAddress) (initcode : list Z)
| MGetBytecode
| MGetBytecodeHash
| MGetStorageAt (storage_key : Z)
| MInvokeContractDelegate (code input : list Z) (caller : EthAddress) (value : Z)
| MInvokeContract (input_data : list Z)
| MOther (method : Z) (args : option IpldBlock).

Inductive Ret : Type :=
| RUnit
| RBytes (data : list Z)
| RCode (code : option (list Z))
| RHash (hash : list Z)
| RWord (w : Z)
| RBlock (b : option IpldBlock).

(** [None]: the fuel was not enough. *)
Definition invoke_method (msg : Msg) : RM (option Ret) :=
  match msg with
  | MConstructor c i => let* r := constructor c i in Runtime.ret ((fun _ => RUnit) <$> r)
  | MResurrect c i => let* r := resurrect c i in Runtime.ret ((fun _ => RUnit) <$> r)
  | MGetBytecode => let* r := bytecode in Runtime.ret (Some (RCode r))
  | MGetBytecodeHash => let* r := bytecode_hash in Runtime.ret (Some (RHash r))
  | MGetStorageAt k => let* r := storage_at k in Runtime.ret (Some (RWord r))
  | MInvokeContractDelegate code input caller value =>
      let* r := invoke_contract_delegate code input caller value in Runtime.ret (RBytes <$> r)
  | MInvokeContract input => let* r := invoke_contract input in Runtime.ret (RBytes <$> r)
  | MOther method args => let* r := handle_filecoin_method method args in Runtime.ret (RBlock <$> r)
  end.
End actor.
