(* ===== verification/EvmProofs.v ===== *)
(** * The EVM interpreter keeps its types

    A Hoare-style judgement for code of the system and its rules; every
    operation of the system and every precompile preserves the representation
    invariants: stacks of at most 1024 words, memory of whole words below
    4 GiB, storage of words.  The instructions are in EvmStep.v. *)

From S2P Require Import Prelude Runtime EvmWord EvmMachine EvmSystem EvmReader EvmBls EvmPrecompiles EvmInterp.

(** ** The judgement *)

Section judgement.
Context {S E : Type} (I : S -> Prop) (F : E -> Prop).

(** From a state in [I] the code ends in [I], with a result in [P] or an
    error in [F]. *)
Definition em {A} (P : A -> Prop) (m : St S E A) : Prop :=
  forall s, I s -> I (snd (m s)) /\
    match fst (m s) with Ok a => P a | Err e => F e | Panic => True end.

Lemma em_ret {A} (P : A -> Prop) a : P a -> em P (sret a).
Proof. intros Ha s Hs. done. Qed.

Lemma em_fail {A} (P : A -> Prop) e : F e -> em P (sfail e).
Proof. intros He s Hs. done. Qed.

Lemma em_bind {A B} (Q : A -> Prop) (P : B -> Prop) m (f : A -> St S E B) :
  em Q m -> (forall a, Q a -> em P (f a)) -> em P (sbind m f).
Proof.
  intros Hm Hf s Hs. unfold sbind. destruct (Hm s Hs) as [HI Hr].
  destruct (m s) as [[a|e|] s']; cbn in *; [by apply Hf|done|done].
Qed.

Lemma em_lift {A} (P : A -> Prop) (r : Res E A) :
  (forall a, r = Ok a -> P a) -> (forall e, r = Err e -> F e) -> em P (slift r).
Proof. intros Ha He s Hs. cbn. split; [done|]. destruct r; auto. Qed.

Lemma em_catch {A} (P : A -> Prop) m : em P m ->
  em (fun r => match r with inl a => P a | inr e => F e end) (scatch m).
Proof.
  intros Hm s Hs. unfold scatch. destruct (Hm s Hs) as [HI Hr].
  by destruct (m s) as [[a|e|] s'].
Qed.

Lemma em_mono {A} (P Q : A -> Prop) m : em P m -> (forall a, P a -> Q a) -> em Q m.
Proof.
  intros Hm HPQ s Hs. destruct (Hm s Hs) as [HI Hr]. split; [done|].
  destruct (fst (m s)); auto.
Qed.

Lemma em_run {A} (P : A -> Prop) m s a s' : em P m -> I s -> m s = (Ok a, s') -> P a /\ I s'.
Proof. intros Hm Hs E'. destruct (Hm s Hs) as [HI Hr]. rewrite E' in *. done. Qed.
End judgement.

(** ** Types *)

(** A byte string that fits in memory. *)
Definition buffer (l : list Z) : Prop := bytes l /\ len l < 2 ^ 32.

Lemma buffer_nil : buffer [].
Proof. split; [constructor|done]. Qed.

(** A [Vec] has at most [isize::MAX] elements. *)
Definition block_ok (b : IpldBlock) : Prop :=
  bytes (blk_data b) /\ len (blk_data b) < 2 ^ 31 /\ 0 <= blk_codec b < 2 ^ 64.
Definition opt_ok {A} (P : A -> Prop) (o : option A) : Prop :=
  match o with Some a => P a | None => True end.
Definition error_ok (e : ActorError IpldBlock) : Prop := opt_ok block_ok (err_data e).
Definition response_ok (r : Response IpldBlock + ErrorNumber) : Prop :=
  match r with inl r => opt_ok block_ok (resp_data r) | inr _ => True end.

(** An Ethereum address: 20 bytes. *)
Definition eth_ok (a : EthAddress) : Prop := bytes a /\ length a = 20%nat.

Definition slots_ok (m : gmap Z Z) : Prop := forall k v, m !! k = Some v -> word v.

Definition u64 (x : Z) : Prop := 0 <= x < 2 ^ 64.

(** The types of a contract's state. *)
Definition state_ok (s : State) : Prop :=
  buffer (st_bytecode s) /\ slots_ok (contract_state s) /\
  opt_ok (fun t => slots_ok (transient_data_state t)) (transient_data s) /\ u64 (st_nonce s).

Definition system_ok (s : System) : Prop :=
  opt_ok (fun b => buffer (eb_code b)) (sys_bytecode s) /\ slots_ok (sys_slots s) /\
  slots_ok (sys_transient_slots s) /\ u64 (sys_nonce s) /\ opt_ok buffer (randomness s) /\
  opt_ok (fun r => length r <= 32)%nat (randomness s).

Definition vm_ok {Net} (vm : Vm Net) : Prop :=
  system_ok (vm_sys vm) /\ opt_ok state_ok (w_state (vm_world vm)).

Definition exec_ok (x : ExecutionState) : Prop :=
  stack_ok (stack x) /\ mem_ok (memory x) /\ buffer (input_data x) /\ buffer (ret_data x) /\
  eth_ok (xs_caller x) /\ eth_ok (xs_receiver x).

(** ** What is assumed of the rest of the system

    The types of what the kernel, the primitives and the codecs return. *)
Record ext_typed {Net} (ext : EvmExt Net) : Prop := {
  et_gas n : u64 (ext_gas ext n);
  et_timestamp : u64 (ext_timestamp ext);
  et_chain_id : u64 (ext_chain_id ext);
  et_tipset e h : ext_tipset_cid ext e = Some h -> bytes h;
  et_beacon e b : ext_beacon ext e = inl b -> bytes b /\ length b = 32%nat;
  et_delegated net i a : ext_lookup_delegated_address ext net i = Some a ->
    opt_ok bytes (eam_subaddress a);
  et_keccak l : bytes (ext_keccak256 ext l) /\ length (ext_keccak256 ext l) = 32%nat;
  et_sha256 l : buffer (ext_sha256 ext l);
  et_ripemd160 l : bytes (ext_ripemd160 ext l) /\ length (ext_ripemd160 ext l) = 20%nat;
  et_to_bytes a : buffer (ext_address_to_bytes ext a);
  et_dec_bytes b l : block_ok b -> ext_dec_bytes ext b = Some l -> buffer l;
  et_dec_create b a : ext_dec_create_return ext b = Some a -> eth_ok a;
  et_dec_bytecode b c : ext_dec_bytecode ext b = Some (Some c) -> buffer c;
  et_dec_hash b h : ext_dec_hash ext b = Some h -> bytes h /\ length h = 32%nat;
  et_errno e : 0 < ext_errno ext e < 2 ^ 32;
  et_exit_value c : 0 <= ext_exit_value ext c < 2 ^ 32;
}.

(** Points are written as two coordinates of 32 bytes. *)
Class BnLaws (B : Bn) : Prop := {
  g1_affine_bytes g x y : g1_to_affine g = Some (x, y) ->
    bytes x /\ length x = 32%nat /\ bytes y /\ length y = 32%nat;
}.

Record env_typed {Net} (env : Env Net State SendParams IpldBlock) : Prop := {
  nt_send req net s b : opt_ok state_ok s ->
    response_ok (so_result (env_send env req net s b)) /\
    opt_ok state_ok (so_state (env_send env req net s b));
  nt_hash l : bytes (env_hash_blake2b env l) /\ length (env_hash_blake2b env l) = 32%nat;
  nt_resolve net a i : env_resolve_address env net a = Some i -> u64 i;
}.

(** ** The system *)

Create HintDb em.
#[export] Hint Resolve em_ret em_fail : em.

(** Peels the binds of a judgement. *)
Ltac em_step :=
  match goal with
  | |- em _ _ _ (sbind _ _) => eapply em_bind; [|intros ? ?; cbn beta]
  | |- em _ _ _ (sret _) => apply em_ret
  | |- em _ _ _ (sfail _) => apply em_fail
  | |- em _ _ _ (raise _) => apply em_fail
  | |- em _ _ _ (if ?b then _ else _) => destruct b eqn:?
  | |- em _ _ _ (let '(_, _) := ?p in _) => destruct p eqn:?
  | |- em _ _ _ (match ?o with Some _ => _ | None => _ end) => destruct o eqn:?
  end.

(** Proves the types of a system from those of another. *)
Ltac sys_tac := unfold system_ok in *; cbn in *; tauto.

Section typing.
Context {BN : Bn} {BL : Blst}.
Context {Net : Type} (env : Env Net State SendParams IpldBlock) (ctx : Ctx) (ext : EvmExt Net).
Context (Henv : env_typed env) (Hext : ext_typed ext).

Notation VM := (Vm Net).
Notation EM := (St VM (ActorError IpldBlock)).
Notation typed := (em (vm_ok (Net := Net)) error_ok).

Lemma t_get_sys : typed system_ok get_sys.
Proof. intros vm Hvm. split; [done|]. apply Hvm. Qed.

Lemma t_put_sys s : system_ok s -> typed (fun _ => True) (put_sys s).
Proof. intros Hs vm [_ Hw]. by split. Qed.

Lemma t_mod_sys f : (forall s, system_ok s -> system_ok (f s)) ->
  typed (fun _ => True) (mod_sys f).
Proof. intros Hf vm [Hs Hw]. split; [|done]. split; [by apply Hf|done]. Qed.

Lemma t_get_state_root : typed (opt_ok state_ok) get_state_root.
Proof. intros vm Hvm. split; [done|]. apply Hvm. Qed.

Lemma t_set_state_root s : state_ok s -> typed (fun _ => True) (set_state_root s).
Proof. intros Hs vm [Hsys _]. by split. Qed.

Lemma t_gas : typed u64 (gas_available ext).
Proof. intros vm Hvm. split; [done|]. apply Hext. Qed.

Lemma t_lift {A} (P : A -> Prop) (r : Rs A) :
  (forall a, r = Ok a -> P a) -> (forall e, r = Err e -> error_ok e) -> typed P (slift r).
Proof. apply em_lift. Qed.

Lemma t_send req : typed response_ok (rt (send env req)).
Proof.
  intros vm [Hs Hw]. unfold rt, send. cbn.
  destruct (nt_send env Henv req (w_net (vm_world vm)) (w_state (vm_world vm))
    (w_balance (vm_world vm)) Hw) as [Hr Hst].
  split; [by split|done].
Qed.

Lemma t_resolve a : typed (opt_ok u64) (rt (resolve_address env a)).
Proof.
  intros vm Hvm. unfold rt, resolve_address. cbn. split; [by destruct vm|].
  destruct (env_resolve_address env _ a) eqn:E; [|done]. by eapply nt_resolve.
Qed.

(** A query of the runtime that only reads. *)
Lemma t_read {A} (m : M Net State SendParams IpldBlock A) :
  (forall w, exists a, m w = Ok (a, w)) -> typed (fun _ => True) (rt m).
Proof.
  intros Hm vm Hvm. unfold rt. destruct (Hm (vm_world vm)) as [a ->]. split; [|done].
  by destruct vm.
Qed.

Lemma t_chk_u64 x : typed u64 (slift (chk_u64 x)).
Proof.
  apply t_lift; [|unfold chk_u64; intros e H; by destruct (in_u64 x)].
  intros a Ha. apply chk_u64_ok in Ha as [-> ?]. unfold u64. lia.
Qed.

Lemma t_increment_nonce : typed (fun _ => True) increment_nonce.
Proof.
  unfold increment_nonce. em_step; [apply t_get_sys|]. em_step; [apply t_chk_u64|].
  apply t_put_sys. sys_tac.
Qed.

Lemma t_set_bytecode b : buffer b -> typed (fun r => buffer (eb_code r)) (set_bytecode ext b).
Proof.
  intros Hb. unfold set_bytecode. em_step.
  { apply t_mod_sys. intros s Hs. sys_tac. }
  do 3 (em_step; [by apply em_fail|]). em_step; [|by apply em_ret].
  apply t_mod_sys. intros s Hs. sys_tac.
Qed.

Lemma t_flush : typed (fun _ => True) (flush ext).
Proof.
  unfold flush. em_step; [apply t_get_sys|]. rename a into s, H into Hs.
  destruct (saved_state_root s); [by apply em_ret|]. em_step; [by apply em_fail|].
  apply (em_bind _ _ (fun r => buffer (eb_code r))).
  { destruct (sys_bytecode s) as [b|] eqn:Hb.
    - apply em_ret. destruct Hs as (Hb' & _). by rewrite Hb in Hb'.
    - apply t_set_bytecode, buffer_nil. }
  intros b Hb. em_step; [apply t_get_sys|]. rename a into s', H into Hs'.
  destruct Hs' as (? & ? & ? & ? & ? & ?).
  em_step.
  { apply t_set_state_root. split; [done|]. split; [done|]. split; [|done].
    cbn. by destruct (bool_decide _). }
  apply t_mod_sys. intros s2 Hs2. sys_tac.
Qed.

Lemma live_transient_ok l s : state_ok s -> slots_ok (live_transient l s).
Proof.
  intros (_ & _ & Ht & _). unfold live_transient. destruct (transient_data s) as [t|]; [|done].
  by destruct (bool_decide _).
Qed.

Lemma t_reload : typed (fun _ => True) reload.
Proof.
  unfold reload. em_step; [apply t_get_sys|]. rename a into s, H into Hs.
  em_step; [by apply em_ret|]. em_step; [apply t_get_state_root|]. rename a into root, H into Hroot.
  em_step; [by apply em_ret|]. em_step.
  { apply (t_lift state_ok); [|by destruct root; intros ? [= <-]].
    intros st Hst. apply ok_or_ok in Hst. by rewrite Hst in Hroot. }
  rename a into st, H into Hst. apply t_put_sys. pose proof (live_transient_ok (sys_lifespan s) st Hst).
  unfold state_ok in Hst. sys_tac.
Qed.

Lemma t_send_raw to method params value gas ro :
  typed response_ok (send_raw env ext to method params value gas ro).
Proof.
  unfold send_raw. em_step; [apply t_flush|]. em_step; [apply t_send|].
  eapply em_bind; [|intros ? ?; by apply em_ret].
  destruct a0 as [r|]; [|by apply (em_ret _ _ (fun _ => True))].
  destruct (is_success _); [apply t_reload|by apply (em_ret _ _ (fun _ => True))].
Qed.

Lemma checked_ok c d : opt_ok block_ok d -> error_ok (checked c d).
Proof. done. Qed.

Lemma t_sys_send to method params value gas ro :
  typed (opt_ok block_ok) (sys_send env ext to method params value gas ro).
Proof.
  unfold sys_send. em_step; [apply t_send_raw|]. destruct a as [r|]; [|by apply em_fail].
  em_step; [apply em_fail; by apply checked_ok|by apply em_ret].
Qed.

Lemma t_transfer to value : typed (fun _ => True) (transfer env to value).
Proof.
  unfold transfer. em_step; [apply t_send|]. em_step.
  { apply (t_lift (fun _ => True)); [done|]. intros e. unfold extract_send_result.
    destruct a as [r|n]; [|by intros [= <-]; destruct n].
    destruct (is_success _); [done|]. intros [= <-]. by apply checked_ok. }
  by apply em_ret.
Qed.

Lemma slot_word m k : slots_ok m -> word (default 0 (m !! k)).
Proof. intros Hm. destruct (m !! k) eqn:E; [by eapply Hm|done]. Qed.

Lemma update_slot_ok m k v m' c : slots_ok m -> word v -> update_slot m k v = (m', c) -> slots_ok m'.
Proof.
  unfold update_slot. intros Hm Hv H. destruct (v =? 0); injection H as <- _; intros k' v'.
  - intros [_ ?]%lookup_delete_Some. by eapply Hm.
  - intros [[<- <-]|[_ ?]]%lookup_insert_Some; [done|by eapply Hm].
Qed.

Lemma t_get_storage k : typed word (get_storage k).
Proof. unfold get_storage. em_step; [apply t_get_sys|]. apply em_ret, slot_word. sys_tac. Qed.

Lemma t_get_transient_storage k : typed word (get_transient_storage k).
Proof. unfold get_transient_storage. em_step; [apply t_get_sys|]. apply em_ret, slot_word. sys_tac. Qed.

Lemma t_set_storage k v : word v -> typed (fun _ => True) (set_storage k v).
Proof.
  intros Hv. unfold set_storage. em_step; [apply t_get_sys|].
  destruct (update_slot _ k v) as [m c] eqn:E. apply t_put_sys.
  assert (slots_ok m) by (eapply update_slot_ok; [|exact Hv|exact E]; sys_tac).
  destruct c; sys_tac.
Qed.

Lemma t_set_transient_storage k v : word v -> typed (fun _ => True) (set_transient_storage k v).
Proof.
  intros Hv. unfold set_transient_storage. em_step; [apply t_get_sys|].
  destruct (update_slot _ k v) as [m c] eqn:E. apply t_put_sys.
  assert (slots_ok m) by (eapply update_slot_ok; [|exact Hv|exact E]; sys_tac).
  destruct c; sys_tac.
Qed.

(** ** Addresses *)

Lemma from_id_ok i : eth_ok (Eth.from_id i).
Proof.
  split.
  - constructor; [done|]. apply Forall_app. split; [by apply Forall_replicate|apply be_bytes_bytes].
  - unfold Eth.from_id. cbn [length]. rewrite length_app, length_replicate, be_bytes_length. done.
Qed.

Lemma from_word_ok v : eth_ok (Eth.from_word v).
Proof.
  split; [apply Forall_drop, be_bytes_bytes|].
  unfold Eth.from_word, to_big_endian. rewrite length_drop, be_bytes_length. done.
Qed.

Lemma eth_word a : eth_ok a -> word (Eth.as_evm_word a).
Proof. intros [Hb Hl]. apply from_big_endian_word; [done|]. rewrite Hl. lia. Qed.

Lemma t_resolve_eth a : opt_ok bytes (eam_subaddress a) ->
  typed eth_ok (resolve_ethereum_address env ext a).
Proof.
  intros Ha. unfold resolve_ethereum_address.
  assert (forall sub, bytes sub -> (len sub =? 20) = true -> eth_ok sub) as Hsub.
  { intros sub Hb Hl. bool_prop. split; [done|]. unfold len in Hl. lia. }
  destruct (eam_subaddress a) as [sub|].
  { em_step; [|by apply em_fail]. apply em_ret. by apply Hsub. }
  em_step; [apply t_resolve|]. destruct a0 as [id|]; [|by apply em_fail].
  em_step; [apply t_read; intros w; by exists w|].
  destruct (ext_lookup_delegated_address _ _ _) as [d|] eqn:Hd; [|apply em_ret, from_id_ok].
  apply (et_delegated ext Hext) in Hd. destruct (eam_subaddress d) as [sub|]; [|apply em_ret, from_id_ok].
  em_step; [|by apply em_fail]. apply em_ret. by apply Hsub.
Qed.

Lemma t_get_randomness : typed (fun r => bytes r /\ length r <= 32)%nat (get_randomness env ctx ext).
Proof.
  unfold get_randomness. em_step; [apply t_get_sys|]. rename a into s, H into Hs.
  destruct (randomness s) as [r|] eqn:Er.
  { apply em_ret. destruct Hs as (_ & _ & _ & _ & H1 & H2). rewrite Er in H1, H2. by destruct H1. }
  em_step.
  { apply (t_lift (fun r => bytes r /\ length r = 32%nat)).
    - unfold get_randomness_from_beacon. intros b. destruct (ext_beacon ext _); intros [= <-].
      apply (nt_hash env Henv).
    - unfold get_randomness_from_beacon. intros e. by destruct (ext_beacon ext _); intros [= <-]. }
  destruct H as [Hb Hl]. em_step; [|apply em_ret; split; [done|lia]].
  apply t_put_sys. assert (buffer a) by (split; [done|unfold len; rewrite Hl; done]).
  assert (length a <= 32)%nat by lia. sys_tac.
Qed.

Lemma t_gas_reserve : typed u64 (gas_reserve ext).
Proof.
  unfold gas_reserve. em_step; [apply t_gas|]. em_step; [apply t_chk_u64|]. apply em_ret.
  unfold u64 in *. split; [apply Z.div_pos; lia|]. apply Z.div_lt_upper_bound; lia.
Qed.

Lemma t_call_gas_limit g : typed (fun _ => True) (call_gas_limit ext g).
Proof. unfold call_gas_limit. em_step; [apply t_gas_reserve|]. by apply em_ret. Qed.

Lemma t_mark_selfdestructed : typed (fun _ => True) (mark_selfdestructed ctx ext).
Proof. apply t_mod_sys. intros s Hs. sys_tac. Qed.

(** ** Precompiles *)

Notation ptyped := (em (vm_ok (Net := Net)) (fun _ : PrecompileError => True)).

Lemma p_vm_error {A} (P : A -> Prop) (m : EM A) : typed P m -> ptyped P (vm_error m).
Proof.
  intros Hm vm Hvm. unfold vm_error. destruct (Hm vm Hvm) as [HI Hr].
  by destruct (m vm) as [[a|e|] vm'].
Qed.

Lemma bytes_app l k : bytes (l ++ k) <-> bytes l /\ bytes k.
Proof. apply Forall_app. Qed.

Lemma call_actor_output_ok r : response_ok r -> buffer (call_actor_output ext r).
Proof.
  intros Hr. unfold call_actor_output.
  destruct (match r with inl _ => _ | inr _ => _ end) as [c d] eqn:Ecd.
  assert (opt_ok block_ok d) as Hd by (destruct r; injection Ecd as <- <-; done).
  destruct (encode_call_output_shape c (default (mkBlock 0 []) d)) as (k & Hk & ->).
  assert (bytes (blk_data (default (mkBlock 0 []) d)) /\
    len (blk_data (default (mkBlock 0 []) d)) < 2 ^ 31) as [Hb Hl].
  { destruct d as [b|]; cbn; [|split; [constructor|done]]. by destruct Hd as (? & ? & _). }
  split.
  - rewrite !bytes_app. repeat split; try apply be_bytes_bytes; [done|by apply Forall_replicate].
  - rewrite !len_app, !to_big_endian_len. unfold len at 2. rewrite length_replicate. lia.
Qed.

Lemma p_call_actor by_id input c : ptyped buffer (call_actor_shared env ext by_id input c).
Proof.
  unfold call_actor_shared. em_step; [by apply em_fail|].
  em_step; [by apply (em_lift _ _ (fun _ => True))|].
  em_step; [by apply em_fail|]. eapply (em_bind _ _ (fun _ => True)).
  { repeat (em_step; [by apply em_ret|]). by apply em_fail. }
  intros ? _. em_step; [apply p_vm_error, t_call_gas_limit|].
  em_step; [apply p_vm_error, t_send_raw|]. apply em_ret. by apply call_actor_output_ok.
Qed.

(** ** The precompiles that only compute *)

Context {HBL : BlstLaws BL} {HBN : BnLaws BN}.

(** A precompile that returns a byte string on a byte string. *)
Definition pure_typed (f : list Z -> Rp (list Z)) : Prop :=
  forall input out, buffer input -> f input = Ok out -> buffer out.

Lemma small_buffer l : bytes l -> (length l <= 1000)%nat -> buffer l.
Proof. intros Hb Hl. split; [done|]. unfold len. lia. Qed.

Lemma be_bytes_buffer n x : (n <= 1000)%nat -> buffer (be_bytes n x).
Proof. intros Hn. apply small_buffer; [apply be_bytes_bytes|]. by rewrite be_bytes_length. Qed.

Lemma pt_ec_recover : pure_typed (ec_recover ext).
Proof.
  intros input out Hi H. unfold ec_recover in H.
  destruct (ec_recover_internal ext input) as [a|e|] eqn:E; try discriminate H; injection H as <-;
    [|apply buffer_nil].
  unfold ec_recover_internal in E. apply rbind_ok in E as ([[[hash rb] r] sg] & _ & E).
  destruct (rb <? 27); [discriminate E|]. destruct (_ || _); [discriminate E|].
  destruct (ext_recover_secp _ _ _) as [k|]; [|discriminate E]. injection E as <-.
  destruct (et_keccak ext Hext (drop 1 k)) as [Hb Hl].
  change (buffer (replicate 12 0 ++ drop 12 (ext_keccak256 ext (drop 1 k)))). apply small_buffer.
  - apply bytes_app. split; [by apply Forall_replicate|by apply Forall_drop].
  - rewrite length_app, length_replicate, length_drop, Hl. lia.
Qed.

Lemma Ok_inj {E A} (a b : A) : @Ok E A a = Ok b -> a = b.
Proof. by intros [=]. Qed.

Lemma pt_sha256 : pure_typed (sha256 ext).
Proof. intros input out Hi [= <-]. apply Hext. Qed.

Lemma pt_ripemd160 : pure_typed (ripemd160 ext).
Proof.
  intros input out Hi [= <-]. destruct (et_ripemd160 ext Hext input) as [Hb Hl].
  change (buffer (replicate 12 0 ++ ext_ripemd160 ext input)). apply small_buffer.
  - apply bytes_app. split; [by apply Forall_replicate|done].
  - rewrite length_app, length_replicate, Hl. lia.
Qed.

Lemma pt_identity : pure_typed identity.
Proof. by intros input out Hi [= <-]. Qed.

Lemma pt_curve g : buffer (curve_to_vec g).
Proof.
  unfold curve_to_vec. destruct (g1_to_affine g) as [[x y]|] eqn:E.
  - apply g1_affine_bytes in E as (Hx & Lx & Hy & Ly). apply small_buffer; [by apply bytes_app|].
    rewrite length_app, Lx, Ly. lia.
  - apply small_buffer; [by apply Forall_replicate|]. rewrite length_replicate. lia.
Qed.

Lemma pt_ec_add : pure_typed ec_add.
Proof.
  intros input out Hi H. unfold ec_add, on_input in H.
  destruct (sbind _ _ _) as [[o|e|] r] eqn:E; try discriminate H. injection H as ->.
  apply sbind_ok in E as (p1 & r1 & _ & E). apply sbind_ok in E as (p2 & r2 & _ & E).
  injection E as <- _. apply pt_curve.
Qed.

Lemma pt_ec_mul : pure_typed ec_mul.
Proof.
  intros input out Hi H. unfold ec_mul, on_input in H.
  destruct (sbind _ _ _) as [[o|e|] r] eqn:E; try discriminate H. injection H as ->.
  apply sbind_ok in E as (p1 & r1 & _ & E). apply sbind_ok in E as (p2 & r2 & _ & E).
  injection E as <- _. apply pt_curve.
Qed.

Lemma pt_ec_pairing : pure_typed ec_pairing.
Proof.
  intros input out Hi H. unfold ec_pairing in H. destruct (negb _); [discriminate H|].
  apply rbind_ok in H as (g & _ & H). injection H as <-. apply be_bytes_buffer. lia.
Qed.

Lemma read_uint_bound n r v r' : (n <= 32)%nat -> bytes (rd_slice r) ->
  read_uint n r = (Some v, r') -> 0 <= v < 256 ^ Z.of_nat n /\ bytes (rd_slice r').
Proof.
  unfold read_uint, drop_zeros, read_fixed. intros Hn Hb H. destruct (forallb _ _); [|discriminate H].
  cbn [rd_slice rd_full] in H. injection H as <- <-. cbn [rd_slice].
  split; [|by apply Forall_drop, Forall_drop].
  set (l := resize_zero _ _). assert (length l = n) as Hl.
  { unfold l, resize_zero, len. rewrite length_app, length_replicate, length_take. lia. }
  rewrite <- Hl. apply from_big_endian_range. apply resize_zero_bytes. by apply Forall_take, Forall_drop.
Qed.

Lemma pt_modexp : pure_typed modexp.
Proof.
  intros input out [Hi _] H. unfold modexp, on_input in H.
  destruct (sbind _ _ _) as [[o|e|] r] eqn:E; try discriminate H. injection H as ->.
  apply sbind_ok in E as (bl & r1 & H1 & E). apply sbind_ok in E as (el & r2 & H2 & E).
  apply sbind_ok in E as (ml & r3 & H3 & E).
  assert (0 <= ml < 2 ^ 32) as Hml.
  { unfold read_or in H1, H2, H3. destruct (read_uint 4 _) as [o1 q1] eqn:E1.
    destruct o1; [|discriminate H1]. injection H1 as <- <-.
    apply read_uint_bound in E1 as [_ Hb1]; [|lia|done].
    destruct (read_uint 4 q1) as [o2 q2] eqn:E2. destruct o2; [|discriminate H2]. injection H2 as <- <-.
    apply read_uint_bound in E2 as [_ Hb2]; [|lia|done].
    destruct (read_uint 4 q2) as [o3 q3] eqn:E3. destruct o3; [|discriminate H3]. injection H3 as <- <-.
    apply read_uint_bound in E3 as [Hv _]; [exact Hv|lia|done]. }
  destruct (_ && _); [injection E as <- _; apply buffer_nil|].
  apply sbind_ok in E as (b & r4 & _ & E). apply sbind_ok in E as (x & r5 & _ & E).
  apply sbind_ok in E as (md & r6 & _ & E).
  destruct (_ || _); injection E as <- _.
  { split; [by apply Forall_replicate|]. rewrite len_replicate by lia. lia. }
  set (o := zeroless_view _). assert (bytes o) as Ho by apply zeroless_bytes, be_bytes_bytes.
  assert (len o <= ml) as Hlo.
  { pose proof (zeroless_length (be_bytes (Z.to_nat ml) (b ^ x mod md))) as Hz.
    rewrite be_bytes_length in Hz. unfold len, o. lia. }
  destruct (len o <? ml) eqn:El; bool_prop.
  - split; [apply bytes_app; split; [by apply Forall_replicate|done]|].
    rewrite len_app, len_replicate by lia. lia.
  - split; [done|lia].
Qed.

Lemma pt_blake2f : pure_typed blake2f.
Proof.
  intros input out Hi H. unfold blake2f in H. destruct (negb _); [discriminate H|].
  apply rbind_ok in H as (f & _ & H). apply Ok_inj in H as <-.
  set (h := Blake2f.compress _ _ _ _ (Z.to_nat _)).
  assert (length h = 8%nat) as Hh by (unfold h, Blake2f.compress; by rewrite length_imap).
  clearbody h. unfold write_u64s. apply small_buffer.
  - apply Forall_bind. apply Forall_true. intros x. apply Forall_rev, be_bytes_bytes.
  - do 8 (destruct h as [|? h]; [discriminate Hh|]). destruct h; [|discriminate Hh].
    cbn [mbind list_bind]. rewrite !length_app, !length_rev, !be_bytes_length. cbn. lia.
Qed.

Lemma encode_g1_buffer p : buffer (encode_g1_point p).
Proof.
  apply small_buffer; [|rewrite encode_g1_length; lia]. unfold encode_g1_point, fp_to_bytes.
  rewrite !bytes_app. repeat split; try (by apply Forall_replicate); apply fp_bendian_bytes.
Qed.

Lemma encode_g2_buffer p : buffer (encode_g2_point p).
Proof.
  apply small_buffer; [|rewrite encode_g2_length; lia].
  destruct p as [[? ?] [? ?]]. unfold encode_g2_point, fp_to_bytes.
  rewrite !bytes_app. repeat split; try (by apply Forall_replicate); apply fp_bendian_bytes.
Qed.

Lemma zeros_buffer n : (n <= 1000)%nat -> buffer (replicate n 0).
Proof. intros. apply small_buffer; [by apply Forall_replicate|by rewrite length_replicate]. Qed.

Lemma pt_g1add : pure_typed bls12_g1add.
Proof.
  intros input out _ H. unfold bls12_g1add in H. destruct (negb _); [discriminate H|].
  apply rbind_ok in H as (a & _ & H). apply rbind_ok in H as (b & _ & H).
  repeat destruct (blst_p1_affine_is_inf _); apply Ok_inj in H as <-; apply encode_g1_buffer.
Qed.

Lemma pt_g2add : pure_typed bls12_g2add.
Proof.
  intros input out _ H. unfold bls12_g2add in H. destruct (negb _); [discriminate H|].
  apply rbind_ok in H as (a & _ & H). apply rbind_ok in H as (b & _ & H).
  repeat destruct (blst_p2_affine_is_inf _); apply Ok_inj in H as <-; apply encode_g2_buffer.
Qed.

Lemma pt_g1msm : pure_typed bls12_g1msm.
Proof.
  intros input out _ H. unfold bls12_g1msm in H. destruct (_ || _); [discriminate H|].
  apply rbind_ok in H as ([ps ss] & _ & H). destruct ps as [|p ps].
  - apply Ok_inj in H as <-. apply zeros_buffer. unfold G1_OUTPUT_LENGTH. lia.
  - apply rbind_ok in H as (r & _ & H). apply Ok_inj in H as <-. apply encode_g1_buffer.
Qed.

Lemma pt_g2msm : pure_typed bls12_g2msm.
Proof.
  intros input out _ H. unfold bls12_g2msm in H. destruct (_ || _); [discriminate H|].
  apply rbind_ok in H as ([ps ss] & _ & H). destruct ps as [|p ps].
  - apply Ok_inj in H as <-. apply zeros_buffer. unfold G2_OUTPUT_LENGTH. lia.
  - apply rbind_ok in H as (r & _ & H). apply Ok_inj in H as <-. apply encode_g2_buffer.
Qed.

Lemma pt_pairing : pure_typed bls12_pairing.
Proof.
  intros input out _ H. unfold bls12_pairing in H. destruct (_ || _); [discriminate H|].
  apply rbind_ok in H as (ps & _ & H). apply Ok_inj in H as <-. apply small_buffer; [|cbn; lia].
  apply bytes_app. split; [by apply Forall_replicate|]. by destruct (pairing_check ps); repeat constructor.
Qed.

Lemma pt_map_g1 : pure_typed bls12_map_fp_to_g1.
Proof.
  intros input out _ H. unfold bls12_map_fp_to_g1 in H. destruct (negb _); [discriminate H|].
  apply rbind_ok in H as (a & _ & H). apply rbind_ok in H as (b & _ & H).
  apply Ok_inj in H as <-. apply encode_g1_buffer.
Qed.

Lemma pt_map_g2 : pure_typed bls12_map_fp2_to_g2.
Proof.
  intros input out _ H. unfold bls12_map_fp2_to_g2 in H. destruct (negb _); [discriminate H|].
  do 3 (apply rbind_ok in H as (? & _ & H)). apply Ok_inj in H as <-. apply encode_g2_buffer.
Qed.

(** ** Calling precompiles *)

(** A precompile, on byte strings. *)
Definition fn_typed (f : list Z -> PrecompileContext -> St VM PrecompileError (list Z)) : Prop :=
  forall input c, buffer input -> ptyped buffer (f input c).

Lemma pure_fn f : pure_typed f -> fn_typed (pure f).
Proof. intros Hf input c Hi. apply em_lift; [|done]. intros out Ho. by eapply Hf. Qed.

Lemma fn_resolve : fn_typed (p_resolve_address env ext).
Proof.
  intros input c Hi. unfold p_resolve_address.
  destruct (ext_address_from_bytes _ _); [|by apply em_fail].
  em_step; [apply p_vm_error, t_resolve|]. apply em_ret.
  destruct a0; [apply be_bytes_buffer; lia|apply buffer_nil].
Qed.

Lemma fn_lookup : fn_typed (p_lookup_delegated_address ext).
Proof.
  intros input c Hi. unfold p_lookup_delegated_address.
  em_step; [by apply (em_lift _ _ (fun _ => True))|].
  em_step; [apply p_vm_error, t_read; intros w; by exists w|]. apply em_ret.
  destruct (ext_lookup_delegated_address _ _ _); [apply Hext|apply buffer_nil].
Qed.

Lemma fn_randomness : fn_typed (p_get_randomness ext).
Proof.
  intros input c Hi. unfold p_get_randomness.
  em_step; [by apply (em_lift _ _ (fun _ => True))|].
  destruct (ext_beacon ext a) as [r|] eqn:E; [|by apply em_fail].
  apply (et_beacon ext Hext) in E as [Hb Hl]. apply em_ret, small_buffer; [done|lia].
Qed.

Lemma tables_typed :
  Forall (opt_ok fn_typed) (NATIVE_PRECOMPILES env ext) /\
  Forall (opt_ok fn_typed) (EVM_PRECOMPILES ext).
Proof.
  split; unfold NATIVE_PRECOMPILES, EVM_PRECOMPILES; rewrite ?Forall_cons; cbn [opt_ok];
    repeat apply conj; try exact (Forall_nil_2 _); try exact Logic.I;
    first [apply fn_resolve | apply fn_lookup | apply fn_randomness
          | (intros ? ? ?; apply p_call_actor) | apply pure_fn];
    first [apply pt_ec_recover | apply pt_sha256 | apply pt_ripemd160 | apply pt_identity
          | apply pt_modexp | apply pt_ec_add | apply pt_ec_mul | apply pt_ec_pairing
          | apply pt_blake2f | apply pt_g1add | apply pt_g1msm | apply pt_g2add | apply pt_g2msm
          | apply pt_pairing | apply pt_map_g1 | apply pt_map_g2].
Qed.

Lemma lookup_typed (l : list (option (list Z -> PrecompileContext -> St VM PrecompileError (list Z)))) i f :
  Forall (opt_ok fn_typed) l -> mjoin (l !! i) = Some f -> fn_typed f.
Proof.
  intros Hl H. destruct (l !! i) as [[g|]|] eqn:E; try discriminate H. injection H as ->.
  eapply Forall_lookup_1 in Hl; [|exact E]. done.
Qed.

Lemma p_call_precompile addr input c : buffer input ->
  ptyped buffer (call_precompile env ext addr input c).
Proof.
  intros Hi. unfold call_precompile. em_step.
  { destruct (lookup_precompile env ext addr) as [f|] eqn:E; [|apply em_ret, buffer_nil].
    unfold lookup_precompile in E. destruct tables_typed as [Hn He].
    destruct (is_reserved_precompile_address addr); [|discriminate E].
    destruct addr as [|prefix rest]; [discriminate E|].
    destruct (prefix =? _); [by apply (lookup_typed _ _ _ Hn E)|].
    destruct (prefix =? _); [by apply (lookup_typed _ _ _ He E)|discriminate E]. }
  em_step; [|by apply em_ret].
  em_step; [apply em_catch, p_vm_error, t_transfer|].
  destruct a0; [by apply em_ret|by apply em_fail].
Qed.
End typing.
