(* ===== verification/EvmStep.v ===== *)
(** * Every step of the EVM machine keeps its invariant

    The instructions preserve the types of the execution state and leave the
    program counter at the start of an instruction or at the end of the code. *)

From S2P Require Import Prelude Runtime EvmWord EvmMachine EvmSystem EvmReader EvmBls EvmPrecompiles EvmInterp EvmProofs.

(** ** Opcodes and the lengths of instructions *)

Definition op_len (op : Op) : nat := match op with PUSH n => 1 + n | _ => 1 end.

Definition check_byte (b : Z) : bool :=
  match opcode b with
  | Some op => (ins_len b =? op_len op)%nat && match op with PUSH n => (n <=? 32)%nat | _ => true end
  | None => true
  end.

Lemma check_bytes : forallb check_byte (seqZ 0 256) = true.
Proof. vm_compute. reflexivity. Qed.

Lemma opcode_len b op : is_byte b -> opcode b = Some op ->
  ins_len b = op_len op /\ match op with PUSH n => (n <= 32)%nat | _ => True end.
Proof.
  intros Hb Hop. pose proof check_bytes as Hc. rewrite forallb_forall in Hc.
  specialize (Hc b). rewrite <- list_elem_of_In, elem_of_seqZ in Hc.
  specialize (Hc Hb). unfold check_byte in Hc. rewrite Hop in Hc.
  apply andb_true_iff in Hc as [H1 H2]. apply Nat.eqb_eq in H1. split; [done|].
  destruct op; try done. by apply Nat.leb_le.
Qed.

(** ** Memory instructions *)

Lemma exec_set_stack x s : exec_ok x -> stack_ok s -> exec_ok (set_stack s x).
Proof. unfold exec_ok. cbn. tauto. Qed.

Lemma exec_set_memory x m : exec_ok x -> mem_ok m -> exec_ok (set_memory m x).
Proof. unfold exec_ok. cbn. tauto. Qed.

Lemma exec_set_ret x d : exec_ok x -> buffer d -> exec_ok (set_ret_data d x).
Proof. unfold exec_ok. cbn. tauto. Qed.

Lemma exec_input x : exec_ok x -> buffer (input_data x).
Proof. unfold exec_ok. tauto. Qed.

Lemma exec_ret x : exec_ok x -> buffer (ret_data x).
Proof. unfold exec_ok. tauto. Qed.

Lemma exec_mem x : exec_ok x -> mem_ok (memory x).
Proof. unfold exec_ok. tauto. Qed.

(** Growing memory only fails with an error that carries no data. *)
Lemma region_errs mem off size e : get_memory_region mem off size = Err e ->
  e = err EVM_CONTRACT_ILLEGAL_MEMORY_ACCESS.
Proof.
  unfold get_memory_region. destruct (U256.try_into_u32 size); [|by intros [= <-]].
  destruct (_ =? 0); [done|]. destruct (U256.try_into_u32 off); [|by intros [= <-]].
  destruct (_ <? _); [|by intros [= <-]]. unfold grow. destruct (_ <=? _); [done|].
  destruct (_ >? _); cbn [rbind]; [|done]. unfold chk_usize. by destruct (_ && _).
Qed.

Lemma slice_errs l a b e : slice l a b = Err e -> False.
Proof. unfold slice. by destruct (_ && _). Qed.

Lemma write_errs l a d e : write_slice l a d = Err e -> False.
Proof. unfold write_slice. by destruct (_ && _). Qed.

Lemma region_word mem off size r mem' : mem_ok mem -> word off -> word size ->
  get_memory_region mem off size = Ok (r, mem') -> mem_ok mem'.
Proof.
  intros Hm [Ho _] [Hs _] H. by destruct (region_ok mem off size r mem' Hm Ho Hs H) as [? _].
Qed.

Lemma region_bytes_ok mem off size r mem' d : mem_ok mem -> word off -> word size ->
  get_memory_region mem off size = Ok (r, mem') -> region_bytes mem' r = Ok d -> buffer d.
Proof.
  intros Hm [Ho _] [Hs _] H Hd.
  destruct (region_ok mem off size r mem' Hm Ho Hs H) as (Hm' & _ & Hr).
  destruct (size =? 0).
  { destruct Hr as [-> _]. injection Hd as <-. apply buffer_nil. }
  destruct Hr as (-> & Hle & _). cbn [region_bytes r_offset r_size] in Hd. split.
  - eapply slice_bytes; [apply Hm'|exact Hd].
  - rewrite (slice_len _ _ _ _ Hd). destruct Hm' as (_ & _ & Hl). lia.
Qed.

Lemma region_bytes_errs mem r e : region_bytes mem r = Err e -> False.
Proof. destruct r; cbn; [apply slice_errs|done]. Qed.

Lemma copy_errs mem d s o data zf e : copy_to_memory mem d s o data zf = Err e ->
  e = err EVM_CONTRACT_ILLEGAL_MEMORY_ACCESS.
Proof.
  unfold copy_to_memory. intros H. apply rbind_err in H as [H|([r m] & _ & H)];
    [by eapply region_errs|].
  destruct r as [r|]; [|discriminate H]. apply rbind_err in H as [H|(m2 & _ & H)].
  - destruct (_ >? 0); [|discriminate H]. apply rbind_err in H as [H|(c & _ & H)].
    + by apply slice_errs in H.
    + by apply write_errs in H.
  - destruct (_ && _); [by apply write_errs in H|discriminate H].
Qed.

(** The result of an instruction on memory: it keeps the rest of the state. *)
Definition mem_only (x x' : ExecutionState) : Prop := exec_ok x' /\ stack x' = stack x.

Lemma mload_ok x i v x' : exec_ok x -> word i -> mload x i = Ok (v, x') -> word v /\ mem_only x x'.
Proof.
  intros Hx Hi H. unfold mload in H. apply rbind_ok in H as ([r m] & Hr & H).
  apply rbind_ok in H as (r' & Hr' & H). apply expect_ok in Hr' as ->.
  apply rbind_ok in H as (b & Hb & H). apply Ok_inj in H. injection H as <- <-.
  assert (word EVM_WORD_SIZE) as Hw by done.
  pose proof (region_word _ _ _ _ _ (exec_mem x Hx) Hi Hw Hr) as Hm.
  destruct (region_ok _ _ _ _ _ (exec_mem x Hx) (proj1 Hi) (proj1 Hw) Hr) as (_ & _ & Hc).
  change (EVM_WORD_SIZE =? 0) with false in Hc. destruct Hc as (Hreg & _). injection Hreg as ->.
  cbn [r_offset r_size] in Hb. split.
  - apply from_big_endian_word; [eapply slice_bytes; [apply Hm|exact Hb]|].
    pose proof (slice_len _ _ _ _ Hb) as Hl. unfold len, EVM_WORD_SIZE in Hl. lia.
  - split; [by apply exec_set_memory|done].
Qed.

Lemma mload_errs x i e : mload x i = Err e -> e = err EVM_CONTRACT_ILLEGAL_MEMORY_ACCESS.
Proof.
  unfold mload. intros H. apply rbind_err in H as [H|([r m] & _ & H)]; [by eapply region_errs|].
  apply rbind_err in H as [H|(r' & _ & H)]; [by destruct r|].
  apply rbind_err in H as [H|(b & _ & H)]; [by apply slice_errs in H|discriminate H].
Qed.

Lemma mstore_ok x i v x' : exec_ok x -> word i -> mstore x i v = Ok x' -> mem_only x x'.
Proof.
  intros Hx Hi H. unfold mstore in H. apply rbind_ok in H as ([r m] & Hr & H).
  apply rbind_ok in H as (r' & Hr' & H). apply rbind_ok in H as (m' & Hm' & H). injection H as <-.
  assert (word EVM_WORD_SIZE) as Hw by done.
  pose proof (region_word _ _ _ _ _ (exec_mem x Hx) Hi Hw Hr) as Hm.
  split; [|done]. apply exec_set_memory; [done|]. eapply write_slice_mem_ok; [exact Hm| |exact Hm'].
  apply be_bytes_bytes.
Qed.

Lemma mstore_errs x i v e : mstore x i v = Err e -> e = err EVM_CONTRACT_ILLEGAL_MEMORY_ACCESS.
Proof.
  unfold mstore. intros H. apply rbind_err in H as [H|([r m] & _ & H)]; [by eapply region_errs|].
  apply rbind_err in H as [H|(r' & _ & H)]; [by destruct r|].
  apply rbind_err in H as [H|(b & _ & H)]; [by apply write_errs in H|discriminate H].
Qed.

Lemma mstore8_ok x i v x' : exec_ok x -> word i -> word v -> mstore8 x i v = Ok x' -> mem_only x x'.
Proof.
  intros Hx Hi Hv H. unfold mstore8 in H. apply rbind_ok in H as ([r m] & Hr & H).
  apply rbind_ok in H as (r' & Hr' & H). apply rbind_ok in H as (m' & Hm' & H). injection H as <-.
  assert (word 1) as Hw by done.
  pose proof (region_word _ _ _ _ _ (exec_mem x Hx) Hi Hw Hr) as Hm.
  split; [|done]. apply exec_set_memory; [done|]. eapply write_slice_mem_ok; [exact Hm| |exact Hm'].
  constructor; [|constructor]. unfold is_byte. change 255 with (Z.ones 8).
  rewrite Z.land_ones by lia. apply Z.mod_pos_bound. lia.
Qed.

Lemma mstore8_errs x i v e : mstore8 x i v = Err e -> e = err EVM_CONTRACT_ILLEGAL_MEMORY_ACCESS.
Proof.
  unfold mstore8. intros H. apply rbind_err in H as [H|([r m] & _ & H)]; [by eapply region_errs|].
  apply rbind_err in H as [H|(r' & _ & H)]; [by destruct r|].
  apply rbind_err in H as [H|(b & _ & H)]; [by apply write_errs in H|discriminate H].
Qed.

Lemma mcopy_ok x d s n x' : exec_ok x -> word d -> word s -> word n ->
  mcopy x d s n = Ok x' -> mem_only x x'.
Proof.
  intros Hx Hd Hs Hn H. unfold mcopy in H. destruct (n >? 0) eqn:E; bool_prop.
  - apply rbind_ok in H as (m & Hm & H). injection H as <-. split; [|done].
    apply exec_set_memory; [done|].
    by apply (copy_within_ok (memory x) d s n m (exec_mem x Hx) Hd Hs Hn E).
  - injection H as <-. done.
Qed.

Lemma mcopy_errs x d s n e : mcopy x d s n = Err e -> e = err EVM_CONTRACT_ILLEGAL_MEMORY_ACCESS.
Proof.
  unfold mcopy, copy_within_memory. destruct (_ >? _); [|done]. intros H.
  apply rbind_err in H as [H|(m & _ & H)]; [|discriminate H].
  apply rbind_err in H as [H|([r m] & _ & H)]; [by eapply region_errs|].
  apply rbind_err in H as [H|(r' & _ & H)]; [by destruct r|].
  apply rbind_err in H as [H|([r2 m2] & _ & H)]; [by eapply region_errs|].
  apply rbind_err in H as [H|(r2' & _ & H)]; [by destruct r2|].
  apply rbind_err in H as [H|(b & _ & H)]; [by apply slice_errs in H|by apply write_errs in H].
Qed.

Lemma calldataload_ok x i v : exec_ok x -> calldataload x i = Ok v -> word v.
Proof.
  intros Hx H. unfold calldataload in H. destruct (U256.try_into_u32 i); [|by injection H as <-].
  destruct (_ <? _); [|by injection H as <-]. apply rbind_ok in H as (d & Hd & H).
  apply Ok_inj in H as <-. apply from_big_endian_word.
  - apply resize_zero_bytes. eapply slice_bytes; [|exact Hd]. by destruct Hx as (_ & _ & [? _] & _).
  - pose proof (slice_len _ _ _ _ Hd) as Hl. unfold EVM_WORD_SIZE in *.
    pose proof (resize_zero_len d 32 ltac:(lia)) as Hr. unfold len in Hr. lia.
Qed.

Lemma calldataload_errs x i e : calldataload x i = Err e -> False.
Proof.
  unfold calldataload. destruct (U256.try_into_u32 i); [|done]. destruct (_ <? _); [|done].
  intros H. apply rbind_err in H as [H|(d & _ & H)]; [by apply slice_errs in H|discriminate H].
Qed.

Lemma copy_mem_ok x d s o data zf m : exec_ok x -> buffer data -> word d -> word s -> word o ->
  copy_to_memory (memory x) d s o data zf = Ok m -> mem_only x (set_memory m x).
Proof.
  intros Hx [Hb Hl] Hd Hs Ho H. split; [|done]. apply exec_set_memory; [done|].
  by apply (copy_to_memory_ok (memory x) d s o data zf m (exec_mem x Hx) Hb Hl Hd Hs Ho).
Qed.

Lemma returndatacopy_ok x a b c x' : exec_ok x -> word a -> word c ->
  returndatacopy x a b c = Ok x' -> mem_only x x'.
Proof.
  intros Hx Ha Hc H. unfold returndatacopy in H. apply rbind_ok in H as ([r m] & Hr & H).
  pose proof (region_word _ _ _ _ _ (exec_mem x Hx) Ha Hc Hr) as Hm.
  destruct (U256.try_into_u32 b) as [src|]; [|discriminate H].
  do 3 (destruct (_ : bool); [discriminate H|]). destruct r as [r|].
  - apply rbind_ok in H as (d & Hd & H). apply rbind_ok in H as (m' & Hm' & H). injection H as <-.
    split; [|done]. apply exec_set_memory; [done|]. eapply write_slice_mem_ok; [exact Hm| |exact Hm'].
    eapply slice_bytes; [|exact Hd]. by destruct Hx as (_ & _ & _ & [? _] & _).
  - injection H as <-. split; [by apply exec_set_memory|done].
Qed.

Lemma returndatacopy_errs x a b c e : returndatacopy x a b c = Err e ->
  e = err EVM_CONTRACT_ILLEGAL_MEMORY_ACCESS.
Proof.
  unfold returndatacopy. intros H.
  apply rbind_err in H as [H|([r m] & _ & H)]; [by eapply region_errs|].
  destruct (U256.try_into_u32 b) as [src|]; [|by injection H as <-].
  do 3 (destruct (_ : bool); [by injection H as <-|]). destruct r as [r|]; [|discriminate H].
  apply rbind_err in H as [H|(d & _ & H)]; [by apply slice_errs in H|].
  apply rbind_err in H as [H|(d' & _ & H)]; [by apply write_errs in H|discriminate H].
Qed.

(** ** Instructions that use the system *)

Section step.
Context {BN : Bn} {BL : Blst} {HBL : BlstLaws BL} {HBN : BnLaws BN}.
Context {Net : Type} (env : Env Net State SendParams IpldBlock) (ctx : Ctx) (ext : EvmExt Net).
Context (Henv : env_typed env) (Hext : ext_typed ext).
(** An epoch is an [i64]. *)
Context (Hctx : ctx_epoch ctx <= I64_MAX).

Notation typed := (em (vm_ok (Net := Net)) error_ok).

Lemma t_lift_mem {A} (P : A -> Prop) (r : Rs A) : (forall a, r = Ok a -> P a) ->
  (forall e, r = Err e -> e = err EVM_CONTRACT_ILLEGAL_MEMORY_ACCESS) -> typed P (slift r).
Proof. intros HP HE. apply em_lift; [done|]. intros e He. by rewrite (HE e He). Qed.

Lemma t_lift_ok {A} (P : A -> Prop) (r : Rs A) : (forall a, r = Ok a -> P a) ->
  (forall e, r = Err e -> False) -> typed P (slift r).
Proof. intros HP HE. apply em_lift; [done|]. intros e He. by destruct (HE e He). Qed.

Lemma t_panic {A} (P : A -> Prop) : typed P (slift Panic).
Proof. by apply em_lift. Qed.

Lemma t_amount x : typed word (slift (from_token_amount x)).
Proof.
  unfold from_token_amount. destruct (_ <? _) eqn:E; [|apply t_panic]. bool_prop.
  apply em_ret. unfold word. lia.
Qed.

Lemma t_region mem off size : mem_ok mem -> word off -> word size ->
  typed (fun '(r, m) => mem_ok m /\ forall d, region_bytes m r = Ok d -> buffer d)
    (slift (get_memory_region mem off size)).
Proof.
  intros Hm Ho Hs. apply t_lift_mem; [|apply region_errs]. intros [r m] H. split.
  - exact (region_word _ _ _ _ _ Hm Ho Hs H).
  - intros d Hd. exact (region_bytes_ok _ _ _ _ _ _ Hm Ho Hs H Hd).
Qed.

Lemma t_region_bytes mem r : (forall d, region_bytes mem r = Ok d -> buffer d) ->
  typed buffer (slift (region_bytes mem r)).
Proof. intros H. apply t_lift_ok; [done|]. apply region_bytes_errs. Qed.

Lemma t_balance a : typed word (balance env ext a).
Proof.
  unfold balance. em_step; [by apply t_resolve|].
  em_step; [apply t_read; intros w; by exists w|].
  destruct (_ ≫= _); [apply t_amount|by apply em_ret].
Qed.

Lemma t_current_balance : typed (fun _ => True) (rt (Net := Net) current_balance).
Proof. apply t_read. intros w. by eexists. Qed.

Lemma t_selfbalance : typed word selfbalance.
Proof. unfold selfbalance. em_step; [apply t_current_balance|]. apply t_amount. Qed.

Lemma t_blockhash b : typed word (blockhash ctx ext b).
Proof.
  apply em_ret. destruct (_ <=? _); [|done]. destruct (_ && _); [|done].
  destruct (ext_tipset_cid ext b) as [h|] eqn:E; [|done].
  apply from_big_endian_word; [by apply Forall_take; eapply et_tipset|]. rewrite length_take. lia.
Qed.

Lemma t_origin : typed word (origin env ctx ext).
Proof.
  unfold origin. em_step; [by apply em_catch, t_resolve_eth|].
  destruct a; [by apply em_ret, eth_word|apply t_panic].
Qed.

Lemma u64_word x : u64 x -> word x.
Proof. unfold u64, word. intros H. pow2. lia. Qed.

Lemma t_gas_ins : typed word (gas ext).
Proof. eapply em_mono; [by apply t_gas|]. apply u64_word. Qed.

Lemma t_block_number : typed word (block_number ctx).
Proof.
  unfold block_number. em_step; [apply t_panic|]. apply em_ret. bool_prop.
  apply u64_word. unfold u64, I64_MAX in *. lia.
Qed.

Lemma t_prevrandao : typed word (prevrandao env ctx ext).
Proof.
  unfold prevrandao. em_step; [by apply t_get_randomness|]. destruct H as [Hb Hl].
  by apply em_ret, from_big_endian_word.
Qed.

Lemma t_readonly {A} (P : A -> Prop) (f : System -> St (Vm Net) (ActorError IpldBlock) A) :
  (forall s, system_ok s -> typed P (f s)) ->
  typed P (let& s := get_sys in if readonly s then raise USR_READ_ONLY else f s).
Proof.
  intros Hf. em_step; [apply t_get_sys|]. destruct (readonly a); [by apply em_fail|by apply Hf].
Qed.

Lemma t_sstore k v : word v -> typed (fun _ => True) (sstore (Net := Net) k v).
Proof. intros Hv. apply t_readonly. intros s _. by apply t_set_storage. Qed.

Lemma t_tstore k v : word v -> typed (fun _ => True) (tstore (Net := Net) k v).
Proof. intros Hv. apply t_readonly. intros s _. by apply t_set_transient_storage. Qed.

Lemma t_log x a b topics : exec_ok x -> word a -> word b -> typed (mem_only x) (log ext x a b topics).
Proof.
  intros Hx Ha Hb. apply t_readonly. intros s _. cbn beta.
  em_step; [by apply t_region; [apply exec_mem| |]|]. destruct a0 as [r m], H as [Hm Hr].
  cbv zeta. em_step; [by apply t_region_bytes|]. destruct (ext_emit ext _); [|by apply em_fail].
  apply em_ret. split; [by apply exec_set_memory|done].
Qed.

Lemma t_contract_type a : typed (fun _ => True) (get_contract_type env ext a).
Proof.
  unfold get_contract_type. destruct (is_precompile _ _ _); [by apply em_ret|].
  em_step; [by apply t_resolve|]. destruct a0; [|by apply em_ret].
  em_step; [apply t_read; intros w; by eexists|]. destruct a0; by apply em_ret.
Qed.

Lemma t_decode {T} (P : T -> Prop) dec d : (forall b v, dec b = Some v -> P v) ->
  typed P (slift (deserialize_block (R := IpldBlock) dec d)).
Proof.
  intros HP. apply em_lift; unfold deserialize_block.
  - intros v H. apply rbind_ok in H as (b & _ & H). apply ok_or_ok in H. by eapply HP.
  - intros e H. apply rbind_err in H as [H|(b & _ & H)].
    + destruct d; [discriminate H|]. by injection H as <-.
    + destruct (dec b); [discriminate H|]. by injection H as <-.
Qed.

Lemma t_bytecode_cid a : typed (opt_ok buffer) (get_evm_bytecode_cid env ext a).
Proof.
  unfold get_evm_bytecode_cid. em_step; [by apply t_sys_send|].
  apply t_decode. intros b [c|] Hc; [|done]. by eapply et_dec_bytecode.
Qed.

Lemma t_bytecode a : typed buffer (get_evm_bytecode env ext a).
Proof.
  unfold get_evm_bytecode. em_step; [apply t_bytecode_cid|]. apply em_ret.
  destruct a0; [done|apply buffer_nil].
Qed.

Lemma len_word {A} (l : list A) : len l < 2 ^ 32 -> word (len l).
Proof. intros H. apply u64_word. unfold u64. pose proof (len_nonneg l). lia. Qed.

Lemma t_extcodesize a : typed word (extcodesize env ext a).
Proof.
  unfold extcodesize. em_step; [apply t_contract_type|]. destruct a0; try by apply em_ret.
  em_step; [apply t_bytecode|]. destruct H0. by apply em_ret, len_word.
Qed.

Lemma t_extcodehash a : typed word (extcodehash env ext a).
Proof.
  unfold extcodehash. em_step; [apply t_contract_type|]. destruct a0; try by apply em_ret.
  em_step; [by apply t_sys_send|].
  em_step; [apply (t_decode (fun h => bytes h /\ length h = 32%nat)); apply Hext|].
  destruct H1 as [Hb Hl]. apply em_ret, from_big_endian_word; [done|lia].
Qed.

Lemma t_extcodecopy x a b c d : exec_ok x -> word b -> word c -> word d ->
  typed (mem_only x) (extcodecopy env ext x a b c d).
Proof.
  intros Hx Hb Hc Hd. unfold extcodecopy. em_step; [apply t_contract_type|].
  apply (em_bind _ _ buffer).
  { destruct a0; try apply em_ret; try apply buffer_nil; [apply t_bytecode|].
    apply small_buffer; [by repeat constructor|cbn; lia]. }
  intros code Hcode. em_step; [apply (t_lift_mem (fun m => mem_only x (set_memory m x)))|by apply em_ret].
  - intros m Hm. exact (copy_mem_ok _ _ _ _ _ _ _ Hx Hcode Hb Hd Hc Hm).
  - intros e. apply copy_errs.
Qed.

(** ** Calls and creation *)

Definition outcome_ok (r : option IpldBlock + option IpldBlock) : Prop :=
  match r with inl d => opt_ok block_ok d | inr d => opt_ok block_ok d end.

Lemma returned_bytes_ok d : opt_ok block_ok d -> buffer (returned_bytes ext d).
Proof.
  destruct d as [b|]; [|intros _; apply buffer_nil]. cbn. intros Hb.
  destruct (ext_dec_bytes ext b) as [l|] eqn:E; cbn; [by eapply et_dec_bytes|].
  destruct Hb as (Hb & Hl & _). split; [done|]. lia.
Qed.

Lemma t_call_send k g dst v input : typed outcome_ok (call_send env ext k g dst v input).
Proof.
  unfold call_send. cbv zeta. em_step; [by apply t_call_gas_limit|]. em_step; [by apply t_send_raw|].
  em_step; [apply t_get_sys|]. apply em_ret. unfold call_outcome.
  destruct a0 as [r|n]; [by destruct (is_success _)|]. destruct n; try done. by destruct (_ || _).
Qed.

Lemma t_call_delegate x g dst v input : typed outcome_ok (call_delegate env ctx ext x g dst v input).
Proof.
  unfold call_delegate. em_step; [apply t_contract_type|]. destruct a; try by apply em_ret.
  em_step; [apply t_bytecode_cid|]. destruct a; [|by apply em_ret]. cbv zeta.
  em_step; [by apply t_call_gas_limit|]. em_step; [by apply em_catch, t_sys_send|].
  apply em_ret. by destruct a0.
Qed.

Lemma t_call_precompile dst input c : buffer input ->
  typed (fun '(v, d) => word v /\ buffer d) (fun vm =>
    match call_precompile env ext dst input c vm with
    | (Ok d, vm) => (Ok (1, d), vm)
    | (Err _, vm) => (Ok (0, []), vm)
    | (Panic, vm) => (Panic, vm)
    end).
Proof.
  intros Hi vm Hvm. destruct (p_call_precompile env ext Henv Hext dst input c Hi vm Hvm) as [HI Hr].
  destruct (call_precompile _ _ _ _ _ vm) as [[d|e|] vm']; cbn in *; [done| |done].
  split; [done|]. split; [done|apply buffer_nil].
Qed.

(** What a function on the execution state returns: a word, and the state
    with the same stack. *)
Definition fun_post (x : ExecutionState) (r : Z * ExecutionState) : Prop :=
  word (fst r) /\ mem_only x (snd r).

Lemma t_call_generic x k g dst v io isz oo os : exec_ok x -> word io -> word isz -> word oo -> word os ->
  typed (fun_post x) (call_generic env ctx ext x k g dst v io isz oo os).
Proof.
  intros Hx Hio Hisz Hoo Hos. unfold call_generic. em_step; [apply t_get_sys|].
  destruct (_ && _); [by apply em_fail|].
  em_step; [by apply t_region; [apply exec_mem| |]|]. destruct a0 as [r m], H0 as [Hm Hr].
  em_step; [by apply t_region_bytes|]. cbv zeta.
  apply (em_bind _ _ (fun '(v, d) => word v /\ buffer d)).
  { destruct (is_reserved_precompile_address _).
    - em_step; [by apply t_call_precompile|by apply em_ret].
    - apply (em_bind _ _ outcome_ok).
      + destruct k; first [apply t_call_send|apply t_call_delegate].
      + intros [d|d] Hd; apply em_ret; (split; [done|by apply returned_bytes_ok]). }
  intros [c d] [Hc Hd].
  assert (exec_ok (set_memory m (set_ret_data d x))) as Hx'
    by (apply exec_set_memory; [by apply exec_set_ret|done]).
  apply (em_bind _ _ (fun m' => fun_post x (c, set_memory m' (set_ret_data d x))));
    [|intros m' Hm'; by apply em_ret].
  apply t_lift_mem; [|apply copy_errs].
  intros m' Hm'. split; [done|]. assert (word 0) as H0w by done.
  exact (copy_mem_ok (set_memory m (set_ret_data d x)) _ _ _ _ _ _ Hx' Hd Hoo Hos H0w Hm').
Qed.

Lemma t_create_common x p me e : exec_ok x -> typed (fun_post x) (create_common env ext x p me e).
Proof.
  intros Hx. unfold create_common. cbv zeta.
  assert (exec_ok (set_ret_data [] x)) as Hx' by (apply exec_set_ret; [done|apply buffer_nil]).
  em_step; [apply t_current_balance|]. destruct (e >? a); [by apply em_ret|].
  em_step; [apply t_increment_nonce|]. em_step; [by apply t_gas_reserve|].
  em_step; [by apply em_catch, t_sys_send|]. destruct a2 as [d|er].
  - em_step; [apply (t_decode eth_ok); apply Hext|]. apply em_ret. split; [by apply eth_word|done].
  - apply em_ret. split; [done|]. unfold error_ok in *. cbn [snd].
    destruct (err_data er) as [r|]; [|done]. split; [|done].
    apply exec_set_ret; [done|]. by apply (returned_bytes_ok (Some r)).
Qed.

Lemma t_create x e o s : exec_ok x -> word o -> word s -> typed (fun_post x) (create env ext x e o s).
Proof.
  intros Hx Ho Hs. apply t_readonly. intros sy _. cbv beta zeta.
  assert (exec_ok (set_ret_data [] x)) as Hx' by (apply exec_set_ret; [done|apply buffer_nil]).
  em_step; [by apply t_region; [apply exec_mem| |]|]. destruct a as [r m], H as [Hm Hr].
  em_step; [by apply t_region_bytes|].
  eapply em_mono; [apply t_create_common; by apply exec_set_memory|].
  intros [v x'] [Hv [Hok Hst]]. split; [done|]. by split.
Qed.

Lemma t_create2 x e o s salt : exec_ok x -> word o -> word s ->
  typed (fun_post x) (create2 env ext x e o s salt).
Proof.
  intros Hx Ho Hs. apply t_readonly. intros sy _. cbv beta zeta.
  em_step; [by apply t_region; [apply exec_mem| |]|]. destruct a as [r m], H as [Hm Hr].
  em_step; [by apply t_region_bytes|].
  eapply em_mono; [apply t_create_common; by apply exec_set_memory|].
  intros [v x'] [Hv [Hok Hst]]. split; [done|]. by split.
Qed.

Lemma t_selfdestruct pc b : typed (fun o => buffer (return_data o)) (selfdestruct env ctx ext pc b).
Proof.
  apply t_readonly. intros s _. cbv beta zeta. em_step; [apply t_current_balance|].
  em_step; [by apply t_send|]. destruct (extract_send_result a0); try by apply em_fail.
  em_step; [apply t_mark_selfdestructed|]. apply em_ret, buffer_nil.
Qed.

(** ** The machine *)

Context (bytecode : Bytecode) (Hcode : new_bytecode (code bytecode) = Some bytecode).
Context (Hbuf : buffer (code bytecode)).

Definition pc_ok (pc : Z) : Prop :=
  0 <= pc /\ (boundary (code bytecode) (Z.to_nat pc) \/ pc = len (code bytecode)).

Definition machine_ok (m : Machine) : Prop :=
  exec_ok (m_state m) /\ pc_ok (m_pc m) /\ buffer (return_data (m_output m)).

(** A machine about to run an instruction of [n] bytes. *)
Definition at_ins (n : nat) (m : Machine) : Prop :=
  machine_ok m /\ m_pc m < len (code bytecode) /\ pc_ok (m_pc m + Z.of_nat n).

Lemma at_ins_intro m b : machine_ok m -> code bytecode !! Z.to_nat (m_pc m) = Some b ->
  at_ins (ins_len b) m.
Proof.
  intros Hm Hb. pose proof Hm as (_ & (H0 & Hpc) & _). pose proof (lookup_lt_Some _ _ _ Hb) as Hlt.
  split; [done|]. split; [unfold len; lia|]. split; [lia|]. left.
  destruct Hpc as [Hpc|Hpc]; [|unfold len in Hpc; lia].
  replace (Z.to_nat (m_pc m + Z.of_nat (ins_len b))) with (Z.to_nat (m_pc m) + ins_len b)%nat by lia.
  by econstructor.
Qed.

Lemma next_ok m x : at_ins 1 m -> exec_ok x -> machine_ok (next m x).
Proof. intros ((_ & _ & Ho) & _ & Hpc) Hx. split; [done|]. by split. Qed.

(** Popping arguments makes room for a result. *)
Lemma t_pop_args n m : exec_ok (m_state m) ->
  typed (fun '(args, x) => length args = n /\ Forall word args /\ exec_ok x /\
    len (stack x) <= 1024 - Z.of_nat n) (pop_args (Net := Net) n m).
Proof.
  intros Hx. unfold pop_args. em_step.
  { apply (em_lift _ _ (fun '(args, rest) => length args = n /\ Forall word args /\ stack_ok rest /\
      len rest <= 1024 - Z.of_nat n)).
    - intros [args rest] H. pose proof Hx as (Hs & _).
      apply pop_many_ok in H as (_ & ? & ? & ? & Hl); [|done]. destruct Hs as [_ Hs].
      refine (conj _ (conj _ (conj _ _))); [done..|lia].
    - intros e. unfold Stack.pop_many. destruct (_ <? _); [|done]. by intros [= <-]. }
  destruct a as [args rest], H as (? & ? & ? & ?). apply em_ret.
  refine (conj _ (conj _ (conj _ _))); [done|done|by apply exec_set_stack|done].
Qed.

Lemma push_result_ok v x : word v -> exec_ok x -> len (stack x) <= 1023 -> exec_ok (push_result v x).
Proof.
  intros Hv Hx Hl. apply exec_set_stack; [done|]. destruct Hx as ([Hw _] & _). split; [by constructor|].
  unfold Stack.push_unchecked, len in *. cbn [length]. lia.
Qed.

Lemma t_primop n impl m : (1 <= n)%nat ->
  (forall args, length args = n -> Forall word args -> word (impl args)) ->
  at_ins 1 m -> typed machine_ok (primop (Net := Net) n impl m).
Proof.
  intros Hn Hi Hm. unfold primop. em_step; [apply t_pop_args, Hm|].
  destruct a as [args x], H as (Hl & Hw & Hx & Hs). apply em_ret, next_ok; [done|].
  apply push_result_ok; [by apply Hi|done|lia].
Qed.

Lemma t_stackop impl m : (forall s s', stack_ok s -> impl s = Ok s' -> stack_ok s') ->
  (forall s e, impl s = Err e -> error_ok e) -> at_ins 1 m ->
  typed machine_ok (stackop (Net := Net) impl m).
Proof.
  intros Hi He Hm. pose proof Hm as ((Hx & _) & _). unfold stackop.
  em_step; [apply (em_lift _ _ stack_ok)|].
  - intros s' Hs'. eapply Hi; [apply Hx|exact Hs'].
  - apply He.
  - by apply em_ret, next_ok, exec_set_stack.
Qed.

Lemma push_errs v s e : Stack.push v s = Err e -> error_ok e.
Proof. unfold Stack.push. destruct (_ >=? _); [|done]. by intros [= <-]. Qed.

Lemma t_pushop n m : (n <= 32)%nat -> at_ins (1 + n) m ->
  typed machine_ok (pushop (Net := Net) bytecode n m).
Proof.
  intros Hn ((Hx & Hpc & Ho) & _ & Hnext). unfold pushop. cbv zeta.
  rewrite push_code_spec by done. set (v := from_big_endian _). assert (word v) as Hv.
  { apply from_big_endian_word; [|rewrite length_take; lia].
    apply Forall_take, Forall_app. split; [by apply Forall_drop; apply Hbuf|by apply Forall_replicate]. }
  em_step; [apply (em_lift _ _ (fun '(k, s) => k = n /\ stack_ok s))|].
  - intros [k s] H. apply rbind_ok in H as (s' & Hs' & H). apply Ok_inj in H. injection H as <- <-.
    split; [done|]. eapply push_ok; [exact Hv|apply Hx|exact Hs'].
  - intros e H. apply rbind_err in H as [H|(s' & _ & H)]; [by eapply push_errs|discriminate H].
  - destruct a as [k s], H as [-> Hs]. apply em_ret. split; [by apply exec_set_stack|].
    split; [|done]. cbn [m_pc]. by replace (m_pc m + 1 + Z.of_nat n) with (m_pc m + Z.of_nat (1 + n)) by lia.
Qed.

Lemma t_stdfun n impl m : (1 <= n)%nat ->
  (forall x args, exec_ok x -> length args = n -> Forall word args -> typed (fun_post x) (impl x args)) ->
  at_ins 1 m -> typed machine_ok (stdfun n impl m).
Proof.
  intros Hn Hi Hm. unfold stdfun. em_step; [apply t_pop_args, Hm|].
  destruct a as [args x], H as (Hl & Hw & Hx & Hs). em_step; [by apply Hi|].
  destruct a as [v x'], H as (Hv & Hx' & Hst). apply em_ret, next_ok; [done|].
  apply push_result_ok; [done|done|]. cbn in Hst. rewrite Hst. lia.
Qed.

Lemma t_stdfun0 impl m : (forall x, exec_ok x -> typed word (impl x)) ->
  at_ins 1 m -> typed machine_ok (stdfun0 impl m).
Proof.
  intros Hi Hm. pose proof Hm as ((Hx & _) & _). unfold stdfun0.
  em_step; [apply (em_lift _ _ (fun _ => len (stack (m_state m)) <= 1023))|].
  - intros u. unfold Stack.ensure_one, Stack.STACK_SIZE. destruct (_ >=? _) eqn:E; [done|]. bool_prop. lia.
  - intros e. unfold Stack.ensure_one. destruct (_ >=? _); [|done]. by intros [= <-].
  - em_step; [by apply Hi|]. apply em_ret, next_ok; [done|]. by apply push_result_ok.
Qed.

Lemma t_stdproc n impl m :
  (forall x args, exec_ok x -> length args = n -> Forall word args -> typed exec_ok (impl x args)) ->
  at_ins 1 m -> typed machine_ok (stdproc n impl m).
Proof.
  intros Hi Hm. unfold stdproc. em_step; [apply t_pop_args, Hm|].
  destruct a as [args x], H as (Hl & Hw & Hx & Hs). em_step; [by apply Hi|]. by apply em_ret, next_ok.
Qed.

Lemma jump_ok pc dest pc' : word dest -> jump bytecode pc dest = Ok pc' -> pc_ok pc'.
Proof.
  unfold jump, U256.try_into_u32. intros [Hd _] H. destruct (dest <? 2 ^ 32); [|discriminate H].
  destruct (valid_jump_destination bytecode dest) eqn:E; [|discriminate H].
  apply Ok_inj in H as <-. apply (new_bytecode_valid _ _ Hcode) in E as [Hb Hj]; [|done].
  split; [lia|left]. replace (Z.to_nat (dest + 1)) with (Z.to_nat dest + ins_len JUMPDEST_BYTE)%nat
    by (cbn; lia). by econstructor.
Qed.

Lemma jump_errs pc dest e : jump bytecode pc dest = Err e -> error_ok e.
Proof.
  unfold jump. destruct (U256.try_into_u32 dest); [|by intros [= <-]].
  destruct (negb _); [by intros [= <-]|done].
Qed.

Lemma t_jmp n impl m :
  (forall pc args pc', pc_ok (pc + 1) -> length args = n -> Forall word args ->
    impl pc args = Ok pc' -> pc_ok pc') ->
  (forall pc args e, impl pc args = Err e -> error_ok e) ->
  at_ins 1 m -> typed machine_ok (jmp (Net := Net) n impl m).
Proof.
  intros Hi He Hm. unfold jmp. em_step; [apply t_pop_args, Hm|].
  destruct a as [args x], H as (Hl & Hw & Hx & Hs). pose proof Hm as ((_ & _ & Ho) & _ & Hpc).
  em_step; [apply (em_lift _ _ pc_ok)|].
  - intros pc' Hpc'. by apply (Hi (m_pc m) args).
  - apply He.
  - apply em_ret. by split.
Qed.

Lemma t_exitop n impl m :
  (forall x pc args, exec_ok x -> length args = n -> Forall word args ->
    typed (fun '(o, x) => buffer (return_data o) /\ exec_ok x) (impl x pc args)) ->
  at_ins 1 m -> typed machine_ok (exitop bytecode n impl m).
Proof.
  intros Hi Hm. unfold exitop. em_step; [apply t_pop_args, Hm|].
  destruct a as [args x], H as (Hl & Hw & Hx & Hs). em_step; [by apply Hi|].
  destruct a as [o x'], H as [Ho Hx']. apply em_ret. split; [done|]. split; [|done].
  split; [apply len_nonneg|by right].
Qed.

Lemma t_exit x pc a b st : exec_ok x -> word a -> word b ->
  typed (fun '(o, x) => buffer (return_data o) /\ exec_ok x)
    (let& (o, mem) := slift (exit (memory x) pc a b st) in sret (o, set_memory mem x)).
Proof.
  intros Hx Ha Hb.
  em_step; [apply (t_lift_mem (fun '(o, m) => buffer (return_data o) /\ mem_ok m))|].
  - intros [o m] H. unfold exit in H. apply rbind_ok in H as ([r m'] & Hr & H).
    apply rbind_ok in H as (d & Hd & H). apply Ok_inj in H. injection H as <- <-.
    split; [exact (region_bytes_ok _ _ _ _ _ _ (exec_mem x Hx) Ha Hb Hr Hd)|].
    exact (region_word _ _ _ _ _ (exec_mem x Hx) Ha Hb Hr).
  - intros e H. unfold exit in H. apply rbind_err in H as [H|([r m] & _ & H)]; [by eapply region_errs|].
    apply rbind_err in H as [H|(d & _ & H)]; [by apply region_bytes_errs in H|discriminate H].
  - destruct a0 as [o m], H as [Ho Hm]. apply em_ret. split; [done|by apply exec_set_memory].
Qed.

Lemma t_special m : at_ins 1 m -> typed machine_ok (special (Net := Net) (m_pc m) m).
Proof.
  intros Hm. pose proof Hm as ((Hx & [H0 _] & _) & Hlt & _). unfold special.
  em_step; [apply (em_lift _ _ stack_ok)|].
  - intros s Hs. eapply push_ok; [|apply Hx|exact Hs]. apply u64_word. destruct Hbuf as [_ Hl].
    unfold u64. lia.
  - intros e. apply push_errs.
  - by apply em_ret, next_ok, exec_set_stack.
Qed.

Lemma t_keep x m : exec_ok x -> typed word m -> typed (fun_post x) (keep (Net := Net) x m).
Proof. intros Hx Hm. unfold keep. em_step; [exact Hm|]. by apply em_ret. Qed.

Lemma t_proc x m : exec_ok x -> typed (fun _ => True) m -> typed exec_ok (proc (Net := Net) x m).
Proof. intros Hx Hm. unfold proc. em_step; [exact Hm|]. by apply em_ret. Qed.

Lemma t_mem_proc x (r : Rs ExecutionState) : (forall x', r = Ok x' -> mem_only x x') ->
  (forall e, r = Err e -> e = err EVM_CONTRACT_ILLEGAL_MEMORY_ACCESS) -> typed exec_ok (slift r).
Proof. intros Hr He. apply t_lift_mem; [|done]. intros x' Hx'. by apply Hr. Qed.

Lemma t_copy_proc x d s o data : exec_ok x -> buffer data -> word d -> word s -> word o ->
  typed exec_ok (slift (let! mem := copy_to_memory (memory x) d s o data true in
                        Ok (set_memory mem x))).
Proof.
  intros Hx Hda Hd Hs Ho. apply (t_mem_proc x).
  - intros x' H. apply rbind_ok in H as (m & Hm & H). apply Ok_inj in H as <-.
    exact (copy_mem_ok _ _ _ _ _ _ _ Hx Hda Hd Hs Ho Hm).
  - intros e H. apply rbind_err in H as [H|(m & _ & H)]; [by eapply copy_errs|discriminate H].
Qed.

Lemma t_keccak x a b : exec_ok x -> word a -> word b -> typed (fun_post x) (slift (keccak256 ext x a b)).
Proof.
  intros Hx Ha Hb. destruct Hext as [? ? ? ? ? ? Hk]. apply t_lift_mem.
  - intros [v x'] H. unfold keccak256 in H. apply rbind_ok in H as ([r m] & Hr & H).
    apply rbind_ok in H as (d & Hd & H). destruct (_ >? 32); [discriminate H|].
    apply Ok_inj in H. injection H as <- <-. destruct (Hk d) as [Hkb Hkl].
    split; [apply from_big_endian_word; [done|cbn; lia]|]. split; [|done].
    apply exec_set_memory; [done|]. exact (region_word _ _ _ _ _ (exec_mem x Hx) Ha Hb Hr).
  - intros e H. unfold keccak256 in H. apply rbind_err in H as [H|([r m] & _ & H)]; [by eapply region_errs|].
    apply rbind_err in H as [H|(d & _ & H)]; [by apply region_bytes_errs in H|].
    by destruct (_ >? 32).
Qed.

Lemma t_mload x a : exec_ok x -> word a -> typed (fun_post x) (slift (mload x a)).
Proof.
  intros Hx Ha. apply t_lift_mem; [|apply mload_errs]. intros [v x'] H. by apply (mload_ok _ _ _ _ Hx Ha).
Qed.

(** Names the arguments of an instruction. *)
Ltac args_tac Hl Hw args :=
  repeat (destruct args as [|? args]; [discriminate Hl|]);
  (destruct args; [|discriminate Hl]); rewrite ?Forall_cons in Hw; destruct_and?;
  cbn [arg1 arg2 arg3 arg4 arg6 arg7].

(** The rule for the combinator that defines an instruction. *)
Ltac op_tac :=
  lazymatch goal with
  | |- em _ _ _ (primop _ _ _) => apply t_primop; [lia| |done]; intros args Hl Hw; args_tac Hl Hw args
  | |- em _ _ _ (stackop _ _) => apply t_stackop; [| |done]
  | |- em _ _ _ (stdfun _ _ _) =>
      apply t_stdfun; [lia| |done]; intros x args Hx Hl Hw; args_tac Hl Hw args; try (apply t_keep; [done|])
  | |- em _ _ _ (stdfun0 _ _) => apply t_stdfun0; [|done]; intros x Hx
  | |- em _ _ _ (stdproc _ _ _) =>
      apply t_stdproc; [|done]; intros x args Hx Hl Hw; args_tac Hl Hw args; try (apply t_proc; [done|])
  | |- em _ _ _ (jmp _ _ _) => apply t_jmp; [| |done]
  | |- em _ _ _ (exitop _ _ _ _) => apply t_exitop; [|done]; intros x pc args Hx Hl Hw; args_tac Hl Hw args
  end.

(** Closes the goals of the instructions by their typing lemmas. *)
Ltac op_done :=
  lazymatch goal with
  | |- word (Boolean.iszero ?a) => apply (word_cmp a 0)
  | |- word (?f ?a ?b) => first [solve [auto with words nocore] | apply (word_cmp a b)]
  | |- word _ => auto with words nocore
  | |- em _ _ _ (slift (keccak256 _ _ _ _)) => by apply t_keccak
  | |- em _ _ _ (slift (mload _ _)) => by apply t_mload
  | |- em _ _ _ (slift (from_token_amount _)) => apply t_amount
  | |- em _ _ _ (slift (calldataload _ _)) =>
      apply t_lift_ok; [intros v; by apply calldataload_ok|apply calldataload_errs]
  | |- em _ _ _ (balance _ _ _) => by apply t_balance
  | |- em _ _ _ (origin _ _ _) => by apply t_origin
  | |- em _ _ _ (gas_price _) => apply t_amount
  | |- em _ _ _ (base_fee _) => apply t_amount
  | |- em _ _ _ (blockhash _ _ _) => by apply t_blockhash
  | |- em _ _ _ (block_number _) => by apply t_block_number
  | |- em _ _ _ (prevrandao _ _ _) => by apply t_prevrandao
  | |- em _ _ _ selfbalance => apply t_selfbalance
  | |- em _ _ _ (gas _) => by apply t_gas_ins
  | |- em _ _ _ (extcodesize _ _ _) => by apply t_extcodesize
  | |- em _ _ _ (extcodehash _ _ _) => by apply t_extcodehash
  | |- em _ _ _ (sload _) => apply t_get_storage
  | |- em _ _ _ (tload _) => apply t_get_transient_storage
  | |- em _ _ _ (call_generic _ _ _ _ _ _ _ _ _ _ _ _) => by apply t_call_generic
  | |- em _ _ _ (create _ _ _ _ _ _) => by apply t_create
  | |- em _ _ _ (create2 _ _ _ _ _ _ _) => by apply t_create2
  | |- em _ _ _ (sret _) => by apply em_ret
  | |- em _ _ _ (raise _) => by apply em_fail
  | |- em _ _ _ (slift (calldatacopy _ _ _ _)) => apply t_copy_proc; try done; by apply exec_input
  | |- em _ _ _ (slift (codecopy _ _ _ _ _)) => by apply t_copy_proc
  | |- em _ _ _ (slift (returndatacopy ?x _ _ _)) =>
      apply (t_mem_proc x); [intros x'; by apply returndatacopy_ok|apply returndatacopy_errs]
  | |- em _ _ _ (slift (mstore ?x _ _)) =>
      apply (t_mem_proc x); [intros x'; by apply mstore_ok|apply mstore_errs]
  | |- em _ _ _ (slift (mstore8 ?x _ _)) =>
      apply (t_mem_proc x); [intros x'; by apply mstore8_ok|apply mstore8_errs]
  | |- em _ _ _ (slift (mcopy ?x _ _ _)) =>
      apply (t_mem_proc x); [intros x'; by apply mcopy_ok|apply mcopy_errs]
  | |- em _ _ _ (sstore _ _) => by apply t_sstore
  | |- em _ _ _ (tstore _ _) => by apply t_tstore
  | |- em _ _ _ (extcodecopy _ _ _ _ _ _ _) =>
      eapply em_mono; [by apply t_extcodecopy|by intros ? [? _]]
  | |- em _ _ _ (let& (_, _) := slift (exit _ _ _ _ _) in _) => by apply t_exit
  end.

Lemma msize_word x : exec_ok x -> word (msize x).
Proof. intros Hx. apply len_word. pose proof (exec_mem x Hx) as (_ & _ & ?). lia. Qed.

Lemma t_log_op n m : at_ins 1 m ->
  typed machine_ok (instruction env ctx ext bytecode (LOG n) m).
Proof.
  intros Hm. cbn [instruction]. apply t_stdproc; [|done]. intros x args Hx Hl Hw.
  destruct args as [|a [|b topics]]; [discriminate Hl..|]. rewrite !Forall_cons in Hw.
  destruct_and? Hw. eapply em_mono; [by apply t_log|by intros ? [? _]].
Qed.

Lemma t_jump_ops m : at_ins 1 m ->
  typed machine_ok (instruction env ctx ext bytecode JUMP m) /\
  typed machine_ok (instruction env ctx ext bytecode JUMPI m).
Proof.
  intros Hm. split; cbn [instruction]; op_tac.
  - intros pc args pc' _ Hl Hw. args_tac Hl Hw args. by apply jump_ok.
  - intros pc [|a [|? ?]] e; try done. apply jump_errs.
  - intros pc args pc' Hpc Hl Hw. args_tac Hl Hw args. unfold jumpi. destruct (negb _).
    + by apply (jump_ok pc).
    + by intros [= <-].
  - intros pc [|a [|b [|? ?]]] e; try done. unfold jumpi. cbn [arg2]. destruct (negb _); [|done].
    apply (jump_errs pc).
Qed.

Lemma t_stack_ops n m : at_ins 1 m ->
  typed machine_ok (instruction env ctx ext bytecode (DUP n) m) /\
  typed machine_ok (instruction env ctx ext bytecode (SWAP n) m) /\
  typed machine_ok (instruction env ctx ext bytecode POP m).
Proof.
  intros Hm. refine (conj _ (conj _ _)); cbn [instruction]; op_tac.
  - intros s s'. apply dup_ok.
  - intros s e. unfold Stack.dup. destruct n; [done|]. destruct (_ >=? _); [by intros [= <-]|].
    destruct (s !! n); [done|by intros [= <-]].
  - intros s s' Hs H. by eapply swap_top_ok.
  - intros s e. unfold Stack.swap_top. destruct (s !! 0%nat); [|by intros [= <-]].
    destruct (s !! n); [done|by intros [= <-]].
  - intros [|v s] s' [Hw Hl]; [done|]. intros [= <-]. split; [by apply Forall_cons in Hw as [_ ?]|].
    unfold len in *. cbn [length] in Hl. lia.
  - intros [|v s] e; [by intros [= <-]|done].
Qed.

Lemma t_selfdestruct_op m : at_ins 1 m ->
  typed machine_ok (instruction env ctx ext bytecode SELFDESTRUCT m).
Proof.
  intros Hm. cbn [instruction]. op_tac. em_step; [by apply t_selfdestruct|]. by apply em_ret.
Qed.

Lemma instruction_ok op m : match op with PUSH n => (n <= 32)%nat | _ => True end ->
  at_ins (op_len op) m -> typed machine_ok (instruction env ctx ext bytecode op m).
Proof.
  intros Hp Hm. destruct op; cbn [op_len] in *;
    lazymatch goal with
    | |- em _ _ _ (instruction _ _ _ _ (LOG _) _) => by apply t_log_op
    | |- em _ _ _ (instruction _ _ _ _ JUMP _) => by apply t_jump_ops
    | |- em _ _ _ (instruction _ _ _ _ JUMPI _) => by apply t_jump_ops
    | |- em _ _ _ (instruction _ _ _ _ (DUP _) _) => by apply t_stack_ops
    | |- em _ _ _ (instruction _ _ _ _ (SWAP _) _) => by apply t_stack_ops
    | |- em _ _ _ (instruction _ _ _ _ POP _) => by apply (t_stack_ops 0)
    | |- em _ _ _ (instruction _ _ _ _ SELFDESTRUCT _) => by apply t_selfdestruct_op
    | |- _ => cbn [instruction]
    end.
  all: try solve [op_tac; op_done].
  all: lazymatch goal with
       | |- em _ _ _ (special _ _) => by apply t_special
       | |- em _ _ _ (pushop _ _ _) => by apply t_pushop
       | |- _ => op_tac; apply em_ret
       end.
  - split; [apply buffer_nil|done].
  - by apply eth_word, Hx.
  - by apply eth_word, Hx.
  - by apply len_word, exec_input.
  - apply len_word, Hbuf.
  - by apply len_word, exec_ret.
  - apply u64_word, Hext.
  - apply u64_word, Hext.
  - by apply msize_word.
Qed.

Lemma step_ok m : machine_ok m -> typed machine_ok (step env ctx ext bytecode m).
Proof.
  intros Hm. unfold step. destruct (code bytecode !! _) as [b|] eqn:Hb; [|apply t_panic].
  destruct (opcode b) as [op|] eqn:Hop; [|by apply em_fail].
  assert (is_byte b) as Hbyte by (eapply Forall_lookup_1; [apply Hbuf|exact Hb]).
  destruct (opcode_len b op Hbyte Hop) as [Hlen Hpush]. apply instruction_ok; [done|].
  rewrite <- Hlen. by apply at_ins_intro.
Qed.

Lemma machine_execute_ok fuel : forall m, machine_ok m ->
  typed (opt_ok (fun o => buffer (return_data o))) (execute env ctx ext bytecode fuel m).
Proof.
  induction fuel as [|fuel IH]; intros m Hm; cbn [execute]; [by apply em_ret|].
  destruct (_ <? _); [|apply em_ret, Hm]. em_step; [by apply step_ok|by apply IH].
Qed.

(** ** Runs *)

(** The states a run of the machine goes through. *)
Inductive run (m0 : Machine) (vm0 : Vm Net) : Machine -> Vm Net -> Prop :=
| run_start : run m0 vm0 m0 vm0
| run_step m vm m' vm' : run m0 vm0 m vm -> m_pc m < len (code bytecode) ->
    step env ctx ext bytecode m vm = (Ok m', vm') -> run m0 vm0 m' vm'.

Lemma run_ok m0 vm0 m vm : machine_ok m0 -> vm_ok vm0 -> run m0 vm0 m vm -> machine_ok m /\ vm_ok vm.
Proof.
  intros Hm Hvm. induction 1 as [|m vm m' vm' _ [IHm IHvm] _ Hs]; [done|].
  exact (em_run _ _ _ _ _ _ _ (step_ok m IHm) IHvm Hs).
Qed.
End step.

(** ** Properties *)

(** C9: type safety of the interpreter.  In every state a run of a contract
    reaches from the start of its code, the stack holds at most 1024 words,
    the memory is a whole number of words below 4 GiB, the storage, the
    transient storage and the nonce keep their widths, and the program counter
    is where an instruction starts or at the end of the code, whatever the
    contracts it calls return.  The bytecode is the one the jump-destination
    analysis produced; what is assumed of the kernel, the primitives and the
    codecs is the types of their results. *)
Theorem evm_run_typed {BN : Bn} {BL : Blst} {HBL : BlstLaws BL} {HBN : BnLaws BN} {Net : Type}
    (env : Env Net State SendParams IpldBlock) (ctx : Ctx) (ext : EvmExt Net)
    c bytecode caller receiver value input vm0 m vm :
  env_typed env -> ext_typed ext -> ctx_epoch ctx <= I64_MAX ->
  buffer c -> new_bytecode c = Some bytecode ->
  eth_ok caller -> eth_ok receiver -> buffer input -> vm_ok vm0 ->
  run env ctx ext bytecode (mkMachine (new_exec caller receiver value input) 0 default_output) vm0 m vm ->
  machine_ok bytecode m /\ vm_ok vm.
Proof.
  intros Henv Hext Hctx Hc Hb Hca Hre Hin Hvm. pose proof (new_bytecode_valid c bytecode Hb) as [Hcode _].
  rewrite <- Hcode in Hc, Hb. apply run_ok; try done.
  split; [|split; [split; [done|left; constructor]|apply buffer_nil]].
  split; [split; [constructor|done]|]. split; [split; [constructor|done]|].
  split; [done|]. split; [apply buffer_nil|done].
Qed.
