(* ===== verification/EvmProps.v ===== *)
(** * Properties of the EVM interpreter

    The effect of every instruction on the depth of the stack and its errors,
    and what read-only execution cannot do. *)

From S2P Require Import Prelude Runtime EvmWord EvmMachine EvmSystem EvmReader EvmBls EvmPrecompiles EvmInterp EvmProofs EvmStep.

(** ** The EVM's table of stack effects *)

(** The items an instruction takes from the stack. *)
Definition pops (op : Op) : nat :=
  match op with
  | ADD | MUL | SUB | DIV | SDIV | MOD | SMOD | EXP | SIGNEXTEND
  | LT | GT | SLT | SGT | EQ | AND | OR | XOR | BYTE | SHL | SHR | SAR
  | KECCAK256 | MSTORE | MSTORE8 | SSTORE | TSTORE | JUMPI | RETURN | REVERT => 2
  | ISZERO | NOT | BALANCE | CALLDATALOAD | EXTCODESIZE | EXTCODEHASH | BLOCKHASH
  | POP | MLOAD | SLOAD | TLOAD | JUMP | SELFDESTRUCT => 1
  | ADDMOD | MULMOD | CALLDATACOPY | CODECOPY | RETURNDATACOPY | MCOPY | CREATE => 3
  | EXTCODECOPY | CREATE2 => 4
  | DELEGATECALL | STATICCALL => 6
  | CALL => 7
  | DUP n => n
  | SWAP n => S n
  | LOG n => 2 + n
  | _ => 0
  end.

(** The items it puts on the stack. *)
Definition pushes (op : Op) : nat :=
  match op with
  | STOP | CALLDATACOPY | CODECOPY | EXTCODECOPY | RETURNDATACOPY | POP | MSTORE | MSTORE8 | SSTORE
  | TSTORE | JUMP | JUMPI | JUMPDEST | MCOPY | LOG _ | RETURN | REVERT | INVALID | SELFDESTRUCT => 0
  | DUP n | SWAP n => S n
  | _ => 1
  end.

Section stack.
Context {BN : Bn} {BL : Blst}.
Context {Net : Type} (env : Env Net State SendParams IpldBlock) (ctx : Ctx) (ext : EvmExt Net).
Context (bytecode : Bytecode).

Notation VM := (Vm Net).
Notation EM := (St VM (ActorError IpldBlock)).

(** A result in [P], whatever the state. *)
Notation gives := (em (fun _ : VM => True) (fun _ : ActorError IpldBlock => True)).

Lemma gives_any {A} (m : EM A) : gives (fun _ => True) m.
Proof. intros vm _. split; [done|]. by destruct (fst _). Qed.

Lemma gives_run {A} (P : A -> Prop) (m : EM A) vm a vm' : gives P m -> m vm = (Ok a, vm') -> P a.
Proof. intros Hm H. by destruct (em_run _ _ _ _ _ _ _ Hm Logic.I H). Qed.

Lemma gives_lift {A} (P : A -> Prop) (r : Rs A) : (forall a, r = Ok a -> P a) -> gives P (slift r).
Proof. intros H. by apply em_lift. Qed.

(** Peels an operation whose result does not matter. *)
Ltac skip := em_step; [apply gives_any|].

(** What a function leaves of the stack. *)
Definition fun_keeps (x : ExecutionState) : Z * ExecutionState -> Prop := fun r => stack (snd r) = stack x.
Definition proc_keeps (x : ExecutionState) : ExecutionState -> Prop := fun x' => stack x' = stack x.

Lemma gives_call_generic x k g dst v io isz oo os :
  gives (fun_keeps x) (call_generic env ctx ext x k g dst v io isz oo os).
Proof.
  unfold call_generic. skip. destruct (_ && _); [by apply em_fail|]. skip.
  destruct a0 as [r m]. skip. cbv zeta. skip. destruct a1 as [c d]. skip. by apply em_ret.
Qed.

Lemma gives_create_common x p me e : gives (fun_keeps x) (create_common env ext x p me e).
Proof.
  unfold create_common. cbv zeta. skip. destruct (_ >? _); [by apply em_ret|]. skip. skip. skip.
  destruct a2; [skip; by apply em_ret|]. apply em_ret. unfold fun_keeps. cbn. by destruct (err_data _).
Qed.

Lemma gives_create x e o s : gives (fun_keeps x) (create env ext x e o s).
Proof.
  unfold create. skip. destruct (readonly a); [by apply em_fail|]. cbv zeta. skip.
  destruct a0 as [r m]. skip. apply (gives_create_common (set_memory m (set_ret_data [] x))).
Qed.

Lemma gives_create2 x e o s salt : gives (fun_keeps x) (create2 env ext x e o s salt).
Proof.
  unfold create2. skip. destruct (readonly a); [by apply em_fail|]. skip.
  destruct a0 as [r m]. skip. apply (gives_create_common (set_memory m x)).
Qed.

Lemma gives_keep x m : gives (fun_keeps x) (keep (Net := Net) x m).
Proof. unfold keep. skip. by apply em_ret. Qed.

Lemma gives_proc x m : gives (proc_keeps x) (proc (Net := Net) x m).
Proof. unfold proc. skip. by apply em_ret. Qed.

Lemma gives_mload x a : gives (fun_keeps x) (slift (mload x a)).
Proof.
  apply gives_lift. intros r H. unfold mload in H. apply rbind_ok in H as ([? ?] & _ & H).
  do 2 (apply rbind_ok in H as (? & _ & H)). by apply Ok_inj in H as <-.
Qed.

Lemma gives_keccak x a b : gives (fun_keeps x) (slift (keccak256 ext x a b)).
Proof.
  apply gives_lift. intros r H. unfold keccak256 in H. apply rbind_ok in H as ([? ?] & _ & H).
  apply rbind_ok in H as (? & _ & H). destruct (_ >? _); [discriminate H|]. by apply Ok_inj in H as <-.
Qed.

(** An instruction on memory ends by replacing the memory. *)
Lemma gives_mem x (r : Rs ExecutionState) : (forall x', r = Ok x' -> stack x' = stack x) ->
  gives (proc_keeps x) (slift r).
Proof. apply gives_lift. Qed.

Lemma mem_keeps x a b c x' :
  (mstore x a b = Ok x' -> stack x' = stack x) /\ (mstore8 x a b = Ok x' -> stack x' = stack x) /\
  (mcopy x a b c = Ok x' -> stack x' = stack x) /\ (calldatacopy x a b c = Ok x' -> stack x' = stack x) /\
  (forall code, codecopy x code a b c = Ok x' -> stack x' = stack x) /\
  (returndatacopy x a b c = Ok x' -> stack x' = stack x).
Proof.
  refine (conj _ (conj _ (conj _ (conj _ (conj _ _))))).
  1-2: intros H; apply rbind_ok in H as ([? ?] & _ & H);
    do 2 (apply rbind_ok in H as (? & _ & H)); by apply Ok_inj in H as <-.
  - unfold mcopy. intros H. destruct (_ >? _); [|by apply Ok_inj in H as <-].
    apply rbind_ok in H as (? & _ & H). by apply Ok_inj in H as <-.
  - intros H. apply rbind_ok in H as (? & _ & H). by apply Ok_inj in H as <-.
  - intros code H. apply rbind_ok in H as (? & _ & H). by apply Ok_inj in H as <-.
  - unfold returndatacopy. intros H. apply rbind_ok in H as ([r m] & _ & H).
    destruct (U256.try_into_u32 b); [|discriminate H]. do 3 (destruct (_ : bool); [discriminate H|]).
    destruct r; [do 2 (apply rbind_ok in H as (? & _ & H))|]; by apply Ok_inj in H as <-.
Qed.

Lemma gives_log x a b t : gives (proc_keeps x) (log ext x a b t).
Proof.
  unfold log. skip. destruct (readonly a0); [by apply em_fail|]. skip. destruct a1 as [r m]. cbv zeta.
  skip. destruct (ext_emit ext _); [by apply em_ret|by apply em_fail].
Qed.

Lemma gives_extcodecopy x a b c d : gives (proc_keeps x) (extcodecopy env ext x a b c d).
Proof. unfold extcodecopy. skip. skip. skip. by apply em_ret. Qed.

(** ** Stack discipline of the combinators *)

(** Code that takes [p] items and leaves [q], and fails before it changes
    anything when the stack is too short or too full. *)
Definition stacks (p q : nat) (f : Machine -> EM Machine) : Prop :=
  forall m vm, let n := len (stack (m_state m)) in n <= Stack.STACK_SIZE ->
    (n < Z.of_nat p -> f m vm = (Err (err EVM_CONTRACT_STACK_UNDERFLOW), vm)) /\
    (Z.of_nat p <= n -> Stack.STACK_SIZE < n - Z.of_nat p + Z.of_nat q ->
      f m vm = (Err (err EVM_CONTRACT_STACK_OVERFLOW), vm)) /\
    (forall m' vm', f m vm = (Ok m', vm') ->
      Z.of_nat p <= n /\ len (stack (m_state m')) = n - Z.of_nat p + Z.of_nat q).

Lemma pop_args_short n m vm : len (stack (m_state m)) < Z.of_nat n ->
  pop_args (Net := Net) n m vm = (Err (err EVM_CONTRACT_STACK_UNDERFLOW), vm).
Proof.
  intros H. unfold pop_args, Stack.pop_many. by rewrite (proj2 (Z.ltb_lt _ _) H).
Qed.

Lemma pop_args_ok n m vm : Z.of_nat n <= len (stack (m_state m)) ->
  pop_args (Net := Net) n m vm =
    (Ok (take n (stack (m_state m)), set_stack (drop n (stack (m_state m))) (m_state m)), vm).
Proof.
  intros H. unfold pop_args, Stack.pop_many. by rewrite (proj2 (Z.ltb_ge _ _) H).
Qed.

(** Code that begins by popping its arguments. *)
Lemma stacks_pop p q (k : Machine -> list Z * ExecutionState -> EM Machine) : (q <= p)%nat ->
  (forall m a x, gives (fun m' => len (stack (m_state m')) = len (stack x) + Z.of_nat q) (k m (a, x))) ->
  stacks p q (fun m => sbind (pop_args p m) (k m)).
Proof.
  intros Hq Hk m vm n Hn. unfold sbind. destruct (Z.lt_ge_cases n (Z.of_nat p)) as [Hlt|Hge].
  - rewrite pop_args_short by done. split; [done|]. split; [lia|done].
  - rewrite pop_args_ok by done. split; [lia|]. split; [lia|].
    intros m' vm' H. split; [done|]. apply (gives_run _ _ _ _ _ (Hk _ _ _)) in H. rewrite H.
    cbn [stack set_stack]. unfold n, len in *. rewrite length_drop. lia.
Qed.

Lemma len_push v x : len (stack (push_result v x)) = len (stack x) + 1.
Proof. unfold push_result, Stack.push_unchecked, len. cbn [stack set_stack length]. lia. Qed.

Lemma stacks_primop n impl : (1 <= n)%nat -> stacks n 1 (primop (Net := Net) n impl).
Proof.
  intros Hn. apply (stacks_pop n 1 (fun m '(a, x) => sret (next m (push_result (impl a) x)))); [done|].
  intros m a x. apply em_ret. cbn [next m_state]. by rewrite len_push.
Qed.

Lemma stacks_stdfun n impl : (1 <= n)%nat -> (forall x args, gives (fun_keeps x) (impl x args)) ->
  stacks n 1 (stdfun n impl).
Proof.
  intros Hn Hi.
  apply (stacks_pop n 1 (fun m '(a, x) => let& (v, x) := impl x a in sret (next m (push_result v x)))); [done|].
  intros m a x. em_step; [apply Hi|]. destruct a0 as [v x']. apply em_ret. cbn [next m_state].
  rewrite len_push. unfold fun_keeps in H. cbn [snd] in H. by rewrite H.
Qed.

Lemma stacks_stdproc n impl : (forall x args, gives (proc_keeps x) (impl x args)) ->
  stacks n 0 (stdproc n impl).
Proof.
  intros Hi.
  apply (stacks_pop n 0 (fun m '(a, x) => let& x := impl x a in sret (next m x))); [lia|].
  intros m a x. em_step; [apply Hi|]. apply em_ret. cbn [next m_state]. unfold proc_keeps in *.
  rewrite H. lia.
Qed.

Lemma stacks_jmp n impl : stacks n 0 (jmp (Net := Net) n impl).
Proof.
  apply (stacks_pop n 0 (fun m '(a, x) =>
    let& pc := slift (impl (m_pc m) a) in sret (mkMachine x pc (m_output m)))); [lia|].
  intros m a x. skip. apply em_ret. cbn. lia.
Qed.

Lemma stacks_exitop n impl :
  (forall x pc args, gives (fun r => stack (snd r) = stack x) (impl x pc args)) ->
  stacks n 0 (exitop bytecode n impl).
Proof.
  intros Hi.
  apply (stacks_pop n 0 (fun m '(a, x) => let& (o, x) := impl x (m_pc m) a in
    sret (mkMachine x (len (code bytecode)) o))); [lia|].
  intros m a x. em_step; [apply Hi|]. destruct a0 as [o x']. apply em_ret. cbn in *. rewrite H. lia.
Qed.

(** Code that begins by making sure there is room for a result. *)
Lemma stacks_stdfun0 impl : stacks 0 1 (stdfun0 (Net := Net) impl).
Proof.
  intros m vm n Hn. subst n. pose proof (len_nonneg (stack (m_state m))) as H0.
  unfold stdfun0, sbind, Stack.ensure_one. unfold Stack.STACK_SIZE in *.
  split; [lia|]. destruct (Z.geb_spec (len (stack (m_state m))) 1024) as [Hge|Hlt]; cbn.
  - split; [done|]. done.
  - split; [lia|]. intros m' vm' H. split; [lia|].
    destruct (impl (m_state m) vm) as [[v|e|] vm2]; try discriminate H. injection H as <- <-.
    cbn [next m_state]. rewrite len_push. lia.
Qed.

(** Pushing a value that needs no other state. *)
Lemma stacks_push (f : Machine -> EM Machine) (v : Machine -> Z) (pc : Machine -> Z) :
  (forall m vm, f m vm = (let& s := slift (Stack.push (v m) (stack (m_state m))) in
    sret (mkMachine (set_stack s (m_state m)) (pc m) (m_output m))) vm) -> stacks 0 1 f.
Proof.
  intros Hf m vm n Hn. subst n. pose proof (len_nonneg (stack (m_state m))) as H0.
  rewrite Hf. unfold Stack.push, sbind, slift, Stack.STACK_SIZE in *.
  split; [lia|]. destruct (Z.geb_spec (len (stack (m_state m))) 1024) as [Hge|Hlt].
  - split; [done|]. done.
  - split; [lia|]. intros m' vm' [= <- <-]. split; [lia|]. cbn [stack set_stack m_state].
    unfold len in *. cbn [length]. lia.
Qed.

Lemma stacks_dup n : (1 <= n <= 16)%nat -> stacks n (S n) (stackop (Net := Net) (Stack.dup n)).
Proof.
  intros Hr m vm k Hk. subst k. unfold stackop, Stack.dup, sbind, slift. destruct n as [|n]; [lia|].
  unfold Stack.STACK_SIZE in *.
  destruct (Z.geb_spec (len (stack (m_state m))) 1024) as [Hge|Hlt].
  - split; [lia|]. split; [done|]. done.
  - destruct (stack (m_state m) !! n) as [v|] eqn:Hv.
    + apply lookup_lt_Some in Hv. split; [unfold len; lia|]. split; [lia|].
      intros m' vm' [= <- <-]. cbn [stack set_stack m_state next]. unfold len in *. cbn [length]. lia.
    + apply lookup_ge_None in Hv. split; [done|]. split; [unfold len in *; lia|]. done.
Qed.

Lemma stacks_swap n : (1 <= n <= 16)%nat -> stacks (S n) (S n) (stackop (Net := Net) (Stack.swap_top n)).
Proof.
  intros Hr m vm k Hk. subst k. unfold stackop, Stack.swap_top, sbind, slift.
  destruct (stack (m_state m) !! n) as [v|] eqn:Hv.
  - apply lookup_lt_Some in Hv. destruct (stack (m_state m) !! 0%nat) as [a|] eqn:Ha.
    + split; [unfold len; lia|]. split; [lia|]. intros m' vm' [= <- <-].
      cbn [stack set_stack m_state next]. unfold len in *. rewrite !length_insert. lia.
    + apply lookup_ge_None in Ha. lia.
  - apply lookup_ge_None in Hv. split; [by destruct (stack (m_state m) !! 0%nat)|].
    split; [unfold len in *; lia|]. by destruct (stack (m_state m) !! 0%nat).
Qed.

Lemma stacks_drop : stacks 1 0 (stackop (Net := Net) Stack.drop).
Proof.
  intros m vm k Hk. subst k. unfold stackop, Stack.drop, sbind, slift.
  unfold Stack.STACK_SIZE in *. revert Hk.
  destruct (stack (m_state m)) as [|v s]; unfold len; cbn [length]; intros Hk.
  - split; [done|]. split; [lia|]. done.
  - split; [lia|]. split; [lia|]. intros m' vm' [= <- <-].
    cbn [stack set_stack m_state next]. lia.
Qed.

(** ** The instructions *)

Definition check_depth (b : Z) : bool :=
  match opcode b with
  | Some (DUP n | SWAP n) => (1 <=? n)%nat && (n <=? 16)%nat
  | _ => true
  end.

Lemma check_depths : forallb check_depth (seqZ 0 256) = true.
Proof. vm_compute. reflexivity. Qed.

Lemma opcode_depth b op : is_byte b -> opcode b = Some op ->
  match op with DUP n | SWAP n => (1 <= n <= 16)%nat | _ => True end.
Proof.
  intros Hb Hop. pose proof check_depths as Hc. rewrite forallb_forall in Hc.
  specialize (Hc b). rewrite <- list_elem_of_In, elem_of_seqZ in Hc.
  specialize (Hc Hb). unfold check_depth in Hc. rewrite Hop in Hc.
  destruct op; try done; apply andb_true_iff in Hc as [H1 H2]; apply Nat.leb_le in H1, H2; done.
Qed.

(** The stack effect of an instruction's body, by cases on its arguments. *)
Ltac body_tac :=
  intros;
  repeat match goal with
  | |- context [arg1 _ _ ?l] => destruct l as [|? [|? ?]]; cbn [arg1]
  | |- context [arg2 _ _ ?l] => destruct l as [|? [|? [|? ?]]]; cbn [arg2]
  | |- context [arg3 _ _ ?l] => destruct l as [|? [|? [|? [|? ?]]]]; cbn [arg3]
  | |- context [arg4 _ _ ?l] => destruct l as [|? [|? [|? [|? [|? ?]]]]]; cbn [arg4]
  | |- context [arg6 _ _ ?l] => destruct l as [|? [|? [|? [|? [|? [|? [|? ?]]]]]]]; cbn [arg6]
  | |- context [arg7 _ _ ?l] => destruct l as [|? [|? [|? [|? [|? [|? [|? [|? ?]]]]]]]]; cbn [arg7]
  end;
  try (by apply gives_lift);
  lazymatch goal with
  | |- em _ _ _ (keep _ _) => apply gives_keep
  | |- em _ _ _ (proc _ _) => apply gives_proc
  | |- em _ _ _ (sret _) => by apply em_ret
  | |- em _ _ _ (raise _) => by apply em_fail
  | |- em _ _ _ (call_generic _ _ _ _ _ _ _ _ _ _ _ _) => apply gives_call_generic
  | |- em _ _ _ (create _ _ _ _ _ _) => apply gives_create
  | |- em _ _ _ (create2 _ _ _ _ _ _ _) => apply gives_create2
  | |- em _ _ _ (extcodecopy _ _ _ _ _ _ _) => apply gives_extcodecopy
  | |- em _ _ _ (slift (mload _ _)) => apply gives_mload
  | |- em _ _ _ (slift (keccak256 _ _ _ _)) => apply gives_keccak
  | |- em _ _ _ (slift (mstore ?x ?a ?b)) => apply gives_mem; intros x'; apply (mem_keeps x a b 0 x')
  | |- em _ _ _ (slift (mstore8 ?x ?a ?b)) => apply gives_mem; intros x'; apply (mem_keeps x a b 0 x')
  | |- em _ _ _ (slift (mcopy ?x ?a ?b ?c)) => apply gives_mem; intros x'; apply (mem_keeps x a b c x')
  | |- em _ _ _ (slift (calldatacopy ?x ?a ?b ?c)) =>
      apply gives_mem; intros x'; apply (mem_keeps x a b c x')
  | |- em _ _ _ (slift (codecopy ?x ?co ?a ?b ?c)) =>
      apply gives_mem; intros x'; apply (mem_keeps x a b c x')
  | |- em _ _ _ (slift (returndatacopy ?x ?a ?b ?c)) =>
      apply gives_mem; intros x'; apply (mem_keeps x a b c x')
  | |- _ => idtac
  end.

Lemma instruction_stacks op : match op with DUP n | SWAP n => (1 <= n <= 16)%nat | PUSH n => (n <= 32)%nat | _ => True end ->
  stacks (pops op) (pushes op) (instruction env ctx ext bytecode op).
Proof.
  intros Hop. destruct op; cbn [instruction pops pushes];
    lazymatch goal with
    | |- stacks _ _ (primop _ _) => apply stacks_primop; lia
    | |- stacks _ _ (stdfun _ _) => apply stacks_stdfun; [lia|body_tac]
    | |- stacks _ _ (stdfun0 _) => apply stacks_stdfun0
    | |- stacks _ _ (stdproc _ _) => apply stacks_stdproc; body_tac
    | |- stacks _ _ (jmp _ _) => apply stacks_jmp
    | |- stacks _ _ (exitop _ _ _) => apply stacks_exitop; body_tac
    | |- stacks _ _ (stackop (Stack.dup _)) => by apply stacks_dup
    | |- stacks _ _ (stackop (Stack.swap_top _)) => by apply stacks_swap
    | |- stacks _ _ (stackop _) => apply stacks_drop
    | |- _ => idtac
    end.
  - by apply (stacks_push _ m_pc (fun m => m_pc m + 1)).
  - apply (stacks_push _ (fun m => from_big_endian (take n
      (drop (Z.to_nat (m_pc m + 1)) (code bytecode) ++ replicate n 0)))
      (fun m => m_pc m + 1 + Z.of_nat n)).
    intros m vm. unfold pushop. cbv zeta. rewrite push_code_spec by done.
    unfold sbind, slift. by destruct (Stack.push _ _).
  - destruct args as [|a [|b topics]]; [by apply gives_lift..|]. apply gives_log.
  - skip. destruct a as [o mem]. by apply em_ret.
  - skip. destruct a as [o mem]. by apply em_ret.
  - skip. by apply em_ret.
Qed.

Lemma step_stacks m b op : is_byte b -> code bytecode !! Z.to_nat (m_pc m) = Some b ->
  opcode b = Some op ->
  step env ctx ext bytecode m = instruction env ctx ext bytecode op m /\
  stacks (pops op) (pushes op) (instruction env ctx ext bytecode op).
Proof.
  intros Hb Hc Hop. split; [unfold step; by rewrite Hc, Hop|]. apply instruction_stacks.
  pose proof (opcode_depth b op Hb Hop). destruct (opcode_len b op Hb Hop) as [_ ?]. by destruct op.
Qed.
End stack.

(** C16: the stack discipline of the interpreter, for each of its 256
    instructions and whatever the rest of the state: an undefined opcode, a
    stack with fewer items than the EVM's table says the instruction takes, or
    a result that would make it deeper than 1024, fail with their own exit
    codes before anything is changed; an instruction that succeeds had its
    operands and leaves the depth the table says. *)
Theorem evm_stack_discipline {BN : Bn} {BL : Blst} {Net : Type}
    (env : Env Net State SendParams IpldBlock) (ctx : Ctx) (ext : EvmExt Net) bytecode m vm b :
  code bytecode !! Z.to_nat (m_pc m) = Some b -> 0 <= b < 256 ->
  len (stack (m_state m)) <= Stack.STACK_SIZE ->
  match opcode b with
  | None => step env ctx ext bytecode m vm = (Err (err EVM_CONTRACT_UNDEFINED_INSTRUCTION), vm)
  | Some op =>
      let n := len (stack (m_state m)) in
      let n' := n - Z.of_nat (pops op) + Z.of_nat (pushes op) in
      (n < Z.of_nat (pops op) ->
        step env ctx ext bytecode m vm = (Err (err EVM_CONTRACT_STACK_UNDERFLOW), vm)) /\
      (Z.of_nat (pops op) <= n -> Stack.STACK_SIZE < n' ->
        step env ctx ext bytecode m vm = (Err (err EVM_CONTRACT_STACK_OVERFLOW), vm)) /\
      (forall m' vm', step env ctx ext bytecode m vm = (Ok m', vm') ->
        Z.of_nat (pops op) <= n /\ len (stack (m_state m')) = n')
  end.
Proof.
  intros Hc Hb Hn. destruct (opcode b) as [op|] eqn:Hop.
  - destruct (step_stacks env ctx ext bytecode m b op Hb Hc Hop) as [-> Hs]. by apply Hs.
  - unfold step. by rewrite Hc, Hop.
Qed.

(** ** Memory *)

Lemma region_total mem off size : mem_ok mem -> 0 <= off -> 0 < size -> off + size <= 2 ^ 32 - 32 ->
  exists mem', get_memory_region mem off size = Ok (Some (mkRegion off size), mem').
Proof.
  intros Hm Ho Hs Hle. unfold get_memory_region, U256.try_into_u32.
  rewrite (proj2 (Z.ltb_lt size _)), (proj2 (Z.eqb_neq size 0)), (proj2 (Z.ltb_lt off _)),
    (proj2 (Z.ltb_lt (off + size) _)) by lia.
  destruct (grow_total mem (off + size) Hle) as [mem' ->]. by exists mem'.
Qed.

Lemma region_again mem off size : 0 <= off -> 0 < size -> off + size <= len mem -> len mem < 2 ^ 32 ->
  get_memory_region mem off size = Ok (Some (mkRegion off size), mem).
Proof.
  intros Ho Hs Hle Hl. unfold get_memory_region, U256.try_into_u32, grow.
  rewrite (proj2 (Z.ltb_lt size _)), (proj2 (Z.eqb_neq size 0)), (proj2 (Z.ltb_lt off _)),
    (proj2 (Z.ltb_lt (off + size) _)), (proj2 (Z.leb_le _ _)) by lia. done.
Qed.

Lemma slice_write mem a data mem' : 0 <= a -> write_slice mem a data = Ok mem' ->
  slice mem' a (a + len data) = Ok data.
Proof.
  unfold write_slice. intros Ha H. destruct (_ && _) eqn:E; [|discriminate H]. apply Ok_inj in H as <-.
  apply andb_true_iff in E as [_ E]. bool_prop. pose proof (len_nonneg data) as H0.
  assert (length (take (Z.to_nat a) mem) = Z.to_nat a) as Hl
    by (rewrite length_take; unfold len in *; lia).
  rewrite slice_ok; [|lia|lia|].
  - rewrite drop_app_length' by done. rewrite take_app_length' by (unfold len; lia). done.
  - rewrite !len_app. unfold len in *. rewrite Hl, length_drop. lia.
Qed.

Lemma mstore_total x i v : mem_ok (memory x) -> word i -> word v -> i + 32 <= 2 ^ 32 - 32 ->
  exists x', mstore x i v = Ok x' /\ mload x' i = Ok (v, x') /\
    msize x' = Z.max (msize x) (32 * ((i + 63) / 32)) /\
    forall j, 0 <= j -> j < i \/ i + 32 <= j -> mget (memory x') j = mget (memory x) j.
Proof.
  intros Hm [Hi _] Hv Hle. unfold mstore, EVM_WORD_SIZE.
  destruct (region_total (memory x) i 32 Hm Hi ltac:(lia) Hle) as [mem Hr]. rewrite Hr. cbn [expect rbind r_offset].
  destruct (region_ok (memory x) i 32 _ _ Hm Hi ltac:(lia) Hr) as ((_ & _ & Hlt) & Hget & _ & Hend & Hlen).
  pose proof (to_big_endian_len v) as Hbl.
  rewrite write_slice_ok by (rewrite ?Hbl; lia).
  set (mem2 := _ ++ _). assert (write_slice mem i (to_big_endian v) = Ok mem2) as Hw
    by (apply write_slice_ok; rewrite ?Hbl; lia).
  exists (set_memory mem2 x). split; [done|]. pose proof (write_slice_len _ _ _ _ Hw) as Hl2.
  split; [|split].
  - unfold mload, EVM_WORD_SIZE. cbn [memory set_memory]. rewrite region_again by lia.
    cbn [expect rbind r_offset r_size]. rewrite <- Hbl at 1. rewrite (slice_write _ _ _ _ Hi Hw).
    cbn [rbind]. by rewrite from_to_big_endian.
  - unfold msize. cbn [memory set_memory]. rewrite Hl2, Hlen. f_equal. f_equal. f_equal. lia.
  - intros j Hj Hout. cbn [memory set_memory]. rewrite (write_slice_mget _ _ _ _ j Hj Hw), Hbl.
    rewrite <- (Hget j Hj). destruct (Z.leb_spec i j), (Z.ltb_spec j (i + 32)); cbn [andb]; done || lia.
Qed.

Lemma mstore_out x i v : mem_ok (memory x) -> word i -> 2 ^ 32 <= i + 32 ->
  mstore x i v = fail EVM_CONTRACT_ILLEGAL_MEMORY_ACCESS /\
  mload x i = fail EVM_CONTRACT_ILLEGAL_MEMORY_ACCESS.
Proof.
  intros Hm [Hi _] Hle. assert (get_memory_region (memory x) i EVM_WORD_SIZE =
    fail EVM_CONTRACT_ILLEGAL_MEMORY_ACCESS) as Hr.
  { unfold get_memory_region, U256.try_into_u32, EVM_WORD_SIZE. change (32 <? 2 ^ 32) with true. change (32 =? 0) with false.
    cbv iota.
    destruct (i <? 2 ^ 32); [|done]. by rewrite (proj2 (Z.ltb_ge (i + 32) _)). }
  unfold mstore, mload. by rewrite Hr.
Qed.

(** C28: the memory of the interpreter is the EVM's byte array.  A word stored
    below the limit is loaded back and every other byte is kept; the memory
    grows to the whole number of words that covers the access; an access that
    does not end below 4 GiB fails with the exit code for illegal accesses.
    MCOPY moves what the source held even when the ranges overlap, and
    CALLDATACOPY reads zeros past the end of the input. *)
Theorem evm_memory_spec x i v : mem_ok (memory x) -> buffer (input_data x) -> word i -> word v ->
  (i + 32 <= 2 ^ 32 - 32 -> exists x', mstore x i v = Ok x' /\ mload x' i = Ok (v, x') /\
    msize x' = Z.max (msize x) (32 * ((i + 63) / 32)) /\
    forall j, 0 <= j -> j < i \/ i + 32 <= j -> mget (memory x') j = mget (memory x) j) /\
  (2 ^ 32 <= i + 32 -> mstore x i v = fail EVM_CONTRACT_ILLEGAL_MEMORY_ACCESS /\
    mload x i = fail EVM_CONTRACT_ILLEGAL_MEMORY_ACCESS) /\
  (forall s n x', word s -> word n -> mcopy x i s n = Ok x' -> forall j, 0 <= j ->
    mget (memory x') j =
      if (i <=? j) && (j <? i + n) then mget (memory x) (s + (j - i)) else mget (memory x) j) /\
  (forall s n x', word s -> word n -> calldatacopy x i s n = Ok x' -> forall j, 0 <= j ->
    mget (memory x') j =
      if (i <=? j) && (j <? i + n) then mget (input_data x) (s + (j - i)) else mget (memory x) j).
Proof.
  intros Hm [Hb Hl] Hi Hv. refine (conj _ (conj _ (conj _ _))).
  - by apply mstore_total.
  - by apply mstore_out.
  - intros s n x' Hs Hn H j Hj. unfold mcopy in H. destruct (n >? 0) eqn:E; bool_prop.
    + apply rbind_ok in H as (m & Hc & H). apply Ok_inj in H as <-. cbn [memory set_memory].
      by apply (copy_within_ok (memory x) i s n m Hm Hi Hs Hn E Hc).
    + apply Ok_inj in H as <-. destruct (Z.leb_spec i j), (Z.ltb_spec j (i + n)); cbn [andb]; done || lia.
  - intros s n x' Hs Hn H j Hj. apply rbind_ok in H as (m & Hc & H). apply Ok_inj in H as <-.
    cbn [memory set_memory].
    destruct (copy_to_memory_ok (memory x) i n s (input_data x) true m Hm Hb Hl Hi Hn Hs Hc) as [_ Hg].
    rewrite (Hg j Hj). cbn [orb]. by rewrite andb_true_r.
Qed.
