(* ===== verification/EvmReadonly.v ===== *)
(** * Read-only execution of a contract

    In a read-only call (the target of a STATICCALL, a dead contract) no
    instruction changes the contract or moves its funds. *)

From S2P Require Import Prelude Runtime EvmWord EvmMachine EvmSystem EvmReader EvmBls EvmPrecompiles EvmInterp EvmProofs EvmStep.

Section frozen.
Context {BN : Bn} {BL : Blst}.
Context {Net : Type} (env : Env Net State SendParams IpldBlock) (ctx : Ctx) (ext : EvmExt Net).
Context (bytecode : Bytecode).

(** What the kernel does in a read-only call: no callee changes this actor's
    state, not even by calling it back, nor its balance: a message with a value
    is refused and other actors have nothing to spend here. *)
Definition env_read_only : Prop :=
  forall req net s b,
    so_state (env_send env req net s b) = s /\ so_balance (env_send env req net s b) = b.

Context (Hro : env_read_only) (s0 : System) (w0 : World Net State SendParams).
(** Whether messages with a value may be tried. *)
Context (paying : bool).

Notation VM := (Vm Net).
Notation EM := (St VM (ActorError IpldBlock)).

Definition unpaid (req : SendReq SendParams) : Prop := paying = false -> send_value req <= 0.

(** The contract as it was, except for the randomness drawn in this call, and
    the messages sent since. *)
Definition frozen (vm : VM) : Prop :=
  readonly (vm_sys vm) = true /\ set_randomness None (vm_sys vm) = set_randomness None s0 /\
  w_state (vm_world vm) = w_state w0 /\ w_balance (vm_world vm) = w_balance w0 /\
  exists l, w_sent (vm_world vm) = w_sent w0 ++ l /\ Forall unpaid l.

Definition any {A} (_ : A) : Prop := True.

Notation froze := (em frozen any any).

Lemma f_lift {E A} (r : Res E A) : em frozen any any (slift r).
Proof. by apply em_lift. Qed.

Lemma f_get_sys : em frozen any (fun s => readonly s = true) get_sys.
Proof. intros vm Hvm. split; [done|]. apply Hvm. Qed.

Lemma f_read {A} (m : M Net State SendParams IpldBlock A) :
  (forall w, exists a, m w = Ok (a, w)) -> froze (rt m).
Proof.
  intros Hm vm Hvm. unfold rt. destruct (Hm (vm_world vm)) as [a ->]. by split; [destruct vm|].
Qed.

Lemma f_send req : unpaid req -> froze (rt (send env req)).
Proof.
  intros Hreq vm (Hr & Hs & Hw & Hb & l & Hl & Hq). unfold rt, send. cbn. split; [|done].
  destruct (Hro req (w_net (vm_world vm)) (w_state (vm_world vm)) (w_balance (vm_world vm))) as (E1 & E2).
  split; [done|]. split; [done|]. cbn. rewrite E1, E2, Hl. split; [done|]. split; [done|].
  exists (l ++ [req]). rewrite app_assoc, Forall_app. by repeat constructor.
Qed.

Lemma f_gas : froze (gas_available ext).
Proof. intros vm Hvm. done. Qed.

(** Nothing is saved in a read-only call. *)
Lemma f_flush : froze (flush ext).
Proof.
  unfold flush. eapply em_bind; [apply f_get_sys|]. intros s Hs. cbn beta in Hs.
  destruct (saved_state_root s); [by apply em_ret|]. rewrite Hs. by apply em_fail.
Qed.

Lemma f_reload : froze reload.
Proof.
  unfold reload. eapply em_bind; [apply f_get_sys|]. intros s Hs. cbn beta in Hs. rewrite Hs.
  by apply em_ret.
Qed.

Lemma f_get_randomness : froze (get_randomness env ctx ext).
Proof.
  intros vm Hvm. unfold get_randomness, sbind at 1. cbn. destruct (randomness (vm_sys vm)); [done|].
  unfold sbind, slift. destruct (get_randomness_from_beacon _ _ _ _ _) as [r|e|]; done.
Qed.

Lemma f_bind {E A B} (m : St VM E A) (f : A -> St VM E B) :
  em frozen any any m -> (forall a, em frozen any any (f a)) -> em frozen any any (sbind m f).
Proof. intros Hm Hf. eapply em_bind; [exact Hm|]. intros a _. apply Hf. Qed.

Lemma f_catch {E A} (m : St VM E A) : em frozen any any m -> em frozen (@any E) any (scatch m).
Proof. intros Hm. eapply em_mono; [by apply em_catch|done]. Qed.

Lemma f_vm_error {A} (m : EM A) : froze m -> em frozen (@any PrecompileError) any (vm_error m).
Proof.
  intros Hm vm Hvm. unfold vm_error. destruct (Hm vm Hvm) as [HI _].
  by destruct (m vm) as [[a|e|] vm'].
Qed.

(** A message without value, or with the value the context speaks of. *)
Ltac unpaid := intros ?; cbn; solve [lia | auto].

(** Proves that code made of operations that keep the contract keeps it. *)
Ltac fz_with f_send_raw f_sys_send :=
  repeat (cbv beta zeta; lazymatch goal with
  | |- em _ _ _ (sbind _ _) => apply f_bind; [|intros ?]
  | |- em _ _ _ (sret _) => by apply em_ret
  | |- em _ _ _ (sfail _) => by apply em_fail
  | |- em _ _ _ (raise _) => by apply em_fail
  | |- em _ _ _ (slift _) => apply f_lift
  | |- em _ _ _ (scatch _) => apply f_catch
  | |- em _ _ _ (vm_error _) => apply f_vm_error
  | |- em _ _ _ (rt (send _ _)) => apply f_send; unpaid
  | |- em _ _ _ (send_raw _ _ _ _ _ _ _ _) => apply f_send_raw; unpaid
  | |- em _ _ _ (sys_send _ _ _ _ _ _ _ _) => apply f_sys_send; unpaid
  | |- em _ _ _ (rt _) => apply f_read; intros ?; by eexists
  | |- em _ _ _ get_sys => eapply em_mono; [apply f_get_sys|done]
  | |- em _ _ _ (gas_available _) => apply f_gas
  | |- em _ _ _ (flush _) => apply f_flush
  | |- em _ _ _ reload => apply f_reload
  | |- em _ _ _ (match ?b with _ => _ end) => destruct b
  | |- em _ _ _ _ => solve [eauto with frozen nocore]
  end).

Create HintDb frozen discriminated.
#[local] Hint Constants Opaque : frozen.

Lemma f_send_raw to me pa v g ro : (paying = false -> v <= 0) -> froze (send_raw env ext to me pa v g ro).
Proof. intros Hv. unfold send_raw. fz_with f_send f_send. Qed.

Lemma f_sys_send to me pa v g ro : (paying = false -> v <= 0) -> froze (sys_send env ext to me pa v g ro).
Proof. intros Hv. unfold sys_send. fz_with f_send_raw f_send. Qed.

Ltac fz := fz_with f_send_raw f_sys_send.

Lemma f_transfer to v : (paying = false -> v <= 0) -> froze (transfer env to v).
Proof. intros Hv. unfold transfer. fz. Qed.

Lemma f_call_gas_limit g : froze (call_gas_limit ext g).
Proof. unfold call_gas_limit, gas_reserve. fz. Qed.

Lemma f_resolve_eth a : froze (resolve_ethereum_address env ext a).
Proof. unfold resolve_ethereum_address. fz. Qed.

#[local] Hint Resolve f_call_gas_limit f_resolve_eth f_get_randomness : frozen.

(** Only a delegate call reaches the message of this precompile. *)
Definition may_pay (k : CallKind) : Prop := k = DelegateCall -> paying = true.

Lemma f_call_actor by_id input c : may_pay (call_type c) ->
  em frozen any any (call_actor_shared env ext by_id input c).
Proof.
  intros Hk. unfold call_actor_shared. case_bool_decide as Hc; cbn [negb]; [|by apply em_fail].
  apply Hk in Hc as Hp. assert (forall v, paying = false -> v <= 0) by (intros ? ?; congruence). fz.
Qed.

Lemma f_contract_type a : froze (get_contract_type env ext a).
Proof. unfold get_contract_type. fz. Qed.

#[local] Hint Resolve f_contract_type : frozen.

(** ** Precompiles *)

Lemma f_tables : Forall (opt_ok (fun f => forall i c, may_pay (call_type c) -> em frozen any any (f i c))) (NATIVE_PRECOMPILES env ext) /\
  Forall (opt_ok (fun f => forall i c, may_pay (call_type c) -> em frozen any any (f i c))) (EVM_PRECOMPILES ext).
Proof.
  split; unfold NATIVE_PRECOMPILES, EVM_PRECOMPILES; rewrite ?Forall_cons; cbn [opt_ok];
    repeat apply conj; try exact (Forall_nil_2 _); try exact Logic.I; intros i c Hc;
    try apply f_lift; try (by apply f_call_actor);
    unfold p_resolve_address, p_lookup_delegated_address, p_get_randomness; fz.
Qed.

Lemma f_lookup (l : list (option (list Z -> PrecompileContext -> St VM PrecompileError (list Z)))) n f i c :
  Forall (opt_ok (fun f => forall i c, may_pay (call_type c) -> em frozen any any (f i c))) l -> mjoin (l !! n) = Some f ->
  may_pay (call_type c) -> em frozen any any (f i c).
Proof.
  intros Hl H Hc. destruct (l !! n) as [[g|]|] eqn:E; try discriminate H. injection H as ->.
  eapply Forall_lookup_1 in Hl; [|exact E]. by apply Hl.
Qed.

Lemma f_call_precompile a i c : may_pay (call_type c) -> (paying = false -> pc_value c <= 0) ->
  em frozen any any (call_precompile env ext a i c).
Proof.
  intros Hc Hv. unfold call_precompile. apply f_bind; [|intros ?; fz; by apply f_transfer].
  destruct (lookup_precompile env ext a) as [f|] eqn:E; [|by apply em_ret].
  unfold lookup_precompile in E. destruct f_tables as [Hn He].
  destruct (is_reserved_precompile_address a); [|discriminate E].
  destruct a as [|prefix rest]; [discriminate E|].
  destruct (prefix =? _); [by apply (f_lookup _ _ _ _ _ Hn E Hc)|].
  destruct (prefix =? _); [by apply (f_lookup _ _ _ _ _ He E Hc)|discriminate E].
Qed.

(** ** Instructions *)

(** Code that a read-only call refuses: it never returns. *)
Lemma f_refuse {A} c (f : System -> EM A) :
  em frozen any (fun _ => False) (let& s := get_sys in if readonly s then raise c else f s).
Proof.
  eapply em_bind; [apply f_get_sys|]. intros s Hs. cbn beta in Hs. rewrite Hs. by apply em_fail.
Qed.

Lemma f_call_generic x k g dst v io isz oo os : may_pay k ->
  froze (call_generic env ctx ext x k g dst v io isz oo os).
Proof.
  intros Hk. unfold call_generic. eapply em_bind; [apply f_get_sys|intros s Hs]. cbn beta in Hs. rewrite Hs.
  destruct (Z.gtb_spec v 0) as [|Hv]; cbn [andb]; [by apply em_fail|].
  assert (paying = false -> v <= 0) by done.
  apply f_bind; [fz|intros [r m]]. apply f_bind; [fz|intros input]. cbv zeta.
  apply f_bind; [|intros [c d]; fz]. destruct (is_reserved_precompile_address _).
  - apply f_bind; [|intros ?; fz]. intros vm Hvm.
    destruct (f_call_precompile (Eth.from_word dst) input (mkPctx k g v) Hk ltac:(done) vm Hvm) as [HI _].
    by destruct (call_precompile _ _ _ _ _ vm) as [[?|?|] ?].
  - unfold call_send, call_delegate, get_evm_bytecode_cid. fz.
Qed.

(** A call with a value never returns. *)
Lemma f_call_value x k g dst v io isz oo os : 0 < v ->
  em frozen any (fun _ => False) (call_generic env ctx ext x k g dst v io isz oo os).
Proof.
  intros Hv. unfold call_generic. eapply em_bind; [apply f_get_sys|intros s Hs]. cbn beta in Hs. rewrite Hs.
  destruct (Z.gtb_spec v 0); [by apply em_fail|lia].
Qed.

(** The instructions that change the state of a contract, its balance or the
    events of the message, by the operands on the stack. *)
Definition mutating (op : Op) (operands : list Z) : bool :=
  match op with
  | SSTORE | TSTORE | LOG _ | CREATE | CREATE2 | SELFDESTRUCT => true
  | CALL => match operands with _ :: _ :: value :: _ => 0 <? value | _ => false end
  | _ => false
  end.

(** Code with arguments that never returns. *)
Lemma f_never {A} (m : EM A) : em frozen any (fun _ => False) m -> froze m.
Proof. intros Hm. by eapply em_mono. Qed.

Lemma f_never_bind {A B} (m : EM A) (f : A -> EM B) :
  em frozen any (fun _ => False) m -> em frozen any (fun _ => False) (sbind m f).
Proof. intros Hm. eapply em_bind; [exact Hm|]. done. Qed.

Lemma f_then {A B} (m : EM A) (f : A -> EM B) :
  froze m -> (forall a, em frozen any (fun _ => False) (f a)) -> em frozen any (fun _ => False) (sbind m f).
Proof. intros Hm Hf. eapply em_bind; [exact Hm|]. intros a _. apply Hf. Qed.

Lemma f_panic {A} : em frozen any (fun _ : A => False) (slift Panic : EM A).
Proof. by apply em_lift. Qed.

Lemma f_arg1 {A} l f : (forall a, em frozen any (fun _ => False) (f a)) ->
  em frozen any (fun _ => False) (arg1 (slift Panic) f l : EM A).
Proof. intros H. destruct l as [|? [|? ?]]; try apply f_panic. apply H. Qed.

Lemma f_arg2 {A} l f : (forall a b, em frozen any (fun _ => False) (f a b)) ->
  em frozen any (fun _ => False) (arg2 (slift Panic) f l : EM A).
Proof. intros H. destruct l as [|? [|? [|? ?]]]; try apply f_panic. apply H. Qed.

Lemma f_arg3 {A} l f : (forall a b c, em frozen any (fun _ => False) (f a b c)) ->
  em frozen any (fun _ => False) (arg3 (slift Panic) f l : EM A).
Proof. intros H. destruct l as [|? [|? [|? [|? ?]]]]; try apply f_panic. apply H. Qed.

Lemma f_arg4 {A} l f : (forall a b c d, em frozen any (fun _ => False) (f a b c d)) ->
  em frozen any (fun _ => False) (arg4 (slift Panic) f l : EM A).
Proof. intros H. destruct l as [|? [|? [|? [|? [|? ?]]]]]; try apply f_panic. apply H. Qed.

Lemma f_arg7 {A} l v f : l !! 2%nat = Some v ->
  (forall a b c d e g, em frozen any (fun _ => False) (f a b v c d e g)) ->
  em frozen any (fun _ => False) (arg7 (slift Panic) f l : EM A).
Proof.
  intros Hv H. destruct l as [|? [|? [|? [|? [|? [|? [|? [|? ?]]]]]]]]; try apply f_panic.
  injection Hv as ->. apply H.
Qed.

Lemma pop_many_lookup n l args rest i : Stack.pop_many n l = Ok (args, rest) -> (i < n)%nat ->
  args !! i = l !! i.
Proof.
  unfold Stack.pop_many. intros H Hi. destruct (_ <? _); [discriminate H|]. injection H as <- <-.
  by rewrite lookup_take_lt.
Qed.

Lemma f_call m : mutating CALL (stack (m_state m)) = true ->
  em frozen any (fun _ => False) (instruction env ctx ext bytecode CALL m).
Proof.
  intros Hop. destruct (stack (m_state m)) as [|g [|d [|v t]]] eqn:Es; try discriminate Hop.
  cbn in Hop. bool_prop. cbn [instruction]. unfold stdfun, pop_args. rewrite Es.
  eapply (em_bind _ _ (fun r => fst r !! 2%nat = Some v)).
  - eapply (em_bind _ _ (fun r => fst r !! 2%nat = Some v)); [|by intros [args rest] ?; apply em_ret].
    apply em_lift; [|done]. intros [args rest] Hp. by apply (pop_many_lookup _ _ _ _ 2) in Hp; [|lia].
  - intros [args x] Hargs. apply f_never_bind. eapply f_arg7; [exact Hargs|]. intros. by apply f_call_value.
Qed.

Lemma f_mutating op m : mutating op (stack (m_state m)) = true ->
  em frozen any (fun _ => False) (instruction env ctx ext bytecode op m).
Proof.
  intros Hop. destruct op; try (by apply f_call); try discriminate Hop; cbn [instruction];
    unfold stdfun, stdproc, exitop, pop_args;
    (apply f_then; [fz|intros [args x]]); apply f_never_bind.
  - apply f_arg2. intros a b. unfold proc. apply f_never_bind, f_refuse.
  - apply f_arg2. intros a b. unfold proc. apply f_never_bind, f_refuse.
  - destruct args as [|a [|b t]]; try apply f_panic. apply f_refuse.
  - apply f_arg3. intros a b c. apply f_refuse.
  - apply f_arg4. intros a b c d. apply f_refuse.
  - apply f_arg1. intros a. apply f_never_bind, f_refuse.
Qed.

(** The rest of the instructions keeps the contract; only DELEGATECALL reaches a
    precompile that sends a message with a value. *)
Lemma f_instruction op m : (op = DELEGATECALL -> paying = true) -> froze (instruction env ctx ext bytecode op m).
Proof.
  intros Hpay. destruct (mutating op (stack (m_state m))) eqn:Hop; [by apply f_never, f_mutating|].
  destruct op; try discriminate Hop; cbn [instruction];
    unfold primop, stackop, pushop, stdfun, stdfun0, stdproc, jmp, exitop, special, pop_args, keep, proc,
      arg1, arg2, arg3, arg4, arg6, arg7, balance, selfbalance, blockhash, origin, gas_price, gas,
      block_number, prevrandao, base_fee, sload, tload, get_storage, get_transient_storage, extcodesize,
      extcodehash, extcodecopy, get_evm_bytecode, get_evm_bytecode_cid; fz;
    apply f_call_generic; intros ?; (discriminate || by apply Hpay).
Qed.

Lemma f_step m : (forall b, code bytecode !! Z.to_nat (m_pc m) = Some b -> opcode b = Some DELEGATECALL -> paying = true) ->
  froze (step env ctx ext bytecode m).
Proof.
  intros Hpay. unfold step. destruct (code bytecode !! Z.to_nat (m_pc m)) as [b|]; [|fz].
  destruct (opcode b) as [op|] eqn:Eop; [|fz]. apply f_instruction. intros ->. by eapply Hpay.
Qed.

Lemma f_run m0 vm0 m vm : paying = true -> frozen vm0 -> run env ctx ext bytecode m0 vm0 m vm -> frozen vm.
Proof.
  intros Hpay Hvm. induction 1 as [|m vm m' vm' _ IH _ Hs]; [done|].
  exact (proj2 (em_run _ _ _ _ _ _ _ (f_step m (fun _ _ _ => Hpay)) IH Hs)).
Qed.

Lemma f_mutating_step m vm op b : frozen vm -> code bytecode !! Z.to_nat (m_pc m) = Some b ->
  opcode b = Some op -> mutating op (stack (m_state m)) = true ->
  match fst (step env ctx ext bytecode m vm) with Ok _ => False | _ => True end.
Proof.
  intros Hvm Hb Hop Hmut. unfold step. rewrite Hb, Hop.
  destruct (f_mutating op m Hmut vm Hvm) as [_ Hr]. by destruct (fst _).
Qed.
End frozen.

(** A world is as it is, with nothing sent since. *)
Lemma frozen_here {Net} paying (vm : Vm Net) : readonly (vm_sys vm) = true ->
  frozen (vm_sys vm) (vm_world vm) paying vm.
Proof. intros H. repeat (split; [done|]). exists []. by rewrite app_nil_r. Qed.

