(* ===== verification/EvmCache.v ===== *)
(** * The storage cache of a contract refines a write-through store

    [System] (src/actors/evm/src/interpreter/system.rs) keeps a contract's
    slots, transient slots and nonce in memory, writes them to the state tree
    only before another actor is called, and reads them back only when the
    call succeeded and changed the state.  The specification has one copy of
    the state, which every write updates at once. *)

From S2P Require Import Prelude Runtime EvmWord EvmMachine EvmSystem.

(** ** Specification: a contract without a cache *)

(** What contract code does to its system. *)
Inductive SysOp : Type :=
| OGet (key : Z)
| OSet (key value : Z)
| OTGet (key : Z)
| OTSet (key value : Z)
| ONonce
| OSend (to : Address) (method : Z) (params : option IpldBlock) (value : Z) (gas_limit : option Z)
    (read_only : bool).

(** What it observes. *)
Inductive SysOut : Type :=
| OutUnit
| OutWord (w : Z)
| OutSent (r : Response IpldBlock + ErrorNumber).

(** Transient data as it is stored: none when there are no slots. *)
Definition stored_transient (life : TransientDataLifespan) (slots : gmap Z Z) : option TransientData :=
  if bool_decide (slots = ∅) then None else Some (mkTransient slots life).

(** A state written by the message of [life]: stale transient data is gone. *)
Definition written (life : TransientDataLifespan) (slots tslots : gmap Z Z) (nonce : Z) (s : State)
  : State :=
  mkState (st_bytecode s) (st_bytecode_hash s) slots (stored_transient life tslots) nonce
    (st_tombstone s).

Section cache.
Context {Net : Type} (env : Env Net State SendParams IpldBlock) (ext : EvmExt Net).
Context (life : TransientDataLifespan).

Notation W := (World Net State SendParams).
Notation VM := (Vm Net).
Notation EM := (St VM (ActorError IpldBlock)).

(** One operation on the state in the tree; [None] is a panic. *)
Definition spec_op (op : SysOp) (s : State) (w : W) : option (SysOut * W) :=
  let tslots := live_transient life s in
  match op with
  | OGet k => Some (OutWord (default 0 (contract_state s !! k)), w)
  | OSet k v =>
      Some (OutUnit,
        let slots := fst (update_slot (contract_state s) k v) in
        if bool_decide (slots = contract_state s) then w
        else set_state (written life slots tslots (st_nonce s) s) w)
  | OTGet k => Some (OutWord (default 0 (tslots !! k)), w)
  | OTSet k v =>
      Some (OutUnit,
        let tslots' := fst (update_slot tslots k v) in
        if bool_decide (tslots' = tslots) then w
        else set_state (written life (contract_state s) tslots' (st_nonce s) s) w)
  | ONonce =>
      if in_u64 (st_nonce s + 1)
      then Some (OutUnit, set_state (written life (contract_state s) tslots (st_nonce s + 1) s) w)
      else None
  | OSend to method params value gas ro =>
      match send env (mkSend to method (mkParams params gas) value ro) w with
      | Ok (r, w) => Some (OutSent r, w)
      | _ => None
      end
  end.

Fixpoint spec_ops (ops : list SysOp) (w : W) : option (list SysOut * W) :=
  match ops with
  | [] => Some ([], w)
  | op :: ops =>
      match w_state w with
      | None => None
      | Some s =>
          match spec_op op s w with
          | None => None
          | Some (o, w) =>
              match spec_ops ops w with
              | None => None
              | Some (os, w) => Some (o :: os, w)
              end
          end
      end
  end.

(** ** The code *)

Definition sys_op (op : SysOp) : EM SysOut :=
  match op with
  | OGet k => let& v := get_storage k in sret (OutWord v)
  | OSet k v => let& _ := set_storage k v in sret OutUnit
  | OTGet k => let& v := get_transient_storage k in sret (OutWord v)
  | OTSet k v => let& _ := set_transient_storage k v in sret OutUnit
  | ONonce => let& _ := increment_nonce in sret OutUnit
  | OSend to method params value gas ro =>
      let& r := send_raw env ext to method params value gas ro in sret (OutSent r)
  end.

Fixpoint sys_ops (ops : list SysOp) : EM (list SysOut) :=
  match ops with
  | [] => sret []
  | op :: ops => let& o := sys_op op in let& os := sys_ops ops in sret (o :: os)
  end.

(** ** The simulation *)

(** What the kernel does with an actor's state in a call: a call that fails
    changes nothing, one that succeeds leaves a state. *)
Definition env_atomic : Prop := forall req net s b,
  match so_result (env_send env req net (Some s) b) with
  | inl r => if is_success (resp_code r) then is_Some (so_state (env_send env req net (Some s) b))
             else so_state (env_send env req net (Some s) b) = Some s
  | inr _ => so_state (env_send env req net (Some s) b) = Some s
  end.

(** A cache loaded from a state. *)
Definition caches (s : System) (st : State) : Prop :=
  sys_bytecode s = Some (mkEvmBytecode (st_bytecode st) (st_bytecode_hash st)) /\
  sys_slots s = contract_state st /\ sys_transient_slots s = live_transient life st /\
  sys_nonce s = st_nonce st /\ sys_tombstone s = st_tombstone st.

(** The cached system and the store agree: the system caches the store's
    state, and if it was saved it is in the tree. *)
Definition agree (vm : VM) (w : W) : Prop :=
  readonly (vm_sys vm) = false /\ sys_lifespan (vm_sys vm) = life /\
  exists st, w = set_state st (vm_world vm) /\ caches (vm_sys vm) st /\
    match saved_state_root (vm_sys vm) with
    | Some r => r = st /\ w_state (vm_world vm) = Some st
    | None => transient_data st = stored_transient life (live_transient life st)
    end.

Lemma live_stored st slots : transient_data st = stored_transient life slots ->
  live_transient life st = slots.
Proof.
  unfold live_transient, stored_transient. intros ->. case_bool_decide; [done|]. cbn.
  by rewrite bool_decide_true.
Qed.

Lemma update_slot_changed m k v :
  snd (update_slot m k v) = negb (bool_decide (fst (update_slot m k v) = m)).
Proof.
  unfold update_slot. destruct (v =? 0); cbn.
  - destruct (m !! k) as [x|] eqn:E.
    + rewrite bool_decide_true by eauto. rewrite bool_decide_false; [done|].
      intros H. rewrite <- H, lookup_delete_eq in E. discriminate E.
    + rewrite bool_decide_false by (intros [? [=]]). by rewrite bool_decide_true by by apply delete_id.
  - f_equal. apply bool_decide_ext. split; [apply insert_id|].
    intros <-. apply lookup_insert_eq.
Qed.

(** A write to the cache and to the store. *)
Lemma agree_write s w t st slots tslots nonce :
  agree (mkVm s w t) (set_state st w) -> caches s st ->
  let s' := mkSystem (sys_bytecode s) slots tslots (sys_lifespan s) nonce None (readonly s)
              (randomness s) (sys_tombstone s) in
  agree (mkVm s' w t) (set_state (written life slots tslots nonce st) w).
Proof.
  intros (Hr & Hl & _) (Hb & _ & _ & _ & Ht). split; [done|]. split; [done|].
  exists (written life slots tslots nonce st). cbn.
  pose proof (live_stored (written life slots tslots nonce st) tslots eq_refl) as Hlive.
  split; [done|]. split; [|by rewrite Hlive]. by repeat apply conj.
Qed.

(** Saving the cache puts the store's state in the tree. *)
Lemma agree_flush vm w : agree vm w ->
  exists vm', flush ext vm = (Ok tt, vm') /\ agree vm' w /\ vm_world vm' = w /\
    is_Some (saved_state_root (vm_sys vm')).
Proof.
  destruct vm as [s w' t]. intros (Hr & Hl & st & -> & Hc & Hs). cbn in *.
  unfold flush, sbind. cbn. destruct (saved_state_root s) as [r|] eqn:Es.
  - destruct Hs as [-> Hst]. exists (mkVm s w' t).
    assert (set_state st w' = w') as Hw by (destruct w'; cbn in *; by subst).
    split; [done|]. split; [|cbn; by rewrite Es, Hw]. split; [done|]. split; [done|].
    exists st. cbn. by rewrite Es.
  - rewrite Hr. destruct Hc as (Hb & Hsl & Ht & Hn & Hto). rewrite Hb. cbn.
    set (new := mkState _ _ _ _ _ _). assert (new = st) as ->.
    { unfold new. rewrite Hsl, Hn, Hto, Ht, Hl. fold (stored_transient life (live_transient life st)).
      rewrite <- Hs. by destruct st. }
    eexists. split; [done|]. split; [|by cbn]. split; [done|]. split; [done|].
    exists st. cbn. split; [by destruct w'|]. split; [|done]. by repeat apply conj.
Qed.

Lemma agree_send req vm w : env_atomic -> agree vm w -> vm_world vm = w ->
  exists r vm' w', rt (send env req) vm = (Ok r, vm') /\ send env req w = Ok (r, w') /\
    vm_world vm' = w' /\ vm_sys vm' = vm_sys vm /\
    match r with
    | inl r => if is_success (resp_code r) then is_Some (w_state w') else w_state w' = w_state w
    | inr _ => w_state w' = w_state w
    end.
Proof.
  intros Hat (_ & _ & st & Hw & _) Hvm. subst w. unfold rt, send. cbn.
  assert (w_state (vm_world vm) = Some st) as Hst by (by rewrite Hvm). rewrite Hst.
  eexists _, _, _. split; [done|]. split; [done|]. split; [done|]. split; [done|].
  apply Hat.
Qed.

(** Reading the state back after a call that succeeded. *)
Lemma agree_reload s w t st : readonly s = false -> sys_lifespan s = life ->
  is_Some (saved_state_root s) ->
  (forall r, saved_state_root s = Some r -> caches s r) -> w_state w = Some st ->
  exists vm', reload (mkVm s w t) = (Ok tt, vm') /\ agree vm' w.
Proof.
  intros Hr Hl [r Hsaved] Hc Hw. unfold reload, sbind. cbn. rewrite Hr. cbn. rewrite Hw, Hsaved. cbn.
  assert (set_state st w = w) as Hset by (destruct w; cbn in *; by subst).
  destruct (bool_decide (Some r = Some st)) eqn:E; cbn.
  - apply bool_decide_eq_true in E. injection E as ->. eexists. split; [done|].
    split; [done|]. split; [done|]. exists st. cbn. rewrite Hsaved. split; [done|]. by split; [apply Hc|].
  - eexists. split; [done|]. split; [done|]. split; [done|]. exists st. cbn. split; [done|].
    split; [|done]. unfold caches. cbn. by rewrite Hl.
Qed.

Lemma agree_caches vm w r : agree vm w -> saved_state_root (vm_sys vm) = Some r -> caches (vm_sys vm) r.
Proof. intros (_ & _ & st & _ & Hc & Hs) E. rewrite E in Hs. by destruct Hs as [-> _]. Qed.

(** The cache agrees with the store after a call. *)
Lemma sim_send vm w to me pa v g ro : env_atomic -> agree vm w ->
  exists r vm' w', send_raw env ext to me pa v g ro vm = (Ok r, vm') /\
    send env (mkSend to me (mkParams pa g) v ro) w = Ok (r, w') /\ agree vm' w'.
Proof.
  intros Hat Hag. destruct (agree_flush vm w Hag) as (vm1 & Hf & Ha1 & Hw1 & Hsv).
  destruct (agree_send (mkSend to me (mkParams pa g) v ro) vm1 w Hat Ha1 Hw1)
    as (r & vm2 & w2 & Hs & Hsp & Hw2 & Hsys & Hst).
  pose proof (fun q => agree_caches vm1 w q Ha1) as Hc.
  assert (agree vm2 w2 \/ (exists r', r = inl r' /\ is_success (resp_code r') = true)) as Hcase.
  { destruct r as [r'|]; [destruct (is_success (resp_code r')) eqn:E; [by right; eauto|]|]; left.
    all: destruct Ha1 as (H1 & H2 & st & -> & H3 & H4); destruct Hsv as [q Hq]; rewrite Hq in H4.
    all: split; [by rewrite Hsys|]; split; [by rewrite Hsys|]; exists st; rewrite Hsys, Hq, Hw2.
    all: destruct H4 as [-> H4]; cbn in Hst; split; [destruct w2; cbn in *; by subst|done]. }
  exists r. unfold send_raw, sbind. rewrite Hf, Hs. destruct r as [r'|].
  - destruct (is_success (resp_code r')) eqn:E.
    + destruct vm2 as [s2 w2' t2]. cbn [vm_sys vm_world] in *. subst w2' s2. destruct Hst as [st Hst].
      pose proof Ha1 as (H1 & H2 & _).
      destruct (agree_reload (vm_sys vm1) w2 t2 st H1 H2 Hsv Hc Hst) as (vm3 & Hre & Ha3).
      exists vm3, w2. by rewrite Hre.
    + destruct Hcase as [Ha2|(? & [= <-] & ?)]; [|congruence]. by exists vm2, w2.
  - destruct Hcase as [Ha2|(? & [=] & ?)]. by exists vm2, w2.
Qed.

Lemma sim_op op vm w s : env_atomic -> agree vm w -> w_state w = Some s ->
  match spec_op op s w with
  | Some (o, w') => exists vm', sys_op op vm = (Ok o, vm') /\ agree vm' w'
  | None => fst (sys_op op vm) = Panic
  end.
Proof.
  intros Hat Hag Hw. pose proof Hag as (Hr & Hl & st & -> & Hc & Hs). cbn in Hw. injection Hw as ->.
  destruct vm as [sy w t]. cbn in *. pose proof Hc as (Hb & Hsl & Ht & Hn & Hto).
  destruct op as [k|k v|k|k v| |to me pa v g ro]; cbn [spec_op sys_op].
  - exists (mkVm sy w t). unfold sbind, get_storage. cbn. by rewrite Hsl.
  - unfold sbind, set_storage. cbn. rewrite Hsl. pose proof (update_slot_changed (contract_state s) k v) as Hch.
    destruct (update_slot (contract_state s) k v) as [m c]. cbn in *. rewrite Hch.
    destruct (bool_decide (m = contract_state s)) eqn:E; cbn.
    + apply bool_decide_eq_true in E as ->. eexists. split; [done|]. rewrite <- Hsl. by destruct sy.
    + eexists. split; [done|]. rewrite <- Hn, <- Ht. exact (agree_write sy w t s _ _ _ Hag Hc).
  - exists (mkVm sy w t). unfold sbind, get_transient_storage. cbn. by rewrite Ht.
  - unfold sbind, set_transient_storage. cbn. rewrite Ht. set (ts := live_transient life s) in *.
    pose proof (update_slot_changed ts k v) as Hch.
    destruct (update_slot ts k v) as [m c]. cbn in *. rewrite Hch.
    destruct (bool_decide (m = ts)) eqn:E; cbn.
    + apply bool_decide_eq_true in E as ->. eexists. split; [done|]. rewrite <- Ht. by destruct sy.
    + eexists. split; [done|]. rewrite <- Hn, <- Hsl. exact (agree_write sy w t s _ _ _ Hag Hc).
  - unfold sbind, increment_nonce. cbn. rewrite Hn. unfold chk_u64. destruct (in_u64 (st_nonce s + 1)); cbn; [|done].
    eexists. split; [done|]. rewrite <- Ht, <- Hsl. exact (agree_write sy w t s _ _ _ Hag Hc).
  - destruct (sim_send (mkVm sy w t) (set_state s w) to me pa v g ro Hat Hag) as (r & vm' & w' & H1 & H2 & H3).
    rewrite H2. exists vm'. unfold sbind. by rewrite H1.
Qed.

Lemma sim_ops ops : forall vm w, env_atomic -> agree vm w ->
  match spec_ops ops w with
  | Some (os, w') => exists vm', sys_ops ops vm = (Ok os, vm') /\ agree vm' w'
  | None => fst (sys_ops ops vm) = Panic
  end.
Proof.
  induction ops as [|op ops IH]; intros vm w Hat Hag; cbn [spec_ops sys_ops]; [by exists vm|].
  destruct (w_state w) as [s|] eqn:Hw.
  2:{ destruct Hag as (_ & _ & st & -> & _). discriminate Hw. }
  pose proof (sim_op op vm w s Hat Hag Hw) as Hop. unfold sbind.
  destruct (spec_op op s w) as [[o w1]|].
  2:{ by destruct (sys_op op vm) as [[?|?|] ?]. }
  destruct Hop as (vm1 & -> & Ha1). specialize (IH vm1 w1 Hat Ha1).
  destruct (spec_ops ops w1) as [[os w2]|].
  - destruct IH as (vm2 & -> & Ha2). by exists vm2.
  - by destruct (sys_ops ops vm1) as [[?|?|] ?].
Qed.
End cache.

(** C6: the write-back cache of a contract refines a store without a cache.
    For every sequence of reads and writes of storage and transient storage,
    nonce increments and calls of other actors (which may call back), the
    loaded system makes the same observations as a contract whose state is
    written at once: each callee sees every earlier write, a call that fails
    loses none, one that succeeds makes the callee's changes visible; it
    panics only where the store's nonce overflows; and after the final flush
    the actor's world is exactly the store's.  Of the kernel it is assumed
    that a failed call leaves the actor's state and a successful one leaves
    some state. *)
Theorem evm_cache_write_through {Net : Type} (env : Env Net State SendParams IpldBlock) (ctx : Ctx)
    (ext : EvmExt Net) w0 st sys ops :
  env_atomic env -> w_state w0 = Some st -> is_dead ctx ext st = false -> ext_read_only ext = false ->
  load_system ctx ext w0 = Ok sys ->
  match spec_ops env (get_current_transient_data_lifespan ctx ext) ops w0 with
  | Some (outs, w) => exists vm vm',
      sys_ops env ext ops (mkVm sys w0 0) = (Ok outs, vm) /\ flush ext vm = (Ok tt, vm') /\
      vm_world vm' = w
  | None => fst (sys_ops env ext ops (mkVm sys w0 0)) = Panic
  end.
Proof.
  intros Hat Hw Hdead Hro Hload. set (life := get_current_transient_data_lifespan ctx ext).
  assert (agree life (mkVm sys w0 0) w0) as Hag.
  { unfold load_system, root_state in Hload. rewrite Hw in Hload. cbn in Hload.
    rewrite Hdead in Hload. apply (f_equal (fun r => match r with Ok s => Some s | _ => None end)) in Hload.
    injection Hload as <-. split; [done|]. split; [done|]. exists st. cbn.
    split; [destruct w0; cbn in *; by subst|]. by split. }
  pose proof (sim_ops env ext life ops _ _ Hat Hag) as Hsim.
  destruct (spec_ops env life ops w0) as [[outs w]|]; [|done].
  destruct Hsim as (vm & Hrun & Ha). destruct (agree_flush ext life vm w Ha) as (vm' & Hf & _ & Hv & _).
  by exists vm, vm'.
Qed.
