(* ===== verification/EvmAbi.v ===== *)
(** * The ABI between contracts and native actors

    A native method call reaches a contract as Solidity-encoded input
    (handle_filecoin_method_input) and its result is decoded from the
    contract's output (handle_filecoin_method_output); a contract calls a
    native actor through the call_actor precompile, which encodes the result
    (call_actor_shared).  The input has the layout of the ABI, and the decoder
    of results is the inverse of the precompile's encoder. *)

From S2P Require Import Prelude Runtime EvmWord EvmMachine EvmSystem EvmReader EvmBls EvmPrecompiles EvmInterp EvmActor EvmProofs.

(** Two numbers, the offset of the data, its length and the padded data. *)
Definition abi_block (a b : Z) (data : list Z) (k : nat) : list Z :=
  to_big_endian a ++ to_big_endian b ++ to_big_endian 96 ++ to_big_endian (len data) ++ data ++
  replicate k 0.

Lemma seek_word a b data k full : full = abi_block a b data k ->
  seek 96 (mkReader full (to_big_endian (len data) ++ data ++ replicate k 0)) =
  mkReader full (to_big_endian (len data) ++ data ++ replicate k 0).
Proof.
  intros ->. assert (abi_block a b data k =
    (to_big_endian a ++ to_big_endian b ++ to_big_endian 96) ++
    to_big_endian (len data) ++ data ++ replicate k 0) as -> by (unfold abi_block; by rewrite <- !app_assoc).
  assert (96 = len (to_big_endian a ++ to_big_endian b ++ to_big_endian 96)) as ->
    by (by rewrite !len_app, !to_big_endian_len).
  rewrite <- (seek_app (to_big_endian a ++ to_big_endian b ++ to_big_endian 96)) at 2.
  by rewrite !len_app, !to_big_endian_len.
Qed.

(** A reader of a block gets its parts. *)
Lemma read_abi_block {A} (n : nat) (f : Z -> Z -> Z -> list Z -> A) a b data k :
  (n <= 32)%nat -> 0 <= a < 256 ^ Z.of_nat n -> 0 <= b < 2 ^ 64 -> len data < 2 ^ 32 ->
  on_input
    (let& x := read_or (err USR_SERIALIZATION) (read_uint n) in
     let& y := read_or (err USR_SERIALIZATION) (read_uint 8) in
     let& off := read_or (err USR_SERIALIZATION) (read_uint 4) in
     let& _ := smodify (seek off) in
     let& l := read_or (err USR_SERIALIZATION) (read_uint 4) in
     let& d := reads (read_padded (Z.to_nat l)) in
     sret (f x y l d) : St ValueReader (ActorError IpldBlock) A) (abi_block a b data k) =
  Ok (f a b (len data) data).
Proof.
  intros Hn Ha Hb Hd. unfold on_input, new_reader. set (full := abi_block a b data k) at 1.
  pose proof (len_nonneg data). unfold abi_block, sbind, read_or, smodify, reads.
  rewrite read_uint_word by done. cbn [ok_or].
  rewrite read_uint_word by (done || lia). cbn [ok_or].
  rewrite read_uint_word by (done || lia). cbn [ok_or].
  rewrite (seek_word a b data k) by done.
  rewrite read_uint_word by (done || lia). cbn [ok_or].
  rewrite read_padded_app by (unfold len; lia). done.
Qed.

(** The padding that fills the last word. *)
Definition word_padding (n : Z) : nat := Z.to_nat ((- n) mod 32).

Lemma input_shape method codec params : 0 <= method < 2 ^ 64 -> 0 <= codec < 2 ^ 64 -> len params < 2 ^ 64 ->
  handle_filecoin_method_input method codec params =
    NATIVE_METHOD_SELECTOR ++ abi_block method codec params (word_padding (len params)).
Proof.
  intros Hm Hc Hp. pose proof (len_nonneg params) as H0. unfold handle_filecoin_method_input.
  assert (forall x, 0 <= x < 2 ^ 64 -> replicate 24 0 ++ be_bytes 8 x = to_big_endian x) as Hw.
  { intros x Hx. unfold to_big_endian. by rewrite <- (be_bytes_pad 24 8). }
  cbn [mbind list_bind]. unfold EVM_WORD_SIZE. change (32 * 3) with 96. rewrite !Hw by lia.
  pose proof (Z.div_mod (len params) 32 ltac:(lia)) as Hd. pose proof (Z.mod_pos_bound (len params) 32 ltac:(lia)) as Hr.
  assert (4 + (4 + len params / 32 + Z.b2z (len params mod 32 >? 0)) * 32 =
    132 + len params + (- len params) mod 32) as Hn.
  { destruct (Z.gtb_spec (len params mod 32) 0); cbn [Z.b2z].
    - rewrite Z.mod_opp_l_nz by lia. lia.
    - rewrite Z.mod_opp_l_z by lia. lia. }
  change (len [method; codec; 96; len params]) with 4. rewrite Hn.
  pose proof (Z.mod_pos_bound (- len params) 32 ltac:(lia)) as Hb.
  assert (len (NATIVE_METHOD_SELECTOR ++ to_big_endian method ++ to_big_endian codec ++ to_big_endian 96 ++
    to_big_endian (len params) ++ []) = 132) as Hl by (rewrite !len_app, !to_big_endian_len; done).
  rewrite resize_zero_fill; rewrite len_app, Hl; [|lia].
  unfold abi_block, word_padding. rewrite app_nil_r, <- !app_assoc. do 7 f_equal. lia.
Qed.

Section abi.
Context {Net : Type} (ext : EvmExt Net).

Lemma output_block c codec data k : 0 <= c < 2 ^ 32 -> 0 <= codec < 2 ^ 64 -> len data < 2 ^ 32 ->
  handle_filecoin_method_output ext (abi_block c codec data k) =
    let! b := if codec =? 0 then if len data =? 0 then Ok None else fail USR_SERIALIZATION
              else if codec =? CBOR then Ok (Some (mkBlock codec data)) else fail USR_SERIALIZATION in
    if is_success (ext_exit_code ext c) then Ok b else Err (mkErr (ext_exit_code ext c) b).
Proof.
  intros Hc Hco Hd. unfold handle_filecoin_method_output.
  destruct (abi_block c codec data k) as [|z l] eqn:E.
  { apply (f_equal length) in E. unfold abi_block in E. rewrite length_app in E.
    unfold to_big_endian at 1 in E. rewrite be_bytes_length in E. discriminate E. }
  rewrite <- E. by rewrite (read_abi_block 4 (fun x y l d => (x, y, l, d)) c codec data k) by (cbn; lia).
Qed.
End abi.

