(* ===== verification/EvmLife.v ===== *)
(** * The life of a contract

    Self-destruction, death and resurrection (src/actors/evm/src/lib.rs), and
    two inputs on which 32-bit arithmetic of the interpreter overflows. *)

From S2P Require Import Prelude Runtime EvmWord EvmMachine EvmSystem EvmReader EvmBls EvmPrecompiles EvmInterp EvmActor EvmProofs.

Section life.
Context {BN : Bn} {BL : Blst}.
Context {Net : Type} (env : Env Net State SendParams IpldBlock) (ctx : Ctx) (ext : EvmExt Net).
Context (fuel : nat).

Notation W := (World Net State SendParams).

Lemma load_dead (w : W) st : w_state w = Some st -> is_dead ctx ext st = true ->
  load_system ctx ext w = Ok (new_system ctx ext true).
Proof. intros Hw Hd. unfold load_system, root_state. rewrite Hw. cbn. by rewrite Hd. Qed.

(** A dead contract looks like an account without code. *)
Lemma dead_queries (w : W) st input : w_state w = Some st -> w_validated w = false ->
  is_dead ctx ext st = true ->
  invoke_contract env ctx ext fuel input w = Ok (Some [], set_validated w) /\
  bytecode ctx ext w = Ok (None, set_validated w) /\
  bytecode_hash ctx ext w = Ok (to_big_endian EMPTY_HASH, set_validated w).
Proof.
  intros Hw Hv Hd.
  assert (validate_immediate_caller_accept_any (R := IpldBlock) w = Ok (tt, set_validated w)) as Hval
    by (by apply accept_any_ok).
  assert (w_state (set_validated w) = Some st) as Hw' by done.
  split; [|split].
  - unfold invoke_contract, Runtime.bind. rewrite Hval. cbn [rbind get_world].
    unfold with_system, load_or_unspecified. by rewrite (load_dead _ st Hw' Hd).
  - unfold bytecode, Runtime.bind. rewrite Hval. cbn [rbind]. unfold state. rewrite Hw'. cbn. by rewrite Hd.
  - unfold bytecode_hash, Runtime.bind. rewrite Hval. cbn [rbind]. unfold state. rewrite Hw'. cbn [rbind].
    by rewrite Hd.
Qed.

Lemma no_resurrection (w : W) st creator initcode : w_state w = Some st -> w_validated w = false ->
  is_dead ctx ext st = false -> caller ctx = EAM_ACTOR_ADDR ->
  resurrect env ctx ext fuel creator initcode w = Err (err USR_FORBIDDEN).
Proof.
  intros Hw Hv Hd Hc. unfold resurrect, Runtime.bind.
  assert (validate_immediate_caller_is (R := IpldBlock) ctx [EAM_ACTOR_ADDR] w = Ok (tt, set_validated w))
    as -> by (apply caller_is_ok; split; [done|]; split; [rewrite Hc; left|done]).
  cbn [rbind get_world]. unfold with_system, resurrect_system, root_state.
  change (w_state (set_validated w)) with (w_state w). rewrite Hw. cbn. by rewrite Hd.
Qed.

(** A dead contract is brought up on an empty system, whatever it was. *)
Lemma resurrection (w : W) st creator initcode : w_state w = Some st -> w_validated w = false ->
  is_dead ctx ext st = true -> caller ctx = EAM_ACTOR_ADDR ->
  resurrect env ctx ext fuel creator initcode w =
    with_system (Ok (new_system ctx ext (ext_read_only ext)))
      (initialize_evm_contract env ctx ext fuel creator initcode) (set_validated w).
Proof.
  intros Hw Hv Hd Hc. unfold resurrect, Runtime.bind.
  assert (validate_immediate_caller_is (R := IpldBlock) ctx [EAM_ACTOR_ADDR] w = Ok (tt, set_validated w))
    as -> by (apply caller_is_ok; split; [done|]; split; [rewrite Hc; left|done]).
  cbn [rbind get_world]. unfold resurrect_system, root_state.
  change (w_state (set_validated w)) with (w_state w). rewrite Hw. cbn [ok_or rbind]. by rewrite Hd.
Qed.

(** Looking up an address changes nothing. *)
Lemma resolve_same a (vm : Vm Net) : snd (resolve_ethereum_address env ext a vm) = vm.
Proof.
  assert (forall sub : list Z,
    snd ((if len sub =? 20 then sret sub else raise USR_ILLEGAL_STATE
      : St (Vm Net) (ActorError IpldBlock) (list Z)) vm) = vm) as Hs
    by (intros sub; by destruct (_ =? _)).
  unfold resolve_ethereum_address. destruct (eam_subaddress a); [apply Hs|].
  unfold sbind, rt, resolve_address, get_world. cbn. destruct (env_resolve_address _ _ _); [|by destruct vm].
  cbn. destruct vm as [s w t]. cbn in *. destruct (ext_lookup_delegated_address _ _ _) as [d|]; [|done].
  by destruct (eam_subaddress d).
Qed.

(** Without code to run, a new contract is written as it starts. *)
Lemma initialize_empty creator (w : W) r w' :
  with_system (Ok (new_system ctx ext (ext_read_only ext)))
    (initialize_evm_contract env ctx ext fuel creator []) w = Ok (r, w') ->
  w_state w' = Some (mkState [] (ext_keccak256 ext []) ∅ None 1 None).
Proof.
  unfold with_system, initialize_evm_contract, with_exit_code, scatch. cbn [rbind]. unfold sbind at 1 2.
  pose proof (resolve_same (receiver ctx) (mkVm (new_system ctx ext (ext_read_only ext)) w 0)) as Hr.
  destruct (resolve_ethereum_address _ _ _ _) as [[a|e|] vm]; cbn in Hr |- *; [subst vm|done..].
  destruct (Eth.is_id a); [done|]. unfold sbind at 1, flush, new_system. cbn.
  destruct (ext_read_only ext); [done|]. unfold sbind, set_bytecode. cbn.
  destruct (negb _); [done|]. cbn. by intros [= <- <-].
Qed.

(** The state a contract that destroyed itself leaves. *)
Lemma tombstone_written (vm vm' : Vm Net) :
  flush ext (snd (mark_selfdestructed ctx ext vm)) = (Ok tt, vm') ->
  exists st, w_state (vm_world vm') = Some st /\ st_tombstone st = Some (current_tombstone ctx ext).
Proof.
  unfold mark_selfdestructed, mod_sys, flush. unfold sbind at 1. cbn [snd get_sys vm_sys saved_state_root set_sys_tombstone set_saved].
  destruct (readonly _); [done|]. destruct (sys_bytecode _) as [b|].
  - intros H. injection H as <-. eexists. split; [done|]. done.
  - unfold sbind, set_bytecode. cbn. destruct (negb _); [done|].
    intros H. injection H as <-. eexists. split; [done|]. done.
Qed.
End life.


(** ** Overflows of 32-bit arithmetic *)

(** The size of the memory is rounded up to a whole word in [usize]; the
    rounding overflows for the last word below 4 GiB. *)
Lemma memory_rounding_overflows : get_memory_region [] (2 ^ 32 - 32) 1 = Panic.
Proof. vm_compute. reflexivity. Qed.

(** The shift that pads a short operand of MODEXP is computed in bits as a
    [u32]; an operand declared longer than the input by 2^29 bytes overflows
    it. *)
Lemma modexp_shift_overflows :
  modexp (to_big_endian (2 ^ 29) ++ to_big_endian 0 ++ to_big_endian 1) = Panic.
Proof. vm_compute. reflexivity. Qed.
