(* ===== verification/EvmDemo.v ===== *)
(** * A small chain on which the theorems about the EVM apply

    Concrete functions for what the EVM model is parameterised with, and the
    theorems applied to contracts on them. *)

From S2P Require Import Prelude Runtime EvmWord EvmMachine EvmSystem EvmReader EvmBls EvmPrecompiles EvmInterp EvmActor EvmProofs EvmStep EvmProps EvmReadonly EvmCache EvmAbi EvmLife.

Module EvmDemo.

(** A curve with one point. *)
#[global] Instance toy_bn : Bn := {|
  bn_fq := unit; bn_fr := unit; bn_g1 := unit; bn_g2 := unit;
  fq_from_slice _ := Some tt; fq_is_zero _ := true; fr_from_slice _ := Some tt;
  g1_zero := tt; affine_g1_new _ _ := Some tt; g1_add _ _ := tt; g1_mul _ _ := tt;
  g1_to_affine _ := None; fq2_is_zero _ := true; g2_zero := tt; affine_g2_new _ _ := Some tt;
  pairing_batch_is_one _ := true;
|}.

#[global] Instance toy_bn_laws : BnLaws toy_bn.
Proof. split. intros g x y H. discriminate H. Qed.

(** Actor 50 calls the contract back and sets its slot 7 to 9, actor 51 fails,
    the others do nothing. *)
Definition call_back (s : State) : State :=
  mkState (st_bytecode s) (st_bytecode_hash s) (<[7 := 9]> (contract_state s)) (transient_data s)
    (st_nonce s) (st_tombstone s).

Definition toy_send (req : SendReq SendParams) (net : unit) (s : option State) (b : Z)
  : SendOut unit State IpldBlock :=
  if addr_eqb (to_addr req) (AddrId 50)
  then mkSendOut (inl (mkResp EC_OK None)) (call_back <$> s) b net
  else if addr_eqb (to_addr req) (AddrId 51)
  then mkSendOut (inl (mkResp USR_NOT_FOUND None)) s b net
  else mkSendOut (inl (mkResp EC_OK None)) s b net.

Definition toy_id (a : Address) : option Z :=
  match a with AddrId i => if in_u64 i then Some i else None | _ => None end.

Definition toy_hash (l : list Z) : list Z := be_bytes 32 (from_big_endian l).

Definition toy_env : Env unit State SendParams IpldBlock :=
  mkEnv (fun _ a => toy_id a) (fun _ i => Some i) (fun _ => Some TEVM) toy_hash toy_send.

(** The same in a read-only call. *)
Definition toy_env_ro : Env unit State SendParams IpldBlock :=
  mkEnv (fun _ a => toy_id a) (fun _ i => Some i) (fun _ => Some TEVM) toy_hash
    (fun req net s b =>
       mkSendOut (if send_value req >? 0 then inr EN_ReadOnly else inl (mkResp EC_OK None)) s b net).

Definition toy_ext (nonce : Z) (ro : bool) : EvmExt unit := {|
  ext_msg_nonce := nonce; ext_gas_premium := 0; ext_read_only := ro; ext_base_fee := 100;
  ext_chain_id := 314; ext_timestamp := 1700000000; ext_gas _ := 1000000;
  ext_tipset_cid _ := None; ext_beacon _ := inl (replicate 32 1);
  ext_actor_balance _ _ := Some 5; ext_lookup_delegated_address _ _ := None; ext_emit _ := true;
  ext_keccak256 := toy_hash; ext_sha256 := toy_hash; ext_ripemd160 l := be_bytes 20 (from_big_endian l);
  ext_recover_secp _ _ := None; ext_address_from_bytes _ := None; ext_address_to_bytes _ := [];
  ext_enc_create _ _ := mkBlock CBOR []; ext_enc_create2 _ _ := mkBlock CBOR [];
  ext_enc_delegate _ _ _ _ := mkBlock CBOR []; ext_enc_bytes l := mkBlock CBOR l;
  ext_dec_bytes b := Some (blk_data b); ext_dec_create_return _ := None;
  ext_dec_bytecode _ := Some None; ext_dec_hash _ := None;
  ext_errno _ := 1; ext_exit_value c := if is_success c then 0 else 1;
  ext_exit_code z := if z =? 0 then EC_OK else USR_NOT_FOUND; ext_InvokeContract := 3844450837;
|}.

Lemma toy_env_typed : env_typed toy_env.
Proof.
  split.
  - intros req net s b Hs. cbn. unfold toy_send. destruct (addr_eqb _ (AddrId 50)); cbn.
    + split; [done|]. destruct s as [s|]; [|done]. cbn in *. destruct Hs as (? & Hc & ? & ?).
      split; [done|]. split; [|done]. intros k v. cbn.
      intros [[_ <-]|[_ ?]]%lookup_insert_Some; [done|by eapply Hc].
    + by destruct (addr_eqb _ (AddrId 51)).
  - intros l. split; [apply be_bytes_bytes|apply be_bytes_length].
  - intros net a i. cbn. unfold toy_id. destruct a as [z|]; [|done]. destruct (in_u64 z) eqn:E; [|done].
    intros [= <-]. apply in_u64_spec in E. unfold u64. lia.
Qed.

Lemma toy_hash_ok l : bytes (toy_hash l) /\ length (toy_hash l) = 32%nat.
Proof. split; [apply be_bytes_bytes|apply be_bytes_length]. Qed.

Lemma toy_ext_typed n ro : ext_typed (toy_ext n ro).
Proof.
  split; try (intros; discriminate); try done.
  - intros e b [= <-]. split; [by repeat constructor|done].
  - intros l. apply toy_hash_ok.
  - intros l. apply be_bytes_buffer. lia.
  - intros l. split; [apply be_bytes_bytes|apply be_bytes_length].
  - intros a. apply buffer_nil.
  - intros b l (Hb & Hl & _) [= <-]. split; [done|]. lia.
  - intros c. cbn. by destruct (is_success c).
Qed.

(** ** A contract *)

(** PUSH1 2, PUSH1 3, ADD, PUSH1 1, SSTORE. *)
Definition prog : list Z := [0x60; 2; 0x60; 3; 0x01; 0x60; 1; 0x55].

Definition prog_code : Bytecode := mkBytecode prog (replicate 8 false).

Definition toy_ctx : Ctx := mkCtx 100 100 200 0 10.

Definition toy_state : State := mkState prog (toy_hash prog) {[7 := 4]} None 1 None.

Definition toy_world : World unit State SendParams := mkWorld (Some toy_state) 1000 tt false false [].

Definition toy_sys (ro : bool) : System :=
  mkSystem (Some (mkEvmBytecode prog (toy_hash prog))) {[7 := 4]} ∅ (mkLifespan 100 0) 1
    (Some toy_state) ro None None.

Definition toy_vm (ro : bool) : Vm unit := mkVm (toy_sys ro) toy_world 0.

Definition user : EthAddress := replicate 20 17.

Definition start : Machine := mkMachine (new_exec user user 0 []) 0 default_output.

Lemma prog_buffer : buffer prog.
Proof. apply small_buffer; [by repeat constructor|cbn; lia]. Qed.

Lemma toy_vm_ok ro : vm_ok (toy_vm ro).
Proof.
  assert (slots_ok {[7 := 4]}) as Hs by (by intros k v [_ <-]%lookup_singleton_Some).
  pose proof prog_buffer. split; cbn; unfold system_ok, state_ok, opt_ok; cbn; tauto || done.
Qed.

(** ** The theorems, applied *)

(** The machine after the addition. *)
Definition after_add : Machine := mkMachine (set_stack [5] (m_state start)) 5 default_output.

Lemma run_to_add env ext (vm : Vm unit) : run (BN := toy_bn) (BL := toy_blst) env toy_ctx ext prog_code start vm after_add vm.
Proof.
  eapply run_step; [eapply run_step; [eapply run_step; [apply run_start| |reflexivity]| |reflexivity]| |reflexivity];
    done.
Qed.

Lemma evm_run_typed_witness : machine_ok prog_code after_add /\ vm_ok (toy_vm false).
Proof.
  refine (evm_run_typed (BN := toy_bn) (BL := toy_blst) toy_env toy_ctx (toy_ext 0 false) prog prog_code user user
    0 [] (toy_vm false) after_add (toy_vm false) toy_env_typed (toy_ext_typed 0 false) _ prog_buffer _ _ _
    buffer_nil (toy_vm_ok false) (run_to_add _ _ _)).
  - vm_compute. discriminate.
  - vm_compute. reflexivity.
  - split; [by repeat constructor|reflexivity].
  - split; [by repeat constructor|reflexivity].
Defined.

(** ADD needs two operands. *)
Lemma evm_stack_discipline_witness :
  step (BN := toy_bn) (BL := toy_blst) toy_env toy_ctx (toy_ext 0 false) (mkBytecode [0x01] [false])
    (mkMachine (set_stack [5] (m_state start)) 0 default_output) (toy_vm false) =
  (Err (err EVM_CONTRACT_STACK_UNDERFLOW), toy_vm false).
Proof.
  apply (evm_stack_discipline (BN := toy_bn) (BL := toy_blst) toy_env toy_ctx (toy_ext 0 false)
    (mkBytecode [0x01] [false]) (mkMachine (set_stack [5] (m_state start)) 0 default_output) (toy_vm false)
    0x01).
  - reflexivity.
  - lia.
  - vm_compute. discriminate.
  - vm_compute. reflexivity.
Defined.

Lemma evm_memory_spec_witness :
  exists x', mstore (m_state start) 64 7 = Ok x' /\ mload x' 64 = Ok (7, x') /\ msize x' = 96.
Proof.
  destruct (evm_memory_spec (m_state start) 64 7) as [H _].
  - split; [constructor|split; reflexivity].
  - apply buffer_nil.
  - split; reflexivity || discriminate.
  - split; reflexivity || discriminate.
  - destruct H as (x' & H1 & H2 & H3 & _); [lia|]. exists x'. repeat split; [exact H1|exact H2|exact H3].
Defined.

(** In a read-only call the SSTORE of the program fails. *)
Definition before_sstore : Machine := mkMachine (set_stack [1; 5] (m_state start)) 7 default_output.

Lemma run_to_sstore env ext (vm : Vm unit) :
  run (BN := toy_bn) (BL := toy_blst) env toy_ctx ext prog_code start vm before_sstore vm.
Proof. eapply run_step; [apply run_to_add|done|]. reflexivity. Qed.


(** Slot 7 is set to 5 and then by the actor called back to 9; a failed call
    loses nothing. *)
Definition toy_ops : list SysOp :=
  [OSet 7 5; OSet 8 6; OSend (AddrId 50) 2 None 0 None false; OGet 7; OSet 8 1;
   OSend (AddrId 51) 2 None 0 None false; OGet 8; OTSet 1 1; ONonce].

Lemma toy_env_atomic : env_atomic toy_env.
Proof.
  intros req net s b. cbn. unfold toy_send. destruct (addr_eqb _ (AddrId 50)); cbn; [by eexists|].
  destruct (addr_eqb _ (AddrId 51)); cbn; [done|by eexists].
Qed.

Lemma evm_cache_write_through_witness :
  exists outs vm, sys_ops toy_env (toy_ext 0 false) toy_ops (toy_vm false) = (Ok outs, vm) /\
    outs !! 3%nat = Some (OutWord 9) /\ outs !! 6%nat = Some (OutWord 1).
Proof.
  pose proof (evm_cache_write_through toy_env toy_ctx (toy_ext 0 false) toy_world toy_state (toy_sys false) toy_ops
    toy_env_atomic eq_refl eq_refl eq_refl eq_refl) as H.
  vm_compute in H. destruct H as (vm & vm' & H & _). eexists _, vm. split; [exact H|]. split; reflexivity.
Defined.


End EvmDemo.
