(* ===== verification/Collections.v ===== *)
(** * Bit fields and arrays

    The miner keeps sets of sector numbers in [BitField]s (fvm_ipld_bitfield)
    and maps keyed by numbers in [Array]s (AMTs, fvm_ipld_amt).  A bit field is
    the finite set of its bits, an array the finite map of its entries; both
    are iterated in increasing order.  Loading and flushing them cannot fail.

    The bits are sector numbers, at most [MAX_SECTOR_NUMBER], and partition
    numbers, so that [BitField::try_from_bits] is the set of a list.

    The sums over such sets, in which the miner's accounting is stated. *)

From stdpp Require Import sorting.
From S2P Require Import Prelude.

Notation BitField := (gset Z).

(** [BitField::iter]. *)
Definition bits (X : BitField) : list Z := merge_sort Z.le (elements X).

(** [BitField::try_from_bits]. *)
Definition from_bits (l : list Z) : BitField := list_to_set l.

(** [BitField::len]. *)
Definition bf_len (X : BitField) : Z := Z.of_nat (size X).

(** [BitField::contains_all] and [contains_any]. *)
Definition contains_all (X Y : BitField) : bool := bool_decide (Y ⊆ X).
Definition contains_any (X Y : BitField) : bool := negb (bool_decide (X ∩ Y = ∅)).
Definition bf_empty (X : BitField) : bool := bool_decide (X = ∅).
Definition bf_get (X : BitField) (i : Z) : bool := bool_decide (i ∈ X).

(** [BitField::first]. *)
Definition first (X : BitField) : option Z := head (bits X).

(** [BitField::slice(0, n)]: the first [n] bits, an error if there are fewer. *)
Definition slice0 (X : BitField) (n : Z) : option BitField :=
  if n <=? bf_len X then Some (from_bits (take (Z.to_nat n) (bits X))) else None.

(** [BitField::cut]: removes the bits of [Y] from [X], shifting the others down
    by the number of smaller bits removed. *)
Definition cut (X Y : BitField) : BitField :=
  set_map (fun x => x - bf_len (filter (fun y => y < x) Y)) (X ∖ Y).

Section arrays.
Context {V : Type}.
Implicit Types m : gmap Z V.

Definition keys m : list Z := bits (dom m).

(** The entries in the order of their keys. *)
Definition entries m : list (Z * V) := omap (fun k => pair k <$> m !! k) (keys m).

(** [Array::count]. *)
Definition count m : Z := Z.of_nat (size m).

(** [Array::batch_delete] of keys that are present. *)
Definition batch_delete (ks : list Z) m : gmap Z V := foldr delete m ks.

(** [Array::for_each_while]: stops at the first entry for which the closure
    returns [false]. *)
Fixpoint for_each_while {E A} (f : A -> Z -> V -> Res E (A * bool)) (acc : A) (l : list (Z * V))
  : Res E A :=
  match l with
  | [] => Ok acc
  | (k, v) :: l' =>
      let! (acc', keep_going) := f acc k v in
      if (keep_going : bool) then for_each_while f acc' l' else Ok acc'
  end.

(** [Array::for_each]. *)
Definition for_each {E A} (f : A -> Z -> V -> Res E A) (acc : A) (l : list (Z * V)) : Res E A :=
  rfold (fun acc '(k, v) => f acc k v) acc l.

(** [Array::for_each_while_mut]: the closure may change the entry it visits. *)
Fixpoint for_each_while_mut {E A} (f : A -> Z -> V -> Res E (A * V * bool)) (acc : A)
    (l : list (Z * V)) (m : gmap Z V) : Res E (A * gmap Z V) :=
  match l with
  | [] => Ok (acc, m)
  | (k, v) :: l' =>
      let! (acc', v', keep_going) := f acc k v in
      let m' := <[k := v']> m in
      if (keep_going : bool) then for_each_while_mut f acc' l' m' else Ok (acc', m')
  end.
End arrays.

(** ** Iteration *)

Lemma elem_of_bits X x : x ∈ bits X <-> x ∈ X.
Proof. unfold bits. rewrite merge_sort_Permutation. apply elem_of_elements. Qed.

Lemma NoDup_bits X : NoDup (bits X).
Proof. unfold bits. rewrite merge_sort_Permutation. apply NoDup_elements. Qed.

Lemma bits_perm X : bits X ≡ₚ elements X.
Proof. apply merge_sort_Permutation. Qed.

Lemma bits_sorted X : StronglySorted Z.le (bits X).
Proof. apply StronglySorted_merge_sort; [intros ???; lia|intros ??; lia]. Qed.

Lemma from_bits_bits X : from_bits (bits X) = X.
Proof. apply set_eq. intros x. unfold from_bits. by rewrite elem_of_list_to_set, elem_of_bits. Qed.

Lemma elem_of_from_bits l x : x ∈ from_bits l <-> x ∈ l.
Proof. apply elem_of_list_to_set. Qed.

Section entries.
Context {V : Type}.
Implicit Types m : gmap Z V.

Lemma elem_of_keys m k : k ∈ keys m <-> is_Some (m !! k).
Proof. unfold keys. by rewrite elem_of_bits, elem_of_dom. Qed.

Lemma elem_of_entries m k v : (k, v) ∈ entries m <-> m !! k = Some v.
Proof.
  unfold entries. rewrite list_elem_of_omap. split.
  - intros (k' & _ & H). destruct (m !! k') eqn:E; [|discriminate]. by injection H as -> ->.
  - intros H. exists k. rewrite elem_of_keys, H. eauto.
Qed.

Lemma entries_keys m : (entries m).*1 = keys m.
Proof.
  unfold entries. assert (forall k, k ∈ keys m -> is_Some (m !! k)) as H by (intros; by apply elem_of_keys).
  induction (keys m) as [|k l IH]; [done|]. cbn.
  destruct (H k) as [v ->]; [left|]. cbn. rewrite IH; [done|]. intros. apply H. by right.
Qed.

Lemma NoDup_entries m : NoDup (entries m).*1.
Proof. rewrite entries_keys. apply NoDup_bits. Qed.

Lemma entries_perm m : entries m ≡ₚ map_to_list m.
Proof.
  apply NoDup_Permutation.
  - apply (NoDup_fmap_1 fst), NoDup_entries.
  - apply NoDup_map_to_list.
  - intros [k v]. by rewrite elem_of_entries, elem_of_map_to_list.
Qed.

Lemma lookup_batch_delete ks m k :
  batch_delete ks m !! k = if decide (k ∈ ks) then None else m !! k.
Proof.
  induction ks as [|k' ks IH]; cbn.
  - rewrite decide_False by (by intros ?%elem_of_nil). done.
  - destruct (decide (k = k')) as [->|Hne].
    + rewrite lookup_delete_eq, decide_True by left. done.
    + rewrite lookup_delete_ne by done. fold (batch_delete ks m). rewrite IH. destruct (decide (k ∈ ks)) as [?|?].
      * rewrite decide_True by (by right). done.
      * rewrite decide_False; [done|]. by intros [?|?]%elem_of_cons.
Qed.
End entries.

(** ** Sums over sets *)

Section sums.
Implicit Types (f g : Z -> Z) (X Y : BitField).

Definition ssum f X : Z := sum_list_Z (f <$> elements X).

#[export] Instance sum_list_Z_perm : Proper ((≡ₚ) ==> eq) sum_list_Z.
Proof. intros l k H. unfold sum_list_Z. induction H; cbn; lia. Qed.

Lemma ssum_empty f : ssum f ∅ = 0.
Proof. unfold ssum. by rewrite elements_empty. Qed.

Lemma ssum_singleton f x : ssum f {[x]} = f x.
Proof. unfold ssum. rewrite elements_singleton. cbn. lia. Qed.

Lemma ssum_union f X Y : X ## Y -> ssum f (X ∪ Y) = ssum f X + ssum f Y.
Proof. intros H. unfold ssum. rewrite elements_disj_union by done. rewrite fmap_app. apply sum_list_Z_app. Qed.

Lemma ssum_ext f g X : (forall x, x ∈ X -> f x = g x) -> ssum f X = ssum g X.
Proof.
  intros H. unfold ssum. assert (forall x, x ∈ elements X -> f x = g x) as H' by (intros x ?; by apply H, elem_of_elements).
  induction (elements X) as [|x l IH]; [done|]. cbn. rewrite (H' x) by left. f_equal. apply IH.
  intros. apply H'. by right.
Qed.

Lemma ssum_split f X Y : ssum f X = ssum f (X ∩ Y) + ssum f (X ∖ Y).
Proof.
  rewrite <- ssum_union by set_solver. f_equal. apply set_eq. intros x.
  rewrite elem_of_union, elem_of_intersection, elem_of_difference. destruct (decide (x ∈ Y)); naive_solver.
Qed.

Lemma ssum_diff f X Y : Y ⊆ X -> ssum f (X ∖ Y) = ssum f X - ssum f Y.
Proof.
  intros H. rewrite (ssum_split f X Y). assert (X ∩ Y = Y) as -> by (apply set_eq; set_solver). lia.
Qed.

Lemma ssum_nonneg f X : (forall x, x ∈ X -> 0 <= f x) -> 0 <= ssum f X.
Proof.
  intros H. apply sum_list_Z_nonneg, Forall_fmap, Forall_forall. intros x Hx. cbn.
  apply H. by apply elem_of_elements.
Qed.

Lemma ssum_mono f X Y : X ⊆ Y -> (forall x, x ∈ Y -> 0 <= f x) -> ssum f X <= ssum f Y.
Proof.
  intros Hs Hf. rewrite (ssum_split f Y X). assert (Y ∩ X = X) as -> by (apply set_eq; set_solver).
  assert (0 <= ssum f (Y ∖ X)); [|lia]. apply ssum_nonneg. set_solver.
Qed.

Lemma ssum_const c X : ssum (fun _ => c) X = c * bf_len X.
Proof.
  unfold ssum, bf_len, size, set_size. cbn. induction (elements X) as [|x l IH]; cbn in *; [lia|].
  unfold sum_list_Z in *. cbn. lia.
Qed.

(** The sum of a list without duplicates is the sum of its set. *)
Lemma ssum_from_bits f l : NoDup l -> ssum f (from_bits l) = sum_list_Z (f <$> l).
Proof. intros H. unfold ssum, from_bits. by rewrite elements_list_to_set. Qed.

Lemma ssum_bits f X : sum_list_Z (f <$> bits X) = ssum f X.
Proof. unfold ssum. by rewrite bits_perm. Qed.
End sums.

(** ** Set algebra, pointwise *)

Ltac split_atoms n :=
  repeat match goal with
  | |- context [n ∈ ?X] =>
      match goal with
      | H : n ∈ X |- _ => fail 1
      | H : n ∉ X |- _ => fail 1
      | _ => destruct (decide (n ∈ X))
      end
  | _ : context [n ∈ ?X] |- _ =>
      match goal with
      | H : n ∈ X |- _ => fail 1
      | H : n ∉ X |- _ => fail 1
      | _ => destruct (decide (n ∈ X))
      end
  end.

(** Decides an equation, inclusion or disjointness of sets by cases on the
    membership of an element in the sets it is built from. *)
Ltac set_point :=
  let n := fresh "n" in
  match goal with
  | |- _ = _ => apply set_eq; intros n
  | |- _ ⊆ _ => intros n
  | |- _ ## _ => intros n
  end;
  repeat match goal with
  | H : @subseteq (gset Z) _ _ _ |- _ => specialize (H n)
  | H : @disjoint (gset Z) _ _ _ |- _ => specialize (H n)
  | H : forall m : Z, m ∈ _ -> _ |- _ => specialize (H n)
  | H : forall (m : Z) (b : bool), _ |- _ => clear H
  | H : forall (m : Z), _ |- _ => clear H
  end;
  rewrite ?elem_of_union, ?elem_of_intersection, ?elem_of_difference, ?elem_of_empty in *;
  repeat first [rewrite elem_of_union|rewrite elem_of_intersection|rewrite elem_of_difference|rewrite elem_of_empty];
  first [tauto | split_atoms n; tauto].
