(* ===== verification/MinerBase.v ===== *)
(** * The miner actor: policy, epochs, deadlines, sectors

    Models src/runtime/src/runtime/policy.rs and, of src/actors/miner/src,
    quantize.rs, deadline_info.rs, deadlines.rs (the functions on epochs),
    policy.rs (power and fees) and the records of types.rs, beneficiary.rs and
    termination.rs the other files use.

    Epochs are integers: the handlers bound the epochs they are given to the
    lifetime of a sector around the current epoch before they compute with
    them.  The features of the network build (32 and 64 GiB sectors) are on.

    Registered proof types are those the sources name and [Invalid]; what
    fvm_shared says of them (size, partition size, the PoSt and update proofs
    of a seal proof) is the record [ProofTypes]. *)

From S2P Require Import Prelude Runtime Collections.

Module Miner.

(** An [anyhow::Error]: an [ActorError] with its code, or another error, whose
    code the caller chooses ([downcast_default]). *)
Notation MErr := (option ExitCode).
Notation MRes := (Res MErr).

Definition bail {A} : MRes A := Err None.
Definition bail_code {A} (c : ExitCode) : MRes A := Err (Some c).

(** [e.downcast_default(code, ..)] on the result. *)
Definition downcast_default {R A} (c : ExitCode) (r : MRes A) : Res (ActorError R) A :=
  match r with
  | Ok a => Ok a
  | Err e => Err (err (default c e))
  | Panic => Panic
  end.

(** ** Proof types *)

Inductive SealProof : Type :=
| DRG2KiBV1 | DRG8MiBV1 | DRG512MiBV1 | DRG32GiBV1 | DRG64GiBV1
| DRG2KiBV1P1 | DRG8MiBV1P1 | DRG512MiBV1P1 | DRG32GiBV1P1 | DRG64GiBV1P1
| DRG2KiBSynth | DRG8MiBSynth | DRG512MiBSynth | DRG32GiBSynth | DRG64GiBSynth
| DRG2KiBNi | DRG8MiBNi | DRG512MiBNi | DRG32GiBNi | DRG64GiBNi
| SealInvalid (n : Z).

#[export] Instance SealProof_eq_dec : EqDecision SealProof.
Proof. solve_decision. Defined.

(** Registered PoSt and update proofs by number. *)
Notation PoStProofType := Z (only parsing).
Notation UpdateProofType := Z (only parsing).

Record ProofTypes : Type := mkProofTypes {
  pt_sector_size : SealProof -> option Z;
  pt_post_sector_size : PoStProofType -> option Z;
  pt_partition_sectors : PoStProofType -> option Z;
  pt_window_post : SealProof -> option PoStProofType;
  pt_update : SealProof -> option UpdateProofType;
}.

(** ** Policy (runtime/policy.rs) *)

Record Policy : Type := mkPolicy {
  max_aggregated_sectors : Z;
  min_aggregated_sectors : Z;
  max_aggregated_proof_size : Z;
  max_replica_update_proof_size : Z;
  expired_pre_commit_clean_up_delay : Z;
  wpost_proving_period : Z;
  wpost_challenge_window : Z;
  wpost_period_deadlines : Z;
  wpost_max_chain_commit_age : Z;
  wpost_dispute_window : Z;
  sectors_max : Z;
  max_partitions_per_deadline : Z;
  max_control_addresses : Z;
  max_peer_id_length : Z;
  max_multiaddr_data : Z;
  addressed_partitions_max : Z;
  addressed_sectors_max : Z;
  posted_partitions_max : Z;
  max_pre_commit_randomness_lookback : Z;
  pre_commit_challenge_delay : Z;
  max_aggregated_sectors_ni : Z;
  min_aggregated_sectors_ni : Z;
  max_prove_commit_ni_randomness_lookback : Z;
  valid_prove_commit_ni_proof_type : SealProof -> bool;
  wpost_challenge_lookback : Z;
  fault_declaration_cutoff : Z;
  fault_max_age : Z;
  worker_key_change_delay : Z;
  min_sector_expiration : Z;
  max_sector_expiration_extension : Z;
  deal_limit_denominator : Z;
  consensus_fault_ineligibility_duration : Z;
  new_sectors_per_period_max : Z;
  chain_finality : Z;
  valid_post_proof_type : PoStProofType -> bool;
  valid_pre_commit_proof_type : SealProof -> bool;
  daily_fee_multiplier_num : Z;
  daily_fee_multiplier_denom : Z;
  daily_fee_block_reward_cap_denom : Z;
  end_of_life_claim_drop_period : Z;
}.

Definition MAX_SECTOR_NUMBER : Z := I64_MAX.
Definition CHAIN_FINALITY : Z := 900.
Definition WPOST_PROVING_PERIOD : Z := EPOCHS_IN_DAY.
Definition WPOST_CHALLENGE_WINDOW : Z := 30 * 60 / EPOCH_DURATION_SECONDS.
Definition WPOST_CHALLENGE_LOOKBACK : Z := 20.
Definition MAX_PARTITIONS_PER_DEADLINE : Z := 3000.

(** [ProofSet::default_precommit_seal_proofs] and [default_seal_ni_proofs]. *)
Definition default_precommit_seal_proofs (p : SealProof) : bool :=
  match p with
  | DRG32GiBV1P1 | DRG64GiBV1P1 | DRG32GiBSynth | DRG64GiBSynth => true
  | _ => false
  end.
Definition default_seal_ni_proofs (p : SealProof) : bool :=
  match p with DRG32GiBNi | DRG64GiBNi => true | _ => false end.

(** [Policy::default]; [window_posts] are the PoSt proofs of the enabled
    sector sizes. *)
Definition default_policy (window_posts : PoStProofType -> bool) : Policy :=
  {| max_aggregated_sectors := 819;
     min_aggregated_sectors := 4;
     max_aggregated_proof_size := 81960;
     max_replica_update_proof_size := 4096;
     expired_pre_commit_clean_up_delay := 8 * EPOCHS_IN_HOUR;
     wpost_proving_period := WPOST_PROVING_PERIOD;
     wpost_challenge_window := WPOST_CHALLENGE_WINDOW;
     wpost_period_deadlines := 48;
     wpost_max_chain_commit_age := WPOST_CHALLENGE_WINDOW;
     wpost_dispute_window := 2 * CHAIN_FINALITY;
     sectors_max := Z.shiftl 32 20;
     max_partitions_per_deadline := MAX_PARTITIONS_PER_DEADLINE;
     max_control_addresses := 10;
     max_peer_id_length := 128;
     max_multiaddr_data := 1024;
     addressed_partitions_max := MAX_PARTITIONS_PER_DEADLINE;
     addressed_sectors_max := 25000;
     posted_partitions_max := 3;
     max_pre_commit_randomness_lookback := EPOCHS_IN_DAY + CHAIN_FINALITY;
     pre_commit_challenge_delay := 150;
     max_aggregated_sectors_ni := 65;
     min_aggregated_sectors_ni := 1;
     max_prove_commit_ni_randomness_lookback := 180 * EPOCHS_IN_DAY;
     valid_prove_commit_ni_proof_type := default_seal_ni_proofs;
     wpost_challenge_lookback := WPOST_CHALLENGE_LOOKBACK;
     fault_declaration_cutoff := WPOST_CHALLENGE_LOOKBACK + 50;
     fault_max_age := WPOST_PROVING_PERIOD * 42;
     worker_key_change_delay := CHAIN_FINALITY;
     min_sector_expiration := 180 * EPOCHS_IN_DAY;
     max_sector_expiration_extension := 1278 * EPOCHS_IN_DAY;
     deal_limit_denominator := 134217728;
     consensus_fault_ineligibility_duration := CHAIN_FINALITY;
     new_sectors_per_period_max := Z.shiftl 128 10;
     chain_finality := CHAIN_FINALITY;
     valid_post_proof_type := window_posts;
     valid_pre_commit_proof_type := default_precommit_seal_proofs;
     daily_fee_multiplier_num := 161817;
     daily_fee_multiplier_denom := 10 ^ 30;
     daily_fee_block_reward_cap_denom := 2;
     end_of_life_claim_drop_period := 30 * EPOCHS_IN_DAY |}.

(** ** Quantization (quantize.rs) *)

Record QuantSpec : Type := mkQuant {
  unit_ : Z;
  offset : Z;
}.

Definition NO_QUANTIZATION : QuantSpec := mkQuant 1 0.

Definition quantize_up (q : QuantSpec) (epoch : Z) : Z :=
  let offset := Z.rem (offset q) (unit_ q) in
  let remainder := Z.rem (epoch - offset) (unit_ q) in
  let quotient := Z.quot (epoch - offset) (unit_ q) in
  if (remainder =? 0) || (epoch - offset <? 0) then unit_ q * quotient + offset
  else unit_ q * (quotient + 1) + offset.

Definition quantize_down (q : QuantSpec) (epoch : Z) : Z :=
  let next := quantize_up q epoch in
  if epoch =? next then next else next - unit_ q.

(** ** Deadlines (deadline_info.rs, deadlines.rs) *)

Record DeadlineInfo : Type := mkDI {
  current_epoch : Z;
  period_start : Z;
  index : Z;
  open : Z;
  close : Z;
  challenge : Z;
  fault_cutoff : Z;
  di_period_deadlines : Z;
  di_proving_period : Z;
  di_challenge_window : Z;
  di_challenge_lookback : Z;
  di_fault_declaration_cutoff : Z;
}.

Definition di_new (period_start deadline_idx current_epoch period_deadlines proving_period
    challenge_window challenge_lookback fault_declaration_cutoff : Z) : DeadlineInfo :=
  if deadline_idx <? period_deadlines then
    let deadline_open := period_start + deadline_idx * challenge_window in
    mkDI current_epoch period_start deadline_idx deadline_open (deadline_open + challenge_window)
      (deadline_open - challenge_lookback) (deadline_open - fault_declaration_cutoff)
      period_deadlines proving_period challenge_window challenge_lookback fault_declaration_cutoff
  else
    let after_last_deadline := period_start + proving_period in
    mkDI current_epoch period_start deadline_idx after_last_deadline after_last_deadline
      after_last_deadline 0
      period_deadlines proving_period challenge_window challenge_lookback fault_declaration_cutoff.

Definition period_started (d : DeadlineInfo) : bool := current_epoch d >=? period_start d.
Definition next_period_start (d : DeadlineInfo) : Z := period_start d + di_proving_period d.
Definition period_elapsed (d : DeadlineInfo) : bool := current_epoch d >=? next_period_start d.
Definition period_end (d : DeadlineInfo) : Z := period_start d + di_proving_period d - 1.
Definition is_open (d : DeadlineInfo) : bool :=
  (current_epoch d >=? open d) && (current_epoch d <? close d).
Definition has_elapsed (d : DeadlineInfo) : bool := current_epoch d >=? close d.
Definition last (d : DeadlineInfo) : Z := close d - 1.
Definition next_open (d : DeadlineInfo) : Z := close d.
Definition fault_cutoff_passed (d : DeadlineInfo) : bool := current_epoch d >=? fault_cutoff d.

Definition next_not_elapsed (d : DeadlineInfo) : DeadlineInfo :=
  if negb (has_elapsed d) then d
  else
    let gap := current_epoch d - close d in
    let delta_periods := 1 + Z.quot gap (di_proving_period d) in
    di_new (period_start d + di_proving_period d * delta_periods) (index d) (current_epoch d)
      (di_period_deadlines d) (di_proving_period d) (di_challenge_window d)
      (di_challenge_lookback d) (di_fault_declaration_cutoff d).

Definition quant_spec (d : DeadlineInfo) : QuantSpec := mkQuant (di_proving_period d) (last d).

Section deadlines.
Context (policy : Policy).

Definition new_deadline_info (proving_period_start deadline_idx current_epoch : Z) : DeadlineInfo :=
  di_new proving_period_start deadline_idx current_epoch (wpost_period_deadlines policy)
    (wpost_proving_period policy) (wpost_challenge_window policy) (wpost_challenge_lookback policy)
    (fault_declaration_cutoff policy).

Definition deadline_is_mutable (proving_period_start deadline_idx current_epoch : Z) : bool :=
  let deadline_info :=
    next_not_elapsed (new_deadline_info proving_period_start deadline_idx current_epoch) in
  current_epoch <? open deadline_info - wpost_challenge_window policy.

Definition quant_spec_for_deadline (di : DeadlineInfo) : QuantSpec :=
  mkQuant (wpost_proving_period policy) (last di).

Definition deadline_available_for_optimistic_post_dispute
    (proving_period_start deadline_idx current_epoch : Z) : bool :=
  if proving_period_start >? current_epoch then false
  else
    let dl_info :=
      next_not_elapsed (new_deadline_info proving_period_start deadline_idx current_epoch) in
    negb (is_open dl_info) &&
    (current_epoch <? (close dl_info - wpost_proving_period policy) + wpost_dispute_window policy).

Definition deadline_available_for_compaction
    (proving_period_start deadline_idx current_epoch : Z) : bool :=
  deadline_is_mutable proving_period_start deadline_idx current_epoch &&
  negb (deadline_available_for_optimistic_post_dispute proving_period_start deadline_idx current_epoch).

(** [as u64] of a quotient that is not negative when the period has started. *)
Definition new_deadline_info_from_offset_and_epoch (period_start_seed current_epoch : Z) : DeadlineInfo :=
  let q := mkQuant (wpost_proving_period policy) period_start_seed in
  let current_period_start := quantize_down q current_epoch in
  let current_deadline_idx :=
    (Z.quot (current_epoch - current_period_start) (wpost_challenge_window policy)) mod 2 ^ 64 in
  new_deadline_info current_period_start current_deadline_idx current_epoch.
End deadlines.

(** ** Power *)

Record PowerPair : Type := mkPP {
  raw : Z;
  qa : Z;
}.

#[export] Instance PowerPair_eq_dec : EqDecision PowerPair.
Proof. solve_decision. Defined.

Definition pp_zero : PowerPair := mkPP 0 0.
Definition pp_is_zero (p : PowerPair) : bool := (raw p =? 0) && (qa p =? 0).
Definition pp_add (p q : PowerPair) : PowerPair := mkPP (raw p + raw q) (qa p + qa q).
Definition pp_sub (p q : PowerPair) : PowerPair := mkPP (raw p - raw q) (qa p - qa q).
Definition pp_neg (p : PowerPair) : PowerPair := mkPP (- raw p) (- qa p).

(** ** Sectors (types.rs) *)

Record SectorOnChainInfo : Type := mkSector {
  sector_number : Z;
  seal_proof : SealProof;
  sealed_cid : Cid;
  deprecated_deal_ids : list Z;
  activation : Z;
  expiration : Z;
  deal_weight : Z;
  verified_deal_weight : Z;
  initial_pledge : Z;
  expected_day_reward : option Z;
  expected_storage_pledge : option Z;
  power_base_epoch : Z;
  replaced_day_reward : option Z;
  sector_key_cid : option Cid;
  flags : Z;
  daily_fee : Z;
}.

(** ** Power and fees (policy.rs) *)

Definition SECTOR_QUALITY_PRECISION : Z := 20.
Definition QUALITY_BASE_MULTIPLIER : Z := 10.
Definition VERIFIED_DEAL_WEIGHT_MULTIPLIER : Z := 100.

Definition load_partitions_sectors_max (policy : Policy) (partition_sector_count : Z) : Z :=
  Z.min (addressed_sectors_max policy / partition_sector_count) (addressed_partitions_max policy).

(** Prefix for sealed sector CIDs; codec and hash are fvm_shared's constants. *)
Definition FIL_COMMITMENT_SEALED : Z := 0xf102.
Definition POSEIDON_BLS12_381_A1_FC1 : Z := 0xb401.

Definition is_sealed_sector (c : Cid) : bool :=
  (cid_version c =? 1) && (cid_codec c =? FIL_COMMITMENT_SEALED) &&
  (cid_hash_code c =? POSEIDON_BLS12_381_A1_FC1) && (length (cid_digest c) =? 32)%nat.

Definition can_pre_commit_seal_proof (policy : Policy) (p : SealProof) : bool :=
  valid_pre_commit_proof_type policy p.
Definition can_prove_commit_ni_seal_proof (policy : Policy) (p : SealProof) : bool :=
  valid_prove_commit_ni_proof_type policy p.
Definition can_extend_seal_proof_type (_ : SealProof) : bool := true.

Definition max_prove_commit_duration (policy : Policy) (p : SealProof) : option Z :=
  match p with
  | DRG32GiBV1 | DRG2KiBV1 | DRG8MiBV1 | DRG512MiBV1 | DRG64GiBV1 =>
      Some (EPOCHS_IN_DAY + pre_commit_challenge_delay policy)
  | DRG32GiBV1P1 | DRG64GiBV1P1 | DRG512MiBV1P1 | DRG8MiBV1P1 | DRG2KiBV1P1
  | DRG32GiBSynth | DRG64GiBSynth | DRG512MiBSynth | DRG8MiBSynth | DRG2KiBSynth =>
      Some (30 * EPOCHS_IN_DAY + pre_commit_challenge_delay policy)
  | _ => None
  end.

Definition seal_proof_sector_maximum_lifetime (p : SealProof) : option Z :=
  match p with
  | DRG32GiBV1 | DRG2KiBV1 | DRG8MiBV1 | DRG512MiBV1 | DRG64GiBV1 => Some (EPOCHS_IN_DAY * 540)
  | SealInvalid _ => None
  | _ => Some (EPOCHS_IN_YEAR * 5)
  end.

Definition MIN_SECTOR_EXPIRATION : Z := 180 * EPOCHS_IN_DAY.

(** The division panics for a sector of no duration. *)
Definition quality_for_weight (size duration verified_weight : Z) : MRes Z :=
  let sector_space_time := size * duration in
  let weighted_base_space_time := (sector_space_time - verified_weight) * QUALITY_BASE_MULTIPLIER in
  let weighted_verified_space_time := verified_weight * VERIFIED_DEAL_WEIGHT_MULTIPLIER in
  let weighted_sum_space_time := weighted_base_space_time + weighted_verified_space_time in
  let scaled_up := Z.shiftl weighted_sum_space_time SECTOR_QUALITY_PRECISION in
  if sector_space_time =? 0 then Panic
  else Ok (scaled_up / sector_space_time / QUALITY_BASE_MULTIPLIER).

Definition qa_power_max (size : Z) : Z :=
  size * VERIFIED_DEAL_WEIGHT_MULTIPLIER / QUALITY_BASE_MULTIPLIER.

Definition qa_power_for_weight (size duration verified_weight : Z) : MRes Z :=
  let! quality := quality_for_weight size duration verified_weight in
  Ok (Z.shiftr (size * quality) SECTOR_QUALITY_PRECISION).

(** Of a sector in the table: its duration is not zero ([lasting] in
    MinerStanding, kept by every method), so there is no panic. *)
Definition qa_power_for_sector (size : Z) (sector : SectorOnChainInfo) : Z :=
  let duration := expiration sector - power_base_epoch sector in
  match qa_power_for_weight size duration (verified_deal_weight sector) with
  | Ok power => power
  | _ => 0
  end.

Definition raw_power_for_sector (size : Z) : Z := size.

Definition sector_deals_max (policy : Policy) (size : Z) : Z :=
  Z.max 256 (size / deal_limit_denominator policy).

Definition power_for_sector (size : Z) (s : SectorOnChainInfo) : PowerPair :=
  mkPP size (qa_power_for_sector size s).

Definition power_for_sectors (size : Z) (l : list SectorOnChainInfo) : PowerPair :=
  mkPP (size * Z.of_nat (length l)) (sum_list_Z (qa_power_for_sector size <$> l)).

Definition daily_fee_for_sectors (l : list SectorOnChainInfo) : Z := sum_list_Z (daily_fee <$> l).

Record VestSpec : Type := mkVestSpec {
  initial_delay : Z;
  vest_period : Z;
  step_duration : Z;
  quantization : Z;
}.

Definition REWARD_VESTING_SPEC : VestSpec :=
  mkVestSpec 0 (180 * EPOCHS_IN_DAY) EPOCHS_IN_DAY (12 * EPOCHS_IN_HOUR).

Definition daily_proof_fee (policy : Policy) (circulating_supply qa_power : Z) : Z :=
  daily_fee_multiplier_num policy * circulating_supply * qa_power / daily_fee_multiplier_denom policy.

Definition daily_proof_fee_adjust (daily_fee old_qa_power new_qa_power : Z) : Z :=
  if old_qa_power =? new_qa_power then daily_fee else daily_fee * new_qa_power / old_qa_power.

Definition daily_proof_fee_payable (policy : Policy) (daily_fee estimated_day_reward : Z) : Z :=
  let cap := estimated_day_reward / daily_fee_block_reward_cap_denom policy in
  Z.min cap daily_fee.

(** ** Terminations (termination.rs) *)

Record TerminationResult : Type := mkTR {
  tr_sectors : gmap Z BitField;
  partitions_processed : Z;
  sectors_processed : Z;
}.

Definition tr_new : TerminationResult := mkTR ∅ 0 0.

Definition tr_add (a b : TerminationResult) : MRes TerminationResult :=
  let! p := chk_u64 (partitions_processed a + partitions_processed b) in
  let! s := chk_u64 (sectors_processed a + sectors_processed b) in
  Ok (mkTR (union_with (fun x y => Some (x ∪ y)) (tr_sectors a) (tr_sectors b)) p s).

Definition below_limit (t : TerminationResult) (partition_limit sector_limit : Z) : bool :=
  (partitions_processed t <? partition_limit) && (sectors_processed t <? sector_limit).

Definition tr_is_empty (t : TerminationResult) : bool := sectors_processed t =? 0.

(** ** Beneficiaries (beneficiary.rs) *)

Record BeneficiaryTerm : Type := mkTerm {
  quota : Z;
  used_quota : Z;
  bt_expiration : Z;
}.

Definition default_term : BeneficiaryTerm := mkTerm 0 0 0.

Definition available (t : BeneficiaryTerm) (cur : Z) : Z :=
  if bt_expiration t >? cur then Z.max (quota t - used_quota t) 0 else 0.

Record PendingBeneficiaryChange : Type := mkPending {
  new_beneficiary : Address;
  new_quota : Z;
  new_expiration : Z;
  approved_by_beneficiary : bool;
  approved_by_nominee : bool;
}.

Definition pending_new (b : Address) (quota expiration : Z) : PendingBeneficiaryChange :=
  mkPending b quota expiration false false.
End Miner.
