(* ===== verification/MinerQueues.v ===== *)
(** * The miner actor: queues

    Models bitfield_queue.rs and expiration_queue.rs of src/actors/miner/src:
    the queue of bit fields by epoch, and the queue that says at which epoch
    each sector of a partition expires, on time or early, with the power,
    pledge and fee that leave with it. *)

From stdpp Require Import sorting.
From S2P Require Import Prelude Runtime Collections MinerBase.

Import Miner.

(** A key of an array: [epoch.try_into::<u64>()?]. *)
Definition to_key (epoch : Z) : MRes Z := if 0 <=? epoch then Ok epoch else bail.

(** ** Queues of bit fields (bitfield_queue.rs) *)

Module BQ.

Notation Queue := (gmap Z BitField).

Definition add_to_queue (quant : QuantSpec) (raw_epoch : Z) (values : BitField) (q : Queue)
  : MRes Queue :=
  if bf_empty values then Ok q
  else
    let! epoch := to_key (quantize_up quant raw_epoch) in
    let bitfield := default ∅ (q !! epoch) in
    Ok (<[epoch := bitfield ∪ values]> q).

Definition add_to_queue_values (quant : QuantSpec) (epoch : Z) (values : list Z) (q : Queue)
  : MRes Queue :=
  add_to_queue quant epoch (from_bits values) q.

Definition cut (to_cut : BitField) (q : Queue) : Queue :=
  let cut_all := (fun bf => Collections.cut bf to_cut) <$> q in
  let epochs_to_remove := filter (fun e => cut_all !! e = Some ∅) (keys q) in
  batch_delete epochs_to_remove cut_all.

(** The values are grouped by their quantized epoch, in order. *)
Definition add_many_to_queue_values (quant : QuantSpec) (values : list (Z * Z)) (q : Queue)
  : MRes Queue :=
  let quantized := (fun '(e, v) => (quantize_up quant e, v)) <$> values in
  let epochs := bits (from_bits quantized.*1) in
  rfold (fun q epoch =>
    add_to_queue_values quant epoch (filter (fun p => p.1 = epoch) quantized).*2 q) q epochs.

Definition pop_until (until : Z) (q : Queue) : MRes (BitField * bool * Queue) :=
  let! (popped_values, popped_keys) :=
    for_each_while (fun '(vals, ks) epoch bitfield =>
      if epoch >? until then Ok ((vals, ks), false)
      else Ok ((vals ∪ bitfield, ks ++ [epoch]), true)) (∅, []) (entries q) in
  match popped_keys with
  | [] => Ok (∅, false, q)
  | _ => Ok (popped_values, true, batch_delete popped_keys q)
  end.
End BQ.

(** ** Expiration sets (expiration_queue.rs) *)

Definition ENTRY_SECTORS_MAX : Z := 10000.

Record ExpirationSet : Type := mkES {
  on_time_sectors : BitField;
  early_sectors : BitField;
  on_time_pledge : Z;
  active_power : PowerPair;
  faulty_power : PowerPair;
  fee_deduction : Z;
}.

Definition es_empty : ExpirationSet := mkES ∅ ∅ 0 pp_zero pp_zero 0.

Definition es_validate_state (s : ExpirationSet) : MRes unit :=
  if on_time_pledge s <? 0 then bail
  else if raw (active_power s) <? 0 then bail
  else if qa (active_power s) <? 0 then bail
  else if raw (faulty_power s) <? 0 then bail
  else if qa (faulty_power s) <? 0 then bail
  else if fee_deduction s <? 0 then bail
  else Ok tt.

Definition es_add (on_time early : BitField) (pledge : Z) (active faulty : PowerPair) (fee : Z)
    (s : ExpirationSet) : MRes ExpirationSet :=
  let s := mkES (on_time_sectors s ∪ on_time) (early_sectors s ∪ early) (on_time_pledge s + pledge)
             (pp_add (active_power s) active) (pp_add (faulty_power s) faulty)
             (fee_deduction s + fee) in
  let! _ := es_validate_state s in
  Ok s.

Definition es_remove (on_time early : BitField) (pledge : Z) (active faulty : PowerPair) (fee : Z)
    (s : ExpirationSet) : MRes ExpirationSet :=
  if negb (contains_all (on_time_sectors s) on_time) then bail
  else if negb (contains_all (early_sectors s) early) then bail
  else
    let s := mkES (on_time_sectors s ∖ on_time) (early_sectors s ∖ early) (on_time_pledge s - pledge)
               (pp_sub (active_power s) active) (pp_sub (faulty_power s) faulty)
               (fee_deduction s - fee) in
    if on_time_pledge s <? 0 then bail
    else if (qa (active_power s) <? 0) || (qa (faulty_power s) <? 0) then bail
    else if fee_deduction s <? 0 then bail
    else
      let! _ := es_validate_state s in
      Ok s.

(** No sectors; power and pledge are not checked. *)
Definition es_is_empty (s : ExpirationSet) : bool :=
  bf_empty (on_time_sectors s) && bf_empty (early_sectors s).

Definition es_len (s : ExpirationSet) : Z := bf_len (on_time_sectors s) + bf_len (early_sectors s).

(** ** The expiration queue *)

Module EQ.

Notation Queue := (gmap Z ExpirationSet).

Definition may_get (key : Z) (q : Queue) : MRes ExpirationSet :=
  let! key := to_key key in
  Ok (default es_empty (q !! key)).

Definition must_update (epoch : Z) (s : ExpirationSet) (q : Queue) : MRes Queue :=
  let! key := to_key epoch in
  Ok (<[key := s]> q).

Definition must_update_or_delete (epoch : Z) (s : ExpirationSet) (q : Queue) : MRes Queue :=
  let! key := to_key epoch in
  if es_is_empty s then Ok (delete key q) else Ok (<[key := s]> q).

Record SectorEpochSet : Type := mkSES {
  ses_epoch : Z;
  ses_sectors : list Z;
  ses_power : PowerPair;
  ses_pledge : Z;
  ses_daily_fee : Z;
}.

(** The totals of a group of sectors. *)
Definition group_of (size epoch : Z) (l : list SectorOnChainInfo) : SectorEpochSet :=
  mkSES epoch (sector_number <$> l)
    (foldl (fun p s => pp_add p (power_for_sector size s)) pp_zero l)
    (foldl (fun p s => p + initial_pledge s) 0 l)
    (foldl (fun p s => p + daily_fee s) 0 l).

(** The epochs at which sectors are declared to expire, quantized, in order. *)
Definition declared_epochs (quant : QuantSpec) (l : list SectorOnChainInfo) : list Z :=
  bits (from_bits ((fun s => quantize_up quant (expiration s)) <$> l)).

Definition group_new_sectors_by_declared_expiration (size : Z) (quant : QuantSpec)
    (l : list SectorOnChainInfo) : list SectorEpochSet :=
  (fun e => group_of size e (filter (fun s => quantize_up quant (expiration s) = e) l)) <$>
    declared_epochs quant l.

Record SectorExpirationSet : Type := mkSXS {
  sector_epoch_set : SectorEpochSet;
  expiration_set : ExpirationSet;
}.

(** The sectors of [include_set] that expire on time in [es]; they leave the
    set. *)
Definition group_expiration_set (size : Z) (sectors : gmap Z SectorOnChainInfo)
    (include_set : BitField) (es : ExpirationSet) (epoch : Z)
  : MRes (SectorExpirationSet * BitField) :=
  let numbers := filter (fun u => u ∈ include_set) (bits (on_time_sectors es)) in
  let! infos := rfold (fun acc u => let! s := expect (sectors !! u) in Ok (acc ++ [s])) [] numbers in
  let g := group_of size epoch infos in
  Ok (mkSXS (mkSES epoch numbers (ses_power g) (ses_pledge g) (ses_daily_fee g)) es,
      include_set ∖ from_bits numbers).

Definition check_no_early_sectors (set : BitField) (es : ExpirationSet) : MRes unit :=
  if bool_decide (early_sectors es ∩ set = ∅) then Ok tt else bail.

Definition push_group (g : SectorExpirationSet) (l : list SectorExpirationSet) : list SectorExpirationSet :=
  match ses_sectors (sector_epoch_set g) with [] => l | _ => l ++ [g] end.

Definition by_number (l : list SectorOnChainInfo) : gmap Z SectorOnChainInfo :=
  foldl (fun m s => <[sector_number s := s]> m) ∅ l.

Definition epoch_le (a b : SectorExpirationSet) : Prop :=
  ses_epoch (sector_epoch_set a) <= ses_epoch (sector_epoch_set b).
#[export] Instance epoch_le_dec a b : Decision (epoch_le a b) := Z_le_dec _ _.

Section queue.
Context (quant : QuantSpec) (size : Z).

Definition find_sectors_by_expiration (sectors : list SectorOnChainInfo) (q : Queue)
  : MRes (list SectorExpirationSet) :=
  let declared := declared_epochs quant sectors in
  let sectors_by_number := by_number sectors in
  let all_remaining := from_bits (sector_number <$> sectors) in
  let! (groups, remaining) :=
    rfold (fun '(groups, remaining) e =>
      let! es := may_get e q in
      let! (g, remaining) := group_expiration_set size sectors_by_number remaining es e in
      Ok (push_group g groups, remaining)) ([], all_remaining) declared in
  let! (groups, remaining) :=
    if bf_empty remaining then Ok (groups, remaining)
    else
      for_each_while (fun '(groups, remaining) epoch es =>
        if bool_decide (epoch ∈ declared) then Ok ((groups, remaining), true)
        else
          let! _ := check_no_early_sectors remaining es in
          let! (g, remaining) := group_expiration_set size sectors_by_number remaining es epoch in
          Ok ((push_group g groups, remaining), negb (bf_empty remaining)))
        (groups, remaining) (entries q) in
  if negb (bf_empty remaining) then bail
  else Ok (merge_sort epoch_le groups).

Definition add (raw_epoch : Z) (on_time early : BitField) (active faulty : PowerPair) (pledge fee : Z)
    (q : Queue) : MRes Queue :=
  let epoch := quantize_up quant raw_epoch in
  let! s := may_get epoch q in
  let! s := es_add on_time early pledge active faulty fee s in
  must_update epoch s q.

Definition remove (raw_epoch : Z) (on_time early : BitField) (active faulty : PowerPair)
    (pledge fee : Z) (q : Queue) : MRes Queue :=
  let epoch := quantize_up quant raw_epoch in
  let! key := to_key epoch in
  let! s := ok_or (q !! key) None in
  let! s := es_remove on_time early pledge active faulty fee s in
  must_update_or_delete epoch s q.

(** Sector numbers, power, pledge and daily fee. *)
Record Totals : Type := mkTotals {
  t_sectors : BitField;
  t_power : PowerPair;
  t_pledge : Z;
  t_fee : Z;
}.

Definition add_totals (t : Totals) (g : SectorEpochSet) : Totals :=
  mkTotals (t_sectors t ∪ from_bits (ses_sectors g)) (pp_add (t_power t) (ses_power g))
    (t_pledge t + ses_pledge g) (t_fee t + ses_daily_fee g).

Definition no_totals : Totals := mkTotals ∅ pp_zero 0 0.

Definition add_active_sectors (sectors : list SectorOnChainInfo) (q : Queue) : MRes (Totals * Queue) :=
  rfold (fun '(t, q) g =>
    let! q := add (ses_epoch g) (from_bits (ses_sectors g)) ∅ (ses_power g) pp_zero (ses_pledge g)
                (ses_daily_fee g) q in
    Ok (add_totals t g, q)) (no_totals, q)
    (group_new_sectors_by_declared_expiration size quant sectors).

Definition remove_active_sectors (sectors : list SectorOnChainInfo) (q : Queue) : MRes (Totals * Queue) :=
  let! groups := find_sectors_by_expiration sectors q in
  rfold (fun '(t, q) group =>
    let g := sector_epoch_set group in
    let! q := remove (ses_epoch g) (from_bits (ses_sectors g)) ∅ (ses_power g) pp_zero (ses_pledge g)
                (ses_daily_fee g) q in
    Ok (add_totals t g, q)) (no_totals, q) groups.

Definition reschedule_expirations (new_expiration : Z) (sectors : list SectorOnChainInfo) (q : Queue)
  : MRes Queue :=
  match sectors with
  | [] => Ok q
  | _ =>
      let! (t, q) := remove_active_sectors sectors q in
      add new_expiration (t_sectors t) ∅ (t_power t) pp_zero (t_pledge t) (t_fee t) q
  end.

(** The sectors to move, the power that stays, the power and fee that move. *)
Record FaultTotals : Type := mkFT {
  ft_sectors : list Z;
  ft_expiring : PowerPair;
  ft_rescheduled : PowerPair;
  ft_fee : Z;
}.

Definition reschedule_group (new_quantized : Z) (acc : FaultTotals * Queue) (group : SectorExpirationSet)
  : MRes (FaultTotals * Queue) :=
  let '(t, q) := acc in
  let g := sector_epoch_set group in
  let es := expiration_set group in
  let '(es, t) :=
    if ses_epoch g <=? new_quantized then
      (mkES (on_time_sectors es) (early_sectors es) (on_time_pledge es)
         (pp_sub (active_power es) (ses_power g)) (pp_add (faulty_power es) (ses_power g))
         (fee_deduction es),
       mkFT (ft_sectors t) (pp_add (ft_expiring t) (ses_power g)) (ft_rescheduled t) (ft_fee t))
    else
      (mkES (on_time_sectors es ∖ from_bits (ses_sectors g)) (early_sectors es)
         (on_time_pledge es - ses_pledge g) (pp_sub (active_power es) (ses_power g))
         (faulty_power es) (fee_deduction es - ses_daily_fee g),
       mkFT (ft_sectors t ++ ses_sectors g) (ft_expiring t)
         (pp_add (ft_rescheduled t) (ses_power g)) (ft_fee t + ses_daily_fee g)) in
  let! q := must_update_or_delete (ses_epoch g) es q in
  let! _ := es_validate_state es in
  Ok (t, q).

Definition reschedule_as_faults (new_expiration : Z) (sectors : list SectorOnChainInfo) (q : Queue)
  : MRes (PowerPair * Queue) :=
  let! groups := find_sectors_by_expiration sectors q in
  let new_quantized := quantize_up quant new_expiration in
  let! (t, q) := rfold (reschedule_group new_quantized) (mkFT [] pp_zero pp_zero 0, q) groups in
  let! q :=
    match ft_sectors t with
    | [] => Ok q
    | l => add new_expiration ∅ (from_bits l) pp_zero (ft_rescheduled t) 0 (ft_fee t) q
    end in
  Ok (pp_add (ft_rescheduled t) (ft_expiring t), q).

(** What [reschedule_all_as_faults] collects in its walk. *)
Record AllFaults : Type := mkAF {
  af_epochs : list Z;
  af_sectors : BitField;
  af_power : PowerPair;
  af_fee : Z;
  af_mutated : list (Z * ExpirationSet);
}.

Definition all_faults_step (quantized : Z) (a : AllFaults) (e : Z) (es : ExpirationSet) : MRes AllFaults :=
  if e <=? quantized then
    let es := mkES (on_time_sectors es) (early_sectors es) (on_time_pledge es) pp_zero
                (pp_add (faulty_power es) (active_power es)) (fee_deduction es) in
    Ok (mkAF (af_epochs a) (af_sectors a) (af_power a) (af_fee a) (af_mutated a ++ [(e, es)]))
  else if negb (bf_empty (early_sectors es)) then bail
  else
    Ok (mkAF (af_epochs a ++ [e]) (af_sectors a ∪ on_time_sectors es)
          (pp_add (pp_add (af_power a) (active_power es)) (faulty_power es))
          (af_fee a + fee_deduction es) (af_mutated a)).

Definition reschedule_all_as_faults (fault_expiration : Z) (q : Queue) : MRes Queue :=
  let quantized := quantize_up quant fault_expiration in
  let! a := for_each (all_faults_step quantized) (mkAF [] ∅ pp_zero 0 []) (entries q) in
  let! q := rfold (fun q '(e, es) =>
      let! q := must_update e es q in
      let! _ := es_validate_state es in
      Ok q) q (af_mutated a) in
  match af_epochs a with
  | [] => Ok q
  | rescheduled_epochs =>
      let! q := add fault_expiration ∅ (af_sectors a) pp_zero (af_power a) 0 (af_fee a) q in
      Ok (batch_delete rescheduled_epochs q)
  end.

(** [iter_while_mut]: entries the walk leaves empty are removed afterwards. *)
Definition iter_while_mut {A} (f : A -> Z -> ExpirationSet -> MRes (A * ExpirationSet * bool))
    (acc : A) (q : Queue) : MRes (A * Queue) :=
  let! ((acc, emptied), q) :=
    for_each_while_mut (fun '(acc, emptied) e es =>
      let! (acc, es, keep_going) := f acc e es in
      Ok ((acc, if es_is_empty es then emptied ++ [e] else emptied), es, keep_going))
      (acc, []) (entries q) q in
  Ok (acc, batch_delete emptied q).

(** The sectors still to be found, those to reschedule, the power recovered. *)
Record Recovered : Type := mkRec {
  r_remaining : gmap Z SectorOnChainInfo;
  r_rescheduled : list SectorOnChainInfo;
  r_power : PowerPair;
}.

Definition sum_power (l : list SectorOnChainInfo) : PowerPair :=
  foldl (fun p s => pp_add p (power_for_sector size s)) pp_zero l.

Definition recover_step (r : Recovered) (_ : Z) (es : ExpirationSet)
  : MRes (Recovered * ExpirationSet * bool) :=
  let on_time := omap (fun u => r_remaining r !! u) (bits (on_time_sectors es)) in
  let remaining := foldr delete (r_remaining r) (bits (on_time_sectors es)) in
  let early_unset := filter (fun u => is_Some (remaining !! u)) (bits (early_sectors es)) in
  let early := omap (fun u => remaining !! u) (bits (early_sectors es)) in
  let remaining := foldr delete remaining (bits (early_sectors es)) in
  let active_power_delta := sum_power on_time in
  let faulty_power_delta := pp_neg (pp_add (sum_power on_time) (sum_power early)) in
  let daily_fee_delta := - sum_list_Z (daily_fee <$> early) in
  let es :=
    if bool_decide (early_unset = []) && pp_is_zero faulty_power_delta && pp_is_zero active_power_delta
    then es
    else mkES (on_time_sectors es) (early_sectors es ∖ from_bits early_unset) (on_time_pledge es)
           (pp_add (active_power es) active_power_delta) (pp_add (faulty_power es) faulty_power_delta)
           (fee_deduction es + daily_fee_delta) in
  let! _ := es_validate_state es in
  Ok (mkRec remaining (r_rescheduled r ++ early)
        (pp_add (pp_add (r_power r) (sum_power on_time)) (sum_power early)),
      es, negb (bool_decide (remaining = ∅))).

Definition reschedule_recovered (sectors : list SectorOnChainInfo) (q : Queue)
  : MRes (PowerPair * Queue) :=
  let! (r, q) := iter_while_mut recover_step (mkRec (by_number sectors) [] pp_zero) q in
  if negb (bool_decide (r_remaining r = ∅)) then bail
  else
    let! (_, q) := add_active_sectors (r_rescheduled r) q in
    Ok (r_power r, q).

(** Old and new sector numbers, and the changes of power, pledge and fee. *)
Record Replaced : Type := mkReplaced {
  old_numbers : BitField;
  new_numbers : BitField;
  power_delta : PowerPair;
  pledge_delta : Z;
  fee_delta : Z;
}.

Definition replace_sectors (old_sectors new_sectors : list SectorOnChainInfo) (q : Queue)
  : MRes (Replaced * Queue) :=
  let! (o, q) := remove_active_sectors old_sectors q in
  let! (n, q) := add_active_sectors new_sectors q in
  Ok (mkReplaced (t_sectors o) (t_sectors n) (pp_sub (t_power n) (t_power o))
        (t_pledge n - t_pledge o) (t_fee n - t_fee o), q).

(** What [remove_sectors] has removed, the power that was recovering and the
    sectors still to be found. *)
Record Removal : Type := mkRemoval {
  rm_removed : ExpirationSet;
  rm_recovering : PowerPair;
  rm_remaining : BitField;
}.

(** One faulty sector in one entry.  The membership tests are made on the sets
    of the entry before the walk over the faulty sectors. *)
Definition remove_one (faults recovering on_time early : BitField) (acc : Removal * ExpirationSet)
    (s : SectorOnChainInfo) : Removal * ExpirationSet :=
  let '(r, es) := acc in
  let n := sector_number s in
  let removed := rm_removed r in
  let '(found, es, removed) :=
    if bf_get on_time n then
      (true,
       mkES (on_time_sectors es ∖ {[n]}) (early_sectors es) (on_time_pledge es - initial_pledge s)
         (active_power es) (faulty_power es) (fee_deduction es),
       mkES (on_time_sectors removed ∪ {[n]}) (early_sectors removed)
         (on_time_pledge removed + initial_pledge s) (active_power removed) (faulty_power removed)
         (fee_deduction removed))
    else if bf_get early n then
      (true,
       mkES (on_time_sectors es) (early_sectors es ∖ {[n]}) (on_time_pledge es) (active_power es)
         (faulty_power es) (fee_deduction es),
       mkES (on_time_sectors removed) (early_sectors removed ∪ {[n]}) (on_time_pledge removed)
         (active_power removed) (faulty_power removed) (fee_deduction removed))
    else (false, es, removed) in
  if negb found then (r, es)
  else
    let power := power_for_sector size s in
    let '(es, removed) :=
      if bf_get faults n then
        (mkES (on_time_sectors es) (early_sectors es) (on_time_pledge es) (active_power es)
           (pp_sub (faulty_power es) power) (fee_deduction es),
         mkES (on_time_sectors removed) (early_sectors removed) (on_time_pledge removed)
           (active_power removed) (pp_add (faulty_power removed) power) (fee_deduction removed))
      else
        (mkES (on_time_sectors es) (early_sectors es) (on_time_pledge es)
           (pp_sub (active_power es) power) (faulty_power es) (fee_deduction es),
         mkES (on_time_sectors removed) (early_sectors removed) (on_time_pledge removed)
           (pp_add (active_power removed) power) (faulty_power removed) (fee_deduction removed)) in
    let recovering_power :=
      if bf_get recovering n then pp_add (rm_recovering r) power else rm_recovering r in
    (mkRemoval
       (mkES (on_time_sectors removed) (early_sectors removed) (on_time_pledge removed)
          (active_power removed) (faulty_power removed) (fee_deduction removed + daily_fee s))
       recovering_power (rm_remaining r ∖ {[n]}),
     mkES (on_time_sectors es) (early_sectors es) (on_time_pledge es) (active_power es)
       (faulty_power es) (fee_deduction es - daily_fee s)).

Definition remove_step (faults recovering : BitField) (faulty_sectors : list SectorOnChainInfo)
    (r : Removal) (_ : Z) (es : ExpirationSet) : MRes (Removal * ExpirationSet * bool) :=
  if bf_len (on_time_sectors es) >? ENTRY_SECTORS_MAX then bail
  else if bf_len (early_sectors es) >? ENTRY_SECTORS_MAX then bail
  else
    let '(r, es) := foldl (remove_one faults recovering (on_time_sectors es) (early_sectors es)) (r, es)
                      faulty_sectors in
    let! _ := es_validate_state es in
    Ok (r, es, negb (bf_empty (rm_remaining r))).

Definition remove_sectors (policy : Policy) (sectors : list SectorOnChainInfo)
    (faults recovering : BitField) (q : Queue) : MRes (ExpirationSet * PowerPair * Queue) :=
  if bf_len faults >? addressed_sectors_max policy then bail
  else if bf_len recovering >? addressed_sectors_max policy then bail
  else
    let faulty := filter (fun s => sector_number s ∈ faults) sectors in
    let non_faulty := filter (fun s => sector_number s ∉ faults) sectors in
    let remaining := from_bits (sector_number <$> sectors) ∖ from_bits (sector_number <$> non_faulty) in
    let! (t, q) := remove_active_sectors non_faulty q in
    let removed := mkES (t_sectors t) ∅ (t_pledge t) (t_power t) pp_zero (t_fee t) in
    let! (r, q) := iter_while_mut (remove_step faults recovering faulty)
                     (mkRemoval removed pp_zero remaining) q in
    if negb (bf_empty (rm_remaining r)) then bail
    else Ok (rm_removed r, rm_recovering r, q).

Definition pop_until (until : Z) (q : Queue) : MRes (ExpirationSet * Queue) :=
  let! (popped, ks) :=
    for_each_while (fun '(p, ks) e es =>
      if e >? until then Ok ((p, ks), false)
      else
        Ok ((mkES (on_time_sectors p ∪ on_time_sectors es) (early_sectors p ∪ early_sectors es)
               (on_time_pledge p + on_time_pledge es) (pp_add (active_power p) (active_power es))
               (pp_add (faulty_power p) (faulty_power es)) (fee_deduction p + fee_deduction es),
             ks ++ [e]), true)) (es_empty, []) (entries q) in
  Ok (popped, batch_delete ks q).
End queue.
End EQ.
