(* ===== verification/MinerPartition.v ===== *)
(** * The miner actor: sectors and partitions

    Models sectors.rs, sector_map.rs and partition_state.rs of
    src/actors/miner/src: the sector infos of a miner, and the partitions that
    hold the state of up to a few thousand sectors each — unproven, faulty,
    recovering, terminated — with the power of each class. *)

From S2P Require Import Prelude Runtime Collections MinerBase MinerQueues.

Import Miner.

(** ** Sectors (sectors.rs) *)

Module Sectors.

Notation Sectors := (gmap Z SectorOnChainInfo).

Definition get (n : Z) (s : Sectors) : option SectorOnChainInfo := s !! n.

Definition must_get (n : Z) (s : Sectors) : MRes SectorOnChainInfo :=
  ok_or (get n s) (Some USR_NOT_FOUND).

Definition load_sectors (numbers : BitField) (s : Sectors) : MRes (list SectorOnChainInfo) :=
  rfold (fun acc n =>
    let! info := ok_or (s !! n) (Some USR_NOT_FOUND) in
    Ok (acc ++ [info])) [] (bits numbers).

Definition delete_sectors (numbers : BitField) (s : Sectors) : MRes Sectors :=
  rfold (fun s n =>
    match s !! n with
    | Some _ => Ok (delete n s)
    | None => bail_code USR_NOT_FOUND
    end) s (bits numbers).

Definition store (infos : list SectorOnChainInfo) (s : Sectors) : MRes Sectors :=
  rfold (fun s info =>
    if sector_number info >? MAX_SECTOR_NUMBER then bail
    else Ok (<[sector_number info := info]> s)) s infos.

Definition load_with_fault_max (sectors faults : BitField) (fault_stand_in : Z) (s : Sectors)
  : MRes (list SectorOnChainInfo) :=
  let! stand_in_info := must_get fault_stand_in s in
  rfold (fun acc i =>
    let! info := if negb (bf_get faults i) then must_get i s else Ok stand_in_info in
    Ok (acc ++ [info])) [] (bits sectors).

Definition load_for_proof (proven_sectors expected_faults : BitField) (s : Sectors)
  : MRes (list SectorOnChainInfo) :=
  let non_faults := proven_sectors ∖ expected_faults in
  if bf_empty non_faults then Ok []
  else
    let! good_sector_number := expect (first non_faults) in
    load_with_fault_max proven_sectors expected_faults good_sector_number s.

(** Each sector is selected at most once; all of [field] must be found. *)
Definition select_sectors (sectors : list SectorOnChainInfo) (field : BitField)
  : MRes (list SectorOnChainInfo) :=
  let '(included, to_include) :=
    foldl (fun '(acc, todo) s =>
      if bf_get todo (sector_number s) then (acc ++ [s], todo ∖ {[sector_number s]}) else (acc, todo))
      ([], field) sectors in
  if negb (bf_empty to_include) then bail else Ok included.
End Sectors.

(** ** Sector maps (sector_map.rs) *)

Module SectorMap.

Notation PartitionSectorMap := (gmap Z BitField).
Notation DeadlineSectorMap := (gmap Z (gmap Z BitField)).

(** [checked_add]. *)
Definition add_counts (a b : Z) : MRes Z := if in_u64 (a + b) then Ok (a + b) else bail.

Definition p_add (partition_idx : Z) (numbers : BitField) (m : PartitionSectorMap) : PartitionSectorMap :=
  match m !! partition_idx with
  | Some old => <[partition_idx := old ∪ numbers]> m
  | None => <[partition_idx := numbers]> m
  end.

Definition p_count (m : PartitionSectorMap) : MRes (Z * Z) :=
  let! sectors := rfold (fun n '(_, bf) => add_counts n (bf_len bf)) 0 (entries m) in
  Ok (count m, sectors).

Definition add (policy : Policy) (deadline_idx partition_idx : Z) (numbers : BitField)
    (m : DeadlineSectorMap) : MRes DeadlineSectorMap :=
  if deadline_idx >=? wpost_period_deadlines policy then bail
  else Ok (<[deadline_idx := p_add partition_idx numbers (default ∅ (m !! deadline_idx))]> m).

Definition add_values (policy : Policy) (deadline_idx partition_idx : Z) (numbers : list Z)
    (m : DeadlineSectorMap) : MRes DeadlineSectorMap :=
  add policy deadline_idx partition_idx (from_bits numbers) m.

Definition count_all (m : DeadlineSectorMap) : MRes (Z * Z) :=
  rfold (fun '(partitions, sectors) '(_, pm) =>
    let! (p, s) := p_count pm in
    let! partitions := add_counts partitions p in
    let! sectors := add_counts sectors s in
    Ok (partitions, sectors)) (0, 0) (entries m).

Definition check (max_partitions max_sectors : Z) (m : DeadlineSectorMap) : MRes unit :=
  let! (partition_count, sector_count) :=
    match count_all m with Err _ => bail | r => r end in
  if partition_count >? max_partitions then bail
  else if sector_count >? max_sectors then bail
  else Ok tt.
End SectorMap.

(** ** Partitions (partition_state.rs) *)

Record Partition : Type := mkPartition {
  sectors : BitField;
  unproven : BitField;
  faults : BitField;
  recoveries : BitField;
  terminated : BitField;
  expirations_epochs : gmap Z ExpirationSet;
  early_terminated : gmap Z BitField;
  live_power : PowerPair;
  unproven_power : PowerPair;
  p_faulty_power : PowerPair;
  recovering_power : PowerPair;
}.

Module Part.

Definition new : Partition := mkPartition ∅ ∅ ∅ ∅ ∅ ∅ ∅ pp_zero pp_zero pp_zero pp_zero.

Definition live_sectors (p : Partition) : BitField := sectors p ∖ terminated p.
Definition active_sectors (p : Partition) : BitField := (live_sectors p ∖ faults p) ∖ unproven p.
Definition active_power (p : Partition) : PowerPair :=
  pp_sub (pp_sub (live_power p) (p_faulty_power p)) (unproven_power p).

Definition validate_power_state (p : Partition) : MRes unit :=
  if (raw (live_power p) <? 0) || (qa (live_power p) <? 0) then bail
  else if (raw (unproven_power p) <? 0) || (qa (unproven_power p) <? 0) then bail
  else if (raw (p_faulty_power p) <? 0) || (qa (p_faulty_power p) <? 0) then bail
  else if (raw (recovering_power p) <? 0) || (qa (recovering_power p) <? 0) then bail
  else if raw (unproven_power p) >? raw (live_power p) then bail
  else if raw (p_faulty_power p) >? raw (live_power p) then bail
  else if (raw (recovering_power p) >? raw (live_power p))
          || (raw (recovering_power p) >? raw (p_faulty_power p)) then bail
  else Ok tt.

Definition validate_bf_state (p : Partition) : MRes unit :=
  let merge := unproven p ∪ faults p in
  if contains_any (terminated p) merge then bail
  else if negb (contains_all (sectors p) (merge ∪ terminated p)) then bail
  else if negb (contains_all (faults p) (recoveries p)) then bail
  else Ok tt.

Definition validate_state (p : Partition) : MRes unit :=
  let! _ := validate_power_state p in
  validate_bf_state p.

Definition validate_partition_contains_sectors (p : Partition) (ns : BitField) : MRes unit :=
  if contains_all (sectors p) ns then Ok tt else bail_code USR_ILLEGAL_ARGUMENT.

Section operations.
Context (size : Z) (quant : QuantSpec).

Definition add_sectors (proven : bool) (infos : list SectorOnChainInfo) (p : Partition)
  : MRes (PowerPair * Z * Partition) :=
  let! (t, expirations) := EQ.add_active_sectors quant size infos (expirations_epochs p) in
  let ns := EQ.t_sectors t in
  let power := EQ.t_power t in
  if contains_any (sectors p) ns then bail
  else
    let p := mkPartition (sectors p ∪ ns) (if proven then unproven p else unproven p ∪ ns) (faults p)
               (recoveries p) (terminated p) expirations (early_terminated p)
               (pp_add (live_power p) power)
               (if proven then unproven_power p else pp_add (unproven_power p) power)
               (p_faulty_power p) (recovering_power p) in
    let! _ := validate_state p in
    Ok (power, EQ.t_fee t, p).

(** Power delta and new faulty power. *)
Definition add_faults (ns : BitField) (infos : list SectorOnChainInfo) (fault_expiration : Z)
    (p : Partition) : MRes (PowerPair * PowerPair * Partition) :=
  let! (new_faulty_power, queue) :=
    EQ.reschedule_as_faults quant size fault_expiration infos (expirations_epochs p) in
  let lost := ns ∩ unproven p in
  let! unproven_infos := Sectors.select_sectors infos lost in
  let '(unproven_power', power_delta) :=
    match unproven_infos with
    | [] => (unproven_power p, pp_neg new_faulty_power)
    | _ =>
        let lost_unproven_power := power_for_sectors size unproven_infos in
        (pp_sub (unproven_power p) lost_unproven_power,
         pp_add (pp_neg new_faulty_power) lost_unproven_power)
    end in
  let p := mkPartition (sectors p) (unproven p ∖ lost) (faults p ∪ ns) (recoveries p) (terminated p)
             queue (early_terminated p) (live_power p) unproven_power'
             (pp_add (p_faulty_power p) new_faulty_power) (recovering_power p) in
  let! _ := validate_state p in
  Ok (power_delta, new_faulty_power, p).

Definition remove_recoveries (ns : BitField) (power : PowerPair) (p : Partition) : Partition :=
  if bf_empty ns then p
  else mkPartition (sectors p) (unproven p) (faults p) (recoveries p ∖ ns) (terminated p)
         (expirations_epochs p) (early_terminated p) (live_power p) (unproven_power p)
         (p_faulty_power p) (pp_sub (recovering_power p) power).

(** The new faults, the power delta and the new faulty power. *)
Definition record_faults (all : gmap Z SectorOnChainInfo) (ns : BitField) (fault_expiration_epoch : Z)
    (p : Partition) : MRes (BitField * PowerPair * PowerPair * Partition) :=
  let! _ := validate_partition_contains_sectors p ns in
  let retracted_recoveries := recoveries p ∩ ns in
  let new_faults := ((ns ∖ retracted_recoveries) ∖ terminated p) ∖ faults p in
  let! new_fault_sectors := Sectors.load_sectors new_faults all in
  let! (power_delta, new_faulty_power, p) :=
    match new_fault_sectors with
    | [] => Ok (pp_zero, pp_zero, p)
    | _ => add_faults new_faults new_fault_sectors fault_expiration_epoch p
    end in
  let! retracted_recovery_sectors := Sectors.load_sectors retracted_recoveries all in
  let p :=
    match retracted_recovery_sectors with
    | [] => p
    | l => remove_recoveries retracted_recoveries (power_for_sectors size l) p
    end in
  let! _ := validate_state p in
  Ok (new_faults, power_delta, new_faulty_power, p).

Definition recover_faults (all : gmap Z SectorOnChainInfo) (p : Partition) : MRes (PowerPair * Partition) :=
  let! recovered_sectors := Sectors.load_sectors (recoveries p) all in
  let! (power, queue) := EQ.reschedule_recovered quant size recovered_sectors (expirations_epochs p) in
  let p := mkPartition (sectors p) (unproven p) (faults p ∖ recoveries p) ∅ (terminated p) queue
             (early_terminated p) (live_power p) (unproven_power p)
             (pp_sub (p_faulty_power p) power) (pp_sub (recovering_power p) power) in
  let! _ := validate_state p in
  Ok (power, p).

Definition activate_unproven (p : Partition) : PowerPair * Partition :=
  (unproven_power p,
   mkPartition (sectors p) ∅ (faults p) (recoveries p) (terminated p) (expirations_epochs p)
     (early_terminated p) (live_power p) pp_zero (p_faulty_power p) (recovering_power p)).

Definition declare_faults_recovered (all : gmap Z SectorOnChainInfo) (ns : BitField) (p : Partition)
  : MRes Partition :=
  let! _ := validate_partition_contains_sectors p ns in
  let new_recoveries := (ns ∩ faults p) ∖ recoveries p in
  let! recovery_sectors := Sectors.load_sectors new_recoveries all in
  let power := power_for_sectors size recovery_sectors in
  let p := mkPartition (sectors p) (unproven p) (faults p) (recoveries p ∪ new_recoveries)
             (terminated p) (expirations_epochs p) (early_terminated p) (live_power p)
             (unproven_power p) (p_faulty_power p) (pp_add (recovering_power p) power) in
  let! _ := validate_state p in
  Ok p.

Definition set_expirations (q : gmap Z ExpirationSet) (p : Partition) : Partition :=
  mkPartition (sectors p) (unproven p) (faults p) (recoveries p) (terminated p) q
    (early_terminated p) (live_power p) (unproven_power p) (p_faulty_power p) (recovering_power p).

Definition reschedule_expirations (all : gmap Z SectorOnChainInfo) (new_expiration : Z) (ns : BitField)
    (p : Partition) : MRes (list SectorOnChainInfo * Partition) :=
  let present := ns ∩ sectors p in
  let live := present ∖ terminated p in
  let active := live ∖ faults p in
  let! infos := Sectors.load_sectors active all in
  let! q := EQ.reschedule_expirations quant size new_expiration infos (expirations_epochs p) in
  let p := set_expirations q p in
  let! _ := validate_state p in
  Ok (infos, p).

(** The changes of power, pledge and fee. *)
Definition replace_sectors (old_sectors new_sectors : list SectorOnChainInfo) (p : Partition)
  : MRes (PowerPair * Z * Z * Partition) :=
  let! (r, q) := EQ.replace_sectors quant size old_sectors new_sectors (expirations_epochs p) in
  if negb (contains_all (active_sectors p) (EQ.old_numbers r)) then bail
  else
    let p := mkPartition ((sectors p ∖ EQ.old_numbers r) ∪ EQ.new_numbers r) (unproven p) (faults p)
               (recoveries p) (terminated p) q (early_terminated p)
               (pp_add (live_power p) (EQ.power_delta r)) (unproven_power p) (p_faulty_power p)
               (recovering_power p) in
    let! _ := validate_state p in
    Ok (EQ.power_delta r, EQ.pledge_delta r, EQ.fee_delta r, p).

Definition record_early_termination (epoch : Z) (ns : BitField) (p : Partition) : MRes Partition :=
  let! q := BQ.add_to_queue NO_QUANTIZATION epoch ns (early_terminated p) in
  Ok (mkPartition (sectors p) (unproven p) (faults p) (recoveries p) (terminated p)
        (expirations_epochs p) q (live_power p) (unproven_power p) (p_faulty_power p)
        (recovering_power p)).

(** What was removed, and the unproven power of it. *)
Definition terminate_sectors (policy : Policy) (all : gmap Z SectorOnChainInfo) (epoch : Z)
    (ns : BitField) (p : Partition) : MRes (ExpirationSet * PowerPair * Partition) :=
  if negb (contains_all (live_sectors p) ns) then bail_code USR_ILLEGAL_ARGUMENT
  else
    let! infos := Sectors.load_sectors ns all in
    let! (removed, removed_recovering, q) :=
      EQ.remove_sectors quant size policy infos (faults p) (recoveries p) (expirations_epochs p) in
    let removed_sectors := on_time_sectors removed ∪ early_sectors removed in
    let! p := record_early_termination epoch removed_sectors (set_expirations q p) in
    let unproven_nos := removed_sectors ∩ unproven p in
    let! unproven_infos := Sectors.select_sectors infos unproven_nos in
    let removed_unproven_power := power_for_sectors size unproven_infos in
    let p := mkPartition (sectors p) (unproven p ∖ unproven_nos) (faults p ∖ removed_sectors)
               (recoveries p ∖ removed_sectors) (terminated p ∪ removed_sectors)
               (expirations_epochs p) (early_terminated p)
               (pp_sub (pp_sub (live_power p) (MinerQueues.active_power removed)) (faulty_power removed))
               (pp_sub (unproven_power p) removed_unproven_power)
               (pp_sub (p_faulty_power p) (faulty_power removed))
               (pp_sub (recovering_power p) removed_recovering) in
    let removed := mkES (on_time_sectors removed) (early_sectors removed) (on_time_pledge removed)
                     (pp_sub (MinerQueues.active_power removed) removed_unproven_power)
                     (faulty_power removed) (fee_deduction removed) in
    let! _ := validate_state p in
    Ok (removed, removed_unproven_power, p).

Definition pop_expired_sectors (until : Z) (p : Partition) : MRes (ExpirationSet * Partition) :=
  if negb (bf_empty (unproven p)) then bail
  else
    let! (popped, q) := EQ.pop_until until (expirations_epochs p) in
    let expired_sectors := on_time_sectors popped ∪ early_sectors popped in
    if negb (bf_empty (recoveries p)) then bail
    else if negb (pp_is_zero (recovering_power p)) then bail
    else if contains_any (terminated p) expired_sectors then bail
    else
      let p := mkPartition (sectors p) (unproven p) (faults p ∖ expired_sectors) (recoveries p)
                 (terminated p ∪ expired_sectors) q (early_terminated p)
                 (pp_sub (live_power p) (pp_add (MinerQueues.active_power popped) (faulty_power popped)))
                 (unproven_power p) (pp_sub (p_faulty_power p) (faulty_power popped))
                 (recovering_power p) in
      let! p := record_early_termination until (early_sectors popped) p in
      let! _ := validate_state p in
      Ok (popped, p).

(** Power delta, penalized power and new faulty power. *)
Definition record_missed_post (fault_expiration : Z) (p : Partition)
  : MRes (PowerPair * PowerPair * PowerPair * Partition) :=
  let! q := EQ.reschedule_all_as_faults quant fault_expiration (expirations_epochs p) in
  let new_faulty_power := pp_sub (live_power p) (p_faulty_power p) in
  let penalized_power := pp_add (recovering_power p) new_faulty_power in
  let power_delta := pp_sub (unproven_power p) new_faulty_power in
  let p := mkPartition (sectors p) ∅ (live_sectors p) ∅ (terminated p) q (early_terminated p)
             (live_power p) pp_zero (live_power p) pp_zero in
  let! _ := validate_state p in
  Ok (power_delta, penalized_power, new_faulty_power, p).

(** What [pop_early_terminations] collects in its walk. *)
Record Popping : Type := mkPopping {
  po_processed : list Z;
  po_remaining : option (BitField * Z);
  po_result : TerminationResult;
}.

Definition pop_step (max_sectors : Z) (a : Popping) (epoch : Z) (ns : BitField) : MRes (Popping * bool) :=
  let r := po_result a in
  let n := bf_len ns in
  let! limit := chk_u64 (max_sectors - sectors_processed r) in
  let! (a, to_process, processed) :=
    if limit <? n then
      let! to_process := ok_or (slice0 ns limit) None in
      Ok (mkPopping (po_processed a) (Some (ns ∖ to_process, epoch)) r, to_process, limit)
    else Ok (mkPopping (po_processed a ++ [epoch]) (po_remaining a) r, ns, n) in
  let! total := chk_u64 (sectors_processed r + processed) in
  let r := mkTR (<[epoch := to_process]> (tr_sectors r)) (partitions_processed r) total in
  Ok (mkPopping (po_processed a) (po_remaining a) r, total <? max_sectors).

Definition pop_early_terminations (max_sectors : Z) (p : Partition)
  : MRes (TerminationResult * bool * Partition) :=
  let! a := for_each_while (pop_step max_sectors) (mkPopping [] None (mkTR ∅ 1 0))
              (entries (early_terminated p)) in
  let q := batch_delete (po_processed a) (early_terminated p) in
  let q := match po_remaining a with Some (rest, epoch) => <[epoch := rest]> q | None => q end in
  let p := mkPartition (sectors p) (unproven p) (faults p) (recoveries p) (terminated p)
             (expirations_epochs p) q (live_power p) (unproven_power p) (p_faulty_power p)
             (recovering_power p) in
  let! _ := validate_state p in
  Ok (po_result a, count q >? 0, p).

(** Power delta, new fault power, retracted recovery power, whether there are
    new faults. *)
Definition record_skipped_faults (all : gmap Z SectorOnChainInfo) (fault_expiration : Z)
    (skipped : BitField) (p : Partition) : MRes (PowerPair * PowerPair * PowerPair * bool * Partition) :=
  if bf_empty skipped then Ok (pp_zero, pp_zero, pp_zero, false, p)
  else if negb (contains_all (sectors p) skipped) then bail_code USR_ILLEGAL_ARGUMENT
  else
    let retracted_recoveries := recoveries p ∩ skipped in
    let! retracted_recovery_sectors := Sectors.load_sectors retracted_recoveries all in
    let retracted_recovery_power := power_for_sectors size retracted_recovery_sectors in
    let new_faults := (skipped ∖ terminated p) ∖ faults p in
    let! new_fault_sectors := Sectors.load_sectors new_faults all in
    let! (power_delta, new_fault_power, p) :=
      match add_faults new_faults new_fault_sectors fault_expiration p with
      | Err e => bail_code (default USR_ILLEGAL_STATE e)
      | r => r
      end in
    let p := remove_recoveries retracted_recoveries retracted_recovery_power p in
    let! _ := validate_state p in
    Ok (power_delta, new_fault_power, retracted_recovery_power,
        match new_fault_sectors with [] => false | _ => true end, p).
End operations.
End Part.
