(* ===== verification/MinerDeadline.v ===== *)
(** * The miner actor: deadlines

    Models deadline_state.rs, deadline_assignment.rs and [find_sector] of
    deadlines.rs, of src/actors/miner/src: the partitions due at a deadline,
    with the memoized counts, power and fee of their sectors, the proofs
    submitted in the current window and the snapshots disputes refer to; the 48
    deadlines of a miner; and the assignment of new sectors to deadlines.

    The array of the partitions and the arrays of the snapshots stand for their
    roots: comparing roots is comparing arrays.  The binary heap of the
    assignment is the list of its entries, and its top the least of them, which
    is unique as the order ends with the index. *)

From S2P Require Import Prelude Runtime Collections MinerBase MinerQueues MinerPartition.

Import Miner.

#[export] Instance ExpirationSet_eq_dec : EqDecision ExpirationSet.
Proof. solve_decision. Defined.
#[export] Instance Partition_eq_dec : EqDecision Partition.
Proof. solve_decision. Defined.

(** A proof of fvm_shared: its type and bytes. *)
Record PoStProof : Type := mkPoStProof {
  post_proof : PoStProofType;
  proof_bytes : list Z;
}.
#[export] Instance PoStProof_eq_dec : EqDecision PoStProof.
Proof. solve_decision. Defined.

Record WindowedPoSt : Type := mkWPoSt {
  wp_partitions : BitField;
  wp_proofs : list PoStProof;
}.
#[export] Instance WindowedPoSt_eq_dec : EqDecision WindowedPoSt.
Proof. solve_decision. Defined.

Record Deadline : Type := mkDeadline {
  partitions : gmap Z Partition;
  dl_expirations_epochs : gmap Z BitField;
  partitions_posted : BitField;
  early_terminations : BitField;
  dl_live_sectors : Z;
  total_sectors : Z;
  dl_faulty_power : PowerPair;
  optimistic_post_submissions : gmap Z WindowedPoSt;
  sectors_snapshot : gmap Z SectorOnChainInfo;
  partitions_snapshot : gmap Z Partition;
  optimistic_post_submissions_snapshot : gmap Z WindowedPoSt;
  dl_live_power : PowerPair;
  dl_daily_fee : Z;
}.

Record DisputeInfo : Type := mkDispute {
  all_sector_nos : BitField;
  ignored_sector_nos : BitField;
  disputed_sectors : gmap Z BitField;
  disputed_power : PowerPair;
}.

Record PoStPartition : Type := mkPoStPartition {
  pp_index : Z;
  pp_skipped : BitField;
}.

Record PoStResult : Type := mkPoStResult {
  pr_power_delta : PowerPair;
  pr_new_faulty_power : PowerPair;
  pr_retracted_recovery_power : PowerPair;
  pr_recovered_power : PowerPair;
  pr_sectors : BitField;
  pr_ignored_sectors : BitField;
  pr_partitions : BitField;
}.

Module DL.

Definition new : Deadline := mkDeadline ∅ ∅ ∅ ∅ 0 0 pp_zero ∅ ∅ ∅ ∅ pp_zero 0.

(** ** Field updates *)

Definition set_partitions (x : gmap Z Partition) (d : Deadline) : Deadline :=
  mkDeadline x (dl_expirations_epochs d) (partitions_posted d) (early_terminations d)
    (dl_live_sectors d) (total_sectors d) (dl_faulty_power d) (optimistic_post_submissions d)
    (sectors_snapshot d) (partitions_snapshot d) (optimistic_post_submissions_snapshot d)
    (dl_live_power d) (dl_daily_fee d).
Definition set_expirations (x : gmap Z BitField) (d : Deadline) : Deadline :=
  mkDeadline (partitions d) x (partitions_posted d) (early_terminations d)
    (dl_live_sectors d) (total_sectors d) (dl_faulty_power d) (optimistic_post_submissions d)
    (sectors_snapshot d) (partitions_snapshot d) (optimistic_post_submissions_snapshot d)
    (dl_live_power d) (dl_daily_fee d).
Definition set_posted (x : BitField) (d : Deadline) : Deadline :=
  mkDeadline (partitions d) (dl_expirations_epochs d) x (early_terminations d)
    (dl_live_sectors d) (total_sectors d) (dl_faulty_power d) (optimistic_post_submissions d)
    (sectors_snapshot d) (partitions_snapshot d) (optimistic_post_submissions_snapshot d)
    (dl_live_power d) (dl_daily_fee d).
Definition set_early (x : BitField) (d : Deadline) : Deadline :=
  mkDeadline (partitions d) (dl_expirations_epochs d) (partitions_posted d) x
    (dl_live_sectors d) (total_sectors d) (dl_faulty_power d) (optimistic_post_submissions d)
    (sectors_snapshot d) (partitions_snapshot d) (optimistic_post_submissions_snapshot d)
    (dl_live_power d) (dl_daily_fee d).
Definition set_counts (live total : Z) (d : Deadline) : Deadline :=
  mkDeadline (partitions d) (dl_expirations_epochs d) (partitions_posted d) (early_terminations d)
    live total (dl_faulty_power d) (optimistic_post_submissions d)
    (sectors_snapshot d) (partitions_snapshot d) (optimistic_post_submissions_snapshot d)
    (dl_live_power d) (dl_daily_fee d).
Definition set_power (faulty live : PowerPair) (d : Deadline) : Deadline :=
  mkDeadline (partitions d) (dl_expirations_epochs d) (partitions_posted d) (early_terminations d)
    (dl_live_sectors d) (total_sectors d) faulty (optimistic_post_submissions d)
    (sectors_snapshot d) (partitions_snapshot d) (optimistic_post_submissions_snapshot d)
    live (dl_daily_fee d).
Definition set_daily_fee (fee : Z) (d : Deadline) : Deadline :=
  mkDeadline (partitions d) (dl_expirations_epochs d) (partitions_posted d) (early_terminations d)
    (dl_live_sectors d) (total_sectors d) (dl_faulty_power d) (optimistic_post_submissions d)
    (sectors_snapshot d) (partitions_snapshot d) (optimistic_post_submissions_snapshot d)
    (dl_live_power d) fee.
Definition set_proofs (subs snap : gmap Z WindowedPoSt) (d : Deadline) : Deadline :=
  mkDeadline (partitions d) (dl_expirations_epochs d) (partitions_posted d) (early_terminations d)
    (dl_live_sectors d) (total_sectors d) (dl_faulty_power d) subs
    (sectors_snapshot d) (partitions_snapshot d) snap
    (dl_live_power d) (dl_daily_fee d).
Definition set_snapshots (sectors : gmap Z SectorOnChainInfo) (parts : gmap Z Partition) (d : Deadline)
  : Deadline :=
  mkDeadline (partitions d) (dl_expirations_epochs d) (partitions_posted d) (early_terminations d)
    (dl_live_sectors d) (total_sectors d) (dl_faulty_power d) (optimistic_post_submissions d)
    sectors parts (optimistic_post_submissions_snapshot d)
    (dl_live_power d) (dl_daily_fee d).

(** ** Operations *)

Definition load_partition (idx : Z) (d : Deadline) : MRes Partition :=
  ok_or (partitions d !! idx) (Some USR_NOT_FOUND).

Definition load_partition_snapshot (idx : Z) (d : Deadline) : MRes Partition :=
  ok_or (partitions_snapshot d !! idx) (Some USR_NOT_FOUND).

Definition validate_state (d : Deadline) : MRes unit :=
  if dl_live_sectors d >? total_sectors d then bail
  else if (raw (dl_faulty_power d) <? 0) || (qa (dl_faulty_power d) <? 0) then bail
  else Ok tt.

Definition is_live (d : Deadline) : bool :=
  (dl_live_sectors d >? 0) || negb (bf_empty (partitions_posted d))
  || negb (bool_decide (partitions d = partitions_snapshot d))
  || negb (bool_decide (optimistic_post_submissions d = optimistic_post_submissions_snapshot d)).

Section operations.
Context (size : Z) (quant : QuantSpec).

Definition add_expiration_partitions (expiration_epoch : Z) (ps : list Z) (d : Deadline) : MRes Deadline :=
  match ps with
  | [] => Ok d
  | _ =>
      let! q := BQ.add_to_queue_values quant expiration_epoch ps (dl_expirations_epochs d) in
      Ok (set_expirations q d)
  end.

Definition pop_expired_partitions (until : Z) (d : Deadline) : MRes (BitField * bool * Deadline) :=
  let! (popped, modified, q) := BQ.pop_until until (dl_expirations_epochs d) in
  Ok (popped, modified, if (modified : bool) then set_expirations q d else d).

(** The sum of two expiration sets. *)
Definition es_join (a b : ExpirationSet) : ExpirationSet :=
  mkES (on_time_sectors a ∪ on_time_sectors b) (early_sectors a ∪ early_sectors b)
    (on_time_pledge a + on_time_pledge b) (pp_add (active_power a) (active_power b))
    (pp_add (faulty_power a) (faulty_power b)) (fee_deduction a + fee_deduction b).

Definition pop_expired_sectors (until : Z) (d : Deadline) : MRes (ExpirationSet * Deadline) :=
  let! (expired_partitions, modified, d) := pop_expired_partitions until d in
  if negb (modified : bool) then Ok (es_empty, d)
  else
    let! (all, with_early, ps) :=
      rfold (fun '(all, with_early, ps) i =>
        let! p := ok_or (ps !! i) None in
        let! (es, p) := Part.pop_expired_sectors until p in
        Ok (es_join all es, if bf_empty (early_sectors es) then with_early else with_early ++ [i],
            <[i := p]> ps)) (es_empty, [], partitions d) (bits expired_partitions) in
    let d := set_early (early_terminations d ∪ from_bits with_early) (set_partitions ps d) in
    let! n := chk_u64 (bf_len (on_time_sectors all) + bf_len (early_sectors all)) in
    let! live := chk_u64 (dl_live_sectors d - n) in
    let d := set_counts live (total_sectors d) d in
    let d := set_power (pp_sub (dl_faulty_power d) (faulty_power all))
               (pp_sub (pp_sub (dl_live_power d) (faulty_power all)) (active_power all)) d in
    Ok (all, set_daily_fee (dl_daily_fee d - fee_deduction all) d).

(** The loop of [add_sectors]: the last partition is filled first, then new
    ones are opened.  Every partition but the first takes a sector when
    partitions are not of size 0, so the fuel is enough; running out of it
    stands for the gas running out. *)
Fixpoint fill_partitions (fuel : nat) (partition_size : Z) (proven new_fees : bool) (idx : Z)
    (infos : list SectorOnChainInfo) (power : PowerPair) (fee : Z) (updates : list (Z * Z))
    (ps : gmap Z Partition) : MRes (PowerPair * Z * list (Z * Z) * gmap Z Partition) :=
  match fuel with
  | O => Panic
  | S fuel =>
      let p := default Part.new (ps !! idx) in
      let sector_count := bf_len (sectors p) in
      if sector_count >=? partition_size then
        fill_partitions fuel partition_size proven new_fees (idx + 1) infos power fee updates ps
      else
        let n := Z.to_nat (Z.min (partition_size - sector_count) (Z.of_nat (length infos))) in
        let partition_new_sectors := take n infos in
        let infos := drop n infos in
        let! (partition_power, partition_daily_fee, p) :=
          Part.add_sectors size quant proven partition_new_sectors p in
        let power := pp_add power partition_power in
        let fee := if new_fees then fee + partition_daily_fee else fee in
        let ps := <[idx := p]> ps in
        let updates := updates ++ ((fun s => (expiration s, idx)) <$> partition_new_sectors) in
        match infos with
        | [] => Ok (power, fee, updates, ps)
        | _ => fill_partitions fuel partition_size proven new_fees (idx + 1) infos power fee updates ps
        end
  end.

(** Power and daily fee added. *)
Definition add_sectors (partition_size : Z) (proven new_fees : bool) (infos : list SectorOnChainInfo)
    (d : Deadline) : MRes (PowerPair * Z * Deadline) :=
  match infos with
  | [] => Ok (pp_zero, 0, d)
  | _ =>
      let n := Z.of_nat (length infos) in
      let! live := chk_u64 (dl_live_sectors d + n) in
      let! total := chk_u64 (total_sectors d + n) in
      let d := set_counts live total d in
      let start := Z.max (count (partitions d) - 1) 0 in
      let! (power, fee, updates, ps) :=
        fill_partitions (S (S (length infos))) partition_size proven new_fees start infos pp_zero 0 []
          (partitions d) in
      let d := set_partitions ps d in
      let! q := BQ.add_many_to_queue_values quant updates (dl_expirations_epochs d) in
      let d := set_expirations q d in
      let d := set_daily_fee (dl_daily_fee d + fee) d in
      Ok (power, fee, set_power (dl_faulty_power d) (pp_add (dl_live_power d) power) d)
  end.

(** The walk over the partitions with early terminations. *)
Fixpoint pop_partitions (max_partitions max_sectors : Z) (idxs : list Z) (finished : list Z)
    (result : TerminationResult) (ps : gmap Z Partition)
  : MRes (list Z * TerminationResult * gmap Z Partition) :=
  match idxs with
  | [] => Ok (finished, result, ps)
  | i :: idxs =>
      match ps !! i with
      | None => pop_partitions max_partitions max_sectors idxs (finished ++ [i]) result ps
      | Some p =>
          let! limit := chk_u64 (max_sectors - sectors_processed result) in
          let! (partition_result, more, p) := Part.pop_early_terminations limit p in
          let! result := tr_add result partition_result in
          let finished := if (more : bool) then finished else finished ++ [i] in
          let ps := <[i := p]> ps in
          if negb (below_limit result max_partitions max_sectors) then Ok (finished, result, ps)
          else pop_partitions max_partitions max_sectors idxs finished result ps
      end
  end.

Definition pop_early_terminations (max_partitions max_sectors : Z) (d : Deadline)
  : MRes (TerminationResult * bool * Deadline) :=
  let! (finished, result, ps) :=
    pop_partitions max_partitions max_sectors (bits (early_terminations d)) [] tr_new (partitions d) in
  let early := early_terminations d ∖ from_bits finished in
  Ok (result, negb (bf_empty early), set_partitions ps (set_early early d)).

(** Power lost by active sectors. *)
Definition terminate_sectors (policy : Policy) (all : gmap Z SectorOnChainInfo) (epoch : Z)
    (partition_sectors : gmap Z BitField) (d : Deadline) : MRes (PowerPair * Deadline) :=
  rfold (fun '(power_lost, d) '(idx, ns) =>
    let! p := ok_or (partitions d !! idx) (Some USR_NOT_FOUND) in
    let! (removed, removed_unproven, p) := Part.terminate_sectors size quant policy all epoch ns p in
    let d := set_partitions (<[idx := p]> (partitions d)) d in
    let! d :=
      if es_is_empty removed then Ok d
      else
        let! live := chk_u64 (dl_live_sectors d - es_len removed) in
        Ok (set_counts live (total_sectors d) (set_early (early_terminations d ∪ {[idx]}) d)) in
    let d := set_power (pp_sub (dl_faulty_power d) (faulty_power removed))
               (pp_sub (pp_sub (pp_sub (dl_live_power d) (active_power removed)) (faulty_power removed))
                  removed_unproven) d in
    let d := set_daily_fee (dl_daily_fee d - fee_deduction removed) d in
    Ok (pp_add power_lost (active_power removed), d)) (pp_zero, d) (entries partition_sectors).

(** The partitions to keep, the dead and live sectors of those to remove, and
    their power. *)
Definition compact_step (to_remove : BitField) (acc : list Partition * BitField * BitField * PowerPair)
    (idx : Z) (p : Partition) : MRes (list Partition * BitField * BitField * PowerPair) :=
  let '(kept, dead, live, power) := acc in
  if negb (bf_get to_remove idx) then Ok (kept ++ [p], dead, live, power)
  else if negb (bf_empty (faults p)) then bail_code USR_ILLEGAL_ARGUMENT
  else if negb (bf_empty (unproven p)) then bail_code USR_ILLEGAL_ARGUMENT
  else Ok (kept, dead ∪ terminated p, live ∪ Part.live_sectors p, pp_add power (live_power p)).

(** The array of a list, from index 0. *)
Definition array_of {A} (l : list A) : gmap Z A :=
  list_to_map (imap (fun i a => (Z.of_nat i, a)) l).

Definition compact_partitions (all : gmap Z SectorOnChainInfo) (partition_size : Z)
    (to_remove : BitField) (d : Deadline) : MRes (BitField * Deadline) :=
  let partition_count := count (partitions d) in
  if bf_len to_remove >? partition_count then bail_code USR_ILLEGAL_ARGUMENT
  else
    match list.last (bits to_remove) with
    | None => Ok (∅, d)
    | Some max_partition =>
        if max_partition >=? partition_count then bail_code USR_ILLEGAL_ARGUMENT
        else if negb (bf_empty (early_terminations d)) then bail_code USR_ILLEGAL_ARGUMENT
        else
          let! (kept, dead, live, removed_power) :=
            for_each (compact_step to_remove) ([], ∅, ∅, pp_zero) (entries (partitions d)) in
          let d := set_partitions (array_of kept) d in
          let! live' := chk_u64 (dl_live_sectors d - bf_len live) in
          let! n := chk_u64 (bf_len live + bf_len dead) in
          let! total' := chk_u64 (total_sectors d - n) in
          let d := set_counts live' total' d in
          let d := set_power (dl_faulty_power d) (pp_sub (dl_live_power d) removed_power) d in
          let d := set_expirations (BQ.cut to_remove (dl_expirations_epochs d)) d in
          let! live_infos := Sectors.load_sectors live all in
          let! (added_power, added_fee, d) :=
            match add_sectors partition_size true false live_infos d with
            | Err e => bail_code (default USR_ILLEGAL_STATE e)
            | r => r
            end in
          if negb (added_fee =? 0) then bail
          else if negb (bool_decide (removed_power = added_power)) then bail
          else Ok (dead, d)
    end.

Definition illegal_state {A} (r : MRes A) : MRes A :=
  match r with Err e => bail_code (default USR_ILLEGAL_STATE e) | r => r end.

(** Power delta. *)
Definition record_faults (all : gmap Z SectorOnChainInfo) (fault_expiration_epoch : Z)
    (partition_sectors : gmap Z BitField) (d : Deadline) : MRes (PowerPair * Deadline) :=
  let! (with_fault, power_delta, d) :=
    rfold (fun '(with_fault, power_delta, d) '(idx, ns) =>
      let! p := ok_or (partitions d !! idx) (Some USR_NOT_FOUND) in
      let! (new_faults, delta, new_faulty_power, p) :=
        Part.record_faults size quant all ns fault_expiration_epoch p in
      let d := set_power (pp_add (dl_faulty_power d) new_faulty_power) (dl_live_power d) d in
      Ok (if bf_empty new_faults then with_fault else with_fault ++ [idx], pp_add power_delta delta,
          set_partitions (<[idx := p]> (partitions d)) d)) ([], pp_zero, d) (entries partition_sectors) in
  let! d := illegal_state (add_expiration_partitions fault_expiration_epoch with_fault d) in
  Ok (power_delta, d).

Definition declare_faults_recovered (all : gmap Z SectorOnChainInfo)
    (partition_sectors : gmap Z BitField) (d : Deadline) : MRes Deadline :=
  rfold (fun d '(idx, ns) =>
    let! p := ok_or (partitions d !! idx) (Some USR_NOT_FOUND) in
    let! p := Part.declare_faults_recovered size all ns p in
    Ok (set_partitions (<[idx := p]> (partitions d)) d)) d (entries partition_sectors).

(** One partition at the end of the deadline. *)
Definition end_step (posted : BitField) (fault_expiration_epoch : Z)
    (acc : list Z * PowerPair * PowerPair * Deadline) (idx : Z)
  : MRes (list Z * PowerPair * PowerPair * Deadline) :=
  let '(rescheduled, power_delta, penalized, d) := acc in
  if bf_get posted idx then Ok acc
  else
    let! p := ok_or (partitions d !! idx) (Some USR_ILLEGAL_STATE) in
    if pp_is_zero (recovering_power p) && bool_decide (p_faulty_power p = live_power p) then Ok acc
    else
      let! (delta, part_penalized, new_faulty, p) :=
        illegal_state (Part.record_missed_post quant fault_expiration_epoch p) in
      let rescheduled := if pp_is_zero new_faulty then rescheduled else rescheduled ++ [idx] in
      let d := set_partitions (<[idx := p]> (partitions d)) d in
      let d := set_power (pp_add (dl_faulty_power d) new_faulty) (dl_live_power d) d in
      Ok (rescheduled, pp_add power_delta delta, pp_add penalized part_penalized, d).

(** Power delta and penalized power. *)
Definition process_deadline_end (fault_expiration_epoch : Z) (all : gmap Z SectorOnChainInfo) (d : Deadline)
  : MRes (PowerPair * PowerPair * Deadline) :=
  let idxs := Z.of_nat <$> seq 0 (Z.to_nat (count (partitions d))) in
  let! (rescheduled, power_delta, penalized, d) :=
    rfold (end_step (partitions_posted d) fault_expiration_epoch) ([], pp_zero, pp_zero, d) idxs in
  let! d := illegal_state (add_expiration_partitions fault_expiration_epoch rescheduled d) in
  let snapshot := optimistic_post_submissions d in
  let d := set_proofs ∅ snapshot (set_posted ∅ d) in
  let sectors := if bool_decide (snapshot = ∅) then ∅ else all in
  Ok (power_delta, penalized, set_snapshots sectors (partitions d) d).

Definition load_partitions_for_dispute (ps : BitField) (d : Deadline) : MRes DisputeInfo :=
  rfold (fun info idx =>
    let! p := ok_or (partitions_snapshot d !! idx) None in
    Ok (mkDispute (all_sector_nos info ∪ sectors p)
          (ignored_sector_nos info ∪ faults p ∪ terminated p ∪ unproven p)
          (SectorMap.p_add idx (Part.active_sectors p) (disputed_sectors info))
          (pp_add (disputed_power info) (Part.active_power p))))
    (mkDispute ∅ ∅ ∅ pp_zero) (bits ps).

(** One proven partition. *)
Definition prove_step (all : gmap Z SectorOnChainInfo) (fault_expiration : Z)
    (acc : list Z * PoStResult * Deadline) (post : PoStPartition) : MRes (list Z * PoStResult * Deadline) :=
  let '(rescheduled, r, d) := acc in
  let idx := pp_index post in
  let! p := ok_or (partitions d !! idx) (Some USR_NOT_FOUND) in
  let! (delta, new_fault_power, retracted, has_new_faults, p) :=
    Part.record_skipped_faults size quant all fault_expiration (pp_skipped post) p in
  let rescheduled := if (has_new_faults : bool) then rescheduled ++ [idx] else rescheduled in
  let! (recovered, p) := Part.recover_faults size quant all p in
  let '(activated, p) := Part.activate_unproven p in
  let delta := pp_add delta activated in
  let r := mkPoStResult (pp_add (pp_add (pr_power_delta r) delta) recovered)
             (pp_add (pr_new_faulty_power r) new_fault_power)
             (pp_add (pr_retracted_recovery_power r) retracted)
             (pp_add (pr_recovered_power r) recovered)
             (pr_sectors r ∪ sectors p) (pr_ignored_sectors r ∪ faults p ∪ terminated p)
             (pr_partitions r) in
  let d := set_posted (partitions_posted d ∪ {[idx]}) (set_partitions (<[idx := p]> (partitions d)) d) in
  Ok (rescheduled, r, d).

Definition record_proven_sectors (all : gmap Z SectorOnChainInfo) (fault_expiration : Z)
    (posts : list PoStPartition) (d : Deadline) : MRes (PoStResult * Deadline) :=
  let partition_indexes := from_bits (pp_index <$> posts) in
  if negb (bf_len partition_indexes =? Z.of_nat (length posts)) then bail_code USR_ILLEGAL_ARGUMENT
  else if negb (bf_empty (partitions_posted d ∩ partition_indexes)) then bail_code USR_ILLEGAL_ARGUMENT
  else
    let! (rescheduled, r, d) :=
      rfold (prove_step all fault_expiration)
        ([], mkPoStResult pp_zero pp_zero pp_zero pp_zero ∅ ∅ partition_indexes, d) posts in
    let! d := illegal_state (add_expiration_partitions fault_expiration rescheduled d) in
    let d := set_power (pp_add (pp_sub (dl_faulty_power d) (pr_recovered_power r))
                          (pr_new_faulty_power r)) (dl_live_power d) d in
    Ok (r, d).

Definition record_post_proofs (ps : BitField) (proofs : list PoStProof) (d : Deadline) : Deadline :=
  let arr := optimistic_post_submissions d in
  set_proofs (<[count arr := mkWPoSt ps proofs]> arr) (optimistic_post_submissions_snapshot d) d.

Definition take_post_proofs (idx : Z) (d : Deadline) : MRes (BitField * list PoStProof * Deadline) :=
  let arr := optimistic_post_submissions_snapshot d in
  let! post := ok_or (arr !! idx) (Some USR_ILLEGAL_ARGUMENT) in
  Ok (wp_partitions post, wp_proofs post,
      set_proofs (optimistic_post_submissions d) (delete idx arr) d).

Definition reschedule_sector_expirations (all : gmap Z SectorOnChainInfo) (new_expiration : Z)
    (partition_sectors : gmap Z BitField) (d : Deadline) : MRes (list SectorOnChainInfo * Deadline) :=
  let! (rescheduled, all_replaced, ps) :=
    rfold (fun '(rescheduled, all_replaced, ps) '(idx, ns) =>
      match ps !! idx with
      | None => Ok (rescheduled, all_replaced, ps)
      | Some p =>
          let! (replaced, p) := Part.reschedule_expirations size quant all new_expiration ns p in
          match replaced with
          | [] => Ok (rescheduled, all_replaced, ps)
          | _ => Ok (rescheduled ++ [idx], all_replaced ++ replaced, <[idx := p]> ps)
          end
      end) ([], [], partitions d) (entries partition_sectors) in
  match rescheduled with
  | [] => Ok (all_replaced, d)
  | _ =>
      let! d := add_expiration_partitions new_expiration rescheduled (set_partitions ps d) in
      Ok (all_replaced, d)
  end.
End operations.
End DL.

(** ** The deadlines of a miner *)

Module Deadlines.

Notation Deadlines := (list Deadline).

Definition new (policy : Policy) : Deadlines :=
  replicate (Z.to_nat (wpost_period_deadlines policy)) DL.new.

(** The index is a [u64]. *)
Definition load_deadline (idx : Z) (ds : Deadlines) : MRes Deadline :=
  if idx >=? Z.of_nat (length ds) then bail_code USR_ILLEGAL_ARGUMENT
  else ok_or (ds !! Z.to_nat idx) (Some USR_ILLEGAL_ARGUMENT).

Definition update_deadline (policy : Policy) (idx : Z) (d : Deadline) (ds : Deadlines) : MRes Deadlines :=
  if idx >=? wpost_period_deadlines policy then bail
  else
    let! _ := DL.validate_state d in
    if idx <? Z.of_nat (length ds) then Ok (<[Z.to_nat idx := d]> ds) else Panic.

(** [find_sector]: the deadline and partition of a sector. *)
Definition find_partition (n : Z) (d : Deadline) : option Z :=
  fst <$> head (filter (fun '(_, p) => n ∈ sectors p) (entries (partitions d))).

Fixpoint find_from (n : Z) (idx : Z) (ds : Deadlines) : MRes (Z * Z) :=
  match ds with
  | [] => bail
  | d :: ds =>
      match find_partition n d with
      | Some p => Ok (idx, p)
      | None => find_from n (idx + 1) ds
      end
  end.

Definition find_sector (n : Z) (ds : Deadlines) : MRes (Z * Z) := find_from n 0 ds.
End Deadlines.

(** ** Assignment of sectors to deadlines (deadline_assignment.rs) *)

Module Assign.

Definition div_rounding_up (dividend divisor : Z) : Z :=
  dividend / divisor + (if dividend mod divisor >? 0 then 1 else 0).

Record Info : Type := mkInfo {
  a_index : Z;
  a_live_sectors : Z;
  a_total_sectors : Z;
}.

Section order.
Context (partition_size : Z).

Definition partitions_after_assignment (a : Info) : Z :=
  div_rounding_up (a_total_sectors a + 1) partition_size.
Definition compact_partitions_after_assignment (a : Info) : Z :=
  div_rounding_up (a_live_sectors a + 1) partition_size.
Definition is_full_now (a : Info) : bool := a_total_sectors a mod partition_size =? 0.
Definition max_partitions_reached (max_partitions : Z) (a : Info) : bool :=
  a_total_sectors a >=? partition_size * max_partitions.

Definition then_with (c d : comparison) : comparison := match c with Eq => d | _ => c end.

(** [false < true]. *)
Definition bool_compare (a b : bool) : comparison :=
  match a, b with false, true => Lt | true, false => Gt | _, _ => Eq end.

Definition cmp (a b : Info) : comparison :=
  then_with (Z.compare (compact_partitions_after_assignment a) (compact_partitions_after_assignment b))
  (then_with (Z.compare (partitions_after_assignment a) (partitions_after_assignment b))
  (then_with (bool_compare (is_full_now a) (is_full_now b))
  (then_with (if negb (is_full_now a) && negb (is_full_now b)
              then CompOpp (Z.compare (a_total_sectors a) (a_total_sectors b)) else Eq)
  (then_with (Z.compare (a_live_sectors a) (a_live_sectors b))
             (Z.compare (a_index a) (a_index b)))))).

(** The least entry, and the others. *)
Fixpoint peek (l : list Info) : option Info :=
  match l with
  | [] => None
  | a :: l =>
      match peek l with
      | None => Some a
      | Some b => match cmp b a with Lt => Some b | _ => Some a end
      end
  end.

(** The entry of a deadline after one more sector is assigned to it. *)
Definition assigned (a : Info) : MRes Info :=
  let! live := chk_u64 (a_live_sectors a + 1) in
  let! total := chk_u64 (a_total_sectors a + 1) in
  Ok (mkInfo (a_index a) live total).

Definition update (a : Info) (l : list Info) : list Info :=
  (fun b => if a_index b =? a_index a then a else b) <$> l.

Fixpoint assign_loop (max_partitions : Z) (heap : list Info) (changes : list (list SectorOnChainInfo))
    (infos : list SectorOnChainInfo) : MRes (list (list SectorOnChainInfo)) :=
  match infos with
  | [] => Ok changes
  | s :: infos =>
      let! info := expect (peek heap) in
      if max_partitions_reached max_partitions info then bail
      else
        let! cs := expect (changes !! Z.to_nat (a_index info)) in
        let changes := <[Z.to_nat (a_index info) := cs ++ [s]]> changes in
        let! info := assigned info in
        assign_loop max_partitions (update info heap) changes infos
  end.
End order.

(** Deadlines that must not change are [None]. *)
Definition assign_deadlines (policy : Policy) (max_partitions partition_size : Z)
    (deadlines : list (option Deadline)) (infos : list SectorOnChainInfo)
  : MRes (list (list SectorOnChainInfo)) :=
  let heap := omap (fun '(i, d) => (fun d => mkInfo (Z.of_nat i) (dl_live_sectors d) (total_sectors d)) <$> d)
                (imap pair deadlines) in
  match heap with
  | [] => Panic
  | _ =>
      assign_loop partition_size max_partitions heap
        (replicate (Z.to_nat (wpost_period_deadlines policy)) []) infos
  end.
End Assign.
