(* ===== verification/MinerFunds.v ===== *)
(** * The miner actor: vesting and monies

    Models vesting_state.rs and monies.rs of src/actors/miner/src: the table of
    locked rewards with the epochs at which they vest, and the formulas of
    pledges, deposits, penalties and fees.

    The tail of the vesting table, stored under its own root, is the list of
    its entries.  The iterator of a new vesting schedule stops when the whole
    sum has vested, which happens as soon as the vesting period has elapsed:
    one step per [step_duration] is enough fuel. *)

From S2P Require Import Prelude Runtime Smooth Reward Collections MinerBase.

Import Miner.

(** ** The vesting table *)

Record VestingFund : Type := mkFund {
  vf_epoch : Z;
  vf_amount : Z;
}.

(** [None], or the head and the tail. *)
Notation VestingFunds := (option (VestingFund * list VestingFund)).

Module Vesting.

(** The vested amount of the entries before the epoch, and the other entries. *)
Fixpoint take_vested (funds : list VestingFund) (current_epoch : Z) : Z * list VestingFund :=
  match funds with
  | f :: rest =>
      if vf_epoch f <? current_epoch then
        let '(sum, rest) := take_vested rest current_epoch in (vf_amount f + sum, rest)
      else (0, funds)
  | [] => (0, [])
  end.

Definition load (v : VestingFunds) : list VestingFund :=
  match v with
  | None => []
  | Some (head, tail) => if vf_amount head >? 0 then head :: tail else tail
  end.

Definition save (funds : list VestingFund) : VestingFunds :=
  match funds with
  | [] => None
  | head :: tail => Some (head, tail)
  end.

Definition can_vest (v : VestingFunds) (current_epoch : Z) : bool :=
  match v with
  | Some (head, _) => vf_epoch head <? current_epoch
  | None => false
  end.

Definition unlock_vested_funds (current_epoch : Z) (v : VestingFunds) : Z * VestingFunds :=
  if negb (can_vest v current_epoch) then (0, v)
  else
    let '(unlocked, funds) := take_vested (load v) current_epoch in
    (unlocked, save funds).

(** The schedule of a new sum. *)
Fixpoint schedule (fuel : nat) (spec : VestSpec) (quant : QuantSpec) (vest_begin vesting_sum : Z)
    (vested_so_far epoch : Z) : option (list VestingFund) :=
  if vested_so_far >=? vesting_sum then Some []
  else
    match fuel with
    | O => None
    | S fuel =>
        let epoch := epoch + step_duration spec in
        let vest_epoch := quantize_up quant epoch in
        let elapsed := vest_epoch - vest_begin in
        let target_vest :=
          if elapsed <? vest_period spec then vesting_sum * elapsed / vest_period spec
          else vesting_sum in
        (fun l => mkFund vest_epoch (target_vest - vested_so_far) :: l)
          <$> schedule fuel spec quant vest_begin vesting_sum target_vest epoch
    end.

Definition schedule_fuel (spec : VestSpec) : nat :=
  S (Z.to_nat (div_ceil (vest_period spec) (step_duration spec))).

(** [merge_join_by] on the epochs, adding the amounts of equal epochs. *)
Fixpoint merge (old : list VestingFund) : list VestingFund -> list VestingFund :=
  fix merge_new (new : list VestingFund) : list VestingFund :=
    match old, new with
    | [], _ => new
    | _, [] => old
    | a :: old', b :: new' =>
        match Z.compare (vf_epoch a) (vf_epoch b) with
        | Lt => a :: merge old' new
        | Gt => b :: merge_new new'
        | Eq => mkFund (vf_epoch a) (vf_amount a + vf_amount b) :: merge old' new'
        end
    end.

(** Amount unlocked.  Without a step the iterator would not end. *)
Definition add_locked_funds (current_epoch vesting_sum proving_period_start : Z) (spec : VestSpec)
    (v : VestingFunds) : MRes (Z * VestingFunds) :=
  let vest_begin := current_epoch + initial_delay spec in
  let quant := mkQuant (quantization spec) proving_period_start in
  let! new_funds := expect (schedule (schedule_fuel spec) spec quant vest_begin vesting_sum 0 vest_begin) in
  let '(unlocked, funds) := take_vested (merge (load v) new_funds) current_epoch in
  Ok (unlocked, save funds).

(** Vested and unvested amounts taken, and what is left. *)
Fixpoint take_unvested (funds : list VestingFund) (current_epoch target : Z) : Z * Z * list VestingFund :=
  match funds with
  | [] => (0, 0, [])
  | f :: rest =>
      if vf_epoch f <? current_epoch then
        let '(vested, unvested, rest) := take_unvested rest current_epoch target in
        (vf_amount f + vested, unvested, rest)
      else if vf_amount f <? target then
        let '(vested, unvested, rest) := take_unvested rest current_epoch (target - vf_amount f) in
        (vested, vf_amount f + unvested, rest)
      else (0, target, mkFund (vf_epoch f) (vf_amount f - target) :: rest)
  end.

Definition unlock_vested_and_unvested_funds (current_epoch target : Z) (v : VestingFunds)
  : Z * Z * VestingFunds :=
  match v with
  | None => (0, 0, None)
  | Some (head, tail) =>
      if (vf_epoch head >=? current_epoch) && (vf_amount head >=? target) then
        (0, target, Some (mkFund (vf_epoch head) (vf_amount head - target), tail))
      else
        let '(vested, unvested, funds) := take_unvested (load v) current_epoch target in
        (vested, unvested, save funds)
  end.
End Vesting.

(** ** Monies *)

Module Monies.

Definition PRE_COMMIT_DEPOSIT_FACTOR : Z := 20.
Definition INITIAL_PLEDGE_FACTOR : Z := 20.
Definition PRE_COMMIT_DEPOSIT_PROJECTION_PERIOD : Z := PRE_COMMIT_DEPOSIT_FACTOR * EPOCHS_IN_DAY.
Definition INITIAL_PLEDGE_PROJECTION_PERIOD : Z := INITIAL_PLEDGE_FACTOR * EPOCHS_IN_DAY.
Definition LOCK_TARGET_FACTOR_NUM : Z := 3.
Definition LOCK_TARGET_FACTOR_DENOM : Z := 10.
Definition LOCKED_REWARD_FACTOR_NUM : Z := 3.
Definition LOCKED_REWARD_FACTOR_DENOM : Z := 4.
Definition TERM_FEE_PLEDGE_MULTIPLE_NUM : Z := 85.
Definition TERM_FEE_PLEDGE_MULTIPLE_DENOM : Z := 1000.
Definition TERM_FEE_MIN_PLEDGE_MULTIPLE_NUM : Z := 2.
Definition TERM_FEE_MIN_PLEDGE_MULTIPLE_DENOM : Z := 100.
Definition TERM_FEE_MAX_FAULT_FEE_MULTIPLE_NUM : Z := 105.
Definition TERM_FEE_MAX_FAULT_FEE_MULTIPLE_DENOM : Z := 100.
Definition INITIAL_PLEDGE_MAX_PER_BYTE : Z := 10 ^ 18 / Z.shiftl 32 30.
Definition BASE_REWARD_FOR_DISPUTED_WINDOW_POST : Z := 4 * 10 ^ 18.
Definition BASE_PENALTY_FOR_DISPUTED_WINDOW_POST : Z := 20 * 10 ^ 18.
Definition CONTINUED_FAULT_PROJECTION_PERIOD : Z := EPOCHS_IN_DAY * 351 / 100.
Definition INVALID_WINDOW_POST_PROJECTION_PERIOD : Z :=
  CONTINUED_FAULT_PROJECTION_PERIOD + 2 * EPOCHS_IN_DAY.
Definition TERMINATION_PENALTY_LOWER_BOUND_PROJECTIONS_PERIOD : Z := EPOCHS_IN_DAY * 35 / 10.
Definition TERMINATION_LIFETIME_CAP : Z := 140.
Definition CONSENSUS_FAULT_FACTOR : Z := 5.
Definition GAMMA_FIXED_POINT_FACTOR : Z := 1000.
Definition FIP_0081_ACTIVATION_PERMILLE : Z := 300.

Section estimates.
Context {E : Type} (reward_estimate network_qa_power_estimate : FilterEstimate).

Definition expected_reward_for_power (qa_sector_power projection_duration : Z) : Res E Z :=
  if estimate network_qa_power_estimate =? 0 then Ok (estimate reward_estimate)
  else
    let! r := extrapolated_cum_sum_of_ratio projection_duration 0 reward_estimate
                network_qa_power_estimate in
    Ok (Z.max (Z.shiftr (qa_sector_power * r) PRECISION) 0).

Definition expected_reward_for_power_clamped_at_atto_fil (qa_sector_power projection_duration : Z)
  : Res E Z :=
  let! br := expected_reward_for_power qa_sector_power projection_duration in
  Ok (if br <=? 0 then 1 else br).

Definition pledge_penalty_for_continued_fault (qa_sector_power : Z) : Res E Z :=
  expected_reward_for_power qa_sector_power CONTINUED_FAULT_PROJECTION_PERIOD.

Definition pledge_penalty_for_termination_lower_bound (qa_sector_power : Z) : Res E Z :=
  expected_reward_for_power qa_sector_power TERMINATION_PENALTY_LOWER_BOUND_PROJECTIONS_PERIOD.

Definition pledge_penalty_for_invalid_windowpost (qa_sector_power : Z) : Res E Z :=
  let! r := expected_reward_for_power qa_sector_power INVALID_WINDOW_POST_PROJECTION_PERIOD in
  Ok (r + BASE_PENALTY_FOR_DISPUTED_WINDOW_POST).

Definition pre_commit_deposit_for_power (qa_sector_power : Z) : Res E Z :=
  expected_reward_for_power_clamped_at_atto_fil qa_sector_power PRE_COMMIT_DEPOSIT_PROJECTION_PERIOD.

(** [epochs_since_ramp_start * 300 / ramp_duration] truncates, but neither is
    negative there. *)
Definition ramp_skew (epochs_since_ramp_start ramp_duration_epochs : Z) : Z :=
  if epochs_since_ramp_start <? 0 then 0
  else if (ramp_duration_epochs =? 0) || (epochs_since_ramp_start >=? ramp_duration_epochs) then
    FIP_0081_ACTIVATION_PERMILLE
  else epochs_since_ramp_start * FIP_0081_ACTIVATION_PERMILLE / ramp_duration_epochs.

Definition initial_pledge_for_power (qa_power baseline_power circulating_supply
    epochs_since_ramp_start ramp_duration_epochs : Z) : Res E Z :=
  let! ip_base := expected_reward_for_power_clamped_at_atto_fil qa_power INITIAL_PLEDGE_PROJECTION_PERIOD in
  let lock_target_num := circulating_supply * LOCK_TARGET_FACTOR_NUM in
  let network_qa_power := estimate network_qa_power_estimate in
  let skew := ramp_skew epochs_since_ramp_start ramp_duration_epochs in
  let gamma := GAMMA_FIXED_POINT_FACTOR - skew in
  let additional_ip_num := lock_target_num * qa_power in
  let pledge_share_denom_baseline := Z.max (Z.max network_qa_power baseline_power) qa_power in
  let pledge_share_denom_simple := Z.max network_qa_power qa_power in
  let! additional_ip_baseline :=
    div_floor (gamma * additional_ip_num)
      (pledge_share_denom_baseline * LOCK_TARGET_FACTOR_DENOM * GAMMA_FIXED_POINT_FACTOR) in
  let! additional_ip_simple :=
    div_floor ((GAMMA_FIXED_POINT_FACTOR - gamma) * additional_ip_num)
      (pledge_share_denom_simple * LOCK_TARGET_FACTOR_DENOM * GAMMA_FIXED_POINT_FACTOR) in
  let additional_ip := additional_ip_baseline + additional_ip_simple in
  let nominal_pledge := ip_base + additional_ip in
  Ok (Z.min nominal_pledge (INITIAL_PLEDGE_MAX_PER_BYTE * qa_power)).
End estimates.

Definition pledge_penalty_for_termination (initial_pledge sector_age fault_fee : Z) : Z :=
  let simple_termination_fee :=
    initial_pledge * TERM_FEE_PLEDGE_MULTIPLE_NUM / TERM_FEE_PLEDGE_MULTIPLE_DENOM in
  let duration_termination_fee :=
    sector_age * simple_termination_fee / (TERMINATION_LIFETIME_CAP * EPOCHS_IN_DAY) in
  let base_termination_fee := Z.min simple_termination_fee duration_termination_fee in
  let minimum_fee_abs :=
    initial_pledge * TERM_FEE_MIN_PLEDGE_MULTIPLE_NUM / TERM_FEE_MIN_PLEDGE_MULTIPLE_DENOM in
  let minimum_fee_ff :=
    fault_fee * TERM_FEE_MAX_FAULT_FEE_MULTIPLE_NUM / TERM_FEE_MAX_FAULT_FEE_MULTIPLE_DENOM in
  let minimum_fee := Z.max minimum_fee_abs minimum_fee_ff in
  Z.max base_termination_fee minimum_fee.

Definition consensus_fault_penalty (this_epoch_reward : Z) : Z :=
  this_epoch_reward * CONSENSUS_FAULT_FACTOR / Reward.EXPECTED_LEADERS_PER_EPOCH.

Definition locked_reward_from_reward (reward : Z) : Z * VestSpec :=
  (reward * LOCKED_REWARD_FACTOR_NUM / LOCKED_REWARD_FACTOR_DENOM, REWARD_VESTING_SPEC).
End Monies.
