(* ===== verification/MinerState.v ===== *)
(** * The miner actor: state

    Models state.rs of src/actors/miner/src: the miner's info, its funds, the
    pre-committed sectors with their clean-up queue, the allocated sector
    numbers, the sectors and the deadlines; and the operations on them, among
    them the end of a deadline ([advance_deadline]) and the repayment of fee
    debt.  What the state holds by root (info, maps, arrays, deadlines) is
    held by value. *)

From S2P Require Import Prelude Runtime Collections MinerBase MinerQueues MinerPartition MinerDeadline MinerFunds.

Import Miner.

(** ** Miner info *)

Record WorkerKeyChange : Type := mkKeyChange {
  new_worker : Address;
  effective_at : Z;
}.

Record MinerInfo : Type := mkMinerInfo {
  owner : Address;
  worker : Address;
  control_addresses : list Address;
  pending_worker_key : option WorkerKeyChange;
  peer_id : list Z;
  multi_address : list (list Z);
  window_post_proof_type : PoStProofType;
  sector_size : Z;
  window_post_partition_sectors : Z;
  consensus_fault_elapsed : Z;
  pending_owner_address : option Address;
  beneficiary : Address;
  beneficiary_term : BeneficiaryTerm;
  pending_beneficiary_term : option PendingBeneficiaryChange;
}.

Definition EPOCH_UNDEFINED : Z := -1.

(** [MinerInfo::new]. *)
Definition info_new (pt : ProofTypes) (owner worker : Z) (control_addresses : list Z) (peer_id : list Z)
    (multi_address : list (list Z)) (post_proof : PoStProofType) : MRes MinerInfo :=
  let! size := ok_or (pt_post_sector_size pt post_proof) (Some USR_ILLEGAL_ARGUMENT) in
  let! psize := ok_or (pt_partition_sectors pt post_proof) (Some USR_ILLEGAL_ARGUMENT) in
  Ok (mkMinerInfo (AddrId owner) (AddrId worker) (AddrId <$> control_addresses) None peer_id multi_address
        post_proof size psize EPOCH_UNDEFINED None (AddrId owner) default_term None).

(** ** Pre-committed sectors (types.rs) *)

Record SectorPreCommitInfo : Type := mkPreCommit {
  pc_seal_proof : SealProof;
  pc_sector_number : Z;
  pc_sealed_cid : Cid;
  pc_seal_rand_epoch : Z;
  pc_deal_ids : list Z;
  pc_expiration : Z;
  pc_unsealed_cid : option Cid;
}.

Record SectorPreCommitOnChainInfo : Type := mkPreCommitOnChain {
  pc_info : SectorPreCommitInfo;
  pre_commit_deposit : Z;
  pre_commit_epoch : Z;
}.

(** ** State *)

Record State : Type := mkState {
  info : MinerInfo;
  pre_commit_deposits : Z;
  locked_funds : Z;
  vesting_funds : VestingFunds;
  fee_debt : Z;
  st_initial_pledge : Z;
  pre_committed_sectors : gmap Z SectorPreCommitOnChainInfo;
  pre_committed_sectors_cleanup : gmap Z BitField;
  allocated_sectors : BitField;
  st_sectors : gmap Z SectorOnChainInfo;
  proving_period_start : Z;
  current_deadline : Z;
  deadlines : list Deadline;
  st_early_terminations : BitField;
  deadline_cron_active : bool;
}.

Record AdvanceDeadlineResult : Type := mkAdvance {
  ad_pledge_delta : Z;
  ad_power_delta : PowerPair;
  ad_previously_faulty_power : PowerPair;
  ad_detected_faulty_power : PowerPair;
  ad_total_faulty_power : PowerPair;
  ad_daily_fee : Z;
  ad_live_power : PowerPair;
}.

(** An error of any kind with the given code ([context_code]). *)
Definition context_code {A} (c : ExitCode) (r : MRes A) : MRes A :=
  match r with Err _ => bail_code c | r => r end.

(** A stable sort by sector number. *)
Fixpoint insert_by_number (s : SectorOnChainInfo) (l : list SectorOnChainInfo) : list SectorOnChainInfo :=
  match l with
  | [] => [s]
  | t :: l' => if sector_number s <=? sector_number t then s :: l else t :: insert_by_number s l'
  end.
Definition sort_by_number (l : list SectorOnChainInfo) : list SectorOnChainInfo :=
  foldr insert_by_number [] l.

Module St.

Definition new (policy : Policy) (info : MinerInfo) (period_start deadline_idx : Z) : State :=
  mkState info 0 0 None 0 0 ∅ ∅ ∅ ∅ period_start deadline_idx (Deadlines.new policy) ∅ false.

(** ** Field updates *)

Definition set_info (x : MinerInfo) (s : State) : State :=
  mkState x (pre_commit_deposits s) (locked_funds s) (vesting_funds s) (fee_debt s) (st_initial_pledge s)
    (pre_committed_sectors s) (pre_committed_sectors_cleanup s) (allocated_sectors s) (st_sectors s)
    (proving_period_start s) (current_deadline s) (deadlines s) (st_early_terminations s)
    (deadline_cron_active s).
Definition set_deposits (x : Z) (s : State) : State :=
  mkState (info s) x (locked_funds s) (vesting_funds s) (fee_debt s) (st_initial_pledge s)
    (pre_committed_sectors s) (pre_committed_sectors_cleanup s) (allocated_sectors s) (st_sectors s)
    (proving_period_start s) (current_deadline s) (deadlines s) (st_early_terminations s)
    (deadline_cron_active s).
Definition set_locked (x : Z) (v : VestingFunds) (s : State) : State :=
  mkState (info s) (pre_commit_deposits s) x v (fee_debt s) (st_initial_pledge s)
    (pre_committed_sectors s) (pre_committed_sectors_cleanup s) (allocated_sectors s) (st_sectors s)
    (proving_period_start s) (current_deadline s) (deadlines s) (st_early_terminations s)
    (deadline_cron_active s).
Definition set_fee_debt (x : Z) (s : State) : State :=
  mkState (info s) (pre_commit_deposits s) (locked_funds s) (vesting_funds s) x (st_initial_pledge s)
    (pre_committed_sectors s) (pre_committed_sectors_cleanup s) (allocated_sectors s) (st_sectors s)
    (proving_period_start s) (current_deadline s) (deadlines s) (st_early_terminations s)
    (deadline_cron_active s).
Definition set_pledge (x : Z) (s : State) : State :=
  mkState (info s) (pre_commit_deposits s) (locked_funds s) (vesting_funds s) (fee_debt s) x
    (pre_committed_sectors s) (pre_committed_sectors_cleanup s) (allocated_sectors s) (st_sectors s)
    (proving_period_start s) (current_deadline s) (deadlines s) (st_early_terminations s)
    (deadline_cron_active s).
Definition set_precommits (x : gmap Z SectorPreCommitOnChainInfo) (s : State) : State :=
  mkState (info s) (pre_commit_deposits s) (locked_funds s) (vesting_funds s) (fee_debt s)
    (st_initial_pledge s) x (pre_committed_sectors_cleanup s) (allocated_sectors s) (st_sectors s)
    (proving_period_start s) (current_deadline s) (deadlines s) (st_early_terminations s)
    (deadline_cron_active s).
Definition set_cleanup (x : gmap Z BitField) (s : State) : State :=
  mkState (info s) (pre_commit_deposits s) (locked_funds s) (vesting_funds s) (fee_debt s)
    (st_initial_pledge s) (pre_committed_sectors s) x (allocated_sectors s) (st_sectors s)
    (proving_period_start s) (current_deadline s) (deadlines s) (st_early_terminations s)
    (deadline_cron_active s).
Definition set_allocated (x : BitField) (s : State) : State :=
  mkState (info s) (pre_commit_deposits s) (locked_funds s) (vesting_funds s) (fee_debt s)
    (st_initial_pledge s) (pre_committed_sectors s) (pre_committed_sectors_cleanup s) x (st_sectors s)
    (proving_period_start s) (current_deadline s) (deadlines s) (st_early_terminations s)
    (deadline_cron_active s).
Definition set_sectors (x : gmap Z SectorOnChainInfo) (s : State) : State :=
  mkState (info s) (pre_commit_deposits s) (locked_funds s) (vesting_funds s) (fee_debt s)
    (st_initial_pledge s) (pre_committed_sectors s) (pre_committed_sectors_cleanup s)
    (allocated_sectors s) x (proving_period_start s) (current_deadline s) (deadlines s)
    (st_early_terminations s) (deadline_cron_active s).
Definition set_period (start idx : Z) (s : State) : State :=
  mkState (info s) (pre_commit_deposits s) (locked_funds s) (vesting_funds s) (fee_debt s)
    (st_initial_pledge s) (pre_committed_sectors s) (pre_committed_sectors_cleanup s)
    (allocated_sectors s) (st_sectors s) start idx (deadlines s) (st_early_terminations s)
    (deadline_cron_active s).
Definition set_deadlines (x : list Deadline) (s : State) : State :=
  mkState (info s) (pre_commit_deposits s) (locked_funds s) (vesting_funds s) (fee_debt s)
    (st_initial_pledge s) (pre_committed_sectors s) (pre_committed_sectors_cleanup s)
    (allocated_sectors s) (st_sectors s) (proving_period_start s) (current_deadline s) x
    (st_early_terminations s) (deadline_cron_active s).
Definition set_early (x : BitField) (s : State) : State :=
  mkState (info s) (pre_commit_deposits s) (locked_funds s) (vesting_funds s) (fee_debt s)
    (st_initial_pledge s) (pre_committed_sectors s) (pre_committed_sectors_cleanup s)
    (allocated_sectors s) (st_sectors s) (proving_period_start s) (current_deadline s) (deadlines s)
    x (deadline_cron_active s).
Definition set_cron_active (x : bool) (s : State) : State :=
  mkState (info s) (pre_commit_deposits s) (locked_funds s) (vesting_funds s) (fee_debt s)
    (st_initial_pledge s) (pre_committed_sectors s) (pre_committed_sectors_cleanup s)
    (allocated_sectors s) (st_sectors s) (proving_period_start s) (current_deadline s) (deadlines s)
    (st_early_terminations s) x.

Section policy.
Context (policy : Policy).

(** ** Deadlines *)

Definition deadline_info (epoch : Z) (s : State) : DeadlineInfo :=
  new_deadline_info_from_offset_and_epoch policy (proving_period_start s) epoch.
Definition recorded_deadline_info (epoch : Z) (s : State) : DeadlineInfo :=
  new_deadline_info policy (proving_period_start s) (current_deadline s) epoch.
Definition current_proving_period_start (epoch : Z) (s : State) : Z := period_start (deadline_info epoch s).
Definition quant_spec_for_deadline (idx : Z) (s : State) : QuantSpec :=
  quant_spec (new_deadline_info policy (proving_period_start s) idx 0).

(** ** Sector numbers and pre-commits *)

Definition allocate_sector_numbers (numbers : BitField) (allow_collisions : bool) (s : State)
  : MRes State :=
  if negb allow_collisions && negb (bf_empty (allocated_sectors s ∩ numbers))
  then bail_code USR_ILLEGAL_ARGUMENT
  else Ok (set_allocated (allocated_sectors s ∪ numbers) s).

Definition put_precommitted_sectors (precommits : list SectorPreCommitOnChainInfo) (s : State)
  : MRes State :=
  let! m := rfold (fun (m : gmap Z SectorPreCommitOnChainInfo) p =>
    let n := pc_sector_number (pc_info p) in
    match m !! n with
    | Some _ => bail
    | None => Ok (<[n := p]> m)
    end) (pre_committed_sectors s) precommits in
  Ok (set_precommits m s).

Definition find_precommitted_sectors (ns : list Z) (s : State) : list SectorPreCommitOnChainInfo :=
  omap (fun n => pre_committed_sectors s !! n) ns.

Definition delete_precommitted_sectors (ns : list Z) (s : State) : MRes State :=
  let! m := rfold (fun (m : gmap Z SectorPreCommitOnChainInfo) n =>
    match m !! n with
    | Some _ => Ok (delete n m)
    | None => bail_code USR_ILLEGAL_STATE
    end) (pre_committed_sectors s) ns in
  Ok (set_precommits m s).

Definition get_precommitted_sectors (ns : list Z) (s : State) : MRes (list SectorPreCommitOnChainInfo) :=
  rfold (fun acc n =>
    if n >? MAX_SECTOR_NUMBER then bail_code USR_ILLEGAL_ARGUMENT
    else
      let! p := ok_or (pre_committed_sectors s !! n) (Some USR_NOT_FOUND) in
      Ok (acc ++ [p])) [] ns.

Definition put_sectors (infos : list SectorOnChainInfo) (s : State) : MRes State :=
  let! m := Sectors.store infos (st_sectors s) in
  Ok (set_sectors m s).

Definition get_sector (n : Z) (s : State) : option SectorOnChainInfo := st_sectors s !! n.
Definition find_sector (n : Z) (s : State) : MRes (Z * Z) := Deadlines.find_sector n (deadlines s).
Definition load_sector_infos (ns : BitField) (s : State) : MRes (list SectorOnChainInfo) :=
  Sectors.load_sectors ns (st_sectors s).

Definition reschedule_sector_expirations (epoch size : Z) (deadline_sectors : gmap Z (gmap Z BitField))
    (s : State) : MRes (list SectorOnChainInfo * State) :=
  let! (all_replaced, ds) :=
    rfold (fun '(all_replaced, ds) '(idx, partition_sectors) =>
      let di := next_not_elapsed (new_deadline_info policy (current_proving_period_start epoch s) idx epoch) in
      let! d := Deadlines.load_deadline idx ds in
      let! (replaced, d) :=
        DL.reschedule_sector_expirations size (quant_spec di) (st_sectors s) (last di) partition_sectors d in
      let! ds := Deadlines.update_deadline policy idx d ds in
      Ok (all_replaced ++ replaced, ds)) ([], deadlines s) (entries deadline_sectors) in
  Ok (all_replaced, set_deadlines ds s).

(** The deadlines that may change now, at their indexes; an index out of range
    panics. *)
Definition mutable_deadlines (epoch : Z) (s : State) : MRes (list (option Deadline)) :=
  rfold (fun v '(i, d) =>
    if deadline_is_mutable policy (current_proving_period_start epoch s) (Z.of_nat i) epoch then
      if (i <? length v)%nat then Ok (<[i := Some d]> v) else Panic
    else Ok v)
    (replicate (Z.to_nat (wpost_period_deadlines policy)) None) (imap pair (deadlines s)).

Definition assign_sectors_to_deadlines (epoch : Z) (infos : list SectorOnChainInfo)
    (partition_size size : Z) (s : State) : MRes State :=
  let infos := sort_by_number infos in
  let! v := mutable_deadlines epoch s in
  let! changes := Assign.assign_deadlines policy (max_partitions_per_deadline policy) partition_size v infos in
  let! ds :=
    rfold (fun ds '(i, deadline_sectors) =>
      match deadline_sectors with
      | [] => Ok ds
      | _ =>
          let quant := quant_spec_for_deadline (Z.of_nat i) s in
          let! d := expect (mjoin (v !! i)) in
          let! (_, _, d) := DL.add_sectors size quant partition_size false true deadline_sectors d in
          Deadlines.update_deadline policy (Z.of_nat i) d ds
      end) (deadlines s) (imap pair changes) in
  Ok (set_deadlines ds s).

Definition assign_sectors_to_deadline (epoch : Z) (infos : list SectorOnChainInfo)
    (partition_size size idx : Z) (s : State) : MRes State :=
  let! d := Deadlines.load_deadline idx (deadlines s) in
  let infos := sort_by_number infos in
  if negb (deadline_is_mutable policy (current_proving_period_start epoch s) idx epoch) then
    bail_code USR_ILLEGAL_ARGUMENT
  else
    let quant := quant_spec_for_deadline idx s in
    let! (_, _, d) :=
      context_code USR_ILLEGAL_STATE (DL.add_sectors size quant partition_size false true infos d) in
    let! ds := context_code USR_ILLEGAL_STATE (Deadlines.update_deadline policy idx d (deadlines s)) in
    Ok (set_deadlines ds s).

(** The walk over the deadlines with early terminations. *)
Fixpoint pop_deadlines (max_partitions max_sectors : Z) (idxs : list Z) (to_unset : list Z)
    (result : TerminationResult) (ds : list Deadline) : MRes (list Z * TerminationResult * list Deadline) :=
  match idxs with
  | [] => Ok (to_unset, result, ds)
  | i :: idxs =>
      let! d := Deadlines.load_deadline i ds in
      let! p := chk_u64 (max_partitions - partitions_processed result) in
      let! n := chk_u64 (max_sectors - sectors_processed result) in
      let! (deadline_result, more, d) := DL.pop_early_terminations p n d in
      let! result := tr_add result deadline_result in
      let to_unset := if (more : bool) then to_unset else to_unset ++ [i] in
      let! ds := Deadlines.update_deadline policy i d ds in
      if negb (below_limit result max_partitions max_sectors) then Ok (to_unset, result, ds)
      else pop_deadlines max_partitions max_sectors idxs to_unset result ds
  end.

Definition pop_early_terminations (max_partitions max_sectors : Z) (s : State)
  : MRes (TerminationResult * bool * State) :=
  if bf_empty (st_early_terminations s) then Ok (tr_new, false, s)
  else
    let! (to_unset, result, ds) :=
      pop_deadlines max_partitions max_sectors (bits (st_early_terminations s)) [] tr_new (deadlines s) in
    let early := st_early_terminations s ∖ from_bits to_unset in
    Ok (result, negb (bf_empty early), set_deadlines ds (set_early early s)).

Definition check_sector_active (deadline_idx partition_idx n : Z) (require_proven : bool) (s : State)
  : MRes bool :=
  let! d := Deadlines.load_deadline deadline_idx (deadlines s) in
  let! p := DL.load_partition partition_idx d in
  if negb (bf_get (sectors p) n) then bail_code USR_NOT_FOUND
  else if bf_get (faults p) n then Ok false
  else if bf_get (terminated p) n then Ok false
  else if bf_get (unproven p) n && require_proven then Ok false
  else Ok true.

Definition check_sector_health (deadline_idx partition_idx n : Z) (s : State) : MRes unit :=
  let! d := Deadlines.load_deadline deadline_idx (deadlines s) in
  let! p := DL.load_partition partition_idx d in
  if negb (bf_get (sectors p) n) then bail_code USR_NOT_FOUND
  else if bf_get (faults p) n then bail_code USR_FORBIDDEN
  else if bf_get (terminated p) n then bail_code USR_NOT_FOUND
  else Ok tt.

Definition continue_deadline_cron (s : State) : bool :=
  negb (pre_commit_deposits s =? 0) || negb (st_initial_pledge s =? 0) || negb (locked_funds s =? 0).

(** ** Funds *)

Definition add_pre_commit_deposit (amount : Z) (s : State) : MRes State :=
  let new_total := pre_commit_deposits s + amount in
  if new_total <? 0 then bail else Ok (set_deposits new_total s).

Definition add_initial_pledge (amount : Z) (s : State) : MRes State :=
  let new_total := st_initial_pledge s + amount in
  if new_total <? 0 then bail else Ok (set_pledge new_total s).

Definition apply_penalty (penalty : Z) (s : State) : MRes State :=
  if penalty <? 0 then bail else Ok (set_fee_debt (fee_debt s + penalty) s).

Definition add_locked_funds (epoch vesting_sum : Z) (spec : VestSpec) (s : State) : MRes (Z * State) :=
  if vesting_sum <? 0 then bail
  else
    let! (unlocked, v) :=
      Vesting.add_locked_funds epoch vesting_sum (proving_period_start s) spec (vesting_funds s) in
    let locked := locked_funds s - unlocked in
    if locked <? 0 then bail
    else Ok (unlocked, set_locked (locked + vesting_sum) v s).

(** Unvested and total amounts unlocked. *)
Definition unlock_vested_and_unvested_funds (epoch target : Z) (s : State) : MRes (Z * Z * State) :=
  if (target =? 0) || (locked_funds s =? 0) then Ok (0, 0, s)
  else
    let '(unlocked_vested, unlocked_unvested, v) :=
      Vesting.unlock_vested_and_unvested_funds epoch target (vesting_funds s) in
    let total := unlocked_vested + unlocked_unvested in
    let locked := locked_funds s - total in
    if locked <? 0 then bail
    else Ok (unlocked_unvested, total, set_locked locked v s).

Definition unlock_vested_funds (epoch : Z) (s : State) : MRes (Z * State) :=
  if locked_funds s =? 0 then Ok (0, s)
  else
    let '(unlocked, v) := Vesting.unlock_vested_funds epoch (vesting_funds s) in
    let locked := locked_funds s - unlocked in
    if locked <? 0 then bail else Ok (unlocked, set_locked locked v s).

Definition get_unlocked_balance (balance : Z) (s : State) : MRes Z :=
  let unlocked := balance - locked_funds s - pre_commit_deposits s - st_initial_pledge s in
  if unlocked <? 0 then bail else Ok unlocked.

Definition get_available_balance (balance : Z) (s : State) : MRes Z :=
  let! unlocked := get_unlocked_balance balance s in
  Ok (unlocked - fee_debt s).

(** Fee to burn and total unlocked. *)
Definition repay_partial_debt_in_priority_order (epoch balance : Z) (s : State) : MRes (Z * Z * State) :=
  let! (from_vesting, total_unlocked, s) := unlock_vested_and_unvested_funds epoch (fee_debt s) s in
  if from_vesting >? fee_debt s then bail
  else
    let! unlocked_balance := get_unlocked_balance balance s in
    let to_burn := Z.min unlocked_balance (fee_debt s) in
    Ok (to_burn, total_unlocked, set_fee_debt (fee_debt s - to_burn) s).

Definition repay_debts (balance : Z) (s : State) : MRes (Z * State) :=
  let! unlocked_balance := get_unlocked_balance balance s in
  if unlocked_balance <? fee_debt s then bail_code USR_INSUFFICIENT_FUNDS
  else Ok (fee_debt s, set_fee_debt 0 s).

Definition check_balance_invariants (balance : Z) (s : State) : MRes unit :=
  if pre_commit_deposits s <? 0 then bail
  else if locked_funds s <? 0 then bail
  else if st_initial_pledge s <? 0 then bail
  else if fee_debt s <? 0 then bail
  else if balance <? pre_commit_deposits s + locked_funds s + st_initial_pledge s then bail
  else Ok tt.

(** ** Clean-up of pre-commits *)

Definition quant_spec_every_deadline (s : State) : QuantSpec :=
  mkQuant (wpost_challenge_window policy) (proving_period_start s).

Definition add_pre_commit_clean_ups (events : list (Z * Z)) (s : State) : MRes State :=
  let! q := BQ.add_many_to_queue_values (quant_spec_every_deadline s) events
              (pre_committed_sectors_cleanup s) in
  Ok (set_cleanup q s).

(** Deposit to burn. *)
Definition cleanup_expired_pre_commits (epoch : Z) (s : State) : MRes (Z * State) :=
  let! (ns, modified, q) := BQ.pop_until epoch (pre_committed_sectors_cleanup s) in
  let s := if (modified : bool) then set_cleanup q s else s in
  let found := omap (fun n => (fun p => (n, p)) <$> pre_committed_sectors s !! n) (bits ns) in
  let to_delete := fst <$> found in
  let deposit_to_burn := sum_list_Z ((fun np => pre_commit_deposit (snd np)) <$> found) in
  let! s := match to_delete with [] => Ok s | _ => delete_precommitted_sectors to_delete s end in
  let deposits := pre_commit_deposits s - deposit_to_burn in
  if deposits <? 0 then bail else Ok (deposit_to_burn, set_deposits deposits s).

(** ** The end of a deadline *)

Definition advance_deadline (epoch : Z) (s : State) : MRes (AdvanceDeadlineResult * State) :=
  let di := deadline_info epoch s in
  if negb (period_started di) then
    Ok (mkAdvance 0 pp_zero pp_zero pp_zero pp_zero 0 pp_zero, s)
  else
    let idx := (index di + 1) mod wpost_period_deadlines policy in
    let start := if idx =? 0 then period_start di + wpost_proving_period policy
                 else proving_period_start s in
    let s := set_period start idx s in
    let! d := Deadlines.load_deadline (index di) (deadlines s) in
    let previously_faulty_power := dl_faulty_power d in
    if negb (DL.is_live d) then
      Ok (mkAdvance 0 pp_zero previously_faulty_power pp_zero (dl_faulty_power d) 0 pp_zero, s)
    else
      let quant := Miner.quant_spec_for_deadline policy di in
      let fault_expiration := last di + fault_max_age policy in
      let! (power_delta, detected_faulty_power, d) :=
        DL.process_deadline_end quant fault_expiration (st_sectors s) d in
      let total_faulty_power := dl_faulty_power d in
      let! (expired, d) := DL.pop_expired_sectors (last di) d in
      let! s := add_initial_pledge (- on_time_pledge expired) s in
      let power_delta := pp_sub power_delta (active_power expired) in
      let s := if bf_empty (early_sectors expired) then s
               else set_early (st_early_terminations s ∪ {[index di]}) s in
      let! ds := Deadlines.update_deadline policy (index di) d (deadlines s) in
      Ok (mkAdvance (- on_time_pledge expired) power_delta previously_faulty_power
            detected_faulty_power total_faulty_power (dl_daily_fee d) (dl_live_power d),
          set_deadlines ds s).
End policy.
End St.
