(* ===== verification/MinerCalls.v ===== *)
(** * The miner actor: other actors, proofs and validation

    Models, of src/actors/miner/src, ext.rs (the messages to other actors),
    commd.rs, notifications.rs and the functions of lib.rs the methods share:
    requests to the reward, power, market, registry and account actors, the
    validation of expirations, pre-commits, non-interactive sectors and proof
    sizes, and the activation of data.

    What the code takes from outside the repository is a field of [Ext]: CBOR
    codecs, FRC-42 method numbers, multicodec constants, the sizes of proofs,
    the VM's proof verification, randomness, circulating supply and network
    version, and the order of a [BTreeMap] on addresses.  Emitted events have
    no effect on the state and are left out. *)

From S2P Require Import Prelude Runtime Batch Smooth Reward Singletons Collections MinerBase MinerQueues MinerPartition MinerDeadline MinerFunds MinerState.

Import Miner.

Notation bytes := (list Z) (only parsing).
Notation error := (ActorError (list Z)).

(** ** Messages sent (ext.rs) *)

Record SectorDeals : Type := mkSectorDeals {
  sd_sector_number : Z;
  sd_sector_type : SealProof;
  sd_sector_expiry : Z;
  sd_deal_ids : list Z;
}.

Record ActivatedDeal : Type := mkActivatedDeal {
  ad_client : Z;
  ad_allocation_id : Z;
  ad_data : Cid;
  ad_size : Z;
}.

Record AllocationClaim : Type := mkAllocationClaim {
  ac_client : Z;
  ac_allocation_id : Z;
  ac_data : Cid;
  ac_size : Z;
}.

Record SectorAllocationClaims : Type := mkSectorClaims {
  sc_sector : Z;
  sc_expiry : Z;
  sc_claims : list AllocationClaim;
}.

Record Claim : Type := mkClaim {
  cl_provider : Z;
  cl_client : Z;
  cl_data : Cid;
  cl_size : Z;
  cl_term_min : Z;
  cl_term_max : Z;
  cl_term_start : Z;
  cl_sector : Z;
}.

Record PieceChange : Type := mkPieceChange {
  pch_data : Cid;
  pch_size : Z;
  pch_payload : bytes;
}.

Record SectorChanges : Type := mkSectorChanges {
  sch_sector : Z;
  sch_minimum_commitment_epoch : Z;
  sch_added : list PieceChange;
}.

Inductive Param : Type :=
| PNone
| PEnrollCronEvent (event_epoch : Z) (payload : bytes)
| PUpdateClaimedPower (raw_byte_delta quality_adjusted_delta : Z)
| PUpdatePledgeTotal (pledge_delta : Z)
| PTerminateDeals (epoch : Z) (sectors : BitField)
| PVerifyDeals (sectors : list SectorDeals)
| PActivateDeals (sectors : list SectorDeals) (compute_cid : bool)
| PClaimAllocations (sectors : list SectorAllocationClaims) (all_or_nothing : bool)
| PGetClaims (provider : Z) (claim_ids : list Z)
| PSectorContentChanged (sectors : list SectorChanges).

(** What other actors return. *)
Record ThisEpochReward : Type := mkThisEpochReward {
  this_epoch_reward_smoothed : FilterEstimate;
  this_epoch_baseline_power : Z;
}.

Record CurrentTotalPower : Type := mkTotalPower {
  raw_byte_power : Z;
  quality_adj_power : Z;
  pledge_collateral : Z;
  quality_adj_power_smoothed : FilterEstimate;
  ramp_start_epoch : Z;
  ramp_duration_epochs : Z;
}.

Record BatchActivateDealsResult : Type := mkActivateResult {
  activation_results : BatchReturn;
  activations : list (list ActivatedDeal);
}.

Record ClaimAllocationsReturn : Type := mkClaimReturn {
  sector_results : BatchReturn;
  claimed_space : list Z;
}.

Definition PUBKEY_ADDRESS_METHOD : Z := 2.
Definition VERIFY_DEALS_FOR_ACTIVATION_METHOD : Z := 5.
Definition BATCH_ACTIVATE_DEALS_METHOD : Z := 6.
Definition ON_MINER_SECTORS_TERMINATE_METHOD : Z := 7.
Definition UPDATE_CLAIMED_POWER_METHOD : Z := 3.
Definition ENROLL_CRON_EVENT_METHOD : Z := 4.
Definition UPDATE_PLEDGE_TOTAL_METHOD : Z := 6.
Definition CURRENT_TOTAL_POWER_METHOD : Z := 9.
Definition THIS_EPOCH_REWARD_METHOD : Z := 3.
Definition GET_CLAIMS_METHOD : Z := 10.
Definition CLAIM_ALLOCATIONS_METHOD : Z := 9.
Definition NO_ALLOCATION_ID : Z := 0.

(** ** Proof inputs *)

Record SectorSealProofInput : Type := mkSealInput {
  si_registered_proof : SealProof;
  si_sector_number : Z;
  si_randomness : bytes;
  si_interactive_randomness : bytes;
  si_sealed_cid : Cid;
  si_unsealed_cid : Cid;
}.

Record ReplicaUpdateInfo : Type := mkUpdateInfo {
  ru_update_proof_type : UpdateProofType;
  ru_new_sealed_cid : Cid;
  ru_old_sealed_cid : Cid;
  ru_new_unsealed_cid : Cid;
  ru_proof : bytes;
}.

Record ConsensusFault : Type := mkFault {
  cf_target : Address;
  cf_epoch : Z;
}.

(** ** The outside *)

Record Ext : Type := mkExt {
  policy : Policy;
  proofs : ProofTypes;
  (** [RegisteredPoStProof::proof_size], [RegisteredSealProof::proof_size] *)
  post_proof_size : PoStProofType -> option Z;
  seal_proof_size : SealProof -> option Z;
  (** The number of [RegisteredAggregateProof::SnarkPackV2]. *)
  SNARK_PACK_V2 : Z;
  FIL_COMMITMENT_UNSEALED : Z;
  SHA2_256_TRUNC254_PADDED : Z;
  method_hash : string -> Z;
  serialize_address : Address -> bytes;
  serialize_cron_payload : Z -> bytes;
  decode_cron_payload : bytes -> option Z;
  decode_address : bytes -> option Address;
  decode_reward : bytes -> option ThisEpochReward;
  decode_power : bytes -> option CurrentTotalPower;
  decode_unsealed_cids : bytes -> option (list (option Cid));
  decode_activations : bytes -> option BatchActivateDealsResult;
  decode_claim_return : bytes -> option ClaimAllocationsReturn;
  decode_claims : bytes -> option (nat * list Claim);
  decode_notification : bytes -> option (list (list bool));
  (** The keys of a [BTreeMap] on addresses in the order it visits them. *)
  address_order : list Address -> list Address;
  (** Syscalls *)
  total_fil_circ_supply : Z -> Z;
  network_version : Z -> Z;
  ticket_randomness : Z -> bytes + ExitCode;
  beacon_randomness : Z -> bytes + ExitCode;
  hash_blake2b : bytes -> bytes;
  verify_post : bytes -> list PoStProof -> list (SealProof * Z * Cid) -> Z -> bool;
  verify_replica_update : ReplicaUpdateInfo -> bool;
  batch_verify_seals : list (Z * SectorSealProofInput * bytes) -> option (list bool);
  verify_aggregate_seals : Z -> SealProof -> Z -> bytes -> list SectorSealProofInput -> bool;
  compute_unsealed_sector_cid : SealProof -> list (Cid * Z) -> option Cid;
  verify_consensus_fault : bytes -> bytes -> bytes -> option (option ConsensusFault);
}.

Definition PoStChainCommit : Z := 9.
Definition WindowedPoStChallengeSeed : Z := 4.
Definition SealRandomness : Z := 5.
Definition InteractiveSealChallengeSeed : Z := 6.
Definition RANDOMNESS_LENGTH : Z := 32.

Definition ERR_BALANCE_INVARIANTS_BROKEN : ExitCode := USR_OTHER 1000.
Definition ERR_NOTIFICATION_SEND_FAILED : ExitCode := USR_OTHER 1001.
Definition ERR_NOTIFICATION_RECEIVER_ABORTED : ExitCode := USR_OTHER 1002.
Definition ERR_NOTIFICATION_RESPONSE_INVALID : ExitCode := USR_OTHER 1003.
Definition ERR_NOTIFICATION_REJECTED : ExitCode := USR_OTHER 1004.

Definition CRON_EVENT_PROVING_DEADLINE : Z := 1.
Definition CRON_EVENT_PROCESS_EARLY_TERMINATIONS : Z := 2.

(** policy_constants: a tenth of 10 TiB. *)
Definition MINIMUM_CONSENSUS_POWER : Z := Z.shiftl 10 40.
Definition CREATE_MINER_DEPOSIT_POWER : Z := MINIMUM_CONSENSUS_POWER / 10.
Definition CONSENSUS_FAULT_REPORTER_DEFAULT_SHARE : Z := 4.
Definition FIP_0100_GRACE_PERIOD_END_VERSION : Z := 26.

Definition reward_for_consensus_slash_report (epoch_reward : Z) : Z :=
  epoch_reward / (Reward.EXPECTED_LEADERS_PER_EPOCH * CONSENSUS_FAULT_REPORTER_DEFAULT_SHARE).

Definition reward_for_disputed_window_post (_ : PoStProofType) (_ : PowerPair) : Z :=
  Monies.BASE_REWARD_FOR_DISPUTED_WINDOW_POST.

(** ** CommD (commd.rs) *)

Definition ZERO_COMMD_HASH : list (list Z) :=
  [[252; 126; 146; 130; 150; 229; 22; 250; 173; 233; 134; 178; 143; 146; 212; 74; 79; 36; 185; 53; 72;
    82; 35; 55; 106; 121; 144; 39; 188; 24; 248; 51];
   [57; 86; 14; 123; 19; 169; 59; 7; 162; 67; 253; 39; 32; 255; 167; 203; 62; 29; 46; 80; 90; 179; 98;
    158; 121; 244; 99; 19; 81; 44; 218; 6];
   [101; 242; 158; 93; 152; 210; 70; 195; 139; 56; 140; 252; 6; 219; 31; 107; 2; 19; 3; 197; 162; 137;
    0; 11; 220; 232; 50; 169; 195; 236; 66; 28];
   [7; 126; 95; 222; 53; 197; 10; 147; 3; 165; 80; 9; 227; 73; 138; 78; 190; 223; 243; 156; 66; 183; 16;
    183; 48; 216; 236; 122; 199; 175; 166; 62];
   [230; 64; 5; 166; 191; 227; 119; 121; 83; 184; 173; 110; 249; 63; 15; 202; 16; 73; 178; 4; 22; 84;
    242; 164; 17; 247; 112; 39; 153; 206; 206; 2]].

(** The index of a proof's zero commitment; [update_to_v1] first turns the V1
    proofs into their V1P1 versions. *)
Definition zero_commd_index (p : SealProof) : option nat :=
  match p with
  | DRG2KiBV1 | DRG2KiBV1P1 | DRG2KiBSynth | DRG2KiBNi => Some 0%nat
  | DRG512MiBV1 | DRG512MiBV1P1 | DRG512MiBSynth | DRG512MiBNi => Some 1%nat
  | DRG8MiBV1 | DRG8MiBV1P1 | DRG8MiBSynth | DRG8MiBNi => Some 2%nat
  | DRG32GiBV1 | DRG32GiBV1P1 | DRG32GiBSynth | DRG32GiBNi => Some 3%nat
  | DRG64GiBV1 | DRG64GiBV1P1 | DRG64GiBSynth | DRG64GiBNi => Some 4%nat
  | SealInvalid _ => None
  end.

Section commd.
Context (x : Ext).

Definition is_unsealed_sector (c : Cid) : bool :=
  (cid_version c =? 1) && (cid_codec c =? FIL_COMMITMENT_UNSEALED x)
  && (cid_hash_code c =? SHA2_256_TRUNC254_PADDED x) && (Z.of_nat (length (cid_digest c)) =? 32).

Definition zero_commd (p : SealProof) : MRes Cid :=
  match zero_commd_index p with
  | None => bail_code USR_ILLEGAL_ARGUMENT
  | Some i =>
      let! h := expect (ZERO_COMMD_HASH !! i) in
      Ok (mkCid 1 (FIL_COMMITMENT_UNSEALED x) (SHA2_256_TRUNC254_PADDED x) h)
  end.

Definition get_cid (commd : option Cid) (p : SealProof) : MRes Cid :=
  match commd with
  | Some c => Ok c
  | None => zero_commd p
  end.
End commd.

(** ** Parameters of pieces (types.rs) *)

Record DataActivationNotification : Type := mkNotify {
  dn_address : Address;
  dn_payload : bytes;
}.

Record PieceActivationManifest : Type := mkPiece {
  pm_cid : Cid;
  pm_size : Z;
  pm_allocation : option (Z * Z);
  pm_notify : list DataActivationNotification;
}.

Record SectorNIActivationInfo : Type := mkNI {
  ni_sealing_number : Z;
  ni_sealer_id : Z;
  ni_sealed_cid : Cid;
  ni_sector_number : Z;
  ni_seal_rand_epoch : Z;
  ni_expiration : Z;
}.

(** ** Pure validation *)

(** The first eight bytes of the digest, big-endian. *)
Definition read_u64 (digest : bytes) : Z := foldl (fun acc b => acc * 256 + b) 0 (take 8 digest).

(** The eight bytes of an [i64], big-endian. *)
Definition i64_bytes (n : Z) : bytes := (fun i => Z.shiftr n (8 * (7 - Z.of_nat i)) mod 256) <$> seq 0 8.

(** runtime/randomness.rs *)
Definition draw_randomness (hasher : bytes -> bytes) (rbase : bytes) (tag round : Z) (entropy : bytes)
  : bytes :=
  hasher (i64_bytes tag ++ rbase ++ i64_bytes round ++ entropy).

Section validation.
Context (x : Ext) (ctx : Ctx).
Notation policy := (policy x).
Notation curr_epoch := (ctx_epoch ctx).

Definition validate_expiration (curr_epoch activation expiration : Z) (p : SealProof) : MRes unit :=
  if expiration <=? activation then bail_code USR_ILLEGAL_ARGUMENT
  else if expiration - activation <? min_sector_expiration policy then bail_code USR_ILLEGAL_ARGUMENT
  else if expiration >? curr_epoch + max_sector_expiration_extension policy then
    bail_code USR_ILLEGAL_ARGUMENT
  else
    let! max_lifetime := ok_or (seal_proof_sector_maximum_lifetime p) (Some USR_ILLEGAL_ARGUMENT) in
    if expiration - activation >? max_lifetime then bail_code USR_ILLEGAL_ARGUMENT else Ok tt.

(** [Runtime::get_randomness_from_tickets] and [.._from_beacon]. *)
Definition get_randomness (base : Z -> bytes + ExitCode) (tag epoch : Z) (entropy : bytes) : MRes bytes :=
  match base epoch with
  | inl digest => Ok (draw_randomness (hash_blake2b x) digest tag epoch entropy)
  | inr c => bail_code c
  end.

(** One pre-commit: the proof input, and whether it may be activated. *)
Definition validate_precommit (prev : option SectorPreCommitOnChainInfo) (p : SectorPreCommitOnChainInfo)
    (allow_deal_ids : bool) : MRes (SectorSealProofInput * bool) :=
  let i := pc_info p in
  let! msd := ok_or (max_prove_commit_duration policy (pc_seal_proof i)) (Some USR_ILLEGAL_STATE) in
  let fail_validation :=
    negb (allow_deal_ids || match pc_deal_ids i with [] => true | _ => false end)
    || (curr_epoch >? pre_commit_epoch p + msd) in
  if match prev with
     | Some q => negb (bool_decide (pc_seal_proof (pc_info q) = pc_seal_proof i))
     | None => false
     end
  then bail_code USR_ILLEGAL_STATE
  else
    let interactive_epoch := pre_commit_epoch p + pre_commit_challenge_delay policy in
    if curr_epoch <=? interactive_epoch then bail_code USR_FORBIDDEN
    else
      let entropy := serialize_address x (receiver ctx) in
      let! randomness :=
        get_randomness (ticket_randomness x) SealRandomness (pc_seal_rand_epoch i) entropy in
      let! interactive :=
        get_randomness (beacon_randomness x) InteractiveSealChallengeSeed interactive_epoch entropy in
      let! unsealed := get_cid x (pc_unsealed_cid i) (pc_seal_proof i) in
      Ok (mkSealInput (pc_seal_proof i) (pc_sector_number i) randomness interactive (pc_sealed_cid i)
            unsealed, negb fail_validation).

Fixpoint validate_precommit_list (prev : option SectorPreCommitOnChainInfo)
    (ps : list SectorPreCommitOnChainInfo) (allow_deal_ids all_or_nothing : bool)
    (g : BatchReturnGen) (inputs : list SectorSealProofInput)
  : MRes (BatchReturnGen * list SectorSealProofInput) :=
  match ps with
  | [] => Ok (g, inputs)
  | p :: ps =>
      let! (input, valid) := validate_precommit prev p allow_deal_ids in
      if negb (valid : bool) && all_or_nothing then bail_code USR_ILLEGAL_ARGUMENT
      else
        validate_precommit_list (Some p) ps allow_deal_ids all_or_nothing
          (if valid then add_success g else add_fail USR_ILLEGAL_ARGUMENT g) (inputs ++ [input])
  end.

Definition validate_precommits (ps : list SectorPreCommitOnChainInfo)
    (allow_deal_ids all_or_nothing : bool) : MRes (BatchReturn * list SectorSealProofInput) :=
  match ps with
  | [] => Ok (batch_empty, [])
  | _ =>
      let! (g, inputs) :=
        validate_precommit_list None ps allow_deal_ids all_or_nothing (new_gen (length ps)) [] in
      let! b := generate g in
      Ok (b, inputs)
  end.

(** One non-interactive sector. *)
Definition validate_ni_sector (unsealed : Cid) (p : SealProof) (s : SectorNIActivationInfo)
  : MRes (SectorSealProofInput * bool) :=
  let challenge_earliest := curr_epoch - max_prove_commit_ni_randomness_lookback policy in
  let valid :=
    negb (ni_sector_number s >? MAX_SECTOR_NUMBER)
    && is_ok (validate_expiration curr_epoch curr_epoch (ni_expiration s) p)
    && (ni_sealer_id s =? ctx_receiver ctx)
    && (ni_sector_number s =? ni_sealing_number s)
    && is_sealed_sector (ni_sealed_cid s)
    && negb (ni_seal_rand_epoch s <? challenge_earliest) in
  if ni_seal_rand_epoch s >=? curr_epoch then bail_code USR_ILLEGAL_ARGUMENT
  else
    let! randomness :=
      get_randomness (ticket_randomness x) SealRandomness (ni_seal_rand_epoch s)
        (serialize_address x (receiver ctx)) in
    Ok (mkSealInput p (ni_sealing_number s) randomness (replicate 32 1) (ni_sealed_cid s) unsealed, valid).

Definition validate_ni_sectors (ss : list SectorNIActivationInfo) (p : SealProof) (all_or_nothing : bool)
  : MRes (BatchReturn * list SectorSealProofInput * BitField) :=
  let! unsealed := match zero_commd x p with Err _ => Panic | r => r end in
  match ss with
  | [] => Ok (batch_empty, [], ∅)
  | _ =>
      let! (g, inputs, numbers) :=
        rfold (fun '(g, inputs, numbers) s =>
          if bf_get numbers (ni_sector_number s) then bail_code USR_ILLEGAL_ARGUMENT
          else
            let! (input, valid) := validate_ni_sector unsealed p s in
            if negb (valid : bool) && all_or_nothing then bail_code USR_ILLEGAL_ARGUMENT
            else Ok (if valid then add_success g else add_fail USR_ILLEGAL_ARGUMENT g, inputs ++ [input],
                     numbers ∪ {[ni_sector_number s]}))
          (new_gen (length ss), [], ∅) ss in
      let! b := generate g in
      Ok (b, inputs, numbers)
  end.

Definition validate_seal_proofs (p : SealProof) (ps : list bytes) : MRes unit :=
  let! max_proof_size := ok_or (seal_proof_size x p) (Some USR_ILLEGAL_STATE) in
  if existsb (fun pr => Z.of_nat (length pr) >? max_proof_size) ps then bail_code USR_ILLEGAL_ARGUMENT
  else Ok tt.

Definition validate_seal_aggregate_proof (proof : bytes) (sector_count : Z) (interactive : bool)
  : MRes unit :=
  let '(min, max) :=
    if interactive then (min_aggregated_sectors policy, max_aggregated_sectors policy)
    else (min_aggregated_sectors_ni policy, max_aggregated_sectors_ni policy) in
  if sector_count >? max then bail_code USR_ILLEGAL_ARGUMENT
  else if sector_count <? min then bail_code USR_ILLEGAL_ARGUMENT
  else if Z.of_nat (length proof) >? max_aggregated_proof_size policy then bail_code USR_ILLEGAL_ARGUMENT
  else Ok tt.

Definition verify_aggregate_seal (inputs : list SectorSealProofInput) (miner : Z) (p : SealProof)
    (aggregate_type : Z) (proof : bytes) : MRes unit :=
  if verify_aggregate_seals x miner p aggregate_type proof inputs then Ok tt
  else bail_code USR_ILLEGAL_ARGUMENT.

(** Whether the proof is valid. *)
Definition verify_windowed_post (challenge_epoch : Z) (infos : list SectorOnChainInfo)
    (ps : list PoStProof) : MRes bool :=
  let! randomness :=
    get_randomness (beacon_randomness x) WindowedPoStChallengeSeed challenge_epoch
      (serialize_address x (receiver ctx)) in
  let challenged := (fun s => (seal_proof s, sector_number s, sealed_cid s)) <$> infos in
  Ok (verify_post x randomness ps challenged (ctx_receiver ctx)).

Definition unsealed_cid_from_pieces (pieces : list PieceActivationManifest) (p : SealProof)
  : MRes (option Cid) :=
  match pieces with
  | [] => Ok None
  | _ =>
      let! c := ok_or (compute_unsealed_sector_cid x p ((fun pm => (pm_cid pm, pm_size pm)) <$> pieces))
                  (Some USR_ILLEGAL_ARGUMENT) in
      Ok (Some c)
  end.

Definition check_control_addresses (addrs : list Address) : MRes unit :=
  if Z.of_nat (length addrs) >? max_control_addresses policy then bail_code USR_ILLEGAL_ARGUMENT
  else Ok tt.

Definition check_valid_post_proof_type (p : PoStProofType) : MRes unit :=
  if valid_post_proof_type policy p then Ok tt else bail_code USR_ILLEGAL_ARGUMENT.

Definition check_peer_info (peer_id : bytes) (multiaddrs : list bytes) : MRes unit :=
  if Z.of_nat (length peer_id) >? max_peer_id_length policy then bail_code USR_ILLEGAL_ARGUMENT
  else if existsb (fun ma => match ma with [] => true | _ => false end) multiaddrs then
    bail_code USR_ILLEGAL_ARGUMENT
  else if sum_list_Z ((fun ma => Z.of_nat (length ma)) <$> multiaddrs) >? max_multiaddr_data policy then
    bail_code USR_ILLEGAL_ARGUMENT
  else Ok tt.

Definition assign_proving_period_offset (addr : Address) (epoch : Z) : Z :=
  read_u64 (hash_blake2b x (serialize_address x addr ++ i64_bytes epoch)) mod wpost_proving_period policy.

(** [%] is the remainder of the division that truncates. *)
Definition current_proving_period_start (epoch offset : Z) : Z :=
  let curr_modulus := Z.rem epoch (wpost_proving_period policy) in
  let period_progress :=
    if curr_modulus >=? offset then curr_modulus - offset
    else wpost_proving_period policy - (offset - curr_modulus) in
  epoch - period_progress.

Definition current_deadline_index (epoch period_start : Z) : Z :=
  Z.quot (epoch - period_start) (wpost_challenge_window policy).

Definition declaration_deadline_info (period_start idx epoch : Z) : MRes DeadlineInfo :=
  if idx >=? wpost_period_deadlines policy then bail
  else Ok (next_not_elapsed (new_deadline_info policy period_start idx epoch)).

Definition validate_fr_declaration_deadline (d : DeadlineInfo) : MRes unit :=
  if fault_cutoff_passed d then bail else Ok tt.
End validation.

Definition consensus_fault_active (i : MinerInfo) (curr_epoch : Z) : bool :=
  curr_epoch <=? consensus_fault_elapsed i.

Definition have_pending_early_terminations (s : State) : bool := negb (bf_empty (st_early_terminations s)).

(** An error of the state code, with the code of its [ActorError] or the given
    one; any error with the given code. *)
Definition dc {A} (c : ExitCode) (r : MRes A) : Res error A := downcast_default c r.
Definition mc {A} (c : ExitCode) (r : MRes A) : Res error A := downcast_default c (context_code c r).

(** ** Requests to other actors *)

Section requests.
Context {Net : Type} (x : Ext) (env : Env Net State Param (list Z)) (ctx : Ctx).
Notation M := (M Net State Param (list Z)).

Definition try {A} (c : ExitCode) (r : MRes A) : M A := lift (dc c r).
Definition must {A} (c : ExitCode) (r : MRes A) : M A := lift (mc c r).

Definition call (to : Address) (method : Z) (p : Param) (value : Z) : M (option (list Z)) :=
  let* res := send_simple env to method p value in
  lift (extract_send_result res).

Definition call_unit (to : Address) (method : Z) (p : Param) (value : Z) : M unit :=
  let* _ := call to method p value in ret tt.

Definition enroll_cron_event (epoch event_type : Z) : M unit :=
  call_unit STORAGE_POWER_ACTOR_ADDR ENROLL_CRON_EVENT_METHOD
    (PEnrollCronEvent epoch (serialize_cron_payload x event_type)) 0.

Definition request_update_power (delta : PowerPair) : M unit :=
  if pp_is_zero delta then ret tt
  else call_unit STORAGE_POWER_ACTOR_ADDR UPDATE_CLAIMED_POWER_METHOD
         (PUpdateClaimedPower (raw delta) (qa delta)) 0.

Definition request_terminate_deals (epoch : Z) (ns : BitField) : M unit :=
  if bf_empty ns then ret tt
  else
    let* res := send_simple env STORAGE_MARKET_ACTOR_ADDR ON_MINER_SECTORS_TERMINATE_METHOD
                  (PTerminateDeals epoch ns) 0 in
    if bool_decide (AddrId (ctx_origin ctx) = SYSTEM_ACTOR_ADDR) then
      let* _ := caught (extract_send_result res) in ret tt
    else
      let* _ := lift (extract_send_result res) in ret tt.

Definition schedule_early_termination_work : M unit :=
  enroll_cron_event (ctx_epoch ctx + 1) CRON_EVENT_PROCESS_EARLY_TERMINATIONS.

Definition verify_deals (sectors : list SectorDeals) : M (list (option Cid)) :=
  if forallb (fun s => match sd_deal_ids s with [] => true | _ => false end) sectors then
    ret (replicate (length sectors) None)
  else
    let* r := call STORAGE_MARKET_ACTOR_ADDR VERIFY_DEALS_FOR_ACTIVATION_METHOD (PVerifyDeals sectors) 0 in
    lift (deserialize_block (decode_unsealed_cids x) r).

Definition request_current_epoch_block_reward : M ThisEpochReward :=
  let* r := call REWARD_ACTOR_ADDR THIS_EPOCH_REWARD_METHOD PNone 0 in
  lift (deserialize_block (decode_reward x) r).

Definition request_current_total_power : M CurrentTotalPower :=
  let* r := call STORAGE_POWER_ACTOR_ADDR CURRENT_TOTAL_POWER_METHOD PNone 0 in
  lift (deserialize_block (decode_power x) r).

Definition resolve_worker_address (raw : Address) : M Z :=
  let* resolved := resolve_address env raw in
  let* resolved := lift (ok_or resolved (err USR_ILLEGAL_ARGUMENT)) in
  let* code := get_actor_code_cid env resolved in
  let* code := lift (ok_or code (err USR_ILLEGAL_ARGUMENT)) in
  if negb (bool_decide (env_builtin_type env code = Some TAccount)) then throw USR_ILLEGAL_ARGUMENT
  else if Account.protocol raw =? Account.PROTOCOL_BLS then ret resolved
  else
    let* r := call (AddrId resolved) PUBKEY_ADDRESS_METHOD PNone 0 in
    let* pub_key := lift (deserialize_block (decode_address x) r) in
    if Account.protocol pub_key =? Account.PROTOCOL_BLS then ret resolved
    else throw USR_ILLEGAL_ARGUMENT.

Definition burn_funds (amount : Z) : M unit :=
  if amount >? 0 then call_unit BURNT_FUNDS_ACTOR_ADDR METHOD_SEND PNone amount else ret tt.

Definition notify_pledge_changed (pledge_delta : Z) : M unit :=
  if pledge_delta =? 0 then ret tt
  else call_unit STORAGE_POWER_ACTOR_ADDR UPDATE_PLEDGE_TOTAL_METHOD (PUpdatePledgeTotal pledge_delta) 0.

Definition get_claims (ids : list Z) : M (list Claim) :=
  let* r := call VERIFIED_REGISTRY_ACTOR_ADDR GET_CLAIMS_METHOD (PGetClaims (ctx_receiver ctx) ids) 0 in
  let* (n, claims) := lift (deserialize_block (decode_claims x) r) in
  if (n <? length ids)%nat then throw USR_ILLEGAL_ARGUMENT else ret claims.

Definition batch_claim_allocations (claims : list SectorAllocationClaims) (all_or_nothing : bool)
  : M ClaimAllocationsReturn :=
  if forallb (fun s => match sc_claims s with [] => true | _ => false end) claims then
    ret (mkClaimReturn (batch_ok (length claims)) (replicate (length claims) 0))
  else
    let* r := call VERIFIED_REGISTRY_ACTOR_ADDR CLAIM_ALLOCATIONS_METHOD
                (PClaimAllocations claims all_or_nothing) 0 in
    lift (deserialize_block (decode_claim_return x) r).

Definition check_invariants : M unit :=
  let* s := state in
  let* b := current_balance in
  must ERR_BALANCE_INVARIANTS_BROKEN (St.check_balance_invariants b s).

Definition repay_debts_or_abort (s : State) : M (Z * State) :=
  let* b := current_balance in
  try USR_ILLEGAL_STATE (St.repay_debts b s).

Definition validate_control (i : MinerInfo) : M unit :=
  validate_immediate_caller_is ctx (control_addresses i ++ [worker i; owner i]).

(** ** Activation of data *)

Record DataActivationOutput : Type := mkData {
  unverified_space : Z;
  verified_space : Z;
}.

Record SectorPiecesActivationInput : Type := mkPieces {
  spi_piece_manifests : list PieceActivationManifest;
  spi_sector_expiry : Z;
  spi_sector_number : Z;
  spi_sector_type : SealProof;
  spi_expected_commd : option (option Cid);
}.

Definition sector_claims_of (a : SectorPiecesActivationInput) : SectorAllocationClaims :=
  mkSectorClaims (spi_sector_number a) (spi_sector_expiry a)
    (omap (fun p => (fun '(client, id) => mkAllocationClaim client id (pm_cid p) (pm_size p))
                      <$> pm_allocation p) (spi_piece_manifests a)).

(** A declared CommD must match the one computed from the pieces. *)
Definition check_commd (a : SectorPiecesActivationInput) : MRes unit :=
  match spi_expected_commd a with
  | None => Ok tt
  | Some declared =>
      let! computed := unsealed_cid_from_pieces x (spi_piece_manifests a) (spi_sector_type a) in
      let! computed := get_cid x computed (spi_sector_type a) in
      let! declared := get_cid x declared (spi_sector_type a) in
      if bool_decide (declared = computed) then Ok tt else bail_code USR_ILLEGAL_ARGUMENT
  end.

Definition unverified_of (pieces : list PieceActivationManifest) : Z :=
  sum_list_Z ((fun p => match pm_allocation p with None => pm_size p | Some _ => 0 end) <$> pieces).

(** [assert!(all_ok || success_count == 0)]. *)
Definition assert_all_or_none (b : BatchReturn) : M unit :=
  if all_ok b || Nat.eqb (success_count b) 0 then ret tt else lift Panic.

Definition activate_sectors_pieces (inputs : list SectorPiecesActivationInput) (all_or_nothing : bool)
  : M (BatchReturn * list DataActivationOutput) :=
  let* _ := mfold (fun _ a => try USR_ILLEGAL_STATE (check_commd a)) tt inputs in
  let* res := batch_claim_allocations (sector_claims_of <$> inputs) all_or_nothing in
  let* _ := if all_or_nothing then assert_all_or_none (sector_results res) else ret tt in
  let* pieces := lift (successes (sector_results res) (spi_piece_manifests <$> inputs)) in
  ret (sector_results res,
       zip_with (fun space ps => mkData (unverified_of ps) space) (claimed_space res) pieces).

Record DealsActivationInput : Type := mkDealsInput {
  da_deal_ids : list Z;
  da_sector_expiry : Z;
  da_sector_number : Z;
  da_sector_type : SealProof;
}.

Definition deals_input (p : SectorPreCommitOnChainInfo) : DealsActivationInput :=
  let i := pc_info p in
  mkDealsInput (pc_deal_ids i) (pc_expiration i) (pc_sector_number i) (pc_seal_proof i).

Definition activate_sectors_deals (infos : list DealsActivationInput) (compute_unsealed_cid : bool)
  : M (BatchReturn * list DataActivationOutput) :=
  let* batch :=
    if forallb (fun p => match da_deal_ids p with [] => true | _ => false end) infos then
      ret (mkActivateResult (batch_ok (length infos)) (replicate (length infos) []))
    else
      let params := (fun i => mkSectorDeals (da_sector_number i) (da_sector_type i) (da_sector_expiry i)
                                (da_deal_ids i)) <$> infos in
      let* r := call STORAGE_MARKET_ACTOR_ADDR BATCH_ACTIVATE_DEALS_METHOD
                  (PActivateDeals params compute_unsealed_cid) 0 in
      lift (deserialize_block (decode_activations x) r) in
  if Nat.eqb (success_count (activation_results batch)) 0 then throw USR_ILLEGAL_ARGUMENT
  else
    let* successful := lift (successes (activation_results batch) infos) in
    let claims := zip_with (fun i activated =>
      mkSectorClaims (da_sector_number i) (da_sector_expiry i)
        ((fun d => mkAllocationClaim (ad_client d) (ad_allocation_id d) (ad_data d) (ad_size d))
           <$> filter (fun d => ad_allocation_id d <> NO_ALLOCATION_ID) activated))
      successful (activations batch) in
    let* res := batch_claim_allocations claims true in
    let* _ := assert_all_or_none (sector_results res) in
    ret (activation_results batch,
         zip_with (fun deals space =>
           mkData (sum_list_Z ((fun d => if ad_allocation_id d =? NO_ALLOCATION_ID then ad_size d else 0)
                                 <$> deals)) space)
           (activations batch) (claimed_space res)).

(** ** Notifications (notifications.rs) *)

Record ActivationNotifications : Type := mkNotifications {
  an_sector_number : Z;
  an_sector_expiration : Z;
  an_pieces : list PieceActivationManifest;
}.

(** The changes of one notifee, by sector. *)
Definition changes_for (notifee : Address) (l : list ActivationNotifications)
  : gmap Z (list PieceChange) :=
  foldl (fun m a =>
    foldl (fun m p =>
      foldl (fun (m : gmap Z (list PieceChange)) n =>
        if bool_decide (dn_address n = notifee) then
          <[an_sector_number a := default [] (m !! an_sector_number a)
              ++ [mkPieceChange (pm_cid p) (pm_size p) (dn_payload n)]]> m
        else m) m (pm_notify p)) m (an_pieces a)) ∅ l.

Definition notifees (l : list ActivationNotifications) : list Address :=
  a ← l; p ← an_pieces a; n ← pm_notify p; [dn_address n].

Definition send_notification (notifee : Address) (changes : list SectorChanges)
  : M (list (list bool) + error) :=
  let* res := send env (mkSend notifee (method_hash x "SectorContentChanged") (PSectorContentChanged changes)
                          0 false) in
  ret match res with
      | inl r =>
          if is_success (resp_code r) then
            match resp_data r with
            | Some data =>
                match decode_notification x data with
                | Some r => inl r
                | None => inr (err ERR_NOTIFICATION_RESPONSE_INVALID)
                end
            | None => inr (checked ERR_NOTIFICATION_RESPONSE_INVALID None)
            end
          else inr (checked ERR_NOTIFICATION_RECEIVER_ABORTED None)
      | inr _ => inr (checked ERR_NOTIFICATION_SEND_FAILED None)
      end.

Definition validate_notification_response (request : list SectorChanges) (response : list (list bool))
  : MRes unit :=
  if negb (Nat.eqb (length response) (length request)) then bail_code ERR_NOTIFICATION_RESPONSE_INVALID
  else
    rfold (fun _ '(sreq, sresp) =>
      if negb (Nat.eqb (length sresp) (length (sch_added sreq))) then
        bail_code ERR_NOTIFICATION_RESPONSE_INVALID
      else if forallb id sresp then Ok tt else bail_code ERR_NOTIFICATION_REJECTED)
      tt (zip request response).

Definition notify_one (l : list ActivationNotifications) (require_success : bool) (notifee : Address)
  : M unit :=
  if negb (bool_decide (notifee = STORAGE_MARKET_ACTOR_ADDR)) then
    if require_success then throw USR_ILLEGAL_ARGUMENT else ret tt
  else
    let expirations : gmap Z Z :=
      foldl (fun m a => <[an_sector_number a := an_sector_expiration a]> m) ∅ l in
    let* changes := lift (rfold (fun acc '(n, pieces) =>
      let! e := expect (expirations !! n) in
      Ok (acc ++ [mkSectorChanges n e pieces])) [] (entries (changes_for notifee l))) in
    let* response := send_notification notifee changes in
    if require_success then
      match response with
      | inl r => try USR_UNSPECIFIED (validate_notification_response changes r)
      | inr e => lift (Err e)
      end
    else ret tt.

Definition notify_data_consumers (l : list ActivationNotifications) (require_success : bool) : M unit :=
  mfold (fun _ a => notify_one l require_success a) tt (address_order x (remove_dups (notifees l))).
End requests.
