(* ===== verification/MinerSectors.v ===== *)
(** * The miner actor: sector life

    Models the methods of src/actors/miner/src/lib.rs that bring sectors in and
    change them: pre-commitment, the three ways of proving commitments
    (interactive, at genesis, non-interactive), replica updates, and the
    extension of expirations.

    The closure of a transaction is a function of the state and, where it reads
    it, of the actor's balance. *)

From S2P Require Import Prelude Runtime Batch Smooth Collections MinerBase MinerQueues MinerPartition MinerDeadline MinerFunds MinerState MinerCalls.

Import Miner.

Definition SIMPLE_QA_POWER : Z := 1.

(** Network inputs to the pledge of a sector. *)
Record NetworkPledgeInputs : Type := mkPledgeInputs {
  network_qap : FilterEstimate;
  network_baseline : Z;
  circulating_supply : Z;
  epoch_reward : FilterEstimate;
  epochs_since_ramp_start : Z;
  pi_ramp_duration_epochs : Z;
}.

Definition pledge_for (pi : NetworkPledgeInputs) (qa_power : Z) : MRes Z :=
  Monies.initial_pledge_for_power (epoch_reward pi) (network_qap pi) qa_power (network_baseline pi)
    (circulating_supply pi) (epochs_since_ramp_start pi) (pi_ramp_duration_epochs pi).

(** Distinct members in the order of their first occurrence. *)
Definition first_occurrences (l : list Z) : list Z :=
  foldl (fun acc n => if bool_decide (n ∈ acc) then acc else acc ++ [n]) [] l.

(** [BigInt] division: truncating, and rounding down. *)
Definition quot {E} (a b : Z) : Res E Z := if b =? 0 then Panic else Ok (Z.quot a b).

Definition wrap_i64 (n : Z) : Z := (n + 2 ^ 63) mod 2 ^ 64 - 2 ^ 63.

(** ** Parameters *)

Record SectorActivationManifest : Type := mkActivationManifest {
  sam_sector_number : Z;
  sam_pieces : list PieceActivationManifest;
}.

Record ProveCommitSectors3Params : Type := mkProveCommit3 {
  pc3_sector_activations : list SectorActivationManifest;
  pc3_sector_proofs : list bytes;
  pc3_aggregate_proof : bytes;
  pc3_aggregate_proof_type : option Z;
  pc3_require_activation_success : bool;
  pc3_require_notification_success : bool;
}.

Record ProveCommitSectorsNIParams : Type := mkProveCommitNI {
  pni_sectors : list SectorNIActivationInfo;
  pni_aggregate_proof : bytes;
  pni_seal_proof_type : SealProof;
  pni_aggregate_proof_type : Z;
  pni_proving_deadline : Z;
  pni_require_activation_success : bool;
}.

Record SectorUpdateManifest : Type := mkUpdateManifest {
  sum_sector : Z;
  sum_deadline : Z;
  sum_partition : Z;
  sum_new_sealed_cid : Cid;
  sum_pieces : list PieceActivationManifest;
}.

Record ProveReplicaUpdates3Params : Type := mkReplicaUpdates3 {
  ru3_sector_updates : list SectorUpdateManifest;
  ru3_sector_proofs : list bytes;
  ru3_aggregate_proof : bytes;
  ru3_update_proofs_type : UpdateProofType;
  ru3_aggregate_proof_type : option Z;
  ru3_require_activation_success : bool;
  ru3_require_notification_success : bool;
}.

Record SectorClaim : Type := mkSectorClaim {
  scl_sector_number : Z;
  scl_maintain_claims : list Z;
  scl_drop_claims : list Z;
}.

Record ExpirationExtension2 : Type := mkExtension {
  ee_deadline : Z;
  ee_partition : Z;
  ee_sectors : BitField;
  ee_sectors_with_claims : list SectorClaim;
  ee_new_expiration : Z;
}.

Record InternalSectorSetupForPresealParams : Type := mkPreseal {
  ps_sectors : list Z;
  ps_reward_smoothed : FilterEstimate;
  ps_reward_baseline_power : Z;
  ps_quality_adj_power_smoothed : FilterEstimate;
}.

(** ** Pre-commitment *)

Section precommit.
Context (x : Ext) (ctx : Ctx).
Notation policy := (policy x).
Notation curr_epoch := (ctx_epoch ctx).

(** The preconditions of one sector; [numbers] are those before it. *)
Definition check_precommit (numbers : BitField) (p : SectorPreCommitInfo) : MRes BitField :=
  if bf_get numbers (pc_sector_number p) then bail_code USR_ILLEGAL_ARGUMENT
  else if negb (can_pre_commit_seal_proof policy (pc_seal_proof p)) then bail_code USR_ILLEGAL_ARGUMENT
  else if pc_sector_number p >? MAX_SECTOR_NUMBER then bail_code USR_ILLEGAL_ARGUMENT
  else if negb (is_sealed_sector (pc_sealed_cid p)) then bail_code USR_ILLEGAL_ARGUMENT
  else if pc_seal_rand_epoch p >=? curr_epoch then bail_code USR_ILLEGAL_ARGUMENT
  else if pc_seal_rand_epoch p <? curr_epoch - max_pre_commit_randomness_lookback policy then
    bail_code USR_ILLEGAL_ARGUMENT
  else if match pc_unsealed_cid p with Some c => negb (is_unsealed_sector x c) | None => false end then
    bail_code USR_ILLEGAL_ARGUMENT
  else
    let max_activation := curr_epoch + default 0 (max_prove_commit_duration policy (pc_seal_proof p)) in
    let! _ := validate_expiration x curr_epoch max_activation (pc_expiration p) (pc_seal_proof p) in
    Ok (numbers ∪ {[pc_sector_number p]}).

(** The on-chain record of one sector and its clean-up event. *)
Definition build_precommit (i : MinerInfo) (deposit_req : Z) (p : SectorPreCommitInfo)
    (computed : option Cid) : MRes (SectorPreCommitOnChainInfo * (Z * Z)) :=
  let! wpost := ok_or (pt_window_post (proofs x) (pc_seal_proof p)) (Some USR_ILLEGAL_ARGUMENT) in
  if negb (wpost =? window_post_proof_type i) then bail_code USR_ILLEGAL_ARGUMENT
  else if Z.of_nat (length (pc_deal_ids p)) >? sector_deals_max policy (sector_size i) then
    bail_code USR_ILLEGAL_ARGUMENT
  else
    let! _ :=
      match computed with
      | Some c =>
          let! declared := get_cid x (pc_unsealed_cid p) (pc_seal_proof p) in
          if bool_decide (declared = c) then Ok tt else bail_code USR_ILLEGAL_ARGUMENT
      | None => Ok tt
      end in
    let! msd := ok_or (max_prove_commit_duration policy (pc_seal_proof p)) (Some USR_ILLEGAL_ARGUMENT) in
    Ok (mkPreCommitOnChain p deposit_req curr_epoch,
        (curr_epoch + msd + expired_pre_commit_clean_up_delay policy, pc_sector_number p)).

(** The state change: the records are stored, the deposits locked, the numbers
    allocated and the clean-ups scheduled; whether cron must be started. *)
Definition record_precommits (numbers : BitField) (available_balance : Z)
    (infos : list SectorPreCommitOnChainInfo) (events : list (Z * Z)) (s : State)
  : Res error (bool * State) :=
  let total := sum_list_Z (pre_commit_deposit <$> infos) in
  if available_balance <? total then Err (err USR_INSUFFICIENT_FUNDS)
  else
    let! s := mc USR_ILLEGAL_STATE (St.add_pre_commit_deposit total s) in
    let! s := dc USR_ILLEGAL_STATE (St.allocate_sector_numbers numbers false s) in
    let! s := dc USR_ILLEGAL_STATE (St.put_precommitted_sectors infos s) in
    let! s := dc USR_ILLEGAL_STATE (St.add_pre_commit_clean_ups policy events s) in
    Ok (negb (deadline_cron_active s), St.set_cron_active true s).
End precommit.

(** ** New sectors *)

(** The transaction of [activate_new_sector_infos]. *)
Section activation.
Context (x : Ext) (epoch : Z).
Notation policy := (policy x).

Definition new_sector_info (i : MinerInfo) (pi : NetworkPledgeInputs) (p : SectorPreCommitOnChainInfo)
    (data : DataActivationOutput) : MRes SectorOnChainInfo :=
  let pc := pc_info p in
  let duration := pc_expiration pc - epoch in
  if duration <? min_sector_expiration policy then bail_code USR_ILLEGAL_ARGUMENT
  else
    let deal_weight := unverified_space data * duration in
    let verified_deal_weight := verified_space data * duration in
    let! power := qa_power_for_weight (sector_size i) duration verified_deal_weight in
    let daily_fee := daily_proof_fee policy (circulating_supply pi) power in
    let! pledge := pledge_for pi power in
    Ok (mkSector (pc_sector_number pc) (pc_seal_proof pc) (pc_sealed_cid pc) [] epoch (pc_expiration pc)
          deal_weight verified_deal_weight pledge None None epoch None None SIMPLE_QA_POWER daily_fee).

(** Total pledge. *)
Definition activate_infos (balance : Z) (i : MinerInfo) (pi : NetworkPledgeInputs)
    (precommits : list SectorPreCommitOnChainInfo) (data : list DataActivationOutput) (s : State)
  : Res error (Z * State) :=
  let pairs := zip precommits data in
  let! infos := dc USR_ILLEGAL_STATE
    (rfold (fun acc '(p, d) => let! info := new_sector_info i pi p d in Ok (acc ++ [info])) [] pairs) in
  let deposit_to_unlock := sum_list_Z ((fun pd => pre_commit_deposit (fst pd)) <$> pairs) in
  let total_pledge := sum_list_Z (initial_pledge <$> infos) in
  let! s := dc USR_ILLEGAL_STATE (St.put_sectors infos s) in
  let! s := dc USR_ILLEGAL_STATE (St.delete_precommitted_sectors (sector_number <$> infos) s) in
  let! s := dc USR_ILLEGAL_STATE
    (St.assign_sectors_to_deadlines policy epoch infos (window_post_partition_sectors i) (sector_size i) s) in
  let! s := mc USR_ILLEGAL_STATE (St.add_pre_commit_deposit (- deposit_to_unlock) s) in
  let! unlocked := mc USR_ILLEGAL_STATE (St.get_unlocked_balance balance s) in
  if unlocked <? total_pledge then Err (err USR_INSUFFICIENT_FUNDS)
  else
    let! s := mc USR_ILLEGAL_STATE (St.add_initial_pledge total_pledge s) in
    let! _ := mc ERR_BALANCE_INVARIANTS_BROKEN (St.check_balance_invariants balance s) in
    Ok (total_pledge, s).

(** The sector of a non-interactive commitment. *)
Definition ni_sector (p : SealProof) (pledge daily_fee : Z) (s : SectorNIActivationInfo) : SectorOnChainInfo :=
  mkSector (ni_sector_number s) p (ni_sealed_cid s) [] epoch (ni_expiration s) 0 0 pledge None None epoch
    None None SIMPLE_QA_POWER daily_fee.

(** The transaction of [prove_commit_sectors_ni]: whether cron must be started,
    and the fee to burn. *)
Definition add_ni_sectors (balance : Z) (i : MinerInfo) (numbers : BitField) (total_pledge deadline : Z)
    (infos : list SectorOnChainInfo) (s : State) : Res error (bool * Z * State) :=
  let! available := mc USR_ILLEGAL_STATE (St.get_unlocked_balance balance s) in
  if available <? total_pledge then Err (err USR_INSUFFICIENT_FUNDS)
  else
    let needs_cron := negb (deadline_cron_active s) in
    let s := St.set_cron_active true s in
    let! s := dc USR_ILLEGAL_STATE (St.allocate_sector_numbers numbers false s) in
    let! s := mc USR_ILLEGAL_STATE (St.put_sectors infos s) in
    let! s := dc USR_ILLEGAL_STATE
      (St.assign_sectors_to_deadline policy epoch infos (window_post_partition_sectors i) (sector_size i)
         deadline s) in
    let! s := mc USR_ILLEGAL_STATE (St.add_initial_pledge total_pledge s) in
    let! (fee_to_burn, s) := dc USR_ILLEGAL_STATE (St.repay_debts balance s) in
    Ok (needs_cron, fee_to_burn, s).
End activation.

(** ** Replica updates *)

Record ReplicaUpdateStateInputs : Type := mkUpdateInputs {
  ui_partition : Z;
  ui_sector_info : SectorOnChainInfo;
  ui_seal_cid : Cid;
  ui_unverified_space : Z;
  ui_verified_space : Z;
}.

Section updates.
Context (x : Ext) (epoch : Z).
Notation policy := (policy x).

Definition validate_update (s : State) (update_proof_type : UpdateProofType) (u : SectorUpdateManifest)
    (proof : bytes) (seen : list Z) (info : SectorOnChainInfo) : MRes unit :=
  if bool_decide (sum_sector u ∈ seen) then bail_code USR_ILLEGAL_ARGUMENT
  else if Z.of_nat (length proof) >? 4096 then bail_code USR_ILLEGAL_ARGUMENT
  else if sum_deadline u >=? wpost_period_deadlines policy then bail_code USR_ILLEGAL_ARGUMENT
  else if negb (is_sealed_sector (sum_new_sealed_cid u)) then bail_code USR_ILLEGAL_ARGUMENT
  else if negb (deadline_is_mutable policy (St.current_proving_period_start policy epoch s)
                  (sum_deadline u) epoch) then bail_code USR_ILLEGAL_ARGUMENT
  else
    let! active := St.check_sector_active (sum_deadline u) (sum_partition u) (sum_sector u) true s in
    if negb (active : bool) then bail_code USR_ILLEGAL_ARGUMENT
    else if negb (deal_weight info + verified_deal_weight info =? 0) then bail_code USR_ILLEGAL_ARGUMENT
    else
      let! expected := ok_or (pt_update (proofs x) (seal_proof info)) (Some USR_ILLEGAL_STATE) in
      if negb (update_proof_type =? expected) then bail_code USR_ILLEGAL_ARGUMENT else Ok tt.

(** The updates with their proofs and sector infos; a number is recorded as seen
    by its first update, valid or not. *)
Definition validate_replica_updates (s : State) (update_proof_type : UpdateProofType)
    (l : list (SectorUpdateManifest * bytes * SectorOnChainInfo)) (all_or_nothing : bool) : MRes BatchReturn :=
  let! (g, _) :=
    rfold (fun '(g, seen) '(u, proof, info) =>
      match validate_update s update_proof_type u proof seen info with
      | Ok _ => Ok (add_success g, seen ++ [sum_sector u])
      | Err e => if all_or_nothing then Err e
                 else Ok (add_fail USR_ILLEGAL_ARGUMENT g, seen ++ [sum_sector u])
      | Panic => Panic
      end) (new_gen (length l), []) l in
  generate g.

Definition update_existing_sector_info (size : Z) (pi : NetworkPledgeInputs) (u : ReplicaUpdateStateInputs)
  : MRes SectorOnChainInfo :=
  let info := ui_sector_info u in
  let duration := expiration info - epoch in
  let deal_weight := ui_unverified_space u * duration in
  let verified := ui_verified_space u * duration in
  let! new_qa_power := qa_power_for_weight size duration verified in
  let! pledge := pledge_for pi new_qa_power in
  let! fee :=
    if daily_fee info =? 0 then Ok (daily_proof_fee policy (circulating_supply pi) new_qa_power)
    else
      let! old_qa_power := qa_power_for_weight size duration (verified_deal_weight info) in
      Ok (if negb (old_qa_power =? new_qa_power)
          then daily_proof_fee_adjust (daily_fee info) old_qa_power new_qa_power
          else daily_fee info) in
  Ok (mkSector (sector_number info) (seal_proof info) (ui_seal_cid u) (deprecated_deal_ids info)
        (activation info) (expiration info) deal_weight verified (Z.max (initial_pledge info) pledge)
        None None epoch None (Some (default (sealed_cid info) (sector_key_cid info)))
        (Z.lor (flags info) SIMPLE_QA_POWER) fee).

(** The updates of one deadline: power, pledge and fee deltas, new infos. *)
Definition update_deadline_replicas (size : Z) (pi : NetworkPledgeInputs) (quant : QuantSpec)
    (us : list ReplicaUpdateStateInputs) (d : Deadline)
  : MRes (PowerPair * Z * list SectorOnChainInfo * Deadline) :=
  let! (power, pledge, fee, infos, ps) :=
    rfold (fun '(power, pledge, fee, infos, ps) u =>
      let! info := update_existing_sector_info size pi u in
      let! p := ok_or (ps !! ui_partition u) (Some USR_NOT_FOUND) in
      let! (dpower, dpledge, dfee, p) :=
        context_code USR_ILLEGAL_STATE (Part.replace_sectors size quant [ui_sector_info u] [info] p) in
      Ok (pp_add power dpower, pledge + dpledge, fee + dfee, infos ++ [info], <[ui_partition u := p]> ps))
      (pp_zero, 0, 0, [], partitions d) us in
  let d := DL.set_power (dl_faulty_power d) (pp_add (dl_live_power d) power) d in
  let d := DL.set_daily_fee (dl_daily_fee d + fee) d in
  Ok (power, pledge, infos, DL.set_partitions ps d).

(** The transaction of [update_replica_states]; [all] is the array of sectors
    the caller loaded. *)
Definition update_replica_states (balance size : Z) (pi : NetworkPledgeInputs)
    (by_deadline : gmap Z (list ReplicaUpdateStateInputs)) (expected_count : nat)
    (all : gmap Z SectorOnChainInfo) (s : State) : Res error (PowerPair * Z * State) :=
  let! (power, pledge, infos, ds) :=
    rfold (fun '(power, pledge, infos, ds) '(idx, us) =>
      let! d := dc USR_ILLEGAL_STATE (Deadlines.load_deadline idx ds) in
      let quant := St.quant_spec_for_deadline policy idx s in
      let! (dpower, dpledge, dinfos, d) :=
        dc USR_ILLEGAL_STATE (update_deadline_replicas size pi quant us d) in
      let! ds := mc USR_ILLEGAL_STATE (Deadlines.update_deadline policy idx d ds) in
      Ok (pp_add power dpower, pledge + dpledge, infos ++ dinfos, ds))
      (pp_zero, 0, [], deadlines s) (entries by_deadline) in
  if negb (Nat.eqb (length infos) expected_count) then Err (err USR_ILLEGAL_STATE)
  else
    let! all := dc USR_ILLEGAL_STATE (Sectors.store infos all) in
    let s := St.set_deadlines ds (St.set_sectors all s) in
    let! _ :=
      if pledge >? 0 then
        let! unlocked := mc USR_ILLEGAL_STATE (St.get_unlocked_balance balance s) in
        if unlocked <? pledge then Err (err USR_INSUFFICIENT_FUNDS) else Ok tt
      else Ok tt in
    let! s := mc USR_ILLEGAL_STATE (St.add_initial_pledge pledge s) in
    let! _ := mc ERR_BALANCE_INVARIANTS_BROKEN (St.check_balance_invariants balance s) in
    Ok (power, pledge, s).
End updates.

(** ** Extension of expirations *)

Section extension.
Context (x : Ext) (epoch : Z).
Notation policy := (policy x).

Definition extended_sectors (e : ExpirationExtension2) : BitField :=
  from_bits (scl_sector_number <$> ee_sectors_with_claims e) ∪ ee_sectors e.

(** The claims of one sector: their space, and that of the claims maintained. *)
Definition check_claims (miner new_expiration : Z) (sc : SectorClaim) (claims : list Claim)
    (spaces : gmap Z (Z * Z)) : MRes (gmap Z (Z * Z)) :=
  rfold (fun (spaces : gmap Z (Z * Z)) '(i, c) =>
    if negb (cl_provider c =? miner) then bail_code USR_ILLEGAL_ARGUMENT
    else if negb (cl_sector c =? scl_sector_number sc) then bail_code USR_ILLEGAL_ARGUMENT
    else
      let maintained := (i <? length (scl_maintain_claims sc))%nat in
      if maintained && (new_expiration >? cl_term_start c + cl_term_max c) then bail_code USR_FORBIDDEN
      else
        let maintain_delta := if maintained then cl_size c else 0 in
        match spaces !! scl_sector_number sc with
        | Some (check, maintain) =>
            let! check := chk_u64 (check + cl_size c) in
            let! maintain := chk_u64 (maintain + maintain_delta) in
            Ok (<[scl_sector_number sc := (check, maintain)]> spaces)
        | None => Ok (<[scl_sector_number sc := (cl_size c, maintain_delta)]> spaces)
        end) spaces (imap pair claims).

Definition validate_extended_expiration (new_expiration : Z) (s : SectorOnChainInfo) : MRes unit :=
  if negb (can_extend_seal_proof_type (seal_proof s)) then bail_code USR_FORBIDDEN
  else if expiration s <? epoch then bail_code USR_FORBIDDEN
  else if new_expiration <? expiration s then bail_code USR_ILLEGAL_ARGUMENT
  else validate_expiration x epoch (activation s) new_expiration (seal_proof s).

(** The sector with new expiration, weights and base epoch. *)
Definition reweighted (s : SectorOnChainInfo) (new_expiration deal_weight verified : Z)
    (rewards : option Z * option Z * option Z) : SectorOnChainInfo :=
  let '(day, storage, replaced) := rewards in
  mkSector (sector_number s) (seal_proof s) (sealed_cid s) (deprecated_deal_ids s) (activation s)
    new_expiration deal_weight verified (initial_pledge s) day storage epoch replaced (sector_key_cid s)
    (flags s) (daily_fee s).

Definition extend_simple_qap_sector (new_expiration : Z) (spaces : gmap Z (Z * Z)) (s : SectorOnChainInfo)
  : MRes SectorOnChainInfo :=
  let old_duration := expiration s - power_base_epoch s in
  let new_duration := new_expiration - epoch in
  let! deals :=
    if deal_weight s >? 0 then quot (deal_weight s * (expiration s - epoch)) old_duration
    else Ok (deal_weight s) in
  if verified_deal_weight s >? 0 then
    let! old_space := quot (verified_deal_weight s) old_duration in
    let! (expected, new_space) := ok_or (spaces !! sector_number s) (Some USR_ILLEGAL_ARGUMENT) in
    if negb (wrap_i64 expected =? old_space) then bail_code USR_ILLEGAL_ARGUMENT
    else if negb (expected =? new_space)
            && (expiration s - epoch >? end_of_life_claim_drop_period policy) then
      bail_code USR_FORBIDDEN
    else Ok (reweighted s new_expiration deals (new_space * new_duration) (None, None, None))
  else Ok (reweighted s new_expiration deals (verified_deal_weight s)
             (expected_day_reward s, expected_storage_pledge s, replaced_day_reward s)).

Definition extend_non_simple_qap_sector (new_expiration : Z) (s : SectorOnChainInfo) : MRes SectorOnChainInfo :=
  let! deals := div_floor (deal_weight s * (expiration s - epoch)) (expiration s - power_base_epoch s) in
  let! verified :=
    div_floor (verified_deal_weight s * (expiration s - epoch)) (expiration s - power_base_epoch s) in
  Ok (reweighted s new_expiration deals verified (None, None, None)).

Definition set_sector_fee (fee : Z) (s : SectorOnChainInfo) : SectorOnChainInfo :=
  mkSector (sector_number s) (seal_proof s) (sealed_cid s) (deprecated_deal_ids s) (activation s)
    (expiration s) (deal_weight s) (verified_deal_weight s) (initial_pledge s) (expected_day_reward s)
    (expected_storage_pledge s) (power_base_epoch s) (replaced_day_reward s) (sector_key_cid s) (flags s) fee.

Definition extend_sector_committment (supply size new_expiration : Z) (spaces : gmap Z (Z * Z))
    (s : SectorOnChainInfo) : MRes SectorOnChainInfo :=
  let! _ := validate_extended_expiration new_expiration s in
  let! s' :=
    if Z.testbit (flags s) 0 then extend_simple_qap_sector new_expiration spaces s
    else extend_non_simple_qap_sector new_expiration s in
  let! new_qa_power :=
    qa_power_for_weight size (expiration s' - power_base_epoch s') (verified_deal_weight s') in
  if daily_fee s' =? 0 then
    Ok (if network_version x epoch >=? FIP_0100_GRACE_PERIOD_END_VERSION
        then set_sector_fee (daily_proof_fee policy supply new_qa_power) s' else s')
  else
    let old_qa_power := qa_power_for_sector size s in
    Ok (if negb (old_qa_power =? new_qa_power)
        then set_sector_fee (daily_proof_fee_adjust (daily_fee s) old_qa_power new_qa_power) s' else s').

(** One declaration: the infos are replaced in the array and in their
    partition; power, pledge and fee deltas are added. *)
Definition extend_decl (supply size : Z) (spaces : gmap Z (Z * Z)) (quant : QuantSpec)
    (acc : gmap Z SectorOnChainInfo * gmap Z Partition * PowerPair * Z * Z) (e : ExpirationExtension2)
  : MRes (gmap Z SectorOnChainInfo * gmap Z Partition * PowerPair * Z * Z) :=
  let '(all, ps, power, pledge, fee) := acc in
  let! p := ok_or (ps !! ee_partition e) (Some USR_NOT_FOUND) in
  let! old := Sectors.load_sectors (extended_sectors e) all in
  let! new :=
    rfold (fun l s => let! s' := extend_sector_committment supply size (ee_new_expiration e) spaces s in
                      Ok (l ++ [s'])) [] old in
  let! all := Sectors.store new all in
  let! (dpower, dpledge, dfee, p) := Part.replace_sectors size quant old new p in
  Ok (all, <[ee_partition e := p]> ps, pp_add power dpower, pledge + dpledge, fee + dfee).

(** The declarations of one deadline; the partitions enter the deadline's
    queue at each new expiration. *)
Definition extend_deadline (supply size : Z) (spaces : gmap Z (Z * Z)) (quant : QuantSpec)
    (decls : list ExpirationExtension2) (all : gmap Z SectorOnChainInfo) (d : Deadline)
  : MRes (gmap Z SectorOnChainInfo * PowerPair * Z * Deadline) :=
  let! (all, ps, power, pledge, fee) :=
    rfold (extend_decl supply size spaces quant) (all, partitions d, pp_zero, 0, 0) decls in
  let d := DL.set_power (dl_faulty_power d) (pp_add (dl_live_power d) power) d in
  let d := DL.set_partitions ps (DL.set_daily_fee (dl_daily_fee d + fee) d) in
  let! d :=
    rfold (fun d e =>
      DL.add_expiration_partitions quant e
        (ee_partition <$> filter (fun decl => ee_new_expiration decl = e) decls) d)
      d (first_occurrences (ee_new_expiration <$> decls)) in
  Ok (all, power, pledge, d).

(** Power and pledge deltas. *)
Definition extend_expirations (supply : Z) (spaces : gmap Z (Z * Z)) (exts : list ExpirationExtension2)
    (s : State) : Res error (PowerPair * Z * State) :=
  let! (all, power, pledge, ds) :=
    rfold (fun '(all, power, pledge, ds) idx =>
      let! d := dc USR_ILLEGAL_STATE (Deadlines.load_deadline idx ds) in
      let quant := St.quant_spec_for_deadline policy idx s in
      let decls := filter (fun e => ee_deadline e = idx) exts in
      let! (all, dpower, dpledge, d) :=
        dc USR_ILLEGAL_STATE
          (extend_deadline supply (sector_size (info s)) spaces quant decls all d) in
      let! ds := dc USR_ILLEGAL_STATE (Deadlines.update_deadline policy idx d ds) in
      Ok (all, pp_add power dpower, pledge + dpledge, ds))
      (st_sectors s, pp_zero, 0, deadlines s) (first_occurrences (ee_deadline <$> exts)) in
  Ok (power, pledge, St.set_deadlines ds (St.set_sectors all s)).
End extension.

(** ** Methods *)

Section methods.
Context {Net : Type} (x : Ext) (env : Env Net State Param (list Z)) (ctx : Ctx).
Notation M := (M Net State Param (list Z)).
Notation policy := (policy x).
Notation curr_epoch := (ctx_epoch ctx).
Notation circ_supply := (total_fil_circ_supply x (ctx_epoch ctx)).

Definition get_pledge_inputs : M NetworkPledgeInputs :=
  let* rew := request_current_epoch_block_reward x env in
  let* pwr := request_current_total_power x env in
  ret (mkPledgeInputs (quality_adj_power_smoothed pwr) (this_epoch_baseline_power rew) circ_supply
         (this_epoch_reward_smoothed rew) (curr_epoch - ramp_start_epoch pwr) (ramp_duration_epochs pwr)).

Definition start_cron (needs_cron : bool) : M unit :=
  if needs_cron then
    let* s := state in
    enroll_cron_event x env (last (St.deadline_info policy curr_epoch s)) CRON_EVENT_PROVING_DEADLINE
  else ret tt.

Definition pre_commit_sector_batch2 (sectors : list SectorPreCommitInfo) : M unit :=
  match sectors with
  | [] => throw USR_ILLEGAL_ARGUMENT
  | _ =>
      let* numbers := try USR_ILLEGAL_STATE (rfold (check_precommit x ctx) ∅ sectors) in
      let deals := (fun p => mkSectorDeals (pc_sector_number p) (pc_seal_proof p) (pc_expiration p)
                               (pc_deal_ids p)) <$> sectors in
      let* rew := request_current_epoch_block_reward x env in
      let* pwr := request_current_total_power x env in
      let* cids := verify_deals x env deals in
      if negb (Nat.eqb (length cids) (length sectors)) then throw USR_ILLEGAL_STATE
      else
        let* (fee_to_burn, needs_cron) := transaction_rt (fun s =>
          let* b := current_balance in
          let* available := must USR_ILLEGAL_STATE (St.get_available_balance b s) in
          let* (fee_to_burn, s) := repay_debts_or_abort s in
          let i := info s in
          let* _ := validate_control ctx i in
          if consensus_fault_active i curr_epoch then throw USR_FORBIDDEN
          else
            let* deposit_req := try USR_ILLEGAL_STATE
              (Monies.pre_commit_deposit_for_power (this_epoch_reward_smoothed rew)
                 (quality_adj_power_smoothed pwr) (qa_power_max (sector_size i))) in
            let* built := try USR_ILLEGAL_STATE
              (rfold (fun acc '(p, c) =>
                 let! r := build_precommit x ctx i deposit_req p c in Ok (acc ++ [r])) []
                 (zip sectors cids)) in
            let* (needs_cron, s) :=
              lift (record_precommits x numbers available (fst <$> built) (snd <$> built) s) in
            ret ((fee_to_burn, needs_cron), s)) in
        let* _ := burn_funds env fee_to_burn in
        let* _ := check_invariants in
        start_cron needs_cron
  end.

Definition activate_new_sector_infos (precommits : list SectorPreCommitOnChainInfo)
    (data : list DataActivationOutput) (pi : NetworkPledgeInputs) (i : MinerInfo) : M unit :=
  let* total_pledge := transaction_rt (fun s =>
    let* b := current_balance in
    lift (activate_infos x curr_epoch b i pi precommits data s)) in
  notify_pledge_changed env total_pledge.

(** The proven activations and the result of the proofs. *)
Definition verify_commit_proofs (p : ProveCommitSectors3Params)
    (precommits : list SectorPreCommitOnChainInfo) (batch : BatchReturn)
    (inputs : list SectorSealProofInput)
    (eligible : list (SectorActivationManifest * SectorPreCommitOnChainInfo))
  : Res error (list (SectorActivationManifest * SectorPreCommitOnChainInfo) * BatchReturn) :=
  match pc3_sector_proofs p with
  | _ :: _ =>
      let! valid_inputs := successes batch inputs in
      let! valid_proofs := successes batch (pc3_sector_proofs p) in
      let! res := ok_or (batch_verify_seals x
                           (zip_with (fun i pr => (ctx_receiver ctx, i, pr)) valid_inputs valid_proofs))
                    (err USR_ILLEGAL_ARGUMENT) in
      let! (proven, g) :=
        rfold (fun '(proven, g) '(verified, ap) =>
          if (verified : bool) then Ok (proven ++ [ap], add_success g)
          else if pc3_require_activation_success p then Err (err USR_ILLEGAL_ARGUMENT)
          else Ok (proven, add_fail USR_ILLEGAL_ARGUMENT g))
          ([], new_gen (success_count batch)) (zip res eligible) in
      let! b := generate g in
      Ok (proven, b)
  | [] =>
      let! first := expect (head precommits) in
      let! aggregate_type := expect (pc3_aggregate_proof_type p) in
      let! _ := dc USR_ILLEGAL_ARGUMENT
        (verify_aggregate_seal x inputs (ctx_receiver ctx) (pc_seal_proof (pc_info first)) aggregate_type
           (pc3_aggregate_proof p)) in
      let! b := generate (add_successes (length eligible) (new_gen (success_count batch))) in
      Ok (eligible, b)
  end.

Definition check_commit_params (p : ProveCommitSectors3Params)
    (precommits : list SectorPreCommitOnChainInfo) : MRes unit :=
  match precommits, pc3_sector_proofs p, pc3_aggregate_proof p with
  | [], _, _ => bail_code USR_ILLEGAL_ARGUMENT
  | _, [], [] | _, _ :: _, _ :: _ => bail_code USR_ILLEGAL_ARGUMENT
  | first :: _, _ :: _, [] =>
      if bool_decide (is_Some (pc3_aggregate_proof_type p)) then bail_code USR_ILLEGAL_ARGUMENT
      else if negb (Nat.eqb (length (pc3_sector_activations p)) (length (pc3_sector_proofs p)))
      then bail_code USR_ILLEGAL_ARGUMENT
      else validate_seal_proofs x (pc_seal_proof (pc_info first)) (pc3_sector_proofs p)
  | _ :: _, [], _ :: _ =>
      if negb (bool_decide (pc3_aggregate_proof_type p = Some (SNARK_PACK_V2 x)))
      then bail_code USR_ILLEGAL_ARGUMENT
      else validate_seal_aggregate_proof x (pc3_aggregate_proof p)
             (Z.of_nat (length (pc3_sector_activations p))) true
  end.

Definition prove_commit_sectors3 (p : ProveCommitSectors3Params) : M BatchReturn :=
  let* s := state in
  let i := info s in
  let* _ := validate_control ctx i in
  let* precommits := try USR_ILLEGAL_STATE
    (St.get_precommitted_sectors (sam_sector_number <$> pc3_sector_activations p) s) in
  let* _ := try USR_ILLEGAL_STATE (check_commit_params p precommits) in
  let* (batch, inputs) := try USR_ILLEGAL_STATE
    (validate_precommits x ctx precommits false (pc3_require_activation_success p)) in
  if Nat.eqb (success_count batch) 0 then throw USR_ILLEGAL_ARGUMENT
  else
    let* valid_precommits := lift (successes batch precommits) in
    let* valid_activations := lift (successes batch (pc3_sector_activations p)) in
    let* (proven, proven_batch) :=
      lift (verify_commit_proofs p precommits batch inputs (zip valid_activations valid_precommits)) in
    if Nat.eqb (success_count proven_batch) 0 then throw USR_ILLEGAL_ARGUMENT
    else
      let activation_inputs := (fun ap =>
        let pc := pc_info (snd ap) in
        mkPieces (sam_pieces (fst ap)) (pc_expiration pc) (pc_sector_number pc) (pc_seal_proof pc)
          (Some (pc_unsealed_cid pc))) <$> proven in
      let* (data_batch, data) :=
        activate_sectors_pieces x env activation_inputs (pc3_require_activation_success p) in
      if Nat.eqb (success_count data_batch) 0 then throw USR_ILLEGAL_ARGUMENT
      else
        let* successful := lift (successes data_batch proven) in
        let* pi := get_pledge_inputs in
        let* _ := activate_new_sector_infos (snd <$> successful) data pi i in
        let notifications := (fun ap => mkNotifications (sam_sector_number (fst ap))
                                          (pc_expiration (pc_info (snd ap))) (sam_pieces (fst ap)))
                               <$> successful in
        let* _ := notify_data_consumers x env notifications (pc3_require_notification_success p) in
        lift (stack [batch; proven_batch; data_batch]).

Definition internal_sector_setup_preseal (p : InternalSectorSetupForPresealParams) : M unit :=
  let* _ := validate_immediate_caller_is ctx [SYSTEM_ACTOR_ADDR] in
  let* s := state in
  let precommits := St.find_precommitted_sectors (ps_sectors p) s in
  let* (batch, data) := activate_sectors_deals x env (deals_input <$> precommits) false in
  let* successful := lift (successes batch precommits) in
  let pi := mkPledgeInputs (ps_quality_adj_power_smoothed p) (ps_reward_baseline_power p) circ_supply
              (ps_reward_smoothed p) 0 0 in
  activate_new_sector_infos successful data pi (info s).

Definition prove_commit_sectors_ni (p : ProveCommitSectorsNIParams) : M BatchReturn :=
  let* s := state in
  let i := info s in
  let* _ := try USR_ILLEGAL_STATE
    (validate_seal_aggregate_proof x (pni_aggregate_proof p) (Z.of_nat (length (pni_sectors p))) false) in
  let* _ := validate_control ctx i in
  if pni_proving_deadline p >=? wpost_period_deadlines policy then throw USR_ILLEGAL_ARGUMENT
  else if negb (deadline_is_mutable policy (St.current_proving_period_start policy curr_epoch s)
                  (pni_proving_deadline p) curr_epoch) then throw USR_FORBIDDEN
  else if consensus_fault_active i curr_epoch then throw USR_FORBIDDEN
  else if negb (can_prove_commit_ni_seal_proof policy (pni_seal_proof_type p)) then
    throw USR_ILLEGAL_ARGUMENT
  else if negb (pni_aggregate_proof_type p =? SNARK_PACK_V2 x) then throw USR_ILLEGAL_ARGUMENT
  else
    let* (batch, inputs, numbers) := try USR_ILLEGAL_STATE
      (validate_ni_sectors x ctx (pni_sectors p) (pni_seal_proof_type p)
         (pni_require_activation_success p)) in
    if Nat.eqb (success_count batch) 0 then throw USR_ILLEGAL_ARGUMENT
    else
      let* valid := lift (successes batch (pni_sectors p)) in
      let* first := lift (expect (head valid)) in
      let* _ := try USR_ILLEGAL_ARGUMENT
        (verify_aggregate_seal x inputs (ni_sealer_id first) (pni_seal_proof_type p)
           (pni_aggregate_proof_type p) (pni_aggregate_proof p)) in
      let qa_sector_power := raw_power_for_sector (sector_size i) in
      let* pi := get_pledge_inputs in
      let* pledge := try USR_ILLEGAL_STATE (pledge_for pi qa_sector_power) in
      let daily_fee := daily_proof_fee policy circ_supply qa_sector_power in
      let infos := ni_sector curr_epoch (pni_seal_proof_type p) pledge daily_fee <$> valid in
      let total_pledge := Z.of_nat (length infos) * pledge in
      let* (needs_cron, fee_to_burn) := transaction_rt (fun s =>
        let* b := current_balance in
        lift (add_ni_sectors x curr_epoch b i numbers total_pledge (pni_proving_deadline p) infos s)) in
      let* _ := burn_funds env fee_to_burn in
      let* _ := notify_pledge_changed env total_pledge in
      let* _ := check_invariants in
      let* _ := start_cron needs_cron in
      ret batch.

(** The verified updates and the result of their proofs. *)
Definition verify_update_proofs (require_success : bool) (update_proof_type : UpdateProofType) (n : nat)
    (valid : list (SectorUpdateManifest * bytes * SectorOnChainInfo))
  : Res error (list (SectorUpdateManifest * SectorOnChainInfo) * BatchReturn) :=
  let! (proven, g) :=
    rfold (fun '(proven, g) '(u, proof, info) =>
      let! commd := dc USR_ILLEGAL_STATE (unsealed_cid_from_pieces x (sum_pieces u) (seal_proof info)) in
      let! cid := dc USR_ILLEGAL_STATE (get_cid x commd (seal_proof info)) in
      let input := mkUpdateInfo update_proof_type (sum_new_sealed_cid u) (sealed_cid info) cid proof in
      if verify_replica_update x input then Ok (proven ++ [(u, info)], add_success g)
      else if require_success then Err (err USR_ILLEGAL_ARGUMENT)
      else Ok (proven, add_fail USR_ILLEGAL_ARGUMENT g)) ([], new_gen n) valid in
  match proven with
  | [] => Err (err USR_ILLEGAL_ARGUMENT)
  | _ => let! b := generate g in
         if Nat.eqb (success_count b) 0 then Err (err USR_ILLEGAL_ARGUMENT) else Ok (proven, b)
  end.

Definition group_updates (l : list (SectorUpdateManifest * SectorOnChainInfo * DataActivationOutput))
  : gmap Z (list ReplicaUpdateStateInputs) :=
  foldl (fun (m : gmap Z (list ReplicaUpdateStateInputs)) '(u, info, d) =>
    <[sum_deadline u := default [] (m !! sum_deadline u)
        ++ [mkUpdateInputs (sum_partition u) info (sum_new_sealed_cid u) (unverified_space d)
              (verified_space d)]]> m) ∅ l.

Definition prove_replica_updates3 (p : ProveReplicaUpdates3Params) : M BatchReturn :=
  let* s := state in
  let i := info s in
  let* _ := validate_control ctx i in
  let* _ :=
    match ru3_sector_proofs p, ru3_aggregate_proof p, ru3_aggregate_proof_type p with
    | _ :: _, [], None | [], _ :: _, Some _ => ret tt
    | _, _, _ => throw USR_ILLEGAL_ARGUMENT
    end in
  let all := st_sectors s in
  let* infos := try USR_ILLEGAL_STATE
    (rfold (fun acc u => let! info := Sectors.must_get (sum_sector u) all in Ok (acc ++ [info])) []
       (ru3_sector_updates p)) in
  let updates := imap (fun k ui => (fst ui, default [] (ru3_sector_proofs p !! k), snd ui))
                   (zip (ru3_sector_updates p) infos) in
  let* batch := try USR_ILLEGAL_STATE
    (validate_replica_updates x curr_epoch s (ru3_update_proofs_type p) updates
       (ru3_require_activation_success p)) in
  let* valid := lift (successes batch updates) in
  match ru3_sector_proofs p with
  | [] => throw USR_ILLEGAL_ARGUMENT
  | _ =>
      if negb (Nat.eqb (length (ru3_sector_updates p)) (length (ru3_sector_proofs p))) then
        throw USR_ILLEGAL_ARGUMENT
      else
        let* (proven, proven_batch) := lift
          (verify_update_proofs (ru3_require_activation_success p) (ru3_update_proofs_type p)
             (success_count batch) valid) in
        let inputs := (fun ui => mkPieces (sum_pieces (fst ui)) (expiration (snd ui))
                                   (sector_number (snd ui)) (seal_proof (snd ui)) None) <$> proven in
        let* (data_batch, data) :=
          activate_sectors_pieces x env inputs (ru3_require_activation_success p) in
        if Nat.eqb (success_count data_batch) 0 then throw USR_ILLEGAL_ARGUMENT
        else
          let* successful := lift (successes data_batch proven) in
          let by_deadline := group_updates (zip_with (fun ui d => (fst ui, snd ui, d)) successful data) in
          let* pi := get_pledge_inputs in
          let* (power_delta, pledge_delta) := transaction_rt (fun s =>
            let* b := current_balance in
            lift (update_replica_states x curr_epoch b (sector_size i) pi by_deadline
                    (length successful) all s)) in
          let* _ := notify_pledge_changed env pledge_delta in
          let* _ := request_update_power env power_delta in
          let notifications := (fun ui => mkNotifications (sum_sector (fst ui)) (expiration (snd ui))
                                            (sum_pieces (fst ui))) <$> successful in
          let* _ := notify_data_consumers x env notifications (ru3_require_notification_success p) in
          lift (stack [batch; proven_batch; data_batch])
  end.

Definition validate_extension_declarations (exts : list ExpirationExtension2) : M (gmap Z (Z * Z)) :=
  mfold (fun spaces e =>
    if ee_deadline e >=? wpost_period_deadlines policy then throw USR_ILLEGAL_ARGUMENT
    else
      mfold (fun spaces sc =>
        let* claims := get_claims x env ctx (scl_maintain_claims sc ++ scl_drop_claims sc) in
        try USR_ILLEGAL_STATE (check_claims (ctx_receiver ctx) (ee_new_expiration e) sc claims spaces))
        spaces (ee_sectors_with_claims e)) ∅ exts.

Definition extend_sector_expiration2 (exts : list ExpirationExtension2) : M unit :=
  let* spaces := validate_extension_declarations exts in
  let* (power_delta, pledge_delta) := transaction_rt (fun s =>
    let* _ := validate_control ctx (info s) in
    lift (extend_expirations x curr_epoch circ_supply spaces exts s)) in
  let* _ := request_update_power env power_delta in
  notify_pledge_changed env pledge_delta.

Definition check_sector_proven (n : Z) : M unit :=
  let* _ := validate_immediate_caller_accept_any in
  if n >? MAX_SECTOR_NUMBER then throw USR_ILLEGAL_ARGUMENT
  else
    let* s := state in
    match St.get_sector n s with
    | None => throw USR_NOT_FOUND
    | Some _ => ret tt
    end.
End methods.
