(* ===== verification/MinerActor.v ===== *)
(** * The miner actor: methods and dispatch

    Models the rest of src/actors/miner/src/lib.rs: construction and
    administration (owner, worker, beneficiary, peer info), window PoSts and
    their disputes, faults, recoveries, terminations, compaction, rewards,
    penalties, withdrawals and the deadline cron, and the dispatch of all
    methods. *)

From S2P Require Import Prelude Runtime Batch Smooth Collections MinerBase MinerQueues MinerPartition MinerDeadline MinerFunds MinerState MinerCalls MinerSectors.

Import Miner.

(** ** Parameters *)

Record MinerConstructorParams : Type := mkConstructor {
  cp_owner : Address;
  cp_worker : Address;
  cp_control_addresses : list Address;
  cp_window_post_proof_type : PoStProofType;
  cp_peer_id : bytes;
  cp_multi_addresses : list bytes;
}.

Record SubmitWindowedPoStParams : Type := mkSubmitPoSt {
  sp_deadline : Z;
  sp_partitions : list PoStPartition;
  sp_proofs : list PoStProof;
  sp_chain_commit_epoch : Z;
  sp_chain_commit_rand : bytes;
}.

(** A declaration of faults, recoveries or terminations. *)
Record Declaration : Type := mkDeclaration {
  de_deadline : Z;
  de_partition : Z;
  de_sectors : BitField;
}.

Record ChangeBeneficiaryParams : Type := mkChangeBeneficiary {
  cb_new_beneficiary : Address;
  cb_new_quota : Z;
  cb_new_expiration : Z;
}.

Inductive Msg : Type :=
| Constructor (p : MinerConstructorParams)
| ControlAddresses
| ChangeWorkerAddress (exported : bool) (new_worker : Address) (new_control_addresses : list Address)
| ChangePeerID (exported : bool) (new_id : bytes)
| SubmitWindowedPoSt (p : SubmitWindowedPoStParams)
| TerminateSectors (terminations : list Declaration)
| DeclareFaults (faults : list Declaration)
| DeclareFaultsRecovered (recoveries : list Declaration)
| OnDeferredCronEvent (event_payload : bytes) (reward_smoothed quality_adj_power_smoothed : FilterEstimate)
| CheckSectorProven (sector_number : Z)
| ApplyRewards (reward penalty : Z)
| ReportConsensusFault (header1 header2 header_extra : bytes)
| WithdrawBalance (exported : bool) (amount_requested : Z)
| InternalSectorSetupForPreseal (p : InternalSectorSetupForPresealParams)
| ChangeMultiaddrs (exported : bool) (new_multi_addrs : list bytes)
| CompactPartitions (deadline : Z) (partitions : BitField)
| CompactSectorNumbers (mask_sector_numbers : BitField)
| ConfirmChangeWorkerAddress (exported : bool)
| RepayDebt (exported : bool)
| ChangeOwnerAddress (exported : bool) (new_owner : Address)
| DisputeWindowedPoSt (deadline post_index : Z)
| PreCommitSectorBatch2 (sectors : list SectorPreCommitInfo)
| ChangeBeneficiary (exported : bool) (p : ChangeBeneficiaryParams)
| GetBeneficiary (exported : bool)
| ExtendSectorExpiration2 (extensions : list ExpirationExtension2)
| GetOwner
| IsControllingAddress (address : Address)
| GetSectorSize
| GetAvailableBalance
| GetVestingFunds
| GetPeerID
| GetMultiaddrs
| ProveCommitSectors3 (p : ProveCommitSectors3Params)
| ProveReplicaUpdates3 (p : ProveReplicaUpdates3Params)
| ProveCommitSectorsNI (p : ProveCommitSectorsNIParams)
| MaxTerminationFee (power initial_pledge : Z)
| InitialPledge
| OtherMethod (n : Z).

Inductive Ret : Type :=
| RUnit
| RControlAddresses (owner worker : Address) (control_addresses : list Address)
| ROwner (owner : Address) (proposed : option Address)
| RBool (b : bool)
| RAmount (n : Z)
| RVesting (l : list (Z * Z))
| RBytes (b : bytes)
| RMultiaddrs (l : list bytes)
| RBeneficiary (beneficiary : Address) (term : BeneficiaryTerm) (proposed : option PendingBeneficiaryChange)
| RBatch (b : BatchReturn).

(** ** Info updates *)

Definition set_control (l : list Address) (k : option WorkerKeyChange) (i : MinerInfo) : MinerInfo :=
  mkMinerInfo (owner i) (worker i) l k (peer_id i) (multi_address i) (window_post_proof_type i)
    (sector_size i) (window_post_partition_sectors i) (consensus_fault_elapsed i)
    (pending_owner_address i) (beneficiary i) (beneficiary_term i) (pending_beneficiary_term i).
Definition set_worker (w : Address) (i : MinerInfo) : MinerInfo :=
  mkMinerInfo (owner i) w (control_addresses i) None (peer_id i) (multi_address i)
    (window_post_proof_type i) (sector_size i) (window_post_partition_sectors i)
    (consensus_fault_elapsed i) (pending_owner_address i) (beneficiary i) (beneficiary_term i)
    (pending_beneficiary_term i).
Definition set_peer_id (p : bytes) (i : MinerInfo) : MinerInfo :=
  mkMinerInfo (owner i) (worker i) (control_addresses i) (pending_worker_key i) p (multi_address i)
    (window_post_proof_type i) (sector_size i) (window_post_partition_sectors i)
    (consensus_fault_elapsed i) (pending_owner_address i) (beneficiary i) (beneficiary_term i)
    (pending_beneficiary_term i).
Definition set_multi_address (l : list bytes) (i : MinerInfo) : MinerInfo :=
  mkMinerInfo (owner i) (worker i) (control_addresses i) (pending_worker_key i) (peer_id i) l
    (window_post_proof_type i) (sector_size i) (window_post_partition_sectors i)
    (consensus_fault_elapsed i) (pending_owner_address i) (beneficiary i) (beneficiary_term i)
    (pending_beneficiary_term i).
Definition set_fault_elapsed (e : Z) (i : MinerInfo) : MinerInfo :=
  mkMinerInfo (owner i) (worker i) (control_addresses i) (pending_worker_key i) (peer_id i)
    (multi_address i) (window_post_proof_type i) (sector_size i) (window_post_partition_sectors i) e
    (pending_owner_address i) (beneficiary i) (beneficiary_term i) (pending_beneficiary_term i).
Definition set_owner (o : Address) (pending : option Address) (b : Address)
    (t : option PendingBeneficiaryChange) (i : MinerInfo) : MinerInfo :=
  mkMinerInfo o (worker i) (control_addresses i) (pending_worker_key i) (peer_id i) (multi_address i)
    (window_post_proof_type i) (sector_size i) (window_post_partition_sectors i)
    (consensus_fault_elapsed i) pending b (beneficiary_term i) t.
Definition set_beneficiary (b : Address) (t : BeneficiaryTerm) (pending : option PendingBeneficiaryChange)
    (i : MinerInfo) : MinerInfo :=
  mkMinerInfo (owner i) (worker i) (control_addresses i) (pending_worker_key i) (peer_id i)
    (multi_address i) (window_post_proof_type i) (sector_size i) (window_post_partition_sectors i)
    (consensus_fault_elapsed i) (pending_owner_address i) b t pending.

(** The info after the pending worker change, if it is due. *)
Definition process_pending_worker (epoch : Z) (s : State) : State :=
  match pending_worker_key (info s) with
  | Some k => if epoch <? effective_at k then s else St.set_info (set_worker (new_worker k) (info s)) s
  | None => s
  end.

(** ** Transactions *)

Section transactions.
Context (x : Ext) (ctx : Ctx).
Notation policy := (policy x).
Notation curr_epoch := (ctx_epoch ctx).

(** The declarations by deadline and partition, within the limits. *)
Definition to_process (l : list Declaration) : Res error (gmap Z (gmap Z BitField)) :=
  let! m := mc USR_ILLEGAL_ARGUMENT
    (rfold (fun m d => SectorMap.add policy (de_deadline d) (de_partition d) (de_sectors d) m) ∅ l) in
  let! _ := mc USR_ILLEGAL_ARGUMENT
    (SectorMap.check (addressed_partitions_max policy) (addressed_sectors_max policy) m) in
  Ok m.

(** [change_owner_address] once the caller is validated. *)
Definition change_owner (caller_is_owner : bool) (new_address : Address) (i : MinerInfo)
  : Res error MinerInfo :=
  let! i :=
    if caller_is_owner then
      Ok (set_owner (owner i) (Some new_address) (beneficiary i) (pending_beneficiary_term i) i)
    else
      let! pending := expect (pending_owner_address i) in
      if negb (addr_eqb new_address pending) then Err (err USR_ILLEGAL_ARGUMENT)
      else Ok (set_owner pending (Some pending)
                 (if addr_eqb (beneficiary i) (owner i) then pending else beneficiary i) None i) in
  Ok (if bool_decide (pending_owner_address i = Some (owner i))
      then set_owner (owner i) None (beneficiary i) (pending_beneficiary_term i) i else i).

(** The proposal of the owner, or the check of a confirmation. *)
Definition beneficiary_proposal (caller nominee : Address) (p : ChangeBeneficiaryParams) (i : MinerInfo)
  : Res error PendingBeneficiaryChange :=
  if addr_eqb caller (owner i) then
    if (if negb (addr_eqb nominee (owner i)) then cb_new_quota p <=? 0
        else negb (cb_new_quota p =? 0) || negb (cb_new_expiration p =? 0))
    then Err (err USR_ILLEGAL_ARGUMENT)
    else
      Ok (mkPending nominee (cb_new_quota p) (cb_new_expiration p)
            (available (beneficiary_term i) curr_epoch =? 0) false)
  else
    match pending_beneficiary_term i with
    | None => Err (err USR_FORBIDDEN)
    | Some t =>
        if negb (addr_eqb caller (beneficiary i)) && negb (addr_eqb caller (new_beneficiary t)) then
          Err (err USR_FORBIDDEN)
        else if negb (addr_eqb (new_beneficiary t) nominee)
                || negb (new_quota t =? cb_new_quota p) || negb (new_expiration t =? cb_new_expiration p)
        then Err (err USR_ILLEGAL_ARGUMENT)
        else Ok t
    end.

(** The proposal takes effect when both have approved it. *)
Definition change_beneficiary_info (caller nominee : Address) (p : ChangeBeneficiaryParams) (i : MinerInfo)
  : Res error MinerInfo :=
  let! t := beneficiary_proposal caller nominee p i in
  let by_beneficiary := approved_by_beneficiary t || addr_eqb caller (beneficiary i) in
  let by_nominee := approved_by_nominee t || addr_eqb caller nominee in
  if by_beneficiary && by_nominee then
    let used := if negb (addr_eqb nominee (beneficiary i)) then 0 else used_quota (beneficiary_term i) in
    Ok (set_beneficiary nominee (mkTerm (new_quota t) used (new_expiration t)) None i)
  else
    Ok (set_beneficiary (beneficiary i) (beneficiary_term i)
          (Some (mkPending (new_beneficiary t) (new_quota t) (new_expiration t) by_beneficiary by_nominee)) i).

(** [submit_windowed_post]: the checks of the submission against the state. *)
Definition check_submission (p : SubmitWindowedPoStParams) (proof : PoStProof) (s : State) : MRes DeadlineInfo :=
  let i := info s in
  let! max_proof_size := ok_or (post_proof_size x (window_post_proof_type i)) (Some USR_ILLEGAL_STATE) in
  let n := Z.of_nat (length (sp_partitions p)) in
  if negb (post_proof proof =? window_post_proof_type i) then bail_code USR_ILLEGAL_ARGUMENT
  else if Z.of_nat (length (proof_bytes proof)) >? max_proof_size * n then bail_code USR_ILLEGAL_ARGUMENT
  else if n >? Z.min (load_partitions_sectors_max policy (window_post_partition_sectors i))
                 (posted_partitions_max policy) then bail_code USR_ILLEGAL_ARGUMENT
  else
    let di := St.deadline_info policy curr_epoch s in
    if negb (is_open di) then bail_code USR_ILLEGAL_STATE
    else if negb (sp_deadline p =? index di) then bail_code USR_ILLEGAL_ARGUMENT
    else if sp_chain_commit_epoch p <? challenge di then bail_code USR_ILLEGAL_ARGUMENT
    else if sp_chain_commit_epoch p >=? curr_epoch then bail_code USR_ILLEGAL_ARGUMENT
    else
      let! rand := get_randomness x (ticket_randomness x) PoStChainCommit (sp_chain_commit_epoch p) [] in
      if bool_decide (rand = sp_chain_commit_rand p) then Ok di else bail_code USR_ILLEGAL_ARGUMENT.

(** The proof is recorded for a dispute, or verified when it recovers power. *)
Definition submit_post (p : SubmitWindowedPoStParams) (proof : PoStProof) (s : State)
  : Res error (PowerPair * State) :=
  let! di := dc USR_ILLEGAL_STATE (check_submission p proof s) in
  let i := info s in
  let! d := dc USR_ILLEGAL_STATE (Deadlines.load_deadline (sp_deadline p) (deadlines s)) in
  let fault_expiration := last di + fault_max_age policy in
  let! (r, d) := dc USR_ILLEGAL_STATE
    (DL.record_proven_sectors (sector_size i) (quant_spec di) (st_sectors s) fault_expiration
       (sp_partitions p) d) in
  if bf_empty (pr_sectors r ∖ pr_ignored_sectors r) then Err (err USR_ILLEGAL_ARGUMENT)
  else
    let! d :=
      if pp_is_zero (pr_recovered_power r) then
        Ok (DL.record_post_proofs (pr_partitions r) (sp_proofs p) d)
      else
        let! infos := dc USR_ILLEGAL_STATE
          (Sectors.load_for_proof (pr_sectors r) (pr_ignored_sectors r) (st_sectors s)) in
        let! valid := dc USR_ILLEGAL_STATE (verify_windowed_post x ctx (challenge di) infos (sp_proofs p)) in
        if (valid : bool) then Ok d else Err (err USR_ILLEGAL_ARGUMENT) in
    let! ds := dc USR_ILLEGAL_STATE (Deadlines.update_deadline policy (sp_deadline p) d (deadlines s)) in
    Ok (pr_power_delta r, St.set_deadlines ds s).

(** Pledge delta, amount to burn, power delta, reward of the disputer. *)
Definition dispute_post (balance : Z) (rew : ThisEpochReward) (pwr : CurrentTotalPower)
    (deadline post_index : Z) (s : State) : Res error (Z * Z * PowerPair * Z * State) :=
  let di := St.deadline_info policy curr_epoch s in
  if negb (deadline_available_for_optimistic_post_dispute policy (period_start di) deadline curr_epoch)
  then Err (err USR_FORBIDDEN)
  else
    let i := info s in
    let pp_start := if index di <? deadline then period_start di - wpost_proving_period policy
                    else period_start di in
    let target := new_deadline_info policy pp_start deadline curr_epoch in
    let! d := dc USR_ILLEGAL_STATE (Deadlines.load_deadline deadline (deadlines s)) in
    let! (ps, prfs, d) := dc USR_ILLEGAL_STATE (DL.take_post_proofs post_index d) in
    let! dispute := dc USR_ILLEGAL_STATE (DL.load_partitions_for_dispute ps d) in
    let penalised_power := disputed_power dispute in
    let all := sectors_snapshot d in
    let! infos := dc USR_ILLEGAL_STATE
      (Sectors.load_for_proof (all_sector_nos dispute) (ignored_sector_nos dispute) all) in
    let! valid := dc USR_ILLEGAL_STATE (verify_windowed_post x ctx (challenge target) infos prfs) in
    if (valid : bool) then Err (err USR_ILLEGAL_ARGUMENT)
    else
      let fault_expiration := last target + fault_max_age policy in
      let! (power_delta, d) := dc USR_ILLEGAL_STATE
        (DL.record_faults (sector_size i) (Miner.quant_spec_for_deadline policy target) all
           fault_expiration (disputed_sectors dispute) d) in
      let! ds := dc USR_ILLEGAL_STATE (Deadlines.update_deadline policy deadline d (deadlines s)) in
      let s := St.set_deadlines ds s in
      let! penalty_base := Monies.pledge_penalty_for_invalid_windowpost (this_epoch_reward_smoothed rew)
        (quality_adj_power_smoothed pwr) (qa penalised_power) in
      let reward_target := reward_for_disputed_window_post (window_post_proof_type i) penalised_power in
      let! s := mc USR_ILLEGAL_STATE (St.apply_penalty (penalty_base + reward_target) s) in
      let! (to_burn, total_unlocked, s) :=
        dc USR_ILLEGAL_STATE (St.repay_partial_debt_in_priority_order curr_epoch balance s) in
      let to_reward := Z.min to_burn reward_target in
      Ok (- total_unlocked, to_burn - to_reward, power_delta, to_reward, s).

(** Whether there were early terminations before, and the power delta. *)
Definition terminate_declared (m : gmap Z (gmap Z BitField)) (s : State)
  : Res error (bool * PowerPair * State) :=
  let! (power_delta, ds, early) :=
    rfold (fun '(power_delta, ds, early) '(idx, partition_sectors) =>
      if negb (deadline_is_mutable policy (St.current_proving_period_start policy curr_epoch s) idx curr_epoch)
      then Err (err USR_ILLEGAL_ARGUMENT)
      else
        let quant := St.quant_spec_for_deadline policy idx s in
        let! d := dc USR_ILLEGAL_STATE (Deadlines.load_deadline idx ds) in
        let! (removed_power, d) := dc USR_ILLEGAL_STATE
          (DL.terminate_sectors (sector_size (info s)) quant policy (st_sectors s) curr_epoch
             partition_sectors d) in
        let! ds := dc USR_ILLEGAL_STATE (Deadlines.update_deadline policy idx d ds) in
        Ok (pp_sub power_delta removed_power, ds, early ∪ {[idx]}))
      (pp_zero, deadlines s, st_early_terminations s) (entries m) in
  Ok (have_pending_early_terminations s, power_delta, St.set_early early (St.set_deadlines ds s)).

(** The deadline a declaration is for. *)
Definition target_deadline (idx : Z) (s : State) : Res error DeadlineInfo :=
  let! di := mc USR_ILLEGAL_ARGUMENT
    (declaration_deadline_info x (St.current_proving_period_start policy curr_epoch s) idx curr_epoch) in
  let! _ := mc USR_ILLEGAL_ARGUMENT (validate_fr_declaration_deadline di) in
  Ok di.

(** Power delta. *)
Definition declare_faults_in (m : gmap Z (gmap Z BitField)) (s : State) : Res error (PowerPair * State) :=
  let! (power, ds) :=
    rfold (fun '(power, ds) '(idx, partition_sectors) =>
      let! di := target_deadline idx s in
      let! d := dc USR_ILLEGAL_STATE (Deadlines.load_deadline idx ds) in
      let fault_expiration := last di + fault_max_age policy in
      let! (delta, d) := dc USR_ILLEGAL_STATE
        (DL.record_faults (sector_size (info s)) (quant_spec di) (st_sectors s) fault_expiration
           partition_sectors d) in
      let! ds := dc USR_ILLEGAL_STATE (Deadlines.update_deadline policy idx d ds) in
      Ok (pp_add power delta, ds)) (pp_zero, deadlines s) (entries m) in
  Ok (power, St.set_deadlines ds s).

Definition declare_recoveries_in (m : gmap Z (gmap Z BitField)) (s : State) : Res error State :=
  let! ds :=
    rfold (fun ds '(idx, partition_sectors) =>
      let! _ := target_deadline idx s in
      let! d := dc USR_ILLEGAL_STATE (Deadlines.load_deadline idx ds) in
      let! d := dc USR_ILLEGAL_STATE
        (DL.declare_faults_recovered (sector_size (info s)) (st_sectors s) partition_sectors d) in
      dc USR_ILLEGAL_STATE (Deadlines.update_deadline policy idx d ds)) (deadlines s) (entries m) in
  Ok (St.set_deadlines ds s).

Definition compact (deadline : Z) (ps : BitField) (s : State) : Res error State :=
  if negb (deadline_available_for_compaction policy (St.current_proving_period_start policy curr_epoch s)
             deadline curr_epoch) then Err (err USR_FORBIDDEN)
  else if bf_len ps >? load_partitions_sectors_max policy (window_post_partition_sectors (info s)) then
    Err (err USR_ILLEGAL_ARGUMENT)
  else
    let quant := St.quant_spec_for_deadline policy deadline s in
    let! d := dc USR_ILLEGAL_STATE (Deadlines.load_deadline deadline (deadlines s)) in
    let daily_fee_before := dl_daily_fee d in
    let! (dead, d) := dc USR_ILLEGAL_STATE
      (DL.compact_partitions (sector_size (info s)) quant (st_sectors s)
         (window_post_partition_sectors (info s)) ps d) in
    let! all := dc USR_ILLEGAL_STATE (Sectors.delete_sectors dead (st_sectors s)) in
    let! ds := dc USR_ILLEGAL_STATE (Deadlines.update_deadline policy deadline d (deadlines s)) in
    if negb (daily_fee_before =? dl_daily_fee d) then Err (err USR_ILLEGAL_STATE)
    else Ok (St.set_deadlines ds (St.set_sectors all s)).

(** Pledge delta and amount to burn. *)
Definition book_rewards (balance reward penalty : Z) (s : State) : Res error (Z * Z * State) :=
  let '(reward_to_lock, spec) := Monies.locked_reward_from_reward reward in
  let! unlocked := mc USR_ILLEGAL_STATE (St.get_unlocked_balance balance s) in
  if unlocked <? reward_to_lock then Err (err USR_INSUFFICIENT_FUNDS)
  else
    let! (newly_vested, s) :=
      mc USR_ILLEGAL_STATE (St.add_locked_funds curr_epoch reward_to_lock spec s) in
    let! s := mc USR_ILLEGAL_STATE (St.apply_penalty penalty s) in
    let! (to_burn, total_unlocked, s) :=
      dc USR_ILLEGAL_STATE (St.repay_partial_debt_in_priority_order curr_epoch balance s) in
    Ok (- newly_vested + reward_to_lock - total_unlocked, to_burn, s).

(** Amount to burn, reward of the reporter, pledge delta. *)
Definition book_consensus_fault (balance fault_epoch fault_penalty slasher_reward : Z) (s : State)
  : Res error (Z * Z * Z * State) :=
  if fault_epoch <? consensus_fault_elapsed (info s) then Err (err USR_FORBIDDEN)
  else
    let! s := mc USR_ILLEGAL_STATE (St.apply_penalty fault_penalty s) in
    let! (burn_amount, total_unlocked, s) :=
      dc USR_ILLEGAL_STATE (St.repay_partial_debt_in_priority_order curr_epoch balance s) in
    let reward_amount := Z.min burn_amount slasher_reward in
    let s := St.set_info (set_fault_elapsed (curr_epoch + consensus_fault_ineligibility_duration policy)
                            (info s)) s in
    Ok (burn_amount - reward_amount, reward_amount, - total_unlocked, s).

(** Amount withdrawn, newly vested, fee to burn. *)
Definition book_withdrawal (balance amount_requested : Z) (s : State) : Res error (Z * Z * Z * State) :=
  if negb (bf_empty (st_early_terminations s)) then Err (err USR_FORBIDDEN)
  else
    let! (newly_vested, s) := dc USR_ILLEGAL_STATE (St.unlock_vested_funds curr_epoch s) in
    let! available_balance := mc USR_ILLEGAL_STATE (St.get_available_balance balance s) in
    let! (fee_to_burn, s) := dc USR_ILLEGAL_STATE (St.repay_debts balance s) in
    let amount := Z.min available_balance amount_requested in
    if amount <? 0 then Err (err USR_ILLEGAL_STATE)
    else
      let i := info s in
      if negb (addr_eqb (beneficiary i) (owner i)) then
        let remaining := available (beneficiary_term i) curr_epoch in
        if remaining =? 0 then Err (err USR_FORBIDDEN)
        else
          let amount := Z.min amount remaining in
          let t := beneficiary_term i in
          let s := if amount >? 0 then
                     St.set_info (set_beneficiary (beneficiary i)
                                    (mkTerm (quota t) (used_quota t + amount) (bt_expiration t))
                                    (pending_beneficiary_term i) i) s
                   else s in
          Ok (amount, newly_vested, fee_to_burn, s)
      else Ok (amount, newly_vested, fee_to_burn, s).

(** The fees of terminated sectors: pledge, penalty, and the sectors with data. *)
Definition termination_fees (rew pwr : FilterEstimate) (all : gmap Z SectorOnChainInfo) (size : Z)
    (l : list (Z * BitField)) : MRes (Z * Z * list Z) :=
  rfold (fun '(pledge, penalty, with_data) '(epoch, ns) =>
    let! infos := Sectors.load_sectors ns all in
    rfold (fun '(pledge, penalty, with_data) sec =>
      let! fault_fee := Monies.pledge_penalty_for_continued_fault rew pwr (qa_power_for_sector size sec) in
      let fee := Monies.pledge_penalty_for_termination (initial_pledge sec) (epoch - activation sec)
                   fault_fee in
      Ok (pledge + initial_pledge sec, penalty + fee,
          if (deal_weight sec >? 0) || (verified_deal_weight sec >? 0)
          then with_data ++ [sector_number sec] else with_data))
      (pledge, penalty, with_data) infos) (0, 0, []) l.

(** Whether anything was processed, whether more is left, the penalty to burn,
    the pledge delta and the sectors with data. *)
Definition book_terminations (balance : Z) (rew pwr : FilterEstimate) (s : State)
  : Res error (bool * bool * Z * Z * BitField * State) :=
  let! (result, more, s) := mc USR_ILLEGAL_STATE
    (St.pop_early_terminations policy (addressed_partitions_max policy) (addressed_sectors_max policy) s) in
  if tr_is_empty result then Ok (false, more, 0, 0, ∅, s)
  else
    let! (pledge, total_penalty, with_data) := dc USR_ILLEGAL_STATE
      (termination_fees rew pwr (st_sectors s) (sector_size (info s)) (entries (tr_sectors result))) in
    let! s := mc USR_ILLEGAL_STATE (St.apply_penalty total_penalty s) in
    let! s := mc USR_ILLEGAL_STATE (St.add_initial_pledge (- pledge) s) in
    let! (penalty, total_unlocked, s) :=
      dc USR_ILLEGAL_STATE (St.repay_partial_debt_in_priority_order curr_epoch balance s) in
    Ok (true, more, penalty, - pledge - total_unlocked, from_bits with_data, s).

Record DeadlineEnd : Type := mkDeadlineEnd {
  de_had_early_terminations : bool;
  de_power_delta : PowerPair;
  de_penalty : Z;
  de_pledge_delta : Z;
  de_continue_cron : bool;
}.

(** The transaction of [handle_proving_deadline]. *)
Definition end_deadline (balance : Z) (rew pwr : FilterEstimate) (s : State)
  : Res error (DeadlineEnd * State) :=
  let s := process_pending_worker curr_epoch s in
  let! (deposit_to_burn, s) := dc USR_ILLEGAL_STATE (St.cleanup_expired_pre_commits curr_epoch s) in
  let! s := mc USR_ILLEGAL_STATE (St.apply_penalty deposit_to_burn s) in
  let had_early := have_pending_early_terminations s in
  let! (r, s) := dc USR_ILLEGAL_STATE (St.advance_deadline policy curr_epoch s) in
  let! penalty_target :=
    Monies.pledge_penalty_for_continued_fault rew pwr (qa (ad_previously_faulty_power r)) in
  let! s := mc USR_ILLEGAL_STATE (St.apply_penalty penalty_target s) in
  let! s :=
    if ad_daily_fee r >? 0 then
      let! day_reward :=
        Monies.expected_reward_for_power rew pwr (qa (ad_live_power r)) EPOCHS_IN_DAY in
      mc USR_ILLEGAL_STATE
        (St.apply_penalty (daily_proof_fee_payable policy (ad_daily_fee r) day_reward) s)
    else Ok s in
  let! (penalty, total_unlocked, s) :=
    dc USR_ILLEGAL_STATE (St.repay_partial_debt_in_priority_order curr_epoch balance s) in
  let! (newly_vested, s) := dc USR_ILLEGAL_STATE (St.unlock_vested_funds curr_epoch s) in
  let continue_cron := St.continue_deadline_cron s in
  let s := if continue_cron then s else St.set_cron_active false s in
  Ok (mkDeadlineEnd had_early (ad_power_delta r) penalty (ad_pledge_delta r - total_unlocked - newly_vested)
        continue_cron, s).
End transactions.

(** ** Methods *)

Section methods.
Context {Net : Type} (x : Ext) (env : Env Net State Param (list Z)) (ctx : Ctx).
Notation M := (M Net State Param (list Z)).
Notation policy := (policy x).
Notation curr_epoch := (ctx_epoch ctx).

(** [resolve_address], or an error. *)
Definition must_resolve (a : Address) : M Z :=
  let* r := resolve_address env a in
  lift (ok_or r (err USR_ILLEGAL_ARGUMENT)).

Definition must_resolve_all (l : list Address) : M (list Z) :=
  mfold (fun acc a => let* i := must_resolve a in ret (acc ++ [i])) [] l.

Definition calculate_create_miner_deposit : M Z :=
  let* rew := request_current_epoch_block_reward x env in
  let* pwr := request_current_total_power x env in
  try USR_ILLEGAL_STATE
    (Monies.initial_pledge_for_power (this_epoch_reward_smoothed rew) (quality_adj_power_smoothed pwr)
       CREATE_MINER_DEPOSIT_POWER (this_epoch_baseline_power rew) (total_fil_circ_supply x curr_epoch)
       (curr_epoch - ramp_start_epoch pwr) (ramp_duration_epochs pwr)).

Definition constructor (p : MinerConstructorParams) : M unit :=
  let* _ := validate_immediate_caller_is ctx [INIT_ACTOR_ADDR] in
  let* _ := try USR_ILLEGAL_ARGUMENT (check_control_addresses x (cp_control_addresses p)) in
  let* _ := try USR_ILLEGAL_ARGUMENT (check_peer_info x (cp_peer_id p) (cp_multi_addresses p)) in
  let* _ := try USR_ILLEGAL_ARGUMENT (check_valid_post_proof_type x (cp_window_post_proof_type p)) in
  let* balance := current_balance in
  let* deposit := calculate_create_miner_deposit in
  if balance <? deposit then throw USR_INSUFFICIENT_FUNDS
  else
    let* owner := must_resolve (cp_owner p) in
    let* worker := resolve_worker_address x env (cp_worker p) in
    let* control := must_resolve_all (cp_control_addresses p) in
    let offset := assign_proving_period_offset x (receiver ctx) curr_epoch in
    let period_start := current_proving_period_start x curr_epoch offset in
    if period_start >? curr_epoch then throw USR_ILLEGAL_STATE
    else
      let idx := current_deadline_index x curr_epoch period_start in
      if idx >=? wpost_period_deadlines policy then throw USR_ILLEGAL_STATE
      else
        let* i := try USR_ILLEGAL_ARGUMENT
          (info_new (proofs x) owner worker control (cp_peer_id p) (cp_multi_addresses p)
             (cp_window_post_proof_type p)) in
        let* (_, s) := must USR_ILLEGAL_STATE
          (St.add_locked_funds curr_epoch deposit REWARD_VESTING_SPEC (St.new policy i period_start idx)) in
        create s.

(** Reads of the info. *)
Definition view {A} (f : State -> A) : M A :=
  let* _ := validate_immediate_caller_accept_any in
  let* s := state in
  ret (f s).

Definition is_controlling_address (a : Address) : M bool :=
  let* _ := validate_immediate_caller_accept_any in
  let* r := resolve_address env a in
  match r with
  | None => ret false
  | Some id =>
      let* s := state in
      let i := info s in
      ret (existsb (fun b => addr_eqb b (AddrId id)) (control_addresses i ++ [worker i; owner i]))
  end.

Definition get_available_balance : M Z :=
  let* _ := validate_immediate_caller_accept_any in
  let* s := state in
  let* b := current_balance in
  must USR_ILLEGAL_STATE (St.get_available_balance b s).

Definition change_worker_address (raw : Address) (controls : list Address) : M unit :=
  let* _ := try USR_ILLEGAL_ARGUMENT (check_control_addresses x controls) in
  let* new := resolve_worker_address x env raw in
  let* control := must_resolve_all controls in
  transaction_rt (fun s =>
    let i := info s in
    let* _ := validate_immediate_caller_is ctx [owner i] in
    let key :=
      if negb (addr_eqb (AddrId new) (worker i)) && bool_decide (pending_worker_key i = None)
      then Some (mkKeyChange (AddrId new) (curr_epoch + worker_key_change_delay policy))
      else pending_worker_key i in
    ret (tt, St.set_info (set_control (AddrId <$> control) key i) s)).

Definition confirm_change_worker_address : M unit :=
  transaction_rt (fun s =>
    let* _ := validate_immediate_caller_is ctx [owner (info s)] in
    ret (tt, process_pending_worker curr_epoch s)).

Definition change_owner_address (new_address : Address) : M unit :=
  match new_address with
  | AddrOther _ _ => throw USR_ILLEGAL_ARGUMENT
  | AddrId _ =>
      transaction_rt (fun s =>
        let i := info s in
        let by_owner := addr_eqb (caller ctx) (owner i) || bool_decide (pending_owner_address i = None) in
        let* _ := validate_immediate_caller_is ctx
          (if by_owner then [owner i] else option_list (pending_owner_address i)) in
        let* i := lift (change_owner by_owner new_address i) in
        ret (tt, St.set_info i s))
  end.

Definition change_peer_id (new_id : bytes) : M unit :=
  let* _ := try USR_ILLEGAL_ARGUMENT (check_peer_info x new_id []) in
  transaction_rt (fun s =>
    let* _ := validate_control ctx (info s) in
    ret (tt, St.set_info (set_peer_id new_id (info s)) s)).

Definition change_multiaddresses (addrs : list bytes) : M unit :=
  let* _ := try USR_ILLEGAL_ARGUMENT (check_peer_info x [] addrs) in
  transaction_rt (fun s =>
    let* _ := validate_control ctx (info s) in
    ret (tt, St.set_info (set_multi_address addrs (info s)) s)).

Definition submit_windowed_post (p : SubmitWindowedPoStParams) : M unit :=
  match sp_proofs p with
  | [proof] =>
      let* _ := must USR_ILLEGAL_ARGUMENT (check_valid_post_proof_type x (post_proof proof)) in
      if sp_deadline p >=? wpost_period_deadlines policy then throw USR_ILLEGAL_ARGUMENT
      else if Z.of_nat (length (sp_chain_commit_rand p)) >? RANDOMNESS_LENGTH then throw USR_ILLEGAL_ARGUMENT
      else
        let* power_delta := transaction_rt (fun s =>
          let* _ := try USR_ILLEGAL_STATE
            (ok_or (post_proof_size x (window_post_proof_type (info s))) (Some USR_ILLEGAL_STATE)) in
          let* _ := validate_control ctx (info s) in
          lift (submit_post x ctx p proof s)) in
        let* _ := request_update_power env power_delta in
        check_invariants
  | _ => throw USR_ILLEGAL_ARGUMENT
  end.

Definition dispute_windowed_post (deadline post_index : Z) : M unit :=
  let* _ := validate_immediate_caller_accept_any in
  if deadline >=? wpost_period_deadlines policy then throw USR_ILLEGAL_ARGUMENT
  else
    let* rew := request_current_epoch_block_reward x env in
    let* pwr := request_current_total_power x env in
    let* (pledge_delta, to_burn, power_delta, to_reward) := transaction_rt (fun s =>
      let* b := current_balance in
      lift (dispute_post x ctx b rew pwr deadline post_index s)) in
    let* _ := request_update_power env power_delta in
    let* to_burn :=
      if to_reward =? 0 then ret to_burn
      else
        let* res := send_simple env (caller ctx) METHOD_SEND PNone to_reward in
        let* r := caught (extract_send_result res) in
        ret match r with inl _ => to_burn | inr _ => to_burn + to_reward end in
    let* _ := burn_funds env to_burn in
    let* _ := notify_pledge_changed env pledge_delta in
    check_invariants.

(** Whether more is left to process. *)
Definition process_early_terminations (rew pwr : FilterEstimate) : M bool :=
  let* (any, more, penalty, pledge_delta, with_data) := transaction_rt (fun s =>
    let* b := current_balance in
    lift (book_terminations x ctx b rew pwr s)) in
  if negb any then ret more
  else
    let* _ := burn_funds env penalty in
    let* _ := notify_pledge_changed env pledge_delta in
    let* _ := request_terminate_deals env ctx curr_epoch with_data in
    ret more.

(** Whether all terminations are done. *)
Definition terminate_sectors (terminations : list Declaration) : M bool :=
  let* m := lift (to_process x terminations) in
  let* (had_early, power_delta) := transaction_rt (fun s =>
    let* _ := validate_control ctx (info s) in
    lift (terminate_declared x ctx m s)) in
  let* rew := request_current_epoch_block_reward x env in
  let* pwr := request_current_total_power x env in
  let* more :=
    process_early_terminations (this_epoch_reward_smoothed rew) (quality_adj_power_smoothed pwr) in
  let* _ := if more && negb had_early then schedule_early_termination_work x env ctx else ret tt in
  let* _ := check_invariants in
  let* _ := request_update_power env power_delta in
  ret (negb more).

Definition declare_faults (faults : list Declaration) : M unit :=
  let* m := lift (to_process x faults) in
  let* power_delta := transaction_rt (fun s =>
    let* _ := validate_control ctx (info s) in
    lift (declare_faults_in x ctx m s)) in
  request_update_power env power_delta.

Definition declare_faults_recovered (recoveries : list Declaration) : M unit :=
  let* m := lift (to_process x recoveries) in
  let* fee_to_burn := transaction_rt (fun s =>
    let* (fee_to_burn, s) := repay_debts_or_abort s in
    let* _ := validate_control ctx (info s) in
    if consensus_fault_active (info s) curr_epoch then throw USR_FORBIDDEN
    else
      let* s := lift (declare_recoveries_in x ctx m s) in
      ret (fee_to_burn, s)) in
  let* _ := burn_funds env fee_to_burn in
  check_invariants.

Definition compact_partitions (deadline : Z) (ps : BitField) : M unit :=
  if deadline >=? wpost_period_deadlines policy then throw USR_ILLEGAL_ARGUMENT
  else
    transaction_rt (fun s =>
      let* _ := validate_control ctx (info s) in
      let* s := lift (compact x ctx deadline ps s) in
      ret (tt, s)).

Definition compact_sector_numbers (mask : BitField) : M unit :=
  match list.last (bits mask) with
  | None => throw USR_ILLEGAL_ARGUMENT
  | Some n =>
      if n >? MAX_SECTOR_NUMBER then throw USR_ILLEGAL_ARGUMENT
      else
        transaction_rt (fun s =>
          let* _ := validate_control ctx (info s) in
          let* s := try USR_ILLEGAL_STATE (St.allocate_sector_numbers mask true s) in
          ret (tt, s))
  end.

Definition apply_rewards (reward penalty : Z) : M unit :=
  if reward <? 0 then throw USR_ILLEGAL_ARGUMENT
  else if penalty <? 0 then throw USR_ILLEGAL_ARGUMENT
  else
    let* (pledge_delta, to_burn) := transaction_rt (fun s =>
      let* _ := validate_immediate_caller_is ctx [REWARD_ACTOR_ADDR] in
      let* b := current_balance in
      lift (book_rewards ctx b reward penalty s)) in
    let* _ := notify_pledge_changed env pledge_delta in
    let* _ := burn_funds env to_burn in
    check_invariants.

(** When the reward cannot be sent it stays with the miner. *)
Definition report_consensus_fault (header1 header2 extra : bytes) : M unit :=
  let* _ := validate_immediate_caller_accept_any in
  let* fault := lift (ok_or (verify_consensus_fault x header1 header2 extra) (err USR_ILLEGAL_ARGUMENT)) in
  let* fault := lift (ok_or fault (err USR_ILLEGAL_ARGUMENT)) in
  if negb (addr_eqb (cf_target fault) (receiver ctx)) then throw USR_ILLEGAL_ARGUMENT
  else if curr_epoch - cf_epoch fault <=? 0 then throw USR_ILLEGAL_ARGUMENT
  else
    let* rew := request_current_epoch_block_reward x env in
    let this_epoch_reward := estimate (this_epoch_reward_smoothed rew) in
    let fault_penalty := Monies.consensus_fault_penalty this_epoch_reward in
    let slasher_reward := reward_for_consensus_slash_report this_epoch_reward in
    let* (burn_amount, reward_amount, pledge_delta) := transaction_rt (fun s =>
      let* b := current_balance in
      lift (book_consensus_fault x ctx b (cf_epoch fault) fault_penalty slasher_reward s)) in
    let* res := send_simple env (caller ctx) METHOD_SEND PNone reward_amount in
    let* _ := caught (extract_send_result res) in
    let* _ := burn_funds env burn_amount in
    let* _ := notify_pledge_changed env pledge_delta in
    check_invariants.

(** The last check is of the state the transaction left. *)
Definition withdraw_balance (amount_requested : Z) : M Z :=
  if amount_requested <? 0 then throw USR_ILLEGAL_ARGUMENT
  else
    let* (amount, newly_vested, fee_to_burn, s) := transaction_rt (fun s =>
      let* _ := validate_immediate_caller_is ctx [owner (info s); beneficiary (info s)] in
      let* b := current_balance in
      let* (amount, newly_vested, fee_to_burn, s) := lift (book_withdrawal ctx b amount_requested s) in
      ret ((amount, newly_vested, fee_to_burn, s), s)) in
    let* _ := if amount >? 0 then call_unit env (beneficiary (info s)) METHOD_SEND PNone amount else ret tt in
    let* _ := burn_funds env fee_to_burn in
    let* _ := notify_pledge_changed env (- newly_vested) in
    let* b := current_balance in
    let* _ := must ERR_BALANCE_INVARIANTS_BROKEN (St.check_balance_invariants b s) in
    ret amount.

Definition change_beneficiary (p : ChangeBeneficiaryParams) : M unit :=
  let* _ := validate_immediate_caller_accept_any in
  let* nominee := must_resolve (cb_new_beneficiary p) in
  transaction (fun s =>
    let! i := change_beneficiary_info ctx (caller ctx) (AddrId nominee) p (info s) in
    Ok (tt, St.set_info i s)).

Definition repay_debt : M unit :=
  let* (burn_amount, total_unlocked, s) := transaction_rt (fun s =>
    let* _ := validate_control ctx (info s) in
    let* b := current_balance in
    let* (burn_amount, total_unlocked, s) := try USR_ILLEGAL_STATE
      (St.repay_partial_debt_in_priority_order curr_epoch b s) in
    ret ((burn_amount, total_unlocked, s), s)) in
  let* _ := notify_pledge_changed env (- total_unlocked) in
  let* _ := burn_funds env burn_amount in
  let* b := current_balance in
  must ERR_BALANCE_INVARIANTS_BROKEN (St.check_balance_invariants b s).

Definition handle_proving_deadline (rew pwr : FilterEstimate) : M unit :=
  let* (r, s) := transaction_rt (fun s =>
    let* b := current_balance in
    let* (r, s) := lift (end_deadline x ctx b rew pwr s) in
    ret ((r, s), s)) in
  let* _ := request_update_power env (de_power_delta r) in
  let* _ := burn_funds env (de_penalty r) in
  let* _ := notify_pledge_changed env (de_pledge_delta r) in
  let* _ :=
    if de_continue_cron r then
      enroll_cron_event x env (last (St.deadline_info policy (curr_epoch + 1) s)) CRON_EVENT_PROVING_DEADLINE
    else ret tt in
  if negb (de_had_early_terminations r) && have_pending_early_terminations s then
    let* more := process_early_terminations rew pwr in
    if more then schedule_early_termination_work x env ctx else ret tt
  else ret tt.

Definition on_deferred_cron_event (payload : bytes) (rew pwr : FilterEstimate) : M unit :=
  let* _ := validate_immediate_caller_is ctx [STORAGE_POWER_ACTOR_ADDR] in
  let* event := lift (ok_or (decode_cron_payload x payload) (err USR_ILLEGAL_STATE)) in
  let* _ :=
    if event =? CRON_EVENT_PROVING_DEADLINE then handle_proving_deadline rew pwr
    else if event =? CRON_EVENT_PROCESS_EARLY_TERMINATIONS then
      let* more := process_early_terminations rew pwr in
      if more then schedule_early_termination_work x env ctx else ret tt
    else ret tt in
  check_invariants.

Definition max_termination_fee (power pledge : Z) : M Z :=
  let* _ := validate_immediate_caller_accept_any in
  let* rew := request_current_epoch_block_reward x env in
  let* pwr := request_current_total_power x env in
  let* fault_fee := try USR_ILLEGAL_STATE
    (Monies.pledge_penalty_for_continued_fault (this_epoch_reward_smoothed rew)
       (quality_adj_power_smoothed pwr) power) in
  ret (Monies.pledge_penalty_for_termination pledge (Monies.TERMINATION_LIFETIME_CAP * EPOCHS_IN_DAY)
         fault_fee).

(** ** Dispatch *)

Definition exported_num (exported : bool) (name : string) (n : Z) : Z :=
  if exported then method_hash x name else n.

Definition method_num (m : Msg) : Z :=
  match m with
  | Constructor _ => 1
  | ControlAddresses => 2
  | ChangeWorkerAddress e _ _ => exported_num e "ChangeWorkerAddress" 3
  | ChangePeerID e _ => exported_num e "ChangePeerID" 4
  | SubmitWindowedPoSt _ => 5
  | TerminateSectors _ => 9
  | DeclareFaults _ => 10
  | DeclareFaultsRecovered _ => 11
  | OnDeferredCronEvent _ _ _ => 12
  | CheckSectorProven _ => 13
  | ApplyRewards _ _ => 14
  | ReportConsensusFault _ _ _ => 15
  | WithdrawBalance e _ => exported_num e "WithdrawBalance" 16
  | InternalSectorSetupForPreseal _ => 17
  | ChangeMultiaddrs e _ => exported_num e "ChangeMultiaddrs" 18
  | CompactPartitions _ _ => 19
  | CompactSectorNumbers _ => 20
  | ConfirmChangeWorkerAddress e => exported_num e "ConfirmChangeWorkerAddress" 21
  | RepayDebt e => exported_num e "RepayDebt" 22
  | ChangeOwnerAddress e _ => exported_num e "ChangeOwnerAddress" 23
  | DisputeWindowedPoSt _ _ => 24
  | PreCommitSectorBatch2 _ => 28
  | ChangeBeneficiary e _ => exported_num e "ChangeBeneficiary" 30
  | GetBeneficiary e => exported_num e "GetBeneficiary" 31
  | ExtendSectorExpiration2 _ => 32
  | ProveCommitSectors3 _ => 34
  | ProveReplicaUpdates3 _ => 35
  | ProveCommitSectorsNI _ => 36
  | GetOwner => method_hash x "GetOwner"
  | IsControllingAddress _ => method_hash x "IsControllingAddress"
  | GetSectorSize => method_hash x "GetSectorSize"
  | GetAvailableBalance => method_hash x "GetAvailableBalance"
  | GetVestingFunds => method_hash x "GetVestingFunds"
  | GetPeerID => method_hash x "GetPeerID"
  | GetMultiaddrs => method_hash x "GetMultiaddrs"
  | MaxTerminationFee _ _ => method_hash x "MaxTerminationFee"
  | InitialPledge => method_hash x "InitialPledge"
  | OtherMethod n => n
  end.

Definition bitfield_decodes (b : BitField) : bool := forallb in_u64 (bits b).
Definition declaration_decodes (d : Declaration) : bool :=
  in_u64 (de_deadline d) && in_u64 (de_partition d) && bitfield_decodes (de_sectors d).
Definition piece_decodes (p : PieceActivationManifest) : bool := in_u64 (pm_size p).

(** Integers of decoded parameters are within their types. *)
Definition decodes (m : Msg) : bool :=
  match m with
  | SubmitWindowedPoSt p =>
      in_u64 (sp_deadline p) && in_i64 (sp_chain_commit_epoch p)
      && forallb (fun q => in_u64 (pp_index q) && bitfield_decodes (pp_skipped q)) (sp_partitions p)
  | TerminateSectors l | DeclareFaults l | DeclareFaultsRecovered l => forallb declaration_decodes l
  | CheckSectorProven n => in_u64 n
  | InternalSectorSetupForPreseal p => forallb in_u64 (ps_sectors p)
  | CompactPartitions d ps => in_u64 d && bitfield_decodes ps
  | CompactSectorNumbers b => bitfield_decodes b
  | DisputeWindowedPoSt d n => in_u64 d && in_u64 n
  | PreCommitSectorBatch2 l =>
      forallb (fun p => in_u64 (pc_sector_number p) && in_i64 (pc_seal_rand_epoch p)
                        && forallb in_u64 (pc_deal_ids p) && in_i64 (pc_expiration p)) l
  | ChangeBeneficiary _ p => in_i64 (cb_new_expiration p)
  | ExtendSectorExpiration2 l =>
      forallb (fun e => in_u64 (ee_deadline e) && in_u64 (ee_partition e) && bitfield_decodes (ee_sectors e)
        && in_i64 (ee_new_expiration e)
        && forallb (fun c => in_u64 (scl_sector_number c) && forallb in_u64 (scl_maintain_claims c)
                             && forallb in_u64 (scl_drop_claims c)) (ee_sectors_with_claims e)) l
  | ProveCommitSectors3 p =>
      forallb (fun a => in_u64 (sam_sector_number a) && forallb piece_decodes (sam_pieces a))
        (pc3_sector_activations p)
  | ProveReplicaUpdates3 p =>
      forallb (fun u => in_u64 (sum_sector u) && in_u64 (sum_deadline u) && in_u64 (sum_partition u)
                        && forallb piece_decodes (sum_pieces u)) (ru3_sector_updates p)
  | ProveCommitSectorsNI p =>
      in_u64 (pni_proving_deadline p)
      && forallb (fun s => in_u64 (ni_sealing_number s) && in_u64 (ni_sealer_id s)
                           && in_u64 (ni_sector_number s) && in_i64 (ni_seal_rand_epoch s)
                           && in_i64 (ni_expiration s)) (pni_sectors p)
  | _ => true
  end.

Definition unit_ret (m : M unit) : M Ret := let* _ := m in ret RUnit.

Definition invoke_method (m : Msg) : M Ret :=
  let* _ := restrict_internal_api env ctx (method_num m) in
  if negb (decodes m) then throw USR_SERIALIZATION
  else
  match m with
  | Constructor p => unit_ret (constructor p)
  | ControlAddresses =>
      view (fun s => RControlAddresses (owner (info s)) (worker (info s)) (control_addresses (info s)))
  | ChangeWorkerAddress _ w l => unit_ret (change_worker_address w l)
  | ChangePeerID _ p => unit_ret (change_peer_id p)
  | SubmitWindowedPoSt p => unit_ret (submit_windowed_post p)
  | TerminateSectors l => let* b := terminate_sectors l in ret (RBool b)
  | DeclareFaults l => unit_ret (declare_faults l)
  | DeclareFaultsRecovered l => unit_ret (declare_faults_recovered l)
  | OnDeferredCronEvent p r q => unit_ret (on_deferred_cron_event p r q)
  | CheckSectorProven n => unit_ret (check_sector_proven n)
  | ApplyRewards r p => unit_ret (apply_rewards r p)
  | ReportConsensusFault h1 h2 h3 => unit_ret (report_consensus_fault h1 h2 h3)
  | WithdrawBalance _ n => let* n := withdraw_balance n in ret (RAmount n)
  | InternalSectorSetupForPreseal p => unit_ret (internal_sector_setup_preseal x env ctx p)
  | ChangeMultiaddrs _ l => unit_ret (change_multiaddresses l)
  | CompactPartitions d ps => unit_ret (compact_partitions d ps)
  | CompactSectorNumbers b => unit_ret (compact_sector_numbers b)
  | ConfirmChangeWorkerAddress _ => unit_ret confirm_change_worker_address
  | RepayDebt _ => unit_ret repay_debt
  | ChangeOwnerAddress _ a => unit_ret (change_owner_address a)
  | DisputeWindowedPoSt d n => unit_ret (dispute_windowed_post d n)
  | PreCommitSectorBatch2 l => unit_ret (pre_commit_sector_batch2 x env ctx l)
  | ChangeBeneficiary _ p => unit_ret (change_beneficiary p)
  | GetBeneficiary _ =>
      view (fun s => RBeneficiary (beneficiary (info s)) (beneficiary_term (info s))
                       (pending_beneficiary_term (info s)))
  | ExtendSectorExpiration2 l => unit_ret (extend_sector_expiration2 x env ctx l)
  | GetOwner => view (fun s => ROwner (owner (info s)) (pending_owner_address (info s)))
  | IsControllingAddress a => let* b := is_controlling_address a in ret (RBool b)
  | GetSectorSize => view (fun s => RAmount (sector_size (info s)))
  | GetAvailableBalance => let* n := get_available_balance in ret (RAmount n)
  | GetVestingFunds =>
      view (fun s => RVesting ((fun f => (vf_epoch f, vf_amount f)) <$> Vesting.load (vesting_funds s)))
  | GetPeerID => view (fun s => RBytes (peer_id (info s)))
  | GetMultiaddrs => view (fun s => RMultiaddrs (multi_address (info s)))
  | ProveCommitSectors3 p => let* b := prove_commit_sectors3 x env ctx p in ret (RBatch b)
  | ProveReplicaUpdates3 p => let* b := prove_replica_updates3 x env ctx p in ret (RBatch b)
  | ProveCommitSectorsNI p => let* b := prove_commit_sectors_ni x env ctx p in ret (RBatch b)
  | MaxTerminationFee power pledge => let* n := max_termination_fee power pledge in ret (RAmount n)
  | InitialPledge => view (fun s => RAmount (st_initial_pledge s))
  | OtherMethod _ => throw USR_UNHANDLED_MESSAGE
  end.
End methods.
