(* ===== verification/MinerEpochs.v ===== *)
(** * The miner actor: the calendar of deadlines

    Proofs about the epoch arithmetic of MinerBase.v: quantization rounds up to
    the next epoch of its class, every epoch lies in the window of exactly one
    deadline of a proving period, a deadline that may change opens later than
    the next challenge window, and the recorded deadline of a miner whose cron
    runs at the last epoch of each deadline keeps up with the clock. *)

From S2P Require Import Prelude Runtime Collections MinerBase MinerQueues MinerPartition MinerDeadline MinerFunds MinerState.

Import Miner.

(** ** Quantization *)

(** Two numbers of one class less than a unit apart are equal. *)
Lemma class_unique u o a b : 0 < u -> (a - o) mod u = 0 -> (b - o) mod u = 0 ->
  - u < a - b < u -> a = b.
Proof.
  intros Hu [k Hk]%Z.mod_divide [j Hj]%Z.mod_divide; [|lia|lia]. intros H.
  assert (k = j); [|lia]. destruct (Z.lt_trichotomy k j) as [?|[?|?]]; [nia|done|nia].
Qed.

Lemma class_mono u o a b : 0 < u -> (a - o) mod u = 0 -> (b - o) mod u = 0 -> a < b + u -> a <= b.
Proof.
  intros Hu [k Hk]%Z.mod_divide [j Hj]%Z.mod_divide; [|lia|lia]. intros H.
  assert (k <= j); [|nia]. destruct (Z.lt_ge_cases j k); [nia|done].
Qed.

Lemma quantize_up_spec q e : 0 < unit_ q ->
  e <= quantize_up q e < e + unit_ q /\ (quantize_up q e - offset q) mod unit_ q = 0.
Proof.
  intros Hu. unfold quantize_up. set (o := Z.rem (offset q) (unit_ q)).
  assert (exists k, offset q = o + k * unit_ q) as [k Hk].
  { exists (Z.quot (offset q) (unit_ q)). pose proof (Z.quot_rem' (offset q) (unit_ q)). unfold o. lia. }
  pose proof (Z.quot_rem' (e - o) (unit_ q)) as Hqr.
  pose proof (Z.rem_bound_abs (e - o) (unit_ q) ltac:(lia)).
  pose proof (Z.rem_sign_nz (e - o) (unit_ q)) as Hs.
  assert (forall z, (unit_ q * z + o - offset q) mod unit_ q = 0) as Hmod.
  { intros z. rewrite Hk. replace (unit_ q * z + o - (o + k * unit_ q)) with ((z - k) * unit_ q) by lia.
    apply Z.mod_mul. lia. }
  destruct ((Z.rem (e - o) (unit_ q) =? 0) || (e - o <? 0)) eqn:E; split; [| apply Hmod | | apply Hmod].
  - apply orb_prop in E as [E|E]; bool_prop; [lia|].
    assert (Z.rem (e - o) (unit_ q) <= 0) by (apply Z.rem_nonpos; lia). lia.
  - apply orb_false_elim in E as [E1 E2]; bool_prop.
    assert (0 <= Z.rem (e - o) (unit_ q)) by (apply Z.rem_nonneg; lia). lia.
Qed.

Lemma quantize_up_unique q e e' : 0 < unit_ q ->
  e <= e' < e + unit_ q -> (e' - offset q) mod unit_ q = 0 -> quantize_up q e = e'.
Proof.
  intros Hu He Hm. destruct (quantize_up_spec q e Hu) as [Hb Hm'].
  apply (class_unique (unit_ q) (offset q)); [done..|lia].
Qed.

Lemma quantize_up_fix q e : 0 < unit_ q -> quantize_up q (quantize_up q e) = quantize_up q e.
Proof.
  intros Hu. apply quantize_up_unique; [done|lia|]. by apply quantize_up_spec.
Qed.

Lemma quantize_up_mono q e e' : 0 < unit_ q -> e <= e' -> quantize_up q e <= quantize_up q e'.
Proof.
  intros Hu He. destruct (quantize_up_spec q e Hu) as [Hb Hm], (quantize_up_spec q e' Hu) as [Hb' Hm'].
  apply (class_mono (unit_ q) (offset q)); [done..|lia].
Qed.

Lemma quantize_down_spec q e : 0 < unit_ q ->
  e - unit_ q < quantize_down q e <= e /\ (quantize_down q e - offset q) mod unit_ q = 0.
Proof.
  intros Hu. unfold quantize_down. destruct (quantize_up_spec q e Hu) as [Hb Hm].
  destruct (e =? quantize_up q e) eqn:E; bool_prop; (split; [lia|]); [done|].
  apply Z.mod_divide in Hm as [k Hk]; [|lia].
  replace (quantize_up q e - unit_ q - offset q) with ((k - 1) * unit_ q) by lia. apply Z.mod_mul. lia.
Qed.

(** ** Deadlines *)

(** The proving period is made of the challenge windows of its deadlines. *)
Record calendar_ok (p : Policy) : Prop := {
  cal_window : 0 < wpost_challenge_window p;
  cal_deadlines : 0 < wpost_period_deadlines p < 2 ^ 64;
  cal_period : wpost_proving_period p = wpost_period_deadlines p * wpost_challenge_window p;
}.

Lemma default_calendar w : calendar_ok (default_policy w).
Proof. by split. Qed.

Section calendar.
Context (p : Policy) (cal : calendar_ok p).

Lemma period_pos : 0 < wpost_proving_period p.
Proof. destruct cal. nia. Qed.

Lemma di_new_in start idx e :
  0 <= idx < wpost_period_deadlines p ->
  let di := new_deadline_info p start idx e in
  period_start di = start /\ index di = idx /\ current_epoch di = e /\
  open di = start + idx * wpost_challenge_window p /\ close di = open di + wpost_challenge_window p.
Proof.
  intros Hi. unfold new_deadline_info, di_new. destruct (idx <? _) eqn:E; bool_prop; [done|lia].
Qed.

(** The deadline of an epoch. *)
Lemma deadline_of_epoch seed e :
  let di := new_deadline_info_from_offset_and_epoch p seed e in
  (period_start di - seed) mod wpost_proving_period p = 0 /\
  period_start di <= e < period_start di + wpost_proving_period p /\
  0 <= index di < wpost_period_deadlines p /\
  open di = period_start di + index di * wpost_challenge_window p /\
  close di = open di + wpost_challenge_window p /\
  open di <= e < close di /\ current_epoch di = e.
Proof.
  pose proof period_pos as Hp. destruct cal as [Hw Hd Hpp].
  unfold new_deadline_info_from_offset_and_epoch.
  set (q := mkQuant _ seed). destruct (quantize_down_spec q e ltac:(done)) as [Hb Hm].
  set (start := quantize_down q e) in *. cbn in Hb, Hm.
  assert (0 <= Z.quot (e - start) (wpost_challenge_window p) < wpost_period_deadlines p) as Hi.
  { rewrite Z.quot_div_nonneg by lia. split; [apply Z.div_pos; lia|].
    apply Z.div_lt_upper_bound; nia. }
  rewrite (Z.mod_small _ (2 ^ 64)) by lia.
  destruct (di_new_in start _ e Hi) as (H1 & H2 & H3 & H4 & H5).
  rewrite H1, H2, H3, H5, H4. rewrite Z.quot_div_nonneg in * by lia.
  pose proof (Z.div_mod (e - start) (wpost_challenge_window p) ltac:(lia)).
  pose proof (Z.mod_pos_bound (e - start) (wpost_challenge_window p) ltac:(lia)).
  split; [done|]. split; [lia|]. split; [done|]. split; [done|]. split; [done|]. split; [|done]. nia.
Qed.

(** It is the only one of the schedule of the miner. *)
Lemma deadline_of_epoch_unique seed e start idx :
  (start - seed) mod wpost_proving_period p = 0 -> 0 <= idx < wpost_period_deadlines p ->
  start + idx * wpost_challenge_window p <= e < start + (idx + 1) * wpost_challenge_window p ->
  new_deadline_info_from_offset_and_epoch p seed e = new_deadline_info p start idx e.
Proof.
  intros Hm Hi He. pose proof period_pos as Hp.
  destruct (deadline_of_epoch seed e) as (Hm' & Hs & Hi' & Ho & Hc & Hoc & _).
  set (di := new_deadline_info_from_offset_and_epoch p seed e) in *.
  destruct cal as [Hw Hd Hpp].
  assert (period_start di = start) as Es.
  { apply (class_unique (wpost_proving_period p) seed); [done..|].
    assert (start <= e < start + wpost_proving_period p) by nia. lia. }
  assert (index di = idx) as Ei by nia.
  rewrite <- Es, <- Ei. unfold di, new_deadline_info_from_offset_and_epoch.
  assert (forall a b, period_start (new_deadline_info p a b e) = a /\
                      index (new_deadline_info p a b e) = b) as Hself.
  { intros a b. unfold new_deadline_info, di_new. by destruct (_ <? _). }
  by rewrite (proj1 (Hself _ _)), (proj2 (Hself _ _)).
Qed.

Lemma next_not_elapsed_eq start idx e :
  let di := new_deadline_info p start idx e in
  next_not_elapsed di =
    if e >=? close di
    then new_deadline_info p (start + wpost_proving_period p * (1 + Z.quot (e - close di) (wpost_proving_period p)))
           idx e
    else di.
Proof.
  unfold next_not_elapsed, has_elapsed, new_deadline_info, di_new. cbv zeta.
  destruct (idx <? wpost_period_deadlines p) eqn:E;
    cbn [close current_epoch period_start index di_period_deadlines di_proving_period
      di_challenge_window di_challenge_lookback di_fault_declaration_cutoff];
    rewrite E; by destruct (e >=? _).
Qed.

(** The next window of a deadline that has not closed yet. *)
Lemma next_not_elapsed_spec start idx e :
  start <= e -> 0 <= idx < wpost_period_deadlines p ->
  let di := next_not_elapsed (new_deadline_info p start idx e) in
  exists k, 0 <= k /\ di = new_deadline_info p (start + k * wpost_proving_period p) idx e /\
    e < close di /\ (0 < k -> close di <= e + wpost_proving_period p).
Proof.
  intros Hs Hi. pose proof period_pos as Hp. cbn zeta. rewrite next_not_elapsed_eq.
  destruct (di_new_in start idx e Hi) as (H1 & H2 & H3 & H4 & H5).
  destruct (e >=? close _) eqn:E; bool_prop.
  - rewrite Z.quot_div_nonneg by lia.
    pose proof (Z.div_mod (e - close (new_deadline_info p start idx e)) (wpost_proving_period p) ltac:(lia)).
    pose proof (Z.mod_pos_bound (e - close (new_deadline_info p start idx e)) (wpost_proving_period p) ltac:(lia)).
    assert (0 <= (e - close (new_deadline_info p start idx e)) / wpost_proving_period p)
      by (apply Z.div_pos; lia).
    set (k := (e - close _) / _) in *. exists (1 + k). rewrite (Z.mul_comm _ (1 + k)).
    destruct (di_new_in (start + (1 + k) * wpost_proving_period p) idx e Hi) as (_ & _ & _ & G4 & G5).
    split; [lia|]. split; [done|]. rewrite G5, G4. split; [nia|]. intros. nia.
  - exists 0. rewrite Z.add_0_r. split; [lia|]. split; [done|]. split; [lia|lia].
Qed.

(** A deadline that may change is neither the current nor the next one. *)
Lemma mutable_spec start idx e :
  start <= e -> 0 <= idx < wpost_period_deadlines p ->
  deadline_is_mutable p start idx e = true ->
  e + wpost_challenge_window p < open (next_not_elapsed (new_deadline_info p start idx e)).
Proof. intros Hs Hi H. unfold deadline_is_mutable in H. bool_prop. lia. Qed.
End calendar.

(** ** The recorded deadline *)

Section advance.
Context (p : Policy) (cal : calendar_ok p).

(** What [advance_deadline] records of the deadline after [di]. *)
Lemma advance_period e s r s' :
  St.advance_deadline p e s = Ok (r, s') ->
  let di := St.deadline_info p e s in
  period_started di = true ->
  current_deadline s' = (index di + 1) mod wpost_period_deadlines p /\
  proving_period_start s' =
    (if (index di + 1) mod wpost_period_deadlines p =? 0
     then period_start di + wpost_proving_period p else proving_period_start s).
Proof.
  intros H di Hst. unfold St.advance_deadline in H. fold di in H. rewrite Hst in H. cbn [negb] in H.
  apply rbind_ok in H as (d & _ & H). destruct (negb (DL.is_live d)); [by injection H as <- <-|].
  apply rbind_ok in H as ([[delta det] d1] & _ & H). apply rbind_ok in H as ([expd d2] & _ & H).
  apply rbind_ok in H as (s1 & Hp & H). apply rbind_ok in H as (ds & _ & H). injection H as <- <-.
  unfold St.add_initial_pledge in Hp. destruct (_ <? 0); [done|]. injection Hp as <-.
  by destruct (bf_empty (early_sectors expd)).
Qed.

(** A miner whose cron runs at the last epoch of the current deadline records
    the deadline of the next epoch. *)
Lemma advance_on_schedule e s r s' :
  let di := St.deadline_info p e s in
  e = last di -> proving_period_start s = period_start di ->
  St.advance_deadline p e s = Ok (r, s') ->
  St.recorded_deadline_info p (e + 1) s' = St.deadline_info p (e + 1) s' /\
  proving_period_start s' = period_start (St.deadline_info p (e + 1) s') /\
  last (St.deadline_info p (e + 1) s') = e + wpost_challenge_window p.
Proof.
  intros di He Hps Had.
  assert (new_deadline_info_from_offset_and_epoch p (proving_period_start s) e = di) as Edi by done.
  destruct (deadline_of_epoch p cal (proving_period_start s) e) as (Hm & Hs & Hi & Ho & Hc & Hoc & Hce).
  rewrite Edi in Hm, Hs, Hi, Ho, Hc, Hoc, Hce. clear Edi.
  apply advance_period in Had as [Hd Hp]; [|fold di; unfold period_started; rewrite Hce; lia].
  fold di in Hd, Hp. pose proof (period_pos p cal) as Hpp. destruct cal as [Hw Hn Hper].
  unfold St.recorded_deadline_info, St.deadline_info, last in *.
  assert (exists idx, 0 <= idx < wpost_period_deadlines p /\ current_deadline s' = idx /\
    proving_period_start s' + idx * wpost_challenge_window p = e + 1) as (idx & Hidx & Hcd & Hopen).
  { destruct (Z.eq_dec (index di + 1) (wpost_period_deadlines p)) as [E|E].
    - rewrite E, Z.mod_same in Hd, Hp by lia. cbn in Hp. exists 0. split; [lia|]. split; [done|]. nia.
    - rewrite Z.mod_small in Hd, Hp by lia. destruct (index di + 1 =? 0) eqn:E0; bool_prop; [lia|].
      exists (index di + 1). split; [lia|]. split; [done|]. nia. }
  rewrite Hcd.
  assert (new_deadline_info_from_offset_and_epoch p (proving_period_start s') (e + 1)
          = new_deadline_info p (proving_period_start s') idx (e + 1)) as Eq.
  { apply deadline_of_epoch_unique; [by split|by rewrite Z.sub_diag, Z.mod_0_l by lia|done|nia]. }
  rewrite Eq. destruct (di_new_in p (proving_period_start s') idx (e + 1) Hidx) as (G1 & _ & _ & G4 & G5).
  rewrite G1, G5, G4. split; [done|]. split; [done|]. lia.
Qed.
End advance.
