(* ===== verification/MinerVesting.v ===== *)
(** * The miner actor: vesting

    Proofs about the vesting table of MinerFunds.v.  A table is a list of funds
    with increasing epochs and amounts that are not negative; what it says is
    how much is still locked at an epoch.  Every operation is a function of
    that: unlocking takes exactly what has vested, a new sum is added with a
    schedule that never runs ahead of the linear one and ends with the vesting
    period, and unvested funds are taken up to the target, the soonest first. *)

From S2P Require Import Prelude Runtime Collections MinerBase MinerEpochs MinerFunds.

Import Miner.

Definition raw_funds (v : VestingFunds) : list VestingFund :=
  match v with None => [] | Some (h, t) => h :: t end.

Definition total (l : list VestingFund) : Z := sum_list_Z (vf_amount <$> l).

(** Locked at an epoch: what vests then or later. *)
Definition locked (e : Z) (l : list VestingFund) : Z :=
  sum_list_Z ((fun f => if vf_epoch f <? e then 0 else vf_amount f) <$> l).

Definition nonneg (l : list VestingFund) : Prop := Forall (fun f => 0 <= vf_amount f) l.

(** Epochs above [e], increasing. *)
Fixpoint above (e : Z) (l : list VestingFund) : Prop :=
  match l with
  | [] => True
  | f :: l => e < vf_epoch f /\ above (vf_epoch f) l
  end.

Definition funds_wf (l : list VestingFund) : Prop := nonneg l /\ exists e, above e l.

Lemma total_cons f l : total (f :: l) = vf_amount f + total l.
Proof. done. Qed.
Lemma locked_cons e f l : locked e (f :: l) = (if vf_epoch f <? e then 0 else vf_amount f) + locked e l.
Proof. done. Qed.

Lemma above_weaken e e' l : e' <= e -> above e l -> above e' l.
Proof. destruct l; cbn; [done|]. intros ? [? ?]. split; [lia|done]. Qed.

Lemma above_tail e f l : above e (f :: l) -> above e l.
Proof. intros [H1 H2]. eapply above_weaken; [|exact H2]. lia. Qed.

Lemma locked_above e e' l : above e l -> e' <= e + 1 -> locked e' l = total l.
Proof.
  revert e. induction l as [|f l IH]; intros e Ha He; [done|].
  rewrite locked_cons, total_cons. destruct Ha as [Hf Ha].
  destruct (vf_epoch f <? e') eqn:E; bool_prop; [lia|]. rewrite (IH (vf_epoch f)); [done|done|lia].
Qed.

Lemma locked_le_total e l : nonneg l -> 0 <= locked e l <= total l.
Proof.
  induction 1 as [|f l Hf Hl IH]; [cbn; lia|]. rewrite locked_cons, total_cons.
  destruct (vf_epoch f <? e); lia.
Qed.

Lemma locked_mono e e' l : nonneg l -> e <= e' -> locked e' l <= locked e l.
Proof.
  intros Hl He. induction Hl as [|f l Hf Hl IH]; [done|]. rewrite !locked_cons.
  destruct (vf_epoch f <? e) eqn:E1, (vf_epoch f <? e') eqn:E2; bool_prop; lia.
Qed.

Lemma nonneg_total l : nonneg l -> 0 <= total l.
Proof. intros H. pose proof (locked_le_total 0 l H). lia. Qed.

(** ** Loading and saving *)

Definition vest_wf (v : VestingFunds) : Prop := funds_wf (raw_funds v).

Lemma load_spec v : vest_wf v ->
  funds_wf (Vesting.load v) /\ total (Vesting.load v) = total (raw_funds v) /\
  forall e, locked e (Vesting.load v) = locked e (raw_funds v).
Proof.
  destruct v as [[h t]|]; [|done]. intros [Hn [e Ha]]. cbn [raw_funds Vesting.load]. destruct (vf_amount h >? 0) eqn:E; bool_prop.
  - split; [|done]. split; [done|by exists e].
  - apply Forall_cons in Hn as [Hh Ht].
    split; [split; [done|exists e; by eapply above_tail]|]. rewrite total_cons.
    split; [lia|]. intros e'. rewrite locked_cons. destruct (vf_epoch h <? e'); lia.
Qed.

Lemma raw_save l : raw_funds (Vesting.save l) = l.
Proof. by destruct l. Qed.

(** ** Taking vested funds *)

Lemma take_vested_spec l e0 cur sum rest : nonneg l -> above e0 l ->
  Vesting.take_vested l cur = (sum, rest) ->
  sum = total l - locked cur l /\ nonneg rest /\ above e0 rest /\ total rest = locked cur l /\
  forall e, cur <= e -> locked e rest = locked e l.
Proof.
  intros Hn. revert e0 sum rest. induction Hn as [|f l Hf Hl IH]; intros e0 sum rest Ha H; cbn [Vesting.take_vested] in H.
  { injection H as <- <-. split; [done|]. split; [constructor|done]. }
  rewrite total_cons, locked_cons. destruct (vf_epoch f <? cur) eqn:E; bool_prop.
  - destruct (Vesting.take_vested l cur) as [sum' rest'] eqn:Ht. injection H as <- <-.
    destruct (IH e0 sum' rest') as (-> & Hn' & Ha' & Htot & Hl'); [by eapply above_tail|done|].
    split; [lia|]. split; [done|]. split; [done|]. split; [lia|]. intros e He. rewrite Hl' by done.
    rewrite locked_cons. destruct (vf_epoch f <? e) eqn:E'; bool_prop; lia.
  - injection H as <- <-. destruct Ha as [Hf0 Ha].
    rewrite (locked_above (vf_epoch f)); [|done|lia].
    split; [lia|]. split; [by constructor|]. split; [by split|]. split; [by rewrite total_cons|done].
Qed.

Lemma unlock_vested_spec cur v unlocked v' : vest_wf v ->
  Vesting.unlock_vested_funds cur v = (unlocked, v') ->
  vest_wf v' /\ unlocked = total (raw_funds v) - locked cur (raw_funds v) /\
  total (raw_funds v') = locked cur (raw_funds v) /\
  forall e, cur <= e -> locked e (raw_funds v') = locked e (raw_funds v).
Proof.
  intros Hv H. unfold Vesting.unlock_vested_funds in H.
  destruct (Vesting.can_vest v cur) eqn:Hc; cbn [negb] in H.
  - destruct (load_spec v Hv) as ([Hn [e0 Ha]] & Ht & Hl).
    destruct (Vesting.take_vested _ cur) as [sum rest] eqn:Etv. injection H as <- <-.
    destruct (take_vested_spec _ _ _ _ _ Hn Ha Etv) as (-> & Hn' & Ha' & Htot & Hl').
    unfold vest_wf. rewrite raw_save, Ht, Htot, Hl. split; [split; [done|by exists e0]|].
    split; [done|]. split; [done|]. intros e He. by rewrite Hl', Hl.
  - injection H as <- <-. split; [done|]. destruct Hv as [Hn [e0 Ha]].
    destruct v as [[h t]|]; [|done]. cbn in Hc. bool_prop.
    assert (above (vf_epoch h - 1) (h :: t)) as Ha' by (split; [lia|apply Ha]).
    cbn [raw_funds]. rewrite (locked_above (vf_epoch h - 1) cur); [|done|lia].
    split; [lia|]. split; [done|]. done.
Qed.

(** ** Taking unvested funds *)

Lemma take_unvested_spec l e0 cur target vested unvested rest : nonneg l -> above e0 l -> 0 <= target ->
  Vesting.take_unvested l cur target = (vested, unvested, rest) ->
  vested = total l - locked cur l /\ unvested = Z.min target (locked cur l) /\
  nonneg rest /\ above e0 rest /\ total rest = locked cur l - unvested.
Proof.
  intros Hn. revert e0 target vested unvested rest.
  induction Hn as [|f l Hf Hl IH]; intros e0 target vested unvested rest Ha Ht H; cbn [Vesting.take_unvested] in H.
  { injection H as <- <- <-. cbn. split; [done|]. split; [lia|]. split; [constructor|]. split; [done|lia]. }
  rewrite total_cons, locked_cons. pose proof (locked_le_total cur l Hl) as Hle.
  destruct (vf_epoch f <? cur) eqn:E; bool_prop.
  - destruct (Vesting.take_unvested l cur target) as [[v u] r] eqn:Et. injection H as <- <- <-.
    destruct (IH e0 target v u r) as (-> & -> & ? & ? & Htot); [by eapply above_tail|done|done|].
    split; [lia|]. split; [lia|]. split; [done|]. split; [done|]. rewrite Htot. lia.
  - destruct Ha as [Hf0 Ha]. assert (locked cur l = total l) as El by (apply (locked_above (vf_epoch f)); [done|lia]).
    destruct (vf_amount f <? target) eqn:E2; bool_prop.
    + destruct (Vesting.take_unvested l cur _) as [[v u] r] eqn:Et. injection H as <- <- <-.
      destruct (IH (vf_epoch f) (target - vf_amount f) v u r) as (-> & -> & ? & ? & Htot); [done|lia|done|].
      split; [lia|]. split; [lia|]. split; [done|]. split; [eapply above_weaken; [|done]; lia|].
      rewrite Htot. lia.
    + injection H as <- <- <-. rewrite El. pose proof (nonneg_total l Hl).
      split; [lia|]. split; [lia|]. split; [constructor; [cbn; lia|done]|]. split; [by split|].
      rewrite total_cons. cbn. lia.
Qed.

Lemma unlock_both_spec cur target v vested unvested v' : vest_wf v -> 0 <= target ->
  Vesting.unlock_vested_and_unvested_funds cur target v = (vested, unvested, v') ->
  vest_wf v' /\ vested = total (raw_funds v) - locked cur (raw_funds v) /\
  unvested = Z.min target (locked cur (raw_funds v)) /\
  total (raw_funds v') = locked cur (raw_funds v) - unvested.
Proof.
  intros Hv Ht H. unfold Vesting.unlock_vested_and_unvested_funds in H.
  destruct v as [[h t]|]; [|injection H as <- <- <-; cbn; split; [done|]; lia].
  destruct ((vf_epoch h >=? cur) && (vf_amount h >=? target)) eqn:E; bool_prop.
  - injection H as <- <- <-. destruct Hv as [Hn [e0 Ha]]. apply Forall_cons in Hn as [Hh Hn].
    pose proof (nonneg_total t Hn). cbn [raw_funds].
    assert (locked cur (h :: t) = total (h :: t)) as ->.
    { apply (locked_above (vf_epoch h - 1)); [split; [lia|apply Ha]|lia]. }
    rewrite !total_cons. split; [|cbn; lia].
    split; [constructor; [cbn; lia|done]|]. exists e0. destruct Ha as [Ha0 Ha]. by split.
  - destruct (load_spec _ Hv) as ([Hn [e0 Ha]] & Htot & Hl).
    destruct (Vesting.take_unvested _ cur target) as [[v1 u1] r1] eqn:Et. injection H as <- <- <-.
    destruct (take_unvested_spec _ _ _ _ _ _ _ Hn Ha Ht Et) as (-> & -> & Hn' & Ha' & Hr).
    rewrite Htot, Hl, raw_save. split; [unfold vest_wf; rewrite raw_save; split; [done|by exists e0]|].
    split; [done|]. split; [done|]. by rewrite Hr, Hl.
Qed.

(** ** New schedules *)

Record spec_ok (spec : VestSpec) : Prop := {
  so_delay : 0 <= initial_delay spec;
  so_period : 0 < vest_period spec;
  so_quant : 0 < quantization spec;
  so_step : quantization spec <= step_duration spec;
}.

Lemma reward_spec_ok : spec_ok REWARD_VESTING_SPEC.
Proof. by split. Qed.

Section schedule.
Context (spec : VestSpec) (ok : spec_ok spec) (quant : QuantSpec).
Context (Hq : unit_ quant = quantization spec) (vest_begin sum : Z) (Hsum : 0 <= sum).

(** The amount vested at an epoch of the schedule. *)
Definition vested_at (vest_epoch : Z) : Z :=
  if vest_epoch - vest_begin <? vest_period spec then sum * (vest_epoch - vest_begin) / vest_period spec
  else sum.

Lemma vested_at_mono e e' : e <= e' -> vested_at e <= vested_at e'.
Proof.
  intros He. pose proof (so_period _ ok). unfold vested_at.
  destruct (e - vest_begin <? _) eqn:E1, (e' - vest_begin <? _) eqn:E2; bool_prop; try lia.
  - apply Z.div_le_mono; nia.
  - apply Z.div_le_upper_bound; nia.
Qed.

(** No faster than linear. *)
Lemma vested_at_linear e : vest_begin <= e -> vested_at e * vest_period spec <= sum * (e - vest_begin).
Proof.
  intros He. pose proof (so_period _ ok). unfold vested_at. destruct (_ <? _) eqn:E; bool_prop; [|nia].
  rewrite Z.mul_comm. by apply Z.mul_div_le.
Qed.

Lemma vested_at_begin : vested_at vest_begin = 0.
Proof.
  pose proof (so_period _ ok). unfold vested_at. rewrite Z.sub_diag. destruct (0 <? _) eqn:E; bool_prop; [|lia].
  by rewrite Z.mul_0_r.
Qed.

Lemma vested_at_end e : vest_begin + vest_period spec <= e -> vested_at e = sum.
Proof. intros. unfold vested_at. destruct (_ <? _) eqn:E; bool_prop; [lia|done]. Qed.

Lemma vested_at_le e : vested_at e <= sum.
Proof.
  rewrite <-(vested_at_end (Z.max e (vest_begin + vest_period spec))) by lia. apply vested_at_mono. lia.
Qed.

(** What the entries of a schedule release, starting from what has vested at
    [prev]: at any epoch no more than vested the epoch before, and at least
    what vested a step and a quantum before. *)
Definition releases (prev : Z) (l : list VestingFund) : Prop :=
  forall e, vested_at (e - step_duration spec - quantization spec) <= vested_at prev + (total l - locked e l) <=
    vested_at (Z.max prev (e - 1)).

Lemma schedule_spec fuel : forall prev epoch,
  epoch <= prev -> prev <= quantize_up quant epoch ->
  vest_begin + vest_period spec <= epoch + Z.of_nat fuel * step_duration spec ->
  exists l, Vesting.schedule fuel spec quant vest_begin sum (vested_at prev) epoch = Some l /\
    nonneg l /\ above (quantize_up quant epoch) l /\ total l = sum - vested_at prev /\ releases prev l.
Proof.
  pose proof (so_step _ ok) as Hst. pose proof (so_quant _ ok) as Hqp.
  induction fuel as [|fuel IH]; intros prev epoch Hep Hp Hf; cbn [Vesting.schedule];
    (destruct (vested_at prev >=? sum) eqn:Ev; bool_prop;
     [pose proof (vested_at_le prev); exists []; split; [done|]; split; [constructor|]; split; [done|]; split; [cbn; lia|];
      intros e; cbn; pose proof (vested_at_le (e - step_duration spec - quantization spec));
      pose proof (vested_at_mono prev (Z.max prev (e - 1))); lia|]).
  { rewrite vested_at_end in Ev by lia. lia. }
  assert (0 < unit_ quant) as Hu by lia.
  pose proof (quantize_up_spec quant epoch Hu) as [Hq1 _].
  pose proof (quantize_up_spec quant (epoch + step_duration spec) Hu) as [Hq2 _].
  set (next := quantize_up quant (epoch + step_duration spec)) in *.
  fold (vested_at next). pose proof (vested_at_mono prev next ltac:(lia)) as Hm.
  destruct (IH next (epoch + step_duration spec)) as (l & -> & Hn & Ha & Ht & Hr); [lia|fold next; lia|lia|].
  eexists. split; [reflexivity|]. split; [constructor; [cbn; lia|done]|].
  split; [split; [cbn; lia|done]|]. split; [rewrite total_cons, Ht; cbn; lia|].
  intros e. specialize (Hr e). rewrite total_cons, locked_cons. cbn [vf_amount vf_epoch].
  destruct (next <? e) eqn:E; bool_prop.
  - rewrite Z.max_r in Hr by lia. rewrite Z.max_r by lia. lia.
  - rewrite (locked_above _ e _ Ha) by (fold next; lia).
    pose proof (vested_at_mono (e - step_duration spec - quantization spec) prev).
    pose proof (vested_at_mono prev (Z.max prev (e - 1))). lia.
Qed.
End schedule.

Lemma schedule_enough spec quant vest_begin sum : spec_ok spec -> unit_ quant = quantization spec -> 0 <= sum ->
  exists l, Vesting.schedule (Vesting.schedule_fuel spec) spec quant vest_begin sum 0 vest_begin = Some l /\
    nonneg l /\ above vest_begin l /\ total l = sum /\ releases spec vest_begin sum vest_begin l.
Proof.
  intros ok Hq Hs. pose proof (so_step _ ok). pose proof (so_quant _ ok).
  assert (0 < unit_ quant) as Hu by lia. pose proof (quantize_up_spec quant vest_begin Hu) as [Hq1 _].
  destruct (schedule_spec spec ok quant Hq vest_begin sum Hs (Vesting.schedule_fuel spec) vest_begin vest_begin)
    as (l & Hl & Hn & Ha & Ht & Hr); [lia|lia| |].
  - unfold Vesting.schedule_fuel. pose proof (so_period _ ok).
    pose proof (div_ceil_bounds (vest_period spec) (step_duration spec) ltac:(lia)). nia.
  - rewrite vested_at_begin in Hl, Ht by done. exists l. split; [done|]. split; [done|].
    split; [eapply above_weaken; [|exact Ha]; lia|]. split; [lia|done].
Qed.

(** ** Adding locked funds *)

Section merge.
Implicit Types a b : list VestingFund.

Lemma merge_ind (P : list VestingFund -> list VestingFund -> Prop) :
  (forall b, P [] b) -> (forall x a, P (x :: a) []) ->
  (forall x a y b, vf_epoch x < vf_epoch y -> P a (y :: b) -> P (x :: a) (y :: b)) ->
  (forall x a y b, vf_epoch y < vf_epoch x -> P (x :: a) b -> P (x :: a) (y :: b)) ->
  (forall x a y b, vf_epoch x = vf_epoch y -> P a b -> P (x :: a) (y :: b)) -> forall a b, P a b.
Proof.
  intros H1 H2 H3 H4 H5. induction a as [|x a IHa]; [done|]. induction b as [|y b IHb]; [done|].
  destruct (Z.lt_trichotomy (vf_epoch x) (vf_epoch y)) as [|[|]]; auto.
Qed.

Lemma merge_lt x a y b : vf_epoch x < vf_epoch y -> Vesting.merge (x :: a) (y :: b) = x :: Vesting.merge a (y :: b).
Proof. intros H. cbn. by rewrite (proj2 (Z.compare_lt_iff _ _) H). Qed.
Lemma merge_gt x a y b : vf_epoch y < vf_epoch x -> Vesting.merge (x :: a) (y :: b) = y :: Vesting.merge (x :: a) b.
Proof. intros H. cbn. by rewrite (proj2 (Z.compare_gt_iff _ _) H). Qed.
Lemma merge_eq x a y b : vf_epoch x = vf_epoch y ->
  Vesting.merge (x :: a) (y :: b) = mkFund (vf_epoch x) (vf_amount x + vf_amount y) :: Vesting.merge a b.
Proof. intros H. cbn. by rewrite (proj2 (Z.compare_eq_iff _ _) H). Qed.

Lemma merge_nil_l b : Vesting.merge [] b = b.
Proof. by destruct b. Qed.
Lemma merge_nil_r a : Vesting.merge a [] = a.
Proof. by destruct a. Qed.

Lemma merge_total a b : total (Vesting.merge a b) = total a + total b.
Proof.
  revert a b. apply merge_ind.
  - intros b. by rewrite merge_nil_l.
  - intros x a. rewrite merge_nil_r. cbn; lia.
  - intros x a y b E IH. rewrite merge_lt, !total_cons, IH, total_cons by done. lia.
  - intros x a y b E IH. rewrite merge_gt, !total_cons, IH, total_cons by done. lia.
  - intros x a y b E IH. rewrite merge_eq, !total_cons, IH by done. cbn. lia.
Qed.

Lemma merge_locked e a b : locked e (Vesting.merge a b) = locked e a + locked e b.
Proof.
  revert a b. apply merge_ind.
  - intros b. by rewrite merge_nil_l.
  - intros x a. rewrite merge_nil_r. cbn; lia.
  - intros x a y b E IH. rewrite merge_lt, !locked_cons, IH, locked_cons by done. lia.
  - intros x a y b E IH. rewrite merge_gt, !locked_cons, IH, locked_cons by done. lia.
  - intros x a y b E IH. rewrite merge_eq, !locked_cons, IH by done. cbn [vf_epoch vf_amount]. rewrite <-E.
    destruct (_ <? _); lia.
Qed.

Lemma merge_nonneg a b : nonneg a -> nonneg b -> nonneg (Vesting.merge a b).
Proof.
  unfold nonneg. revert a b. apply (merge_ind (fun a b => _ -> _ -> _)).
  - intros b. by rewrite merge_nil_l.
  - intros x a. by rewrite merge_nil_r.
  - intros x a y b E IH [? ?]%Forall_cons Hb. rewrite merge_lt by done. constructor; auto.
  - intros x a y b E IH Ha [? ?]%Forall_cons. rewrite merge_gt by done. constructor; auto.
  - intros x a y b E IH [? ?]%Forall_cons [? ?]%Forall_cons. rewrite merge_eq by done.
    constructor; [cbn; lia|auto].
Qed.

Lemma merge_above a b : forall e, above e a -> above e b -> above e (Vesting.merge a b).
Proof.
  revert a b. apply (merge_ind (fun a b => forall e, _ -> _ -> _)).
  - intros b e. by rewrite merge_nil_l.
  - intros x a e. by rewrite merge_nil_r.
  - intros x a y b E IH e [? ?] [? ?]. rewrite merge_lt by done. split; [done|]. apply IH; [done|by split].
  - intros x a y b E IH e [? ?] [? ?]. rewrite merge_gt by done. split; [done|]. apply IH; [by split|done].
  - intros x a y b E IH e [? ?] [? ?]. rewrite merge_eq by done. split; [done|]. cbn. apply IH; [done|by rewrite E].
Qed.
End merge.

Lemma add_locked_spec cur sum pps spec v : spec_ok spec -> 0 <= sum -> vest_wf v ->
  exists unlocked v', Vesting.add_locked_funds cur sum pps spec v = Ok (unlocked, v') /\ vest_wf v' /\
    unlocked = total (raw_funds v) - locked cur (raw_funds v) /\
    total (raw_funds v') = locked cur (raw_funds v) + sum /\
    exists new, nonneg new /\ total new = sum /\ releases spec (cur + initial_delay spec) sum (cur + initial_delay spec) new /\
      forall e, cur <= e -> locked e (raw_funds v') = locked e (raw_funds v) + locked e new.
Proof.
  intros ok Hs Hv. unfold Vesting.add_locked_funds. set (vb := cur + initial_delay spec).
  destruct (schedule_enough spec (mkQuant (quantization spec) pps) vb sum ok eq_refl Hs)
    as (new & -> & Hn & Ha & Ht & Hr).
  destruct (load_spec v Hv) as ([Hnl [e0 Hal]] & Htl & Hll). cbn [expect rbind].
  destruct (Vesting.take_vested _ cur) as [unlocked rest] eqn:Etv.
  destruct (take_vested_spec _ (Z.min e0 vb) _ _ _ (merge_nonneg _ _ Hnl Hn)
    ltac:(apply merge_above; (eapply above_weaken; [|done]); lia) Etv) as (-> & Hn' & Ha' & Ht' & Hl').
  pose proof (so_delay _ ok).
  assert (locked cur new = sum) as Hcn by (rewrite (locked_above vb); [done|done|lia]).
  eexists _, _. split; [reflexivity|]. unfold vest_wf. rewrite raw_save.
  split; [split; [done|by eexists]|]. rewrite Ht', merge_locked, merge_total, Hll, Htl, Ht, Hcn.
  split; [lia|]. split; [done|]. exists new. split; [done|]. split; [done|]. split; [done|].
  intros e He. by rewrite Hl', merge_locked, Hll.
Qed.
