(* ===== verification/MinerMoney.v ===== *)
(** * The miner actor: the ledger

    The invariant of the balances of a miner's state and of its sector numbers.

    [ledger]: the deposits are the sum of the deposits of the pre-commits, the
    locked funds are the sum of a well-formed vesting table, nothing is
    negative, and a pre-commit is stored under its own, allocated, number.

    [history]: from one state to a later one, allocated numbers stay allocated,
    and the pre-commit of an allocated number is only ever removed.

    Every change of the state made by state.rs and by the transactions of lib.rs
    preserves the two; most do not touch the balances at all. *)

From S2P Require Import Prelude Runtime Collections MinerBase MinerQueues MinerPartition MinerDeadline MinerFunds MinerState MinerCalls MinerSectors MinerActor MinerVesting.

Import Miner.

Record ledger (s : State) : Prop := {
  lg_deposits : pre_commit_deposits s = map_sum pre_commit_deposit (pre_committed_sectors s);
  lg_deposits_pos : 0 <= pre_commit_deposits s;
  lg_pledge : 0 <= st_initial_pledge s;
  lg_debt : 0 <= fee_debt s;
  lg_vesting : vest_wf (vesting_funds s);
  lg_locked : locked_funds s = total (raw_funds (vesting_funds s));
  lg_numbers : forall n p, pre_committed_sectors s !! n = Some p ->
    pc_sector_number (pc_info p) = n /\ n ∈ allocated_sectors s;
}.

Definition history (s s' : State) : Prop :=
  allocated_sectors s ⊆ allocated_sectors s' /\
  forall n, n ∈ allocated_sectors s ->
    pre_committed_sectors s' !! n = None \/ pre_committed_sectors s' !! n = pre_committed_sectors s !! n.

(** What the balance must cover. *)
Definition reserved (s : State) : Z := pre_commit_deposits s + locked_funds s + st_initial_pledge s.

(** The balances and the numbers are the same. *)
Definition same (s s' : State) : Prop :=
  pre_commit_deposits s' = pre_commit_deposits s /\ locked_funds s' = locked_funds s /\
  vesting_funds s' = vesting_funds s /\ fee_debt s' = fee_debt s /\
  st_initial_pledge s' = st_initial_pledge s /\
  pre_committed_sectors s' = pre_committed_sectors s /\ allocated_sectors s' = allocated_sectors s.

(** A change that keeps the ledger and the history. *)
Definition books (s s' : State) : Prop := ledger s -> ledger s' /\ history s s'.

Lemma history_refl s : history s s.
Proof. split; [done|]. by right. Qed.

Lemma history_trans s1 s2 s3 : history s1 s2 -> history s2 s3 -> history s1 s3.
Proof.
  intros [Ha1 Hp1] [Ha2 Hp2]. split; [set_solver|]. intros n Hn.
  destruct (Hp2 n) as [|E]; [set_solver|by left|]. rewrite E. by apply Hp1.
Qed.

Lemma books_refl s : books s s.
Proof. intros. split; [done|apply history_refl]. Qed.

Lemma books_trans s1 s2 s3 : books s1 s2 -> books s2 s3 -> books s1 s3.
Proof.
  intros H1 H2 H. destruct (H1 H) as [L1 Hi1]. destruct (H2 L1) as [L2 Hi2].
  split; [done|]. by eapply history_trans.
Qed.

Lemma same_refl s : same s s.
Proof. done. Qed.

Lemma same_trans s1 s2 s3 : same s1 s2 -> same s2 s3 -> same s1 s3.
Proof. unfold same. intros H1 H2. repeat split; destruct_and!; congruence. Qed.

Lemma same_books s s' : same s s' -> books s s'.
Proof.
  intros (H1 & H2 & H3 & H4 & H5 & H6 & H7) [L1 L2 L3 L4 L5 L6 L7]. split.
  - split; rewrite ?H1, ?H2, ?H3, ?H4, ?H5, ?H6, ?H7; done.
  - split; [by rewrite H7|]. intros n _. right. by rewrite H6.
Qed.

Lemma same_reserved s s' : same s s' -> reserved s' = reserved s.
Proof. intros (H1 & H2 & H3 & H4 & H5 & H6 & H7). unfold reserved. by rewrite H1, H2, H5. Qed.

Lemma same_set_info i s : same s (St.set_info i s).
Proof. done. Qed.
Lemma same_set_cleanup q s : same s (St.set_cleanup q s).
Proof. done. Qed.
Lemma same_set_sectors q s : same s (St.set_sectors q s).
Proof. done. Qed.
Lemma same_set_period p i s : same s (St.set_period p i s).
Proof. done. Qed.
Lemma same_set_deadlines d s : same s (St.set_deadlines d s).
Proof. done. Qed.
Lemma same_set_early e s : same s (St.set_early e s).
Proof. done. Qed.
Lemma same_set_cron b s : same s (St.set_cron_active b s).
Proof. done. Qed.

Create HintDb ledger.
#[export] Hint Resolve books_refl same_refl same_books same_set_info same_set_cleanup same_set_sectors
  same_set_period same_set_deadlines same_set_early same_set_cron : ledger.

(** ** Errors of the state code *)

Lemma dc_ok {A} c (r : MRes A) a : dc c r = Ok a <-> r = Ok a.
Proof. destruct r as [x|[]|]; split; try done; by intros [= ->]. Qed.

Lemma mc_ok {A} c (r : MRes A) a : mc c r = Ok a <-> r = Ok a.
Proof. destruct r as [x|[]|]; split; try done; by intros [= ->]. Qed.

Ltac code_inv :=
  repeat match goal with
  | H : dc _ _ = Ok _ |- _ => apply dc_ok in H
  | H : mc _ _ = Ok _ |- _ => apply mc_ok in H
  | H : context_code _ ?r = Ok _ |- _ => destruct r eqn:?; [|discriminate H|discriminate H]; injection H as H
  end.
Ltac minv := unfold bail, bail_code in *; repeat (progress (res_inv; code_inv)).

(** ** Balances *)

Lemma add_deposit_spec d s s' : St.add_pre_commit_deposit d s = Ok s' ->
  s' = St.set_deposits (pre_commit_deposits s + d) s /\ 0 <= pre_commit_deposits s + d.
Proof. unfold St.add_pre_commit_deposit. intros H. minv. by split. Qed.

Lemma add_pledge_spec d s s' : St.add_initial_pledge d s = Ok s' ->
  s' = St.set_pledge (st_initial_pledge s + d) s /\ 0 <= st_initial_pledge s + d.
Proof. unfold St.add_initial_pledge. intros H. minv. by split. Qed.

Lemma add_pledge_books d s s' : St.add_initial_pledge d s = Ok s' -> books s s'.
Proof.
  intros [-> Hd]%add_pledge_spec [L1 L2 L3 L4 L5 L6 L7]. split; [by split|]. split; [done|by right].
Qed.

Lemma apply_penalty_books d s s' : St.apply_penalty d s = Ok s' -> books s s' /\ reserved s' = reserved s.
Proof.
  unfold St.apply_penalty. intros H. minv. split; [|done]. intros [L1 L2 L3 L4 L5 L6 L7].
  split; [split; try done; cbn; lia|]. split; [done|by right].
Qed.

(** A new vesting table with its total. *)
Lemma set_locked_books x v s : vest_wf v -> x = total (raw_funds v) -> books s (St.set_locked x v s).
Proof. intros Hv Hx [L1 L2 L3 L4 L5 L6 L7]. split; [by split|]. split; [done|by right]. Qed.

Lemma unlock_both_books e t s u tot s' : 0 <= t -> ledger s ->
  St.unlock_vested_and_unvested_funds e t s = Ok (u, tot, s') ->
  ledger s' /\ history s s' /\ reserved s' = reserved s - tot /\ 0 <= u <= tot /\ fee_debt s' = fee_debt s.
Proof.
  unfold St.unlock_vested_and_unvested_funds. intros Ht L H.
  destruct (_ || _); [minv; split; [done|]; split; [apply history_refl|]; lia|].
  destruct (Vesting.unlock_vested_and_unvested_funds _ _ _) as [[a b] v] eqn:E. cbn zeta in H. minv.
  destruct (unlock_both_spec _ _ _ _ _ _ (lg_vesting _ L) Ht E) as (Hv & -> & -> & Htot).
  pose proof (lg_locked _ L) as Hl. destruct (lg_vesting _ L) as [Hn _].
  pose proof (locked_le_total e _ Hn).
  assert (locked_funds s - (total (raw_funds (vesting_funds s)) - locked e (raw_funds (vesting_funds s)) +
    Z.min t (locked e (raw_funds (vesting_funds s)))) = total (raw_funds v)) as Ex by lia.
  destruct (set_locked_books _ v s Hv Ex L) as [L' Hi]. split; [done|]. split; [done|].
  unfold reserved. cbn. lia.
Qed.

Lemma unlock_vested_books e s u s' : ledger s -> St.unlock_vested_funds e s = Ok (u, s') ->
  ledger s' /\ history s s' /\ reserved s' = reserved s - u /\ 0 <= u /\ fee_debt s' = fee_debt s.
Proof.
  unfold St.unlock_vested_funds. intros L H.
  destruct (_ =? _); [minv; split; [done|]; split; [apply history_refl|]; lia|].
  destruct (Vesting.unlock_vested_funds _ _) as [a v] eqn:E. cbn zeta in H. minv.
  destruct (unlock_vested_spec _ _ _ _ (lg_vesting _ L) E) as (Hv & -> & Htot & _).
  pose proof (lg_locked _ L) as Hl. destruct (lg_vesting _ L) as [Hn _].
  pose proof (locked_le_total e _ Hn).
  assert (locked_funds s - (total (raw_funds (vesting_funds s)) - locked e (raw_funds (vesting_funds s)))
    = total (raw_funds v)) as Ex by lia.
  destruct (set_locked_books _ v s Hv Ex L) as [L' Hi]. split; [done|]. split; [done|].
  unfold reserved. cbn. lia.
Qed.

Lemma add_locked_books e sum s u s' : ledger s -> St.add_locked_funds e sum REWARD_VESTING_SPEC s = Ok (u, s') ->
  ledger s' /\ history s s' /\ reserved s' = reserved s - u + sum /\ 0 <= u /\ fee_debt s' = fee_debt s.
Proof.
  unfold St.add_locked_funds. intros L H. destruct (sum <? 0) eqn:Es; [discriminate|]. bool_prop.
  destruct (add_locked_spec e sum (proving_period_start s) REWARD_VESTING_SPEC (vesting_funds s)
    reward_spec_ok Es (lg_vesting _ L)) as (u' & v & E & Hv & -> & Htot & _).
  rewrite E in H. cbn [rbind] in H. minv.
  pose proof (lg_locked _ L) as Hl. destruct (lg_vesting _ L) as [Hn _].
  pose proof (locked_le_total e _ Hn).
  assert (locked_funds s - (total (raw_funds (vesting_funds s)) - locked e (raw_funds (vesting_funds s))) + sum
    = total (raw_funds v)) as Ex by lia.
  destruct (set_locked_books _ v s Hv Ex L) as [L' Hi]. split; [done|]. split; [done|].
  unfold reserved. cbn. lia.
Qed.

Lemma unlocked_spec b s u : St.get_unlocked_balance b s = Ok u -> u = b - reserved s /\ 0 <= u.
Proof. unfold St.get_unlocked_balance, reserved. intros H. minv. lia. Qed.

Lemma set_debt_books d s : 0 <= d -> books s (St.set_fee_debt d s).
Proof. intros Hd [L1 L2 L3 L4 L5 L6 L7]. split; [by split|]. split; [done|by right]. Qed.

Lemma repay_partial_books e b s burn tot s' : ledger s ->
  St.repay_partial_debt_in_priority_order e b s = Ok (burn, tot, s') ->
  ledger s' /\ history s s' /\ reserved s' = reserved s - tot /\ 0 <= burn /\ 0 <= tot /\
  reserved s' + burn <= b.
Proof.
  unfold St.repay_partial_debt_in_priority_order. intros L H.
  apply rbind_ok in H as ([[u t] s1] & H1 & H).
  destruct (unlock_both_books _ _ _ _ _ _ (lg_debt _ L) L H1) as (L1 & Hi1 & Hr1 & Ht & Hd).
  destruct (_ >? _); [discriminate|]. apply rbind_ok in H as (ub & H2 & H). apply unlocked_spec in H2 as [-> Hb].
  injection H as <- <- <-. pose proof (lg_debt _ L1).
  destruct (set_debt_books (fee_debt s1 - Z.min (b - reserved s1) (fee_debt s1)) s1 ltac:(lia) L1) as [L2 Hi2].
  split; [done|]. split; [by eapply history_trans|]. change (reserved (St.set_fee_debt _ s1)) with (reserved s1). lia.
Qed.

Lemma repay_debts_books b s fee s' : ledger s -> St.repay_debts b s = Ok (fee, s') ->
  ledger s' /\ history s s' /\ reserved s' = reserved s /\ 0 <= fee /\ reserved s' + fee <= b.
Proof.
  unfold St.repay_debts. intros L H. apply rbind_ok in H as (ub & H1 & H). apply unlocked_spec in H1 as [-> Hb].
  destruct (_ <? _) eqn:E; [discriminate|]. bool_prop. injection H as <- <-. pose proof (lg_debt _ L).
  destruct (set_debt_books 0 s ltac:(lia) L) as [L2 Hi2]. split; [done|]. split; [done|].
  change (reserved (St.set_fee_debt _ s)) with (reserved s). lia.
Qed.

Lemma check_invariants_spec b s u : St.check_balance_invariants b s = Ok u -> reserved s <= b.
Proof. unfold St.check_balance_invariants, reserved. intros H. minv. lia. Qed.

(** ** Sector numbers and pre-commits *)

Lemma allocate_spec ns b s s' : St.allocate_sector_numbers ns b s = Ok s' ->
  s' = St.set_allocated (allocated_sectors s ∪ ns) s /\ (b = false -> allocated_sectors s ## ns).
Proof.
  unfold St.allocate_sector_numbers. intros H. destruct (_ && _) eqn:E; [discriminate|]. injection H as <-.
  split; [done|]. intros ->. cbn in E. apply negb_false_iff, bool_decide_eq_true in E. set_solver.
Qed.

Lemma allocate_books ns b s s' : St.allocate_sector_numbers ns b s = Ok s' -> books s s' /\ reserved s' = reserved s.
Proof.
  intros [-> _]%allocate_spec. split; [|done]. intros [L1 L2 L3 L4 L5 L6 L7]. split.
  - split; try done. intros n p Hn. destruct (L7 n p Hn). split; [done|]. cbn. set_solver.
  - split; [cbn; set_solver|]. by right.
Qed.

Lemma put_precommits_spec ps : forall m m',
  rfold (fun (m : gmap Z SectorPreCommitOnChainInfo) p =>
    match m !! pc_sector_number (pc_info p) with
    | Some _ => bail
    | None => Ok (<[pc_sector_number (pc_info p) := p]> m)
    end) m ps = Ok m' ->
  map_sum pre_commit_deposit m' = map_sum pre_commit_deposit m + sum_list_Z (pre_commit_deposit <$> ps) /\
  forall n, m' !! n = m !! n \/
    (m !! n = None /\ exists p, p ∈ ps /\ pc_sector_number (pc_info p) = n /\ m' !! n = Some p).
Proof.
  induction ps as [|p ps IH]; intros m m' H; cbn [rfold] in H.
  { minv. cbn. split; [lia|]. by left. }
  apply rbind_ok in H as (m1 & H1 & H). destruct (m !! _) eqn:E; [discriminate|]. injection H1 as <-.
  destruct (IH _ _ H) as [Hs Hl]. split.
  - rewrite Hs, map_sum_insert_new by done. unfold sum_list_Z. cbn. lia.
  - intros n. destruct (Hl n) as [El|(El & q & Hq & Hn & Hm')].
    + destruct (decide (pc_sector_number (pc_info p) = n)) as [<-|Hne].
      * right. split; [done|]. exists p. rewrite El, lookup_insert_eq. split; [left|done].
      * left. by rewrite El, lookup_insert_ne.
    + destruct (decide (pc_sector_number (pc_info p) = n)) as [<-|Hne].
      * by rewrite lookup_insert_eq in El.
      * rewrite lookup_insert_ne in El by done. right. split; [done|]. exists q. by repeat (split; [by try right|]).
Qed.

(** Deletion of stored pre-commits, whose deposits the caller knows. *)
Lemma delete_precommits_spec ns : forall m m',
  rfold (fun (m : gmap Z SectorPreCommitOnChainInfo) n =>
    match m !! n with
    | Some _ => Ok (delete n m)
    | None => bail_code USR_ILLEGAL_STATE
    end) m ns = Ok m' ->
  map_sum pre_commit_deposit m' =
    map_sum pre_commit_deposit m - sum_list_Z ((fun n => lookup_sum pre_commit_deposit n m) <$> ns) /\
  (forall n, n ∈ ns -> is_Some (m !! n)) /\
  forall n, m' !! n = None \/ m' !! n = m !! n.
Proof.
  induction ns as [|n ns IH]; intros m m' H; cbn [rfold] in H.
  { minv. cbn. split; [lia|]. split; [|by right]. by intros ? ?%elem_of_nil. }
  apply rbind_ok in H as (m1 & H1 & H). destruct (m !! n) as [p|] eqn:E; [|discriminate]. injection H1 as <-.
  assert (n ∉ ns) as Hn.
  { intros Hin. clear -Hin H. assert (delete n m !! n = None) as E by apply lookup_delete_eq. revert E H.
    generalize (delete n m). induction Hin as [ns|ns0 n' ns Hin IH]; intros m0 E H; cbn in H.
    - by rewrite E in H.
    - apply rbind_ok in H as (m1 & H1 & H). destruct (m0 !! n'); [|discriminate H1]. injection H1 as <-.
      eapply IH; [|exact H]. apply lookup_delete_None. by right. }
  destruct (IH _ _ H) as (Hs & Hin & Hl). split; [|split].
  - rewrite Hs, map_sum_delete_any. cbn.
    assert ((fun n0 => lookup_sum pre_commit_deposit n0 (delete n m)) <$> ns =
            (fun n0 => lookup_sum pre_commit_deposit n0 m) <$> ns) as ->.
    { apply list_fmap_ext. intros i n' Hi. unfold lookup_sum. rewrite lookup_delete_ne; [done|].
      intros <-. apply Hn. by eapply list_elem_of_lookup_2. }
    unfold sum_list_Z. lia.
  - intros n' [->|Hn']%elem_of_cons; [by rewrite E|]. destruct (Hin n' Hn') as [q [_ Hq]%lookup_delete_Some].
    by rewrite Hq.
  - intros n'. destruct (Hl n') as [|El]; [by left|]. rewrite El.
    destruct (decide (n = n')) as [<-|]; [left; apply lookup_delete_eq|right; by apply lookup_delete_ne].
Qed.

Lemma delete_spec ns s s' : St.delete_precommitted_sectors ns s = Ok s' ->
  exists m, s' = St.set_precommits m s /\
    map_sum pre_commit_deposit m = map_sum pre_commit_deposit (pre_committed_sectors s)
      - sum_list_Z ((fun n => lookup_sum pre_commit_deposit n (pre_committed_sectors s)) <$> ns) /\
    (forall n, n ∈ ns -> is_Some (pre_committed_sectors s !! n)) /\
    forall n, m !! n = None \/ m !! n = pre_committed_sectors s !! n.
Proof.
  unfold St.delete_precommitted_sectors. intros H. apply rbind_ok in H as (m & H & [= <-]).
  exists m. split; [done|]. by apply delete_precommits_spec.
Qed.

(** The deletion with the deposits paid out. *)
Lemma delete_books m d s : ledger s -> 0 <= pre_commit_deposits s - d ->
  map_sum pre_commit_deposit m = map_sum pre_commit_deposit (pre_committed_sectors s) - d ->
  (forall n, m !! n = None \/ m !! n = pre_committed_sectors s !! n) ->
  forall s', same (St.set_deposits (pre_commit_deposits s - d) (St.set_precommits m s)) s' ->
  ledger s' /\ history s s' /\ reserved s' = reserved s - d.
Proof.
  intros [L1 L2 L3 L4 L5 L6 L7] Hd Hs Hl s' Hsame.
  set (s1 := St.set_deposits _ _) in *.
  assert (ledger s1) as Ls1.
  { split; try done; cbn; [lia|]. intros n p Hn. apply L7. destruct (Hl n) as [E|E]; [congruence|by rewrite <-E]. }
  destruct (same_books _ _ Hsame Ls1) as [L' Hi]. split; [done|]. rewrite (same_reserved _ _ Hsame).
  split; [|unfold reserved; cbn; lia]. eapply history_trans; [|exact Hi]. split; [done|]. intros n _. apply Hl.
Qed.

Lemma put_spec ps s s' : St.put_precommitted_sectors ps s = Ok s' ->
  exists m, s' = St.set_precommits m s /\
    map_sum pre_commit_deposit m =
      map_sum pre_commit_deposit (pre_committed_sectors s) + sum_list_Z (pre_commit_deposit <$> ps) /\
    forall n, m !! n = pre_committed_sectors s !! n \/
      (pre_committed_sectors s !! n = None /\
       exists p, p ∈ ps /\ pc_sector_number (pc_info p) = n /\ m !! n = Some p).
Proof.
  unfold St.put_precommitted_sectors. intros H. apply rbind_ok in H as (m & H & [= <-]).
  exists m. split; [done|]. by apply put_precommits_spec.
Qed.

Lemma record_precommits_books x ns av infos evs s b s' : ledger s ->
  (forall p, p ∈ infos -> pc_sector_number (pc_info p) ∈ ns) ->
  record_precommits x ns av infos evs s = Ok (b, s') ->
  ledger s' /\ history s s' /\ reserved s' <= reserved s + av.
Proof.
  intros [L1 L2 L3 L4 L5 L6 L7] Hin H. unfold record_precommits in H. minv.
  repeat match goal with
  | H : St.add_pre_commit_deposit _ _ = Ok _ |- _ => apply add_deposit_spec in H as [-> ?]
  | H : St.allocate_sector_numbers _ _ _ = Ok _ |- _ => apply allocate_spec in H as [-> Hal]
  | H : St.put_precommitted_sectors _ _ = Ok _ |- _ => apply put_spec in H as (m & -> & Hs & Hl)
  | H : St.add_pre_commit_clean_ups _ _ _ = Ok _ |- _ => unfold St.add_pre_commit_clean_ups in H; minv
  end.
  cbn in Hal, Hs, Hl. specialize (Hal eq_refl). split; [|split].
  - split; cbn; try done; [lia|]. intros n p Hn. destruct (Hl n) as [E|(E & q & Hq & <- & E')].
    + destruct (L7 n p); [by rewrite <-E|]. split; [done|]. set_solver.
    + rewrite E' in Hn. injection Hn as ->. split; [done|]. specialize (Hin p Hq). set_solver.
  - split; cbn; [set_solver|]. intros n Hn. right. destruct (Hl n) as [E|(_ & q & Hq & <- & _)]; [done|].
    specialize (Hin q Hq). set_solver.
  - unfold reserved. cbn. lia.
Qed.

(** ** Activation of sectors *)

(** The infos built from pre-commits have their numbers. *)
Lemma new_infos_numbers x e i pi ps : forall acc infos,
  rfold (fun acc '(p, d) => let! info := new_sector_info x e i pi p d in Ok (acc ++ [info])) acc ps = Ok infos ->
  sector_number <$> infos = (sector_number <$> acc) ++ ((fun pd => pc_sector_number (pc_info (fst pd))) <$> ps).
Proof.
  induction ps as [|[p d] ps IH]; intros acc infos H; cbn in H.
  - minv. cbn. by rewrite app_nil_r.
  - minv. rewrite (IH _ _ H), fmap_app, <-app_assoc. cbn. do 2 f_equal.
    match goal with H : new_sector_info _ _ _ _ _ _ = Ok _ |- _ => unfold new_sector_info in H end. by minv.
Qed.

Lemma put_sectors_same infos s s' : St.put_sectors infos s = Ok s' -> same s s'.
Proof. unfold St.put_sectors. intros H. by minv. Qed.
Lemma assign_deadlines_same p e infos n z s s' : St.assign_sectors_to_deadlines p e infos n z s = Ok s' -> same s s'.
Proof. unfold St.assign_sectors_to_deadlines. intros H. cbn zeta in H. by minv. Qed.
Lemma assign_deadline_same p e infos n z i s s' : St.assign_sectors_to_deadline p e infos n z i s = Ok s' -> same s s'.
Proof. unfold St.assign_sectors_to_deadline. intros H. cbn zeta in H. by minv. Qed.

(** The pre-commits are those stored, where they still are. *)
Definition current_precommits (ps : list SectorPreCommitOnChainInfo) (s : State) : Prop :=
  forall p q, p ∈ ps -> pre_committed_sectors s !! pc_sector_number (pc_info p) = Some q -> q = p.

Lemma current_deposits ps s : current_precommits ps s ->
  (forall n, n ∈ (fun p => pc_sector_number (pc_info p)) <$> ps -> is_Some (pre_committed_sectors s !! n)) ->
  sum_list_Z ((fun n => lookup_sum pre_commit_deposit n (pre_committed_sectors s))
                <$> ((fun p => pc_sector_number (pc_info p)) <$> ps)) =
  sum_list_Z (pre_commit_deposit <$> ps).
Proof.
  intros Hc Hin. rewrite <-list_fmap_compose. f_equal. apply list_fmap_ext. intros k p Hp. cbn.
  apply list_elem_of_lookup_2 in Hp. unfold lookup_sum.
  destruct (Hin (pc_sector_number (pc_info p))) as [q Hq]; [apply list_elem_of_fmap; by exists p|].
  rewrite Hq. cbn. by rewrite (Hc p q Hp Hq).
Qed.

Lemma activate_infos_books x e b i pi ps data s tot s' : ledger s -> current_precommits ps s ->
  activate_infos x e b i pi ps data s = Ok (tot, s') ->
  ledger s' /\ history s s' /\ reserved s' <= b.
Proof.
  intros L Hc H. unfold activate_infos in H. cbn zeta in H. minv.
  match goal with H : rfold _ [] _ = Ok _ |- _ => apply new_infos_numbers in H; cbn in H; rename H into Hnum end.
  match goal with H : St.put_sectors _ _ = Ok _ |- _ => apply put_sectors_same in H; rename H into Hs1 end.
  match goal with H : St.delete_precommitted_sectors _ _ = Ok _ |- _ =>
    apply delete_spec in H as (m & -> & Hsum & Hin & Hl) end.
  match goal with H : St.assign_sectors_to_deadlines _ _ _ _ _ _ = Ok _ |- _ =>
    apply assign_deadlines_same in H; rename H into Hs2 end.
  match goal with H : St.add_pre_commit_deposit _ _ = Ok _ |- _ => apply add_deposit_spec in H as [-> Hd] end.
  match goal with H : St.add_initial_pledge _ _ = Ok _ |- _ => pose proof (add_pledge_books _ _ _ H) as Hp end.
  match goal with H : St.check_balance_invariants _ _ = Ok _ |- _ => apply check_invariants_spec in H; rename H into Hb end.
  set (qs := fst <$> zip ps data).
  assert ((fun pd => pre_commit_deposit pd.1) <$> zip ps data = pre_commit_deposit <$> qs) as Ed
    by (unfold qs; by rewrite <-list_fmap_compose).
  assert (sector_number <$> x0 = (fun p => pc_sector_number (pc_info p)) <$> qs) as En
    by (unfold qs; by rewrite Hnum, <-list_fmap_compose).
  rewrite Ed in *. rewrite En in *.
  assert (current_precommits qs x1) as Hc1.
  { intros p q Hp' Hq. apply list_elem_of_fmap in Hp' as ([p' d] & -> & Hz). apply elem_of_zip_l in Hz.
    apply (Hc _ q Hz). by destruct Hs1 as (_ & _ & _ & _ & _ & <- & _). }
  rewrite current_deposits in Hsum by done. destruct (same_books _ _ Hs1 L) as [L1 Hi1].
  assert (pre_commit_deposits x3 = pre_commit_deposits x1) as E3 by apply Hs2. rewrite E3, Z.add_opp_r in *.
  destruct (delete_books m _ x1 L1 Hd Hsum Hl
    (St.set_deposits (pre_commit_deposits x1 - sum_list_Z (pre_commit_deposit <$> qs)) x3)) as (L2 & Hi2 & _).
  { destruct Hs2 as (? & ? & ? & ? & ? & ? & ?). done. }
  destruct (Hp L2) as [L3 Hi3]. split; [done|]. split; [|done].
  eapply history_trans; [exact Hi1|]. by eapply history_trans.
Qed.

Lemma add_ni_books x e b i ns pledge d infos s c fee s' : ledger s ->
  add_ni_sectors x e b i ns pledge d infos s = Ok (c, fee, s') -> ledger s' /\ history s s'.
Proof.
  intros L H. unfold add_ni_sectors in H. cbn zeta in H. minv.
  repeat match goal with
  | H : St.allocate_sector_numbers _ _ _ = Ok _ |- _ => apply allocate_books in H as [? _]
  | H : St.put_sectors _ _ = Ok _ |- _ => apply put_sectors_same, same_books in H
  | H : St.assign_sectors_to_deadline _ _ _ _ _ _ _ = Ok _ |- _ => apply assign_deadline_same, same_books in H
  | H : St.add_initial_pledge _ _ = Ok _ |- _ => apply add_pledge_books in H
  end.
  match goal with H : St.repay_debts _ ?t = Ok _ |- _ => assert (books s t) as Hb; [|destruct (Hb L) as [Lt Hi];
    destruct (repay_debts_books _ _ _ _ Lt H) as (? & ? & _); split; [done|by eapply history_trans]] end.
  eapply books_trans; [apply same_books, (same_set_cron true)|]. do 3 (eapply books_trans; [eassumption|]). done.
Qed.

Lemma update_replicas_books x e b z pi m n all s pw pl s' : update_replica_states x e b z pi m n all s = Ok (pw, pl, s') ->
  books s s' /\ reserved s' <= b.
Proof.
  intros H. unfold update_replica_states in H. apply rbind_ok in H as ([[[power pledge] infos] ds] & _ & H).
  cbn zeta in H. minv.
  match goal with H : St.add_initial_pledge _ _ = Ok _ |- _ => apply add_pledge_books in H; rename H into Hp end.
  match goal with H : St.check_balance_invariants _ _ = Ok _ |- _ => apply check_invariants_spec in H end.
  split; [|done]. eapply books_trans; [|exact Hp]. by apply same_books.
Qed.

Lemma extend_same x e supply sp exts s pw pl s' : extend_expirations x e supply sp exts s = Ok (pw, pl, s') -> same s s'.
Proof. unfold extend_expirations. intros H. apply rbind_ok in H as ([[[a b] c] d] & _ & H). by minv. Qed.

(** ** The transactions of the other methods *)

Lemma pending_worker_same e s : same s (process_pending_worker e s).
Proof. unfold process_pending_worker. destruct (pending_worker_key _); [|done]. by destruct (_ <? _). Qed.

Lemma submit_post_same x c p pr s pw s' : submit_post x c p pr s = Ok (pw, s') -> same s s'.
Proof. unfold submit_post. intros H. cbn zeta in H. by minv. Qed.

Lemma terminate_same x c m s b pw s' : terminate_declared x c m s = Ok (b, pw, s') -> same s s'.
Proof. unfold terminate_declared. intros H. apply rbind_ok in H as ([[a d] f] & _ & H). by minv. Qed.

Lemma faults_same x c m s pw s' : declare_faults_in x c m s = Ok (pw, s') -> same s s'.
Proof. unfold declare_faults_in. intros H. apply rbind_ok in H as ([a d] & _ & H). by minv. Qed.

Lemma recoveries_same x c m s s' : declare_recoveries_in x c m s = Ok s' -> same s s'.
Proof. unfold declare_recoveries_in. intros H. apply rbind_ok in H as (a & _ & H). by minv. Qed.

Lemma compact_same x c d ps s s' : compact x c d ps s = Ok s' -> same s s'.
Proof. unfold compact. intros H. cbn zeta in H. by minv. Qed.

(** Penalties, then the repayment of the debt. *)
Lemma books_repay e b s s1 burn tot s2 : ledger s -> books s s1 ->
  St.repay_partial_debt_in_priority_order e b s1 = Ok (burn, tot, s2) ->
  ledger s2 /\ history s s2 /\ reserved s2 <= reserved s1 /\ reserved s2 + burn <= b.
Proof.
  intros L Hb H. destruct (Hb L) as [L1 Hi]. destruct (repay_partial_books _ _ _ _ _ _ L1 H) as (L2 & Hi2 & ? & ? & ? & ?).
  split; [done|]. split; [by eapply history_trans|]. lia.
Qed.

Lemma dispute_books x c b rew pwr d n s p1 p2 p3 p4 s' : ledger s ->
  dispute_post x c b rew pwr d n s = Ok (p1, p2, p3, p4, s') -> ledger s' /\ history s s'.
Proof.
  intros L H. unfold dispute_post in H. cbn zeta in H. minv.
  match goal with H : St.apply_penalty _ _ = Ok _ |- _ => apply apply_penalty_books in H as [Hp _] end.
  match goal with H : St.repay_partial_debt_in_priority_order _ _ _ = Ok _ |- _ =>
    eapply books_repay in H as (? & ? & _); [by split|exact L|] end.
  eapply books_trans; [|exact Hp]. auto with ledger.
Qed.

Lemma rewards_books c b r p s pl burn s' : ledger s -> book_rewards c b r p s = Ok (pl, burn, s') ->
  ledger s' /\ history s s'.
Proof.
  intros L H. unfold book_rewards in H. destruct (Monies.locked_reward_from_reward r) as [lock spec] eqn:E.
  assert (spec = REWARD_VESTING_SPEC) as -> by (unfold Monies.locked_reward_from_reward in E; congruence).
  apply rbind_ok in H as (u & _ & H). destruct (_ <? _); [discriminate|].
  apply rbind_ok in H as ([v s1] & H1 & H). apply mc_ok in H1.
  destruct (add_locked_books _ _ _ _ _ L H1) as (L1 & Hi1 & _).
  apply rbind_ok in H as (s2 & H2 & H). apply mc_ok, apply_penalty_books in H2 as [Hp _].
  apply rbind_ok in H as ([[? ?] ?] & H3 & H). apply dc_ok in H3. injection H as <- <- <-.
  destruct (books_repay _ _ _ _ _ _ _ L1 Hp H3) as (? & ? & _). split; [done|by eapply history_trans].
Qed.

Lemma consensus_fault_books x c b e pen sl s p1 p2 p3 s' : ledger s ->
  book_consensus_fault x c b e pen sl s = Ok (p1, p2, p3, s') -> ledger s' /\ history s s'.
Proof.
  intros L H. unfold book_consensus_fault in H. destruct (_ <? _); [discriminate|].
  apply rbind_ok in H as (s2 & H2 & H). apply mc_ok, apply_penalty_books in H2 as [Hp _].
  apply rbind_ok in H as ([[? ?] s3] & H3 & H). apply dc_ok in H3. cbn zeta in H. injection H as <- <- <- <-.
  destruct (books_repay _ _ _ _ _ _ _ L Hp H3) as (L3 & Hi & _).
  destruct (same_books s3 _ (same_set_info (set_fault_elapsed (ctx_epoch c + consensus_fault_ineligibility_duration (policy x)) (info s3)) s3) L3).
  split; [done|by eapply history_trans].
Qed.

Lemma withdrawal_books c b n s a v fee s' : ledger s -> book_withdrawal c b n s = Ok (a, v, fee, s') ->
  ledger s' /\ history s s' /\ reserved s' <= reserved s.
Proof.
  intros L H. unfold book_withdrawal in H. destruct (negb _); [discriminate|].
  apply rbind_ok in H as ([nv s1] & H1 & H). apply dc_ok in H1.
  destruct (unlock_vested_books _ _ _ _ L H1) as (L1 & Hi1 & Hr1 & Hu & _).
  apply rbind_ok in H as (av & _ & H). apply rbind_ok in H as ([fb s2] & H2 & H). apply dc_ok in H2.
  destruct (repay_debts_books _ _ _ _ L1 H2) as (L2 & Hi2 & Hr2 & _).
  assert (same s2 s') as Hs; [|destruct (same_books _ _ Hs L2); rewrite (same_reserved _ _ Hs);
    split; [done|]; split; [|lia]; eapply history_trans; [exact Hi1|]; by eapply history_trans].
  cbn zeta in H. destruct (Z.min av n <? 0); [discriminate|]. destruct (negb _); [|by injection H as <- <- <- <-].
  destruct (_ =? 0); [discriminate|]. injection H as <- <- <- <-. by destruct (_ >? 0).
Qed.

Lemma pop_early_same p mp ms s r b s' : St.pop_early_terminations p mp ms s = Ok (r, b, s') -> same s s'.
Proof.
  unfold St.pop_early_terminations. intros H. destruct (bf_empty _); [by minv|].
  apply rbind_ok in H as ([[? ?] ?] & _ & H). by minv.
Qed.

Lemma terminations_books x c b rew pwr s p1 p2 p3 p4 p5 s' : ledger s ->
  book_terminations x c b rew pwr s = Ok (p1, p2, p3, p4, p5, s') -> ledger s' /\ history s s'.
Proof.
  intros L H. unfold book_terminations in H. apply rbind_ok in H as ([[r more] s1] & H1 & H).
  apply mc_ok, pop_early_same, same_books in H1.
  destruct (tr_is_empty r); [minv; by apply H1|].
  apply rbind_ok in H as ([[? ?] ?] & _ & H). apply rbind_ok in H as (s2 & H2 & H). apply mc_ok, apply_penalty_books in H2 as [H2 _].
  apply rbind_ok in H as (s3 & H3 & H). apply mc_ok, add_pledge_books in H3.
  apply rbind_ok in H as ([[? ?] s4] & H4 & H). apply dc_ok in H4. injection H as <- <- <- <- <- <-.
  eapply books_repay in H4 as (? & ? & _); [by split|exact L|]. do 2 (eapply books_trans; [eassumption|]). done.
Qed.

(** The pre-commits found under some numbers, with their deposits. *)
Lemma found_deposits (m : gmap Z SectorPreCommitOnChainInfo) l :
  let found := omap (fun n => (fun p => (n, p)) <$> m !! n) l in
  sum_list_Z ((fun n => lookup_sum pre_commit_deposit n m) <$> (fst <$> found)) =
  sum_list_Z ((fun np => pre_commit_deposit (snd np)) <$> found).
Proof.
  intros found. rewrite <-list_fmap_compose. f_equal. apply list_fmap_ext. intros k [n p] Hp. cbn.
  apply list_elem_of_lookup_2, list_elem_of_omap in Hp as (n' & _ & Hn). unfold lookup_sum.
  destruct (m !! n') eqn:E; [|done]. injection Hn as <- <-. by rewrite E.
Qed.

Lemma cleanup_books e s burn s' : ledger s -> St.cleanup_expired_pre_commits e s = Ok (burn, s') ->
  ledger s' /\ history s s'.
Proof.
  intros L H. unfold St.cleanup_expired_pre_commits in H. apply rbind_ok in H as ([[ns md] q] & _ & H).
  cbn zeta in H. set (s0 := if md then _ else s) in H.
  assert (same s s0) as Hs0 by (unfold s0; by destruct md).
  destruct (same_books _ _ Hs0 L) as [L0 Hi0].
  pose proof (found_deposits (pre_committed_sectors s0) (bits ns)) as Hf. cbn zeta in Hf.
  set (found := omap _ _) in *. apply rbind_ok in H as (s1 & H1 & H).
  assert (exists m, same (St.set_precommits m s0) s1 /\
    map_sum pre_commit_deposit m = map_sum pre_commit_deposit (pre_committed_sectors s0)
      - sum_list_Z ((fun np => pre_commit_deposit (snd np)) <$> found) /\
    forall n, m !! n = None \/ m !! n = pre_committed_sectors s0 !! n) as (m & Hs1 & Hsum & Hl).
  { destruct found as [|f fs].
    - injection H1 as <-. exists (pre_committed_sectors s0). split; [done|]. cbn. split; [lia|by right].
    - apply delete_spec in H1 as (m & -> & Hs & _ & Hl). exists m. split; [done|]. by rewrite Hs, Hf. }
  destruct (_ <? 0) eqn:E; [discriminate|]. injection H as <- <-. bool_prop.
  assert (pre_commit_deposits s1 = pre_commit_deposits s0) as E1 by apply Hs1. rewrite E1 in *.
  destruct (delete_books m _ s0 L0 E Hsum Hl (St.set_deposits (pre_commit_deposits s0
    - sum_list_Z ((fun np => pre_commit_deposit (snd np)) <$> found)) s1)) as (L2 & Hi2 & _).
  { destruct Hs1 as (? & ? & ? & ? & ? & ? & ?). done. }
  split; [done|by eapply history_trans].
Qed.

Lemma advance_books p e s r s' : St.advance_deadline p e s = Ok (r, s') -> books s s'.
Proof.
  unfold St.advance_deadline. intros H. destruct (negb _); [minv; auto with ledger|]. cbn zeta in H.
  apply rbind_ok in H as (d & _ & H). destruct (negb _); [minv; auto with ledger|].
  apply rbind_ok in H as ([[? ?] d1] & _ & H). apply rbind_ok in H as ([ex d2] & _ & H).
  apply rbind_ok in H as (s1 & H1 & H). apply add_pledge_books in H1.
  apply rbind_ok in H as (ds & _ & H). injection H as <- <-.
  eapply books_trans; [apply same_books, same_set_period|]. eapply books_trans; [exact H1|].
  apply same_books. by destruct (bf_empty _).
Qed.

Lemma end_deadline_books x c b rew pwr s r s' : ledger s ->
  end_deadline x c b rew pwr s = Ok (r, s') -> ledger s' /\ history s s'.
Proof.
  intros L H. unfold end_deadline in H. cbn zeta in H.
  destruct (same_books _ _ (pending_worker_same (ctx_epoch c) s) L) as [L0 Hi0].
  apply rbind_ok in H as ([d s1] & H1 & H). apply dc_ok in H1. destruct (cleanup_books _ _ _ _ L0 H1) as [L1 Hi1].
  apply rbind_ok in H as (s2 & H2 & H). apply mc_ok, apply_penalty_books in H2 as [H2 _].
  apply rbind_ok in H as ([ad s3] & H3 & H). apply dc_ok, advance_books in H3.
  apply rbind_ok in H as (pt & _ & H). apply rbind_ok in H as (s4 & H4 & H). apply mc_ok, apply_penalty_books in H4 as [H4 _].
  apply rbind_ok in H as (s5 & H5 & H).
  assert (books s4 s5) as Hb5.
  { destruct (_ >? 0); [|minv; auto with ledger]. apply rbind_ok in H5 as (dr & _ & H5).
    by apply mc_ok, apply_penalty_books in H5 as [H5 _]. }
  apply rbind_ok in H as ([[pn tu] s6] & H6 & H). apply dc_ok in H6.
  eapply books_repay in H6 as (L6 & Hi6 & _); [|exact L1|do 3 (eapply books_trans; [eassumption|]); exact Hb5].
  apply rbind_ok in H as ([nv s7] & H7 & H). apply dc_ok in H7.
  destruct (unlock_vested_books _ _ _ _ L6 H7) as (L7 & Hi7 & _). injection H as <- <-.
  assert (same s7 (if St.continue_deadline_cron s7 then s7 else St.set_cron_active false s7)) as Hs
    by (by destruct (St.continue_deadline_cron s7)).
  destruct (same_books _ _ Hs L7) as [L8 Hi8]. split; [done|].
  do 4 (eapply history_trans; [eassumption|]). done.
Qed.
