(* ===== verification/MinerPlan.v ===== *)
(** * The miner actor: the expiration queue refines a plan

    A plan gives each live sector of a partition the epoch at which it leaves
    and says whether it leaves early, as a faulty sector.  The queue of
    expiration_queue.rs groups the sectors by epoch and memoizes, for each
    epoch, the pledge, the power and the fee that leave.  [rep] says that a
    queue is the image of a plan: the memoized amounts are the sums over the
    sectors.  Each operation of the queue that succeeds refines an operation on
    plans: what a sector's slot becomes depends on that sector alone. *)

From stdpp Require Import sorting.
From S2P Require Import Prelude Runtime Collections MinerBase MinerQueues MinerEpochs MinerMoney.

Import Miner.

(** ** The weight of sets of sectors *)

Notation Infos := (gmap Z SectorOnChainInfo).

Section weights.
Context (size : Z).
Implicit Types (all : Infos) (X Y F : BitField) (l : list SectorOnChainInfo).

Definition power_of all (n : Z) : PowerPair := default pp_zero (power_for_sector size <$> all !! n).
Definition pledge_of all (n : Z) : Z := default 0 (initial_pledge <$> all !! n).
Definition fee_of all (n : Z) : Z := default 0 (daily_fee <$> all !! n).

Definition psum all X : PowerPair :=
  mkPP (ssum (fun n => raw (power_of all n)) X) (ssum (fun n => qa (power_of all n)) X).
Definition pledge_sum all X : Z := ssum (pledge_of all) X.
Definition fee_sum all X : Z := ssum (fee_of all) X.

Lemma psum_empty all : psum all ∅ = pp_zero.
Proof. unfold psum. by rewrite !ssum_empty. Qed.

Lemma psum_union all X Y : X ## Y -> psum all (X ∪ Y) = pp_add (psum all X) (psum all Y).
Proof. intros H. unfold psum, pp_add. cbn. by rewrite !ssum_union. Qed.

Lemma psum_diff all X Y : Y ⊆ X -> psum all (X ∖ Y) = pp_sub (psum all X) (psum all Y).
Proof. intros H. unfold psum, pp_sub. cbn. by rewrite !ssum_diff. Qed.

(** Two tables agree on a set. *)
Definition agree all all' X : Prop := forall n, n ∈ X -> all !! n = all' !! n.

Lemma psum_agree all all' X : agree all all' X -> psum all X = psum all' X.
Proof.
  intros H. unfold psum. f_equal; apply ssum_ext; intros n Hn; unfold power_of; by rewrite H.
Qed.

Lemma pledge_sum_agree all all' X : agree all all' X -> pledge_sum all X = pledge_sum all' X.
Proof. intros H. apply ssum_ext. intros n Hn. unfold pledge_of. by rewrite H. Qed.

Lemma fee_sum_agree all all' X : agree all all' X -> fee_sum all X = fee_sum all' X.
Proof. intros H. apply ssum_ext. intros n Hn. unfold fee_of. by rewrite H. Qed.

(** Infos that are those of the table. *)
Definition from_table all l : Prop := Forall (fun s => all !! sector_number s = Some s) l.

Definition numbers l : BitField := from_bits (sector_number <$> l).

Lemma elem_of_numbers l n : n ∈ numbers l <-> exists s, s ∈ l /\ sector_number s = n.
Proof. unfold numbers. rewrite elem_of_from_bits, list_elem_of_fmap. naive_solver. Qed.

(** The sums the code computes, over a list of infos without repetition. *)
Lemma sum_numbers (f : SectorOnChainInfo -> Z) (g : Z -> Z) l :
  (forall s, s ∈ l -> g (sector_number s) = f s) -> NoDup (sector_number <$> l) ->
  sum_list_Z (f <$> l) = ssum g (numbers l).
Proof.
  intros Hg Hd. unfold numbers. rewrite ssum_from_bits by done. clear Hd.
  induction l as [|s l IH]; [done|]. cbn. rewrite (Hg s) by left. f_equal. apply IH.
  intros. apply Hg. by right.
Qed.

Lemma foldl_sum (f : SectorOnChainInfo -> Z) l c :
  foldl (fun p s => p + f s) c l = c + sum_list_Z (f <$> l).
Proof. revert c. induction l as [|s l IH]; intros c; cbn; [lia|]. rewrite IH. unfold sum_list_Z. cbn. lia. Qed.

Lemma foldl_power l c :
  foldl (fun p s => pp_add p (power_for_sector size s)) c l =
  mkPP (raw c + sum_list_Z ((fun _ => size) <$> l)) (qa c + sum_list_Z (qa_power_for_sector size <$> l)).
Proof.
  revert c. induction l as [|s l IH]; intros c; cbn; [destruct c; cbn; f_equal; lia|].
  rewrite IH. unfold sum_list_Z. cbn. f_equal; lia.
Qed.

Lemma from_table_power all l (f : PowerPair -> Z) s :
  from_table all l -> s ∈ l -> f (power_of all (sector_number s)) = f (power_for_sector size s).
Proof.
  unfold from_table. rewrite Forall_forall. intros H Hs. unfold power_of. by rewrite (H s Hs).
Qed.

Lemma power_for_sectors_psum all l : from_table all l -> NoDup (sector_number <$> l) ->
  power_for_sectors size l = psum all (numbers l).
Proof.
  intros Ht Hd. unfold power_for_sectors, psum. f_equal.
  - rewrite <- (sum_numbers (fun _ => size)); [|by intros s Hs; rewrite (from_table_power all l raw)|done].
    clear. induction l as [|s l IH]; cbn [length fmap list_fmap]; unfold sum_list_Z in *; cbn [foldr]; [lia|].
    rewrite <- IH. lia.
  - apply sum_numbers; [|done]. intros s Hs. by rewrite (from_table_power all l qa).
Qed.

Lemma foldl_power_psum all l : from_table all l -> NoDup (sector_number <$> l) ->
  foldl (fun p s => pp_add p (power_for_sector size s)) pp_zero l = psum all (numbers l).
Proof.
  intros Ht Hd. rewrite foldl_power. unfold psum. cbn [raw qa pp_zero]. rewrite !Z.add_0_l.
  f_equal; apply sum_numbers; try done; intros s Hs.
  - by rewrite (from_table_power all l raw).
  - by rewrite (from_table_power all l qa).
Qed.

Lemma pledge_numbers all l : from_table all l -> NoDup (sector_number <$> l) ->
  foldl (fun p s => p + initial_pledge s) 0 l = pledge_sum all (numbers l).
Proof.
  intros Ht Hd. rewrite foldl_sum, Z.add_0_l. apply sum_numbers; [|done]. intros s Hs.
  unfold from_table in Ht. rewrite Forall_forall in Ht. unfold pledge_of. by rewrite (Ht s Hs).
Qed.

Lemma fee_numbers all l : from_table all l -> NoDup (sector_number <$> l) ->
  sum_list_Z (daily_fee <$> l) = fee_sum all (numbers l).
Proof.
  intros Ht Hd. apply sum_numbers; [|done]. intros s Hs.
  unfold from_table in Ht. rewrite Forall_forall in Ht. unfold fee_of. by rewrite (Ht s Hs).
Qed.

Lemma group_of_totals all e l : from_table all l -> NoDup (sector_number <$> l) ->
  EQ.group_of size e l =
  EQ.mkSES e (sector_number <$> l) (psum all (numbers l)) (pledge_sum all (numbers l)) (fee_sum all (numbers l)).
Proof.
  intros Ht Hd. unfold EQ.group_of. rewrite (foldl_power_psum all), (pledge_numbers all) by done.
  f_equal. rewrite foldl_sum, Z.add_0_l. by apply fee_numbers.
Qed.
End weights.

(** ** Plans *)

Record Slot : Type := mkSlot {
  slot_epoch : Z;
  slot_early : bool;
}.

#[export] Instance Slot_eq_dec : EqDecision Slot.
Proof. solve_decision. Defined.

Notation Plan := (gmap Z Slot).

Section plans.
Implicit Types (P : Plan) (X Y F : BitField) (s : Slot).

(** The sectors in a slot. *)
Definition held P (e : Z) (early : bool) : BitField := dom (filter (fun p => p.2 = mkSlot e early) P).

Definition place (e : Z) (early : bool) X P : Plan := gset_to_gmap (mkSlot e early) X ∪ P.
Definition drop_from X P : Plan := filter (fun p => p.1 ∉ X) P.
Definition remap (f : Z -> Slot -> Slot) P : Plan := map_imap (fun n s => Some (f n s)) P.

Lemma elem_of_held P e b n : n ∈ held P e b <-> P !! n = Some (mkSlot e b).
Proof.
  unfold held. rewrite elem_of_dom. split.
  - intros [s [H1 H2]%map_lookup_filter_Some]. cbn in H2. by subst.
  - intros H. exists (mkSlot e b). by apply map_lookup_filter_Some.
Qed.

Lemma lookup_place e b X P n :
  place e b X P !! n = if decide (n ∈ X) then Some (mkSlot e b) else P !! n.
Proof.
  unfold place. destruct (decide (n ∈ X)).
  - apply lookup_union_Some_l. by apply lookup_gset_to_gmap_Some.
  - apply lookup_union_r. by apply lookup_gset_to_gmap_None.
Qed.

Lemma lookup_drop_from X P n : drop_from X P !! n = if decide (n ∈ X) then None else P !! n.
Proof.
  unfold drop_from. destruct (decide (n ∈ X)).
  - apply map_lookup_filter_None. right. intros s _ H. by apply H.
  - destruct (P !! n) eqn:E; [by apply map_lookup_filter_Some|]. apply map_lookup_filter_None. by left.
Qed.

Lemma lookup_remap f P n : remap f P !! n = f n <$> P !! n.
Proof. unfold remap. rewrite map_lookup_imap. by destruct (P !! n). Qed.

Lemma held_disj P e b e' b' : mkSlot e b <> mkSlot e' b' -> held P e b ## held P e' b'.
Proof. intros H n H1 H2. rewrite elem_of_held in H1, H2. congruence. Qed.

Lemma held_disj_early P e : held P e false ## held P e true.
Proof. by apply held_disj. Qed.

(** Early slots are for faulty sectors; epochs are quantized and not negative. *)
Definition plan_ok (quant : QuantSpec) F P : Prop :=
  forall n s, P !! n = Some s ->
    0 <= slot_epoch s /\ quantize_up quant (slot_epoch s) = slot_epoch s /\
    (slot_early s = true -> n ∈ F).
End plans.

Lemma lookup_declared_dom (P : Plan) n s : P !! n = Some s -> n ∈ dom P.
Proof. intros H. apply elem_of_dom. by exists s. Qed.

(** ** Queues as images of plans *)

Section rep.
Context (size : Z).
Implicit Types (all : Infos) (P : Plan) (X Y F : BitField) (q : EQ.Queue).

Definition render all F (on early : BitField) : ExpirationSet :=
  mkES on early (pledge_sum all on) (psum size all (on ∖ F)) (psum size all ((on ∩ F) ∪ early))
    (fee_sum all (on ∪ early)).

Definition slot_set all F P (e : Z) : ExpirationSet := render all F (held P e false) (held P e true).

Definition rep all F P q : Prop :=
  forall e, q !! e = if es_is_empty (slot_set all F P e) then None else Some (slot_set all F P e).

Lemma render_empty all F : render all F ∅ ∅ = es_empty.
Proof.
  unfold render, es_empty, pledge_sum, fee_sum.
  assert ((∅ ∖ F : BitField) = ∅) as -> by set_solver.
  assert (((∅ ∩ F) ∪ ∅ : BitField) = ∅) as -> by set_solver.
  assert ((∅ ∪ ∅ : BitField) = ∅) as -> by set_solver.
  by rewrite psum_empty, !ssum_empty.
Qed.

Lemma es_is_empty_spec s : es_is_empty s = true <-> on_time_sectors s = ∅ /\ early_sectors s = ∅.
Proof. unfold es_is_empty, bf_empty. rewrite andb_true_iff, !bool_decide_eq_true. done. Qed.

Lemma slot_set_empty all F P e : es_is_empty (slot_set all F P e) = true -> slot_set all F P e = es_empty.
Proof. intros [H1 H2]%es_is_empty_spec. cbn in H1, H2. unfold slot_set. rewrite H1, H2. apply render_empty. Qed.

(** What the code reads: the entry of an epoch, empty when there is none. *)
Lemma rep_get all F P q e : rep all F P q -> default es_empty (q !! e) = slot_set all F P e.
Proof.
  intros H. rewrite H. destruct (es_is_empty _) eqn:E; [|done]. by rewrite slot_set_empty.
Qed.

Lemma rep_lookup all F P q e es : rep all F P q -> q !! e = Some es -> es = slot_set all F P e.
Proof. intros H E. rewrite H in E. destruct (es_is_empty _); [discriminate|congruence]. Qed.

Lemma rep_is_Some all F P q n s : rep all F P q -> P !! n = Some s -> is_Some (q !! slot_epoch s).
Proof.
  intros H Hn. rewrite H. destruct (es_is_empty _) eqn:E; [|by eexists].
  apply es_is_empty_spec in E as [E1 E2]. cbn in E1, E2. destruct s as [e []]; cbn in *.
  - apply elem_of_held in Hn. set_solver.
  - apply elem_of_held in Hn. set_solver.
Qed.

(** The entry of an epoch depends on the sectors held there. *)
Lemma render_ext all all' F F' on on' early early' :
  on = on' -> early = early' -> agree all all' (on ∪ early) ->
  (forall n, n ∈ on -> n ∈ F <-> n ∈ F') ->
  render all F on early = render all' F' on' early'.
Proof.
  intros <- <- Ha Hf. unfold render.
  assert (on ∖ F = on ∖ F') as <- by (apply set_eq; set_solver).
  assert ((on ∩ F) ∪ early = (on ∩ F') ∪ early) as <- by (apply set_eq; set_solver).
  rewrite (pledge_sum_agree all all' on), (psum_agree size all all' (on ∖ F)),
    (psum_agree size all all' ((on ∩ F) ∪ early)), (fee_sum_agree all all' (on ∪ early)); [done|..];
    intros n Hn; apply Ha; set_solver.
Qed.

Lemma rep_ext all all' F F' P q :
  rep all F P q -> agree all all' (dom P) -> (forall n, n ∈ dom P -> n ∈ F <-> n ∈ F') ->
  rep all' F' P q.
Proof.
  intros H Ha Hf e. rewrite H. unfold slot_set at 1 2.
  assert (render all F (held P e false) (held P e true) = slot_set all' F' P e) as ->; [|done].
  apply render_ext; [done|done|..].
  - intros n Hn. apply Ha. rewrite elem_of_union, !elem_of_held in Hn. apply elem_of_dom. naive_solver.
  - intros n Hn%elem_of_held. apply Hf, elem_of_dom. by eexists.
Qed.

(** An update of one entry that follows an update of the plan at one epoch. *)
Definition put (e : Z) (es : ExpirationSet) q : EQ.Queue :=
  if es_is_empty es then delete e q else <[e := es]> q.

Lemma rep_put all F F' P P' q e :
  rep all F P q ->
  (forall n e' b, e' <> e -> P' !! n = Some (mkSlot e' b) <-> P !! n = Some (mkSlot e' b)) ->
  (forall n e' b, e' <> e -> P !! n = Some (mkSlot e' b) -> n ∈ F <-> n ∈ F') ->
  rep all F' P' (put e (slot_set all F' P' e) q).
Proof.
  intros H Hp Hf e'. unfold put. destruct (decide (e' = e)) as [->|Hne].
  - destruct (es_is_empty _) eqn:E; [apply lookup_delete_eq|apply lookup_insert_eq].
  - assert (slot_set all F' P' e' = slot_set all F P e') as ->.
    { symmetry. apply render_ext; [..|by intros n _|].
      - apply set_eq. intros n. rewrite !elem_of_held. by rewrite Hp.
      - apply set_eq. intros n. rewrite !elem_of_held. by rewrite Hp.
      - intros n Hn%elem_of_held. by eapply Hf. }
    rewrite <- H. by destruct (es_is_empty _); [rewrite lookup_delete_ne|rewrite lookup_insert_ne].
Qed.
End rep.

(** ** Entries gain and lose sectors *)

Section entries.
Context (size : Z).
Implicit Types (all : Infos) (P : Plan) (X Y F on early : BitField) (q : EQ.Queue).

Lemma psum_split all X Y V : V = X ∪ Y -> X ## Y -> psum size all V = pp_add (psum size all X) (psum size all Y).
Proof. intros -> ?. by apply psum_union. Qed.

Lemma pledge_sum_union all X Y : X ## Y -> pledge_sum all (X ∪ Y) = pledge_sum all X + pledge_sum all Y.
Proof. apply ssum_union. Qed.

Lemma fee_sum_split all X Y V : V = X ∪ Y -> X ## Y -> fee_sum all V = fee_sum all X + fee_sum all Y.
Proof. intros -> ?. by apply ssum_union. Qed.

Lemma pp_add_zero p : pp_add p pp_zero = p.
Proof. destruct p. unfold pp_add. cbn. f_equal; lia. Qed.

Lemma pp_sub_zero p : pp_sub p pp_zero = p.
Proof. destruct p. unfold pp_sub. cbn. f_equal; lia. Qed.

Lemma pp_add_sub p r : pp_sub (pp_add p r) r = p.
Proof. destruct p. unfold pp_add, pp_sub. cbn. f_equal; lia. Qed.

Lemma pp_zero_add p : pp_add pp_zero p = p.
Proof. destruct p. unfold pp_add. cbn. f_equal; lia. Qed.

Lemma pp_add_comm p r : pp_add p r = pp_add r p.
Proof. unfold pp_add. f_equal; lia. Qed.

(** Sets of sectors decided pointwise. *)
Ltac set_ext :=
  apply set_eq; intros ?n;
  repeat first [rewrite elem_of_union|rewrite elem_of_intersection|rewrite elem_of_difference];
  set_unfold; try (split; intros; repeat match goal with
    | H : _ /\ _ |- _ => destruct H
    | H : _ \/ _ |- _ => destruct H
    end; naive_solver).

(** Active sectors enter. *)
Lemma render_gain all F on early X :
  X ## on -> X ## early -> X ## F -> on ## early ->
  render size all F (on ∪ X) early =
  mkES (on ∪ X) (early ∪ ∅) (pledge_sum all on + pledge_sum all X)
    (pp_add (psum size all (on ∖ F)) (psum size all X))
    (pp_add (psum size all ((on ∩ F) ∪ early)) pp_zero) (fee_sum all (on ∪ early) + fee_sum all X).
Proof.
  intros H1 H2 H3 H4. unfold render. rewrite pp_add_zero.
  rewrite (pledge_sum_union all on X) by set_solver.
  rewrite (psum_split all (on ∖ F) X ((on ∪ X) ∖ F)) by set_solver.
  rewrite (fee_sum_split all (on ∪ early) X (on ∪ X ∪ early)) by set_solver.
  assert (((on ∪ X) ∩ F) ∪ early = (on ∩ F) ∪ early) as -> by set_solver.
  assert (early ∪ ∅ = early) as -> by set_solver. done.
Qed.

(** Faulty sectors enter, to leave early. *)
Lemma render_gain_early all F on early X :
  X ## on -> X ## early -> on ## early ->
  render size all F on (early ∪ X) =
  mkES (on ∪ ∅) (early ∪ X) (pledge_sum all on + 0)
    (pp_add (psum size all (on ∖ F)) pp_zero)
    (pp_add (psum size all ((on ∩ F) ∪ early)) (psum size all X)) (fee_sum all (on ∪ early) + fee_sum all X).
Proof.
  intros H1 H2 H4. unfold render. rewrite pp_add_zero, Z.add_0_r.
  rewrite (psum_split all ((on ∩ F) ∪ early) X (on ∩ F ∪ (early ∪ X))) by set_solver.
  rewrite (fee_sum_split all (on ∪ early) X (on ∪ (early ∪ X))) by set_solver.
  assert (on ∪ ∅ = on) as -> by set_solver. done.
Qed.

(** Active sectors leave. *)
Lemma render_lose all F on early X :
  X ⊆ on -> X ## F -> on ## early ->
  render size all F (on ∖ X) early =
  mkES (on ∖ X) (early ∖ ∅) (pledge_sum all on - pledge_sum all X)
    (pp_sub (psum size all (on ∖ F)) (psum size all X))
    (pp_sub (psum size all ((on ∩ F) ∪ early)) pp_zero) (fee_sum all (on ∪ early) - fee_sum all X).
Proof.
  intros H1 H2 H3. unfold render. rewrite pp_sub_zero.
  unfold pledge_sum, fee_sum. rewrite (ssum_diff _ on X) by done.
  assert ((on ∖ X) ∖ F = (on ∖ F) ∖ X) as -> by set_solver. rewrite (psum_diff _ _ (on ∖ F) X) by set_solver.
  assert ((on ∖ X) ∪ early = (on ∪ early) ∖ X) as -> by (apply set_eq; set_solver).
  rewrite (ssum_diff _ (on ∪ early) X) by set_solver.
  assert (((on ∖ X) ∩ F) ∪ early = (on ∩ F) ∪ early) as -> by set_solver.
  assert (early ∖ ∅ = early) as -> by set_solver. done.
Qed.
End entries.

Section held.
Implicit Types (P : Plan) (X : BitField).

Lemma held_place P e b X e' b' :
  held (place e b X P) e' b' =
  if decide (mkSlot e' b' = mkSlot e b) then held P e' b' ∪ X else held P e' b' ∖ X.
Proof.
  apply set_eq. intros n. rewrite elem_of_held, lookup_place.
  destruct (decide (mkSlot e' b' = mkSlot e b)) as [E|E].
  - rewrite elem_of_union, elem_of_held, E. destruct (decide (n ∈ X)); naive_solver.
  - rewrite elem_of_difference, elem_of_held. destruct (decide (n ∈ X)); naive_solver.
Qed.

Lemma held_drop P X e b : held (drop_from X P) e b = held P e b ∖ X.
Proof.
  apply set_eq. intros n. rewrite elem_of_difference, !elem_of_held, lookup_drop_from.
  destruct (decide (n ∈ X)); naive_solver.
Qed.

Lemma held_dom P e b : held P e b ⊆ dom P.
Proof. intros n Hn%elem_of_held. apply elem_of_dom. by eexists. Qed.

Lemma diff_disj (X Y : BitField) : X ## Y -> Y ∖ X = Y.
Proof. set_solver. Qed.
End held.

Lemma to_key_inv e k : to_key e = Ok k -> k = e /\ 0 <= e.
Proof. unfold to_key. intros. minv. lia. Qed.

Ltac key_inv :=
  repeat match goal with H : to_key _ = Ok _ |- _ => apply to_key_inv in H as [-> ?] end.

(** ** The operations on single epochs *)

Section operations.
Context (size : Z) (quant : QuantSpec).
Implicit Types (all : Infos) (P : Plan) (X Y F : BitField) (q : EQ.Queue).

Lemma rep_place all F P q k b X :
  rep size all F P q -> X ## dom P -> X <> ∅ ->
  rep size all F (place k b X P) (<[k := slot_set size all F (place k b X P) k]> q).
Proof.
  intros Hr Hd Hx. set (P' := place k b X P).
  assert (put k (slot_set size all F P' k) q = <[k := slot_set size all F P' k]> q) as <-.
  { unfold put. destruct (es_is_empty _) eqn:Em; [|done]. exfalso. apply es_is_empty_spec in Em as [E1 E2].
    cbn in E1, E2. unfold P' in E1, E2. rewrite held_place in E1, E2.
    destruct b; [rewrite decide_True in E2 by done|rewrite decide_True in E1 by done]; set_solver. }
  apply (rep_put size all F F P P'); [done| |done].
  intros n e' b' Hne. unfold P'. rewrite lookup_place. destruct (decide (n ∈ X)) as [Hn|]; [|done].
  split; [congruence|]. intros ?%lookup_declared_dom. set_solver.
Qed.

Lemma held_outside P k b X : X ## dom P -> X ## held P k b.
Proof. pose proof (held_dom P k b). set_solver. Qed.

(** Active sectors are scheduled. *)
Lemma add_rep all F P q e X q' :
  rep size all F P q -> X ## dom P -> X ## F -> X <> ∅ ->
  EQ.add quant e X ∅ (psum size all X) pp_zero (pledge_sum all X) (fee_sum all X) q = Ok q' ->
  rep size all F (place (quantize_up quant e) false X P) q' /\ 0 <= quantize_up quant e.
Proof.
  intros Hr Hd Hf Hx H. unfold EQ.add, EQ.may_get, EQ.must_update, es_add in H. minv. key_inv.
  rewrite (rep_get size all F P) by done. split; [|done]. set (k := quantize_up quant e) in *.
  pose proof (rep_place all F P q k false X Hr Hd Hx) as Hp.
  unfold slot_set in Hp at 1. rewrite !held_place, decide_True, decide_False in Hp by done.
  rewrite diff_disj, render_gain in Hp; auto using held_outside, held_disj_early.
Qed.

(** Faulty sectors are scheduled to leave early. *)
Lemma add_early_rep all F P q e X q' :
  rep size all F P q -> X ## dom P -> X <> ∅ ->
  EQ.add quant e ∅ X pp_zero (psum size all X) 0 (fee_sum all X) q = Ok q' ->
  rep size all F (place (quantize_up quant e) true X P) q' /\ 0 <= quantize_up quant e.
Proof.
  intros Hr Hd Hx H. unfold EQ.add, EQ.may_get, EQ.must_update, es_add in H. minv. key_inv.
  rewrite (rep_get size all F P) by done. split; [|done]. set (k := quantize_up quant e) in *.
  pose proof (rep_place all F P q k true X Hr Hd Hx) as Hp.
  unfold slot_set in Hp at 1. rewrite !held_place, decide_False, decide_True in Hp by done.
  rewrite diff_disj, render_gain_early in Hp; auto using held_outside, held_disj_early.
Qed.

(** Sectors of one epoch leave it. *)
Lemma rep_drop all F F' P q k X :
  rep size all F P q -> (forall n s, n ∈ X -> P !! n = Some s -> slot_epoch s = k) ->
  (forall n s, P !! n = Some s -> slot_epoch s <> k -> n ∈ F <-> n ∈ F') ->
  rep size all F' (drop_from X P) (put k (slot_set size all F' (drop_from X P) k) q).
Proof.
  intros Hr Hx Hf. apply (rep_put size all F F' P); [done|..].
  - intros n e' b Hne. rewrite lookup_drop_from. destruct (decide (n ∈ X)) as [Hn|]; [|done].
    split; [done|]. intros H. specialize (Hx n _ Hn H). cbn in Hx. done.
  - intros n e' b Hne H. by eapply Hf.
Qed.

Lemma remove_rep all F P q e X q' :
  rep size all F P q -> quantize_up quant e = e -> X ⊆ held P e false -> X ## F ->
  EQ.remove quant e X ∅ (psum size all X) pp_zero (pledge_sum all X) (fee_sum all X) q = Ok q' ->
  rep size all F (drop_from X P) q'.
Proof.
  intros Hr Hq Hx Hf H.
  assert (q' = put e (slot_set size all F (drop_from X P) e) q) as ->.
  { pose proof (held_disj_early P e).
    unfold slot_set. rewrite !held_drop, render_lose by (set_solver || done).
    assert (held P e true ∖ X = held P e true) as -> by set_solver.
    unfold EQ.remove, EQ.must_update_or_delete, es_remove in H. rewrite Hq in H. unfold put.
    minv; key_inv. match goal with E : q !! e = Some _ |- _ => apply (rep_lookup size all F P) in E as -> end;
      [|done]. cbn [on_time_sectors early_sectors on_time_pledge active_power faulty_power fee_deduction slot_set render] in *.
    destruct (es_is_empty _); congruence. }
  apply (rep_drop all F); [done| |done].
  intros n s Hn Hs. apply Hx, elem_of_held in Hn. rewrite Hs in Hn. by injection Hn as ->.
Qed.
End operations.

Section totals.
Context (size : Z).
Implicit Types (all : Infos) (X Y : BitField).

Definition totals_of all X (t : EQ.Totals) : EQ.Totals :=
  EQ.mkTotals (EQ.t_sectors t ∪ X) (pp_add (EQ.t_power t) (psum size all X))
    (EQ.t_pledge t + pledge_sum all X) (EQ.t_fee t + fee_sum all X).

Lemma totals_of_empty all t : totals_of all ∅ t = t.
Proof.
  destruct t. unfold totals_of, pledge_sum, fee_sum. cbn. rewrite psum_empty, pp_add_zero, !ssum_empty.
  f_equal; [set_solver|lia|lia].
Qed.

Lemma totals_of_union all X Y t : X ## Y -> totals_of all Y (totals_of all X t) = totals_of all (X ∪ Y) t.
Proof.
  intros H. unfold totals_of, pledge_sum, fee_sum. cbn. rewrite psum_union, !ssum_union by done.
  unfold pp_add. cbn. f_equal; [set_solver|f_equal; lia|lia|lia].
Qed.

Lemma totals_of_none all X : totals_of all X EQ.no_totals =
  EQ.mkTotals X (psum size all X) (pledge_sum all X) (fee_sum all X).
Proof. unfold totals_of, EQ.no_totals. cbn. rewrite pp_zero_add. f_equal; set_solver. Qed.
End totals.

(** ** Scheduling sectors at their declared expirations *)

Section declare.
Context (size : Z) (quant : QuantSpec) (Hunit : 0 < unit_ quant).
Implicit Types (all : Infos) (P : Plan) (X Y F : BitField) (q : EQ.Queue) (l : list SectorOnChainInfo).

(** A queue that is the image of a well-formed plan. *)
Definition tracks all F P q : Prop := rep size all F P q /\ plan_ok quant F P.

Definition due (s : SectorOnChainInfo) : Z := quantize_up quant (expiration s).

Definition declare all X P : Plan :=
  filter (fun p => p.1 ∈ X) ((fun s => mkSlot (due s) false) <$> all) ∪ P.

Lemma lookup_declare all X P n :
  declare all X P !! n =
  match all !! n with
  | Some s => if decide (n ∈ X) then Some (mkSlot (due s) false) else P !! n
  | None => P !! n
  end.
Proof.
  unfold declare. destruct (all !! n) as [s|] eqn:E.
  - destruct (decide (n ∈ X)).
    + apply lookup_union_Some_l, map_lookup_filter_Some. rewrite lookup_fmap, E. done.
    + apply lookup_union_r, map_lookup_filter_None. right. by intros.
  - apply lookup_union_r, map_lookup_filter_None. left. by rewrite lookup_fmap, E.
Qed.

Lemma plan_ok_place F P e b X :
  plan_ok quant F P -> 0 <= quantize_up quant e -> (b = true -> X ⊆ F) ->
  plan_ok quant F (place (quantize_up quant e) b X P).
Proof.
  intros H He Hb n s. rewrite lookup_place. destruct (decide (n ∈ X)); [|by apply H].
  intros [= <-]. cbn. rewrite quantize_up_fix by done. set_solver.
Qed.

Lemma plan_ok_drop F F' P X :
  plan_ok quant F P -> (forall n, n ∈ dom P -> n ∉ X -> n ∈ F -> n ∈ F') ->
  plan_ok quant F' (drop_from X P).
Proof.
  intros H Hf n s. rewrite lookup_drop_from. destruct (decide (n ∈ X)); [done|]. intros Hs.
  destruct (H n s Hs) as (? & ? & ?). split_and!; [done|done|]. intros. apply Hf; auto.
  by eapply lookup_declared_dom.
Qed.

Lemma add_tracks all F P q e X q' :
  tracks all F P q -> X ## dom P -> X ## F -> X <> ∅ ->
  EQ.add quant e X ∅ (psum size all X) pp_zero (pledge_sum all X) (fee_sum all X) q = Ok q' ->
  tracks all F (place (quantize_up quant e) false X P) q'.
Proof.
  intros [Hr Hp] Hd Hf Hx H. edestruct add_rep as [H1 H2]; [done..|]. split; [done|].
  by apply plan_ok_place.
Qed.

Lemma add_early_tracks all F P q e X q' :
  tracks all F P q -> X ## dom P -> X ⊆ F -> X <> ∅ ->
  EQ.add quant e ∅ X pp_zero (psum size all X) 0 (fee_sum all X) q = Ok q' ->
  tracks all F (place (quantize_up quant e) true X P) q'.
Proof.
  intros [Hr Hp] Hd Hf Hx H. edestruct add_early_rep as [H1 H2]; [done..|]. split; [done|].
  by apply plan_ok_place.
Qed.

Lemma from_table_filter all l (p : SectorOnChainInfo -> Prop) `{forall s, Decision (p s)} :
  from_table all l -> from_table all (filter p l).
Proof. unfold from_table. rewrite !Forall_forall. intros Hl s [_ Hs]%list_elem_of_filter. auto. Qed.

Lemma NoDup_numbers_filter l (p : SectorOnChainInfo -> Prop) `{forall s, Decision (p s)} :
  NoDup (sector_number <$> l) -> NoDup (sector_number <$> filter p l).
Proof.
  induction l as [|s l IH]; [done|]. rewrite filter_cons, fmap_cons. intros [Hn Hl]%NoDup_cons.
  destruct (decide (p s)); [|auto]. rewrite fmap_cons. apply NoDup_cons. split; [|auto].
  intros (s' & E & [_ Hs']%list_elem_of_filter)%list_elem_of_fmap. apply Hn, list_elem_of_fmap. eauto.
Qed.

Lemma from_table_due all l s s' : from_table all l -> s ∈ l -> s' ∈ l ->
  sector_number s = sector_number s' -> s = s'.
Proof. unfold from_table. rewrite Forall_forall. intros H H1%H H2%H E. congruence. Qed.

(** The groups of some of the epochs. *)
Definition due_in (ks : list Z) l : BitField := numbers (filter (fun s => due s ∈ ks) l).

Lemma elem_of_due_in ks l n : n ∈ due_in ks l <-> exists s, s ∈ l /\ sector_number s = n /\ due s ∈ ks.
Proof. unfold due_in. rewrite elem_of_numbers. setoid_rewrite list_elem_of_filter. naive_solver. Qed.

Lemma due_in_table all ks l n s : from_table all l -> all !! n = Some s ->
  n ∈ due_in ks l <-> s ∈ l /\ sector_number s = n /\ due s ∈ ks.
Proof.
  unfold from_table. rewrite Forall_forall. intros Ht E. rewrite elem_of_due_in. split.
  - intros (s' & Hs & <- & Hk). rewrite (Ht s' Hs) in E. injection E as ->. auto.
  - intros (Hs & Hn & Hk). exists s. auto.
Qed.

Lemma due_in_None all ks l n : from_table all l -> all !! n = None -> n ∉ due_in ks l.
Proof.
  unfold from_table. rewrite Forall_forall. intros Ht E (s & Hs%Ht & Hn & _)%elem_of_due_in. congruence.
Qed.

Lemma declare_cons all P k ks l :
  from_table all l ->
  declare all (due_in ks l) (place k false (due_in [k] l) P) = declare all (due_in (k :: ks) l) P.
Proof.
  intros Ht. apply map_eq. intros n. rewrite !lookup_declare, lookup_place.
  destruct (all !! n) as [s|] eqn:E; [|by rewrite decide_False by (by eapply due_in_None)].
  pose proof (fun ks => due_in_table all ks l n s Ht E) as Hd.
  assert (n ∈ due_in (k :: ks) l <-> n ∈ due_in [k] l \/ n ∈ due_in ks l) as Hc.
  { rewrite !Hd, elem_of_cons, list_elem_of_singleton. tauto. }
  destruct (decide (n ∈ due_in ks l)); [by rewrite decide_True by tauto|].
  destruct (decide (n ∈ due_in [k] l)) as [D|]; [|by rewrite decide_False by tauto].
  rewrite decide_True by tauto. apply Hd in D as (_ & _ & D%list_elem_of_singleton). by rewrite D.
Qed.

Lemma due_in_cons k ks l : due_in (k :: ks) l = due_in [k] l ∪ due_in ks l.
Proof.
  apply set_eq. intros n. rewrite elem_of_union, !elem_of_due_in. setoid_rewrite elem_of_cons.
  setoid_rewrite elem_of_nil. naive_solver.
Qed.

Lemma due_in_disj all k ks l : from_table all l -> k ∉ ks -> due_in [k] l ## due_in ks l.
Proof.
  intros Ht Hk n (s & Hs & Hn & Hd%list_elem_of_singleton)%elem_of_due_in (s' & Hs' & Hn' & Hd')%elem_of_due_in.
  assert (s = s') by (apply (from_table_due all l); congruence). congruence.
Qed.

Lemma declare_nil all P l : declare all (due_in [] l) P = P.
Proof.
  apply map_eq. intros n. rewrite lookup_declare. destruct (all !! n); [|done].
  rewrite decide_False; [done|]. by intros (s' & _ & _ & ?%elem_of_nil)%elem_of_due_in.
Qed.

Lemma add_groups_tracks all F l ks : from_table all l -> NoDup (sector_number <$> l) -> NoDup ks ->
  forall P q t t' q', tracks all F P q -> due_in ks l ## dom P -> due_in ks l ## F ->
  (forall k, k ∈ ks -> quantize_up quant k = k /\ exists s, s ∈ l /\ due s = k) ->
  rfold (fun '(t, q) g =>
    let! q := EQ.add quant (EQ.ses_epoch g) (from_bits (EQ.ses_sectors g)) ∅ (EQ.ses_power g) pp_zero
                (EQ.ses_pledge g) (EQ.ses_daily_fee g) q in
    Ok (EQ.add_totals t g, q)) (t, q)
    ((fun e => EQ.group_of size e (filter (fun s => quantize_up quant (expiration s) = e) l)) <$> ks)
    = Ok (t', q') ->
  t' = totals_of size all (due_in ks l) t /\ tracks all F (declare all (due_in ks l) P) q'.
Proof.
  intros Ht Hd. induction ks as [|k ks IH]; intros Hk P q t t' q' Hq HP HF He H.
  { cbn in H. injection H as <- <-. rewrite declare_nil. split; [|done].
    assert (due_in [] l = ∅) as ->; [|by rewrite totals_of_empty].
    apply set_eq. intros n. rewrite elem_of_due_in. setoid_rewrite elem_of_nil. set_solver. }
  apply NoDup_cons in Hk as [Hk Hks]. rewrite (due_in_cons k ks) in HP, HF.
  apply disjoint_union_l in HP as [HP HP'], HF as [HF HF']. rewrite fmap_cons in H. cbn [rfold] in H.
  rewrite (group_of_totals size all) in H by auto using from_table_filter, NoDup_numbers_filter.
  assert (numbers (filter (fun s => quantize_up quant (expiration s) = k) l) = due_in [k] l) as En.
  { unfold due_in. f_equal. apply list_filter_iff. intros s. rewrite list_elem_of_singleton. done. }
  rewrite En in H. unfold numbers in En. cbn [EQ.ses_epoch EQ.ses_sectors EQ.ses_power EQ.ses_pledge EQ.ses_daily_fee] in H.
  rewrite En in H. res_inv. cbn [EQ.ses_epoch EQ.ses_sectors EQ.ses_power EQ.ses_pledge EQ.ses_daily_fee] in *.
  destruct (He k) as [Eq (s0 & Hs0 & Es0)]; [left|].
  assert (due_in [k] l <> ∅) as Hne.
  { intros Em. assert (sector_number s0 ∈ due_in [k] l) as Hi; [|by rewrite Em in Hi].
    apply elem_of_due_in. exists s0. rewrite list_elem_of_singleton. auto. }
  pose proof (add_tracks all F P q k (due_in [k] l) x0 Hq HP HF Hne H1) as Hx. rewrite Eq in Hx.
  eapply IH in H as [-> H]; [|done|done| |done|by intros; apply He; right].
  - rewrite declare_cons in H by done. split; [|done]. rewrite (due_in_cons k ks).
    rewrite <- totals_of_union by (by eapply due_in_disj).
    f_equal. unfold EQ.add_totals. cbn [EQ.ses_sectors]. by rewrite En.
  - intros n Hn Hdm. apply elem_of_dom in Hdm as [s Hs]. rewrite lookup_place in Hs.
    pose proof (due_in_disj all k ks l Ht Hk n) as Hdj. case_decide; [by apply Hdj|].
    apply lookup_declared_dom in Hs. by apply (HP' n).
Qed.

(** [add_active_sectors] schedules each sector at its declared expiration. *)
Lemma add_active_sectors_tracks all F P q l t q' :
  from_table all l -> NoDup (sector_number <$> l) -> tracks all F P q ->
  numbers l ## dom P -> numbers l ## F ->
  EQ.add_active_sectors quant size l q = Ok (t, q') ->
  t = EQ.mkTotals (numbers l) (psum size all (numbers l)) (pledge_sum all (numbers l)) (fee_sum all (numbers l)) /\
  tracks all F (declare all (numbers l) P) q'.
Proof.
  intros Ht Hd Hq HP HF H. unfold EQ.add_active_sectors, EQ.group_new_sectors_by_declared_expiration in H.
  assert (due_in (EQ.declared_epochs quant l) l = numbers l) as E.
  { apply set_eq. intros n. rewrite elem_of_due_in, elem_of_numbers.
    split; [naive_solver|]. intros (s & Hs & Hn). exists s. split_and!; [done..|].
    unfold EQ.declared_epochs. apply elem_of_bits, elem_of_from_bits, list_elem_of_fmap. eauto. }
  rewrite <- totals_of_none, <- E. eapply add_groups_tracks; [done|done|apply NoDup_bits|done|by rewrite E..| |done].
  intros k Hk. unfold EQ.declared_epochs in Hk. rewrite elem_of_bits, elem_of_from_bits, list_elem_of_fmap in Hk.
  destruct Hk as (s & -> & Hs). rewrite quantize_up_fix by done. eauto.
Qed.
End declare.

(** ** Finding sectors in the queue *)

Section find.
Context (size : Z) (quant : QuantSpec).
Implicit Types (all : Infos) (P : Plan) (X Y R F : BitField) (q : EQ.Queue) (l : list SectorOnChainInfo).

Lemma by_number_elem l n s : EQ.by_number l !! n = Some s -> s ∈ l /\ sector_number s = n.
Proof.
  unfold EQ.by_number. induction l as [|s' l IH] using rev_ind; [done|].
  rewrite foldl_snoc. intros [[<- <-]|[_ [H <-]%IH]]%lookup_insert_Some; split; auto; apply elem_of_app; [right; left|by left].
Qed.

Lemma by_number_Some all l n s : from_table all l -> EQ.by_number l !! n = Some s ->
  s ∈ l /\ sector_number s = n /\ all !! n = Some s.
Proof.
  unfold from_table. rewrite Forall_forall. intros Ht [Hs <-]%by_number_elem. auto.
Qed.

Definition group_at all F P X (e : Z) : EQ.SectorExpirationSet :=
  EQ.mkSXS (EQ.mkSES e (filter (fun n => n ∈ X) (bits (held P e false)))
              (psum size all (held P e false ∩ X)) (pledge_sum all (held P e false ∩ X))
              (fee_sum all (held P e false ∩ X)))
    (slot_set size all F P e).

Lemma filter_bits X Y : from_bits (filter (fun n => n ∈ X) (bits Y)) = Y ∩ X.
Proof.
  apply set_eq. intros n. rewrite elem_of_from_bits, list_elem_of_filter, elem_of_bits. set_solver.
Qed.

Lemma rfold_infos (m : Infos) ns acc infos :
  rfold (fun acc u => let! s := expect (m !! u) in Ok (acc ++ [s])) acc ns = @Ok MErr _ infos ->
  exists l, infos = acc ++ l /\ Forall2 (fun n s => m !! n = Some s) ns l.
Proof.
  revert acc. induction ns as [|n ns IH]; intros acc H; cbn in H; res_inv.
  - exists []. by rewrite app_nil_r.
  - apply IH in H as (l & -> & Hl). exists (x0 :: l). rewrite <- app_assoc. split; [done|].
    by constructor.
Qed.

Lemma infos_numbers all l ns infos : from_table all l ->
  Forall2 (fun n s => EQ.by_number l !! n = Some s) ns infos ->
  sector_number <$> infos = ns /\ from_table all infos.
Proof.
  intros Ht. unfold from_table. induction 1 as [|n s ns infos H _ [IH1 IH2]]; [done|].
  apply (by_number_Some all) in H as (_ & Hn & Ha); [|done]. cbn. rewrite IH1, Hn. split; [done|].
  constructor; [by rewrite Hn|done].
Qed.

Lemma group_expiration_set_spec all F P X l e g X' :
  from_table all l ->
  EQ.group_expiration_set size (EQ.by_number l) X (slot_set size all F P e) e = Ok (g, X') ->
  g = group_at all F P X e /\ X' = X ∖ held P e false.
Proof.
  intros Ht H. unfold EQ.group_expiration_set in H. res_inv.
  apply rfold_infos in H0 as (l' & -> & Hl). apply (infos_numbers all) in Hl as [Hn Hl]; [|done].
  cbn [app]. cbn [slot_set render on_time_sectors] in *.
  assert (NoDup (sector_number <$> l')) as Hd by (rewrite Hn; apply NoDup_filter, NoDup_bits).
  rewrite (foldl_power_psum size all), (pledge_numbers all), foldl_sum, Z.add_0_l, (fee_numbers all) by done.
  unfold numbers. rewrite Hn, filter_bits. split; [done|]. set_solver.
Qed.

Lemma group_at_ext all F P X Y e :
  (forall n, n ∈ held P e false -> n ∈ X <-> n ∈ Y) -> group_at all F P X e = group_at all F P Y e.
Proof.
  intros H. unfold group_at.
  assert (held P e false ∩ X = held P e false ∩ Y) as -> by (apply set_eq; set_solver).
  do 2 f_equal. assert (forall n, n ∈ bits (held P e false) -> n ∈ X <-> n ∈ Y) as H'.
  { intros n Hn%elem_of_bits. auto. }
  clear H. induction (bits (held P e false)) as [|n ns IH]; [done|]. rewrite !filter_cons.
  rewrite IH by (intros; apply H'; by right). pose proof (H' n ltac:(left)).
  repeat case_decide; tauto || done.
Qed.

(** The epochs at which sectors of [X] are to leave on time, among some. *)
Definition found P X (ks : list Z) : list Z := filter (fun e => held P e false ∩ X <> ∅) ks.

(** What has been found after looking at the epochs [ks]. *)
Definition searched all F P X (ks : list Z) (acc : list EQ.SectorExpirationSet * BitField) : Prop :=
  acc.1 = group_at all F P X <$> found P X ks /\
  (forall n, n ∈ acc.2 <-> n ∈ X /\ forall e, e ∈ ks -> n ∉ held P e false).

Lemma search_step all F P X ks groups R l e g R' :
  from_table all l -> e ∉ ks -> searched all F P X ks (groups, R) ->
  EQ.group_expiration_set size (EQ.by_number l) R (slot_set size all F P e) e = Ok (g, R') ->
  searched all F P X (ks ++ [e]) (EQ.push_group g groups, R').
Proof.
  intros Ht He [Hg HR] H. cbn in Hg, HR.
  apply (group_expiration_set_spec all) in H as [-> ->]; [|done].
  assert (group_at all F P R e = group_at all F P X e) as ->.
  { apply group_at_ext. intros n Hn. rewrite HR. split; [naive_solver|]. intros. split; [done|].
    intros e' He' Hn'. apply elem_of_held in Hn, Hn'. congruence. }
  split; cbn.
  - unfold EQ.push_group, found. rewrite filter_app, filter_cons. cbn.
    assert (filter (fun n => n ∈ X) (bits (held P e false)) = [] <-> held P e false ∩ X = ∅) as Hem.
    { rewrite <- filter_bits. unfold from_bits. destruct (filter _ _); [done|]. split; [done|]. set_solver. }
    case_decide as D.
    + destruct (filter _ _); [tauto|]. rewrite fmap_app. by rewrite Hg.
    + assert (held P e false ∩ X = ∅) as Z0 by (destruct (decide (held P e false ∩ X = ∅)); tauto).
      apply Hem in Z0. rewrite Z0. by rewrite app_nil_r.
  - intros n. rewrite elem_of_difference, HR. setoid_rewrite elem_of_app. setoid_rewrite list_elem_of_singleton.
    naive_solver.
Qed.

Lemma search_declared all F P X q l todo : from_table all l -> rep size all F P q ->
  forall ks acc acc', NoDup (ks ++ todo) -> searched all F P X ks acc ->
  rfold (fun '(groups, remaining) e =>
      let! es := EQ.may_get e q in
      let! (g, remaining) := EQ.group_expiration_set size (EQ.by_number l) remaining es e in
      Ok (EQ.push_group g groups, remaining)) acc todo = Ok acc' ->
  searched all F P X (ks ++ todo) acc'.
Proof.
  intros Ht Hr. induction todo as [|e todo IH]; intros ks [groups R] acc' Hd Hs H.
  { cbn in H. injection H as <-. by rewrite app_nil_r. }
  cbn [rfold] in H. unfold EQ.may_get in H. minv. key_inv.
  rewrite (rep_get size all F P) in * by done.
  replace (ks ++ e :: todo) with ((ks ++ [e]) ++ todo) in * by (by rewrite <- app_assoc).
  eapply IH; [done| |done]. eapply search_step; [done| |done|done].
  apply NoDup_app in Hd as (Hd & _ & _). apply NoDup_app in Hd as (_ & Hd & _).
  intros He. apply (Hd e He). left.
Qed.

Lemma search_others all F P X q l (declared : list Z) ents : from_table all l -> rep size all F P q ->
  (forall e es, (e, es) ∈ ents -> q !! e = Some es) -> NoDup ents.*1 ->
  forall ks acc acc', NoDup ks -> (forall e, e ∈ ents.*1 -> e ∉ declared -> e ∉ ks) ->
  searched all F P X ks acc ->
  for_each_while (fun '(groups, remaining) epoch es =>
        if bool_decide (epoch ∈ declared) then Ok ((groups, remaining), true)
        else
          let! _ := EQ.check_no_early_sectors remaining es in
          let! (g, remaining) := EQ.group_expiration_set size (EQ.by_number l) remaining es epoch in
          Ok ((EQ.push_group g groups, remaining), negb (bf_empty remaining))) acc ents = Ok acc' ->
  exists ks', NoDup ks' /\ searched all F P X ks' acc'.
Proof.
  intros Ht Hr. induction ents as [|[e es] ents IH]; intros He Hd ks [groups R] acc' Hk Hn Hs H.
  { cbn in H. injection H as <-. eauto. }
  cbn [fmap list_fmap] in Hd. apply NoDup_cons in Hd as [Hd Hd']. cbn in Hd.
  assert (forall e es, (e, es) ∈ ents -> q !! e = Some es) as He' by (intros; apply He; by right).
  cbn [for_each_while] in H. case_bool_decide as D.
  { eapply IH; [done|done|done| |done|done]. intros. apply Hn; [by right|done]. }
  assert (e ∉ ks) as Hek by (apply Hn; [left|done]).
  rewrite (rep_lookup size all F P q e es) in H by (done || apply He; left). res_inv.
  assert (searched all F P X (ks ++ [e]) (EQ.push_group s groups, g)) as Hs' by (by eapply search_step).
  assert (NoDup (ks ++ [e])) as Hk'.
  { apply NoDup_app. split_and!; [done| |apply NoDup_singleton]. intros x Hx ->%list_elem_of_singleton. done. }
  destruct (negb (bf_empty _)); [|injection H as <-; eauto].
  eapply IH; [done|done|exact Hk'| |done|done].
  intros e' Hi Hj [Hl|Hl%list_elem_of_singleton]%elem_of_app; [by apply (Hn e'); [right|..]|].
  subst. done.
Qed.

(** [find_sectors_by_expiration]: the sectors, all of them scheduled to leave
    on time, in groups by epoch. *)
Lemma find_sectors_spec all F P q l gs :
  from_table all l -> rep size all F P q -> EQ.find_sectors_by_expiration quant size l q = Ok gs ->
  exists ks, gs = group_at all F P (numbers l) <$> ks /\ NoDup ks /\
    (forall e, e ∈ ks -> held P e false ∩ numbers l <> ∅) /\
    (forall n, n ∈ numbers l -> exists e, e ∈ ks /\ n ∈ held P e false).
Proof.
  intros Ht Hr H. unfold EQ.find_sectors_by_expiration in H. set (X := numbers l) in *.
  set (declared := EQ.declared_epochs quant l) in *. apply rbind_ok in H as ([groups R] & H1 & H).
  assert (searched all F P X declared (groups, R)) as Hs.
  { apply (search_declared all F P X q l declared Ht Hr []) in H1; [done|apply NoDup_bits|].
    split; cbn; [done|]. intros n. split; [|naive_solver]. split; [done|]. by intros e ?%elem_of_nil. }
  clear H1. apply rbind_ok in H as ([groups' R'] & H1 & H).
  assert (exists ks, NoDup ks /\ searched all F P X ks (groups', R')) as (ks & Hk & [Hg HR]).
  { destruct (bf_empty R); [injection H1 as <- <-; eexists; split; [apply NoDup_bits|done]|].
    eapply (search_others all F P X q l declared); [done|done| |apply NoDup_entries| | |exact Hs|exact H1].
    - intros e es. apply elem_of_entries.
    - apply NoDup_bits.
    - tauto. }
  cbn in Hg, HR. destruct (negb (bf_empty R')) eqn:E; [discriminate|]. injection H as <-.
  apply negb_false_iff, bool_decide_eq_true in E.
  pose proof (@merge_sort_Permutation _ EQ.epoch_le EQ.epoch_le_dec groups') as Hp. rewrite Hg in Hp at 2.
  apply Permutation_map_inv in Hp as (ks' & E' & Hp). exists ks'. split; [done|]. split_and!.
  - rewrite <- Hp. apply NoDup_filter. done.
  - intros e He. rewrite <- Hp in He. by apply list_elem_of_filter in He as [? _].
  - intros n Hn. destruct (decide (Exists (fun e => n ∈ held P e false) ks)) as [D|D].
    + apply Exists_exists in D as (e & He & Hne). exists e. split; [|done]. rewrite <- Hp.
      apply list_elem_of_filter. split; [set_solver|done].
    + exfalso. assert (n ∈ R') as Hn'; [|set_solver]. apply HR. split; [done|].
      intros e He Hne. apply D, Exists_exists. eauto.
Qed.
End find.

(** ** Removing and rescheduling active sectors *)

Section taken.
Implicit Types (P Q : Plan) (X Y : BitField).

(** The sectors of [X] that leave on time at the epochs [ks]. *)
Definition taken P X (ks : list Z) : BitField := ⋃ ((fun e => held P e false ∩ X) <$> ks).

Lemma elem_of_taken P X ks n : n ∈ taken P X ks <-> n ∈ X /\ exists e, e ∈ ks /\ P !! n = Some (mkSlot e false).
Proof.
  unfold taken. rewrite elem_of_union_list. split.
  - intros (Y & (e & -> & He)%list_elem_of_fmap & [Hn ?]%elem_of_intersection). apply elem_of_held in Hn. eauto.
  - intros (Hx & e & He & Hn%elem_of_held). exists (held P e false ∩ X). split; [|set_solver].
    apply list_elem_of_fmap. eauto.
Qed.

Lemma taken_cons P X k ks : taken P X (k :: ks) = (held P k false ∩ X) ∪ taken P X ks.
Proof. done. Qed.

Lemma taken_disj P X k ks : k ∉ ks -> (held P k false ∩ X) ## taken P X ks.
Proof.
  intros Hk n [Hn _]%elem_of_intersection (_ & e & He & Hn')%elem_of_taken.
  apply elem_of_held in Hn. congruence.
Qed.

Lemma taken_all P X ks : (forall n, n ∈ X -> exists e, e ∈ ks /\ n ∈ held P e false) -> taken P X ks = X.
Proof.
  intros H. apply set_eq. intros n. rewrite elem_of_taken. split; [tauto|]. intros Hn. split; [done|].
  destruct (H n Hn) as (e & He & Hh%elem_of_held). eauto.
Qed.

Lemma drop_drop X Y P : drop_from X (drop_from Y P) = drop_from (Y ∪ X) P.
Proof.
  apply map_eq. intros n. rewrite !lookup_drop_from. repeat case_decide; set_solver.
Qed.

(** The plan still has the sectors of [X] at the epochs [ks] in their places. *)
Definition still P Q (ks : list Z) : Prop :=
  forall e n, e ∈ ks -> n ∈ held P e false -> Q !! n = Some (mkSlot e false).

Lemma drop_empty P : drop_from ∅ P = P.
Proof. apply map_eq. intros n. by rewrite lookup_drop_from. Qed.
End taken.

Section reschedule.
Context (size : Z) (quant : QuantSpec) (Hunit : 0 < unit_ quant).
Implicit Types (all : Infos) (P Q : Plan) (X Y R F : BitField) (q : EQ.Queue) (l : list SectorOnChainInfo).

Lemma remove_groups all F P X ks : X ## F ->
  forall Q q t t' q', tracks size quant all F Q q -> NoDup ks -> still P Q ks ->
  rfold (fun '(t, q) group =>
    let g := EQ.sector_epoch_set group in
    let! q := EQ.remove quant (EQ.ses_epoch g) (from_bits (EQ.ses_sectors g)) ∅ (EQ.ses_power g) pp_zero
                (EQ.ses_pledge g) (EQ.ses_daily_fee g) q in
    Ok (EQ.add_totals t g, q)) (t, q) (group_at size all F P X <$> ks) = Ok (t', q') ->
  (forall e, e ∈ ks -> held P e false ∩ X <> ∅) ->
  t' = totals_of size all (taken P X ks) t /\ tracks size quant all F (drop_from (taken P X ks) Q) q'.
Proof.
  intros HF. induction ks as [|k ks IH]; intros Q q t t' q' Hq Hd Hs H Hn.
  { cbn in H. injection H as <- <-. unfold taken. cbn. by rewrite totals_of_empty, drop_empty. }
  apply NoDup_cons in Hd as [Hk Hd]. rewrite fmap_cons in H. cbn [rfold group_at EQ.sector_epoch_set] in H.
  cbn [EQ.ses_epoch EQ.ses_sectors EQ.ses_power EQ.ses_pledge EQ.ses_daily_fee] in H. rewrite filter_bits in H.
  res_inv. destruct Hq as [Hr Hp].
  assert (held P k false ∩ X ⊆ held Q k false) as Hsub.
  { intros n [Hi _]%elem_of_intersection. apply elem_of_held. apply Hs; [left|done]. }
  assert (quantize_up quant k = k) as Eq.
  { destruct (set_choose_L (held P k false ∩ X)) as [n Hi]; [apply Hn; left|]. apply Hsub, elem_of_held in Hi. by apply Hp in Hi as (_ & ? & _). }
  pose proof (remove_rep size quant all F Q q k _ _ Hr Eq Hsub ltac:(set_solver) H1) as Hx.
  eapply (IH (drop_from (held P k false ∩ X) Q)) in H as [-> H].
  - rewrite taken_cons, drop_drop in *. split; [|done].
    rewrite <- totals_of_union by (by apply taken_disj). f_equal. unfold EQ.add_totals. cbn. by rewrite filter_bits.
  - split; [done|]. by apply (plan_ok_drop quant F).
  - done.
  - intros e n He Hi. rewrite lookup_drop_from. case_decide as D; [|by apply Hs; [right|]].
    apply elem_of_intersection in D as [D _]. apply elem_of_held in D, Hi. congruence.
  - intros. apply Hn. by right.
Qed.

(** [remove_active_sectors] takes the sectors out of the plan. *)
Lemma remove_active_sectors_tracks all F P q l t q' :
  from_table all l -> tracks size quant all F P q -> numbers l ## F ->
  EQ.remove_active_sectors quant size l q = Ok (t, q') ->
  t = EQ.mkTotals (numbers l) (psum size all (numbers l)) (pledge_sum all (numbers l)) (fee_sum all (numbers l)) /\
  tracks size quant all F (drop_from (numbers l) P) q' /\
  (forall n, n ∈ numbers l -> exists e, P !! n = Some (mkSlot e false)).
Proof.
  intros Ht Hq HF H. unfold EQ.remove_active_sectors in H. apply rbind_ok in H as (gs & Hf & H).
  apply (find_sectors_spec size quant all F P) in Hf as (ks & -> & Hd & Hn & Ha); [|done|apply Hq].
  eapply remove_groups in H as [-> H]; [|done|done|done| |done].
  - rewrite (taken_all _ _ _ Ha) in *. rewrite totals_of_none. split_and!; [done..|].
    intros n Hi. destruct (Ha n Hi) as (e & _ & He%elem_of_held). eauto.
  - intros e n _. apply elem_of_held.
Qed.

(** [reschedule_expirations] moves active sectors to a new epoch. *)
Lemma reschedule_expirations_tracks all F P q l e q' :
  from_table all l -> tracks size quant all F P q -> numbers l ## F ->
  EQ.reschedule_expirations quant size e l q = Ok q' ->
  tracks size quant all F (place (quantize_up quant e) false (numbers l) P) q' /\ numbers l ⊆ dom P.
Proof.
  intros Ht Hq HF H. unfold EQ.reschedule_expirations in H. destruct l as [|s l'] eqn:El.
  { injection H as <-. split; [|done].
    assert (place (quantize_up quant e) false (numbers []) P = P) as ->; [|done].
    apply map_eq. intros n. rewrite lookup_place, decide_False; done. }
  rewrite <- El in *. assert (numbers l <> ∅) as Hne.
  { assert (sector_number s ∈ numbers l); [|set_solver]. apply elem_of_numbers. exists s. subst. split; [left|done]. }
  clear El. res_inv. destruct (remove_active_sectors_tracks all F P q l _ _ Ht Hq HF H0) as (-> & Hq1 & Ha).
  cbn [EQ.t_sectors EQ.t_power EQ.t_pledge EQ.t_fee] in H.
  assert (numbers l ## dom (drop_from (numbers l) P)) as Hdj.
  { intros n Hn [s' Hs']%elem_of_dom. rewrite lookup_drop_from, decide_True in Hs' by done. done. }
  pose proof (add_tracks size quant Hunit all F _ _ e _ _ Hq1 Hdj HF Hne H) as Hq2. split.
  - assert (place (quantize_up quant e) false (numbers l) (drop_from (numbers l) P) =
            place (quantize_up quant e) false (numbers l) P) as <-; [|done].
    apply map_eq. intros n. rewrite !lookup_place, lookup_drop_from. by case_decide.
  - intros n Hn. destruct (Ha n Hn) as (? & ?). by eapply lookup_declared_dom.
Qed.
End reschedule.
