(* ===== verification/MinerPlanOps.v ===== *)
(** * The miner actor: faults in the plan

    The operations of expiration_queue.rs that record faults refine an operation
    on plans: a faulty sector leaves at the latest by a given epoch, early when
    its declared expiration is later. *)

From S2P Require Import Prelude Runtime Collections MinerBase MinerQueues MinerEpochs MinerMoney MinerPlan.

Import Miner.

(** ** Faults *)

Section fault_groups.
Context (size : Z).
Implicit Types (all : Infos) (P Q : Plan) (X Y G R F : BitField) (q : EQ.Queue) (l : list SectorOnChainInfo).

(** A fault leaves by the epoch [e], early if that is before its expiration. *)
Definition fault_slot (e : Z) (s : Slot) : Slot := if slot_epoch s <=? e then s else mkSlot e true.

Definition fault (e : Z) X P : Plan := remap (fun n s => if decide (n ∈ X) then fault_slot e s else s) P.

(** Active sectors become faulty in their place. *)
Lemma render_fault all F on early G :
  G ⊆ on -> G ## F -> on ## early ->
  render size all (F ∪ G) on early =
  mkES on early (pledge_sum all on) (pp_sub (psum size all (on ∖ F)) (psum size all G))
    (pp_add (psum size all ((on ∩ F) ∪ early)) (psum size all G)) (fee_sum all (on ∪ early)).
Proof.
  intros H1 H2 H3. unfold render.
  assert (on ∖ (F ∪ G) = (on ∖ F) ∖ G) as -> by set_solver. rewrite (psum_diff _ _ (on ∖ F) G) by set_solver.
  rewrite (psum_split size all ((on ∩ F) ∪ early) G ((on ∩ (F ∪ G)) ∪ early)); [done| |set_solver].
  apply set_eq. set_solver.
Qed.

(** Active sectors become faulty and leave the entry. *)
Lemma render_fault_lose all F on early G :
  G ⊆ on -> G ## F -> on ## early ->
  render size all (F ∪ G) (on ∖ G) early =
  mkES (on ∖ G) early (pledge_sum all on - pledge_sum all G)
    (pp_sub (psum size all (on ∖ F)) (psum size all G)) (psum size all ((on ∩ F) ∪ early))
    (fee_sum all (on ∪ early) - fee_sum all G).
Proof.
  intros H1 H2 H3.
  rewrite (render_ext size all all (F ∪ G) F (on ∖ G) (on ∖ G) early early); [|done|done|by intros ?|set_solver].
  rewrite render_lose by done. rewrite pp_sub_zero. f_equal. set_solver.
Qed.

Definition late (e : Z) (ks : list Z) : list Z := filter (fun k => e < k) ks.
Definition soon (e : Z) (ks : list Z) : list Z := filter (fun k => k <= e) ks.

Definition fault_totals_of all (moved stay : BitField) (t t' : EQ.FaultTotals) : Prop :=
  from_bits (EQ.ft_sectors t') = from_bits (EQ.ft_sectors t) ∪ moved /\
  EQ.ft_expiring t' = pp_add (EQ.ft_expiring t) (psum size all stay) /\
  EQ.ft_rescheduled t' = pp_add (EQ.ft_rescheduled t) (psum size all moved) /\
  EQ.ft_fee t' = EQ.ft_fee t + fee_sum all moved.

Lemma must_update_or_delete_put k es q q' :
  EQ.must_update_or_delete k es q = Ok q' -> q' = put k es q /\ 0 <= k.
Proof.
  unfold EQ.must_update_or_delete, put. intros H. minv. key_inv. destruct (es_is_empty es); split; congruence.
Qed.

Lemma from_bits_app (l1 l2 : list Z) : from_bits (l1 ++ l2) = from_bits l1 ∪ from_bits l2.
Proof. apply list_to_set_app_L. Qed.

Lemma fault_totals_stay all G t :
  fault_totals_of all ∅ G t
    (EQ.mkFT (EQ.ft_sectors t) (pp_add (EQ.ft_expiring t) (psum size all G)) (EQ.ft_rescheduled t) (EQ.ft_fee t)).
Proof.
  unfold fault_totals_of. cbn. rewrite psum_empty, pp_add_zero. unfold fee_sum. rewrite ssum_empty.
  split_and!; [|done|done|lia]. by rewrite (right_id_L ∅ (∪)).
Qed.

Lemma fault_totals_move all G t (l : list Z) : from_bits l = G ->
  fault_totals_of all G ∅ t
    (EQ.mkFT (EQ.ft_sectors t ++ l) (EQ.ft_expiring t) (pp_add (EQ.ft_rescheduled t) (psum size all G))
       (EQ.ft_fee t + fee_sum all G)).
Proof.
  intros <-. unfold fault_totals_of. cbn. rewrite psum_empty, pp_add_zero. split_and!; [|done..].
  apply from_bits_app.
Qed.

(** One group: [F] and [P] are those of the search, [Fc] and [Q] the current
    ones. *)
Lemma reschedule_group_rep all F Fc P Q X q e k t t' q' :
  X ## F -> rep size all Fc Q q -> (forall b, held Q k b = held P k b) ->
  (forall n, n ∈ held P k false -> n ∈ Fc <-> n ∈ F) ->
  EQ.reschedule_group e (t, q) (group_at size all F P X k) = Ok (t', q') ->
  let G := held P k false ∩ X in
  (k <= e /\ fault_totals_of all ∅ G t t' /\ rep size all (Fc ∪ G) Q q') \/
  (e < k /\ fault_totals_of all G ∅ t t' /\ rep size all (Fc ∪ G) (drop_from G Q) q').
Proof.
  intros HX Hr Hh HF H G. unfold EQ.reschedule_group in H.
  cbn [group_at EQ.sector_epoch_set EQ.expiration_set EQ.ses_epoch EQ.ses_sectors EQ.ses_power EQ.ses_pledge
       EQ.ses_daily_fee] in H. fold G in H. rewrite filter_bits in H. fold G in H.
  cbn [slot_set render on_time_sectors early_sectors on_time_pledge active_power faulty_power fee_deduction] in H.
  assert (G ⊆ held P k false) as HG by set_solver.
  pose proof (held_disj_early P k) as Hd. assert (G ## F) as HGF by set_solver.
  assert (forall n e' b, e' <> k -> Q !! n = Some (mkSlot e' b) -> n ∈ Fc <-> n ∈ Fc ∪ G) as HFc.
  { intros n e' b Hne Hn. rewrite elem_of_union. split; [tauto|]. intros [?|Hg]; [done|].
    apply HG in Hg. rewrite <- Hh in Hg. apply elem_of_held in Hg. congruence. }
  destruct (k <=? e) eqn:E; bool_prop; [left|right]; (split; [done|]).
  - rewrite <- (render_fault all F) in H by done. minv.
    match goal with E : EQ.must_update_or_delete _ _ _ = _ |- _ => apply must_update_or_delete_put in E as [-> _] end.
    split; [apply fault_totals_stay|].
    rewrite (render_ext size all all (F ∪ G) (Fc ∪ G) _ (held Q k false) _ (held Q k true)); [|done|done|by intros ?|set_solver].
    by apply (rep_put size all Fc (Fc ∪ G) Q Q).
  - rewrite <- (render_fault_lose all F) in H by done. minv.
    match goal with E : EQ.must_update_or_delete _ _ _ = _ |- _ => apply must_update_or_delete_put in E as [-> _] end.
    split; [apply fault_totals_move, filter_bits|].
    assert (render size all (F ∪ G) (held P k false ∖ G) (held P k true) =
            slot_set size all (Fc ∪ G) (drop_from G Q) k) as ->.
    { unfold slot_set. rewrite !held_drop, !Hh. apply render_ext; [done|set_solver|by intros ?|set_solver]. }
    apply (rep_drop size all Fc); [done|..].
    + intros n s Hn Hs. apply HG in Hn. rewrite <- Hh in Hn. apply elem_of_held in Hn. rewrite Hs in Hn. by injection Hn as ->.
    + intros n [e' b] Hs Hne. by eapply HFc.
Qed.

Lemma fault_totals_trans all m1 s1 m2 s2 t t1 t2 :
  m1 ## m2 -> s1 ## s2 -> fault_totals_of all m1 s1 t t1 -> fault_totals_of all m2 s2 t1 t2 ->
  fault_totals_of all (m1 ∪ m2) (s1 ∪ s2) t t2.
Proof.
  intros Hm Hs (A1 & A2 & A3 & A4) (B1 & B2 & B3 & B4). unfold fault_totals_of.
  rewrite B1, B2, B3, B4, A1, A2, A3, A4, !psum_union by done. unfold fee_sum. rewrite ssum_union by done.
  unfold pp_add. cbn. split_and!; [by rewrite (assoc_L (∪))|f_equal; lia|f_equal; lia|lia].
Qed.

Lemma taken_late P X e k ks :
  taken P X (late e (k :: ks)) =
  if decide (e < k) then (held P k false ∩ X) ∪ taken P X (late e ks) else taken P X (late e ks).
Proof. unfold late. rewrite filter_cons. by case_decide. Qed.

Lemma taken_soon P X e k ks :
  taken P X (soon e (k :: ks)) =
  if decide (k <= e) then (held P k false ∩ X) ∪ taken P X (soon e ks) else taken P X (soon e ks).
Proof. unfold soon. rewrite filter_cons. by case_decide. Qed.

Lemma late_notin e k ks : k ∉ ks -> k ∉ late e ks.
Proof. intros H [_ ?]%list_elem_of_filter. done. Qed.

Lemma soon_notin e k ks : k ∉ ks -> k ∉ soon e ks.
Proof. intros H [_ ?]%list_elem_of_filter. done. Qed.

Lemma fault_totals_refl all t : fault_totals_of all ∅ ∅ t t.
Proof.
  unfold fault_totals_of. rewrite psum_empty, !pp_add_zero. unfold fee_sum. rewrite ssum_empty.
  split_and!; [|done..|lia]. by rewrite (right_id_L ∅ (∪)).
Qed.

Lemma reschedule_groups_rep all F P X e ks : X ## F ->
  forall Fc Q q t t' q', NoDup ks -> rep size all Fc Q q -> (forall k b, k ∈ ks -> held Q k b = held P k b) ->
  (forall k n, k ∈ ks -> n ∈ held P k false -> n ∈ Fc <-> n ∈ F) ->
  rfold (EQ.reschedule_group e) (t, q) (group_at size all F P X <$> ks) = Ok (t', q') ->
  fault_totals_of all (taken P X (late e ks)) (taken P X (soon e ks)) t t' /\
  rep size all (Fc ∪ taken P X ks) (drop_from (taken P X (late e ks)) Q) q'.
Proof.
  intros HX. induction ks as [|k ks IH]; intros Fc Q q t t' q' Hd Hr Hh HF H.
  { cbn in H. injection H as <- <-. unfold taken. cbn. rewrite drop_empty, (right_id_L ∅ (∪)).
    split; [apply fault_totals_refl|done]. }
  apply NoDup_cons in Hd as [Hk Hd]. rewrite fmap_cons in H. cbn [rfold] in H.
  apply rbind_ok in H as ([t1 q1] & H1 & H).
  assert (forall k' n, k' ∈ ks -> n ∈ held P k' false -> n ∉ held P k false ∩ X) as Hdj.
  { intros k' n Hk' Hn Hg. apply elem_of_intersection in Hg as [Hg _]. apply elem_of_held in Hn, Hg. congruence. }
  assert (forall k' n, k' ∈ ks -> n ∈ held P k' false -> n ∈ Fc ∪ (held P k false ∩ X) <-> n ∈ F) as HF'.
  { intros k' n Hk' Hn. rewrite elem_of_union, <- (HF k' n) by (by right || done). pose proof (Hdj k' n Hk' Hn). tauto. }
  apply (reschedule_group_rep all F Fc P Q) in H1; [|done|done|intros; apply Hh; left|intros n; apply HF; left].
  rewrite taken_cons, taken_late, taken_soon, (assoc_L (∪)).
  destruct H1 as [(Hle & Ht & Hr')|(Hlt & Ht & Hr')].
  - rewrite decide_False, decide_True by lia. eapply IH in H as [Ht' Hr2]; [|done|exact Hr'|intros; apply Hh; by right|done].
    split; [|done]. rewrite <- (left_id_L ∅ (∪) (taken P X (late e ks))).
    eapply fault_totals_trans; [set_solver|by apply taken_disj, soon_notin|done|done].
  - rewrite decide_True, decide_False by lia. eapply IH in H as [Ht' Hr2]; [|done|exact Hr'| |done].
    + rewrite drop_drop in Hr2. split; [|done]. rewrite <- (left_id_L ∅ (∪) (taken P X (soon e ks))).
      eapply fault_totals_trans; [by apply taken_disj, late_notin|set_solver|done|done].
    + intros k' b Hk'. rewrite held_drop, Hh by (by right). apply diff_disj. intros n Hn Hn'.
      apply elem_of_intersection in Hn as [Hn _]. apply elem_of_held in Hn, Hn'. congruence.
Qed.

End fault_groups.

Section faults.
Context (size : Z) (quant : QuantSpec) (Hunit : 0 < unit_ quant).
Implicit Types (all : Infos) (P Q : Plan) (X Y G R F : BitField) (q : EQ.Queue) (l : list SectorOnChainInfo).

Lemma plan_ok_fault F F' P e X : plan_ok quant F P -> X ⊆ F' ->
  (forall n, n ∈ dom P -> n ∈ F -> n ∈ F') ->
  (0 <= quantize_up quant e \/ forall n s, n ∈ X -> P !! n = Some s -> slot_epoch s <= quantize_up quant e) ->
  plan_ok quant F' (fault (quantize_up quant e) X P).
Proof.
  intros H HX HF He n s Hs. unfold fault in Hs. rewrite lookup_remap in Hs.
  destruct (P !! n) as [s0|] eqn:E; [|done]. injection Hs as <-. pose proof (H n s0 E) as (A & B & C).
  pose proof (HF n (lookup_declared_dom P n s0 E)).
  case_decide as D; [|auto]. unfold fault_slot. destruct (slot_epoch s0 <=? _) eqn:L; [auto|]. cbn.
  rewrite quantize_up_fix by done. split_and!; [|done|auto].
  destruct He as [?|He]; [done|]. specialize (He n s0 D E). bool_prop. lia.
Qed.

Lemma fault_moved P X e ks :
  (forall n, n ∈ X -> exists e', e' ∈ ks /\ n ∈ held P e' false) ->
  fault e X P = place e true (taken P X (late e ks)) P.
Proof.
  intros Ha. apply map_eq. intros n. unfold fault. rewrite lookup_remap, lookup_place.
  destruct (decide (n ∈ taken P X (late e ks))) as [D|D].
  - apply elem_of_taken in D as (Hx & e' & [Hl _]%list_elem_of_filter & Hn). rewrite Hn. cbn.
    rewrite decide_True by done. unfold fault_slot. cbn. by rewrite (proj2 (Z.leb_gt e' e)).
  - destruct (P !! n) as [s|] eqn:E; [|done]. cbn. case_decide as Hx; [|done].
    destruct (Ha n Hx) as (e' & Hk & Hh%elem_of_held). rewrite E in Hh. injection Hh as ->.
    unfold fault_slot. cbn. destruct (Z.leb_spec e' e); [done|]. exfalso. apply D.
    apply elem_of_taken. split; [done|]. exists e'. split; [|done]. by apply list_elem_of_filter.
Qed.

Lemma late_soon P X e ks : taken P X (late e ks) ∪ taken P X (soon e ks) = taken P X ks.
Proof.
  apply set_eq. intros n. rewrite elem_of_union, !elem_of_taken. unfold late, soon.
  setoid_rewrite list_elem_of_filter. split; [naive_solver|]. intros (Hx & e' & He & Hn).
  destruct (Z.le_gt_cases e' e); [right|left]; (split; [done|]); exists e'; auto.
Qed.

Lemma late_soon_disj P X e ks : taken P X (late e ks) ## taken P X (soon e ks).
Proof.
  intros n. rewrite !elem_of_taken. unfold late, soon. setoid_rewrite list_elem_of_filter.
  intros (_ & e1 & [H1 _] & E1) (_ & e2 & [H2 _] & E2). rewrite E1 in E2. injection E2 as ->. lia.
Qed.

(** [reschedule_as_faults]: active sectors become faulty. *)
Lemma reschedule_as_faults_tracks all F P q l e power q' :
  from_table all l -> tracks size quant all F P q -> numbers l ## F ->
  EQ.reschedule_as_faults quant size e l q = Ok (power, q') ->
  power = psum size all (numbers l) /\
  tracks size quant all (F ∪ numbers l) (fault (quantize_up quant e) (numbers l) P) q' /\ numbers l ⊆ dom P.
Proof.
  intros Ht [Hr Hp] HF H. unfold EQ.reschedule_as_faults in H. set (X := numbers l) in *.
  set (k := quantize_up quant e) in *. apply rbind_ok in H as (gs & Hf & H).
  apply (find_sectors_spec size quant all F P) in Hf as (ks & -> & Hd & Hn & Ha); [|done|done]. fold X in Ha, Hn.
  apply rbind_ok in H as ([t q1] & H1 & H).
  apply (reschedule_groups_rep size all F P X k ks HF F P) in H1 as [(T1 & T2 & T3 & T4) Hr1]; [|done..].
  rewrite (taken_all _ _ _ Ha) in Hr1.
  cbn [EQ.ft_sectors EQ.ft_expiring EQ.ft_rescheduled EQ.ft_fee] in *. rewrite pp_zero_add in T2, T3.
  rewrite Z.add_0_l in T4. unfold from_bits at 2 in T1. cbn [list_to_set] in T1. rewrite (left_id_L ∅ (∪)) in T1.
  apply rbind_ok in H as (q2 & H2 & H). injection H as <- <-. rewrite T2, T3.
  rewrite <- psum_union, late_soon, (taken_all _ _ _ Ha) by apply late_soon_disj. split; [done|].
  assert (X ⊆ dom P) as Hdom.
  { intros n Hx. destruct (Ha n Hx) as (e' & _ & He'). by eapply held_dom. }
  split; [|done]. set (M := taken P X (late k ks)) in *.
  assert (place k true M (drop_from M P) = fault k X P) as Ef.
  { rewrite (fault_moved P X k ks Ha). fold M. apply map_eq. intros n. rewrite !lookup_place, lookup_drop_from.
    by case_decide. }
  destruct (EQ.ft_sectors t) as [|n0 ns0] eqn:Es.
  - injection H2 as <-. assert (M = ∅) as EM by (symmetry; exact T1). split.
    + rewrite <- Ef, EM, drop_empty. rewrite EM, drop_empty in Hr1.
      assert (place k true ∅ P = P) as ->; [|done]. apply map_eq. intros n. by rewrite lookup_place.
    + apply (plan_ok_fault F); [done|set_solver|set_solver|]. right. intros n s Hx Hs.
      destruct (Ha n Hx) as (e' & Hk & Hh%elem_of_held). rewrite Hs in Hh. injection Hh as ->. cbn.
      destruct (Z.le_gt_cases e' (quantize_up quant e)) as [|L]; [done|]. exfalso.
      assert (n ∈ M); [|set_solver]. apply elem_of_taken. split; [done|]. exists e'. split; [|done].
      by apply list_elem_of_filter.
  - rewrite T1, T3, T4 in H2.
    eapply (add_early_rep size quant all (F ∪ X) (drop_from M P)) in H2 as [Hr2 Hk]; [|done|..].
    + fold k in Hr2. rewrite Ef in Hr2. split; [done|]. apply (plan_ok_fault F); [done|set_solver|set_solver|by left].
    + intros n Hm [s Hs]%elem_of_dom. rewrite lookup_drop_from, decide_True in Hs by done. done.
    + rewrite <- T1. unfold from_bits. set_solver.
Qed.
End faults.

(** ** Missed proofs: all sectors become faulty *)

Section all_faults.
Context (size : Z).
Implicit Types (all : Infos) (P Q : Plan) (X Y G R F D : BitField) (q : EQ.Queue).

Lemma held_in P e b D : dom P ⊆ D -> held P e b ∩ D = held P e b.
Proof. intros H. pose proof (held_dom P e b). set_solver. Qed.

(** All sectors of the entry faulty. *)
Lemma slot_set_all_faulty all F P e D : dom P ⊆ D ->
  mkES (held P e false) (held P e true) (pledge_sum all (held P e false)) pp_zero
    (pp_add (psum size all ((held P e false ∩ F) ∪ held P e true)) (psum size all (held P e false ∖ F)))
    (fee_sum all (held P e false ∪ held P e true)) = slot_set size all D P e.
Proof.
  intros HD. unfold slot_set, render. rewrite (held_in P e false D) by done.
  assert (held P e false ∖ D = ∅) as -> by (pose proof (held_dom P e false); set_solver).
  rewrite psum_empty. f_equal. pose proof (held_disj_early P e).
  rewrite <- psum_union by set_solver. f_equal. apply set_eq. intros n. set_unfold.
  destruct (decide (n ∈ F)); tauto.
Qed.

Lemma all_faults_walk all F P D k ents : dom P ⊆ D ->
  forall a a', NoDup ents.*1 -> (forall e es, (e, es) ∈ ents -> es = slot_set size all F P e) ->
  for_each (EQ.all_faults_step k) a ents = Ok a' ->
  a' = EQ.mkAF (EQ.af_epochs a ++ late k ents.*1) (EQ.af_sectors a ∪ taken P D (late k ents.*1))
         (pp_add (EQ.af_power a) (psum size all (taken P D (late k ents.*1))))
         (EQ.af_fee a + fee_sum all (taken P D (late k ents.*1)))
         (EQ.af_mutated a ++ ((fun e => (e, slot_set size all D P e)) <$> soon k ents.*1)) /\
  (forall e, e ∈ late k ents.*1 -> held P e true = ∅).
Proof.
  intros HD. unfold for_each. induction ents as [|[e es] ents IH]; intros a a' Hd He H.
  { cbn in H. injection H as <-. destruct a. unfold late, soon, taken, fee_sum. cbn.
    rewrite psum_empty, pp_add_zero, !app_nil_r, (right_id_L ∅ (∪)), ssum_empty, Z.add_0_r.
    split; [done|]. by intros e ?%elem_of_nil. }
  cbn [fmap list_fmap] in *. apply NoDup_cons in Hd as [Hn Hd]. cbn in Hn.
  rewrite (He e es) in H by left. cbn [rfold] in H. apply rbind_ok in H as (a1 & H1 & H).
  apply IH in H as [-> Hearly]; [|done|intros; apply He; by right]. clear IH. cbn [fst].
  unfold EQ.all_faults_step in H1. unfold late, soon. rewrite !filter_cons.
  cbn [slot_set render on_time_sectors early_sectors on_time_pledge active_power faulty_power fee_deduction] in H1.
  destruct (Z.leb_spec e k) as [L|L].
  - rewrite decide_False, decide_True by lia. injection H1 as <-.
    cbn [EQ.af_epochs EQ.af_sectors EQ.af_power EQ.af_fee EQ.af_mutated]. rewrite (slot_set_all_faulty all F P e D) by done.
    rewrite fmap_cons, <- app_assoc. split; [done|exact Hearly].
  - rewrite decide_True, decide_False by lia. fold (late k ents.*1) (soon k ents.*1).
    destruct (negb (bf_empty (held P e true))) eqn:Em; [discriminate|]. injection H1 as <-.
    apply negb_false_iff, bool_decide_eq_true in Em.
    cbn [EQ.af_epochs EQ.af_sectors EQ.af_power EQ.af_fee EQ.af_mutated]. rewrite taken_cons, (held_in P e false D) by done.
    pose proof (taken_disj P D e _ (late_notin k e ents.*1 Hn)) as Hdj. rewrite (held_in P e false D) in Hdj by done.
    rewrite Em, !(right_id_L ∅ (∪)). unfold fee_sum. rewrite (psum_union _ _ (held P e false)), ssum_union by done.
    rewrite <- app_assoc, <- (assoc_L (∪)). split; [|intros e' [->|He']%elem_of_cons; auto].
    f_equal; [|lia]. unfold psum, pp_add. cbn. f_equal.
    all: rewrite (ssum_split _ (held P e false) F); lia.
Qed.

Lemma mutate_entries (f : Z -> ExpirationSet) ks q q' :
  rfold (fun q '(e, es) =>
      let! q := EQ.must_update e es q in
      let! _ := es_validate_state es in
      Ok q) q ((fun e => (e, f e)) <$> ks) = Ok q' ->
  forall e, q' !! e = if decide (e ∈ ks) then Some (f e) else q !! e.
Proof.
  revert q. induction ks as [|k ks IH]; intros q H e; [by injection H as <-|].
  rewrite fmap_cons in H. cbn [rfold] in H. unfold EQ.must_update in H. minv. key_inv.
  rewrite (IH _ H e). destruct (decide (e = k)) as [->|Hne].
  - rewrite lookup_insert_eq, (decide_True (P := k ∈ k :: ks)) by left. by case_decide.
  - rewrite lookup_insert_ne by done. destruct (decide (e ∈ ks)); [by rewrite decide_True by (by right)|].
    rewrite decide_False; [done|]. by intros [?|?]%elem_of_cons.
Qed.

Lemma lookup_fault_all k D P n : dom P ⊆ D -> fault k D P !! n = fault_slot k <$> P !! n.
Proof.
  intros HD. unfold fault. rewrite lookup_remap. destruct (P !! n) as [s|] eqn:E; [|done]. cbn.
  rewrite decide_True; [done|]. by apply HD, (lookup_declared_dom P n s).
Qed.

(** The slots after all sectors became faulty. *)
Lemma held_fault_all k D P ks : dom P ⊆ D ->
  (forall n s, P !! n = Some s -> slot_epoch s ∈ ks) -> (forall e, e ∈ late k ks -> held P e true = ∅) ->
  (forall e b, e < k -> held (fault k D P) e b = held P e b) /\
  (forall e b, k < e -> held (fault k D P) e b = ∅) /\
  held (fault k D P) k false = held P k false /\
  held (fault k D P) k true = held P k true ∪ taken P D (late k ks).
Proof.
  intros HD Hks He.
  assert (forall n e b, fault k D P !! n = Some (mkSlot e b) <->
    (e <= k /\ P !! n = Some (mkSlot e b)) \/ (e = k /\ b = true /\ n ∈ taken P D (late k ks))) as Hl.
  { intros n e b. rewrite lookup_fault_all by done. rewrite elem_of_taken. unfold late.
    setoid_rewrite list_elem_of_filter.
    destruct (P !! n) as [[e' b']|] eqn:E; cbn; [|naive_solver]. unfold fault_slot. cbn.
    pose proof (Hks n _ E) as Hk. cbn in Hk. pose proof (HD n (lookup_declared_dom P n _ E)) as Hn.
    destruct (Z.leb_spec e' k) as [L|L].
    - split; [intros [= <- <-]; auto|]. intros [[_ [= -> ->]]|(_ & _ & _ & e0 & [? _] & [= -> ->])]; [done|lia].
    - assert (b' = false) as ->.
      { destruct b'; [|done]. assert (n ∈ held P e' true) as Hh by (by apply elem_of_held).
        rewrite He in Hh; [set_solver|]. by apply list_elem_of_filter. }
      split; [intros [= <- <-]; right; eauto 10|]. intros [[? [= <- <-]]|(-> & -> & _)]; [lia|done]. }
  split_and!; intros; apply set_eq; intros n; rewrite ?elem_of_union, ?elem_of_held, Hl.
  - split; [intros [[_ ?]|(? & _)]; [done|lia]|intros; left; split; [lia|done]].
  - split; [intros [[? _]|[? _]]; lia|set_solver].
  - split; [intros [[_ ?]|(_ & ? & _)]; done|intros; left; split; [lia|done]].
  - split; [intros [[_ ?]|(_ & _ & ?)]; auto|intros [?|?]; [left; split; [lia|done]|right; auto]].
Qed.

Lemma rep_all_faults all P D k ks q' : dom P ⊆ D ->
  (forall n s, P !! n = Some s -> slot_epoch s ∈ ks) -> (forall e, e ∈ late k ks -> held P e true = ∅) ->
  (forall e, e < k -> q' !! e = if es_is_empty (slot_set size all D P e) then None else Some (slot_set size all D P e)) ->
  (forall e, k < e -> q' !! e = None) ->
  q' !! k = (let es := render size all D (held P k false) (held P k true ∪ taken P D (late k ks)) in
             if es_is_empty es then None else Some es) ->
  rep size all D (fault k D P) q'.
Proof.
  intros HD Hks He H1 H2 H3 e. destruct (held_fault_all k D P ks HD Hks He) as (A & B & C & E).
  unfold slot_set. destruct (Z.lt_trichotomy e k) as [L|[->|L]].
  - rewrite !A by done. by apply H1.
  - by rewrite C, E.
  - rewrite !B by done. rewrite render_empty. by apply H2.
Qed.
End all_faults.

Section missed.
Context (size : Z) (quant : QuantSpec) (Hunit : 0 < unit_ quant).
Implicit Types (all : Infos) (P Q : Plan) (X Y G R F D : BitField) (q : EQ.Queue).

(** The queue after the entries up to [k] have been changed. *)
Definition mutated all P D k q q1 : Prop :=
  (forall e, e <= k -> q1 !! e = if es_is_empty (slot_set size all D P e) then None
                                 else Some (slot_set size all D P e)) /\
  (forall e, k < e -> q1 !! e = q !! e).

Lemma mutated_intro all F P D k q q1 : rep size all F P q ->
  (forall e, q1 !! e = if decide (e ∈ soon k (keys q)) then Some (slot_set size all D P e) else q !! e) ->
  mutated all P D k q q1.
Proof.
  intros Hr Hq1. split; intros e He; rewrite Hq1.
  - rewrite Hr. change (es_is_empty (slot_set size all F P e)) with (es_is_empty (slot_set size all D P e)).
    assert (e ∈ soon k (keys q) <-> es_is_empty (slot_set size all D P e) = false) as Hs.
    { unfold soon. rewrite list_elem_of_filter, elem_of_keys, Hr.
      change (es_is_empty (slot_set size all F P e)) with (es_is_empty (slot_set size all D P e)).
      destruct (es_is_empty _); split; [intros [_ [? ?]]; done|done|done|eauto]. }
    case_decide as Dc; [apply Hs in Dc; by rewrite Dc|]. destruct (es_is_empty _); [done|]. tauto.
  - rewrite decide_False; [done|]. intros [? _]%list_elem_of_filter. lia.
Qed.

Lemma late_key_taken all F P D q k k0 : rep size all F P q -> dom P ⊆ D ->
  k0 ∈ late k (keys q) -> held P k0 true = ∅ -> taken P D (late k (keys q)) <> ∅.
Proof.
  intros Hr HD Hk He Em. pose proof Hk as [_ [es Hes]%elem_of_keys]%list_elem_of_filter.
  rewrite Hr in Hes. destruct (es_is_empty _) eqn:E; [done|].
  assert (held P k0 false <> ∅) as Hne.
  { intros E'. assert (es_is_empty (slot_set size all F P k0) = true); [|congruence]. by apply es_is_empty_spec. }
  apply set_choose_L in Hne as [n Hn]. assert (n ∈ taken P D (late k (keys q))); [|set_solver].
  apply elem_of_taken. split; [by eapply HD, held_dom|]. exists k0. split; [done|]. by apply elem_of_held.
Qed.

(** The sectors that would leave later are moved to [k]. *)
Lemma move_late all F P D q q1 e q2 : let k := quantize_up quant e in let M := taken P D (late k (keys q)) in
  dom P ⊆ D -> rep size all F P q -> mutated all P D k q q1 -> M <> ∅ ->
  (forall e, e ∈ late k (keys q) -> held P e true = ∅) ->
  EQ.add quant e ∅ M pp_zero (psum size all M) 0 (fee_sum all M) q1 = Ok q2 ->
  rep size all D (fault k D P) (batch_delete (late k (keys q)) q2) /\ 0 <= k.
Proof.
  intros k M HD Hr [Hlow Hhigh] HM Hearly H. unfold EQ.add, EQ.may_get, EQ.must_update, es_add in H. minv. key_inv.
  split; [|done]. fold k.
  assert (default es_empty (q1 !! k) = slot_set size all D P k) as Ek.
  { rewrite Hlow by lia. destruct (es_is_empty _) eqn:Em; [|done]. by rewrite slot_set_empty. }
  rewrite Ek. cbn [slot_set render on_time_sectors early_sectors on_time_pledge active_power faulty_power fee_deduction].
  assert (forall b, M ## held P k b) as Hdj.
  { intros b n (_ & e' & [L _]%list_elem_of_filter & Hn)%elem_of_taken Hh%elem_of_held.
    rewrite Hn in Hh. injection Hh as <- _. lia. }
  rewrite <- render_gain_early by auto using held_disj_early.
  apply (rep_all_faults size all P D k (keys q)); [done|..|done| | |].
  - intros n s Hs. apply elem_of_keys. by eapply rep_is_Some.
  - intros e' L. rewrite lookup_batch_delete, decide_False by (intros [? _]%list_elem_of_filter; lia).
    rewrite lookup_insert_ne by lia. apply Hlow. lia.
  - intros e' L. rewrite lookup_batch_delete. case_decide as Dl; [done|]. rewrite lookup_insert_ne, Hhigh by lia.
    destruct (q !! e') eqn:E; [|done]. exfalso. apply Dl, list_elem_of_filter. split; [done|]. by apply elem_of_keys.
  - rewrite lookup_batch_delete, decide_False by (intros [? _]%list_elem_of_filter; lia).
    rewrite lookup_insert_eq. cbn. destruct (es_is_empty _) eqn:Em; [|done]. exfalso.
    apply es_is_empty_spec in Em as [_ Em]. cbn in Em. fold M in Em. set_solver.
Qed.

(** [reschedule_all_as_faults]: every sector is faulty. *)
Lemma reschedule_all_as_faults_tracks all F P q e q' D :
  dom P ⊆ D -> tracks size quant all F P q ->
  EQ.reschedule_all_as_faults quant e q = Ok q' ->
  tracks size quant all D (fault (quantize_up quant e) D P) q'.
Proof.
  intros HD [Hr Hp] H. unfold EQ.reschedule_all_as_faults in H. set (k := quantize_up quant e) in *.
  apply rbind_ok in H as (a & Ha & H). apply (all_faults_walk size all F P D) in Ha as [-> Hearly];
    [|done|apply NoDup_entries|intros e' es Hes%elem_of_entries; by apply (rep_lookup size all F P q)].
  cbn [EQ.af_epochs EQ.af_sectors EQ.af_power EQ.af_fee EQ.af_mutated app] in H.
  rewrite entries_keys, (left_id_L ∅ (∪)), pp_zero_add, Z.add_0_l in *.
  apply rbind_ok in H as (q1 & Hm & H). pose proof (mutate_entries _ _ _ _ Hm) as Hq1.
  apply (mutated_intro all F) in Hq1; [|done]. clear Hm.
  destruct (late k (keys q)) as [|k0 ks0] eqn:El.
  - injection H as <-. destruct Hq1 as [Hlow Hhigh].
    assert (forall e, e ∈ keys q -> e <= k) as Hle.
    { intros e' Hk'. destruct (Z.le_gt_cases e' k); [done|]. exfalso.
      assert (e' ∈ late k (keys q)) as Hl by (by apply list_elem_of_filter). rewrite El in Hl. by apply elem_of_nil in Hl. }
    assert (forall n s, P !! n = Some s -> slot_epoch s ∈ keys q) as Hks.
    { intros n s Hs. apply elem_of_keys. by eapply rep_is_Some. }
    split; [|apply (plan_ok_fault quant Hunit F); [done|done|set_solver|right; eauto]].
    apply (rep_all_faults size all P D k (keys q)); rewrite ?El; auto using Z.lt_le_incl.
    + intros e' L. rewrite Hhigh by done. destruct (q !! e') eqn:E; [|done]. exfalso.
      assert (e' <= k); [|lia]. apply Hle. by apply elem_of_keys.
    + cbn. rewrite (right_id_L ∅ (∪)). apply Hlow. lia.
  - rewrite <- El in *. apply rbind_ok in H as (q2 & H2 & H). injection H as <-.
    assert (k0 ∈ late k (keys q)) as Hk0 by (rewrite El; left).
    apply (move_late all F P D q) in H2 as [Hr' Hk]; [|done..|by eapply late_key_taken; eauto|done].
    split; [done|]. apply (plan_ok_fault quant Hunit F); [done|done|set_solver|by left].
Qed.
End missed.
