(* ===== verification/MinerPlanPop.v ===== *)
(** * The miner actor: recoveries and expirations in the plan

    Two more operations of expiration_queue.rs refine operations on plans:
    recovered sectors that were to leave early go back to their declared
    expirations, and the sectors that are due are popped. *)

From stdpp Require Import sorting.
From S2P Require Import Prelude Runtime Collections MinerBase MinerQueues MinerEpochs MinerMoney MinerPlan MinerPlanOps.

Import Miner.

(** ** Sectors that are due *)

Section pop.
Context (size : Z) (quant : QuantSpec).
Implicit Types (all : Infos) (P Q : Plan) (X Y F : BitField) (q : EQ.Queue).

Definition due_by (until : Z) (b : bool) P : BitField :=
  dom (filter (fun p => slot_epoch p.2 <= until /\ slot_early p.2 = b) P).

Definition after (until : Z) P : Plan := filter (fun p => until < slot_epoch p.2) P.

Lemma elem_of_due_by until b P n : n ∈ due_by until b P <-> exists e, P !! n = Some (mkSlot e b) /\ e <= until.
Proof.
  unfold due_by. rewrite elem_of_dom. split.
  - intros [[e b'] [H1 [H2 H3]]%map_lookup_filter_Some]. cbn in *. subst. eauto.
  - intros (e & H1 & H2). exists (mkSlot e b). by apply map_lookup_filter_Some.
Qed.

Lemma lookup_after until P n s : after until P !! n = Some s <-> P !! n = Some s /\ until < slot_epoch s.
Proof. unfold after. apply map_lookup_filter_Some. Qed.

Definition es_sum (a b : ExpirationSet) : ExpirationSet :=
  mkES (on_time_sectors a ∪ on_time_sectors b) (early_sectors a ∪ early_sectors b)
    (on_time_pledge a + on_time_pledge b) (pp_add (active_power a) (active_power b))
    (pp_add (faulty_power a) (faulty_power b)) (fee_deduction a + fee_deduction b).

Lemma render_sum all F on early on' early' :
  (on ∪ early) ## (on' ∪ early') -> on ## early -> on' ## early' ->
  es_sum (render size all F on early) (render size all F on' early') =
  render size all F (on ∪ on') (early ∪ early').
Proof.
  intros H1 H2 H3. unfold es_sum, render. cbn.
  rewrite (pledge_sum_union all on on') by set_solver.
  rewrite (psum_split size all (on ∖ F) (on' ∖ F) ((on ∪ on') ∖ F)) by set_solver.
  rewrite (psum_split size all (on ∩ F ∪ early) (on' ∩ F ∪ early') ((on ∪ on') ∩ F ∪ (early ∪ early'))) by set_solver.
  by rewrite (fee_sum_split all (on ∪ early) (on' ∪ early') (on ∪ on' ∪ (early ∪ early'))) by set_solver.
Qed.

(** The union of the slots of some epochs. *)
Definition held_all P (b : bool) (ks : list Z) : BitField := ⋃ ((fun e => held P e b) <$> ks).

Lemma elem_of_held_all P b ks n : n ∈ held_all P b ks <-> exists e, e ∈ ks /\ P !! n = Some (mkSlot e b).
Proof.
  unfold held_all. rewrite elem_of_union_list. split.
  - intros (Y & (e & -> & He)%list_elem_of_fmap & Hn%elem_of_held). eauto.
  - intros (e & He & Hn%elem_of_held). exists (held P e b). split; [|done]. apply list_elem_of_fmap. eauto.
Qed.

Lemma held_all_snoc P b ks e : held_all P b (ks ++ [e]) = held_all P b ks ∪ held P e b.
Proof. unfold held_all. rewrite fmap_app, union_list_app_L. cbn. by rewrite (right_id_L ∅ (∪)). Qed.

Lemma held_all_disj P ks ks' b b' : (forall e, e ∈ ks -> e ∈ ks' -> b = b' -> False) ->
  held_all P b ks ## held_all P b' ks'.
Proof.
  intros H n (e & He & Hn)%elem_of_held_all (e' & He' & Hn')%elem_of_held_all.
  rewrite Hn in Hn'. injection Hn' as -> ->. eauto.
Qed.

Lemma held_all_one P b e : held_all P b [e] = held P e b.
Proof. unfold held_all. cbn. by rewrite (right_id_L ∅ (∪)). Qed.

Lemma list_eq_nil_elem {A} (l : list A) : (forall x, x ∈ l -> False) -> l = [].
Proof. destruct l as [|x l]; [done|]. intros H. exfalso. apply (H x). left. Qed.

Lemma pop_walk all F P until ents : forall ks p p' ks',
  NoDup (ks ++ ents.*1) -> (forall e es, (e, es) ∈ ents -> es = slot_set size all F P e) ->
  p = render size all F (held_all P false ks) (held_all P true ks) ->
  for_each_while (fun '(p, ks) e es =>
      if e >? until then Ok ((p, ks), false)
      else Ok ((es_sum p es, ks ++ [e]), true)) (p, ks) ents = @Ok MErr _ (p', ks') ->
  StronglySorted Z.le ents.*1 ->
  ks' = ks ++ filter (fun e => e <= until) ents.*1 /\
  p' = render size all F (held_all P false ks') (held_all P true ks').
Proof.
  induction ents as [|[e es] ents IH]; intros ks p p' ks' Hd He Hp H Hs.
  { cbn in H. injection H as <- <-. cbn. by rewrite app_nil_r. }
  cbn [for_each_while fmap list_fmap fst] in *. inversion Hs as [|?? Hs' Hall]; subst.
  destruct (e >? until) eqn:E; bool_prop.
  - cbn in H. injection H as <- <-. split; [|done].
    assert (filter (fun e => e <= until) (e :: ents.*1) = []) as ->; [|by rewrite app_nil_r].
    apply list_eq_nil_elem. intros x [Hx Hi]%list_elem_of_filter. rewrite Forall_forall in Hall.
    apply elem_of_cons in Hi as [->|Hi%Hall]; lia.
  - cbn in H. rewrite (He e es) in H by left. unfold slot_set in H. rewrite render_sum in H.
    + eapply IH in H as [-> ->]; [| |intros; apply He; by right| |done].
      * rewrite filter_cons, decide_True, <- app_assoc by lia. done.
      * by rewrite <- app_assoc.
      * by rewrite !held_all_snoc.
    + apply NoDup_app in Hd as (_ & Hd & _).
      intros n [Hn|Hn]%elem_of_union Hn'; apply elem_of_held_all in Hn as (e' & He' & Hn); apply (Hd e' He');
        apply elem_of_union in Hn' as [Hn'|Hn']; apply elem_of_held in Hn'; rewrite Hn in Hn'; injection Hn' as ->; left.
    + by apply held_all_disj.
    + apply held_disj_early.
Qed.

(** [pop_until] pops the sectors that are due. *)
Lemma pop_until_tracks all F P q until popped q' :
  tracks size quant all F P q -> EQ.pop_until until q = Ok (popped, q') ->
  popped = render size all F (due_by until false P) (due_by until true P) /\
  tracks size quant all F (after until P) q'.
Proof.
  intros [Hr Hp] H. unfold EQ.pop_until in H. apply rbind_ok in H as ([p ks] & H1 & H). injection H as <- <-.
  apply (pop_walk all F P until (entries q) []) in H1 as [-> ->]; [|apply NoDup_entries|..].
  - rewrite entries_keys, app_nil_l. 
    assert (forall b, held_all P b (filter (fun e => e <= until) (keys q)) = due_by until b P) as E.
    { intros b. apply set_eq. intros n. rewrite elem_of_held_all, elem_of_due_by. setoid_rewrite list_elem_of_filter.
      setoid_rewrite elem_of_keys. split; [naive_solver|]. intros (e & Hn & Hle). exists e. split_and!; [done| |done].
      by apply (rep_is_Some size all F P q n (mkSlot e b)). }
    rewrite !E. split; [done|]. split.
    + intros e. rewrite lookup_batch_delete.
      assert (forall b, held (after until P) e b = if decide (e <= until) then ∅ else held P e b) as Eh.
      { intros b. apply set_eq. intros n. rewrite elem_of_held, lookup_after. cbn.
        case_decide; [set_solver by lia|]. rewrite elem_of_held. split; [tauto|]. split; [done|lia]. }
      unfold slot_set. rewrite !Eh. destruct (decide (e <= until)).
      * rewrite render_empty. destruct (decide _) as [|Hn]; [done|].
        rewrite Hr. destruct (es_is_empty _) eqn:Em; [done|]. exfalso. apply Hn, list_elem_of_filter.
        split; [done|]. apply elem_of_keys. rewrite Hr, Em. by eexists.
      * rewrite decide_False; [apply Hr|]. intros [? _]%list_elem_of_filter. lia.
    + intros n s [Hs _]%lookup_after. by apply Hp.
  - intros e es Hes%elem_of_entries. by apply (rep_lookup size all F P q).
  - unfold held_all. cbn. by rewrite render_empty.
  - rewrite entries_keys. apply bits_sorted.
Qed.
End pop.

(** ** Walks that change entries *)

Section walk.
Context {A : Type} (f : A -> Z -> ExpirationSet -> MRes (A * ExpirationSet * bool)).
Implicit Types (q m : EQ.Queue).

Lemma put_batch_delete e es emptied m : e ∉ emptied ->
  put e es (batch_delete emptied m) =
  batch_delete (if es_is_empty es then emptied ++ [e] else emptied) (<[e := es]> m).
Proof.
  intros He. unfold put. apply map_eq. intros k. destruct (es_is_empty es).
  - rewrite lookup_batch_delete. destruct (decide (k = e)) as [->|Hne].
    + rewrite lookup_delete_eq, decide_True; [done|]. apply elem_of_app. right. left.
    + rewrite lookup_delete_ne, lookup_batch_delete, lookup_insert_ne by done.
      destruct (decide (k ∈ emptied)) as [Hk|Hk]; [rewrite decide_True; [done|]; apply elem_of_app; by left|].
      rewrite decide_False; [done|]. by intros [?|?%list_elem_of_singleton]%elem_of_app.
  - rewrite lookup_batch_delete. destruct (decide (k = e)) as [->|Hne].
    + rewrite lookup_insert_eq, decide_False, lookup_insert_eq by done. done.
    + by rewrite !lookup_insert_ne, lookup_batch_delete by done.
Qed.

(** An invariant of the walk, on the queue without the emptied entries. *)
Lemma iter_while_mut_inv (I : A -> list (Z * ExpirationSet) -> EQ.Queue -> Prop) acc q acc' q' :
  (forall acc e es rest q acc' es' b, NoDup ((e, es) :: rest).*1 -> I acc ((e, es) :: rest) q ->
     f acc e es = Ok (acc', es', b) -> I acc' rest (put e es' q)) ->
  I acc (entries q) q -> EQ.iter_while_mut f acc q = Ok (acc', q') -> exists rest, I acc' rest q'.
Proof.
  intros Hstep HI H. unfold EQ.iter_while_mut in H. apply rbind_ok in H as ([[a em] m] & H & H').
  injection H' as <- <-.
  enough (forall ents acc emptied m0, NoDup ents.*1 -> (forall k, k ∈ emptied -> k ∉ ents.*1) ->
    I acc ents (batch_delete emptied m0) ->
    for_each_while_mut (fun '(acc, emptied) e es =>
      let! (acc, es, keep_going) := f acc e es in
      Ok ((acc, if es_is_empty es then emptied ++ [e] else emptied), es, keep_going))
      (acc, emptied) ents m0 = Ok (a, em, m) -> exists rest, I a rest (batch_delete em m)) as Hgen.
  { eapply Hgen in H; [exact H|apply NoDup_entries|by intros k ?%elem_of_nil|done]. }
  clear H HI acc q. induction ents as [|[e es] ents IH]; intros acc emptied m0 Hd Hem HI H.
  { cbn in H. injection H as <- <- <-. eauto. }
  cbn [for_each_while_mut] in H. apply rbind_ok in H as ([[[a1 em1] es1] b] & H1 & H).
  apply rbind_ok in H1 as ([[a2 es2] b2] & H1 & H2). injection H2 as <- <- <- <-.
  assert (e ∉ emptied) as He by (intros He; apply (Hem e He); left).
  pose proof (Hstep _ _ _ _ _ _ _ _ Hd HI H1) as HI'. rewrite put_batch_delete in HI' by done.
  cbn [fmap list_fmap fst] in Hd. apply NoDup_cons in Hd as [Hn Hd].
  destruct b2; [|injection H as <- <- <-; eauto]. eapply IH in H; [exact H|done| |done].
  intros k Hk. assert (k ∈ emptied \/ k = e) as [Hk'| ->]; [|intros Hi; apply (Hem k Hk'); by right|done].
  destruct (es_is_empty es2); [|by left]. apply elem_of_app in Hk as [?|?%list_elem_of_singleton]; auto.
Qed.
End walk.

(** ** Recoveries *)

Section recover.
Context (size : Z) (quant : QuantSpec) (Hunit : 0 < unit_ quant).
Implicit Types (all T : Infos) (P Q : Plan) (X Y F : BitField) (q : EQ.Queue) (l : list SectorOnChainInfo).

(** Infos that are still to be found: a part of the table. *)
Definition part_of all T : Prop := forall n s, T !! n = Some s -> all !! n = Some s /\ sector_number s = n.

Lemma omap_infos all T (ns : list Z) : part_of all T -> NoDup ns ->
  let l := omap (fun u => T !! u) ns in
  numbers l = from_bits ns ∩ dom T /\ from_table all l /\ NoDup (sector_number <$> l).
Proof.
  intros HT Hd l. assert (forall s, s ∈ l -> T !! sector_number s = Some s /\ sector_number s ∈ ns) as Hl.
  { intros s (n & Hn & Hs)%list_elem_of_omap. destruct (HT n s Hs) as [_ <-]. done. }
  split_and!.
  - apply set_eq. intros n. rewrite elem_of_numbers, elem_of_intersection, elem_of_from_bits, elem_of_dom. split.
    + intros (s & Hs & <-). destruct (Hl s Hs) as [? ?]. split; [done|by eexists].
    + intros [Hn [s Hs]]. exists s. split; [|by apply HT in Hs as [_ ?]]. apply list_elem_of_omap. eauto.
  - apply Forall_forall. intros s Hs. apply Hl in Hs as [Hs _]. by apply HT in Hs as [? _].
  - clear Hl. unfold l. induction ns as [|n ns IH]; [constructor|]. apply NoDup_cons in Hd as [Hn Hd].
    cbn. destruct (T !! n) as [s|] eqn:E; cbn; [|by apply IH].
    apply NoDup_cons. split; [|by apply IH]. destruct (HT n s E) as [_ ->].
    intros (s' & E' & (n' & Hn' & Hs')%list_elem_of_omap)%list_elem_of_fmap.
    destruct (HT n' s' Hs') as [_ E2]. congruence.
Qed.

Lemma lookup_foldr_delete T (ns : list Z) n :
  foldr delete T ns !! n = if decide (n ∈ ns) then None else T !! n.
Proof. apply lookup_batch_delete. Qed.

Lemma part_of_delete all T ns : part_of all T -> part_of all (foldr delete T ns).
Proof. intros H n s. rewrite lookup_foldr_delete. case_decide; [done|]. apply H. Qed.

Lemma dom_foldr_delete T ns : dom (foldr delete T ns) = dom T ∖ from_bits ns.
Proof.
  apply set_eq. intros n. rewrite elem_of_difference, elem_of_from_bits, !elem_of_dom, lookup_foldr_delete.
  case_decide; [|naive_solver]. split; [by intros []|naive_solver].
Qed.

Lemma sum_power_psum all l : from_table all l -> NoDup (sector_number <$> l) ->
  EQ.sum_power size l = psum size all (numbers l).
Proof. apply foldl_power_psum. Qed.

(** Faulty sectors of an entry recover: the early ones leave it. *)
Lemma render_recover all F on early A B :
  A ⊆ on -> B ⊆ early -> A ∪ B ⊆ F -> on ## early ->
  render size all (F ∖ (A ∪ B)) on (early ∖ B) =
  mkES on (early ∖ B) (pledge_sum all on) (pp_add (psum size all (on ∖ F)) (psum size all A))
    (pp_add (psum size all ((on ∩ F) ∪ early)) (pp_neg (pp_add (psum size all A) (psum size all B))))
    (fee_sum all (on ∪ early) + - fee_sum all B).
Proof.
  intros HA HB HF Hd. unfold render.
  assert (on ∖ (F ∖ (A ∪ B)) = (on ∖ F) ∪ A) as ->.
  { apply set_eq. intros n. rewrite elem_of_union, !elem_of_difference, elem_of_union.
    specialize (HA n). specialize (HB n). specialize (HF n). specialize (Hd n). rewrite elem_of_union in HF.
    destruct (decide (n ∈ F)), (decide (n ∈ A)), (decide (n ∈ B)); tauto. }
  assert (on ∩ (F ∖ (A ∪ B)) ∪ early ∖ B = ((on ∩ F) ∪ early) ∖ (A ∪ B)) as -> by set_solver.
  assert (on ∪ early ∖ B = (on ∪ early) ∖ B) as -> by set_solver.
  rewrite (psum_union _ _ (on ∖ F)), (psum_diff _ _ ((on ∩ F) ∪ early)) by set_solver. unfold fee_sum. rewrite ssum_diff by set_solver.
  rewrite (psum_union _ _ A B) by set_solver. by f_equal.
Qed.

Lemma recover_step_spec all F on early r e r' es' b :
  let T := EQ.r_remaining r in
  let A := on ∩ dom T in let B := early ∩ dom T in
  part_of all T -> dom T ⊆ F -> on ## early ->
  EQ.recover_step size r e (render size all F on early) = Ok (r', es', b) ->
  es' = render size all (F ∖ (A ∪ B)) on (early ∖ B) /\
  part_of all (EQ.r_remaining r') /\ dom (EQ.r_remaining r') = dom T ∖ (on ∪ early) /\
  EQ.r_power r' = pp_add (EQ.r_power r) (psum size all (A ∪ B)) /\
  exists l, EQ.r_rescheduled r' = EQ.r_rescheduled r ++ l /\ numbers l = B /\ from_table all l /\
    NoDup (sector_number <$> l).
Proof.
  intros T A B HT HF Hd H. unfold EQ.recover_step in H. fold T in H.
  cbn [render on_time_sectors early_sectors on_time_pledge active_power faulty_power fee_deduction] in H.
  destruct (omap_infos all T (bits on) HT (NoDup_bits _)) as (N1 & T1 & D1). rewrite from_bits_bits in N1. fold A in N1.
  pose proof (part_of_delete all T (bits on) HT) as HT1. set (Tr := foldr delete T (bits on)) in *.
  assert (dom Tr = dom T ∖ on) as Hdom by (unfold Tr; by rewrite dom_foldr_delete, from_bits_bits).
  destruct (omap_infos all Tr (bits early) HT1 (NoDup_bits _)) as (N2 & T2 & D2). rewrite from_bits_bits, Hdom in N2.
  assert (early ∩ (dom T ∖ on) = B) as EB by set_solver. rewrite EB in N2.
  assert (from_bits (filter (fun u => is_Some (Tr !! u)) (bits early)) = B) as EU.
  { rewrite <- EB, <- Hdom. apply set_eq. intros n. rewrite elem_of_from_bits, list_elem_of_filter, elem_of_bits,
      elem_of_intersection, elem_of_dom. tauto. }
  rewrite (sum_power_psum all _ T1 D1), (sum_power_psum all _ T2 D2), (fee_numbers all _ T2 D2), N1, N2 in H.
  assert (render size all (F ∖ (A ∪ B)) on (early ∖ B) = render size all (F ∖ (A ∪ B)) on (early ∖ B)) as Er by done.
  rewrite (render_recover all F on early A B) in Er at 1 by set_solver. rewrite EU, Er in H.
  match type of H with context [if ?c then ?x else ?y] => assert ((if c then x else y) = y) as Ey end.
  { destruct (_ && _) eqn:Ec; [|done]. rewrite !andb_true_iff, bool_decide_eq_true in Ec.
    destruct Ec as [[E1 _] E2]. rewrite E1 in EU. unfold from_bits in EU. cbn in EU. rewrite <- Er, <- EU.
    assert (psum size all A = pp_zero) as ->.
    { unfold pp_is_zero in E2. rewrite andb_true_iff, !Z.eqb_eq in E2. destruct (psum size all A), E2. cbn in *. by subst. }
    unfold fee_sum. rewrite ssum_empty, psum_empty, pp_add_zero, difference_empty_L, Z.add_0_r.
    change (pp_neg _) with pp_zero. by rewrite pp_add_zero. }
  rewrite Ey in H. clear Ey. minv. cbn [EQ.r_remaining EQ.r_rescheduled EQ.r_power].
  split_and!; [done|by apply part_of_delete| | |eexists; eauto].
  - rewrite dom_foldr_delete, Hdom, from_bits_bits. set_solver.
  - rewrite psum_union by set_solver. unfold pp_add. cbn. f_equal; lia.
Qed.

Definition early_of P : BitField := dom (filter (fun p => slot_early p.2 = true) P).

Lemma elem_of_early_of P n : n ∈ early_of P <-> exists e, P !! n = Some (mkSlot e true).
Proof.
  unfold early_of. rewrite elem_of_dom. split.
  - intros [[e b] [H1 H2]%map_lookup_filter_Some]. cbn in *. subst. eauto.
  - intros (e & H1). exists (mkSlot e true). by apply map_lookup_filter_Some.
Qed.

(** The sectors of [Y] have been found; those that were to leave early are out
    of the queue. *)
Definition recovering all F P X (r : EQ.Recovered) (rest : list (Z * ExpirationSet)) q : Prop :=
  let Y := X ∖ dom (EQ.r_remaining r) in
  part_of all (EQ.r_remaining r) /\ dom (EQ.r_remaining r) ⊆ X /\
  (forall e es, (e, es) ∈ rest -> es = slot_set size all F P e) /\
  (forall n, n ∈ Y -> exists s, P !! n = Some s /\ slot_epoch s ∉ rest.*1) /\
  rep size all (F ∖ Y) (drop_from (Y ∩ early_of P) P) q /\
  EQ.r_power r = psum size all Y /\
  numbers (EQ.r_rescheduled r) = Y ∩ early_of P /\ from_table all (EQ.r_rescheduled r) /\
  NoDup (sector_number <$> EQ.r_rescheduled r).

Lemma diff_diff X Y (Z : BitField) : Y ⊆ X -> X ∖ (Y ∖ Z) = (X ∖ Y) ∪ (Z ∩ Y).
Proof.
  intros H. apply set_eq. intros n. specialize (H n).
  rewrite elem_of_union, elem_of_intersection, !elem_of_difference.
  destruct (decide (n ∈ Y)), (decide (n ∈ Z)); tauto.
Qed.

Lemma NoDup_numbers_app l l' : numbers l ## numbers l' -> NoDup (sector_number <$> l) ->
  NoDup (sector_number <$> l') -> NoDup (sector_number <$> (l ++ l')).
Proof.
  intros H H1 H2. rewrite fmap_app. apply NoDup_app. split_and!; [done| |done].
  intros n Hn Hn'. apply (H n); apply elem_of_from_bits; done.
Qed.

Lemma numbers_app l l' : numbers (l ++ l') = numbers l ∪ numbers l'.
Proof. unfold numbers. rewrite fmap_app. apply from_bits_app. Qed.

Lemma recovering_step all F P X r e es rest q r' es' b : X ⊆ F ->
  NoDup ((e, es) :: rest).*1 -> recovering all F P X r ((e, es) :: rest) q ->
  EQ.recover_step size r e es = Ok (r', es', b) -> recovering all F P X r' rest (put e es' q).
Proof.
  intros HX Hd (HT & HTX & Hent & HY & Hr & Hpw & Hn & Ht & Hnd) H.
  rewrite (Hent e es) in H by left. unfold slot_set in H.
  apply (recover_step_spec all) in H as (-> & HT' & Hdom & Hpw' & l & Hl & Nl & Tl & Dl);
    [|done|set_solver|apply held_disj_early].
  set (T := EQ.r_remaining r) in *. set (on := held P e false) in *. set (early := held P e true) in *.
  set (Y := X ∖ dom T) in *. cbn [fmap list_fmap fst] in Hd. apply NoDup_cons in Hd as [Hne Hd].
  assert (X ∖ dom (EQ.r_remaining r') = Y ∪ (on ∪ early) ∩ dom T) as EY.
  { rewrite Hdom. by apply diff_diff. }
  assert (on ∩ dom T ∪ early ∩ dom T = (on ∪ early) ∩ dom T) as EAB by set_solver. rewrite EAB in Hpw'.
  assert (forall n b, n ∈ held P e b -> n ∉ Y) as HYe.
  { intros n b' Hh%elem_of_held Hy. destruct (HY n Hy) as (s & Hs & Hk). rewrite Hs in Hh. injection Hh as ->.
    apply Hk. left. }
  assert (forall n, n ∈ on -> n ∉ early_of P) as Hon.
  { intros n Hh%elem_of_held (e' & He')%elem_of_early_of. congruence. }
  assert (forall n, n ∈ early -> n ∈ early_of P) as Hea.
  { intros n Hh%elem_of_held. apply elem_of_early_of. eauto. }
  assert ((Y ∪ (on ∪ early) ∩ dom T) ∩ early_of P = (Y ∩ early_of P) ∪ (early ∩ dom T)) as EE by set_solver.
  unfold recovering. fold T. rewrite EY, EE. set (B := early ∩ dom T) in *. set (G := (on ∪ early) ∩ dom T) in *.
  split_and!; [done|set_solver|intros; apply Hent; by right| | |by rewrite Hpw', Hpw, psum_union by set_solver| | |].
  - intros n [Hy|Hg]%elem_of_union.
    + destruct (HY n Hy) as (s & Hs & Hk). exists s. split; [done|]. intros Hi. apply Hk. by right.
    + apply elem_of_intersection in Hg as [[Hg|Hg]%elem_of_union _]; apply elem_of_held in Hg; eexists; (split; [exact Hg|done]).
  - assert (render size all (F ∖ (on ∩ dom T ∪ B)) on (early ∖ B) =
      slot_set size all (F ∖ (Y ∪ G)) (drop_from (Y ∩ early_of P ∪ B) P) e) as ->.
    { unfold slot_set. rewrite !held_drop. fold on early.
      apply render_ext; [|..|by intros ?|]; try (apply set_eq; intros n).
      - pose proof (HYe n false). pose proof (Hon n). set_solver.
      - pose proof (HYe n true). set_solver.
      - intros n Hn'. pose proof (HYe n false Hn'). rewrite EAB. fold G. set_solver. }
    apply (rep_put size all (F ∖ Y) _ (drop_from (Y ∩ early_of P) P)); [done|..].
    + intros n e' b' Hne'. rewrite !lookup_drop_from. destruct (decide (n ∈ B)) as [Hb|Hb].
      * rewrite decide_True by (apply elem_of_union; by right). apply elem_of_intersection in Hb as [Hb%elem_of_held _].
        rewrite Hb. split; [done|]. case_decide; congruence.
      * assert (n ∈ Y ∩ early_of P ∪ B <-> n ∈ Y ∩ early_of P) as Hiff by (rewrite elem_of_union; tauto).
        by rewrite (decide_ext _ _ _ _ Hiff).
    + intros n e' b' Hne' Hl'. rewrite lookup_drop_from in Hl'. case_decide; [done|].
      assert (n ∉ G); [|set_solver]. by intros [[Hg%elem_of_held|Hg%elem_of_held]%elem_of_union _]%elem_of_intersection; congruence.
  - rewrite Hl, numbers_app, Hn, Nl. done.
  - rewrite Hl. by apply Forall_app.
  - rewrite Hl. apply NoDup_numbers_app; [|done..]. rewrite Hn, Nl. intros n [Hy _]%elem_of_intersection [Hb _]%elem_of_intersection.
    by apply (HYe n true).
Qed.

Lemma by_number_is_Some l s : s ∈ l -> is_Some (EQ.by_number l !! sector_number s).
Proof.
  unfold EQ.by_number. induction l as [|s' l IH] using rev_ind; [by intros ?%elem_of_nil|].
  rewrite foldl_snoc. intros [H| ->%list_elem_of_singleton]%elem_of_app; [|rewrite lookup_insert_eq; by eexists].
  destruct (decide (sector_number s' = sector_number s)) as [->|Hne]; [rewrite lookup_insert_eq; by eexists|].
  rewrite lookup_insert_ne by done. auto.
Qed.

(** [reschedule_recovered]: faulty sectors recover. *)
Lemma reschedule_recovered_tracks all F P q l power q' :
  from_table all l -> tracks size quant all F P q -> numbers l ⊆ F ->
  EQ.reschedule_recovered quant size l q = Ok (power, q') ->
  power = psum size all (numbers l) /\
  tracks size quant all (F ∖ numbers l) (declare quant all (numbers l ∩ early_of P) P) q' /\ numbers l ⊆ dom P.
Proof.
  intros Ht [Hr Hp] HX H. unfold EQ.reschedule_recovered in H. set (X := numbers l) in *.
  apply rbind_ok in H as ([r q1] & H1 & H).
  eapply (iter_while_mut_inv _ (recovering all F P X)) in H1 as [rest (_ & _ & _ & HY & Hr1 & Hpw & Hn & Ht1 & Hd1)];
    [|intros; by eapply recovering_step|].
  - destruct (bool_decide (EQ.r_remaining r = ∅)) eqn:E; [|discriminate]. apply bool_decide_eq_true in E.
    rewrite E, dom_empty_L, difference_empty_L in *. cbn in H. apply rbind_ok in H as ([t q2] & H2 & H). injection H as <- <-.
    set (E' := X ∩ early_of P) in *. assert (X ⊆ dom P) as Hdom.
    { intros n Hx. destruct (HY n Hx) as (s & Hs & _). by eapply lookup_declared_dom. }
    assert (plan_ok quant (F ∖ X) (drop_from E' P)) as Hp1.
    { intros n s. rewrite lookup_drop_from. case_decide as De; [done|]. intros Hs.
      destruct (Hp n s Hs) as (A & B & C). split_and!; [done..|]. intros Hes. apply elem_of_difference. split; [auto|].
      intros Hx. apply De, elem_of_intersection. split; [done|]. apply elem_of_early_of. destruct s as [e []]; [eauto|done]. }
    eapply (add_active_sectors_tracks size quant Hunit all (F ∖ X)) in H2 as [_ H2];
      [|done|done|by split|rewrite Hn..].
    + rewrite Hn in H2. split; [done|]. split; [|done].
      assert (declare quant all E' (drop_from E' P) = declare quant all E' P) as <-; [|done].
      apply map_eq. intros n. rewrite !lookup_declare, !lookup_drop_from.
      destruct (all !! n) as [s|] eqn:Es; [by case_decide|]. rewrite decide_False; [done|].
      rewrite <- Hn. intros (s & Hs & Hns)%elem_of_numbers. unfold from_table in Ht1. rewrite Forall_forall in Ht1.
      apply Ht1 in Hs. congruence.
    + intros n He [s Hs]%elem_of_dom. rewrite lookup_drop_from, decide_True in Hs by done. done.
    + set_solver.
  - assert (dom (EQ.by_number l) = X) as Ed.
    { apply set_eq. intros n. rewrite elem_of_dom. unfold X. rewrite elem_of_numbers. split.
      - intros [s [Hs Hn]%by_number_elem]. eauto.
      - intros (s & Hs & <-). by apply by_number_is_Some. }
    unfold recovering. cbn [EQ.r_remaining EQ.r_rescheduled EQ.r_power]. rewrite Ed.
    assert (X ∖ X = ∅) as -> by set_solver. rewrite psum_empty.
    assert (∅ ∩ early_of P = ∅) as -> by set_solver. rewrite drop_empty, difference_empty_L.
    split_and!; [|done| |set_solver|done|done|done|constructor|constructor].
    + intros n s Hs. apply (by_number_Some all) in Hs as (_ & ? & ?); [done|done].
    + intros e es Hes%elem_of_entries. by apply (rep_lookup size all F P q).
Qed.
End recover.
