(* ===== verification/MinerPlanRemove.v ===== *)
(** * The miner actor: terminated sectors leave the plan

    [remove_sectors] of expiration_queue.rs: the active sectors are removed as
    by [remove_active_sectors], the faulty ones by a walk over the queue. *)

From S2P Require Import Prelude Runtime Collections MinerBase MinerQueues MinerEpochs MinerMoney MinerPlan MinerPlanOps MinerPlanPop.

Import Miner.

Section remove.
Context (size : Z).
Implicit Types (all : Infos) (P Q : Plan) (X Y N F on early : BitField) (q : EQ.Queue) (l : list SectorOnChainInfo).

Lemma diff_empty X : X ∖ ∅ = X.
Proof. apply difference_empty_L. Qed.

(** What an entry loses, and a removal gains, when faulty sectors [N] leave. *)
Definition lose all on early N (es : ExpirationSet) : ExpirationSet :=
  mkES (on_time_sectors es ∖ (on ∩ N)) (early_sectors es ∖ (early ∩ N))
    (on_time_pledge es - pledge_sum all (on ∩ N)) (active_power es)
    (pp_sub (faulty_power es) (psum size all ((on ∪ early) ∩ N)))
    (fee_deduction es - fee_sum all ((on ∪ early) ∩ N)).

Definition gain all recovering on early N (r : EQ.Removal) : EQ.Removal :=
  let s := EQ.rm_removed r in
  EQ.mkRemoval
    (mkES (on_time_sectors s ∪ (on ∩ N)) (early_sectors s ∪ (early ∩ N))
       (on_time_pledge s + pledge_sum all (on ∩ N)) (active_power s)
       (pp_add (faulty_power s) (psum size all ((on ∪ early) ∩ N)))
       (fee_deduction s + fee_sum all ((on ∪ early) ∩ N)))
    (pp_add (EQ.rm_recovering r) (psum size all ((on ∪ early) ∩ N ∩ recovering)))
    (EQ.rm_remaining r ∖ ((on ∪ early) ∩ N)).

Lemma lose_union all on early N N' es : N ## N' ->
  lose all on early N' (lose all on early N es) = lose all on early (N ∪ N') es.
Proof.
  intros H. unfold lose. cbn.
  assert (on ∩ (N ∪ N') = on ∩ N ∪ on ∩ N') as -> by set_solver.
  assert ((on ∪ early) ∩ (N ∪ N') = (on ∪ early) ∩ N ∪ (on ∪ early) ∩ N') as -> by set_solver.
  rewrite psum_union by set_solver. unfold pledge_sum, fee_sum. rewrite !ssum_union by set_solver.
  f_equal; [set_solver|set_solver|lia| |lia]. unfold pp_sub, pp_add. cbn. f_equal; lia.
Qed.

Lemma gain_union all recovering on early N N' r : N ## N' ->
  gain all recovering on early N' (gain all recovering on early N r) = gain all recovering on early (N ∪ N') r.
Proof.
  intros H. unfold gain. cbn.
  assert (on ∩ (N ∪ N') = on ∩ N ∪ on ∩ N') as -> by set_solver.
  assert ((on ∪ early) ∩ (N ∪ N') = (on ∪ early) ∩ N ∪ (on ∪ early) ∩ N') as -> by set_solver.
  assert (((on ∪ early) ∩ N ∪ (on ∪ early) ∩ N') ∩ recovering =
          (on ∪ early) ∩ N ∩ recovering ∪ (on ∪ early) ∩ N' ∩ recovering) as -> by set_solver.
  rewrite !psum_union by set_solver. unfold pledge_sum, fee_sum. rewrite !ssum_union by set_solver.
  unfold pp_sub, pp_add. cbn. f_equal; [f_equal|f_equal; lia|set_solver].
  all: try (f_equal; lia); try lia; set_solver.
Qed.

Lemma lose_none all on early N es : (on ∪ early) ∩ N = ∅ -> lose all on early N es = es.
Proof.
  intros H. unfold lose. rewrite H. assert (on ∩ N = ∅) as -> by set_solver. assert (early ∩ N = ∅) as -> by set_solver.
  unfold pledge_sum, fee_sum. rewrite psum_empty, pp_sub_zero, !ssum_empty, !diff_empty, !Z.sub_0_r. by destruct es.
Qed.

Lemma gain_none all recovering on early N r : (on ∪ early) ∩ N = ∅ -> gain all recovering on early N r = r.
Proof.
  intros H. unfold gain. rewrite H. assert (on ∩ N = ∅) as -> by set_solver. assert (early ∩ N = ∅) as -> by set_solver.
  assert (∅ ∩ recovering = ∅) as -> by set_solver. unfold pledge_sum, fee_sum.
  destruct r as [[] ? ?]. cbn. rewrite !psum_empty, !pp_add_zero, !ssum_empty, !Z.add_0_r, !union_empty_r_L.
  by rewrite diff_empty.
Qed.

Lemma psum_single all s : all !! sector_number s = Some s -> psum size all {[sector_number s]} = power_for_sector size s.
Proof. intros H. unfold psum. rewrite !ssum_singleton. unfold power_of. by rewrite H. Qed.

Lemma remove_one_spec all faults recovering on early r es s :
  all !! sector_number s = Some s -> sector_number s ∈ faults -> on ## early ->
  EQ.remove_one size faults recovering on early (r, es) s =
  (gain all recovering on early {[sector_number s]} r, lose all on early {[sector_number s]} es).
Proof.
  intros Hs HF Hd. set (n := sector_number s) in *. pose proof (psum_single all s Hs) as Hp. fold n in Hp.
  assert (pledge_sum all {[n]} = initial_pledge s) as Hpl.
  { unfold pledge_sum. rewrite ssum_singleton. unfold pledge_of. by rewrite Hs. }
  assert (fee_sum all {[n]} = daily_fee s) as Hfe.
  { unfold fee_sum. rewrite ssum_singleton. unfold fee_of. by rewrite Hs. }
  unfold EQ.remove_one. fold n. unfold bf_get. rewrite (bool_decide_eq_true_2 (n ∈ faults)) by done.
  assert (forall X, n ∈ X -> X ∩ {[n]} = {[n]}) as Hin by set_solver.
  assert (forall X, n ∉ X -> X ∩ {[n]} = ∅) as Hout by set_solver.
  assert (psum size all ({[n]} ∩ recovering) =
          if bool_decide (n ∈ recovering) then power_for_sector size s else pp_zero) as Hrec.
  { case_bool_decide; [rewrite <- Hp; f_equal; set_solver|]. rewrite <- (psum_empty size all). f_equal. set_solver. }
  destruct (bool_decide_reflect (n ∈ on)) as [D1|D1]; [|destruct (bool_decide_reflect (n ∈ early)) as [D2|D2]];
    cbn [negb].
  - assert (n ∉ early) by (intros ?; by apply (Hd n)). assert (n ∈ on ∪ early) by (apply elem_of_union; by left).
    unfold gain, lose. rewrite (Hin on), (Hout early), (Hin (on ∪ early)), Hp, Hpl, Hfe, Hrec by done. cbn.
    rewrite !diff_empty, !union_empty_r_L. by destruct (bool_decide (n ∈ recovering)); rewrite ?pp_add_zero.
  - assert (n ∈ on ∪ early) by (apply elem_of_union; by right).
    unfold gain, lose. rewrite (Hout on), (Hin early), (Hin (on ∪ early)), Hp, Hfe, Hrec by done. cbn.
    unfold pledge_sum. rewrite !ssum_empty, !diff_empty, !union_empty_r_L, Z.add_0_r, Z.sub_0_r.
    by destruct (bool_decide (n ∈ recovering)); rewrite ?pp_add_zero.
  - assert ((on ∪ early) ∩ {[n]} = ∅) by (apply Hout; by intros [?|?]%elem_of_union). by rewrite gain_none, lose_none.
Qed.

Lemma remove_fold all faults recovering on early l : forall r es,
  from_table all l -> NoDup (sector_number <$> l) -> numbers l ⊆ faults -> on ## early ->
  foldl (EQ.remove_one size faults recovering on early) (r, es) l =
  (gain all recovering on early (numbers l) r, lose all on early (numbers l) es).
Proof.
  induction l as [|s l IH]; intros r es Ht Hd HF He.
  { cbn. rewrite gain_none, lose_none by set_solver. done. }
  apply Forall_cons in Ht as [Hs Ht]. cbn in Hd. apply NoDup_cons in Hd as [Hn Hd].
  assert (numbers (s :: l) = {[sector_number s]} ∪ numbers l) as E by done. rewrite E in *.
  cbn [foldl]. rewrite (remove_one_spec all) by (done || set_solver). rewrite IH by (done || set_solver).
  assert ({[sector_number s]} ## numbers l) as Hdj.
  { intros n ->%elem_of_singleton Hi. apply Hn. by apply elem_of_from_bits in Hi. }
  by rewrite gain_union, lose_union.
Qed.

Lemma render_lose_faulty all F on early N :
  N ⊆ F -> on ## early -> lose all on early N (render size all F on early) = render size all F (on ∖ N) (early ∖ N).
Proof.
  intros HF Hd. unfold lose, render. cbn.
  assert ((on ∖ N) ∖ F = on ∖ F) as -> by set_solver.
  assert ((on ∖ N) ∩ F ∪ early ∖ N = (on ∩ F ∪ early) ∖ ((on ∪ early) ∩ N)) as -> by (apply set_eq; set_solver).
  assert (on ∖ N ∪ early ∖ N = (on ∪ early) ∖ ((on ∪ early) ∩ N)) as -> by set_solver.
  assert (on ∖ (on ∩ N) = on ∖ N) as -> by set_solver. assert (early ∖ (early ∩ N) = early ∖ N) as -> by set_solver.
  assert (on ∖ N = on ∖ (on ∩ N)) as -> by set_solver.
  rewrite (psum_diff _ _ (on ∩ F ∪ early)) by set_solver. unfold pledge_sum, fee_sum.
  rewrite (ssum_diff _ (on ∪ early)), (ssum_diff _ on) by set_solver. done.
Qed.

Lemma gain_render all F recovering on early N A B r :
  EQ.rm_removed r = render size all F A B -> N ⊆ F -> on ## early -> A ## B -> (A ∪ B) ## (on ∪ early) ->
  EQ.rm_removed (gain all recovering on early N r) = render size all F (A ∪ on ∩ N) (B ∪ early ∩ N).
Proof.
  intros Hr HF Hd Hd' Hdj. unfold gain. cbn. rewrite Hr. rewrite <- render_sum by set_solver. unfold es_sum, render. cbn.
  assert ((on ∩ N) ∖ F = ∅) as -> by set_solver. rewrite psum_empty, pp_add_zero.
  assert (on ∩ N ∩ F ∪ early ∩ N = (on ∪ early) ∩ N) as -> by (apply set_eq; set_solver).
  assert (on ∩ N ∪ early ∩ N = (on ∪ early) ∩ N) as -> by set_solver. done.
Qed.

(** The sectors of [Y] have been removed, besides the active ones [T]. *)
Definition removing all F P recovering T X (r : EQ.Removal) (rest : list (Z * ExpirationSet)) q : Prop :=
  let Y := X ∖ EQ.rm_remaining r in
  EQ.rm_remaining r ⊆ X /\
  (forall e es, (e, es) ∈ rest -> es = slot_set size all F P e) /\
  (forall n, n ∈ Y -> exists s, P !! n = Some s /\ slot_epoch s ∉ rest.*1) /\
  rep size all F (drop_from Y P) q /\
  EQ.rm_removed r = render size all F (T ∪ Y ∖ early_of P) (Y ∩ early_of P) /\
  EQ.rm_recovering r = psum size all (Y ∩ recovering).

Lemma removing_step all F P faults recovering T X l r e es rest q r' es' b :
  from_table all l -> NoDup (sector_number <$> l) -> numbers l = X -> X ⊆ F -> X ⊆ faults -> T ## dom P ->
  NoDup ((e, es) :: rest).*1 -> removing all F P recovering T X r ((e, es) :: rest) q ->
  EQ.remove_step size faults recovering l r e es = Ok (r', es', b) ->
  removing all F P recovering T X r' rest (put e es' q).
Proof.
  intros Ht Hnd EX HF Hfl HT Hd (HR & Hent & HY & Hr & Hrm & Hrec) H.
  rewrite (Hent e es) in H by left. unfold EQ.remove_step in H. 
  cbn [slot_set render on_time_sectors early_sectors] in H.
  set (on := held P e false) in *. set (early := held P e true) in *.
  pose proof (held_disj_early P e) as Hoe. fold on early in Hoe.
  destruct (bf_len on >? _); [discriminate|]. destruct (bf_len early >? _); [discriminate|].
  rewrite (remove_fold all) in H by (done || by rewrite EX). apply rbind_ok in H as ([] & _ & H). injection H as <- <- _.
  unfold slot_set. fold on early. rewrite EX. rewrite render_lose_faulty by done.
  set (Y := X ∖ EQ.rm_remaining r) in *. cbn [fmap list_fmap fst] in Hd. apply NoDup_cons in Hd as [Hne Hd].
  assert (forall n b, n ∈ held P e b -> n ∉ Y) as HYe.
  { intros n b' Hh%elem_of_held Hy. destruct (HY n Hy) as (s & Hs & Hk). rewrite Hs in Hh. injection Hh as ->.
    apply Hk. left. }
  assert (forall n, n ∈ on -> n ∉ early_of P) as Hon.
  { intros n Hh%elem_of_held (e' & He')%elem_of_early_of. congruence. }
  assert (forall n, n ∈ early -> n ∈ early_of P) as Hea.
  { intros n Hh%elem_of_held. apply elem_of_early_of. eauto. }
  assert (Y ## on ∪ early) as HYd.
  { intros n Hy [Hh|Hh]%elem_of_union; by eapply HYe. }
  assert (T ## on ∪ early) as HTd.
  { pose proof (held_dom P e false). pose proof (held_dom P e true). unfold on, early. set_solver. }
  set (G := (on ∪ early) ∩ X) in *.
  assert (X ∖ (EQ.rm_remaining r ∖ G) = Y ∪ G) as EY.
  { rewrite diff_diff by done. fold Y. assert (G ⊆ EQ.rm_remaining r); [|clear -H; set_point].
    intros n [Hh Hx]%elem_of_intersection. destruct (decide (n ∈ EQ.rm_remaining r)); [done|].
    exfalso. apply (HYd n); [|done]. by apply elem_of_difference. }
  unfold removing. cbn [gain EQ.rm_remaining]. fold G. rewrite EY. 
  split_and!; [clear -HR; set_point|intros; apply Hent; by right|..].
  - intros n [Hy|[Hg _]%elem_of_intersection]%elem_of_union.
    + destruct (HY n Hy) as (s & Hs & Hk). exists s. split; [done|]. intros Hi. apply Hk. by right.
    + apply elem_of_union in Hg as [Hg|Hg]; apply elem_of_held in Hg; eexists; (split; [exact Hg|done]).
  - assert (render size all F (on ∖ X) (early ∖ X) = slot_set size all F (drop_from G (drop_from Y P)) e) as ->.
    { unfold slot_set. rewrite !held_drop. fold on early.
      by assert (on ∖ Y ∖ G = on ∖ X /\ early ∖ Y ∖ G = early ∖ X) as [-> ->] by (clear -HYd; subst G; split; set_point). }
    rewrite <- drop_drop. apply (rep_drop size all F); [done| |done]. intros n s [Hg _]%elem_of_intersection Hs.
    rewrite lookup_drop_from in Hs. case_decide; [done|].
    apply elem_of_union in Hg as [Hg|Hg]; apply elem_of_held in Hg; rewrite Hs in Hg; by injection Hg as ->.
  - change (EQ.rm_removed (gain all recovering on early X r) =
      render size all F (T ∪ (Y ∪ G) ∖ early_of P) ((Y ∪ G) ∩ early_of P)).
    assert (Y ## T) as HYT.
    { intros n Hy Hn. destruct (HY n Hy) as (s & Hs & _). apply (HT n Hn). by eapply lookup_declared_dom. }
    rewrite (gain_render all F recovering on early X _ _ r Hrm) by (done || clear -HYd HTd HYT; set_point).
    clear -HYd HTd HYT Hon Hea. clearbody Y. f_equal; subst G; set_point.
  - change (pp_add (EQ.rm_recovering r) (psum size all (G ∩ recovering)) = psum size all ((Y ∪ G) ∩ recovering)).
    rewrite Hrec, <- psum_union by (clear -HYd; clearbody Y; subst G; set_point). f_equal. clear. set_point.
Qed.
End remove.

Section remove_sectors.
Context (size : Z) (quant : QuantSpec) (Hunit : 0 < unit_ quant).
Implicit Types (all : Infos) (P : Plan) (X Y F : BitField) (q : EQ.Queue) (l : list SectorOnChainInfo).

Lemma numbers_filter l F :
  numbers (filter (fun s => sector_number s ∈ F) l) = numbers l ∩ F /\
  numbers (filter (fun s => sector_number s ∉ F) l) = numbers l ∖ F.
Proof.
  split; apply set_eq; intros n; rewrite ?elem_of_intersection, ?elem_of_difference, !elem_of_numbers;
    setoid_rewrite list_elem_of_filter; naive_solver.
Qed.

(** [remove_sectors] takes sectors out of the plan. *)
Lemma remove_sectors_tracks policy all F recovering P q l removed rec q' :
  from_table all l -> NoDup (sector_number <$> l) -> tracks size quant all F P q ->
  EQ.remove_sectors quant size policy l F recovering q = Ok (removed, rec, q') ->
  let X := numbers l in
  removed = render size all F (X ∖ early_of P) (X ∩ early_of P) /\
  rec = psum size all (X ∩ F ∩ recovering) /\
  tracks size quant all F (drop_from X P) q' /\ X ⊆ dom P.
Proof.
  intros Ht Hd Hq H X. unfold EQ.remove_sectors in H.
  destruct (bf_len F >? _); [discriminate|]. destruct (bf_len recovering >? _); [discriminate|].
  destruct (numbers_filter l F) as [Nf Nn]. fold X in Nf, Nn.
  set (lf := filter (fun s => sector_number s ∈ F) l) in *. set (ln := filter (fun s => sector_number s ∉ F) l) in *.
  fold (numbers l) (numbers ln) in H. fold X in H. rewrite Nn in H.
  assert (X ∖ (X ∖ F) = X ∩ F) as ER by set_point. rewrite ER in H.
  apply rbind_ok in H as ([t q1] & H1 & H).
  apply (remove_active_sectors_tracks size quant Hunit all F P) in H1 as (-> & [Hr1 Hp1] & Ha);
    [|by apply from_table_filter|done|rewrite Nn; clear; set_point].
  rewrite Nn in *. set (P1 := drop_from (X ∖ F) P) in *. cbn [EQ.t_sectors EQ.t_pledge EQ.t_power EQ.t_fee] in H.
  apply rbind_ok in H as ([r q2] & H2 & H).
  destruct (negb (bf_empty (EQ.rm_remaining r))) eqn:Em; [discriminate|]. injection H as <- <- <-.
  apply negb_false_iff, bool_decide_eq_true in Em.
  eapply (iter_while_mut_inv _ (removing size all F P1 recovering (X ∖ F) (X ∩ F))) in H2
    as [rest (_ & _ & HY & Hr2 & Hrm & Hrec)].
  - rewrite Em in *. assert (X ∩ F ∖ ∅ = X ∩ F) as E by apply difference_empty_L. rewrite E in *. clear E.
    assert (forall n, n ∈ X -> n ∉ F -> n ∉ early_of P) as Hea.
    { intros n Hx Hf (e & He)%elem_of_early_of. destruct (Ha n) as (e' & He'); [by apply elem_of_difference|]. congruence. }
    assert (forall n, n ∈ F -> n ∈ early_of P1 <-> n ∈ early_of P) as Hee.
    { intros n Hf. rewrite !elem_of_early_of. unfold P1. setoid_rewrite lookup_drop_from.
      rewrite decide_False; [done|]. by intros [_ ?]%elem_of_difference. }
    assert (X ∖ F ∪ X ∩ F = X) as EX by set_point.
    rewrite Hrec. split_and!; [|done| |].
    + rewrite Hrm. f_equal; apply set_eq; intros n; specialize (Hea n); specialize (Hee n);
        rewrite ?elem_of_union, ?elem_of_difference, ?elem_of_intersection; split_atoms n; tauto.
    + unfold P1 in Hr2. rewrite drop_drop, EX in Hr2. split; [done|]. by apply (plan_ok_drop quant F); [apply Hq|].
    + intros n Hx. destruct (decide (n ∈ F)) as [Hf|Hf].
      * destruct (HY n) as (s & Hs & _); [by apply elem_of_intersection|]. unfold P1 in Hs.
        rewrite lookup_drop_from in Hs. case_decide; [done|]. by eapply lookup_declared_dom.
      * destruct (Ha n) as (e & He); [by apply elem_of_difference|]. by eapply lookup_declared_dom.
  - intros. eapply (removing_step size all F P1 F recovering (X ∖ F) (X ∩ F) lf); eauto using from_table_filter, NoDup_numbers_filter.
    + clear; set_point.
    + clear; set_point.
    + intros n Hn [s Hs]%elem_of_dom. unfold P1 in Hs. rewrite lookup_drop_from, decide_True in Hs by done. done.
  - unfold removing. cbn [EQ.rm_remaining EQ.rm_removed EQ.rm_recovering].
    assert (X ∩ F ∖ (X ∩ F) = ∅) as -> by (clear; set_point).
    split_and!; [done| |set_solver|by rewrite drop_empty| |].
    + intros e es Hes%elem_of_entries. by apply (rep_lookup size all F P1 q1).
    + assert (X ∖ F ∪ ∅ ∖ early_of P1 = X ∖ F) as -> by (clear; set_point).
      assert (∅ ∩ early_of P1 = ∅) as -> by (clear; set_point). unfold render.
      assert (X ∖ F ∖ F = X ∖ F) as -> by (clear; set_point). assert ((X ∖ F) ∩ F ∪ ∅ = ∅) as -> by (clear; set_point).
      by rewrite union_empty_r_L, psum_empty.
    + assert (∅ ∩ recovering = ∅) as -> by (clear; set_point). by rewrite psum_empty.
Qed.
End remove_sectors.
