(* ===== verification/MinerParts.v ===== *)
(** * The miner actor: the invariant of partitions

    A partition is well-formed when its expiration queue is the image of a plan
    of its live sectors, its sets of sectors are nested as they should be, and
    its memoized powers are the sums over these sets.  Every operation of
    partition_state.rs preserves this, and the deltas it returns are the changes
    of the sums. *)

From S2P Require Import Prelude Runtime Collections MinerBase MinerQueues MinerPartition MinerEpochs MinerMoney MinerPlan MinerPlanOps MinerPlanPop MinerPlanRemove.

Import Miner.

(** Infos are stored under their numbers. *)
Definition table_ok (all : Infos) : Prop := forall n s, all !! n = Some s -> sector_number s = n.

Lemma load_sectors_spec all ns l : table_ok all -> Sectors.load_sectors ns all = Ok l ->
  numbers l = ns /\ from_table all l /\ NoDup (sector_number <$> l) /\ ns ⊆ dom all.
Proof.
  intros Ht H. unfold Sectors.load_sectors in H.
  assert (forall ks acc l, rfold (fun acc n =>
    let! info := ok_or (all !! n) (Some USR_NOT_FOUND) in Ok (acc ++ [info])) acc ks = @Ok MErr _ l ->
    exists l', l = acc ++ l' /\ Forall2 (fun n s => all !! n = Some s) ks l') as Hgen.
  { clear H. induction ks as [|k ks IH]; intros acc l0 H; cbn [rfold] in H; minv.
    - exists []. by rewrite app_nil_r.
    - apply IH in H as (l' & -> & Hl). eexists (_ :: l'). rewrite <- app_assoc. split; [done|]. by constructor. }
  apply Hgen in H as (l' & -> & Hl). cbn [app]. clear Hgen.
  assert (sector_number <$> l' = bits ns /\ from_table all l' /\ Forall (fun n => n ∈ dom all) (bits ns)) as (E & Hf & Hd).
  { unfold from_table. induction Hl as [|n s ks l' Hn _ (IH1 & IH2 & IH3)]; [done|]. rewrite fmap_cons, IH1, (Ht n s Hn).
    split_and!; [done|constructor; [by rewrite (Ht n s Hn)|done]|constructor; [by apply elem_of_dom; eexists|done]]. }
  unfold numbers. rewrite E, from_bits_bits. split_and!; [done|done|apply NoDup_bits|].
  intros n Hn. rewrite Forall_forall in Hd. by apply Hd, elem_of_bits.
Qed.

Lemma load_sectors_nil all ns : Sectors.load_sectors ns all = Ok [] -> table_ok all -> ns = ∅.
Proof. intros H Ht. by apply (load_sectors_spec all) in H as (<- & _). Qed.

Section partitions.
Context (size : Z) (quant : QuantSpec) (Hunit : 0 < unit_ quant).
Implicit Types (all : Infos) (P : Plan) (X Y F ns : BitField) (p : Partition) (l : list SectorOnChainInfo).

Notation psum := (psum size).

Record part_wf all P p : Prop := {
  pw_plan : dom P = Part.live_sectors p;
  pw_queue : tracks size quant all (faults p) P (expirations_epochs p);
  pw_terminated : terminated p ⊆ sectors p;
  pw_faults : faults p ⊆ Part.live_sectors p;
  pw_unproven : unproven p ⊆ Part.live_sectors p ∖ faults p;
  pw_recoveries : recoveries p ⊆ faults p;
  pw_live_power : live_power p = psum all (Part.live_sectors p);
  pw_unproven_power : unproven_power p = psum all (unproven p);
  pw_faulty_power : p_faulty_power p = psum all (faults p);
  pw_recovering_power : recovering_power p = psum all (recoveries p);
  pw_infos : Part.live_sectors p ⊆ dom all;
  pw_early : forall e bf, early_terminated p !! e = Some bf -> bf ⊆ terminated p;
}.

Definition part_ok all p : Prop := exists P, part_wf all P p.

(** The power of the active sectors. *)
Lemma active_power_psum all P p : part_wf all P p ->
  Part.active_power p = psum all (Part.active_sectors p).
Proof.
  intros H. unfold Part.active_power, Part.active_sectors.
  rewrite (pw_live_power _ _ _ H), (pw_faulty_power _ _ _ H), (pw_unproven_power _ _ _ H).
  by rewrite !psum_diff by (apply H).
Qed.

Lemma part_new_wf all : part_wf all ∅ Part.new.
Proof.
  assert (Part.live_sectors Part.new = ∅) as E by (unfold Part.live_sectors; cbn; set_solver).
  constructor; rewrite ?E; cbn; rewrite ?psum_empty; try done.
Qed.

(** The invariant depends on the infos of the live sectors only. *)
Lemma part_wf_agree all all' P p :
  part_wf all P p -> agree all all' (Part.live_sectors p) -> part_wf all' P p.
Proof.
  intros H Ha.
  assert (forall X, X ⊆ Part.live_sectors p -> psum all X = psum all' X) as Hs.
  { intros X HX. apply psum_agree. intros n Hn. apply Ha, HX, Hn. }
  pose proof (pw_faults _ _ _ H) as Hf. pose proof (pw_unproven _ _ _ H) as Hu. pose proof (pw_recoveries _ _ _ H) as Hr.
  constructor; try apply H; try (rewrite <- Hs; [apply H|set_solver]).
  - destruct (pw_queue _ _ _ H) as [Hq Hp]. split; [|done].
    eapply rep_ext; [exact Hq| |done]. rewrite (pw_plan _ _ _ H). done.
  - intros n Hn. apply elem_of_dom. rewrite <- (Ha n Hn). apply elem_of_dom. by apply (pw_infos _ _ _ H).
Qed.

(** ** Adding sectors *)

Lemma add_active_sectors_numbers l q t q' :
  EQ.add_active_sectors quant size l q = Ok (t, q') -> EQ.t_sectors t = numbers l.
Proof.
  unfold EQ.add_active_sectors, EQ.group_new_sectors_by_declared_expiration. intros H.
  assert (forall ks t0 q0, rfold (fun '(t, q) g =>
    let! q := EQ.add quant (EQ.ses_epoch g) (from_bits (EQ.ses_sectors g)) ∅ (EQ.ses_power g) pp_zero
                (EQ.ses_pledge g) (EQ.ses_daily_fee g) q in
    Ok (EQ.add_totals t g, q)) (t0, q0)
    ((fun e => EQ.group_of size e (filter (fun s => quantize_up quant (expiration s) = e) l)) <$> ks) = @Ok MErr _ (t, q') ->
    EQ.t_sectors t = EQ.t_sectors t0 ∪ due_in quant ks l) as Hgen.
  { clear H. induction ks as [|k ks IH]; intros t0 q0 H.
    - cbn in H. injection H as <- <-. assert (due_in quant [] l = ∅) as ->; [|set_solver].
      apply set_eq. intros n. rewrite elem_of_due_in. setoid_rewrite elem_of_nil. set_solver.
    - rewrite fmap_cons in H. cbn [rfold] in H. apply rbind_ok in H as ([t1 q1] & H1 & H).
      apply rbind_ok in H1 as (q2 & _ & H1). injection H1 as <- <-. apply IH in H as ->.
      rewrite (due_in_cons quant k ks), (assoc_L (∪)). do 2 f_equal. cbn.
      unfold due_in, numbers. do 3 f_equal. apply list_filter_iff. intros s. by rewrite list_elem_of_singleton. }
  apply Hgen in H as ->. cbn. rewrite union_empty_l_L. apply set_eq. intros n.
  rewrite elem_of_due_in, elem_of_numbers. split; [naive_solver|]. intros (s & Hs & Hn). exists s. split_and!; [done..|].
  unfold EQ.declared_epochs. apply elem_of_bits, elem_of_from_bits, list_elem_of_fmap. eauto.
Qed.

Lemma dom_declare all X P : X ⊆ dom all -> dom (declare quant all X P) = X ∪ dom P.
Proof.
  intros HX. apply set_eq. intros n. rewrite elem_of_union, !elem_of_dom, lookup_declare.
  destruct (all !! n) as [s|] eqn:E.
  - case_decide; naive_solver.
  - split; [by right|]. intros [Hx|?]; [|done]. apply HX, elem_of_dom in Hx as [? ?]. congruence.
Qed.

Lemma from_table_dom all l : from_table all l -> numbers l ⊆ dom all.
Proof.
  unfold from_table. rewrite Forall_forall. intros H n (s & Hs%H & <-)%elem_of_numbers. apply elem_of_dom. eauto.
Qed.

Lemma contains_any_false X Y : contains_any X Y = false -> Y ## X.
Proof. unfold contains_any. rewrite negb_false_iff, bool_decide_eq_true. set_solver. Qed.

Lemma add_sectors_wf all P p proven l power fee p' :
  part_wf all P p -> from_table all l -> NoDup (sector_number <$> l) ->
  Part.add_sectors size quant proven l p = Ok (power, fee, p') ->
  let X := numbers l in
  X ## sectors p /\ power = psum all X /\ fee = fee_sum all X /\
  sectors p' = sectors p ∪ X /\ terminated p' = terminated p /\ faults p' = faults p /\
  recoveries p' = recoveries p /\ unproven p' = (if proven then unproven p else unproven p ∪ X) /\
  early_terminated p' = early_terminated p /\ part_wf all (declare quant all X P) p'.
Proof.
  intros H Ht Hd Ha X. unfold Part.add_sectors in Ha. apply rbind_ok in Ha as ([t q] & H1 & Ha).
  pose proof (add_active_sectors_numbers _ _ _ _ H1) as Et.
  destruct (contains_any (sectors p) (EQ.t_sectors t)) eqn:Ec; [discriminate|].
  apply contains_any_false in Ec. rewrite Et in Ec. fold X in Ec.
  pose proof (pw_plan _ _ _ H) as HP. pose proof (pw_terminated _ _ _ H) as HT. pose proof (pw_faults _ _ _ H) as HF.
  pose proof (pw_unproven _ _ _ H) as HU.
  assert (Part.live_sectors p ⊆ sectors p) as HL by (unfold Part.live_sectors; clear; set_point).
  apply (add_active_sectors_tracks size quant Hunit all (faults p) P) in H1 as [-> Hq];
    [|done|done|apply H|rewrite HP; fold X; clear -HL Ec; set_point|fold X; clear -HL HF Ec; set_point].
  apply rbind_ok in Ha as (u & _ & Ha). injection Ha as <- <- <-. fold X in Hq.
  cbn [EQ.t_sectors EQ.t_power EQ.t_fee sectors terminated faults recoveries unproven early_terminated].
  fold X. split_and!; try done.
  assert ((sectors p ∪ X) ∖ terminated p = Part.live_sectors p ∪ X) as EL.
  { unfold Part.live_sectors. clear -Ec HT. set_point. }
  assert (X ⊆ dom all) as Hdom by (by apply from_table_dom).
  constructor; unfold Part.live_sectors; cbn; rewrite ?EL; try apply H; try done.
  - rewrite dom_declare, HP by done. apply (comm_L (∪)).
  - clear -HT. set_point.
  - clear -HF. set_point.
  - assert (X ## faults p) by (clear -HF HL Ec; set_point). destruct proven; clear -HU H0; set_point.
  - rewrite (pw_live_power _ _ _ H), psum_union; [done|]. clear -HL Ec. set_point.
  - destruct proven; [apply H|]. rewrite (pw_unproven_power _ _ _ H), psum_union; [done|]. clear -HU HL Ec. set_point.
  - pose proof (pw_infos _ _ _ H). clear -Hdom H0. set_point.
Qed.

(** ** Faults *)

Lemma select_sectors_spec all l field r :
  from_table all l -> NoDup (sector_number <$> l) -> Sectors.select_sectors l field = Ok r ->
  numbers r = field /\ from_table all r /\ NoDup (sector_number <$> r).
Proof.
  intros Ht Hd H. unfold Sectors.select_sectors in H.
  assert (forall l acc todo acc' todo', from_table all l -> from_table all acc -> NoDup (sector_number <$> acc) ->
    numbers acc ## todo ->
    foldl (fun '(acc, todo) s =>
      if bf_get todo (sector_number s) then (acc ++ [s], todo ∖ {[sector_number s]}) else (acc, todo))
      (acc, todo) l = (acc', todo') ->
    numbers acc' ∪ todo' = numbers acc ∪ todo /\ from_table all acc' /\ NoDup (sector_number <$> acc') /\
    numbers acc' ## todo') as Hgen.
  { clear. induction l as [|s l IH]; intros acc todo acc' todo' Ht Ha Hd Hdj H; [cbn in H; injection H as <- <-; done|].
    apply Forall_cons in Ht as [Hs Ht]. cbn [foldl] in H. unfold bf_get in H. case_bool_decide as D.
    - assert (numbers (acc ++ [s]) = numbers acc ∪ {[sector_number s]}) as En.
      { rewrite numbers_app. f_equal. unfold numbers, from_bits. cbn. by rewrite union_empty_r_L. }
      apply IH in H as (E & ? & ? & ?); [|done|by apply Forall_app; split; [|constructor]| |].
      + split_and!; [|done..]. rewrite E, En. clear -D. apply set_eq. intros n. set_unfold.
        destruct (decide (n = sector_number s)); naive_solver.
      + apply NoDup_numbers_app; [|done|constructor; [by intros ?%elem_of_nil|constructor]].
        clear -D Hdj. unfold numbers, from_bits. cbn. set_solver.
      + rewrite En. clear -Hdj. set_solver.
    - by apply IH in H. }
  destruct (foldl _ _ _) as [inc todo] eqn:E. apply Hgen in E as (E1 & E2 & E3 & E4); [|done|constructor|constructor|done].
  destruct (negb (bf_empty todo)) eqn:Em; [discriminate|]. injection H as <-.
  apply negb_false_iff, bool_decide_eq_true in Em. subst todo. rewrite union_empty_r_L in E1.
  unfold numbers in E1 at 2. cbn in E1. rewrite union_empty_l_L in E1. done.
Qed.

Ltac pp_tac := unfold Part.active_power, pp_add, pp_sub, pp_neg; cbn; f_equal; lia.

Lemma pp_neg_add_sub a b : pp_add (pp_neg a) b = pp_sub b a.
Proof. unfold pp_add, pp_neg, pp_sub. cbn. f_equal; lia. Qed.

Lemma add_faults_wf all P p ns l e delta power p' :
  part_wf all P p -> from_table all l -> NoDup (sector_number <$> l) -> numbers l = ns ->
  ns ⊆ Part.live_sectors p ∖ faults p ->
  Part.add_faults size quant ns l e p = Ok (delta, power, p') ->
  power = psum all ns /\ delta = pp_sub (psum all (ns ∩ unproven p)) (psum all ns) /\
  sectors p' = sectors p /\ terminated p' = terminated p /\ faults p' = faults p ∪ ns /\
  recoveries p' = recoveries p /\ unproven p' = unproven p ∖ ns /\ early_terminated p' = early_terminated p /\
  live_power p' = live_power p /\ p_faulty_power p' = pp_add (p_faulty_power p) power /\
  Part.active_power p' = pp_add (Part.active_power p) delta /\
  part_wf all (fault (quantize_up quant e) ns P) p'.
Proof.
  intros H Ht Hd En Hns Ha. unfold Part.add_faults in Ha. apply rbind_ok in Ha as ([pw q] & H1 & Ha).
  pose proof (pw_plan _ _ _ H) as HP. pose proof (pw_faults _ _ _ H) as HF.
  pose proof (pw_unproven _ _ _ H) as HU. pose proof (pw_recoveries _ _ _ H) as HR.
  apply (reschedule_as_faults_tracks size quant Hunit all (faults p) P) in H1 as (-> & Hq & _);
    [|done|apply H|rewrite En; clear -Hns; set_point]. rewrite En in *.
  apply rbind_ok in Ha as (lu & H2 & Ha). apply (select_sectors_spec all) in H2 as (Nu & Tu & Du); [|done|done].
  set (lost := ns ∩ unproven p) in *.
  match type of Ha with (let '(_, _) := ?m in _) = _ =>
    assert (m = (pp_sub (unproven_power p) (psum all lost), pp_sub (psum all lost) (psum all ns))) as Em end.
  { destruct lu as [|s lu].
    - assert (lost = ∅) as ->; [by symmetry|]. rewrite psum_empty, pp_sub_zero. f_equal.
    - rewrite (power_for_sectors_psum size all) by done. rewrite Nu. f_equal. apply pp_neg_add_sub. }
  rewrite Em in Ha. clear Em. apply rbind_ok in Ha as (u & _ & Ha). injection Ha as <- <- <-.
  cbn [sectors terminated faults recoveries unproven early_terminated live_power p_faulty_power].
  assert (unproven p ∖ lost = unproven p ∖ ns) as EU by (unfold lost; clear; set_point). rewrite EU.
  split_and!; try done; [pp_tac|].
  constructor; unfold Part.live_sectors; cbn; fold (Part.live_sectors p); rewrite ?EU; try apply H.
  - rewrite <- HP. unfold fault, remap. apply set_eq. intros n. rewrite !elem_of_dom, map_lookup_imap.
    destruct (P !! n); [|done]. cbn. split; eauto.
  - done.
  - clear -HF Hns. set_point.
  - clear -HU. set_point.
  - clear -HR. set_point.
  - rewrite <- EU. unfold lost. rewrite (pw_unproven_power _ _ _ H), <- psum_diff; [done|]. clear. set_point.
  - rewrite (pw_faulty_power _ _ _ H), <- psum_union; [done|]. clear -Hns. set_point.
Qed.

(** The sectors stay; their standing changes. *)
Definition same_sectors p p' : Prop :=
  sectors p' = sectors p /\ terminated p' = terminated p /\ early_terminated p' = early_terminated p /\
  live_power p' = live_power p.

Lemma remove_recoveries_wf all P p ns l :
  part_wf all P p -> ns ⊆ recoveries p -> numbers l = ns -> from_table all l -> NoDup (sector_number <$> l) ->
  let p' := Part.remove_recoveries ns (power_for_sectors size l) p in
  same_sectors p p' /\ faults p' = faults p /\ unproven p' = unproven p /\ recoveries p' = recoveries p ∖ ns /\
  p_faulty_power p' = p_faulty_power p /\ unproven_power p' = unproven_power p /\ part_wf all P p'.
Proof.
  intros H Hns En Ht Hd. unfold Part.remove_recoveries, bf_empty. cbn. case_bool_decide as D.
  { rewrite D, difference_empty_L. done. }
  cbn. split_and!; try done. constructor; unfold Part.live_sectors; cbn; try apply H.
  - pose proof (pw_recoveries _ _ _ H). clear -H0. set_point.
  - rewrite (power_for_sectors_psum size all), En, (pw_recovering_power _ _ _ H), psum_diff by done. done.
Qed.

Lemma contains_all_true X Y : contains_all X Y = true -> Y ⊆ X.
Proof. unfold contains_all. by rewrite bool_decide_eq_true. Qed.

Lemma record_faults_wf all P p ns e X delta power p' : table_ok all ->
  part_wf all P p -> Part.record_faults size quant all ns e p = Ok (X, delta, power, p') ->
  same_sectors p p' /\ faults p' = faults p ∪ X /\ recoveries p' = recoveries p ∖ ns /\
  X = ((ns ∖ recoveries p) ∖ terminated p) ∖ faults p /\
  p_faulty_power p' = pp_add (p_faulty_power p) power /\
  Part.active_power p' = pp_add (Part.active_power p) delta /\
  exists P', part_wf all P' p'.
Proof.
  intros Ht H Ha. unfold Part.record_faults, Part.validate_partition_contains_sectors in Ha.
  destruct (contains_all (sectors p) ns) eqn:Ec; [|discriminate]. apply contains_all_true in Ec. cbn [rbind] in Ha.
  set (rr := recoveries p ∩ ns) in *. set (Y := ((ns ∖ rr) ∖ terminated p) ∖ faults p) in *.
  assert (Y = ((ns ∖ recoveries p) ∖ terminated p) ∖ faults p) as EY by (unfold Y, rr; clear; set_point).
  apply rbind_ok in Ha as (l & Hl & Ha). apply (load_sectors_spec all) in Hl as (Nl & Tl & Dl & _); [|done].
  apply rbind_ok in Ha as ([[d1 pw1] p1] & H1 & Ha).
  assert (same_sectors p p1 /\ faults p1 = faults p ∪ Y /\ recoveries p1 = recoveries p /\
    p_faulty_power p1 = pp_add (p_faulty_power p) pw1 /\ Part.active_power p1 = pp_add (Part.active_power p) d1 /\
    exists P', part_wf all P' p1) as (Hs & Ef & Er & Epf & Epa & P1 & Hw).
  { destruct l as [|s l].
    - injection H1 as <- <- <-. assert (Y = ∅) as -> by (by symmetry). rewrite union_empty_r_L.
      split_and!; try done; [..|by eexists]; by rewrite pp_add_zero.
    - apply (add_faults_wf all P p Y) in H1 as (_ & _ & ? & ? & ? & ? & ? & ? & ? & ? & ? & ?); [|done..|].
      + split_and!; try done. by eexists.
      + unfold Y, Part.live_sectors. clear -Ec. set_point. }
  apply rbind_ok in Ha as (lr & Hlr & Ha). apply (load_sectors_spec all) in Hlr as (Nr & Tr & Dr & _); [|done].
  apply rbind_ok in Ha as (u & _ & Ha). injection Ha as <- <- <- <-.
  assert (rr ⊆ recoveries p1) as Hrr by (rewrite Er; unfold rr; clear; set_point).
  destruct (remove_recoveries_wf all P1 p1 rr lr Hw Hrr Nr Tr Dr) as (Hs2 & Ef2 & Eu2 & Er2 & Epf2 & Epu2 & Hw2).
  assert ((match lr with [] => p1 | _ => Part.remove_recoveries rr (power_for_sectors size lr) p1 end) =
          Part.remove_recoveries rr (power_for_sectors size lr) p1) as ->.
  { destruct lr; [|done]. assert (rr = ∅) as -> by (by symmetry). done. }
  destruct Hs as (S1 & S2 & S3 & S4), Hs2 as (S1' & S2' & S3' & S4').
  split; [split_and!; congruence|]. split_and!; [congruence| |done|congruence| |by eexists].
  - rewrite Er2, Er. unfold rr. clear. set_point.
  - unfold Part.active_power. rewrite S4', Epf2, Epu2. exact Epa.
Qed.

Lemma record_skipped_faults_wf all P p ns e delta power retracted b p' : table_ok all ->
  part_wf all P p -> Part.record_skipped_faults size quant all e ns p = Ok (delta, power, retracted, b, p') ->
  same_sectors p p' /\ recoveries p' = recoveries p ∖ ns /\
  faults p' = faults p ∪ ((ns ∖ terminated p) ∖ faults p) /\
  p_faulty_power p' = pp_add (p_faulty_power p) power /\
  Part.active_power p' = pp_add (Part.active_power p) delta /\
  (b = false -> (ns ∖ terminated p) ∖ faults p = ∅) /\
  exists P', part_wf all P' p'.
Proof.
  intros Ht H Ha. unfold Part.record_skipped_faults, bf_empty in Ha. case_bool_decide as D.
  { injection Ha as <- <- <- <- <-. subst ns. rewrite !pp_add_zero.
    assert ((∅ ∖ terminated p) ∖ faults p = ∅) as -> by (clear; set_point).
    rewrite difference_empty_L, union_empty_r_L. split_and!; try done. by eexists. }
  destruct (contains_all (sectors p) ns) eqn:Ec; [|discriminate]. apply contains_all_true in Ec. cbn [negb] in Ha.
  set (rr := recoveries p ∩ ns) in *. set (Y := (ns ∖ terminated p) ∖ faults p) in *.
  apply rbind_ok in Ha as (lr & Hlr & Ha). apply (load_sectors_spec all) in Hlr as (Nr & Tr & Dr & _); [|done].
  apply rbind_ok in Ha as (l & Hl & Ha). apply (load_sectors_spec all) in Hl as (Nl & Tl & Dl & _); [|done].
  apply rbind_ok in Ha as ([[d1 pw1] p1] & H1 & Ha).
  destruct (Part.add_faults size quant Y l e p) as [[[d2 pw2] p2]|?|] eqn:Ef; [|discriminate..]. injection H1 as -> -> ->.
  apply (add_faults_wf all P p Y) in Ef as (_ & _ & Es & Et & Ef & Er & _ & Ee & El & Epf & Epa & Hw); [|done..|].
  2: { unfold Y, Part.live_sectors. clear -Ec. set_point. }
  apply rbind_ok in Ha as (u & _ & Ha). injection Ha as <- <- <- <- <-.
  assert (rr ⊆ recoveries p1) as Hrr by (rewrite Er; unfold rr; clear; set_point).
  destruct (remove_recoveries_wf all _ p1 rr lr Hw Hrr Nr Tr Dr) as ((S1 & S2 & S3 & S4) & Ef2 & Eu2 & Er2 & Epf2 & Epu2 & Hw2).
  split; [split_and!; congruence|]. split_and!; [|congruence|congruence| | |by eexists].
  - rewrite Er2, Er. unfold rr. clear. set_point.
  - unfold Part.active_power. rewrite S4, Epf2, Epu2. exact Epa.
  - destruct l; [|done]. intros _. by symmetry.
Qed.

Lemma dom_declare_same all X P : X ⊆ dom P -> dom (declare quant all X P) = dom P.
Proof.
  intros HX. apply set_eq. intros n. rewrite !elem_of_dom, lookup_declare.
  destruct (all !! n) as [s|]; [|done]. case_decide as D; [|done]. apply HX, elem_of_dom in D. split; eauto.
Qed.

Lemma recover_faults_wf all P p power p' : table_ok all ->
  part_wf all P p -> Part.recover_faults size quant all p = Ok (power, p') ->
  same_sectors p p' /\ faults p' = faults p ∖ recoveries p /\ recoveries p' = ∅ /\ unproven p' = unproven p /\
  p_faulty_power p' = pp_sub (p_faulty_power p) power /\
  Part.active_power p' = pp_add (Part.active_power p) power /\
  exists P', part_wf all P' p'.
Proof.
  intros Ht H Ha. unfold Part.recover_faults in Ha.
  apply rbind_ok in Ha as (l & Hl & Ha). apply (load_sectors_spec all) in Hl as (Nl & Tl & Dl & _); [|done].
  apply rbind_ok in Ha as ([pw q] & H1 & Ha).
  pose proof (pw_recoveries _ _ _ H) as HR. pose proof (pw_faults _ _ _ H) as HF. pose proof (pw_unproven _ _ _ H) as HU.
  apply (reschedule_recovered_tracks size quant Hunit all (faults p) P) in H1 as (-> & Hq & HX);
    [|done|apply H|by rewrite Nl]. rewrite Nl in *.
  apply rbind_ok in Ha as (u & _ & Ha). injection Ha as <- <-.
  split; [done|]. cbn. split_and!; try done; [pp_tac|].
  exists (declare quant all (recoveries p ∩ early_of P) P).
  constructor; unfold Part.live_sectors; cbn; fold (Part.live_sectors p); try apply H.
  - rewrite dom_declare_same; [apply H|]. clear -HX. set_point.
  - done.
  - clear -HF. set_point.
  - clear -HU. set_point.
  - set_solver.
  - by rewrite (pw_faulty_power _ _ _ H), psum_diff.
  - rewrite (pw_recovering_power _ _ _ H), psum_empty. pp_tac.
Qed.

Lemma activate_unproven_wf all P p : part_wf all P p ->
  let '(power, p') := Part.activate_unproven p in
  same_sectors p p' /\ faults p' = faults p /\ recoveries p' = recoveries p /\ unproven p' = ∅ /\
  p_faulty_power p' = p_faulty_power p /\ Part.active_power p' = pp_add (Part.active_power p) power /\
  part_wf all P p'.
Proof.
  intros H. cbn. split; [done|]. split_and!; try done; [pp_tac|].
  constructor; unfold Part.live_sectors; cbn; fold (Part.live_sectors p); try apply H; [set_solver|by rewrite psum_empty].
Qed.

Lemma declare_faults_recovered_wf all P p ns p' : table_ok all ->
  part_wf all P p -> Part.declare_faults_recovered size all ns p = Ok p' ->
  same_sectors p p' /\ faults p' = faults p /\ unproven p' = unproven p /\
  recoveries p' = recoveries p ∪ (ns ∩ faults p) /\
  p_faulty_power p' = p_faulty_power p /\ Part.active_power p' = Part.active_power p /\ part_wf all P p'.
Proof.
  intros Ht H Ha. unfold Part.declare_faults_recovered in Ha. apply rbind_ok in Ha as (u0 & _ & Ha).
  apply rbind_ok in Ha as (l & Hl & Ha). apply (load_sectors_spec all) in Hl as (Nl & Tl & Dl & _); [|done].
  apply rbind_ok in Ha as (u & _ & Ha). injection Ha as <-.
  pose proof (pw_recoveries _ _ _ H) as HR.
  split; [done|]. cbn. split_and!; try done; [clear; set_point|].
  constructor; unfold Part.live_sectors; cbn; fold (Part.live_sectors p); try apply H; [clear -HR; set_point|].
  rewrite (power_for_sectors_psum size all), Nl, (pw_recovering_power _ _ _ H), <- psum_union by (done || clear; set_point).
  done.
Qed.

Lemma part_reschedule_wf all P p e ns l p' : table_ok all ->
  part_wf all P p -> Part.reschedule_expirations size quant all e ns p = Ok (l, p') ->
  same_sectors p p' /\ faults p' = faults p /\ unproven p' = unproven p /\ recoveries p' = recoveries p /\
  p_faulty_power p' = p_faulty_power p /\ Part.active_power p' = Part.active_power p /\
  numbers l = ((ns ∩ sectors p) ∖ terminated p) ∖ faults p /\
  part_wf all (place (quantize_up quant e) false (numbers l) P) p'.
Proof.
  intros Ht H Ha. unfold Part.reschedule_expirations in Ha.
  apply rbind_ok in Ha as (l0 & Hl & Ha). apply (load_sectors_spec all) in Hl as (Nl & Tl & Dl & _); [|done].
  apply rbind_ok in Ha as (q & H1 & Ha). apply rbind_ok in Ha as (u & _ & Ha). injection Ha as <- <-.
  apply (reschedule_expirations_tracks size quant Hunit all (faults p) P) in H1 as (Hq & HX);
    [|done|apply H|rewrite Nl; clear; set_point].
  split; [done|]. cbn. split_and!; try done.
  constructor; unfold Part.live_sectors; cbn; fold (Part.live_sectors p); try apply H; [|done].
  rewrite <- (pw_plan _ _ _ H). apply set_eq. intros n. rewrite !elem_of_dom, lookup_place.
  case_decide as D; [|done]. apply HX, elem_of_dom in D. split; eauto.
Qed.

Lemma record_missed_post_wf all P p e delta penalized power p' :
  part_wf all P p -> Part.record_missed_post quant e p = Ok (delta, penalized, power, p') ->
  same_sectors p p' /\ faults p' = Part.live_sectors p /\ unproven p' = ∅ /\ recoveries p' = ∅ /\
  p_faulty_power p' = pp_add (p_faulty_power p) power /\
  Part.active_power p' = pp_add (Part.active_power p) delta /\
  penalized = pp_add (recovering_power p) power /\
  part_wf all (fault (quantize_up quant e) (Part.live_sectors p) P) p'.
Proof.
  intros H Ha. unfold Part.record_missed_post in Ha. apply rbind_ok in Ha as (q & H1 & Ha).
  apply rbind_ok in Ha as (u & _ & Ha). injection Ha as <- <- <- <-.
  apply (reschedule_all_as_faults_tracks size quant Hunit all (faults p) P _ _ _ (Part.live_sectors p)) in H1;
    [|by rewrite (pw_plan _ _ _ H)|apply H].
  split; [done|]. cbn. split_and!; try done; [destruct (live_power p); pp_tac|pp_tac|].
  constructor; unfold Part.live_sectors; cbn; fold (Part.live_sectors p); rewrite ?psum_empty; try apply H; try done; try set_solver.
  rewrite <- (pw_plan _ _ _ H). unfold fault, remap. apply set_eq. intros n. rewrite !elem_of_dom, map_lookup_imap.
  destruct (P !! n); [|done]. cbn. split; eauto.
Qed.

(** ** Sectors that leave *)

Lemma record_early_termination_inv e ns p p' :
  Part.record_early_termination e ns p = Ok p' ->
  exists q, p' = mkPartition (sectors p) (unproven p) (faults p) (recoveries p) (terminated p)
    (expirations_epochs p) q (live_power p) (unproven_power p) (p_faulty_power p) (recovering_power p) /\
  (ns = ∅ -> q = early_terminated p) /\ (ns <> ∅ -> q <> ∅) /\ (early_terminated p <> ∅ -> q <> ∅) /\
  (forall k bf, q !! k = Some bf -> bf ⊆ default ∅ (early_terminated p !! k) ∪ ns).
Proof.
  unfold Part.record_early_termination, BQ.add_to_queue, bf_empty. intros H.
  destruct (bool_decide_reflect (ns = ∅)) as [E|E].
  - injection H as <-. eexists. split; [done|]. split_and!; [done..|]. intros k bf ->. cbn. set_solver.
  - minv. key_inv. eexists. split; [done|]. split_and!; [done|by intros _ ?%insert_non_empty|by intros _ ?%insert_non_empty|].
    intros k bf [[<- <-]|[_ ->]]%lookup_insert_Some; cbn; set_solver.
Qed.

Lemma dom_drop_from X P : dom (drop_from X P) = dom P ∖ X.
Proof.
  apply set_eq. intros n. rewrite elem_of_difference, !elem_of_dom, lookup_drop_from.
  case_decide; [|naive_solver]. split; [by intros []|naive_solver].
Qed.

Lemma tracks_drop all F F' X P q :
  tracks size quant all F (drop_from X P) q -> F' = F ∖ X -> tracks size quant all F' (drop_from X P) q.
Proof.
  intros [Hr Hp] ->. split.
  - eapply rep_ext; [exact Hr|done|]. intros n. rewrite dom_drop_from. clear. rewrite !elem_of_difference. tauto.
  - intros n s Hs. destruct (Hp n s Hs) as (? & ? & He). split_and!; [done..|]. intros Hb.
    apply elem_of_difference. split; [auto|]. apply lookup_declared_dom in Hs. rewrite dom_drop_from in Hs. clear -Hs. set_solver.
Qed.

Lemma early_of_faulty F P : plan_ok quant F P -> early_of P ⊆ F.
Proof. intros H n (e & He)%elem_of_early_of. by destruct (H n _ He) as (_ & _ & Hf); apply Hf. Qed.

(** What leaves a partition with the sectors [X]. *)
Definition leaves all X p (es : ExpirationSet) (unproven_lost : PowerPair) p' : Prop :=
  on_time_sectors es ∪ early_sectors es = X /\ on_time_sectors es ## early_sectors es /\
  X ⊆ Part.live_sectors p /\ sectors p' = sectors p /\ terminated p' = terminated p ∪ X /\
  on_time_pledge es = pledge_sum all (on_time_sectors es) /\ fee_deduction es = fee_sum all X /\
  p_faulty_power p' = pp_sub (p_faulty_power p) (faulty_power es) /\
  live_power p' = pp_sub (pp_sub (pp_sub (live_power p) (MinerQueues.active_power es)) (faulty_power es)) unproven_lost /\
  Part.active_power p' = pp_sub (Part.active_power p) (MinerQueues.active_power es).

Lemma render_powers all F X E : E ⊆ F ->
  MinerQueues.active_power (render size all F (X ∖ E) (X ∩ E)) = psum all (X ∖ F) /\
  faulty_power (render size all F (X ∖ E) (X ∩ E)) = psum all (X ∩ F) /\
  fee_deduction (render size all F (X ∖ E) (X ∩ E)) = fee_sum all X.
Proof.
  intros HE. cbn. split_and!; f_equal; clear -HE; set_point.
Qed.

Lemma terminate_sectors_wf policy all P p epoch ns es unproven_lost p' : table_ok all ->
  part_wf all P p -> Part.terminate_sectors size quant policy all epoch ns p = Ok (es, unproven_lost, p') ->
  leaves all ns p es unproven_lost p' /\ (ns <> ∅ -> early_terminated p' <> ∅) /\
  (early_terminated p <> ∅ -> early_terminated p' <> ∅) /\ (ns = ∅ -> early_terminated p' = early_terminated p) /\
  part_wf all (drop_from ns P) p'.
Proof.
  intros Ht H Ha. unfold Part.terminate_sectors in Ha.
  destruct (contains_all (Part.live_sectors p) ns) eqn:Ec; [|discriminate]. apply contains_all_true in Ec. cbn [negb] in Ha.
  apply rbind_ok in Ha as (l & Hl & Ha). apply (load_sectors_spec all) in Hl as (Nl & Tl & Dl & _); [|done].
  apply rbind_ok in Ha as ([[rm rc] q] & H1 & Ha). destruct (pw_queue _ _ _ H) as [_ Hpo].
  apply (remove_sectors_tracks size quant Hunit policy all (faults p) (recoveries p) P) in H1 as (Erm & -> & Hq & HX);
    [|done|done|apply H]. rewrite Nl in *.
  pose proof (early_of_faulty _ _ Hpo) as HE.
  destruct (render_powers all (faults p) ns (early_of P) HE) as (Ea & Ef & Efee). rewrite <- Erm in Ea, Ef, Efee.
  assert (on_time_sectors rm ∪ early_sectors rm = ns) as En by (rewrite Erm; cbn; clear; set_point).
  assert (on_time_sectors rm ## early_sectors rm) as Edj by (rewrite Erm; cbn; clear; set_point).
  assert (on_time_pledge rm = pledge_sum all (on_time_sectors rm)) as Epl by (by rewrite Erm).
  rewrite En in Ha. apply rbind_ok in Ha as (p1 & H2 & Ha).
  apply record_early_termination_inv in H2 as (eq & -> & He1 & He2 & He3 & He4). cbn in He1, He3, He4, Ha.
  apply rbind_ok in Ha as (lu & Hlu & Ha). apply (select_sectors_spec all) in Hlu as (Nu & Tu & Du); [|done|done].
  apply rbind_ok in Ha as (u & _ & Ha). injection Ha as <- <- <-.
  rewrite (power_for_sectors_psum size all), Nu by done.
  pose proof (pw_faults _ _ _ H) as HF. pose proof (pw_unproven _ _ _ H) as HU. pose proof (pw_recoveries _ _ _ H) as HR.
  pose proof (pw_terminated _ _ _ H) as HT.
  set (lost := ns ∩ unproven p) in *. split.
  { unfold leaves. cbn. split_and!; try done; pp_tac. }
  cbn. split_and!; [done..|].
  assert (unproven p ∖ lost = unproven p ∖ ns) as EU by (unfold lost; clear; set_point).
  assert (Part.live_sectors p ∖ ns = sectors p ∖ (terminated p ∪ ns)) as EL by (unfold Part.live_sectors; clear; set_point).
  constructor; unfold Part.live_sectors; cbn; rewrite <- ?EL, ?EU; try apply H.
  - by rewrite dom_drop_from, (pw_plan _ _ _ H).
  - by eapply tracks_drop.
  - assert (Part.live_sectors p ⊆ sectors p) as HL by (unfold Part.live_sectors; clear; set_point). clear -HT HL Ec. set_point.
  - clear -HF. set_point.
  - clear -HU. set_point.
  - clear -HR. set_point.
  - rewrite (pw_live_power _ _ _ H), Ea, Ef, (psum_diff _ _ (Part.live_sectors p)) by done. 
    assert (psum all ns = pp_add (psum all (ns ∖ faults p)) (psum all (ns ∩ faults p))) as ->; [|pp_tac].
    apply psum_split; clear; set_point.
  - rewrite <- EU, (pw_unproven_power _ _ _ H), <- psum_diff; [done|]. unfold lost. clear. set_point.
  - rewrite (pw_faulty_power _ _ _ H), Ef, <- psum_diff by (clear; set_point). f_equal. clear; set_point.
  - rewrite (pw_recovering_power _ _ _ H), <- psum_diff by (clear -HR; set_point). f_equal. clear -HR. set_point.
  - pose proof (pw_infos _ _ _ H). clear -H0. set_point.
  - intros k bf Hk. apply He4 in Hk. pose proof (pw_early _ _ _ H k) as Hek. clear -Hk Hek.
    destruct (early_terminated p !! k) as [bf0|]; cbn in Hk; [specialize (Hek bf0 eq_refl)|]; set_solver.
Qed.

Lemma due_by_union until P : due_by until false P ∪ due_by until true P ⊆ dom P.
Proof. intros n [(e & He & _)%elem_of_due_by|(e & He & _)%elem_of_due_by]%elem_of_union; by eapply lookup_declared_dom. Qed.

Lemma due_by_disj until P : due_by until false P ## due_by until true P.
Proof. intros n (e & He & _)%elem_of_due_by (e' & He' & _)%elem_of_due_by. congruence. Qed.

Lemma after_drop until P : after until P = drop_from (due_by until false P ∪ due_by until true P) P.
Proof.
  apply map_eq. intros n. apply option_eq. intros s. rewrite lookup_after, lookup_drop_from.
  assert (n ∈ due_by until false P ∪ due_by until true P <-> exists s, P !! n = Some s /\ slot_epoch s <= until) as Hd.
  { rewrite elem_of_union, !elem_of_due_by. split; [naive_solver|]. intros ([e []] & Hs & Hle); [right|left]; eauto. }
  destruct (decide _) as [D|D].
  - apply Hd in D as (s' & Hs' & Hle). split; [|done]. intros [Hs Hlt]. rewrite Hs in Hs'. injection Hs' as ->. lia.
  - split; [tauto|]. intros Hs. split; [done|]. destruct (Z.le_gt_cases (slot_epoch s) until); [|lia].
    exfalso. apply D, Hd. eauto.
Qed.

Lemma pop_expired_sectors_wf all P p until es p' :
  part_wf all P p -> Part.pop_expired_sectors until p = Ok (es, p') ->
  let X := due_by until false P ∪ due_by until true P in
  es = render size all (faults p) (due_by until false P) (due_by until true P) /\
  leaves all X p es pp_zero p' /\
  (early_sectors es <> ∅ -> early_terminated p' <> ∅) /\ (early_terminated p <> ∅ -> early_terminated p' <> ∅) /\
  (early_sectors es = ∅ -> early_terminated p' = early_terminated p) /\
  part_wf all (after until P) p'.
Proof.
  intros H Ha X. unfold Part.pop_expired_sectors, bf_empty in Ha.
  destruct (bool_decide_reflect (unproven p = ∅)) as [EU|]; [|discriminate]. cbn [negb] in Ha.
  apply rbind_ok in Ha as ([popped q] & H1 & Ha).
  apply (pop_until_tracks size quant all (faults p) P) in H1 as [Epop Hq]; [|apply H].
  destruct (bool_decide_reflect (recoveries p = ∅)) as [ER|]; [|discriminate]. cbn [negb] in Ha.
  destruct (negb (pp_is_zero (recovering_power p))); [discriminate|].
  destruct (contains_any _ _) eqn:Ec; [discriminate|].
  apply rbind_ok in Ha as (p1 & H2 & Ha). apply rbind_ok in Ha as (u & _ & Ha). injection Ha as <- <-.
  assert (on_time_sectors popped ∪ early_sectors popped = X) as EX by (by rewrite Epop). rewrite EX in *.
  apply record_early_termination_inv in H2 as (eq & -> & He1 & He2 & He3 & He4). cbn in He1, He3, He4.
  pose proof (pw_plan _ _ _ H) as HP. pose proof (due_by_union until P) as HX. fold X in HX. rewrite HP in HX.
  pose proof (due_by_disj until P) as Hdj. pose proof (pw_faults _ _ _ H) as HF. pose proof (pw_terminated _ _ _ H) as HT.
  destruct (pw_queue _ _ _ H) as [_ Hpo].
  assert (due_by until true P ⊆ faults p) as HE.
  { intros n (e & He & _)%elem_of_due_by. by destruct (Hpo n _ He) as (_ & _ & Hf); apply Hf. }
  assert (faulty_power popped = psum all (X ∩ faults p)) as Ef.
  { rewrite Epop. cbn. f_equal. subst X. clear -HE. set_point. }
  assert (MinerQueues.active_power popped = psum all (X ∖ faults p)) as Ea.
  { rewrite Epop. cbn. f_equal. subst X. clear -HE. set_point. }
  split; [done|]. split.
  { unfold leaves. cbn. rewrite EX. split_and!; try done.
    - by rewrite Epop.
    - by rewrite Epop.
    - by rewrite Epop.
    - pp_tac.
    - unfold Part.active_power. cbn. rewrite (pw_unproven_power _ _ _ H), EU, psum_empty. pp_tac. }
  cbn. split_and!; [done..|].
  assert (Part.live_sectors p ∖ X = sectors p ∖ (terminated p ∪ X)) as EL by (unfold Part.live_sectors; clear; set_point).
  rewrite after_drop in *. fold X in Hq |- *.
  constructor; unfold Part.live_sectors; cbn; rewrite <- ?EL, ?EU, ?ER, ?psum_empty; try apply H.
  - by rewrite dom_drop_from, HP.
  - by eapply tracks_drop.
  - assert (Part.live_sectors p ⊆ sectors p) as HL by (unfold Part.live_sectors; clear; set_point). clear -HT HL HX. set_point.
  - clear -HF. set_point.
  - clear. set_point.
  - clear. set_point.
  - rewrite (pw_live_power _ _ _ H), Ea, Ef, (psum_diff _ _ (Part.live_sectors p)) by done. f_equal.
    symmetry. apply psum_split; clear; set_point.
  - by rewrite (pw_unproven_power _ _ _ H), EU, psum_empty.
  - rewrite (pw_faulty_power _ _ _ H), Ef, <- psum_diff by (clear; set_point). f_equal. clear; set_point.
  - by rewrite (pw_recovering_power _ _ _ H), ER, psum_empty.
  - pose proof (pw_infos _ _ _ H). clear -H0. set_point.
  - intros k bf Hk. apply He4 in Hk. pose proof (pw_early _ _ _ H k) as Hek.
    assert (early_sectors popped ⊆ X) as HeX by (rewrite <- EX; clear; set_point). clear -Hk Hek HeX.
    destruct (early_terminated p !! k) as [bf0|]; cbn in Hk; [specialize (Hek bf0 eq_refl)|]; set_solver.
Qed.

(** ** Early terminations are taken off their queue *)

(** [t] has been taken from [q], [q'] is left. *)
Definition splits (q t q' : gmap Z BitField) : Prop :=
  forall e, default ∅ (q !! e) = default ∅ (t !! e) ∪ default ∅ (q' !! e) /\ default ∅ (t !! e) ## default ∅ (q' !! e).

(** What the walk has collected. *)
Definition popping (q : gmap Z BitField) (a : Part.Popping) : Prop :=
  (forall rest k, Part.po_remaining a = Some (rest, k) -> k ∉ Part.po_processed a) /\
  (forall e, e ∈ Part.po_processed a -> tr_sectors (Part.po_result a) !! e = q !! e) /\
  (forall e, e ∉ Part.po_processed a ->
     match Part.po_remaining a with
     | Some (rest, k) =>
         if decide (e = k)
         then exists bf t, q !! e = Some bf /\ tr_sectors (Part.po_result a) !! e = Some t /\ t ⊆ bf /\ rest = bf ∖ t
         else tr_sectors (Part.po_result a) !! e = None
     | None => tr_sectors (Part.po_result a) !! e = None
     end).

Lemma slice0_sub X n Y : slice0 X n = Some Y -> Y ⊆ X.
Proof.
  unfold slice0. destruct (n <=? bf_len X); [|done]. intros [= <-] k. rewrite elem_of_from_bits.
  intros (i & Hi & _)%elem_of_take. by apply list_elem_of_lookup_2, elem_of_bits in Hi.
Qed.

Lemma popping_walk q max ents : forall a a',
  NoDup ents.*1 -> (forall e bf, (e, bf) ∈ ents -> q !! e = Some bf /\ e ∉ Part.po_processed a) ->
  popping q a -> Part.po_remaining a = None ->
  for_each_while (Part.pop_step max) a ents = Ok a' -> popping q a'.
Proof.
  induction ents as [|[e bf] ents IH]; intros a a' Hd Hent (Hp0 & Hp1 & Hp2) Hrem H.
  { cbn in H. injection H as <-. done. }
  cbn [fmap list_fmap fst] in Hd. apply NoDup_cons in Hd as [Hn Hd].
  destruct (Hent e bf) as [Hq Hne]; [left|]. cbn [for_each_while] in H. apply rbind_ok in H as ([a1 b] & H1 & H).
  unfold Part.pop_step in H1. apply rbind_ok in H1 as (limit & Hl & H1). apply rbind_ok in H1 as ([[a2 t] k] & H2 & H1).
  apply rbind_ok in H1 as (total & Ht & H1). injection H1 as <- <-.
  apply chk_u64_ok in Hl as [-> _], Ht as [-> _]. rewrite Hrem in Hp2. destruct (Z.ltb_spec (max - sectors_processed (Part.po_result a)) (bf_len bf)) as [L|L].
  - apply rbind_ok in H2 as (t' & Ht' & H2). injection H2 as <- <- <-.
    destruct (slice0 bf _) as [t|] eqn:Es; [|discriminate]. injection Ht' as ->. apply slice0_sub in Es.
    rewrite (proj2 (Z.ltb_ge _ _)) in H by lia. injection H as <-. split_and!; cbn.
    + by intros rest k [= _ <-].
    + intros e' He'. rewrite lookup_insert_ne by (by intros ->). auto.
    + intros e' He'. case_decide as D; [subst e'; exists bf, t'; rewrite lookup_insert_eq; done|].
      rewrite lookup_insert_ne by done. auto.
  - injection H2 as <- <- <-.
    assert (popping q (Part.mkPopping (Part.po_processed a ++ [e]) (Part.po_remaining a)
      (mkTR (<[e := bf]> (tr_sectors (Part.po_result a))) (partitions_processed (Part.po_result a))
         (sectors_processed (Part.po_result a) + bf_len bf)))) as Hpop.
    { split_and!; cbn.
      - by rewrite Hrem.
      - intros e' [He'|He'%list_elem_of_singleton]%elem_of_app; [|by subst; rewrite lookup_insert_eq].
        rewrite lookup_insert_ne by (by intros ->). auto.
      - rewrite Hrem. intros e' He'. rewrite elem_of_app, list_elem_of_singleton in He'.
        rewrite lookup_insert_ne by (intros ->; tauto). apply Hp2. tauto. }
    cbn in H. destruct (_ <? max); [|injection H as <-; done].
    eapply IH; [done| |exact Hpop|exact Hrem|exact H]. intros e' bf' Hin. destruct (Hent e' bf') as [? ?]; [by right|].
    split; [done|]. cbn. intros [?|Hx%list_elem_of_singleton]%elem_of_app; [done|]. subst. apply Hn.
    apply list_elem_of_fmap. exists (e, bf'). done.
Qed.

Lemma splits_popping q a : popping q a ->
  splits q (tr_sectors (Part.po_result a))
    (match Part.po_remaining a with
     | Some (rest, e) => <[e := rest]> (batch_delete (Part.po_processed a) q)
     | None => batch_delete (Part.po_processed a) q
     end).
Proof.
  intros (H0 & H1 & H2) e. specialize (H1 e). specialize (H2 e).
  destruct (Part.po_remaining a) as [[rest k]|] eqn:Er.
  - destruct (decide (e = k)) as [->|Hne].
    + rewrite lookup_insert_eq. destruct (H2 (H0 rest k eq_refl)) as (bf & t & -> & -> & Ht & ->). cbn. split; [|set_solver].
      clear -Ht. set_point.
    + rewrite lookup_insert_ne, lookup_batch_delete by done. case_decide as De.
      * rewrite H1 by done. cbn. split; set_solver.
      * rewrite (H2 De). cbn. split; set_solver.
  - rewrite lookup_batch_delete. case_decide as De.
    + rewrite H1 by done. cbn. split; set_solver.
    + rewrite (H2 De). cbn. split; set_solver.
Qed.

Lemma splits_sub q t q' X : splits q t q' -> (forall e bf, q !! e = Some bf -> bf ⊆ X) ->
  forall e bf, q' !! e = Some bf -> bf ⊆ X.
Proof.
  intros Hs H e bf Hb. destruct (Hs e) as [E _]. rewrite Hb in E. cbn in E.
  destruct (q !! e) as [bf0|] eqn:Eq; cbn in E; [|set_solver]. specialize (H e bf0 Eq). set_solver.
Qed.

Lemma pop_early_terminations_wf all P p max r more p' :
  part_wf all P p -> Part.pop_early_terminations max p = Ok (r, more, p') ->
  exists q', p' = mkPartition (sectors p) (unproven p) (faults p) (recoveries p) (terminated p)
                    (expirations_epochs p) q' (live_power p) (unproven_power p) (p_faulty_power p) (recovering_power p) /\
  splits (early_terminated p) (tr_sectors r) q' /\ (more = false -> q' = ∅) /\ part_wf all P p'.
Proof.
  intros H Ha. unfold Part.pop_early_terminations in Ha. apply rbind_ok in Ha as (a & Hw & Ha).
  apply rbind_ok in Ha as (u & _ & Ha). injection Ha as <- <- <-.
  apply (popping_walk (early_terminated p)) in Hw; [|apply NoDup_entries| | |done].
  - apply splits_popping in Hw. eexists. split; [done|]. split; [exact Hw|]. split.
    + unfold count. rewrite Z.gtb_ltb, Z.ltb_ge. intros Hz. apply map_size_empty_inv. lia.
    + constructor; unfold Part.live_sectors; cbn; try apply H. eapply splits_sub; [exact Hw|apply H].
  - intros e bf Hin%elem_of_entries. split; [done|]. by intros ?%elem_of_nil.
  - split_and!; cbn; [done|by intros e ?%elem_of_nil|done].
Qed.

(** ** Replacing the infos of active sectors *)

Lemma remove_active_sectors_numbers all F P l q t q' :
  from_table all l -> rep size all F P q -> EQ.remove_active_sectors quant size l q = Ok (t, q') ->
  EQ.t_sectors t = numbers l.
Proof.
  intros Ht Hr H. unfold EQ.remove_active_sectors in H. apply rbind_ok in H as (gs & Hf & H).
  apply (find_sectors_spec size quant all F P) in Hf as (ks & -> & _ & _ & Ha); [|done|done].
  rewrite <- (taken_all P (numbers l) ks Ha).
  enough (forall ks t0 q0, rfold (fun '(t, q) group =>
    let g := EQ.sector_epoch_set group in
    let! q := EQ.remove quant (EQ.ses_epoch g) (from_bits (EQ.ses_sectors g)) ∅ (EQ.ses_power g) pp_zero
                (EQ.ses_pledge g) (EQ.ses_daily_fee g) q in
    Ok (EQ.add_totals t g, q)) (t0, q0) (group_at size all F P (numbers l) <$> ks) = @Ok MErr _ (t, q') ->
    EQ.t_sectors t = EQ.t_sectors t0 ∪ taken P (numbers l) ks) as Hgen.
  { apply Hgen in H as ->. cbn. apply union_empty_l_L. }
  clear. induction ks as [|k ks IH]; intros t0 q0 H.
  { cbn in H. injection H as <- <-. symmetry. apply union_empty_r_L. }
  rewrite fmap_cons in H. cbn [rfold] in H. apply rbind_ok in H as ([t1 q1] & H1 & H).
  apply rbind_ok in H1 as (q2 & _ & H1). injection H1 as <- <-. apply IH in H as ->.
  rewrite taken_cons, (assoc_L (∪)). do 2 f_equal. cbn. f_equal. apply filter_bits.
Qed.

Lemma replace_sectors_wf all all' P p old new delta pledge fee p' :
  part_wf all P p -> from_table all old -> from_table all' new -> NoDup (sector_number <$> new) ->
  numbers new = numbers old -> agree all all' (Part.live_sectors p ∖ numbers old) ->
  Part.replace_sectors size quant old new p = Ok (delta, pledge, fee, p') ->
  let X := numbers old in
  X ⊆ Part.active_sectors p /\
  delta = pp_sub (psum all' X) (psum all X) /\ pledge = pledge_sum all' X - pledge_sum all X /\
  fee = fee_sum all' X - fee_sum all X /\
  sectors p' = sectors p /\ terminated p' = terminated p /\ faults p' = faults p /\ unproven p' = unproven p /\
  recoveries p' = recoveries p /\ early_terminated p' = early_terminated p /\
  p_faulty_power p' = p_faulty_power p /\ live_power p' = pp_add (live_power p) delta /\
  Part.active_power p' = pp_add (Part.active_power p) delta /\
  part_wf all' (declare quant all' X P) p'.
Proof.
  intros H To Tn Dn En Hag Ha X. unfold Part.replace_sectors, EQ.replace_sectors in Ha.
  apply rbind_ok in Ha as ([r q] & H1 & Ha). apply rbind_ok in H1 as ([o q1] & Ho & H1).
  apply rbind_ok in H1 as ([n q2] & Hn & H1). injection H1 as <- <-.
  destruct (pw_queue _ _ _ H) as [Hr Hpo].
  pose proof (remove_active_sectors_numbers all (faults p) P old _ _ _ To Hr Ho) as Eo.
  pose proof (add_active_sectors_numbers _ _ _ _ Hn) as Enn. cbn in Ha. rewrite Eo, Enn, En in Ha. fold X in Ha, Hag.
  destruct (contains_all (Part.active_sectors p) X) eqn:Ec; [|discriminate]. apply contains_all_true in Ec. cbn [negb] in Ha.
  apply rbind_ok in Ha as (u & _ & Ha). injection Ha as <- <- <- <-.
  assert (X ⊆ Part.live_sectors p) as HL by (unfold Part.active_sectors in Ec; clear -Ec; set_point).
  assert (X ## faults p) as HXF by (unfold Part.active_sectors in Ec; clear -Ec; set_point).
  assert (X ## unproven p) as HXU by (unfold Part.active_sectors in Ec; clear -Ec; set_point).
  apply (remove_active_sectors_tracks size quant Hunit all (faults p) P) in Ho as (-> & [Hq1 Hp1] & _); [|done|done|done].
  fold X in Hq1, Hp1. pose proof (pw_plan _ _ _ H) as HP.
  assert (tracks size quant all' (faults p) (drop_from X P) q1) as Hq1'.
  { split; [|done]. eapply rep_ext; [exact Hq1| |done]. by rewrite dom_drop_from, HP. }
  assert (from_table all' new) as Tn' by done.
  apply (add_active_sectors_tracks size quant Hunit all' (faults p) (drop_from X P)) in Hn as (-> & Hq2);
    [|done|done|done|rewrite En, dom_drop_from; fold X; clear; set_point|rewrite En; done]. rewrite En in *. fold X in Hq2 |- *.
  assert (X ⊆ dom all') as Hdom by (unfold X; rewrite <- En; by apply from_table_dom).
  assert (declare quant all' X (drop_from X P) = declare quant all' X P) as EP.
  { apply map_eq. intros k. rewrite !lookup_declare, !lookup_drop_from. destruct (all' !! k) as [s|] eqn:Es; [by case_decide|].
    rewrite decide_False; [done|]. intros [? ?]%Hdom%elem_of_dom. congruence. }
  rewrite EP in Hq2. cbn.
  assert ((sectors p ∖ X) ∪ X = sectors p) as Esec.
  { clear -HL. unfold Part.live_sectors in HL. set_point. }
  rewrite Esec. split_and!; try done; [pp_tac|].
  pose proof (pw_faults _ _ _ H) as HF. pose proof (pw_unproven _ _ _ H) as HU. pose proof (pw_recoveries _ _ _ H) as HR.
  assert (forall Y, Y ⊆ Part.live_sectors p ∖ X -> psum all' Y = psum all Y) as Hsame.
  { intros Y HY. symmetry. apply psum_agree. intros k Hk. apply Hag, HY, Hk. }
  constructor; unfold Part.live_sectors; cbn; rewrite ?Esec; fold (Part.live_sectors p); try apply H.
  - rewrite dom_declare, HP by done. clear -HL. set_point.
  - done.
  - rewrite (pw_live_power _ _ _ H).
    rewrite (psum_split size all (Part.live_sectors p ∖ X) X (Part.live_sectors p)) by (clear -HL; set_point).
    rewrite (psum_split size all' (Part.live_sectors p ∖ X) X (Part.live_sectors p)) by (clear -HL; set_point).
    rewrite (Hsame (Part.live_sectors p ∖ X)) by done. pp_tac.
  - rewrite Hsame; [apply H|]. clear -HU HXU. set_point.
  - rewrite Hsame; [apply H|]. clear -HF HXF. set_point.
  - rewrite Hsame; [apply H|]. clear -HF HXF HR. set_point.
  - pose proof (pw_infos _ _ _ H) as Hi. intros k Hk. destruct (decide (k ∈ X)) as [|Hkx]; [by apply Hdom|].
    apply elem_of_dom. rewrite <- Hag by (by apply elem_of_difference). by apply elem_of_dom, Hi.
Qed.
End partitions.
