(* ===== verification/MinerDeadlines.v ===== *)
(** * The miner actor: the invariant of deadlines

    A deadline is well-formed when its partitions are well-formed, numbered
    from 0 and disjoint, and its memoized counts, powers and fee are the sums
    over them.  Every operation of deadline_state.rs preserves this, and the
    power deltas it returns are the changes of the active power. *)

From S2P Require Import Prelude Runtime Collections MinerBase MinerQueues MinerPartition MinerDeadline MinerEpochs MinerMoney MinerPlan MinerPlanOps MinerPlanPop MinerPlanRemove MinerParts.

Import Miner.

(** ** What a deadline memoizes *)

Inductive Memo : Type :=
  | MLive | MTotal | MLiveRaw | MLiveQa | MFaultyRaw | MFaultyQa | MFee.

Definition part_memo (all : Infos) (m : Memo) (p : Partition) : Z :=
  match m with
  | MLive => bf_len (Part.live_sectors p)
  | MTotal => bf_len (sectors p)
  | MLiveRaw => raw (live_power p)
  | MLiveQa => qa (live_power p)
  | MFaultyRaw => raw (p_faulty_power p)
  | MFaultyQa => qa (p_faulty_power p)
  | MFee => fee_sum all (Part.live_sectors p)
  end.

Definition dl_memo (m : Memo) (d : Deadline) : Z :=
  match m with
  | MLive => dl_live_sectors d
  | MTotal => total_sectors d
  | MLiveRaw => raw (dl_live_power d)
  | MLiveQa => qa (dl_live_power d)
  | MFaultyRaw => raw (dl_faulty_power d)
  | MFaultyQa => qa (dl_faulty_power d)
  | MFee => dl_daily_fee d
  end.

Notation Parts := (gmap Z Partition).

(** The power of the active sectors of the partitions. *)
Definition active_raw (ps : Parts) : Z := map_sum (fun p => raw (Part.active_power p)) ps.
Definition active_qa (ps : Parts) : Z := map_sum (fun p => qa (Part.active_power p)) ps.
Definition active_of (ps : Parts) : PowerPair := mkPP (active_raw ps) (active_qa ps).

(** The sectors of the partitions, live or terminated. *)
Definition dsectors (ps : Parts) : BitField := ⋃ ((fun p => sectors p.2) <$> map_to_list ps).
Definition dlive (ps : Parts) : BitField := ⋃ ((fun p => Part.live_sectors p.2) <$> map_to_list ps).

Lemma elem_of_union_parts (f : Partition -> BitField) (ps : Parts) n :
  n ∈ ⋃ ((fun p => f p.2) <$> map_to_list ps) <-> exists i p, ps !! i = Some p /\ n ∈ f p.
Proof.
  rewrite elem_of_union_list. split.
  - intros (Y & ([i p] & -> & Hp)%list_elem_of_fmap & Hn). apply elem_of_map_to_list in Hp. eauto.
  - intros (i & p & Hp & Hn). exists (f p). split; [|done]. apply list_elem_of_fmap. exists (i, p).
    by rewrite elem_of_map_to_list.
Qed.

Lemma elem_of_dsectors ps n : n ∈ dsectors ps <-> exists i p, ps !! i = Some p /\ n ∈ sectors p.
Proof. apply elem_of_union_parts. Qed.

Lemma elem_of_dlive ps n : n ∈ dlive ps <-> exists i p, ps !! i = Some p /\ n ∈ Part.live_sectors p.
Proof. apply elem_of_union_parts. Qed.

Section deadlines.
Context (size : Z) (quant : QuantSpec) (Hunit : 0 < unit_ quant).
Implicit Types (all : Infos) (ps : Parts) (p : Partition) (d : Deadline) (X : BitField).

Notation part_ok := (part_ok size quant).

Record parts_wf all ps : Prop := {
  ps_array : forall i, is_Some (ps !! i) <-> 0 <= i < count ps;
  ps_parts : forall i p, ps !! i = Some p -> part_ok all p;
  ps_disj : forall i j p p', i <> j -> ps !! i = Some p -> ps !! j = Some p' -> sectors p ## sectors p';
}.

(** The memoized values, short of [off]. *)
Definition memo_off all (off : Memo -> Z) d : Prop :=
  forall m, dl_memo m d + off m = map_sum (part_memo all m) (partitions d).

(** A partition with early terminations to process is listed. *)
Definition early_listed d : Prop :=
  forall i p, partitions d !! i = Some p -> early_terminated p <> ∅ -> i ∈ early_terminations d.

(** Well-formed, but for the memoized values, which are short of [off]. *)
Record dl_off all (off : Memo -> Z) d : Prop := {
  dw_parts : parts_wf all (partitions d);
  dw_memo : memo_off all off d;
  dw_early : early_listed d;
}.

Definition dl_wf all d : Prop := dl_off all (fun _ => 0) d.

Lemma count_insert {A} (m : gmap Z A) k v : is_Some (m !! k) -> count (<[k := v]> m) = count m.
Proof. intros [x Hx]. unfold count. by rewrite map_size_insert_Some. Qed.

(** One partition changes, its sectors stay. *)
Lemma parts_wf_update all ps i p p' :
  parts_wf all ps -> ps !! i = Some p -> part_ok all p' -> sectors p' = sectors p ->
  parts_wf all (<[i := p']> ps).
Proof.
  intros H Hp Hp' Hs. constructor.
  - intros j. rewrite count_insert by (by eexists). rewrite <- (ps_array _ _ H).
    destruct (decide (i = j)) as [->|Hne]; [|by rewrite lookup_insert_ne].
    rewrite lookup_insert_eq, Hp. split; by eexists.
  - intros j pj [[<- <-]|[_ Hj]]%lookup_insert_Some; [done|]. by apply (ps_parts _ _ H j).
  - intros j k pj pk Hne [[<- <-]|[Hj1 Hj]]%lookup_insert_Some [[<- <-]|[Hk1 Hk]]%lookup_insert_Some; try done.
    + rewrite Hs. by apply (ps_disj _ _ H i k).
    + rewrite Hs. by apply (ps_disj _ _ H j i).
    + by apply (ps_disj _ _ H j k).
Qed.

Lemma map_sum_update (f : Partition -> Z) ps i p p' :
  ps !! i = Some p -> map_sum f (<[i := p']> ps) = map_sum f ps - f p + f p'.
Proof. intros Hp. rewrite map_sum_insert. unfold lookup_sum. by rewrite Hp. Qed.

Lemma dsectors_update ps i p p' : ps !! i = Some p -> sectors p' = sectors p ->
  dsectors (<[i := p']> ps) = dsectors ps.
Proof.
  intros Hp Hs. apply set_eq. intros n. rewrite !elem_of_dsectors. split.
  - intros (j & q & [[<- <-]|[Hne Hj]]%lookup_insert_Some & Hn); [rewrite Hs in Hn|]; eauto.
  - intros (j & q & Hj & Hn). destruct (decide (i = j)) as [->|Hne].
    + exists j, p'. rewrite lookup_insert_eq, Hs. rewrite Hp in Hj. by injection Hj as ->.
    + exists j, q. by rewrite lookup_insert_ne.
Qed.

(** The change of a memoized value. *)
Lemma memo_off_update all off d d' i p p' :
  memo_off all off d -> partitions d !! i = Some p -> partitions d' = <[i := p']> (partitions d) ->
  forall off', (forall m, dl_memo m d' + off' m = dl_memo m d + off m - part_memo all m p + part_memo all m p') ->
  memo_off all off' d'.
Proof. intros H Hp Hd off' Hm m. rewrite Hm, Hd, (map_sum_update _ _ i p p') by done. rewrite H. lia. Qed.

Lemma active_of_update ps i p p' : ps !! i = Some p ->
  active_of (<[i := p']> ps) = pp_add (pp_sub (active_of ps) (Part.active_power p)) (Part.active_power p').
Proof.
  intros Hp. unfold active_of, active_raw, active_qa. rewrite !(map_sum_update _ _ i p p') by done. done.
Qed.

Lemma active_of_step ps i p p' delta : ps !! i = Some p ->
  Part.active_power p' = pp_add (Part.active_power p) delta ->
  active_of (<[i := p']> ps) = pp_add (active_of ps) delta.
Proof. intros Hp Hd. rewrite (active_of_update ps i p p') by done. rewrite Hd. unfold pp_add, pp_sub. cbn. f_equal; lia. Qed.

Lemma dlive_update ps i p p' : ps !! i = Some p -> Part.live_sectors p' = Part.live_sectors p ->
  dlive (<[i := p']> ps) = dlive ps.
Proof.
  intros Hp Hs. apply set_eq. intros n. rewrite !elem_of_dlive. split.
  - intros (j & q & [[<- <-]|[Hne Hj]]%lookup_insert_Some & Hn); [rewrite Hs in Hn|]; eauto.
  - intros (j & q & Hj & Hn). destruct (decide (i = j)) as [->|Hne].
    + exists j, p'. rewrite lookup_insert_eq, Hs. rewrite Hp in Hj. by injection Hj as ->.
    + exists j, q. by rewrite lookup_insert_ne.
Qed.

(** ** Changes of standing *)

Definition content (d : Deadline) : BitField * BitField := (dsectors (partitions d), dlive (partitions d)).

(** The change of the faulty power, as a memoized value. *)
Definition faulty_memo (delta : PowerPair) (m : Memo) : Z :=
  match m with MFaultyRaw => raw delta | MFaultyQa => qa delta | _ => 0 end.

Lemma dl_off_same all off off' d d' i p p' delta :
  dl_off all off d -> partitions d !! i = Some p -> same_sectors p p' -> part_ok all p' ->
  p_faulty_power p' = pp_add (p_faulty_power p) delta ->
  partitions d' = <[i := p']> (partitions d) -> early_terminations d' = early_terminations d ->
  (forall m, dl_memo m d' + off' m = dl_memo m d + off m + faulty_memo delta m) ->
  dl_off all off' d' /\ content d' = content d.
Proof.
  intros H Hp (S1 & S2 & S3 & S4) Hok Hf Hd He Hm.
  assert (Part.live_sectors p' = Part.live_sectors p) as EL by (unfold Part.live_sectors; congruence).
  split; [constructor|].
  - rewrite Hd. eapply parts_wf_update; [apply H|done..].
  - eapply memo_off_update; [apply H|done|done|]. intros m. rewrite Hm.
    destruct m; cbn; rewrite ?EL, ?S1, ?S4, ?Hf; cbn; lia.
  - intros j q Hj Hq. rewrite Hd in Hj. rewrite He. apply lookup_insert_Some in Hj as [[<- <-]|[Hne Hj]].
    + apply (dw_early _ _ _ H i p Hp). by rewrite <- S3.
    + by apply (dw_early _ _ _ H j q).
  - unfold content. rewrite Hd. by rewrite (dsectors_update _ i p p'), (dlive_update _ i p p').
Qed.

(** Fields that are not part of the invariant. *)
Lemma dl_off_fields all off d d' :
  dl_off all off d -> partitions d' = partitions d -> early_terminations d' = early_terminations d ->
  (forall m, dl_memo m d' = dl_memo m d) -> dl_off all off d' /\ content d' = content d.
Proof.
  intros H Hd He Hm. split; [constructor|unfold content; by rewrite Hd].
  - rewrite Hd. apply H.
  - intros m. rewrite Hm, Hd. apply H.
  - intros i p. rewrite Hd, He. apply H.
Qed.

Lemma dl_off_ext all off off' d : dl_off all off d -> (forall m, off m = off' m) -> dl_off all off' d.
Proof. intros H Hm. constructor; [apply H| |apply H]. intros m. rewrite <- Hm. apply H. Qed.

Lemma add_expiration_partitions_inv e l d d' :
  DL.add_expiration_partitions quant e l d = Ok d' -> d' = d \/ exists q, d' = DL.set_expirations q d.
Proof. unfold DL.add_expiration_partitions. destruct l; intros H; minv; eauto. Qed.

Lemma add_expiration_partitions_wf all off e l d d' :
  dl_off all off d -> DL.add_expiration_partitions quant e l d = Ok d' ->
  dl_off all off d' /\ content d' = content d /\ partitions d' = partitions d.
Proof.
  intros H [->|[q ->]]%add_expiration_partitions_inv; [done|].
  destruct (dl_off_fields all off d (DL.set_expirations q d)) as [? ?]; done.
Qed.

Lemma illegal_state_ok {A} (r : MRes A) a : DL.illegal_state r = Ok a -> r = Ok a.
Proof. unfold DL.illegal_state. destruct r; [congruence|discriminate..]. Qed.

(** [rfold] with an invariant. *)
Lemma rfold_ind {E A B} (f : A -> B -> Res E A) (I : A -> Prop) l : forall a a',
  (forall a b a', I a -> f a b = Ok a' -> I a') -> I a -> rfold f a l = Ok a' -> I a'.
Proof.
  induction l as [|b l IH]; intros a a' Hs Hi H; cbn [rfold] in H; [congruence|].
  apply rbind_ok in H as (a1 & H1 & H). eauto.
Qed.

(** From [d] to [d'] sectors only change their standing, and [delta] is the
    change of the active power. *)
Definition stands all off d delta d' : Prop :=
  dl_off all off d' /\ content d' = content d /\
  active_of (partitions d') = pp_add (active_of (partitions d)) delta.

Lemma stands_refl all off d : dl_off all off d -> stands all off d pp_zero d.
Proof. intros H. split_and!; [done|done|by rewrite pp_add_zero]. Qed.

(** One partition. *)
Lemma stands_step all off off' d0 delta0 d i p p' fdelta delta d' :
  stands all off d0 delta0 d -> partitions d !! i = Some p -> same_sectors p p' -> part_ok all p' ->
  p_faulty_power p' = pp_add (p_faulty_power p) fdelta ->
  Part.active_power p' = pp_add (Part.active_power p) delta ->
  partitions d' = <[i := p']> (partitions d) -> early_terminations d' = early_terminations d ->
  (forall m, dl_memo m d' + off' m = dl_memo m d + off m + faulty_memo fdelta m) ->
  stands all off' d0 (pp_add delta0 delta) d'.
Proof.
  intros (Hw & Hc & Hact) Hp Hs Hok Hf Ha Hd He Hm.
  destruct (dl_off_same all off off' d d' i p p' fdelta) as [Hw' Hc']; try done.
  split_and!; [done|congruence|]. rewrite Hd, (active_of_step _ i p p' delta), Hact by done.
  unfold pp_add. cbn. f_equal; lia.
Qed.

Lemma stands_expirations all off d0 delta d e l d' :
  stands all off d0 delta d -> DL.add_expiration_partitions quant e l d = Ok d' -> stands all off d0 delta d'.
Proof.
  intros (Hw & Hc & Hact) H. eapply add_expiration_partitions_wf in H as (Hw2 & Hc2 & Hp2); [|exact Hw].
  split_and!; [done|congruence|congruence].
Qed.

Lemma stands_fields all off d0 delta d d' :
  stands all off d0 delta d -> partitions d' = partitions d -> early_terminations d' = early_terminations d ->
  (forall m, dl_memo m d' = dl_memo m d) -> stands all off d0 delta d'.
Proof.
  intros (Hw & Hc & Hact) Hd He Hm. destruct (dl_off_fields all off d d') as [? ?]; [done..|].
  split_and!; [done|congruence|congruence].
Qed.

Lemma record_faults_dl all e m d delta d' : table_ok all ->
  dl_wf all d -> DL.record_faults size quant all e m d = Ok (delta, d') -> stands all (fun _ => 0) d delta d'.
Proof.
  intros Ht H Ha. unfold DL.record_faults in Ha. apply rbind_ok in Ha as ([[wf pd] d1] & H1 & Ha).
  apply rbind_ok in Ha as (d2 & H2 & Ha). injection Ha as <- <-. apply illegal_state_ok in H2.
  eapply stands_expirations; [|exact H2].
  apply (rfold_ind _ (fun '(_, pd, dd) => stands all (fun _ => 0) d pd dd)) in H1; [done| |by apply stands_refl].
  intros [[wf0 pd0] d0] [i ns] [[wf3 pd3] d3] Hi Hs. apply rbind_ok in Hs as (p & Hp & Hs). apply ok_or_ok in Hp.
  apply rbind_ok in Hs as ([[[nf de] np] p'] & Hr & Hs). injection Hs as <- <- <-.
  destruct (ps_parts _ _ (dw_parts _ _ _ (proj1 Hi)) i p Hp) as [P HP].
  apply (record_faults_wf size quant Hunit all P) in Hr as (Hsame & _ & _ & _ & Hf & Hact' & P' & HP'); [|done|done].
  eapply stands_step; [exact Hi|exact Hp|exact Hsame|by eexists|exact Hf|exact Hact'|done|done|].
  intros []; cbn; lia.
Qed.

Lemma declare_faults_recovered_dl all m d d' : table_ok all ->
  dl_wf all d -> DL.declare_faults_recovered size all m d = Ok d' -> stands all (fun _ => 0) d pp_zero d'.
Proof.
  intros Ht H Ha. unfold DL.declare_faults_recovered in Ha.
  apply (rfold_ind _ (fun dd => stands all (fun _ => 0) d pp_zero dd)) in Ha; [done| |by apply stands_refl].
  intros d0 [i ns] d3 Hi Hs. apply rbind_ok in Hs as (p & Hp & Hs). apply ok_or_ok in Hp.
  apply rbind_ok in Hs as (p' & Hr & Hs). injection Hs as <-.
  destruct (ps_parts _ _ (dw_parts _ _ _ (proj1 Hi)) i p Hp) as [P HP].
  destruct (declare_faults_recovered_wf size quant all P p ns p' Ht HP Hr) as (Hsame & _ & _ & _ & Hf & Hact' & HP').
  rewrite <- (pp_add_zero pp_zero).
  eapply stands_step; [exact Hi|exact Hp|exact Hsame|by eexists|by rewrite pp_add_zero|by rewrite pp_add_zero|done|done|].
  intros []; cbn; lia.
Qed.

Lemma reschedule_dl all e m d l d' : table_ok all ->
  dl_wf all d -> DL.reschedule_sector_expirations size quant all e m d = Ok (l, d') ->
  stands all (fun _ => 0) d pp_zero d'.
Proof.
  intros Ht H Ha. unfold DL.reschedule_sector_expirations in Ha. apply rbind_ok in Ha as ([[rs al] ps] & H1 & Ha).
  apply (rfold_ind _ (fun '(_, _, ps) => stands all (fun _ => 0) d pp_zero (DL.set_partitions ps d))) in H1.
  - destruct rs; [injection Ha as _ <-; by apply stands_refl|]. minv. eapply stands_expirations; [exact H1|done].
  - intros [[rs0 al0] ps0] [i ns] [[rs3 al3] ps3] Hi Hs. destruct (ps0 !! i) as [p|] eqn:Hp; [|by injection Hs as <- <- <-].
    apply rbind_ok in Hs as ([rep p'] & Hr & Hs). destruct (ps_parts _ _ (dw_parts _ _ _ (proj1 Hi)) i p Hp) as [P HP].
    destruct rep as [|s0 rep]; injection Hs as <- <- <-; [done|].
    destruct (part_reschedule_wf size quant Hunit all P _ _ _ _ _ Ht HP Hr) as (Hsame & _ & _ & _ & Hf & Hact' & _ & HP').
    rewrite <- (pp_add_zero pp_zero).
    eapply stands_step; [exact Hi|exact Hp|exact Hsame|by eexists|by rewrite pp_add_zero|by rewrite pp_add_zero|done|done|].
    intros []; cbn; lia.
  - eapply stands_fields; [by apply stands_refl|done..].
Qed.

(** ** The end of a deadline *)

Lemma process_deadline_end_dl all all' e d delta pen d' :
  dl_wf all d -> DL.process_deadline_end quant e all' d = Ok (delta, pen, d') -> stands all (fun _ => 0) d delta d'.
Proof.
  intros H Ha. unfold DL.process_deadline_end in Ha. apply rbind_ok in Ha as ([[[rs pd] pn] d1] & H1 & Ha).
  apply rbind_ok in Ha as (d2 & H2 & Ha). injection Ha as <- <- <-. apply illegal_state_ok in H2.
  eapply stands_fields; [eapply stands_expirations; [|exact H2]|done..|intros []; done].
  apply (rfold_ind _ (fun '(_, pd, _, dd) => stands all (fun _ => 0) d pd dd)) in H1; [done| |by apply stands_refl].
  intros [[[rs0 pd0] pn0] d0] i [[[rs3 pd3] pn3] d3] Hi Hs. unfold DL.end_step in Hs.
  destruct (bf_get _ i); [by injection Hs as <- <- <- <-|]. apply rbind_ok in Hs as (p & Hp & Hs).
  apply ok_or_ok in Hp. destruct (_ && _); [by injection Hs as <- <- <- <-|].
  apply rbind_ok in Hs as ([[[de pe] nf] p'] & Hm & Hs). apply illegal_state_ok in Hm. injection Hs as <- <- <- <-.
  destruct (ps_parts _ _ (dw_parts _ _ _ (proj1 Hi)) i p Hp) as [P HP].
  destruct (record_missed_post_wf size quant Hunit all P _ _ _ _ _ _ HP Hm) as (Hsame & _ & _ & _ & Hf & Hact' & _ & HP').
  eapply stands_step; [exact Hi|exact Hp|exact Hsame|by eexists|exact Hf|exact Hact'|done|done|].
  intros []; cbn; lia.
Qed.

(** ** Window PoSts *)

Lemma same_sectors_trans p1 p2 p3 : same_sectors p1 p2 -> same_sectors p2 p3 -> same_sectors p1 p3.
Proof. intros (? & ? & ? & ?) (? & ? & ? & ?). split_and!; congruence. Qed.

Lemma prove_step_dl all e d0 rs r d post rs' r' d' : table_ok all ->
  stands all (faulty_memo (pp_sub (pr_new_faulty_power r) (pr_recovered_power r))) d0 (pr_power_delta r) d ->
  DL.prove_step size quant all e (rs, r, d) post = Ok (rs', r', d') ->
  stands all (faulty_memo (pp_sub (pr_new_faulty_power r') (pr_recovered_power r'))) d0 (pr_power_delta r') d'.
Proof.
  intros Ht Hi Hs. unfold DL.prove_step in Hs. apply rbind_ok in Hs as (p & Hp & Hs). apply ok_or_ok in Hp.
  apply rbind_ok in Hs as ([[[[de nf] rt] hn] p1] & H1 & Hs). apply rbind_ok in Hs as ([rc p2] & H2 & Hs).
  destruct (ps_parts _ _ (dw_parts _ _ _ (proj1 Hi)) _ p Hp) as [P HP].
  apply (record_skipped_faults_wf size quant Hunit all P) in H1 as (S1 & _ & _ & F1 & A1 & _ & P1 & HP1); [|done|done].
  apply (recover_faults_wf size quant Hunit all P1) in H2 as (S2 & _ & _ & _ & F2 & A2 & P2 & HP2); [|done|done].
  pose proof (activate_unproven_wf size quant Hunit all P2 p2 HP2) as H3.
  destruct (Part.activate_unproven p2) as [ac p3] eqn:E3. destruct H3 as (S3 & _ & _ & _ & F3 & A3 & HP3).
  injection Hs as <- <- <-. cbn [pr_new_faulty_power pr_recovered_power pr_power_delta].
  assert (Part.active_power p3 = pp_add (Part.active_power p) (pp_add (pp_add de ac) rc)) as A.
  { rewrite A3, A2, A1. unfold pp_add. cbn. f_equal; lia. }
  assert (p_faulty_power p3 = pp_add (p_faulty_power p) (pp_sub nf rc)) as F.
  { rewrite F3, F2, F1. unfold pp_add, pp_sub. cbn. f_equal; lia. }
  assert (pp_add (pp_add (pr_power_delta r) (pp_add de ac)) rc = pp_add (pr_power_delta r) (pp_add (pp_add de ac) rc)) as ->.
  { unfold pp_add. cbn. f_equal; lia. }
  eapply (stands_step _ _ _ _ _ _ _ p p3); [exact Hi|exact Hp|eauto using same_sectors_trans|by eexists|exact F|exact A|done|done|].
  intros []; cbn; lia.
Qed.

Lemma record_proven_sectors_dl all e posts d r d' : table_ok all ->
  dl_wf all d -> DL.record_proven_sectors size quant all e posts d = Ok (r, d') ->
  stands all (fun _ => 0) d (pr_power_delta r) d'.
Proof.
  intros Ht H Ha. unfold DL.record_proven_sectors in Ha. destruct (negb _); [discriminate|]. destruct (negb _); [discriminate|].
  apply rbind_ok in Ha as ([[rs r1] d1] & H1 & Ha). apply rbind_ok in Ha as (d2 & H2 & Ha). injection Ha as <- <-.
  apply illegal_state_ok in H2.
  apply (rfold_ind _ (fun '(_, r, dd) =>
    stands all (faulty_memo (pp_sub (pr_new_faulty_power r) (pr_recovered_power r))) d (pr_power_delta r) dd)) in H1.
  - eapply stands_expirations in H1 as (Hw & Hc & Hact); [|exact H2]. split_and!; [|done|done].
    constructor; [apply Hw| |apply Hw]. intros m. pose proof (dw_memo _ _ _ Hw m) as Hm. cbn [partitions DL.set_power].
    rewrite <- Hm. destruct m; cbn; lia.
  - intros [[rs0 r0] d0] post [[rs3 r3] d3]. by apply prove_step_dl.
  - split_and!; [|done|by rewrite pp_add_zero]. eapply dl_off_ext; [exact H|]. intros []; done.
Qed.

(** ** Sectors that leave *)

Lemma bf_len_diff X Y : Y ⊆ X -> bf_len (X ∖ Y) = bf_len X - bf_len Y.
Proof.
  intros H. rewrite <- (Z.mul_1_l (bf_len (X ∖ Y))), <- (Z.mul_1_l (bf_len X)), <- (Z.mul_1_l (bf_len Y)), <- !ssum_const.
  by apply ssum_diff.
Qed.

Lemma bf_len_union X Y : X ## Y -> bf_len (X ∪ Y) = bf_len X + bf_len Y.
Proof.
  intros H. rewrite <- (Z.mul_1_l (bf_len (X ∪ Y))), <- (Z.mul_1_l (bf_len X)), <- (Z.mul_1_l (bf_len Y)), <- !ssum_const.
  by apply ssum_union.
Qed.

Lemma dlive_shed all ps i p p' X :
  parts_wf all ps -> ps !! i = Some p -> X ⊆ Part.live_sectors p -> Part.live_sectors p' = Part.live_sectors p ∖ X ->
  dlive (<[i := p']> ps) = dlive ps ∖ X.
Proof.
  intros H Hp HX HL. apply set_eq. intros n. rewrite elem_of_difference, !elem_of_dlive. split.
  - intros (j & q & [[<- <-]|[Hne Hj]]%lookup_insert_Some & Hn).
    + rewrite HL in Hn. apply elem_of_difference in Hn as [Hn Hx]. eauto.
    + split; [eauto|]. intros Hx. apply HX in Hx. apply (ps_disj _ _ H i j p q Hne Hp Hj n).
      * unfold Part.live_sectors in Hx. by apply elem_of_difference in Hx as [? _].
      * unfold Part.live_sectors in Hn. by apply elem_of_difference in Hn as [? _].
  - intros [(j & q & Hj & Hn) Hx]. destruct (decide (i = j)) as [->|Hne].
    + exists j, p'. rewrite lookup_insert_eq, HL. rewrite Hp in Hj. injection Hj as ->. split; [done|]. by apply elem_of_difference.
    + exists j, q. by rewrite lookup_insert_ne.
Qed.

(** From [d] to [d'] the sectors [X] are terminated, and [delta] is the active
    power lost. *)
Definition sheds all off d X delta d' : Prop :=
  dl_off all off d' /\ dsectors (partitions d') = dsectors (partitions d) /\
  X ⊆ dlive (partitions d) /\ dlive (partitions d') = dlive (partitions d) ∖ X /\
  active_of (partitions d') = pp_sub (active_of (partitions d)) delta.

(** What leaves with an expiration set, as memoized values. *)
Definition es_memo (es : ExpirationSet) (lost : PowerPair) (m : Memo) : Z :=
  match m with
  | MLive => es_len es
  | MTotal => 0
  | MLiveRaw => raw (active_power es) + raw (faulty_power es) + raw lost
  | MLiveQa => qa (active_power es) + qa (faulty_power es) + qa lost
  | MFaultyRaw => raw (faulty_power es)
  | MFaultyQa => qa (faulty_power es)
  | MFee => fee_deduction es
  end.

Lemma sheds_step all off off' d0 X0 delta0 d i p p' X es lost d' :
  sheds all off d0 X0 delta0 d -> partitions d !! i = Some p -> leaves all X p es lost p' -> part_ok all p' ->
  partitions d' = <[i := p']> (partitions d) ->
  early_terminations d ⊆ early_terminations d' ->
  (early_terminated p' <> ∅ -> i ∈ early_terminations d') ->
  (forall m, dl_memo m d' + off' m = dl_memo m d + off m - es_memo es lost m) ->
  sheds all off' d0 (X0 ∪ X) (pp_add delta0 (active_power es)) d'.
Proof.
  intros (Hw & Hc & HX0 & HL0 & Hact) Hp (E1 & E2 & E3 & E4 & E5 & E6 & E7 & E8 & E9 & E10) Hok Hd He1 He2 Hm.
  assert (Part.live_sectors p' = Part.live_sectors p ∖ X) as EL.
  { unfold Part.live_sectors. rewrite E4, E5. clear. set_point. }
  assert (dlive (partitions d') = dlive (partitions d) ∖ X) as ED.
  { rewrite Hd. eapply dlive_shed; [apply Hw|done..]. }
  assert (X ⊆ dlive (partitions d)) as HXd.
  { intros n Hn. apply elem_of_dlive. eauto. }
  split_and!.
  - constructor.
    + rewrite Hd. eapply parts_wf_update; [apply Hw|done..].
    + eapply memo_off_update; [apply Hw|done|done|]. intros m. rewrite Hm.
      destruct m; cbn; rewrite ?EL, ?E4, ?E8, ?E9; cbn; try lia.
      * rewrite bf_len_diff by done. unfold es_len. rewrite <- bf_len_union, E1 by done. lia.
      * unfold fee_sum at 2. rewrite ssum_diff by done. fold (fee_sum all X). unfold fee_sum in *. lia.
    + intros j q Hj Hq. rewrite Hd in Hj. apply lookup_insert_Some in Hj as [[<- <-]|[Hne Hj]]; [auto|].
      apply He1. by apply (dw_early _ _ _ Hw j q).
  - rewrite Hd. by rewrite (dsectors_update _ i p p').
  - rewrite HL0 in HXd. clear -HX0 HXd. set_point.
  - rewrite ED, HL0. clear. set_point.
  - rewrite Hd, (active_of_update _ i p p'), E10, Hact by done. unfold pp_sub, pp_add. cbn. f_equal; lia.
Qed.

Lemma sheds_refl all off d : dl_off all off d -> sheds all off d ∅ pp_zero d.
Proof. intros H. split_and!; [done|done|set_solver|by rewrite difference_empty_L|by rewrite pp_sub_zero]. Qed.

Lemma leaves_is_empty all X p es lost p' : leaves all X p es lost p' -> es_is_empty es = true -> X = ∅.
Proof. intros (E & _) [E1 E2]%es_is_empty_spec. rewrite <- E, E1, E2. set_solver. Qed.

Lemma terminate_sectors_dl policy all epoch m d delta d' : table_ok all ->
  dl_wf all d -> DL.terminate_sectors size quant policy all epoch m d = Ok (delta, d') ->
  exists X, sheds all (fun _ => 0) d X delta d'.
Proof.
  intros Ht H Ha. unfold DL.terminate_sectors in Ha.
  apply (rfold_ind _ (fun '(pl, dd) => exists X, sheds all (fun _ => 0) d X pl dd)) in Ha; [done| |exists ∅; by apply sheds_refl].
  intros [pl0 d0] [i ns] [pl3 d3] [X0 Hi] Hs. apply rbind_ok in Hs as (p & Hp & Hs). apply ok_or_ok in Hp.
  apply rbind_ok in Hs as ([[es lost] p'] & Hr & Hs). apply rbind_ok in Hs as (d1 & H1 & Hs). injection Hs as <- <-.
  destruct (ps_parts _ _ (dw_parts _ _ _ (proj1 Hi)) i p Hp) as [P HP].
  destruct (terminate_sectors_wf size quant Hunit policy all P _ _ _ _ _ _ Ht HP Hr) as (Hl & Hn1 & Hn2 & Hn3 & HP').
  exists (X0 ∪ ns). eapply sheds_step; [exact Hi|exact Hp|exact Hl|by eexists|..].
  all: destruct (es_is_empty es) eqn:Em; [injection H1 as <-|apply rbind_ok in H1 as (lv & Hlv & H1); injection H1 as <-; apply chk_u64_ok in Hlv as [-> _]].
  - done.
  - done.
  - done.
  - cbn. clear. set_point.
  - cbn. rewrite Hn3 by (by eapply leaves_is_empty). by apply (dw_early _ _ _ (proj1 Hi) i p).
  - cbn. intros _. clear. set_solver.
  - assert (es_len es = 0) as El.
    { apply es_is_empty_spec in Em as [E1 E2]. unfold es_len. by rewrite E1, E2. }
    intros []; cbn; rewrite ?El; lia.
  - intros []; cbn; lia.
Qed.

(** The sectors of an expiration set, with their pledge and fee. *)
Definition es_of all X (es : ExpirationSet) : Prop :=
  on_time_sectors es ∪ early_sectors es = X /\ on_time_sectors es ## early_sectors es /\
  on_time_pledge es = pledge_sum all (on_time_sectors es) /\ fee_deduction es = fee_sum all X.

Lemma leaves_es_of all X p es lost p' : leaves all X p es lost p' -> es_of all X es.
Proof. intros (? & ? & ? & ? & ? & ? & ? & ?). split_and!; done. Qed.

Lemma es_of_join all X Y a b : es_of all X a -> es_of all Y b -> X ## Y ->
  es_of all (X ∪ Y) (DL.es_join a b) /\ es_len (DL.es_join a b) = es_len a + es_len b.
Proof.
  intros (A1 & A2 & A3 & A4) (B1 & B2 & B3 & B4) Hd. unfold es_of, DL.es_join, es_len. cbn.
  assert (on_time_sectors a ## on_time_sectors b) as D1 by (clear -A1 B1 Hd; set_solver).
  assert (early_sectors a ## early_sectors b) as D2 by (clear -A1 B1 Hd; set_solver).
  assert (on_time_sectors a ## early_sectors b) as D3 by (clear -A1 B1 Hd; set_solver).
  assert (early_sectors a ## on_time_sectors b) as D4 by (clear -A1 B1 Hd; set_solver).
  rewrite A3, B3, A4, B4, <- A1, <- B1. unfold pledge_sum, fee_sum.
  rewrite !bf_len_union, <- !ssum_union by (done || clear -A1 B1 Hd; set_solver).
  split; [|lia]. split_and!; [|clear -A2 B2 D3 D4; set_solver|done|done]. clear. set_point.
Qed.

Lemma pop_expired_partitions_inv until d popped b d' :
  DL.pop_expired_partitions until d = Ok (popped, b, d') -> d' = d \/ exists q, d' = DL.set_expirations q d.
Proof.
  unfold DL.pop_expired_partitions. intros H. apply rbind_ok in H as ([[po m] q] & _ & H). injection H as <- <- <-.
  destruct m; eauto.
Qed.

Lemma pop_expired_sectors_dl all until d es d' :
  dl_wf all d -> DL.pop_expired_sectors until d = Ok (es, d') ->
  exists X, es_of all X es /\ sheds all (fun _ => 0) d X (active_power es) d'.
Proof.
  intros H Ha. unfold DL.pop_expired_sectors in Ha. apply rbind_ok in Ha as ([[po b] d1] & H1 & Ha).
  assert (dl_wf all d1 /\ partitions d1 = partitions d) as [Hw1 Hp1].
  { apply pop_expired_partitions_inv in H1 as [->|[q ->]]; [done|]. split; [|done].
    by apply (dl_off_fields all (fun _ => 0) d (DL.set_expirations q d)). }
  destruct b; cbn [negb] in Ha.
  2: { injection Ha as <- <-. exists ∅. split.
       - unfold es_of, es_empty, pledge_sum, fee_sum. cbn. rewrite !ssum_empty. split_and!; [set_solver|set_solver|done|done].
       - destruct (sheds_refl all (fun _ => 0) d1 Hw1) as (? & ? & ? & ? & ?). rewrite Hp1 in *. unfold sheds. by rewrite Hp1. }
  apply rbind_ok in Ha as ([[al we] ps] & H2 & Ha).
  set (mk := fun we ps => DL.set_early (early_terminations d1 ∪ from_bits we) (DL.set_partitions ps d1)).
  apply (rfold_ind _ (fun '(al, we, ps) => exists X, es_of all X al /\
    sheds all (fun m => - es_memo al pp_zero m) d1 X (active_power al) (mk we ps))) in H2.
  - destruct H2 as (X & He & Hs). exists X. 
    apply rbind_ok in Ha as (n & Hn & Ha). apply rbind_ok in Ha as (lv & Hlv & Ha). injection Ha as <- <-.
    apply chk_u64_ok in Hn as [-> _], Hlv as [-> _]. split; [done|]. destruct Hs as (Hw & A & B & C & D).
    unfold sheds. rewrite <- Hp1. split_and!; [|done..].
    constructor; [apply Hw| |apply Hw]. intros m. pose proof (dw_memo _ _ _ Hw m) as Hm. cbn [partitions DL.set_daily_fee] in *.
    etransitivity; [|exact Hm]. unfold es_len. destruct m; cbn; unfold es_len; lia.
  - intros [[al0 we0] ps0] i [[al3 we3] ps3] (X0 & He & Hi) Hs. apply rbind_ok in Hs as (p & Hp & Hs). apply ok_or_ok in Hp.
    apply rbind_ok in Hs as ([es0 p'] & Hr & Hs). injection Hs as <- <- <-.
    destruct (ps_parts _ _ (dw_parts _ _ _ (proj1 Hi)) i p Hp) as [P HP].
    destruct (pop_expired_sectors_wf size quant Hunit all P _ _ _ _ HP Hr) as (_ & Hl & Hn1 & Hn2 & Hn3 & HP').
    set (X := _ ∪ _) in Hl. exists (X0 ∪ X).
    assert (X0 ## X) as Hdj.
    { destruct Hi as (_ & _ & _ & HL & _). cbn in HL. destruct Hl as (_ & _ & HXl & _). intros n Hn0 Hn.
      assert (n ∈ dlive ps0) as Hd by (apply elem_of_dlive; eauto). rewrite HL in Hd.
      apply elem_of_difference in Hd as [_ Hd]. done. }
    destruct (es_of_join all X0 X al0 es0 He (leaves_es_of _ _ _ _ _ _ Hl) Hdj) as [Hj Hjl]. split; [done|].
    change (active_power (DL.es_join al0 es0)) with (pp_add (active_power al0) (active_power es0)).
    eapply sheds_step; [exact Hi|exact Hp|exact Hl|by eexists|done|..].
    + cbn. unfold bf_empty. case_bool_decide; [done|]. rewrite from_bits_app. clear. set_point.
    + intros Hne. cbn. unfold bf_empty. case_bool_decide as D.
      * rewrite (Hn3 D) in Hne. apply (dw_early _ _ _ (proj1 Hi) i p Hp Hne).
      * rewrite from_bits_app. clear. unfold from_bits. cbn. set_solver.
    + intros []; cbn; rewrite ?Hjl; lia.
  - exists ∅. split.
    + unfold es_of, es_empty, pledge_sum, fee_sum. cbn. rewrite !ssum_empty. split_and!; [set_solver|set_solver|done|done].
    + assert (dl_off all (fun m => - es_memo es_empty pp_zero m) (mk [] (partitions d1))) as Hw.
      { constructor; [apply Hw1| |].
        - intros m. pose proof (dw_memo _ _ _ Hw1 m) as Hm. etransitivity; [|exact Hm].
          assert (es_memo es_empty pp_zero m = 0) as -> by (by destruct m). by destruct m.
        - intros i p Hp Hq. cbn. apply elem_of_union. left. by apply (dw_early _ _ _ Hw1 i p). }
      split_and!; [done|done|set_solver|cbn; by rewrite difference_empty_L|cbn; by rewrite pp_sub_zero].
Qed.

(** ** Early terminations to process *)

Lemma stands_early all d0 d i p p' d' :
  stands all (fun _ => 0) d0 pp_zero d -> partitions d !! i = Some p -> part_ok all p' ->
  (exists q', p' = mkPartition (sectors p) (unproven p) (faults p) (recoveries p) (terminated p)
     (expirations_epochs p) q' (live_power p) (unproven_power p) (p_faulty_power p) (recovering_power p)) ->
  partitions d' = <[i := p']> (partitions d) -> early_listed d' -> (forall m, dl_memo m d' = dl_memo m d) ->
  stands all (fun _ => 0) d0 pp_zero d'.
Proof.
  intros (Hw & Hc & Hact) Hp Hok (q' & ->) Hd He Hm. split_and!; [constructor|..].
  - rewrite Hd. eapply parts_wf_update; [apply Hw|done..].
  - eapply memo_off_update; [apply Hw|done|done|]. intros m. rewrite Hm. destruct m; cbn; unfold Part.live_sectors; cbn; lia.
  - done.
  - rewrite <- Hc. unfold content. rewrite Hd. f_equal; [by eapply dsectors_update|by eapply dlive_update].
  - rewrite Hd, (active_of_update _ i p), Hact by done. unfold pp_add, pp_sub. cbn. f_equal; lia.
Qed.

Lemma pop_partitions_dl all mp ms d idxs : forall fin res ps fin' res' ps',
  let mk := fun fin ps => DL.set_partitions ps (DL.set_early (early_terminations d ∖ from_bits fin) d) in
  NoDup idxs -> (forall i, i ∈ idxs -> i ∈ early_terminations d /\ i ∉ fin) ->
  stands all (fun _ => 0) d pp_zero (mk fin ps) ->
  DL.pop_partitions mp ms idxs fin res ps = Ok (fin', res', ps') ->
  stands all (fun _ => 0) d pp_zero (mk fin' ps').
Proof.
  induction idxs as [|i idxs IH]; intros fin res ps fin' res' ps' mk Hnd Hidx Hi H; cbn [DL.pop_partitions] in H.
  { by injection H as <- <- <-. }
  assert (forall fin2, stands all (fun _ => 0) d pp_zero (mk fin ps) ->
    (forall j q, j ∈ fin2 -> j ∉ fin -> ps !! j = Some q -> early_terminated q = ∅) ->
    stands all (fun _ => 0) d pp_zero (mk fin2 ps)) as Hfin.
  { intros fin2 (Hw & Hc & Hact) Hf. split_and!; [|done|done]. constructor; [apply Hw|apply Hw|].
    intros j q Hj Hq. cbn in Hj |- *. pose proof (dw_early _ _ _ Hw j q Hj Hq) as He. cbn in He.
    apply elem_of_difference in He as [He Hnf]. apply elem_of_difference. split; [done|]. rewrite elem_of_from_bits in *.
    intros Hj2. apply Hq. by apply (Hf j q). }
  apply NoDup_cons in Hnd as [Hni Hnd].
  assert (forall fin2 : list Z, (forall j : Z, j ∈ fin2 -> j ∈ fin \/ j = i) ->
    forall j, j ∈ idxs -> j ∈ early_terminations d /\ j ∉ fin2) as Hidx'.
  { intros fin2 Hf j Hj. destruct (Hidx j) as [? Hjf]; [by right|]. split; [done|]. intros [?| ->]%Hf; done. }
  assert (forall j, j ∈ fin ++ [i] -> j ∈ fin \/ j = i) as Happ.
  { intros j. rewrite elem_of_app, list_elem_of_singleton. done. }
  destruct (ps !! i) as [p|] eqn:Hp.
  2: { eapply IH; [done|by apply Hidx'| |exact H]. apply Hfin; [done|].
       intros j q [?|Hj%list_elem_of_singleton]%elem_of_app ? Hjq; [done|]. congruence. }
  apply rbind_ok in H as (limit & _ & H). apply rbind_ok in H as ([[pr more] p'] & H1 & H). apply rbind_ok in H as (res1 & _ & H).
  destruct (ps_parts _ _ (dw_parts _ _ _ (proj1 Hi)) i p Hp) as [P HP].
  destruct (pop_early_terminations_wf size quant Hunit all P _ _ _ _ _ HP H1) as (q' & Ep & _ & Hmore & HP').
  assert (stands all (fun _ => 0) d pp_zero (mk (if more then fin else fin ++ [i]) (<[i := p']> ps))) as Hi'.
  { eapply stands_early; [exact Hi|exact Hp|by eexists|by exists q'|done| |by intros []].
    intros j q Hj Hq. cbn in Hj |- *. rewrite elem_of_difference, elem_of_from_bits.
    apply lookup_insert_Some in Hj as [[<- <-]|[Hne Hj]].
    - assert (more = true) as -> by (destruct more; [done|]; subst p'; cbn in Hq; by rewrite Hmore in Hq).
      apply Hidx. left.
    - pose proof (dw_early _ _ _ (proj1 Hi) j q Hj Hq) as He. cbn in He.
      rewrite elem_of_difference, elem_of_from_bits in He. split; [tauto|]. destruct more; [tauto|].
      intros [?|?]%Happ; [tauto|congruence]. }
  destruct (negb _); [by injection H as <- <- <-|].
  eapply IH; [done| |exact Hi'|exact H]. apply Hidx'. destruct more; auto.
Qed.

Lemma pop_early_terminations_dl all mp ms d r b d' :
  dl_wf all d -> DL.pop_early_terminations mp ms d = Ok (r, b, d') -> stands all (fun _ => 0) d pp_zero d'.
Proof.
  intros H Ha. unfold DL.pop_early_terminations in Ha. apply rbind_ok in Ha as ([[fin res] ps] & H1 & Ha).
  injection Ha as <- <- <-. eapply pop_partitions_dl in H1; [exact H1|apply NoDup_bits| |].
  - intros i Hi%elem_of_bits. split; [done|]. by intros ?%elem_of_nil.
  - eapply stands_fields; [by apply stands_refl|done| |by intros []]. apply difference_empty_L.
Qed.

(** ** New sectors *)

Lemma parts_wf_add all ps i p' X :
  parts_wf all ps -> 0 <= i <= count ps -> part_ok all p' ->
  sectors p' = sectors (default Part.new (ps !! i)) ∪ X -> X ## dsectors ps ->
  parts_wf all (<[i := p']> ps) /\ i < count (<[i := p']> ps).
Proof.
  intros H Hi Hp' Hs Hd.
  assert (ps !! i = None -> i = count ps) as Hnew.
  { intros E. destruct (decide (i = count ps)); [done|]. assert (is_Some (ps !! i)) as [? ?]; [|congruence].
    apply (ps_array _ _ H). lia. }
  assert (count (<[i := p']> ps) = if ps !! i then count ps else count ps + 1) as Ec.
  { destruct (ps !! i) eqn:E; [by apply count_insert; eexists|]. unfold count. rewrite map_size_insert_None by done. lia. }
  assert (forall j q, i <> j -> ps !! j = Some q -> sectors p' ## sectors q) as Hdj.
  { intros j q Hne Hj. rewrite Hs. apply disjoint_union_l. split.
    - destruct (ps !! i) as [p|] eqn:E; cbn; [by apply (ps_disj _ _ H i j)|set_solver].
    - intros n Hx Hn. apply (Hd n Hx). apply elem_of_dsectors. eauto. }
  split.
  - constructor.
    + intros j. rewrite Ec. destruct (decide (i = j)) as [->|Hne].
      * rewrite lookup_insert_eq. split; [|by eexists]. intros _. destruct (ps !! j) eqn:E; [|specialize (Hnew eq_refl); lia].
        apply (ps_array _ _ H). by eexists.
      * rewrite lookup_insert_ne, (ps_array _ _ H) by done. destruct (ps !! i) eqn:E; [done|]. specialize (Hnew eq_refl). lia.
    + intros j q [[<- <-]|[_ Hj]]%lookup_insert_Some; [done|]. by apply (ps_parts _ _ H j).
    + intros j k pj pk Hne [[<- <-]|[Hj1 Hj]]%lookup_insert_Some [[<- <-]|[Hk1 Hk]]%lookup_insert_Some; [done|eauto| |].
      * symmetry. eauto.
      * by apply (ps_disj _ _ H j k).
  - rewrite Ec. destruct (ps !! i) eqn:E; [|specialize (Hnew eq_refl); lia]. apply (ps_array _ _ H i). by eexists.
Qed.

Lemma map_sum_put (f : Partition -> Z) ps i p' : f Part.new = 0 ->
  map_sum f (<[i := p']> ps) = map_sum f ps - f (default Part.new (ps !! i)) + f p'.
Proof. intros H0. rewrite map_sum_insert. unfold lookup_sum. destruct (ps !! i); cbn; lia. Qed.

(** What new sectors add to the memoized values. *)
Definition add_memo all X (m : Memo) : Z :=
  match m with
  | MLive | MTotal => bf_len X
  | MLiveRaw => raw (psum size all X)
  | MLiveQa => qa (psum size all X)
  | MFaultyRaw | MFaultyQa => 0
  | MFee => fee_sum all X
  end.

Lemma add_memo_union all X Y m : X ## Y -> add_memo all (X ∪ Y) m = add_memo all X m + add_memo all Y m.
Proof.
  intros H. destruct m; cbn; unfold fee_sum; rewrite ?bf_len_union, ?ssum_union by done; lia.
Qed.

(** [X] has been added to [ps]. *)
Definition adds all (proven : bool) ps X ps' : Prop :=
  parts_wf all ps' /\ dsectors ps' = dsectors ps ∪ X /\ dlive ps' = dlive ps ∪ X /\
  (forall m, map_sum (part_memo all m) ps' = map_sum (part_memo all m) ps + add_memo all X m) /\
  active_of ps' = pp_add (active_of ps) (if proven then psum size all X else pp_zero) /\
  (forall i p', ps' !! i = Some p' -> early_terminated p' <> ∅ ->
     exists p, ps !! i = Some p /\ early_terminated p = early_terminated p').

Lemma adds_trans all proven ps X ps1 Y ps2 : X ## Y ->
  adds all proven ps X ps1 -> adds all proven ps1 Y ps2 -> adds all proven ps (X ∪ Y) ps2.
Proof.
  intros Hd (A1 & A2 & A3 & A4 & A5 & A6) (B1 & B2 & B3 & B4 & B5 & B6). split_and!; [done|..].
  - by rewrite B2, A2, (assoc_L (∪)).
  - by rewrite B3, A3, (assoc_L (∪)).
  - intros m. rewrite B4, A4, add_memo_union by done. lia.
  - rewrite B5, A5. destruct proven; [rewrite psum_union by done|]; unfold pp_add; cbn; f_equal; lia.
  - intros i p' Hp Hne. destruct (B6 i p' Hp Hne) as (p1 & Hp1 & E1). destruct (A6 i p1 Hp1) as (p0 & Hp0 & E0); [congruence|].
    exists p0. split; [done|congruence].
Qed.

Lemma union_parts_put (f : Partition -> BitField) ps i p' X :
  f p' = f (default Part.new (ps !! i)) ∪ X -> f Part.new = ∅ ->
  ⋃ ((fun x => f x.2) <$> map_to_list (<[i := p']> ps)) = ⋃ ((fun x => f x.2) <$> map_to_list ps) ∪ X.
Proof.
  intros Hs H0. apply set_eq. intros n. rewrite elem_of_union, !elem_of_union_parts. split.
  - intros (j & q & [[<- <-]|[Hne Hj]]%lookup_insert_Some & Hn); [|left; eauto].
    rewrite Hs in Hn. apply elem_of_union in Hn as [Hn|Hn]; [|by right]. left.
    destruct (ps !! i) as [p|] eqn:E; cbn in Hn; [eauto|]. rewrite H0 in Hn. set_solver.
  - intros [(j & q & Hj & Hn)|Hn].
    + destruct (decide (i = j)) as [->|Hne]; [|exists j, q; by rewrite lookup_insert_ne].
      exists j, p'. rewrite lookup_insert_eq, Hs, Hj. cbn. split; [done|]. apply elem_of_union. by left.
    + exists i, p'. rewrite lookup_insert_eq, Hs. split; [done|]. apply elem_of_union. by right.
Qed.

Lemma adds_one all proven ps i l power fee p' :
  parts_wf all ps -> 0 <= i <= count ps -> from_table all l -> NoDup (sector_number <$> l) ->
  numbers l ## dsectors ps ->
  Part.add_sectors size quant proven l (default Part.new (ps !! i)) = Ok (power, fee, p') ->
  power = psum size all (numbers l) /\ fee = fee_sum all (numbers l) /\
  adds all proven ps (numbers l) (<[i := p']> ps) /\ i < count (<[i := p']> ps).
Proof.
  intros H Hi Ht Hnd Hd Ha. set (p := default Part.new (ps !! i)) in *.
  assert (exists P, part_wf size quant all P p) as [P HP].
  { unfold p. destruct (ps !! i) as [p0|] eqn:E; cbn; [by apply (ps_parts _ _ H i)|]. exists ∅. apply part_new_wf. }
  destruct (add_sectors_wf size quant Hunit all P _ _ _ _ _ _ HP Ht Hnd Ha)
    as (E1 & -> & -> & E4 & E5 & E6 & E7 & E8 & E9 & HP'). set (X := numbers l) in *.
  destruct (parts_wf_add all ps i p' X) as [Hw' Hc']; [done|done|by eexists|done|done|].
  assert (Part.live_sectors p' = Part.live_sectors p ∪ X) as EL.
  { unfold Part.live_sectors. rewrite E4, E5. pose proof (pw_terminated _ _ _ _ _ HP). clear -E1 H0. set_point. }
  assert (X ## Part.live_sectors p) as HXL by (unfold Part.live_sectors; clear -E1; set_point).
  assert (live_power p' = pp_add (live_power p) (psum size all X)) as ELp.
  { rewrite (pw_live_power _ _ _ _ _ HP'), (pw_live_power _ _ _ _ _ HP), EL. by apply psum_union. }
  assert (p_faulty_power p' = p_faulty_power p) as EFp.
  { by rewrite (pw_faulty_power _ _ _ _ _ HP'), (pw_faulty_power _ _ _ _ _ HP), E6. }
  split_and!; [done..| |done]. split_and!; [done|by apply union_parts_put| | | |].
  - by apply (union_parts_put Part.live_sectors).
  - intros m. rewrite (map_sum_put _ _ i p') by (by destruct m). fold p.
    destruct m; cbn; rewrite ?EL, ?E4, ?ELp, ?EFp; cbn; unfold fee_sum; rewrite ?bf_len_union, ?ssum_union by done; lia.
  - unfold active_of, active_raw, active_qa. rewrite !(map_sum_put _ _ i p') by done. fold p.
    assert (unproven_power p' = if proven then unproven_power p else pp_add (unproven_power p) (psum size all X)) as EUp.
    { rewrite (pw_unproven_power _ _ _ _ _ HP'), E8. destruct proven; [symmetry; apply HP|].
      rewrite (pw_unproven_power _ _ _ _ _ HP). apply psum_union.
      pose proof (pw_unproven _ _ _ _ _ HP). clear -H0 HXL. set_point. }
    unfold Part.active_power. rewrite ELp, EFp, EUp. destruct proven; unfold pp_add, pp_sub; cbn; f_equal; lia.
  - intros j q [[<- <-]|[Hne Hj]]%lookup_insert_Some Hq; [|eauto]. rewrite E9 in Hq |- *. unfold p in Hq |- *.
    destruct (ps !! i) as [p0|]; cbn in *; [eauto|done].
Qed.

Lemma numbers_take_drop n (l : list SectorOnChainInfo) : NoDup (sector_number <$> l) ->
  numbers l = numbers (take n l) ∪ numbers (drop n l) /\ numbers (take n l) ## numbers (drop n l) /\
  NoDup (sector_number <$> take n l) /\ NoDup (sector_number <$> drop n l).
Proof.
  intros H. rewrite <- (take_drop n l), fmap_app in H. apply NoDup_app in H as (H1 & H2 & H3).
  split_and!; [|  |done|done].
  - rewrite <- numbers_app, take_drop. done.
  - intros k Hk1%elem_of_from_bits Hk2%elem_of_from_bits. by apply (H2 k).
Qed.

Lemma fill_partitions_adds all fuel psize proven fees : 0 < psize ->
  forall idx l power fee upd ps power' fee' upd' ps',
  parts_wf all ps -> 0 <= idx <= count ps -> from_table all l -> NoDup (sector_number <$> l) ->
  numbers l ## dsectors ps ->
  DL.fill_partitions size quant fuel psize proven fees idx l power fee upd ps = Ok (power', fee', upd', ps') ->
  power' = pp_add power (psum size all (numbers l)) /\
  fee' = fee + (if fees then fee_sum all (numbers l) else 0) /\ adds all proven ps (numbers l) ps'.
Proof.
  intros Hsz. induction fuel as [|fuel IH]; intros idx l power fee upd ps power' fee' upd' ps' Hw Hi Ht Hnd Hd H; [done|].
  cbn [DL.fill_partitions] in H. destruct (bf_len (sectors (default Part.new (ps !! idx))) >=? psize) eqn:Ef; bool_prop.
  { eapply IH; [done| |done..|exact H]. split; [lia|]. destruct (ps !! idx) as [p|] eqn:E.
    - assert (0 <= idx < count ps); [|lia]. apply (ps_array _ _ Hw). by eexists.
    - cbn in Ef. change (bf_len ∅) with 0 in Ef. lia. }
  set (n := Z.to_nat _) in H. destruct (numbers_take_drop n l Hnd) as (En & Hdj & Hnd1 & Hnd2).
  assert (from_table all (take n l) /\ from_table all (drop n l)) as [Ht1 Ht2].
  { unfold from_table in *. rewrite <- (take_drop n l) in Ht. by apply Forall_app in Ht. }
  rewrite En in Hd. apply disjoint_union_l in Hd as [Hd1 Hd2].
  apply rbind_ok in H as ([[pw fe] p'] & H1 & H).
  destruct (adds_one all proven ps idx (take n l) pw fe p') as (-> & -> & Hadd & Hc); [done..|]. clear H1.
  destruct (drop n l) as [|s l'] eqn:Ed.
  - injection H as <- <- <- <-. assert (numbers l = numbers (take n l)) as ->.
    { rewrite En. unfold numbers at 2. cbn. apply union_empty_r_L. }
    split_and!; [done| |done]. destruct fees; lia.
  - rewrite <- Ed in *. clear Ed s l'. pose proof Hadd as (A1 & A2 & _).
    eapply IH in H as (-> & -> & Hadd'); [|done|lia|done|done|].
    + split_and!; [| |rewrite En; by eapply adds_trans].
      * rewrite En, psum_union by done. unfold pp_add. cbn. f_equal; lia.
      * rewrite En. unfold fee_sum. rewrite ssum_union by done. destruct fees; lia.
    + rewrite A2. apply disjoint_union_r. split; [done|]. by symmetry.
Qed.

Lemma length_numbers (l : list SectorOnChainInfo) : NoDup (sector_number <$> l) -> Z.of_nat (length l) = bf_len (numbers l).
Proof.
  intros H. unfold bf_len, numbers, from_bits. rewrite size_list_to_set by done. by rewrite length_fmap.
Qed.

Lemma adds_nil all proven ps : parts_wf all ps -> adds all proven ps ∅ ps.
Proof.
  intros H. split_and!; [done|by rewrite union_empty_r_L..| | |eauto].
  - intros m. assert (add_memo all ∅ m = 0) as ->; [|lia]. by destruct m.
  - rewrite psum_empty. destruct proven; by rewrite pp_add_zero.
Qed.

(** [add_sectors]; with [fees] false the fee is not counted. *)
Lemma add_sectors_dl all off psize proven fees (l : list SectorOnChainInfo) d power fee d' : 0 < psize ->
  dl_off all off d -> from_table all l -> NoDup (sector_number <$> l) -> numbers l ## dsectors (partitions d) ->
  DL.add_sectors size quant psize proven fees l d = Ok (power, fee, d') ->
  power = psum size all (numbers l) /\ fee = (if fees then fee_sum all (numbers l) else 0) /\
  dl_off all (fun m => off m + match m with MFee => if fees then 0 else fee_sum all (numbers l) | _ => 0 end) d' /\
  adds all proven (partitions d) (numbers l) (partitions d') /\ early_terminations d' = early_terminations d.
Proof.
  intros Hsz H Ht Hnd Hd Ha. unfold DL.add_sectors in Ha. destruct l as [|s0 l0] eqn:El.
  { injection Ha as <- <- <-. change (numbers []) with (∅ : BitField). change (fee_sum all ∅) with 0. rewrite psum_empty.
    split_and!; [done|by destruct fees| | |done].
    - eapply dl_off_ext; [exact H|]. intros []; cbn; destruct fees; lia.
    - apply adds_nil, H. }
  rewrite <- El in *. assert (l <> []) as Hne by (by rewrite El). clear El s0 l0.
  apply rbind_ok in Ha as (lv & Hlv & Ha). apply rbind_ok in Ha as (tt' & Htt & Ha). apply chk_u64_ok in Hlv as [-> _], Htt as [-> _].
  apply rbind_ok in Ha as ([[[pw fe] upd] ps] & Hf & Ha). apply rbind_ok in Ha as (q & _ & Ha). injection Ha as <- <- <-.
  pose proof (dw_parts _ _ _ H) as Hw. cbn [partitions DL.set_counts] in Hf.
  destruct (fill_partitions_adds all (S (S (length l))) psize proven fees Hsz
              (Z.max (count (partitions d) - 1) 0) l pp_zero 0 [] (partitions d) pw fe upd ps) as (-> & -> & Hadd); try done.
  { unfold count. lia. }
  rewrite pp_zero_add. cbn [partitions early_terminations DL.set_power DL.set_daily_fee DL.set_expirations DL.set_partitions DL.set_counts].
  split_and!; [done|by destruct fees| |done|done]. destruct Hadd as (A1 & A2 & A3 & A4 & A5 & A6).
  constructor; [done| |].
  - intros m. cbn [partitions DL.set_power DL.set_daily_fee DL.set_expirations DL.set_partitions DL.set_counts]. rewrite A4.
    rewrite <- (dw_memo _ _ _ H m). rewrite (length_numbers l Hnd). destruct m, fees; cbn; lia.
  - intros i p Hp Hq. cbn in Hp |- *. destruct (A6 i p Hp Hq) as (p0 & Hp0 & E0). apply (dw_early _ _ _ H i p0 Hp0). congruence.
Qed.

(** ** Compaction *)

(** What a walk over partitions with distinct indices collects. *)
Definition some_of ps (E : list (Z * Partition)) : Prop :=
  NoDup E.*1 /\ forall k p, (k, p) ∈ E -> ps !! k = Some p.

Definition gather (f : Partition -> BitField) (E : list (Z * Partition)) : BitField := ⋃ ((fun x => f x.2) <$> E).

Lemma gather_cons f x E : gather f (x :: E) = f x.2 ∪ gather f E.
Proof. done. Qed.

Lemma elem_of_gather f E n : n ∈ gather f E <-> exists k p, (k, p) ∈ E /\ n ∈ f p.
Proof.
  unfold gather. rewrite elem_of_union_list. split.
  - intros (Y & ([k p] & -> & Hp)%list_elem_of_fmap & Hn). eauto.
  - intros (k & p & Hp & Hn). exists (f p). split; [|done]. apply list_elem_of_fmap. by exists (k, p).
Qed.

Lemma gather_sum all ps (f : Partition -> BitField) (g : BitField -> Z) E :
  parts_wf all ps -> some_of ps E -> (forall k p, ps !! k = Some p -> f p ⊆ sectors p) ->
  g ∅ = 0 -> (forall X Y, X ## Y -> g (X ∪ Y) = g X + g Y) ->
  g (gather f E) = sum_list_Z ((fun x => g (f x.2)) <$> E).
Proof.
  intros Hw [Hnd HE] Hf H0 Hg. induction E as [|[k p] E IH]; [done|].
  rewrite gather_cons, Hg.
  - rewrite IH; [done| |].
    + by apply NoDup_cons in Hnd as [_ ?].
    + intros j q Hq. apply HE. by right.
  - intros n Hn1 Hn2. apply elem_of_gather in Hn2 as (j & q & Hq & Hn2). cbn in Hn1.
    apply NoDup_cons in Hnd as [Hk _]. assert (k <> j) as Hne.
    { intros ->. apply Hk. apply list_elem_of_fmap. by exists (j, q). }
    apply (ps_disj _ _ Hw k j p q Hne (HE k p ltac:(left)) (HE j q ltac:(by right)) n).
    + by apply (Hf k), Hn1; apply HE; left.
    + by apply (Hf j), Hn2; apply HE; right.
Qed.

Lemma map_sum_entries (f : Partition -> Z) ps : map_sum f ps = sum_list_Z ((fun x => f x.2) <$> entries ps).
Proof.
  rewrite entries_perm. unfold map_sum. rewrite map_fold_foldr. induction (map_to_list ps) as [|[k p] l IH]; [done|].
  cbn. rewrite IH. done.
Qed.

Lemma gather_entries f ps : gather f (entries ps) = ⋃ ((fun x => f x.2) <$> map_to_list ps).
Proof.
  apply set_eq. intros n. rewrite elem_of_gather, elem_of_union_parts. by setoid_rewrite elem_of_entries.
Qed.

Lemma lookup_array_of (l : list Partition) i : DL.array_of l !! i = if 0 <=? i then l !! Z.to_nat i else None.
Proof.
  unfold DL.array_of. apply option_eq. intros p. rewrite <- elem_of_list_to_map.
  - rewrite elem_of_lookup_imap. destruct (0 <=? i) eqn:E; bool_prop.
    + split; [intros (j & q & [= -> ->] & Hj); by rewrite Nat2Z.id|]. intros H. exists (Z.to_nat i), p. by rewrite Z2Nat.id.
    + split; [|done]. intros (j & q & [= -> ->] & Hj). lia.
  - rewrite fmap_imap. apply NoDup_alt. intros a b x Ha Hb. apply list_lookup_imap_Some in Ha as (? & _ & ->), Hb as (? & _ & Hb).
    cbn in Hb. lia.
Qed.

Lemma entries_array_of (l : list Partition) : entries (DL.array_of l) ≡ₚ imap (fun i a => (Z.of_nat i, a)) l.
Proof.
  apply NoDup_Permutation.
  - apply (NoDup_fmap_1 fst), NoDup_entries.
  - apply NoDup_alt. intros a b x Ha Hb. apply list_lookup_imap_Some in Ha as (? & _ & ->), Hb as (? & _ & [= ? ?]). lia.
  - intros [k p]. rewrite elem_of_entries, lookup_array_of, elem_of_lookup_imap. destruct (0 <=? k) eqn:E; bool_prop.
    + split; [intros H; exists (Z.to_nat k), p; by rewrite Z2Nat.id|]. intros (j & q & [= -> ->] & Hj). by rewrite Nat2Z.id.
    + split; [done|]. intros (j & q & [= -> ->] & Hj). lia.
Qed.

Lemma gather_array_of f (E : list (Z * Partition)) : gather f (entries (DL.array_of E.*2)) = gather f E.
Proof.
  apply set_eq. intros n. rewrite !elem_of_gather. setoid_rewrite entries_array_of. split.
  - intros (k & p & (j & q & [= -> ->] & Hj)%elem_of_lookup_imap & Hn).
    apply list_lookup_fmap_Some in Hj as ([k q'] & -> & Hj). exists k, q'. split; [by eapply list_elem_of_lookup_2|done].
  - intros (k & p & [j Hj]%list_elem_of_lookup & Hn). exists (Z.of_nat j), p. split; [|done].
    apply elem_of_lookup_imap. exists j, p. split; [done|]. by rewrite list_lookup_fmap, Hj.
Qed.

Lemma map_sum_array_of (f : Partition -> Z) (E : list (Z * Partition)) :
  map_sum f (DL.array_of E.*2) = sum_list_Z ((fun x => f x.2) <$> E).
Proof.
  rewrite map_sum_entries, entries_array_of, fmap_imap. f_equal.
  apply list_eq. intros i. rewrite list_lookup_imap, !list_lookup_fmap. by destruct (E !! i).
Qed.

(** Some of the partitions, renumbered. *)
Lemma parts_wf_array_of all ps E : parts_wf all ps -> some_of ps E -> parts_wf all (DL.array_of E.*2).
Proof.
  intros Hw [Hnd HE].
  assert (forall i p, DL.array_of E.*2 !! i = Some p -> 0 <= i /\ exists k, E !! Z.to_nat i = Some (k, p)) as Hl.
  { intros i p. rewrite lookup_array_of. destruct (0 <=? i) eqn:Ei; bool_prop; [|done].
    intros ([k q] & -> & Hk)%list_lookup_fmap_Some. eauto. }
  constructor.
  - intros i. assert (count (DL.array_of E.*2) = Z.of_nat (length E)) as ->.
    { unfold count. rewrite <- length_map_to_list, <- entries_perm, entries_array_of, length_imap, length_fmap. done. }
    rewrite lookup_array_of. destruct (0 <=? i) eqn:Ei; bool_prop; [rewrite lookup_lt_is_Some, length_fmap; lia|].
    split; [by intros [? ?]|lia].
  - intros i p (_ & k & Hk%list_elem_of_lookup_2%HE)%Hl. by apply (ps_parts _ _ Hw k).
  - intros i j p q Hne (Hi & k & Hk)%Hl (Hj & k' & Hk')%Hl. apply (ps_disj _ _ Hw k k').
    + intros ->. apply Hne. apply Z2Nat.inj; [done..|]. eapply (NoDup_lookup E.*1); [done| |]; rewrite list_lookup_fmap.
      * by rewrite Hk.
      * by rewrite Hk'.
    + by apply HE, (list_elem_of_lookup_2 _ _ _ Hk).
    + by apply HE, (list_elem_of_lookup_2 _ _ _ Hk').
Qed.

Lemma compact_walk rm : forall E kept dead live power r,
  for_each (DL.compact_step rm) (kept, dead, live, power) E = Ok r ->
  exists K G, E ≡ₚ K ++ G /\ (forall x, x ∈ K -> x.1 ∉ rm) /\
  Forall (fun x => faults x.2 = ∅ /\ unproven x.2 = ∅) G /\
  r = (kept ++ K.*2, dead ∪ gather terminated G, live ∪ gather Part.live_sectors G,
       mkPP (raw power + sum_list_Z ((fun x => raw (live_power x.2)) <$> G))
            (qa power + sum_list_Z ((fun x => qa (live_power x.2)) <$> G))).
Proof.
  induction E as [|[k p] E IH]; intros kept dead live power r H.
  - injection H as <-. exists [], []. split_and!; [done|by intros ? ?%elem_of_nil|done|].
    unfold gather, sum_list_Z. cbn. rewrite app_nil_r, !union_empty_r_L, !Z.add_0_r. by destruct power.
  - unfold for_each in H. cbn [rfold] in H. apply rbind_ok in H as ([[[kept' dead'] live'] power'] & H1 & H).
    fold (for_each (E := MErr) (DL.compact_step rm) (kept', dead', live', power') E) in H.
    apply IH in H as (K & G & HE & HK & HG & ->). unfold DL.compact_step in H1. unfold bf_get in H1.
    case_bool_decide as Hk; cbn [negb] in H1.
    + destruct (bf_empty (faults p)) eqn:Ef; [|done]. destruct (bf_empty (unproven p)) eqn:Eu; [|done].
      unfold bf_empty in *. apply bool_decide_eq_true in Ef, Eu. injection H1 as <- <- <- <-.
      exists K, ((k, p) :: G). split_and!; [by rewrite HE, <- Permutation_middle|done|by constructor|].
      rewrite !gather_cons, !(assoc_L (∪)). f_equal. unfold sum_list_Z. cbn. f_equal; lia.
    + injection H1 as <- <- <- <-. exists ((k, p) :: K), G. split_and!; [by rewrite HE| |done|].
      * intros x [->|?]%elem_of_cons; auto.
      * by rewrite <- (assoc_L (++)).
Qed.

(** The partitions, some kept and the others gone. *)
Section parted.
Context (all : Infos) (ps : Parts) (K G : list (Z * Partition)).
Context (Hw : parts_wf all ps) (HE : entries ps ≡ₚ K ++ G).

Lemma parted_some : some_of ps K /\ some_of ps G.
Proof.
  pose proof (NoDup_entries ps) as Hnd. rewrite HE, fmap_app in Hnd. apply NoDup_app in Hnd as (? & _ & ?).
  split; (split; [done|]); intros k p Hk; apply elem_of_entries; rewrite HE; apply elem_of_app; auto.
Qed.

Lemma parted_sum (f : Partition -> Z) :
  map_sum f ps = map_sum f (DL.array_of K.*2) + sum_list_Z ((fun x => f x.2) <$> G).
Proof. by rewrite map_sum_entries, map_sum_array_of, HE, fmap_app, sum_list_Z_app. Qed.

Lemma parted_union (f : Partition -> BitField) :
  ⋃ ((fun x => f x.2) <$> map_to_list ps) =
  ⋃ ((fun x => f x.2) <$> map_to_list (DL.array_of K.*2)) ∪ gather f G.
Proof.
  rewrite <- !gather_entries, gather_array_of. apply set_eq. intros n. rewrite elem_of_union, !elem_of_gather.
  setoid_rewrite HE. setoid_rewrite elem_of_app. naive_solver.
Qed.

Lemma parted_disj : dsectors (DL.array_of K.*2) ## gather sectors G.
Proof.
  destruct parted_some as [[_ HK] [_ HG]]. pose proof (NoDup_entries ps) as Hnd.
  rewrite HE, fmap_app in Hnd. apply NoDup_app in Hnd as (_ & Hnd & _).
  unfold dsectors. rewrite <- gather_entries, gather_array_of. intros n (k & p & Hk & Hn)%elem_of_gather (j & q & Hj & Hn')%elem_of_gather.
  refine (ps_disj _ _ Hw k j p q _ (HK _ _ Hk) (HG _ _ Hj) n Hn Hn').
  intros ->. apply (Hnd j); apply list_elem_of_fmap; [by exists (j, p)|by exists (j, q)].
Qed.

Lemma parted_gather (g : BitField -> Z) f : (forall k p, ps !! k = Some p -> f p ⊆ sectors p) ->
  g ∅ = 0 -> (forall X Y, X ## Y -> g (X ∪ Y) = g X + g Y) ->
  g (gather f G) = sum_list_Z ((fun x => g (f x.2)) <$> G).
Proof. intros. eapply gather_sum; eauto. apply parted_some. Qed.
End parted.

Lemma live_sub p : Part.live_sectors p ⊆ sectors p.
Proof. unfold Part.live_sectors. clear. set_point. Qed.

Lemma dlive_sub ps : dlive ps ⊆ dsectors ps.
Proof. intros n (i & p & Hp & Hn)%elem_of_dlive. apply elem_of_dsectors. exists i, p. split; [done|]. by apply live_sub. Qed.

Lemma terminated_sub all ps k p : parts_wf all ps -> ps !! k = Some p -> terminated p ⊆ sectors p.
Proof. intros H [P HP]%(ps_parts _ _ H). apply HP. Qed.

(** The partitions that go have no faulty or unproven sectors. *)
Section gone.
Context (all : Infos) (ps : Parts) (K G : list (Z * Partition)).
Context (Hw : parts_wf all ps) (HE : entries ps ≡ₚ K ++ G).
Context (HG : Forall (fun x => faults x.2 = ∅ /\ unproven x.2 = ∅) G).
Let live := gather Part.live_sectors G.
Let dead := gather terminated G.

Lemma gone_in k p : (k, p) ∈ G -> ps !! k = Some p.
Proof. apply (parted_some ps K G HE). Qed.

Lemma gone_sets : gather sectors G = live ∪ dead /\ live ## dead.
Proof.
  split.
  - apply set_eq. intros n. unfold live, dead. rewrite elem_of_union, !elem_of_gather. split.
    + intros (k & p & Hk & Hn). destruct (decide (n ∈ terminated p)); [right; eauto|].
      left. exists k, p. unfold Part.live_sectors. set_solver.
    + intros [(k & p & Hk & Hn)|(k & p & Hk & Hn)]; exists k, p; (split; [done|]); [by apply live_sub|].
      by eapply terminated_sub; eauto using gone_in.
  - intros n (k & p & Hk & Hn)%elem_of_gather (j & q & Hj & Hn')%elem_of_gather. apply gone_in in Hk, Hj.
    destruct (decide (k = j)) as [->|Hne].
    + assert (p = q) as <- by congruence. unfold Part.live_sectors in Hn. set_solver.
    + refine (ps_disj _ _ Hw k j p q Hne Hk Hj n _ _); [by apply live_sub|]. by eapply terminated_sub; eauto.
Qed.

Lemma gone_part k p : (k, p) ∈ G ->
  live_power p = psum size all (Part.live_sectors p) /\ p_faulty_power p = pp_zero /\
  Part.active_power p = psum size all (Part.live_sectors p).
Proof.
  intros Hk. destruct (ps_parts _ _ Hw k p (gone_in _ _ Hk)) as [P HPp]. rewrite Forall_forall in HG.
  destruct (HG _ Hk) as [Ef Eu]. cbn in Ef, Eu.
  rewrite (active_power_psum _ _ _ _ _ HPp), (pw_live_power _ _ _ _ _ HPp), (pw_faulty_power _ _ _ _ _ HPp).
  unfold Part.active_sectors. rewrite Ef, Eu, psum_empty, !difference_empty_L. done.
Qed.

Lemma gone_sum (F : Partition -> Z) f (g : BitField -> Z) :
  (forall k p, ps !! k = Some p -> f p ⊆ sectors p) ->
  (forall k p, (k, p) ∈ G -> F p = g (f p)) ->
  g ∅ = 0 -> (forall X Y, X ## Y -> g (X ∪ Y) = g X + g Y) ->
  sum_list_Z ((fun x => F x.2) <$> G) = g (gather f G).
Proof.
  intros Hf HF H0 Hg. rewrite (parted_gather all ps K G Hw HE g f) by done. f_equal. apply list_fmap_ext.
  intros i [k p] Hi. apply (HF k p). by eapply list_elem_of_lookup_2.
Qed.

Lemma gone_power (F : Partition -> PowerPair) (pr : PowerPair -> Z) : pr = raw \/ pr = qa ->
  (forall k p, (k, p) ∈ G -> F p = psum size all (Part.live_sectors p)) ->
  sum_list_Z ((fun x => pr (F x.2)) <$> G) = pr (psum size all live).
Proof.
  intros Hpr HF. apply (gone_sum (fun p => pr (F p)) _ (fun X => pr (psum size all X))).
  - intros. apply live_sub.
  - intros k p Hk. by rewrite (HF k p Hk).
  - rewrite psum_empty. by destruct Hpr as [-> | ->].
  - intros X Y Hd. rewrite psum_union by done. by destruct Hpr as [-> | ->].
Qed.

Lemma gone_memo m : sum_list_Z ((fun x => part_memo all m x.2) <$> G) =
  match m with MTotal => bf_len live + bf_len dead | _ => add_memo all live m end.
Proof.
  assert (forall F : Partition -> Z, (forall k p, (k, p) ∈ G -> F p = 0) -> sum_list_Z ((fun x => F x.2) <$> G) = 0) as Hz.
  { intros F HF. apply (gone_sum F (fun _ => ∅) (fun _ => 0)); [set_solver|done..]. }
  assert (forall k p, ps !! k = Some p -> Part.live_sectors p ⊆ sectors p) as HL by (intros; apply live_sub).
  destruct m; cbn.
  - apply (gone_sum (fun p => bf_len (Part.live_sectors p)) _ bf_len); [done..|apply bf_len_union].
  - rewrite (gone_sum (fun p => bf_len (sectors p)) sectors bf_len); [|done|done|done|apply bf_len_union].
    destruct gone_sets as [-> Hd]. by apply bf_len_union.
  - apply (gone_power live_power raw); [by left|]. intros k p Hk. by destruct (gone_part k p Hk) as (-> & _).
  - apply (gone_power live_power qa); [by right|]. intros k p Hk. by destruct (gone_part k p Hk) as (-> & _).
  - apply (Hz (fun p => raw (p_faulty_power p))). intros k p Hk. by destruct (gone_part k p Hk) as (_ & -> & _).
  - apply (Hz (fun p => qa (p_faulty_power p))). intros k p Hk. by destruct (gone_part k p Hk) as (_ & -> & _).
  - apply (gone_sum (fun p => fee_sum all (Part.live_sectors p)) _ (fee_sum all)); [done..|]. intros. by apply ssum_union.
Qed.

Lemma gone_active : active_of ps = pp_add (active_of (DL.array_of K.*2)) (psum size all live).
Proof.
  unfold active_of, active_raw, active_qa. rewrite !(parted_sum ps K G HE).
  assert (forall pr, pr = raw \/ pr = qa ->
    sum_list_Z ((fun x => pr (Part.active_power x.2)) <$> G) = pr (psum size all live)) as Ha.
  { intros pr Hpr. apply (gone_power Part.active_power pr Hpr). intros k p Hk. by destruct (gone_part k p Hk) as (_ & _ & ->). }
  rewrite (Ha raw), (Ha qa) by auto. done.
Qed.

Lemma gone_content : dsectors ps = dsectors (DL.array_of K.*2) ∪ (live ∪ dead) /\
  dlive ps = dlive (DL.array_of K.*2) ∪ live /\ dsectors (DL.array_of K.*2) ## live ∪ dead /\ live ## dead.
Proof.
  destruct gone_sets as [Hu Hdj]. split_and!; [| |by rewrite <- Hu; eapply parted_disj|done].
  - unfold dsectors. by rewrite (parted_union ps K G HE sectors), Hu.
  - apply (parted_union ps K G HE Part.live_sectors).
Qed.

(** The deadline without these partitions still charges their fees. *)
Lemma gone_off d d1 : dl_wf all d -> partitions d = ps -> early_terminations d = ∅ ->
  partitions d1 = DL.array_of K.*2 ->
  (forall m, dl_memo m d1 = dl_memo m d -
     match m with MFee => 0 | MTotal => bf_len live + bf_len dead | _ => add_memo all live m end) ->
  dl_off all (fun m => match m with MFee => - fee_sum all live | _ => 0 end) d1.
Proof.
  intros H Eps Het Ep Hm. constructor.
  - rewrite Ep. apply (parts_wf_array_of all ps); [done|apply (parted_some ps K G HE)].
  - intros m. pose proof (dw_memo _ _ _ H m) as Hd. rewrite Ep. rewrite Eps, (parted_sum ps K G HE), gone_memo in Hd.
    rewrite Hm. destruct m; cbn [add_memo] in *; lia.
  - intros i p Hp Hne. rewrite Ep, lookup_array_of in Hp. destruct (0 <=? i); [|done].
    apply list_lookup_fmap_Some in Hp as ([k q] & -> & Hk). exfalso.
    destruct (parted_some ps K G HE) as [[_ HK] _]. pose proof (HK k q (list_elem_of_lookup_2 _ _ _ Hk)) as Hq.
    rewrite <- Eps in Hq. pose proof (dw_early _ _ _ H k q Hq Hne) as Hin. rewrite Het in Hin. by apply elem_of_empty in Hin.
Qed.
End gone.

(** [compact_partitions]: the live sectors stay, with their power; the dead
    ones are gone. *)
Lemma compact_partitions_dl all psize rm d dead d' : 0 < psize -> table_ok all -> dl_wf all d ->
  DL.compact_partitions size quant all psize rm d = Ok (dead, d') ->
  dl_wf all d' /\ dlive (partitions d') = dlive (partitions d) /\
  dead ⊆ dsectors (partitions d) /\ dead ## dlive (partitions d) /\
  dsectors (partitions d') = dsectors (partitions d) ∖ dead /\
  active_of (partitions d') = active_of (partitions d).
Proof.
  intros Hsz Ht H Ha. unfold DL.compact_partitions in Ha. destruct (_ >? _) in Ha; [done|].
  destruct (list.last _) in Ha; [|injection Ha as <- <-; split_and!; [done|done|set_solver..|done]].
  destruct (_ >=? _) in Ha; [done|]. destruct (bf_empty (early_terminations d)) eqn:He in Ha; [|done]. cbn [negb] in Ha.
  apply rbind_ok in Ha as ([[[kept dead0] live] rp] & Hwalk & Ha).
  apply compact_walk in Hwalk as (K & G & HE & _ & HG & E). rewrite !union_empty_l_L in E. injection E as -> -> -> ->.
  set (ps := partitions d) in *. pose proof (dw_parts _ _ _ H : parts_wf all ps) as Hw.
  set (live := gather Part.live_sectors G) in *. set (dead0 := gather terminated G) in *.
  apply rbind_ok in Ha as (lv & Hlv & Ha). apply chk_u64_ok in Hlv as [-> _].
  apply rbind_ok in Ha as (n & Hn & Ha). apply chk_u64_ok in Hn as [-> _].
  apply rbind_ok in Ha as (tt' & Htt & Ha). apply chk_u64_ok in Htt as [-> _].
  apply rbind_ok in Ha as (infos & Hinfos & Ha). apply load_sectors_spec in Hinfos as (Enum & Hft & Hnd & _); [|done].
  apply rbind_ok in Ha as ([[ap af] d2] & Hadd & Ha). destruct (negb (af =? 0)); [done|].
  destruct (negb (bool_decide _)); [done|]. injection Ha as <- <-. cbn [raw qa] in Hadd.
  set (d1 := DL.set_expirations _ _) in Hadd. destruct (DL.add_sectors _ _ _ _ _ _ _) as [r| |] eqn:Hadd' in Hadd; [|done..].
  injection Hadd as ->. destruct (gone_content all ps K G Hw HE HG) as (Eds & Edl & HdK & Hdj). fold live dead0 in Eds, Edl, HdK, Hdj.
  assert (partitions d1 = DL.array_of K.*2) as Ep by done. apply bool_decide_eq_true in He.
  pose proof (gone_memo all ps K G Hw HE HG MLiveRaw) as Hr. pose proof (gone_memo all ps K G Hw HE HG MLiveQa) as Hq.
  cbn in Hr, Hq. fold live in Hr, Hq.
  eapply (add_sectors_dl all (fun m => match m with MFee => - fee_sum all live | _ => 0 end)) in Hadd' as (_ & _ & Hd2 & Hadds & Eet);
    [|done| |done|done|rewrite Ep, Enum; clear -HdK; set_point].
  - rewrite Enum in *. destruct Hadds as (_ & A2 & A3 & _ & A5 & _). rewrite Ep in A2, A3, A5.
    pose proof (dlive_sub (DL.array_of K.*2)) as Hsub. split_and!.
    + eapply dl_off_ext; [exact Hd2|]. intros []; cbn; lia.
    + by rewrite A3, Edl.
    + rewrite Eds. clear. set_point.
    + rewrite Edl. clear -Hsub HdK Hdj. set_point.
    + rewrite A2, Eds. clear -HdK Hdj. set_point.
    + rewrite A5. symmetry. by apply gone_active.
  - eapply (gone_off all ps K G Hw HE HG d); [done..|]. unfold d1. fold live dead0. intros []; cbn; lia.
Qed.
End deadlines.
