(* ===== verification/MinerStanding.v ===== *)
(** * The miner actor: the standing of its sectors

    The state of a miner is well-formed when its deadlines are, with respect to
    the table of sectors and to the days of their calendar, and no sector is in
    two of them.  Every transaction of the actor keeps this, and the power
    delta it reports is the change of the power of the active sectors. *)

From S2P Require Import Prelude Runtime Collections MinerBase MinerQueues MinerPartition MinerDeadline MinerFunds MinerState MinerCalls MinerSectors MinerActor MinerEpochs MinerMoney MinerPlan MinerPlanOps MinerPlanPop MinerPlanRemove MinerParts MinerDeadlines.

Import Miner.

(** ** Quantization classes *)

Definition same_class (q q' : QuantSpec) : Prop :=
  unit_ q' = unit_ q /\ (offset q' - offset q) mod unit_ q = 0.

Lemma same_class_up q q' e : 0 < unit_ q -> same_class q q' -> quantize_up q' e = quantize_up q e.
Proof.
  intros Hu [Eu Hm]. symmetry.
  destruct (quantize_up_spec q' e ltac:(by rewrite Eu)) as [Hb Hc]. rewrite Eu in Hb, Hc.
  apply quantize_up_unique; [done..|].
  apply Z.mod_divide in Hm as [a Ha], Hc as [b Hb']; [|lia..]. apply Z.mod_divide; [lia|].
  exists (a + b). lia.
Qed.

Lemma map_sum_ext {V} (f g : V -> Z) (m : gmap Z V) :
  (forall k v, m !! k = Some v -> f v = g v) -> map_sum f m = map_sum g m.
Proof. intros H. apply Z.le_antisymm; apply map_sum_le; intros k v Hk; by rewrite (H k v Hk). Qed.

Lemma agree_sym (all all' : Infos) X : agree all all' X -> agree all' all X.
Proof. intros H n Hn. by rewrite H. Qed.

Section classes.
Context (size : Z) (q q' : QuantSpec) (Hu : 0 < unit_ q) (Hc : same_class q q').

Lemma part_ok_class all p : part_ok size q all p -> part_ok size q' all p.
Proof.
  intros [P H]. exists P. destruct H as [H1 [Hr Hp] H3 H4 H5 H6 H7 H8 H9 H10 H11 H12]. constructor; try done.
  split; [done|]. intros n s Hn. rewrite (same_class_up q q') by done. by apply Hp.
Qed.

Lemma dl_off_class all off d : dl_off size q all off d -> dl_off size q' all off d.
Proof.
  intros [[H1 H2 H3] H4 H5]. constructor; [constructor|done|done]; try done.
  intros i p Hp. by eapply part_ok_class, H2.
Qed.
End classes.

(** ** The deadlines *)

Definition dls_sectors (ds : list Deadline) : BitField := ⋃ ((fun d => dsectors (partitions d)) <$> ds).
Definition dls_live (ds : list Deadline) : BitField := ⋃ ((fun d => dlive (partitions d)) <$> ds).

Definition pp_sum (l : list PowerPair) : PowerPair := foldr pp_add pp_zero l.

(** The power of the active sectors. *)
Definition dls_power (ds : list Deadline) : PowerPair := pp_sum ((fun d => active_of (partitions d)) <$> ds).

Lemma elem_of_dls (f : Deadline -> BitField) ds n : n ∈ ⋃ (f <$> ds) <-> exists i d, ds !! i = Some d /\ n ∈ f d.
Proof.
  rewrite elem_of_union_list. split.
  - intros (X & (d & -> & [i Hi]%list_elem_of_lookup)%list_elem_of_fmap & Hn). eauto.
  - intros (i & d & Hi & Hn). exists (f d). split; [|done]. apply list_elem_of_fmap. exists d. split; [done|].
    by eapply list_elem_of_lookup_2.
Qed.

Lemma elem_of_dls_sectors ds n : n ∈ dls_sectors ds <-> exists i d, ds !! i = Some d /\ n ∈ dsectors (partitions d).
Proof. apply (elem_of_dls (fun d => dsectors (partitions d))). Qed.

Lemma elem_of_dls_live ds n : n ∈ dls_live ds <-> exists i d, ds !! i = Some d /\ n ∈ dlive (partitions d).
Proof. apply (elem_of_dls (fun d => dlive (partitions d))). Qed.

Lemma pp_sum_insert (f : Deadline -> PowerPair) ds i d d' : ds !! i = Some d ->
  pp_sum (f <$> <[i := d']> ds) = pp_add (pp_sub (pp_sum (f <$> ds)) (f d)) (f d').
Proof.
  revert i. induction ds as [|d0 ds IH]; intros i Hi; [done|]. destruct i as [|i].
  - injection Hi as ->. change (pp_add (f d') (pp_sum (f <$> ds)) =
      pp_add (pp_sub (pp_add (f d) (pp_sum (f <$> ds))) (f d)) (f d')).
    generalize (pp_sum (f <$> ds)). intros. unfold pp_add, pp_sub. cbn. f_equal; lia.
  - change (pp_add (f d0) (pp_sum (f <$> <[i := d']> ds)) =
      pp_add (pp_sub (pp_add (f d0) (pp_sum (f <$> ds))) (f d)) (f d')).
    rewrite (IH i) by done. generalize (pp_sum (f <$> ds)). intros. unfold pp_add, pp_sub. cbn. f_equal; lia.
Qed.

Lemma dls_power_insert ds i d d' delta : ds !! i = Some d ->
  active_of (partitions d') = pp_add (active_of (partitions d)) delta ->
  dls_power (<[i := d']> ds) = pp_add (dls_power ds) delta.
Proof.
  intros Hi E. unfold dls_power. rewrite (pp_sum_insert _ _ i d) by done. rewrite E.
  unfold pp_add, pp_sub. cbn. f_equal; lia.
Qed.

Section deadlines.
Context (p : Policy) (cal : calendar_ok p) (size : Z).
Implicit Types (all : Infos) (ds : list Deadline) (d : Deadline) (X : BitField).

(** The days of a deadline. *)
Definition quant_at (start i : Z) : QuantSpec := quant_spec (new_deadline_info p start i 0).

Lemma quant_at_unit start i : unit_ (quant_at start i) = wpost_proving_period p.
Proof. unfold quant_at, new_deadline_info, di_new. by destruct (_ <? _). Qed.

Lemma quant_at_pos start i : 0 < unit_ (quant_at start i).
Proof. rewrite quant_at_unit. by apply period_pos. Qed.

Lemma quant_at_class start start' i q : 0 <= i < wpost_period_deadlines p ->
  (start' - start) mod wpost_proving_period p = 0 -> unit_ q = wpost_proving_period p ->
  offset q = start' + (i + 1) * wpost_challenge_window p - 1 -> same_class (quant_at start i) q.
Proof.
  intros Hi Hm Hu Ho. split; rewrite quant_at_unit; [done|]. rewrite Ho. unfold quant_at, quant_spec, last. cbn.
  destruct (di_new_in p start i 0 Hi) as (_ & _ & _ & E1 & E2). rewrite E2, E1.
  by replace (start' + _ - 1 - _) with (start' - start) by lia.
Qed.

Lemma same_class_sym q q' : same_class q q' -> same_class q' q.
Proof.
  intros [Hu Hm]. split; [done|]. rewrite Hu. destruct (Z.eq_dec (unit_ q) 0) as [E|E].
  { rewrite E, !Zmod_0_r in *. lia. }
  apply Z.mod_divide in Hm as [k Hk]; [|done]. apply Z.mod_divide; [done|]. exists (- k). lia.
Qed.

Record dls_wf start all ds : Prop := {
  dls_each : forall i d, ds !! i = Some d -> dl_wf size (quant_at start (Z.of_nat i)) all d;
  dls_disj : forall i j d d', i <> j -> ds !! i = Some d -> ds !! j = Some d' ->
    dsectors (partitions d) ## dsectors (partitions d');
  dls_len : Z.of_nat (length ds) = wpost_period_deadlines p;
}.

(** One deadline changes; it may take sectors of no deadline. *)
Lemma dls_wf_put start all ds i d d' X : dls_wf start all ds -> ds !! i = Some d ->
  dl_wf size (quant_at start (Z.of_nat i)) all d' ->
  dsectors (partitions d') ⊆ dsectors (partitions d) ∪ X -> X ## dls_sectors ds ->
  dls_wf start all (<[i := d']> ds).
Proof.
  intros H Hi Hw Hs Hd.
  assert (forall j dj, i <> j -> ds !! j = Some dj -> dsectors (partitions d') ## dsectors (partitions dj)) as Hdj.
  { intros j dj Hne Hj n Hn Hn'. apply Hs, elem_of_union in Hn as [Hn|Hn].
    - by apply (dls_disj _ _ _ H i j d dj Hne Hi Hj n).
    - apply (Hd n Hn). apply elem_of_dls_sectors. eauto. }
  constructor.
  - intros j dj [(<- & <- & _)|[_ Hj]]%list_lookup_insert_Some; [done|]. by apply H.
  - intros j k dj dk Hne [(<- & <- & _)|[Hj1 Hj]]%list_lookup_insert_Some [(<- & <- & _)|[Hk1 Hk]]%list_lookup_insert_Some;
      [done|by eauto|symmetry; eauto|by apply (dls_disj _ _ _ H j k)].
  - rewrite length_insert. apply H.
Qed.

Lemma dls_sectors_put ds i d d' X : ds !! i = Some d ->
  dsectors (partitions d') ⊆ dsectors (partitions d) ∪ X -> dls_sectors (<[i := d']> ds) ⊆ dls_sectors ds ∪ X.
Proof.
  intros Hi Hs n (j & dj & [(<- & <- & _)|[Hj1 Hj]]%list_lookup_insert_Some & Hn)%elem_of_dls_sectors.
  - apply Hs in Hn. rewrite elem_of_union, elem_of_dls_sectors in *. naive_solver.
  - apply elem_of_union_l, elem_of_dls_sectors. eauto.
Qed.

(** The table changes where no deadline looks. *)
Lemma dl_off_agree q all all' off d : 0 < unit_ q -> dl_off size q all off d -> agree all all' (dlive (partitions d)) ->
  dl_off size q all' off d.
Proof.
  intros Hu H Ha.
  assert (forall i pt, partitions d !! i = Some pt -> agree all all' (Part.live_sectors pt)) as Hp.
  { intros i pt Hp n Hn. apply Ha, elem_of_dlive. eauto. }
  constructor; [constructor| |apply H].
  - apply H.
  - intros i pt Hpt. destruct (ps_parts _ _ _ _ (dw_parts _ _ _ _ _ H) i pt Hpt) as [P HP]. exists P.
    eapply part_wf_agree; [exact Hu|exact HP|]. by eapply Hp.
  - apply H.
  - intros m. rewrite (dw_memo _ _ _ _ _ H m). apply map_sum_ext. intros i pt Hpt.
    destruct m; cbn; try done. apply fee_sum_agree. by eapply Hp.
Qed.

Lemma dls_wf_agree start all all' ds : dls_wf start all ds -> agree all all' (dls_live ds) -> dls_wf start all' ds.
Proof.
  intros H Ha. constructor; [|apply H|apply H]. intros i d Hi. eapply dl_off_agree; [by apply quant_at_pos|by apply H|].
  intros n Hn. apply Ha, elem_of_dls_live. eauto.
Qed.

(** From [ds0] to [ds]: no new sectors, and [delta] is the change of the power. *)
Definition dls_moves start all ds0 (delta : PowerPair) ds : Prop :=
  dls_wf start all ds /\ dls_sectors ds ⊆ dls_sectors ds0 /\ dls_power ds = pp_add (dls_power ds0) delta.

Lemma dls_moves_refl start all ds : dls_wf start all ds -> dls_moves start all ds pp_zero ds.
Proof. intros H. split_and!; [done|done|]. by rewrite pp_add_zero. Qed.

Lemma dls_moves_put start all ds0 delta0 ds i d delta d' : dls_moves start all ds0 delta0 ds ->
  ds !! i = Some d -> dl_wf size (quant_at start (Z.of_nat i)) all d' ->
  dsectors (partitions d') ⊆ dsectors (partitions d) ->
  active_of (partitions d') = pp_add (active_of (partitions d)) delta ->
  dls_moves start all ds0 (pp_add delta0 delta) (<[i := d']> ds).
Proof.
  intros (Hw & Hs & Hp) Hi Hd Hsub Ha. split_and!.
  - apply (dls_wf_put start all ds i d d' ∅); [done..| |]; clear -Hsub; set_solver.
  - assert (dls_sectors (<[i := d']> ds) ⊆ dls_sectors ds ∪ ∅) as H by (apply (dls_sectors_put ds i d); set_solver).
    clear -H Hs. set_solver.
  - rewrite (dls_power_insert ds i d d' delta), Hp by done. unfold pp_add. cbn. f_equal; lia.
Qed.

Lemma dls_moves_stands start all ds0 delta0 ds i d q delta d' : dls_moves start all ds0 delta0 ds ->
  ds !! i = Some d -> same_class (quant_at start (Z.of_nat i)) q ->
  (dl_wf size q all d -> stands size q all (fun _ => 0) d delta d') ->
  dls_moves start all ds0 (pp_add delta0 delta) (<[i := d']> ds).
Proof.
  intros Hm Hi Hq Hst. pose proof (quant_at_pos start (Z.of_nat i)) as Hu.
  destruct Hst as (Hd & Hc & Ha). { eapply dl_off_class; [exact Hu|exact Hq|]. by apply Hm. }
  eapply dls_moves_put; [done..| | |done].
  - eapply dl_off_class; [|apply same_class_sym; exact Hq|exact Hd]. destruct Hq as [-> _]. done.
  - injection Hc as -> _. done.
Qed.

Lemma dls_moves_sheds start all ds0 delta0 ds i d q X delta d' : dls_moves start all ds0 delta0 ds ->
  ds !! i = Some d -> same_class (quant_at start (Z.of_nat i)) q ->
  sheds size q all (fun _ => 0) d X delta d' ->
  dls_moves start all ds0 (pp_sub delta0 delta) (<[i := d']> ds).
Proof.
  intros Hm Hi Hq (Hd & Hc & _ & _ & Ha). pose proof (quant_at_pos start (Z.of_nat i)) as Hu.
  assert (pp_sub delta0 delta = pp_add delta0 (mkPP (- raw delta) (- qa delta))) as ->.
  { unfold pp_add, pp_sub. cbn. f_equal; lia. }
  eapply dls_moves_put; [done..| | |].
  - eapply dl_off_class; [|apply same_class_sym; exact Hq|exact Hd]. destruct Hq as [-> _]. done.
  - by rewrite Hc.
  - rewrite Ha. unfold pp_add, pp_sub. cbn. f_equal; lia.
Qed.

Lemma load_deadline_ok idx ds d : 0 <= idx -> Deadlines.load_deadline idx ds = Ok d ->
  ds !! Z.to_nat idx = Some d.
Proof. intros Hi H. unfold Deadlines.load_deadline in H. destruct (_ >=? _); [done|]. by apply ok_or_ok in H. Qed.

Lemma update_deadline_ok idx d ds ds' : Deadlines.update_deadline p idx d ds = Ok ds' ->
  ds' = <[Z.to_nat idx := d]> ds /\ idx < wpost_period_deadlines p.
Proof.
  intros H. unfold Deadlines.update_deadline in H. destruct (_ >=? _) eqn:E; [done|]. bool_prop.
  apply rbind_ok in H as (? & _ & H). destruct (_ <? _); [|done]. injection H as <-. split; [done|lia].
Qed.
End deadlines.

(** ** The calendar of the deadlines *)

Section calendar.
Context (p : Policy) (cal : calendar_ok p).

Lemma info_class start start' i e : 0 <= i < wpost_period_deadlines p ->
  (start' - start) mod wpost_proving_period p = 0 ->
  same_class (quant_at p start i) (quant_spec (new_deadline_info p start' i e)).
Proof.
  intros Hi Hm. destruct (di_new_in p start' i e Hi) as (_ & _ & _ & E1 & E2).
  apply (quant_at_class p start start'); [done..| |].
  - unfold quant_spec, new_deadline_info, di_new. by destruct (_ <? _).
  - unfold quant_spec, last. cbn. rewrite E2, E1. lia.
Qed.

Lemma next_class start start' i e : 0 <= i < wpost_period_deadlines p ->
  (start' - start) mod wpost_proving_period p = 0 ->
  same_class (quant_at p start i) (quant_spec (next_not_elapsed (new_deadline_info p start' i e))).
Proof.
  intros Hi Hm. rewrite next_not_elapsed_eq. destruct (_ >=? _); apply info_class; [done| |done..].
  replace (_ - start) with ((start' - start) + (1 + Z.quot (e - close (new_deadline_info p start' i e)) (wpost_proving_period p)) * wpost_proving_period p) by lia.
  rewrite Z.mod_add; [done|]. pose proof (period_pos p cal). lia.
Qed.

(** The deadline of an epoch. *)
Lemma epoch_class e s q : let di := St.deadline_info p e s in
  unit_ q = wpost_proving_period p -> offset q = last di ->
  same_class (quant_at p (proving_period_start s) (index di)) q.
Proof.
  intros di Hu Ho. destruct (deadline_of_epoch p cal (proving_period_start s) e) as (Hm & _ & Hi & E1 & E2 & _).
  apply (quant_at_class p _ (period_start di)); [done..|]. rewrite Ho. unfold last, di, St.deadline_info. rewrite E2, E1. lia.
Qed.

Lemma info_unit seed e : di_proving_period (new_deadline_info_from_offset_and_epoch p seed e) = wpost_proving_period p.
Proof. unfold new_deadline_info_from_offset_and_epoch, new_deadline_info, di_new. by destruct (_ <? _). Qed.

Lemma spec_for_info start i e :
  Miner.quant_spec_for_deadline p (new_deadline_info p start i e) = quant_spec (new_deadline_info p start i e).
Proof. unfold Miner.quant_spec_for_deadline, quant_spec, new_deadline_info, di_new. by destruct (_ <? _). Qed.

Lemma current_start e s :
  (St.current_proving_period_start p e s - proving_period_start s) mod wpost_proving_period p = 0.
Proof. apply (deadline_of_epoch p cal). Qed.
End calendar.

(** ** The state *)

Section states.
Context (p : Policy).
Implicit Types s : State.

(** The sectors of a table have a duration, so their power is defined. *)
Definition lasts (i : SectorOnChainInfo) : Prop := expiration i <> power_base_epoch i.
Definition lasting (all : Infos) : Prop := forall n i, all !! n = Some i -> lasts i.

Record standing s : Prop := {
  sd_table : table_ok (st_sectors s);
  sd_deadlines : dls_wf p (sector_size (info s)) (proving_period_start s) (st_sectors s) (deadlines s);
  sd_partition : 0 < window_post_partition_sectors (info s);
  sd_early : forall i, i ∈ st_early_terminations s -> 0 <= i;
  sd_lasting : lasting (st_sectors s);
}.

(** The numbers of the sectors in deadlines are allocated, and not pre-committed. *)
Definition used s : Prop :=
  dls_sectors (deadlines s) ⊆ allocated_sectors s /\
  forall n, n ∈ dls_sectors (deadlines s) -> pre_committed_sectors s !! n = None.

(** The power of the active sectors of a miner. *)
Definition active (s : State) : PowerPair := dls_power (deadlines s).

(** The sizes of sectors and partitions are those of the construction. *)
Definition sized s s' : Prop :=
  sector_size (info s') = sector_size (info s) /\
  window_post_partition_sectors (info s') = window_post_partition_sectors (info s).

(** A transaction that reports [delta] and adds no sectors. *)
Definition moves s (delta : PowerPair) s' : Prop :=
  standing s -> standing s' /\ active s' = pp_add (active s) delta /\
  dls_sectors (deadlines s') ⊆ dls_sectors (deadlines s) /\ sized s s'.

(** The sectors and their deadlines are the same. *)
Definition frame s s' : Prop :=
  deadlines s' = deadlines s /\ st_sectors s' = st_sectors s /\
  proving_period_start s' = proving_period_start s /\ st_early_terminations s' = st_early_terminations s /\
  sector_size (info s') = sector_size (info s) /\
  window_post_partition_sectors (info s') = window_post_partition_sectors (info s).

Lemma framed_refl s : frame s s.
Proof. done. Qed.

Lemma framed_trans s1 s2 s3 : frame s1 s2 -> frame s2 s3 -> frame s1 s3.
Proof. unfold frame. intros H1 H2. destruct_and!. split_and!; congruence. Qed.

Lemma used_next s s' : history s s' -> dls_sectors (deadlines s') ⊆ dls_sectors (deadlines s) -> used s -> used s'.
Proof.
  intros [Ha Hp] Hs [H1 H2]. split; [clear -Ha H1 Hs; set_solver|].
  intros n Hn. destruct (Hp n) as [E|E]; [set_solver|done|]. rewrite E. auto.
Qed.

Lemma frame_moves s s' : frame s s' -> moves s pp_zero s'.
Proof.
  intros (E1 & E2 & E3 & E4 & E5 & E6) [H1 H2 H3 H4 H5]. unfold active. rewrite E1, pp_add_zero. split; [|done].
  constructor; rewrite ?E1, ?E2, ?E3, ?E4, ?E5, ?E6; done.
Qed.

Lemma moves_trans s1 d1 s2 d2 s3 : moves s1 d1 s2 -> moves s2 d2 s3 -> moves s1 (pp_add d1 d2) s3.
Proof.
  intros H1 H2 H. destruct (H1 H) as (A1 & B1 & C1). destruct (H2 A1) as (A2 & B2 & C2). 
  destruct C1 as [C1 [D1 E1]], C2 as [C2 [D2 E2]].
  split_and!; [done| |set_solver|split; congruence]. rewrite B2, B1. unfold pp_add. cbn. f_equal; lia.
Qed.

Lemma moves_frame s1 d s2 s3 : moves s1 d s2 -> frame s2 s3 -> moves s1 d s3.
Proof. intros H1 H2. rewrite <- (pp_add_zero d). eapply moves_trans; [done|]. by apply frame_moves. Qed.

Lemma frame_moves_l s1 d s2 s3 : frame s1 s2 -> moves s2 d s3 -> moves s1 d s3.
Proof. intros H1 H2. rewrite <- (pp_zero_add d). eapply moves_trans; [by apply frame_moves|done]. Qed.

Lemma early_moves E s : (standing s -> forall i, i ∈ E -> 0 <= i) -> moves s pp_zero (St.set_early E s).
Proof. intros HE H. split_and!; [|by rewrite pp_add_zero|done|done]. constructor; [apply H..|by apply HE|apply H]. Qed.

(** A walk over deadlines. *)
Lemma deadlines_moves s ds delta :
  (standing s -> dls_moves p (sector_size (info s)) (proving_period_start s) (st_sectors s) (deadlines s) delta ds) ->
  moves s delta (St.set_deadlines ds s).
Proof. intros Hm H. destruct (Hm H) as (Hw & Hs & Hp). split_and!; [|done..]. constructor; [apply H|done|apply H..]. Qed.
End states.

(** ** Changes of the funds *)

Lemma frame_penalty d s s' : St.apply_penalty d s = Ok s' -> frame s s'.
Proof. unfold St.apply_penalty. intros H. minv. done. Qed.
Lemma frame_pledge d s s' : St.add_initial_pledge d s = Ok s' -> frame s s'.
Proof. unfold St.add_initial_pledge. intros H. minv. done. Qed.
Lemma frame_deposit d s s' : St.add_pre_commit_deposit d s = Ok s' -> frame s s'.
Proof. unfold St.add_pre_commit_deposit. intros H. minv. done. Qed.
Lemma frame_unlock_both e t s u tot s' : St.unlock_vested_and_unvested_funds e t s = Ok (u, tot, s') -> frame s s'.
Proof.
  unfold St.unlock_vested_and_unvested_funds. intros H. destruct (_ || _); [by minv|].
  destruct (Vesting.unlock_vested_and_unvested_funds _ _ _) as [[? ?] ?]. cbn zeta in H. by minv.
Qed.
Lemma frame_unlock e s u s' : St.unlock_vested_funds e s = Ok (u, s') -> frame s s'.
Proof.
  unfold St.unlock_vested_funds. intros H. destruct (_ =? _); [by minv|].
  destruct (Vesting.unlock_vested_funds _ _) as [? ?]. cbn zeta in H. by minv.
Qed.
Lemma frame_lock e sum spec s u s' : St.add_locked_funds e sum spec s = Ok (u, s') -> frame s s'.
Proof. unfold St.add_locked_funds. intros H. destruct (_ <? _); [done|]. minv. done. Qed.
Lemma frame_repay e b s burn tot s' : St.repay_partial_debt_in_priority_order e b s = Ok (burn, tot, s') -> frame s s'.
Proof.
  unfold St.repay_partial_debt_in_priority_order. intros H. apply rbind_ok in H as ([[u t] s1] & H1 & H).
  apply frame_unlock_both in H1. by minv.
Qed.
Lemma frame_repay_debts b s fee s' : St.repay_debts b s = Ok (fee, s') -> frame s s'.
Proof. unfold St.repay_debts. intros H. by minv. Qed.
Lemma frame_delete ns s s' : St.delete_precommitted_sectors ns s = Ok s' -> frame s s'.
Proof. unfold St.delete_precommitted_sectors. intros H. apply rbind_ok in H as (? & _ & H). by injection H as <-. Qed.
Lemma frame_put ps s s' : St.put_precommitted_sectors ps s = Ok s' -> frame s s'.
Proof. unfold St.put_precommitted_sectors. intros H. apply rbind_ok in H as (? & _ & H). by injection H as <-. Qed.
Lemma frame_allocate ns b s s' : St.allocate_sector_numbers ns b s = Ok s' -> frame s s'.
Proof. unfold St.allocate_sector_numbers. intros H. by minv. Qed.
Lemma frame_clean_ups p evs s s' : St.add_pre_commit_clean_ups p evs s = Ok s' -> frame s s'.
Proof. unfold St.add_pre_commit_clean_ups. intros H. apply rbind_ok in H as (? & _ & H). by injection H as <-. Qed.
Lemma frame_cleanup e s n s' : St.cleanup_expired_pre_commits e s = Ok (n, s') -> frame s s'.
Proof.
  unfold St.cleanup_expired_pre_commits. intros H. apply rbind_ok in H as ([[ns md] q] & _ & H). cbn zeta in H.
  set (s0 := if md then _ else s) in H. assert (frame s s0) as H0 by (unfold s0; by destruct md).
  clearbody s0. apply rbind_ok in H as (s1 & H1 & H).
  assert (frame s0 s1) as H01 by (destruct (omap _ _).*1; [by injection H1 as <-|by eapply frame_delete]).
  destruct (_ <? 0); [done|]. injection H as <- <-. by eapply framed_trans; [|eapply framed_trans].
Qed.
Lemma frame_worker e s : frame s (process_pending_worker e s).
Proof. unfold process_pending_worker. destruct (pending_worker_key _); [|done]. by destruct (_ <? _). Qed.

Lemma rfold_ind_in {E A B} (f : A -> B -> Res E A) (I : A -> Prop) l a a' :
  (forall a b a', b ∈ l -> I a -> f a b = Ok a' -> I a') -> I a -> rfold f a l = Ok a' -> I a'.
Proof.
  revert a. induction l as [|b l IH]; intros a Hf Ha H; cbn [rfold] in H; [by injection H as <-|].
  apply rbind_ok in H as (a1 & H1 & H). eapply IH; [|eapply Hf; [left|done|exact H1]|exact H].
  intros. eapply Hf; [by right|done..].
Qed.

(** ** Transactions on deadlines *)

Section transactions.
Context (x : Ext) (ctx : Ctx) (cal : calendar_ok (policy x)).
Notation p := (policy x).
Implicit Types (s : State) (m : gmap Z (gmap Z BitField)).

Notation moves := (moves p).
Notation standing := (standing p).
Notation dls_moves s := (dls_moves p (sector_size (info s)) (proving_period_start s) (st_sectors s) (deadlines s)).

Definition from_zero {A} (m : gmap Z A) : Prop := forall k v, m !! k = Some v -> 0 <= k.

(** One deadline of a walk. *)
Lemma walk_stands s delta0 ds idx d q delta d' ds' : standing s -> 0 <= idx ->
  dls_moves s delta0 ds -> Deadlines.load_deadline idx ds = Ok d ->
  (idx < wpost_period_deadlines p -> same_class (quant_at p (proving_period_start s) idx) q) ->
  (0 < unit_ q -> table_ok (st_sectors s) -> dl_wf (sector_size (info s)) q (st_sectors s) d ->
   stands (sector_size (info s)) q (st_sectors s) (fun _ => 0) d delta d') ->
  Deadlines.update_deadline p idx d' ds = Ok ds' -> dls_moves s (pp_add delta0 delta) ds'.
Proof.
  intros H Hi Hm Hl Hq Hst Hu. apply update_deadline_ok in Hu as [-> Hlt]. specialize (Hq Hlt).
  pose proof (quant_at_pos p cal (proving_period_start s) idx) as Hp.
  eapply dls_moves_stands; [done|done|by apply load_deadline_ok| |].
  - rewrite Z2Nat.id by done. exact Hq.
  - apply Hst; [|apply H]. by destruct Hq as [-> _].
Qed.

Lemma walk_sheds s delta0 ds idx d q delta d' ds' : standing s -> 0 <= idx ->
  dls_moves s delta0 ds -> Deadlines.load_deadline idx ds = Ok d ->
  (idx < wpost_period_deadlines p -> same_class (quant_at p (proving_period_start s) idx) q) ->
  (0 < unit_ q -> table_ok (st_sectors s) -> dl_wf (sector_size (info s)) q (st_sectors s) d ->
   exists X, sheds (sector_size (info s)) q (st_sectors s) (fun _ => 0) d X delta d') ->
  Deadlines.update_deadline p idx d' ds = Ok ds' -> dls_moves s (pp_sub delta0 delta) ds'.
Proof.
  intros H Hi Hm Hl Hq Hst Hu. apply update_deadline_ok in Hu as [-> Hlt]. specialize (Hq Hlt).
  pose proof (quant_at_pos p cal (proving_period_start s) idx) as Hp. apply load_deadline_ok in Hl; [|done].
  destruct Hst as [Y Hy]; [by destruct Hq as [-> _]|apply H| |].
  - eapply dl_off_class; [exact Hp|exact Hq|]. rewrite <- (Z2Nat.id idx) by done. by apply Hm.
  - eapply dls_moves_sheds; [done|done|done| |exact Hy]. by rewrite Z2Nat.id.
Qed.

Lemma target_class idx s di : 0 <= idx -> target_deadline x ctx idx s = Ok di ->
  same_class (quant_at p (proving_period_start s) idx) (quant_spec di).
Proof.
  intros Hi H. unfold target_deadline, declaration_deadline_info in H. minv.
  apply (next_class p cal); [lia|]. by apply current_start.
Qed.

Lemma declare_faults_moves m s delta s' : from_zero m ->
  declare_faults_in x ctx m s = Ok (delta, s') -> moves s delta s'.
Proof.
  intros Hz Ha. unfold declare_faults_in in Ha. apply rbind_ok in Ha as ([power ds] & Ha & E). injection E as <- <-.
  apply deadlines_moves. intros H.
  apply (rfold_ind_in _ (fun '(power, ds) => dls_moves s power ds)) in Ha; [done| |by apply dls_moves_refl, H].
  intros [pw0 ds0] [idx ps] [pw3 ds3] Hin Hm Hs. apply elem_of_entries, Hz in Hin.
  apply rbind_ok in Hs as (di & Hdi & Hs). apply rbind_ok in Hs as (d & Hd & Hs). apply dc_ok in Hd.
  apply rbind_ok in Hs as ([delta d'] & Hr & Hs). apply dc_ok in Hr. apply rbind_ok in Hs as (ds' & Hu & Hs). apply dc_ok in Hu.
  injection Hs as <- <-. apply (walk_stands s pw0 ds0 idx d (quant_spec di) delta d' ds'); try done.
  - intros _. by apply target_class.
  - intros ? Ht Hw. by eapply record_faults_dl.
Qed.

Lemma declare_recoveries_moves m s s' : from_zero m ->
  declare_recoveries_in x ctx m s = Ok s' -> moves s pp_zero s'.
Proof.
  intros Hz Ha. unfold declare_recoveries_in in Ha. apply rbind_ok in Ha as (ds & Ha & E). injection E as <-.
  apply deadlines_moves. intros H.
  apply (rfold_ind_in _ (fun ds => dls_moves s pp_zero ds)) in Ha; [done| |by apply dls_moves_refl, H].
  intros ds0 [idx ps] ds3 Hin Hm Hs. apply elem_of_entries, Hz in Hin.
  apply rbind_ok in Hs as (di & Hdi & Hs). apply rbind_ok in Hs as (d & Hd & Hs). apply dc_ok in Hd.
  apply rbind_ok in Hs as (d' & Hr & Hs). apply dc_ok in Hr, Hs.
  apply (walk_stands s pp_zero ds0 idx d (quant_spec di) pp_zero d' ds3); try done.
  - intros _. by eapply target_class.
  - intros ? Ht Hw. by eapply declare_faults_recovered_dl.
Qed.

Lemma submit_post_moves prm proof s delta s' : 0 <= sp_deadline prm ->
  submit_post x ctx prm proof s = Ok (delta, s') -> moves s delta s'.
Proof.
  intros Hz Ha. unfold submit_post in Ha. apply rbind_ok in Ha as (di & Hdi & Ha). apply dc_ok in Hdi.
  apply rbind_ok in Ha as (d & Hd & Ha). apply dc_ok in Hd. apply rbind_ok in Ha as ([r d1] & Hr & Ha). apply dc_ok in Hr.
  destruct (bf_empty _); [done|]. apply rbind_ok in Ha as (d2 & H2 & Ha). apply rbind_ok in Ha as (ds & Hu & Ha).
  apply dc_ok in Hu. injection Ha as <- <-. apply deadlines_moves. intros H.
  assert (di = St.deadline_info p (ctx_epoch ctx) s /\ sp_deadline prm = index di) as [Edi Ei].
  { unfold check_submission in Hdi. minv. by split. }
  rewrite <- (pp_zero_add (pr_power_delta r)).
  apply (walk_stands s pp_zero (deadlines s) (sp_deadline prm) d (quant_spec di) (pr_power_delta r) d2 ds); try done.
  - by apply dls_moves_refl, H.
  - intros _. rewrite Ei, Edi. apply (epoch_class p cal); [apply info_unit|done].
  - intros ? Ht Hw. eapply record_proven_sectors_dl in Hr; [|done..].
    destruct (pp_is_zero _); [injection H2 as <-; by eapply stands_fields; [exact Hr|..]; [..|intros []]|].
    apply rbind_ok in H2 as (? & _ & H2). apply rbind_ok in H2 as ([] & _ & H2); [|done]. by injection H2 as <-.
Qed.

(** The table a dispute looks at is a snapshot. *)
Definition snapshot_agrees (idx : Z) s : Prop := forall d, deadlines s !! Z.to_nat idx = Some d ->
  agree (st_sectors s) (sectors_snapshot d) (dsectors (partitions_snapshot d)).

Lemma rfold_ext_in {E A B} (f g : A -> B -> Res E A) l a :
  (forall a b, b ∈ l -> f a b = g a b) -> rfold f a l = rfold g a l.
Proof.
  revert a. induction l as [|b l IH]; intros a H; [done|]. cbn [rfold]. rewrite (H a b) by left.
  destruct (g a b); cbn; [|done..]. apply IH. intros. apply H. by right.
Qed.

Lemma load_sectors_agree all all' X Y : agree all all' X -> Y ⊆ X ->
  Sectors.load_sectors Y all = Sectors.load_sectors Y all'.
Proof.
  intros H HY. apply rfold_ext_in. intros acc n Hn%elem_of_bits. by rewrite (H n (HY n Hn)).
Qed.

Lemma record_faults_agree size q all all' e (m : gmap Z BitField) X d : agree all all' X ->
  (forall i ns, m !! i = Some ns -> ns ⊆ X) ->
  DL.record_faults size q all e m d = DL.record_faults size q all' e m d.
Proof.
  intros Ha Hm. unfold DL.record_faults. f_equal. apply rfold_ext_in. intros [[wf pd] d0] [i ns] Hin%elem_of_entries%Hm.
  destruct (ok_or _ _) as [pt| |]; cbn [rbind]; [|done..]. unfold Part.record_faults.
  rewrite !(load_sectors_agree all all' X) by (done || clear -Hin; set_solver). done.
Qed.

Lemma disputed_within ps d di : DL.load_partitions_for_dispute ps d = Ok di ->
  forall i ns, disputed_sectors di !! i = Some ns -> ns ⊆ dsectors (partitions_snapshot d).
Proof.
  intros H. unfold DL.load_partitions_for_dispute in H.
  refine (rfold_ind_in _ (fun di => forall i ns, disputed_sectors di !! i = Some ns -> ns ⊆ dsectors (partitions_snapshot d)) _ _ _ _ _ H);
    [|done].
  intros di0 k di1 _ Hi Hs. apply rbind_ok in Hs as (pt & Hp%ok_or_ok & Hs). injection Hs as <-. cbn [disputed_sectors].
  assert (Part.active_sectors pt ⊆ dsectors (partitions_snapshot d)) as Hsub.
  { intros n Hn. apply elem_of_dsectors. exists k, pt. split; [done|].
    unfold Part.active_sectors, Part.live_sectors in Hn. set_solver. }
  intros i ns. unfold SectorMap.p_add. destruct (disputed_sectors di0 !! k) as [old|] eqn:E;
    intros [[<- <-]|[_ Hj]]%lookup_insert_Some; eauto. apply Hi in E. set_solver.
Qed.

Lemma dispute_class idx s q : let di := St.deadline_info p (ctx_epoch ctx) s in
  0 <= idx < wpost_period_deadlines p ->
  q = Miner.quant_spec_for_deadline p (new_deadline_info p (if index di <? idx
        then period_start di - wpost_proving_period p else period_start di) idx (ctx_epoch ctx)) ->
  same_class (quant_at p (proving_period_start s) idx) q.
Proof.
  intros di Hi ->. rewrite spec_for_info. apply (info_class p (proving_period_start s)); [done|].
  pose proof (current_start p cal (ctx_epoch ctx) s) as Hc. fold di in Hc. unfold St.current_proving_period_start in Hc. fold di in Hc.
  destruct (_ <? _); [|done]. pose proof (period_pos p cal).
  replace (_ - _ - _) with (period_start di - proving_period_start s + (- 1) * wpost_proving_period p) by lia.
  rewrite Z.mod_add; [done|lia].
Qed.

Lemma dispute_post_moves b rew pwr idx post s pl burn delta rw s' : 0 <= idx -> snapshot_agrees idx s ->
  dispute_post x ctx b rew pwr idx post s = Ok (pl, burn, delta, rw, s') -> moves s delta s'.
Proof.
  intros Hz Hsn Ha. unfold dispute_post in Ha. destruct (negb _); [done|].
  apply rbind_ok in Ha as (d & Hd & Ha). apply dc_ok in Hd.
  apply rbind_ok in Ha as ([[ps prfs] d1] & H1 & Ha). apply rbind_ok in Ha as (di & Hdi & Ha). apply dc_ok in Hdi.
  apply rbind_ok in Ha as (infos & _ & Ha). apply rbind_ok in Ha as (valid & _ & Ha). destruct valid; [done|].
  apply rbind_ok in Ha as ([pd d2] & Hr & Ha). apply dc_ok in Hr. apply rbind_ok in Ha as (ds & Hu & Ha). apply dc_ok in Hu.
  apply rbind_ok in Ha as (pen & _ & Ha). apply rbind_ok in Ha as (s1 & Hp & Ha). apply mc_ok in Hp.
  apply rbind_ok in Ha as ([[tb tu] s2] & Hrep & Ha). apply dc_ok in Hrep. injection Ha as <- <- <- <- <-.
  eapply moves_frame; [|eapply framed_trans; [by eapply frame_penalty|by eapply frame_repay]].
  apply deadlines_moves. intros H. set (q := Miner.quant_spec_for_deadline p _) in Hr.
  rewrite <- (pp_zero_add pd). apply (walk_stands s pp_zero (deadlines s) idx d q pd d2 ds); try done.
  - by apply dls_moves_refl, H.
  - intros Hlt. by apply (dispute_class idx s q).
  - intros Hu' Ht Hw. pose proof (Hsn d (load_deadline_ok _ _ _ Hz Hd)) as Hag.
    apply dc_ok in H1. unfold DL.take_post_proofs in H1. apply rbind_ok in H1 as (wp & _ & H1). injection H1 as <- <- <-.
    rewrite <- (record_faults_agree _ _ (st_sectors s) _ _ _ _ _ Hag (disputed_within _ _ _ Hdi)) in Hr.
    eapply record_faults_dl in Hr; [exact Hr|done..|].
    by destruct (dl_off_fields (sector_size (info s)) q (st_sectors s) (fun _ => 0) d (DL.set_proofs
      (optimistic_post_submissions d) (delete post (optimistic_post_submissions_snapshot d)) d)); [..|intros []|].
Qed.

Lemma quant_for_class idx s : St.quant_spec_for_deadline p idx s = quant_at p (proving_period_start s) idx.
Proof. done. Qed.

Lemma same_class_refl q : same_class q q.
Proof. split; [done|]. by rewrite Z.sub_diag, Zmod_0_l. Qed.

Lemma terminate_moves m s b delta s' : from_zero m ->
  terminate_declared x ctx m s = Ok (b, delta, s') -> moves s delta s'.
Proof.
  intros Hz Ha. unfold terminate_declared in Ha. apply rbind_ok in Ha as ([[power ds] early] & Ha & E). injection E as <- <- <-.
  assert (standing s -> dls_moves s power ds /\ forall i, i ∈ early -> 0 <= i) as Hw.
  { intros H. refine (rfold_ind_in _ (fun '(power, ds, early) => dls_moves s power ds /\ forall i, i ∈ early -> 0 <= i) _ _ _ _ _ Ha);
      [|split; [by apply dls_moves_refl, H|apply H]].
    intros [[pw0 ds0] e0] [idx ps] [[pw3 ds3] e3] Hin [Hm He] Hs. apply elem_of_entries, Hz in Hin.
    destruct (negb _); [done|]. apply rbind_ok in Hs as (d & Hd & Hs). apply dc_ok in Hd.
    apply rbind_ok in Hs as ([delta d'] & Hr & Hs). apply dc_ok in Hr. apply rbind_ok in Hs as (ds' & Hu & Hs). apply dc_ok in Hu.
    injection Hs as <- <- <-. split; [|set_solver].
    apply (walk_sheds s pw0 ds0 idx d (St.quant_spec_for_deadline p idx s) delta d' ds'); try done.
    - intros _. apply same_class_refl.
    - intros ? Ht Hwf. by eapply terminate_sectors_dl. }
  intros H. destruct (Hw H) as [Hm He]. revert H. rewrite <- (pp_add_zero power).
  eapply moves_trans; [by apply deadlines_moves|by apply early_moves].
Qed.

Lemma pop_deadlines_moves mp ms s idxs : standing s -> Forall (fun i => 0 <= i) idxs -> forall uns res ds uns' res' ds',
  dls_moves s pp_zero ds -> St.pop_deadlines p mp ms idxs uns res ds = Ok (uns', res', ds') -> dls_moves s pp_zero ds'.
Proof.
  intros H. induction 1 as [|i idxs Hi _ IH]; intros uns res ds uns' res' ds' Hm Ha; cbn [St.pop_deadlines] in Ha;
    [by injection Ha as <- <- <-|].
  apply rbind_ok in Ha as (d & Hd & Ha). apply rbind_ok in Ha as (mp' & _ & Ha). apply rbind_ok in Ha as (ms' & _ & Ha).
  apply rbind_ok in Ha as ([[r more] d'] & Hr & Ha). apply rbind_ok in Ha as (res1 & _ & Ha).
  apply rbind_ok in Ha as (ds1 & Hu & Ha).
  assert (dls_moves s pp_zero ds1) as Hm1.
  { apply (walk_stands s pp_zero ds i d (St.quant_spec_for_deadline p i s) pp_zero d' ds1); try done.
    - intros _. apply same_class_refl.
    - intros ? Ht Hw. by eapply pop_early_terminations_dl. }
  destruct (negb _); [by injection Ha as <- <- <-|]. by eapply IH.
Qed.

Lemma pop_early_moves mp ms s r b s' : St.pop_early_terminations p mp ms s = Ok (r, b, s') -> moves s pp_zero s'.
Proof.
  intros Ha. unfold St.pop_early_terminations in Ha. destruct (bf_empty _); [injection Ha as <- <- <-; by apply frame_moves|].
  apply rbind_ok in Ha as ([[uns res] ds] & Hp & Ha). injection Ha as <- <- <-. rewrite <- (pp_add_zero pp_zero).
  set (E := st_early_terminations s ∖ _). change (St.set_deadlines ds (St.set_early E s)) with (St.set_early E (St.set_deadlines ds s)).
  eapply moves_trans.
  - apply deadlines_moves. intros H. eapply (pop_deadlines_moves mp ms s); [done| | |exact Hp].
    + apply Forall_forall. intros i Hi%elem_of_bits. by apply (sd_early _ _ H).
    + by apply dls_moves_refl, H.
  - apply early_moves. intros H i Hi. apply (sd_early _ _ H). cbn. subst E. set_solver.
Qed.

Lemma terminations_moves b rew pwr s p1 p2 p3 p4 p5 s' :
  book_terminations x ctx b rew pwr s = Ok (p1, p2, p3, p4, p5, s') -> moves s pp_zero s'.
Proof.
  intros Ha. unfold book_terminations in Ha. apply rbind_ok in Ha as ([[r more] s1] & H1 & Ha).
  apply mc_ok, pop_early_moves in H1. destruct (tr_is_empty r); [by injection Ha as <- <- <- <- <- <-|].
  apply rbind_ok in Ha as ([[pl tp] wd] & _ & Ha). apply rbind_ok in Ha as (s2 & H2 & Ha).
  apply rbind_ok in Ha as (s3 & H3 & Ha). apply rbind_ok in Ha as ([[pn tu] s4] & H4 & Ha). injection Ha as <- <- <- <- <- <-.
  eapply moves_frame; [exact H1|]. eapply framed_trans; [by eapply frame_penalty, mc_ok|].
  eapply framed_trans; [by eapply frame_pledge, mc_ok|by eapply frame_repay, dc_ok].
Qed.

(** The proving period moves by whole periods. *)
Lemma period_moves start idx s : (start - proving_period_start s) mod wpost_proving_period p = 0 ->
  moves s pp_zero (St.set_period start idx s).
Proof.
  intros Hm H. split_and!; [|by rewrite pp_add_zero|done|done]. constructor; [apply H| |apply H..].
  destruct (sd_deadlines _ _ H) as [H1 H2 H3]. constructor; [|done|done]. intros i d Hi. cbn in Hi |- *.
  eapply dl_off_class; [|apply (info_class p (proving_period_start s)); [|exact Hm]|by apply H1].
  - by apply quant_at_pos.
  - apply lookup_lt_Some in Hi. lia.
Qed.

(** A deadline whose sectors change their standing, and then expire. *)
Lemma stands_sheds size q all d delta d1 X lost d2 :
  stands size q all (fun _ => 0) d delta d1 -> sheds size q all (fun _ => 0) d1 X lost d2 ->
  dl_wf size q all d2 /\ dsectors (partitions d2) = dsectors (partitions d) /\
  active_of (partitions d2) = pp_add (active_of (partitions d)) (pp_sub delta lost).
Proof.
  intros (_ & Hc & Ha) (Hw & Hs & _ & _ & Hl). injection Hc as Hc _. split_and!; [done|congruence|].
  rewrite Hl, Ha. unfold pp_add, pp_sub. cbn. f_equal; lia.
Qed.

Lemma end_walk s e di q pd det d d1 ex d2 ds : standing s -> di = St.deadline_info p (ctx_epoch ctx) s ->
  q = Miner.quant_spec_for_deadline p di ->
  Deadlines.load_deadline (index di) (deadlines s) = Ok d ->
  DL.process_deadline_end q e (st_sectors s) d = Ok (pd, det, d1) ->
  DL.pop_expired_sectors (last di) d1 = Ok (ex, d2) ->
  Deadlines.update_deadline p (index di) d2 (deadlines s) = Ok ds ->
  dls_moves s (pp_sub pd (active_power ex)) ds.
Proof.
  intros H Edi Eq Hd H1 H2 Hu. apply update_deadline_ok in Hu as [-> Hlt].
  destruct (deadline_of_epoch p cal (proving_period_start s) (ctx_epoch ctx)) as (_ & _ & [Hi _] & _).
  fold (St.deadline_info p (ctx_epoch ctx) s) in Hi. rewrite <- Edi in Hi. apply load_deadline_ok in Hd; [|done].
  assert (same_class (quant_at p (proving_period_start s) (index di)) q) as Hq.
  { subst q di. by apply (epoch_class p cal). }
  pose proof (quant_at_pos p cal (proving_period_start s) (index di)) as Hp.
  assert (0 < unit_ q) as Hpq by (by destruct Hq as [-> _]).
  assert (dl_wf (sector_size (info s)) q (st_sectors s) d) as Hw.
  { eapply dl_off_class; [exact Hp|exact Hq|]. rewrite <- (Z2Nat.id (index di)) by done. by apply H. }
  eapply process_deadline_end_dl in H1; [|done|exact Hw].
  eapply pop_expired_sectors_dl in H2 as (X & _ & Hsh); [|done|apply H1].
  destruct (stands_sheds _ _ _ _ _ _ _ _ _ H1 Hsh) as (Hw2 & Hs & Ha).
  rewrite <- (pp_zero_add (pp_sub pd _)). eapply dls_moves_put; [done|by apply dls_moves_refl, H|done| |by rewrite Hs|done].
  eapply dl_off_class; [exact Hpq|rewrite Z2Nat.id by done; by apply same_class_sym|done].
Qed.

Lemma advance_moves s r s' : St.advance_deadline p (ctx_epoch ctx) s = Ok (r, s') -> moves s (ad_power_delta r) s'.
Proof.
  intros Ha. unfold St.advance_deadline in Ha. set (di := St.deadline_info p (ctx_epoch ctx) s) in Ha.
  destruct (negb (period_started di)); [injection Ha as <- <-; by apply frame_moves|].
  set (idx := (index di + 1) mod _) in Ha. set (start := if idx =? 0 then _ else _) in Ha.
  assert ((start - proving_period_start s) mod wpost_proving_period p = 0) as Hst.
  { unfold start. destruct (idx =? 0); [|by rewrite Z.sub_diag, Zmod_0_l].
    pose proof (current_start p cal (ctx_epoch ctx) s) as Hc. unfold St.current_proving_period_start in Hc. fold di in Hc.
    replace (_ - _) with (period_start di - proving_period_start s + 1 * wpost_proving_period p) by lia.
    rewrite Z.mod_add; [done|]. pose proof (period_pos p cal). lia. }
  apply rbind_ok in Ha as (d & Hd & Ha). destruct (negb (DL.is_live d)); [injection Ha as <- <-; by apply period_moves|].
  apply rbind_ok in Ha as ([[pd det] d1] & H1 & Ha). apply rbind_ok in Ha as ([ex d2] & H2 & Ha).
  apply rbind_ok in Ha as (s2 & H3 & Ha). apply add_pledge_spec in H3 as [-> _].
  apply rbind_ok in Ha as (ds & Hu & Ha). injection Ha as <- <-. cbn [ad_power_delta].
  set (E := if bf_empty (early_sectors ex) then st_early_terminations s else st_early_terminations s ∪ {[index di]}).
  assert (forall i, i ∈ E -> i ∈ st_early_terminations s \/ i = index di) as HE.
  { intros i Hi. unfold E in Hi. destruct (bf_empty _); [by left|]. clear -Hi. set_solver. }
  match goal with |- moves s _ ?s' => assert (frame (St.set_period start idx (St.set_early E (St.set_deadlines ds s))) s') as Hf end.
  { unfold E. by destruct (bf_empty _). }
  eapply moves_frame; [|exact Hf]. rewrite <- (pp_add_zero (pp_sub pd _)).
  eapply moves_trans; [|by apply period_moves]. rewrite <- (pp_add_zero (pp_sub pd _)).
  eapply moves_trans.
  - apply deadlines_moves. intros H. eapply (end_walk s); try done. by destruct (bf_empty _).
  - apply early_moves. intros H i [Hi| ->]%HE; [by apply (sd_early _ _ H)|].
    apply (deadline_of_epoch p cal (proving_period_start s) (ctx_epoch ctx)).
Qed.

Lemma end_deadline_moves b rew pwr s r s' :
  end_deadline x ctx b rew pwr s = Ok (r, s') -> moves s (de_power_delta r) s'.
Proof.
  intros H. unfold end_deadline in H. cbn zeta in H.
  apply rbind_ok in H as ([d s1] & H1 & H). apply dc_ok, frame_cleanup in H1.
  apply rbind_ok in H as (s2 & H2 & H). apply mc_ok, frame_penalty in H2.
  apply rbind_ok in H as ([ad s3] & H3 & H). apply dc_ok, advance_moves in H3.
  apply rbind_ok in H as (pt & _ & H). apply rbind_ok in H as (s4 & H4 & H). apply mc_ok, frame_penalty in H4.
  apply rbind_ok in H as (s5 & H5 & H).
  assert (frame s4 s5) as Hb5.
  { destruct (_ >? 0); [|by injection H5 as <-]. apply rbind_ok in H5 as (dr & _ & H5). by eapply frame_penalty, mc_ok. }
  apply rbind_ok in H as ([[pn tu] s6] & H6 & H). apply dc_ok, frame_repay in H6.
  apply rbind_ok in H as ([nv s7] & H7 & H). apply dc_ok, frame_unlock in H7. injection H as <- <-. cbn [de_power_delta].
  eapply frame_moves_l; [eapply framed_trans; [apply frame_worker|eapply framed_trans; [exact H1|exact H2]]|].
  eapply moves_frame; [exact H3|]. do 4 (eapply framed_trans; [eassumption|]). by destruct (St.continue_deadline_cron _).
Qed.

(** ** Compaction *)

Lemma delete_sectors_spec ns (all all' : Infos) : Sectors.delete_sectors ns all = Ok all' ->
  (forall n i, all' !! n = Some i -> all !! n = Some i) /\ forall n, n ∉ ns -> all' !! n = all !! n.
Proof.
  intros H. unfold Sectors.delete_sectors in H.
  refine (rfold_ind_in _ (fun m : Infos => (forall n i, m !! n = Some i -> all !! n = Some i) /\ forall n, n ∉ ns -> m !! n = all !! n) _ _ _ _ _ H);
    [|done].
  intros m k m' Hk%elem_of_bits [H1 H2] Hs. destruct (m !! k); [|done]. injection Hs as <-. split.
  - intros n i [_ Hn]%lookup_delete_Some. auto.
  - intros n Hn. rewrite lookup_delete_ne; [auto|]. set_solver.
Qed.

Lemma compact_moves idx ps s s' : 0 <= idx -> compact x ctx idx ps s = Ok s' -> moves s pp_zero s'.
Proof.
  intros Hz Ha H. unfold compact in Ha. destruct (negb _); [done|]. destruct (_ >? _); [done|].
  apply rbind_ok in Ha as (d & Hd & Ha). apply dc_ok in Hd. apply load_deadline_ok in Hd; [|done].
  apply rbind_ok in Ha as ([dead d'] & Hr & Ha). apply dc_ok in Hr. apply rbind_ok in Ha as (all & Hall & Ha). apply dc_ok in Hall.
  apply rbind_ok in Ha as (ds & Hu & Ha). apply dc_ok in Hu. apply update_deadline_ok in Hu as [-> Hlt].
  destruct (negb _); [done|]. injection Ha as <-. rewrite quant_for_class in Hr.
  apply delete_sectors_spec in Hall as [Hsub Hag]. pose proof (dls_each _ _ _ _ _ (sd_deadlines _ _ H) _ _ Hd) as Hw.
  rewrite Z2Nat.id in Hw by done.
  eapply compact_partitions_dl in Hr as (Hw' & Hl & Hin & Hnl & Hs & Ha);
    [|by apply quant_at_pos|apply H|apply H|exact Hw].
  assert (dls_moves s pp_zero (<[Z.to_nat idx := d']> (deadlines s))) as (M1 & M2 & M3).
  { rewrite <- (pp_add_zero pp_zero). eapply dls_moves_put; [done|by apply dls_moves_refl, H|exact Hd| | |].
    - by rewrite Z2Nat.id.
    - rewrite Hs. set_solver.
    - by rewrite Ha, pp_add_zero. }
  split_and!; [|exact M3|exact M2|done]. constructor; [|cbn|apply H..|].
  - intros n i Hn%Hsub. by apply (sd_table _ _ H).
  - eapply dls_wf_agree; [done|exact M1|]. intros n (j & dj & Hj & Hn)%elem_of_dls_live. symmetry. apply Hag. intros Hdead.
    apply list_lookup_insert_Some in Hj as [(<- & <- & _)|[Hne Hj]].
    + rewrite Hl in Hn. by apply (Hnl n).
    + apply (dls_disj _ _ _ _ _ (sd_deadlines _ _ H) _ _ _ _ Hne Hd Hj n); [by apply Hin|by apply dlive_sub].
  - intros n i Hn%Hsub. by apply (sd_lasting _ _ H n).
Qed.

(** ** New sectors *)

Lemma store_lasting l : forall all all' : Infos, Sectors.store l all = Ok all' ->
  Forall lasts l -> lasting all -> lasting all'.
Proof.
  induction l as [|i l IH]; intros all all' H Hl Ha; unfold Sectors.store in H; cbn [rfold] in H; [by injection H as <-|].
  apply rbind_ok in H as (m & H1 & H). destruct (_ >? _); [done|]. injection H1 as <-. apply Forall_cons in Hl as [Hi Hl].
  eapply IH; [exact H|done|]. intros n j [[_ <-]|[_ Hj]]%lookup_insert_Some; [done|by apply (Ha n)].
Qed.

(** Where the power of a sector is computed, it has a duration. *)
Lemma power_lasts size d v q : qa_power_for_weight size d v = Ok q -> d <> 0.
Proof.
  unfold qa_power_for_weight, quality_for_weight. intros H ->. by rewrite Z.mul_0_r in H.
Qed.

Lemma new_infos_last e i pi l : forall acc infos,
  rfold (fun acc '(p, d) => let! info := new_sector_info x e i pi p d in Ok (acc ++ [info])) acc l = Ok infos ->
  Forall lasts acc -> Forall lasts infos.
Proof.
  induction l as [|[pc d] l IH]; intros acc infos H Hacc; cbn [rfold] in H; [by injection H as <-|].
  apply rbind_ok in H as (acc1 & H1 & H). apply rbind_ok in H1 as (info & Hi & H1). injection H1 as <-.
  eapply IH; [exact H|]. apply Forall_app. split; [done|]. constructor; [|constructor].
  unfold new_sector_info in Hi. destruct (_ <? _); [done|]. apply rbind_ok in Hi as (pw & Hp%power_lasts & Hi).
  apply rbind_ok in Hi as (pl & _ & Hi). injection Hi as <-. unfold lasts. cbn. lia.
Qed.

Lemma store_spec l : forall all all' : Infos, Sectors.store l all = Ok all' ->
  (forall n, n ∉ numbers l -> all' !! n = all !! n) /\ (table_ok all -> table_ok all') /\
  (NoDup (sector_number <$> l) -> from_table all' l).
Proof.
  induction l as [|i l IH]; intros all all' H; unfold Sectors.store in H; cbn [rfold] in H.
  { injection H as <-. split_and!; [done|done|constructor]. }
  apply rbind_ok in H as (m & H1 & H). destruct (_ >? _); [done|]. injection H1 as <-.
  destruct (IH _ _ H) as (A1 & A2 & A3).
  assert (forall n, n ∈ numbers l <-> n ∈ sector_number <$> l) as Hnum by (intros n; apply elem_of_from_bits).
  split_and!.
  - intros n Hn. assert (n ∉ numbers l /\ n <> sector_number i) as [Hn1 Hn2].
    { unfold numbers in Hn. rewrite elem_of_from_bits, fmap_cons, elem_of_cons in Hn. rewrite Hnum. tauto. }
    rewrite A1, lookup_insert_ne by done. done.
  - intros Ht. apply A2. intros n j [[<- <-]|[_ Hj]]%lookup_insert_Some; [done|by apply Ht].
  - rewrite fmap_cons. intros [Hni Hnd]%NoDup_cons. constructor; [|by apply A3].
    rewrite A1 by (by rewrite Hnum). apply lookup_insert_eq.
Qed.

Lemma put_sectors_gains infos s s' : St.put_sectors infos s = Ok s' -> Forall lasts infos ->
  standing s -> numbers infos ## dls_sectors (deadlines s) -> standing s' /\ deadlines s' = deadlines s.
Proof.
  intros Ha Hla H Hd. unfold St.put_sectors in Ha. apply rbind_ok in Ha as (all & Hs & Ha). injection Ha as <-.
  pose proof (store_lasting _ _ _ Hs Hla (sd_lasting _ _ H)) as Hl.
  apply store_spec in Hs as (Hag & Ht & _). split; [|done]. constructor; [apply Ht, H| |apply H..|exact Hl].
  eapply dls_wf_agree; [done|apply H|]. intros n (i & d & Hi & Hn)%elem_of_dls_live. symmetry. apply Hag. intros Hn'.
  apply (Hd n Hn'), elem_of_dls_sectors. exists i, d. split; [done|]. by apply dlive_sub.
Qed.

Lemma sort_perm l : sort_by_number l ≡ₚ l.
Proof.
  unfold sort_by_number. induction l as [|i l IH]; [done|]. cbn [foldr].
  assert (forall k, insert_by_number i k ≡ₚ i :: k) as Hins.
  { induction k as [|j k IHk]; [done|]. cbn [insert_by_number]. destruct (_ <=? _); [done|]. rewrite IHk. by constructor. }
  by rewrite Hins, IH.
Qed.

Lemma concat_insert {A} (ll : list (list A)) i l a : ll !! i = Some l ->
  concat (<[i := l ++ [a]]> ll) ≡ₚ a :: concat ll.
Proof.
  revert i. induction ll as [|k ll IH]; intros i Hi; [done|]. destruct i as [|i]; cbn in *.
  - injection Hi as ->. rewrite <- (assoc_L (++)). cbn. symmetry. apply Permutation_middle.
  - rewrite IH by done. symmetry. apply Permutation_middle.
Qed.

Lemma assign_loop_perm ps mp infos : forall heap ch ch',
  Assign.assign_loop ps mp heap ch infos = Ok ch' -> concat ch' ≡ₚ concat ch ++ infos.
Proof.
  induction infos as [|i infos IH]; intros heap ch ch' H; cbn [Assign.assign_loop] in H.
  { injection H as <-. by rewrite app_nil_r. }
  apply rbind_ok in H as (a & _ & H). destruct (Assign.max_partitions_reached _ _ _); [done|].
  apply rbind_ok in H as (cs & Hcs & H). apply rbind_ok in H as (a' & _ & H). apply IH in H. rewrite H.
  unfold expect in Hcs. destruct (ch !! _) as [cs'|] eqn:E; [|done]. injection Hcs as ->.
  rewrite concat_insert by done. apply Permutation_middle.
Qed.

Lemma mutable_deadlines_spec e s v : St.mutable_deadlines p e s = Ok v ->
  forall i d, v !! i = Some (Some d) -> deadlines s !! i = Some d.
Proof.
  intros H. unfold St.mutable_deadlines in H.
  refine (rfold_ind_in _ (fun v : list (option Deadline) => forall i d, v !! i = Some (Some d) -> deadlines s !! i = Some d) _ _ _ _ _ H).
  - intros v0 [j dj] v1 (j' & d' & [= <- <-] & Hj)%elem_of_lookup_imap Hi Hs. destruct (deadline_is_mutable _ _ _ _); [|by injection Hs as <-].
    destruct (_ <? _)%nat; [|done]. injection Hs as <-. intros i d [(<- & [= <-] & _)|[_ Hd]]%list_lookup_insert_Some; auto.
  - intros i d [Hd _]%lookup_replicate. done.
Qed.

(** The deadlines from [ds0] to [ds], with the sectors [X] added. *)
Definition dls_gains s ds0 X ds : Prop :=
  dls_wf p (sector_size (info s)) (proving_period_start s) (st_sectors s) ds /\
  dls_sectors ds ⊆ dls_sectors ds0 ∪ X /\ dls_power ds = dls_power ds0.

Lemma add_gains s ds0 X ds (i : nat) d psize l pw fee d' ds' : 0 < psize ->
  dls_gains s ds0 X ds -> ds !! i = Some d ->
  from_table (st_sectors s) l -> NoDup (sector_number <$> l) -> numbers l ## dls_sectors ds0 ∪ X ->
  DL.add_sectors (sector_size (info s)) (St.quant_spec_for_deadline p (Z.of_nat i) s) psize false true l d = Ok (pw, fee, d') ->
  Deadlines.update_deadline p (Z.of_nat i) d' ds = Ok ds' ->
  dls_gains s ds0 (X ∪ numbers l) ds' /\ ds' = <[i := d']> ds.
Proof.
  intros Hps (Hw & Hs & Hp) Hi Hf Hnd Hdj Ha Hu. apply update_deadline_ok in Hu as [-> _]. rewrite Nat2Z.id. split; [|done].
  eapply add_sectors_dl in Ha as (_ & _ & Hw' & (A1 & A2 & _ & _ & A5 & _) & _);
    [|by apply quant_at_pos|done|by apply (dls_each _ _ _ _ _ Hw)|done|done|].
  - assert (dsectors (partitions d') ⊆ dsectors (partitions d) ∪ numbers l) as Hsub by (by rewrite A2).
    split_and!.
    + eapply (dls_wf_put _ _ _ _ _ _ d); [done|done| |exact Hsub|].
      * eapply dl_off_ext; [exact Hw'|]. by intros [].
      * clear -Hs Hdj. set_solver.
    + pose proof (dls_sectors_put ds i d d' (numbers l) Hi Hsub) as Hss. clear -Hss Hs. set_solver.
    + rewrite (dls_power_insert ds i d d' pp_zero), pp_add_zero by done. done.
  - intros n Hn Hn'. apply (Hdj n Hn), Hs, elem_of_dls_sectors. eauto.
Qed.

Lemma numbers_concat (ll : list (list SectorOnChainInfo)) l : concat ll ≡ₚ l -> numbers (concat ll) = numbers l.
Proof. intros H. apply set_eq. intros n. unfold numbers. rewrite !elem_of_from_bits. by rewrite H. Qed.

(** The step of [assign_sectors_to_deadlines]. *)
Definition assign_step s psize (v : list (option Deadline)) (ds : list Deadline) (il : nat * list SectorOnChainInfo)
  : MRes (list Deadline) :=
  match il with
  | (i, l) =>
      match l with
      | [] => Ok ds
      | _ =>
          let quant := St.quant_spec_for_deadline p (Z.of_nat i) s in
          let! d := expect (mjoin (v !! i)) in
          let! (_, _, d) := DL.add_sectors (sector_size (info s)) quant psize false true l d in
          Deadlines.update_deadline p (Z.of_nat i) d ds
      end
  end.

Lemma assign_walk s psize (v : list (option Deadline)) ds0 : 0 < psize ->
  (forall i d, v !! i = Some (Some d) -> deadlines s !! i = Some d) ->
  forall ch (k : nat) X ds ds', from_table (st_sectors s) (concat ch) -> NoDup (sector_number <$> concat ch) ->
  dls_gains s ds0 X ds -> (forall j, (k <= j)%nat -> ds !! j = deadlines s !! j) ->
  numbers (concat ch) ## dls_sectors ds0 ∪ X ->
  rfold (assign_step s psize v) ds (imap (fun i l => ((k + i)%nat, l)) ch) = Ok ds' ->
  dls_gains s ds0 (X ∪ numbers (concat ch)) ds'.
Proof.
  intros Hps Hv. induction ch as [|l ch IH]; intros k X ds ds' Hf Hnd Hg Hk Hdj H.
  { injection H as <-. cbn. change (numbers []) with (∅ : BitField). by rewrite union_empty_r_L. }
  cbn [concat] in *. rewrite fmap_app in Hnd. apply NoDup_app in Hnd as (Hnd1 & Hnd12 & Hnd2).
  apply Forall_app in Hf as [Hf1 Hf2]. rewrite numbers_app in Hdj |- *.
  assert (imap (fun i l => ((k + i)%nat, l)) (l :: ch) = (k, l) :: imap (fun i l => ((S k + i)%nat, l)) ch) as Em.
  { cbn [imap]. rewrite Nat.add_0_r. f_equal. apply imap_ext. intros i y _. cbn. f_equal. lia. }
  rewrite Em in H. cbn [rfold] in H. apply rbind_ok in H as (ds1 & H1 & H).
  assert (dls_gains s ds0 (X ∪ numbers l) ds1 /\ forall j, (S k <= j)%nat -> ds1 !! j = deadlines s !! j) as [Hg1 Hk1].
  { unfold assign_step in H1. destruct l as [|i0 l0] eqn:El.
    - injection H1 as <-. change (numbers []) with (∅ : BitField). rewrite union_empty_r_L. split; [done|]. intros j Hj. apply Hk. lia.
    - rewrite <- El in *. apply rbind_ok in H1 as (d & Hd & H1). apply rbind_ok in H1 as ([[pw fee] d'] & Ha & H1).
      unfold expect in Hd. destruct (v !! k) as [[d0|]|] eqn:E; cbn in Hd; [|done..]. injection Hd as ->.
      eapply (add_gains s ds0 X ds k d psize l) in H1 as [Hg1 ->]; [|done|exact Hg|rewrite Hk by lia; by apply Hv|done|done| |exact Ha].
      + split; [done|]. intros j Hj. rewrite list_lookup_insert_ne by lia. apply Hk. lia.
      + clear -Hdj. set_solver. }
  rewrite (assoc_L (∪)). eapply (IH (S k)); [done|done|exact Hg1|exact Hk1| |exact H].
  assert (numbers l ## numbers (concat ch)) as Hll.
  { intros n Hn1%elem_of_from_bits Hn2%elem_of_from_bits. by apply (Hnd12 n). }
  clear -Hdj Hll. set_solver.
Qed.

Lemma assign_gains e infos psize s s' : 0 < psize -> standing s ->
  from_table (st_sectors s) infos -> NoDup (sector_number <$> infos) -> numbers infos ## dls_sectors (deadlines s) ->
  St.assign_sectors_to_deadlines p e infos psize (sector_size (info s)) s = Ok s' ->
  exists ds, s' = St.set_deadlines ds s /\ dls_gains s (deadlines s) (numbers infos) ds.
Proof.
  intros Hps H Hf Hnd Hdj Ha. unfold St.assign_sectors_to_deadlines in Ha. apply rbind_ok in Ha as (v & Hv & Ha).
  apply rbind_ok in Ha as (ch & Hch & Ha). apply rbind_ok in Ha as (ds & Hds & Ha). injection Ha as <-. exists ds. split; [done|].
  pose proof (mutable_deadlines_spec _ _ _ Hv) as Hv'.
  assert (concat ch ≡ₚ infos) as Hperm.
  { unfold Assign.assign_deadlines in Hch. destruct (omap _ _) in Hch; [done|]. apply assign_loop_perm in Hch. rewrite Hch, sort_perm.
    assert (forall n, concat (replicate n ([] : list SectorOnChainInfo)) = []) as -> by (intros n; by induction n). done. }
  rewrite <- (union_empty_l_L (numbers infos)), <- (numbers_concat ch) by done.
  eapply (assign_walk s psize v (deadlines s) Hps Hv' ch 0%nat ∅ (deadlines s)); [| | |done| |exact Hds].
  - unfold from_table. by rewrite Hperm.
  - by rewrite Hperm.
  - split_and!; [apply H|by rewrite union_empty_r_L|done].
  - rewrite (numbers_concat _ _ Hperm), union_empty_r_L. done.
Qed.

Lemma delete_precommits_once ns : forall m m' : gmap Z SectorPreCommitOnChainInfo,
  rfold (fun (m : gmap Z SectorPreCommitOnChainInfo) n =>
    match m !! n with
    | Some _ => Ok (delete n m)
    | None => bail_code USR_ILLEGAL_STATE
    end) m ns = Ok m' ->
  NoDup ns /\ (forall n, n ∈ ns -> is_Some (m !! n) /\ m' !! n = None) /\ forall n, m !! n = None -> m' !! n = None.
Proof.
  induction ns as [|n ns IH]; intros m m' H; cbn [rfold] in H.
  { injection H as <-. split_and!; [constructor|by intros ? ?%elem_of_nil|done]. }
  apply rbind_ok in H as (m1 & H1 & H). destruct (m !! n) as [pc|] eqn:E; [|done]. injection H1 as <-.
  destruct (IH _ _ H) as (A1 & A2 & A3). split_and!.
  - constructor; [|done]. intros Hn. destruct (A2 n Hn) as [[? Hx] _]. by rewrite lookup_delete_eq in Hx.
  - intros k [->|Hk]%elem_of_cons; [split; [by rewrite E|apply A3, lookup_delete_eq]|].
    destruct (A2 k Hk) as [[? Hx] ?]. apply lookup_delete_Some in Hx as [_ Hx]. split; [by eexists|done].
  - intros k Hk. apply A3. apply lookup_delete_None. by right.
Qed.

(** Fresh numbers become used. *)
Lemma used_gains s X s' : used s -> history s s' -> dls_sectors (deadlines s') ⊆ dls_sectors (deadlines s) ∪ X ->
  X ⊆ allocated_sectors s' -> (forall n, n ∈ X -> pre_committed_sectors s' !! n = None) -> used s'.
Proof.
  intros [Hu1 Hu2] [Ha Hp] Hs HX Hn. split; [clear -Hu1 Ha Hs HX; set_solver|].
  intros n [Hn1|Hn1]%Hs%elem_of_union; [|auto]. destruct (Hp n) as [E|E]; [set_solver|done|]. rewrite E. auto.
Qed.

Lemma activate_gains e b i pi ps data s tot s' :
  sector_size i = sector_size (info s) -> window_post_partition_sectors i = window_post_partition_sectors (info s) ->
  ledger s -> current_precommits ps s -> standing s -> used s ->
  activate_infos x e b i pi ps data s = Ok (tot, s') ->
  standing s' /\ used s' /\ active s' = active s /\ sized s s'.
Proof.
  intros Ez Ew L Hc H Hu Ha. destruct (activate_infos_books _ _ _ _ _ _ _ _ _ _ L Hc Ha) as (_ & Hh & _).
  unfold activate_infos in Ha. rewrite Ez, Ew in Ha. apply rbind_ok in Ha as (infos & Hla & Ha).
  apply dc_ok, new_infos_last in Hla; [|constructor]. apply rbind_ok in Ha as (s1 & H1 & Ha). apply dc_ok in H1. apply rbind_ok in Ha as (s2 & H2 & Ha). apply dc_ok in H2.
  apply rbind_ok in Ha as (s3 & H3 & Ha). apply dc_ok in H3. apply rbind_ok in Ha as (s4 & H4 & Ha). apply mc_ok, add_deposit_spec in H4 as [-> _].
  apply rbind_ok in Ha as (ub & _ & Ha). destruct (_ <? _); [done|]. apply rbind_ok in Ha as (s5 & H5 & Ha).
  apply mc_ok, add_pledge_spec in H5 as [-> _]. apply rbind_ok in Ha as (? & _ & Ha). injection Ha as <- <-.
  pose proof (put_sectors_same _ _ _ H1) as Hsame.
  assert (pre_committed_sectors s1 = pre_committed_sectors s /\ allocated_sectors s1 = allocated_sectors s) as [Epc Eal] by (split; apply Hsame).
  unfold St.delete_precommitted_sectors in H2. apply rbind_ok in H2 as (m & Hm & H2). injection H2 as <-.
  apply delete_precommits_once in Hm as (Hnd & Hin & Hno).
  assert (forall n, n ∈ numbers infos -> n ∈ sector_number <$> infos) as Hnum by (intros n; apply elem_of_from_bits).
  assert (numbers infos ## dls_sectors (deadlines s)) as Hdj.
  { intros n Hn Hn'. destruct (Hin n (Hnum n Hn)) as [[pc Hpc] _]. rewrite Epc in Hpc. by rewrite (proj2 Hu n Hn') in Hpc. }
  destruct (put_sectors_gains _ _ _ H1 Hla H Hdj) as [St1 _].
  unfold St.put_sectors in H1. apply rbind_ok in H1 as (all & Hs & H1). injection H1 as <-.
  apply store_spec in Hs as (_ & _ & Hf). specialize (Hf Hnd). set (s2 := St.set_precommits m (St.set_sectors all s)) in *.
  assert (standing s2) as St2 by (by apply (frame_moves p (St.set_sectors all s))).
  eapply (assign_gains e infos _ s2) in H3 as (ds & -> & Hw & Hs & Hp); [|apply H|done..].
  split_and!; [| |done|done].
  - constructor; [apply St2|exact Hw|apply St2..].
  - apply (used_gains s (numbers infos)); [done|done|done| |].
    + intros n Hn. destruct (Hin n (Hnum n Hn)) as [[pc Hpc] _]. by destruct (lg_numbers _ L n pc Hpc).
    + intros n Hn. by destruct (Hin n (Hnum n Hn)).
Qed.

Lemma assign_one_gains e infos psize idx s s' : 0 < psize -> 0 <= idx -> standing s ->
  from_table (st_sectors s) infos -> NoDup (sector_number <$> infos) -> numbers infos ## dls_sectors (deadlines s) ->
  St.assign_sectors_to_deadline p e infos psize (sector_size (info s)) idx s = Ok s' ->
  exists ds, s' = St.set_deadlines ds s /\ dls_gains s (deadlines s) (numbers infos) ds.
Proof.
  intros Hps Hi H Hf Hnd Hdj Ha. unfold St.assign_sectors_to_deadline in Ha. apply rbind_ok in Ha as (d & Hd & Ha).
  apply load_deadline_ok in Hd; [|done]. destruct (negb _); [done|].
  apply rbind_ok in Ha as ([[pw fee] d'] & Hadd & Ha). apply rbind_ok in Ha as (ds & Hu & Ha). injection Ha as <-. exists ds. split; [done|].
  unfold context_code in Hadd, Hu. destruct (DL.add_sectors _ _ _ _ _ _ _) as [r| |] eqn:Hadd' in Hadd; [|done..]. injection Hadd as ->.
  destruct (Deadlines.update_deadline _ _ _ _) as [ds1| |] eqn:Hu' in Hu; [|done..]. injection Hu as ->.
  pose proof (sort_perm infos) as Hperm.
  assert (numbers (sort_by_number infos) = numbers infos) as En.
  { apply set_eq. intros n. unfold numbers. rewrite !elem_of_from_bits. by rewrite Hperm. }
  rewrite <- En, <- (union_empty_l_L (numbers _)). rewrite <- (Z2Nat.id idx) in Hadd', Hu' by done.
  eapply (add_gains s (deadlines s) ∅ (deadlines s) (Z.to_nat idx) d psize (sort_by_number infos)) in Hu' as [Hg _];
    [exact Hg|done| |done| |by rewrite Hperm| |exact Hadd'].
  - split_and!; [apply H|by rewrite union_empty_r_L|done].
  - unfold from_table. by rewrite Hperm.
  - by rewrite En, union_empty_r_L.
Qed.

Lemma ni_gains e b i ns pledge idx infos s c fee s' :
  sector_size i = sector_size (info s) -> window_post_partition_sectors i = window_post_partition_sectors (info s) ->
  0 <= idx -> NoDup (sector_number <$> infos) -> numbers infos ⊆ ns -> Forall lasts infos ->
  ledger s -> standing s -> used s ->
  add_ni_sectors x e b i ns pledge idx infos s = Ok (c, fee, s') ->
  standing s' /\ used s' /\ active s' = active s /\ sized s s'.
Proof.
  intros Ez Ew Hi Hnd Hns Hla L H Hu Ha. destruct (add_ni_books _ _ _ _ _ _ _ _ _ _ _ _ L Ha) as (_ & Hh).
  unfold add_ni_sectors in Ha. rewrite Ez, Ew in Ha. apply rbind_ok in Ha as (av & _ & Ha). destruct (_ <? _); [done|]. cbn zeta in Ha.
  apply rbind_ok in Ha as (s1 & H1 & Ha). apply dc_ok, allocate_spec in H1 as [-> Hal]. specialize (Hal eq_refl).
  apply rbind_ok in Ha as (s2 & H2 & Ha). apply mc_ok in H2. set (s1 := St.set_allocated _ _) in *.
  assert (numbers infos ## dls_sectors (deadlines s)) as Hdj.
  { destruct Hu as [Hu _]. cbn in Hal. clear -Hu Hal Hns. set_solver. }
  assert (standing s1) as St1 by (by apply (frame_moves p s)).
  destruct (put_sectors_gains _ _ _ H2 Hla St1 Hdj) as [St2 _].
  unfold St.put_sectors in H2. apply rbind_ok in H2 as (all & Hs & H2). injection H2 as <-.
  apply store_spec in Hs as (_ & _ & Hf). specialize (Hf Hnd). set (s2 := St.set_sectors all s1) in *.
  apply rbind_ok in Ha as (s3 & H3 & Ha). apply dc_ok in H3.
  eapply (assign_one_gains e infos _ idx s2) in H3 as (ds & -> & Hw & Hs & Hp); [|apply H|done..].
  apply rbind_ok in Ha as (s4 & H4 & Ha). apply mc_ok, add_pledge_spec in H4 as [-> _].
  apply rbind_ok in Ha as ([fb s5] & H5 & Ha). apply dc_ok in H5. injection Ha as <- <- <-.
  unfold St.repay_debts in H5. apply rbind_ok in H5 as (ub & _ & H5). destruct (_ <? _); [done|]. injection H5 as <- <-.
  split_and!; [| |done|done].
  - constructor; [apply St2|exact Hw|apply St2..].
  - apply (used_gains s (numbers infos)); [done|done|done|cbn; clear -Hns; set_solver|].
    intros n Hn. cbn. destruct (pre_committed_sectors s !! n) as [pc|] eqn:E; [|done].
    destruct (lg_numbers _ L n pc E) as [_ Hn']. cbn in Hal. exfalso. by apply (Hal n Hn'), Hns.
Qed.
End transactions.
