(* ===== verification/MinerReplace.v ===== *)
(** * The miner actor: replaced sector infos

    Replica updates and extensions of expirations replace infos in the table of
    sectors and in the partitions.  The standing of the sectors is kept, and the
    power deltas are the changes of the power of the active sectors. *)

From S2P Require Import Prelude Runtime Collections MinerBase MinerQueues MinerPartition MinerDeadline MinerFunds MinerState MinerCalls MinerSectors MinerActor MinerEpochs MinerMoney MinerPlan MinerParts MinerDeadlines MinerStanding.

Import Miner.

(** The infos outside [X] stay. *)
Definition outside (X : BitField) (all all' : Infos) : Prop := forall n, n ∉ X -> all' !! n = all !! n.

Lemma outside_agree X all all' Y : outside X all all' -> Y ## X -> agree all all' Y.
Proof. intros H Hd n Hn. symmetry. apply H. set_solver. Qed.

Lemma outside_trans X Y all1 all2 all3 : outside X all1 all2 -> outside Y all2 all3 -> outside (X ∪ Y) all1 all3.
Proof. intros H1 H2 n Hn. rewrite H2, H1; [done|set_solver..]. Qed.

Section deadline.
Context (size : Z) (q : QuantSpec) (Hunit : 0 < unit_ q).
Implicit Types (all : Infos) (d : Deadline) (pt : Partition) (X : BitField).

(** What replaced infos add to the memoized values. *)
Definition replace_memo (power : PowerPair) (fee : Z) (m : Memo) : Z :=
  match m with MLiveRaw => raw power | MLiveQa => qa power | MFee => fee | _ => 0 end.

(** From [d] to [d'] the infos of [X] are replaced. *)
Definition replaces all off d X delta all' d' : Prop :=
  dl_off size q all' off d' /\ content d' = content d /\ X ⊆ dlive (partitions d) /\ outside X all all' /\
  active_of (partitions d') = pp_add (active_of (partitions d)) delta.

Lemma replace_parts_wf all all' ps i pt pt' X : parts_wf size q all ps -> ps !! i = Some pt ->
  part_ok size q all' pt' -> sectors pt' = sectors pt -> outside X all all' -> X ⊆ Part.live_sectors pt ->
  parts_wf size q all' (<[i := pt']> ps).
Proof.
  intros H Hi Hok Hs Ho HX. constructor.
  - intros j. rewrite count_insert by (by eexists). rewrite <- (ps_array _ _ _ _ H).
    destruct (decide (i = j)) as [->|Hne]; [|by rewrite lookup_insert_ne].
    rewrite lookup_insert_eq, Hi. split; by eexists.
  - intros j pj [[<- <-]|[Hne Hj]]%lookup_insert_Some; [done|]. destruct (ps_parts _ _ _ _ H j pj Hj) as [P HP]. exists P.
    eapply part_wf_agree; [done|exact HP|]. eapply outside_agree; [exact Ho|].
    intros n Hn1 Hn2. refine (ps_disj _ _ _ _ H i j pt pj Hne Hi Hj n _ _); apply live_sub; [by apply HX|done].
  - intros j k pj pk Hne [[<- <-]|[Hj1 Hj]]%lookup_insert_Some [[<- <-]|[Hk1 Hk]]%lookup_insert_Some; try done.
    + rewrite Hs. by apply (ps_disj _ _ _ _ H i k).
    + rewrite Hs. by apply (ps_disj _ _ _ _ H j i).
    + by apply (ps_disj _ _ _ _ H j k).
Qed.

Lemma map_sum_replace (f g : Partition -> Z) (ps : Parts) i pt pt' : ps !! i = Some pt ->
  (forall j pj, i <> j -> ps !! j = Some pj -> f pj = g pj) ->
  map_sum g (<[i := pt']> ps) = map_sum f ps - f pt + g pt'.
Proof.
  intros Hi Hfg. rewrite (map_sum_delete f i pt ps Hi), map_sum_insert, (map_sum_delete g i pt ps Hi).
  unfold lookup_sum. rewrite Hi. cbn.
  rewrite (map_sum_ext f g (delete i ps)); [lia|]. intros j pj [Hne Hj]%lookup_delete_Some. by apply (Hfg j).
Qed.

Lemma replace_dl all all' off d i pt old new delta pledge fee pt' :
  dl_off size q all off d -> partitions d !! i = Some pt ->
  from_table all old -> from_table all' new -> NoDup (sector_number <$> new) -> numbers new = numbers old ->
  outside (numbers old) all all' ->
  Part.replace_sectors size q old new pt = Ok (delta, pledge, fee, pt') ->
  replaces all (fun m => off m + replace_memo delta fee m) d (numbers old) delta all'
    (DL.set_partitions (<[i := pt']> (partitions d)) d).
Proof.
  intros H Hi Hf Hf' Hnd En Ho Ha. set (X := numbers old) in *.
  destruct (ps_parts _ _ _ _ (dw_parts _ _ _ _ _ H) i pt Hi) as [P HP].
  assert (agree all all' (Part.live_sectors pt ∖ X)) as Hag by (eapply outside_agree; [exact Ho|set_solver]).
  destruct (replace_sectors_wf size q Hunit all all' P pt old new delta pledge fee pt' HP Hf Hf' Hnd En Hag Ha)
    as (HXa & _ & _ & Efee & Es & Et & Ef & _ & _ & Ee & Efp & Elp & Eap & HP'). fold X in HXa, Efee.
  assert (X ⊆ Part.live_sectors pt) as HX.
  { unfold Part.active_sectors in HXa. clear -HXa. set_solver. }
  assert (Part.live_sectors pt' = Part.live_sectors pt) as EL by (unfold Part.live_sectors; by rewrite Es, Et).
  assert (forall j pj, i <> j -> partitions d !! j = Some pj -> agree all all' (Part.live_sectors pj)) as Hoth.
  { intros j pj Hne Hj. eapply outside_agree; [exact Ho|]. intros n Hn1 Hn2.
    refine (ps_disj _ _ _ _ (dw_parts _ _ _ _ _ H) i j pt pj Hne Hi Hj n _ _); apply live_sub; [by apply HX|done]. }
  split_and!; [constructor| | |done|].
  - eapply replace_parts_wf; [apply H|done|by eexists|done|exact Ho|exact HX].
  - intros m. cbn [partitions DL.set_partitions].
    rewrite (map_sum_replace (part_memo all m) (part_memo all' m) _ i pt) by
      (done || intros j pj Hne Hj; destruct m; cbn; try done; by apply fee_sum_agree, (Hoth j)).
    rewrite <- (dw_memo _ _ _ _ _ H m). destruct m; cbn; rewrite ?EL, ?Es, ?Elp, ?Efp; cbn; try lia.
    rewrite Efee. assert (Part.live_sectors pt = X ∪ Part.live_sectors pt ∖ X) as -> by (by apply union_difference_L).
    unfold fee_sum. rewrite !ssum_union by set_solver.
    fold (fee_sum all (Part.live_sectors pt ∖ X)) (fee_sum all' (Part.live_sectors pt ∖ X)).
    rewrite (fee_sum_agree all all') by done. lia.
  - intros j pj Hj' Hpj. cbn in Hj'. apply lookup_insert_Some in Hj' as [[<- <-]|[Hne Hj]]; [|by apply (dw_early _ _ _ _ _ H j pj)].
    rewrite Ee in Hpj. by apply (dw_early _ _ _ _ _ H i pt).
  - unfold content. cbn [partitions DL.set_partitions]. by rewrite (dsectors_update _ i pt), (dlive_update _ i pt).
  - intros n Hn. apply elem_of_dlive. exists i, pt. split; [done|]. by apply HX.
  - cbn [partitions DL.set_partitions]. rewrite (active_of_update _ i pt) by done. rewrite Eap.
    unfold pp_add, pp_sub. cbn. f_equal; lia.
Qed.

Lemma replaces_refl all off d : dl_off size q all off d -> replaces all off d ∅ pp_zero all d.
Proof. intros H. split_and!; [done|done|set_solver|done|by rewrite pp_add_zero]. Qed.

Lemma replaces_trans all off1 d X delta1 all1 d1 off2 Y delta2 all2 d2 :
  replaces all off1 d X delta1 all1 d1 -> replaces all1 off2 d1 Y delta2 all2 d2 ->
  replaces all off2 d (X ∪ Y) (pp_add delta1 delta2) all2 d2.
Proof.
  intros (A1 & A2 & A3 & A4 & A5) (B1 & B2 & B3 & B4 & B5). split_and!; [done|congruence| | |].
  - injection A2 as _ A2. rewrite A2 in B3. clear -A3 B3. set_solver.
  - by eapply outside_trans.
  - rewrite B5, A5. unfold pp_add. cbn. f_equal; lia.
Qed.

(** Other fields may change, and the memoized values be settled. *)
Lemma replaces_fields all off d X delta all' d1 off' d2 :
  replaces all off d X delta all' d1 -> partitions d2 = partitions d1 -> early_terminations d2 = early_terminations d1 ->
  (forall m, dl_memo m d2 + off' m = dl_memo m d1 + off m) -> replaces all off' d X delta all' d2.
Proof.
  intros (A1 & A2 & A3 & A4 & A5) Ep Ee Hm. split_and!; [|unfold content in *; by rewrite Ep|done|done|by rewrite Ep].
  constructor; [rewrite Ep; apply A1|intros m; rewrite Hm, Ep; apply A1|].
  intros i pt. rewrite Ep, Ee. apply A1.
Qed.
End deadline.

(** In the list of deadlines, no other deadline looks at these infos. *)
Lemma dls_moves_replace p size start all ds0 delta0 ds (i : nat) d X delta all' d' : calendar_ok p ->
  dls_moves p size start all ds0 delta0 ds -> ds !! i = Some d ->
  replaces size (quant_at p start (Z.of_nat i)) all (fun _ => 0) d X delta all' d' ->
  dls_moves p size start all' ds0 (pp_add delta0 delta) (<[i := d']> ds).
Proof.
  intros cal (Hw & Hs & Hp) Hi (R1 & R2 & R3 & R4 & R5). injection R2 as Es El. split_and!.
  - constructor.
    + intros j dj [(<- & <- & _)|[Hne Hj]]%list_lookup_insert_Some; [exact R1|].
      eapply dl_off_agree; [by apply quant_at_pos|by apply Hw|]. eapply outside_agree; [exact R4|].
      intros n Hn1 Hn2. apply (dls_disj _ _ _ _ _ Hw i j d dj Hne Hi Hj n); apply dlive_sub; [by apply R3|done].
    + intros j k dj dk Hne [(<- & <- & _)|[Hj1 Hj]]%list_lookup_insert_Some [(<- & <- & _)|[Hk1 Hk]]%list_lookup_insert_Some;
        [done|rewrite Es; by apply (dls_disj _ _ _ _ _ Hw i k)|rewrite Es; by apply (dls_disj _ _ _ _ _ Hw j i)
        |by apply (dls_disj _ _ _ _ _ Hw j k)].
    + rewrite length_insert. apply Hw.
  - assert (dls_sectors (<[i := d']> ds) ⊆ dls_sectors ds ∪ ∅) as H by (apply (dls_sectors_put ds i d d' ∅ Hi); rewrite Es; set_solver).
    clear -H Hs. set_solver.
  - rewrite (dls_power_insert ds i d d' delta), Hp by done. unfold pp_add. cbn. f_equal; lia.
Qed.

(** ** Extensions *)

Lemma same_numbers (l l' : list SectorOnChainInfo) : sector_number <$> l' = sector_number <$> l -> numbers l' = numbers l.
Proof. unfold numbers. by intros ->. Qed.

Section extension.
Context (x : Ext) (epoch : Z).
Notation p := (policy x).

Lemma extended_number supply size e spaces s s' :
  extend_sector_committment x epoch supply size e spaces s = Ok s' ->
  sector_number s' = sector_number s /\ lasts s'.
Proof.
  unfold extend_sector_committment. intros H. apply rbind_ok in H as (? & _ & H). apply rbind_ok in H as (s1 & H1 & H).
  apply rbind_ok in H as (q & Hq%power_lasts & H).
  assert (sector_number s1 = sector_number s) as E1.
  { clear H. destruct (Z.testbit _ _); unfold extend_simple_qap_sector, extend_non_simple_qap_sector in H1; [|by minv].
    apply rbind_ok in H1 as (dl & _ & H1). destruct (_ >? 0); by minv. }
  rewrite <- E1. unfold lasts. destruct (daily_fee s1 =? 0).
  - destruct (network_version x epoch >=? _); injection H as <-; (split; [reflexivity|cbn; lia]).
  - destruct (negb _); injection H as <-; (split; [reflexivity|cbn; lia]).
Qed.

Lemma extended_numbers supply size e spaces l : forall acc l',
  rfold (fun l s => let! s' := extend_sector_committment x epoch supply size e spaces s in Ok (l ++ [s'])) acc l = Ok l' ->
  Forall lasts acc -> sector_number <$> l' = (sector_number <$> acc) ++ (sector_number <$> l) /\ Forall lasts l'.
Proof.
  induction l as [|s l IH]; intros acc l' H Ha; cbn [rfold] in H; [injection H as <-; by rewrite app_nil_r|].
  apply rbind_ok in H as (l1 & H1 & H). apply rbind_ok in H1 as (s' & [Hn Hs]%extended_number & H1). injection H1 as <-.
  destruct (IH _ _ H) as [E Hl]; [apply Forall_app; by repeat constructor|]. split; [|done].
  rewrite E, fmap_app, <- (assoc_L (++)). cbn. by rewrite Hn.
Qed.

(** Infos are stored under their numbers and have a duration. *)
Definition listed (all : Infos) : Prop := table_ok all /\ lasting all.

Section deadline.
Context (size : Z) (q : QuantSpec) (Hunit : 0 < unit_ q).

Lemma extend_decl_replaces supply spaces all0 d power0 fee0 X0 all ps pledge e all' ps' power pledge' fee :
  listed all -> replaces size q all0 (replace_memo power0 fee0) d X0 power0 all (DL.set_partitions ps d) ->
  extend_decl x epoch supply size spaces q (all, ps, power0, pledge, fee0) e = Ok (all', ps', power, pledge', fee) ->
  listed all' /\ exists X, replaces size q all0 (replace_memo power fee) d X power all' (DL.set_partitions ps' d).
Proof.
  intros [Ht Htl] Hr H. unfold extend_decl in H. apply rbind_ok in H as (pt & Hp%ok_or_ok & H).
  apply rbind_ok in H as (old & Hold & H). apply load_sectors_spec in Hold as (En & Hf & Hnd & _); [|done].
  apply rbind_ok in H as (new & Hnew & H). apply extended_numbers in Hnew as [Hnew Hla]; [|constructor]. cbn in Hnew.
  apply rbind_ok in H as (all1 & Hst & H). pose proof (store_lasting _ _ _ Hst Hla Htl) as Hl1. apply store_spec in Hst as (Ho & Ht1 & Hf1).
  apply rbind_ok in H as ([[[dp dl] df] pt'] & Hrep & H). injection H as <- <- <- <- <-.
  assert (NoDup (sector_number <$> new)) as Hnd' by (by rewrite Hnew). rewrite (same_numbers _ _ Hnew) in Ho.
  split; [split; [by apply Ht1|done]|]. eexists. eapply replaces_trans; [exact Hr|].
  eapply (replaces_fields size q _ _ _ _ _ _ _ _ (DL.set_partitions (<[ee_partition e := pt']> ps) d)).
  - eapply (replace_dl size q Hunit all all1 _ (DL.set_partitions ps d) (ee_partition e) pt old new);
      [apply Hr|exact Hp|done|by apply Hf1|done|by apply same_numbers|exact Ho|exact Hrep].
  - done.
  - done.
  - intros []; cbn; lia.
Qed.

Lemma extend_deadline_replaces supply spaces decls all d all' power pledge d' :
  listed all -> dl_wf size q all d ->
  extend_deadline x epoch supply size spaces q decls all d = Ok (all', power, pledge, d') ->
  listed all' /\ exists X, replaces size q all (fun _ => 0) d X power all' d'.
Proof.
  intros Ht Hw H. unfold extend_deadline in H. apply rbind_ok in H as ([[[[all1 ps] pw] pl] fee] & H1 & H).
  apply rbind_ok in H as (d1 & Hq & H). injection H as <- <- <- <-.
  assert (listed all1 /\ exists X, replaces size q all (replace_memo pw fee) d X pw all1 (DL.set_partitions ps d)) as [Ht1 [X Hr]].
  { refine (rfold_ind _ (fun '(all1, ps, pw, _, fee) => listed all1 /\
      exists X, replaces size q all (replace_memo pw fee) d X pw all1 (DL.set_partitions ps d)) _ _ _ _ _ H1).
    - intros [[[[a0 ps0] pw0] pl0] fee0] e [[[[a2 ps2] pw2] pl2] fee2] [Ht0 [X0 Hr0]] Hs.
      by eapply extend_decl_replaces.
    - split; [done|]. exists ∅. apply (replaces_fields size q all (fun _ => 0) d ∅ pp_zero all d); [by apply replaces_refl|done|done|].
      intros []; cbn; lia. }
  split; [done|]. exists X.
  refine (rfold_ind _ (fun d1 => replaces size q all (fun _ => 0) d X pw all1 d1) _ _ _ _ _ Hq).
  - intros da e db Hda Hs. apply add_expiration_partitions_inv in Hs as [->|[q' ->]]; [done|].
    by eapply replaces_fields; [exact Hda|..]; [..|intros []].
  - eapply replaces_fields; [exact Hr|done|done|]. intros []; cbn; lia.
Qed.
End deadline.

Lemma first_occurrences_in l k : k ∈ first_occurrences l -> k ∈ l.
Proof.
  unfold first_occurrences. set (f := fun acc n => _). assert (forall acc, k ∈ foldl f acc l -> k ∈ acc ++ l) as Hg; [|apply Hg].
  induction l as [|n l IH]; intros acc Hk; cbn [foldl] in Hk; [by rewrite app_nil_r|]. apply IH in Hk. unfold f in Hk.
  case_bool_decide; rewrite ?elem_of_app, ?elem_of_cons in *; [tauto|]. rewrite elem_of_nil in Hk. tauto.
Qed.

Lemma extend_expirations_moves supply spaces exts s power pledge s' : calendar_ok p ->
  Forall (fun e => 0 <= ee_deadline e) exts ->
  extend_expirations x epoch supply spaces exts s = Ok (power, pledge, s') -> moves p s power s'.
Proof.
  intros cal Hz H HS. unfold extend_expirations in H. apply rbind_ok in H as ([[[all pw] pl] ds] & H & E). injection E as <- <- <-.
  assert (listed all /\ dls_moves p (sector_size (info s)) (proving_period_start s) all (deadlines s) pw ds) as [[Ht Htl] (M1 & M2 & M3)].
  { refine (rfold_ind_in _ (fun '(all, pw, _, ds) => listed all /\
      dls_moves p (sector_size (info s)) (proving_period_start s) all (deadlines s) pw ds) _ _ _ _ _ H).
    - intros [[[a0 pw0] pl0] ds0] idx [[[a1 pw1] pl1] ds1] Hin [Ht0 Hm0] Hs.
      assert (0 <= idx) as Hi.
      { apply first_occurrences_in, list_elem_of_fmap in Hin as (e & -> & He). rewrite Forall_forall in Hz. by apply Hz. }
      apply rbind_ok in Hs as (d & Hd & Hs). apply dc_ok, load_deadline_ok in Hd; [|done].
      apply rbind_ok in Hs as ([[[a2 dp] dl] d'] & He & Hs). apply dc_ok in He.
      apply rbind_ok in Hs as (ds2 & Hu & Hs). apply dc_ok, update_deadline_ok in Hu as [-> _]. injection Hs as <- <- <- <-.
      eapply extend_deadline_replaces in He as [Ht2 [X Hr]]; [|by apply quant_at_pos|done|].
      + split; [done|]. eapply dls_moves_replace; [done|exact Hm0|exact Hd|]. rewrite Z2Nat.id by done. exact Hr.
      + rewrite <- (Z2Nat.id idx) by done. by apply Hm0.
    - split; [split; apply HS|]. by apply dls_moves_refl, HS. }
  split_and!; [|done..]. constructor; [done|done|apply HS..|done].
Qed.
End extension.

(** ** Replica updates *)

(** The table with new infos. *)
Definition tab_add (infos : list SectorOnChainInfo) (all : Infos) : Infos :=
  foldl (fun m i => <[sector_number i := i]> m) all infos.

Lemma store_tab_add l : forall all all' : Infos, Sectors.store l all = Ok all' -> all' = tab_add l all.
Proof.
  induction l as [|i l IH]; intros all all' H; unfold Sectors.store in H; cbn [rfold] in H; [by injection H as <-|].
  apply rbind_ok in H as (m & H1 & H). destruct (_ >? _); [done|]. injection H1 as <-. by apply IH.
Qed.

Lemma tab_add_snoc l i all : tab_add (l ++ [i]) all = <[sector_number i := i]> (tab_add l all).
Proof. unfold tab_add. by rewrite foldl_app. Qed.

Lemma tab_add_app l l' all : tab_add (l ++ l') all = tab_add l' (tab_add l all).
Proof. apply foldl_app. Qed.

Lemma tab_add_other l n : forall all, n ∉ sector_number <$> l -> tab_add l all !! n = all !! n.
Proof.
  induction l as [|i l IH]; intros all Hn; [done|]. rewrite fmap_cons, not_elem_of_cons in Hn. destruct Hn.
  change (tab_add (i :: l) all) with (tab_add l (<[sector_number i := i]> all)). rewrite IH by done. by apply lookup_insert_ne.
Qed.

Lemma tab_add_ok l : forall all, table_ok all -> table_ok (tab_add l all).
Proof.
  induction l as [|i l IH]; intros all H; [done|]. apply IH. intros n j [[<- <-]|[_ Hj]]%lookup_insert_Some; auto.
Qed.

Lemma tab_add_lasting l : forall all, Forall lasts l -> lasting all -> lasting (tab_add l all).
Proof.
  induction l as [|i l IH]; intros all Hl H; [done|]. apply Forall_cons in Hl as [Hi Hl]. apply IH; [done|].
  intros n j [[_ <-]|[_ Hj]]%lookup_insert_Some; [done|by apply (H n)].
Qed.

Lemma ok_eq {E A} (a b : A) : @Ok E A a = Ok b -> a = b.
Proof. by intros [=]. Qed.

Section replicas.
Context (x : Ext) (epoch : Z).
Notation p := (policy x).

Notation num u := (sector_number (ui_sector_info u)).

Lemma updated_number size pi u info : update_existing_sector_info x epoch size pi u = Ok info ->
  sector_number info = num u /\ lasts info.
Proof.
  unfold update_existing_sector_info. intros H. apply rbind_ok in H as (pw & Hq%power_lasts & H).
  apply rbind_ok in H as (pl & _ & H). apply rbind_ok in H as (fee & _ & H). apply ok_eq in H as <-.
  split; [done|]. unfold lasts. cbn. lia.
Qed.

Section deadline.
Context (size : Z) (q : QuantSpec) (Hunit : 0 < unit_ q) (pi : NetworkPledgeInputs).

(** The step of [update_deadline_replicas]. *)
Definition replica_step : PowerPair * Z * Z * list SectorOnChainInfo * Parts -> ReplicaUpdateStateInputs ->
    MRes (PowerPair * Z * Z * list SectorOnChainInfo * Parts) :=
  fun '(power, pledge, fee, infos, ps) u =>
  let! info := update_existing_sector_info x epoch size pi u in
  let! pt := ok_or (ps !! ui_partition u) (Some USR_NOT_FOUND) in
  let! (dpower, dpledge, dfee, pt) :=
    context_code USR_ILLEGAL_STATE (Part.replace_sectors size q [ui_sector_info u] [info] pt) in
  Ok (pp_add power dpower, pledge + dpledge, fee + dfee, infos ++ [info], <[ui_partition u := pt]> ps).

Lemma replica_walk all d us : forall power pledge fee infos ps power' pledge' fee' infos' ps',
  NoDup (sector_number <$> infos ++ (ui_sector_info <$> us)) ->
  Forall (fun u => all !! num u = Some (ui_sector_info u)) us ->
  (exists X, replaces size q all (replace_memo power fee) d X power (tab_add infos all) (DL.set_partitions ps d)) ->
  rfold replica_step (power, pledge, fee, infos, ps) us = Ok (power', pledge', fee', infos', ps') -> Forall lasts infos ->
  sector_number <$> infos' = sector_number <$> infos ++ (ui_sector_info <$> us) /\ Forall lasts infos' /\
  exists X, replaces size q all (replace_memo power' fee') d X power' (tab_add infos' all) (DL.set_partitions ps' d).
Proof.
  induction us as [|u us IH]; intros power pledge fee infos ps power' pledge' fee' infos' ps' Hnd Hf [X HX] H Hla; cbn [rfold] in H.
  { injection H as <- <- <- <- <-. rewrite app_nil_r. eauto. }
  apply rbind_ok in H as ([[[[pw1 pl1] fe1] in1] ps1] & H1 & H). cbn [replica_step] in H1.
  apply rbind_ok in H1 as (info & Hinfo & H1). apply updated_number in Hinfo as [Hinfo Hli]. apply rbind_ok in H1 as (pt & Hpt%ok_or_ok & H1).
  apply rbind_ok in H1 as ([[[dp dl] df] pt'] & Hr & H1). injection H1 as <- <- <- <- <-.
  unfold context_code in Hr. destruct (Part.replace_sectors _ _ _ _ _) as [r| |] eqn:Hr'; [|done..]. injection Hr as ->.
  apply Forall_cons in Hf as [Hu Hf]. rewrite fmap_cons in Hnd.
  assert (num u ∉ sector_number <$> infos) as Hfresh.
  { rewrite fmap_app, fmap_cons in Hnd. apply NoDup_app in Hnd as (_ & Hnd & _). intros Hin. apply (Hnd _ Hin). left. }
  assert (sector_number <$> (infos ++ [info]) ++ (ui_sector_info <$> us) =
          sector_number <$> infos ++ ui_sector_info u :: (ui_sector_info <$> us)) as Enum.
  { rewrite !fmap_app, fmap_cons, <- (assoc_L (++)). cbn. by rewrite Hinfo. }
  apply IH in H as (E & Hres); [split; [by rewrite E, Enum|done]|by rewrite Enum|done| |apply Forall_app; by repeat constructor].
  rewrite tab_add_snoc. eexists. eapply replaces_trans; [exact HX|].
  eapply (replaces_fields size q _ _ _ _ _ _ _ _ (DL.set_partitions (<[ui_partition u := pt']> ps) d)).
  - eapply (replace_dl size q Hunit (tab_add infos all) _ _ (DL.set_partitions ps d) (ui_partition u) pt [ui_sector_info u] [info]);
      [apply HX|exact Hpt| | |apply NoDup_singleton|apply same_numbers; cbn; by rewrite Hinfo| |exact Hr'].
    + constructor; [|constructor]. by rewrite tab_add_other.
    + constructor; [|constructor]. apply lookup_insert_eq.
    + intros n Hn. apply lookup_insert_ne. intros <-. apply Hn. rewrite Hinfo. apply elem_of_from_bits. left.
  - done.
  - done.
  - intros []; cbn; lia.
Qed.

Lemma replicas_replaces all d us power pledge infos d' :
  dl_wf size q all d -> NoDup (sector_number <$> (ui_sector_info <$> us)) ->
  Forall (fun u => all !! num u = Some (ui_sector_info u)) us ->
  update_deadline_replicas x epoch size pi q us d = Ok (power, pledge, infos, d') ->
  sector_number <$> infos = sector_number <$> (ui_sector_info <$> us) /\ Forall lasts infos /\
  exists X, replaces size q all (fun _ => 0) d X power (tab_add infos all) d'.
Proof.
  intros Hw Hnd Hf H. unfold update_deadline_replicas in H. apply rbind_ok in H as ([[[[pw pl] fee] ins] ps] & H1 & H).
  injection H as <- <- <- <-. change (rfold replica_step (pp_zero, 0, 0, [], partitions d) us = Ok (pw, pl, fee, ins, ps)) in H1.
  eapply (replica_walk all d us pp_zero 0 0 [] (partitions d)) in H1 as (E & Hla & X & HX); [|done|done| |constructor].
  - split; [done|]. split; [done|]. exists X. eapply replaces_fields; [exact HX|done|done|]. intros []; cbn; lia.
  - exists ∅. apply (replaces_fields size q all (fun _ => 0) d ∅ pp_zero all d); [by apply replaces_refl|done|done|].
    intros []; cbn; lia.
Qed.
End deadline.

(** The step of [update_replica_states]. *)
Definition states_step size pi s : PowerPair * Z * list SectorOnChainInfo * list Deadline ->
    Z * list ReplicaUpdateStateInputs -> Res error (PowerPair * Z * list SectorOnChainInfo * list Deadline) :=
  fun '(power, pledge, infos, ds) '(idx, us) =>
  let! d := dc USR_ILLEGAL_STATE (Deadlines.load_deadline idx ds) in
  let quant := St.quant_spec_for_deadline p idx s in
  let! (dpower, dpledge, dinfos, d) :=
    dc USR_ILLEGAL_STATE (update_deadline_replicas x epoch size pi quant us d) in
  let! ds := mc USR_ILLEGAL_STATE (Deadlines.update_deadline p idx d ds) in
  Ok (pp_add power dpower, pledge + dpledge, infos ++ dinfos, ds).

(** The updates of a batch are of distinct sectors of the table. *)
Definition updates_ok (all : Infos) (us : list ReplicaUpdateStateInputs) : Prop :=
  NoDup (sector_number <$> (ui_sector_info <$> us)) /\
  Forall (fun u => all !! num u = Some (ui_sector_info u)) us.

Lemma states_walk size pi s all L : calendar_ok p ->
  Forall (fun iu => 0 <= iu.1) L -> forall power pledge infos ds power' pledge' infos' ds',
  NoDup (sector_number <$> infos ++ (ui_sector_info <$> concat L.*2)) ->
  Forall (fun u => all !! num u = Some (ui_sector_info u)) (concat L.*2) ->
  dls_moves p size (proving_period_start s) (tab_add infos all) (deadlines s) power ds ->
  rfold (states_step size pi s) (power, pledge, infos, ds) L = Ok (power', pledge', infos', ds') ->
  Forall lasts infos -> Forall lasts infos' /\ dls_moves p size (proving_period_start s) (tab_add infos' all) (deadlines s) power' ds'.
Proof.
  intros cal. induction 1 as [|[idx us] L Hidx _ IH]; intros power pledge infos ds power' pledge' infos' ds' Hnd Hf Hm H Hla; cbn [rfold] in H.
  { by injection H as <- <- <- <-. }
  apply rbind_ok in H as ([[[pw1 pl1] in1] ds1] & H1 & H). cbn [states_step] in H1. cbn in Hidx.
  apply rbind_ok in H1 as (d & Hd & H1). apply dc_ok, load_deadline_ok in Hd; [|done].
  apply rbind_ok in H1 as ([[[dp dl] di] d'] & Hr & H1). apply dc_ok in Hr.
  apply rbind_ok in H1 as (ds2 & Hu & H1). apply mc_ok, update_deadline_ok in Hu as [-> _]. injection H1 as <- <- <- <-.
  rewrite fmap_cons in Hnd, Hf. cbn [concat snd] in Hnd, Hf. apply Forall_app in Hf as [Hf1 Hf2].
  rewrite !fmap_app in Hnd. pose proof Hnd as (_ & Hnd1 & Hnd2)%NoDup_app. apply NoDup_app in Hnd2 as (Hnd2 & _ & _).
  eapply replicas_replaces in Hr as (En & Hli & X & HX); [|by apply quant_at_pos| |exact Hnd2|].
  - eapply IH; [|exact Hf2| |exact H|by apply Forall_app].
    + rewrite !fmap_app, En, <- (assoc_L (++)). done.
    + rewrite tab_add_app. eapply dls_moves_replace; [done|exact Hm|exact Hd|]. rewrite Z2Nat.id by done. exact HX.
  - rewrite <- (Z2Nat.id idx) by done. by apply Hm.
  - rewrite Forall_forall in Hf1 |- *. intros u Hin. rewrite tab_add_other; [by apply Hf1|].
    intros Hin'. apply (Hnd1 _ Hin'). apply elem_of_app. left. apply list_elem_of_fmap. exists (ui_sector_info u). split; [done|].
    apply list_elem_of_fmap. eauto.
Qed.

Lemma update_replicas_moves b pi m n s power pledge s' : calendar_ok p -> from_zero m ->
  updates_ok (st_sectors s) (concat (entries m).*2) ->
  update_replica_states x epoch b (sector_size (info s)) pi m n (st_sectors s) s = Ok (power, pledge, s') ->
  moves p s power s'.
Proof.
  intros cal Hz [Hnd Hf] H HS. unfold update_replica_states in H. apply rbind_ok in H as ([[[pw pl] ins] ds] & H1 & H).
  change (rfold (states_step (sector_size (info s)) pi s) (pp_zero, 0, [], deadlines s) (entries m) = Ok (pw, pl, ins, ds)) in H1.
  destruct (negb _); [done|]. apply rbind_ok in H as (all & Hst & H). apply dc_ok, store_tab_add in Hst as ->.
  apply rbind_ok in H as (? & _ & H). apply rbind_ok in H as (s1 & Hp & H). apply mc_ok, frame_pledge in Hp.
  apply rbind_ok in H as (? & _ & H). injection H as <- <- <-.
  eapply states_walk in H1 as (Hla & M1 & M2 & M3); [|done| |exact Hnd|exact Hf|by apply dls_moves_refl, HS|constructor].
  - revert HS. eapply moves_frame; [|exact Hp]. intros HS. split_and!; [|done..].
    constructor; [apply tab_add_ok, HS|exact M1|apply HS..|apply tab_add_lasting; [done|apply HS]].
  - apply Forall_forall. intros [k us] Hk%elem_of_entries. by eapply Hz.
Qed.
End replicas.
