(* ===== verification/MinerChain.v ===== *)
(** * The miner actor: solvency on the chain

    Every run of the miner on the chain keeps the ledger of MinerMoney.v, the
    history of the sector numbers, and a balance that covers the deposits, the
    locked funds and the pledges.

    Most methods end with a check of the balance against the state.  Two of
    them, the withdrawal and the repayment of debt, check it against the state
    their transaction left and not against the current one.  This is enough
    because the sends in between cannot raise what the balance must cover: a
    plain transfer runs no code but that of an EVM contract, which the dispatch
    confines to the exported methods, and the power actor does not call miners
    back.  [confined] says this of the environment. *)

From S2P Require Import Prelude Runtime Chain Batch Collections MinerBase MinerQueues MinerPartition MinerDeadline MinerFunds MinerState MinerCalls MinerSectors MinerActor MinerVesting MinerMoney.

Import Miner.

(** ** Relations on configurations and worlds *)

Definition steps (ok ok' : Z -> Prop) (o o' : option State) : Prop :=
  forall s, o = Some s -> ledger s -> exists s', o' = Some s' /\ ledger s' /\ history s s' /\
    (ok (reserved s) -> ok' (reserved s')).

(** The ledger and the solvency are kept. *)
Definition Rel (c c' : Conf State) : Prop :=
  steps (fun r => r <= c_balance c) (fun r => r <= c_balance c') (c_state c) (c_state c').

Lemma steps_refl (P : Z -> Prop) o : steps P P o o.
Proof. intros s -> L. exists s. by split; [|split; [|split; [apply history_refl|]]]. Qed.

Lemma steps_trans P1 P2 P3 o1 o2 o3 : steps P1 P2 o1 o2 -> steps P2 P3 o2 o3 -> steps P1 P3 o1 o3.
Proof.
  intros H1 H2 s Hs L. destruct (H1 s Hs L) as (s1 & Hs1 & L1 & Hi1 & Hr1).
  destruct (H2 s1 Hs1 L1) as (s2 & Hs2 & L2 & Hi2 & Hr2). exists s2.
  split; [done|]. split; [done|]. split; [by eapply history_trans|auto].
Qed.

(** A transaction that leaves the balances alone is a step. *)
Class WorldSame {Net} (WR : World Net State Param -> World Net State Param -> Prop) : Prop :=
  ws_same : forall w w' s s', w_state w = Some s -> w_state w' = Some s' -> same s s' ->
    w_balance w' = w_balance w -> WR w w'.

Section worlds.
Context {Net : Type}.
Notation World := (World Net State Param).

(** [keeps]: the ledger.  [solvent]: the ledger, and the solvency if there was.
    [settles]: the ledger, and solvency at the end. *)
Definition keeps (w w' : World) : Prop := steps (fun _ => True) (fun _ => True) (w_state w) (w_state w').
Definition solvent (w w' : World) : Prop :=
  steps (fun r => r <= w_balance w) (fun r => r <= w_balance w') (w_state w) (w_state w').
Definition settles (w w' : World) : Prop :=
  steps (fun _ => True) (fun r => r <= w_balance w') (w_state w) (w_state w').

#[export] Instance ledger_keeps_pre : WorldPre keeps.
Proof. split; [intros w w' E1 _ _; unfold keeps; rewrite E1; apply steps_refl|intros; by eapply steps_trans]. Qed.
#[export] Instance solvent_pre : WorldPre solvent.
Proof. split; [intros w w' E1 E2 _; unfold solvent; rewrite E1, E2; apply steps_refl|intros; by eapply steps_trans]. Qed.

#[export] Instance solvent_same : WorldSame solvent.
Proof.
  intros w w' s s' H1 H2 Hs Hb s0 Hs0 L. rewrite H1 in Hs0. injection Hs0 as <-. destruct (same_books _ _ Hs L).
  exists s'. rewrite (same_reserved _ _ Hs), Hb. done.
Qed.

Lemma steps_weaken (P1 P2 Q1 Q2 : Z -> Prop) o o' :
  ((forall r, P1 r -> P2 r) -> (forall r, Q1 r -> Q2 r) -> steps P2 Q1 o o' -> steps P1 Q2 o o').
Proof.
  intros H1 H2 H s Hs L. destruct (H s Hs L) as (s' & ? & ? & ? & Hr). exists s'. repeat (split; [done|]). auto.
Qed.

Lemma solvent_keeps w w' : solvent w w' -> keeps w w'.
Proof.
  intros H s Hs L. destruct (H s Hs L) as (s' & ? & ? & ? & _). by exists s'.
Qed.
Lemma settles_solvent w w' : settles w w' -> solvent w w'.
Proof. by apply steps_weaken. Qed.
End worlds.

(** ** Requests

    For any relation that contains the sends without value.  The updates of the
    claimed power are set apart; all other parameters are [plain]. *)

Definition plain (p : Param) : Prop := match p with PUpdateClaimedPower _ _ => False | _ => True end.

#[export] Hint Extern 0 (plain _) => exact I : quiet.

Section requests.
Context {Net : Type} (x : Ext) (env : Env Net State Param (list Z)) (ctx : Ctx).
Context (WR : World Net State Param -> World Net State Param -> Prop) `{!WorldPre WR}.
Context (Hs : forall req, plain (send_params req) -> send_value req = 0 -> quiet WR (send env req)).
Notation quiet := (@quiet Net State Param (list Z) _ WR).

Lemma quiet_call to m p : plain p -> quiet (call env to m p 0).
Proof. intros Hp. unfold call, send_simple. apply quiet_bind; [apply _|by apply Hs|intros]. apply quiet_lift, _. Qed.
Lemma quiet_call_unit to m p : plain p -> quiet (call_unit env to m p 0).
Proof. intros Hp. unfold call_unit. apply quiet_bind; [apply _|by apply quiet_call|intros]. apply quiet_ret, _. Qed.
Lemma quiet_current_balance : quiet (@current_balance Net State Param (list Z)).
Proof. intros w b w' H. run_inv. by apply wp_same. Qed.
#[local] Hint Resolve quiet_call quiet_call_unit quiet_current_balance Hs : quiet.

Lemma quiet_enroll e t : quiet (enroll_cron_event x env e t).
Proof. by apply quiet_call_unit. Qed.
Lemma quiet_pledge_changed d : quiet (notify_pledge_changed env d).
Proof. unfold notify_pledge_changed. quiet_tac. Qed.
Lemma quiet_terminate_deals e ns : quiet (request_terminate_deals env ctx e ns).
Proof. unfold request_terminate_deals, send_simple. quiet_tac. Qed.
Lemma quiet_verify_deals l : quiet (verify_deals x env l).
Proof. unfold verify_deals. quiet_tac. Qed.
Lemma quiet_block_reward : quiet (request_current_epoch_block_reward x env).
Proof. unfold request_current_epoch_block_reward. quiet_tac. Qed.
Lemma quiet_total_power : quiet (request_current_total_power x env).
Proof. unfold request_current_total_power. quiet_tac. Qed.
Lemma quiet_worker a : quiet (resolve_worker_address x env a).
Proof. unfold resolve_worker_address. quiet_tac. Qed.
Lemma quiet_try {A} c (r : MRes A) : quiet (@try Net A c r).
Proof. apply quiet_lift, _. Qed.
Lemma quiet_must {A} c (r : MRes A) : quiet (@must Net A c r).
Proof. apply quiet_lift, _. Qed.
Lemma quiet_control i : quiet (@validate_control Net ctx i).
Proof. apply quiet_caller_is, _. Qed.
#[local] Hint Resolve quiet_enroll quiet_pledge_changed quiet_terminate_deals
  quiet_verify_deals quiet_block_reward quiet_total_power quiet_worker quiet_try quiet_must
  quiet_control : quiet.

Lemma quiet_claims l : quiet (get_claims x env ctx l).
Proof. unfold get_claims. quiet_tac. Qed.
Lemma quiet_batch_claims l b : quiet (batch_claim_allocations x env l b).
Proof. unfold batch_claim_allocations. quiet_tac. Qed.
Lemma quiet_all_or_none b : quiet (@assert_all_or_none Net b).
Proof. unfold assert_all_or_none. quiet_tac. Qed.
Lemma quiet_send_notification a l : quiet (send_notification x env a l).
Proof. unfold send_notification. quiet_tac. Qed.
#[local] Hint Resolve quiet_claims quiet_batch_claims quiet_all_or_none quiet_send_notification : quiet.

Lemma quiet_activate_pieces l b : quiet (activate_sectors_pieces x env l b).
Proof. unfold activate_sectors_pieces. quiet_tac. Qed.
Lemma quiet_activate_deals l b : quiet (activate_sectors_deals x env l b).
Proof. unfold activate_sectors_deals. quiet_tac. Qed.
Lemma quiet_notify_consumers l b : quiet (notify_data_consumers x env l b).
Proof. unfold notify_data_consumers, notify_one. quiet_tac. Qed.
Lemma quiet_pledge_inputs : quiet (get_pledge_inputs x env ctx).
Proof. unfold get_pledge_inputs. quiet_tac. Qed.
Lemma quiet_start_cron b : quiet (start_cron x env ctx b).
Proof. unfold start_cron. quiet_tac. Qed.
Lemma quiet_must_resolve a : quiet (must_resolve env a).
Proof. unfold must_resolve. quiet_tac. Qed.
#[local] Hint Resolve quiet_must_resolve : quiet.
Lemma quiet_must_resolve_all l : quiet (must_resolve_all env l).
Proof. unfold must_resolve_all. quiet_tac. Qed.
Lemma quiet_validate_extensions l : quiet (validate_extension_declarations x env ctx l).
Proof. unfold validate_extension_declarations. quiet_tac. Qed.
Lemma quiet_restrict n : quiet (restrict_internal_api env ctx n).
Proof. intros w u w' ->%restrict_state. by apply wp_same. Qed.

(** Methods that only read. *)
Lemma quiet_view {A} (f : State -> A) : quiet (@view Net A f).
Proof. unfold view. quiet_tac. Qed.
Lemma quiet_is_controlling a : quiet (is_controlling_address env a).
Proof. unfold is_controlling_address. quiet_tac. Qed.
Lemma quiet_available_balance : quiet (@get_available_balance Net).
Proof. unfold get_available_balance. quiet_tac. Qed.
Lemma quiet_max_termination_fee p l : quiet (max_termination_fee x env p l).
Proof. unfold max_termination_fee. quiet_tac. Qed.
Lemma quiet_check_proven n : quiet (@check_sector_proven Net n).
Proof. unfold check_sector_proven. quiet_tac. Qed.
End requests.

(** Where all sends without value are steps. *)
Lemma quiet_update_power {Net} (env : Env Net State Param (list Z)) WR `{!WorldPre WR} d :
  (forall req, send_value req = 0 -> quiet WR (send env req)) -> quiet WR (request_update_power env d).
Proof. intros Hs. unfold request_update_power, call_unit, call, send_simple. quiet_tac. Qed.

#[export] Hint Resolve quiet_call quiet_call_unit quiet_current_balance quiet_enroll quiet_update_power
  quiet_pledge_changed quiet_terminate_deals quiet_verify_deals quiet_block_reward quiet_total_power
  quiet_worker quiet_try quiet_must quiet_control quiet_activate_pieces quiet_activate_deals quiet_notify_consumers
  quiet_pledge_inputs quiet_start_cron quiet_must_resolve quiet_must_resolve_all quiet_validate_extensions
  quiet_restrict quiet_view quiet_is_controlling quiet_available_balance quiet_max_termination_fee
  quiet_check_proven : quiet.

(** ** Administration

    For any relation that also contains the transactions that leave the balances
    alone. *)

Ltac pairs := repeat match goal with p : _ * _ |- _ => destruct p end.

Section administration.
Context {Net : Type} (x : Ext) (env : Env Net State Param (list Z)) (ctx : Ctx).
Context (WR : World Net State Param -> World Net State Param -> Prop) `{!WorldPre WR, !WorldSame WR}.
Context (Hs : forall req, plain (send_params req) -> send_value req = 0 -> quiet WR (send env req)).
Notation quiet := (@quiet Net State Param (list Z) _ WR).

Lemma txn_same {A} (f : State -> M Net State Param (list Z) (A * State)) :
  (forall s w a s' w1, f s w = Ok ((a, s'), w1) -> w_balance w1 = w_balance w /\ same s s') ->
  quiet (transaction_rt f).
Proof.
  intros Hf w a w' (s & s' & w1 & Hst & H & ->)%transaction_rt_ok. destruct (Hf _ _ _ _ _ H).
  by eapply ws_same.
Qed.

Lemma txn_pure_same {A} (f : State -> Res error (A * State)) :
  (forall s a s', f s = Ok (a, s') -> same s s') -> quiet (@transaction Net State Param (list Z) A f).
Proof.
  intros Hf w a w' (s & s' & Hst & H & ->)%transaction_ok. apply Hf in H. by eapply ws_same.
Qed.

Ltac same_tac :=
  apply txn_same; let H := fresh "H" in
  intros ? ? ? ? ? H; unfold validate_control, try, must in H; run_inv; code_inv; pairs.

Lemma quiet_change_worker a l : quiet (change_worker_address x env ctx a l).
Proof. unfold change_worker_address. quiet_tac. same_tac. done. Qed.
Lemma quiet_confirm_worker : quiet (@confirm_change_worker_address Net ctx).
Proof. unfold confirm_change_worker_address. same_tac. split; [done|apply pending_worker_same]. Qed.
Lemma quiet_change_owner a : quiet (@change_owner_address Net ctx a).
Proof. unfold change_owner_address. quiet_tac. same_tac. done. Qed.
Lemma quiet_change_peer a : quiet (@change_peer_id Net x ctx a).
Proof. unfold change_peer_id. quiet_tac. same_tac. done. Qed.
Lemma quiet_change_multi a : quiet (@change_multiaddresses Net x ctx a).
Proof. unfold change_multiaddresses. quiet_tac. same_tac. done. Qed.
Lemma quiet_change_beneficiary p : quiet (change_beneficiary env ctx p).
Proof. unfold change_beneficiary. quiet_tac. apply txn_pure_same. intros s u s' H. by minv. Qed.
End administration.

#[export] Hint Resolve quiet_change_worker quiet_confirm_worker quiet_change_owner quiet_change_peer
  quiet_change_multi quiet_change_beneficiary : quiet.

(** ** Operations that follow a read of the state

    Other actors may run between a read of the state and its use; the relation
    says how the state has moved on since: by [le], within the states that are
    [good]. *)

Class Follows {Net} (WR : World Net State Param -> World Net State Param -> Prop)
    (good : State -> Prop) (le : State -> State -> Prop) : Prop := {
  fo_refl : forall s, le s s;
  fo_trans : forall s1 s2 s3, le s1 s2 -> le s2 s3 -> le s1 s3;
  fo_step : forall w w' s, WR w w' -> w_state w = Some s -> good s ->
    exists s', w_state w' = Some s' /\ good s' /\ le s s';
  fo_good : forall w w', (forall s, w_state w = Some s -> good s -> WR w w') -> WR w w';
}.

(** Stored under its number in the state. *)
Definition stored (s : State) (p : SectorPreCommitOnChainInfo) : Prop :=
  exists n, pre_committed_sectors s !! n = Some p.

Lemma stored_current s s1 ps : ledger s -> history s s1 -> (forall p, p ∈ ps -> stored s p) -> current_precommits ps s1.
Proof.
  intros L [_ Hi] Hp p q Hin Hq. destruct (Hp p Hin) as [n Hn]. destruct (lg_numbers _ L _ _ Hn) as [<- Ha].
  destruct (Hi _ Ha); congruence.
Qed.

Lemma successes_in {E T} b (xs ys : list T) : @successes E T b xs = Ok ys -> forall y, y ∈ ys -> y ∈ xs.
Proof.
  unfold successes. destruct (Nat.eqb _ _); [|done]. intros [= <-] y. generalize 0%nat, (fail_codes b).
  induction xs as [|z xs IH]; intros i fs; cbn; [done|].
  destruct fs as [|f fs]; [|destruct (Nat.eqb i (idx f))]; rewrite ?elem_of_cons; naive_solver.
Qed.

Lemma get_precommits_stored ns s ps : St.get_precommitted_sectors ns s = Ok ps -> forall p, p ∈ ps -> stored s p.
Proof.
  unfold St.get_precommitted_sectors. intros H. revert H.
  eapply (rfold_inv _ (fun acc => forall p, p ∈ acc -> stored s p)); [by intros ? ?%elem_of_nil|].
  intros acc n acc' _ Ha H. minv. intros p [?| ->%list_elem_of_singleton]%elem_of_app; [auto|by eexists].
Qed.

Lemma verify_commit_in x ctx p ps b ins el proven pb : verify_commit_proofs x ctx p ps b ins el = Ok (proven, pb) ->
  forall a, a ∈ proven -> a ∈ el.
Proof.
  unfold verify_commit_proofs. destruct (pc3_sector_proofs p) as [|pr prs]; intros H.
  { minv. done. }
  apply rbind_ok in H as (vi & _ & H). apply rbind_ok in H as (vp & _ & H). apply rbind_ok in H as (res & _ & H).
  apply rbind_ok in H as ([pv g] & H1 & H). minv. revert H1.
  eapply (rfold_inv _ (fun acc : list _ * _ => forall a, a ∈ acc.1 -> a ∈ el)); [by intros ? ?%elem_of_nil|].
  intros [acc g0] [v ap] acc' Hin Ha H. apply elem_of_zip_r in Hin.
  destruct v; [|destruct (pc3_require_activation_success p)]; minv; try done. cbn.
  intros a [?| ->%list_elem_of_singleton]%elem_of_app; [by apply Ha|done].
Qed.

Lemma precommit_numbers x ctx l : forall ns ns', rfold (check_precommit x ctx) ns l = Ok ns' ->
  ns ⊆ ns' /\ forall p, p ∈ l -> pc_sector_number p ∈ ns'.
Proof.
  induction l as [|p l IH]; intros ns ns' H; cbn in H.
  { minv. split; [done|]. by intros ? ?%elem_of_nil. }
  apply rbind_ok in H as (ns1 & H1 & H). destruct (IH _ _ H) as [Hs Hl].
  assert (ns1 = ns ∪ {[pc_sector_number p]}) as -> by (unfold check_precommit in H1; cbn zeta in H1; by minv).
  split; [set_solver|]. intros q [->|Hq]%elem_of_cons; [set_solver|auto].
Qed.

Lemma built_infos x ctx i d l : forall acc built,
  rfold (fun acc '(p, c) => let! r := build_precommit x ctx i d p c in Ok (acc ++ [r])) acc l = Ok built ->
  forall r, r ∈ built -> r ∈ acc \/ exists c, (pc_info (fst r), c) ∈ l.
Proof.
  induction l as [|[p c] l IH]; intros acc built H r Hr; cbn in H; [minv; by left|].
  apply rbind_ok in H as (acc1 & H1 & H). apply rbind_ok in H1 as (r1 & H1 & [= <-]).
  destruct (IH _ _ H r Hr) as [[Ha| ->%list_elem_of_singleton]%elem_of_app|[c' Hc]].
  - by left.
  - right. exists c. unfold build_precommit in H1. cbn zeta in H1. minv; left.
  - right. exists c'. by right.
Qed.

Section following.
Context {Net : Type} (x : Ext) (env : Env Net State Param (list Z)) (ctx : Ctx).
Context (WR : World Net State Param -> World Net State Param -> Prop) (good : State -> Prop) (le : State -> State -> Prop).
Context `{!WorldPre WR, !Follows WR good le}.
Notation M := (M Net State Param (list Z)).
Notation World := (World Net State Param).

Definition since (s : State) (w : World) : Prop :=
  good s /\ exists s1, w_state w = Some s1 /\ good s1 /\ le s s1.

Definition from (s : State) {A} (m : M A) : Prop :=
  forall w a w', since s w -> m w = Ok (a, w') -> WR w w'.

Lemma from_quiet s {A} (m : M A) : quiet WR m -> from s m.
Proof. intros H w a w' _. apply H. Qed.

Lemma from_bind s {A B} (m : M A) (f : A -> M B) : from s m -> (forall a, from s (f a)) -> from s (bind m f).
Proof.
  intros Hm Hf w b w' Hw (a & w1 & H1 & H2)%bind_ok. pose proof (Hm _ _ _ Hw H1) as H. eapply wp_trans; [exact H|].
  eapply Hf; [|exact H2]. destruct Hw as (L & s1 & Hs1 & L1 & Hi). split; [done|].
  destruct (fo_step _ _ _ H Hs1 L1) as (s2 & ? & ? & ?). exists s2. split; [done|]. split; [done|by eapply fo_trans].
Qed.

Lemma from_lift s {A B} (r : Res error A) (f : A -> M B) :
  (forall a, r = Ok a -> from s (f a)) -> from s (bind (lift r) f).
Proof.
  intros Hf w b w' Hw (a & w1 & H1 & H2)%bind_ok. apply lift_ok in H1 as [H1 ->]. by eapply Hf.
Qed.

Lemma from_try s {A B} c (r : MRes A) (f : A -> M B) :
  (forall a, r = Ok a -> from s (f a)) -> from s (bind (try c r) f).
Proof. intros Hf. apply from_lift. intros a H%dc_ok. auto. Qed.

Lemma from_state {B} (f : State -> M B) : (forall s, from s (f s)) -> quiet WR (bind state f).
Proof.
  intros Hf w b w' (s & w1 & H1 & H2)%bind_ok. apply state_ok in H1 as [Hs ->]. apply fo_good. intros s0 Hs0 L.
  rewrite Hs in Hs0. injection Hs0 as <-. eapply Hf; [|exact H2]. split; [done|]. exists s.
  split; [done|]. split; [done|apply fo_refl].
Qed.

Context (Hs : forall req, plain (send_params req) -> send_value req = 0 -> quiet WR (send env req)).
Context (Ha : forall s ps data pi, (forall p, p ∈ ps -> stored s p) ->
  from s (activate_new_sector_infos x env ctx ps data pi (info s))).

Lemma prove_commit_from p : quiet WR (prove_commit_sectors3 x env ctx p).
Proof.
  unfold prove_commit_sectors3. apply from_state. intros s.
  apply from_bind; [apply from_quiet; quiet_tac|intros _]. apply from_try. intros ps Hps.
  apply from_bind; [apply from_quiet; quiet_tac|intros _].
  apply from_bind; [apply from_quiet; quiet_tac|intros [batch inputs]]. destruct (Nat.eqb _ _); [apply from_quiet; quiet_tac|].
  apply from_lift. intros vp Hvp. apply from_lift. intros va _. apply from_lift. intros [proven pb] Hv.
  destruct (Nat.eqb _ _); [apply from_quiet; quiet_tac|].
  apply from_bind; [apply from_quiet; quiet_tac|intros [db data]]. destruct (Nat.eqb _ _); [apply from_quiet; quiet_tac|].
  apply from_lift. intros ok Hok. apply from_bind; [apply from_quiet; quiet_tac|intros pi].
  apply from_bind; [|intros _; apply from_quiet; quiet_tac]. apply Ha.
  intros q (aq & -> & Hq)%list_elem_of_fmap. eapply successes_in in Hq; [|exact Hok].
  eapply verify_commit_in in Hq; [|exact Hv]. destruct aq as [a q]. apply elem_of_zip_r in Hq.
  eapply successes_in in Hq; [|exact Hvp]. by eapply get_precommits_stored.
Qed.

Lemma preseal_from p : quiet WR (internal_sector_setup_preseal x env ctx p).
Proof.
  unfold internal_sector_setup_preseal. apply quiet_bind; [apply _|quiet_tac|intros _]. apply from_state. intros s.
  apply from_bind; [apply from_quiet; quiet_tac|intros [b data]]. apply from_lift. intros ok Hok.
  apply Ha. intros q Hq. eapply successes_in in Hq; [|exact Hok].
  unfold St.find_precommitted_sectors in Hq. apply list_elem_of_omap in Hq as (n & _ & Hn). by exists n.
Qed.
End following.

(** ** Runs of operations *)

Section runs.
Context {Net : Type} (x : Ext) (env : Env Net State Param (list Z)) (ctx : Ctx).
Notation M := (M Net State Param (list Z)).
Notation World := (World Net State Param).

Context (Hsend : send_moves w_balance debited Rel env (ctx_epoch ctx)).

Lemma quiet_solvent_keeps {A} (m : M A) : quiet solvent m -> quiet keeps m.
Proof. intros H w a w' Hm. by eapply solvent_keeps, H. Qed.

Lemma send_keeps req : quiet keeps (send env req).
Proof. intros w r w' H. apply Hsend in H. intros s Hs L. destruct (H s Hs L) as (s' & ? & ? & ? & _). by exists s'. Qed.

Lemma send_solvent req : send_value req = 0 -> quiet solvent (send env req).
Proof.
  intros Hv w r w' H. apply Hsend in H. unfold Rel in H. cbn in H. unfold solvent.
  replace (w_balance w - debited req r) with (w_balance w) in H; [done|].
  unfold debited. rewrite Hv. destruct r as [rr|]; [destruct (is_success _)|]; lia.
Qed.

Lemma call_unit_keeps to m p v : quiet keeps (call_unit env to m p v).
Proof. unfold call_unit, call, send_simple. pose proof send_keeps. quiet_tac. Qed.
#[local] Hint Resolve send_solvent send_keeps call_unit_keeps : quiet.
Lemma burn_keeps n : quiet keeps (burn_funds env n).
Proof. unfold burn_funds. quiet_tac. Qed.
#[local] Hint Resolve burn_keeps : quiet.

(** ** Transactions *)

Lemma txn_keeps {A} (f : State -> M (A * State)) :
  (forall s w a s' w1, ledger s -> f s w = Ok ((a, s'), w1) -> ledger s' /\ history s s') ->
  quiet keeps (transaction_rt f).
Proof.
  intros Hf w a w' (s & s' & w1 & Hs & H & ->)%transaction_rt_ok s0 Hs0 L.
  rewrite Hs in Hs0. injection Hs0 as <-. destruct (Hf _ _ _ _ _ L H). by exists s'.
Qed.

Lemma txn_solvent {A} (f : State -> M (A * State)) :
  (forall s w a s' w1, ledger s -> f s w = Ok ((a, s'), w1) ->
     w_balance w1 = w_balance w /\ ledger s' /\ history s s' /\ (reserved s <= w_balance w -> reserved s' <= w_balance w)) ->
  quiet solvent (transaction_rt f).
Proof.
  intros Hf w a w' (s & s' & w1 & Hs & H & ->)%transaction_rt_ok s0 Hs0 L.
  rewrite Hs in Hs0. injection Hs0 as <-. destruct (Hf _ _ _ _ _ L H) as (E & ? & ? & ?). exists s'.
  cbn. by rewrite E.
Qed.

(** ** Operations that end with a check *)

Lemma settles_solvent_quiet {A} (m : M A) : quiet settles m -> quiet solvent m.
Proof. intros H w a w' Hm. by eapply settles_solvent, H. Qed.

Lemma settles_bind_l {A B} (m : M A) (f : A -> M B) :
  quiet keeps m -> (forall a, quiet settles (f a)) -> quiet settles (bind m f).
Proof.
  intros Hm Hf w b w' (a & w1 & H1 & H2)%bind_ok. eapply steps_trans; [by eapply Hm|by eapply Hf].
Qed.

Lemma settles_bind_r {A B} (m : M A) (f : A -> M B) :
  quiet settles m -> (forall a, quiet solvent (f a)) -> quiet settles (bind m f).
Proof.
  intros Hm Hf w b w' (a & w1 & H1 & H2)%bind_ok. eapply steps_trans; [by eapply Hm|by eapply Hf].
Qed.

Lemma settles_throw {A} c : quiet settles (@throw Net State Param (list Z) A c).
Proof. intros w a w' H. run_inv. Qed.

Lemma settles_check : quiet settles (@check_invariants Net).
Proof.
  intros w a w' H. unfold check_invariants, must in H. run_inv. code_inv. intros s0 Hs L.
  match goal with H : w_state _ = Some s0 |- _ => rewrite H in * end. simplify_eq.
  match goal with H : St.check_balance_invariants _ _ = Ok _ |- _ => apply check_invariants_spec in H end.
  eexists. split; [done|]. split; [done|]. split; [apply history_refl|]. done.
Qed.

(** ** Construction *)

Lemma constructor_solvent p : quiet solvent (constructor x env ctx p).
Proof.
  unfold constructor, calculate_create_miner_deposit. quiet_tac.
  intros w u w' [Hn ->]%create_ok s' Hs. congruence.
Qed.

Ltac same_tac :=
  apply txn_same; [apply _|let H := fresh "H" in
  intros ? ? ? ? ? H; unfold validate_control, try, must in H; run_inv; code_inv; pairs].

(** ** Sectors *)

Lemma compact_partitions_solvent d ps : quiet solvent (@compact_partitions Net x ctx d ps).
Proof. unfold compact_partitions. quiet_tac. same_tac. split; [done|]. by eapply compact_same. Qed.

Lemma compact_numbers_solvent b : quiet solvent (@compact_sector_numbers Net ctx b).
Proof.
  unfold compact_sector_numbers. quiet_tac. apply txn_solvent. intros s w a s' w1 L H.
  unfold validate_control, try in H. run_inv. code_inv.
  match goal with H : St.allocate_sector_numbers _ _ _ = Ok _ |- _ => apply allocate_books in H as [Hb ->] end.
  destruct (Hb L). done.
Qed.

Lemma declare_faults_solvent l : quiet solvent (declare_faults x env ctx l).
Proof. unfold declare_faults. quiet_tac. same_tac. split; [done|]. by eapply faults_same. Qed.

Lemma extend_solvent l : quiet solvent (extend_sector_expiration2 x env ctx l).
Proof. unfold extend_sector_expiration2. quiet_tac. same_tac. split; [done|]. by eapply extend_same. Qed.

Ltac settle :=
  repeat first
    [ apply settles_check
    | apply settles_throw
    | apply settles_bind_r; [apply settles_check|intros ?; quiet_tac]
    | apply settles_bind_l; [first [solve [apply quiet_solvent_keeps; quiet_tac] | solve [quiet_tac] | idtac]|intros ?]
    | match goal with |- quiet settles (match ?x with _ => _ end) => destruct x end ].

Lemma submit_post_solvent p : quiet solvent (submit_windowed_post x env ctx p).
Proof.
  apply settles_solvent_quiet. unfold submit_windowed_post. settle.
  apply quiet_solvent_keeps. same_tac. split; [done|]. by eapply submit_post_same.
Qed.

Ltac keeps_tac lem :=
  apply txn_keeps; let H := fresh "H" in let L := fresh "L" in
  intros ? ? ? ? ? L H; unfold validate_control, try, must in H; run_inv; code_inv; pairs; by eapply lem.

Lemma dispute_solvent d n : quiet solvent (dispute_windowed_post x env ctx d n).
Proof.
  apply settles_solvent_quiet. unfold dispute_windowed_post, send_simple. settle. keeps_tac dispute_books.
Qed.

Lemma early_terminations_keeps rew pwr : quiet keeps (process_early_terminations x env ctx rew pwr).
Proof.
  unfold process_early_terminations. quiet_tac. keeps_tac terminations_books.
Qed.
#[local] Hint Resolve early_terminations_keeps : quiet.

Lemma terminate_sectors_solvent l : quiet solvent (terminate_sectors x env ctx l).
Proof.
  apply settles_solvent_quiet. unfold terminate_sectors, schedule_early_termination_work.
  apply settles_bind_l; [apply quiet_solvent_keeps; quiet_tac|intros m].
  apply settles_bind_l; [apply quiet_solvent_keeps; same_tac; split; [done|by eapply terminate_same]|intros [e d]].
  settle.
Qed.

Lemma declare_recovered_solvent l : quiet solvent (declare_faults_recovered x env ctx l).
Proof.
  apply settles_solvent_quiet. unfold declare_faults_recovered. settle.
  apply txn_keeps. intros s w a' s' w1 L H. unfold repay_debts_or_abort, validate_control, try in H. run_inv. code_inv.
  match goal with H : St.repay_debts _ _ = Ok _ |- _ => destruct (repay_debts_books _ _ _ _ L H) as (L1 & Hi1 & _) end.
  match goal with H : declare_recoveries_in _ _ _ _ = Ok _ |- _ => apply recoveries_same, same_books in H; destruct (H L1) end.
  split; [done|by eapply history_trans].
Qed.

Lemma apply_rewards_solvent r p : quiet solvent (apply_rewards env ctx r p).
Proof. apply settles_solvent_quiet. unfold apply_rewards. settle. keeps_tac rewards_books. Qed.

Lemma report_fault_solvent h1 h2 h3 : quiet solvent (report_consensus_fault x env ctx h1 h2 h3).
Proof.
  apply settles_solvent_quiet. unfold report_consensus_fault, send_simple. settle. keeps_tac consensus_fault_books.
Qed.

Lemma proving_deadline_keeps rew pwr : quiet keeps (handle_proving_deadline x env ctx rew pwr).
Proof.
  unfold handle_proving_deadline, schedule_early_termination_work. quiet_tac.
  apply txn_keeps. intros s w a' s' w1 L H. run_inv. by eapply end_deadline_books.
Qed.
#[local] Hint Resolve proving_deadline_keeps : quiet.

Lemma cron_solvent p rew pwr : quiet solvent (on_deferred_cron_event x env ctx p rew pwr).
Proof.
  apply settles_solvent_quiet. unfold on_deferred_cron_event, schedule_early_termination_work. settle.
Qed.

(** ** Pre-commitment *)

Lemma settles_bind_try {A B} c (r : MRes A) (f : A -> M B) :
  (forall a, r = Ok a -> quiet settles (f a)) -> quiet settles (bind (try c r) f).
Proof.
  intros Hf w b w' (a & w1 & H1 & H2)%bind_ok. unfold try in H1. apply lift_ok in H1 as [H1 ->].
  apply dc_ok in H1. by eapply Hf.
Qed.

Lemma pre_commit_solvent l : quiet solvent (pre_commit_sector_batch2 x env ctx l).
Proof.
  apply settles_solvent_quiet. unfold pre_commit_sector_batch2. destruct l as [|p0 l]; [apply settles_throw|].
  set (ps := p0 :: l). apply settles_bind_try. intros ns Hns. settle.
  apply txn_keeps. intros s w a' s' w1 L H. unfold repay_debts_or_abort, validate_control, must, try in H. run_inv. code_inv.
  match goal with H : St.repay_debts _ _ = Ok _ |- _ => destruct (repay_debts_books _ _ _ _ L H) as (L1 & Hi1 & _) end.
  match goal with H : record_precommits _ _ _ _ _ _ = Ok _ |- _ => eapply record_precommits_books in H as (? & ? & _) end;
    [split; [done|by eapply history_trans]|done|].
  intros p (r & -> & Hr)%list_elem_of_fmap. eapply built_infos in Hr; [|eassumption].
  destruct Hr as [[]%elem_of_nil|[c Hc%elem_of_zip_l]]. by eapply precommit_numbers.
Qed.

Lemma prove_ni_solvent p : quiet solvent (prove_commit_sectors_ni x env ctx p).
Proof.
  apply settles_solvent_quiet. unfold prove_commit_sectors_ni. settle. keeps_tac add_ni_books.
Qed.

Lemma prove_replicas_solvent p : quiet solvent (prove_replica_updates3 x env ctx p).
Proof.
  unfold prove_replica_updates3. quiet_tac. apply txn_solvent. intros s w a' s' w1 L H. run_inv. pairs.
  match goal with H : update_replica_states _ _ _ _ _ _ _ _ _ = Ok _ |- _ => apply update_replicas_books in H as [Hb Hr] end.
  destruct (Hb L). done.
Qed.

(** ** Activation of pre-commits *)

#[local] Instance solvent_follows : Follows (@solvent Net) ledger history.
Proof.
  split; [apply history_refl|apply history_trans| |].
  - intros w w' s H Hs L. destruct (H s Hs L) as (s' & ? & ? & ? & _). by exists s'.
  - intros w w' H s Hs L. by apply (H s Hs L).
Qed.

Lemma activate_new_from s ps data pi i : (forall p, p ∈ ps -> stored s p) ->
  from (@solvent Net) ledger history s (activate_new_sector_infos x env ctx ps data pi i).
Proof.
  intros Hp. unfold activate_new_sector_infos. apply from_bind; [apply _..| |intros; apply from_quiet; quiet_tac].
  intros w tot w' (L & s1 & Hs1 & L1 & Hi) (s2 & s3 & w1 & Hs2 & H & ->)%transaction_rt_ok. run_inv.
  rewrite Hs1 in Hs2. injection Hs2 as <-. intros s0 Hs0 L0. rewrite Hs1 in Hs0. injection Hs0 as <-.
  destruct (activate_infos_books _ _ _ _ _ _ _ _ _ _ L1 (stored_current _ _ _ L Hi Hp) H) as (? & ? & ?).
  by exists s3.
Qed.

Lemma prove_commit_solvent p : quiet solvent (prove_commit_sectors3 x env ctx p).
Proof. eapply prove_commit_from; [apply _..|auto with quiet|intros; by apply activate_new_from]. Qed.

Lemma preseal_solvent p : quiet solvent (internal_sector_setup_preseal x env ctx p).
Proof. eapply preseal_from; [apply _..|auto with quiet|intros; by apply activate_new_from]. Qed.
End runs.

(** ** The exported methods

    They never raise what the balance must cover. *)

Definition lowers (o o' : option State) : Prop := forall k, steps (fun r => r <= k) (fun r => r <= k) o o'.
Definition RelE (c c' : Conf State) : Prop := lowers (c_state c) (c_state c').
Definition lower {Net} (w w' : World Net State Param) : Prop := lowers (w_state w) (w_state w').

#[export] Instance lower_pre {Net} : WorldPre (@lower Net).
Proof. split; [intros w w' E1 _ _ k; rewrite E1; apply steps_refl|intros w1 w2 w3 H1 H2 k; by eapply steps_trans]. Qed.

#[export] Instance lower_same {Net} : WorldSame (@lower Net).
Proof.
  intros w w' s s' H1 H2 Hs Hb k s0 Hs0 L. rewrite H1 in Hs0. injection Hs0 as <-. destruct (same_books _ _ Hs L).
  exists s'. rewrite (same_reserved _ _ Hs). done.
Qed.

Lemma lowers_reserved o o' s s' : lowers o o' -> o = Some s -> o' = Some s' -> ledger s -> reserved s' <= reserved s.
Proof. intros H Hs Hs' L. destruct (H (reserved s) s Hs L) as (s1 & Hs1 & _ & _ & Hr). rewrite Hs1 in Hs'. injection Hs' as <-. auto with lia. Qed.

(** The messages by their exported numbers. *)
Definition exported (x : Ext) (ctx : Ctx) (m : Msg) (o : option State) : Prop :=
  FIRST_EXPORTED_METHOD_NUMBER <= method_num x m.

Section exported.
Context {Net : Type} (x : Ext) (env : Env Net State Param (list Z)) (ctx : Ctx).
Context (Hsend : send_moves w_balance debited RelE env (ctx_epoch ctx)).

Lemma send_lower req : quiet lower (send env req).
Proof. intros w r w' H. by apply Hsend in H. Qed.
#[local] Hint Resolve send_lower : quiet.
Lemma call_unit_lower to m p v : quiet lower (call_unit env to m p v).
Proof. unfold call_unit, call, send_simple. quiet_tac. Qed.
#[local] Hint Resolve call_unit_lower : quiet.
Lemma burn_lower n : quiet lower (burn_funds env n).
Proof. unfold burn_funds. quiet_tac. Qed.
#[local] Hint Resolve burn_lower : quiet.

Lemma txn_lower {A} (f : State -> M Net State Param (list Z) (A * State)) :
  (forall s w a s' w1, ledger s -> f s w = Ok ((a, s'), w1) -> ledger s' /\ history s s' /\ reserved s' <= reserved s) ->
  quiet lower (transaction_rt f).
Proof.
  intros Hf w a w' (s & s' & w1 & Hs & H & ->)%transaction_rt_ok k s0 Hs0 L.
  rewrite Hs in Hs0. injection Hs0 as <-. destruct (Hf _ _ _ _ _ L H) as (? & ? & ?). exists s'.
  split; [done|]. split; [done|]. split; [done|lia].
Qed.

Lemma withdraw_lower n : quiet lower (withdraw_balance env ctx n).
Proof.
  unfold withdraw_balance. quiet_tac. apply txn_lower. intros s w a s' w1 L H. run_inv. by eapply withdrawal_books.
Qed.

Lemma repay_debt_lower : quiet lower (repay_debt env ctx).
Proof.
  unfold repay_debt. quiet_tac. apply txn_lower. intros s w a s' w1 L H. unfold validate_control, try in H. run_inv. code_inv.
  match goal with H : St.repay_partial_debt_in_priority_order _ _ _ = Ok _ |- _ =>
    destruct (repay_partial_books _ _ _ _ _ _ L H) as (? & ? & ? & ? & ? & ?) end.
  split; [done|]. split; [done|lia].
Qed.
#[local] Hint Resolve withdraw_lower repay_debt_lower : quiet.

Lemma exported_lower m : exported x ctx m None -> quiet lower (invoke_method x env ctx m).
Proof.
  intros He. unfold invoke_method, unit_ret. apply quiet_bind; [apply _|quiet_tac|intros _].
  destruct (negb _); [quiet_tac|].
  destruct m; try (exfalso; apply He; reflexivity); quiet_tac.
Qed.
End exported.

Notation value ctx := (ctx_value_received ctx).

(** Runs in which other actors reach only the exported methods. *)
Definition exported_chain {Net} (x : Ext) : Conf State -> Conf State -> Prop :=
  chain (fun env : Env Net State Param (list Z) => invoke_method x env) w_balance debited
    (fun ctx _ => value ctx) (exported x) (fun _ => True) deposited.

Lemma exported_chain_lower {Net} (x : Ext) c c' : @exported_chain Net x c c' -> RelE c c'.
Proof.
  apply chain_rel.
  - intros c1 k. apply steps_refl.
  - intros c1 c2 c3 H1 H2 k. by eapply steps_trans.
  - intros e e' s b _ k. apply steps_refl.
  - intros e s b v _ k. apply steps_refl.
  - intros env ctx msg w r w' _ Hs _ He H. eapply exported_lower in H; done.
Qed.

(** Transfers and calls to the power actor confine the other actors to them. *)
Definition confined {Net} (x : Ext) (env : Env Net State Param (list Z)) : Prop :=
  forall req w r w', send_method req = METHOD_SEND \/ to_addr req = STORAGE_POWER_ACTOR_ADDR ->
    send env req w = Ok (r, w') ->
    exists e b b', @exported_chain Net x (mkConf e (w_state w) b) (mkConf e (w_state w') b').

(** ** Withdrawals and repayments *)

Section stale.
Context {Net : Type} (x : Ext) (env : Env Net State Param (list Z)) (ctx : Ctx).
Context (Hsend : send_moves w_balance debited Rel env (ctx_epoch ctx)) (Hconf : confined x env).
Notation M := (M Net State Param (list Z)).

(** Kept, and not raised. *)
Definition drops (w w' : World Net State Param) : Prop := keeps w w' /\ lower w w'.

#[local] Instance drops_pre : WorldPre drops.
Proof.
  split; [intros; split; by apply wp_same|]. intros w1 w2 w3 [] []. split; by eapply wp_trans.
Qed.

Lemma confined_drops req : send_method req = METHOD_SEND \/ to_addr req = STORAGE_POWER_ACTOR_ADDR ->
  quiet drops (send env req).
Proof.
  intros Hr w r w' H. split; [by eapply send_keeps|].
  destruct (Hconf _ _ _ _ Hr H) as (e & b & b' & Hc%exported_chain_lower). done.
Qed.

Lemma transfer_drops to p v : quiet drops (call_unit env to METHOD_SEND p v).
Proof.
  unfold call_unit, call, send_simple. quiet_tac. apply confined_drops. by left.
Qed.
Lemma burn_drops n : quiet drops (burn_funds env n).
Proof. unfold burn_funds. pose proof transfer_drops. quiet_tac. Qed.
Lemma pledge_changed_drops d : quiet drops (notify_pledge_changed env d).
Proof. unfold notify_pledge_changed, call_unit, call, send_simple. quiet_tac. apply confined_drops. by right. Qed.

(** Operations that do not raise what the balance must cover and end with a
    check that it covers [n]. *)
Definition covers (n : Z) {A} (m : M A) : Prop :=
  forall w a w', m w = Ok (a, w') -> drops w w' /\ n <= w_balance w'.

Lemma covers_bind n {A B} (m : M A) (f : A -> M B) :
  quiet drops m -> (forall a, covers n (f a)) -> covers n (bind m f).
Proof.
  intros Hm Hf w b w' (a & w1 & H1 & H2)%bind_ok. destruct (Hf _ _ _ _ H2) as [Hd Hn]. split; [|done].
  eapply wp_trans; [by eapply Hm|done].
Qed.

Lemma covers_check s {B} c (r : B) :
  covers (reserved s) (let* b := current_balance in
                       let* _ := @must Net _ c (St.check_balance_invariants b s) in ret r).
Proof.
  intros w a w' H. unfold must in H. run_inv. code_inv. split; [by apply wp_same|]. by eapply check_invariants_spec.
Qed.

(** A transaction that returns the state it leaves, and operations that check it. *)
Lemma settles_stale {A B} (f : State -> M (A * State)) (rest : A -> M B) (st : A -> State) :
  (forall s w a s' w1, ledger s -> f s w = Ok ((a, s'), w1) -> st a = s' /\ ledger s' /\ history s s') ->
  (forall a, covers (reserved (st a)) (rest a)) -> quiet settles (bind (transaction_rt f) rest).
Proof.
  intros Hf Hk w r w' H s Hs L.
  apply bind_ok in H as (a & w1 & (s1 & s2 & w0 & Hs1 & H1 & ->)%transaction_rt_ok & H).
  rewrite Hs in Hs1. injection Hs1 as <-. destruct (Hf _ _ _ _ _ L H1) as (Ea & L2 & Hi2).
  destruct (Hk _ _ _ _ H) as [[Hk2 Hl2] Hb]. destruct (Hk2 s2 eq_refl L2) as (s3 & Hs3 & L3 & Hi3 & _).
  pose proof (lowers_reserved _ _ _ _ Hl2 eq_refl Hs3 L2) as Hr. rewrite Ea in Hb. exists s3.
  split; [done|]. split; [done|]. split; [by eapply history_trans|lia].
Qed.

Lemma withdraw_solvent n : quiet solvent (withdraw_balance env ctx n).
Proof.
  apply settles_solvent_quiet. unfold withdraw_balance. destruct (n <? 0); [apply settles_throw|].
  apply (settles_stale _ _ snd).
  - intros s w a s' w1 L H. run_inv. match goal with H : book_withdrawal _ _ _ _ = Ok _ |- _ =>
      destruct (withdrawal_books _ _ _ _ _ _ _ _ L H) as (? & ? & _) end. done.
  - intros [[[am nv] fee] s]. apply covers_bind; [pose proof transfer_drops; quiet_tac|intros _].
    apply covers_bind; [apply burn_drops|intros _]. apply covers_bind; [apply pledge_changed_drops|intros _].
    apply covers_check.
Qed.

Lemma repay_debt_solvent : quiet solvent (repay_debt env ctx).
Proof.
  apply settles_solvent_quiet. unfold repay_debt. apply (settles_stale _ _ snd).
  - intros s w a s' w1 L H. unfold validate_control, try in H. run_inv. code_inv.
    match goal with H : St.repay_partial_debt_in_priority_order _ _ _ = Ok _ |- _ =>
      destruct (repay_partial_books _ _ _ _ _ _ L H) as (? & ? & _) end. done.
  - intros [[bn tot] s]. apply covers_bind; [apply pledge_changed_drops|intros _].
    apply covers_bind; [apply burn_drops|intros _]. intros w a w' H. unfold must in H. run_inv. code_inv.
    split; [by apply wp_same|]. by eapply check_invariants_spec.
Qed.
End stale.

(** ** The dispatch *)

Section dispatch.
Context {Net : Type} (x : Ext) (env : Env Net State Param (list Z)) (ctx : Ctx).
Context (Hsend : send_moves w_balance debited Rel env (ctx_epoch ctx)) (Hconf : confined x env).

#[local] Hint Resolve send_solvent constructor_solvent compact_partitions_solvent compact_numbers_solvent
  declare_faults_solvent extend_solvent submit_post_solvent dispute_solvent terminate_sectors_solvent
  declare_recovered_solvent apply_rewards_solvent report_fault_solvent cron_solvent pre_commit_solvent
  prove_ni_solvent prove_replicas_solvent prove_commit_solvent preseal_solvent withdraw_solvent
  repay_debt_solvent : quiet.

Lemma invoke_solvent m : quiet solvent (invoke_method x env ctx m).
Proof.
  unfold invoke_method, unit_ret. apply quiet_bind; [apply _|quiet_tac|intros _].
  destruct (negb _); [quiet_tac|].
  destruct m; first [solve [eauto 3 with quiet typeclass_instances] |
    apply quiet_bind; [apply _|solve [eauto 3 with quiet typeclass_instances]|intros ?; apply quiet_ret, _]].
Qed.
End dispatch.

(** The runs of a miner whose other actors are confined on transfers. *)
Definition miner_chain {Net} (x : Ext) : Conf State -> Conf State -> Prop :=
  chain (fun env : Env Net State Param (list Z) => invoke_method x env) w_balance debited
    (fun ctx _ => value ctx) (fun _ _ _ => True) (confined x) deposited.

Lemma miner_chain_solvent {Net} (x : Ext) c c' : @miner_chain Net x c c' -> Rel c c'.
Proof.
  apply chain_rel.
  - intros c1. apply steps_refl.
  - intros c1 c2 c3 H1 H2. by eapply steps_trans.
  - intros e e' s b _. apply steps_refl.
  - intros e s b v Hv s0 Hs L. unfold deposited in Hv. exists s0. split; [done|]. split; [done|]. split; [apply history_refl|]. cbn. lia.
  - intros env ctx msg w r w' Hc Hs Hctx _ H. eapply invoke_solvent in H; [|done|done].
    eapply steps_weaken; [|intros ? Hr; exact Hr|exact H]. cbn. unfold ctx_ok in Hctx. bool_prop. lia.
Qed.
