(* ===== verification/MinerClaims.v ===== *)
(** * The miner actor: the power it claims

    Every run of the miner on the chain keeps the invariant of MinerStanding.v,
    and tells the power actor of every change: the power claimed with it minus
    the power of the active sectors never changes.

    The miner sends its deltas after the transactions that cause them, with
    other sends in between, and other actors may call it back at any send.  So
    the power owed to the claim, [k] in [owes k], is tracked through every
    operation: a transaction adds the delta it returns, the update of the claim
    takes it away, and every method is even at its end.

    Two methods act on a state they read before they called other actors.  The
    replica updates go on with the table of sectors they loaded, so the actors
    they call must not call back; [aloof] says this of the verified registry,
    the reward and the power actor.  The dispute of a window PoSt takes the
    infos of the sectors from the snapshot of the deadline's last end; its
    power delta is right only while the infos are still those of the table,
    [snapshot_agrees]. *)

From S2P Require Import Prelude Runtime Chain Batch Collections MinerBase MinerQueues MinerPartition MinerDeadline MinerFunds MinerState MinerCalls MinerSectors MinerActor MinerEpochs MinerVesting MinerMoney MinerPlan MinerParts MinerDeadlines MinerStanding MinerReplace MinerChain.

Import Miner.

(** ** Relations *)

Definition inv (x : Ext) (s : State) : Prop := ledger s /\ standing (policy x) s /\ used s.

(** What the state moves on by. *)
Definition later (s s' : State) : Prop := history s s' /\ sized s s'.

Lemma later_refl s : later s s.
Proof. split; [apply history_refl|done]. Qed.
Lemma later_trans s1 s2 s3 : later s1 s2 -> later s2 s3 -> later s1 s3.
Proof. intros [H1 [A1 B1]] [H2 [A2 B2]]. split; [by eapply history_trans|]. split; congruence. Qed.

(** A measure of power: raw or quality-adjusted. *)
Definition additive (pr : PowerPair -> Z) : Prop := forall a b, pr (pp_add a b) = pr a + pr b.

Lemma additive_zero pr : additive pr -> pr pp_zero = 0.
Proof. intros H. specialize (H pp_zero pp_zero). rewrite pp_add_zero in H. lia. Qed.

(** The invariant is kept; what is claimed in excess of the active power drops
    by [k]. *)
Definition tally (x : Ext) (pr : PowerPair -> Z) (k : Z) (o o' : option State) (b b' : Z) : Prop :=
  forall s, o = Some s -> inv x s -> exists s', o' = Some s' /\ inv x s' /\ later s s' /\
    b' - pr (active s') = b - pr (active s) - k.

Lemma tally_refl x pr o b : tally x pr 0 o o b b.
Proof. intros s -> I. exists s. split; [done|]. split; [done|]. split; [apply later_refl|lia]. Qed.

Lemma tally_trans x pr k1 k2 o1 o2 o3 b1 b2 b3 :
  tally x pr k1 o1 o2 b1 b2 -> tally x pr k2 o2 o3 b2 b3 -> tally x pr (k1 + k2) o1 o3 b1 b3.
Proof.
  intros H1 H2 s Hs I. destruct (H1 s Hs I) as (s1 & Hs1 & I1 & L1 & E1).
  destruct (H2 s1 Hs1 I1) as (s2 & Hs2 & I2 & L2 & E2). exists s2. split; [done|]. split; [done|].
  split; [by eapply later_trans|lia].
Qed.

(** ** Transactions that leave the sectors alone *)

Lemma frame_rewards c b r q s pl burn s' : book_rewards c b r q s = Ok (pl, burn, s') -> frame s s'.
Proof.
  intros H. unfold book_rewards in H. destruct (Monies.locked_reward_from_reward r) as [rl spec].
  apply rbind_ok in H as (u & _ & H). destruct (_ <? _); [discriminate|].
  apply rbind_ok in H as ([nv s1] & H1%mc_ok%frame_lock & H). apply rbind_ok in H as (s2 & H2%mc_ok%frame_penalty & H).
  apply rbind_ok in H as ([[bn tu] s3] & H3%dc_ok%frame_repay & H). injection H as _ _ <-.
  eauto using framed_trans.
Qed.

Lemma frame_consensus_fault x c b e pen sl s p1 p2 p3 s' :
  book_consensus_fault x c b e pen sl s = Ok (p1, p2, p3, s') -> frame s s'.
Proof.
  intros H. unfold book_consensus_fault in H. destruct (_ <? _); [discriminate|].
  apply rbind_ok in H as (s1 & H1%mc_ok%frame_penalty & H).
  apply rbind_ok in H as ([[bn tu] s2] & H2%dc_ok%frame_repay & H). injection H as _ _ _ <-.
  eapply framed_trans; [exact H1|]. eapply framed_trans; [exact H2|]. by repeat split.
Qed.

Lemma frame_withdrawal c b n s a v fee s' : book_withdrawal c b n s = Ok (a, v, fee, s') -> frame s s'.
Proof.
  intros H. unfold book_withdrawal in H. destruct (negb _); [discriminate|].
  apply rbind_ok in H as ([nv s1] & H1%dc_ok%frame_unlock & H). apply rbind_ok in H as (av & _ & H).
  apply rbind_ok in H as ([f s2] & H2%dc_ok%frame_repay_debts & H). cbn zeta in H. destruct (_ <? 0); [discriminate|].
  eapply framed_trans; [exact H1|]. eapply framed_trans; [exact H2|].
  destruct (negb _); [|by injection H as _ _ _ <-]. destruct (_ =? 0); [discriminate|]. injection H as _ _ _ <-.
  destruct (_ >? 0); by repeat split.
Qed.

Lemma frame_precommits x ns av infos evs s b s' : record_precommits x ns av infos evs s = Ok (b, s') -> frame s s'.
Proof.
  intros H. unfold record_precommits in H. cbn zeta in H. destruct (_ <? _); [discriminate|].
  apply rbind_ok in H as (s1 & H1%mc_ok%frame_deposit & H). apply rbind_ok in H as (s2 & H2%dc_ok%frame_allocate & H).
  apply rbind_ok in H as (s3 & H3%dc_ok%frame_put & H). apply rbind_ok in H as (s4 & H4%dc_ok%frame_clean_ups & H).
  injection H as _ <-. eapply framed_trans; [exact H1|]. eapply framed_trans; [exact H2|]. eapply framed_trans; [exact H3|].
  eapply framed_trans; [exact H4|]. by repeat split.
Qed.

Lemma change_owner_sizes b a i i' : change_owner b a i = Ok i' ->
  sector_size i' = sector_size i /\ window_post_partition_sectors i' = window_post_partition_sectors i.
Proof.
  intros H. unfold change_owner in H. apply rbind_ok in H as (i1 & H1 & H). injection H as <-.
  assert (sector_size i1 = sector_size i /\ window_post_partition_sectors i1 = window_post_partition_sectors i) as [E1 E2].
  { destruct b; [by injection H1 as <-|]. apply rbind_ok in H1 as (pe & _ & H1).
    destruct (negb _); [discriminate|by injection H1 as <-]. }
  by destruct (bool_decide _).
Qed.

Lemma change_beneficiary_sizes c a n prm i i' : change_beneficiary_info c a n prm i = Ok i' ->
  sector_size i' = sector_size i /\ window_post_partition_sectors i' = window_post_partition_sectors i.
Proof.
  intros H. unfold change_beneficiary_info in H. apply rbind_ok in H as (t & _ & H). cbn zeta in H.
  destruct (_ && _); by injection H as <-.
Qed.

(** ** Declarations *)

Lemma in_u64_nonneg n : in_u64 n = true -> 0 <= n.
Proof. unfold in_u64. intros. bool_prop. lia. Qed.

Lemma to_process_zero x l m : forallb declaration_decodes l = true -> to_process x l = Ok m -> from_zero m.
Proof.
  intros Hl H. unfold to_process in H. apply rbind_ok in H as (m' & H%mc_ok & H').
  apply rbind_ok in H' as (? & _ & [= <-]). rewrite forallb_forall in Hl. revert H.
  refine (rfold_ind_in _ from_zero _ _ _ _ _); [|intros k v; by rewrite lookup_empty].
  intros a d a' Hd Ha H. unfold SectorMap.add in H. destruct (_ >=? _); [discriminate|]. injection H as <-.
  intros k v Hk. apply lookup_insert_Some in Hk as [[<- _]|[_ Hk]]; [|by eapply Ha].
  apply list_elem_of_In, Hl in Hd. unfold declaration_decodes in Hd. bool_prop. by apply in_u64_nonneg.
Qed.

(** ** Batches of sectors *)

Lemma successes_sublist {E T} b (xs ys : list T) : @successes E T b xs = Ok ys -> ys `sublist_of` xs.
Proof.
  unfold successes. destruct (Nat.eqb _ _); [|done]. intros [= <-]. generalize 0%nat, (fail_codes b).
  induction xs as [|z xs IH]; intros i fs; cbn; [constructor|].
  destruct fs as [|f fs]; [|destruct (Nat.eqb i (idx f))]; by constructor.
Qed.

(** Non-interactive commitments are of distinct sectors. *)
Definition ni_step x ctx unsealed sp (b : bool) : BatchReturnGen * list SectorSealProofInput * BitField ->
    SectorNIActivationInfo -> MRes (BatchReturnGen * list SectorSealProofInput * BitField) :=
  fun '(g, inputs, numbers) s =>
  if bf_get numbers (ni_sector_number s) then bail_code USR_ILLEGAL_ARGUMENT
  else
    let! (input, valid) := validate_ni_sector x ctx unsealed sp s in
    if negb (valid : bool) && b then bail_code USR_ILLEGAL_ARGUMENT
    else Ok (if valid then add_success g else add_fail USR_ILLEGAL_ARGUMENT g, inputs ++ [input],
             numbers ∪ {[ni_sector_number s]}).

Lemma ni_walk x ctx u sp b l : forall g inp (X : BitField) g' inp' (ns : BitField),
  rfold (ni_step x ctx u sp b) (g, inp, X) l = Ok (g', inp', ns) ->
  X ⊆ ns /\ NoDup (ni_sector_number <$> l) /\
  forall s, s ∈ l -> ni_sector_number s ∈ ns /\ ni_sector_number s ∉ X.
Proof.
  induction l as [|s l IH]; intros g inp X g' inp' ns H.
  { injection H as _ _ ->. split; [done|]. split; [constructor|by intros ? ?%elem_of_nil]. }
  cbn [rfold] in H. apply rbind_ok in H as ([[g1 inp1] X1] & H1 & H). unfold ni_step in H1.
  destruct (bf_get X _) eqn:Eg; [discriminate|]. unfold bf_get in Eg. apply bool_decide_eq_false in Eg.
  apply rbind_ok in H1 as ([i v] & _ & H1). destruct (_ && _); [discriminate|]. injection H1 as <- <- <-.
  destruct (IH _ _ _ _ _ _ H) as (Hsub & Hnd & Hl). clear IH H. split; [set_solver|]. split.
  - cbn. apply NoDup_cons. split; [|done]. intros (s' & Es & Hs')%list_elem_of_fmap. destruct (Hl s' Hs') as [_ Hn].
    rewrite <- Es in Hn. set_solver.
  - intros s' [->|Hs']%elem_of_cons; [set_solver|]. destruct (Hl s' Hs'). set_solver.
Qed.

Lemma validate_ni_numbers x ctx ss sp b batch inputs ns : validate_ni_sectors x ctx ss sp b = Ok (batch, inputs, ns) ->
  NoDup (ni_sector_number <$> ss) /\ forall s, s ∈ ss -> ni_sector_number s ∈ ns.
Proof.
  intros H. unfold validate_ni_sectors in H. apply rbind_ok in H as (u & _ & H).
  destruct ss as [|s0 ss]; [minv; split; [constructor|by intros ? ?%elem_of_nil]|].
  apply rbind_ok in H as ([[g inp] ns'] & H & H'). apply rbind_ok in H' as (b' & _ & [= _ _ ->]).
  change (rfold (ni_step x ctx u sp b) (new_gen (length (s0 :: ss)), [], ∅) (s0 :: ss) = Ok (g, inp, ns)) in H.
  apply ni_walk in H as (_ & Hnd & Hl). split; [done|]. intros s Hs. by apply Hl.
Qed.

(** Valid updates are of distinct sectors. *)
Lemma successes_ok {T} i cs (u : T) l :
  successes_from i (fails_from (S i) cs) (u :: l) = u :: successes_from (S i) (fails_from (S i) cs) l.
Proof.
  pose proof (proj2 (fails_from_sorted cs (S i))) as Hf. cbn. destruct (fails_from (S i) cs) as [|f fs]; [done|].
  apply Forall_cons in Hf as [Hf _]. by rewrite (proj2 (Nat.eqb_neq _ _)) by lia.
Qed.

(** The valid non-interactive commitments are of sectors that last. *)
Lemma ni_sector_lasts x ctx u sp s i : validate_ni_sector x ctx u sp s = Ok (i, true) -> ctx_epoch ctx < ni_expiration s.
Proof.
  unfold validate_ni_sector. intros H. destruct (_ >=? _); [discriminate|]. apply rbind_ok in H as (r & _ & H).
  injection H as _ H. bool_prop. unfold validate_expiration in *. destruct (_ <=? _) eqn:E; [done|]. bool_prop. lia.
Qed.

Lemma ni_valid_walk x ctx u sp b l : forall g inp (X : BitField) g' inp' (ns : BitField),
  rfold (ni_step x ctx u sp b) (g, inp, X) l = Ok (g', inp', ns) ->
  exists cs, length cs = length l /\ g' = foldl (fun g c => gen_add c g) g cs /\
    forall i, Forall (fun s => ctx_epoch ctx < ni_expiration s) (successes_from i (fails_from i cs) l).
Proof.
  induction l as [|s l IH]; intros g inp X g' inp' ns H.
  { injection H as <- _ _. exists []. split; [done|]. split; [done|]. constructor. }
  cbn [rfold] in H. apply rbind_ok in H as ([[g1 inp1] X1] & H1 & H). unfold ni_step in H1.
  destruct (bf_get X _); [discriminate|]. apply rbind_ok in H1 as ([i v] & Hv & H1).
  destruct (_ && _); [discriminate|]. injection H1 as <- <- <-.
  destruct (IH _ _ _ _ _ _ H) as (cs & Hl & -> & Hc). destruct v.
  - exists (EC_OK :: cs). split; [cbn; by rewrite Hl|]. split; [done|]. intros k. cbn [fails_from is_success].
    rewrite successes_ok. constructor; [by eapply ni_sector_lasts|apply Hc].
  - exists (USR_ILLEGAL_ARGUMENT :: cs). split; [cbn; by rewrite Hl|]. split; [done|]. intros k.
    cbn. rewrite Nat.eqb_refl. apply Hc.
Qed.

Lemma validate_ni_last x ctx ss sp b batch inputs ns valid : validate_ni_sectors x ctx ss sp b = Ok (batch, inputs, ns) ->
  @successes error _ batch ss = Ok valid -> Forall (fun s => ctx_epoch ctx < ni_expiration s) valid.
Proof.
  intros H Hs. destruct ss as [|s0 ss]; [apply successes_sublist, sublist_nil_r in Hs as ->; constructor|].
  unfold validate_ni_sectors in H. apply rbind_ok in H as (u & _ & H).
  apply rbind_ok in H as ([[g inp] ns'] & H & H'). apply rbind_ok in H' as (b' & Hg & [= -> _ _]).
  change (rfold (ni_step x ctx u sp b) (new_gen (length (s0 :: ss)), [], ∅) (s0 :: ss) = Ok (g, inp, ns')) in H.
  destruct (ni_valid_walk _ _ _ _ _ _ _ _ _ _ _ _ H) as (cs & Hl & -> & Hc).
  pose proof (@of_encode (option ExitCode) cs) as He. unfold batch_of in He. rewrite Hl, Hg in He. injection He as ->.
  unfold successes in Hs. destruct (Nat.eqb _ _); [|discriminate]. injection Hs as <-. apply (Hc 0%nat).
Qed.

Notation upd_num u := (sum_sector (fst (fst u))).

Definition validate_step x epoch s t (b : bool) : BatchReturnGen * list Z -> SectorUpdateManifest * bytes * SectorOnChainInfo ->
    MRes (BatchReturnGen * list Z) :=
  fun '(g, seen) '(u, proof, info) =>
  match validate_update x epoch s t u proof seen info with
  | Ok _ => Ok (add_success g, seen ++ [sum_sector u])
  | Err e => if b then Err e else Ok (add_fail USR_ILLEGAL_ARGUMENT g, seen ++ [sum_sector u])
  | Panic => Panic
  end.

Lemma validate_walk x epoch s t b l : forall g seen g' seen',
  rfold (validate_step x epoch s t b) (g, seen) l = Ok (g', seen') ->
  exists cs, length cs = length l /\ g' = foldl (fun g c => gen_add c g) g cs /\
    forall i, NoDup ((fun u => upd_num u) <$> successes_from i (fails_from i cs) l) /\
      forall u, u ∈ successes_from i (fails_from i cs) l -> upd_num u ∉ seen.
Proof.
  induction l as [|[[u pf] info] l IH]; intros g seen g' seen' H.
  { injection H as <- _. exists []. split; [done|]. split; [done|]. intros i. split; [constructor|by intros ? ?%elem_of_nil]. }
  cbn [rfold] in H. apply rbind_ok in H as ([g1 seen1] & H1 & H). unfold validate_step in H1.
  destruct (validate_update _ _ _ _ _ _ _ _) as [[]|e|] eqn:E; [| |discriminate].
  - injection H1 as <- <-. destruct (IH _ _ _ _ H) as (cs & Hl & -> & Hc). exists (EC_OK :: cs).
    split; [cbn; by rewrite Hl|]. split; [done|]. intros i. cbn [fails_from is_success]. rewrite successes_ok.
    destruct (Hc (S i)) as [Hnd Hin]. assert (sum_sector u ∉ seen) as Hu.
    { unfold validate_update in E. destruct (bool_decide _) eqn:Eb; [discriminate|]. by apply bool_decide_eq_false in Eb. }
    split.
    + cbn. apply NoDup_cons. split; [|done]. intros (v & Ev & Hv)%list_elem_of_fmap. apply Hin in Hv. set_solver.
    + intros v [->|Hv]%elem_of_cons; [done|]. apply Hin in Hv. set_solver.
  - destruct b; [discriminate|]. injection H1 as <- <-. destruct (IH _ _ _ _ H) as (cs & Hl & -> & Hc).
    exists (USR_ILLEGAL_ARGUMENT :: cs). split; [cbn; by rewrite Hl|]. split; [done|]. intros i.
    destruct (Hc (S i)) as [Hnd Hin]. cbn. rewrite Nat.eqb_refl. split; [done|]. intros v Hv%Hin. set_solver.
Qed.

Lemma validate_updates_once x epoch s t l b batch valid : validate_replica_updates x epoch s t l b = Ok batch ->
  @successes error _ batch l = Ok valid -> NoDup ((fun u => upd_num u) <$> valid).
Proof.
  intros H Hs. unfold validate_replica_updates in H. change (rbind (rfold (validate_step x epoch s t b) (new_gen (length l), []) l)
    (fun '(g, _) => generate g) = Ok batch) in H.
  apply rbind_ok in H as ([g seen] & H & Hg). destruct (validate_walk _ _ _ _ _ _ _ _ _ _ H) as (cs & Hl & -> & Hc).
  pose proof (@of_encode (option ExitCode) cs) as He. unfold batch_of in He. rewrite Hl in He. rewrite Hg in He. injection He as ->.
  unfold successes in Hs. destruct (Nat.eqb _ _); [|discriminate]. injection Hs as <-. apply (Hc 0%nat).
Qed.

Section replicas.
Context (all : Infos).

(** A manifest with the info of its sector. *)
Definition matches (ui : SectorUpdateManifest * SectorOnChainInfo) : Prop := all !! sum_sector ui.1 = Some ui.2.

Lemma loaded_infos l infos :
  rfold (fun acc u => let! info := Sectors.must_get (sum_sector u) all in Ok (acc ++ [info])) [] l = Ok infos ->
  forall ui, ui ∈ zip l infos -> matches ui.
Proof.
  intros H. cut (forall acc done, Forall matches (zip done acc) -> length done = length acc ->
    rfold (fun acc u => let! info := Sectors.must_get (sum_sector u) all in Ok (acc ++ [info])) acc l = Ok infos ->
    Forall matches (zip (done ++ l) infos)); [intros Hc; apply Forall_forall; by apply (Hc [] [])|].
  clear H. induction l as [|u l IH]; intros acc done Hd Hl H; [injection H as <-; by rewrite app_nil_r|].
  cbn [rfold] in H. apply rbind_ok in H as (acc1 & H1 & H). apply rbind_ok in H1 as (i & Hi & [= <-]).
  rewrite (app_assoc done [u] l : done ++ u :: l = (done ++ [u]) ++ l). apply (IH (acc ++ [i])); [|rewrite !length_app; cbn; lia|done].
  rewrite zip_with_app by done. apply Forall_app. split; [done|]. cbn. constructor; [|constructor].
  unfold Sectors.must_get, Sectors.get in Hi. unfold matches. cbn. by destruct (all !! sum_sector u); [injection Hi as ->|].
Qed.

Lemma verify_updates_sublist x b t n valid proven batch :
  verify_update_proofs x b t n valid = Ok (proven, batch) ->
  proven `sublist_of` ((fun v => (v.1.1, v.2)) <$> valid).
Proof.
  intros H. unfold verify_update_proofs in H. apply rbind_ok in H as ([pv g] & H & H').
  assert (pv = proven) as -> by (destruct pv; [discriminate|]; apply rbind_ok in H' as (b' & _ & H'); destruct (Nat.eqb _ _);
    [discriminate|by injection H' as <- _]).
  clear H'. match type of H with rfold ?f _ _ = _ => set (step := f) in * end.
  cut (forall acc g0, rfold step (acc, g0) valid = Ok (proven, g) -> exists l,
    proven = acc ++ l /\ l `sublist_of` ((fun v => (v.1.1, v.2)) <$> valid)).
  { intros Hc. by destruct (Hc _ _ H) as (l & -> & Hl). }
  clear H. induction valid as [|[[u pf] i] valid IH]; intros acc g0 H; [injection H as <- _; exists []; by rewrite app_nil_r|].
  cbn [rfold] in H. apply rbind_ok in H as ([acc1 g1] & H1 & H). unfold step in H1.
  apply rbind_ok in H1 as (cd & _ & H1). apply rbind_ok in H1 as (cid & _ & H1).
  destruct (IH _ _ H) as (l & -> & Hl).
  destruct (verify_replica_update _ _); [injection H1 as <- _|destruct b; [discriminate|injection H1 as <- _]].
  - exists ((u, i) :: l). split; [by rewrite <- app_assoc|]. by constructor.
  - exists l. split; [done|]. by constructor.
Qed.

Notation entry := (SectorUpdateManifest * SectorOnChainInfo * DataActivationOutput)%type.

Definition input_of (e : entry) : ReplicaUpdateStateInputs :=
  let '(u, info, d) := e in
  mkUpdateInputs (sum_partition u) info (sum_new_sealed_cid u) (unverified_space d) (verified_space d).

Definition gathered (m : gmap Z (list ReplicaUpdateStateInputs)) : list ReplicaUpdateStateInputs :=
  concat (entries m).*2.

Lemma gathered_add m k (l : list ReplicaUpdateStateInputs) u : l = default [] (m !! k) ->
  gathered (<[k := l ++ [u]]> m) ≡ₚ gathered m ++ [u].
Proof.
  intros ->. unfold gathered. rewrite !entries_perm. destruct (m !! k) as [l|] eqn:E; cbn.
  - rewrite <- (insert_delete_id m k l E) at 2. rewrite <- (insert_delete_eq m k (l ++ [u])).
    rewrite !map_to_list_insert by apply lookup_delete_eq. cbn. rewrite <- !app_assoc. apply Permutation_app_head, Permutation_app_comm.
  - rewrite map_to_list_insert by done. cbn. apply Permutation_cons_append.
Qed.

Lemma group_gathered l : gathered (group_updates l) ≡ₚ input_of <$> l.
Proof.
  unfold group_updates. match goal with |- gathered (foldl ?f _ _) ≡ₚ _ => set (add := f) end.
  cut (forall m, gathered (foldl add m l) ≡ₚ gathered m ++ (input_of <$> l)); [intros Hc; apply Hc|].
  induction l as [|[[u i] d] l IH]; intros m; [by rewrite app_nil_r|].
  cbn [foldl]. rewrite IH. unfold add at 1. rewrite gathered_add by done. by rewrite <- app_assoc.
Qed.

Lemma group_zero l : Forall (fun e : entry => 0 <= sum_deadline e.1.1) l -> from_zero (group_updates l).
Proof.
  unfold group_updates. assert (from_zero (∅ : gmap Z (list ReplicaUpdateStateInputs))) as H by (intros k v; by rewrite lookup_empty).
  revert H. generalize (∅ : gmap Z (list ReplicaUpdateStateInputs)).
  induction l as [|[[u i] d] l IH]; intros m Hm Hl; [done|]. apply Forall_cons in Hl as [Hu Hl]. cbn. apply IH; [|done].
  intros k v [[<- _]|[_ Hk]]%lookup_insert_Some; [done|by eapply Hm].
Qed.

Lemma group_updates_ok (l : list entry) : table_ok all -> NoDup ((fun e : entry => sum_sector e.1.1) <$> l) ->
  Forall (fun e : entry => matches e.1) l -> updates_ok all (gathered (group_updates l)).
Proof.
  intros Ht Hnd Hl. unfold updates_ok. rewrite group_gathered. rewrite Forall_forall in Hl.
  assert (forall e : entry, e ∈ l -> sector_number (ui_sector_info (input_of e)) = sum_sector e.1.1) as Hn.
  { intros [[u i] d] He. apply Hl in He. by apply Ht in He. }
  split.
  - rewrite <- !list_fmap_compose. erewrite list_fmap_ext; [exact Hnd|]. intros k e He. cbn. apply Hn. by eapply list_elem_of_lookup_2.
  - apply Forall_fmap, Forall_forall. intros e He. cbn. rewrite Hn by done. apply Hl in He. by destruct e as [[u i] d].
Qed.

Lemma unproved_pairs {A B C} (pf : nat -> C) (l : list (A * B)) :
  (fun v => (v.1.1, v.2)) <$> imap (fun k ui => (fst ui, pf k, snd ui)) l = l.
Proof.
  apply list_eq. intros k. rewrite list_lookup_fmap, list_lookup_imap. by destruct (l !! k) as [[]|].
Qed.

Lemma paired_sublist {A B} (l : list A) (data : list B) : (zip_with pair l data).*1 `sublist_of` l.
Proof.
  revert data. induction l as [|a l IH]; intros [|d data]; cbn; [done|constructor; apply sublist_nil_l|apply sublist_nil_l|].
  constructor. apply IH.
Qed.

(** The updates that reach the deadlines. *)
Lemma replica_inputs (l : list SectorUpdateManifest) infos pf valid proven ok (data : list DataActivationOutput) :
  table_ok all -> Forall (fun u => 0 <= sum_deadline u) l -> (forall ui, ui ∈ zip l infos -> matches ui) ->
  NoDup ((fun u => upd_num u) <$> valid) ->
  valid `sublist_of` imap (fun k ui => (fst ui, pf k, snd ui)) (zip l infos) ->
  proven `sublist_of` ((fun v : _ * bytes * _ => (v.1.1, v.2)) <$> valid) -> ok `sublist_of` proven ->
  let m := group_updates (zip_with (fun ui d => (fst ui, snd ui, d)) ok data) in
  from_zero m /\ updates_ok all (gathered m).
Proof.
  intros Ht Hd Hm Hnd Hv Hp Hok m.
  replace m with (group_updates (zip_with pair ok data)) by (unfold m; f_equal; by apply zip_with_ext; [intros [] ?| |]).
  assert ((zip_with pair ok data).*1 `sublist_of` ((fun v : _ * bytes * _ => (v.1.1, v.2)) <$> valid)) as Hs.
  { etrans; [apply paired_sublist|]. by etrans. }
  assert (forall e, e ∈ zip_with pair ok data -> e.1 ∈ zip l infos) as Hin.
  { intros e He. eapply elem_of_sublist; [by apply list_elem_of_fmap_2, He|]. etrans; [exact Hs|].
    rewrite <- (unproved_pairs pf (zip l infos)). by apply fmap_sublist. }
  split.
  - apply group_zero, Forall_forall. intros e He%Hin. rewrite Forall_forall in Hd. apply Hd.
    destruct e as [[u i] d]. by apply elem_of_zip_l in He.
  - apply group_updates_ok; [done| |apply Forall_forall; auto].
    eapply sublist_NoDup; [exact Hnd|]. apply (fmap_sublist (fun ui => sum_sector ui.1)) in Hs.
    by rewrite <- !list_fmap_compose in Hs.
Qed.
End replicas.

(** ** What a send adds to the claim *)

Definition update_of (req : SendReq Param) : PowerPair :=
  match send_params req with
  | PUpdateClaimedPower r q =>
      if bool_decide (to_addr req = STORAGE_POWER_ACTOR_ADDR) && (send_method req =? UPDATE_CLAIMED_POWER_METHOD)
      then mkPP r q else pp_zero
  | _ => pp_zero
  end.

Definition claim_cost (pr : PowerPair -> Z) (req : SendReq Param) (res : Response (list Z) + ErrorNumber) : Z :=
  match res with
  | inl r => if is_success (resp_code r) then - pr (update_of req) else 0
  | inr _ => 0
  end.

Definition steady (v : Z) : Prop := v = 0.

(** Actors that do not call the miner back. *)
Definition aloof_actor (a : Address) : Prop :=
  a = VERIFIED_REGISTRY_ACTOR_ADDR \/ a = REWARD_ACTOR_ADDR \/ a = STORAGE_POWER_ACTOR_ADDR.

Definition aloof {Net} (env : Env Net State Param (list Z)) : Prop :=
  forall req w r w', aloof_actor (to_addr req) -> send env req w = Ok (r, w') -> w_state w' = w_state w.

Section claims.
Context {Net : Type} (x : Ext) (cal : calendar_ok (policy x)).
Context (pr : PowerPair -> Z) (Hpr : additive pr) (claim : Net -> PowerPair).
Notation M := (M Net State Param (list Z)).
Notation World := (World Net State Param).
Notation p := (policy x).

Definition claimed (w : World) : Z := pr (claim (w_net w)).
Definition owes (k : Z) (w w' : World) : Prop := tally x pr k (w_state w) (w_state w') (claimed w) (claimed w').
Definition RelP (c c' : Conf State) : Prop := tally x pr 0 (c_state c) (c_state c') (c_balance c) (c_balance c').

#[local] Instance owes_pre : WorldPre (owes 0).
Proof.
  split.
  - intros w w' E1 _ E2. unfold owes, claimed. rewrite E1, E2. apply tally_refl.
  - intros w1 w2 w3 H1 H2. eapply (tally_trans _ _ 0 0); eassumption.
Qed.

#[local] Instance owes_follows : Follows (owes 0) (inv x) later.
Proof.
  split; [apply later_refl|apply later_trans| |].
  - intros w w' s H Hs I. destruct (H s Hs I) as (s' & ? & ? & ? & _). by exists s'.
  - intros w w' H s Hs I. by apply (H s Hs I).
Qed.

Lemma owes_bind_l k {A B} (m : M A) (f : A -> M B) :
  quiet (owes 0) m -> (forall a, quiet (owes k) (f a)) -> quiet (owes k) (bind m f).
Proof.
  intros Hm Hf w b w' (a & w1 & H1 & H2)%bind_ok. eapply (tally_trans _ _ 0 k); [by eapply Hm|by eapply Hf].
Qed.
Lemma owes_bind_r k {A B} (m : M A) (f : A -> M B) :
  quiet (owes k) m -> (forall a, quiet (owes 0) (f a)) -> quiet (owes k) (bind m f).
Proof.
  intros Hm Hf w b w' (a & w1 & H1 & H2)%bind_ok. replace k with (k + 0) by lia.
  eapply tally_trans; [by eapply Hm|by eapply Hf].
Qed.
Lemma owes_bind_lift k {A B} (r : Res error A) (f : A -> M B) :
  (forall a, r = Ok a -> quiet (owes k) (f a)) -> quiet (owes k) (bind (lift r) f).
Proof. intros Hf w b w' (a & w1 & [H1 ->]%lift_ok & H2)%bind_ok. by eapply Hf. Qed.
Lemma owes_bind_try k {A B} c (r : MRes A) (f : A -> M B) :
  (forall a, r = Ok a -> quiet (owes k) (f a)) -> quiet (owes k) (bind (try c r) f).
Proof. intros Hf. apply owes_bind_lift. intros a H%dc_ok. by apply Hf. Qed.
Lemma owes_throw k {A} c : quiet (owes k) (@throw Net State Param (list Z) A c).
Proof. intros w a w' H. run_inv. Qed.

(** ** Transactions *)

(** A transaction keeps the invariant and adds [k] to the active power. *)
Definition counts (s : State) (k : Z) (s' : State) : Prop :=
  inv x s -> inv x s' /\ later s s' /\ pr (active s') = pr (active s) + k.

Lemma counts_moves s delta s' : books s s' -> moves p s delta s' -> counts s (pr delta) s'.
Proof.
  intros Hb Hm (L & S & U). destruct (Hb L) as [L' Hi]. destruct (Hm S) as (S' & E & Hsub & Hz).
  split; [|split; [done|by rewrite E, Hpr]]. split; [done|]. split; [done|by eapply used_next].
Qed.

Lemma counts_frame s s' : books s s' -> frame s s' -> counts s 0 s'.
Proof. intros Hb Hf. rewrite <- (additive_zero pr Hpr). by apply counts_moves; [|apply frame_moves]. Qed.

Lemma owes_counts (w w' : World) s s' k : w_state w = Some s -> w_state w' = Some s' -> w_net w' = w_net w ->
  counts s k s' -> owes k w w'.
Proof.
  intros Hs Hs' Hn Hc s0 Hs0 I. rewrite Hs in Hs0. injection Hs0 as <-. destruct (Hc I) as (I' & L & E).
  exists s'. split; [done|]. split; [done|]. split; [done|]. unfold claimed. rewrite Hn. lia.
Qed.

Lemma txn_owes {A} (f : State -> M (A * State)) :
  (forall s w a s' w1, f s w = Ok ((a, s'), w1) -> w_net w1 = w_net w /\ counts s 0 s') ->
  quiet (owes 0) (transaction_rt f).
Proof.
  intros Hf w a w' (s & s' & w1 & Hs & H & ->)%transaction_rt_ok. destruct (Hf _ _ _ _ _ H). by eapply owes_counts.
Qed.

(** A transaction and the operations that report its delta. *)
Lemma txn_owes_bind {A B} (f : State -> M (A * State)) (delta : A -> PowerPair) (rest : A -> M B) :
  (forall s w a s' w1, f s w = Ok ((a, s'), w1) -> w_net w1 = w_net w /\ counts s (pr (delta a)) s') ->
  (forall a, quiet (owes (- pr (delta a))) (rest a)) -> quiet (owes 0) (bind (transaction_rt f) rest).
Proof.
  intros Hf Hr w b w' (a & w1 & (s & s' & w2 & Hs & H & ->)%transaction_rt_ok & H2)%bind_ok.
  destruct (Hf _ _ _ _ _ H) as [En Hc]. replace 0 with (pr (delta a) + - pr (delta a)) by lia.
  eapply tally_trans; [|by eapply Hr]. by apply (owes_counts w (mkWorld _ _ _ _ _ _) s s').
Qed.

(** ** Requests *)

Section runs.
Context (env : Env Net State Param (list Z)) (ctx : Ctx).
Context (Hsend : send_moves claimed (claim_cost pr) RelP env (ctx_epoch ctx)).

Lemma send_owes req : plain (send_params req) -> quiet (owes 0) (send env req).
Proof.
  intros Hp w r w' H. apply Hsend in H. unfold RelP in H. cbn in H.
  replace (claim_cost pr req r) with 0 in H; [by rewrite Z.sub_0_r in H|].
  unfold claim_cost, update_of. destruct r as [r|]; [|done]. destruct (is_success _); [|done].
  destruct (send_params req); try done; rewrite (additive_zero pr Hpr); done.
Qed.
Lemma send0_owes req : plain (send_params req) -> send_value req = 0 -> quiet (owes 0) (send env req).
Proof. intros Hp _. by apply send_owes. Qed.
#[local] Hint Resolve send0_owes send_owes : quiet.

Lemma call_unit_owes to m q v : plain q -> quiet (owes 0) (call_unit env to m q v).
Proof. intros Hp. unfold call_unit, call, send_simple. quiet_tac. Qed.
#[local] Hint Resolve call_unit_owes : quiet.
Lemma burn_owes n : quiet (owes 0) (burn_funds env n).
Proof. unfold burn_funds. quiet_tac. Qed.
Lemma check_owes : quiet (owes 0) (@check_invariants Net).
Proof. unfold check_invariants. quiet_tac. Qed.
#[local] Hint Resolve burn_owes check_owes : quiet.

Lemma update_power_owes delta : quiet (owes (- pr delta)) (request_update_power env delta).
Proof.
  unfold request_update_power. destruct (pp_is_zero delta) eqn:E.
  - assert (delta = pp_zero) as ->.
    { unfold pp_is_zero in E. bool_prop. destruct delta as [a b]. cbn in *. by subst. }
    rewrite (additive_zero pr Hpr). apply quiet_ret, _.
  - intros w u w' H. unfold call_unit, call, send_simple in H. apply bind_ok in H as (r & w1 & H & [= <- <-]).
    apply bind_ok in H as (res & w2 & Hm%Hsend & [Hr ->]%lift_ok). unfold RelP in Hm. cbn in Hm. unfold claim_cost in Hm.
    unfold extract_send_result in Hr. destruct res as [rr|]; [|discriminate]. destruct (is_success _); [|discriminate].
    intros s Hs I. destruct (Hm s Hs I) as (s' & ? & ? & ? & Hk). exists s'. split_and!; [done..|].
    replace (update_of _) with delta in Hk by (by destruct delta). lia.
Qed.

(** ** Methods that leave the power alone *)

Ltac txn_tac :=
  apply txn_owes; let H := fresh "H" in
  intros ? ? ? ? ? H; unfold repay_debts_or_abort, validate_control, try, must in H; run_inv; code_inv; pairs; split; [done|].

Lemma constructor_owes q : quiet (owes 0) (constructor x env ctx q).
Proof.
  unfold constructor, calculate_create_miner_deposit. quiet_tac.
  intros w u w' [Hn ->]%create_ok s' Hs. congruence.
Qed.

Lemma change_worker_owes a l : quiet (owes 0) (change_worker_address x env ctx a l).
Proof. unfold change_worker_address. quiet_tac. txn_tac. by apply counts_frame; [apply same_books|]. Qed.
Lemma confirm_worker_owes : quiet (owes 0) (@confirm_change_worker_address Net ctx).
Proof.
  unfold confirm_change_worker_address. txn_tac. apply counts_frame; [apply same_books, pending_worker_same|apply frame_worker].
Qed.
Lemma change_owner_owes a : quiet (owes 0) (@change_owner_address Net ctx a).
Proof.
  unfold change_owner_address. destruct a; [|quiet_tac]. txn_tac. apply counts_frame; [by apply same_books|].
  match goal with H : change_owner _ _ _ = Ok _ |- _ => apply change_owner_sizes in H as [] end. done.
Qed.
Lemma change_peer_owes a : quiet (owes 0) (@change_peer_id Net x ctx a).
Proof. unfold change_peer_id. quiet_tac. txn_tac. by apply counts_frame; [apply same_books|]. Qed.
Lemma change_multi_owes a : quiet (owes 0) (@change_multiaddresses Net x ctx a).
Proof. unfold change_multiaddresses. quiet_tac. txn_tac. by apply counts_frame; [apply same_books|]. Qed.
Lemma change_beneficiary_owes q : quiet (owes 0) (change_beneficiary env ctx q).
Proof.
  unfold change_beneficiary. quiet_tac. intros w u w' (s & s' & Hs & H & ->)%transaction_ok.
  apply rbind_ok in H as (i & [E1 E2]%change_beneficiary_sizes & [= <- <-]).
  eapply owes_counts; [done..|]. by apply counts_frame; [apply same_books|].
Qed.

Lemma compact_numbers_owes b : quiet (owes 0) (@compact_sector_numbers Net ctx b).
Proof.
  unfold compact_sector_numbers. quiet_tac. txn_tac.
  match goal with H : St.allocate_sector_numbers _ _ _ = Ok _ |- _ =>
    pose proof (frame_allocate _ _ _ _ H); apply allocate_books in H as [Hb _] end. by apply counts_frame.
Qed.

Lemma apply_rewards_owes r q : quiet (owes 0) (apply_rewards env ctx r q).
Proof.
  unfold apply_rewards. quiet_tac. txn_tac. apply counts_frame; [intros L; by eapply rewards_books|by eapply frame_rewards].
Qed.

Lemma report_fault_owes h1 h2 h3 : quiet (owes 0) (report_consensus_fault x env ctx h1 h2 h3).
Proof.
  unfold report_consensus_fault, send_simple. quiet_tac. txn_tac.
  apply counts_frame; [intros L; by eapply consensus_fault_books|by eapply frame_consensus_fault].
Qed.

Lemma withdraw_owes n : quiet (owes 0) (withdraw_balance env ctx n).
Proof.
  unfold withdraw_balance. quiet_tac. txn_tac.
  match goal with H : book_withdrawal _ _ _ _ = Ok _ |- _ => rename H into Hw end.
  apply counts_frame; [|by eapply frame_withdrawal]. intros L.
  destruct (withdrawal_books _ _ _ _ _ _ _ _ L Hw) as (? & ? & _). done.
Qed.

Lemma repay_debt_owes : quiet (owes 0) (repay_debt env ctx).
Proof.
  unfold repay_debt. quiet_tac. txn_tac.
  match goal with H : St.repay_partial_debt_in_priority_order _ _ _ = Ok _ |- _ => rename H into Hw end.
  apply counts_frame; [|by eapply frame_repay]. intros L.
  destruct (repay_partial_books _ _ _ _ _ _ L Hw) as (? & ? & _). done.
Qed.

Lemma pre_commit_owes l : quiet (owes 0) (pre_commit_sector_batch2 x env ctx l).
Proof.
  unfold pre_commit_sector_batch2. destruct l as [|p0 l]; [quiet_tac|]. set (ps := p0 :: l).
  apply owes_bind_try. intros ns Hns. quiet_tac. txn_tac.
  match goal with H : St.repay_debts _ _ = Ok _ |- _ => rename H into Hr end.
  match goal with H : record_precommits _ _ _ _ _ _ = Ok _ |- _ => rename H into Hp end.
  apply counts_frame; [|eapply framed_trans; [exact (frame_repay_debts _ _ _ _ Hr)|by eapply frame_precommits]].
  intros L. destruct (repay_debts_books _ _ _ _ L Hr) as (L1 & Hi1 & _).
  eapply record_precommits_books in Hp as (? & ? & _); [split; [done|by eapply history_trans]|done|].
  intros q (r & -> & Hin)%list_elem_of_fmap. eapply built_infos in Hin; [|eassumption].
  destruct Hin as [[]%elem_of_nil|[c Hc%elem_of_zip_l]]. destruct (precommit_numbers _ _ _ _ _ Hns) as [_ Hn]. by apply Hn.
Qed.

(** ** Methods that change the power *)

Ltac report_tac :=
  repeat first
    [ apply update_power_owes
    | apply owes_bind_r; [apply update_power_owes|intros ?; solve [quiet_tac]]
    | apply owes_bind_l; [solve [quiet_tac]|intros ?] ].

Ltac delta_tac d :=
  apply (txn_owes_bind _ d); [let H := fresh "H" in intros ? ? ? ? ? H;
    unfold repay_debts_or_abort, validate_control, try, must in H; run_inv; code_inv; pairs; split; [done|]
  |intros ?; pairs; cbn [fst snd]].

Lemma compact_partitions_owes d ps : 0 <= d -> quiet (owes 0) (@compact_partitions Net x ctx d ps).
Proof.
  intros Hd. unfold compact_partitions. quiet_tac. txn_tac. rewrite <- (additive_zero pr Hpr).
  apply counts_moves; [by eapply same_books, compact_same|by eapply compact_moves].
Qed.

Lemma declare_faults_owes l : forallb declaration_decodes l = true -> quiet (owes 0) (declare_faults x env ctx l).
Proof.
  intros Hl. unfold declare_faults. apply owes_bind_lift. intros m Hm. delta_tac (fun d : PowerPair => d); [|report_tac].
  apply counts_moves; [by eapply same_books, faults_same|]. eapply declare_faults_moves; [done| |done]. by eapply to_process_zero.
Qed.

Lemma declare_recovered_owes l : forallb declaration_decodes l = true ->
  quiet (owes 0) (declare_faults_recovered x env ctx l).
Proof.
  intros Hl. unfold declare_faults_recovered. apply owes_bind_lift. intros m Hm. quiet_tac. txn_tac.
  match goal with H : St.repay_debts _ _ = Ok _ |- _ => rename H into Hr end.
  match goal with H : declare_recoveries_in _ _ _ _ = Ok _ |- _ => rename H into Hd end.
  rewrite <- (additive_zero pr Hpr). apply counts_moves.
  - intros L. destruct (repay_debts_books _ _ _ _ L Hr) as (L1 & Hi1 & _).
    destruct (same_books _ _ (recoveries_same _ _ _ _ _ Hd) L1). split; [done|by eapply history_trans].
  - eapply frame_moves_l; [by eapply frame_repay_debts|]. eapply declare_recoveries_moves; [done| |done].
    by eapply to_process_zero.
Qed.

Lemma submit_post_owes q : 0 <= sp_deadline q -> quiet (owes 0) (submit_windowed_post x env ctx q).
Proof.
  intros Hd. unfold submit_windowed_post. destruct (sp_proofs q) as [|proof [|]]; [quiet_tac| |quiet_tac].
  apply owes_bind_l; [quiet_tac|intros _]. destruct (_ >=? _); [quiet_tac|]. destruct (_ >? _); [quiet_tac|].
  delta_tac (fun d : PowerPair => d); [|report_tac].
  apply counts_moves; [by eapply same_books, submit_post_same|by eapply submit_post_moves].
Qed.

Lemma extend_owes l : Forall (fun e => 0 <= ee_deadline e) l -> quiet (owes 0) (extend_sector_expiration2 x env ctx l).
Proof.
  intros Hl. unfold extend_sector_expiration2. apply owes_bind_l; [quiet_tac|intros sp].
  delta_tac (fun d : PowerPair * Z => d.1); [|report_tac].
  apply counts_moves; [by eapply same_books, extend_same|by eapply extend_expirations_moves].
Qed.

Lemma early_terminations_owes rew pwr : quiet (owes 0) (process_early_terminations x env ctx rew pwr).
Proof.
  unfold process_early_terminations. quiet_tac. txn_tac. rewrite <- (additive_zero pr Hpr).
  apply counts_moves; [intros L; by eapply terminations_books|by eapply terminations_moves].
Qed.
#[local] Hint Resolve early_terminations_owes : quiet.

Lemma terminate_sectors_owes l : forallb declaration_decodes l = true -> quiet (owes 0) (terminate_sectors x env ctx l).
Proof.
  intros Hl. unfold terminate_sectors, schedule_early_termination_work. apply owes_bind_lift. intros m Hm.
  delta_tac (fun d : bool * PowerPair => d.2); [|report_tac].
  apply counts_moves; [by eapply same_books, terminate_same|]. eapply terminate_moves; [done| |done]. by eapply to_process_zero.
Qed.

Lemma proving_deadline_owes rew pwr : quiet (owes 0) (handle_proving_deadline x env ctx rew pwr).
Proof.
  unfold handle_proving_deadline, schedule_early_termination_work.
  delta_tac (fun d : DeadlineEnd * State => de_power_delta d.1); [|report_tac].
  apply counts_moves; [intros L; by eapply end_deadline_books|by eapply end_deadline_moves].
Qed.
#[local] Hint Resolve proving_deadline_owes : quiet.

Lemma cron_owes q rew pwr : quiet (owes 0) (on_deferred_cron_event x env ctx q rew pwr).
Proof. unfold on_deferred_cron_event, schedule_early_termination_work. quiet_tac. Qed.

(** ** New sectors *)

Notation from := (from (owes 0) (inv x) later).

Lemma counts_gains s s' : books s s' ->
  (inv x s -> standing p s' /\ used s' /\ active s' = active s /\ sized s s') -> counts s 0 s'.
Proof.
  intros Hb Hg I. destruct (Hg I) as (S & U & E & Hz). destruct I as [L _]. destruct (Hb L).
  split; [done|]. split; [done|]. rewrite E. lia.
Qed.

(** A transaction in a later state. *)
Lemma from_txn s {A} (f : State -> M (A * State)) :
  (forall s1 w a s' w1, ledger s -> later s s1 -> f s1 w = Ok ((a, s'), w1) -> w_net w1 = w_net w /\ counts s1 0 s') ->
  from s (transaction_rt f).
Proof.
  intros Hf w a w' ((L & _) & s1 & Hs1 & I1 & Hl) (s2 & s3 & w1 & Hs2 & H & ->)%transaction_rt_ok.
  rewrite Hs1 in Hs2. injection Hs2 as <-. destruct (Hf _ _ _ _ _ L Hl H). by eapply owes_counts.
Qed.

Lemma activate_new_owes s ps data pi : (forall q, q ∈ ps -> stored s q) ->
  from s (activate_new_sector_infos x env ctx ps data pi (info s)).
Proof.
  intros Hp. unfold activate_new_sector_infos. apply from_bind; [apply _..| |intros; apply from_quiet; quiet_tac].
  apply from_txn. intros s1 w a s' w1 L [Hi [Ez Ew]] H. run_inv. split; [done|].
  assert (ledger s1 -> current_precommits ps s1) as Hc by (intros _; by eapply stored_current).
  apply counts_gains.
  - intros L1. by destruct (activate_infos_books _ _ _ _ _ _ _ _ _ _ L1 (Hc L1) H) as (? & ? & _).
  - intros (L1 & S1 & U1). eapply activate_gains; [done|by symmetry|by symmetry|done|by apply Hc|done|done|exact H].
Qed.

Lemma prove_commit_owes q : quiet (owes 0) (prove_commit_sectors3 x env ctx q).
Proof. eapply prove_commit_from; [apply _..|apply send0_owes|intros; by apply activate_new_owes]. Qed.

Lemma preseal_owes q : quiet (owes 0) (internal_sector_setup_preseal x env ctx q).
Proof. eapply preseal_from; [apply _..|apply send0_owes|intros; by apply activate_new_owes]. Qed.

Lemma prove_ni_owes q : 0 <= pni_proving_deadline q -> quiet (owes 0) (prove_commit_sectors_ni x env ctx q).
Proof.
  intros Hd. unfold prove_commit_sectors_ni. eapply from_state; [apply _|]. intros s.
  do 2 (apply from_bind; [apply _..|apply from_quiet; quiet_tac|intros _]).
  do 5 (destruct (_ : bool); [apply from_quiet; quiet_tac|]).
  apply from_try. intros [[batch inputs] ns] Hv. destruct (Nat.eqb _ _); [apply from_quiet; quiet_tac|].
  apply from_lift. intros valid Hs. do 4 (apply from_bind; [apply _..|apply from_quiet; quiet_tac|intros ?]).
  apply from_bind; [apply _..| |intros ?; apply from_quiet; quiet_tac].
  destruct (validate_ni_numbers _ _ _ _ _ _ _ _ Hv) as [Hnd Hin]. pose proof (validate_ni_last _ _ _ _ _ _ _ _ _ Hv Hs) as Hla. apply successes_sublist in Hs.
  apply from_txn. intros s1 w r s' w1 L [_ [Ez Ew]] H. run_inv. pairs. split; [done|]. apply counts_gains.
  - intros L1. by eapply add_ni_books.
  - intros (L1 & S1 & U1). eapply ni_gains; [done|by symmetry|by symmetry|exact Hd| | | |done..|eassumption].
    + rewrite <- list_fmap_compose. eapply sublist_NoDup; [exact Hnd|]. by apply fmap_sublist.
    + intros n (i & Hi & <-)%elem_of_numbers. apply list_elem_of_fmap in Hi as (v & -> & Hv'). apply Hin.
      by eapply elem_of_sublist.
    + apply Forall_fmap. eapply Forall_impl; [exact Hla|]. intros v Hv' E. cbn in E, Hv'. lia.
Qed.

(** ** Operations in the state they read *)

Context (Haloof : aloof env).

Definition stays (w w' : World) : Prop := w_state w' = w_state w /\ owes 0 w w'.

#[local] Instance stays_pre : WorldPre stays.
Proof.
  split; [intros; split; [done|by apply wp_same]|].
  intros w1 w2 w3 [E1 H1] [E2 H2]. split; [congruence|by eapply wp_trans].
Qed.

Lemma call_stays to m q v : aloof_actor to -> plain q -> quiet stays (call env to m q v).
Proof.
  intros Ha Hq. unfold call, send_simple. quiet_tac. intros w r w' H. split; [by eapply Haloof; [|exact H]|by eapply send_owes; [|exact H]].
Qed.
#[local] Hint Resolve call_stays : quiet.
#[local] Hint Extern 0 (aloof_actor _) => (unfold aloof_actor; tauto) : quiet.

Lemma block_reward_stays : quiet stays (request_current_epoch_block_reward x env).
Proof. unfold request_current_epoch_block_reward. quiet_tac. Qed.
Lemma total_power_stays : quiet stays (request_current_total_power x env).
Proof. unfold request_current_total_power. quiet_tac. Qed.
#[local] Hint Resolve block_reward_stays total_power_stays : quiet.
Lemma pledge_inputs_stays : quiet stays (get_pledge_inputs x env ctx).
Proof. unfold get_pledge_inputs. quiet_tac. Qed.
Lemma activate_pieces_stays l b : quiet stays (activate_sectors_pieces x env l b).
Proof. unfold activate_sectors_pieces, batch_claim_allocations, assert_all_or_none. quiet_tac. Qed.
#[local] Hint Resolve pledge_inputs_stays activate_pieces_stays : quiet.

Definition at_state (s : State) {A} (m : M A) : Prop :=
  forall w a w', w_state w = Some s -> m w = Ok (a, w') -> owes 0 w w'.

Lemma at_quiet s {A} (m : M A) : quiet (owes 0) m -> at_state s m.
Proof. intros H w a w' _. apply H. Qed.
Lemma at_bind s {A B} (m : M A) (f : A -> M B) :
  quiet stays m -> (forall a, at_state s (f a)) -> at_state s (bind m f).
Proof.
  intros Hm Hf w b w' Hs (a & w1 & H1 & H2)%bind_ok. destruct (Hm _ _ _ H1) as [E Ho]. eapply wp_trans; [exact Ho|].
  eapply Hf; [by rewrite E|done].
Qed.
Lemma at_lift s {A B} (r : Res error A) (f : A -> M B) :
  (forall a, r = Ok a -> at_state s (f a)) -> at_state s (bind (lift r) f).
Proof. intros Hf w b w' Hs (a & w1 & [H1 ->]%lift_ok & H2)%bind_ok. by eapply Hf. Qed.
Lemma at_try s {A B} c (r : MRes A) (f : A -> M B) :
  (forall a, r = Ok a -> at_state s (f a)) -> at_state s (bind (try c r) f).
Proof. intros Hf. apply at_lift. intros a H%dc_ok. auto. Qed.
Lemma at_read {B} (f : State -> M B) : (forall s, at_state s (f s)) -> quiet (owes 0) (bind state f).
Proof. intros Hf w b w' (s & w1 & [Hs ->]%state_ok & H2)%bind_ok. by eapply Hf. Qed.
Lemma at_txn s {A B} (f : State -> M (A * State)) (delta : A -> PowerPair) (rest : A -> M B) :
  (forall w a s' w1, f s w = Ok ((a, s'), w1) -> w_net w1 = w_net w /\ counts s (pr (delta a)) s') ->
  (forall a, quiet (owes (- pr (delta a))) (rest a)) -> at_state s (bind (transaction_rt f) rest).
Proof.
  intros Hf Hr w b w' Hs (a & w1 & (s1 & s' & w2 & Hs1 & H & ->)%transaction_rt_ok & H2)%bind_ok.
  rewrite Hs in Hs1. injection Hs1 as <-.
  destruct (Hf _ _ _ _ H) as [En Hc]. replace 0 with (pr (delta a) + - pr (delta a)) by lia.
  eapply tally_trans; [|by eapply Hr]. by apply (owes_counts w (set_state s' w2) s s').
Qed.

Lemma dispute_owes s d n : 0 <= d -> snapshot_agrees d s -> at_state s (dispute_windowed_post x env ctx d n).
Proof.
  intros Hd Ha. unfold dispute_windowed_post. apply at_bind; [quiet_tac|intros _].
  destruct (_ >=? _); [apply at_quiet; quiet_tac|].
  apply at_bind; [quiet_tac|intros rew]. apply at_bind; [quiet_tac|intros pwr].
  apply (at_txn _ _ (fun d : Z * Z * PowerPair * Z => d.1.2)).
  - intros w a s' w1 H. run_inv. pairs. split; [done|].
    apply counts_moves; [intros L; by eapply dispute_books|by eapply dispute_post_moves].
  - intros [[[a b] c] e]. cbn [fst snd]. unfold send_simple. report_tac.
Qed.

Lemma prove_replicas_owes q : forallb (fun u => in_u64 (sum_deadline u)) (ru3_sector_updates q) = true ->
  quiet (owes 0) (prove_replica_updates3 x env ctx q).
Proof.
  intros Hd. unfold prove_replica_updates3. apply at_read. intros s. apply at_bind; [quiet_tac|intros _].
  apply at_bind; [quiet_tac|intros _]. apply at_try. intros infos Hi. apply at_try. intros batch Hb.
  apply at_lift. intros valid Hv. destruct (ru3_sector_proofs q) eqn:Ep; [apply at_quiet; quiet_tac|]. rewrite <- Ep in *.
  destruct (negb _); [apply at_quiet; quiet_tac|]. apply at_lift. intros [proven pb] Hp.
  apply at_bind; [quiet_tac|intros [db data]]. destruct (Nat.eqb _ _); [apply at_quiet; quiet_tac|].
  apply at_lift. intros ok Hok. apply at_bind; [quiet_tac|intros pi].
  apply (at_txn _ _ (fun d : PowerPair * Z => d.1)); [|intros [dp dl]; cbn [fst snd]; report_tac].
  intros w a s' w1 H. run_inv. pairs. split; [done|]. apply counts_moves.
  - match goal with H : update_replica_states _ _ _ _ _ _ _ _ _ = Ok _ |- _ => by apply update_replicas_books in H as [Hk _] end.
  - intros S. apply validate_updates_once with (valid := valid) in Hb; [|done]. apply successes_sublist in Hv, Hok.
    apply verify_updates_sublist in Hp. eapply replica_inputs with (data := data) in Hok as [Hz Hu];
      [|apply S| |by eapply loaded_infos|exact Hb|exact Hv|exact Hp].
    + by eapply update_replicas_moves.
    + apply Forall_forall. intros u Hu. rewrite forallb_forall in Hd. by apply in_u64_nonneg, Hd, list_elem_of_In.
Qed.

(** ** The dispatch *)

#[local] Hint Resolve constructor_owes change_worker_owes confirm_worker_owes change_owner_owes change_peer_owes
  change_multi_owes change_beneficiary_owes compact_numbers_owes apply_rewards_owes report_fault_owes withdraw_owes
  repay_debt_owes pre_commit_owes cron_owes prove_commit_owes preseal_owes : quiet.

Lemma at_unit s (m : M unit) : at_state s m -> at_state s (unit_ret m).
Proof. intros H w r w' Hs (u & w1 & H1 & [= _ <-])%bind_ok. by eapply H. Qed.

Lemma decodes_forall {A} (f g : A -> bool) l : (forall a, f a = true -> g a = true) -> forallb f l = true -> forallb g l = true.
Proof. rewrite !forallb_forall. auto. Qed.

Lemma invoke_owes s m : (forall d n, m = DisputeWindowedPoSt d n -> snapshot_agrees d s) ->
  at_state s (invoke_method x env ctx m).
Proof.
  intros Ha. unfold invoke_method. apply at_bind; [quiet_tac|intros _]. destruct (decodes m) eqn:Hd; cbn [negb]; [|apply at_quiet; quiet_tac].
  destruct m; try (apply at_quiet; unfold unit_ret; first [solve [eauto 3 with quiet typeclass_instances] |
    apply quiet_bind; [apply _|solve [eauto 3 with quiet typeclass_instances]|intros ?; apply quiet_ret, _]]); cbn in Hd.
  all: first [apply at_unit | apply at_quiet, quiet_bind; [apply _| |intros ?; quiet_tac]].
  - bool_prop. by apply at_quiet, submit_post_owes, in_u64_nonneg.
  - by apply terminate_sectors_owes.
  - by apply at_quiet, declare_faults_owes.
  - by apply at_quiet, declare_recovered_owes.
  - bool_prop. by apply at_quiet, compact_partitions_owes, in_u64_nonneg.
  - bool_prop. apply dispute_owes; [by apply in_u64_nonneg|by eapply Ha].
  - apply at_quiet, extend_owes, Forall_forall. intros e He%list_elem_of_In. rewrite forallb_forall in Hd.
    apply Hd in He. bool_prop. by apply in_u64_nonneg.
  - apply prove_replicas_owes. eapply decodes_forall; [|exact Hd]. cbn. intros u Hu. by bool_prop.
  - bool_prop. by apply prove_ni_owes, in_u64_nonneg.
Qed.
End runs.

(** ** Runs on the chain *)

(** Disputes arrive while the snapshot they use is that of the current table. *)
Definition timely (ctx : Ctx) (m : Msg) (o : option State) : Prop :=
  match m with
  | DisputeWindowedPoSt d _ => forall s, o = Some s -> snapshot_agrees d s
  | _ => True
  end.

Definition power_chain : Conf State -> Conf State -> Prop :=
  chain (fun env : Env Net State Param (list Z) => invoke_method x env) claimed (claim_cost pr)
    (fun _ _ => 0) timely aloof steady.

Lemma power_chain_tally c c' : power_chain c c' -> RelP c c'.
Proof.
  apply chain_rel.
  - intros c1. apply tally_refl.
  - intros c1 c2 c3 H1 H2. eapply (tally_trans _ _ 0 0); eassumption.
  - intros e e' s b _. apply tally_refl.
  - intros e s b v ->. unfold RelP. cbn. rewrite Z.add_0_r. apply tally_refl.
  - intros env ctx msg w r w' Ha Hs _ Ht H. unfold RelP. cbn. rewrite Z.sub_0_r. intros s Hst. revert s Hst.
    change (owes 0 w w'). intros s Hst I. eapply (invoke_owes env ctx Hs Ha s msg); [|exact Hst|exact H|exact Hst|exact I].
    intros d n ->. by apply Ht.
Qed.
End claims.

(** ** The active sectors *)

Definition dactive (ps : Parts) : BitField := ⋃ ((fun p => Part.active_sectors p.2) <$> map_to_list ps).
Definition active_sectors (s : State) : BitField := ⋃ ((fun d => dactive (partitions d)) <$> deadlines s).

Lemma elem_of_dactive ps n : n ∈ dactive ps <-> exists i p, ps !! i = Some p /\ n ∈ Part.active_sectors p.
Proof. apply elem_of_union_parts. Qed.

Lemma map_sum_union (f : Partition -> Z) (g : Z -> Z) (h : Partition -> BitField) (ps : Parts) :
  (forall i p, ps !! i = Some p -> f p = ssum g (h p)) ->
  (forall i j p p', i <> j -> ps !! i = Some p -> ps !! j = Some p' -> h p ## h p') ->
  map_sum f ps = ssum g (⋃ ((fun p => h p.2) <$> map_to_list ps)).
Proof.
  induction ps as [|i p ps Hi IH] using map_ind; intros Hf Hd.
  { rewrite map_sum_empty, map_to_list_empty. cbn. by rewrite ssum_empty. }
  rewrite map_sum_insert_new by done. rewrite IH.
  - rewrite (Hf i p) by apply lookup_insert_eq. rewrite <- ssum_union.
    + f_equal. apply set_eq. intros n. rewrite elem_of_union, !(elem_of_union_parts h). setoid_rewrite lookup_insert_Some. split.
      * intros [Hn|(j & p' & Hj & Hn)]; [exists i, p; tauto|]. exists j, p'. split; [|done]. right. split; [congruence|done].
      * intros (j & p' & [[<- <-]|[_ Hj]] & Hn); [by left|right; by exists j, p'].
    + intros n Hn (j & p' & Hj & Hn')%elem_of_union_parts. assert (i <> j) as Hij by congruence.
      eapply (Hd i j p p' Hij); [apply lookup_insert_eq|by rewrite lookup_insert_ne|done|done].
  - intros j p' Hj. apply (Hf j). rewrite lookup_insert_ne by congruence. done.
  - intros j k p' p'' Hjk Hj Hk. apply (Hd j k); [done| |]; by rewrite lookup_insert_ne by congruence.
Qed.

Lemma pp_sum_union size all (f : Deadline -> PowerPair) (h : Deadline -> BitField) ds :
  (forall i d, ds !! i = Some d -> f d = psum size all (h d)) ->
  (forall i j d d', i <> j -> ds !! i = Some d -> ds !! j = Some d' -> h d ## h d') ->
  pp_sum (f <$> ds) = psum size all (⋃ (h <$> ds)).
Proof.
  induction ds as [|d ds IH]; intros Hf Hd; [symmetry; apply psum_empty|].
  change (pp_add (f d) (pp_sum (f <$> ds)) = psum size all (h d ∪ ⋃ (h <$> ds))). rewrite psum_union.
  - rewrite (Hf 0%nat d) by done. f_equal. apply IH; [intros i d' Hi; by apply (Hf (S i))|].
    intros i j d1 d2 Hij Hi Hj. apply (Hd (S i) (S j)); [congruence|done..].
  - intros n Hn (i & d' & Hi & Hn')%elem_of_dls. by eapply (Hd 0%nat (S i) d d').
Qed.

Lemma active_parts size q all ps : parts_wf size q all ps -> active_of ps = psum size all (dactive ps).
Proof.
  intros H. assert (forall i p, ps !! i = Some p -> Part.active_power p = psum size all (Part.active_sectors p)) as Hp.
  { intros i p Hi. destruct (ps_parts _ _ _ _ H i p Hi) as [P W]. by eapply active_power_psum. }
  assert (forall i j p p', i <> j -> ps !! i = Some p -> ps !! j = Some p' ->
    Part.active_sectors p ## Part.active_sectors p') as Hd.
  { intros i j p p' Hij Hi Hj. pose proof (ps_disj _ _ _ _ H i j p p' Hij Hi Hj) as Hd. clear -Hd.
    unfold Part.active_sectors, Part.live_sectors. set_solver. }
  unfold active_of, active_raw, active_qa, psum. f_equal; apply map_sum_union; try done; intros i p Hi; by rewrite (Hp i p Hi).
Qed.

Lemma active_psum p s : standing p s -> active s = psum (sector_size (info s)) (st_sectors s) (active_sectors s).
Proof.
  intros H. pose proof (sd_deadlines _ _ H) as Hd. apply pp_sum_union.
  - intros i d Hi. eapply active_parts, (dls_each _ _ _ _ _ Hd i d Hi).
  - intros i j d d' Hij Hi Hj n (a & pa & Ha & Hna)%elem_of_dactive (b & pb & Hb & Hnb)%elem_of_dactive.
    eapply (dls_disj _ _ _ _ _ Hd i j d d' Hij Hi Hj n); apply elem_of_dsectors; [exists a, pa|exists b, pb];
      (split; [done|]); unfold Part.active_sectors, Part.live_sectors in *; set_solver.
Qed.

(** Every active sector has the raw power of its size. *)
Lemma active_in_table p s n : standing p s -> n ∈ active_sectors s -> is_Some (st_sectors s !! n).
Proof.
  intros H (i & d & Hi & (j & q & Hj & Hn)%elem_of_dactive)%elem_of_dls.
  destruct (ps_parts _ _ _ _ (dw_parts _ _ _ _ _ (dls_each _ _ _ _ _ (sd_deadlines _ _ H) i d Hi)) j q Hj) as [P W].
  apply elem_of_dom, (pw_infos _ _ _ _ _ W). unfold Part.active_sectors in Hn. set_solver.
Qed.

Lemma active_power_spec p s : standing p s ->
  active s = mkPP (sector_size (info s) * bf_len (active_sectors s))
               (ssum (fun n => qa (power_of (sector_size (info s)) (st_sectors s) n)) (active_sectors s)).
Proof.
  intros H. rewrite (active_psum _ _ H). unfold psum. f_equal. rewrite <- ssum_const. apply ssum_ext.
  intros n Hn. destruct (active_in_table _ _ _ H Hn) as [i Hi]. unfold power_of. by rewrite Hi.
Qed.

(** ** Construction *)

Lemma new_deadline_wf size q all : dl_wf size q all DL.new.
Proof.
  constructor; [constructor|..].
  - intros i. cbn. rewrite lookup_empty. unfold count. rewrite map_size_empty. split; [by intros []|lia].
  - intros i p Hi. by cbn in Hi; rewrite lookup_empty in Hi.
  - intros i j p p' _ Hi. by cbn in Hi; rewrite lookup_empty in Hi.
  - intros []; cbn; by rewrite map_sum_empty.
  - intros i p Hi. by cbn in Hi; rewrite lookup_empty in Hi.
Qed.

Lemma new_deadlines p i d : Deadlines.new p !! i = Some d -> d = DL.new.
Proof. unfold Deadlines.new. by intros [-> _]%lookup_replicate. Qed.

Lemma new_standing p i start idx : calendar_ok p -> 0 < window_post_partition_sectors i ->
  let s := St.new p i start idx in standing p s /\ used s /\ active s = pp_zero.
Proof.
  intros cal Hw s.
  assert (dls_sectors (deadlines s) = ∅) as Es.
  { apply set_eq. intros n. rewrite elem_of_dls_sectors. split; [|set_solver].
    intros (k & d & ->%new_deadlines & (j & q & Hj & _)%elem_of_dsectors). by cbn in Hj; rewrite lookup_empty in Hj. }
  assert (standing p s) as S.
  { constructor; cbn; [by intros n y; rewrite lookup_empty| |done|set_solver|by intros n y; rewrite lookup_empty]. constructor.
    - intros k d ->%new_deadlines. apply new_deadline_wf.
    - intros k j d d' _ ->%new_deadlines ->%new_deadlines n (a & q & Ha & _)%elem_of_dsectors. by cbn in Ha; rewrite lookup_empty in Ha.
    - unfold Deadlines.new. rewrite length_replicate, Z2Nat.id; [done|]. pose proof (cal_deadlines _ cal). lia. }
  split; [done|]. split; [split; rewrite Es; set_solver|]. rewrite (active_psum _ _ S).
  replace (active_sectors s) with (∅ : BitField); [apply psum_empty|]. symmetry. apply set_eq. intros n. split; [|set_solver].
  intros (k & d & ->%new_deadlines & (j & q & Hj & _)%elem_of_dactive)%elem_of_dls. by cbn in Hj; rewrite lookup_empty in Hj.
Qed.
