(* ===== verification/MinerProps.v ===== *)
(** * The miner actor: properties

    The theorems on the miner's funds, sector numbers, vesting table and proving
    calendar, from the lemmas of MinerChain.v, MinerVesting.v and
    MinerEpochs.v. *)

From S2P Require Import Prelude Runtime Chain Collections MinerBase MinerQueues MinerPartition MinerDeadline MinerFunds MinerState MinerCalls MinerSectors MinerActor MinerEpochs MinerVesting MinerMoney MinerPlan MinerParts MinerDeadlines MinerStanding MinerChain MinerClaims.

Import Miner.

(** ** Construction *)

(** Calls without value leave the new actor alone. *)
Definition undisturbed {Net} (env : Env Net State Param (list Z)) : Prop :=
  forall req w r w', send_value req = 0 -> send env req w = Ok (r, w') ->
    w_state w' = w_state w /\ w_balance w' = w_balance w.

Section construction.
Context {Net : Type} (x : Ext) (env : Env Net State Param (list Z)) (ctx : Ctx).
Context (Hu : undisturbed env).

Definition unmoved (w w' : World Net State Param) : Prop :=
  w_state w' = w_state w /\ w_balance w' = w_balance w.

#[local] Instance unmoved_pre : WorldPre unmoved.
Proof. split; [by split|]. unfold unmoved. intros w1 w2 w3 [] []. split; congruence. Qed.

Lemma unmoved_send req : send_value req = 0 -> quiet unmoved (send env req).
Proof. intros Hv w r w' H. by eapply Hu. Qed.
#[local] Hint Resolve unmoved_send : quiet.

Lemma unmoved_deposit : quiet unmoved (calculate_create_miner_deposit x env ctx).
Proof. unfold calculate_create_miner_deposit. quiet_tac. Qed.

Lemma new_ledger i start idx : ledger (St.new (policy x) i start idx) /\ reserved (St.new (policy x) i start idx) = 0.
Proof.
  split; [|done]. split; try done.
  split; [constructor|]. by exists 0.
Qed.

Lemma constructor_spec p w0 u w : w_state w0 = None -> constructor x env ctx p w0 = Ok (u, w) ->
  exists s i start idx, w_state w = Some s /\ ledger s /\ reserved s <= w_balance w /\
    frame (St.new (policy x) i start idx) s /\
    pt_partition_sectors (proofs x) (cp_window_post_proof_type p) = Some (window_post_partition_sectors i).
Proof.
  intros Hn H. unfold constructor in H.
  apply bind_ok in H as (? & w1 & H1 & H). assert (unmoved w0 w1) as U1 by (revert H1; eapply quiet_caller_is, _).
  apply bind_ok in H as (? & w2 & H2 & H). apply bind_ok in H as (? & w3 & H3 & H). apply bind_ok in H as (? & w4 & H4 & H).
  unfold try in H2, H3, H4. apply lift_ok in H2 as [_ ->], H3 as [_ ->], H4 as [_ ->].
  apply bind_ok in H as (b & w5 & H5 & H). injection H5 as <- <-.
  apply bind_ok in H as (d & w6 & H6 & H). apply unmoved_deposit in H6.
  destruct (_ <? d) eqn:E; [by run_inv|]. bool_prop.
  apply bind_ok in H as (o & w7 & H7 & H). eapply quiet_must_resolve in H7; [|apply unmoved_pre].
  apply bind_ok in H as (k & w8 & H8 & H). eapply quiet_worker in H8; [|apply unmoved_pre|intros; by apply unmoved_send].
  apply bind_ok in H as (l & w9 & H9 & H). eapply quiet_must_resolve_all in H9; [|apply unmoved_pre].
  cbn zeta in H. destruct (_ >? _); [by run_inv|]. destruct (_ >=? _); [by run_inv|].
  apply bind_ok in H as (i & w10 & H10 & H). unfold try in H10. apply lift_ok in H10 as [Hi%dc_ok ->].
  apply bind_ok in H as ([n s] & w11 & H11 & H). unfold must in H11. apply lift_ok in H11 as [H11 ->]. apply mc_ok in H11.
  apply create_ok in H as [_ ->].
  match type of H11 with St.add_locked_funds _ _ _ (St.new _ _ ?st ?ix) = _ => destruct (new_ledger i st ix) as [L0 R0]; exists s, i, st, ix end.
  destruct (add_locked_books _ _ _ _ _ L0 H11) as (L & _ & Hr & Hn0 & _). split; [done|]. split; [done|].
  split; [unfold unmoved in *; cbn; destruct_and!; lia|]. split; [by eapply frame_lock|].
  unfold info_new in Hi. apply rbind_ok in Hi as (sz & _ & Hi). apply rbind_ok in Hi as (ps & Hp & [= <-]). cbn.
  by destruct (pt_partition_sectors _ _); [injection Hp as ->|].
Qed.

(** Proof types have partitions of some size. *)
Definition partitions_ok : Prop := forall t n, pt_partition_sectors (proofs x) t = Some n -> 0 < n.

Lemma constructor_standing p w0 u w : calendar_ok (policy x) -> partitions_ok -> w_state w0 = None ->
  constructor x env ctx p w0 = Ok (u, w) ->
  exists s, w_state w = Some s /\ inv x s /\ active s = pp_zero.
Proof.
  intros cal Hp Hn H. destruct (constructor_spec p w0 u w Hn H) as (s & i & st & ix & Hs & L & _ & F & Hw).
  apply Hp in Hw. destruct (new_standing (policy x) i st ix cal Hw) as (S0 & [U0 _] & A0).
  destruct (frame_moves (policy x) _ _ F S0) as (S & A & Hsub & _). exists s. split; [done|].
  split; [|by rewrite A, A0]. split; [done|]. split; [done|].
  assert (dls_sectors (deadlines s) = ∅) as E by (cbn in U0; set_solver). split; rewrite E; set_solver.
Qed.
End construction.

(** C1: a miner is always solvent.  After its construction, and after any run of
    messages, reentrant calls, deposits and ticks of the clock, its balance
    covers its pre-commit deposits, locked funds and initial pledges; the
    deposits are exactly those of its pending pre-commits; the locked funds are
    exactly the sum of its vesting table; nothing is negative. *)
Theorem miner_solvency {Net} x (env : Env Net State Param (list Z)) ctx p w0 u w c :
  undisturbed env -> w_state w0 = None -> constructor x env ctx p w0 = Ok (u, w) ->
  @miner_chain Net x (mkConf (ctx_epoch ctx) (w_state w) (w_balance w)) c ->
  exists s, c_state c = Some s /\
    pre_commit_deposits s + locked_funds s + st_initial_pledge s <= c_balance c /\
    0 <= pre_commit_deposits s /\ 0 <= locked_funds s /\ 0 <= st_initial_pledge s /\ 0 <= fee_debt s /\
    pre_commit_deposits s = map_sum pre_commit_deposit (pre_committed_sectors s) /\
    locked_funds s = total (raw_funds (vesting_funds s)).
Proof.
  intros Hu Hn H Hc. destruct (constructor_spec x env ctx Hu p w0 u w Hn H) as (s0 & _ & _ & _ & Hs0 & L0 & R0 & _).
  destruct (miner_chain_solvent x _ _ Hc s0 Hs0 L0) as (s & Hs & L & _ & R).
  exists s. split; [done|]. split; [by apply R|]. pose proof (lg_locked _ L). destruct (lg_vesting _ L) as [Hv _].
  pose proof (nonneg_total _ Hv). destruct L. lia.
Qed.

(** C7: a sector number is used once.  From any state of a miner on, along any
    run, an allocated number stays allocated, and what is pre-committed under it
    is never replaced: it is the same pre-commit or none. *)
Theorem miner_numbers_once {Net} x (env : Env Net State Param (list Z)) ctx p w0 u w c1 c2 s1 s2 :
  undisturbed env -> w_state w0 = None -> constructor x env ctx p w0 = Ok (u, w) ->
  @miner_chain Net x (mkConf (ctx_epoch ctx) (w_state w) (w_balance w)) c1 -> @miner_chain Net x c1 c2 ->
  c_state c1 = Some s1 -> c_state c2 = Some s2 ->
  allocated_sectors s1 ⊆ allocated_sectors s2 /\
  (forall n pc, pre_committed_sectors s1 !! n = Some pc ->
     pc_sector_number (pc_info pc) = n /\ n ∈ allocated_sectors s1 /\
     (pre_committed_sectors s2 !! n = None \/ pre_committed_sectors s2 !! n = Some pc)) /\
  (forall n, n ∈ allocated_sectors s1 -> pre_committed_sectors s1 !! n = None -> pre_committed_sectors s2 !! n = None).
Proof.
  intros Hu Hn H Hc1 Hc2 Hs1 Hs2. destruct (constructor_spec x env ctx Hu p w0 u w Hn H) as (s0 & _ & _ & _ & Hs0 & L0 & _ & _).
  destruct (miner_chain_solvent x _ _ Hc1 s0 Hs0 L0) as (s1' & Hs1' & L1 & _). rewrite Hs1 in Hs1'. injection Hs1' as <-.
  destruct (miner_chain_solvent x _ _ Hc2 s1 Hs1 L1) as (s2' & Hs2' & L2 & [Ha Hp] & _). rewrite Hs2 in Hs2'. injection Hs2' as <-.
  split; [done|]. split.
  - intros n pc Hpc. destruct (lg_numbers _ L1 n pc Hpc) as [? Hal]. split; [done|]. split; [done|].
    destruct (Hp n Hal) as [|E]; [by left|right; by rewrite E].
  - intros n Hal Hno. destruct (Hp n Hal) as [|E]; [done|by rewrite E].
Qed.

(** ** Power and sectors *)

(** C2: the power claimed with the power actor is exactly that of the active sectors,
    as long as every dispute of a proof finds the snapshot of its deadline in
    agreement with the sector table (a dispute of a deadline whose sectors were
    updated since reports other power than it takes away).  After the
    construction, when nothing is claimed, and after any run of messages,
    reentrant calls and ticks of the clock in which disputes are such, the claim
    changes by the miner's updates only, and the reward, power and verified
    registry actors do not call the miner back, the raw power claimed is the
    sector size times the number of active sectors, those in the partitions that
    are not terminated, faulty or unproven; the quality-adjusted power claimed is
    the sum of what the table of sectors says of them. *)
Theorem miner_claim_exact {Net} x pr claim (env : Env Net State Param (list Z)) ctx p w0 u w c :
  calendar_ok (policy x) -> partitions_ok x -> pr = raw \/ pr = qa ->
  undisturbed env -> w_state w0 = None -> constructor x env ctx p w0 = Ok (u, w) ->
  @power_chain Net x pr claim (mkConf (ctx_epoch ctx) (w_state w) 0) c ->
  exists s, c_state c = Some s /\
    c_balance c = pr (mkPP (sector_size (info s) * bf_len (active_sectors s))
      (ssum (fun n => qa (power_of (sector_size (info s)) (st_sectors s) n)) (active_sectors s))).
Proof.
  intros cal Hp Hpr Hu Hn H Hc. destruct (constructor_standing x env ctx Hu p w0 u w cal Hp Hn H) as (s0 & Hs0 & I0 & A0).
  assert (additive pr) as Ha by (by destruct Hpr as [-> | ->]; intros [] []).
  destruct (power_chain_tally x cal pr Ha claim _ _ Hc s0 Hs0 I0) as (s & Hs & (_ & S & _) & _ & E).
  exists s. split; [done|]. rewrite <- (active_power_spec _ _ S). rewrite A0, (additive_zero pr Ha) in E. cbn in E. lia.
Qed.

(** What holds of a partition [q] of the miner. *)
Record partition_sound (s : State) (q : Partition) : Prop := {
  so_terminated : terminated q ⊆ sectors q;
  so_faults : faults q ⊆ Part.live_sectors q;
  so_unproven : unproven q ⊆ Part.live_sectors q ∖ faults q;
  so_recoveries : recoveries q ⊆ faults q;
  so_powers : let power X := psum (sector_size (info s)) (st_sectors s) X in
    live_power q = power (Part.live_sectors q) /\ p_faulty_power q = power (faults q) /\
    unproven_power q = power (unproven q) /\ recovering_power q = power (recoveries q);
  so_listed : forall n, n ∈ sectors q -> n ∈ allocated_sectors s /\ pre_committed_sectors s !! n = None;
  so_infos : forall n, n ∈ Part.live_sectors q -> exists i, st_sectors s !! n = Some i /\ sector_number i = n /\
    expiration i <> power_base_epoch i;
  so_expires : forall n, n ∈ Part.live_sectors q -> exists e es, expirations_epochs q !! e = Some es /\
    n ∈ on_time_sectors es ∪ early_sectors es /\
    forall e' es', expirations_epochs q !! e' = Some es' -> n ∈ on_time_sectors es' ∪ early_sectors es' -> e' = e;
  so_queue : forall e es, expirations_epochs q !! e = Some es ->
    let X := on_time_sectors es ∪ early_sectors es in
    X ⊆ Part.live_sectors q /\ early_sectors es ⊆ faults q /\
    active_power es = psum (sector_size (info s)) (st_sectors s) (X ∖ faults q) /\
    faulty_power es = psum (sector_size (info s)) (st_sectors s) (X ∩ faults q) /\
    on_time_pledge es = pledge_sum (st_sectors s) (on_time_sectors es) /\
    fee_deduction es = fee_sum (st_sectors s) X;
}.

Section sound.
Context (size : Z) (quant : QuantSpec) (all : Infos) (F : BitField) (P : Plan) (q : EQ.Queue).
Context (Ht : tracks size quant all F P q).

Lemma slot_of_queued e es : q !! e = Some es -> es = slot_set size all F P e.
Proof. apply rep_lookup, Ht. Qed.

Lemma queued_slot n : n ∈ dom P -> exists e es, q !! e = Some es /\ n ∈ on_time_sectors es ∪ early_sectors es.
Proof.
  intros [[e b] Hn]%elem_of_dom. destruct (rep_is_Some _ _ _ _ _ _ _ (proj1 Ht) Hn) as [es He]. exists e, es. split; [done|].
  rewrite (slot_of_queued _ _ He). apply elem_of_held in Hn. apply elem_of_union. destruct b; [by right|by left].
Qed.

Lemma queued_once n e es : q !! e = Some es -> n ∈ on_time_sectors es ∪ early_sectors es ->
  exists b, P !! n = Some (mkSlot e b).
Proof.
  intros ->%slot_of_queued [Hn|Hn]%elem_of_union; apply elem_of_held in Hn; by eexists.
Qed.

Lemma queued_early e es : q !! e = Some es -> early_sectors es ⊆ F.
Proof.
  intros ->%slot_of_queued n Hn%elem_of_held. by destruct (proj2 Ht n _ Hn) as (_ & _ & Hf); apply Hf.
Qed.
End sound.

Lemma part_sound s quant d q : table_ok (st_sectors s) -> lasting (st_sectors s) -> used s -> d ∈ deadlines s ->
  (exists a, partitions d !! a = Some q) -> part_ok (sector_size (info s)) quant (st_sectors s) q -> partition_sound s q.
Proof.
  intros Ht Hl [Ha Hp] Hd [a Hq] [P W]. assert (forall n, n ∈ sectors q -> n ∈ dls_sectors (deadlines s)) as Hin.
  { intros n Hn. apply list_elem_of_lookup in Hd as [i Hi]. apply elem_of_dls_sectors. exists i, d. split; [done|].
    apply elem_of_dsectors. by exists a, q. }
  pose proof (pw_queue _ _ _ _ _ W) as Tr. pose proof (pw_plan _ _ _ _ _ W) as Pl.
  split; try apply W.
  - split_and!; apply W.
  - intros n Hn%Hin. auto.
  - intros n Hn%(pw_infos _ _ _ _ _ W). apply elem_of_dom in Hn as [i Hi]. exists i. split; [done|]. split; [by eapply Ht|by apply (Hl n)].
  - intros n Hn. rewrite <- Pl in Hn. destruct (queued_slot _ _ _ _ _ _ Tr n Hn) as (e & es & He & Hes). exists e, es.
    split; [done|]. split; [done|]. intros e' es' He' Hes'.
    apply (queued_once _ _ _ _ _ _ Tr n e) in He as [b Hb]; [|done]. apply (queued_once _ _ _ _ _ _ Tr n e') in He' as [b' Hb']; [|done].
    congruence.
  - intros e es He. cbn zeta. pose proof (queued_early _ _ _ _ _ _ Tr e es He) as Hf. split; [|split; [done|]].
    { intros n Hn. rewrite <- Pl. apply (queued_once _ _ _ _ _ _ Tr n e) in He as [b Hb]; [|done]. by apply lookup_declared_dom in Hb. }
    rewrite (slot_of_queued _ _ _ _ _ _ Tr e es He) in *. cbn in Hf |- *. clear -Hf.
    split_and!; try done; f_equal; set_point.
Qed.

(** C4: the sectors of a miner are accounted for.  In every state a miner reaches by
    messages, reentrant calls and ticks of the clock, of which the disputes of
    proofs find the snapshot of their deadline in agreement with the sector
    table, a sector is in one partition of one deadline only; the sets of every
    partition nest, its memoized powers are the sums over the table of sectors,
    every sector in it has an allocated number and no pre-commit, every live one
    an info with a duration, so that its power is defined, in the table and
    exactly one entry of the expiration queue; the queue's
    entries hold live sectors only, early ones only if faulty, with the powers,
    pledges and fees of their sectors; and the memoized totals of every deadline
    are the sums over its partitions. *)
Theorem miner_sectors_sound {Net} x claim (env : Env Net State Param (list Z)) ctx p w0 u w c :
  calendar_ok (policy x) -> partitions_ok x ->
  undisturbed env -> w_state w0 = None -> constructor x env ctx p w0 = Ok (u, w) ->
  @power_chain Net x raw claim (mkConf (ctx_epoch ctx) (w_state w) 0) c ->
  exists s, c_state c = Some s /\
    (forall i j d d' a b q q' n, deadlines s !! i = Some d -> deadlines s !! j = Some d' ->
       partitions d !! a = Some q -> partitions d' !! b = Some q' -> n ∈ sectors q -> n ∈ sectors q' -> i = j /\ a = b) /\
    (forall i d a q, deadlines s !! i = Some d -> partitions d !! a = Some q -> partition_sound s q) /\
    (forall i d, deadlines s !! i = Some d ->
       dl_live_sectors d = map_sum (fun q => bf_len (Part.live_sectors q)) (partitions d) /\
       total_sectors d = map_sum (fun q => bf_len (sectors q)) (partitions d) /\
       raw (dl_live_power d) = map_sum (fun q => raw (live_power q)) (partitions d) /\
       qa (dl_live_power d) = map_sum (fun q => qa (live_power q)) (partitions d) /\
       raw (dl_faulty_power d) = map_sum (fun q => raw (p_faulty_power q)) (partitions d) /\
       qa (dl_faulty_power d) = map_sum (fun q => qa (p_faulty_power q)) (partitions d) /\
       dl_daily_fee d = map_sum (fun q => fee_sum (st_sectors s) (Part.live_sectors q)) (partitions d)).
Proof.
  intros cal Hp Hu Hn H Hc. destruct (constructor_standing x env ctx Hu p w0 u w cal Hp Hn H) as (s0 & Hs0 & I0 & A0).
  assert (additive raw) as Ha by (by intros [] []).
  destruct (power_chain_tally x cal raw Ha claim _ _ Hc s0 Hs0 I0) as (s & Hs & (_ & S & U) & _).
  pose proof (sd_deadlines _ _ S) as D. exists s. split; [done|]. split_and!.
  - intros i j d d' a b q q' n Hi Hj Hq Hq' Hn1 Hn2. destruct (decide (i = j)) as [->|Hij].
    + rewrite Hi in Hj. injection Hj as <-. split; [done|]. destruct (decide (a = b)) as [|Hab]; [done|exfalso].
      exact (ps_disj _ _ _ _ (dw_parts _ _ _ _ _ (dls_each _ _ _ _ _ D j d Hi)) a b q q' Hab Hq Hq' n Hn1 Hn2).
    + exfalso. apply (dls_disj _ _ _ _ _ D i j d d' Hij Hi Hj n); apply elem_of_dsectors; eauto.
  - intros i d a q Hi Hq. eapply part_sound; [apply S|apply S|done|by eapply list_elem_of_lookup_2|by exists a|].
    eapply ps_parts; [|exact Hq]. by eapply dw_parts, (dls_each _ _ _ _ _ D i d Hi).
  - intros i d Hi. pose proof (dw_memo _ _ _ _ _ (dls_each _ _ _ _ _ D i d Hi)) as M.
    pose proof (M MLive). pose proof (M MTotal). pose proof (M MLiveRaw). pose proof (M MLiveQa). pose proof (M MFaultyRaw).
    pose proof (M MFaultyQa). pose proof (M MFee). cbn in *. rewrite Z.add_0_r in *. done.
Qed.

(** ** Vesting *)

(** C20: locking a sum always succeeds, unlocks exactly what had vested before,
    and adds a schedule that by any epoch has released no more than the linear
    share of the sum, and all of it one step and one quantum after the end of the
    vesting period. *)
Theorem vesting_linear cur sum pps spec v : spec_ok spec -> 0 <= sum -> vest_wf v ->
  exists unlocked v', Vesting.add_locked_funds cur sum pps spec v = Ok (unlocked, v') /\ vest_wf v' /\
    unlocked = total (raw_funds v) - locked cur (raw_funds v) /\
    forall e, cur <= e ->
      let released := locked e (raw_funds v) + sum - locked e (raw_funds v') in
      let vest_begin := cur + initial_delay spec in
      0 <= released <= sum /\
      released * vest_period spec <= sum * Z.max 0 (e - 1 - vest_begin) /\
      (vest_begin + vest_period spec + step_duration spec + quantization spec <= e -> released = sum).
Proof.
  intros ok Hs Hv. destruct (add_locked_spec cur sum pps spec v ok Hs Hv)
    as (u & v' & H & Hv' & Hu & Ht & new & Hnn & Htn & Hr & Hl).
  exists u, v'. split; [done|]. split; [done|]. split; [done|]. intros e He. cbn zeta. rewrite (Hl e He).
  set (vb := cur + initial_delay spec) in *. destruct (Hr e) as [Hlo Hhi]. rewrite Htn in Hlo, Hhi.
  rewrite vested_at_begin in Hlo, Hhi by done.
  pose proof (vested_at_le spec ok vb sum Hs (Z.max vb (e - 1))) as Hle.
  pose proof (vested_at_linear spec ok vb sum Hs (Z.max vb (e - 1)) ltac:(lia)) as Hlin.
  pose proof (so_period _ ok) as Hp. pose proof (locked_le_total e new Hnn) as Hb.
  split; [lia|]. split.
  - replace (Z.max 0 (e - 1 - vb)) with (Z.max vb (e - 1) - vb) by lia. nia.
  - intros Hend. rewrite vested_at_end in Hlo by lia. lia.
Qed.

(** Unlocking for a penalty takes everything that has vested, then unvested
    funds up to the target, and no more than there are; what is left is the rest
    of the table.  Unlocking vested funds takes exactly the funds before the epoch
    and keeps the others as they are. *)
Theorem vesting_unlock cur target v : vest_wf v -> 0 <= target ->
  (exists vested unvested v',
    Vesting.unlock_vested_and_unvested_funds cur target v = (vested, unvested, v') /\ vest_wf v' /\
    vested = total (raw_funds v) - locked cur (raw_funds v) /\
    unvested = Z.min target (locked cur (raw_funds v)) /\
    total (raw_funds v') = total (raw_funds v) - vested - unvested) /\
  exists vested v', Vesting.unlock_vested_funds cur v = (vested, v') /\ vest_wf v' /\
    vested = total (raw_funds v) - locked cur (raw_funds v) /\
    forall e, cur <= e -> locked e (raw_funds v') = locked e (raw_funds v).
Proof.
  intros Hv Ht. split.
  - destruct (Vesting.unlock_vested_and_unvested_funds cur target v) as [[a b] v'] eqn:E. exists a, b, v'.
    destruct (unlock_both_spec _ _ _ _ _ _ Hv Ht E) as (? & -> & -> & ->). repeat (split; [done|]). lia.
  - destruct (Vesting.unlock_vested_funds cur v) as [a v'] eqn:E. exists a, v'.
    destruct (unlock_vested_spec _ _ _ _ Hv E) as (? & ? & ? & ?). done.
Qed.

(** ** The calendar *)

(** Every epoch lies in the challenge window of exactly one deadline of a
    miner's schedule, the one [deadline_info] computes, and that window is
    [wpost_challenge_window] epochs of the proving period it computes. *)
Theorem deadline_calendar p e s start idx : calendar_ok p ->
  let di := St.deadline_info p e s in
  (open di <= e < close di /\ 0 <= index di < wpost_period_deadlines p /\
   (period_start di - proving_period_start s) mod wpost_proving_period p = 0 /\
   open di = period_start di + index di * wpost_challenge_window p /\
   close di = open di + wpost_challenge_window p) /\
  ((start - proving_period_start s) mod wpost_proving_period p = 0 -> 0 <= idx < wpost_period_deadlines p ->
   start + idx * wpost_challenge_window p <= e < start + (idx + 1) * wpost_challenge_window p ->
   start = period_start di /\ idx = index di).
Proof.
  intros cal di. destruct (deadline_of_epoch p cal (proving_period_start s) e) as (H1 & H2 & H3 & H4 & H5 & H6 & _).
  split; [done|]. intros Hm Hi He. unfold di, St.deadline_info.
  rewrite (deadline_of_epoch_unique p cal (proving_period_start s) e start idx Hm Hi He).
  destruct (di_new_in p start idx e Hi) as (-> & -> & _). done.
Qed.

(** The cron methods only add to the messages sent. *)
Section sent.
Context {Net : Type} (x : Ext) (env : Env Net State Param (list Z)) (ctx : Ctx).
Notation M := (M Net State Param (list Z)).

Definition grows {A} (m : M A) : Prop := forall w a w', m w = Ok (a, w') -> exists l, w_sent w' = w_sent w ++ l.

Lemma grows_same {A} (m : M A) : (forall w a w', m w = Ok (a, w') -> w_sent w' = w_sent w) -> grows m.
Proof. intros H w a w' E. exists []. by rewrite app_nil_r, (H _ _ _ E). Qed.
Lemma grows_bind {A B} (m : M A) (f : A -> M B) : grows m -> (forall a, grows (f a)) -> grows (bind m f).
Proof.
  intros Hm Hf w b w' (a & w1 & H1 & H2)%bind_ok. destruct (Hm _ _ _ H1) as [l1 E1], (Hf _ _ _ _ H2) as [l2 E2].
  exists (l1 ++ l2). by rewrite E2, E1, app_assoc.
Qed.
Lemma grows_ret {A} (a : A) : grows (ret a).
Proof. apply grows_same. intros w b w' H. by run_inv. Qed.
Lemma grows_lift {A} (r : Res error A) : grows (lift r).
Proof. apply grows_same. intros w b w' H. by run_inv. Qed.
Lemma grows_call_unit to m p v : grows (call_unit env to m p v).
Proof. intros w a w' H. unfold call_unit, call, send_simple in H. run_inv. cbn. by eexists. Qed.
Lemma grows_update_power d : grows (request_update_power env d).
Proof. unfold request_update_power. destruct (pp_is_zero d); [apply grows_ret|apply grows_call_unit]. Qed.
Lemma grows_burn n : grows (burn_funds env n).
Proof. unfold burn_funds. destruct (_ >? 0); [apply grows_call_unit|apply grows_ret]. Qed.
Lemma grows_pledge n : grows (notify_pledge_changed env n).
Proof. unfold notify_pledge_changed. destruct (_ =? 0); [apply grows_ret|apply grows_call_unit]. Qed.
Lemma grows_deals e ns : grows (request_terminate_deals env ctx e ns).
Proof.
  unfold request_terminate_deals. destruct (bf_empty ns); [apply grows_ret|]. apply grows_bind.
  - intros w a w' H. unfold send_simple in H. run_inv. cbn. by eexists.
  - intros r. destruct (bool_decide _); (apply grows_bind; [|intros; apply grows_ret]); [|apply grows_lift].
    apply grows_same. by intros w a w' [-> _]%caught_ok.
Qed.
Lemma grows_early rew pwr : grows (process_early_terminations x env ctx rew pwr).
Proof.
  unfold process_early_terminations. apply grows_bind.
  - apply grows_same. intros w a w' (s & s' & w1 & _ & H & ->)%transaction_rt_ok. by run_inv.
  - intros [[[[any more] pen] pl] wd]. destruct (negb any); [apply grows_ret|].
    apply grows_bind; [apply grows_burn|intros _]. apply grows_bind; [apply grows_pledge|intros _].
    apply grows_bind; [apply grows_deals|intros _]. apply grows_ret.
Qed.
End sent.

Lemma sent_tail {Net} x (env : Env Net State Param (list Z)) ctx (b : bool) rew pwr :
  grows (if b then
           let* more := process_early_terminations x env ctx rew pwr in
           if more then schedule_early_termination_work x env ctx else ret tt
         else ret tt).
Proof.
  destruct b; [|apply grows_ret]. apply grows_bind; [apply grows_early|intros []; [apply grows_call_unit|apply grows_ret]].
Qed.

(** The next event is among the messages exactly when it is asked for. *)
Lemma enrolled {Net} x (env : Env Net State Param (list Z)) (b : bool) e k w u w' :
  (if b then enroll_cron_event x env e k else ret tt) w = Ok (u, w') ->
  w_sent w' = w_sent w ++
    (if b then [mkSend STORAGE_POWER_ACTOR_ADDR ENROLL_CRON_EVENT_METHOD
                  (PEnrollCronEvent e (serialize_cron_payload x k)) 0 false] else []).
Proof.
  destruct b; intros H; [unfold enroll_cron_event, call_unit, call, send_simple in H|]; run_inv; [done|by rewrite app_nil_r].
Qed.

(** The fields of the calendar. *)
Definition same_period (s s' : State) : Prop :=
  proving_period_start s' = proving_period_start s /\ current_deadline s' = current_deadline s.

Lemma repay_period e b s burn tot s' : St.repay_partial_debt_in_priority_order e b s = Ok (burn, tot, s') -> same_period s s'.
Proof.
  unfold St.repay_partial_debt_in_priority_order, St.unlock_vested_and_unvested_funds. intros H.
  apply rbind_ok in H as ([[u t] s1] & H1 & H). assert (same_period s s1) as Hp.
  { destruct (_ || _); [by minv|]. destruct (Vesting.unlock_vested_and_unvested_funds _ _ _) as [[? ?] ?]. cbn zeta in H1. by minv. }
  minv. by destruct Hp.
Qed.

Lemma unlock_period e s u s' : St.unlock_vested_funds e s = Ok (u, s') -> same_period s s'.
Proof.
  unfold St.unlock_vested_funds. intros H. destruct (_ =? _); [by minv|].
  destruct (Vesting.unlock_vested_funds _ _). cbn zeta in H. by minv.
Qed.

Lemma penalty_period n s s' : St.apply_penalty n s = Ok s' -> same_period s s'.
Proof. unfold St.apply_penalty. intros H. by minv. Qed.

Lemma cleanup_period e s d s' : St.cleanup_expired_pre_commits e s = Ok (d, s') -> same_period s s'.
Proof.
  unfold St.cleanup_expired_pre_commits. intros H. apply rbind_ok in H as ([[ns md] q] & _ & H). cbn zeta in H.
  apply rbind_ok in H as (s1 & H1 & H). minv.
  assert (same_period (if md then St.set_cleanup q s else s) s1) as [E1 E2].
  { destruct (fst <$> _); [by minv|]. by apply delete_spec in H1 as (m & -> & _). }
  split; cbn; [rewrite E1|rewrite E2]; by destruct md.
Qed.
Lemma same_period_trans s1 s2 s3 : same_period s1 s2 -> same_period s2 s3 -> same_period s1 s3.
Proof. unfold same_period. intros [] []. split; congruence. Qed.

(** The miner still has deposits, pledge or locked rewards to watch over. *)
Definition work_left (s : State) : Prop :=
  pre_commit_deposits s <> 0 \/ st_initial_pledge s <> 0 \/ locked_funds s <> 0.
Lemma continue_work s : if St.continue_deadline_cron s then work_left s else ~ work_left s.
Proof.
  unfold St.continue_deadline_cron, work_left.
  destruct (Z.eqb_spec (pre_commit_deposits s) 0), (Z.eqb_spec (st_initial_pledge s) 0), (Z.eqb_spec (locked_funds s) 0);
    cbn; tauto.
Qed.

(** The transaction of the deadline's end is an advance of the deadline as far as
    the calendar is concerned. *)
Lemma end_deadline_advances x ctx b rew pwr s r s' : end_deadline x ctx b rew pwr s = Ok (r, s') ->
  (exists s1 ad s2, same_period s s1 /\ St.advance_deadline (policy x) (ctx_epoch ctx) s1 = Ok (ad, s2) /\ same_period s2 s') /\
  (if de_continue_cron r then work_left s' else ~ work_left s' /\ deadline_cron_active s' = false).
Proof.
  intros H. unfold end_deadline in H. cbn zeta in H.
  apply rbind_ok in H as ([d s1] & H1 & H). apply dc_ok, cleanup_period in H1.
  apply rbind_ok in H as (s2 & H2 & H). apply mc_ok, penalty_period in H2.
  apply rbind_ok in H as ([ad s3] & H3 & H). apply dc_ok in H3.
  apply rbind_ok in H as (pt & _ & H). apply rbind_ok in H as (s4 & H4 & H). apply mc_ok, penalty_period in H4.
  apply rbind_ok in H as (s5 & H5 & H).
  assert (same_period s4 s5) as Hp5.
  { destruct (_ >? 0); [|by minv]. apply rbind_ok in H5 as (dr & _ & H5). by apply mc_ok, penalty_period in H5. }
  apply rbind_ok in H as ([[pn tu] s6] & H6 & H). apply dc_ok, repay_period in H6.
  apply rbind_ok in H as ([nv s7] & H7 & H). apply dc_ok, unlock_period in H7. injection H as <- <-. split.
  - exists s2, ad, s3. split; [|split; [exact H3|]].
    + eapply same_period_trans; [|exact H2]. eapply same_period_trans; [|exact H1].
      unfold process_pending_worker. destruct (pending_worker_key _); [by destruct (_ <? _)|done].
    + do 3 (eapply same_period_trans; [eassumption|]). eapply same_period_trans; [exact H7|].
      by destruct (St.continue_deadline_cron s7).
  - cbn. pose proof (continue_work s7) as Hc. by destruct (St.continue_deadline_cron s7).
Qed.

