(* ===== verification/MinerPower.v ===== *)
(** * A miner and the power actor

    The miner of MinerActor.v with the power actor of Power.v: the messages it
    sends there run the methods of Power.v on the power actor's state.  The claim
    in the table of the power actor is that of the active sectors. *)

From S2P Require Import Prelude Runtime Chain Smooth Power PowerProofs PowerProps Collections MinerBase MinerQueues MinerPartition MinerDeadline MinerFunds MinerState MinerCalls MinerSectors MinerActor MinerEpochs MinerVesting MinerMoney MinerPlan MinerParts MinerDeadlines MinerStanding MinerChain MinerClaims MinerProps.

Import Miner.

(** The message of the power actor that a request of the miner is. *)
Definition power_msg (req : SendReq Param) : Power.Msg :=
  let n := send_method req in
  match send_params req with
  | PUpdateClaimedPower r q => if n =? UPDATE_CLAIMED_POWER_METHOD then Power.UpdateClaimedPower r q else Power.OtherMethod n
  | PEnrollCronEvent e b => if n =? ENROLL_CRON_EVENT_METHOD then Power.EnrollCronEvent e b else Power.OtherMethod n
  | PUpdatePledgeTotal d => if n =? UPDATE_PLEDGE_TOTAL_METHOD then Power.UpdatePledgeTotal d else Power.OtherMethod n
  | PNone => if n =? CURRENT_TOTAL_POWER_METHOD then Power.CurrentTotalPower else Power.OtherMethod n
  | _ => Power.OtherMethod n
  end.

Definition succeeded (r : Response (list Z) + ErrorNumber) : bool :=
  match r with inl resp => is_success (resp_code resp) | inr _ => false end.

(** The power recorded for the miner. *)
Definition recorded (id : Z) (st : Power.State) : PowerPair :=
  match Power.claims st !! AddrId id with
  | Some cl => mkPP (Power.raw_byte_power cl) (Power.quality_adj_power cl)
  | None => pp_zero
  end.

Record Joint : Type := mkJoint {
  jt_epoch : Z;
  jt_miner : option State;
  jt_power : Power.State;
}.

Section joint.
Context {Net : Type} (x : Ext) (pext : Power.Ext) (ppol : Power.Policy) (id : Z).
Context (power_of_net : Net -> Power.State).

(** The sends to the power actor run its methods, for the miner as caller. *)
Definition answers (env : Env Net State Param (list Z)) : Prop :=
  forall req w r w', to_addr req = STORAGE_POWER_ACTOR_ADDR -> send env req w = Ok (r, w') ->
    exists (PNet : Type) (penv : Env PNet Power.State Power.Params (list Z)) pctx pnet funds, caller pctx = AddrId id /\
      match trampoline (fun env => Power.invoke_method pext ppol env) penv pctx (power_msg req)
              (Some (power_of_net (w_net w))) funds pnet with
      | Committed _ pw => w_state pw = Some (power_of_net (w_net w')) /\ succeeded r = true
      | Aborted _ => power_of_net (w_net w') = power_of_net (w_net w) /\ succeeded r = false
      end.

(** Runs of the two: messages to the miner, whose sends to other actors may run
    the two again, and changes of the power actor's state by others, which leave
    the miner's claim alone. *)
Inductive joint : Joint -> Joint -> Prop :=
| joint_refl c : joint c c
| joint_tick e e' s st c : e <= e' -> joint (mkJoint e' s st) c -> joint (mkJoint e s st) c
| joint_others e s st st' c :
    Power.claims st' !! AddrId id = Power.claims st !! AddrId id ->
    joint (mkJoint e s st') c -> joint (mkJoint e s st) c
| joint_msg env ctx msg e s st funds net r w c :
    aloof env -> answers env ->
    (forall req w r w', to_addr req <> STORAGE_POWER_ACTOR_ADDR -> send env req w = Ok (r, w') ->
       joint (mkJoint e (w_state w) (power_of_net (w_net w))) (mkJoint e (w_state w') (power_of_net (w_net w')))) ->
    ctx_ok ctx = true -> ctx_epoch ctx = e -> timely ctx msg s -> power_of_net net = st ->
    trampoline (fun env => invoke_method x env) env ctx msg s funds net = Committed r w ->
    w_deleted w = false ->
    joint (mkJoint e (w_state w) (power_of_net (w_net w))) c -> joint (mkJoint e s st) c.

Lemma joint_trans c1 c2 c3 : joint c1 c2 -> joint c2 c3 -> joint c1 c3.
Proof.
  intros H1 H2. induction H1; [done| | |].
  - eapply joint_tick; eauto.
  - eapply joint_others; eauto.
  - eapply joint_msg; eauto.
Qed.

Definition RelJ (c c' : Joint) : Prop := forall pr, additive pr ->
  tally x pr 0 (jt_miner c) (jt_miner c') (pr (recorded id (jt_power c))) (pr (recorded id (jt_power c'))).

(** What a request does to the claim. *)
Lemma power_msg_update req : to_addr req = STORAGE_POWER_ACTOR_ADDR ->
  (reports (power_msg req) = true /\ update_of req = pp_zero) \/
  exists r q, power_msg req = Power.UpdateClaimedPower r q /\ update_of req = mkPP r q.
Proof.
  intros Ht. unfold power_msg, update_of. rewrite Ht, bool_decide_eq_true_2 by done. cbn [andb].
  destruct (send_params req); try (left; split; [|done]; try destruct (_ =? _); done).
  destruct (_ =? _); [right; by eexists _, _|by left].
Qed.

Lemma cost_of pr req r : additive pr -> claim_cost pr req r = if succeeded r then - pr (update_of req) else 0.
Proof. intros _. by destruct r. Qed.

Lemma answered_claim env req w r w' : answers env -> to_addr req = STORAGE_POWER_ACTOR_ADDR ->
  send env req w = Ok (r, w') ->
  forall pr, additive pr ->
    pr (recorded id (power_of_net (w_net w'))) = pr (recorded id (power_of_net (w_net w))) - claim_cost pr req r.
Proof.
  intros Ha Ht H. destruct (Ha _ _ _ _ Ht H) as (PNet & penv & pctx & pnet & funds & Hid & Hm).
  destruct (trampoline _ _ _ _ _ _ _) as [ret pw|] eqn:E; destruct Hm as [Hs Hr].
  - destruct (power_msg_update req Ht) as [[Hp Hu]|(dr & dq & Hp & Hu)].
    + destruct (report_keeps_claims _ _ _ _ _ _ _ _ _ _ Hp E) as (st' & Hst & Hc). rewrite Hs in Hst. injection Hst as <-.
      unfold recorded. rewrite Hc. intros pr Hpr. rewrite cost_of, Hr, Hu, additive_zero by done. lia.
    + rewrite Hp in E. destruct (update_adds_claim _ _ _ _ _ _ _ _ _ _ _ E) as (st' & cl & Hst & Hcl & Hc).
      rewrite Hs in Hst. injection Hst as <-. rewrite Hid in Hcl, Hc. unfold recorded.
      rewrite Hc, Hcl, lookup_insert_eq. intros pr Hpr. rewrite cost_of, Hr, Hu by done. cbn.
      change (mkPP (?a + dr) (?b + dq)) with (pp_add (mkPP a b) (mkPP dr dq)). rewrite Hpr. lia.
  - rewrite Hs. intros pr Hpr. rewrite cost_of, Hr by done. lia.
Qed.

Lemma joint_sends env e pr : additive pr -> aloof env -> answers env ->
  (forall req w r w', to_addr req <> STORAGE_POWER_ACTOR_ADDR -> send env req w = Ok (r, w') ->
     RelJ (mkJoint e (w_state w) (power_of_net (w_net w))) (mkJoint e (w_state w') (power_of_net (w_net w')))) ->
  send_moves (claimed pr (fun n => recorded id (power_of_net n))) (claim_cost pr) (RelP x pr) env e.
Proof.
  intros Hpr Hal Han Ho req w r w' H. unfold RelP, claimed. cbn. destruct (decide (to_addr req = STORAGE_POWER_ACTOR_ADDR)) as [Ht|Ht].
  - rewrite (Hal req w r w') by (try done; by right; right). rewrite (answered_claim _ _ _ _ _ Han Ht H pr Hpr). apply tally_refl.
  - replace (claim_cost pr req r) with 0; [rewrite Z.sub_0_r; by apply (Ho _ _ _ _ Ht H pr Hpr)|].
    rewrite cost_of by done. unfold update_of. rewrite bool_decide_eq_false_2 by done. cbn [andb].
    destruct (succeeded r), (send_params req); rewrite ?additive_zero by done; done.
Qed.

Lemma joint_rel c c' : calendar_ok (policy x) -> joint c c' -> RelJ c c'.
Proof.
  intros cal H.
  induction H as [c|e e' s st c He H IH|e s st st' c Hc H IH
    |env ctx msg e s st funds net r w c Hal Han Ho IHo Hctx He Ht Hn Hrun Hdel H IH]; intros pr Hpr.
  - apply tally_refl.
  - by apply IH.
  - replace (recorded id (jt_power (mkJoint e s st))) with (recorded id st'); [by apply (IH pr Hpr)|].
    unfold recorded. cbn. by rewrite Hc.
  - eapply (tally_trans _ _ 0 0); [|exact (IH pr Hpr)]. cbn. unfold trampoline in Hrun.
    destruct (invoke_method _ _ _ _ _) as [[r' w']| |] eqn:E; [|discriminate|discriminate].
    destruct (w_validated w'); [|discriminate]. injection Hrun as <- <-. intros s0 Hs0 I. subst s st e.
    assert (forall d n, msg = DisputeWindowedPoSt d n -> snapshot_agrees d s0) as Hd by (intros d n ->; by apply Ht).
    pose proof (invoke_owes x cal pr Hpr (fun n => recorded id (power_of_net n)) env ctx
      (joint_sends env _ pr Hpr Hal Han IHo) Hal s0 msg Hd) as Hi.
    exact (Hi (mkWorld (Some s0) funds net false false []) _ _ eq_refl E s0 eq_refl I).
Qed.
End joint.

(** C5: the power actor's record of a miner is that of its active sectors, as long
    as no deferred cron call to the miner fails, upon which the power actor
    deletes the claim, and every dispute of a proof finds the snapshot of its
    deadline in agreement with the sector table.  A miner is constructed when the
    power actor records no power for it.  Then messages arrive at the miner,
    disputes of that kind only, its sends to the power actor run the methods of
    Power.v, and other messages may change the power actor's state but not the
    miner's claim.  After any such run the claim in the table of the power actor
    has the raw power of the sector size times the number of active sectors, and
    the sum of their quality-adjusted powers. *)
Theorem miner_claim_recorded {Net} x pext ppol id (power_of_net : Net -> Power.State) (env : Env Net State Param (list Z)) ctx p w0 u w st c :
  calendar_ok (policy x) -> partitions_ok x ->
  undisturbed env -> w_state w0 = None -> constructor x env ctx p w0 = Ok (u, w) -> recorded id st = pp_zero ->
  joint x pext ppol id power_of_net (mkJoint (ctx_epoch ctx) (w_state w) st) c ->
  exists s, jt_miner c = Some s /\
    recorded id (jt_power c) = mkPP (sector_size (info s) * bf_len (active_sectors s))
      (ssum (fun n => qa (power_of (sector_size (info s)) (st_sectors s) n)) (active_sectors s)).
Proof.
  intros cal Hp Hu Hn H Hz Hj. destruct (constructor_standing x env ctx Hu p w0 u w cal Hp Hn H) as (s0 & Hs0 & I0 & A0).
  apply joint_rel in Hj; [|done].
  destruct (Hj raw ltac:(by intros [] []) s0 Hs0 I0) as (s & Hs & (_ & S & _) & _ & Er).
  destruct (Hj qa ltac:(by intros [] []) s0 Hs0 I0) as (s' & Hs' & _ & _ & Eq).
  rewrite Hs in Hs'. injection Hs' as <-. exists s. split; [done|]. rewrite <- (active_power_spec _ _ S).
  cbn in Er, Eq. rewrite Hz, A0 in Er, Eq. cbn in Er, Eq.
  destruct (recorded id (jt_power c)) as [a b], (active s) as [a' b']. cbn in *. f_equal; lia.
Qed.
