(* ===== verification/MinerDemo.v ===== *)
(** * Runs of the miner actor

    A miner is created, pre-commits a sector and proves it, in an environment
    whose other actors answer and keep the power claimed; the hypotheses of the
    theorems on the miner hold there. *)

From S2P Require Import Prelude Runtime Chain Batch Smooth Collections MinerBase MinerQueues MinerPartition MinerDeadline MinerFunds MinerState MinerCalls MinerSectors MinerActor MinerEpochs MinerVesting MinerMoney MinerPlan MinerStanding MinerChain MinerClaims MinerProps.

Import Miner.

Module MinerDemo.

Definition GiB : Z := 2 ^ 30.
Definition demo_policy : Policy := default_policy (fun p => p =? 8).
Definition demo_proofs : ProofTypes :=
  mkProofTypes (fun _ => Some (32 * GiB)) (fun _ => Some (32 * GiB)) (fun _ => Some 2349) (fun _ => Some 8) (fun _ => Some 3).

Definition reward_answer : ThisEpochReward :=
  mkThisEpochReward (mkEstimate (Z.shiftl (10 ^ 18) 128) 0) (Z.shiftl 1 50).
Definition power_answer : CurrentTotalPower :=
  mkTotalPower (Z.shiftl 1 50) (Z.shiftl 1 50) (10 ^ 18) (mkEstimate (Z.shiftl (Z.shiftl 1 50) 128) 0) 0 0.

Definition demo : Ext := {|
  policy := demo_policy; proofs := demo_proofs;
  post_proof_size := fun _ => Some 192; seal_proof_size := fun _ => Some 1920;
  SNARK_PACK_V2 := 1; FIL_COMMITMENT_UNSEALED := 61697; SHA2_256_TRUNC254_PADDED := 4114;
  method_hash := fun _ => 2 ^ 24 + 1;
  serialize_address := fun _ => [1]; serialize_cron_payload := fun t => [t];
  decode_cron_payload := head;
  decode_address := fun _ => Some (AddrOther 3 [9]);
  decode_reward := fun _ => Some reward_answer; decode_power := fun _ => Some power_answer;
  decode_unsealed_cids := fun _ => None; decode_activations := fun _ => None;
  decode_claim_return := fun _ => Some (mkClaimReturn (batch_ok 1) [32 * GiB]); decode_claims := fun _ => None; decode_notification := fun _ => None;
  address_order := id;
  total_fil_circ_supply := fun _ => 10 ^ 26; network_version := fun _ => 26;
  ticket_randomness := fun _ => inl [2]; beacon_randomness := fun _ => inl [3]; hash_blake2b := id;
  verify_post := fun _ l _ _ => forallb (fun q => negb (bool_decide (proof_bytes q = [0]))) l; verify_replica_update := fun _ => true;
  batch_verify_seals := fun l => Some ((fun _ => true) <$> l);
  verify_aggregate_seals := fun _ _ _ _ _ => true;
  compute_unsealed_sector_cid := fun _ _ => Some (mkCid 1 61697 4114 (replicate 32 5));
  verify_consensus_fault := fun _ _ _ => None |}.

(** Every send succeeds and changes nothing but the balance and the power
    claimed. *)
Definition demo_env : Env PowerPair State Param (list Z) :=
  mkEnv (fun _ a => addr_id a) (fun _ _ => Some 0) (fun _ => Some TAccount) (fun l => l)
    (fun req net s bal => mkSendOut (inl (mkResp EC_OK (Some []))) s (bal - send_value req) (pp_add net (update_of req))).

Lemma demo_undisturbed : undisturbed demo_env.
Proof. intros req w r w' Hv [-> ->]%send_ok. cbn. rewrite Hv, Z.sub_0_r. done. Qed.

Lemma demo_confined : confined demo demo_env.
Proof. intros req w r w' _ [-> ->]%send_ok. exists 0, 0, 0. apply chain_refl. Qed.

Lemma demo_sends (R : Conf State -> Conf State -> Prop) e : (forall c, R c c) ->
  send_moves w_balance debited R demo_env e.
Proof. intros HR req w r w' [-> ->]%send_ok. cbn. apply HR. Qed.

Definition init_ctx : Ctx := mkCtx 1 100 1000 0 100.
Definition owner_ctx (e : Z) : Ctx := mkCtx 101 101 1000 0 e.

Definition creation : MinerConstructorParams := mkConstructor (AddrId 101) (AddrId 102) [] 8 [7] [].
Definition funds : Z := 10 ^ 21.

Definition blank : World PowerPair State Param := mkWorld None funds pp_zero false false [].

Definition created : World PowerPair State Param :=
  match constructor demo demo_env init_ctx creation blank with Ok (_, w) => w | _ => blank end.

(** A message to the miner; an aborted one changes nothing. *)
Definition deliver (ctx : Ctx) (m : Msg) (w : World PowerPair State Param) : World PowerPair State Param :=
  match trampoline (fun env => invoke_method demo env) demo_env ctx m (w_state w) (w_balance w) (w_net w) with
  | Committed _ w' => w'
  | Aborted _ => w
  end.

Definition commits (ctx : Ctx) (m : Msg) (w : World PowerPair State Param) : bool :=
  match trampoline (fun env => invoke_method demo env) demo_env ctx m (w_state w) (w_balance w) (w_net w) with
  | Committed _ w' => negb (w_deleted w')
  | Aborted _ => false
  end.

Definition conf_of (e : Z) (w : World PowerPair State Param) : Conf State := mkConf e (w_state w) (w_balance w).

Lemma deliver_chain e e' ctx m w c : e <= e' -> e' = ctx_epoch ctx -> ctx_ok ctx = true -> value ctx = 0 ->
  commits ctx m w = true -> @miner_chain PowerPair demo (conf_of e' (deliver ctx m w)) c ->
  @miner_chain PowerPair demo (conf_of e w) c.
Proof.
  intros He -> Hok Hv Hc Hchain. eapply chain_tick; [exact He|]. unfold commits in Hc. unfold deliver in Hchain.
  destruct (trampoline _ _ _ _ _ _ _) as [r w'|] eqn:E; [|done].
  eapply chain_msg; [exact demo_confined|apply demo_sends, chain_refl|exact Hok|done|done| |exact E| |exact Hchain].
  - cbn. rewrite Hv. lia.
  - by apply negb_true_iff.
Qed.

Definition sealed : Cid := mkCid 1 FIL_COMMITMENT_SEALED POSEIDON_BLS12_381_A1_FC1 (replicate 32 4).
Definition precommit : SectorPreCommitInfo := mkPreCommit DRG32GiBV1P1 5 sealed 150 [] 1500000 None.
Definition pre_committed : World PowerPair State Param :=
  deliver (owner_ctx 200) (PreCommitSectorBatch2 [precommit]) created.

Definition proof_params : ProveCommitSectors3Params :=
  mkProveCommit3 [mkActivationManifest 5 []] [[6]] [] None true true.
Definition committed : World PowerPair State Param :=
  deliver (owner_ctx 400) (ProveCommitSectors3 proof_params) pre_committed.

Lemma created_ok : constructor demo demo_env init_ctx creation blank = Ok (tt, created).
Proof. vm_compute. reflexivity. Qed.

Lemma pre_committed_chain : @miner_chain PowerPair demo (conf_of 100 created) (conf_of 200 pre_committed).
Proof.
  apply (deliver_chain 100 200 (owner_ctx 200) (PreCommitSectorBatch2 [precommit]));
    [lia|reflexivity|reflexivity|reflexivity|vm_compute; reflexivity|apply chain_refl].
Qed.
Lemma committed_chain : @miner_chain PowerPair demo (conf_of 200 pre_committed) (conf_of 400 committed).
Proof.
  apply (deliver_chain 200 400 (owner_ctx 400) (ProveCommitSectors3 proof_params));
    [lia|reflexivity|reflexivity|reflexivity|vm_compute; reflexivity|apply chain_refl].
Qed.

Lemma miner_run : @miner_chain PowerPair demo
  (mkConf (ctx_epoch init_ctx) (w_state created) (w_balance created)) (conf_of 400 committed).
Proof.
  change (mkConf (ctx_epoch init_ctx) (w_state created) (w_balance created)) with (conf_of 100 created).
  eapply chain_trans; [exact pre_committed_chain|exact committed_chain].
Qed.

Lemma miner_solvency_witness : exists s, w_state committed = Some s /\
  pre_commit_deposits s + locked_funds s + st_initial_pledge s <= w_balance committed.
Proof.
  pose proof (miner_solvency demo demo_env init_ctx creation blank tt created (conf_of 400 committed)
    demo_undisturbed eq_refl created_ok miner_run) as (s & Hs & Hb & _).
  exists s. split; [exact Hs|exact Hb].
Defined.

Definition state_of (w : World PowerPair State Param) : State :=
  default (St.new demo_policy (mkMinerInfo (AddrId 0) (AddrId 0) [] None [] [] 0 0 0 0 None (AddrId 0) default_term None) 0 0)
    (w_state w).

Lemma state_pre_committed : c_state (conf_of 200 pre_committed) = Some (state_of pre_committed).
Proof. vm_compute. reflexivity. Qed.
Lemma state_committed : c_state (conf_of 400 committed) = Some (state_of committed).
Proof. vm_compute. reflexivity. Qed.

Lemma miner_numbers_once_witness :
  5 ∈ allocated_sectors (state_of pre_committed) /\ pre_committed_sectors (state_of committed) !! 5 = None.
Proof.
  pose proof (miner_numbers_once demo demo_env init_ctx creation blank tt created
    (conf_of 200 pre_committed) (conf_of 400 committed) (state_of pre_committed) (state_of committed)
    demo_undisturbed eq_refl created_ok pre_committed_chain committed_chain state_pre_committed state_committed)
    as (_ & H & _).
  destruct (H 5 (mkPreCommitOnChain precommit 17578125000000000000 200)) as (_ & H1 & [H2|H2]);
    [vm_compute; reflexivity|split; [exact H1|exact H2]|].
  exfalso. vm_compute in H2. discriminate.
Defined.

(** ** Vesting *)

Definition table : VestingFunds := Some (mkFund 10 5, [mkFund 20 7; mkFund 30 9]).
Lemma table_wf : vest_wf table.
Proof.
  split; [repeat constructor; cbn; lia|]. exists 0. cbn. lia.
Qed.

Lemma vesting_linear_witness : exists unlocked v',
  Vesting.add_locked_funds 15 1000 0 REWARD_VESTING_SPEC table = Ok (unlocked, v') /\ unlocked = 5 /\
  locked 600000 (raw_funds v') = 0.
Proof.
  destruct (vesting_linear 15 1000 0 REWARD_VESTING_SPEC table reward_spec_ok ltac:(lia) table_wf)
    as (u & v' & H & _ & Hu & Hr).
  exists u, v'. split; [exact H|]. split; [rewrite Hu; reflexivity|].
  destruct (Hr 600000 ltac:(lia)) as (_ & _ & Hend).
  specialize (Hend ltac:(vm_compute; discriminate)). change (locked 600000 (raw_funds table)) with 0 in Hend. lia.
Defined.

Lemma vesting_unlock_witness : exists v',
  Vesting.unlock_vested_and_unvested_funds 15 10 table = (5, 10, v') /\ total (raw_funds v') = 6.
Proof.
  destruct (vesting_unlock 15 10 table table_wf ltac:(lia)) as [(a & b & v' & H & _ & -> & -> & Ht) _].
  exists v'. split; [exact H|]. rewrite Ht. reflexivity.
Defined.

(** ** The calendar *)

Lemma deadline_calendar_witness :
  index (St.deadline_info demo_policy 400 (state_of committed)) = 2.
Proof.
  destruct (deadline_calendar demo_policy 400 (state_of committed) 256 2 (default_calendar _)) as [_ H].
  destruct H as [_ H]; [vm_compute; reflexivity|vm_compute; split; [discriminate|reflexivity]|
    vm_compute; split; [discriminate|reflexivity]|]. exact (eq_sym H).
Defined.

(** The cron event at the last epoch of a deadline. *)
Definition cron_ctx : Ctx := mkCtx 4 0 1000 0 255.
Definition cron_world : World PowerPair State Param := mkWorld (w_state pre_committed) (w_balance pre_committed) pp_zero true false [].

Definition rew : FilterEstimate := this_epoch_reward_smoothed reward_answer.
Definition pwr : FilterEstimate := quality_adj_power_smoothed power_answer.
Definition cron_done : World PowerPair State Param :=
  match handle_proving_deadline demo demo_env cron_ctx rew pwr cron_world with Ok (_, w) => w | _ => blank end.
Lemma cron_done_ok : handle_proving_deadline demo demo_env cron_ctx rew pwr cron_world = Ok (tt, cron_done).
Proof. vm_compute. reflexivity. Qed.
Lemma cron_continues :
  match end_deadline demo cron_ctx (w_balance cron_world) rew pwr (state_of pre_committed) with
  | Ok (_, s) => pre_commit_deposits s | _ => 0 end <> 0.
Proof. vm_compute. discriminate. Qed.
Lemma cron_last : ctx_epoch cron_ctx = last (St.deadline_info demo_policy (ctx_epoch cron_ctx) (state_of pre_committed)) /\
  proving_period_start (state_of pre_committed) = period_start (St.deadline_info demo_policy (ctx_epoch cron_ctx) (state_of pre_committed)).
Proof. vm_compute. split; reflexivity. Qed.

End MinerDemo.
