(* ===== verification/MinerClaimDemo.v ===== *)
(** * Runs of the miner actor: the power it claims

    The sector of MinerDemo.v is proven with a window PoSt, its deadline ends,
    and its replica is updated with verified data: the power claimed follows, by
    itself and with the power actor of Power.v.
    Then the PoSt, which was invalid, is disputed: the faults are recorded with
    the sector's info from before the update, and the power the update added
    stays claimed for a miner without active sectors. *)

From S2P Require Import Prelude Runtime Chain Batch Smooth Power PowerProofs PowerProps Collections MinerBase MinerQueues MinerPartition MinerDeadline MinerFunds MinerState MinerCalls MinerSectors MinerActor MinerEpochs MinerVesting MinerMoney MinerPlan MinerParts MinerStanding MinerChain MinerClaims MinerProps MinerPower MinerDemo.

Import Miner.

Module MinerClaimDemo.
Import MinerDemo.

Notation DemoWorld := (World PowerPair State Param).

Lemma demo_aloof : aloof demo_env.
Proof. by intros req w r w' _ [-> ->]%send_ok. Qed.

Lemma demo_partitions : partitions_ok demo.
Proof. by intros t n [= <-]. Qed.

Lemma demo_claims pr (R : Conf State -> Conf State -> Prop) e : additive pr -> (forall c, R c c) ->
  send_moves (claimed pr id) (claim_cost pr) R demo_env e.
Proof.
  intros Ha HR req w r w' [-> ->]%send_ok. cbn. unfold claimed. cbn. rewrite Ha.
  replace (pr (w_net w) - - pr (update_of req)) with (pr (w_net w) + pr (update_of req)) by lia. apply HR.
Qed.

(** The configuration with the power claimed. *)
Definition claim_conf (pr : PowerPair -> Z) (e : Z) (w : DemoWorld) : Conf State := mkConf e (w_state w) (claimed pr id w).

(** Runs in which only the messages [adm] are delivered. *)
Definition demo_chain (pr : PowerPair -> Z) (adm : Ctx -> Msg -> option State -> Prop) : Conf State -> Conf State -> Prop :=
  chain (fun env : Env PowerPair State Param (list Z) => invoke_method demo env) (claimed pr id) (claim_cost pr)
    (fun _ _ => 0) adm aloof steady.

Lemma deliver_claim pr adm e e' ctx m w : additive pr -> e <= e' -> e' = ctx_epoch ctx -> ctx_ok ctx = true ->
  adm ctx m (w_state w) -> commits ctx m w = true ->
  demo_chain pr adm (claim_conf pr e w) (claim_conf pr e' (deliver ctx m w)).
Proof.
  intros Ha He -> Hok Hadm Hc. eapply chain_tick; [exact He|]. unfold commits in Hc. unfold deliver.
  destruct (trampoline _ _ _ _ _ _ _) as [r w'|] eqn:E; [|done].
  eapply chain_msg; [exact demo_aloof|apply demo_claims; [done|apply chain_refl]|exact Hok|done|exact Hadm| |exact E| |apply chain_refl].
  - cbn. unfold claimed. cbn. lia.
  - by apply negb_true_iff.
Qed.

(** Window PoSts of the sector's partition, the end of its deadline, and the
    update of its replica. *)
Definition chain_commit (e : Z) : bytes :=
  draw_randomness (hash_blake2b demo) [2] PoStChainCommit e [].
Definition post (e : Z) (b : bytes) : Msg :=
  SubmitWindowedPoSt (mkSubmitPoSt 0 [mkPoStPartition 0 ∅] [mkPoStProof 8 b] e (chain_commit e)).
Definition deadline_cron (e : Z) : Ctx := mkCtx 4 0 1000 0 e.
Definition deadline_end : Msg := OnDeferredCronEvent [CRON_EVENT_PROVING_DEADLINE] rew pwr.
Definition new_sealed : Cid := mkCid 1 FIL_COMMITMENT_SEALED POSEIDON_BLS12_381_A1_FC1 (replicate 32 8).
Definition replica : Msg := ProveReplicaUpdates3
  (mkReplicaUpdates3 [mkUpdateManifest 5 0 0 new_sealed [mkPiece sealed (32 * GiB) (Some (101, 7)) []]]
     [[1]] [] 3 None true true).

Definition proven : DemoWorld := deliver (owner_ctx 3150) (post 3140 [0]) committed.
Definition ended : DemoWorld := deliver (deadline_cron 3195) deadline_end proven.
Definition updated : DemoWorld := deliver (owner_ctx 3300) replica ended.

Lemma updated_run pr adm : additive pr ->
  (forall ctx m o, (forall d n, m <> DisputeWindowedPoSt d n) -> adm ctx m o) ->
  demo_chain pr adm (claim_conf pr 100 created) (claim_conf pr 3300 updated).
Proof.
  intros Ha Hadm.
  eapply chain_trans; [apply (deliver_claim pr adm 100 200 (owner_ctx 200) (PreCommitSectorBatch2 [precommit]));
    [done|lia|done|done|by apply Hadm|vm_compute; reflexivity]|].
  eapply chain_trans; [apply (deliver_claim pr adm 200 400 (owner_ctx 400) (ProveCommitSectors3 proof_params));
    [done|lia|done|done|by apply Hadm|vm_compute; reflexivity]|].
  eapply chain_trans; [apply (deliver_claim pr adm 400 3150 (owner_ctx 3150) (post 3140 [0]));
    [done|lia|done|done|by apply Hadm|vm_compute; reflexivity]|].
  eapply chain_trans; [apply (deliver_claim pr adm 3150 3195 (deadline_cron 3195) deadline_end);
    [done|lia|done|done|by apply Hadm|vm_compute; reflexivity]|].
  apply (deliver_claim pr adm 3195 3300 (owner_ctx 3300) replica);
    [done|lia|done|done|by apply Hadm|vm_compute; reflexivity].
Qed.

Lemma timely_run pr : additive pr ->
  @power_chain PowerPair demo pr id (mkConf (ctx_epoch init_ctx) (w_state created) 0) (claim_conf pr 3300 updated).
Proof.
  intros Ha. pose proof (updated_run pr timely Ha) as H. unfold claim_conf at 1 in H.
  replace (claimed pr id created) with 0 in H; [apply H; intros ctx [] o Hm; try exact I; by exfalso; eapply Hm|].
  unfold claimed. by replace (w_net created) with pp_zero by (vm_compute; reflexivity); rewrite additive_zero.
Qed.

Lemma raw_additive : additive raw.
Proof. by intros [] []. Qed.
Lemma qa_additive : additive qa.
Proof. by intros [] []. Qed.

Lemma state_updated : c_state (claim_conf raw 3300 updated) = Some (state_of updated).
Proof. vm_compute. reflexivity. Qed.

Lemma miner_claim_exact_witness : exists s, w_state updated = Some s /\
  ssum (fun n => qa (power_of (sector_size (info s)) (st_sectors s) n)) (active_sectors s) = 10 * (32 * GiB).
Proof.
  pose proof (miner_claim_exact demo qa id demo_env init_ctx creation blank tt created (claim_conf qa 3300 updated)
    (default_calendar _) demo_partitions (or_intror eq_refl) demo_undisturbed eq_refl created_ok
    (timely_run qa qa_additive)) as (s & Hs & Hc).
  exists s. split; [exact Hs|]. cbn [qa] in Hc. rewrite <- Hc. vm_compute. reflexivity.
Defined.

Definition first_partition (s : State) : option Partition := d ← head (deadlines s); partitions d !! 0.
Definition sample : Partition := default (Part.new) (first_partition (state_of updated)).

Lemma miner_sectors_sound_witness : 5 ∈ sectors sample /\
  live_power sample = psum (32 * GiB) (st_sectors (state_of updated)) {[5]}.
Proof.
  pose proof (miner_sectors_sound demo id demo_env init_ctx creation blank tt created (claim_conf raw 3300 updated)
    (default_calendar _) demo_partitions demo_undisturbed eq_refl created_ok
    (timely_run raw raw_additive)) as (s & Hs & _ & Hp & _).
  pose proof (Some_inj _ _ (eq_trans (eq_sym Hs) state_updated)) as E. rewrite E in Hp.
  destruct (Hp 0%nat (default DL.new (head (deadlines (state_of updated)))) 0 sample) as [_ _ _ _ (Hl & _) _ _ _ _];
    [vm_compute; reflexivity|vm_compute; reflexivity|]. split; [apply (bool_decide_unpack _); vm_compute; exact I|].
  rewrite Hl. vm_compute. reflexivity.
Defined.

(** ** With the power actor *)

Definition power_ext : Power.Ext := Power.mkExt (fun _ => 2 ^ 24 + 1) 0 (fun _ => None) (fun _ => None).
Definition power_side : Env unit Power.State Power.Params (list Z) :=
  mkEnv (fun _ a => addr_id a) (fun _ _ => Some 0) (fun _ => Some TMiner) (fun l => l)
    (fun req net s bal => mkSendOut (inl (mkResp EC_OK None)) s bal net).

(** The power actor runs its methods, every other send succeeds. *)
Definition joint_env : Env Power.State State Param (list Z) :=
  mkEnv (fun _ a => addr_id a) (fun _ _ => Some 0) (fun _ => Some TAccount) (fun l => l)
    (fun req st s bal =>
       if bool_decide (to_addr req = STORAGE_POWER_ACTOR_ADDR) then
         match trampoline (fun env => Power.invoke_method power_ext Power.default_policy env) power_side (mkCtx 1000 101 4 0 0)
                 (power_msg req) (Some st) 0 tt with
         | Committed _ w => mkSendOut (inl (mkResp EC_OK (Some []))) s bal (default st (w_state w))
         | Aborted _ => mkSendOut (inr EN_IllegalOperation) s bal st
         end
       else mkSendOut (inl (mkResp EC_OK (Some []))) s (bal - send_value req) st).

Lemma joint_answers : answers power_ext Power.default_policy 1000 id joint_env.
Proof.
  intros req w r w' Ht [-> ->]%send_ok. exists unit, power_side, (mkCtx 1000 101 4 0 0), tt, 0. split; [done|].
  cbn. rewrite bool_decide_eq_true_2 by done. cbn.
  destruct (trampoline _ _ _ _ _ _ _) as [ret pw|] eqn:E; [|done]. split; [|done]. cbn.
  destruct (power_msg_update req Ht) as [[Hp _]|(dr & dq & Hp & _)].
  - by destruct (report_keeps_claims _ _ _ _ _ _ _ _ _ _ Hp E) as (st' & -> & _).
  - rewrite Hp in E. by destruct (update_adds_claim _ _ _ _ _ _ _ _ _ _ _ E) as (st' & cl & -> & _).
Qed.

Lemma joint_still req w r w' : send joint_env req w = Ok (r, w') ->
  w_state w' = w_state w /\ (send_value req = 0 -> w_balance w' = w_balance w) /\
  (to_addr req <> STORAGE_POWER_ACTOR_ADDR -> w_net w' = w_net w).
Proof.
  intros [_ ->]%send_ok. cbn. destruct (bool_decide _) eqn:E; [apply bool_decide_eq_true in E|].
  - by destruct (trampoline _ _ _ _ _ _ _).
  - cbn. split; [done|]. split; [intros ->; lia|done].
Qed.

Lemma joint_undisturbed : undisturbed joint_env.
Proof. intros req w r w' Hv (E1 & E2 & _)%joint_still. auto. Qed.
Lemma joint_aloof : aloof joint_env.
Proof. by intros req w r w' _ (E & _)%joint_still. Qed.

Definition registered : Power.State :=
  Power.set_claims {[AddrId 1000 := Power.mkClaim Power.StackedDRGWindow32GiBV1P1 0 0]} Power.new_state.

Notation JointWorld := (World Power.State State Param).

Definition joint_blank : JointWorld := mkWorld None funds registered false false [].
Definition joint_created : JointWorld :=
  match constructor demo joint_env init_ctx creation joint_blank with Ok (_, w) => w | _ => joint_blank end.
Lemma joint_created_ok : constructor demo joint_env init_ctx creation joint_blank = Ok (tt, joint_created).
Proof. vm_compute. reflexivity. Qed.

Definition joint_run (ctx : Ctx) (m : Msg) (w : JointWorld) : option JointWorld :=
  match trampoline (fun env => invoke_method demo env) joint_env ctx m (w_state w) (w_balance w) (w_net w) with
  | Committed _ w' => if w_deleted w' then None else Some w'
  | Aborted _ => None
  end.

Notation joint_conf e w := (mkJoint e (w_state w) (w_net w)).

Lemma joint_run_ok e ctx m w w' : joint_run ctx m w = Some w' -> e <= ctx_epoch ctx -> ctx_ok ctx = true ->
  timely ctx m (w_state w) ->
  joint demo power_ext Power.default_policy 1000 id (joint_conf e w) (joint_conf (ctx_epoch ctx) w').
Proof.
  intros H He Hok Ht. eapply joint_tick; [exact He|]. unfold joint_run in H.
  destruct (trampoline _ _ _ _ _ _ _) as [r w0|] eqn:E; [|done]. destruct (w_deleted w0) eqn:Hd; [done|]. injection H as ->.
  eapply joint_msg; [exact joint_aloof|exact joint_answers| |exact Hok|done|exact Ht|done|exact E|done|apply joint_refl].
  intros req w1 r1 w2 Ho (E1 & _ & E2)%joint_still. unfold id at 1 2. rewrite E1, E2 by done. apply joint_refl.
Qed.

Definition joint_steps : list (Ctx * Msg) :=
  [(owner_ctx 200, PreCommitSectorBatch2 [precommit]); (owner_ctx 400, ProveCommitSectors3 proof_params);
   (owner_ctx 3150, post 3140 [1]); (deadline_cron 3195, deadline_end); (owner_ctx 3300, replica)].

Definition undisputed (m : Msg) : bool := match m with DisputeWindowedPoSt _ _ => false | _ => true end.

Fixpoint joint_after (e : Z) (l : list (Ctx * Msg)) (w : JointWorld) : option (Z * JointWorld) :=
  match l with
  | [] => Some (e, w)
  | (ctx, m) :: l =>
      if (e <=? ctx_epoch ctx) && ctx_ok ctx && undisputed m
      then w ← joint_run ctx m w; joint_after (ctx_epoch ctx) l w
      else None
  end.

Lemma joint_after_ok l : forall e w e' w', joint_after e l w = Some (e', w') ->
  joint demo power_ext Power.default_policy 1000 id (joint_conf e w) (joint_conf e' w').
Proof.
  induction l as [|[ctx m] l IH]; intros e w e' w' H; cbn in H; [injection H as -> ->; apply joint_refl|].
  destruct (_ && _) eqn:E; [|done]. bool_prop. destruct (joint_run ctx m w) as [w1|] eqn:Hr; [|done].
  eapply joint_trans; [|by apply (IH _ _ _ _ H)]. eapply joint_run_ok; [exact Hr|done|done|]. by destruct m.
Qed.

Definition joint_updated : JointWorld :=
  match joint_after 100 joint_steps joint_created with Some (_, w) => w | None => joint_created end.
Lemma joint_updated_ok : joint_after 100 joint_steps joint_created = Some (3300, joint_updated).
Proof. vm_compute. reflexivity. Qed.

Lemma miner_claim_recorded_witness : exists s, w_state joint_updated = Some s /\
  ssum (fun n => qa (power_of (sector_size (info s)) (st_sectors s) n)) (active_sectors s) = 10 * (32 * GiB).
Proof.
  pose proof (miner_claim_recorded demo power_ext Power.default_policy 1000 id joint_env init_ctx creation joint_blank tt joint_created
    registered (joint_conf 3300 joint_updated) (default_calendar _) demo_partitions joint_undisturbed eq_refl joint_created_ok
    ltac:(vm_compute; reflexivity)) as H.
  change registered with (w_net joint_created) in H.
  destruct (H (joint_after_ok _ _ _ _ _ joint_updated_ok)) as (s & Hs & Hc).
  exists s. split; [exact Hs|]. apply (f_equal qa) in Hc. cbn [qa] in Hc. rewrite <- Hc. vm_compute. reflexivity.
Defined.
(** ** Disputes of updated sectors *)

Definition disputed : DemoWorld := deliver (owner_ctx 3400) (DisputeWindowedPoSt 0 0) updated.
Definition recovering : DemoWorld :=
  deliver (owner_ctx 5000) (DeclareFaultsRecovered [mkDeclaration 0 0 {[5]}]) disputed.

(** Without agreement of the snapshot and the table, the power claimed can exceed
    that of the active sectors.  In this run a miner's only sector is
    proven with an invalid window PoSt; after the deadline its replica
    is updated with verified data, and then the PoSt is disputed.  The dispute
    records the fault with the sector's info from the snapshot of the deadline's
    end, so it takes back the power of the sector before the update only: no
    sector is active, and the nine tenths of its quality-adjusted power that the
    update added stay claimed.  A window PoSt that would recover the sector in
    the next period aborts, because the partition's faulty power would become
    negative. *)
Example disputed_power_stays :
  demo_chain qa (fun _ _ _ => True) (claim_conf qa 100 created) (claim_conf qa 3400 disputed) /\
  active_sectors (state_of disputed) = ∅ /\ claimed qa id disputed = 9 * (32 * GiB) /\
  commits (owner_ctx 5000) (DeclareFaultsRecovered [mkDeclaration 0 0 {[5]}]) disputed = true /\
  trampoline (fun env => invoke_method demo env) demo_env (owner_ctx 6030) (post 6020 [1])
    (w_state recovering) (w_balance recovering) (w_net recovering) = Aborted USR_ILLEGAL_STATE.
Proof.
  split; [|split; [apply (bool_decide_unpack _); vm_compute; exact I|split; [|split]; vm_compute; reflexivity]].
  eapply chain_trans; [apply (updated_run qa (fun _ _ _ => True)); [exact qa_additive|done]|].
  apply (deliver_claim qa (fun _ _ _ => True) 3300 3400 (owner_ctx 3400) (DisputeWindowedPoSt 0 0));
    [exact qa_additive|lia|done|done|done|vm_compute; reflexivity].
Qed.
End MinerClaimDemo.
